(* ===== verification/_CoqProject ===== *)
-Q . S2P
Prelude.v
CLib.v
Buffers.v
Hiredis.v
Program.v
MinColor.v
Client1.v
ClientSync.v
Protocol.v
Keys.v
ServerSpec.v
Writer.v
Simulation.v
ClientWp.v
Refine1.v
RefineSync.v
Colouring.v
Termination.v
Progress.v
Mutex.v
CheckColor.v
Util.v
Dict.v
DictSpec.v
DictScan.v
Replication.v
ReplicationSpec.v
ReplicationStream.v
ReplicationRun.v
Wait.v
Reader.v
ReaderSpec.v
ReaderTree.v
Connection.v
Output.v
OutputSpec.v
Bytes.v
Intset.v
Glob.v
Listpack.v
ListpackRep.v
SetType.v
Db.v
DbRel.v
Strings.v
StringsSpec.v
SetCommands.v
KeyCommands.v
SetAlgebra.v
SetAlgebraSpec.v
AddGraph.v
Server.v
ServerRefine.v
Sds.v
Networking.v
NetworkingSpec.v
Replica.v
ReplicaSpec.v
ReplicaRun.v
RedisServer.v
Wire.v
EndToEnd.v
