(* ===== verification/Prelude.v ===== *)
(** * Distributed graph colouring over Redis: a verification development

    ** The program

    The repository colours a graph with several processes that share nothing
    but a Redis server.  A file of edges is loaded into the server by the
    command [add_graph], which the repository adds to Redis
    (src/redis/src/custom.c).  Then clients are started, each with a range of
    nodes: src/color/1server/color.c writes to one server,
    src/color/sync/color.c repeats every write until enough replicas have
    acknowledged it.  A client colours its nodes one after the other.  It reads
    the colours of the neighbours, takes the smallest free colour and writes
    it; before it reads a neighbour that belongs to another client and is not
    marked as coloured, it takes the lock of the edge, a Peterson lock kept in
    three keys of the server.  All communication is by [redisCommand] of
    hiredis, that is by requests in the RESP protocol.

    ** The parts and their models

    The clients.
    - [CLib]: what they use of the C library ([atoi], [strchr], [snprintf],
      [sscanf], [fgets], [qsort]).
    - [Hiredis]: [redisvFormatCommand] of deps/hiredis/hiredis.c, from a format
      to the arguments and bytes of a request; the replies.
    - [Program]: a C process as a tree of requests ([prog]); its execution
      alone ([run], [solo]), or interleaved with others and with failing
      connections ([system_step]).
    - [MinColor]: [getMinimalValueNotInArray] of both programs.
    - [Client1]: src/color/1server/color.c, one definition per function, from
      [main] down.  [ClientSync]: the functions of src/color/sync/color.c that
      differ.  [Writer]: src/color/redis_writer.c.
    - [CheckColor]: src/color/1server/check_color.py, the script that checks a
      colouring in the server.

    The correctness of the clients.
    - [Protocol]: the abstract protocol, nodes and edges instead of keys, with
      its inductive invariant and its freedom from deadlock.
    - [Keys]: the keys and the fixed-size buffers they are printed into.
    - [ServerSpec]: the type class [KVServer], all that a client relies on in a
      server.
    - [Simulation]: a program logic ([wp]) in which each request is matched by
      steps of the protocol, its soundness under interleaving and connection
      failures, and what a client comes to that runs alone.
    - [ClientWp], [Refine1], [RefineSync]: the functions of the clients in this
      logic.
    - [Colouring], [Termination], [Progress], [Mutex]: the theorems on systems of
      clients.

    The server (all paths under src/redis/src).
    - [Util]: the number conversions of util.c; [Glob]: [stringmatchlen];
      [Sds]: quoting and splitting of sds.c.
    - [Dict]: the hash tables of dict.c, with incremental rehashing, resizing, the
      scan and the iterator.  [DictSpec], [DictScan]: the finite maps they stand
      for, and what a scan returns.
    - [Bytes], [Intset], [Listpack], [ListpackRep]: intset.c and listpack.c down
      to the bytes, and the sets and sequences they represent.
    - [SetType]: the set objects of t_set.c with three encodings.
    - [Db], [DbRel]: the key space of db.c, the value encodings of object.c,
      expiry and the histogram of key sizes; the store that a database stands
      for.  A command handler is a [cmd], a state transformer that fails where
      the source fails an assertion.
    - [Strings], [StringsSpec]: the commands of t_string.c.  [SetCommands],
      [SetAlgebra], [SetAlgebraSpec]: those of t_set.c.  [KeyCommands]: [DEL],
      [UNLINK], [EXISTS] and [KEYS].  [AddGraph]: custom.c.
    - [Server]: the command table, the admission checks of [processCommand] and
      [WAIT].  [ServerRefine]: every command of the table against its meaning.
    - [Networking]: the query buffer and the request parsers of networking.c,
      for an ordinary client and for the link of a replica to its master.
      [NetworkingSpec]: what they do with any bytes and with a stream of
      requests.  [Output], [OutputSpec]: the output buffers, how replies are
      built in them and written to the socket.
    - [Replication]: the master's side of replication.c: the stream of commands
      in blocks that the replicas and the backlog share, synchronisation,
      snapshots and the cron.  [ReplicationSpec], [ReplicationStream],
      [ReplicationRun]: the stream that the blocks stand for, each operation on
      it, and any sequence of events.  [Wait]: [WAIT] and [WAITAOF] of
      replication.c and blocked.c on top of it.
    - [Replica]: the replica's side of replication.c: the handshake, [PSYNC] and
      its answers, the client of the master that is kept over a lost
      connection, [REPLICAOF] and the change of identifiers.  [ReplicaSpec]: the
      handshake, and the commands of a master over many connections.
      [ReplicaRun]: a server over time, in both roles, with replicas of its own.
    - [RedisServer]: the server as an instance of [KVServer].

    The client's side of a connection (under src/redis/deps/hiredis).
    - [Buffers]: pieces of byte streams.
    - [Reader]: the reply parser of read.c, with the stack of tasks and the
      objects that hiredis.c creates in a heap.  [ReaderSpec]: a parser that has
      stopped for want of input goes on as if the input had been there from the
      start.  [ReaderTree]: replies as trees, their bytes and their objects.
    - [Connection]: the blocking context of hiredis.c on the calls of net.c.

    The parts together.
    - [Wire]: one command from its format to its reply, over byte streams.
    - [EndToEnd]: from the graph file to the colouring.

    This file holds what all of them share: arithmetic at machine widths,
    strings and numerals, lists, tactics and the hint database [colour].

    ** What is shown

    - Safety.  Any number of clients with disjoint ranges, interleaved request
      by request, with requests and replies lost at any moment: two adjacent
      coloured nodes never have the same colour, no colour exceeds the degree of
      its node, and a client that returned 0 has coloured its range
      ([Colouring]).  The edge lock excludes ([Mutex]).
    - Termination and liveness.  Clients run one after the other all return 0
      ([Termination]).  From any state that interleaved clients reach on working
      connections they can go on until all have returned 0 ([Progress]): locks
      are taken in the order of the edges, so nobody waits in a circle.
    - Refinement of the server.  Any sequence of requests gets the replies and
      leaves the database of an abstract server with a map of strings and sets;
      no assertion fails; the invariant of the database is kept
      ([ServerRefine]).  Underneath, the byte-level integer sets, listpacks and
      set objects implement sets and sequences ([Intset], [ListpackRep],
      [SetType]), and the glob matcher its declarative meaning ([Glob]).
    - Hash tables.  A table with its incremental rehashing is a finite map under
      any sequence of calls, and rehashing comes to an end ([DictSpec]); a scan
      returns every key that stays in the table while it is resized between the
      calls, and an iterator every key once ([DictScan]).  The models above them
      use finite maps, with the order of iteration as a parameter.
    - The command of the repository.  [add_graph] loads exactly the graph of the
      file; a self-loop of a new node aborts the server ([AddGraph]).
    - Replication.  Over any sequence of events no assertion fails, and every
      replica has been sent the stream from the offset it was told, without a
      gap, unless it joined the snapshot of a replica that is being closed
      ([ReplicationRun]).  A reply to [WAIT] counts only replicas that have been
      sent all that the client wrote, and the pass over the blocked
      clients answers exactly those that have enough ([Wait]).  A replica asks
      and waits in step with its master, and applies the commands of a stream
      without transactions once each and in order, over connections lost at any
      byte ([ReplicaSpec]).  A server that changes its role and its master any
      number of times tells its own replicas one history, and resumes only
      those that have it ([ReplicaRun]).
    - The wire.  Whatever requests are sent, and however the stream is cut,
      the server executes exactly these requests; and whatever bytes are sent,
      the parser comes down to commands and error replies that the bytes alone
      decide, and only a command can stop it ([NetworkingSpec]).  However
      replies are built and in whatever portions the socket takes them, they
      leave whole and in order ([OutputSpec]), and hiredis builds from any
      pieces of them the objects they stand for ([Connection]).  Together: a
      command over the wire gets the answer of the contract ([Wire]).
    - The whole.  [add_graph] on an empty Redis server, then clients on that
      server: the colouring is proper ([EndToEnd]).  The checking script counts
      exactly the conflicts of a colouring ([CheckColor]), and finds none in
      one that clients have made ([EndToEnd]).

    ** Interfaces and parameters

    The clients' theorems hold for every instance of [KVServer]; [RedisServer]
    proves that the model of Redis is one, as long as keys do not expire and
    the server accepts commands.  Parameters of the models are: the files that
    can be opened; whether [calloc] succeeds; the content of memory that the
    code does not initialise ([uninit] for the lock array of the 1-server
    client, [new_memory] for [realloc]); the order in which a hash table is
    iterated; the clock; in [Server] the number of replicas that acknowledge; the
    limits of the configuration; the client library of the checking script; what
    a request does to the data, in [Networking] and above it until [Wire]; which
    snapshots succeed and which replicas can be written to; what the masters of
    a replica answer and send; the outcome of connecting and of each call of
    [recv], [send], [read] and [writev]; the usable size of an allocation; and
    whether [strtod] takes a text as a finite double.

    ** Fuel and bounds

    Recursion that is not structural has fuel.  [getMinimalValueNotInArray] is
    called with fuel 2, and [MinColor] shows that one widening is enough.  The
    loops of [Glob], [Listpack], [Sds] and [Networking] have the length of their
    input as fuel; the theorems give results, not only conditional ones, and
    [input_loop_fuel] shows that more fuel changes nothing on any input.  The
    reply parser has a unit of fuel for every byte, since every item takes one
    ([item_loop_runs]); its other loops are bounded by the depth of the stack.
    In [Dict] the loop over empty buckets has the number of buckets as fuel, the
    loop over the expansions of a cursor that of the larger table
    ([scan_larger_spec]), and an iterator those of both tables ([nexts_all]).
    Feeding the stream has a unit of fuel for every byte, since every round copies
    one ([feed_loop_spec]), and trimming is bounded by the number of blocks per
    call.  The loops on sockets take one result of a call in each round.  The
    waiting and writing loops of the clients have no fuel: they are [Loop]
    nodes, and [run] and [exec] are quantified over the number of steps.  Node
    ids fit an [int] and graphs have less than 10^9 nodes, so that no buffer of
    the clients truncates.  Counts are kept at the width of the source where the
    code depends on it, and the theorems say up to where they are right: members
    of sets are shorter than 2^32 bytes, since [lpFind] takes a 32-bit length;
    the configured limit of integer sets is less than 2^29 entries
    ([limits_ok]; the default is 512), since [intsetMoveTail] counts bytes in 32
    bits; and [SUNION] and [SDIFF] are applied to at most [INT_MAX] different
    strings, since they count in an [int].

    ** Not modelled

    - The statistics of the sync client (the functions [log_*]): they write log
      files.
    - Of hiredis: connecting, timeouts, pipelined and asynchronous use,
      encryption, and running out of memory.  In the models of the clients a
      reply is a value and a failed request ends the connection.
    - Of Redis: lists, hashes, sorted sets, streams, modules, scripting,
      publish/subscribe, persistence, planned failover, clusters, eviction,
      access control lists, the third version of the protocol, limits on output
      buffers and I/O threads; what a transaction does to the data (only that a
      master's offset waits for its end); commands that leave their client
      blocked, other than [WAIT] and [WAITAOF] in [Wait]; the bytes of a
      snapshot, whose transfer succeeds or fails as a whole; of t_string.c [MGET], [INCRBYFLOAT] and
      [LCS]; of t_set.c the random selections, [SMISMEMBER] and [SSCAN]; of
      listpack.c the batch operations and random selections; of dict.c random
      selection, unlinking in two steps, safe iterators, stored keys and
      defragmentation.  Memory allocation succeeds.
    - src/KeyDB_1, a fork of Redis; its custom.cpp has the same [add_graph] on
      KeyDB's functions.  src/redis/deps and src/KeyDB_1/deps other than hiredis.
    - src/monitor, src/scripts, src/graph and the shell scripts: plots, start-up
      and data. *)

From Stdlib Require Export ZArith Lia.
From Stdlib Require Import Ascii.
From stdpp Require Export base functions tactics list gmap strings pretty sorting.

#[global] Open Scope Z_scope.

(** ** Notation scope of the development *)

Declare Scope colour_scope.
Delimit Scope colour_scope with colour.

(** ** Tactics *)

(** Split a conjunction of boolean tests in the context and turn each of them
    into the proposition it decides. *)
Ltac reflect_bools :=
  repeat match goal with
  | H : _ && _ = true |- _ => apply andb_true_iff in H as [? ?]
  | H : _ || _ = false |- _ => apply orb_false_iff in H as [? ?]
  | H : negb _ = true |- _ => apply negb_true_iff in H
  | H : negb _ = false |- _ => apply negb_false_iff in H
  | H : (_ <? _) = true |- _ => apply Z.ltb_lt in H
  | H : (_ <? _) = false |- _ => apply Z.ltb_ge in H
  | H : (_ <=? _) = true |- _ => apply Z.leb_le in H
  | H : (_ <=? _) = false |- _ => apply Z.leb_gt in H
  | H : (_ =? _) = true |- _ => apply Z.eqb_eq in H
  | H : (_ =? _) = false |- _ => apply Z.eqb_neq in H
  | H : (_ >? _) = true |- _ => rewrite Z.gtb_ltb in H
  | H : (_ >? _) = false |- _ => rewrite Z.gtb_ltb in H
  | H : (_ >=? _) = true |- _ => rewrite Z.geb_leb in H
  | H : (_ >=? _) = false |- _ => rewrite Z.geb_leb in H
  | H : bool_decide _ = true |- _ => apply bool_decide_eq_true in H
  | H : bool_decide _ = false |- _ => apply bool_decide_eq_false in H
  end.

(** Case split on the innermost scrutinee of a [match] or an [if] of the goal
    and reflect the boolean that was split on. *)
Ltac case_goal :=
  match goal with
  | |- context [match ?x with _ => _ end] =>
      lazymatch x with
      | context [match _ with _ => _ end] => fail
      | _ => let E := fresh "E" in destruct x eqn:E; reflect_bools
      end
  end.

Ltac case_hyp H :=
  match type of H with
  | context [match ?x with _ => _ end] =>
      lazymatch x with
      | context [match _ with _ => _ end] => fail
      | _ => let E := fresh "E" in destruct x eqn:E; reflect_bools
      end
  end.

Create HintDb colour.

(** ** Machine integers

    A C integer is a [Z]; the width shows where the code casts or wraps. *)

Definition INT_MIN : Z := -2147483648.
Definition INT_MAX : Z := 2147483647.
Definition LLONG_MIN : Z := -9223372036854775808.
Definition LLONG_MAX : Z := 9223372036854775807.
Definition ULLONG_MAX : Z := 18446744073709551615.
Definition INT32_MIN : Z := -2147483648.
Definition INT32_MAX : Z := 2147483647.
Definition INT16_MIN : Z := -32768.
Definition INT16_MAX : Z := 32767.

(** The value an unsigned or a two's complement signed [w]-bit object holds
    after [z] is stored in it. *)
Definition wrap_u (w z : Z) : Z := z mod 2 ^ w.
Definition wrap_s (w z : Z) : Z := (z + 2 ^ (w - 1)) mod 2 ^ w - 2 ^ (w - 1).

Definition in_int (z : Z) : Prop := INT_MIN ≤ z ≤ INT_MAX.
Definition in_llong (z : Z) : Prop := LLONG_MIN ≤ z ≤ LLONG_MAX.

Ltac unfold_ints :=
  unfold in_int, in_llong, INT_MIN, INT_MAX, LLONG_MIN, LLONG_MAX, ULLONG_MAX,
    INT32_MIN, INT32_MAX, INT16_MIN, INT16_MAX in *.

Ltac ints := unfold_ints; lia.

Lemma wrap_s_small w z :
  0 < w → - 2 ^ (w - 1) ≤ z < 2 ^ (w - 1) → wrap_s w z = z.
Proof.
  intros Hw Hz. unfold wrap_s.
  assert (2 ^ w = 2 * 2 ^ (w - 1)) as Hp.
  { rewrite <- Z.pow_succ_r by lia. f_equal. lia. }
  rewrite Z.mod_small; lia.
Qed.

Lemma wrap_s_range w z : 0 < w → - 2 ^ (w - 1) ≤ wrap_s w z < 2 ^ (w - 1).
Proof.
  intros Hw. unfold wrap_s.
  assert (2 ^ w = 2 * 2 ^ (w - 1)) as Hp.
  { rewrite <- Z.pow_succ_r by lia. f_equal. lia. }
  assert (0 < 2 ^ (w - 1)) by (apply Z.pow_pos_nonneg; lia).
  pose proof (Z.mod_pos_bound (z + 2 ^ (w - 1)) (2 ^ w)). lia.
Qed.

Lemma wrap_s_32 z : in_int z → wrap_s 32 z = z.
Proof. intros ?. apply wrap_s_small; unfold_ints; simpl; lia. Qed.

#[export] Hint Resolve wrap_s_32 : colour.

(** ** Strings *)

#[global] Arguments String.append !_ _ : simpl nomatch.

Lemma string_app_nil_r (s : string) : s +:+ "" = s.
Proof. induction s; simpl; congruence. Qed.

Lemma string_app_assoc (a b c : string) : a +:+ (b +:+ c) = (a +:+ b) +:+ c.
Proof. induction a; simpl; congruence. Qed.

Lemma string_length_app (a b : string) :
  String.length (a +:+ b) = (String.length a + String.length b)%nat.
Proof. induction a; simpl; congruence. Qed.

Lemma string_app_inj_l (a b x y : string) :
  a +:+ x = b +:+ y → String.length x = String.length y → a = b ∧ x = y.
Proof.
  intros H Hl. revert b H. induction a as [|c a IH]; intros [|d b] H; simpl in *.
  - done.
  - subst x. simpl in Hl. rewrite string_length_app in Hl. lia.
  - subst y. simpl in Hl. rewrite string_length_app in Hl. lia.
  - injection H as -> H. by destruct (IH b H) as [-> ->].
Qed.

Lemma string_app_inj_r (a b c : string) : a +:+ b = a +:+ c → b = c.
Proof. induction a; simpl; intros; simplify_eq; auto. Qed.

(** [char_free c s]: the character [c] does not occur in [s]. *)
Fixpoint char_free (c : ascii) (s : string) : Prop :=
  match s with
  | EmptyString => True
  | String d s => d ≠ c ∧ char_free c s
  end.

Lemma char_free_app c a b : char_free c (a +:+ b) ↔ char_free c a ∧ char_free c b.
Proof. induction a; simpl; naive_solver. Qed.

(** Two strings split at the first occurrence of a separator agree part by
    part: the fact behind the injectivity of every key of the protocol. *)
Lemma split_at_sep (c : ascii) a a' b b' :
  char_free c a → char_free c a' →
  a +:+ String c b = a' +:+ String c b' → a = a' ∧ b = b'.
Proof.
  revert a'. induction a as [|x a IH]; intros [|x' a'] Ha Ha' Heq;
    simpl in *; simplify_eq; naive_solver.
Qed.

(** ** Decimal notation *)

Definition is_digit (c : ascii) : bool :=
  (48 <=? Z.of_N (N_of_ascii c)) && (Z.of_N (N_of_ascii c) <=? 57).

Definition digit_val (c : ascii) : Z := Z.of_N (N_of_ascii c) - 48.

Fixpoint all_digits (s : string) : Prop :=
  match s with
  | EmptyString => True
  | String c s => is_digit c = true ∧ all_digits s
  end.

(** The value of a digit string read after the digits of [acc]. *)
Fixpoint digits_value (acc : Z) (s : string) : Z :=
  match s with
  | EmptyString => acc
  | String c s => digits_value (acc * 10 + digit_val c) s
  end.

Lemma all_digits_app a b : all_digits (a +:+ b) ↔ all_digits a ∧ all_digits b.
Proof. induction a; simpl; naive_solver. Qed.

Lemma digits_value_app acc a b :
  digits_value acc (a +:+ b) = digits_value (digits_value acc a) b.
Proof. revert acc. induction a; simpl; auto. Qed.

Lemma pretty_char_spec x :
  (x < 10)%N →
  is_digit (pretty_N_char x) = true ∧ digit_val (pretty_N_char x) = Z.of_N x.
Proof.
  intros Hx.
  assert (x = 0 ∨ x = 1 ∨ x = 2 ∨ x = 3 ∨ x = 4 ∨ x = 5 ∨ x = 6 ∨ x = 7
          ∨ x = 8 ∨ x = 9)%N as Hc by lia.
  repeat destruct Hc as [->|Hc]; try subst x; split; reflexivity.
Qed.

Lemma pretty_N_go_app x s : pretty_N_go x s = pretty_N_go x "" +:+ s.
Proof.
  revert s. induction (N.lt_wf_0 x) as [x _ IH]; intros s.
  assert (x = 0 ∨ 0 < x)%N as [->|Hx] by lia; [done|].
  rewrite (pretty_N_go_step x s), (pretty_N_go_step x "") by done.
  pose proof (N.div_lt x 10 Hx eq_refl) as Hlt.
  rewrite (IH _ Hlt (String _ s)), (IH _ Hlt (String _ "")).
  by rewrite <- string_app_assoc.
Qed.

Lemma pretty_N_step x :
  (10 ≤ x)%N → pretty x = pretty (x / 10)%N +:+ String (pretty_N_char (x mod 10)) "".
Proof.
  intros Hx. unfold pretty, pretty_N.
  assert (0 < x / 10)%N by (apply N.div_str_pos; lia).
  rewrite !decide_False by lia.
  by rewrite pretty_N_go_step, pretty_N_go_app by lia.
Qed.

Lemma pretty_N_small x : (x < 10)%N → pretty x = String (pretty_N_char x) "".
Proof.
  intros Hx.
  assert (x = 0 ∨ x = 1 ∨ x = 2 ∨ x = 3 ∨ x = 4 ∨ x = 5 ∨ x = 6 ∨ x = 7
          ∨ x = 8 ∨ x = 9)%N as Hc by lia.
  repeat destruct Hc as [->|Hc]; try subst x; reflexivity.
Qed.

(** Induction on the number of decimal digits. *)
Lemma decimal_ind (P : N → Prop) :
  (∀ x, (x < 10)%N → P x) →
  (∀ x, (10 ≤ x)%N → P (x / 10)%N → P x) →
  ∀ x, P x.
Proof.
  intros Hs Hb x. induction (N.lt_wf_0 x) as [x _ IH].
  destruct (decide (x < 10)%N); [auto|].
  apply Hb; [lia|]. apply IH. apply N.div_lt; lia.
Qed.

Lemma pretty_N_digits (x : N) : all_digits (pretty x).
Proof.
  induction x as [x Hx|x Hx IH] using decimal_ind.
  - rewrite pretty_N_small by done. simpl. split; [|done]. by apply pretty_char_spec.
  - rewrite pretty_N_step by done. apply all_digits_app. split; [done|].
    simpl. split; [|done]. apply pretty_char_spec. by apply N.mod_lt.
Qed.

Lemma pretty_N_value (x : N) : digits_value 0 (pretty x) = Z.of_N x.
Proof.
  induction x as [x Hx|x Hx IH] using decimal_ind.
  - rewrite pretty_N_small by done. cbn [digits_value].
    rewrite (proj2 (pretty_char_spec x Hx)). lia.
  - rewrite pretty_N_step, digits_value_app, IH by done. cbn [digits_value].
    rewrite (proj2 (pretty_char_spec (x mod 10) ltac:(by apply N.mod_lt))).
    pose proof (N.div_mod x 10). lia.
Qed.

(** The length of the decimal notation, by powers of ten. *)
Lemma pretty_N_length (x : N) (d : nat) :
  (x < 10 ^ N.of_nat (S d))%N → (String.length (pretty x) ≤ S d)%nat.
Proof.
  revert d. induction x as [x Hx|x Hx IH] using decimal_ind; intros d Hd.
  - rewrite pretty_N_small by done. simpl. lia.
  - rewrite pretty_N_step, string_length_app by done. simpl.
    destruct d as [|d]; [simpl in Hd; lia|].
    assert (x / 10 < 10 ^ N.of_nat (S d))%N as Hq.
    { apply N.Div0.div_lt_upper_bound.
      replace (N.of_nat (S (S d))) with (N.succ (N.of_nat (S d))) in Hd by lia.
      by rewrite N.pow_succ_r' in Hd. }
    apply IH in Hq. lia.
Qed.

Lemma pretty_N_nonempty (x : N) : pretty x ≠ "".
Proof.
  destruct (decide (x < 10)%N).
  - by rewrite pretty_N_small.
  - rewrite pretty_N_step by lia. by destruct (pretty (x / 10)%N).
Qed.

(** [%d] of a C integer. *)
Lemma pretty_Z_nonneg (z : Z) : 0 ≤ z → pretty z = pretty (Z.to_N z).
Proof. by destruct z. Qed.

Lemma pretty_Z_neg (z : Z) : z < 0 → pretty z = "-" +:+ pretty (Z.to_N (- z)).
Proof. by destruct z. Qed.

Lemma is_digit_ne c d : is_digit d = true → is_digit c = false → d ≠ c.
Proof. intros ?? ->; congruence. Qed.

Lemma all_digits_char_free c s : is_digit c = false → all_digits s → char_free c s.
Proof. induction s; simpl; [done|]. intros ? []. eauto using is_digit_ne. Qed.

(** Decimal numerals hold nothing but digits and a sign. *)
Lemma pretty_Z_char_free c (z : Z) :
  is_digit c = false → c ≠ "-"%char → char_free c (pretty z).
Proof.
  intros Hc Hm. destruct (decide (0 ≤ z)).
  - rewrite pretty_Z_nonneg by done. by apply all_digits_char_free, pretty_N_digits.
  - rewrite pretty_Z_neg by lia. simpl. split; [done|].
    by apply all_digits_char_free, pretty_N_digits.
Qed.

Lemma pretty_Z_sep_free (z : Z) : char_free "_" (pretty z).
Proof. by apply pretty_Z_char_free. Qed.

Lemma pretty_int_length (z : Z) : in_int z → (String.length (pretty z) ≤ 11)%nat.
Proof.
  intros Hz. destruct (decide (0 ≤ z)).
  - rewrite pretty_Z_nonneg by done.
    etransitivity; [apply (pretty_N_length _ 9)|lia]. simpl. ints.
  - rewrite pretty_Z_neg by lia. simpl.
    enough (String.length (pretty (Z.to_N (- z))) ≤ 10)%nat by lia.
    apply (pretty_N_length _ 9). simpl. ints.
Qed.

#[export] Hint Resolve pretty_Z_sep_free pretty_int_length : colour.

Lemma seqZ_sorted a n : StronglySorted Z.lt (seqZ a n).
Proof.
  remember (Z.to_nat n) as k eqn:Hk. revert a n Hk.
  induction k as [|k IH]; intros a n Hk; [rewrite seqZ_nil by lia; constructor|].
  rewrite seqZ_cons by lia. constructor; [apply IH; lia|].
  apply Forall_seqZ. lia.
Qed.
