(* ===== verification/CLib.v ===== *)
(** * The C library the programs call

    The functions of the C library used by the colouring clients and by the
    [add_graph] command: [atoi] and the [%d] conversions of [snprintf] and
    [sscanf], the string searches, [fgets] and [qsort].  A C string is a
    [string]; [c_str] is what a callee sees of a buffer that may hold NUL. *)

From S2P Require Import Prelude.
From Stdlib Require Import Ascii.

(** ** Character classes and C strings *)

Definition NUL : ascii := Ascii.zero.

(** [isspace] in the C locale: space and the codes 9 to 13. *)
Definition isspace (c : ascii) : bool :=
  let n := Z.of_N (N_of_ascii c) in (n =? 32) || ((9 <=? n) && (n <=? 13)).

Fixpoint c_str (s : string) : string :=
  match s with
  | EmptyString => EmptyString
  | String c s => if decide (c = NUL) then EmptyString else String c (c_str s)
  end.

(** ** Integer conversions *)

Fixpoint skip_space (s : string) : string :=
  match s with
  | String c s' => if isspace c then skip_space s' else s
  | EmptyString => s
  end.

(** The longest prefix of digits, and what follows it. *)
Fixpoint span_digits (s : string) : string * string :=
  match s with
  | String c s' =>
      if is_digit c then let '(d, r) := span_digits s' in (String c d, r)
      else (EmptyString, s)
  | EmptyString => (EmptyString, s)
  end.

(** White space, an optional sign, at least one digit: the subject sequence of
    [strtol] in base ten, with its mathematical value and the rest. *)
Definition subject_sequence (s : string) : option (Z * string) :=
  let s := skip_space s in
  let '(neg, s) :=
    match s with
    | String c s' =>
        if decide (c = "-"%char) then (true, s')
        else if decide (c = "+"%char) then (false, s') else (false, s)
    | EmptyString => (false, s)
    end in
  match span_digits s with
  | (EmptyString, _) => None
  | (d, r) => Some (if neg : bool then - digits_value 0 d else digits_value 0 d, r)
  end.

(** [strtol] saturates at the bounds of [long]. *)
Definition clamp_long (z : Z) : Z := Z.max LLONG_MIN (Z.min LLONG_MAX z).

Definition strtol (s : string) : Z :=
  match subject_sequence s with
  | Some (v, _) => clamp_long v
  | None => 0
  end.

(** [atoi] is [(int) strtol (s, NULL, 10)]. *)
Definition atoi (s : string) : Z := wrap_s 32 (strtol s).

(** The [%d] conversion of [sscanf]: the value stored, and the rest. *)
Definition scan_d (s : string) : option (Z * string) :=
  match subject_sequence s with
  | Some (v, r) => Some (wrap_s 32 (clamp_long v), r)
  | None => None
  end.

(** ** String functions *)

(** [tolower] in the C locale, and [strcasecmp (a, b) == 0]. *)
Definition tolower (c : ascii) : ascii :=
  let n := N_of_ascii c in
  if ((65 <=? n) && (n <=? 90))%N then ascii_of_N (n + 32) else c.

Fixpoint lower (s : string) : string :=
  match s with
  | EmptyString => EmptyString
  | String c s => String (tolower c) (lower s)
  end.

Definition strcaseeq (a b : string) : bool := bool_decide (lower (c_str a) = lower (c_str b)).

(** [strchr s c]: the rest of [s] from the first [c] on. *)
Fixpoint strchr (s : string) (c : ascii) : option string :=
  match s with
  | EmptyString => None
  | String d s' => if decide (d = c) then Some s else strchr s' c
  end.

Fixpoint is_prefix (p s : string) : bool :=
  match p, s with
  | EmptyString, _ => true
  | String a p, String b s => bool_decide (a = b) && is_prefix p s
  | _, _ => false
  end.

(** [strstr h n]: what precedes the first occurrence of [n] in [h]. *)
Fixpoint strstr_before (h n : string) : option string :=
  if is_prefix n h then Some EmptyString
  else match h with
       | EmptyString => None
       | String c h' => option_map (String c) (strstr_before h' n)
       end.

(** [snprintf (buf, size, ...)]: the string [buf] holds afterwards, when the
    formatted output is [out]. *)
Definition snprintf (size : nat) (out : string) : string :=
  match size with
  | O => EmptyString
  | S n => String.substring 0 n out
  end.

(** ** [fgets] *)

(** At most [n] characters, up to and including the first newline. *)
Fixpoint fgets_chars (n : nat) (s : string) : string * string :=
  match n, s with
  | O, _ => (EmptyString, s)
  | _, EmptyString => (EmptyString, s)
  | S n, String c s' =>
      if decide (c = "010"%char) then (String c EmptyString, s')
      else let '(l, r) := fgets_chars n s' in (String c l, r)
  end.

(** [fgets (buf, size, f)] on the unread content of [f]: [None] at the end. *)
Definition fgets (size : nat) (content : string) : option (string * string) :=
  match content with
  | EmptyString => None
  | _ => Some (fgets_chars (size - 1) content)
  end.

(** The successive results of [while (fgets (buf, size, f))]. *)
Fixpoint fgets_all (fuel : nat) (size : nat) (content : string) : list string :=
  match fuel with
  | O => []
  | S fuel =>
      match fgets size content with
      | None => []
      | Some (l, r) => l :: fgets_all fuel size r
      end
  end.

Definition read_lines (size : nat) (content : string) : list string :=
  fgets_all (String.length content) size content.

(** ** [qsort] *)

(** Insertion by a C comparator; elements that compare equal keep their
    order (the C standard leaves it open). *)
Fixpoint qinsert {A} (cmp : A → A → Z) (x : A) (l : list A) : list A :=
  match l with
  | [] => [x]
  | y :: l' => if cmp x y <=? 0 then x :: l else y :: qinsert cmp x l'
  end.

Definition qsort {A} (cmp : A → A → Z) (l : list A) : list A :=
  foldr (qinsert cmp) [] l.

(** ** Facts about the conversions *)

Lemma span_digits_app d c r :
  all_digits d → is_digit c = false →
  span_digits (d +:+ String c r) = (d, String c r).
Proof.
  intros Hd Hc. induction d as [|x d IH]; simpl in *.
  - by rewrite Hc.
  - destruct Hd as [-> Hd]. by rewrite IH.
Qed.

Lemma span_digits_all d : all_digits d → span_digits d = (d, EmptyString).
Proof.
  induction d as [|x d IH]; simpl; [done|]. intros [-> Hd]. by rewrite IH.
Qed.

Lemma digit_not_space c : is_digit c = true → isspace c = false.
Proof.
  unfold is_digit, isspace. intros H. reflect_bools.
  apply orb_false_iff. split; [apply Z.eqb_neq; lia|].
  apply andb_false_iff. right. apply Z.leb_gt. lia.
Qed.

Lemma skip_space_digit c s : is_digit c = true → skip_space (String c s) = String c s.
Proof. intros H. simpl. by rewrite digit_not_space. Qed.

Definition starts_nondigit (r : string) : Prop :=
  match r with EmptyString => True | String c _ => is_digit c = false end.

Lemma span_digits_stop d r :
  all_digits d → starts_nondigit r → span_digits (d +:+ r) = (d, r).
Proof.
  destruct r as [|c r]; intros Hd Hr.
  - rewrite string_app_nil_r. by apply span_digits_all.
  - by apply span_digits_app.
Qed.

(** A printed integer reads back, whatever non-digit follows it. *)
Lemma subject_sequence_pretty (z : Z) r :
  starts_nondigit r → subject_sequence (pretty z +:+ r) = Some (z, r).
Proof.
  intros Hr. unfold subject_sequence.
  destruct (decide (0 ≤ z)) as [Hz|Hz].
  - rewrite pretty_Z_nonneg by done.
    pose proof (pretty_N_digits (Z.to_N z)) as Hd.
    pose proof (pretty_N_value (Z.to_N z)) as Hv.
    destruct (pretty (Z.to_N z)) as [|c s] eqn:E;
      [by apply pretty_N_nonempty in E|].
    destruct Hd as [Hc Hs]. simpl String.append.
    rewrite skip_space_digit by done.
    assert (c ≠ "-"%char ∧ c ≠ "+"%char) as [H1 H2]
      by (split; by apply is_digit_ne).
    rewrite !decide_False by done.
    change (String c (s +:+ r)) with (String c s +:+ r).
    rewrite span_digits_stop by done. cbn [negb]. rewrite Hv.
    by rewrite Z2N.id.
  - rewrite pretty_Z_neg by lia. simpl.
    pose proof (pretty_N_digits (Z.to_N (- z))) as Hd.
    pose proof (pretty_N_value (Z.to_N (- z))) as Hv.
    rewrite span_digits_stop by done.
    destruct (pretty (Z.to_N (- z))) as [|c s] eqn:E;
      [by apply pretty_N_nonempty in E|].
    rewrite Hv. do 2 f_equal. lia.
Qed.

Lemma clamp_long_id z : in_llong z → clamp_long z = z.
Proof. unfold clamp_long. ints. Qed.

Lemma in_int_llong z : in_int z → in_llong z.
Proof. ints. Qed.

#[export] Hint Resolve clamp_long_id in_int_llong : colour.

Lemma scan_d_pretty (z : Z) r :
  in_int z → starts_nondigit r → scan_d (pretty z +:+ r) = Some (z, r).
Proof.
  intros Hz Hr. unfold scan_d. rewrite subject_sequence_pretty by done.
  rewrite clamp_long_id, wrap_s_32 by auto with colour. done.
Qed.

Lemma atoi_pretty_app (z : Z) r :
  in_int z → starts_nondigit r → atoi (pretty z +:+ r) = z.
Proof.
  intros Hz Hr. unfold atoi, strtol. rewrite subject_sequence_pretty by done.
  rewrite clamp_long_id by auto with colour. auto with colour.
Qed.

Lemma atoi_pretty (z : Z) : in_int z → atoi (pretty z) = z.
Proof.
  intros Hz. rewrite <- (string_app_nil_r (pretty z)). by apply atoi_pretty_app.
Qed.

Lemma atoi_range s : in_int (atoi s).
Proof.
  unfold atoi, in_int. pose proof (wrap_s_range 32 (strtol s)) as H.
  simpl in H. ints.
Qed.

#[export] Hint Resolve atoi_pretty atoi_range : colour.

(** ** Facts about the string functions *)

Lemma snprintf_fits size out :
  (String.length out < size)%nat → snprintf size out = out.
Proof.
  intros H. destruct size as [|n]; [lia|]. simpl.
  assert (String.length out ≤ n)%nat as Hn by lia. clear H.
  revert n Hn. induction out as [|c out IH]; intros [|n] Hn; simpl in *; auto; [lia|].
  rewrite IH; auto. lia.
Qed.

Lemma snprintf_length size out :
  (0 < size)%nat → (String.length (snprintf size out) < size)%nat.
Proof.
  intros H. destruct size as [|n]; [lia|]. simpl. clear H.
  revert n. induction out as [|c out IH]; intros [|n]; simpl; try lia.
  specialize (IH n). lia.
Qed.

(** A string without NUL is seen whole. *)
Lemma c_str_free s : char_free NUL s → c_str s = s.
Proof.
  induction s as [|c s IH]; simpl; [done|]. intros [Hc Hs].
  rewrite decide_False by done. by rewrite IH.
Qed.

Lemma c_str_pretty (z : Z) : c_str (pretty z) = pretty z.
Proof. by apply c_str_free, pretty_Z_char_free. Qed.

Lemma strchr_app c a b : char_free c a → strchr (a +:+ String c b) c = Some (String c b).
Proof.
  induction a as [|x a IH]; simpl; intros Ha.
  - by rewrite decide_True.
  - destruct Ha. rewrite decide_False by done. auto.
Qed.

Lemma is_prefix_app p s : is_prefix p (p +:+ s) = true.
Proof. induction p; simpl; [done|]. by rewrite bool_decide_eq_true_2. Qed.

Lemma is_prefix_true p s : is_prefix p s = true → ∃ r, s = p +:+ r.
Proof.
  revert s. induction p as [|a p IH]; intros [|b s] H; simpl in *; eauto; try done.
  reflect_bools. subst. destruct (IH s) as [r ->]; [done|]. by exists r.
Qed.

(** A needle that starts with a character absent from [a] is first found
    after [a]. *)
Lemma strstr_before_app c n a s :
  char_free c a → strstr_before (a +:+ String c n +:+ s) (String c n) = Some a.
Proof.
  intros Ha. induction a as [|x a IH].
  - simpl. rewrite bool_decide_eq_true_2, is_prefix_app by done. done.
  - destruct Ha as [Hx Ha]. specialize (IH Ha). simpl in *.
    rewrite bool_decide_eq_false_2 by congruence. simpl. by rewrite IH.
Qed.

(** ** [fgets] consumes the file *)

Lemma fgets_chars_split n s :
  let '(l, r) := fgets_chars n s in s = l +:+ r.
Proof.
  revert s. induction n as [|n IH]; intros [|c s]; simpl; try done.
  destruct (decide (c = _)); simpl; [done|].
  specialize (IH s). destruct (fgets_chars n s). simpl. congruence.
Qed.

Lemma fgets_progress size s l r :
  (1 < size)%nat → fgets size s = Some (l, r) → (String.length r < String.length s)%nat.
Proof.
  intros Hs. unfold fgets. destruct s as [|c s]; [done|].
  destruct size as [|[|n]]; try lia. simpl. intros H.
  pose proof (fgets_chars_split n s) as Hsp.
  destruct (decide (c = _)); simplify_eq; simpl; [lia|].
  destruct (fgets_chars n s) as [l' r']. simplify_eq.
  rewrite string_length_app. lia.
Qed.

(** The loop ends: more fuel than characters changes nothing. *)
Lemma fgets_all_fuel size s f :
  (1 < size)%nat → (String.length s ≤ f)%nat →
  fgets_all f size s = read_lines size s.
Proof.
  intros Hs. unfold read_lines.
  assert (∀ f g s, (String.length s ≤ f)%nat → (String.length s ≤ g)%nat →
    fgets_all f size s = fgets_all g size s) as Hgen.
  { clear f s. induction f as [|f IH]; intros [|g] s Hf Hg; simpl; [done|..].
    - by destruct s; simpl in *; [|lia].
    - by destruct s; simpl in *; [|lia].
    - destruct (fgets size s) as [[l r]|] eqn:E; [|done].
      apply fgets_progress in E; [|done]. f_equal. apply IH; lia. }
  intros. by apply Hgen.
Qed.

(** A newline-free piece that fits the buffer is read as one line. *)
Lemma fgets_chars_line n a s :
  char_free "010" a → (String.length a < n)%nat →
  fgets_chars n (a +:+ String "010" s) = (a +:+ String "010" EmptyString, s).
Proof.
  revert n. induction a as [|c a IH]; intros [|n] Ha Hn; simpl in *; try lia.
  - done.
  - destruct Ha as [Hc Ha]. rewrite decide_False by done.
    rewrite IH by (auto; lia). done.
Qed.

Lemma read_lines_cons size a s :
  char_free "010" a → (String.length a + 1 < size)%nat →
  read_lines size (a +:+ String "010" s) =
    (a +:+ String "010" EmptyString) :: read_lines size s.
Proof.
  intros Ha Hn. unfold read_lines at 1. rewrite string_length_app. cbn [String.length].
  rewrite Nat.add_succ_r. cbn [fgets_all].
  assert (fgets size (a +:+ String "010" s) = Some (a +:+ String "010" EmptyString, s)) as ->.
  { unfold fgets. rewrite fgets_chars_line by (auto; lia).
    by destruct a. }
  f_equal. apply fgets_all_fuel; lia.
Qed.

(** ** [qsort] sorts *)

Lemma qinsert_perm {A} (cmp : A → A → Z) x l : qinsert cmp x l ≡ₚ x :: l.
Proof.
  induction l as [|y l IH]; simpl; [done|]. case_goal; [done|].
  rewrite IH. apply Permutation_swap.
Qed.

Lemma qsort_perm {A} (cmp : A → A → Z) l : qsort cmp l ≡ₚ l.
Proof. induction l as [|x l IH]; simpl; [done|]. by rewrite qinsert_perm, IH. Qed.

(** The comparator orders the elements of interest by an integer key. *)
Section qsort.
Context {A : Type} (cmp : A → A → Z) (key : A → Z) (P : A → Prop).
Hypothesis cmp_key : ∀ x y, P x → P y → (cmp x y <= 0 ↔ key x <= key y).

Definition key_le (x y : A) : Prop := key x <= key y.

Lemma qinsert_sorted x l :
  P x → Forall P l → StronglySorted key_le l → StronglySorted key_le (qinsert cmp x l).
Proof.
  intros Hx Hl. induction 1 as [|y l Hs IH Hy]; simpl; [repeat constructor|].
  apply Forall_cons in Hl as [Hpy Hl]. case_goal.
  - constructor; [by constructor|]. apply cmp_key in E; [|done..].
    constructor; [done|]. eapply Forall_impl; [done|].
    unfold key_le in *. simpl. intros. lia.
  - assert (¬ cmp x y <= 0) as Hc by lia. rewrite cmp_key in Hc by done.
    constructor; [auto|].
    rewrite qinsert_perm. constructor; [unfold key_le; lia|done].
Qed.

Lemma qsort_sorted l : Forall P l → StronglySorted key_le (qsort cmp l).
Proof.
  induction 1; simpl; [constructor|]. apply qinsert_sorted; auto.
  by rewrite qsort_perm.
Qed.

(** Sorted arrangements of elements with distinct keys are unique, so the
    order [qsort] leaves open does not matter there. *)
Lemma sorted_unique l k :
  l ≡ₚ k → StronglySorted key_le l → StronglySorted key_le k →
  (∀ x y, x ∈ l → y ∈ l → key x = key y → x = y) → l = k.
Proof.
  revert k. induction l as [|x l IH]; intros k Hp Hl Hk Hinj.
  { symmetry. by apply Permutation_nil_l in Hp. }
  destruct k as [|y k].
  { by apply Permutation_nil_r in Hp. }
  inversion Hl as [|? ? Hl1 Hl2]; subst. inversion Hk as [|? ? Hk1 Hk2]; subst.
  assert (x = y) as <-.
  { assert (x ∈ y :: k) as Hx by (rewrite <- Hp; set_solver).
    assert (y ∈ x :: l) as Hy by (rewrite Hp; set_solver).
    apply Hinj; [set_solver|done|].
    rewrite Forall_forall in Hl2, Hk2. unfold key_le in *.
    rewrite elem_of_cons in Hx, Hy.
    destruct Hx as [?|Hx], Hy as [?|Hy]; try congruence.
    specialize (Hl2 y Hy). specialize (Hk2 x Hx). lia. }
  f_equal. apply IH; [by eapply Permutation_cons_inv|done|done|].
  intros. apply Hinj; set_solver.
Qed.

(** Sorting any arrangement of a sorted list gives that list. *)
Lemma qsort_unique l k :
  l ≡ₚ k → Forall P k → StronglySorted key_le k →
  (∀ x y, x ∈ k → y ∈ k → key x = key y → x = y) → qsort cmp l = k.
Proof.
  intros Hp Hk Hs Hinj.
  assert (Forall P l) as Hl by (by rewrite Hp).
  apply sorted_unique; auto using qsort_sorted.
  - by rewrite qsort_perm.
  - intros x y Hx Hy. apply Hinj; rewrite <- Hp; by rewrite qsort_perm in *.
Qed.
End qsort.
