(* ===== verification/Buffers.v ===== *)
(** * Pieces of byte buffers

    Taking and dropping bytes of a buffer, and splitting a stream of bytes in
    two ways: what the request parser of the server and the reply parser of
    hiredis share. *)

From S2P Require Import Prelude.
From Stdlib Require Import Ascii.

Definition CR : ascii := "013"%char.
Definition LF : ascii := "010"%char.

Fixpoint sdrop (n : nat) (s : string) : string :=
  match n, s with
  | O, _ => s
  | S n, String _ s => sdrop n s
  | S _, EmptyString => EmptyString
  end.

Fixpoint stake (n : nat) (s : string) : string :=
  match n, s with
  | S n, String c s => String c (stake n s)
  | _, _ => EmptyString
  end.

(** The concatenation of pieces. *)
Definition stream (pieces : list string) : string := foldr String.append EmptyString pieces.

Lemma sdrop_app a b : sdrop (String.length a) (a +:+ b) = b.
Proof. induction a; [by destruct b|done]. Qed.

Lemma stake_app a b : stake (String.length a) (a +:+ b) = a.
Proof. induction a; simpl; [by destruct b|congruence]. Qed.

Lemma sdrop_length n s : String.length (sdrop n s) = (String.length s - n)%nat.
Proof. revert s. induction n as [|n IH]; intros [|c s]; simpl; auto; lia. Qed.

Lemma sdrop_sdrop n m s : sdrop n (sdrop m s) = sdrop (m + n) s.
Proof. revert s. induction m as [|m IH]; intros [|c s]; simpl; auto. by destruct n. Qed.

Lemma sdrop_app_le n a b : (n ≤ String.length a)%nat → sdrop n (a +:+ b) = sdrop n a +:+ b.
Proof. revert a. induction n as [|n IH]; intros [|c a] H; simpl in *; try lia; auto. apply IH. lia. Qed.

Lemma string_length_zero s : String.length s = 0%nat → s = EmptyString.
Proof. by destruct s. Qed.

(** Of two ways to split a string, one starts with the other. *)
Lemma string_split (a b x y : string) : a +:+ b = x +:+ y →
  (∃ z, x = a +:+ z ∧ b = z +:+ y) ∨ (∃ z, z ≠ EmptyString ∧ a = x +:+ z ∧ y = z +:+ b).
Proof.
  revert x. induction a as [|c a IH]; intros [|d x] H; simpl in *.
  - left. by exists EmptyString.
  - left. by exists (String d x).
  - right. by exists (String c a).
  - injection H as -> H. destruct (IH x H) as [(z & -> & ->)|(z & Hz & -> & ->)]; eauto 10.
Qed.

Lemma stake_app_le n a b : (n ≤ String.length a)%nat → stake n (a +:+ b) = stake n a.
Proof. revert a. induction n as [|n IH]; intros [|c a] H; simpl in *; try lia; auto. f_equal. apply IH. lia. Qed.

Lemma stake_sdrop n s : stake n s +:+ sdrop n s = s.
Proof. revert s. induction n as [|n IH]; intros [|c s]; simpl; congruence. Qed.

Lemma stake_length n s : String.length (stake n s) = Nat.min n (String.length s).
Proof. revert s. induction n as [|n IH]; intros [|c s]; simpl; auto. Qed.

Lemma stake_all n s : (String.length s ≤ n)%nat → stake n s = s.
Proof. revert s. induction n as [|n IH]; intros [|c s] H; simpl in *; try lia; auto. f_equal. apply IH. lia. Qed.

Lemma sdrop_0 s : sdrop 0 s = s.
Proof. by destruct s. Qed.

Lemma get_app_l n a b : (n < String.length a)%nat → String.get n (a +:+ b) = String.get n a.
Proof. revert n. induction a as [|c a IH]; intros [|n] H; simpl in *; try lia; auto. apply IH. lia. Qed.

Lemma get_sdrop n k s : String.get n (sdrop k s) = String.get (k + n) s.
Proof. revert s. induction k as [|k IH]; intros [|c s]; cbn; auto. Qed.

Lemma stream_app l l' : stream (l ++ l') = stream l +:+ stream l'.
Proof. unfold stream. induction l; simpl; [done|]. rewrite IHl. apply string_app_assoc. Qed.
