(* ===== verification/Hiredis.v ===== *)
(** * The hiredis client library: command formatting

    [redisvFormatCommand] of src/redis/deps/hiredis/hiredis.c: how
    [redisCommand (c, "SET %s %s", k, v)] becomes the argument vector of a
    request and the bytes of the RESP protocol.  Replies are the [redisReply]
    values hiredis hands back. *)

From S2P Require Import Prelude CLib.
From Stdlib Require Import Ascii.

(** ** Replies *)

Inductive redisReply : Type :=
| RString (str : string)                 (* REDIS_REPLY_STRING *)
| RArray (element : list string)         (* REDIS_REPLY_ARRAY of strings *)
| RInteger (integer : Z)                 (* REDIS_REPLY_INTEGER *)
| RNil                                   (* REDIS_REPLY_NIL *)
| RStatus (str : string)                 (* REDIS_REPLY_STATUS *)
| RError (str : string).                 (* REDIS_REPLY_ERROR *)

#[export] Instance redisReply_eq_dec : EqDecision redisReply.
Proof. solve_decision. Defined.

(** [reply->str]: NULL unless the reply is a string, a status or an error. *)
Definition reply_str (r : redisReply) : option string :=
  match r with
  | RString s | RStatus s | RError s => Some (c_str s)
  | _ => None
  end.

(** [reply->elements] and [reply->integer]: zero unless set. *)
Definition reply_elements (r : redisReply) : list string :=
  match r with RArray l => l | _ => [] end.

Definition reply_integer (r : redisReply) : Z :=
  match r with RInteger z => z | _ => 0 end.

(** ** Command formatting *)

(** An argument of the variadic call. *)
Inductive fmt_arg : Type :=
| FStr (s : string)                      (* char * *)
| FBin (s : string)                      (* char *, size_t *)
| FNum (z : Z)                           (* int, long, long long *)
| FDbl (bits : Z).                       (* double, by its representation *)

Section format.
(** [printf] of one numeric conversion specification, as hi_sdscatvprintf
    appends it. *)
Variable printf_conv : string → Z → string.

Definition str_mem (c : ascii) (s : string) : bool :=
  match strchr s c with Some _ => true | None => false end.

Fixpoint skip_while (p : ascii → bool) (s : string) : string * string :=
  match s with
  | String c s' =>
      if p c then let '(a, r) := skip_while p s' in (String c a, r)
      else (EmptyString, s)
  | EmptyString => (EmptyString, s)
  end.

(** The specification after a percent sign, up to the conversion character:
    its text, whether it takes a double, and what follows it; [None] for an
    invalid one. *)
Definition conv_spec (s : string) : option (string * bool * string) :=
  let '(fl, s) := skip_while (λ c, str_mem c "#0-+ ") s in
  let '(wd, s) := skip_while is_digit s in
  let '(pr, s) :=
    match s with
    | String "." s' =>
        let '(d, r) := skip_while is_digit s' in (String "." d, r)
    | _ => (EmptyString, s)
    end in
  let pre := fl +:+ wd +:+ pr in
  let int_conv (size s : string) :=
    match s with
    | String c r =>
        if str_mem c "diouxX"
        then Some (pre +:+ size +:+ String c EmptyString, false, r)
        else None
    | EmptyString => None
    end in
  match s with
  | EmptyString => None
  | String c r =>
      if str_mem c "diouxX" then int_conv EmptyString s
      else if str_mem c "eEfFgGaA"
      then Some (pre +:+ String c EmptyString, true, r)
      else match s with
           | String "h" (String "h" s') => int_conv "hh" s'
           | String "h" s' => int_conv "h" s'
           | String "l" (String "l" s') => int_conv "ll" s'
           | String "l" s' => int_conv "l" s'
           | _ => None
           end
  end.

(** The loop over the format: [curarg] is the argument being built and
    [touched] whether it has been.  [None] is the format error. *)
Fixpoint format_loop (fuel : nat) (c : string) (ap : list fmt_arg)
    (curarg : string) (touched : bool) (argv : list string) :
    option (list string) :=
  match fuel with
  | O => None
  | S fuel =>
      match c with
      | EmptyString => Some (if touched then argv ++ [curarg] else argv)
      | String ch r =>
          match (if decide (ch = "%"%char) then r else EmptyString) with
          | EmptyString =>
              if decide (ch = " "%char) then
                if touched
                then format_loop fuel r ap EmptyString false (argv ++ [curarg])
                else format_loop fuel r ap curarg false argv
              else format_loop fuel r ap (curarg +:+ String ch EmptyString) true argv
          | String "s" r' =>
              match ap with
              | FStr s :: ap => format_loop fuel r' ap (curarg +:+ s) true argv
              | _ => None
              end
          | String "b" r' =>
              match ap with
              | FBin s :: ap => format_loop fuel r' ap (curarg +:+ s) true argv
              | _ => None
              end
          | String "%" r' => format_loop fuel r' ap (curarg +:+ "%") true argv
          | r' =>
              match conv_spec r', ap with
              | Some (spec, false, r''), FNum z :: ap
              | Some (spec, true, r''), FDbl z :: ap =>
                  if (S (String.length spec) <? 14)%nat
                  then format_loop fuel r'' ap
                         (curarg +:+ printf_conv (String "%" spec) z) true argv
                  else format_loop fuel
                         (match r' with String _ q => q | EmptyString => r' end)
                         ap curarg true argv
              | _, _ => None
              end
          end
      end
  end.

(** The argument vector of a format and its arguments. *)
Definition redis_argv (format : string) (ap : list fmt_arg) : option (list string) :=
  format_loop (S (String.length format)) format ap EmptyString false [].
End format.

(** ** The request on the wire *)

Definition CRLF : string := String "013" (String "010" EmptyString).

Definition bulk (s : string) : string :=
  "$" +:+ pretty (String.length s) +:+ CRLF +:+ s +:+ CRLF.

Definition resp_request (argv : list string) : string :=
  "*" +:+ pretty (length argv) +:+ CRLF +:+ foldr (λ a r, bulk a +:+ r) EmptyString argv.

(** [redisvFormatCommand]: the bytes to send, [None] on a format error. *)
Definition redisvFormatCommand (printf_conv : string → Z → string)
    (format : string) (ap : list fmt_arg) : option string :=
  resp_request <$> redis_argv printf_conv format ap.

(** The formats the programs of this repository use hold [%s] only. *)
Definition no_printf (spec : string) (z : Z) : string := EmptyString.
Definition argv_of (format : string) (args : list string) : list string :=
  default [] (redis_argv no_printf format (FStr <$> args)).

Section argv_of.
Context (a b c : string).

Lemma argv_of_GET : argv_of "GET %s" [a] = ["GET"; a].
Proof. done. Qed.
Lemma argv_of_SMEMBERS : argv_of "SMEMBERS %s" [a] = ["SMEMBERS"; a].
Proof. done. Qed.
Lemma argv_of_KEYS : argv_of "KEYS %s" [a] = ["KEYS"; a].
Proof. done. Qed.
Lemma argv_of_SET : argv_of "SET %s %s" [a; b] = ["SET"; a; b].
Proof. done. Qed.
Lemma argv_of_SET_trailing : argv_of "SET %s %s " [a; b] = ["SET"; a; b].
Proof. done. Qed.
Lemma argv_of_WAIT : argv_of "WAIT %s %s" [a; b] = ["WAIT"; a; b].
Proof. done. Qed.
Lemma argv_of_generic : argv_of "%s %s %s" [a; b; c] = [a; b; c].
Proof. done. Qed.
End argv_of.
