(* ===== verification/Program.v ===== *)
(** * Programs that talk to a Redis server

    The colouring clients are C programs whose only shared effect is
    [redisCommand].  A client is a [prog]: a tree of commands whose replies
    choose the continuation, with the loops of the source as [Loop] nodes and
    the ways a C process can die as [Halt].  [cstep] runs one client against a
    server one command at a time, with the connection losing requests and
    replies; [system_step] interleaves any number of clients; [run] is the
    execution of one client alone. *)

From S2P Require Import Prelude CLib Hiredis.

(** The connections a client opens. *)
Inductive conn : Type := CMain | CMonitor.

(** What [redisConnect] returns: a usable context, a context whose [err] field
    is set, or NULL. *)
Inductive connected : Type := Connected | ConnErr | ConnNull.

(** The end of a process other than by [return] from [main]. *)
Inductive fault : Type :=
| Exit (code : Z)          (* exit (code) *)
| Segv                     (* a NULL or out-of-bounds access *).

Inductive prog (A : Type) : Type :=
| Ret (a : A)
| Send (c : conn) (argv : list string) (k : option redisReply → prog A)
| Connect (c : conn) (k : connected → prog A)
| Clock (k : option string → prog A)
| Loop (T : Set) (cond : T → bool) (body : T → prog T) (s : T) (k : T → prog A)
| Halt (f : fault).

Arguments Ret {_} a.
Arguments Send {_} c argv k.
Arguments Connect {_} c k.
Arguments Clock {_} k.
Arguments Loop {_} T cond body s k.
Arguments Halt {_} f.

Fixpoint pbind {A B} (p : prog A) (f : A → prog B) : prog B :=
  match p with
  | Ret a => f a
  | Send c argv k => Send c argv (λ r, pbind (k r) f)
  | Connect c k => Connect c (λ o, pbind (k o) f)
  | Clock k => Clock (λ o, pbind (k o) f)
  | Loop T cond body s k => Loop T cond body s (λ s, pbind (k s) f)
  | Halt h => Halt h
  end.

Declare Scope prog_scope.
Delimit Scope prog_scope with prog.
Bind Scope prog_scope with prog.

Notation "x '<~' p ';;' q" := (pbind p (λ x, q))
  (at level 90, p at next level, right associativity, format "x  '<~'  p ';;' '//' q")
  : prog_scope.
Notation "p ';;;' q" := (pbind p (λ _, q))
  (at level 90, right associativity, format "p ';;;' '//' q") : prog_scope.

(** [redisCommand (context, format, args...)]. *)
Definition redisCommand (format : string) (args : list string) : prog (option redisReply) :=
  Send CMain (argv_of format args) Ret.

(** [p->field] of a pointer that may be NULL. *)
Definition deref {A} (p : option A) : prog A :=
  match p with Some a => Ret a | None => Halt Segv end.

Definition while_ {T : Set} (cond : T → bool) (body : T → prog T) (s : T) : prog T :=
  Loop T cond body s Ret.

(** [for] over the elements of an array. *)
Fixpoint for_each {A B} (l : list A) (acc : B) (body : A → B → prog B) : prog B :=
  match l with
  | [] => Ret acc
  | x :: l => pbind (body x acc) (λ acc, for_each l acc body)
  end.

(** ** Servers *)

(** What a client needs of a server: one transition per request.  The integer
    stands for the number of replicas that have acknowledged the writes of the
    connection, which only [WAIT] reports. *)
Class Server (St : Type) : Type :=
  serve : Z → St → list string → St * redisReply.

Section semantics.
Context {St : Type} `{!Server St}.

(** A client and whether its connection still works: hiredis sets
    [context->err] at the first failure and every later command fails. *)
Definition client : Type := prog Z * bool.

Definition unfold_loop {A} {T : Set} (cond : T → bool) (body : T → prog T)
    (s : T) (k : T → prog A) : prog A :=
  if cond s then pbind (body s) (λ s', Loop T cond body s' k) else k s.

Inductive cstep : St * client → St * client → Prop :=
| step_served ack st st' argv k r :
    serve ack st argv = (st', r) →
    cstep (st, (Send CMain argv k, true)) (st', (k (Some r), true))
| step_request_lost st argv k :
    cstep (st, (Send CMain argv k, true)) (st, (k None, false))
| step_reply_lost ack st st' argv k r :
    serve ack st argv = (st', r) →
    cstep (st, (Send CMain argv k, true)) (st', (k None, false))
| step_dead st argv k :
    cstep (st, (Send CMain argv k, false)) (st, (k None, false))
| step_monitor st argv k r b :
    cstep (st, (Send CMonitor argv k, b)) (st, (k r, b))
| step_connect st c k o b :
    cstep (st, (Connect c k, b)) (st, (k o, b))
| step_clock st k o b :
    cstep (st, (Clock k, b)) (st, (k o, b))
| step_loop st T cond body s k b :
    cstep (st, (Loop T cond body s k, b)) (st, (unfold_loop cond body s k, b)).

(** Clients take turns in any order. *)
Definition system : Type := St * list client.

Inductive system_step : system → system → Prop :=
| sys_step st st' cs i c c' :
    cs !! i = Some c → cstep (st, c) (st', c') →
    system_step (st, cs) (st', <[i:=c']> cs).

Definition reachable (st : St) (ps : list (prog Z)) : system → Prop :=
  rtc system_step (st, (λ p, (p, true)) <$> ps).

(** A schedule run on working connections: the clients to step, in order. *)
Definition exec1 (ack : Z) (clock : option string) (c : system) (i : nat) : option system :=
  let '(st, cs) := c in
  match cs !! i with
  | Some (p, true) =>
      match p with
      | Send CMain argv k =>
          let '(st', r) := serve ack st argv in Some (st', <[i := (k (Some r), true)]> cs)
      | Send CMonitor argv k => Some (st, <[i := (k (Some (RStatus "OK")), true)]> cs)
      | Connect _ k => Some (st, <[i := (k Connected, true)]> cs)
      | Clock k => Some (st, <[i := (k clock, true)]> cs)
      | Loop T cond body s k => Some (st, <[i := (unfold_loop cond body s k, true)]> cs)
      | Ret _ | Halt _ => Some c
      end
  | _ => None
  end.

Fixpoint exec (ack : Z) (clock : option string) (sched : list nat) (c : system) : option system :=
  match sched with
  | [] => Some c
  | i :: sched => exec1 ack clock c i ≫= exec ack clock sched
  end.

(** One client alone on a working connection.  [outcome] is how it ended. *)
Inductive outcome (A : Type) : Type :=
| Returned (a : A)
| Died (f : fault).
Arguments Returned {_} a.
Arguments Died {_} f.

Fixpoint run {A} (fuel : nat) (ack : Z) (clock : option string) (st : St) (p : prog A) :
    option (St * outcome A) :=
  match fuel with
  | O => None
  | S fuel =>
      match p with
      | Ret a => Some (st, Returned a)
      | Halt f => Some (st, Died f)
      | Send CMain argv k =>
          let '(st', r) := serve ack st argv in run fuel ack clock st' (k (Some r))
      | Send CMonitor argv k => run fuel ack clock st (k (Some (RStatus "OK")))
      | Connect c k => run fuel ack clock st (k Connected)
      | Clock k => run fuel ack clock st (k clock)
      | Loop T cond body s k => run fuel ack clock st (unfold_loop cond body s k)
      end
  end.

(** The same, [n] steps of it. *)
Fixpoint solo {A} (n : nat) (ack : Z) (clock : option string) (st : St) (p : prog A) :
    St * prog A :=
  match n with
  | O => (st, p)
  | S n =>
      match p with
      | Ret _ | Halt _ => (st, p)
      | Send CMain argv k =>
          let '(st', r) := serve ack st argv in solo n ack clock st' (k (Some r))
      | Send CMonitor argv k => solo n ack clock st (k (Some (RStatus "OK")))
      | Connect c k => solo n ack clock st (k Connected)
      | Clock k => solo n ack clock st (k clock)
      | Loop T cond body s k => solo n ack clock st (unfold_loop cond body s k)
      end
  end.
End semantics.

Arguments Returned {_} a.
Arguments Died {_} f.

(** ** Monad facts *)

Lemma pbind_redisCommand {B} fmt args (f : option redisReply → prog B) :
  pbind (redisCommand fmt args) f = Send CMain (argv_of fmt args) f.
Proof. done. Qed.

(** More fuel never changes the result of a run. *)
Lemma run_mono {St} `{!Server St} {A} f g ack clk (st : St) (p : prog A) r :
  run f ack clk st p = Some r → (f ≤ g)%nat → run g ack clk st p = Some r.
Proof.
  revert g st p. induction f as [|f IH]; intros [|g] st p H Hle; simpl in *; try done; try lia.
  destruct p as [a|[] argv k|c k|k|T cond body s k|h]; try done;
    try (apply IH; [done|lia]).
  destruct (serve ack st argv) as [st' r']. apply IH; [done|lia].
Qed.

(** What a schedule reaches is reachable. *)
Lemma exec_steps {St} `{!Server St} ack clk sched (c c' : @system St) :
  exec ack clk sched c = Some c' → rtc system_step c c'.
Proof.
  revert c. induction sched as [|i sched IH]; intros c H; simpl in H; [by simplify_eq|].
  apply bind_Some in H as (c1 & H1 & H). etrans; [|by apply IH]. clear IH H.
  destruct c as [st cs]. simpl in H1. destruct (cs !! i) as [[p []]|] eqn:Hi; try done.
  destruct p as [a|[] argv k|cn k|k|T cond body s k|h]; simplify_eq; try done;
    try (by apply rtc_once; econstructor; [done|]; constructor).
  destruct (serve ack st argv) as [st' r] eqn:Hs. simplify_eq.
  apply rtc_once. econstructor; [done|]. by econstructor.
Qed.

(** Clients neither come nor go. *)
Lemma reachable_length {St} `{!Server St} (st : St) ps c : reachable st ps c → length c.2 = length ps.
Proof.
  intros H. assert (length c.2 = length (st, (λ p, (p, true)) <$> ps).2) as ->; [|cbn; by rewrite length_fmap].
  unfold reachable in H. induction H as [|c c1 c2 [] _ IH]; [done|]. rewrite IH. cbn. by rewrite length_insert.
Qed.

Lemma exec_default {St} `{!Server St} ack clk sched (st : St) ps :
  let start := (st, (λ p, (p, true)) <$> ps) in
  reachable st ps (default start (exec ack clk sched start)).
Proof.
  simpl. destruct (exec ack clk sched _) as [c|] eqn:E; simpl; [|apply rtc_refl].
  by apply exec_steps in E.
Qed.

(** ** Programs up to their continuations

    Two programs that send the same commands and continue alike are the same
    program; without function extensionality this is a relation. *)

Inductive peq {A : Type} : prog A → prog A → Prop :=
| peq_ret a : peq (Ret a) (Ret a)
| peq_send c argv k k' : (∀ r, peq (k r) (k' r)) → peq (Send c argv k) (Send c argv k')
| peq_connect c k k' : (∀ o, peq (k o) (k' o)) → peq (Connect c k) (Connect c k')
| peq_clock k k' : (∀ o, peq (k o) (k' o)) → peq (Clock k) (Clock k')
| peq_loop T cond body s k k' :
    (∀ s, peq (k s) (k' s)) → peq (Loop T cond body s k) (Loop T cond body s k')
| peq_halt f : peq (Halt f) (Halt f).

#[export] Hint Constructors peq : colour.

#[export] Instance peq_refl {A} : Reflexive (@peq A).
Proof. intros p. induction p; eauto with colour. Qed.

#[export] Instance peq_sym {A} : Symmetric (@peq A).
Proof. intros p q. induction 1; eauto with colour. Qed.

Lemma pbind_ext {A B} (p : prog A) (f f' : A → prog B) :
  (∀ a, peq (f a) (f' a)) → peq (pbind p f) (pbind p f').
Proof. intros Hf. revert f f' Hf. induction p; simpl; eauto with colour. Qed.

Lemma pbind_assoc {A B C} (p : prog A) (f : A → prog B) (g : B → prog C) :
  peq (pbind (pbind p f) g) (pbind p (λ a, pbind (f a) g)).
Proof. revert f. induction p; simpl; intros; try constructor; auto. reflexivity. Qed.

(** ** Runs of composed programs *)

Section run.
Context {St : Type} `{!Server St} (ack : Z) (clk : option string).

Lemma run_ext {A} fuel (st : St) (p p' : prog A) :
  peq p p' → run fuel ack clk st p = run fuel ack clk st p'.
Proof.
  revert st p p'. induction fuel as [|fuel IH]; intros st p p' Hp; [done|].
  destruct Hp as [a|[] argv k k' Hk|c k k' Hk|k k' Hk|T cond body s k k' Hk|f]; simpl; auto.
  - destruct (serve ack st argv). auto.
  - apply IH. unfold unfold_loop. destruct (cond s); [|done].
    apply pbind_ext. intros s'. by constructor.
Qed.

Lemma run_bind {A B} f g (st st' : St) (p : prog A) (k : A → prog B) a r :
  run f ack clk st p = Some (st', Returned a) →
  run g ack clk st' (k a) = Some r →
  run (f + g) ack clk st (pbind p k) = Some r.
Proof.
  revert st p. induction f as [|f IH]; intros st p Hp Hk; [done|].
  destruct p as [b|[] argv kp|c kp|kp|T cond body s kp|h]; simpl in Hp; simplify_eq; simpl.
  - change (run (S f + g) ack clk st' (k a) = Some r). eapply run_mono; [done|lia].
  - destruct (serve ack st argv) as [st1 r1]. eauto.
  - eauto.
  - eauto.
  - eauto.
  - rewrite <- (IH _ _ Hp Hk). apply run_ext. unfold unfold_loop.
    destruct (cond s); [|reflexivity]. symmetry.
    apply (pbind_assoc (body s) (λ s', Loop T cond body s' kp) k).
Qed.

Lemma solo_add {A} n m (st st1 : St) (p p1 : prog A) :
  solo n ack clk st p = (st1, p1) → solo (n + m) ack clk st p = solo m ack clk st1 p1.
Proof.
  revert st p. induction n as [|n IH]; intros st p Hn; [by simplify_eq/=|].
  destruct p as [a|[] argv k|c k|k|T cond body s k|h]; simpl in *; eauto;
    try (simplify_eq; by destruct m).
  destruct (serve ack st argv). eauto.
Qed.

Lemma solo_run {A} n (st st' : St) (p : prog A) a :
  solo n ack clk st p = (st', Ret a) → run (S n) ack clk st p = Some (st', Returned a).
Proof.
  revert st p. induction n as [|n IH]; intros st p Hn; [by simplify_eq/=|].
  destruct p as [b|[] argv k|c k|k|T cond body s k|h]; simpl in Hn; simplify_eq; try done;
    try (by apply IH in Hn).
  destruct (serve ack st argv) as [st1 r] eqn:Hs. apply IH in Hn. cbn [run]. by rewrite Hs.
Qed.

(** A client's steps as a schedule of the system. *)
Lemma exec_solo n i (st st' : St) cs (p p' : prog Z) :
  cs !! i = Some (p, true) → solo n ack clk st p = (st', p') →
  exec ack clk (replicate n i) (st, cs) = Some (st', <[i := (p', true)]> cs).
Proof.
  revert st p cs. induction n as [|n IH]; intros st p cs Hi Hn; simpl in *.
  { simplify_eq. by rewrite list_insert_id. }
  rewrite Hi. pose proof (lookup_lt_Some _ _ _ Hi) as Hlt.
  assert (∀ st1 p1, solo n ack clk st1 p1 = (st', p') →
    exec ack clk (replicate n i) (st1, <[i := (p1, true)]> cs) = Some (st', <[i := (p', true)]> cs))
    as Hnext.
  { intros st1 p1 H1. rewrite (IH st1 p1); [by rewrite list_insert_insert_eq|
      by apply list_lookup_insert_eq|done]. }
  destruct p as [a|[] argv k|c k|k|T cond body s k|h]; simpl in *; auto.
  - simplify_eq. rewrite <- (list_insert_id cs i (Ret a, true)) at 1 by done. apply Hnext. by destruct n.
  - destruct (serve ack st argv). simpl. auto.
  - simplify_eq. rewrite <- (list_insert_id cs i (Halt h, true)) at 1 by done. apply Hnext. by destruct n.
Qed.
End run.
