(* ===== verification/MinColor.v ===== *)
(** * Choosing a colour

    [getMinimalValueNotInArray] of src/color/1server/color.c and of
    src/color/sync/color.c: the smallest value of a range that an array does
    not hold, the range growing by a recursive call when it is exhausted.  The
    two programs differ in the check of the range. *)

From S2P Require Import Prelude CLib Hiredis Program.

(** ** The loops both versions share *)

(** Mark the used values within the range [lowerBound, upperBound]. *)
Definition mark_used (arr : list Z) (lowerBound upperBound : Z) (usedValues : list Z) : list Z :=
  foldl (λ used x,
    if (lowerBound <=? x) && (x <=? upperBound)
    then <[Z.to_nat (x - lowerBound) := 1]> used else used) usedValues arr.

(** Scan [usedValues] from the value [i] on for a zero. *)
Fixpoint first_unused (i : Z) (usedValues : list Z) : option Z :=
  match usedValues with
  | [] => None
  | u :: rest => if u =? 0 then Some i else first_unused (i + 1) rest
  end.

Definition search_range (arr : list Z) (lowerBound upperBound range : Z) : option Z :=
  first_unused lowerBound
    (mark_used arr lowerBound upperBound (replicate (Z.to_nat range) 0)).

(** In both versions [calloc_ok n] is whether [calloc (n, sizeof (int))]
    succeeds, [n] converted to [size_t]; the result is the value returned or
    the way the process ended, and [None] means out of fuel. *)
Module Server1.
(** color/1server: the range is not checked. *)
Fixpoint getMinimalValueNotInArray (calloc_ok : Z → bool) (fuel : nat) (arr : list Z)
    (arrLength lowerBound upperBound : Z) : option (fault + Z) :=
  match fuel with
  | O => None
  | S fuel =>
      let range := wrap_s 32 (upperBound - lowerBound + 1) in
      if negb (calloc_ok (wrap_u 64 range)) then Some (inl (Exit 1))
      else match search_range arr lowerBound upperBound range with
           | Some i => Some (inr i)
           | None =>
               getMinimalValueNotInArray calloc_ok fuel arr arrLength lowerBound
                 (wrap_s 32 (upperBound + arrLength + 1))
           end
  end.
End Server1.

Module Sync.
(** color/sync: an empty range ends the process. *)
Fixpoint getMinimalValueNotInArray (calloc_ok : Z → bool) (fuel : nat) (arr : list Z)
    (arrLength lowerBound upperBound : Z) : option (fault + Z) :=
  match fuel with
  | O => None
  | S fuel =>
      let range := wrap_s 32 (upperBound - lowerBound + 1) in
      if range <=? 0 then Some (inl (Exit 1))
      else if negb (calloc_ok (wrap_u 64 range)) then Some (inl (Exit 1))
      else match search_range arr lowerBound upperBound range with
           | Some i => Some (inr i)
           | None =>
               getMinimalValueNotInArray calloc_ok fuel arr arrLength lowerBound
                 (wrap_s 32 (upperBound + arrLength + 1))
           end
  end.
End Sync.

(** ** Specification *)

(** [r] is the least value from [lo] on that [arr] does not hold. *)
Definition least_free (arr : list Z) (lo r : Z) : Prop :=
  lo ≤ r ∧ (r ∉ arr) ∧ (∀ x, lo ≤ x < r → x ∈ arr).

Lemma least_free_unique arr lo r r' :
  least_free arr lo r → least_free arr lo r' → r = r'.
Proof.
  intros (Hr & Hn & Hl) (Hr' & Hn' & Hl').
  destruct (Z.lt_trichotomy r r') as [H|[H|H]]; [|done|];
    [destruct Hn; apply Hl' | destruct Hn'; apply Hl]; lia.
Qed.

Lemma length_mark_used arr lo up used : length (mark_used arr lo up used) = length used.
Proof.
  unfold mark_used. revert used. induction arr as [|x arr IH]; intros used; simpl; [done|].
  rewrite IH. case_goal; [apply length_insert|done].
Qed.

Lemma mark_used_lookup arr lo up used (j : nat) :
  (j < length used)%nat → lo + Z.of_nat j ≤ up →
  mark_used arr lo up used !! j =
    if bool_decide (lo + Z.of_nat j ∈ arr) then Some 1 else used !! j.
Proof.
  intros Hj Hup. unfold mark_used. revert used Hj.
  induction arr as [|x arr IH]; intros used Hj; simpl; [done|].
  rewrite IH by (case_goal; rewrite ?length_insert; lia).
  destruct (decide (lo + Z.of_nat j = x)) as [Hx|Hx].
  - rewrite (bool_decide_eq_true_2 (_ ∈ x :: arr)) by set_solver.
    case_bool_decide; [done|].
    replace ((lo <=? x) && (x <=? up)) with true
      by (symmetry; apply andb_true_iff; split; apply Z.leb_le; lia).
    rewrite <- Hx. replace (Z.to_nat (lo + Z.of_nat j - lo)) with j by lia.
    by apply list_lookup_insert_eq.
  - rewrite (bool_decide_ext (_ ∈ x :: arr) (lo + Z.of_nat j ∈ arr)) by set_solver.
    case_bool_decide; [done|].
    case_goal; [|done]. apply list_lookup_insert_ne. lia.
Qed.

Lemma first_unused_Some i used r :
  first_unused i used = Some r →
  ∃ j : nat, r = i + Z.of_nat j ∧ used !! j = Some 0 ∧
    ∀ k : nat, (k < j)%nat → ∃ u, used !! k = Some u ∧ u ≠ 0.
Proof.
  revert i. induction used as [|u used IH]; intros i H; simpl in H; [done|].
  case_hyp H; simplify_eq.
  - exists O. split; [lia|]. split; [done|]. intros; lia.
  - destruct (IH _ H) as (j & -> & Hj & Hlt). exists (S j). split; [lia|].
    split; [done|]. intros [|k] Hk; [by exists u|]. apply Hlt. lia.
Qed.

Lemma first_unused_None i used :
  first_unused i used = None → ∀ (k : nat) u, used !! k = Some u → u ≠ 0.
Proof.
  revert i. induction used as [|u used IH]; intros i H [|k] v Hk; simpl in *;
    simplify_eq; case_hyp H; simplify_eq; eauto.
Qed.

Lemma search_range_Some arr lo up r :
  lo ≤ up → search_range arr lo up (up - lo + 1) = Some r →
  least_free arr lo r ∧ r ≤ up.
Proof.
  intros Hle H. apply first_unused_Some in H as (j & -> & Hj & Hlt).
  assert (j < Z.to_nat (up - lo + 1))%nat as Hjn.
  { apply lookup_lt_Some in Hj. by rewrite length_mark_used, length_replicate in Hj. }
  assert (∀ k : nat, (k < Z.to_nat (up - lo + 1))%nat →
    mark_used arr lo up (replicate (Z.to_nat (up - lo + 1)) 0) !! k =
    if bool_decide (lo + Z.of_nat k ∈ arr) then Some 1 else Some 0) as Hlook.
  { intros k Hk. rewrite mark_used_lookup by (rewrite ?length_replicate; lia).
    by rewrite lookup_replicate_2. }
  split; [|lia]. split; [lia|]. split.
  - rewrite Hlook in Hj by done. case_bool_decide; simplify_eq. done.
  - intros x Hx. destruct (Hlt (Z.to_nat (x - lo)) ltac:(lia)) as (u & Hu & Hne).
    rewrite Hlook in Hu by lia. replace (lo + Z.of_nat (Z.to_nat (x - lo))) with x in Hu by lia.
    case_bool_decide; simplify_eq. done.
Qed.

Lemma search_range_None arr lo up :
  search_range arr lo up (up - lo + 1) = None → ∀ x, lo ≤ x ≤ up → x ∈ arr.
Proof.
  intros H x Hx.
  pose proof (first_unused_None _ _ H (Z.to_nat (x - lo))) as Hn.
  rewrite mark_used_lookup in Hn by (rewrite ?length_replicate; lia).
  rewrite lookup_replicate_2 in Hn by lia.
  replace (lo + Z.of_nat (Z.to_nat (x - lo))) with x in Hn by lia.
  case_bool_decide; [done|]. by destruct (Hn 0).
Qed.

(** An array of [n] elements cannot hold [n + 1] consecutive values. *)
Lemma consecutive_length (arr : list Z) lo n :
  0 ≤ n → (∀ x, lo ≤ x < lo + n → x ∈ arr) → n ≤ Z.of_nat (length arr).
Proof.
  intros Hn H.
  assert (length (seqZ lo n) ≤ length arr)%nat as Hl.
  { apply submseteq_length, NoDup_submseteq; [apply NoDup_seqZ|].
    intros x Hx. apply H. by apply elem_of_seqZ in Hx. }
  rewrite length_seqZ in Hl. lia.
Qed.

Lemma least_free_bound arr lo r : least_free arr lo r → r ≤ lo + Z.of_nat (length arr).
Proof.
  intros (Hr & _ & Hl). pose proof (consecutive_length arr lo (r - lo)) as H.
  enough (r - lo ≤ Z.of_nat (length arr)) by lia. apply H; [lia|].
  intros. apply Hl. lia.
Qed.

(** The values an implementation of the search may return: a fault, or the
    least free value.  Both versions run the same two rounds at most. *)
Section rounds.
Context (calloc_ok : Z → bool) (arr : list Z) (lo up : Z).
Let n := Z.of_nat (length arr).
Hypothesis Hlo : 0 ≤ lo ≤ up.
Hypothesis Hup : up + n + 1 < INT_MAX.
Hypothesis Hcalloc : ∀ z, 0 < z ≤ INT_MAX → calloc_ok z = true.

Lemma range_small u :
  lo ≤ u ≤ up + n + 1 →
  wrap_s 32 (u - lo + 1) = u - lo + 1 ∧ calloc_ok (wrap_u 64 (u - lo + 1)) = true.
Proof.
  intros Hu. assert (in_int (u - lo + 1)) by ints. split; [by apply wrap_s_32|].
  unfold wrap_u. rewrite Z.mod_small by ints. apply Hcalloc. ints.
Qed.

(** A round either ends with the least free value or shows that the whole
    range is taken, which the widened range of the second round cannot be. *)
Lemma second_round :
  ∃ r, search_range arr lo (up + n + 1) (up + n + 1 - lo + 1) = Some r ∧
       least_free arr lo r.
Proof.
  destruct (search_range arr lo (up + n + 1) (up + n + 1 - lo + 1)) as [r|] eqn:E.
  - apply search_range_Some in E as [? _]; [|unfold n; lia]. eauto.
  - pose proof (search_range_None _ _ _ E) as Hall.
    pose proof (consecutive_length arr lo (n + 1)) as H. fold n in H.
    exfalso. enough (n + 1 ≤ n) by lia. apply H; [unfold n; lia|].
    intros. apply Hall. unfold n in *. lia.
Qed.

Lemma server1_rounds fuel :
  ∃ r, Server1.getMinimalValueNotInArray calloc_ok (S (S fuel)) arr n lo up = Some (inr r) ∧
       least_free arr lo r.
Proof.
  cbn [Server1.getMinimalValueNotInArray].
  destruct (range_small up) as [-> ->]; [unfold n; lia|]. cbn [negb].
  destruct (search_range arr lo up (up - lo + 1)) as [r|] eqn:E.
  - apply search_range_Some in E as [? _]; [|lia]. eauto.
  - rewrite (wrap_s_32 (up + n + 1)) by (unfold n in *; ints).
    destruct (range_small (up + n + 1)) as [-> ->]; [unfold n; lia|]. cbn [negb].
    destruct second_round as (r & -> & Hr). eauto.
Qed.

Lemma sync_rounds fuel :
  ∃ r, Sync.getMinimalValueNotInArray calloc_ok (S (S fuel)) arr n lo up = Some (inr r) ∧
       least_free arr lo r.
Proof.
  cbn [Sync.getMinimalValueNotInArray].
  destruct (range_small up) as [-> ->]; [unfold n; lia|].
  destruct (Z.leb_spec (up - lo + 1) 0); [lia|]. cbn [negb].
  destruct (search_range arr lo up (up - lo + 1)) as [r|] eqn:E.
  - apply search_range_Some in E as [? _]; [|lia]. eauto.
  - rewrite (wrap_s_32 (up + n + 1)) by (unfold n in *; ints).
    destruct (range_small (up + n + 1)) as [-> ->]; [unfold n; lia|].
    destruct (Z.leb_spec (up + n + 1 - lo + 1) 0); [unfold n in *; lia|]. cbn [negb].
    destruct second_round as (r & -> & Hr). eauto.
Qed.
End rounds.

(** A search that returns does so as if no allocation could fail. *)
Lemma server1_alloc calloc_ok fuel arr n lo up r :
  Server1.getMinimalValueNotInArray calloc_ok fuel arr n lo up = Some (inr r) →
  Server1.getMinimalValueNotInArray (λ _, true) fuel arr n lo up = Some (inr r).
Proof.
  revert up. induction fuel as [|fuel IH]; intros up; simpl; [done|].
  case_goal; [done|]. case_goal; auto.
Qed.

Lemma sync_alloc calloc_ok fuel arr n lo up r :
  Sync.getMinimalValueNotInArray calloc_ok fuel arr n lo up = Some (inr r) →
  Sync.getMinimalValueNotInArray (λ _, true) fuel arr n lo up = Some (inr r).
Proof.
  revert up. induction fuel as [|fuel IH]; intros up; simpl; [done|].
  case_goal; [done|]. case_goal; [done|]. case_goal; auto.
Qed.

(** ** Properties *)

(** C11: in the 1-server client, when memory is available and the bounds are
    far from the limits of [int], the search for a colour returns after at
    most one widening of its range, with the least value from [lo] on that is
    not in the array, which is at most [lo] plus the number of values: a node
    gets a colour no larger than its degree. *)
Theorem server1_least_color calloc_ok fuel arr lo up
    (Hlo : 0 ≤ lo ≤ up) (Hup : up + Z.of_nat (length arr) + 1 < INT_MAX)
    (Hcalloc : ∀ z, 0 < z ≤ INT_MAX → calloc_ok z = true) :
  ∃ r, Server1.getMinimalValueNotInArray calloc_ok (S (S fuel)) arr
         (Z.of_nat (length arr)) lo up = Some (inr r) ∧
       least_free arr lo r ∧ r ≤ lo + Z.of_nat (length arr).
Proof.
  destruct (server1_rounds calloc_ok arr lo up Hlo Hup Hcalloc fuel) as (r & Hr & Hf).
  eauto using least_free_bound.
Qed.

Lemma server1_least_color_witness :
  Server1.getMinimalValueNotInArray (λ _, true) 2 [0; 2; 1; 1] 4 0 2 = Some (inr 3) ∧
  ∃ r, Server1.getMinimalValueNotInArray (λ _, true) 2 [0; 2; 1; 1] 4 0 2 = Some (inr r) ∧
       least_free [0; 2; 1; 1] 0 r ∧ r ≤ 4.
Proof.
  split; [reflexivity|].
  apply (server1_least_color (λ _, true) 0 [0; 2; 1; 1] 0 2); [lia|reflexivity|done].
Defined.

(** The same of the sync client, whose search also guards its range. *)
Theorem sync_least_color calloc_ok fuel arr lo up
    (Hlo : 0 ≤ lo ≤ up) (Hup : up + Z.of_nat (length arr) + 1 < INT_MAX)
    (Hcalloc : ∀ z, 0 < z ≤ INT_MAX → calloc_ok z = true) :
  ∃ r, Sync.getMinimalValueNotInArray calloc_ok (S (S fuel)) arr
         (Z.of_nat (length arr)) lo up = Some (inr r) ∧
       least_free arr lo r ∧ r ≤ lo + Z.of_nat (length arr).
Proof.
  destruct (sync_rounds calloc_ok arr lo up Hlo Hup Hcalloc fuel) as (r & Hr & Hf).
  eauto using least_free_bound.
Qed.

Lemma sync_least_color_witness :
  Sync.getMinimalValueNotInArray (λ _, true) 2 [0; 2; 1; 1] 4 0 2 = Some (inr 3) ∧
  ∃ r, Sync.getMinimalValueNotInArray (λ _, true) 2 [0; 2; 1; 1] 4 0 2 = Some (inr r) ∧
       least_free [0; 2; 1; 1] 0 r ∧ r ≤ 4.
Proof.
  split; [reflexivity|].
  apply (sync_least_color (λ _, true) 0 [0; 2; 1; 1] 0 2); [lia|reflexivity|done].
Defined.
