(* ===== verification/Client1.v ===== *)
(** * The colouring client, one command at a time

    src/color/1server/color.c, function by function.  A node is named
    ["node_<id>"]; its colour, its status and its neighbours are the keys
    ["node_<id>_color"], ["node_<id>_status"] and ["node_<id>_neighbours"] of
    the Redis server; the edge between two nodes of different partitions is
    guarded by a Peterson lock kept in three further keys. *)

From S2P Require Import Prelude CLib Hiredis Program MinColor.
From Stdlib Require Import Ascii.

Open Scope prog_scope.

(** ** Data *)

Record ClientGraphPetersonLock : Set := mkLock {
  lock_key_1 : string;
  lock_key_2 : string;
  turn_key : string;
  node_name : string;
}.

#[export] Instance lock_eq_dec : EqDecision ClientGraphPetersonLock.
Proof. solve_decision. Defined.

(** ** Peterson lock *)

(** The condition of the waiting loop, with the accesses it makes. *)
Definition still_waiting (lock : ClientGraphPetersonLock)
    (other_flag turn_var_new : option redisReply) : prog bool :=
  other <~ deref other_flag;;
  match reply_str other with
  | None => Ret false
  | Some s =>
      if decide (s = "1") then
        turn <~ deref turn_var_new;;
        t <~ deref (reply_str turn);;
        Ret (bool_decide (t = node_name lock))
      else Ret false
  end.

Definition acquire_lock (lock : ClientGraphPetersonLock) : prog unit :=
  my_flag <~ redisCommand "SET %s %s" [lock_key_1 lock; "1"];;
  turn_var <~ redisCommand "SET %s %s " [turn_key lock; node_name lock];;
  other_flag <~ redisCommand "GET %s" [lock_key_2 lock];;
  turn_var_new <~ redisCommand "GET %s" [turn_key lock];;
  w <~ still_waiting lock other_flag turn_var_new;;
  while_ (λ w, w)
    (λ _,
      turn_var_new <~ redisCommand "GET %s" [turn_key lock];;
      other_flag <~ redisCommand "GET %s" [lock_key_2 lock];;
      still_waiting lock other_flag turn_var_new) w;;;
  Ret tt.

(** The reply is only looked at to print an error. *)
Definition release_lock (lock : ClientGraphPetersonLock) : prog unit :=
  redisCommand "SET %s %s" [lock_key_1 lock; "0"];;;
  Ret tt.

(** ** Reading the graph *)

(** The neighbours, or NULL; the count is the length of the list, and is left
    at its initial 0 when NULL is returned. *)
Definition get_all_neighbours (node : string) : prog (option (list string)) :=
  let key := snprintf 256 (node +:+ "_neighbours") in
  reply <~ redisCommand "SMEMBERS %s" [key];;
  match reply with
  | None | Some RNil => Ret None
  | Some (RArray l) => Ret (Some (c_str <$> l))
  | Some _ => Ret None
  end.

(** [num_a - num_b] on [int]. *)
Definition compare_neighbours (a b : string) : Z := wrap_s 32 (atoi a - atoi b).

Definition sort_neighbours (neighbour_list : list string) : list string :=
  qsort compare_neighbours neighbour_list.

Definition get_node_color (node : string) : prog Z :=
  let key := snprintf 256 ("node_" +:+ node +:+ "_color") in
  reply <~ redisCommand "GET %s" [key];;
  match reply with
  | None | Some RNil => Ret (-1)
  | Some r => s <~ deref (reply_str r);; Ret (atoi s)
  end.

(** Whether a neighbour id lies outside the partition of the client. *)
Definition foreign (first last nbr_id_int : Z) : bool :=
  (nbr_id_int <? first) || (last <? nbr_id_int).

Definition check_boundary_node (node : string) (last first : Z) : prog Z :=
  let key := snprintf 256 (node +:+ "_neighbours") in
  reply <~ redisCommand "SMEMBERS %s" [key];;
  r <~ deref reply;;
  Ret (if existsb (λ n, foreign first last (atoi (c_str n))) (reply_elements r)
       then 1 else 0).

Definition set_node_color (node : string) (color : Z) : prog unit :=
  let key := snprintf 256 (node +:+ "_color") in
  let color_str := snprintf 10 (pretty color) in
  redisCommand "SET %s %s" [key; color_str];;;
  Ret tt.

Definition get_node_id (node : string) : Z :=
  if is_prefix "node_" node
  then atoi (String.substring 5 (String.length node - 5) node)
  else -1.

Definition extract_number_from_string (str : string) : option string :=
  match strchr str "_" with
  | Some (String _ rest) => Some rest
  | _ => None
  end.

Definition get_status (node : string) : prog Z :=
  let key := snprintf 256 ("node_" +:+ node +:+ "_status") in
  reply <~ redisCommand "GET %s" [key];;
  match reply with
  | Some (RString s) => Ret (atoi (c_str s))
  | _ => Ret 0
  end.

(** ** Colouring one node *)

(** The lock of the edge between [char_node] and [nbr_id]. *)
Definition both_id (node_id_int nbr_id_int : Z) (char_node nbr_id : string) : string :=
  if nbr_id_int <? node_id_int
  then snprintf 64 (nbr_id +:+ "_" +:+ char_node)
  else snprintf 64 (char_node +:+ "_" +:+ nbr_id).

Definition make_lock (node_id_int nbr_id_int : Z) (char_node nbr_id : string) :
    ClientGraphPetersonLock :=
  let bothId := both_id node_id_int nbr_id_int char_node nbr_id in
  {| lock_key_1 := snprintf 128 ("flag_" +:+ bothId +:+ "_" +:+ char_node);
     lock_key_2 := snprintf 128 ("flag_" +:+ bothId +:+ "_" +:+ nbr_id);
     turn_key := snprintf 128 ("turn_" +:+ bothId);
     node_name := snprintf 128 char_node |}.

Section colouring.
(** Whether [calloc] succeeds, and what [malloc] leaves in the lock array of
    a node: the block is not initialised. *)
Variable calloc_ok : Z → bool.
Variable uninit : string → nat → ClientGraphPetersonLock.

(** One iteration of the loop of [read_color_of_neighbors]: the entry [nbr]
    of the sorted list, with the lock array and the colours read so far. *)
Definition read_one_neighbor (node_id : string) (first last : Z)
    (entry : nat * string) (acc : list ClientGraphPetersonLock * list Z) :
    prog (list ClientGraphPetersonLock * list Z) :=
  let '(nbr, nbr_id) := entry in
  let '(locks_array, nbr_color_list) := acc in
  let nbr_id_int := atoi nbr_id in
  let node_id_int := get_node_id node_id in
  let char_node := extract_number_from_string node_id in
  locks_array <~
    (if foreign first last nbr_id_int then
       status <~ get_status nbr_id;;
       if status =? 0 then
         name <~ deref char_node;;
         let lock := make_lock node_id_int nbr_id_int name nbr_id in
         acquire_lock lock;;;
         Ret (<[nbr := lock]> locks_array)
       else Ret locks_array
     else Ret locks_array);;
  nbr_color <~ get_node_color nbr_id;;
  Ret (locks_array, nbr_color_list ++ [nbr_color]).

Definition read_color_of_neighbors (node_id : string) (first last : Z)
    (node_nbr_list_sorted : list string) (locks_array : list ClientGraphPetersonLock) :
    prog (list ClientGraphPetersonLock * list Z) :=
  for_each (imap pair node_nbr_list_sorted) (locks_array, [])
    (read_one_neighbor node_id first last).

Definition set_status (node : string) : prog unit :=
  let key := snprintf 256 (node +:+ "_status") in
  redisCommand "SET %s %s" [key; "1"];;;
  Ret tt.

(** The result of the search as a step of the program. *)
Definition minimal_color (r : option (fault + Z)) : prog Z :=
  match r with
  | Some (inr c) => Ret c
  | Some (inl f) => Halt f
  | None => Halt Segv
  end.

(** The release loop runs over the whole array, whether or not an entry was
    filled in. *)
Definition release_locks (locks_array : list ClientGraphPetersonLock) : prog unit :=
  for_each locks_array tt (λ lock _, release_lock lock).

Definition process_node (node : string) (first last : Z) : prog unit :=
  neighbours <~ get_all_neighbours node;;
  boundary_node <~ check_boundary_node node last first;;
  let neighbour_list := sort_neighbours (default [] neighbours) in
  let locks_array := uninit node <$> seq 0 (length neighbour_list) in
  read <~ read_color_of_neighbors node first last neighbour_list locks_array;;
  let '(locks_array, nbr_color_list) := read in
  new_color <~ minimal_color
    (Server1.getMinimalValueNotInArray calloc_ok 2 nbr_color_list
       (Z.of_nat (length nbr_color_list)) 0 1000);;
  set_node_color node new_color;;;
  set_status node;;;
  release_locks locks_array.
End colouring.

(** ** The program *)

(** [strchr (key, '_')] is not NULL. *)
Definition has_number (key : string) : bool :=
  match strchr key "_" with Some _ => true | None => false end.

(** On keys that have an underscore; [fetch_keys] stops at any other. *)
Definition compare_keys (key_a key_b : string) : Z :=
  let num (k : string) :=
    match strchr k "_" with
    | Some (String _ rest) => atoi rest
    | _ => 0
    end in
  wrap_s 32 (num key_a - num key_b).

Definition strip_suffix (key : string) : string :=
  match strstr_before key "_neighbours" with
  | Some before => before
  | None => key
  end.

(** Sorting two keys or more applies [compare_keys] to each of them, and it
    reads after the underscore without looking whether there is one. *)
Definition fetch_keys (pattern : string) : prog (option (list string)) :=
  reply <~ redisCommand "KEYS %s" [pattern];;
  match reply with
  | Some (RArray l) =>
      let keys := (strip_suffix ∘ c_str) <$> l in
      if (2 <=? length keys)%nat && existsb (λ key, negb (has_number key)) keys
      then Halt Segv
      else Ret (Some (qsort compare_keys keys))
  | _ => Ret None
  end.

(** [redisCommand] on the connection to the monitor. *)
Definition monitor_command (c : connected) (format : string) (args : list string) :
    prog (option redisReply) :=
  match c with
  | Connected => Send CMonitor (argv_of format args) Ret
  | ConnErr => Ret None
  | ConnNull => Halt Segv
  end.

Definition set_status_to_monitor (context : connected) (hostname : string) : prog unit :=
  let key := snprintf 256 (hostname +:+ "_status") in
  monitor_command context "SET %s %s" [key; "1"];;;
  Ret tt.

(** [keys[i]]: an index outside the array is an invalid access. *)
Definition key_at (keys : list string) (i : Z) : prog string :=
  if i <? 0 then Halt Segv else deref (keys !! Z.to_nat i).

Section main.
Variable calloc_ok : Z → bool.
Variable uninit : string → nat → ClientGraphPetersonLock.

Definition process_range (keys : list string) (first last : Z) : prog unit :=
  for_each (seqZ first (last - first + 1)) tt
    (λ i _, key <~ key_at keys i;; process_node calloc_ok uninit key first last).

(** [argv] with the program name at index 0; the value is the exit status.
    [hostname] is printed at once, which is undefined when it is the NULL that
    ends [argv]. *)
Definition main (argv : list string) : prog Z :=
  if (length argv <? 5)%nat then Ret 1
  else
    arg1 <~ deref (argv !! 1%nat);;
    arg2 <~ deref (argv !! 2%nat);;
    let first := atoi arg1 in
    let last := atoi arg2 in
    hostname <~ deref (argv !! 5%nat);;
    if last <? first then Ret 1
    else
      Connect CMain (λ context,
        match context with
        | Connected =>
            keys <~ fetch_keys "node_*_neighbours";;
            match keys with
            | None | Some [] => Ret 1
            | Some keys =>
                process_range keys first last;;;
                Connect CMonitor (λ monitor_context,
                  set_status_to_monitor monitor_context hostname;;;
                  Ret 0)
            end
        | _ => Ret 1
        end).
End main.
