(* ===== verification/ClientSync.v ===== *)
(** * The colouring client that waits for replicas

    src/color/sync/color.c.  Every write goes through [write_with_wait], which
    repeats the command until enough replicas have acknowledged it, and the
    locks that were taken are counted.  The functions that the two programs
    have in common are the ones of [Client1]. *)

From S2P Require Import Prelude CLib Hiredis Program MinColor.
From S2P Require Client1.

Open Scope prog_scope.

Definition ClientGraphPetersonLock : Set := Client1.ClientGraphPetersonLock.

(** ** Replicated writes *)

(** One round: the command, then [WAIT]; [true] when another one is needed. *)
Definition write_round (required_replicas timeout_ms : string) (required : Z)
    (command_name key value : string) : prog bool :=
  reply <~ redisCommand "%s %s %s" [command_name; key; value];;
  match reply with
  | None => Ret false
  | Some _ =>
      reply <~ redisCommand "WAIT %s %s" [required_replicas; timeout_ms];;
      match reply with
      | None => Ret false
      | Some r => Ret (wrap_s 32 (reply_integer r) <? required)
      end
  end.

(** [num_of_replicas] may be the NULL that ends [argv]; [atoi] reads it. *)
Definition write_with_wait (required_replicas : option string) (timeout_ms : string)
    (command_name key value : string) : prog (option redisReply) :=
  replicas <~ deref required_replicas;;
  let required := atoi replicas in
  while_ (λ again, again)
    (λ _, write_round replicas timeout_ms required command_name key value) true;;;
  Ret None.

(** ** Peterson lock *)

Definition acquire_lock (lock : ClientGraphPetersonLock)
    (num_of_replicas : option string) (timeout : string) : prog unit :=
  my_flag <~ write_with_wait num_of_replicas timeout "SET" (Client1.lock_key_1 lock) "1";;
  turn_var <~ write_with_wait num_of_replicas timeout "SET" (Client1.turn_key lock)
    (Client1.node_name lock);;
  other_flag <~ redisCommand "GET %s" [Client1.lock_key_2 lock];;
  turn_var_new <~ redisCommand "GET %s" [Client1.turn_key lock];;
  w <~ Client1.still_waiting lock other_flag turn_var_new;;
  while_ (λ w, w)
    (λ _,
      turn_var_new <~ redisCommand "GET %s" [Client1.turn_key lock];;
      other_flag <~ redisCommand "GET %s" [Client1.lock_key_2 lock];;
      Client1.still_waiting lock other_flag turn_var_new) w;;;
  Ret tt.

Definition release_lock (lock : ClientGraphPetersonLock)
    (num_of_replicas : option string) (timeout : string) : prog unit :=
  write_with_wait num_of_replicas timeout "SET" (Client1.lock_key_1 lock) "0";;;
  Ret tt.

(** ** The functions of the other program, unchanged *)

(** The test [neighbour_count <= 0] is on the address of a variable and is
    never true. *)
Definition get_all_neighbours := Client1.get_all_neighbours.
Definition compare_neighbours := Client1.compare_neighbours.
Definition sort_neighbours := Client1.sort_neighbours.
Definition get_node_color := Client1.get_node_color.
Definition check_boundary_node := Client1.check_boundary_node.
Definition get_node_id := Client1.get_node_id.
Definition extract_number_from_string := Client1.extract_number_from_string.
Definition get_status := Client1.get_status.
Definition set_status := Client1.set_status.
Definition compare_keys := Client1.compare_keys.
Definition fetch_keys := Client1.fetch_keys.

(** ** Colouring one node *)

(** The colour, then the status.  [write_with_wait] returns NULL whatever
    happens, so the function always takes its error return. *)
Definition set_node_color (node : string) (color : Z)
    (num_of_replicas : option string) (timeout : string) : prog unit :=
  let key := snprintf 256 (node +:+ "_color") in
  let color_str := snprintf 10 (pretty color) in
  let status := snprintf 256 (node +:+ "_status") in
  reply <~ write_with_wait num_of_replicas timeout "SET" key color_str;;
  status_reply <~ write_with_wait num_of_replicas timeout "SET" status "1";;
  Ret tt.

Section colouring.
Variable calloc_ok : Z → bool.
Variable num_of_replicas : option string.
Variable timeout : string.

(** The locks that were taken fill a prefix of the array of length
    [*num_locks]: the list holds that prefix. *)
Definition read_one_neighbor (node_id : string) (first last : Z) (nbr_id : string)
    (acc : list ClientGraphPetersonLock * list Z) :
    prog (list ClientGraphPetersonLock * list Z) :=
  let '(locks, nbr_color_list) := acc in
  let nbr_id_int := atoi nbr_id in
  let node_id_int := get_node_id node_id in
  let char_node := extract_number_from_string node_id in
  locks <~
    (if Client1.foreign first last nbr_id_int then
       status <~ get_status nbr_id;;
       if status =? 0 then
         name <~ deref char_node;;
         let lock := Client1.make_lock node_id_int nbr_id_int name nbr_id in
         acquire_lock lock num_of_replicas timeout;;;
         Ret (locks ++ [lock])
       else Ret locks
     else Ret locks);;
  nbr_color <~ get_node_color nbr_id;;
  Ret (locks, nbr_color_list ++ [nbr_color]).

Definition read_color_of_neighbors (node_id : string) (first last : Z)
    (node_nbr_list_sorted : list string) :
    prog (list ClientGraphPetersonLock * list Z) :=
  for_each node_nbr_list_sorted ([], []) (read_one_neighbor node_id first last).

Definition release_locks (locks : list ClientGraphPetersonLock) : prog unit :=
  for_each locks tt (λ lock _, release_lock lock num_of_replicas timeout).

Definition process_node (node : string) (first last : Z) : prog unit :=
  neighbours <~ get_all_neighbours node;;
  boundary_node <~ check_boundary_node node last first;;
  let neighbour_list := sort_neighbours (default [] neighbours) in
  read <~ read_color_of_neighbors node first last neighbour_list;;
  let '(locks, nbr_color_list) := read in
  new_color <~ Client1.minimal_color
    (Sync.getMinimalValueNotInArray calloc_ok 2 nbr_color_list
       (Z.of_nat (length nbr_color_list)) 0 1000);;
  set_node_color node new_color num_of_replicas timeout;;;
  release_locks locks.
End colouring.

(** ** The program *)

(** The wall clock time is stored; [time] may fail. *)
Definition set_status_to_monitor (context : connected) (hostname : string) : prog unit :=
  let key := snprintf 256 (hostname +:+ "_status") in
  Clock (λ now,
    match now with
    | None => Ret tt
    | Some time_str =>
        Client1.monitor_command context "SET %s %s" [key; time_str];;;
        Ret tt
    end).

Section main.
Variable calloc_ok : Z → bool.

Definition process_range (num_of_replicas : option string) (timeout : string)
    (keys : list string) (first last : Z) : prog unit :=
  for_each (seqZ first (last - first + 1)) tt
    (λ i _,
      key <~ Client1.key_at keys i;;
      process_node calloc_ok num_of_replicas timeout key first last).

Definition main (argv : list string) : prog Z :=
  if (length argv <? 5)%nat then Ret 1
  else
    arg1 <~ deref (argv !! 1%nat);;
    arg2 <~ deref (argv !! 2%nat);;
    let first := atoi arg1 in
    let last := atoi arg2 in
    let hostname := argv !! 5%nat in
    let num_of_replicas := argv !! 6%nat in
    let timeout := "10000" in
    if last <? first then Ret 1
    else
      Connect CMain (λ context,
        match context with
        | Connected =>
            keys <~ fetch_keys "node_*_neighbours";;
            match keys with
            | None | Some [] => Ret 1
            | Some keys =>
                process_range num_of_replicas timeout keys first last;;;
                Connect CMonitor (λ monitor_context,
                  hostname <~ deref hostname;;
                  set_status_to_monitor monitor_context hostname;;;
                  Ret 0)
            end
        | _ => Ret 1
        end).
End main.
