(* ===== verification/Protocol.v ===== *)
(** * The colouring protocol

    An abstract account of what the clients promise: nodes and edges instead
    of keys, one transition per command that matters.  Each client owns a
    range of nodes and colours them one after the other; before it reads the
    colour of a neighbour of another client that is not marked as coloured, it
    takes the Peterson lock of the edge, and it keeps it until its own colour
    is written.  [Refine1] and [RefineSync] show that the C programs follow this
    protocol; here the protocol is shown to keep the edges exclusive and the
    colouring proper, and never to block all clients. *)

From S2P Require Import Prelude.

(** ** State *)

(** How far a node has got with the lock of one of its edges. *)
Inductive stage : Type := Out | Flagged | Waiting | In.

#[export] Instance stage_eq_dec : EqDecision stage.
Proof. solve_decision. Defined.

(** What a client is about to do for the neighbour at the head of its list. *)
Inductive sub : Type :=
| QStatus                 (* read its status, if it is another client's *)
| QFlag                   (* raise the flag *)
| QTurn                   (* set the turn *)
| QTurned                 (* the turn is set, and may be set again *)
| QWait                   (* wait for the lock *)
| QRead (locked : bool)   (* read its colour *).

(** Where a client is.  [todo] are the nodes left, [passed] the neighbours
    read with the colour found, [held] the neighbours whose edge is locked. *)
Inductive apc : Type :=
| Idle (todo : list Z)
| Scan (u : Z) (todo : list Z) (passed : list (Z * Z)) (held rest : list Z) (q : sub)
| Colour (u : Z) (todo : list Z) (passed : list (Z * Z)) (held : list Z) (c : Z)
| Mark (u : Z) (todo : list Z) (held : list Z) (c : Z)
| Release (u : Z) (todo : list Z) (held : list Z).

#[export] Instance sub_eq_dec : EqDecision sub.
Proof. solve_decision. Defined.
#[export] Instance apc_eq_dec : EqDecision apc.
Proof. solve_decision. Defined.

(** The shared store, the progress of every lock and of every node ([fin]:
    the colour is written) and the clients. *)
Record astate : Type := mkA {
  flag : Z * Z → bool;
  turn : Z * Z → option Z;
  colr : Z → Z;
  stat : Z → bool;
  stg : Z * Z → stage;
  fin : Z → bool;
  pcs : nat → apc;
}.

Definition edge (u v : Z) : Z * Z := (Z.min u v, Z.max u v).

Lemma edge_comm u v : edge u v = edge v u.
Proof. unfold edge. f_equal; lia. Qed.

Lemma edge_inj u v u' v' :
  edge u v = edge u' v' → (u = u' ∧ v = v') ∨ (u = v' ∧ v = u').
Proof. unfold edge. intros [= ? ?]. lia. Qed.

Definition goto (i : nat) (p : apc) (s : astate) : astate :=
  mkA (flag s) (turn s) (colr s) (stat s) (stg s) (fin s) (<[i := p]> (pcs s)).
Definition set_flag (u v : Z) (b : bool) (s : astate) : astate :=
  mkA (<[(u, v) := b]> (flag s)) (turn s) (colr s) (stat s) (stg s) (fin s) (pcs s).
Definition set_turn (u v w : Z) (s : astate) : astate :=
  mkA (flag s) (<[edge u v := Some w]> (turn s)) (colr s) (stat s) (stg s) (fin s) (pcs s).
Definition set_colr (u c : Z) (s : astate) : astate :=
  mkA (flag s) (turn s) (<[u := c]> (colr s)) (stat s) (stg s) (<[u := true]> (fin s)) (pcs s).
Definition set_stat (u : Z) (s : astate) : astate :=
  mkA (flag s) (turn s) (colr s) (<[u := true]> (stat s)) (stg s) (fin s) (pcs s).
Definition set_stg (u v : Z) (g : stage) (s : astate) : astate :=
  mkA (flag s) (turn s) (colr s) (stat s) (<[(u, v) := g]> (stg s)) (fin s) (pcs s).

(** ** Transitions *)

Section protocol.
(** The graph, and the range of nodes of each client. *)
Context (adj : Z → list Z) (first last : nat → Z).

Definition owns (i : nat) (u : Z) : Prop := first i ≤ u ≤ last i.

#[global] Instance owns_dec i u : Decision (owns i u).
Proof. unfold owns. apply _. Defined.

Inductive astep (i : nat) (s : astate) : astate → Prop :=
| a_start u todo :
    pcs s i = Idle (u :: todo) →
    astep i s (goto i (Scan u todo [] [] (adj u) QStatus) s)
| a_own u todo passed held v rest :
    pcs s i = Scan u todo passed held (v :: rest) QStatus → owns i v →
    astep i s (goto i (Scan u todo passed held (v :: rest) (QRead false)) s)
| a_marked u todo passed held v rest :
    pcs s i = Scan u todo passed held (v :: rest) QStatus → ¬ owns i v →
    stat s v = true →
    astep i s (goto i (Scan u todo passed held (v :: rest) (QRead false)) s)
| a_unmarked u todo passed held v rest :
    pcs s i = Scan u todo passed held (v :: rest) QStatus → ¬ owns i v →
    stat s v = false →
    astep i s (goto i (Scan u todo passed held (v :: rest) QFlag) s)
| a_flag u todo passed held v rest :
    pcs s i = Scan u todo passed held (v :: rest) QFlag →
    astep i s (goto i (Scan u todo passed held (v :: rest) QTurn)
                 (set_flag u v true (set_stg u v Flagged s)))
| a_turn u todo passed held v rest :
    pcs s i = Scan u todo passed held (v :: rest) QTurn →
    astep i s (goto i (Scan u todo passed held (v :: rest) QTurned)
                 (set_turn u v u (set_stg u v Waiting s)))
| a_turn_again u todo passed held v rest :
    pcs s i = Scan u todo passed held (v :: rest) QTurned →
    astep i s (set_turn u v u s)
| a_await u todo passed held v rest :
    pcs s i = Scan u todo passed held (v :: rest) QTurned →
    astep i s (goto i (Scan u todo passed held (v :: rest) QWait) s)
| a_enter_flag u todo passed held v rest :
    pcs s i = Scan u todo passed held (v :: rest) QWait →
    flag s (v, u) = false →
    astep i s (goto i (Scan u todo passed held (v :: rest) (QRead true))
                 (set_stg u v In s))
| a_enter_turn u todo passed held v rest :
    pcs s i = Scan u todo passed held (v :: rest) QWait →
    turn s (edge u v) ≠ Some u →
    astep i s (goto i (Scan u todo passed held (v :: rest) (QRead true))
                 (set_stg u v In s))
| a_read u todo passed held v rest locked :
    pcs s i = Scan u todo passed held (v :: rest) (QRead locked) →
    astep i s (goto i (Scan u todo (passed ++ [(v, colr s v)])
                   (if locked : bool then held ++ [v] else held) rest QStatus) s)
| a_choose u todo passed held c :
    pcs s i = Scan u todo passed held [] QStatus →
    c ∉ passed.*2 →
    astep i s (goto i (Colour u todo passed held c) s)
| a_colour u todo passed held c :
    pcs s i = Colour u todo passed held c →
    astep i s (goto i (Mark u todo held c) (set_colr u c s))
| a_mark u todo held c :
    pcs s i = Mark u todo held c →
    astep i s (goto i (Release u todo held) (set_stat u s))
| a_release u todo v held :
    pcs s i = Release u todo (v :: held) →
    astep i s (goto i (Release u todo held)
                 (set_flag u v false (set_stg u v Out s)))
| a_finish u todo :
    pcs s i = Release u todo [] →
    astep i s (goto i (Idle todo) s).

Definition any_step (s s' : astate) : Prop := ∃ i, astep i s s'.

(** A store on which no lock is taken and no node is marked, and clients
    that have not started on the nodes of their ranges. *)
Record initial (s : astate) : Prop := {
  init_flag : ∀ p, flag s p = false;
  init_stat : ∀ u, stat s u = false;
  init_stg : ∀ p, stg s p = Out;
  init_fin : ∀ u, fin s u = false;
  init_pcs : ∀ i, ∃ todo, pcs s i = Idle todo ∧ NoDup todo ∧ Forall (owns i) todo;
}.

Definition areachable (s : astate) : Prop := ∃ s0, initial s0 ∧ rtc any_step s0 s.

(** ** The invariant *)

Definition current (p : apc) : option Z :=
  match p with
  | Idle _ => None
  | Scan u _ _ _ _ _ | Colour u _ _ _ _ | Mark u _ _ _ | Release u _ _ => Some u
  end.

Definition todo_of (p : apc) : list Z :=
  match p with
  | Idle todo | Scan _ todo _ _ _ _ | Colour _ todo _ _ _
  | Mark _ todo _ _ | Release _ todo _ => todo
  end.

(** The colours a client has read and has not yet used. *)
Definition reads (p : apc) : list (Z * Z) :=
  match p with
  | Scan _ _ passed _ _ _ | Colour _ _ passed _ _ => passed
  | _ => []
  end.

Definition held_of (p : apc) : list Z :=
  match p with
  | Idle _ => []
  | Scan _ _ _ held _ _ | Colour _ _ _ held _ | Mark _ _ held _ | Release _ _ held => held
  end.

(** The stage of the lock a client is working on. *)
Definition busy_of (p : apc) : option (Z * stage) :=
  match p with
  | Scan _ _ _ _ (v :: _) QTurn => Some (v, Flagged)
  | Scan _ _ _ _ (v :: _) QTurned | Scan _ _ _ _ (v :: _) QWait => Some (v, Waiting)
  | Scan _ _ _ _ (v :: _) (QRead true) => Some (v, In)
  | _ => None
  end.

Definition stage_of (p : apc) (w : Z) : stage :=
  if decide (w ∈ held_of p) then In
  else match busy_of p with
       | Some (v, g) => if decide (w = v) then g else Out
       | None => Out
       end.

(** Before its colour is written, a node is not final. *)
Definition uncoloured (p : apc) : Prop :=
  match p with Scan _ _ _ _ _ _ | Colour _ _ _ _ _ => True | _ => False end.

Definition phase_ok (s : astate) (i : nat) (p : apc) : Prop :=
  match p with
  | Idle _ => True
  | Scan u _ passed held rest q =>
      adj u = passed.*1 ++ rest ∧ held ⊆ passed.*1 ∧
      match rest, q with
      | _, QStatus => True
      | [], _ => False
      | v :: _, QRead false => owns i v ∨ stat s v = true
      | v :: _, _ => ¬ owns i v
      end
  | Colour u _ passed held c =>
      adj u = passed.*1 ∧ held ⊆ passed.*1 ∧ c ∉ passed.*2
  | Mark u _ held c => colr s u = c ∧ fin s u = true
  | Release u _ held => fin s u = true ∧ stat s u = true
  end.

Record client_ok (s : astate) (i : nat) (p : apc) : Prop := {
  ok_todo : NoDup (todo_of p) ∧ Forall (owns i) (todo_of p);
  ok_fresh : ∀ w, w ∈ todo_of p → fin s w = false;
  ok_current : ∀ u, current p = Some u → owns i u ∧ u ∉ todo_of p;
  ok_idle : ∀ u w, owns i u → current p ≠ Some u → stg s (u, w) = Out;
  ok_stage : ∀ u w, current p = Some u → stg s (u, w) = stage_of p w;
  ok_held : NoDup (held_of p) ∧ Forall (λ v, ¬ owns i v) (held_of p);
  ok_unfinished : ∀ u, current p = Some u → uncoloured p → fin s u = false;
  ok_reads : ∀ v x, (v, x) ∈ reads p → fin s v = true → colr s v = x;
  ok_locked : ∀ v x, (v, x) ∈ reads p → ¬ owns i v → v ∈ held_of p ∨ stat s v = true;
  ok_phase : phase_ok s i p;
}.

Record Inv (s : astate) : Prop := {
  inv_flag : ∀ p, flag s p = true ↔ stg s p ≠ Out;
  inv_exclusive : ∀ u v, stg s (u, v) = In → stg s (v, u) = Waiting ∨ stg s (v, u) = In →
    turn s (edge u v) = Some v;
  inv_turn : ∀ u v, stg s (u, v) = Waiting →
    turn s (edge u v) = Some u ∨ turn s (edge u v) = Some v;
  inv_edge : ∀ u v, stg s (u, v) ≠ Out → v ∈ adj u;
  inv_owner : ∀ u v, stg s (u, v) ≠ Out → ∃ i, owns i u;
  inv_stat : ∀ u, stat s u = true → fin s u = true;
  inv_proper : ∀ u v, v ∈ adj u → fin s u = true → fin s v = true → colr s u ≠ colr s v;
  inv_clients : ∀ i, client_ok s i (pcs s i);
}.

(** ** Facts about graphs and clients *)

Hypothesis adj_sym : ∀ u v, v ∈ adj u → u ∈ adj v.
Hypothesis adj_irrefl : ∀ u, u ∉ adj u.
Hypothesis adj_nodup : ∀ u, NoDup (adj u).
Hypothesis owns_disjoint : ∀ i j u, owns i u → owns j u → i = j.

(** Two clients never hold the same edge. *)
Lemma exclusive s u v : Inv s → stg s (u, v) = In → stg s (v, u) = In → False.
Proof.
  intros HI Hu Hv.
  pose proof (inv_exclusive s HI u v Hu (or_intror Hv)) as H1.
  pose proof (inv_exclusive s HI v u Hv (or_intror Hu)) as H2.
  rewrite edge_comm in H2. assert (u = v) as -> by congruence.
  apply (adj_irrefl v). apply (inv_edge s HI). by rewrite Hv.
Qed.

(** What a step of another client has to leave alone. *)
Lemma client_ok_frame s s' j p :
  client_ok s j p →
  (∀ u w, owns j u → stg s' (u, w) = stg s (u, w)) →
  (∀ u, stat s u = true → stat s' u = true) →
  (∀ u, owns j u → fin s' u = fin s u ∧ colr s' u = colr s u) →
  (∀ v x, (v, x) ∈ reads p → fin s' v = true → fin s v = true ∧ colr s' v = colr s v) →
  client_ok s' j p.
Proof.
  intros [H1 H2 H3 H4 H5 H6 H7 H8 H9 H10] Hstg Hstat Hown Hreads.
  assert (∀ u, current p = Some u → owns j u) as Hcur by (intros; by apply H3).
  split; auto.
  - intros w Hw. destruct (Hown w) as [-> _]; [|auto].
    destruct H1 as [_ H1]. rewrite Forall_forall in H1. auto.
  - intros. rewrite Hstg by done. auto.
  - intros. rewrite Hstg by eauto. auto.
  - intros u Hu Hun. destruct (Hown u) as [-> _]; auto.
  - intros v x Hv Hf. destruct (Hreads v x Hv Hf) as [? ->]. eauto.
  - intros v x Hv Ho. destruct (H9 v x Hv Ho); auto.
  - destruct p as [|u ? ? ? [|v rest] []| | |]; simpl in *; try tauto;
      try (destruct locked; naive_solver);
      destruct (Hown u) as [Hf Hc]; auto; rewrite ?Hf, ?Hc; intuition auto.
Qed.

Lemma client_ok_goto s i p j q : client_ok s j q → client_ok (goto i p s) j q.
Proof. intros H. by eapply client_ok_frame. Qed.

(** A step that only moves a client keeps the invariant if the client is
    still in order. *)
Lemma inv_goto s i p : Inv s → client_ok s i p → Inv (goto i p s).
Proof.
  intros [] Hp. split; try done. intros j. apply client_ok_goto. simpl.
  destruct (decide (i = j)) as [<-|Hij].
  - by rewrite fn_lookup_insert.
  - rewrite fn_lookup_insert_ne by done. auto.
Qed.

(** Steps of a lock: client [i] changes the stage of its edge to [v], and
    with it its own flag and the turn. *)
Lemma client_ok_lock s s' i u v p j :
  Inv s → pcs s i = p → current p = Some u → j ≠ i →
  (∀ w x, (w, x) ≠ (u, v) → stg s' (w, x) = stg s (w, x)) →
  stat s' = stat s → fin s' = fin s → colr s' = colr s →
  client_ok s' j (pcs s j).
Proof.
  intros HI Hp Hu Hij Hstg Hst Hf Hc.
  pose proof (inv_clients s HI i) as Hi. rewrite Hp in Hi.
  destruct (ok_current _ _ _ Hi u Hu) as [Hown _].
  eapply client_ok_frame; [by apply (inv_clients s HI)|..];
    rewrite ?Hst, ?Hf, ?Hc; auto.
  intros w x Hw. apply Hstg. intros [= -> ->]. by destruct (owns_disjoint i j u Hown Hw).
Qed.

(** Moves of one client, with the shared state as it is. *)

Lemma ok_start s i u todo :
  client_ok s i (Idle (u :: todo)) → client_ok s i (Scan u todo [] [] (adj u) QStatus).
Proof.
  intros [[Hnd Hfa] Hfresh Hcur Hidle Hst Hh Hun Hrd Hlk Hph]; simpl in *.
  apply NoDup_cons in Hnd as [Hu Hnd]. apply Forall_cons in Hfa as [Ho Hfa].
  split; simpl; auto.
  - intros. apply Hfresh. by constructor.
  - by intros ? [= <-].
  - intros ? w [= <-]. rewrite Hidle by done. unfold stage_of; simpl.
    by destruct (adj u).
  - intros ? [= <-] _. apply Hfresh. by constructor.
  - split; [done|]. split; [apply list_subseteq_nil|]. by destruct (adj u).
Qed.

Lemma ok_look s i u todo passed held v rest q :
  client_ok s i (Scan u todo passed held (v :: rest) QStatus) →
  q = QFlag ∧ ¬ owns i v ∨ q = QRead false ∧ (owns i v ∨ stat s v = true) →
  client_ok s i (Scan u todo passed held (v :: rest) q).
Proof.
  intros [Htd Hfresh Hcur Hidle Hst Hh Hun Hrd Hlk Hph] Hq.
  split; auto; simpl in *; [|by destruct Hq as [[-> ?]|[-> ?]]; naive_solver].
  intros u' w Hu. rewrite (Hst u' w Hu). by destruct Hq as [[-> ?]|[-> ?]].
Qed.

Lemma passed_fresh u passed v rest held :
  adj u = passed ++ v :: rest → held ⊆ passed → v ∉ held.
Proof using adj_nodup.
  clear -adj_nodup.
  intros Ha Hs Hv. pose proof (adj_nodup u) as Hn. rewrite Ha in Hn.
  apply NoDup_app in Hn as (_ & Hd & _). apply (Hd v); [set_solver|constructor].
Qed.

Lemma ok_read s i u todo passed held v rest locked :
  client_ok s i (Scan u todo passed held (v :: rest) (QRead locked)) →
  client_ok s i (Scan u todo (passed ++ [(v, colr s v)])
    (if locked : bool then held ++ [v] else held) rest QStatus).
Proof.
  intros [Htd Hfresh Hcur Hidle Hst Hh Hun Hrd Hlk (Ha & Hs & Hq)]; simpl in *.
  pose proof (passed_fresh _ _ _ _ _ Ha Hs) as Hv.
  split; simpl in *; auto.
  - intros u' w Hu. rewrite (Hst u' w Hu). unfold stage_of; simpl.
    destruct rest, locked; simpl; repeat case_decide; set_solver.
  - destruct locked; [|done]. destruct Hh as [Hn Hf]. split.
    + apply NoDup_app. split; [done|]. split; [|apply NoDup_singleton]. set_solver.
    + apply Forall_app. split; [done|]. by constructor.
  - intros w x [Hw|Hw]%elem_of_app Hf; [eauto|].
    apply list_elem_of_singleton in Hw. by simplify_eq.
  - intros w x [Hw|Hw]%elem_of_app Hf.
    + destruct (Hlk w x Hw Hf); [|by right]. left. destruct locked; set_solver.
    + apply list_elem_of_singleton in Hw. simplify_eq.
      destruct locked; [left; set_solver|naive_solver].
  - split; [by rewrite fmap_app, <- app_assoc|]. split; [|by destruct rest].
    rewrite fmap_app. destruct locked; set_solver.
Qed.

Lemma ok_choose s i u todo passed held c :
  client_ok s i (Scan u todo passed held [] QStatus) → c ∉ passed.*2 →
  client_ok s i (Colour u todo passed held c).
Proof.
  intros [Htd Hfresh Hcur Hidle Hst Hh Hun Hrd Hlk (Ha & Hs & Hq)] Hc; simpl in *.
  split; simpl; auto. by rewrite app_nil_r in Ha.
Qed.

Lemma ok_finish s i u todo :
  client_ok s i (Release u todo []) → client_ok s i (Idle todo).
Proof.
  intros [Htd Hfresh Hcur Hidle Hst Hh Hun Hrd Hlk Hph]; simpl in *.
  split; simpl; auto; try done.
  intros w x Hw _. destruct (decide (w = u)) as [->|]; [|apply Hidle; congruence].
  by rewrite (Hst u x eq_refl).
Qed.

(** A step on the lock of the edge from [u] to [v]: what has to hold of the
    new flag, turn and stage for the invariant to survive. *)
Lemma inv_lock s i u v p p' f t g :
  Inv s → pcs s i = p → current p = Some u → v ∈ adj u →
  (∀ q, q ≠ (u, v) → f q = flag s q) → (f (u, v) = true ↔ g ≠ Out) →
  (∀ e, e ≠ edge u v → t e = turn s e) →
  (g = In → stg s (v, u) = Waiting ∨ stg s (v, u) = In → t (edge u v) = Some v) →
  (g = Waiting ∨ g = In → stg s (v, u) = In → t (edge u v) = Some u) →
  (g = Waiting ∨ stg s (v, u) = Waiting → t (edge u v) = Some u ∨ t (edge u v) = Some v) →
  client_ok (mkA f t (colr s) (stat s) (<[(u, v) := g]> (stg s)) (fin s) (pcs s)) i p' →
  Inv (goto i p' (mkA f t (colr s) (stat s) (<[(u, v) := g]> (stg s)) (fin s) (pcs s))).
Proof.
  intros HI Hp Hu Hadj Hf Hfg Ht Hin Hin' Hw Hok.
  assert (u ≠ v) as Huv by (intros ->; by apply (adj_irrefl v)).
  assert (∀ a b, (a, b) ≠ (u, v) →
    (<[(u, v) := g]> (stg s) : Z * Z → stage) (a, b) = stg s (a, b)) as Hstg.
  { intros a b Hab. by apply fn_lookup_insert_ne. }
  assert ((<[(u, v) := g]> (stg s) : Z * Z → stage) (u, v) = g) as Hstg'.
  { apply fn_lookup_insert. }
  assert (∀ a b, (a, b) ≠ (u, v) → (a, b) ≠ (v, u) → edge a b ≠ edge u v) as Hedge.
  { intros a b H1 H2 [[-> ->]|[-> ->]]%edge_inj; done. }
  split; simpl.
  - intros q. destruct (decide (q = (u, v))) as [->|Hq].
    + by rewrite Hstg'.
    + rewrite Hf, fn_lookup_insert_ne by done. apply (inv_flag s HI).
  - intros a b Ha Hb.
    destruct (decide ((a, b) = (u, v))) as [[= -> ->]|Hab].
    + rewrite Hstg' in Ha. rewrite Hstg in Hb by congruence. auto.
    + rewrite Hstg in Ha by done.
      destruct (decide ((b, a) = (u, v))) as [[= -> ->]|Hba].
      * rewrite Hstg' in Hb. rewrite edge_comm. auto.
      * rewrite Hstg in Hb by done. rewrite Ht by (apply Hedge; congruence).
        by apply (inv_exclusive s HI).
  - intros a b Ha. destruct (decide ((a, b) = (u, v))) as [[= -> ->]|Hab].
    + rewrite Hstg' in Ha. auto.
    + rewrite Hstg in Ha by done.
      destruct (decide ((a, b) = (v, u))) as [[= -> ->]|Hba].
      * rewrite edge_comm. destruct Hw; auto.
      * rewrite Ht by (by apply Hedge). by apply (inv_turn s HI).
  - intros a b Ha. destruct (decide ((a, b) = (u, v))) as [[= -> ->]|Hab]; [done|].
    rewrite Hstg in Ha by done. by apply (inv_edge s HI).
  - intros a b Ha. destruct (decide ((a, b) = (u, v))) as [[= -> ->]|Hab].
    + exists i. pose proof (inv_clients s HI i) as Hi. rewrite Hp in Hi.
      by destruct (ok_current _ _ _ Hi u Hu).
    + rewrite Hstg in Ha by done. by eapply (inv_owner s HI).
  - apply (inv_stat s HI).
  - apply (inv_proper s HI).
  - intros j. apply client_ok_goto. destruct (decide (i = j)) as [<-|Hij].
    + by rewrite fn_lookup_insert.
    + rewrite fn_lookup_insert_ne by done.
      by eapply (client_ok_lock s _ i u v p j).
Qed.

(** The same client, further with one lock: everything but the stage of
    that lock is as before. *)
Lemma ok_lock s s' i u todo passed held v rest q q' :
  client_ok s i (Scan u todo passed held (v :: rest) q) →
  (∀ a b, (a, b) ≠ (u, v) → stg s' (a, b) = stg s (a, b)) →
  (v ∉ held → stg s' (u, v) = stage_of (Scan u todo passed held (v :: rest) q') v) →
  stat s' = stat s → fin s' = fin s → colr s' = colr s →
  ¬ owns i v → q' ≠ QRead false →
  client_ok s' i (Scan u todo passed held (v :: rest) q').
Proof.
  intros [Htd Hfresh Hcur Hidle Hst Hh Hun Hrd Hlk (Ha & Hs & Hq)] Hstg Hv Hst' Hf Hc Hown Hq'.
  pose proof (passed_fresh _ _ _ _ _ Ha Hs) as Hvh.
  split; rewrite ?Hst', ?Hf, ?Hc; simpl in *; auto.
  - intros a b Ho Hne. rewrite Hstg by congruence. auto.
  - intros ? w [= <-]. destruct (decide (w = v)) as [->|Hw]; [auto|].
    rewrite Hstg by congruence. rewrite (Hst u w eq_refl).
    unfold stage_of; simpl. destruct q as [| | | | |[]], q' as [| | | | |[]];
      repeat case_decide; done.
  - split; [done|]. split; [done|]. by destruct q' as [| | | | |[]].
Qed.

Lemma scan_neighbour s i u todo passed held v rest q :
  client_ok s i (Scan u todo passed held (v :: rest) q) → v ∈ adj u.
Proof. intros H. destruct (ok_phase _ _ _ H) as (-> & _). set_solver. Qed.

Lemma busy_stage s i u todo passed held v rest q :
  client_ok s i (Scan u todo passed held (v :: rest) q) →
  stg s (u, v) = match q with
                 | QTurn => Flagged | QTurned | QWait => Waiting | QRead true => In | _ => Out
                 end.
Proof using adj_nodup.
  clear -adj_nodup.
  intros H. destruct (ok_phase _ _ _ H) as (Ha & Hs & _).
  pose proof (passed_fresh _ _ _ _ _ Ha Hs) as Hv.
  rewrite (ok_stage _ _ _ H u v eq_refl). unfold stage_of; simpl.
  rewrite decide_False by done. destruct q as [| | | | |[]]; try done; by rewrite decide_True.
Qed.

(** *** The steps of the lock *)

Lemma inv_step_flag s i u todo passed held v rest :
  Inv s → pcs s i = Scan u todo passed held (v :: rest) QFlag →
  Inv (goto i (Scan u todo passed held (v :: rest) QTurn)
         (set_flag u v true (set_stg u v Flagged s))).
Proof.
  intros HI Hp. pose proof (inv_clients s HI i) as Hi. rewrite Hp in Hi.
  pose proof (scan_neighbour _ _ _ _ _ _ _ _ _ Hi) as Hadj.
  unfold set_flag, set_stg; simpl.
  eapply inv_lock; try done.
  - intros q Hq. by rewrite fn_lookup_insert_ne.
  - rewrite fn_lookup_insert. done.
  - by intros [].
  - intros [?|Hw]; [done|]. rewrite (edge_comm u v).
    pose proof (inv_turn s HI v u Hw). tauto.
  - eapply ok_lock; try done; simpl.
    + intros. by apply fn_lookup_insert_ne.
    + intros. rewrite fn_lookup_insert. unfold stage_of; simpl.
      by rewrite decide_False, decide_True.
    + by destruct (ok_phase _ _ _ Hi) as (_ & _ & ?).
Qed.

Lemma inv_step_turn s i u todo passed held v rest q :
  Inv s → pcs s i = Scan u todo passed held (v :: rest) q → q = QTurn ∨ q = QTurned →
  Inv (goto i (Scan u todo passed held (v :: rest) QTurned)
         (set_turn u v u (set_stg u v Waiting s))).
Proof.
  intros HI Hp Hq. pose proof (inv_clients s HI i) as Hi. rewrite Hp in Hi.
  pose proof (scan_neighbour _ _ _ _ _ _ _ _ _ Hi) as Hadj.
  pose proof (busy_stage _ _ _ _ _ _ _ _ _ Hi) as Hst.
  unfold set_turn, set_stg; simpl.
  eapply inv_lock; try done.
  - split; [done|]. intros _. apply (inv_flag s HI). rewrite Hst.
    by destruct Hq as [->| ->].
  - intros e He. by rewrite fn_lookup_insert_ne.
  - intros. by rewrite fn_lookup_insert.
  - intros. rewrite fn_lookup_insert. by left.
  - eapply ok_lock; try done; simpl.
    + intros. by apply fn_lookup_insert_ne.
    + intros. rewrite fn_lookup_insert. unfold stage_of; simpl.
      by rewrite decide_False, decide_True.
    + destruct (ok_phase _ _ _ Hi) as (_ & _ & ?). by destruct Hq as [->| ->].
Qed.

Lemma inv_step_enter s i u todo passed held v rest :
  Inv s → pcs s i = Scan u todo passed held (v :: rest) QWait →
  flag s (v, u) = false ∨ turn s (edge u v) ≠ Some u →
  Inv (goto i (Scan u todo passed held (v :: rest) (QRead true)) (set_stg u v In s)).
Proof.
  intros HI Hp Hent. pose proof (inv_clients s HI i) as Hi. rewrite Hp in Hi.
  pose proof (scan_neighbour _ _ _ _ _ _ _ _ _ Hi) as Hadj.
  pose proof (busy_stage _ _ _ _ _ _ _ _ _ Hi) as Hst. simpl in Hst.
  assert (stg s (v, u) = Out ∨ turn s (edge u v) = Some v) as Hent'.
  { destruct Hent as [Hf|Ht].
    - left. destruct (decide (stg s (v, u) = Out)) as [|Hn]; [done|].
      apply (inv_flag s HI) in Hn. congruence.
    - right. pose proof (inv_turn s HI u v Hst). tauto. }
  unfold set_stg. eapply inv_lock; try done.
  - split; [done|]. intros _. apply (inv_flag s HI). by rewrite Hst.
  - intros _ H. destruct Hent' as [Ho|]; [|done]. rewrite Ho in H. naive_solver.
  - intros _ H. rewrite edge_comm. apply (inv_exclusive s HI); auto.
  - intros _. apply (inv_turn s HI); auto.
  - eapply ok_lock; try done; simpl.
    + intros. by apply fn_lookup_insert_ne.
    + intros. rewrite fn_lookup_insert. unfold stage_of; simpl.
      by rewrite decide_False, decide_True.
    + by destruct (ok_phase _ _ _ Hi) as (_ & _ & ?).
Qed.

Lemma inv_step_release s i u todo v held :
  Inv s → pcs s i = Release u todo (v :: held) →
  Inv (goto i (Release u todo held) (set_flag u v false (set_stg u v Out s))).
Proof.
  intros HI Hp. pose proof (inv_clients s HI i) as Hi. rewrite Hp in Hi.
  assert (stg s (u, v) = In) as Hst.
  { rewrite (ok_stage _ _ _ Hi u v eq_refl). unfold stage_of; simpl.
    by rewrite decide_True by set_solver. }
  unfold set_flag, set_stg; simpl.
  eapply inv_lock; try done.
  - apply (inv_edge s HI). by rewrite Hst.
  - intros q Hq. by rewrite fn_lookup_insert_ne.
  - rewrite fn_lookup_insert. naive_solver.
  - naive_solver.
  - intros [?|Hw]; [done|]. rewrite (edge_comm u v).
    pose proof (inv_turn s HI v u Hw). tauto.
  - destruct Hi as [Htd Hfresh Hcur Hidle Hs [Hn Hfo] Hun Hrd Hlk Hph]; simpl in *.
    apply NoDup_cons in Hn as [Hv Hn]. apply Forall_cons in Hfo as [_ Hfo].
    split; simpl; auto.
    + intros a b Ho Hne. rewrite fn_lookup_insert_ne by congruence. auto.
    + intros ? w [= <-]. unfold stage_of; simpl.
      destruct (decide (w = v)) as [->|Hw].
      * by rewrite fn_lookup_insert, decide_False.
      * rewrite fn_lookup_insert_ne by congruence. rewrite (Hs u w eq_refl).
        unfold stage_of; simpl. repeat case_decide; set_solver.
    + by intros ? ? ?%elem_of_nil.
Qed.

(** *** Writing the colour *)

(** At that point no other client can have read the node's colour: it would
    hold the edge, or the node would be marked. *)
Lemma colour_unread s i j u todo passed held c v x :
  Inv s → pcs s i = Colour u todo passed held c → j ≠ i →
  current (pcs s j) = Some v → (u, x) ∈ reads (pcs s j) → False.
Proof.
  intros HI Hp Hij Hv Hx.
  pose proof (inv_clients s HI i) as Hi. rewrite Hp in Hi.
  pose proof (inv_clients s HI j) as Hj.
  destruct (ok_current _ _ _ Hi u eq_refl) as [Hiu _].
  destruct (ok_current _ _ _ Hj v Hv) as [Hjv _].
  pose proof (ok_unfinished _ _ _ Hi u eq_refl I) as Hfu.
  assert (uncoloured (pcs s j)) as Hun.
  { destruct (pcs s j); simpl in *; try done; by apply elem_of_nil in Hx. }
  pose proof (ok_unfinished _ _ _ Hj v Hv Hun) as Hfv.
  (* the edge is held by [j] *)
  assert (stg s (v, u) = In) as Hvu.
  { assert (¬ owns j u) as Hju by (intros H; by destruct (owns_disjoint i j u Hiu H)).
    destruct (ok_locked _ _ _ Hj u x Hx Hju) as [Hh|Hs].
    - rewrite (ok_stage _ _ _ Hj v u Hv). unfold stage_of. by rewrite decide_True.
    - apply (inv_stat s HI) in Hs. congruence. }
  (* and by [i] *)
  assert (v ∈ passed.*1) as Hvp.
  { destruct (ok_phase _ _ _ Hi) as (<- & _). apply adj_sym, (inv_edge s HI). by rewrite Hvu. }
  apply list_elem_of_fmap in Hvp as ([v' y] & -> & Hvy). simpl in *.
  assert (stg s (u, v') = In) as Huv.
  { assert (¬ owns i v') as Hiv by (intros H; by destruct (owns_disjoint j i v' Hjv H)).
    destruct (ok_locked _ _ _ Hi v' y Hvy Hiv) as [Hh|Hs].
    - rewrite (ok_stage _ _ _ Hi u v' eq_refl). unfold stage_of. by rewrite decide_True.
    - apply (inv_stat s HI) in Hs. congruence. }
  by apply (exclusive s u v').
Qed.

Lemma inv_step_colour s i u todo passed held c :
  Inv s → pcs s i = Colour u todo passed held c →
  Inv (goto i (Mark u todo held c) (set_colr u c s)).
Proof.
  intros HI Hp. pose proof (inv_clients s HI i) as Hi. rewrite Hp in Hi.
  destruct (ok_current _ _ _ Hi u eq_refl) as [Hown Hnt].
  destruct (ok_phase _ _ _ Hi) as (Ha & Hs & Hc).
  assert (∀ v, v ∈ adj u → fin s v = true → c ≠ colr s v) as Hnew.
  { intros v Hv Hf ->. apply Hc. rewrite Ha in Hv.
    apply list_elem_of_fmap in Hv as ([v' y] & -> & Hvy). simpl in *.
    rewrite (ok_reads _ _ _ Hi v' y Hvy Hf). apply list_elem_of_fmap. by exists (v', y). }
  split; simpl; try apply HI.
  - intros w Hw. destruct (decide (u = w)) as [<-|Hne].
    + by rewrite fn_lookup_insert.
    + rewrite fn_lookup_insert_ne by done. by apply (inv_stat s HI).
  - intros a b Hab Hfa Hfb.
    assert (a ≠ b) as Hne by (intros ->; by apply (adj_irrefl b)).
    destruct (decide (u = a)) as [<-|Hua]; [|destruct (decide (u = b)) as [<-|Hub]].
    + rewrite fn_lookup_insert, (fn_lookup_insert_ne (colr s)) by done.
      rewrite fn_lookup_insert_ne in Hfb by done. auto.
    + rewrite (fn_lookup_insert (colr s)), fn_lookup_insert_ne by done.
      rewrite fn_lookup_insert_ne in Hfa by done. apply not_eq_sym. auto.
    + rewrite !fn_lookup_insert_ne in * by done. by apply (inv_proper s HI).
  - intros j. apply client_ok_goto. destruct (decide (i = j)) as [<-|Hij].
    + rewrite fn_lookup_insert.
      destruct Hi as [Htd Hfresh Hcur Hidle Hst Hh Hun Hrd Hlk Hph]; simpl in *.
      split; simpl; auto; try (by intros ? ? ?%elem_of_nil).
      * intros w Hw. rewrite fn_lookup_insert_ne by congruence. auto.
      * done.
      * by rewrite !fn_lookup_insert.
    + rewrite fn_lookup_insert_ne by done.
      eapply client_ok_frame; [by apply (inv_clients s HI)|..]; simpl; auto.
      * intros w Hw. rewrite !fn_lookup_insert_ne; [done|..];
          intros <-; by destruct (owns_disjoint i j u Hown Hw).
      * intros v x Hx Hf. destruct (decide (u = v)) as [<-|Hne].
        -- destruct (current (pcs s j)) as [v|] eqn:Ev.
           ++ by destruct (colour_unread s i j u todo passed held c v x).
           ++ destruct (pcs s j); simpl in *; try done. by apply elem_of_nil in Hx.
        -- rewrite fn_lookup_insert_ne in Hf by done. by rewrite fn_lookup_insert_ne.
Qed.

Lemma inv_step_mark s i u todo held c :
  Inv s → pcs s i = Mark u todo held c →
  Inv (goto i (Release u todo held) (set_stat u s)).
Proof.
  intros HI Hp. pose proof (inv_clients s HI i) as Hi. rewrite Hp in Hi.
  destruct (ok_phase _ _ _ Hi) as (Hc & Hf).
  assert (∀ w, stat s w = true → (<[u := true]> (stat s) : Z → bool) w = true) as Hmono.
  { intros w Hw. destruct (decide (u = w)) as [<-|Hne].
    - by rewrite fn_lookup_insert.
    - by rewrite fn_lookup_insert_ne. }
  split; simpl; try apply HI.
  - intros w. destruct (decide (u = w)) as [<-|Hne]; [done|].
    rewrite fn_lookup_insert_ne by done. apply (inv_stat s HI).
  - intros j. apply client_ok_goto. destruct (decide (i = j)) as [<-|Hij].
    + rewrite fn_lookup_insert.
      destruct Hi as [Htd Hfresh Hcur Hidle Hst Hh Hun Hrd Hlk Hph]; simpl in *.
      split; simpl; auto; try (by intros ? ? ?%elem_of_nil).
      by rewrite fn_lookup_insert.
    + rewrite fn_lookup_insert_ne by done.
      eapply client_ok_frame; [by apply (inv_clients s HI)|..]; simpl; auto.
Qed.

(** *** Every step, every reachable state *)

Lemma goto_same_pc s i p : pcs s i = p → Inv (goto i p s) → Inv s.
Proof.
  intros Hp [H1 H2 H3 H4 H4' H5 H6 H7]. split; try done.
  intros j. specialize (H7 j). simpl in H7.
  assert ((<[i := p]> (pcs s) : nat → apc) j = pcs s j) as Hj.
  { destruct (decide (i = j)) as [<-|Hij].
    - by rewrite fn_lookup_insert.
    - by rewrite fn_lookup_insert_ne. }
  rewrite Hj in H7. by eapply client_ok_frame in H7.
Qed.

Lemma inv_step_turn_again s i u todo passed held v rest :
  Inv s → pcs s i = Scan u todo passed held (v :: rest) QTurned → Inv (set_turn u v u s).
Proof.
  intros HI Hp. pose proof (inv_clients s HI i) as Hi. rewrite Hp in Hi.
  pose proof (busy_stage _ _ _ _ _ _ _ _ _ Hi) as Hst. simpl in Hst.
  pose proof (inv_step_turn s i u todo passed held v rest _ HI Hp (or_intror eq_refl)) as H.
  apply (goto_same_pc (set_turn u v u (set_stg u v Waiting s)) i) in H; [|done].
  destruct H as [H1 H2 H3 H4 H4' H5 H6 H7]; simpl in *.
  assert (∀ q, (<[(u, v) := Waiting]> (stg s) : Z * Z → stage) q = stg s q) as Hs.
  { intros q. destruct (decide ((u, v) = q)) as [<-|Hne].
    - by rewrite fn_lookup_insert.
    - by rewrite fn_lookup_insert_ne. }
  setoid_rewrite Hs in H1. setoid_rewrite Hs in H2. setoid_rewrite Hs in H3.
  setoid_rewrite Hs in H4. setoid_rewrite Hs in H4'.
  split; simpl; auto. intros j. eapply client_ok_frame; [apply H7|..]; simpl; auto.
Qed.

Lemma ok_await s i u todo passed held v rest :
  client_ok s i (Scan u todo passed held (v :: rest) QTurned) →
  client_ok s i (Scan u todo passed held (v :: rest) QWait).
Proof. by intros []; split. Qed.

Lemma inv_step s s' i : Inv s → astep i s s' → Inv s'.
Proof.
  intros HI Hstep. pose proof (inv_clients s HI i) as Hi.
  destruct Hstep; match goal with H : pcs s i = _ |- _ => rename H into Hp end;
    rewrite Hp in Hi.
  - apply inv_goto; [done|]. by apply ok_start.
  - apply inv_goto; [done|]. eapply ok_look; [done|]. auto.
  - apply inv_goto; [done|]. eapply ok_look; [done|]. auto.
  - apply inv_goto; [done|]. eapply ok_look; [done|]. auto.
  - by apply inv_step_flag.
  - eapply inv_step_turn; [done|done|]. by left.
  - by eapply inv_step_turn_again.
  - apply inv_goto; [done|]. by apply ok_await.
  - apply inv_step_enter; auto.
  - apply inv_step_enter; auto.
  - apply inv_goto; [done|]. by apply ok_read.
  - apply inv_goto; [done|]. by apply ok_choose.
  - by eapply inv_step_colour.
  - by eapply inv_step_mark.
  - by apply inv_step_release.
  - apply inv_goto; [done|]. by eapply ok_finish.
Qed.

Lemma inv_initial s : initial s → Inv s.
Proof.
  intros [Hf Hs Hg Hn Hp]. split; try (intros; rewrite ?Hf, ?Hg, ?Hn in *; congruence).
  - intros p. by rewrite Hf, Hg.
  - intros i. destruct (Hp i) as (todo & -> & Hnd & Hfa).
    split; simpl; auto; try done; try apply Forall_nil_2; try (by intros ? ? ?%elem_of_nil).
    split; [apply NoDup_nil_2|apply Forall_nil_2].
Qed.

Lemma inv_reachable s : areachable s → Inv s.
Proof.
  intros (s0 & H0 & Hr). apply inv_initial in H0.
  induction Hr as [|s1 s2 s3 [i Hstep] _ IH]; [done|]. eauto using inv_step.
Qed.

(** Before its status is written, a node is not marked. *)
Definition unmarked (p : apc) : Prop :=
  match p with Scan _ _ _ _ _ _ | Colour _ _ _ _ _ | Mark _ _ _ _ => True | _ => False end.

(** Every node of a range is still to do, being worked on, or marked. *)
Definition covered (range : nat → list Z) (s : astate) : Prop :=
  ∀ i u, u ∈ range i →
    u ∈ todo_of (pcs s i) ∨ (current (pcs s i) = Some u ∧ unmarked (pcs s i)) ∨ stat s u = true.

Lemma covered_goto range s i p f t c st g fn :
  covered range s →
  (∀ u, stat s u = true → st u = true) →
  (∀ u, u ∈ todo_of (pcs s i) → u ∈ todo_of p ∨ (current p = Some u ∧ unmarked p)) →
  (∀ u, current (pcs s i) = Some u → unmarked (pcs s i) →
     (current p = Some u ∧ unmarked p) ∨ st u = true) →
  covered range (mkA f t c st g fn (<[i := p]> (pcs s))).
Proof.
  intros Hcov Hf Ht Hc j u Hu. simpl. destruct (decide (i = j)) as [<-|Hij].
  - rewrite fn_lookup_insert. destruct (Hcov i u Hu) as [H|[[H1 H2]|H]];
      [destruct (Ht u H)|destruct (Hc u H1 H2)|]; auto.
  - rewrite fn_lookup_insert_ne by done. destruct (Hcov j u Hu) as [H|[H|H]]; auto.
Qed.

Lemma covered_step range s s' : any_step s s' → covered range s → covered range s'.
Proof.
  intros [i Hstep] Hcov.
  destruct Hstep as [u todo Hp|u todo passed held v rest Hp|u todo passed held v rest Hp
    |u todo passed held v rest Hp|u todo passed held v rest Hp|u todo passed held v rest Hp
    |u todo passed held v rest Hp|u todo passed held v rest Hp|u todo passed held v rest Hp
    |u todo passed held v rest Hp|u todo passed held v rest locked Hp|u todo passed held c Hp
    |u todo passed held c Hp
    |u todo held c Hp|u todo v held Hp|u todo Hp];
    try done; apply (covered_goto range s); rewrite ?Hp; simpl; auto.
  - intros w [->|Hw]%elem_of_cons; auto.
  - intros w Hw. destruct (decide (u = w)) as [<-|Hne].
    + by rewrite fn_lookup_insert.
    + by rewrite fn_lookup_insert_ne.
  - intros w [= <-] _. right. by rewrite fn_lookup_insert.
Qed.

Lemma covered_steps range s s' : rtc any_step s s' → covered range s → covered range s'.
Proof. induction 1; eauto using covered_step. Qed.

(** A node that is not final yet still has the colour it started with. *)
Lemma untouched_step s s' u :
  any_step s s' → fin s' u = false → fin s u = false ∧ colr s' u = colr s u.
Proof.
  intros [i []]; simpl; auto. destruct (decide (u0 = u)) as [->|Hne].
  - by rewrite fn_lookup_insert.
  - by rewrite !fn_lookup_insert_ne.
Qed.

Lemma untouched_steps s s' u :
  rtc any_step s s' → fin s' u = false → fin s u = false ∧ colr s' u = colr s u.
Proof.
  induction 1 as [|s1 s2 s3 H1 _ IH]; [done|]. intros [H2 Hc]%IH.
  apply (untouched_step _ _ _ H1) in H2 as [? ?]. split; congruence.
Qed.

(** ** Progress

    The locks are taken in the order of the sorted neighbour lists, which is
    the lexicographic order of the edges: the clients cannot wait for each
    other in a circle. *)

Hypothesis adj_sorted : ∀ u, StronglySorted Z.lt (adj u).

(** A client that has taken no lock, or has given all of them back. *)
Definition at_rest (p : apc) : Prop := held_of p = [] ∧ busy_of p = None.

#[global] Instance at_rest_dec p : Decision (at_rest p).
Proof. unfold at_rest. apply _. Defined.

(** A client that reads the store over and over and stays where it is. *)
Definition blocked (s : astate) (p : apc) : Prop :=
  match p with
  | Scan u _ _ _ (v :: _) QWait => flag s (v, u) = true ∧ turn s (edge u v) = Some u
  | _ => False
  end.

#[global] Instance blocked_dec s p : Decision (blocked s p).
Proof. destruct p as [|? ? ? ? [] []| | |]; simpl; apply _. Defined.

Definition wait_edge (p : apc) : Z * Z :=
  match p with
  | Scan u _ _ _ (v :: _) _ => edge u v
  | _ => (0, 0)
  end.

Definition lex_lt (a b : Z * Z) : Prop := a.1 < b.1 ∨ a.1 = b.1 ∧ a.2 < b.2.

#[global] Instance lex_lt_dec a b : Decision (lex_lt a b).
Proof. unfold lex_lt. apply _. Defined.

Lemma sorted_split_lt u passed rest w v :
  adj u = passed ++ w :: rest → v ∈ passed → v < w.
Proof.
  intros Ha Hv. pose proof (adj_sorted u) as Hs. rewrite Ha in Hs.
  apply list_elem_of_split in Hv as (l1 & l2 & ->).
  rewrite <- app_assoc in Hs. simpl in Hs. clear Ha.
  induction l1 as [|x l1 IH]; simpl in Hs; inversion Hs as [|? ? Hs1 Hs2]; subst; [|auto].
  rewrite Forall_forall in Hs2. apply Hs2. set_solver.
Qed.

Lemma blocked_busy s p : blocked s p → ¬ at_rest p.
Proof. destruct p as [|? ? ? ? [] []| | |]; simpl; try done. by intros _ [_ ?]. Qed.

(** The client that keeps a blocked client waiting has a lock, and if it is
    blocked itself it waits for a later edge. *)
Lemma blocked_by_later s i :
  Inv s → blocked s (pcs s i) →
  ∃ j, ¬ at_rest (pcs s j) ∧
    (blocked s (pcs s j) → lex_lt (wait_edge (pcs s i)) (wait_edge (pcs s j))).
Proof.
  intros HI Hb. pose proof (inv_clients s HI i) as Hi.
  destruct (pcs s i) as [|u todo passed held [|v rest] []| | |] eqn:Hp; try done.
  destruct Hb as [Hf Ht].
  apply (inv_flag s HI) in Hf.
  destruct (inv_owner s HI v u Hf) as [j Hj]. exists j.
  pose proof (inv_clients s HI j) as Hok.
  assert (current (pcs s j) = Some v) as Hcur.
  { destruct (decide (current (pcs s j) = Some v)) as [|Hne]; [done|].
    by rewrite (ok_idle _ _ _ Hok v u Hj Hne) in Hf. }
  rewrite (ok_stage _ _ _ Hok v u Hcur) in Hf. split.
  { intros [Hh Hbusy]. apply Hf. unfold stage_of. by rewrite Hh, Hbusy. }
  intros Hbj.
  destruct (pcs s j) as [|v' todo' passed' held' [|w rest'] []| | |] eqn:Hpj; try done.
  simpl in Hcur. simplify_eq. unfold stage_of in Hf; simpl in Hf.
  destruct (ok_phase _ _ _ Hok) as (Ha & Hs & _).
  case_decide as Hu.
  - assert (u < w) by (eapply sorted_split_lt; [done|set_solver]).
    assert (u ≠ v).
    { intros ->. pose proof (scan_neighbour _ _ _ _ _ _ _ _ _ Hi) as Hx.
      by apply adj_irrefl in Hx. }
    unfold lex_lt, edge; simpl. lia.
  - case_decide; [|done]. subst w. destruct Hbj as [_ Ht'].
    rewrite edge_comm in Ht'. assert (u = v) as -> by congruence.
    pose proof (scan_neighbour _ _ _ _ _ _ _ _ _ Hi) as Hx. by apply adj_irrefl in Hx.
Qed.

(** If a client is blocked, another one has a lock and is not blocked: among
    finitely many clients the climb to ever later edges ends. *)
Lemma some_unblocked s n i0 :
  Inv s → (∀ i, (n ≤ i)%nat → at_rest (pcs s i)) → blocked s (pcs s i0) →
  ∃ i, ¬ at_rest (pcs s i) ∧ ¬ blocked s (pcs s i).
Proof.
  intros HI Hn Hi0.
  destruct (decide (Exists (λ i, ¬ at_rest (pcs s i) ∧ ¬ blocked s (pcs s i)) (seq 0 n)))
    as [Hex|Hnex].
  { apply Exists_exists in Hex as (i & _ & ? & ?). eauto. }
  exfalso.
  assert (∀ i, ¬ at_rest (pcs s i) → i ∈ seq 0 n) as Hseq.
  { intros i Hi. apply elem_of_seq. destruct (decide (i < n)%nat); [lia|]. destruct Hi. apply Hn. lia. }
  assert (∀ i, ¬ at_rest (pcs s i) → blocked s (pcs s i)) as Hall.
  { intros i Hi. apply dec_stable. intros Hb. apply Hnex, Exists_exists. exists i. auto. }
  assert (∀ l : list nat, ∀ i, i ∈ l → ¬ at_rest (pcs s i) →
    (∀ j, ¬ at_rest (pcs s j) → j ∉ l → lex_lt (wait_edge (pcs s j)) (wait_edge (pcs s i))) →
    False) as Hclimb.
  { intros l. induction l as [l IH] using (induction_ltof1 _ (@length nat)).
    intros i Hi Hr Hout.
    destruct (blocked_by_later s i HI (Hall i Hr)) as (j & Hj & Hlt).
    specialize (Hlt (Hall j Hj)).
    assert (j ≠ i) as Hji by (intros ->; unfold lex_lt in Hlt; lia).
    destruct (decide (j ∈ l)) as [Hjl|Hjl].
    - apply (IH (filter (λ x, x ≠ i) l)) with j; [|by apply list_elem_of_filter|done|].
      + unfold ltof. apply length_filter_lt with i; [done|]. by intros [].
      + intros k Hk Hkl. destruct (decide (k = i)) as [->|]; [done|].
        assert (k ∉ l) by (intros ?; apply Hkl; by apply list_elem_of_filter).
        specialize (Hout k Hk ltac:(done)). unfold lex_lt in *. lia.
    - specialize (Hout j Hj Hjl). unfold lex_lt in *. lia. }
  pose proof (blocked_busy _ _ Hi0) as Hbusy.
  apply (Hclimb (seq 0 n)) with i0; [by apply Hseq|done|].
  intros j Hj Hjl. by apply Hseq in Hj.
Qed.

(** *** The work left to a client *)

Definition sub_work (q : sub) : nat :=
  match q with
  | QStatus => 7 | QFlag => 6 | QTurn => 5 | QTurned => 4 | QWait => 3 | QRead _ => 1
  end.

Definition node_work (u : Z) : nat := 14 + 9 * length (adj u).

Definition work (p : apc) : nat :=
  sum_list (node_work <$> todo_of p) +
  match p with
  | Idle _ => 0
  | Scan _ _ _ held rest q => 6 + length held + 9 * length rest + sub_work q
  | Colour _ _ _ held _ => 5 + length held
  | Mark _ _ held _ => 4 + length held
  | Release _ _ held => 3 + length held
  end.

(** A step takes work away, except setting the turn once more. *)
Lemma astep_work i s s' : astep i s s' →
  (work (pcs s' i) < work (pcs s i))%nat ∨ pcs s' i = pcs s i ∧ ¬ blocked s' (pcs s i).
Proof.
  intros [u todo Hp| | | | | | ? ? ? ? ? ? Hp| | | |? ? ? ? ? ? [] Hp| | | | |];
    try (left; simpl; rewrite fn_lookup_insert; match goal with H : pcs s i = _ |- _ => rewrite H end;
      unfold work; simpl; rewrite ?length_app; simpl; lia).
  - left. simpl. rewrite fn_lookup_insert, Hp. unfold work.
    cbn [todo_of fmap list_fmap sum_list]. unfold node_work at 2. simpl length. cbn [sub_work].
    unfold id. lia.
  - right. simpl. rewrite Hp. split; [done|]. by intros [].
Qed.

(** A client that runs on its own until it is blocked has work behind it, if
    it was not blocked before. *)
Lemma asteps_work i s s' : rtc (astep i) s s' → ¬ blocked s (pcs s i) → blocked s' (pcs s' i) →
  (work (pcs s' i) < work (pcs s i))%nat.
Proof.
  intros Hsteps Hb Hb'.
  assert (s = s' ∨ (work (pcs s' i) < work (pcs s i))%nat ∨
    pcs s' i = pcs s i ∧ ¬ blocked s' (pcs s i)) as H.
  2:{ destruct H as [->|[H|[H1 H2]]]; [done|done|]. by rewrite H1 in Hb'. }
  clear Hb Hb'. induction Hsteps as [|s1 s2 s3 H12 H23 IH]; [by left|]. right.
  apply astep_work in H12 as [H12|[H12 Hn]]; destruct IH as [->|[IH|[IH Hn']]];
    rewrite ?IH, ?H12 in *; auto; left; lia.
Qed.

Lemma asteps_work_le i s s' : rtc (astep i) s s' → (work (pcs s' i) ≤ work (pcs s i))%nat.
Proof.
  induction 1 as [|s1 s2 s3 H12 _ IH]; [done|].
  apply astep_work in H12 as [H12|[H12 _]]; rewrite ?H12 in *; lia.
Qed.
End protocol.
