(* ===== verification/Keys.v ===== *)
(** * The keys of the protocol

    The strings under which the clients keep the graph, the colours and the
    locks, written without buffers, with their injectivity and disjointness,
    and the proof that the fixed-size buffers of the C code never truncate
    them for node ids that fit an [int]. *)

From S2P Require Import Prelude CLib Hiredis Program Client1.
From Stdlib Require Import Ascii.

Definition node_key (u : Z) : string := "node_" +:+ pretty u.
Definition neighbours_key (u : Z) : string := "node_" +:+ pretty u +:+ "_neighbours".
Definition color_key (u : Z) : string := "node_" +:+ pretty u +:+ "_color".
Definition status_key (u : Z) : string := "node_" +:+ pretty u +:+ "_status".

(** The edge part: the smaller id first. *)
Definition both_key (u v : Z) : string :=
  pretty (Z.min u v) +:+ "_" +:+ pretty (Z.max u v).
Definition flag_key (u v : Z) : string := "flag_" +:+ both_key u v +:+ "_" +:+ pretty u.
Definition turn_key (u v : Z) : string := "turn_" +:+ both_key u v.

(** ** Injectivity *)

Lemma both_key_comm u v : both_key u v = both_key v u.
Proof. unfold both_key. by rewrite Z.min_comm, Z.max_comm. Qed.

Lemma turn_key_comm u v : turn_key u v = turn_key v u.
Proof. unfold turn_key. by rewrite both_key_comm. Qed.

Lemma suffix_key_inj (u u' : Z) a b :
  "node_" +:+ pretty u +:+ String "_" a = "node_" +:+ pretty u' +:+ String "_" b →
  u = u' ∧ a = b.
Proof.
  intros H. apply string_app_inj_r in H.
  apply split_at_sep in H as [H ->]; auto with colour. by simplify_eq.
Qed.

#[export] Instance neighbours_key_inj : Inj (=) (=) neighbours_key.
Proof. intros u u' H. by apply suffix_key_inj in H as [? _]. Qed.
#[export] Instance color_key_inj : Inj (=) (=) color_key.
Proof. intros u u' H. by apply suffix_key_inj in H as [? _]. Qed.
#[export] Instance status_key_inj : Inj (=) (=) status_key.
Proof. intros u u' H. by apply suffix_key_inj in H as [? _]. Qed.

Lemma both_key_split u v u' v' a b :
  both_key u v +:+ String "_" a = both_key u' v' +:+ String "_" b →
  Z.min u v = Z.min u' v' ∧ Z.max u v = Z.max u' v' ∧ a = b.
Proof.
  unfold both_key. rewrite <- !string_app_assoc. cbn [String.append]. intros H.
  apply split_at_sep in H as [H1 H]; auto with colour.
  apply split_at_sep in H as [H2 ->]; auto with colour. by simplify_eq.
Qed.

Lemma flag_key_inj u v u' v' : flag_key u v = flag_key u' v' → u = u' ∧ v = v'.
Proof.
  unfold flag_key. intros H. apply string_app_inj_r in H.
  cbn [String.append] in H. apply both_key_split in H as (? & ? & H).
  simplify_eq. lia.
Qed.

Lemma turn_key_inj u v u' v' :
  turn_key u v = turn_key u' v' → Z.min u v = Z.min u' v' ∧ Z.max u v = Z.max u' v'.
Proof.
  unfold turn_key. intros H. apply string_app_inj_r in H.
  apply (f_equal (λ s, s +:+ String "_" "")) in H.
  by apply both_key_split in H as (? & ? & _).
Qed.

(** ** Disjointness *)

Lemma color_status_ne u v : color_key u ≠ status_key v.
Proof. by intros [_ ?]%suffix_key_inj. Qed.
Lemma color_neighbours_ne u v : color_key u ≠ neighbours_key v.
Proof. by intros [_ ?]%suffix_key_inj. Qed.
Lemma status_neighbours_ne u v : status_key u ≠ neighbours_key v.
Proof. by intros [_ ?]%suffix_key_inj. Qed.
Lemma flag_turn_ne u v a b : flag_key u v ≠ turn_key a b.
Proof. done. Qed.
Lemma flag_color_ne u v a : flag_key u v ≠ color_key a.
Proof. done. Qed.
Lemma flag_status_ne u v a : flag_key u v ≠ status_key a.
Proof. done. Qed.
Lemma flag_neighbours_ne u v a : flag_key u v ≠ neighbours_key a.
Proof. done. Qed.
Lemma turn_color_ne u v a : turn_key u v ≠ color_key a.
Proof. done. Qed.
Lemma turn_status_ne u v a : turn_key u v ≠ status_key a.
Proof. done. Qed.
Lemma turn_neighbours_ne u v a : turn_key u v ≠ neighbours_key a.
Proof. done. Qed.

Create HintDb keys.
#[export] Hint Resolve color_status_ne color_neighbours_ne status_neighbours_ne
  flag_turn_ne flag_color_ne flag_status_ne flag_neighbours_ne
  turn_color_ne turn_status_ne turn_neighbours_ne : keys.

(** Two keys of different families, in either order. *)
Ltac distinct_keys := solve [auto with keys | apply not_eq_sym; auto with keys].

(** ** The buffers are large enough *)

Ltac string_lengths :=
  repeat match goal with
  | H : in_int ?z |- _ =>
      lazymatch goal with
      | _ : (String.length (pretty z) ≤ 11)%nat |- _ => fail
      | _ => pose proof (pretty_int_length z H)
      end
  end;
  rewrite ?string_length_app; simpl String.length; lia.

Ltac fits := rewrite snprintf_fits by (unfold both_key; string_lengths).

Lemma in_int_min u v : in_int u → in_int v → in_int (Z.min u v).
Proof. ints. Qed.
Lemma in_int_max u v : in_int u → in_int v → in_int (Z.max u v).
Proof. ints. Qed.

Section buffer.
Context (u : Z) (Hu : in_int u).

Lemma neighbours_buffer : snprintf 256 (node_key u +:+ "_neighbours") = neighbours_key u.
Proof. unfold node_key. fits. by rewrite <- string_app_assoc. Qed.
Lemma color_buffer : snprintf 256 (node_key u +:+ "_color") = color_key u.
Proof. unfold node_key. fits. by rewrite <- string_app_assoc. Qed.
Lemma status_buffer : snprintf 256 (node_key u +:+ "_status") = status_key u.
Proof. unfold node_key. fits. by rewrite <- string_app_assoc. Qed.
Lemma nbr_color_buffer : snprintf 256 ("node_" +:+ pretty u +:+ "_color") = color_key u.
Proof. by fits. Qed.
Lemma nbr_status_buffer : snprintf 256 ("node_" +:+ pretty u +:+ "_status") = status_key u.
Proof. by fits. Qed.

Lemma node_id_of_key : get_node_id (node_key u) = u.
Proof.
  unfold get_node_id, node_key. rewrite is_prefix_app.
  assert (∀ s, String.substring 0 (String.length s) s = s) as Hsub.
  { induction s as [|c s IH]; simpl; [done|]. by rewrite IH. }
  simpl. rewrite Nat.sub_0_r, Hsub. auto with colour.
Qed.

Lemma number_of_key : extract_number_from_string (node_key u) = Some (pretty u).
Proof. done. Qed.
End buffer.

Section buffers.
Context (u v : Z) (Hu : in_int u) (Hv : in_int v).

Lemma both_buffer : both_id u v (pretty u) (pretty v) = both_key u v.
Proof.
  unfold both_id, both_key. destruct (Z.ltb_spec v u); fits.
  - by rewrite Z.min_r, Z.max_l by lia.
  - by rewrite Z.min_l, Z.max_r by lia.
Qed.

Lemma both_key_length : (String.length (both_key u v) ≤ 23)%nat.
Proof.
  pose proof (in_int_min u v Hu Hv). pose proof (in_int_max u v Hu Hv).
  unfold both_key. string_lengths.
Qed.

(** The lock built for the edge is the lock of the protocol. *)
Lemma make_lock_keys :
  make_lock u v (pretty u) (pretty v) =
  {| lock_key_1 := flag_key u v; lock_key_2 := flag_key v u;
     Client1.turn_key := turn_key u v; node_name := pretty u |}.
Proof.
  unfold make_lock. rewrite both_buffer. pose proof both_key_length.
  unfold flag_key, turn_key. rewrite (both_key_comm v u).
  f_equal; rewrite snprintf_fits; try done; string_lengths.
Qed.
End buffers.

(** The colour buffer holds nine digits. *)
Lemma color_str_fits (c : Z) : 0 ≤ c < 10 ^ 9 → snprintf 10 (pretty c) = pretty c.
Proof.
  intros Hc. apply snprintf_fits. rewrite pretty_Z_nonneg by lia.
  enough (String.length (pretty (Z.to_N c)) ≤ 9)%nat by lia.
  apply (pretty_N_length _ 8). simpl. lia.
Qed.
