(* ===== verification/ServerSpec.v ===== *)
(** * What the clients rely on in a server

    The contract between the colouring clients and a Redis server, as a type
    class: a server keeps a map from keys to strings and sets, and answers the
    five commands the clients send as [answers] says.  The clients' theorems
    are proved against [KVServer]; [RedisServer] discharges it for the model of
    the Redis server.  [ref_server] is the plain map itself. *)

From S2P Require Import Prelude CLib Hiredis Program.
From Stdlib Require Import Ascii.

(** ** The key space as the clients see it *)

Inductive aval : Type :=
| AStr (s : string)
| ASet (X : gset string).

#[export] Instance aval_eq_dec : EqDecision aval.
Proof. solve_decision. Defined.

Definition wrongtypeerr : string :=
  "WRONGTYPE Operation against a key holding the wrong kind of value".

(** The reply to [GET]. *)
Definition get_reply (o : option aval) : redisReply :=
  match o with
  | Some (AStr s) => RString s
  | Some (ASet _) => RError wrongtypeerr
  | None => RNil
  end.

(** The replies to [SMEMBERS]: the order of the members is not specified. *)
Definition members_reply (o : option aval) (r : redisReply) : Prop :=
  match o with
  | Some (ASet X) => ∃ l, r = RArray l ∧ l ≡ₚ elements X
  | Some (AStr _) => r = RError wrongtypeerr
  | None => r = RArray []
  end.

(** The pattern the clients pass to [KEYS], and the keys it selects. *)
Definition nodes_pattern : string := "node_*_neighbours".
Definition is_nodes_key (k : string) : Prop :=
  ∃ x, k = "node_" +:+ x +:+ "_neighbours".

Definition keys_reply (m : gmap string aval) (r : redisReply) : Prop :=
  ∃ l, r = RArray l ∧ NoDup l ∧ ∀ k, k ∈ l ↔ k ∈ dom m ∧ is_nodes_key k.

(** The arguments [WAIT] accepts for certain: two integers, the second a
    timeout that is not negative and leaves room for the clock. *)
Definition wait_ok (n t : string) : Prop :=
  (∃ a, n = pretty a ∧ - 2 ^ 63 ≤ a < 2 ^ 63) ∧ (∃ b, t = pretty b ∧ 0 ≤ b ≤ 2 ^ 62).

(** One request: the map before, the arguments, the map after, the reply;
    [ack] replicas have the writes of the connection. *)
Inductive answers (ack : Z) (m : gmap string aval) :
    list string → gmap string aval → redisReply → Prop :=
| ans_set k v : answers ack m ["SET"; k; v] (<[k := AStr v]> m) (RStatus "OK")
| ans_get k : answers ack m ["GET"; k] m (get_reply (m !! k))
| ans_smembers k r : members_reply (m !! k) r → answers ack m ["SMEMBERS"; k] m r
| ans_keys r : keys_reply m r → answers ack m ["KEYS"; nodes_pattern] m r
| ans_wait n t : answers ack m ["WAIT"; n; t] m (RInteger ack)
| ans_wait_refused n t e : ¬ wait_ok n t → answers ack m ["WAIT"; n; t] m (RError e).

Lemma answers_smembers ack m k m' r :
  answers ack m ["SMEMBERS"; k] m' r → m' = m ∧ members_reply (m !! k) r.
Proof. inversion 1; subst; eauto. Qed.

Lemma answers_keys ack m m' r :
  answers ack m ["KEYS"; nodes_pattern] m' r → m' = m ∧ keys_reply m r.
Proof. inversion 1; subst; eauto. Qed.

Lemma answers_wait ack m n t m' r :
  answers ack m ["WAIT"; n; t] m' r →
  m' = m ∧ (r = RInteger ack ∨ ¬ wait_ok n t ∧ ∃ e, r = RError e).
Proof. inversion 1; subst; eauto. Qed.

(** The requests the contract speaks about. *)
Inductive supported : list string → Prop :=
| sup_set k v : supported ["SET"; k; v]
| sup_get k : supported ["GET"; k]
| sup_smembers k : supported ["SMEMBERS"; k]
| sup_keys : supported ["KEYS"; nodes_pattern]
| sup_wait n t : supported ["WAIT"; n; t].

#[export] Hint Constructors supported : colour.

Class KVServer (St : Type) `{!Server St} : Type := {
  kv : St → gmap string aval;
  good : St → Prop;
  serve_answers ack st argv st' r :
    good st → supported argv → serve ack st argv = (st', r) →
    good st' ∧ answers ack (kv st) argv (kv st') r;
}.

(** ** The reference server: the map and nothing else *)

(** [is_nodes_key] as a test: the prefix, then the suffix of the rest. *)
Fixpoint is_suffix (p s : string) : bool :=
  bool_decide (p = s) ||
  match s with
  | EmptyString => false
  | String _ s' => is_suffix p s'
  end.

Definition nodes_key_b (k : string) : bool :=
  is_prefix "node_" k && is_suffix "_neighbours" (String.substring 5 (String.length k - 5) k).

Definition ref_serve (ack : Z) (m : gmap string aval) (argv : list string) :
    gmap string aval * redisReply :=
  match argv with
  | ["SET"; k; v] => (<[k := AStr v]> m, RStatus "OK")
  | ["GET"; k] => (m, get_reply (m !! k))
  | ["SMEMBERS"; k] =>
      (m, match m !! k with
          | Some (ASet X) => RArray (elements X)
          | Some (AStr _) => RError wrongtypeerr
          | None => RArray []
          end)
  | ["KEYS"; _] => (m, RArray (filter (λ k, nodes_key_b k = true) (elements (dom m))))
  | ["WAIT"; _; _] => (m, RInteger ack)
  | _ => (m, RError "ERR unknown command")
  end.

#[export] Instance ref_server : Server (gmap string aval) := ref_serve.

Lemma is_suffix_app x p : is_suffix p (x +:+ p) = true.
Proof.
  induction x as [|c x IH]; simpl.
  - destruct p; simpl; [done|]. by rewrite bool_decide_eq_true_2.
  - rewrite IH. apply orb_true_r.
Qed.

Lemma is_suffix_true p s : is_suffix p s = true → ∃ x, s = x +:+ p.
Proof.
  induction s as [|c s IH]; simpl; intros [H|H]%orb_true_iff; reflect_bools; subst;
    try done; try (by exists "").
  destruct (IH H) as [x ->]. by exists (String c x).
Qed.

Lemma substring_all s : String.substring 0 (String.length s) s = s.
Proof. induction s as [|c s IH]; simpl; [done|]. by rewrite IH. Qed.

Lemma nodes_key_spec k : nodes_key_b k = true ↔ is_nodes_key k.
Proof.
  unfold nodes_key_b, is_nodes_key. split.
  - intros [[r ->]%is_prefix_true Hs]%andb_true_iff. simpl in Hs.
    rewrite Nat.sub_0_r, substring_all in Hs.
    apply is_suffix_true in Hs as [x ->]. by exists x.
  - intros [x ->]. rewrite is_prefix_app. simpl.
    rewrite Nat.sub_0_r, substring_all. apply is_suffix_app.
Qed.

#[export] Instance ref_kv_server : KVServer (gmap string aval).
Proof.
  refine {| kv := id; good := λ _, True |}.
  intros ack m argv m' r _ Hs Heq. split; [done|].
  unfold serve, ref_server in Heq.
  destruct Hs; simpl in Heq; injection Heq as <- <-; simpl; try constructor.
  - destruct (m !! k) as [[]|] eqn:E; simpl; eauto.
  - eexists. split; [done|]. split.
    + apply NoDup_filter, NoDup_elements.
    + intros k. rewrite list_elem_of_filter, elem_of_elements, nodes_key_spec. tauto.
Defined.
