(* ===== verification/Writer.v ===== *)
(** * The test writer

    src/color/redis_writer.c: writes one key, reads it back and prints both
    replies.  The reply of the read is used without a test for NULL. *)

From S2P Require Import Prelude CLib Hiredis Program ServerSpec.

Open Scope prog_scope.

(** The lines printed are [printf] of the replies. *)
Definition main (argv : list string) : prog Z :=
  if (length argv <? 4)%nat then Ret 1
  else
    redis_host <~ deref (argv !! 1%nat);;
    key <~ deref (argv !! 2%nat);;
    value <~ deref (argv !! 3%nat);;
    Connect CMain (λ context,
      match context with
      | ConnErr | ConnNull => Ret 1
      | Connected =>
          reply <~ redisCommand "SET %s %s" [key; value];;
          match reply with
          | None => Ret 1
          | Some _ =>
              reply <~ redisCommand "GET %s" [key];;
              deref reply;;;
              Ret 0
          end
      end).

Section writer.
Context {St : Type} `{!Server St, !KVServer St}.

(** On a working connection the key holds the value and the writer returns
    0. *)
Lemma writer_writes name host key value rest ack clk (st : St) : good st →
  ∃ st', run 4 ack clk st (main (name :: host :: key :: value :: rest)) = Some (st', Returned 0) ∧
    good st' ∧ kv st' = <[key := AStr value]> (kv st).
Proof.
  intros Hg. unfold main. cbn -[redisCommand argv_of].
  unfold redisCommand. rewrite argv_of_SET, argv_of_GET. cbn -[argv_of].
  destruct (serve ack st _) as [st1 r1] eqn:H1.
  apply serve_answers in H1 as [Hg1 Ha1]; [|done|by constructor]. cbn.
  destruct (serve ack st1 _) as [st2 r2] eqn:H2.
  apply serve_answers in H2 as [Hg2 Ha2]; [|done|by constructor]. cbn.
  inversion Ha1; subst. inversion Ha2; subst. exists st2. split; [done|]. split; [done|congruence].
Qed.

(** A connection that fails between the two commands crashes the writer. *)
Lemma writer_crashes name host key value rest ack (st st1 : St) r :
  serve ack st ["SET"; key; value] = (st1, r) →
  rtc cstep (st, (main (name :: host :: key :: value :: rest), true)) (st1, (Halt Segv, false)).
Proof.
  intros H1. unfold main. cbn -[redisCommand argv_of].
  eapply rtc_l; [apply (step_connect _ _ _ Connected)|].
  unfold redisCommand. rewrite argv_of_SET, argv_of_GET. cbn -[argv_of].
  eapply rtc_l; [by eapply step_served|]. cbn.
  eapply rtc_l; [apply step_request_lost|]. done.
Qed.
End writer.
