(* ===== verification/Simulation.v ===== *)
(** * Client programs as refinements of the protocol

    [store_rel] says which keys represent which part of the state of the
    protocol; [wp] is a logic for client programs in which every command is
    matched by steps of the protocol; [wp_sound] shows that clients verified
    in this logic, interleaved in any way and with any of their connections
    failing, only reach states of the protocol; [client_settles] shows that one
    of them that runs alone returns or gets blocked. *)

From S2P Require Import Prelude CLib Hiredis Program Client1 Protocol Keys ServerSpec.

Open Scope prog_scope.

(** ** Graphs *)

(** Adjacency lists in increasing order, symmetric, without loops. *)
Record graph_shape (adj : Z → list Z) : Prop := {
  g_sym u v : v ∈ adj u → u ∈ adj v;
  g_irrefl u : u ∉ adj u;
  g_sorted u : StronglySorted Z.lt (adj u);
}.

(** Nodes are [0 .. N-1]; ids and colours fit the buffers of the clients. *)
Record graph_ok (N : Z) (adj : Z → list Z) : Prop := {
  g_shape : graph_shape adj;
  g_small : 0 ≤ N < 10 ^ 9;
  g_range u v : v ∈ adj u → 0 ≤ v < N;
}.

Lemma g_nodup adj u : graph_shape adj → NoDup (adj u).
Proof.
  intros G. pose proof (g_sorted adj G u) as H.
  induction H as [|x l Hs IH Hx]; constructor; [|done].
  intros Hin. rewrite Forall_forall in Hx. specialize (Hx x Hin). lia.
Qed.

#[export] Hint Resolve g_shape g_nodup g_sorted : colour.

(** ** The store *)

Definition is_one (o : option aval) : bool :=
  bool_decide (reply_str (get_reply o) = Some "1").

Definition degree (adj : Z → list Z) (u : Z) : Z := Z.of_nat (length (adj u)).

(** The colour of a node, once written, and what a reader gets before: -1
    when the key is missing, 0 when the graph was loaded with it. *)
Definition color_ok (written : bool) (c d : Z) : Prop :=
  if written then 0 ≤ c ≤ d else c = -1 ∨ c = 0.

Definition color_val (c : Z) : option aval := if c =? -1 then None else Some (AStr (pretty c)).

Lemma color_val_written c : 0 ≤ c → color_val c = Some (AStr (pretty c)).
Proof. unfold color_val. case_match; reflect_bools; [lia|done]. Qed.

Record store_rel (N : Z) (adj : Z → list Z) (s : astate) (m : gmap string aval) : Prop := {
  sr_flag u v : flag s (u, v) = is_one (m !! flag_key u v);
  sr_turn u v : m !! turn_key u v = (λ w : Z, AStr (pretty w)) <$> turn s (edge u v);
  sr_color u : m !! color_key u = color_val (colr s u);
  sr_bound u : color_ok (fin s u) (colr s u) (degree adj u);
  sr_stat u : m !! status_key u = (if stat s u then Some (AStr "1") else None);
  sr_nbrs u : 0 ≤ u < N →
    m !! neighbours_key u = Some (ASet (list_to_set (pretty <$> adj u)));
  sr_keys k : is_nodes_key k → is_Some (m !! k) → ∃ u, 0 ≤ u < N ∧ k = neighbours_key u;
}.

(** *** Updates *)

Lemma flag_not_nodes u v : ¬ is_nodes_key (flag_key u v).
Proof. by intros [x Hx]. Qed.
Lemma turn_not_nodes u v : ¬ is_nodes_key (turn_key u v).
Proof. by intros [x Hx]. Qed.
Lemma color_not_nodes u : ¬ is_nodes_key (color_key u).
Proof.
  intros [x Hx]. unfold color_key in Hx. apply string_app_inj_r in Hx.
  rewrite (string_app_assoc x "_neig" "hbours" : x +:+ "_neighbours" = _) in Hx.
  by apply string_app_inj_l in Hx as [_ ?].
Qed.
Lemma status_not_nodes u : ¬ is_nodes_key (status_key u).
Proof.
  intros [x Hx]. unfold status_key in Hx. apply string_app_inj_r in Hx.
  rewrite (string_app_assoc x "_nei" "ghbours" : x +:+ "_neighbours" = _) in Hx.
  by apply string_app_inj_l in Hx as [_ ?].
Qed.

(** A key that no part of the protocol reads. *)
Record unused_key (k : string) : Prop := {
  unused_flag u v : flag_key u v ≠ k;
  unused_turn u v : turn_key u v ≠ k;
  unused_color u : color_key u ≠ k;
  unused_status u : status_key u ≠ k;
  unused_nodes : ¬ is_nodes_key k;
}.

Section updates.
Context {N : Z} {adj : Z → list Z}.

(** The progress of the locks and of the clients is not in the store. *)
Lemma store_same s s' m :
  (∀ p, flag s' p = flag s p) → (∀ p, turn s' p = turn s p) → (∀ u, colr s' u = colr s u) →
  (∀ u, stat s' u = stat s u) → (∀ u, fin s' u = fin s u) →
  store_rel N adj s m → store_rel N adj s' m.
Proof. intros Hf Ht Hc Hs Hn []. split; intros; rewrite ?Hf, ?Ht, ?Hc, ?Hs, ?Hn; auto. Qed.

Lemma neighbours_nodes_key u : is_nodes_key (neighbours_key u).
Proof. by exists (pretty u). Qed.

(** A write outside the neighbour sets keeps them. *)
Lemma nodes_frame s m k v :
  store_rel N adj s m → ¬ is_nodes_key k →
  (∀ u, 0 ≤ u < N →
     <[k := v]> m !! neighbours_key u = Some (ASet (list_to_set (pretty <$> adj u)))) ∧
  (∀ k', is_nodes_key k' → is_Some (<[k := v]> m !! k') →
     ∃ u, 0 ≤ u < N ∧ k' = neighbours_key u).
Proof.
  intros Hs Hk. split.
  - intros u Hu. rewrite lookup_insert_ne; [by apply (sr_nbrs _ _ _ _ Hs)|].
    intros ->. apply Hk, neighbours_nodes_key.
  - intros k' Hk'. rewrite lookup_insert_ne by (by intros ->).
    by apply (sr_keys _ _ _ _ Hs).
Qed.

Lemma store_unused s m k v :
  store_rel N adj s m → unused_key k → store_rel N adj s (<[k := v]> m).
Proof.
  intros Hs []. destruct (nodes_frame s m k v Hs) as [Hn Hk]; [done|].
  destruct Hs. split; intros; rewrite ?lookup_insert_ne by done; auto.
Qed.

Lemma store_set_flag s m u v b :
  store_rel N adj s m →
  store_rel N adj (set_flag u v b s)
    (<[flag_key u v := AStr (if b : bool then "1" else "0")]> m).
Proof.
  intros Hs. destruct (nodes_frame s m (flag_key u v)
    (AStr (if b then "1" else "0")) Hs (flag_not_nodes u v)) as [Hn Hk].
  destruct Hs. split; intros; simpl; rewrite ?lookup_insert_ne by distinct_keys; auto.
  destruct (decide ((u, v) = (u0, v0))) as [[= -> ->]|Hne].
  - rewrite fn_lookup_insert, lookup_insert_eq. by destruct b.
  - rewrite fn_lookup_insert_ne, lookup_insert_ne; auto.
    intros [-> ->]%flag_key_inj. done.
Qed.

Lemma store_set_turn s m u v (w : Z) :
  store_rel N adj s m →
  store_rel N adj (set_turn u v w s) (<[turn_key u v := AStr (pretty w)]> m).
Proof.
  intros Hs. destruct (nodes_frame s m (turn_key u v)
    (AStr (pretty w)) Hs (turn_not_nodes u v)) as [Hn Hk].
  destruct Hs. split; intros; simpl; rewrite ?lookup_insert_ne by distinct_keys; auto.
  destruct (decide (edge u v = edge u0 v0)) as [He|Hne].
  - rewrite <- He, fn_lookup_insert. simpl.
    replace (turn_key u0 v0) with (turn_key u v); [by rewrite lookup_insert_eq|].
    apply edge_inj in He as [[-> ->]|[-> ->]]; [done|]. apply turn_key_comm.
  - rewrite fn_lookup_insert_ne, lookup_insert_ne; auto.
    intros [Hmin Hmax]%turn_key_inj. apply Hne. unfold edge. by rewrite Hmin, Hmax.
Qed.

Lemma store_set_color s m u c :
  store_rel N adj s m → 0 ≤ c ≤ degree adj u →
  store_rel N adj (set_colr u c s) (<[color_key u := AStr (pretty c)]> m).
Proof.
  intros Hs Hc. destruct (nodes_frame s m (color_key u)
    (AStr (pretty c)) Hs (color_not_nodes u)) as [Hn Hk].
  destruct Hs. split; intros; simpl; rewrite ?lookup_insert_ne by distinct_keys; auto;
    (destruct (decide (u = u0)) as [->|Hne];
      [rewrite !fn_lookup_insert; rewrite ?lookup_insert_eq, ?color_val_written by lia; done|]);
    rewrite !fn_lookup_insert_ne by done; rewrite ?lookup_insert_ne by (by intros ?%(inj color_key));
    auto.
Qed.

Lemma store_set_stat s m u :
  store_rel N adj s m →
  store_rel N adj (set_stat u s) (<[status_key u := AStr "1"]> m).
Proof.
  intros Hs. destruct (nodes_frame s m (status_key u)
    (AStr "1") Hs (status_not_nodes u)) as [Hn Hk].
  destruct Hs. split; intros; simpl; rewrite ?lookup_insert_ne by distinct_keys; auto.
  destruct (decide (u = u0)) as [->|Hne].
  - by rewrite fn_lookup_insert, lookup_insert_eq.
  - rewrite fn_lookup_insert_ne, lookup_insert_ne; auto. by intros ?%(inj status_key).
Qed.

(** Writing to a flag the value it has changes nothing. *)
Lemma store_flag_same s m u v b :
  store_rel N adj s m → flag s (u, v) = b →
  store_rel N adj s (<[flag_key u v := AStr (if b : bool then "1" else "0")]> m).
Proof.
  intros Hs Hf. apply (store_same (set_flag u v b s)); [|done..|by apply store_set_flag].
  intros p. simpl. destruct (decide ((u, v) = p)) as [<-|Hne].
  - by rewrite fn_lookup_insert.
  - by rewrite fn_lookup_insert_ne.
Qed.

Lemma store_flag_down s m u v :
  store_rel N adj s m → flag s (u, v) = false →
  store_rel N adj s (<[flag_key u v := AStr "0"]> m).
Proof. apply store_flag_same. Qed.

Lemma store_flag_up s m u v :
  store_rel N adj s m → flag s (u, v) = true →
  store_rel N adj s (<[flag_key u v := AStr "1"]> m).
Proof. apply store_flag_same. Qed.
End updates.

(** ** The logic *)

Section wp.
Context (N : Z) (adj : Z → list Z) (first last : nat → Z).

Definition related (s : astate) (m : gmap string aval) : Prop :=
  Inv adj first last s ∧ store_rel N adj s m.

(** Whether a program must end ([total]: it must not die, and its loops end
    when nothing blocks it), and the numbers of acknowledging replicas with
    which it must. *)
Record environment : Type := {
  total : Prop;
  enough : Z → Prop;
}.

(** A program without loops that runs alone from the store [m], with [ack]
    replicas, returns a result in [R]. *)
Fixpoint alone (ack : Z) {A : Type} (p : prog A) (m : gmap string aval) (R : A → Prop) : Prop :=
  match p with
  | Ret a => R a
  | Send CMain argv k => ∀ m' r, answers ack m argv m' r → alone ack (k (Some r)) m' R
  | Send CMonitor _ k => ∀ r, alone ack (k r) m R
  | Connect _ k => alone ack (k Connected) m R
  | Clock k => ∀ o, alone ack (k o) m R
  | Loop _ _ _ _ _ | Halt _ => False
  end.

Context (E : environment).

(** The last round of a loop: run alone by a client that is not blocked. *)
Definition exits (i : nat) {T : Set} (cond : T → bool) (p : prog T) (q : apc) : Prop :=
  ∀ ack s m, enough E ack → related s m → pcs s i = q → ¬ blocked s q →
    alone ack p m (λ t, cond t = false).

(** [wp i p q Q]: run by client [i] from the protocol state [q], the program
    [p] follows the protocol, and ends with a result and a state in [Q]. *)
Fixpoint wp (i : nat) {A : Type} (p : prog A) (q : apc) (Q : A → apc → Prop) : Prop :=
  match p with
  | Ret a => Q a q
  | Send CMain argv k =>
      supported argv ∧
      ∀ ack s m m' r, related s m → pcs s i = q → answers ack m argv m' r →
        ∃ s', rtc (astep adj first last i) s s' ∧ store_rel N adj s' m' ∧
              wp i (k (Some r)) (pcs s' i) Q
  | Send CMonitor _ k => ∀ r, wp i (k r) q Q
  | Connect _ k => ∀ o, (total E → o = Connected) → wp i (k o) q Q
  | Clock k => ∀ o, wp i (k o) q Q
  | Loop T cond body s k =>
      ∃ I : T → apc → Prop, I s q ∧
        ∀ s q, I s q →
          if cond s
          then wp i (body s) q I ∧ (total E → exits i cond (body s) q)
          else wp i (k s) q Q
  | Halt _ => ¬ total E
  end.

Lemma wp_mono i {A} (p : prog A) q (Q Q' : A → apc → Prop) :
  wp i p q Q → (∀ a q, Q a q → Q' a q) → wp i p q Q'.
Proof.
  intros Hp HQ. revert q Q Q' HQ Hp.
  induction p as [A a|A [] argv k IH|A c k IH|A k IH|A T cond body IHb s k IH|A f];
    intros q Q Q' HQ; simpl; eauto.
  - intros [Hs Hp]. split; [done|]. intros ack s m m' r Hr Hq Ha.
    destruct (Hp ack s m m' r Hr Hq Ha) as (s' & Hs' & Hst & Hk). eauto.
  - intros (I & HI & Hb). exists I. split; [done|]. intros s' q' Hs'.
    specialize (Hb s' q' Hs'). destruct (cond s'); eauto.
Qed.

Lemma wp_bind i {A B} (p : prog A) (f : A → prog B) q Q :
  wp i p q (λ a q, wp i (f a) q Q) → wp i (pbind p f) q Q.
Proof.
  revert f q. induction p as [A a|A [] argv k IH|A c k IH|A k IH|A T cond body IHb s k IH|A h];
    intros f q; simpl; eauto.
  - intros [Hs Hp]. split; [done|]. intros ack s m m' r Hr Hq Ha.
    destruct (Hp ack s m m' r Hr Hq Ha) as (s' & Hs' & Hst & Hk). eauto.
  - intros (I & HI & Hb). exists I. split; [done|]. intros s' q' Hs'.
    specialize (Hb s' q' Hs'). destruct (cond s'); eauto.
Qed.

(** [for_each] with an invariant on what is left. *)
Lemma wp_for_each i {A B} (body : A → B → prog B) (I : list A → B → apc → Prop) l acc q :
  I l acc q →
  (∀ x l acc q, I (x :: l) acc q → wp i (body x acc) q (I l)) →
  wp i (for_each l acc body) q (I []).
Proof.
  intros HI Hb. revert acc q HI. induction l as [|x l IH]; intros acc q HI; simpl; [done|].
  apply wp_bind. eapply wp_mono; [by apply Hb|]. simpl. auto.
Qed.

Lemma wp_while i {T : Set} (cond : T → bool) body s q (I Q : T → apc → Prop) :
  I s q →
  (∀ s q, I s q → cond s = true → wp i (body s) q I) →
  (total E → ∀ s q, I s q → cond s = true → exits i cond (body s) q) →
  (∀ s q, I s q → cond s = false → Q s q) →
  wp i (while_ cond body s) q Q.
Proof.
  intros HI Hb He Hk. exists I. split; [done|]. intros s' q' Hs'.
  destruct (cond s') eqn:Hc; simpl; auto.
Qed.

(** A command that leaves the store alone, and is no step of the protocol. *)
Lemma wp_query i {A} argv (k : option redisReply → prog A) q Q :
  supported argv →
  (∀ ack m m' r, answers ack m argv m' r → m' = m) →
  (∀ ack s m r, related s m → pcs s i = q → answers ack m argv m r →
     wp i (k (Some r)) q Q) →
  wp i (Send CMain argv k) q Q.
Proof.
  intros Hs Hm Hk. split; [done|]. intros ack s m m' r Hr Hq Ha.
  pose proof (Hm ack m m' r Ha) as ->. exists s. split; [done|]. split; [apply Hr|].
  rewrite Hq. eauto.
Qed.

(** [GET] that is also a step of the protocol. *)
Lemma wp_get_step i {A} key (k : option redisReply → prog A) q Q :
  (∀ s m, related s m → pcs s i = q →
     ∃ s', rtc (astep adj first last i) s s' ∧ store_rel N adj s' m ∧
           wp i (k (Some (get_reply (m !! key)))) (pcs s' i) Q) →
  wp i (Send CMain ["GET"; key] k) q Q.
Proof.
  intros Hk. split; [constructor|]. intros ack s m m' r Hr Hq Ha.
  inversion Ha; subst. eauto.
Qed.

Lemma wp_get i {A} key (k : option redisReply → prog A) q Q :
  (∀ s m, related s m → pcs s i = q →
     wp i (k (Some (get_reply (m !! key)))) q Q) →
  wp i (Send CMain ["GET"; key] k) q Q.
Proof.
  intros Hk. apply wp_get_step. intros s m Hr Hq. exists s. split; [done|].
  split; [apply Hr|]. rewrite Hq. eauto.
Qed.

Lemma wp_set i {A} key v (k : option redisReply → prog A) q Q :
  (∀ s m, related s m → pcs s i = q →
     ∃ s', rtc (astep adj first last i) s s' ∧ store_rel N adj s' (<[key := AStr v]> m) ∧
           wp i (k (Some (RStatus "OK"))) (pcs s' i) Q) →
  wp i (Send CMain ["SET"; key; v] k) q Q.
Proof.
  intros Hk. split; [constructor|]. intros ack s m m' r Hr Hq Ha.
  inversion Ha; subst. eauto.
Qed.

Lemma wp_deref i {A} (o : option A) q (Q : A → apc → Prop) :
  (total E → is_Some o) → (∀ a, o = Some a → Q a q) → wp i (deref o) q Q.
Proof. intros Ht HQ. destruct o; simpl; [auto|]. intros H. by destruct (Ht H). Qed.
End wp.

(** A program that need not end. *)
Definition any_env : environment := {| total := False; enough := λ _, False |}.

Section sound.
Context (N : Z) (adj : Z → list Z) (first last : nat → Z).

Local Abbreviation related := (related N adj first last).
Local Abbreviation wp := (wp N adj first last).

(** ** Soundness *)

Hypothesis G : graph_shape adj.
Hypothesis owns_disjoint : ∀ i j u, owns first last i u → owns first last j u → i = j.

Lemma inv_steps i s s' :
  Inv adj first last s → rtc (astep adj first last i) s s' → Inv adj first last s'.
Proof.
  intros HI. induction 1; [done|]. apply IHrtc. eapply inv_step; eauto with colour.
  - apply (g_sym adj G).
  - apply (g_irrefl adj G).
Qed.

Lemma astep_others i j s s' : astep adj first last i s s' → j ≠ i → pcs s' j = pcs s j.
Proof. intros [] Hj; simpl; try done; by rewrite fn_lookup_insert_ne by done. Qed.

Lemma asteps_others i j s s' :
  rtc (astep adj first last i) s s' → j ≠ i → pcs s' j = pcs s j.
Proof. induction 1; intros; [done|]. rewrite IHrtc by done. by eapply astep_others. Qed.

Context {St : Type} `{!Server St, !KVServer St}.

(** Clients whose connection works are verified against where they are in the
    protocol; a client that lost its connection cannot touch the store. *)
Definition simulates (Q : nat → Z → apc → Prop) (s : astate) (c : @system St) : Prop :=
  good c.1 ∧ related s (kv c.1) ∧
  ∀ i p, c.2 !! i = Some (p, true) → wp any_env i p (pcs s i) (Q i).

(** One request that reaches the server. *)
Lemma served Q s st st' cs i argv k r ack b :
  simulates Q s (st, cs) → cs !! i = Some (Send CMain argv k, true) →
  serve ack st argv = (st', r) →
  ∃ s', rtc (any_step adj first last) s s' ∧
        simulates Q s' (st', <[i := (k (if b : bool then Some r else None), b)]> cs).
Proof.
  intros (Hg & Hr & Hc) Hi Hserve. simpl in *. destruct (Hc i _ Hi) as [Hsup Hk].
  destruct (serve_answers ack st argv st' r Hg Hsup Hserve) as [Hg' Ha].
  destruct (Hk ack s (kv st) (kv st') r Hr eq_refl Ha) as (s' & Hs' & Hst & Hp).
  exists s'. split.
  { clear -Hs'. induction Hs'; [done|]. eapply rtc_l; [|done]. by exists i. }
  split; [done|]. split; [split; [by eapply inv_steps; [apply Hr|]|done]|].
  intros j p Hj. simpl in Hj. apply list_lookup_insert_Some in Hj as [(-> & Hp' & _)|[Hij Hj]].
  - destruct b; by simplify_eq.
  - rewrite (asteps_others i j s s') by done. auto.
Qed.

Lemma simulates_local Q s st cs i c c' :
  simulates Q s (st, cs) → cs !! i = Some c →
  (c'.2 = true → c.2 = true ∧
     (wp any_env i c.1 (pcs s i) (Q i) → wp any_env i c'.1 (pcs s i) (Q i))) →
  simulates Q s (st, <[i := c']> cs).
Proof.
  intros (Hg & Hr & Hc) Hi Hstep. split; [done|]. split; [done|]. intros j p Hj. simpl in *.
  apply list_lookup_insert_Some in Hj as [(-> & -> & _)|[Hij Hj]]; [|auto].
  destruct c as [p0 b]. destruct Hstep as [Hb Hwp]; [done|]. simpl in *. subst. auto.
Qed.

Lemma simulates_step Q s c c' :
  simulates Q s c → system_step c c' →
  ∃ s', rtc (any_step adj first last) s s' ∧ simulates Q s' c'.
Proof.
  intros Hs Hstep. destruct Hstep as [st st' cs i [p b] c' Hi Hc].
  inversion Hc; subst; try (by eapply (served _ _ _ _ _ _ _ _ _ _ true));
    try (by eapply (served _ _ _ _ _ _ _ _ _ _ false));
    exists s; (split; [done|]); (eapply simulates_local; [done..|]); simpl; intros; try done;
    (split; [done|]); try solve [auto | intros Hk; apply Hk; intros []].
  intros (I & HI & Hb). unfold unfold_loop. pose proof (Hb s0 _ HI) as Hs0.
  destruct (cond s0); [|done]. apply wp_bind. eapply wp_mono; [apply Hs0|].
  intros s1 q Hs1. by exists I.
Qed.

(** Every reachable configuration is matched by a state of the protocol that
    the protocol reaches. *)
Lemma wp_sound Q s st ps c :
  good st → related s (kv st) →
  (∀ i p, ps !! i = Some p → wp any_env i p (pcs s i) (Q i)) →
  reachable st ps c →
  ∃ s', rtc (any_step adj first last) s s' ∧ simulates Q s' c.
Proof.
  intros Hg Hr Hwp Hc.
  assert (simulates Q s (st, (λ p, (p, true)) <$> ps)) as Hs.
  { split; [done|]. split; [done|]. intros i p Hi. simpl in Hi.
    apply list_lookup_fmap_Some in Hi as (p' & [= <-] & Hp). auto. }
  clear Hwp Hg Hr. revert s Hs. unfold reachable in Hc.
  induction Hc as [c|c c1 c2 H1 H2 IH]; intros s Hs; [by exists s|].
  destruct (simulates_step Q s c c1 Hs H1) as (s1 & Hs1 & Hsim).
  destruct (IH s1 Hsim) as (s2 & Hs2 & Hsim2). exists s2. split; [|done]. by etrans.
Qed.


(** ** Running until blocked

    A client that runs alone, on a working connection, either returns or gets
    to a state in which it is blocked. *)

(** A program that still follows the protocol, with [a] its result. *)
Definition follows E i {A} (p : prog A) (Q : A → apc → Prop) (s : astate) (st : St) : Prop :=
  good st ∧ related s (kv st) ∧ wp E i p (pcs s i) Q.

Context (ack : Z) (clk : option string).

Lemma follows_served E i {A} argv (k : option redisReply → prog A) Q s st st' r :
  follows E i (Send CMain argv k) Q s st → serve ack st argv = (st', r) →
  ∃ s', rtc (astep adj first last i) s s' ∧ follows E i (k (Some r)) Q s' st' ∧
    answers ack (kv st) argv (kv st') r.
Proof using G owns_disjoint.
  intros (Hg & Hr & Hsup & Hk) Hserve.
  destruct (serve_answers ack st argv st' r Hg Hsup Hserve) as [Hg' Ha].
  destruct (Hk ack s (kv st) (kv st') r Hr eq_refl Ha) as (s' & Hs' & Hst & Hp).
  exists s'. split; [done|]. split; [|done]. split; [done|].
  split; [split; [by eapply inv_steps; [apply Hr|]|done]|done].
Qed.

(** The last round of a loop. *)
Lemma alone_run E i {A B} (p : prog A) (f : A → prog B) Q R s st :
  total E → follows E i p Q s st → alone ack p (kv st) R →
  ∃ n st' a s', solo n ack clk st (pbind p f) = (st', f a) ∧
    rtc (astep adj first last i) s s' ∧ good st' ∧ related s' (kv st') ∧ Q a (pcs s' i) ∧ R a.
Proof using G owns_disjoint.
  intros Ht. revert f Q R s st.
  induction p as [A a|A [] argv k IH|A c k IH|A k IH|A T cond body IHb t k IH|A h];
    intros f Q R s st Hf Ha; simpl in Ha; try done.
  - destruct Hf as (Hg & Hr & HQ). by exists 0%nat, st, a, s.
  - destruct (serve ack st argv) as [st' r] eqn:Hserve.
    destruct (follows_served E i argv k Q s st st' r Hf Hserve) as (s1 & Hs1 & Hf1 & Hans).
    destruct (IH _ f Q R s1 st' Hf1 (Ha _ _ Hans)) as (n & st2 & a & s2 & Hn & Hs2 & H).
    exists (S n), st2, a, s2. simpl. rewrite Hserve. split; [done|]. split; [by etrans|done].
  - destruct Hf as (Hg & Hr & Hk).
    destruct (IH (Some (RStatus "OK")) f Q R s st (conj Hg (conj Hr (Hk _))) (Ha _)) as (n & H).
    by exists (S n).
  - destruct Hf as (Hg & Hr & Hk).
    destruct (IH Connected f Q R s st (conj Hg (conj Hr (Hk _ (λ _, eq_refl)))) Ha) as (n & H).
    by exists (S n).
  - destruct Hf as (Hg & Hr & Hk).
    destruct (IH clk f Q R s st (conj Hg (conj Hr (Hk _))) (Ha _)) as (n & H). by exists (S n).
Qed.

(** What running client [i] alone comes to. *)
Definition settles E i {A} (p : prog A) (Q : A → apc → Prop) (s : astate) (st : St) : Prop :=
  ∃ n st' p' s', solo n ack clk st p = (st', p') ∧ rtc (astep adj first last i) s s' ∧
    follows E i p' Q s' st' ∧ (blocked s' (pcs s' i) ∨ ∃ a, p' = Ret a).

Lemma settles_later E i {A} n (p p1 : prog A) Q s s1 st st1 :
  solo n ack clk st p = (st1, p1) → rtc (astep adj first last i) s s1 →
  settles E i p1 Q s1 st1 → settles E i p Q s st.
Proof.
  intros Hn Hs (m & st' & p' & s' & Hm & Hs' & H). exists (n + m)%nat, st', p', s'.
  rewrite (solo_add _ _ n m _ _ _ _ Hn). split; [done|]. split; [by etrans|done].
Qed.

Lemma client_settles E i {A} (p : prog A) Q s st :
  total E → enough E ack → follows E i p Q s st → settles E i p Q s st.
Proof using G owns_disjoint.
  intros Ht Hack. revert Q s st.
  induction p as [A a|A [] argv k IH|A c k IH|A k IH|A T cond body IHb t k IH|A f];
    intros Q s st Hf.
  - exists 0%nat, st, (Ret a), s. split_and!; [done|done|done|]. right. by exists a.
  - destruct (serve ack st argv) as [st' r] eqn:Hserve.
    destruct (follows_served E i argv k Q s st st' r Hf Hserve) as (s1 & Hs1 & Hf1 & _).
    apply (settles_later E i 1 _ (k (Some r)) Q s s1 st st'); [|done|by apply IH].
    simpl. by rewrite Hserve.
  - apply (settles_later E i 1 _ (k (Some (RStatus "OK"))) Q s s st st); [done|done|].
    apply IH. destruct Hf as (Hg & Hr & Hk). by split_and!.
  - apply (settles_later E i 1 _ (k Connected) Q s s st st); [done|done|].
    apply IH. destruct Hf as (Hg & Hr & Hk). split_and!; [done|done|]. by apply Hk.
  - apply (settles_later E i 1 _ (k clk) Q s s st st); [done|done|].
    apply IH. destruct Hf as (Hg & Hr & Hk). by split_and!.
  - destruct (decide (blocked s (pcs s i))) as [Hb|Hb].
    { exists 0%nat, st, (Loop T cond body t k), s. split_and!; [done|done|done|by left]. }
    destruct Hf as (Hg & Hr & I & HI & Hloop). pose proof (Hloop t _ HI) as Ht0.
    destruct (cond t) eqn:Hc.
    + destruct Ht0 as [Hbody Hexit].
      destruct (alone_run E i (body t) (λ t, Loop T cond body t k) I (λ t, cond t = false) s st Ht)
        as (n & st1 & t1 & s1 & Hn & Hs1 & Hg1 & Hr1 & HI1 & Hc1).
      { by split_and!. }
      { by apply (Hexit Ht ack s). }
      pose proof (Hloop t1 _ HI1) as Hk. rewrite Hc1 in Hk.
      apply (settles_later E i (S n) _ (Loop T cond body t1 k) Q s s1 st st1); [|done|].
      { simpl. unfold unfold_loop. by rewrite Hc. }
      apply (settles_later E i 1 _ (k t1) Q s1 s1 st1 st1); [|done|by apply IH].
      simpl. unfold unfold_loop. by rewrite Hc1.
    + apply (settles_later E i 1 _ (k t) Q s s st st); [|done|by apply IH].
      simpl. unfold unfold_loop. by rewrite Hc.
  - by destruct Hf as (_ & _ & []).
Qed.
End sound.
