(* ===== verification/ClientWp.v ===== *)
(** * The functions of the clients follow the protocol

    The functions of src/color/1server/color.c in the logic of [Simulation]:
    what each does to the state of the protocol.  The sync client shares the
    reads and the waiting loop; its writes are in [RefineSync]. *)

From S2P Require Import Prelude CLib Hiredis Program MinColor Client1 Protocol Keys.
From S2P Require Import ServerSpec Simulation.

From Stdlib Require Import Ascii.

Open Scope prog_scope.

(** The lock of the edge from [u] to [v], as [u] sees it. *)
Definition lock_of (u v : Z) : ClientGraphPetersonLock :=
  {| lock_key_1 := flag_key u v; lock_key_2 := flag_key v u;
     Client1.turn_key := turn_key u v; node_name := pretty u |}.

Ltac lock_fields :=
  cbn [lock_of lock_key_1 lock_key_2 Client1.turn_key node_name String.append] in *.

(** The two reads of the waiting loop, in the order in which [acquire_lock]
    makes them before the loop and in the loop. *)
Definition check_flag_turn (lock : ClientGraphPetersonLock) : prog bool :=
  other_flag <~ redisCommand "GET %s" [lock_key_2 lock];;
  turn_var_new <~ redisCommand "GET %s" [Client1.turn_key lock];;
  still_waiting lock other_flag turn_var_new.

Definition check_turn_flag (lock : ClientGraphPetersonLock) : prog bool :=
  turn_var_new <~ redisCommand "GET %s" [Client1.turn_key lock];;
  other_flag <~ redisCommand "GET %s" [lock_key_2 lock];;
  still_waiting lock other_flag turn_var_new.

(** The part of [acquire_lock] after its two writes. *)
Definition wait_for (lock : ClientGraphPetersonLock) : prog unit :=
  w <~ check_flag_turn lock;;
  while_ (λ w, w) (λ _, check_turn_flag lock) w;;;
  Ret tt.

Lemma still_waiting_get lock o r :
  still_waiting lock (Some (get_reply o)) (Some r) =
  if is_one o
  then t <~ deref (reply_str r);; Ret (bool_decide (t = node_name lock))
  else Ret false.
Proof.
  unfold still_waiting, is_one. simpl.
  destruct (reply_str (get_reply o)) as [x|]; simpl.
  - case_bool_decide as H; [simplify_eq; by rewrite decide_True|].
    rewrite decide_False; [done|congruence].
  - done.
Qed.

Section client.
Context (N : Z) (adj : Z → list Z) (first last : nat → Z).
Hypothesis G : graph_ok N adj.
Context (E : environment) (i : nat).

Local Abbreviation related := (related N adj first last).
Local Abbreviation wp := (wp N adj first last E i).
Local Abbreviation store_rel := (store_rel N adj).

Lemma node_int v : 0 ≤ v < N → in_int v.
Proof using G. pose proof (g_small N adj G). ints. Qed.
#[local] Hint Resolve node_int : colour.

Lemma degree_bound u : degree adj u ≤ N.
Proof using G.
  assert (length (adj u) ≤ length (seqZ 0 N))%nat as H.
  { apply submseteq_length, NoDup_submseteq; [by eauto with colour|].
    intros v Hv. apply elem_of_seqZ. pose proof (g_range N adj G u v Hv). lia. }
  rewrite length_seqZ in H. pose proof (g_small N adj G). unfold degree. lia.
Qed.

(** What [get_node_color] makes of the stored colour. *)
Lemma color_reply s m v :
  related s m →
  match get_reply (m !! color_key v) with
  | RNil => Ret (-1)
  | _ => s <~ deref (reply_str (get_reply (m !! color_key v)));; Ret (atoi s)
  end = Ret (colr s v).
Proof using G.
  intros [_ Hs]. rewrite (sr_color _ _ _ _ Hs).
  pose proof (sr_bound _ _ _ _ Hs v) as Hb. unfold color_ok in Hb.
  unfold color_val. destruct (Z.eqb_spec (colr s v) (-1)) as [->|Hne]; [done|]. simpl.
  rewrite c_str_pretty, atoi_pretty; [done|].
  pose proof (degree_bound v). pose proof (g_small N adj G). destruct (fin s v); ints.
Qed.

Lemma foreign_owns v : foreign (first i) (last i) v = negb (bool_decide (owns first last i v)).
Proof. unfold foreign, owns. case_bool_decide; simpl; repeat case_match; reflect_bools; lia. Qed.

(** ** The waiting loop *)

Section lock.
Context (u : Z) (todo : list Z) (passed : list (Z * Z)) (held : list Z) (v : Z) (rest : list Z).

Local Abbreviation at_ q := (Scan u todo passed held (v :: rest) q).

(** Still outside, or in. *)
Definition waited (w : bool) (q : apc) : Prop :=
  if w then q = at_ QWait else q = at_ (QRead true).

Lemma turn_reply s m :
  related s m →
  reply_str (get_reply (m !! turn_key u v)) = (λ w : Z, pretty w) <$> turn s (edge u v).
Proof.
  intros [_ Hs]. rewrite (sr_turn _ _ _ _ Hs).
  destruct (turn s (edge u v)); simpl; [|done]. by rewrite c_str_pretty.
Qed.

(** Reading a flag that is down, or a turn given to the other side, is the
    step into the critical section. *)
Lemma enter_by_flag s m :
  related s m → pcs s i = at_ QWait → is_one (m !! flag_key v u) = false →
  ∃ s', rtc (astep adj first last i) s s' ∧ store_rel s' m ∧ pcs s' i = at_ (QRead true).
Proof.
  intros [_ Hs] Hq Hf. eexists. split; [apply rtc_once; eapply a_enter_flag; [done|]|split].
  - by rewrite (sr_flag _ _ _ _ Hs).
  - by eapply store_same; [..|done].
  - simpl. by rewrite fn_lookup_insert.
Qed.

Lemma enter_by_turn s m :
  related s m → pcs s i = at_ QWait → turn s (edge u v) ≠ Some u →
  ∃ s', rtc (astep adj first last i) s s' ∧ store_rel s' m ∧ pcs s' i = at_ (QRead true).
Proof.
  intros [_ Hs] Hq Ht. eexists. split; [apply rtc_once; by eapply a_enter_turn|split].
  - by eapply store_same; [..|done].
  - simpl. by rewrite fn_lookup_insert.
Qed.

Hypothesis Hshape : graph_shape adj.

(** A waiting client finds a turn. *)
Lemma turn_set s m : related s m → pcs s i = at_ QWait →
  ∃ w, turn s (edge u v) = Some w ∧ (w = u ∨ w = v).
Proof using Hshape.
  intros [HI _] Hq. pose proof (inv_clients _ _ _ _ HI i) as Hc. rewrite Hq in Hc.
  apply (busy_stage adj first last) in Hc; [|intros; by apply g_nodup].
  destruct (inv_turn _ _ _ _ HI u v Hc); eauto.
Qed.

Lemma wp_check_flag_turn : wp (check_flag_turn (lock_of u v)) (at_ QWait) waited.
Proof using Hshape.
  apply wp_get_step. intros s m Hr Hq.
  destruct (is_one (m !! flag_key v u)) eqn:Hf.
  - exists s. split; [done|]. split; [apply Hr|]. rewrite Hq.
    apply wp_get_step. intros s1 m1 Hr1 Hq1. rewrite still_waiting_get. lock_fields. rewrite Hf.
    rewrite (turn_reply s1) by done.
    destruct (decide (turn s1 (edge u v) = Some u)) as [Ht|Ht].
    + exists s1. split; [done|]. split; [apply Hr1|]. rewrite Ht. simpl.
      by rewrite bool_decide_eq_true_2 by done.
    + destruct (enter_by_turn s1 m1 Hr1 Hq1 Ht) as (s2 & Hs2 & Hst & Hq2).
      exists s2. split; [done|]. split; [done|]. rewrite Hq2.
      destruct (turn_set s1 m1 Hr1 Hq1) as (w & Hw & _). rewrite Hw in *. simpl.
      rewrite bool_decide_eq_false_2; [done|]. intros ?%(inj pretty). congruence.
  - destruct (enter_by_flag s m Hr Hq Hf) as (s2 & Hs2 & Hst & Hq2).
    exists s2. split; [done|]. split; [done|]. rewrite Hq2.
    apply wp_get. intros s1 m1 Hr1 Hq1. rewrite still_waiting_get. lock_fields. by rewrite Hf.
Qed.

Lemma wp_check_turn_flag : wp (check_turn_flag (lock_of u v)) (at_ QWait) waited.
Proof using Hshape.
  apply wp_get_step. intros s m Hr Hq. pose proof (turn_reply s m Hr) as Hrep.
  destruct (decide (turn s (edge u v) = Some u)) as [Ht|Ht].
  - exists s. split; [done|]. split; [apply Hr|]. rewrite Hq.
    apply wp_get_step. intros s1 m1 Hr1 Hq1. rewrite still_waiting_get. lock_fields.
    destruct (is_one (m1 !! flag_key v u)) eqn:Hf.
    + exists s1. split; [done|]. split; [apply Hr1|].
      rewrite Hq1, Hrep, Ht. simpl. by rewrite bool_decide_eq_true_2 by done.
    + destruct (enter_by_flag s1 m1 Hr1 Hq1 Hf) as (s2 & Hs2 & Hst & Hq2).
      exists s2. by rewrite Hq2.
  - destruct (enter_by_turn s m Hr Hq Ht) as (s2 & Hs2 & Hst & Hq2).
    exists s2. split; [done|]. split; [done|]. rewrite Hq2.
    apply wp_get. intros s1 m1 Hr1 Hq1. rewrite still_waiting_get. lock_fields.
    rewrite Hrep. destruct (is_one (m1 !! flag_key v u)) eqn:Hf; [|done].
    destruct (turn_set s m Hr Hq) as (w & Hw & _). rewrite Hw in *. simpl.
    rewrite bool_decide_eq_false_2; [done|]. intros ?%(inj pretty). congruence.
Qed.

(** When the other side is out, or has set the turn after this one, a round of
    the loop finds it so. *)
Lemma check_exits :
  exits N adj first last E i (λ w, w) (check_turn_flag (lock_of u v)) (at_ QWait).
Proof using Hshape.
  intros ack s m _ Hr Hq Hb. pose proof (turn_reply s m Hr) as Hrep.
  destruct (turn_set s m Hr Hq) as (w & Ht & _). rewrite Ht in Hrep. destruct Hr as [_ Hs].
  intros m1 r1 Ha1. lock_fields. inversion Ha1; subst.
  intros m2 r2 Ha2. lock_fields. inversion Ha2; subst.
  cbn [pbind]. rewrite still_waiting_get. lock_fields.
  destruct (is_one _) eqn:Hf; [|done]. rewrite <- (sr_flag _ _ _ _ Hs) in Hf.
  rewrite Hrep. simpl. rewrite bool_decide_eq_false_2; [done|]. intros ->%(inj pretty). by apply Hb.
Qed.

(** From the first read on, the turn is not set again. *)
Lemma wp_await {A} argv (k : option redisReply → prog A) Q :
  wp (Send CMain argv k) (at_ QWait) Q → wp (Send CMain argv k) (at_ QTurned) Q.
Proof.
  intros [Hsup Hk]. split; [done|]. intros ack s m m' r [HI Hs] Hq Ha.
  pose proof (inv_clients _ _ _ _ HI i) as Hc. rewrite Hq in Hc.
  set (s1 := goto i (at_ QWait) s).
  assert (related s1 m) as Hr1.
  { split; [apply inv_goto; [done|by apply ok_await]|by eapply store_same; [..|done]]. }
  destruct (Hk ack s1 m m' r Hr1) as (s2 & Hs2 & H); [by unfold s1; simpl; rewrite fn_lookup_insert|done|].
  exists s2. split; [|done]. eapply rtc_l; [by apply a_await|done].
Qed.

Lemma wp_wait_for : wp (wait_for (lock_of u v)) (at_ QTurned) (λ _ q, q = at_ (QRead true)).
Proof using Hshape.
  apply wp_bind. eapply wp_mono; [apply wp_await, wp_check_flag_turn|]. intros w q Hw.
  apply wp_bind. eapply wp_while with (I := waited); [done|..].
  - intros [] q' Hq' ?; [|done]. rewrite Hq'. apply wp_check_turn_flag.
  - intros _ [] q' Hq' ?; [|done]. rewrite Hq'. apply check_exits.
  - by intros [] q' Hq' ?.
Qed.

(** ** Reading a neighbour *)

Hypothesis Hv : 0 ≤ v < N.

Lemma wp_get_status :
  ¬ owns first last i v →
  wp (get_status (pretty v)) (at_ QStatus)
    (λ z q, q = at_ (if z =? 0 then QFlag else QRead false)).
Proof using G Hv.
  intros Ho. unfold get_status. rewrite nbr_status_buffer by eauto with colour.
  apply wp_get_step. intros s m [HI Hs] Hq. cbn [String.append].
  rewrite (sr_stat _ _ _ _ Hs). destruct (stat s v) eqn:Hst; simpl.
  - eexists. split; [by eapply rtc_once, a_marked|]. split; [by eapply store_same; [..|done]|].
    simpl. by rewrite fn_lookup_insert.
  - eexists. split; [by eapply rtc_once, a_unmarked|]. split; [by eapply store_same; [..|done]|].
    simpl. by rewrite fn_lookup_insert.
Qed.

(** After the colour of [v] is read. *)
Definition seen (c : Z) (locked : bool) : apc :=
  Scan u todo (passed ++ [(v, c)]) (if locked then held ++ [v] else held) rest QStatus.

Lemma wp_get_color locked :
  wp (get_node_color (pretty v)) (at_ (QRead locked)) (λ c q, q = seen c locked).
Proof using G Hv.
  unfold get_node_color. rewrite nbr_color_buffer by eauto with colour.
  apply wp_get_step. intros s m Hr Hq. cbn [String.append].
  rewrite (color_reply s m) by done.
  eexists. split; [by eapply rtc_once, a_read|].
  split; [by eapply store_same; [..|apply Hr]|]. simpl. by rewrite fn_lookup_insert.
Qed.

Lemma wp_get_color_own :
  owns first last i v →
  wp (get_node_color (pretty v)) (at_ QStatus) (λ c q, q = seen c false).
Proof using G Hv.
  intros Ho. unfold get_node_color. rewrite nbr_color_buffer by eauto with colour.
  apply wp_get_step. intros s m Hr Hq. cbn [String.append].
  rewrite (color_reply s m) by done.
  eexists. split; [eapply rtc_l; [by eapply a_own|]; eapply rtc_once, a_read; simpl;
                   by rewrite fn_lookup_insert|].
  split; [by eapply store_same; [..|apply Hr]|]. simpl. by rewrite fn_lookup_insert.
Qed.

(** ** The lock of the 1-server client *)

Lemma wp_acquire_lock :
  wp (acquire_lock (lock_of u v)) (at_ QFlag) (λ _ q, q = at_ (QRead true)).
Proof using Hshape.
  apply wp_set. intros s m [HI Hs] Hq. cbn [String.append]. lock_fields.
  eexists. split; [by eapply rtc_once, a_flag|].
  split; [eapply store_same; [..|by apply (store_set_flag s m u v true)]; done|].
  simpl pcs. rewrite fn_lookup_insert.
  apply wp_set. clear s m HI Hs Hq. intros s m [HI Hs] Hq. cbn [String.append]. lock_fields.
  eexists. split; [by eapply rtc_once, a_turn|].
  split; [eapply store_same; [..|by apply (store_set_turn s m u v u)]; done|].
  simpl pcs. rewrite fn_lookup_insert. apply wp_wait_for.
Qed.
End lock.

(** ** The adjacency list of a node *)

Definition node_string (x : string) : Prop := ∃ v : Z, x = pretty v ∧ 0 ≤ v < N.

Lemma compare_neighbours_key x y :
  node_string x → node_string y → (compare_neighbours x y <= 0 ↔ atoi x <= atoi y).
Proof using G.
  intros (a & -> & Ha) (b & -> & Hb). unfold compare_neighbours.
  rewrite !atoi_pretty by eauto with colour.
  pose proof (g_small N adj G). rewrite wrap_s_32 by ints. lia.
Qed.

Lemma pretty_sorted l :
  Forall (λ v, 0 ≤ v < N) l → StronglySorted Z.lt l →
  StronglySorted (key_le atoi) (pretty <$> l).
Proof using G.
  intros Hl. induction 1 as [|v l Hs IH Hv]; simpl; [constructor|].
  apply Forall_cons in Hl as [Hv0 Hl]. constructor; [auto|].
  apply Forall_fmap. rewrite Forall_forall in Hl, Hv. apply Forall_forall. intros w Hw.
  unfold compose, key_le. rewrite !atoi_pretty by eauto with colour. specialize (Hv w Hw). lia.
Qed.

Lemma adj_range u : Forall (λ v, 0 ≤ v < N) (adj u).
Proof using G. apply Forall_forall. intros v Hv. by eapply g_range. Qed.

Lemma sort_adj u l : l ≡ₚ pretty <$> adj u → sort_neighbours l = pretty <$> adj u.
Proof using G.
  intros Hl. unfold sort_neighbours.
  apply (qsort_unique _ atoi node_string); auto using compare_neighbours_key.
  - apply Forall_fmap. eapply Forall_impl; [apply adj_range|].
    intros v Hv. by exists v.
  - apply pretty_sorted; [apply adj_range|by eauto with colour].
  - intros x y (a & -> & Ha)%list_elem_of_fmap (b & -> & Hb)%list_elem_of_fmap.
    pose proof (g_range N adj G _ _ Ha). pose proof (g_range N adj G _ _ Hb).
    rewrite !atoi_pretty by eauto with colour. by intros ->.
Qed.

Lemma members_adj s m u r :
  related s m → 0 ≤ u < N → members_reply (m !! neighbours_key u) r →
  ∃ l, r = RArray l ∧ l ≡ₚ pretty <$> adj u.
Proof using G.
  intros [_ Hs] Hu. rewrite (sr_nbrs _ _ _ _ Hs) by done. intros (l & -> & Hl).
  exists l. split; [done|]. rewrite Hl. apply elements_list_to_set.
  apply NoDup_fmap_2; [apply _|by eauto with colour].
Qed.

(** Between two nodes: nothing is held and [todo] is left. *)
Definition between (todo : list Z) (q : apc) : Prop :=
  q = Idle todo ∨ ∃ w, q = Release w todo [].

(** The first command of a node starts it. *)
Lemma start_node s m u todo :
  related s m → between (u :: todo) (pcs s i) →
  ∃ s', rtc (astep adj first last i) s s' ∧ store_rel s' m ∧
        pcs s' i = Scan u todo [] [] (adj u) QStatus.
Proof.
  intros [_ Hs] [Hq|[w Hq]]; eexists.
  - split; [by eapply rtc_once, a_start|]. split; [by eapply store_same; [..|done]|].
    simpl. by rewrite fn_lookup_insert.
  - split; [eapply rtc_l; [by eapply a_finish|]; eapply rtc_once, a_start; simpl;
            by rewrite fn_lookup_insert|].
    split; [by eapply store_same; [..|done]|]. simpl. by rewrite fn_lookup_insert.
Qed.

Lemma wp_get_all_neighbours u todo q :
  0 ≤ u < N → between (u :: todo) q →
  wp (get_all_neighbours (node_key u)) q
    (λ o q', q' = Scan u todo [] [] (adj u) QStatus ∧
             sort_neighbours (default [] o) = pretty <$> adj u).
Proof using G.
  intros Hu Hbetween. unfold get_all_neighbours.
  rewrite neighbours_buffer by eauto with colour. cbn [pbind redisCommand].
  split; [constructor|]. intros ack s m m' r Hr <- Ha.
  apply answers_smembers in Ha as [-> Ha].
  destruct (start_node s m u todo Hr Hbetween) as (s' & Hs' & Hst & Hq').
  exists s'. split; [done|]. split; [done|]. rewrite Hq'.
  destruct (members_adj s m u r Hr Hu) as (l & -> & Hl); [done|]. simpl.
  split; [done|]. apply sort_adj. rewrite Hl, <- list_fmap_compose.
  erewrite list_fmap_ext; [done|]. intros ? x ?. apply c_str_pretty.
Qed.

Lemma wp_check_boundary_node u q :
  0 ≤ u < N →
  wp (check_boundary_node (node_key u) (last i) (first i)) q (λ _ q', q' = q).
Proof using G.
  intros Hu. unfold check_boundary_node. rewrite neighbours_buffer by eauto with colour.
  apply wp_query; [constructor|by intros ???? [-> _]%answers_smembers|]. done.
Qed.

(** ** The writes of the 1-server client *)

Lemma choose_color s m u todo passed held c :
  related s m → pcs s i = Scan u todo passed held [] QStatus →
  0 ≤ c ≤ degree adj u → c ∉ passed.*2 →
  ∃ s', rtc (astep adj first last i) s s' ∧
        store_rel s' (<[color_key u := AStr (pretty c)]> m) ∧
        pcs s' i = Mark u todo held c.
Proof.
  intros [_ Hs] Hq Hc Hfree. eexists.
  split; [eapply rtc_l; [by eapply a_choose|]; eapply rtc_once, a_colour; simpl;
          by rewrite fn_lookup_insert|].
  split; [eapply store_same; [..|by apply (store_set_color s m u c)]; done|].
  simpl. by rewrite fn_lookup_insert.
Qed.

Lemma wp_set_node_color u todo passed held c :
  0 ≤ u < N → 0 ≤ c ≤ degree adj u → c ∉ passed.*2 →
  wp (set_node_color (node_key u) c) (Scan u todo passed held [] QStatus)
    (λ _ q, q = Mark u todo held c).
Proof using G.
  intros Hu Hc Hfree. unfold set_node_color. rewrite color_buffer by eauto with colour.
  rewrite color_str_fits by (pose proof (g_small N adj G); pose proof (degree_bound u); lia).
  apply wp_set. intros s m Hr Hq. cbn [String.append].
  destruct (choose_color s m u todo passed held c) as (s' & Hs' & Hst & Hq'); [done..|].
  exists s'. by rewrite Hq'.
Qed.

Lemma wp_set_status u todo held c :
  0 ≤ u < N →
  wp (set_status (node_key u)) (Mark u todo held c) (λ _ q, q = Release u todo held).
Proof using G.
  intros Hu. unfold set_status. rewrite status_buffer by eauto with colour.
  apply wp_set. intros s m [HI Hs] Hq. cbn [String.append].
  eexists. split; [by eapply rtc_once, a_mark|].
  split; [eapply store_same; [..|by apply (store_set_stat s m u)]; done|].
  simpl. by rewrite fn_lookup_insert.
Qed.

(** ** The keys of the nodes *)

Lemma strip_neighbours_key u : strip_suffix (neighbours_key u) = node_key u.
Proof.
  unfold strip_suffix, neighbours_key, node_key.
  assert (strstr_before (pretty u +:+ "_neighbours") "_neighbours" = Some (pretty u)) as Hs.
  { apply (strstr_before_app "_"%char "neighbours" _ ""), pretty_Z_sep_free. }
  pose proof (pretty_Z_char_free "n"%char u eq_refl) as Hn.
  destruct (pretty u) as [|c r]; [done|]; simpl in *.
  destruct Hn as [Hc _]; [done|].
  rewrite (bool_decide_eq_false_2 ("n"%char = c)) by congruence.
  cbn [andb]. by rewrite Hs.
Qed.

Lemma c_str_neighbours_key u : c_str (neighbours_key u) = neighbours_key u.
Proof.
  apply c_str_free. unfold neighbours_key. rewrite !char_free_app.
  split; [by repeat split|]. split; [by apply pretty_Z_char_free|by repeat split].
Qed.

Definition node_keys : list string := node_key <$> seqZ 0 N.

Definition node_name_string (x : string) : Prop := ∃ u, x = node_key u ∧ 0 ≤ u < N.

Lemma compare_keys_id x y :
  node_name_string x → node_name_string y →
  (compare_keys x y <= 0 ↔ get_node_id x <= get_node_id y).
Proof using G.
  intros (a & -> & Ha) (b & -> & Hb). rewrite !node_id_of_key by eauto with colour.
  unfold compare_keys, node_key. simpl strchr. cbn beta iota zeta.
  rewrite !atoi_pretty by eauto with colour. pose proof (g_small N adj G).
  rewrite wrap_s_32 by ints. lia.
Qed.

Lemma node_keys_sorted : StronglySorted (key_le get_node_id) node_keys.
Proof using G.
  unfold node_keys.
  assert (Forall (λ u, 0 ≤ u < N) (seqZ 0 N)) as Hr.
  { apply Forall_forall. intros u Hu%elem_of_seqZ. lia. }
  assert (StronglySorted Z.lt (seqZ 0 N)) as Hs by apply seqZ_sorted.
  induction Hs as [|u l Hs IH Hu]; simpl; [constructor|].
  apply Forall_cons in Hr as [Hu0 Hr]. constructor; [auto|].
  apply Forall_fmap. rewrite Forall_forall in Hr, Hu. apply Forall_forall. intros w Hw.
  unfold compose, key_le. rewrite !node_id_of_key by eauto with colour.
  specialize (Hu w Hw). lia.
Qed.

(** Whatever order [KEYS] uses, the sorted names are [node_0], [node_1], ... *)
Lemma keys_stripped s m l :
  related s m → NoDup l → (∀ k, k ∈ l ↔ k ∈ dom m ∧ is_nodes_key k) →
  (strip_suffix ∘ c_str) <$> l ≡ₚ node_keys.
Proof using G.
  intros [_ Hs] Hnd Hl.
  assert (l ≡ₚ neighbours_key <$> seqZ 0 N) as Hp.
  { apply NoDup_Permutation; [done|apply NoDup_fmap_2; [apply _|apply NoDup_seqZ]|].
    intros k. rewrite Hl, list_elem_of_fmap, elem_of_dom. split.
    - intros [Hk Hn]. destruct (sr_keys _ _ _ _ Hs k Hn Hk) as (u & Hu & ->).
      exists u. by rewrite elem_of_seqZ.
    - intros (u & -> & Hu%elem_of_seqZ). split; [|apply neighbours_nodes_key].
      rewrite (sr_nbrs _ _ _ _ Hs) by lia. done. }
  rewrite Hp, <- list_fmap_compose. unfold node_keys.
  erewrite list_fmap_ext; [done|]. intros ? u ?. unfold compose.
  by rewrite c_str_neighbours_key, strip_neighbours_key.
Qed.

Lemma sort_keys keys : keys ≡ₚ node_keys → qsort compare_keys keys = node_keys.
Proof using G.
  intros Hp.
  apply (qsort_unique _ get_node_id node_name_string); auto using compare_keys_id, node_keys_sorted.
  - apply Forall_fmap, Forall_forall. intros u Hu%elem_of_seqZ. exists u. split; [done|lia].
  - intros x y (a & -> & Ha%elem_of_seqZ)%list_elem_of_fmap
      (b & -> & Hb%elem_of_seqZ)%list_elem_of_fmap.
    rewrite !node_id_of_key by (apply node_int; lia). by intros ->.
Qed.

Lemma keys_have_numbers keys :
  keys ≡ₚ node_keys → existsb (λ key, negb (has_number key)) keys = false.
Proof.
  intros Hp. apply not_true_iff_false. rewrite existsb_exists. intros (k & Hk & Hnum).
  apply list_elem_of_In in Hk. rewrite Hp in Hk.
  by apply list_elem_of_fmap in Hk as (u & -> & _).
Qed.

Lemma wp_fetch_keys q :
  wp (fetch_keys "node_*_neighbours") q (λ o q', q' = q ∧ o = Some node_keys).
Proof using G.
  unfold fetch_keys. apply wp_query; [apply sup_keys|by intros ???? [-> _]%answers_keys|].
  intros ack s m r Hr Hq [_ (l & -> & Hnd & Hl)]%answers_keys. simpl.
  pose proof (keys_stripped s m l Hr Hnd Hl) as Hp.
  rewrite (keys_have_numbers _ Hp), andb_false_r. by rewrite (sort_keys _ Hp).
Qed.

(** ** The range of a client *)

(** The loop over [keys], with the body [f] of either client. *)
Lemma wp_range (f : string → prog unit) q :
  (total E → 0 ≤ first i ∧ last i < N) →
  (∀ u todo q, owns first last i u → 0 ≤ u < N → between (u :: todo) q →
     wp (f (node_key u)) q (λ _, between todo)) →
  between (seqZ (first i) (last i - first i + 1)) q →
  wp (for_each (seqZ (first i) (last i - first i + 1)) tt
        (λ k _, key <~ key_at node_keys k;; f key)) q (λ _, between []).
Proof.
  intros Hrange Hf Hq. eapply wp_mono.
  - apply (wp_for_each _ _ _ _ _ _ _
      (λ l _ q, between l q ∧ Forall (owns first last i) l)).
    + split; [done|]. apply Forall_seqZ. unfold owns. lia.
    + intros u l _ q' [Hb Ho]. apply Forall_cons in Ho as [Ho Hl].
      apply wp_bind. unfold key_at. unfold owns in Ho.
      destruct (Z.ltb_spec u 0); [intros Ht; specialize (Hrange Ht); lia|].
      apply wp_deref.
      * intros Ht%Hrange. apply lookup_lt_is_Some_2.
        unfold node_keys. rewrite length_fmap, length_seqZ. lia.
      * intros key Hkey. unfold node_keys in Hkey.
        apply list_lookup_fmap_Some in Hkey as (w & -> & Hw).
        apply lookup_seqZ in Hw as [Hw HN]. assert (w = u) as -> by lia.
        eapply wp_mono; [apply Hf; [done|lia|done]|]. done.
  - by intros _ q' [? _].
Qed.

(** All the arguments are there, and the range is one of the graph. *)
Definition runnable (argv : list string) (a b : Z) : Prop :=
  (6 ≤ length argv)%nat ∧ 0 ≤ a ≤ b ∧ b < N.

(** The first two arguments of the program are the range. *)
Definition range_of (argv : list string) (a b : Z) : Prop :=
  ∃ x y, argv !! 1%nat = Some x ∧ argv !! 2%nat = Some y ∧ atoi x = a ∧ atoi y = b.
End client.
