(* ===== verification/Refine1.v ===== *)
(** * The 1-server client refines the protocol

    [process_node], [process_range] and [main] of src/color/1server/color.c in
    the logic of [Simulation].  The lock array of a node is not initialised
    and its release loop runs over all of it, so the entries that were not
    filled in are assumed to be [harmless]: to name no key of the protocol, or
    a flag this client has already put down. *)

From S2P Require Import Prelude CLib Hiredis Program MinColor Client1 Protocol Keys.
From S2P Require Import ServerSpec Simulation ClientWp.

Open Scope prog_scope.

Section refine.
Context (N : Z) (adj : Z → list Z) (first last : nat → Z).
Hypothesis G : graph_ok N adj.
Context (E : environment) (i : nat).

Local Abbreviation related := (related N adj first last).
Local Abbreviation wp := (wp N adj first last E i).
Local Abbreviation store_rel := (store_rel N adj).
Local Abbreviation between := between.

#[local] Hint Resolve node_int : colour.

(** What releasing an unused entry of the array of node [u] may write. *)
Definition harmless (u : Z) (lock : ClientGraphPetersonLock) : Prop :=
  unused_key (lock_key_1 lock) ∨
  ∃ a b, owns first last i a ∧ a ≠ u ∧ lock_key_1 lock = flag_key a b.

(** The entries of the array from some point on, and the edges they hold. *)
Inductive locks_rel (u : Z) : list ClientGraphPetersonLock → list Z → Prop :=
| lr_nil : locks_rel u [] []
| lr_held v la held : locks_rel u la held → locks_rel u (lock_of u v :: la) (v :: held)
| lr_junk l la held : harmless u l → locks_rel u la held → locks_rel u (l :: la) held.

Lemma locks_rel_snoc_held u la held v :
  locks_rel u la held → locks_rel u (la ++ [lock_of u v]) (held ++ [v]).
Proof. induction 1; simpl; [apply lr_held, lr_nil|by apply lr_held|by apply lr_junk]. Qed.

Lemma locks_rel_snoc_junk u la held l :
  locks_rel u la held → harmless u l → locks_rel u (la ++ [l]) held.
Proof.
  intros H Hl. induction H; simpl; [|by apply lr_held|by apply lr_junk].
  apply lr_junk; [done|constructor].
Qed.

(** ** Releasing *)

Lemma idle_flag s m u todo held a b :
  related s m → pcs s i = Release u todo held → owns first last i a → a ≠ u →
  flag s (a, b) = false.
Proof.
  intros [HI _] Hq Ho Ha. apply not_true_iff_false. rewrite (inv_flag _ _ _ _ HI).
  intros Hs. apply Hs. pose proof (inv_clients _ _ _ _ HI i) as Hc. rewrite Hq in Hc.
  apply (ok_idle _ _ _ _ _ _ Hc); simpl; congruence.
Qed.

Lemma wp_release_lock u todo held l la :
  locks_rel u (l :: la) held →
  wp (release_lock l) (Release u todo held)
    (λ _ q, ∃ h, locks_rel u la h ∧ q = Release u todo h).
Proof.
  intros Hl. apply wp_set. intros s m Hr Hq. cbn [String.append].
  inversion Hl as [|v la' h Hla|l' la' h Hj Hla]; subst.
  - eexists. split; [by eapply rtc_once, a_release|]. split.
    + eapply store_same; [..|apply (store_set_flag s m u v false), Hr]; done.
    + simpl. rewrite fn_lookup_insert. eauto.
  - exists s. split; [done|]. rewrite Hq. split; [|simpl; eauto].
    destruct Hj as [Hj|(a & b & Ho & Ha & ->)].
    + apply store_unused; [apply Hr|done].
    + apply store_flag_down; [apply Hr|]. by eapply idle_flag.
Qed.

Lemma wp_release_locks u todo held la :
  locks_rel u la held →
  wp (release_locks la) (Release u todo held) (λ _ q, q = Release u todo []).
Proof.
  intros Hl. eapply wp_mono.
  - apply (wp_for_each _ _ _ _ _ _ _
      (λ la _ q, ∃ h, locks_rel u la h ∧ q = Release u todo h)); [eauto|].
    intros l la' _ q (h & Hh & ->). by apply wp_release_lock.
  - intros _ q (h & Hh & ->). by inversion Hh; subst.
Qed.

(** ** Reading the neighbours *)

(** [n] neighbours have been read; the array is filled that far. *)
Definition array_ok (u : Z) (n : nat) (la : list ClientGraphPetersonLock) (held : list Z) :
    Prop :=
  ∃ la0 la1, la = la0 ++ la1 ∧ length la0 = n ∧ length la = length (adj u) ∧
    locks_rel u la0 held ∧ Forall (harmless u) la1.

Lemma array_ok_held u n la held v :
  array_ok u n la held → (n < length (adj u))%nat →
  array_ok u (S n) (<[n := lock_of u v]> la) (held ++ [v]).
Proof.
  intros (la0 & la1 & -> & Hn & Hlen & Hh & Hj) Hlt. rewrite length_app in Hlen.
  destruct la1 as [|l la1]; simpl in Hlen; [lia|].
  exists (la0 ++ [lock_of u v]), la1.
  rewrite insert_app_r_alt by lia. rewrite Hn, Nat.sub_diag. simpl.
  apply Forall_cons in Hj as [_ Hj].
  split; [by rewrite <- app_assoc|].
  split; [rewrite length_app; simpl; lia|].
  split; [rewrite length_app; simpl; lia|].
  split; [by apply locks_rel_snoc_held|done].
Qed.

Lemma array_ok_skip u n la held :
  array_ok u n la held → (n < length (adj u))%nat → array_ok u (S n) la held.
Proof.
  intros (la0 & la1 & -> & Hn & Hlen & Hh & Hj) Hlt. rewrite length_app in Hlen.
  destruct la1 as [|l la1]; simpl in Hlen; [lia|]. apply Forall_cons in Hj as [Hl Hj].
  exists (la0 ++ [l]), la1.
  split; [by rewrite <- app_assoc|].
  split; [rewrite length_app; simpl; lia|].
  split; [rewrite length_app; simpl; lia|].
  split; [by apply locks_rel_snoc_junk|done].
Qed.

(** The state of the loop with the neighbours [rest] left. *)
Definition reading (u : Z) (todo : list Z) (l : list (nat * string))
    (acc : list ClientGraphPetersonLock * list Z) (q : apc) : Prop :=
  ∃ passed held rest,
    q = Scan u todo passed held rest QStatus ∧
    adj u = passed.*1 ++ rest ∧
    l = imap (λ k (v : Z), ((length passed + k)%nat, pretty v)) rest ∧
    acc.2 = passed.*2 ∧
    array_ok u (length passed) acc.1 held.

Lemma reading_next u todo passed held v rest la c (locked : bool) :
  adj u = passed.*1 ++ v :: rest →
  array_ok u (S (length passed)) la (if locked then held ++ [v] else held) →
  reading u todo (imap (λ k (v : Z), ((length passed + S k)%nat, pretty v)) rest)
    (la, passed.*2 ++ [c]) (seen u todo passed held v rest c locked).
Proof.
  intros Hadj Ha. exists (passed ++ [(v, c)]), (if locked then held ++ [v] else held), rest.
  rewrite !fmap_app, length_app. simpl. rewrite <- app_assoc. simpl.
  repeat split; try done.
  - apply imap_ext. intros k w Hw. simpl. f_equal. lia.
  - by rewrite Nat.add_1_r.
Qed.

Lemma wp_read_one_neighbor u todo entry l acc q :
  owns first last i u → 0 ≤ u < N → reading u todo (entry :: l) acc q →
  wp (read_one_neighbor (node_key u) (first i) (last i) entry acc) q (reading u todo l).
Proof using G.
  intros Hown Hu (passed & held & rest & -> & Hadj & Hl & Hcs & Ha).
  destruct rest as [|v rest]; [done|]. simpl in Hl. injection Hl as -> ->.
  destruct acc as [la cs]. simpl in Hcs, Ha. subst cs. rewrite Nat.add_0_r.
  assert (0 ≤ v < N) as Hv by (apply (g_range N adj G u); rewrite Hadj; set_solver).
  assert (length passed < length (adj u))%nat as Hlt.
  { rewrite Hadj, length_app, length_fmap. simpl. lia. }
  unfold read_one_neighbor. rewrite atoi_pretty, node_id_of_key by eauto with colour.
  rewrite number_of_key, foreign_owns. apply wp_bind.
  case_bool_decide as Ho; simpl negb; cbn match.
  - apply wp_bind. eapply wp_mono; [by eapply wp_get_color_own|]. intros c q ->.
    by eapply reading_next, array_ok_skip.
  - apply wp_bind. eapply wp_mono; [by eapply wp_get_status|]. intros z q ->.
    destruct (z =? 0); cbn [deref pbind].
    + rewrite make_lock_keys by eauto with colour. apply wp_bind.
      eapply wp_mono; [by eapply wp_acquire_lock, g_shape|]. intros _ q ->.
      apply wp_bind. eapply wp_mono; [by eapply wp_get_color|]. intros c q ->.
      by eapply (reading_next _ _ _ _ _ _ _ _ true), array_ok_held.
    + apply wp_bind. eapply wp_mono; [by eapply wp_get_color|]. intros c q ->.
      by eapply (reading_next _ _ _ _ _ _ _ _ false), array_ok_skip.
Qed.

(** ** One node *)

Context (calloc_ok : Z → bool) (uninit : string → nat → ClientGraphPetersonLock).
Hypothesis uninit_harmless :
  ∀ u j, owns first last i u → harmless u (uninit (node_key u) j).

Lemma reading_start u todo :
  owns first last i u →
  reading u todo (imap pair (pretty <$> adj u))
    (uninit (node_key u) <$> seq 0 (length (pretty <$> adj u)), [])
    (Scan u todo [] [] (adj u) QStatus).
Proof using uninit_harmless.
  intros Ho. exists [], [], (adj u). repeat split; try done.
  - by rewrite imap_fmap.
  - exists [], (uninit (node_key u) <$> seq 0 (length (pretty <$> adj u))).
    split; [done|]. split; [done|]. split; [simpl; by rewrite !length_fmap, length_seq|].
    split; [constructor|].
    apply Forall_fmap, Forall_forall. intros j _. by apply uninit_harmless.
Qed.

Hypothesis Hcalloc : total E → ∀ z, 0 < z ≤ INT_MAX → calloc_ok z = true.

Lemma wp_minimal_color u (passed : list (Z * Z)) q (Q : Z → apc → Prop) :
  adj u = passed.*1 →
  (∀ c, 0 ≤ c ≤ degree adj u → c ∉ passed.*2 → Q c q) →
  wp (minimal_color (Server1.getMinimalValueNotInArray calloc_ok 2 passed.*2
        (Z.of_nat (length passed.*2)) 0 1000)) q Q.
Proof using G Hcalloc.
  intros Hadj HQ. pose proof (degree_bound N adj G u) as Hd.
  assert (length passed.*2 = length (adj u)) as Hlen by (by rewrite Hadj, !length_fmap).
  pose proof (g_small N adj G) as HN. unfold degree in Hd.
  pose proof (λ calloc_ok H, server1_rounds calloc_ok passed.*2 0 1000 ltac:(lia)
    ltac:(rewrite Hlen; ints) H 0) as Hrounds.
  destruct (Server1.getMinimalValueNotInArray _ _ _ _ _ _) as [[f|c]|] eqn:Hmin; simpl.
  - intros Ht. destruct (Hrounds _ (Hcalloc Ht)) as (r & Hr & _). congruence.
  - apply server1_alloc in Hmin. destruct (Hrounds (λ _, true)) as (r & Hr & Hf); [done|].
    assert (r = c) as <- by congruence. pose proof (least_free_bound _ _ _ Hf) as Hb.
    destruct Hf as (? & ? & _). apply HQ; [|done]. unfold degree. lia.
  - intros Ht. destruct (Hrounds _ (Hcalloc Ht)) as (r & Hr & _). congruence.
Qed.

Lemma wp_process_node u todo q :
  owns first last i u → 0 ≤ u < N → between (u :: todo) q →
  wp (process_node calloc_ok uninit (node_key u) (first i) (last i)) q (λ _, between todo).
Proof using G uninit_harmless Hcalloc.
  intros Ho Hu Hq. unfold process_node. apply wp_bind.
  eapply wp_mono; [by eapply wp_get_all_neighbours|]. intros nbrs q' [-> ->].
  apply wp_bind. eapply wp_mono; [by eapply wp_check_boundary_node|]. intros _ q' ->.
  apply wp_bind. eapply wp_mono.
  { eapply (wp_for_each _ _ _ _ _ _ _ (reading u todo)); [by apply reading_start|].
    intros. by apply wp_read_one_neighbor. }
  intros [la cs] q' (passed & held & rest & -> & Hadj & Hrest & Hcs & Ha).
  destruct rest; [|done]. rewrite app_nil_r in Hadj. simpl in Hcs, Ha. subst cs.
  apply wp_bind, (wp_minimal_color u); [done|]. intros c Hc Hfree.
  apply wp_bind. eapply wp_mono; [by eapply wp_set_node_color|]. intros _ q' ->.
  apply wp_bind. eapply wp_mono; [by eapply wp_set_status|]. intros _ q' ->.
  eapply wp_mono; [apply wp_release_locks|].
  - destruct Ha as (la0 & la1 & -> & Hn & Hlen & Hh & _).
    rewrite length_app in Hlen. rewrite Hadj, length_fmap in Hlen.
    destruct la1; simpl in Hlen; [by rewrite app_nil_r|lia].
  - intros _ q' ->. right. eauto.
Qed.

(** ** The program *)

Lemma wp_process_range q :
  (total E → 0 ≤ first i ∧ last i < N) →
  between (seqZ (first i) (last i - first i + 1)) q →
  wp (process_range calloc_ok uninit (node_keys N) (first i) (last i)) q (λ _, between []).
Proof using G uninit_harmless Hcalloc.
  intros Ht. apply (wp_range N adj first last E i
    (λ key, process_node calloc_ok uninit key (first i) (last i))); [done|].
  apply wp_process_node.
Qed.

Lemma wp_main argv :
  range_of argv (first i) (last i) →
  (total E → runnable N argv (first i) (last i)) →
  wp (main calloc_ok uninit argv) (Idle (seqZ (first i) (last i - first i + 1)))
    (λ code q, (code = 0 → between [] q) ∧ (total E → code = 0)).
Proof using G uninit_harmless Hcalloc.
  intros (a & b & Ha & Hb & Hf & Hl) Ht. unfold runnable in Ht. unfold main.
  destruct (Nat.ltb_spec (length argv) 5); [split; [done|]; intros ?%Ht; lia|].
  rewrite Ha, Hb. cbn [deref pbind]. rewrite Hf, Hl.
  apply wp_bind, wp_deref; [intros ?%Ht; apply lookup_lt_is_Some_2; lia|]. intros host _.
  destruct (Z.ltb_spec (last i) (first i)); [split; [done|]; intros ?%Ht; lia|].
  intros [] Hconn; [|split; [done|]; intros ?%Hconn; done..].
  apply wp_bind. eapply wp_mono; [by eapply wp_fetch_keys|]. intros o q [-> ->].
  destruct (node_keys N) as [|k ks] eqn:Hk.
  { split; [done|]. intros ?%Ht. unfold node_keys in Hk. apply fmap_nil_inv in Hk.
    apply (f_equal length) in Hk. rewrite length_seqZ in Hk. simpl in Hk. lia. }
  rewrite <- Hk. apply wp_bind.
  eapply wp_mono; [apply wp_process_range; [intros ?%Ht; lia|by left]|]. intros ? q Hq.
  intros c Hc. destruct c; simpl; auto. intros H1%Hc. done.
Qed.
End refine.
