(* ===== verification/RefineSync.v ===== *)
(** * The replicated client refines the protocol

    [write_with_wait], [process_node], [process_range] and [main] of
    src/color/sync/color.c in the logic of [Simulation].  A write is repeated
    until enough replicas have it; the repetitions are harmless because each
    value written is determined by where the client is in the protocol. *)

From S2P Require Import Prelude CLib Hiredis Program MinColor Protocol Keys.
From S2P Require Import ServerSpec Simulation ClientWp.
From S2P Require Client1 ClientSync.

Open Scope prog_scope.

Section refine.
Context (N : Z) (adj : Z → list Z) (first last : nat → Z).
Hypothesis G : graph_ok N adj.
Context (E : environment) (i : nat).
Context (num_of_replicas : option string) (timeout : string).

Local Abbreviation related := (related N adj first last).
Local Abbreviation wp := (wp N adj first last E i).
Local Abbreviation store_rel := (store_rel N adj).

#[local] Hint Resolve node_int : colour.

(** ** Repeated writes *)

(** In an environment that makes the client end, the number of replicas is
    given and that many have every write. *)
Hypothesis Hacks : total E →
  ∃ n, num_of_replicas = Some n ∧ wait_ok n timeout ∧
    ∀ ack, enough E ack → atoi n ≤ wrap_s 32 ack.

(** Writing [v] to [key] takes the client from [q] to [q']. *)
Definition writes (key v : string) (q q' : apc) : Prop :=
  ∀ s m, related s m → pcs s i = q →
    ∃ s', rtc (astep adj first last i) s s' ∧ store_rel s' (<[key := AStr v]> m) ∧
          pcs s' i = q'.

(** In a state in which [key] already holds [v], writing it again is allowed. *)
Lemma writes_again key v q :
  (∀ s m, related s m → pcs s i = q → store_rel s (<[key := AStr v]> m)) → writes key v q q.
Proof. intros H s m Hr Hq. exists s. split; [done|]. split; [by apply H|done]. Qed.

Lemma wp_write_round n required key v q q' :
  writes key v q q' →
  wp (ClientSync.write_round n timeout required "SET" key v) q (λ _ q1, q1 = q').
Proof.
  intros Hw. apply wp_set. intros s m Hr Hq.
  destruct (Hw s m Hr Hq) as (s' & Hs' & Hst & Hq'). exists s'.
  split; [done|]. split; [done|]. rewrite Hq'.
  apply wp_query; [constructor|by intros ???? [-> _]%answers_wait|]. done.
Qed.

(** One round is enough when the replicas are there. *)
Lemma write_round_exits n required key v q :
  wait_ok n timeout → (∀ ack, enough E ack → required ≤ wrap_s 32 ack) →
  exits N adj first last E i (λ again, again)
    (ClientSync.write_round n timeout required "SET" key v) q.
Proof.
  intros Hok Hreq ack s m Hack _ _ _ m1 r1 _ m2 r2 [_ [->|[? _]]]%answers_wait; [|done].
  apply Z.ltb_ge. by apply Hreq.
Qed.

Lemma wp_write_with_wait key v q q' :
  writes key v q q' → writes key v q' q' →
  wp (ClientSync.write_with_wait num_of_replicas timeout "SET" key v) q (λ _ q1, q1 = q').
Proof using Hacks.
  intros Hw Hagain. unfold ClientSync.write_with_wait. apply wp_bind, wp_deref.
  { intros Ht. destruct (Hacks Ht) as (n & -> & _). done. }
  intros n Hn. cbn zeta. apply wp_bind.
  eapply wp_while with (I := λ (again : bool) q1, q1 = q' ∨ (again = true ∧ q1 = q)); [auto|..].
  - intros again q1 Hq1 _. eapply wp_mono; [apply (wp_write_round _ _ _ _ _ q')|].
    + by destruct Hq1 as [->|[_ ->]].
    + intros ? ? ->. auto.
  - intros Ht again q1 _ _. destruct (Hacks Ht) as (n' & Hn' & Hok & Hreq). simplify_eq.
    by apply write_round_exits.
  - intros again q1 Hq1 ->. by destruct Hq1 as [->|[? _]].
Qed.

(** ** The lock *)

Section lock.
Context (u : Z) (todo : list Z) (passed : list (Z * Z)) (held : list Z) (v : Z) (rest : list Z).

Local Abbreviation at_ q := (Scan u todo passed held (v :: rest) q).

Lemma writes_flag : writes (flag_key u v) "1" (at_ QFlag) (at_ QTurn).
Proof.
  intros s m [HI Hs] Hq. eexists. split; [by eapply rtc_once, a_flag|].
  split; [eapply store_same; [..|by apply (store_set_flag s m u v true)]; done|].
  simpl. by rewrite fn_lookup_insert.
Qed.

Lemma writes_flag_again : writes (flag_key u v) "1" (at_ QTurn) (at_ QTurn).
Proof.
  apply writes_again. intros s m [HI Hs] Hq. apply store_flag_up; [done|].
  apply (inv_flag _ _ _ _ HI). pose proof (inv_clients _ _ _ _ HI i) as Hc. rewrite Hq in Hc.
  rewrite (ok_stage _ _ _ _ _ _ Hc u v eq_refl). unfold stage_of. simpl.
  repeat case_decide; done.
Qed.

Lemma writes_turn : writes (turn_key u v) (pretty u) (at_ QTurn) (at_ QTurned).
Proof.
  intros s m [HI Hs] Hq. eexists. split; [by eapply rtc_once, a_turn|].
  split; [eapply store_same; [..|by apply (store_set_turn s m u v u)]; done|].
  simpl. by rewrite fn_lookup_insert.
Qed.

Lemma writes_turn_again : writes (turn_key u v) (pretty u) (at_ QTurned) (at_ QTurned).
Proof.
  intros s m [HI Hs] Hq. eexists. split; [by eapply rtc_once, a_turn_again|].
  split; [by apply store_set_turn|done].
Qed.

Lemma wp_sync_acquire_lock :
  graph_shape adj →
  wp (ClientSync.acquire_lock (lock_of u v) num_of_replicas timeout) (at_ QFlag)
    (λ _ q, q = at_ (QRead true)).
Proof using Hacks.
  intros Hshape. apply wp_bind. eapply wp_mono; [apply wp_write_with_wait; [apply writes_flag|]|].
  { apply writes_flag_again. }
  intros _ q ->. apply wp_bind.
  eapply wp_mono; [apply wp_write_with_wait; [apply writes_turn|apply writes_turn_again]|].
  intros _ q ->. by eapply wp_wait_for.
Qed.
End lock.

(** ** Colour and status *)

Lemma writes_color u todo passed held c :
  0 ≤ c ≤ degree adj u → c ∉ passed.*2 →
  writes (color_key u) (pretty c) (Scan u todo passed held [] QStatus) (Mark u todo held c).
Proof. intros Hc Hfree s m Hr Hq. by eapply choose_color. Qed.

Lemma writes_color_again u todo held c :
  writes (color_key u) (pretty c) (Mark u todo held c) (Mark u todo held c).
Proof.
  apply writes_again. intros s m [HI Hs] Hq. rewrite insert_id; [done|].
  pose proof (inv_clients _ _ _ _ HI i) as Hc. rewrite Hq in Hc.
  destruct (ok_phase _ _ _ _ _ _ Hc) as [Hcol Hfin].
  pose proof (sr_bound _ _ _ _ Hs u) as Hb. rewrite Hfin, Hcol in Hb. simpl in Hb.
  rewrite (sr_color _ _ _ _ Hs), Hcol. apply color_val_written. lia.
Qed.

Lemma writes_status u todo held c :
  writes (status_key u) "1" (Mark u todo held c) (Release u todo held).
Proof.
  intros s m [HI Hs] Hq. eexists. split; [by eapply rtc_once, a_mark|].
  split; [eapply store_same; [..|by apply (store_set_stat s m u)]; done|].
  simpl. by rewrite fn_lookup_insert.
Qed.

Lemma writes_status_again u todo held :
  writes (status_key u) "1" (Release u todo held) (Release u todo held).
Proof.
  apply writes_again. intros s m [HI Hs] Hq. rewrite insert_id; [done|].
  pose proof (inv_clients _ _ _ _ HI i) as Hc. rewrite Hq in Hc.
  destruct (ok_phase _ _ _ _ _ _ Hc) as [_ Hstat]. by rewrite (sr_stat _ _ _ _ Hs), Hstat.
Qed.

Lemma wp_sync_set_node_color u todo passed held c :
  0 ≤ u < N → 0 ≤ c ≤ degree adj u → c ∉ passed.*2 →
  wp (ClientSync.set_node_color (node_key u) c num_of_replicas timeout)
    (Scan u todo passed held [] QStatus) (λ _ q, q = Release u todo held).
Proof using G Hacks.
  intros Hu Hc Hfree. unfold ClientSync.set_node_color.
  rewrite color_buffer, status_buffer by eauto with colour.
  rewrite color_str_fits
    by (pose proof (g_small N adj G); pose proof (degree_bound N adj G u); lia).
  apply wp_bind. eapply wp_mono;
    [apply wp_write_with_wait; [by eapply writes_color|apply writes_color_again]|].
  intros _ q ->. apply wp_bind. eapply wp_mono;
    [apply wp_write_with_wait; [by eapply writes_status|apply writes_status_again]|].
  by intros _ q ->.
Qed.

(** ** Releasing *)

Lemma writes_release u todo v held :
  writes (flag_key u v) "0" (Release u todo (v :: held)) (Release u todo held).
Proof.
  intros s m [HI Hs] Hq. eexists. split; [by eapply rtc_once, a_release|].
  split; [eapply store_same; [..|by apply (store_set_flag s m u v false)]; done|].
  simpl. by rewrite fn_lookup_insert.
Qed.

Lemma writes_release_again u todo v held :
  v ∉ held → writes (flag_key u v) "0" (Release u todo held) (Release u todo held).
Proof.
  intros Hv. apply writes_again. intros s m [HI Hs] Hq. apply store_flag_down; [done|].
  apply not_true_iff_false. rewrite (inv_flag _ _ _ _ HI).
  pose proof (inv_clients _ _ _ _ HI i) as Hc. rewrite Hq in Hc.
  rewrite (ok_stage _ _ _ _ _ _ Hc u v eq_refl). unfold stage_of. simpl.
  rewrite decide_False by done. by intros [].
Qed.

Lemma wp_sync_release_locks u todo held :
  NoDup held →
  wp (ClientSync.release_locks num_of_replicas timeout (lock_of u <$> held))
    (Release u todo held) (λ _ q, q = Release u todo []).
Proof using Hacks.
  intros Hnd. eapply wp_mono.
  - apply (wp_for_each _ _ _ _ _ _ _ (λ ls _ q,
      ∃ h, ls = lock_of u <$> h ∧ NoDup h ∧ q = Release u todo h)); [by exists held|].
    intros l ls _ q (h & Hls & Hh & ->). destruct h as [|v h]; [done|].
    injection Hls as -> ->. apply NoDup_cons in Hh as [Hv Hh]. apply wp_bind.
    eapply wp_mono;
      [apply wp_write_with_wait; [apply writes_release|by apply writes_release_again]|].
    intros _ q ->. by exists h.
  - intros _ q (h & Hls & _ & ->). by destruct h.
Qed.

(** ** Reading the neighbours *)

Definition sync_reading (u : Z) (todo : list Z) (l : list string)
    (acc : list ClientSync.ClientGraphPetersonLock * list Z) (q : apc) : Prop :=
  ∃ passed held rest,
    q = Scan u todo passed held rest QStatus ∧
    adj u = passed.*1 ++ rest ∧
    l = (pretty <$> rest) ∧ acc.2 = passed.*2 ∧ acc.1 = (lock_of u <$> held) ∧
    held `sublist_of` passed.*1.

Lemma sync_reading_next u todo passed held v rest c (locked : bool) :
  adj u = passed.*1 ++ v :: rest → held `sublist_of` passed.*1 →
  sync_reading u todo (pretty <$> rest)
    (lock_of u <$> (if locked then held ++ [v] else held), passed.*2 ++ [c])
    (seen u todo passed held v rest c locked).
Proof.
  intros Hadj Hsub. exists (passed ++ [(v, c)]), (if locked then held ++ [v] else held), rest.
  rewrite !fmap_app. simpl. rewrite <- app_assoc. simpl. repeat split; try done.
  destruct locked; [by apply sublist_app|by apply sublist_inserts_r].
Qed.

Lemma wp_sync_read_one_neighbor u todo nbr l acc q :
  owns first last i u → 0 ≤ u < N → sync_reading u todo (nbr :: l) acc q →
  wp (ClientSync.read_one_neighbor num_of_replicas timeout (node_key u) (first i) (last i)
        nbr acc) q (sync_reading u todo l).
Proof using G Hacks.
  intros Hown Hu (passed & held & rest & -> & Hadj & Hl & Hcs & Hlocks & Hsub).
  destruct rest as [|v rest]; [done|]. injection Hl as -> ->.
  destruct acc as [locks cs]. simpl in Hcs, Hlocks. subst cs locks.
  assert (0 ≤ v < N) as Hv by (apply (g_range N adj G u); rewrite Hadj; set_solver).
  unfold ClientSync.read_one_neighbor, ClientSync.get_node_id,
    ClientSync.extract_number_from_string.
  rewrite atoi_pretty, node_id_of_key by eauto with colour.
  rewrite number_of_key, foreign_owns. apply wp_bind.
  case_bool_decide as Ho; simpl negb; cbn match.
  - apply wp_bind. eapply wp_mono; [by eapply wp_get_color_own|]. intros c q ->.
    by apply (sync_reading_next _ _ _ _ _ _ _ false).
  - apply wp_bind. eapply wp_mono; [by eapply wp_get_status|]. intros z q ->.
    destruct (z =? 0); cbn [deref pbind].
    + rewrite make_lock_keys by eauto with colour. apply wp_bind.
      eapply wp_mono; [by eapply wp_sync_acquire_lock, g_shape|]. intros _ q ->.
      apply wp_bind. eapply wp_mono; [by eapply wp_get_color|]. intros c q ->.
      pose proof (sync_reading_next u todo passed held v rest c true Hadj Hsub) as H.
      cbn match in H. by rewrite (fmap_app (lock_of u)) in H.
    + apply wp_bind. eapply wp_mono; [by eapply wp_get_color|]. intros c q ->.
      by apply (sync_reading_next _ _ _ _ _ _ _ false).
Qed.

(** ** One node, the range, the program *)

Context (calloc_ok : Z → bool).

Hypothesis Hcalloc : total E → ∀ z, 0 < z ≤ INT_MAX → calloc_ok z = true.

Lemma wp_sync_minimal_color u (passed : list (Z * Z)) q (Q : Z → apc → Prop) :
  adj u = passed.*1 →
  (∀ c, 0 ≤ c ≤ degree adj u → c ∉ passed.*2 → Q c q) →
  wp (Client1.minimal_color (Sync.getMinimalValueNotInArray calloc_ok 2 passed.*2
        (Z.of_nat (length passed.*2)) 0 1000)) q Q.
Proof using G Hcalloc.
  intros Hadj HQ. pose proof (degree_bound N adj G u) as Hd.
  assert (length passed.*2 = length (adj u)) as Hlen by (by rewrite Hadj, !length_fmap).
  pose proof (g_small N adj G) as HN. unfold degree in Hd.
  pose proof (λ calloc_ok H, sync_rounds calloc_ok passed.*2 0 1000 ltac:(lia)
    ltac:(rewrite Hlen; ints) H 0) as Hrounds.
  destruct (Sync.getMinimalValueNotInArray _ _ _ _ _ _) as [[f|c]|] eqn:Hmin; simpl.
  - intros Ht. destruct (Hrounds _ (Hcalloc Ht)) as (r & Hr & _). congruence.
  - apply sync_alloc in Hmin. destruct (Hrounds (λ _, true)) as (r & Hr & Hf); [done|].
    assert (r = c) as <- by congruence. pose proof (least_free_bound _ _ _ Hf) as Hb.
    destruct Hf as (? & ? & _). apply HQ; [|done]. unfold degree. lia.
  - intros Ht. destruct (Hrounds _ (Hcalloc Ht)) as (r & Hr & _). congruence.
Qed.

Lemma wp_sync_process_node u todo q :
  owns first last i u → 0 ≤ u < N → between (u :: todo) q →
  wp (ClientSync.process_node calloc_ok num_of_replicas timeout (node_key u)
        (first i) (last i)) q (λ _, between todo).
Proof using G Hacks Hcalloc.
  intros Ho Hu Hq. unfold ClientSync.process_node. apply wp_bind.
  eapply wp_mono; [by eapply wp_get_all_neighbours|]. intros nbrs q' [-> Hsort].
  apply wp_bind. eapply wp_mono; [by eapply wp_check_boundary_node|]. intros _ q' ->.
  unfold ClientSync.sort_neighbours. rewrite Hsort. apply wp_bind. eapply wp_mono.
  { eapply (wp_for_each _ _ _ _ _ _ _ (sync_reading u todo)).
    - by exists [], [], (adj u).
    - intros. by apply wp_sync_read_one_neighbor. }
  intros [la cs] q' (passed & held & rest & -> & Hadj & Hrest & Hcs & Hla & Hsub).
  destruct rest; [|done]. rewrite app_nil_r in Hadj. simpl in Hcs, Hla. subst cs la.
  apply wp_bind, (wp_sync_minimal_color u); [done|]. intros c Hc Hfree.
  apply wp_bind. eapply wp_mono; [by eapply wp_sync_set_node_color|]. intros _ q' ->.
  eapply wp_mono; [apply wp_sync_release_locks|].
  - eapply sublist_NoDup; [|done]. rewrite <- Hadj. by eauto with colour.
  - intros _ q' ->. right. eauto.
Qed.

Lemma wp_sync_process_range q :
  (total E → 0 ≤ first i ∧ last i < N) →
  between (seqZ (first i) (last i - first i + 1)) q →
  wp (ClientSync.process_range calloc_ok num_of_replicas timeout (node_keys N)
        (first i) (last i)) q (λ _, between []).
Proof using G Hacks Hcalloc.
  intros Ht. apply (wp_range N adj first last E i
    (λ key, ClientSync.process_node calloc_ok num_of_replicas timeout key (first i) (last i)));
    [done|].
  apply wp_sync_process_node.
Qed.
End refine.

Section main.
Context (N : Z) (adj : Z → list Z) (first last : nat → Z) (G : graph_ok N adj).
Context (E : environment) (i : nat) (calloc_ok : Z → bool) (argv : list string).
Hypothesis Hacks : total E →
  ∃ n, argv !! 6%nat = Some n ∧ wait_ok n "10000" ∧
    ∀ ack, enough E ack → atoi n ≤ wrap_s 32 ack.
Hypothesis Hcalloc : total E → ∀ z, 0 < z ≤ INT_MAX → calloc_ok z = true.

Lemma wp_sync_main :
  range_of argv (first i) (last i) →
  (total E → runnable N argv (first i) (last i)) →
  wp N adj first last E i (ClientSync.main calloc_ok argv)
    (Idle (seqZ (first i) (last i - first i + 1)))
    (λ code q, (code = 0 → between [] q) ∧ (total E → code = 0)).
Proof using G Hacks Hcalloc.
  intros (a & b & Ha & Hb & Hf & Hl) Ht. unfold runnable in Ht. unfold ClientSync.main.
  destruct (Nat.ltb_spec (length argv) 5); [split; [done|]; intros ?%Ht; lia|].
  rewrite Ha, Hb. cbn [deref pbind]. rewrite Hf, Hl.
  destruct (Z.ltb_spec (last i) (first i)); [split; [done|]; intros ?%Ht; lia|].
  intros [] Hconn; [|split; [done|]; intros ?%Hconn; done..].
  apply wp_bind. eapply wp_mono; [by eapply wp_fetch_keys|]. intros o q [-> ->].
  destruct (node_keys N) as [|k ks] eqn:Hk.
  { split; [done|]. intros ?%Ht. unfold node_keys in Hk. apply fmap_nil_inv in Hk.
    apply (f_equal length) in Hk. rewrite length_seqZ in Hk. simpl in Hk. lia. }
  rewrite <- Hk. apply wp_bind.
  eapply wp_mono; [apply wp_sync_process_range; auto; [intros ?%Ht; lia|by left]|].
  intros ? q Hq. intros c Hc.
  apply wp_bind, wp_deref; [intros ?%Ht; apply lookup_lt_is_Some_2; lia|]. intros host _.
  intros []; [|simpl; auto]. destruct c; simpl; auto. intros H1%Hc. done.
Qed.
End main.
