(* ===== verification/Colouring.v ===== *)
(** * The distributed colouring is proper

    The end-to-end theorems on the two client programs: any number of clients
    with disjoint ranges, interleaved command by command, on any server that
    keeps the contract [KVServer], with connections that may fail at any
    moment. *)

From S2P Require Import Prelude CLib Hiredis Program MinColor Client1 Protocol Keys.
From S2P Require Import ServerSpec Simulation ClientWp Refine1 RefineSync.
From S2P Require ClientSync.

Open Scope prog_scope.

(** ** Setting *)

(** Client [i] is given the nodes [first .. last] of the [i]-th range. *)
Definition first_of (ranges : list (Z * Z)) (i : nat) : Z := (default (1, 0) (ranges !! i)).1.
Definition last_of (ranges : list (Z * Z)) (i : nat) : Z := (default (1, 0) (ranges !! i)).2.

Definition disjoint_ranges (ranges : list (Z * Z)) : Prop :=
  ∀ i j a b u, ranges !! i = Some a → ranges !! j = Some b →
    a.1 ≤ u ≤ a.2 → b.1 ≤ u ≤ b.2 → i = j.

(** A server that holds the graph and nothing else of the protocol but,
    perhaps, the colour 0 that [add_graph] gives to the nodes. *)
Record fresh_store (N : Z) (adj : Z → list Z) (m : gmap string aval) : Prop := {
  fs_flag u v : m !! flag_key u v = None;
  fs_turn u v : m !! turn_key u v = None;
  fs_color u : m !! color_key u = None ∨ m !! color_key u = Some (AStr "0");
  fs_status u : m !! status_key u = None;
  fs_nbrs u : 0 ≤ u < N →
    m !! neighbours_key u = Some (ASet (list_to_set (pretty <$> adj u)));
  fs_keys k : is_nodes_key k → is_Some (m !! k) → ∃ u, 0 ≤ u < N ∧ k = neighbours_key u;
}.

(** A node has been coloured when its status is set, and already when its
    colour is not the one the store [m0] had at the start. *)
Definition coloured (m0 m : gmap string aval) (u : Z) : Prop :=
  m !! status_key u = Some (AStr "1") ∨ m !! color_key u ≠ m0 !! color_key u.

(** The stored colours: adjacent coloured nodes differ, and no colour exceeds
    the degree of its node; the graph is what it was. *)
Record proper_store (adj : Z → list Z) (m0 m : gmap string aval) : Prop := {
  ps_proper u v x y : v ∈ adj u → coloured m0 m u → coloured m0 m v →
    m !! color_key u = Some x → m !! color_key v = Some y → x ≠ y;
  ps_small u x : m !! color_key u = Some x →
    ∃ c, x = AStr (pretty c) ∧ 0 ≤ c ≤ degree adj u;
  ps_graph k : is_nodes_key k → m !! k = m0 !! k;
}.

Definition all_coloured (r : Z * Z) (m : gmap string aval) : Prop :=
  ∀ u, r.1 ≤ u ≤ r.2 →
    m !! status_key u = Some (AStr "1") ∧ is_Some (m !! color_key u).

(** ** From the protocol to the store *)

(** What a reader makes of the colours of the first store. *)
Definition colr0 (m : gmap string aval) (u : Z) : Z :=
  match m !! color_key u with None => -1 | Some _ => 0 end.

Definition astate0 (m : gmap string aval) (ranges : list (Z * Z)) : astate :=
  mkA (λ _, false) (λ _, None) (colr0 m) (λ _, false) (λ _, Out) (λ _, false)
    (λ i, Idle (seqZ (first_of ranges i) (last_of ranges i - first_of ranges i + 1))).

Lemma astate0_store N adj ranges m :
  fresh_store N adj m → store_rel N adj (astate0 m ranges) m.
Proof.
  intros []. split; simpl; auto; unfold colr0.
  - intros u v. by rewrite fs_flag0.
  - intros u. by destruct (fs_color0 u) as [->| ->].
  - intros u. case_match; auto.
Qed.

Lemma coloured_fin N adj first last ranges s m0 m u :
  fresh_store N adj m0 → rtc (any_step adj first last) (astate0 m0 ranges) s →
  related N adj first last s m → coloured m0 m u → fin s u = true.
Proof.
  intros H0 Hsteps [HI Hs] [Hc|Hc].
  - rewrite (sr_stat _ _ _ _ Hs) in Hc. destruct (stat s u) eqn:Hst; [|done].
    by apply (inv_stat _ _ _ _ HI).
  - destruct (fin s u) eqn:Hu; [done|]. destruct Hc.
    apply (untouched_steps _ _ _ _ _ _ Hsteps) in Hu as [_ Hu].
    rewrite (sr_color _ _ _ _ Hs), Hu.
    by rewrite (sr_color _ _ _ _ (astate0_store N adj ranges m0 H0)).
Qed.

Lemma color_val_inj c d x : color_val c = Some x → color_val d = Some x → c = d.
Proof. unfold color_val. repeat case_match; naive_solver. Qed.

Lemma store_graph N adj s m0 m k : fresh_store N adj m0 → store_rel N adj s m → is_nodes_key k → m !! k = m0 !! k.
Proof.
  intros H0 Hs Hk. apply option_eq. intros x. split; intros Hx.
  - destruct (sr_keys _ _ _ _ Hs k Hk) as (u & Hu & ->); [by rewrite Hx|].
    rewrite (fs_nbrs _ _ _ H0) by done. by rewrite (sr_nbrs _ _ _ _ Hs) in Hx.
  - destruct (fs_keys _ _ _ H0 k Hk) as (u & Hu & ->); [by rewrite Hx|].
    rewrite (sr_nbrs _ _ _ _ Hs) by done. by rewrite (fs_nbrs _ _ _ H0) in Hx.
Qed.

Lemma store_proper N adj first last ranges s m0 m :
  fresh_store N adj m0 → rtc (any_step adj first last) (astate0 m0 ranges) s →
  related N adj first last s m → proper_store adj m0 m.
Proof.
  intros H0 Hsteps Hr. pose proof Hr as [HI Hs]. split.
  - intros u v x y Hv Hu Hw. rewrite !(sr_color _ _ _ _ Hs). intros Hx Hy <-.
    eapply (inv_proper _ _ _ _ HI u v); eauto using coloured_fin, color_val_inj.
  - intros u x. rewrite (sr_color _ _ _ _ Hs). pose proof (sr_bound _ _ _ _ Hs u) as Hb.
    unfold color_val. case_match; [done|]. intros [= <-]. exists (colr s u). reflect_bools.
    destruct (fin s u); simpl in Hb; [done|]. split; [done|]. unfold degree. lia.
  - intros k. by eapply store_graph.
Qed.

Section ranges.
Context (N : Z) (adj : Z → list Z) (ranges : list (Z * Z)).
Hypothesis G : graph_ok N adj.
Hypothesis Hdisj : disjoint_ranges ranges.

Local Abbreviation first := (first_of ranges).
Local Abbreviation last := (last_of ranges).

Lemma owns_lookup i u : owns first last i u → ∃ r, ranges !! i = Some r ∧ r.1 ≤ u ≤ r.2.
Proof.
  unfold owns, first_of, last_of. destruct (ranges !! i) as [r|]; simpl; [eauto|lia].
Qed.

Lemma ranges_owns i j u : owns first last i u → owns first last j u → i = j.
Proof using Hdisj.
  intros (a & Ha & Hu)%owns_lookup (b & Hb & Hu')%owns_lookup. by eapply Hdisj.
Qed.

Lemma astate0_inv m : Inv adj first last (astate0 m ranges).
Proof.
  apply inv_initial. split; simpl; try done.
  intros i. eexists. split; [done|]. split; [apply NoDup_seqZ|].
  apply Forall_seqZ. unfold owns. lia.
Qed.

Definition range_list (i : nat) : list Z := seqZ (first i) (last i - first i + 1).

Lemma astate0_covered m : covered range_list (astate0 m ranges).
Proof. intros i u Hu. by left. Qed.

(** A client with nothing left to do has coloured its range. *)
Lemma covered_coloured s m i r :
  related N adj first last s m → covered range_list s → ranges !! i = Some r →
  between [] (pcs s i) → all_coloured r m.
Proof.
  intros [HI Hs] Hcov Hi Hq u Hu.
  assert (u ∈ range_list i) as Hin.
  { unfold range_list, first_of, last_of. rewrite Hi. simpl. apply elem_of_seqZ. lia. }
  assert (stat s u = true) as Hst.
  { destruct Hq as [Hq|[w Hq]]; destruct (Hcov i u Hin) as [H|[[H1 H2]|H]];
      rewrite ?Hq in *; simpl in *; try congruence; set_solver. }
  pose proof (sr_bound _ _ _ _ Hs u) as Hb. rewrite (inv_stat _ _ _ _ HI u Hst) in Hb.
  rewrite (sr_stat _ _ _ _ Hs), Hst, (sr_color _ _ _ _ Hs), color_val_written by apply Hb.
  done.
Qed.

Context {St : Type} `{!Server St, !KVServer St}.

(** Clients that follow the protocol produce a proper colouring, and those
    that end well have coloured their range. *)
Lemma colouring_sound (st : St) ps c :
  good st → fresh_store N adj (kv st) →
  (∀ i p, ps !! i = Some p →
     wp N adj first last any_env i p (Idle (range_list i))
       (λ code q, code = 0 → between [] q)) →
  reachable st ps c →
  (proper_store adj (kv st) (kv c.1) ∧
   ∀ i r, ranges !! i = Some r → c.2 !! i = Some (Ret 0, true) → all_coloured r (kv c.1)) ∧ good c.1.
Proof using G Hdisj.
  intros Hg Hf Hwp Hc.
  destruct (wp_sound N adj first last (g_shape N adj G) ranges_owns
    (λ _ code q, code = 0 → between [] q) (astate0 (kv st) ranges) st ps c)
    as (s & Hsteps & Hg' & Hr & Hcl); auto.
  { split; [apply astate0_inv|by apply astate0_store]. }
  split; [|done]. split; [by eapply store_proper|].
  intros i r Hi Hret. eapply covered_coloured; eauto.
  - by eapply covered_steps; [|apply astate0_covered].
  - by apply (Hcl i _ Hret).
Qed.
End ranges.

(** ** The systems of clients *)

(** One process of each program per argument vector. *)
Definition clients1 (calloc_ok : nat → Z → bool)
    (uninit : nat → string → nat → ClientGraphPetersonLock)
    (argvs : list (list string)) : list (prog Z) :=
  imap (λ i argv, main (calloc_ok i) (uninit i) argv) argvs.

Definition clients_sync (calloc_ok : nat → Z → bool) (argvs : list (list string)) :
    list (prog Z) :=
  imap (λ i argv, ClientSync.main (calloc_ok i) argv) argvs.

(** The arguments give the ranges. *)
Definition ranges_of (argvs : list (list string)) (ranges : list (Z * Z)) : Prop :=
  Forall2 (λ argv r, range_of argv r.1 r.2) argvs ranges.

Lemma ranges_of_lookup argvs ranges i argv :
  ranges_of argvs ranges → argvs !! i = Some argv →
  range_of argv (first_of ranges i) (last_of ranges i).
Proof.
  intros H Hi. eapply Forall2_lookup_l in H as (r & Hr & H); [|done].
  unfold first_of, last_of. by rewrite Hr.
Qed.

(** What the uninitialised entries of the lock arrays may hold. *)
Definition uninit_harmless (ranges : list (Z * Z))
    (uninit : nat → string → nat → ClientGraphPetersonLock) : Prop :=
  ∀ i u j, owns (first_of ranges) (last_of ranges) i u →
    harmless (first_of ranges) (last_of ranges) i u (uninit i (node_key u) j).

Section systems.
Context {St : Type} `{!Server St, !KVServer St}.
Context (N : Z) (adj : Z → list Z) (ranges : list (Z * Z)) (argvs : list (list string)).
Context (G : graph_ok N adj) (Hdisj : disjoint_ranges ranges) (Hargs : ranges_of argvs ranges).
Context (calloc_ok : nat → Z → bool).
Context (st : St) (Hgood : good st) (Hfresh : fresh_store N adj (kv st)).

Lemma system1_sound uninit c :
  uninit_harmless ranges uninit →
  reachable st (clients1 calloc_ok uninit argvs) c →
  (proper_store adj (kv st) (kv c.1) ∧
   ∀ i r, ranges !! i = Some r → c.2 !! i = Some (Ret 0, true) → all_coloured r (kv c.1)) ∧ good c.1.
Proof using G Hdisj Hargs Hgood Hfresh.
  intros Hu Hc. eapply (colouring_sound N adj ranges); try done.
  intros i p Hp. unfold clients1 in Hp. rewrite list_lookup_imap in Hp.
  apply fmap_Some in Hp as (argv & Hargv & ->).
  eapply wp_mono; [apply wp_main; try done; [by apply Hu|by eapply ranges_of_lookup]|].
  by intros ? ? [? _].
Qed.

Lemma system_sync_sound c :
  reachable st (clients_sync calloc_ok argvs) c →
  (proper_store adj (kv st) (kv c.1) ∧
   ∀ i r, ranges !! i = Some r → c.2 !! i = Some (Ret 0, true) → all_coloured r (kv c.1)) ∧ good c.1.
Proof using G Hdisj Hargs Hgood Hfresh.
  intros Hc. eapply (colouring_sound N adj ranges); try done.
  intros i p Hp. unfold clients_sync in Hp. rewrite list_lookup_imap in Hp.
  apply fmap_Some in Hp as (argv & Hargv & ->).
  eapply wp_mono; [apply wp_sync_main; try done; by eapply ranges_of_lookup|].
  by intros ? ? [? _].
Qed.
End systems.

(** ** A server loaded with a graph *)

Definition graph_map (N : Z) (adj : Z → list Z) : gmap string aval :=
  list_to_map ((λ u, (neighbours_key u, ASet (list_to_set (pretty <$> adj u)))) <$> seqZ 0 N).

Lemma graph_map_None N adj k :
  (∀ u, k ≠ neighbours_key u) → graph_map N adj !! k = None.
Proof.
  intros Hk. apply not_elem_of_list_to_map_1. rewrite <- list_fmap_compose.
  intros (u & -> & _)%list_elem_of_fmap. by destruct (Hk u).
Qed.

Lemma graph_map_fresh N adj : fresh_store N adj (graph_map N adj).
Proof.
  split; try (intros; try left; apply graph_map_None; intros; distinct_keys).
  - intros u Hu. apply elem_of_list_to_map_1.
    + rewrite <- list_fmap_compose. apply NoDup_fmap_2; [|apply NoDup_seqZ].
      intros x y. apply (inj neighbours_key).
    + apply list_elem_of_fmap. exists u. by rewrite elem_of_seqZ.
  - intros k Hk [x Hx]. apply elem_of_list_to_map_2 in Hx.
    apply list_elem_of_fmap in Hx as (u & [= -> _] & Hu%elem_of_seqZ).
    exists u. split; [lia|done].
Qed.

(** *** An instance: a triangle and two clients *)

Definition triangle (u : Z) : list Z :=
  if u =? 0 then [1; 2] else if u =? 1 then [0; 2] else if u =? 2 then [0; 1] else [].

Definition triangle_ranges : list (Z * Z) := [(0, 1); (2, 2)].
Definition triangle_args : list (list string) :=
  [["color"; "0"; "1"; "server"; "6379"; "host1"; "1"];
   ["color"; "2"; "2"; "server"; "6379"; "host2"; "1"]].

Lemma triangle_cases (P : Z → Z → Prop) :
  P 0 1 → P 0 2 → P 1 0 → P 1 2 → P 2 0 → P 2 1 → ∀ u v, v ∈ triangle u → P u v.
Proof.
  intros ?????? u v. unfold triangle. intros Hv.
  destruct (Z.eqb_spec u 0) as [->|]; [|destruct (Z.eqb_spec u 1) as [->|];
    [|destruct (Z.eqb_spec u 2) as [->|]]];
    repeat (apply elem_of_cons in Hv as [->|Hv]; [done|]); by apply elem_of_nil in Hv.
Qed.

Lemma triangle_ok : graph_ok 3 triangle.
Proof.
  split; [split|lia|].
  - apply triangle_cases; set_solver.
  - intros u Hu. by eapply (triangle_cases (λ u v, u ≠ v)).
  - intros u. unfold triangle. repeat case_match; repeat constructor.
  - apply (triangle_cases (λ u v, 0 ≤ v < 3)); lia.
Qed.

Lemma triangle_disjoint : disjoint_ranges triangle_ranges.
Proof.
  intros [|[|i]] [|[|j]] a b u Ha Hb ??; simplify_eq/=; try done; lia.
Qed.

Lemma triangle_args_ok : ranges_of triangle_args triangle_ranges.
Proof. repeat constructor; by repeat eexists. Qed.

(** Entries that name the empty key. *)
Definition blank_lock (_ : nat) (_ : string) (_ : nat) : ClientGraphPetersonLock :=
  {| lock_key_1 := ""; lock_key_2 := ""; Client1.turn_key := ""; node_name := "" |}.

Lemma blank_harmless ranges : uninit_harmless ranges blank_lock.
Proof. intros i u j _. left. by split; try done; intros [x Hx]. Qed.

(** The clients take turns, command by command. *)
Definition alternate (n : nat) : list nat := concat (replicate n [0%nat; 1%nat]).

Definition triangle_start (ps : list (prog Z)) : @system (gmap string aval) :=
  (graph_map 3 triangle, (λ p, (p, true)) <$> ps).

Definition triangle_end (ps : list (prog Z)) : @system (gmap string aval) :=
  default (triangle_start ps) (exec 1 None (alternate 200) (triangle_start ps)).

Lemma triangle_end_reachable ps : reachable (graph_map 3 triangle) ps (triangle_end ps).
Proof. apply exec_default. Qed.

(** ** Properties *)

(** C1: for any number of 1-server clients with disjoint ranges of nodes,
    started on a server that holds the graph, in every state that any
    interleaving of their commands reaches, whatever connections fail on the
    way, no two adjacent nodes that have been coloured have the same colour
    and no stored colour exceeds the degree of its node.  The nodes may start
    without a colour or with the colour 0. *)
Theorem server1_colouring_proper {St} `{!Server St, !KVServer St} N adj ranges argvs
    calloc_ok uninit (st : St) c
    (G : graph_ok N adj) (Hdisj : disjoint_ranges ranges) (Hargs : ranges_of argvs ranges)
    (Huninit : uninit_harmless ranges uninit)
    (Hgood : good st) (Hfresh : fresh_store N adj (kv st))
    (Hc : reachable st (clients1 calloc_ok uninit argvs) c) :
  proper_store adj (kv st) (kv c.1).
Proof. by eapply system1_sound. Qed.

Lemma server1_colouring_proper_witness :
  let c := triangle_end (clients1 (λ _ _, true) blank_lock triangle_args) in
  proper_store triangle (kv (graph_map 3 triangle)) (kv c.1) ∧
  kv c.1 !! color_key 0 = Some (AStr "1") ∧ kv c.1 !! color_key 1 = Some (AStr "2") ∧
  kv c.1 !! color_key 2 = Some (AStr "0").
Proof.
  split; [|vm_compute; repeat split].
  apply (server1_colouring_proper 3 triangle triangle_ranges triangle_args (λ _ _, true)
    blank_lock (graph_map 3 triangle)); [apply triangle_ok|apply triangle_disjoint
    |apply triangle_args_ok|apply blank_harmless|done|apply graph_map_fresh
    |apply triangle_end_reachable].
Defined.

(** C2: the same of the clients that wait for replicas, which need no
    assumption on uninitialised memory. *)
Theorem sync_colouring_proper {St} `{!Server St, !KVServer St} N adj ranges argvs
    calloc_ok (st : St) c
    (G : graph_ok N adj) (Hdisj : disjoint_ranges ranges) (Hargs : ranges_of argvs ranges)
    (Hgood : good st) (Hfresh : fresh_store N adj (kv st))
    (Hc : reachable st (clients_sync calloc_ok argvs) c) :
  proper_store adj (kv st) (kv c.1).
Proof. by eapply system_sync_sound. Qed.

Lemma sync_colouring_proper_witness :
  let c := triangle_end (clients_sync (λ _ _, true) triangle_args) in
  proper_store triangle (kv (graph_map 3 triangle)) (kv c.1) ∧
  kv c.1 !! color_key 0 = Some (AStr "1") ∧ kv c.1 !! color_key 1 = Some (AStr "2") ∧
  kv c.1 !! color_key 2 = Some (AStr "0").
Proof.
  split; [|vm_compute; repeat split].
  apply (sync_colouring_proper 3 triangle triangle_ranges triangle_args (λ _ _, true)
    (graph_map 3 triangle)); [apply triangle_ok|apply triangle_disjoint
    |apply triangle_args_ok|done|apply graph_map_fresh|apply triangle_end_reachable].
Defined.

(** When a 1-server client has returned 0 on a working connection, every
    node of its range is marked and has a stored colour; with the properness of the stored
    colours, clients that cover the graph and all return 0 have coloured it. *)
Theorem server1_colouring_complete {St} `{!Server St, !KVServer St} N adj ranges argvs
    calloc_ok uninit (st : St) c i r
    (G : graph_ok N adj) (Hdisj : disjoint_ranges ranges) (Hargs : ranges_of argvs ranges)
    (Huninit : uninit_harmless ranges uninit)
    (Hgood : good st) (Hfresh : fresh_store N adj (kv st))
    (Hc : reachable st (clients1 calloc_ok uninit argvs) c)
    (Hi : ranges !! i = Some r) (Hret : c.2 !! i = Some (Ret 0, true)) :
  all_coloured r (kv c.1).
Proof. by eapply system1_sound. Qed.

Lemma server1_colouring_complete_witness :
  let c := triangle_end (clients1 (λ _ _, true) blank_lock triangle_args) in
  all_coloured (0, 1) (kv c.1).
Proof.
  apply (server1_colouring_complete 3 triangle triangle_ranges triangle_args (λ _ _, true)
    blank_lock (graph_map 3 triangle) _ 0); [apply triangle_ok|apply triangle_disjoint
    |apply triangle_args_ok|apply blank_harmless|done|apply graph_map_fresh
    |apply triangle_end_reachable|reflexivity|vm_compute; reflexivity].
Defined.

(** The same of the clients that wait for replicas. *)
Theorem sync_colouring_complete {St} `{!Server St, !KVServer St} N adj ranges argvs
    calloc_ok (st : St) c i r
    (G : graph_ok N adj) (Hdisj : disjoint_ranges ranges) (Hargs : ranges_of argvs ranges)
    (Hgood : good st) (Hfresh : fresh_store N adj (kv st))
    (Hc : reachable st (clients_sync calloc_ok argvs) c)
    (Hi : ranges !! i = Some r) (Hret : c.2 !! i = Some (Ret 0, true)) :
  all_coloured r (kv c.1).
Proof. by eapply system_sync_sound. Qed.

Lemma sync_colouring_complete_witness :
  let c := triangle_end (clients_sync (λ _ _, true) triangle_args) in
  all_coloured (0, 1) (kv c.1).
Proof.
  apply (sync_colouring_complete 3 triangle triangle_ranges triangle_args (λ _ _, true)
    (graph_map 3 triangle) _ 0); [apply triangle_ok|apply triangle_disjoint
    |apply triangle_args_ok|done|apply graph_map_fresh
    |apply triangle_end_reachable|reflexivity|vm_compute; reflexivity].
Defined.
