(* ===== verification/Termination.v ===== *)
(** * The clients end

    A client that runs while no other client has a lock
    returns 0 and leaves its range coloured; so clients started one after the
    other colour the graph.  This is the functional correctness of [main] of
    both programs as a total function of the store. *)

From S2P Require Import Prelude CLib Hiredis Program MinColor Client1 Protocol Keys.
From S2P Require Import ServerSpec Simulation ClientWp Refine1 RefineSync Colouring.
From S2P Require ClientSync.

Open Scope prog_scope.

(** ** Running alone *)

(** A client that must end when [required] replicas acknowledge its writes. *)
Definition must_end (required : Z) : environment := {|
  total := True;
  enough := λ ack, required ≤ wrap_s 32 ack;
|}.

Lemma between_at_rest todo q : between todo q → at_rest q.
Proof. by intros [->|[w ->]]. Qed.

Section lone.
Context (adj : Z → list Z) (first last : nat → Z).
Hypothesis G : graph_shape adj.
Hypothesis owns_disjoint : ∀ i j u, owns first last i u → owns first last j u → i = j.

(** Clients that have no locks block nobody. *)
Lemma rest_not_blocked s i :
  Inv adj first last s → (∀ j, j ≠ i → at_rest (pcs s j)) → ¬ blocked s (pcs s i).
Proof using G owns_disjoint.
  intros HI Hrest Hb.
  destruct (blocked_by_later adj first last (g_sym adj G) (g_irrefl adj G)
    (λ u, g_nodup adj u G) owns_disjoint (g_sorted adj G) s i HI Hb) as (j & Hj & Hlt).
  destruct (decide (j = i)) as [->|Hji]; [|by apply Hj, Hrest].
  specialize (Hlt Hb). unfold lex_lt in Hlt. lia.
Qed.
End lone.

(** ** One client after the other *)

Section sequence.
Context {St : Type} `{!Server St}.

(** The first that does not return ends the sequence. *)
Fixpoint run_all (fuel : nat) (ack : Z) (clk : option string) (st : St) (ps : list (prog Z)) :
    option (St * list (outcome Z)) :=
  match ps with
  | [] => Some (st, [])
  | p :: ps =>
      '(st1, o) ← run fuel ack clk st p;
      '(st2, os) ← run_all fuel ack clk st1 ps;
      Some (st2, o :: os)
  end.

Lemma run_all_mono f g ack clk st ps r :
  run_all f ack clk st ps = Some r → (f ≤ g)%nat → run_all g ack clk st ps = Some r.
Proof.
  intros H Hle. revert st r H. induction ps as [|p ps IH]; intros st r H; simpl in *; [done|].
  apply bind_Some in H as ([st1 o] & H1 & H). apply bind_Some in H as ([st2 os] & H2 & H).
  rewrite (run_mono f g _ _ _ _ _ H1 Hle). simpl. by rewrite (IH _ _ H2).
Qed.
End sequence.

Section all.
Context (N : Z) (adj : Z → list Z) (ranges : list (Z * Z)).
Hypothesis G : graph_ok N adj.
Hypothesis Hdisj : disjoint_ranges ranges.
Context {St : Type} `{!Server St, !KVServer St}.
Context (required ack : Z) (Hack : required ≤ wrap_s 32 ack) (clk : option string).

Local Abbreviation first := (first_of ranges).
Local Abbreviation last := (last_of ranges).

Definition ends_well (code : Z) (q : apc) : Prop := code = 0 ∧ between [] q.

(** The clients before the [k]-th have ended, the others have not started. *)
Definition turn_of (k : nat) (s : astate) : Prop :=
  ∀ j, if decide (j < k)%nat then between [] (pcs s j) else pcs s j = Idle (range_list ranges j).

Lemma run_one k p s (st : St) :
  good st → related N adj first last s (kv st) → turn_of k s →
  wp N adj first last (must_end required) k p (Idle (range_list ranges k)) ends_well →
  ∃ fuel st' s', run fuel ack clk st p = Some (st', Returned 0) ∧ good st' ∧
    rtc (any_step adj first last) s s' ∧ related N adj first last s' (kv st') ∧ turn_of (S k) s'.
Proof using G Hdisj Hack.
  intros Hg Hr Hturn Hwp. pose proof (Hturn k) as Hk. rewrite decide_False in Hk by lia.
  destruct (client_settles N adj first last (g_shape N adj G) (ranges_owns ranges Hdisj) ack clk
    (must_end required) k p ends_well s st) as (n & st' & p' & s' & Hn & Hs' & Hf & Hend); [done|done| |].
  { split_and!; [done|done|]. by rewrite Hk. }
  assert (∀ j, j ≠ k → pcs s' j = pcs s j) as Hothers.
  { intros j Hj. by apply (asteps_others adj first last k j s s'). }
  destruct Hf as (Hg' & Hr' & Hp'). destruct Hend as [Hb|[a ->]].
  { exfalso. revert Hb. apply (rest_not_blocked adj first last (g_shape N adj G)
      (ranges_owns ranges Hdisj)); [apply Hr'|].
    intros j Hj. rewrite Hothers by done. specialize (Hturn j).
    case_decide; [by eapply between_at_rest|]. by rewrite Hturn. }
  destruct Hp' as [-> Hq']. exists (S n), st', s'. split; [by apply solo_run|]. split; [done|].
  split; [|split; [done|]].
  { clear -Hs'. induction Hs'; [done|]. eapply rtc_l; [|done]. by exists k. }
  intros j. destruct (decide (j = k)) as [->|Hjk]; [by rewrite decide_True by lia|].
  specialize (Hturn j). rewrite Hothers by done.
  repeat case_decide; try lia; done.
Qed.

Lemma run_rest k ps s (st : St) :
  good st → related N adj first last s (kv st) → turn_of k s →
  (∀ i p, ps !! i = Some p →
     wp N adj first last (must_end required) (k + i) p
       (Idle (range_list ranges (k + i))) ends_well) →
  ∃ fuel st' s', run_all fuel ack clk st ps = Some (st', replicate (length ps) (Returned 0)) ∧
    rtc (any_step adj first last) s s' ∧ related N adj first last s' (kv st') ∧
    turn_of (k + length ps) s'.
Proof using G Hdisj Hack.
  revert k s st. induction ps as [|p ps IH]; intros k s st Hg Hr Hturn Hwp.
  { exists O, st, s. rewrite Nat.add_0_r. done. }
  pose proof (Hwp 0%nat p eq_refl) as Hp. rewrite Nat.add_0_r in Hp.
  destruct (run_one k p s st Hg Hr Hturn Hp) as (f1 & st1 & s1 & H1 & Hg1 & Hs1 & Hr1 & Ht1).
  destruct (IH (S k) s1 st1 Hg1 Hr1 Ht1) as (f2 & st2 & s2 & H2 & Hs2 & Hr2 & Ht2).
  { intros i p' Hi. rewrite Nat.add_succ_comm. by apply Hwp. }
  exists (f1 + f2)%nat, st2, s2. split; [|split; [by etrans|split; [done|]]].
  - simpl. rewrite (run_mono f1 (f1 + f2) _ _ _ _ _ H1) by lia. simpl.
    by rewrite (run_all_mono f2 (f1 + f2) _ _ _ _ _ H2) by lia.
  - simpl. by rewrite <- Nat.add_succ_comm.
Qed.

Lemma colouring_ends (st : St) ps :
  good st → fresh_store N adj (kv st) → length ps = length ranges →
  (∀ i p, ps !! i = Some p →
     wp N adj first last (must_end required) i p (Idle (range_list ranges i)) ends_well) →
  ∃ fuel st', run_all fuel ack clk st ps = Some (st', replicate (length ps) (Returned 0)) ∧
    proper_store adj (kv st) (kv st') ∧ Forall (λ r, all_coloured r (kv st')) ranges.
Proof using G Hdisj Hack.
  intros Hg Hf Hlen Hwp.
  destruct (run_rest 0 ps (astate0 (kv st) ranges) st) as (fuel & st' & s & Hrun & Hs & Hr & Ht); auto.
  { split; [apply astate0_inv|by apply astate0_store]. }
  { intros j. by rewrite decide_False by lia. }
  exists fuel, st'. split; [done|]. split; [by eapply store_proper|].
  apply Forall_lookup. intros i r Hi. eapply covered_coloured; eauto.
  - by eapply covered_steps; [|apply astate0_covered].
  - specialize (Ht i). rewrite decide_True in Ht; [done|].
    apply lookup_lt_Some in Hi. simpl. lia.
Qed.
End all.

(** ** Properties *)

(** Every client has all its arguments and a range of the graph. *)
Definition all_runnable (N : Z) (argvs : list (list string)) (ranges : list (Z * Z)) : Prop :=
  Forall2 (λ argv r, runnable N argv r.1 r.2) argvs ranges.

Lemma all_runnable_lookup N argvs ranges i argv :
  all_runnable N argvs ranges → argvs !! i = Some argv →
  runnable N argv (first_of ranges i) (last_of ranges i).
Proof.
  intros H Hi. eapply Forall2_lookup_l in H as (r & Hr & H); [|done].
  unfold first_of, last_of. by rewrite Hr.
Qed.

Section must_end.
Context (N : Z) (adj : Z → list Z) (ranges : list (Z * Z)) (argvs : list (list string)).
Context (G : graph_ok N adj) (Hargs : ranges_of argvs ranges) (Hrun : all_runnable N argvs ranges).
Context (calloc_ok : nat → Z → bool).
Hypothesis Hcalloc : ∀ i z, 0 < z ≤ INT_MAX → calloc_ok i z = true.

Local Abbreviation first := (first_of ranges).
Local Abbreviation last := (last_of ranges).

Lemma clients1_must_end uninit required i p :
  uninit_harmless ranges uninit → clients1 calloc_ok uninit argvs !! i = Some p →
  wp N adj first last (must_end required) i p (Idle (range_list ranges i)) ends_well.
Proof using G Hargs Hrun Hcalloc.
  intros Hu Hp. unfold clients1 in Hp. rewrite list_lookup_imap in Hp.
  apply fmap_Some in Hp as (argv & Hargv & ->). eapply wp_mono.
  - apply wp_main; eauto using ranges_of_lookup, all_runnable_lookup.
  - intros code q [Hq Hcode]. specialize (Hcode I). split; auto.
Qed.

(** The replicas that every client asks for are there. *)
Definition replicas_there (required : Z) : Prop :=
  Forall (λ argv : list string, ∃ n,
    argv !! 6%nat = Some n ∧ wait_ok n "10000" ∧ atoi n ≤ required) argvs.

Lemma clients_sync_must_end required i p :
  replicas_there required → clients_sync calloc_ok argvs !! i = Some p →
  wp N adj first last (must_end required) i p (Idle (range_list ranges i)) ends_well.
Proof using G Hargs Hrun Hcalloc.
  intros Hrep Hp. unfold clients_sync in Hp. rewrite list_lookup_imap in Hp.
  apply fmap_Some in Hp as (argv & Hargv & ->).
  unfold replicas_there in Hrep. rewrite Forall_lookup in Hrep.
  destruct (Hrep i argv Hargv) as (n & Hn & Hok & Hle). eapply wp_mono.
  - apply wp_sync_main; eauto using ranges_of_lookup, all_runnable_lookup; simpl.
    intros _. exists n. split; [done|]. split; [done|]. intros ack' ?. by etrans.
  - intros code q [Hq Hcode]. specialize (Hcode I). split; auto.
Qed.
End must_end.

Section systems.
Context {St : Type} `{!Server St, !KVServer St}.
Context (N : Z) (adj : Z → list Z) (ranges : list (Z * Z)) (argvs : list (list string)).
Context (G : graph_ok N adj) (Hdisj : disjoint_ranges ranges) (Hargs : ranges_of argvs ranges).
Context (Hrun : all_runnable N argvs ranges) (calloc_ok : nat → Z → bool).
Hypothesis Hcalloc : ∀ i z, 0 < z ≤ INT_MAX → calloc_ok i z = true.
Context (st : St) (Hgood : good st) (Hfresh : fresh_store N adj (kv st)).
Context (ack : Z) (clk : option string).

Lemma system1_ends uninit : uninit_harmless ranges uninit →
  ∃ fuel st',
    run_all fuel ack clk st (clients1 calloc_ok uninit argvs) =
      Some (st', replicate (length argvs) (Returned 0)) ∧
    proper_store adj (kv st) (kv st') ∧ Forall (λ r, all_coloured r (kv st')) ranges.
Proof using G Hdisj Hargs Hrun Hcalloc Hgood Hfresh.
  intros Hu.
  destruct (colouring_ends N adj ranges G Hdisj (wrap_s 32 ack) ack (Z.le_refl _) clk st
    (clients1 calloc_ok uninit argvs)) as (fuel & st' & H); auto.
  - unfold clients1. rewrite length_imap. by eapply Forall2_length.
  - intros i p Hp. by eapply clients1_must_end.
  - exists fuel, st'. unfold clients1 in H. rewrite length_imap in H. done.
Qed.

Lemma system_sync_ends : replicas_there argvs (wrap_s 32 ack) →
  ∃ fuel st',
    run_all fuel ack clk st (clients_sync calloc_ok argvs) =
      Some (st', replicate (length argvs) (Returned 0)) ∧
    proper_store adj (kv st) (kv st') ∧ Forall (λ r, all_coloured r (kv st')) ranges.
Proof using G Hdisj Hargs Hrun Hcalloc Hgood Hfresh.
  intros Hrep.
  destruct (colouring_ends N adj ranges G Hdisj (wrap_s 32 ack) ack (Z.le_refl _) clk st
    (clients_sync calloc_ok argvs)) as (fuel & st' & H); auto.
  - unfold clients_sync. rewrite length_imap. by eapply Forall2_length.
  - intros i p Hp. by eapply clients_sync_must_end.
  - exists fuel, st'. unfold clients_sync in H. rewrite length_imap in H. done.
Qed.
End systems.

(** C10: 1-server clients with disjoint ranges, run one after the other on a
    server that holds the graph, all return 0; at the end no two adjacent
    nodes have the same colour, no colour exceeds the degree of its node, and
    every node of every range is coloured.  In particular [main] neither
    blocks nor crashes when it runs alone. *)
Theorem server1_sequential_colouring {St} `{!Server St, !KVServer St} N adj ranges argvs
    calloc_ok uninit (st : St) ack clk
    (G : graph_ok N adj) (Hdisj : disjoint_ranges ranges) (Hargs : ranges_of argvs ranges)
    (Hrun : all_runnable N argvs ranges) (Huninit : uninit_harmless ranges uninit)
    (Hcalloc : ∀ i z, 0 < z ≤ INT_MAX → calloc_ok i z = true)
    (Hgood : good st) (Hfresh : fresh_store N adj (kv st)) :
  ∃ fuel st',
    run_all fuel ack clk st (clients1 calloc_ok uninit argvs) =
      Some (st', replicate (length argvs) (Returned 0)) ∧
    proper_store adj (kv st) (kv st') ∧ Forall (λ r, all_coloured r (kv st')) ranges.
Proof. by apply (system1_ends N adj ranges argvs). Qed.

Lemma server1_sequential_colouring_witness :
  ∃ fuel st',
    run_all fuel 0 None (graph_map 3 triangle) (clients1 (λ _ _, true) blank_lock triangle_args)
      = Some (st', [Returned 0; Returned 0]) ∧
    proper_store triangle (kv (graph_map 3 triangle)) (kv st') ∧ Forall (λ r, all_coloured r (kv st')) triangle_ranges.
Proof.
  apply (server1_sequential_colouring 3 triangle triangle_ranges triangle_args (λ _ _, true)
    blank_lock (graph_map 3 triangle) 0 None); [apply triangle_ok|apply triangle_disjoint
    |apply triangle_args_ok| |apply blank_harmless|done|done|apply graph_map_fresh].
  repeat constructor; simpl; lia.
Defined.

(** The same of the clients that wait for replicas, when the number of
    replicas each asks for is there. *)
Theorem sync_sequential_colouring {St} `{!Server St, !KVServer St} N adj ranges argvs
    calloc_ok (st : St) ack clk
    (G : graph_ok N adj) (Hdisj : disjoint_ranges ranges) (Hargs : ranges_of argvs ranges)
    (Hrun : all_runnable N argvs ranges)
    (Hreplicas : Forall (λ argv, ∃ n,
      argv !! 6%nat = Some n ∧ wait_ok n "10000" ∧ atoi n ≤ wrap_s 32 ack) argvs)
    (Hcalloc : ∀ i z, 0 < z ≤ INT_MAX → calloc_ok i z = true)
    (Hgood : good st) (Hfresh : fresh_store N adj (kv st)) :
  ∃ fuel st',
    run_all fuel ack clk st (clients_sync calloc_ok argvs) =
      Some (st', replicate (length argvs) (Returned 0)) ∧
    proper_store adj (kv st) (kv st') ∧ Forall (λ r, all_coloured r (kv st')) ranges.
Proof. by apply (system_sync_ends N adj ranges argvs). Qed.

Lemma sync_sequential_colouring_witness :
  ∃ fuel st',
    run_all fuel 2 None (graph_map 3 triangle) (clients_sync (λ _ _, true) triangle_args)
      = Some (st', [Returned 0; Returned 0]) ∧
    proper_store triangle (kv (graph_map 3 triangle)) (kv st') ∧ Forall (λ r, all_coloured r (kv st')) triangle_ranges.
Proof.
  apply (sync_sequential_colouring 3 triangle triangle_ranges triangle_args (λ _ _, true)
    (graph_map 3 triangle) 2 None); [apply triangle_ok|apply triangle_disjoint
    |apply triangle_args_ok| | |done|done|apply graph_map_fresh].
  - repeat constructor; simpl; lia.
  - repeat constructor; (exists "1"; split; [reflexivity|]; split;
      [split; [exists 1|exists 10000]; split; [reflexivity|lia|reflexivity|lia]
      |vm_compute; discriminate]).
Defined.
