(* ===== verification/Progress.v ===== *)
(** * The clients never block each other for good

    However clients got where they are, on working connections and with any
    number of replicas acknowledging, they can go on until all of them have
    returned 0.  There is no deadlock, and no state from which the rest of the
    colouring is out of reach. *)

From S2P Require Import Prelude CLib Hiredis Program MinColor Client1 Protocol Keys.
From S2P Require Import ServerSpec Simulation ClientWp Refine1 RefineSync Colouring Termination.
From S2P Require ClientSync.

Open Scope prog_scope.

(** ** Steps on working connections *)

Section working.
Context {St : Type} `{!Server St}.

(** One step of a client whose connections work; the number of replicas that
    acknowledge may be another one each time. *)
Inductive wstep : St * prog Z → St * prog Z → Prop :=
| w_served ack st st' argv k r :
    serve ack st argv = (st', r) → wstep (st, Send CMain argv k) (st', k (Some r))
| w_monitor st argv k r : wstep (st, Send CMonitor argv k) (st, k r)
| w_connect st c k : wstep (st, Connect c k) (st, k Connected)
| w_clock st k o : wstep (st, Clock k) (st, k o)
| w_loop st T cond body s k :
    wstep (st, Loop T cond body s k) (st, unfold_loop cond body s k).

Inductive working_step : @system St → @system St → Prop :=
| working st st' cs i p p' :
    cs !! i = Some (p, true) → wstep (st, p) (st', p') →
    working_step (st, cs) (st', <[i := (p', true)]> cs).

(** They are steps of the system. *)
Lemma working_system c c' : working_step c c' → system_step c c'.
Proof.
  intros [st st' cs i p p' Hi Hw]. econstructor; [done|]. inversion Hw; subst; by econstructor.
Qed.

Lemma exec_app ack clk l1 l2 (c c1 : @system St) :
  exec ack clk l1 c = Some c1 → exec ack clk (l1 ++ l2) c = exec ack clk l2 c1.
Proof.
  revert c. induction l1 as [|i l1 IH]; intros c H; simpl in *; [by simplify_eq|].
  apply bind_Some in H as (c2 & -> & H). simpl. auto.
Qed.
End working.

(** ** Sums over the clients *)

Lemma sum_seq_lt (f g : nat → nat) l i :
  i ∈ l → (f i < g i)%nat → (∀ j, j ≠ i → f j = g j) →
  (sum_list (f <$> l) < sum_list (g <$> l))%nat.
Proof.
  intros Hi Hlt Heq.
  assert (∀ (h : nat → nat) j l, sum_list (h <$> j :: l) = (h j + sum_list (h <$> l))%nat)
    as Hcons by done.
  assert (∀ l, sum_list (f <$> l) ≤ sum_list (g <$> l))%nat as Hle.
  { clear l Hi. intros l. induction l as [|j l IH]; [done|]. rewrite !Hcons.
    destruct (decide (j = i)) as [->|Hj]; [|rewrite Heq by done]; lia. }
  induction l as [|j l IH]; [by apply not_elem_of_nil in Hi|]. rewrite !Hcons.
  apply elem_of_cons in Hi as [<-|Hi]; [specialize (Hle l); lia|]. specialize (IH Hi).
  destruct (decide (j = i)) as [->|Hj]; [|rewrite Heq by done]; lia.
Qed.

(** ** Progress *)

Section progress.
Context (N : Z) (adj : Z → list Z) (first last : nat → Z).
Hypothesis G : graph_shape adj.
Hypothesis owns_disjoint : ∀ i j u, owns first last i u → owns first last j u → i = j.
Context {St : Type} `{!Server St, !KVServer St}.
Context (required ack : Z) (Hack : required ≤ wrap_s 32 ack) (clk : option string).

Local Abbreviation E := (must_end required).
Local Abbreviation related := (related N adj first last).
Local Abbreviation follows := (follows N adj first last E).

(** Every client follows the protocol and will end well if nothing blocks it;
    there are no others. *)
Record live (s : astate) (c : @system St) : Prop := {
  live_good : good c.1;
  live_related : related s (kv c.1);
  live_client i cl : c.2 !! i = Some cl →
    cl.2 = true ∧ wp N adj first last E i cl.1 (pcs s i) ends_well;
  live_none i : c.2 !! i = None → at_rest (pcs s i);
}.

(** One client has moved on. *)
Lemma live_moved s s' st st' cs i p p' :
  live s (st, cs) → cs !! i = Some (p, true) → rtc (astep adj first last i) s s' →
  follows i p' ends_well s' st' → live s' (st', <[i := (p', true)]> cs).
Proof.
  intros [Hg Hr Hcl Hnone] Hi Hs (Hg' & Hr' & Hp'). simpl in *.
  assert (∀ j, j ≠ i → pcs s' j = pcs s j) as Hothers.
  { intros j Hj. by apply (asteps_others adj first last i j s s'). }
  split; simpl; [done|done| |].
  - intros j cl Hj. apply list_lookup_insert_Some in Hj as [(-> & <- & _)|[Hij Hj]]; [done|].
    rewrite Hothers by done. auto.
  - intros j Hj. apply lookup_ge_None in Hj. rewrite length_insert in Hj. apply lookup_ge_None in Hj.
    rewrite Hothers; [auto|]. intros ->. discriminate (eq_trans (eq_sym Hj) Hi).
Qed.

Lemma live_follows s st cs i p : live s (st, cs) → cs !! i = Some (p, true) →
  follows i p ends_well s st.
Proof.
  intros [Hg Hr Hcl _] Hi. split_and!; [done|done|]. by apply (Hcl i (p, true)).
Qed.

Lemma live_step s c c' : live s c → working_step c c' →
  ∃ s', rtc (any_step adj first last) s s' ∧ live s' c'.
Proof using G owns_disjoint.
  intros Hl Hstep. destruct Hstep as [st st' cs i p p' Hi Hw].
  assert (∃ s', rtc (astep adj first last i) s s' ∧ follows i p' ends_well s' st')
    as (s' & Hs' & Hf').
  { pose proof (live_follows _ _ _ _ _ Hl Hi) as Hf. inversion Hw; subst.
    - destruct (follows_served N adj first last G owns_disjoint _ E i _ _ _ _ _ _ _ Hf H0)
        as (s' & ? & ? & _). eauto.
    - destruct Hf as (Hg & Hr & Hk). exists s. split; [done|]. by split_and!.
    - destruct Hf as (Hg & Hr & Hk). exists s. split; [done|]. split_and!; [done|done|by apply Hk].
    - destruct Hf as (Hg & Hr & Hk). exists s. split; [done|]. by split_and!.
    - destruct Hf as (Hg & Hr & I & HI & Hb). exists s. split; [done|]. split_and!; [done|done|].
      unfold unfold_loop. pose proof (Hb s0 _ HI) as Hs0. destruct (cond s0); [|done].
      apply wp_bind. eapply wp_mono; [apply Hs0|]. intros s1 q Hs1. by exists I. }
  exists s'. split; [|by eapply live_moved].
  clear -Hs'. induction Hs'; [done|]. eapply rtc_l; [|done]. by exists i.
Qed.

(** Run a client until it is blocked or has returned. *)
Lemma live_settles s st cs i p : live s (st, cs) → cs !! i = Some (p, true) →
  ∃ n st' p' s', exec ack clk (replicate n i) (st, cs) = Some (st', <[i := (p', true)]> cs) ∧
    rtc (astep adj first last i) s s' ∧ live s' (st', <[i := (p', true)]> cs) ∧
    (blocked s' (pcs s' i) ∨ ∃ a, p' = Ret a).
Proof using G owns_disjoint Hack.
  intros Hl Hi.
  destruct (client_settles N adj first last G owns_disjoint ack clk E i p ends_well s st)
    as (n & st' & p' & s' & Hn & Hs' & Hf & Hend); [done|done|by eapply live_follows|].
  exists n, st', p', s'. split_and!; [by eapply exec_solo|done|by eapply live_moved|done].
Qed.

(** *** What is left to do *)

Definition returned (cl : option client) : nat :=
  match cl with Some (Ret _, _) => 0 | _ => 1 end.

Definition left_to (s : astate) (cs : list client) (i : nat) : nat :=
  work adj (pcs s i) + returned (cs !! i).

Definition left_over (s : astate) (cs : list client) : nat :=
  sum_list (left_to s cs <$> seq 0 (length cs)).

Lemma left_over_less s s' cs i p p' :
  cs !! i = Some (p, true) → (∀ a, p ≠ Ret a) → ¬ blocked s (pcs s i) →
  rtc (astep adj first last i) s s' → (blocked s' (pcs s' i) ∨ ∃ a, p' = Ret a) →
  (left_over s' (<[i := (p', true)]> cs) < left_over s cs)%nat.
Proof.
  intros Hi Hp Hb Hs Hend. unfold left_over. rewrite length_insert.
  apply sum_seq_lt with i.
  - apply elem_of_seq. apply lookup_lt_Some in Hi. simpl. unfold client in *. lia.
  - unfold left_to. rewrite list_lookup_insert_eq by (by eapply lookup_lt_Some).
    assert (returned (cs !! i) = 1%nat) as ->.
    { unfold client in *. rewrite Hi. destruct p; try done. by destruct (Hp a). }
    pose proof (asteps_work_le adj first last i s s' Hs).
    destruct Hend as [Hb'|[a ->]]; [|cbn; lia].
    pose proof (asteps_work adj first last i s s' Hs Hb Hb'). destruct p'; cbn; lia.
  - intros j Hj. unfold left_to.
    rewrite list_lookup_insert_ne, (asteps_others adj first last i j s s') by done. done.
Qed.

(** As long as a client has not returned, there is one that is not blocked. *)
Lemma some_runnable s st cs i p : live s (st, cs) →
  cs !! i = Some (p, true) → (∀ a, p ≠ Ret a) →
  ∃ j p, cs !! j = Some (p, true) ∧ (∀ a, p ≠ Ret a) ∧ ¬ blocked s (pcs s j).
Proof using G owns_disjoint.
  intros Hl Hi Hp. destruct (decide (blocked s (pcs s i))) as [Hb|]; [|by eauto].
  destruct (some_unblocked adj first last (g_sym adj G) (g_irrefl adj G) (λ u, g_nodup adj u G)
    owns_disjoint (g_sorted adj G) s (length cs) i) as (j & Hj & Hnb); [apply Hl| |done|].
  { intros j Hj. apply Hl. by apply lookup_ge_None. }
  destruct (cs !! j) as [[pj b]|] eqn:Hcj; [|by destruct Hj; apply (live_none _ _ Hl)].
  destruct (live_client _ _ Hl j _ Hcj) as [Hbj Hwp]. simpl in Hbj. subst b.
  exists j, pj. split_and!; [done| |done].
  intros a ->. destruct Hwp as [_ Hq]. by apply Hj, (between_at_rest []).
Qed.

Lemma live_completes s c : live s c →
  ∃ sched c' s', exec ack clk sched c = Some c' ∧ rtc (any_step adj first last) s s' ∧
    live s' c' ∧ length c'.2 = length c.2 ∧ Forall (λ cl, ∃ a, cl = (Ret a, true)) c'.2.
Proof using G owns_disjoint Hack.
  remember (left_over s c.2) as n eqn:Hn. revert s c Hn.
  induction n as [n IH] using lt_wf_ind. intros s [st cs] -> Hl. simpl in *.
  destruct (decide (Forall (λ cl, returned (Some cl) = 0%nat) cs)) as [Hall|Hall].
  { exists [], (st, cs), s. split_and!; [done..|]. simpl.
    apply Forall_lookup. intros i cl Hi. rewrite Forall_lookup in Hall. specialize (Hall i cl Hi).
    destruct (live_client _ _ Hl i cl Hi) as [Hb _]. destruct cl as [[] b]; simpl in *; try done.
    subst. eauto. }
  apply not_Forall_Exists in Hall; [|apply _]. apply Exists_exists in Hall as (cl & Hin & Hcl).
  apply list_elem_of_lookup in Hin as [i Hi]. destruct cl as [p b].
  destruct (live_client _ _ Hl i _ Hi) as [Hb _]. simpl in Hb. subst b.
  destruct (some_runnable s st cs i p Hl Hi) as (j & pj & Hj & Hpj & Hnb).
  { intros a ->. by apply Hcl. }
  destruct (live_settles s st cs j pj Hl Hj) as (n & st' & p' & s' & Hex & Hs' & Hl' & Hend).
  destruct (IH _ (left_over_less s s' cs j pj p' Hj Hpj Hnb Hs' Hend) s'
    (st', <[j := (p', true)]> cs) eq_refl Hl') as (sched & c' & s2 & Hex2 & Hs2 & Hl2 & Hlen & Hret).
  exists (replicate n j ++ sched), c', s2. split_and!; [| |done| |done].
  - by rewrite (exec_app _ _ _ _ _ _ Hex).
  - etrans; [|done]. clear -Hs'. induction Hs'; [done|]. eapply rtc_l; [|done]. by exists j.
  - rewrite Hlen. simpl. by rewrite length_insert.
Qed.
End progress.

(** ** The systems of clients *)

Section completes.
Context (N : Z) (adj : Z → list Z) (ranges : list (Z * Z)).
Hypothesis G : graph_ok N adj.
Hypothesis Hdisj : disjoint_ranges ranges.
Context {St : Type} `{!Server St, !KVServer St}.
Context (ack : Z) (clk : option string).

Local Abbreviation first := (first_of ranges).
Local Abbreviation last := (last_of ranges).

(** There is a way to go on after which every client has returned 0, and the
    colouring of the store [st0] is proper and complete. *)
Definition can_complete (st0 : St) (c : @system St) : Prop :=
  ∃ sched st', exec ack clk sched c = Some (st', replicate (length ranges) (Ret 0, true)) ∧
    proper_store adj (kv st0) (kv st') ∧ Forall (λ r, all_coloured r (kv st')) ranges.

Definition start (st0 : St) (ps : list (prog Z)) : @system St := (st0, (λ p, (p, true)) <$> ps).

(** Clients that must end stay so. *)
Lemma reached_live st0 ps c :
  good st0 → fresh_store N adj (kv st0) → length ps = length ranges →
  (∀ i p, ps !! i = Some p →
     wp N adj first last (must_end (wrap_s 32 ack)) i p (Idle (range_list ranges i)) ends_well) →
  rtc working_step (start st0 ps) c →
  ∃ s, rtc (any_step adj first last) (astate0 (kv st0) ranges) s ∧
    live N adj first last (wrap_s 32 ack) s c ∧ length c.2 = length ranges.
Proof using G Hdisj.
  intros Hg Hf Hlen Hwp Hc.
  assert (live N adj first last (wrap_s 32 ack) (astate0 (kv st0) ranges) (start st0 ps)) as H0.
  { split; simpl; [done|split; [apply astate0_inv|by apply astate0_store]| |done].
    intros i cl Hi. apply list_lookup_fmap_Some in Hi as (p & -> & Hp). auto. }
  assert (length (start st0 ps).2 = length ranges) as Hn by (simpl; by rewrite length_fmap).
  clear Hf Hlen Hwp Hg. revert H0 Hn. generalize (astate0 (kv st0) ranges).
  induction Hc as [c|c c1 c2 Hstep _ IH]; intros s0 H0 Hn; [by exists s0|].
  destruct (live_step N adj first last (g_shape N adj G) (ranges_owns ranges Hdisj) _ s0 c c1 H0 Hstep)
    as (s1 & Hs1 & Hl1).
  destruct (IH s1 Hl1) as (s & Hs & H).
  { destruct Hstep; simpl in *. by rewrite length_insert. }
  exists s. split; [by etrans|done].
Qed.

Lemma system_completes st0 ps c :
  good st0 → fresh_store N adj (kv st0) → length ps = length ranges →
  (∀ i p, ps !! i = Some p →
     wp N adj first last (must_end (wrap_s 32 ack)) i p (Idle (range_list ranges i)) ends_well) →
  rtc working_step (start st0 ps) c → can_complete st0 c.
Proof using G Hdisj.
  intros Hg Hf Hlen Hwp Hc. pose proof (ranges_owns ranges Hdisj) as Hown.
  destruct (reached_live st0 ps c Hg Hf Hlen Hwp Hc) as (s & Hs & Hl & Hn).
  destruct (live_completes N adj first last (g_shape N adj G) Hown (wrap_s 32 ack) ack (Z.le_refl _) clk s c Hl)
    as (sched & [st' cs'] & s' & Hex & Hs' & Hl' & Hn' & Hret).
  assert (∀ i cl, cs' !! i = Some cl → cl = (Ret 0, true) ∧ between [] (pcs s' i)) as Hend.
  { intros i cl Hi. rewrite Forall_lookup in Hret. destruct (Hret i cl Hi) as [a ->].
    by destruct (live_client _ _ _ _ _ _ _ Hl' i _ Hi) as [_ [-> ?]]. }
  exists sched, st'. split_and!.
  - rewrite Hex. do 2 f_equal. simpl in Hn'. rewrite <- Hn, <- Hn'.
    symmetry. apply replicate_as_elem_of. split; [done|]. intros cl [i Hi]%list_elem_of_lookup. by apply (Hend i).
  - eapply store_proper; [done..| |apply Hl']. by etrans.
  - apply Forall_lookup. intros i r Hi. eapply (covered_coloured N adj ranges G Hdisj); [apply Hl'| |done|].
    + eapply covered_steps; [|apply astate0_covered]. by etrans.
    + apply lookup_lt_Some in Hi. destruct (cs' !! i) as [cl|] eqn:Hcl; [by apply (Hend i cl)|].
      apply lookup_ge_None in Hcl. simpl in Hn'. rewrite Hn', Hn in Hcl. lia.
Qed.
End completes.

(** What a schedule reaches on working connections. *)
Lemma exec_working {St} `{!Server St} ack clk sched (c c' : @system St) :
  exec ack clk sched c = Some c' → rtc working_step c c'.
Proof.
  revert c. induction sched as [|i sched IH]; intros c H; simpl in H; [by simplify_eq|].
  apply bind_Some in H as (c1 & H1 & H). etrans; [|by apply IH]. clear IH H.
  destruct c as [st cs]. simpl in H1. destruct (cs !! i) as [[p []]|] eqn:Hi; try done.
  destruct p as [a|[] argv k|[] k|k|T cond body s k|h]; simplify_eq; try done;
    try (apply rtc_once; econstructor; [exact Hi|constructor]).
  destruct (serve ack st argv) as [st' r] eqn:Hs. simplify_eq.
  apply rtc_once. econstructor; [exact Hi|by econstructor].
Qed.

(** ** Properties *)

(** C9: the clients never block each other for good.  Take clients of either
    program, with disjoint ranges of the graph, that got to any state on
    working connections, interleaved in any way, in the middle of taking
    locks, waiting for each other, and with any numbers of replicas
    acknowledging so far.  Then they can go on so that every one of them
    returns 0, and the colouring is then proper and complete; the clients that
    wait for replicas need from now on as many as they ask for. *)
Theorem clients_never_deadlock {St} `{!Server St, !KVServer St} N adj ranges argvs
    calloc_ok (st : St) ack clk
    (G : graph_ok N adj) (Hdisj : disjoint_ranges ranges) (Hargs : ranges_of argvs ranges)
    (Hrun : all_runnable N argvs ranges)
    (Hcalloc : ∀ i z, 0 < z ≤ INT_MAX → calloc_ok i z = true)
    (Hgood : good st) (Hfresh : fresh_store N adj (kv st)) :
  (∀ uninit c, uninit_harmless ranges uninit →
     rtc working_step (start st (clients1 calloc_ok uninit argvs)) c →
     can_complete adj ranges ack clk st c) ∧
  (∀ c, replicas_there argvs (wrap_s 32 ack) →
     rtc working_step (start st (clients_sync calloc_ok argvs)) c →
     can_complete adj ranges ack clk st c).
Proof.
  pose proof (Forall2_length _ _ _ Hargs) as Hlen. split.
  - intros uninit c Hu. apply (system_completes N adj ranges G Hdisj); [done|done| |].
    + unfold clients1. by rewrite length_imap.
    + intros i p Hp. by eapply clients1_must_end.
  - intros c Hrep. apply (system_completes N adj ranges G Hdisj); [done|done| |].
    + unfold clients_sync. by rewrite length_imap.
    + intros i p Hp. by eapply clients_sync_must_end.
Qed.

(** The clients alternate; after 20 rounds both ends of the edge between 0 and 2
    have their flags up. *)
Definition contended (ps : list (prog Z)) (n : nat) : @system (gmap string aval) :=
  default (triangle_start ps) (exec 0 None (alternate n) (triangle_start ps)).

Lemma contended_reached ps n : rtc working_step (start (graph_map 3 triangle) ps) (contended ps n).
Proof.
  unfold contended. change (start (graph_map 3 triangle) ps) with (triangle_start ps).
  destruct (exec 0 None (alternate n) (triangle_start ps)) as [c|] eqn:Hc; [|done].
  by apply exec_working in Hc.
Qed.

Definition both_at (c : @system (gmap string aval)) (u v : Z) : Prop :=
  c.1 !! flag_key u v = Some (AStr "1") ∧ c.1 !! flag_key v u = Some (AStr "1").

Lemma clients_never_deadlock_witness :
  both_at (contended (clients1 (λ _ _, true) blank_lock triangle_args) 20) 0 2 ∧
  both_at (contended (clients_sync (λ _ _, true) triangle_args) 20) 0 2 ∧
  can_complete triangle triangle_ranges 2 None (graph_map 3 triangle)
    (contended (clients1 (λ _ _, true) blank_lock triangle_args) 20) ∧
  can_complete triangle triangle_ranges 2 None (graph_map 3 triangle)
    (contended (clients_sync (λ _ _, true) triangle_args) 20).
Proof.
  pose proof (clients_never_deadlock 3 triangle triangle_ranges triangle_args (λ _ _, true)
    (graph_map 3 triangle) 2 None triangle_ok triangle_disjoint triangle_args_ok) as H.
  destruct H as [H1 H2]; [repeat constructor; simpl; lia|done|done|apply graph_map_fresh|].
  split_and!; [vm_compute; by split|vm_compute; by split| |].
  - apply (H1 blank_lock); [apply blank_harmless|apply contended_reached].
  - apply H2; [|apply contended_reached].
    repeat constructor; (exists "1"; split; [reflexivity|]; split;
      [split; [exists 1|exists 10000]; split; [reflexivity|lia|reflexivity|lia]
      |vm_compute; discriminate]).
Defined.
