(* ===== verification/Mutex.v ===== *)
(** * The edge lock excludes

    [acquire_lock] of both clients by itself: two clients that take the lock
    of the same edge from its two ends are never both past it. *)

From S2P Require Import Prelude CLib Hiredis Program Client1 Protocol Keys.
From S2P Require Import ServerSpec Simulation ClientWp RefineSync Colouring.
From S2P Require ClientSync.

Open Scope prog_scope.

(** Take the lock of the edge from [u] to [v], then stop. *)
Definition locker1 (u v : Z) : prog Z :=
  acquire_lock (make_lock u v (pretty u) (pretty v));;; Ret 0.

Definition locker_sync (num_of_replicas : option string) (timeout : string) (u v : Z) : prog Z :=
  ClientSync.acquire_lock (make_lock u v (pretty u) (pretty v)) num_of_replicas timeout;;; Ret 0.

(** No key of the protocol is present. *)
Definition no_keys (m : gmap string aval) : Prop := fresh_store 0 (λ _, []) m.

(** ** The protocol on one edge *)

Section edge.
Context (u v : Z) (Huv : u ≠ v).

Definition edge_adj (x : Z) : list Z := if x =? u then [v] else if x =? v then [u] else [].
Definition edge_ranges : list (Z * Z) := [(u, u); (v, v)].

Local Abbreviation first := (first_of edge_ranges).
Local Abbreviation last := (last_of edge_ranges).

Lemma edge_adj_cases x y : y ∈ edge_adj x ↔ (x = u ∧ y = v) ∨ (x = v ∧ y = u).
Proof using Huv.
  unfold edge_adj. destruct (Z.eqb_spec x u), (Z.eqb_spec x v); subst;
    rewrite ?list_elem_of_singleton, ?elem_of_nil; naive_solver.
Qed.

Lemma edge_shape : graph_shape edge_adj.
Proof using Huv.
  split.
  - intros x y. rewrite !edge_adj_cases. naive_solver.
  - intros x. rewrite edge_adj_cases. naive_solver.
  - intros x. unfold edge_adj. repeat case_match; repeat constructor.
Qed.

Lemma edge_disjoint : disjoint_ranges edge_ranges.
Proof using Huv.
  intros [|[|i]] [|[|j]] a b x Ha Hb ??; simplify_eq/=; try done; lia.
Qed.

Lemma edge_owns i x : owns first last i x ↔ (i = 0%nat ∧ x = u) ∨ (i = 1%nat ∧ x = v).
Proof.
  unfold owns, first_of, last_of. destruct i as [|[|i]]; simpl; lia.
Qed.

(** Both ends about to raise their flags. *)
Definition at_end (x y : Z) (q : sub) : apc := Scan x [] [] [] [y] q.

Definition edge_state (m : gmap string aval) : astate :=
  mkA (λ _, false) (λ _, None) (colr0 m) (λ _, false) (λ _, Out) (λ _, false)
    (λ i, match i with
          | O => at_end u v QFlag
          | S O => at_end v u QFlag
          | _ => Idle []
          end).

Lemma edge_client m i x y :
  owns first last i x → ¬ owns first last i y → edge_adj x = [y] →
  client_ok edge_adj first last (edge_state m) i (at_end x y QFlag).
Proof.
  intros Hx Hy Hadj. split; simpl; try done.
  - repeat constructor.
  - intros ? [= <-]. split; [done|]. by intros ?%elem_of_nil.
  - repeat constructor.
  - by intros ?? ?%elem_of_nil.
Qed.

Lemma edge_inv m : Inv edge_adj first last (edge_state m).
Proof using Huv.
  split; simpl; try done.
  intros [|[|i]]; simpl.
  - apply edge_client; [rewrite edge_owns; auto|rewrite edge_owns; lia|].
    unfold edge_adj. by rewrite Z.eqb_refl.
  - apply edge_client; [rewrite edge_owns; auto|rewrite edge_owns; lia|].
    unfold edge_adj. rewrite (proj2 (Z.eqb_neq v u)) by done. by rewrite Z.eqb_refl.
  - split; simpl; try done; try (by split; constructor); by intros ?? ?%elem_of_nil.
Qed.

Lemma edge_store m : no_keys m → store_rel 0 edge_adj (edge_state m) m.
Proof.
  intros Hm. destruct (astate0_store 0 _ [] m Hm). split; simpl in *; auto.
  intros u' Hu'. lia.
Qed.

Context {St : Type} `{!Server St, !KVServer St}.

(** Two verified lockers are never both in. *)
Lemma edge_exclusive (st : St) p0 p1 c :
  good st → no_keys (kv st) →
  wp 0 edge_adj first last any_env 0 p0 (at_end u v QFlag) (λ _ q, q = at_end u v (QRead true)) →
  wp 0 edge_adj first last any_env 1 p1 (at_end v u QFlag) (λ _ q, q = at_end v u (QRead true)) →
  reachable st [p0; p1] c →
  c.2 !! 0%nat = Some (Ret 0, true) → c.2 !! 1%nat = Some (Ret 0, true) → False.
Proof using Huv.
  intros Hg Hm Hp0 Hp1 Hc H0 H1.
  destruct (wp_sound 0 edge_adj first last edge_shape
    (ranges_owns edge_ranges edge_disjoint)
    (λ i _ q, q = match i with O => at_end u v (QRead true) | _ => at_end v u (QRead true) end)
    (edge_state (kv st)) st [p0; p1] c) as (s & _ & _ & [HI _] & Hcl); auto.
  { split; [apply edge_inv|by apply edge_store]. }
  { intros [|[|i]] p Hp; simplify_eq/=; done. }
  pose proof (Hcl 0%nat _ H0) as Hq0. pose proof (Hcl 1%nat _ H1) as Hq1. simpl in Hq0, Hq1.
  pose proof (inv_clients _ _ _ _ HI 0%nat) as C0. rewrite Hq0 in C0.
  pose proof (inv_clients _ _ _ _ HI 1%nat) as C1. rewrite Hq1 in C1.
  apply (exclusive edge_adj first last (g_irrefl _ edge_shape) s u v HI).
  - rewrite (ok_stage _ _ _ _ _ _ C0 u v eq_refl). unfold stage_of. simpl.
    by repeat case_decide.
  - rewrite (ok_stage _ _ _ _ _ _ C1 v u eq_refl). unfold stage_of. simpl.
    by repeat case_decide.
Qed.
End edge.

Lemma wp_locker1 adj first last i u v :
  graph_shape adj → in_int u → in_int v →
  wp 0 adj first last any_env i (locker1 u v) (at_end u v QFlag) (λ _ q, q = at_end u v (QRead true)).
Proof.
  intros Hadj Hu Hv. unfold locker1. rewrite make_lock_keys by done. apply wp_bind.
  eapply wp_mono; [by apply wp_acquire_lock|]. by intros _ q ->.
Qed.

Lemma wp_locker_sync adj first last i n t u v :
  graph_shape adj → in_int u → in_int v →
  wp 0 adj first last any_env i (locker_sync n t u v) (at_end u v QFlag)
    (λ _ q, q = at_end u v (QRead true)).
Proof.
  intros Hadj Hu Hv. unfold locker_sync. rewrite make_lock_keys by done. apply wp_bind.
  eapply wp_mono; [by apply wp_sync_acquire_lock|]. by intros _ q ->.
Qed.

(** ** Properties *)

(** C3: two 1-server clients that take the lock of the edge between [u] and
    [v] from its two ends, on a server without keys of the protocol, are never
    both past [acquire_lock] on working connections, however their commands
    interleave. *)
Theorem server1_lock_exclusive {St} `{!Server St, !KVServer St} (u v : Z) (st : St) c
    (Huv : u ≠ v) (Hu : in_int u) (Hv : in_int v) (Hgood : good st) (Hm : no_keys (kv st))
    (Hc : reachable st [locker1 u v; locker1 v u] c) :
  ¬ (c.2 !! 0%nat = Some (Ret 0, true) ∧ c.2 !! 1%nat = Some (Ret 0, true)).
Proof.
  intros [H0 H1]. eapply (edge_exclusive u v Huv st); eauto using wp_locker1, edge_shape.
Qed.

Lemma server1_lock_exclusive_witness :
  let start := (∅ : gmap string aval, [(locker1 0 1, true); (locker1 1 0, true)]) in
  let c := default start (exec 1 None (alternate 20) start) in
  c.2 !! 0%nat = Some (Ret 0, true) ∧
  ¬ (c.2 !! 0%nat = Some (Ret 0, true) ∧ c.2 !! 1%nat = Some (Ret 0, true)).
Proof.
  split; [vm_compute; reflexivity|].
  apply (server1_lock_exclusive 0 1 (∅ : gmap string aval)); try done.
  - apply (graph_map_fresh 0).
  - by apply (exec_default 1 None (alternate 20)).
Defined.

(** C4: the same of the lock of the clients that wait for replicas. *)
Theorem sync_lock_exclusive {St} `{!Server St, !KVServer St} n t (u v : Z) (st : St) c
    (Huv : u ≠ v) (Hu : in_int u) (Hv : in_int v) (Hgood : good st) (Hm : no_keys (kv st))
    (Hc : reachable st [locker_sync n t u v; locker_sync n t v u] c) :
  ¬ (c.2 !! 0%nat = Some (Ret 0, true) ∧ c.2 !! 1%nat = Some (Ret 0, true)).
Proof.
  intros [H0 H1]. eapply (edge_exclusive u v Huv st); eauto using wp_locker_sync, edge_shape.
Qed.

Lemma sync_lock_exclusive_witness :
  let start := (∅ : gmap string aval,
    [(locker_sync (Some "1") "10" 0 1, true); (locker_sync (Some "1") "10" 1 0, true)]) in
  let c := default start (exec 1 None (alternate 30) start) in
  c.2 !! 0%nat = Some (Ret 0, true) ∧
  ¬ (c.2 !! 0%nat = Some (Ret 0, true) ∧ c.2 !! 1%nat = Some (Ret 0, true)).
Proof.
  split; [vm_compute; reflexivity|].
  apply (sync_lock_exclusive (Some "1") "10" 0 1 (∅ : gmap string aval)); try done.
  - apply (graph_map_fresh 0).
  - by apply (exec_default 1 None (alternate 30)).
Defined.
