(* ===== verification/CheckColor.v ===== *)
(** * The checker of colourings

    src/color/1server/check_color.py: reads the graph and the colours from a
    server and counts the pairs of neighbours with the same colour.  The
    Python client library is a parameter, a record of the calls that the script
    makes, with what its documentation says of them; [direct] shows that any
    server that keeps its contract can be called in this way.  An exception is
    [None]. *)

From S2P Require Import Prelude CLib Hiredis Program Client1 Protocol Keys ServerSpec.
From S2P Require Import Simulation ClientWp Colouring.
From Stdlib Require Import Ascii.

(** ** The client library *)

(** The commands that the script puts into a pipeline, and the values that the
    library makes of replies: a string or [None], and a set, in the order in
    which Python iterates over it. *)
Inductive py_command : Type :=
| PyGet (key : string)
| PySmembers (key : string).

Inductive py_value : Type :=
| PyStr (s : option string)
| PySet (l : list string).

Record redis_py (St : Type) : Type := {
  py_keys : St → string → option (St * list string);
  py_get : St → string → option (St * option string);
  py_execute : St → list py_command → option (St * list py_value);
}.
Arguments py_keys {_} _ _ _.
Arguments py_get {_} _ _ _.
Arguments py_execute {_} _ _ _.

(** ** The script *)

(** [s.split("_")]. *)
Fixpoint split_underscore (s : string) : list string :=
  match s with
  | EmptyString => [""]
  | String c s =>
      if decide (c = "_"%char) then "" :: split_underscore s
      else match split_underscore s with
           | [] => [String c ""]
           | w :: ws => String c w :: ws
           end
  end.

(** [key.split("_")[1]]; an index out of range raises an exception. *)
Definition node_of (key : string) : option string := split_underscore key !! 1%nat.

(** [for x in v]: a string has its characters. *)
Definition iterate_value (v : py_value) : option (list string) :=
  match v with
  | PySet l => Some l
  | PyStr (Some s) => Some ((λ c, String c "") <$> String.list_ascii_of_string s)
  | PyStr None => None
  end.

(** [node_color == neighbor_color]. *)
Definition same_color (node_color : py_value) (neighbor_color : option string) : bool :=
  match node_color with PyStr s => bool_decide (s = neighbor_color) | PySet _ => false end.

(** How an f-string shows a colour. *)
Definition show_color (c : option string) : string := default "None" c.

Section script.
Context {St : Type}.
Variable py : redis_py St.

(** The loop over the neighbours of a node: the errors and the lines.  The colour
    that is printed is the one that both nodes have. *)
Fixpoint check_neighbors (node : string) (node_color : py_value) (neighbors : list string) (st : St)
    (error_count : Z) (out : list string) : option (St * Z * list string) :=
  match neighbors with
  | [] => Some (st, error_count, out)
  | neighbor :: neighbors =>
      '(st, neighbor_color) ← py_get py st ("node_" +:+ neighbor +:+ "_color");
      if same_color node_color neighbor_color then
        check_neighbors node node_color neighbors st (error_count + 1)
          (out ++ ["Coloring error: Node " +:+ node +:+ " and Node " +:+ neighbor +:+ " both have color " +:+
                   show_color neighbor_color])
      else check_neighbors node node_color neighbors st error_count out
  end.

(** The loop over the keys. *)
Fixpoint check_nodes (keys : list string) (results : list py_value) (range : list nat) (st : St)
    (error_count node_count : Z) (out : list string) : option (St * Z * Z * list string) :=
  match range with
  | [] => Some (st, error_count, node_count, out)
  | i :: range =>
      key ← keys !! i;
      node ← node_of key;
      node_color ← results !! (i * 2)%nat;
      neighbors ← results !! (i * 2 + 1)%nat;
      neighbors ← iterate_value neighbors;
      '(st, error_count, out) ← check_neighbors node node_color neighbors st error_count out;
      check_nodes keys results range st error_count (node_count + 1) out
  end.

Definition commands_for (key : string) : option (list py_command) :=
  node ← node_of key;
  Some [PyGet ("node_" +:+ node +:+ "_color"); PySmembers key].

(** The number of errors and the lines that are printed. *)
Definition is_coloring_valid (st : St) : option (St * Z * list string) :=
  '(st, keys) ← py_keys py st "node_*_neighbours";
  pipeline ← mapM commands_for keys;
  '(st, results) ← py_execute py st (concat pipeline);
  '(st, error_count, node_count, out) ← check_nodes keys results (seq 0 (length keys)) st 0 0 [];
  let out := out ++ ["Total nodes processed: " +:+ pretty node_count] in
  let out := out ++ [if error_count =? 0 then "Graph coloring is valid."
                     else "Graph coloring has " +:+ pretty error_count +:+ " error(s)."] in
  Some (st, error_count, out).
End script.

(** ** What the library promises *)

Definition string_at (m : gmap string aval) (k : string) : option string :=
  match m !! k with Some (AStr s) => Some s | _ => None end.

(** The value for a command on a store; a command on a key of the other type
    raises an exception. *)
Inductive py_answers (m : gmap string aval) : py_command → py_value → Prop :=
| pa_get k : (∀ X, m !! k ≠ Some (ASet X)) → py_answers m (PyGet k) (PyStr (string_at m k))
| pa_smembers k X l : m !! k = Some (ASet X) → l ≡ₚ elements X → py_answers m (PySmembers k) (PySet l).

Definition fits_type (m : gmap string aval) (c : py_command) : Prop :=
  match c with PyGet k => ∀ X, m !! k ≠ Some (ASet X) | PySmembers k => ∃ X, m !! k = Some (ASet X) end.

Section library.
Context {St : Type} `{!Server St, !KVServer St}.

Definition unchanged (st st' : St) : Prop := good st' ∧ kv st' = kv st.

Record py_ok (py : redis_py St) : Prop := {
  py_ok_keys st : good st → ∃ st' l, py_keys py st nodes_pattern = Some (st', l) ∧ unchanged st st' ∧
    NoDup l ∧ ∀ k, k ∈ l ↔ k ∈ dom (kv st) ∧ is_nodes_key k;
  py_ok_get st k : good st → (∀ X, kv st !! k ≠ Some (ASet X)) →
    ∃ st', py_get py st k = Some (st', string_at (kv st) k) ∧ unchanged st st';
  py_ok_execute st cmds : good st → Forall (fits_type (kv st)) cmds →
    ∃ st' l, py_execute py st cmds = Some (st', l) ∧ unchanged st st' ∧ Forall2 (py_answers (kv st)) cmds l;
}.
End library.

(** ** A library that sends each command by itself *)

Section direct.
Context {St : Type} `{!Server St, !KVServer St}.
Variable ack : Z.

Definition direct_one (st : St) (c : py_command) : option (St * py_value) :=
  match c with
  | PyGet k =>
      match serve ack st ["GET"; k] with
      | (st, RString s) => Some (st, PyStr (Some s))
      | (st, RNil) => Some (st, PyStr None)
      | _ => None
      end
  | PySmembers k => match serve ack st ["SMEMBERS"; k] with (st, RArray l) => Some (st, PySet l) | _ => None end
  end.

Fixpoint direct_all (st : St) (cmds : list py_command) : option (St * list py_value) :=
  match cmds with
  | [] => Some (st, [])
  | c :: cmds => '(st, v) ← direct_one st c; '(st, l) ← direct_all st cmds; Some (st, v :: l)
  end.

Definition direct : redis_py St := {|
  py_keys st p := match serve ack st ["KEYS"; p] with (st, RArray l) => Some (st, l) | _ => None end;
  py_get st k := '(st, v) ← direct_one st (PyGet k); match v with PyStr s => Some (st, s) | PySet _ => None end;
  py_execute := direct_all;
|}.

Lemma direct_one_ok st c : good st → fits_type (kv st) c →
  ∃ st' v, direct_one st c = Some (st', v) ∧ unchanged st st' ∧ py_answers (kv st) c v.
Proof.
  intros Hg Hc. destruct c as [k|k]; cbn [direct_one].
  - destruct (serve ack st ["GET"; k]) as [st' r] eqn:E. apply serve_answers in E as [Hg' Ha]; [|done|constructor].
    inversion Ha as [|? E1 E2 E3| | | |]; subst. cbn in Hc. unfold get_reply.
    assert (py_answers (kv st) (PyGet k) (PyStr (string_at (kv st) k))) as Hp by (by constructor).
    unfold string_at in Hp. destruct (kv st !! k) as [[s|X]|] eqn:Ek; [|by destruct (Hc X)|];
      (eexists _, _; split; [done|]; split; [done|exact Hp]).
  - destruct (serve ack st ["SMEMBERS"; k]) as [st' r] eqn:E. apply serve_answers in E as [Hg' Ha]; [|done|constructor].
    apply answers_smembers in Ha as [Hkv Hm]. destruct Hc as [X HX]. rewrite HX in Hm. destruct Hm as (l & -> & Hl).
    eexists _, _. split; [done|]. split; [done|]. by econstructor.
Qed.

Lemma direct_ok : py_ok direct.
Proof.
  split.
  - intros st Hg. cbn [direct py_keys]. destruct (serve ack st ["KEYS"; nodes_pattern]) as [st' r] eqn:E.
    apply serve_answers in E as [Hg' Ha]; [|done|constructor]. apply answers_keys in Ha as [Hkv (l & -> & Hl)].
    exists st', l. done.
  - intros st k Hg Hk. cbn [direct py_get]. destruct (direct_one_ok st (PyGet k) Hg Hk) as (st' & v & -> & Hu & Ha).
    cbn [mbind option_bind]. inversion Ha; subst. by eexists.
  - intros st cmds Hg Hc. cbn [direct py_execute]. revert st Hg Hc. induction cmds as [|c cmds IH]; intros st Hg Hc.
    { exists st, []. by split; [|split; [split|]]. }
    apply Forall_cons in Hc as [H1 H2]. cbn [direct_all].
    destruct (direct_one_ok st c Hg H1) as (st1 & v & -> & [Hg1 Hk1] & Ha). cbn [mbind option_bind].
    rewrite <- Hk1 in H2. destruct (IH st1 Hg1 H2) as (st2 & l & -> & [Hg2 Hk2] & Hall). cbn [mbind option_bind].
    exists st2, (v :: l). split; [done|]. split; [split; [done|congruence]|]. constructor; [done|]. by rewrite <- Hk1.
Qed.
End direct.

(** ** What the script counts *)

(** A store with a graph, in which colours are strings. *)
Record graph_held (N : Z) (adj : Z → list Z) (m : gmap string aval) : Prop := {
  gh_nbrs u : 0 ≤ u < N → m !! neighbours_key u = Some (ASet (list_to_set (pretty <$> adj u)));
  gh_keys k : is_nodes_key k → is_Some (m !! k) → ∃ u, 0 ≤ u < N ∧ k = neighbours_key u;
  gh_color u X : m !! color_key u ≠ Some (ASet X);
}.

Definition color_at (m : gmap string aval) (u : Z) : option string := string_at m (color_key u).

(** The neighbours of a node that have its colour. *)
Definition clashes (m : gmap string aval) (u : Z) (vs : list Z) : list Z := filter (λ v, color_at m u = color_at m v) vs.

Definition error_line (m : gmap string aval) (e : Z * Z) : string :=
  "Coloring error: Node " +:+ pretty e.1 +:+ " and Node " +:+ pretty e.2 +:+ " both have color " +:+ show_color (color_at m e.1).

(** All pairs of a node and a neighbour with the same colour. *)
Definition conflicts (N : Z) (adj : Z → list Z) (m : gmap string aval) : list (Z * Z) :=
  seqZ 0 N ≫= λ u, pair u <$> clashes m u (adj u).

Lemma split_free w s : char_free "_" w → split_underscore (w +:+ String "_" s) = w :: split_underscore s.
Proof.
  induction w as [|c w IH]; intros Hw; [done|]. destruct Hw as [Hc Hw]. cbn. rewrite decide_False by done.
  change (String.append w (String "_" s)) with (w +:+ String "_" s). by rewrite IH.
Qed.

Lemma node_of_key u : node_of (neighbours_key u) = Some (pretty u).
Proof.
  unfold node_of, neighbours_key. change ("node_" +:+ ?x) with ("node" +:+ String "_" x).
  rewrite split_free by (repeat split; done). cbn [lookup list_lookup].
  change "_neighbours" with (String "_" "neighbours"). by rewrite split_free by auto with colour.
Qed.

Section counting.
Context {St : Type} `{!Server St, !KVServer St}.
Variable py : redis_py St.
Hypothesis Hpy : py_ok py.
Context (N : Z) (adj : Z → list Z) (m : gmap string aval).
Hypothesis G : graph_ok N adj.
Hypothesis Hm : graph_held N adj m.
#[local] Set Default Proof Using "Type".

(** A state of the server that has the store. *)
Definition holds (st : St) : Prop := good st ∧ kv st = m.

Lemma unchanged_holds st st' : holds st → unchanged st st' → holds st'.
Proof. intros [_ H1] [H2 H3]. split; [done|congruence]. Qed.

Lemma get_color st v : holds st →
  ∃ st', py_get py st ("node_" +:+ pretty v +:+ "_color") = Some (st', color_at m v) ∧ holds st'.
Proof using Hpy Hm.
  intros [Hg Hk]. destruct (py_ok_get py Hpy st (color_key v) Hg) as (st' & E & Hu).
  { rewrite Hk. apply (gh_color _ _ _ Hm). }
  exists st'. change ("node_" +:+ pretty v +:+ "_color") with (color_key v). rewrite E, Hk. split; [done|].
  by eapply unchanged_holds.
Qed.

Lemma check_neighbors_spec u vs : ∀ st n out, holds st →
  ∃ st', check_neighbors py (pretty u) (PyStr (color_at m u)) (pretty <$> vs) st n out =
      Some (st', n + Z.of_nat (length (clashes m u vs)), out ++ (error_line m <$> (pair u <$> clashes m u vs))) ∧
    holds st'.
Proof using Hpy Hm.
  induction vs as [|v vs IH]; intros st n out Hs; cbn [fmap list_fmap check_neighbors].
  { exists st. split; [|done]. cbn. by rewrite Z.add_0_r, app_nil_r. }
  destruct (get_color st v Hs) as (st1 & -> & Hs1). cbn [mbind option_bind same_color].
  unfold clashes in *. rewrite filter_cons. destruct (decide (color_at m u = color_at m v)) as [E|E].
  - rewrite bool_decide_true by done.
    edestruct (IH st1) as (st2 & E2 & Hs2); [done|]. exists st2. split; [|done]. etrans; [apply E2|].
    f_equal. f_equal; [f_equal; cbn [length]; lia|]. cbn [fmap list_fmap]. rewrite <- app_assoc. cbn [app].
    unfold error_line at 2. cbn [fst snd]. by rewrite E.
  - rewrite bool_decide_false by done. by apply IH.
Qed.

(** The pairs of the nodes of a list. *)
Definition found (us : list Z) : list (Z * Z) := us ≫= λ u, pair u <$> clashes m u (adj u).

Definition results_for (us : list Z) (results : list py_value) : Prop :=
  ∀ i u, us !! i = Some u → ∃ vs, vs ≡ₚ adj u ∧
    results !! (i * 2)%nat = Some (PyStr (color_at m u)) ∧ results !! (i * 2 + 1)%nat = Some (PySet (pretty <$> vs)).

Lemma check_nodes_spec us results : results_for us results → ∀ ws k st n c out, drop k us = ws → holds st →
  ∃ st' lines, check_nodes py (neighbours_key <$> us) results (seq k (length ws)) st n c out =
      Some (st', n + Z.of_nat (length (found ws)), c + Z.of_nat (length ws), out ++ lines) ∧
    holds st' ∧ lines ≡ₚ error_line m <$> found ws.
Proof using Hpy Hm.
  intros Hr ws. induction ws as [|u ws IH]; intros k st n c out Hd Hs; cbn [length seq check_nodes].
  { exists st, []. cbn. by rewrite !Z.add_0_r, app_nil_r. }
  assert (us !! k = Some u) as Hk.
  { rewrite <- (Nat.add_0_r k), <- lookup_drop, Hd. done. }
  destruct (Hr k u Hk) as (vs & Hvs & E1 & E2). rewrite list_lookup_fmap, Hk. cbn [fmap option_fmap option_map mbind option_bind].
  rewrite node_of_key. cbn [mbind option_bind]. rewrite E1. cbn [mbind option_bind]. rewrite E2.
  cbn [mbind option_bind iterate_value].
  destruct (check_neighbors_spec u vs st n out Hs) as (st1 & -> & Hs1). cbn [mbind option_bind].
  edestruct (IH (S k) st1) as (st2 & lines & E & Hs2 & Hl); [|done|].
  { by rewrite (drop_S _ u) in Hd by done; simplify_eq. }
  rewrite E. eexists _, _. rewrite <- app_assoc.
  assert (length (clashes m u vs) = length (clashes m u (adj u))) as Hc by (unfold clashes; by rewrite Hvs).
  assert (n + Z.of_nat (length (found (u :: ws))) = n + Z.of_nat (length (clashes m u vs)) + Z.of_nat (length (found ws))) as ->.
  { unfold found. cbn [mbind list_bind]. rewrite length_app, length_fmap. lia. }
  replace (c + Z.of_nat (S (length ws))) with (c + 1 + Z.of_nat (length ws)) by lia. split; [reflexivity|].
  split; [done|]. unfold found. cbn [mbind list_bind]. rewrite fmap_app. apply Permutation_app; [|done].
  unfold clashes. by rewrite Hvs.
Qed.

Lemma keys_found l : NoDup l → (∀ k, k ∈ l ↔ k ∈ dom m ∧ is_nodes_key k) →
  ∃ us, l = neighbours_key <$> us ∧ us ≡ₚ seqZ 0 N.
Proof using Hm.
  intros Hn Hl. assert (l ≡ₚ neighbours_key <$> seqZ 0 N) as Hp.
  { apply NoDup_Permutation; [done|apply (NoDup_fmap_2 _), NoDup_seqZ|]. intros k. rewrite Hl, elem_of_dom, list_elem_of_fmap. split.
    - intros [Hk Hn']. destruct (gh_keys _ _ _ Hm k Hn' Hk) as (u & Hu & ->). exists u. split; [done|]. apply elem_of_seqZ. lia.
    - intros (u & -> & Hu%elem_of_seqZ). split; [by rewrite (gh_nbrs _ _ _ Hm) by lia|by exists (pretty u)]. }
  apply Permutation_map_inv in Hp as (us & -> & Hus). by exists us.
Qed.

Definition node_commands (u : Z) : list py_command := [PyGet (color_key u); PySmembers (neighbours_key u)].

Lemma commands_found us : mapM commands_for (neighbours_key <$> us) = Some (node_commands <$> us).
Proof.
  apply mapM_Some. rewrite Forall2_fmap. apply Forall2_same_length_lookup. split; [done|].
  intros i u v Hu Hv. simplify_eq. unfold commands_for. by rewrite node_of_key.
Qed.

Lemma commands_lookup us i u : us !! i = Some u →
  concat (node_commands <$> us) !! (i * 2)%nat = Some (PyGet (color_key u)) ∧
  concat (node_commands <$> us) !! (i * 2 + 1)%nat = Some (PySmembers (neighbours_key u)).
Proof.
  revert i. induction us as [|w us IH]; intros [|i] Hi; simplify_eq/=; [done|]. by apply IH.
Qed.

Lemma commands_fit us : us ≡ₚ seqZ 0 N → Forall (fits_type m) (concat (node_commands <$> us)).
Proof using Hm.
  intros Hus. apply Forall_concat, Forall_fmap, Forall_forall. intros u Hu. rewrite Hus, elem_of_seqZ in Hu.
  constructor; [by intros X; apply (gh_color _ _ _ Hm)|]. constructor; [|constructor]. eexists. apply (gh_nbrs _ _ _ Hm). lia.
Qed.

Lemma results_found us results : us ≡ₚ seqZ 0 N →
  Forall2 (py_answers m) (concat (node_commands <$> us)) results → results_for us results.
Proof using G Hm.
  intros Hus Hall i u Hi. destruct (commands_lookup us i u Hi) as [H1 H2].
  eapply Forall2_lookup_l in H1 as (v1 & E1 & A1); [|done]. eapply Forall2_lookup_l in H2 as (v2 & E2 & A2); [|done].
  assert (0 ≤ u < N) as Hu. { apply list_elem_of_lookup_2 in Hi. rewrite Hus, elem_of_seqZ in Hi. lia. }
  inversion A1; subst. inversion A2 as [|k X l HX Hl]; subst. rewrite (gh_nbrs _ _ _ Hm u Hu) in HX. simplify_eq.
  rewrite elements_list_to_set in Hl by (apply (NoDup_fmap_2 _), g_nodup, G).
  apply Permutation_map_inv in Hl as (vs & -> & Hvs). by exists vs.
Qed.

Lemma checker_run st : holds st → ∃ st' lines,
  is_coloring_valid py st = Some (st', Z.of_nat (length (conflicts N adj m)),
    lines ++ ["Total nodes processed: " +:+ pretty N;
      if Z.of_nat (length (conflicts N adj m)) =? 0 then "Graph coloring is valid."
      else "Graph coloring has " +:+ pretty (Z.of_nat (length (conflicts N adj m))) +:+ " error(s)."]) ∧
  holds st' ∧ lines ≡ₚ error_line m <$> conflicts N adj m.
Proof using Hpy G Hm.
  intros Hs. unfold is_coloring_valid. destruct (py_ok_keys py Hpy st (proj1 Hs)) as (st1 & l & E1 & U1 & Hnd & Hl).
  change "node_*_neighbours" with nodes_pattern. rewrite E1. cbn [mbind option_bind].
  rewrite (proj2 Hs) in Hl. destruct (keys_found l Hnd Hl) as (us & -> & Hus). rewrite commands_found. cbn [mbind option_bind].
  pose proof (unchanged_holds _ _ Hs U1) as Hs1.
  destruct (py_ok_execute py Hpy st1 (concat (node_commands <$> us)) (proj1 Hs1)) as (st2 & results & E2 & U2 & Hall).
  { rewrite (proj2 Hs1). by apply commands_fit. }
  rewrite E2. cbn [mbind option_bind]. rewrite (proj2 Hs1) in Hall.
  destruct (check_nodes_spec us results (results_found us results Hus Hall) us 0%nat st2 0 0 [] eq_refl
    (unchanged_holds _ _ Hs1 U2)) as (st3 & lines & E3 & Hs3 & Hlines).
  rewrite length_fmap, E3. cbn [mbind option_bind]. exists st3, lines.
  assert (found us ≡ₚ conflicts N adj m) as Hf by (unfold found, conflicts; by rewrite Hus).
  pose proof (g_small N adj G). assert (0 + Z.of_nat (length us) = N) as -> by (rewrite Hus, length_seqZ; lia).
  split; [|split; [done|by rewrite Hlines, Hf]]. apply Permutation_length in Hf.
  rewrite Z.add_0_l, Hf, <- app_assoc. done.
Qed.
End counting.

(** No conflicts: all neighbours have different colours. *)
Lemma no_conflicts N adj m : graph_ok N adj →
  conflicts N adj m = [] ↔ ∀ u v, v ∈ adj u → color_at m u ≠ color_at m v.
Proof.
  intros G. unfold conflicts, clashes. split.
  - intros H u v Hv E. assert (u ∈ adj v) as Hu by (by apply (g_sym _ (g_shape _ _ G))).
    assert ((u, v) ∈ (seqZ 0 N ≫= λ u, pair u <$> filter (λ v, color_at m u = color_at m v) (adj u))) as Hin.
    { apply list_elem_of_bind. exists u. split; [|apply elem_of_seqZ; pose proof (g_range _ _ G v u Hu); lia].
      apply list_elem_of_fmap. exists v. split; [done|]. by apply list_elem_of_filter. }
    rewrite H in Hin. by apply elem_of_nil in Hin.
  - intros H. apply elem_of_nil_inv. intros [u v] (w & Hin & _)%list_elem_of_bind.
    apply list_elem_of_fmap in Hin as (x & [= -> ->] & [E Hx]%list_elem_of_filter). by apply (H w x).
Qed.

Lemma fresh_held N adj m : fresh_store N adj m → graph_held N adj m.
Proof. intros H. split; [apply H|apply H|]. intros u X E. destruct (fs_color _ _ _ H u); congruence. Qed.

Lemma held_colored N adj m u s : graph_held N adj m → graph_held N adj (<[color_key u := AStr s]> m).
Proof.
  intros [H1 H2 H3]. split.
  - intros v Hv. rewrite lookup_insert_ne by distinct_keys. by apply H1.
  - intros k Hk Hs. apply H2; [done|]. rewrite lookup_insert_ne in Hs; [done|]. intros <-. by apply color_not_nodes in Hk.
  - intros v X. destruct (decide (v = u)) as [->|]; [by rewrite lookup_insert_eq|].
    rewrite lookup_insert_ne; [apply H3|]. by intros E%(inj color_key).
Qed.

(** What a colouring run leaves is a graph that the script can check. *)
Lemma proper_held N adj m0 m : fresh_store N adj m0 → proper_store adj m0 m → graph_held N adj m.
Proof.
  intros H0 H. split.
  - intros u Hu. rewrite (ps_graph _ _ _ H) by (by exists (pretty u)). by apply (fs_nbrs _ _ _ H0).
  - intros k Hk. rewrite (ps_graph _ _ _ H) by done. by apply (fs_keys _ _ _ H0).
  - intros u X E. by destruct (ps_small _ _ _ H u _ E) as (c & ? & _).
Qed.

(** A complete proper colouring has no conflicts. *)
Lemma coloured_no_conflicts N adj ranges m0 m : graph_ok N adj → proper_store adj m0 m →
  (∀ u, 0 ≤ u < N → ∃ r, r ∈ ranges ∧ r.1 ≤ u ≤ r.2) → Forall (λ r, all_coloured r m) ranges → conflicts N adj m = [].
Proof.
  intros G H Hcover Hall. apply no_conflicts; [done|].
  assert (∀ u, 0 ≤ u < N → coloured m0 m u ∧ ∃ c, m !! color_key u = Some (AStr c)) as Hu.
  { intros u Hu. destruct (Hcover u Hu) as (r & Hr & Hur). rewrite Forall_forall in Hall.
    destruct (Hall r Hr u Hur) as [Hst [x Hx]]. split; [by left|].
    destruct (ps_small _ _ _ H u x Hx) as (c & -> & _). eauto. }
  intros u v Hv. assert (u ∈ adj v) as Hv' by (by apply (g_sym _ (g_shape _ _ G))).
  destruct (Hu u (g_range _ _ G v u Hv')) as (Cu & x & Ex), (Hu v (g_range _ _ G u v Hv)) as (Cv & y & Ey).
  unfold color_at, string_at. rewrite Ex, Ey. intros [= ->]. by apply (ps_proper _ _ _ H u v _ _ Hv Cu Cv Ex Ey).
Qed.

(** ** Properties *)

(** C12: the checker is exact.  On a server that holds a graph, whatever the
    colours and the order in which keys and neighbours come, it counts every
    pair of a node and a neighbour with the same colour, an absent colour
    included, prints a line for each of them and the number of nodes, and
    changes nothing; the count is 0 exactly when all neighbours have different
    colours. *)
Theorem checker_exact {St : Type} `{!Server St, !KVServer St} (py : redis_py St) N adj (st : St)
    (Hpy : py_ok py) (G : graph_ok N adj) (Hgood : good st) (Hheld : graph_held N adj (kv st)) :
  let errors := conflicts N adj (kv st) in
  let n := Z.of_nat (length errors) in
  (∃ st' lines,
    is_coloring_valid py st = Some (st', n,
      lines ++ ["Total nodes processed: " +:+ pretty N;
        if n =? 0 then "Graph coloring is valid." else "Graph coloring has " +:+ pretty n +:+ " error(s)."]) ∧
    good st' ∧ kv st' = kv st ∧ lines ≡ₚ error_line (kv st) <$> errors) ∧
  (n = 0 ↔ ∀ u v, v ∈ adj u → color_at (kv st) u ≠ color_at (kv st) v).
Proof.
  intros errors n. split.
  - destruct (checker_run py Hpy N adj (kv st) G Hheld st) as (st' & lines & E & [Hg Hk] & Hl); [done|].
    exists st', lines. done.
  - rewrite <- (no_conflicts N adj (kv st) G). unfold n, errors. destruct (conflicts N adj (kv st)); cbn; (split; [done|]); done || lia.
Qed.

(** One node of a triangle has a colour: two errors. *)
Lemma checker_exact_witness :
  let m := <[color_key 0 := AStr "1"]> (graph_map 3 triangle) in
  ∃ st' lines, is_coloring_valid (direct 0) m =
      Some (st', 2, lines ++ ["Total nodes processed: 3"; "Graph coloring has 2 error(s)."]) ∧
    good st' ∧ kv st' = m ∧
    lines ≡ₚ ["Coloring error: Node 1 and Node 2 both have color None";
              "Coloring error: Node 2 and Node 1 both have color None"].
Proof.
  intros m. assert (graph_held 3 triangle m) as Hheld by apply held_colored, fresh_held, graph_map_fresh.
  assert (good m) as Hgood by (cbn; done).
  assert (conflicts 3 triangle m = [(1, 2); (2, 1)]) as Hc by (by vm_compute).
  destruct (checker_exact (direct 0) 3 triangle m (direct_ok 0) triangle_ok Hgood Hheld) as [(st' & lines & E & Hg & Hk & Hl) _].
  change (kv m) with m in *. rewrite Hc in E, Hl. exists st', lines. split; [exact E|]. split; [done|]. split; [done|].
  rewrite Hl. by vm_compute.
Defined.
