(* ===== verification/Util.v ===== *)
(** * Numbers and strings in the Redis server

    The conversions of src/redis/src/util.c that decide how Redis stores what
    the clients send: [digits10], [ull2string], [ll2string] and [string2ll].
    A [char] buffer is a list of characters written by index. *)

From S2P Require Import Prelude CLib.
From Stdlib Require Import Ascii.

Definition LONG_STR_SIZE : Z := 21.

(** ** Printing *)

(** The recursion of [digits10] takes off twelve digits at a time; a 64-bit
    value has at most twenty, so that two rounds are enough. *)
Fixpoint digits10_rounds (fuel : nat) (v : Z) : Z :=
  match fuel with
  | O => 0
  | S fuel =>
      if v <? 10 then 1
      else if v <? 100 then 2
      else if v <? 1000 then 3
      else if v <? 1000000000000 then
        if v <? 100000000 then
          if v <? 1000000 then
            if v <? 10000 then 4
            else 5 + Z.b2z (100000 <=? v)
          else 7 + Z.b2z (10000000 <=? v)
        else if v <? 10000000000 then 9 + Z.b2z (1000000000 <=? v)
        else 11 + Z.b2z (100000000000 <=? v)
      else 12 + digits10_rounds fuel (v / 1000000000000)
  end.

Definition digits10 (v : Z) : Z := digits10_rounds 2 v.

Definition sdigits10 (v : Z) : Z :=
  if v <? 0 then
    let uv := if v =? LLONG_MIN then LLONG_MAX + 1 else - v in
    digits10 uv + 1
  else digits10 v.

(** The table of two-digit numerals. *)
Definition digits : string :=
  "0001020304050607080910111213141516171819" +:+
  "2021222324252627282930313233343536373839" +:+
  "4041424344454647484950515253545556575859" +:+
  "6061626364656667686970717273747576777879" +:+
  "8081828384858687888990919293949596979899".

Definition digit_at (i : Z) : ascii := default NUL (String.get (Z.to_nat i) digits).

Definition put (i : Z) (c : ascii) (dst : list ascii) : list ascii := <[Z.to_nat i := c]> dst.

(** The loop that fills the buffer from the right, two digits at a time, and
    the last one or two digits.  A 64-bit value loses two digits per round. *)
Fixpoint fill_digits (fuel : nat) (dst : list ascii) (next value : Z) : list ascii :=
  match fuel with
  | O => dst
  | S fuel =>
      if 100 <=? value then
        let i := value mod 100 * 2 in
        let dst := put next (digit_at (i + 1)) dst in
        let dst := put (next - 1) (digit_at i) dst in
        fill_digits fuel dst (next - 2) (value / 100)
      else if value <? 10 then
        put next (ascii_of_N (48 + Z.to_N value)) dst
      else
        let i := value * 2 in
        let dst := put next (digit_at (i + 1)) dst in
        put (next - 1) (digit_at i) dst
  end.

(** The string left in a buffer of [dstlen] characters, or [None] for the
    return value 0. *)
Definition ull2string (dstlen value : Z) : option string :=
  let length := digits10 value in
  if dstlen <=? length then None
  else Some (String.string_of_list_ascii
               (fill_digits 10 (replicate (Z.to_nat length) NUL) (length - 1) value)).

Definition ll2string (dstlen svalue : Z) : option string :=
  if svalue <? 0 then
    let value := if svalue =? LLONG_MIN then LLONG_MAX + 1 else - svalue in
    if dstlen <? 2 then None
    else match ull2string (dstlen - 1) value with
         | Some s => Some (String "-" s)
         | None => None
         end
  else ull2string dstlen svalue.

(** ** Parsing *)

(** The loop over the digits after the first: the value and what is left, or
    [None] on overflow of [unsigned long long]. *)
Fixpoint parse_digits (v : Z) (p : string) : option (Z * string) :=
  match p with
  | String c p' =>
      if is_digit c then
        if ULLONG_MAX / 10 <? v then None
        else if ULLONG_MAX - digit_val c <? v * 10 then None
        else parse_digits (v * 10 + digit_val c) p'
      else Some (v, p)
  | EmptyString => Some (v, EmptyString)
  end.

(** From the first digit on. *)
Definition parse_magnitude (p : string) : option Z :=
  match p with
  | String c p' =>
      if (49 <=? Z.of_N (N_of_ascii c)) && (Z.of_N (N_of_ascii c) <=? 57) then
        match parse_digits (digit_val c) p' with
        | Some (v, EmptyString) => Some v
        | _ => None
        end
      else None
  | EmptyString => None
  end.

Definition string2ll (s : string) : option Z :=
  if (String.length s =? 0)%nat || (LONG_STR_SIZE <=? Z.of_nat (String.length s)) then None
  else if bool_decide (s = "0") then Some 0
  else match s with
       | EmptyString => None
       | String c p =>
           if bool_decide (c = "-"%char) then
             match parse_magnitude p with
             | Some v =>
                 if (- (LLONG_MIN + 1)) + 1 <? v then None
                 else Some (wrap_s 64 (wrap_u 64 (- v)))
             | None => None
             end
           else
             match parse_magnitude s with
             | Some v => if LLONG_MAX <? v then None else Some v
             | None => None
             end
       end.

Definition string2l (s : string) : option Z :=
  match string2ll s with
  | Some v => if (v <? LLONG_MIN) || (LLONG_MAX <? v) then None else Some v
  | None => None
  end.

(** ** Decimal lengths *)

Lemma pretty_N_length_eq (x : N) (d : nat) :
  (10 ^ N.of_nat d ≤ x < 10 ^ N.of_nat (S d))%N → String.length (pretty x) = S d.
Proof.
  revert x. induction d as [|d IH]; intros x [Hlo Hhi].
  - rewrite pretty_N_small by (simpl in Hhi; lia). done.
  - replace (N.of_nat (S (S d))) with (N.succ (N.of_nat (S d))) in Hhi by lia.
    rewrite N.pow_succ_r' in Hhi.
    replace (N.of_nat (S d)) with (N.succ (N.of_nat d)) in Hlo by lia.
    rewrite N.pow_succ_r' in Hlo.
    rewrite pretty_N_step, string_length_app.
    + rewrite IH; [simpl; lia|]. split.
      * apply N.div_le_lower_bound; lia.
      * apply N.Div0.div_lt_upper_bound. lia.
    + pose proof (N.pow_nonzero 10 (N.of_nat d)). nia.
Qed.

(** Lengths by powers of ten, as [digits10] tests them. *)
Lemma pretty_Z_length_eq (v : Z) (d : nat) :
  10 ^ Z.of_nat d ≤ v < 10 ^ Z.of_nat (S d) →
  Z.of_nat (String.length (pretty v)) = Z.of_nat (S d).
Proof.
  intros Hv. assert (0 < 10 ^ Z.of_nat d) by (apply Z.pow_pos_nonneg; lia).
  rewrite pretty_Z_nonneg by lia. f_equal. apply pretty_N_length_eq.
  replace 10%N with (Z.to_N 10) by done.
  rewrite <- !nat_N_Z in Hv. split.
  - apply N2Z.inj_le. rewrite N2Z.inj_pow, !Z2N.id by lia. lia.
  - apply N2Z.inj_lt. rewrite N2Z.inj_pow, !Z2N.id by lia. lia.
Qed.

Lemma pretty_Z_length_1 (v : Z) : 0 ≤ v < 10 → Z.of_nat (String.length (pretty v)) = 1.
Proof. intros Hv. rewrite pretty_Z_nonneg, pretty_N_small by lia. done. Qed.

Ltac decimal_length d := rewrite (pretty_Z_length_eq _ d); [done|simpl; lia].

Lemma digits10_small f v :
  0 ≤ v < 10 ^ 12 → digits10_rounds (S f) v = Z.of_nat (String.length (pretty v)).
Proof.
  intros Hv. change (10 ^ 12) with 1000000000000 in Hv. cbn [digits10_rounds].
  destruct (Z.ltb_spec v 10); [by rewrite pretty_Z_length_1 by lia|].
  destruct (Z.ltb_spec v 100); [by decimal_length 1%nat|].
  destruct (Z.ltb_spec v 1000); [by decimal_length 2%nat|].
  destruct (Z.ltb_spec v 1000000000000); [|lia].
  destruct (Z.ltb_spec v 100000000).
  - destruct (Z.ltb_spec v 1000000).
    + destruct (Z.ltb_spec v 10000); [by decimal_length 3%nat|].
      destruct (Z.leb_spec 100000 v); [by decimal_length 5%nat|by decimal_length 4%nat].
    + destruct (Z.leb_spec 10000000 v); [by decimal_length 7%nat|by decimal_length 6%nat].
  - destruct (Z.ltb_spec v 10000000000).
    + destruct (Z.leb_spec 1000000000 v); [by decimal_length 9%nat|by decimal_length 8%nat].
    + destruct (Z.leb_spec 100000000000 v); [by decimal_length 11%nat|by decimal_length 10%nat].
Qed.

Lemma decimal_bounds (x : N) :
  (0 < x)%N → ∃ d : nat, 10 ^ Z.of_nat d ≤ Z.of_N x < 10 ^ Z.of_nat (S d).
Proof.
  induction x as [x Hx|x Hx IH] using decimal_ind; intros Hpos.
  - exists O. simpl. lia.
  - destruct IH as [d Hd]; [apply N.div_str_pos; lia|]. exists (S d).
    rewrite N2Z.inj_div in Hd. rewrite !Nat2Z.inj_succ, !Z.pow_succ_r in * by lia.
    pose proof (Z.div_mod (Z.of_N x) 10). pose proof (Z.mod_pos_bound (Z.of_N x) 10). lia.
Qed.

Lemma digits10_length v :
  0 ≤ v < 2 ^ 64 → digits10 v = Z.of_nat (String.length (pretty v)).
Proof.
  intros Hv. unfold digits10. destruct (decide (v < 10 ^ 12)) as [Hs|Hb].
  { apply digits10_small. lia. }
  change (10 ^ 12) with 1000000000000 in Hb. change (2 ^ 64) with 18446744073709551616 in Hv.
  set (w := v / 1000000000000).
  assert (0 < w) by (apply Z.div_str_pos; lia).
  assert (w < 10 ^ 12) by (apply Z.div_lt_upper_bound; [done|]; lia).
  assert (digits10_rounds 2 v = 12 + digits10_rounds 1 w) as ->.
  { unfold digits10_rounds at 1.
    rewrite (proj2 (Z.ltb_ge v 10)), (proj2 (Z.ltb_ge v 100)), (proj2 (Z.ltb_ge v 1000)),
      (proj2 (Z.ltb_ge v 1000000000000)) by lia. done. }
  rewrite digits10_small by lia.
  destruct (decimal_bounds (Z.to_N w)) as [d Hd]; [lia|]. rewrite Z2N.id in Hd by lia.
  rewrite (pretty_Z_length_eq w d Hd), (pretty_Z_length_eq v (d + 12)); [lia|].
  pose proof (Z.div_mod v 1000000000000). pose proof (Z.mod_pos_bound v 1000000000000).
  replace (Z.of_nat (S (d + 12))) with (Z.of_nat (S d) + 12) by lia.
  replace (Z.of_nat (d + 12)) with (Z.of_nat d + 12) by lia.
  rewrite !Z.pow_add_r by lia. change (10 ^ 12) with 1000000000000. fold w in H1. nia.
Qed.

(** ** The printed value *)

Lemma digit_at_pair (k : nat) :
  (k < 100)%nat →
  digit_at (2 * Z.of_nat k) = pretty_N_char (N.of_nat k / 10) ∧
  digit_at (2 * Z.of_nat k + 1) = pretty_N_char (N.of_nat k mod 10).
Proof.
  intros Hk. assert (Forall (λ k, digit_at (2 * Z.of_nat k) = pretty_N_char (N.of_nat k / 10) ∧
    digit_at (2 * Z.of_nat k + 1) = pretty_N_char (N.of_nat k mod 10)) (seq 0 100)) as H.
  { repeat (constructor; [done|]). constructor. }
  rewrite Forall_forall in H. apply H, elem_of_seq. lia.
Qed.

Abbreviation chars := String.list_ascii_of_string.

Lemma chars_app a b : chars (a +:+ b) = chars a ++ chars b.
Proof. induction a; simpl; [done|]. by f_equal. Qed.

Lemma chars_length s : length (chars s) = String.length s.
Proof. induction s; simpl; congruence. Qed.

Lemma put_app_r (l r : list ascii) (i : Z) c :
  Z.of_nat (length l) ≤ i → put i c (l ++ r) = l ++ put (i - Z.of_nat (length l)) c r.
Proof.
  intros Hi. unfold put. rewrite insert_app_r_alt by lia. do 2 f_equal. lia.
Qed.

(** The two low digits of a value of three digits or more. *)
Lemma pretty_two_digits (x : N) :
  (100 ≤ x)%N →
  pretty x = pretty (x / 100)%N +:+ String (pretty_N_char (x / 10 mod 10))
    (String (pretty_N_char (x mod 10)) "").
Proof.
  intros Hx. rewrite pretty_N_step by lia. rewrite (pretty_N_step (x / 10)).
  - rewrite N.Div0.div_div, <- string_app_assoc. done.
  - apply N.div_le_lower_bound; lia.
Qed.

Lemma digit_pair_N (k : N) :
  (k < 100)%N →
  digit_at (Z.of_N k * 2) = pretty_N_char (k / 10) ∧
  digit_at (Z.of_N k * 2 + 1) = pretty_N_char (k mod 10).
Proof.
  intros Hk. destruct (digit_at_pair (N.to_nat k)) as [H1 H2]; [lia|].
  rewrite N2Nat.id in H1, H2. rewrite <- H1, <- H2. split; f_equal; lia.
Qed.

Lemma ascii_digit (x : N) : (x < 10)%N → ascii_of_N (48 + x) = pretty_N_char x.
Proof.
  intros Hx.
  assert (x = 0 ∨ x = 1 ∨ x = 2 ∨ x = 3 ∨ x = 4 ∨ x = 5 ∨ x = 6 ∨ x = 7
          ∨ x = 8 ∨ x = 9)%N as Hc by lia.
  repeat destruct Hc as [->|Hc]; try subst x; reflexivity.
Qed.

(** Writing two characters at the end of a prefix. *)
Lemma put_pair (d0 rest : list ascii) a b c d n :
  n = Z.of_nat (length d0) + 1 →
  put (n - 1) d (put n c ((d0 ++ [a; b]) ++ rest)) = d0 ++ [d; c] ++ rest.
Proof.
  intros ->. rewrite <- app_assoc. rewrite put_app_r by lia. rewrite put_app_r by lia.
  unfold put. simpl.
  replace (Z.to_nat (Z.of_nat (length d0) + 1 - Z.of_nat (length d0))) with 1%nat by lia.
  replace (Z.to_nat (Z.of_nat (length d0) + 1 - 1 - Z.of_nat (length d0))) with 0%nat by lia.
  done.
Qed.

Lemma split_two (l : list ascii) n :
  length l = (n + 2)%nat → ∃ d0 a b, l = d0 ++ [a; b] ∧ length d0 = n.
Proof.
  intros Hl. pose proof (take_drop n l) as Ht.
  assert (length (drop n l) = 2%nat) as Hd by (rewrite length_drop; lia).
  destruct (drop n l) as [|a [|b [|]]]; try done.
  exists (take n l), a, b. split; [done|]. rewrite length_take. lia.
Qed.

Lemma mod_100 (x : N) :
  (x mod 100 / 10 = x / 10 mod 10 ∧ x mod 100 mod 10 = x mod 10)%N.
Proof.
  change 100%N with (10 * 10)%N. rewrite N.Div0.mod_mul_r, N.mul_comm.
  pose proof (N.mod_lt x 10 ltac:(done)). split.
  - rewrite N.div_add by done. rewrite N.div_small by done. lia.
  - rewrite N.Div0.mod_add. by apply N.mod_small.
Qed.

Lemma fill_digits_spec fuel (x : N) dst rest :
  (String.length (pretty x) ≤ 2 * fuel)%nat → length dst = String.length (pretty x) →
  fill_digits fuel (dst ++ rest) (Z.of_nat (length dst) - 1) (Z.of_N x) =
    chars (pretty x) ++ rest.
Proof.
  revert x dst rest. induction fuel as [|fuel IH]; intros x dst rest Hf Hlen.
  { pose proof (pretty_N_nonempty x). destruct (pretty x); [done|simpl in Hf; lia]. }
  cbn [fill_digits]. destruct (Z.leb_spec 100 (Z.of_N x)) as [Hx|Hx].
  - pose proof (pretty_two_digits x ltac:(lia)) as Hp. rewrite Hp in Hlen, Hf |- *.
    rewrite string_length_app in Hlen, Hf. simpl in Hlen, Hf.
    destruct (split_two dst _ Hlen) as (d0 & a & b & -> & Hd0).
    destruct (digit_pair_N (x mod 100)) as [H1 H2]; [by apply N.mod_lt|].
    rewrite N2Z.inj_mod in H1, H2. change (Z.of_N 100) with 100 in *.
    rewrite put_pair by (rewrite length_app; simpl; lia).
    rewrite H1, H2, chars_app, <- (app_assoc _ _ rest). simpl.
    replace (Z.of_nat (length (d0 ++ [a; b])) - 1 - 2) with (Z.of_nat (length d0) - 1)
      by (rewrite length_app; simpl; lia).
    replace (Z.of_N x / 100) with (Z.of_N (x / 100)) by (by rewrite N2Z.inj_div).
    destruct (mod_100 x) as [-> ->]. by rewrite IH by lia.
  - destruct (Z.ltb_spec (Z.of_N x) 10) as [Hs|Hs].
    + rewrite pretty_N_small in Hlen |- * by lia. simpl in Hlen.
      destruct dst as [|a [|]]; try done. simpl. rewrite N2Z.id, ascii_digit by lia. done.
    + rewrite pretty_N_step in Hlen |- * by lia.
      assert (x / 10 < 10)%N by (apply N.Div0.div_lt_upper_bound; lia).
      rewrite (pretty_N_small (x / 10)) in Hlen |- * by done. simpl in Hlen.
      destruct (digit_pair_N x) as [H1 H2]; [lia|].
      rewrite H1, H2. destruct dst as [|a [|b [|]]]; try done.
Qed.

Lemma string_of_chars s : String.string_of_list_ascii (chars s) = s.
Proof. apply String.string_of_list_ascii_of_string. Qed.

Lemma ull2string_pretty dstlen v :
  0 ≤ v < 2 ^ 64 → Z.of_nat (String.length (pretty v)) < dstlen →
  ull2string dstlen v = Some (pretty v).
Proof.
  intros Hv Hd. unfold ull2string. rewrite digits10_length by done.
  assert (String.length (pretty v) ≤ 20)%nat as Hlen.
  { rewrite pretty_Z_nonneg by lia. apply (pretty_N_length _ 19). simpl. lia. }
  destruct (Z.leb_spec dstlen (Z.of_nat (String.length (pretty v)))); [lia|].
  rewrite Nat2Z.id.
  pose proof (fill_digits_spec 10 (Z.to_N v)
    (replicate (String.length (pretty v)) NUL) []) as Hfill.
  rewrite length_replicate, Z2N.id, !app_nil_r in Hfill by lia.
  rewrite <- pretty_Z_nonneg in Hfill by lia.
  rewrite Hfill by (done || lia). by rewrite string_of_chars.
Qed.

(** ** The parsed value *)

Lemma digits_value_ge v s : 0 ≤ v → all_digits s → v ≤ digits_value v s.
Proof.
  revert v. induction s as [|c s IH]; intros v Hv Hs; simpl; [lia|]. destruct Hs as [Hc Hs].
  unfold is_digit in Hc. reflect_bools. etrans; [|apply IH; [|done]]; unfold digit_val; lia.
Qed.

(** The loop succeeds on digits whose value fits, and only on them. *)
Lemma parse_digits_fits v s :
  0 ≤ v → all_digits s → digits_value v s ≤ ULLONG_MAX →
  parse_digits v s = Some (digits_value v s, "").
Proof.
  revert v. induction s as [|c s IH]; intros v Hv Hs Hle; simpl; [done|].
  destruct Hs as [Hc Hs]. rewrite Hc. simpl in Hle.
  pose proof Hc as Hd. unfold is_digit in Hd. reflect_bools.
  assert (0 ≤ digit_val c ≤ 9) by (unfold digit_val; lia).
  pose proof (digits_value_ge (v * 10 + digit_val c) s ltac:(lia) Hs).
  destruct (Z.ltb_spec (ULLONG_MAX / 10) v) as [Ho|_].
  { pose proof (Z.mul_succ_div_gt ULLONG_MAX 10). lia. }
  destruct (Z.ltb_spec (ULLONG_MAX - digit_val c) (v * 10)); [lia|].
  apply IH; [lia|done|done].
Qed.

Lemma parse_digits_all v s r :
  0 ≤ v → parse_digits v s = Some (r, "") →
  all_digits s ∧ r = digits_value v s ∧ (v ≤ ULLONG_MAX → r ≤ ULLONG_MAX).
Proof.
  revert v. induction s as [|c s IH]; intros v Hv H; simpl in *; [by simplify_eq|].
  destruct (is_digit c) eqn:Hc; [|by simplify_eq].
  repeat case_hyp H; try done. pose proof Hc as Hd. unfold is_digit in Hd. reflect_bools.
  destruct (IH (v * 10 + digit_val c)) as (? & ? & Hr);
    [unfold digit_val; lia|done|]. repeat split; auto. intros. apply Hr. lia.
Qed.

(** Digit strings without leading zero are numerals. *)
Lemma string_snoc s : s = "" ∨ ∃ s' c, s = s' +:+ String c "".
Proof.
  induction s as [|c s [->|(s' & d & ->)]]; [by left|right..].
  - by exists "", c.
  - by exists (String c s'), d.
Qed.

Lemma digit_char d : is_digit d = true → pretty_N_char (Z.to_N (digit_val d)) = d.
Proof.
  intros Hd. unfold is_digit in Hd. reflect_bools. unfold digit_val.
  rewrite <- ascii_digit by lia.
  replace (48 + Z.to_N (Z.of_N (N_of_ascii d) - 48))%N with (N_of_ascii d) by lia.
  apply ascii_N_embedding.
Qed.

Lemma digit_val_range c : is_digit c = true → 0 ≤ digit_val c ≤ 9.
Proof. unfold is_digit, digit_val. intros. reflect_bools. lia. Qed.

Lemma canonical_numeral n c s :
  String.length s = n → all_digits (String c s) → c ≠ "0"%char →
  0 < digits_value 0 (String c s) ∧ pretty (digits_value 0 (String c s)) = String c s.
Proof.
  revert s. induction n as [n IH] using lt_wf_ind. intros s Hn Hd Hc.
  destruct (string_snoc s) as [->|(s' & d & ->)].
  - destruct Hd as [Hd _]. pose proof (digit_val_range c Hd).
    cbn [digits_value]. rewrite Z.mul_0_l, Z.add_0_l.
    assert (digit_val c ≠ 0) as Hne.
    { intros H0. apply Hc. rewrite <- (digit_char c Hd), H0. done. }
    split; [lia|]. rewrite pretty_Z_nonneg, pretty_N_small by lia. by rewrite digit_char.
  - rewrite (eq_refl : String c (s' +:+ String d "") = String c s' +:+ String d "") in *.
    apply all_digits_app in Hd as [Hd [Hdd _]].
    rewrite string_length_app in Hn. simpl in Hn.
    destruct (IH (String.length s') ltac:(lia) s' eq_refl Hd Hc) as [Hpos Hp].
    rewrite digits_value_app. set (v := digits_value 0 (String c s')) in *.
    cbn [digits_value]. pose proof (digit_val_range d Hdd) as Hr. split; [lia|].
    rewrite pretty_Z_nonneg, pretty_N_step by lia. f_equal.
    + rewrite <- Hp, pretty_Z_nonneg by lia. f_equal.
      rewrite (Z2N.inj_add (v * 10)), Z2N.inj_mul by lia. rewrite N.div_add_l by done.
      rewrite N.div_small by (simpl; lia). lia.
    + f_equal. rewrite (Z2N.inj_add (v * 10)), Z2N.inj_mul by lia.
      change (Z.to_N 10) with 10%N. rewrite N.add_comm, N.Div0.mod_add, N.mod_small by lia.
      by apply digit_char.
Qed.

Lemma pretty_N_leading (x : N) : (0 < x)%N → ∀ c s, pretty x = String c s → c ≠ "0"%char.
Proof.
  induction x as [x Hx|x Hx IH] using decimal_ind; intros Hpos c s Hp ->.
  - rewrite pretty_N_small in Hp by done. injection Hp as Hp _.
    pose proof (proj2 (pretty_char_spec x Hx)) as Hv. rewrite Hp in Hv.
    change (digit_val "0") with 0 in Hv. lia.
  - rewrite pretty_N_step in Hp by done.
    assert (0 < x / 10)%N by (apply N.div_str_pos; lia).
    pose proof (pretty_N_nonempty (x / 10)).
    destruct (pretty (x / 10)%N) as [|c' s'] eqn:E; [done|].
    injection Hp as -> _. by eapply IH.
Qed.

Lemma parse_magnitude_pretty v :
  0 < v ≤ ULLONG_MAX → parse_magnitude (pretty v) = Some v.
Proof.
  intros Hv. rewrite pretty_Z_nonneg by lia.
  pose proof (pretty_N_value (Z.to_N v)) as Hval. rewrite Z2N.id in Hval by lia.
  pose proof (pretty_N_digits (Z.to_N v)) as Hd.
  pose proof (pretty_N_nonempty (Z.to_N v)) as Hne.
  pose proof (pretty_N_leading (Z.to_N v)) as Hl.
  destruct (pretty (Z.to_N v)) as [|c s]; [done|]. clear Hne.
  destruct Hd as [Hc Hs]. cbn [digits_value] in Hval.
  rewrite Z.mul_0_l, Z.add_0_l in Hval. cbn [parse_magnitude].
  pose proof (Hl ltac:(lia) c s eq_refl) as Hc0.
  assert ((49 <=? Z.of_N (N_of_ascii c)) && (Z.of_N (N_of_ascii c) <=? 57) = true) as ->.
  { unfold is_digit in Hc. reflect_bools. apply andb_true_iff. split; apply Z.leb_le; [|lia].
    destruct (decide (Z.of_N (N_of_ascii c) = 48)); [|lia].
    destruct Hc0. rewrite <- (ascii_N_embedding c). by replace (N_of_ascii c) with 48%N by lia. }
  pose proof (digit_val_range c Hc). rewrite parse_digits_fits by (done || lia).
  by rewrite Hval.
Qed.

Lemma parse_magnitude_canonical p v :
  parse_magnitude p = Some v → 0 < v ≤ ULLONG_MAX ∧ p = pretty v.
Proof.
  destruct p as [|c p]; [done|]. cbn [parse_magnitude]. intros H.
  destruct ((49 <=? Z.of_N (N_of_ascii c)) && _) eqn:Hc; [|done].
  destruct (parse_digits (digit_val c) p) as [[r [|]]|] eqn:Hp; simplify_eq.
  reflect_bools. assert (is_digit c = true) as Hd.
  { unfold is_digit. apply andb_true_iff. split; apply Z.leb_le; lia. }
  pose proof (digit_val_range c Hd).
  destruct (parse_digits_all (digit_val c) p v ltac:(lia) Hp) as (Hall & -> & Hle).
  destruct (canonical_numeral _ c p eq_refl) as [Hpos Hpr]; [done| |].
  { intros ->. vm_compute in H. done. }
  cbn [digits_value] in Hpos, Hpr. rewrite Z.mul_0_l, Z.add_0_l in Hpos, Hpr. split; [|done]. split; [done|]. apply Hle. unfold_ints. lia.
Qed.

Lemma pretty_llong_length v : in_llong v → (String.length (pretty v) ≤ 20)%nat.
Proof.
  intros Hv. destruct (decide (0 ≤ v)).
  - rewrite pretty_Z_nonneg by done. etrans; [apply (pretty_N_length _ 18)|lia].
    simpl. ints.
  - rewrite pretty_Z_neg by lia. simpl.
    enough (String.length (pretty (Z.to_N (- v))) ≤ 19)%nat by lia.
    apply (pretty_N_length _ 18). simpl. ints.
Qed.

(** The buffer of [LONG_STR_SIZE] characters is large enough for every
    [long long]. *)
Lemma ll2string_pretty dstlen v :
  in_llong v → LONG_STR_SIZE ≤ dstlen → ll2string dstlen v = Some (pretty v).
Proof.
  intros Hv Hd. unfold LONG_STR_SIZE in Hd. pose proof (pretty_llong_length v Hv) as Hl.
  unfold ll2string. destruct (Z.ltb_spec v 0).
  - destruct (Z.ltb_spec dstlen 2); [lia|].
    assert ((if v =? LLONG_MIN then LLONG_MAX + 1 else - v) = - v) as ->.
    { destruct (Z.eqb_spec v LLONG_MIN) as [->|]; done. }
    rewrite (pretty_Z_neg v) in Hl |- * by lia. rewrite <- pretty_Z_nonneg in Hl |- * by lia.
    simpl in Hl. rewrite ull2string_pretty by (lia || ints). done.
  - apply ull2string_pretty; [ints|lia].
Qed.

Lemma wrap_neg v : 0 ≤ v ≤ 2 ^ 63 → wrap_s 64 (wrap_u 64 (- v)) = - v.
Proof.
  intros Hv. unfold wrap_s, wrap_u. rewrite Zplus_mod_idemp_l. rewrite Z.mod_small by lia. lia.
Qed.

Lemma string2ll_spec (s : string) (v : Z) :
  string2ll s = Some v ↔ in_llong v ∧ s = pretty v.
Proof.
  unfold string2ll, LONG_STR_SIZE. split.
  - intros H. case_hyp H; [done|]. case_hyp H; [by simplify_eq|].
    destruct s as [|c s]; [done|].
    case_bool_decide as Hc.
    + subst c. destruct (parse_magnitude s) as [m|] eqn:Hm; [|done]. case_hyp H; [done|].
      apply parse_magnitude_canonical in Hm as [Hm ->].
      rewrite wrap_neg in H by (unfold_ints; lia). simplify_eq.
      split; [unfold_ints; lia|]. rewrite (pretty_Z_neg (- m)) by lia.
      rewrite Z.opp_involutive. by rewrite (pretty_Z_nonneg m) by lia.
    + destruct (parse_magnitude (String c s)) as [m|] eqn:Hm; [|done].
      case_hyp H; [done|]. simplify_eq.
      apply parse_magnitude_canonical in Hm as [Hm ->]. split; [unfold_ints; lia|done].
  - intros [Hv ->]. pose proof (pretty_llong_length v Hv) as Hlen.
    assert (String.length (pretty v) ≠ 0)%nat as Hne.
    { destruct (decide (0 ≤ v)); [|by rewrite pretty_Z_neg by lia].
      rewrite pretty_Z_nonneg by lia. pose proof (pretty_N_nonempty (Z.to_N v)).
      by destruct (pretty (Z.to_N v)). }
    rewrite (proj2 (Nat.eqb_neq _ _) Hne).
    rewrite (proj2 (Z.leb_gt 21 _)) by lia. simpl orb.
    case_bool_decide as H0.
    { change "0" with (pretty 0) in H0. apply (inj pretty) in H0. by subst. }
    destruct (decide (v < 0)) as [Hneg|Hpos].
    + rewrite (pretty_Z_neg v), <- pretty_Z_nonneg by lia. cbn [String.append].
      rewrite bool_decide_eq_true_2 by done. rewrite parse_magnitude_pretty by ints.
      destruct (Z.ltb_spec (- (LLONG_MIN + 1) + 1) (- v)); [ints|].
      rewrite wrap_neg by ints. by rewrite Z.opp_involutive.
    + assert (v ≠ 0) by (intros ->; by apply H0).
      pose proof (parse_magnitude_pretty v ltac:(ints)) as Hm.
      pose proof (pretty_N_digits (Z.to_N v)) as Hd. rewrite <- pretty_Z_nonneg in Hd by lia.
      destruct (pretty v) as [|c s]; [done|]. destruct Hd as [Hd _].
      rewrite bool_decide_eq_false_2 by (by intros ->). rewrite Hm.
      by destruct (Z.ltb_spec LLONG_MAX v); [ints|].
Qed.

(** ** Properties *)

(** C15: [string2ll] accepts exactly the canonical decimal notation of the
    64-bit integers: no spaces, no plus sign, no leading zeroes, no overflow,
    so that a string it accepts can be printed back without loss. *)
Theorem string2ll_canonical (s : string) (v : Z) :
  string2ll s = Some v ↔ in_llong v ∧ s = pretty v.
Proof. apply string2ll_spec. Qed.

(** What [ll2string] prints into a buffer of [LONG_STR_SIZE] characters or
    more is read back by [string2ll], for every [long long]. *)
Theorem ll2string_string2ll dstlen v (Hv : in_llong v) (Hd : LONG_STR_SIZE ≤ dstlen) :
  ll2string dstlen v ≫= string2ll = Some v.
Proof. rewrite ll2string_pretty by done. simpl. by apply string2ll_spec. Qed.

Lemma ll2string_string2ll_witness :
  ll2string 21 (-9223372036854775808) ≫= string2ll = Some (-9223372036854775808).
Proof. apply (ll2string_string2ll 21 (-9223372036854775808)); [split; done|done]. Defined.
