(* ===== verification/Dict.v ===== *)
(** * Hash tables

    src/redis/src/dict.c: two tables of chained entries, the second of which
    is used while the entries move from one size to another, a bucket at a
    time.  The model has the incremental rehashing, resizing, lookup, insertion,
    deletion, the stateless scan and the iterator.

    A bucket is a chain as the tagged pointers of dict.c make it: an entry with
    a value, an entry without one, or a bare key, which has no next entry.  The
    hash function is a parameter, and so is whether the address of a key is
    odd; keys are compared by equality; memory allocation succeeds.  [None] is
    a failed assertion or an invalid access. *)

From S2P Require Import Prelude.

Definition HASHTABLE_MIN_FILL : Z := 8.
Definition DICT_HT_INITIAL_EXP : Z := 2.
Definition DICT_HT_INITIAL_SIZE : Z := Z.shiftl 1 DICT_HT_INITIAL_EXP.
Definition dict_force_resize_ratio : Z := 4.
Definition LONG_MAX : Z := 2 ^ 63 - 1.

Inductive dictResizeEnable : Set := DICT_RESIZE_ENABLE | DICT_RESIZE_AVOID | DICT_RESIZE_FORBID.

#[export] Instance dictResizeEnable_eq_dec : EqDecision dictResizeEnable.
Proof. solve_decision. Defined.

(** The members of [dictType] that change what the functions do.
    [resizeAllowed] gets the memory and the two numbers of the ratio. *)
Record dictType : Type := mkDictType {
  no_value : bool;
  keys_are_odd : bool;
  resizeAllowed : option (Z → Z → Z → bool);
}.

Definition DICTHT_SIZE (exp : Z) : Z := if exp =? -1 then 0 else Z.shiftl 1 exp.
Definition DICTHT_SIZE_MASK (exp : Z) : Z := if exp =? -1 then 0 else DICTHT_SIZE exp - 1.

(** "Our hash table capability is a power of two"; [__builtin_clzl] counts the
    zeros before the first bit. *)
Definition _dictNextExp (size : Z) : Z :=
  if size <=? DICT_HT_INITIAL_SIZE then DICT_HT_INITIAL_EXP
  else if LONG_MAX <=? size then 63
  else Z.log2 (size - 1) + 1.

Section dict.
Context {K V : Type} `{!EqDecision K}.
Variable hash : K → Z.
Variable odd_key : K → bool.

(** ** Entries *)

Inductive chain : Type :=
| CNull
| CKey (k : K)
| CNoValue (k : K) (next : chain)
| CEntry (k : K) (v : V) (next : chain).

(** The key of an entry, and its value when it has one. *)
Definition entry : Type := K * option V.

Definition first (c : chain) : option (entry * chain) :=
  match c with
  | CNull => None
  | CKey k => Some ((k, None), CNull)
  | CNoValue k next => Some ((k, None), next)
  | CEntry k v next => Some ((k, Some v), next)
  end.

Definition is_null (c : chain) : bool := match c with CNull => true | _ => false end.

Definition dictSetNext (de next : chain) : option chain :=
  match de with
  | CNoValue k _ => Some (CNoValue k next)
  | CEntry k v _ => Some (CEntry k v next)
  | CNull | CKey _ => None
  end.

(** The fields of one of the two tables; NULL is the empty list. *)
Record hashtable : Type := mkHt {
  ht_table : list chain;
  ht_used : Z;
  ht_size_exp : Z;
}.

Record dict : Type := mkDict {
  ht0 : hashtable;
  ht1 : hashtable;
  rehashidx : Z;
  pauserehash : Z;
  pauseAutoResize : Z;
}.

Definition _dictReset : hashtable := mkHt [] 0 (-1).

Definition dictCreate : dict := mkDict _dictReset _dictReset (-1) 0 0.

Definition set_hts (d : dict) (t0 t1 : hashtable) (i : Z) : dict :=
  mkDict t0 t1 i (pauserehash d) (pauseAutoResize d).

Definition dictIsRehashing (d : dict) : bool := negb (rehashidx d =? -1).
Definition dictSize (d : dict) : Z := ht_used (ht0 d) + ht_used (ht1 d).
Definition size (t : hashtable) : Z := DICTHT_SIZE (ht_size_exp t).
Definition mask (t : hashtable) : Z := DICTHT_SIZE_MASK (ht_size_exp t).

Definition bucket (t : hashtable) (idx : Z) : option chain :=
  if 0 <=? idx then ht_table t !! Z.to_nat idx else None.

Definition set_bucket (t : hashtable) (idx : Z) (c : chain) (used : Z) : hashtable :=
  mkHt (<[Z.to_nat idx := c]> (ht_table t)) used (ht_size_exp t).

Definition dictPauseRehashing (d : dict) : dict :=
  mkDict (ht0 d) (ht1 d) (rehashidx d) (wrap_u 15 (pauserehash d + 1)) (pauseAutoResize d).
Definition dictResumeRehashing (d : dict) : dict :=
  mkDict (ht0 d) (ht1 d) (rehashidx d) (wrap_u 15 (pauserehash d - 1)) (pauseAutoResize d).

(** ** Resizing *)

(** Whether the table was resized. *)
Definition _dictResize (d : dict) (n : Z) : option (dict * bool) :=
  if dictIsRehashing d then None
  else
    let exp := _dictNextExp n in
    let newsize := DICTHT_SIZE exp in
    if (newsize <? n) || (wrap_u 64 (newsize * 8) <? newsize) then Some (d, false)
    else if exp =? ht_size_exp (ht0 d) then Some (d, false)
    else
      let new := mkHt (replicate (Z.to_nat newsize) CNull) 0 exp in
      if bool_decide (ht_table (ht0 d) = []) || (ht_used (ht0 d) =? 0)
      then Some (set_hts d new _dictReset (-1), true)
      else Some (set_hts d (ht0 d) new 0, true).

Definition dictExpand (d : dict) (n : Z) : option (dict * bool) :=
  if dictIsRehashing d || (n <? ht_used (ht0 d)) || (n <=? size (ht0 d)) then Some (d, false)
  else _dictResize d n.

Definition dictShrink (d : dict) (n : Z) : option (dict * bool) :=
  if dictIsRehashing d || (n <? ht_used (ht0 d)) || (size (ht0 d) <=? n) then Some (d, false)
  else _dictResize d n.

(** ** Rehashing *)

Section typed.
Variable T : dictType.

(** The entry of [key] that goes in front of a bucket; [de] is its old one. *)
Definition moved_entry (de b : chain) (key : K) : option chain :=
  if no_value T then
    if keys_are_odd T && is_null b then
      if odd_key key then Some (CKey key) else None
    else match de with
         | CKey k => Some (CNoValue k b)
         | CNoValue k _ => Some (CNoValue k b)
         | _ => None
         end
  else dictSetNext de b.

(** The loop over the entries of a bucket. *)
Fixpoint move_entries (idx : Z) (de : chain) (t0 t1 : hashtable) : option (hashtable * hashtable) :=
  let move (key : K) (nextde : chain) (k : hashtable → hashtable → option (hashtable * hashtable)) :=
    let h := if ht_size_exp t0 <? ht_size_exp t1 then Z.land (hash key) (mask t1) else Z.land idx (mask t1) in
    b ← bucket t1 h;
    de' ← moved_entry de b key;
    k (mkHt (ht_table t0) (ht_used t0 - 1) (ht_size_exp t0)) (set_bucket t1 h de' (ht_used t1 + 1)) in
  match de with
  | CNull => Some (t0, t1)
  | CKey k => move k CNull (λ t0 t1, Some (t0, t1))
  | CNoValue k next => move k next (move_entries idx next)
  | CEntry k v next => move k next (move_entries idx next)
  end.

Definition rehashEntriesInBucketAtIndex (d : dict) (idx : Z) : option dict :=
  de ← bucket (ht0 d) idx;
  '(t0, t1) ← move_entries idx de (ht0 d) (ht1 d);
  Some (set_hts d (set_bucket t0 idx CNull (ht_used t0)) t1 (rehashidx d)).

(** Whether rehashing is complete. *)
Definition dictCheckRehashingCompleted (d : dict) : dict * bool :=
  if negb (ht_used (ht0 d) =? 0) then (d, false)
  else (set_hts d (ht1 d) _dictReset (-1), true).

Variable dict_can_resize : dictResizeEnable.

(** The guards of [dictRehash] and [_dictBucketRehash]. *)
Definition rehash_allowed (d : dict) : bool :=
  let s0 := size (ht0 d) in
  let s1 := size (ht1 d) in
  negb (bool_decide (dict_can_resize = DICT_RESIZE_FORBID) || negb (dictIsRehashing d)) &&
  negb (bool_decide (dict_can_resize = DICT_RESIZE_AVOID) &&
        ((s0 <? s1) && (s1 <? wrap_u 64 (dict_force_resize_ratio * s0)) ||
         (s1 <? s0) && (s0 <? wrap_u 64 (HASHTABLE_MIN_FILL * dict_force_resize_ratio * s1)))).

Definition set_rehashidx (d : dict) (i : Z) : dict := set_hts d (ht0 d) (ht1 d) i.

(** The loop over empty buckets: [true] when there were too many. *)
Fixpoint skip_empty (fuel : nat) (empty_visits : Z) (d : dict) : option (dict * Z * bool) :=
  match fuel with
  | O => None
  | S fuel =>
      b ← bucket (ht0 d) (rehashidx d);
      if is_null b then
        let d := set_rehashidx d (rehashidx d + 1) in
        if empty_visits - 1 =? 0 then Some (d, empty_visits - 1, true)
        else skip_empty fuel (empty_visits - 1) d
      else Some (d, empty_visits, false)
  end.

Fixpoint rehash_loop (n : nat) (empty_visits : Z) (d : dict) : option (dict * bool) :=
  match n with
  | O => Some (d, false)
  | S n =>
      if ht_used (ht0 d) =? 0 then Some (d, false)
      else if negb (rehashidx d <? size (ht0 d)) then None
      else
        '(d, empty_visits, stopped) ← skip_empty (S (length (ht_table (ht0 d)))) empty_visits d;
        if stopped : bool then Some (d, true)
        else
          d ← rehashEntriesInBucketAtIndex d (rehashidx d);
          rehash_loop n empty_visits (set_rehashidx d (rehashidx d + 1))
  end.

(** Whether there are still keys to move. *)
Definition dictRehash (d : dict) (n : nat) : option (dict * bool) :=
  if negb (rehash_allowed d) then Some (d, false)
  else
    '(d, stopped) ← rehash_loop n (Z.of_nat n * 10) d;
    if stopped : bool then Some (d, true)
    else let '(d, completed) := dictCheckRehashingCompleted d in Some (d, negb completed).

(** [rounds] is the number of times that the clock allows. *)
Fixpoint rehash_rounds (rounds : nat) (d : dict) : option dict :=
  '(d, more) ← dictRehash d 100;
  if negb more then Some d
  else match rounds with O => Some d | S rounds => rehash_rounds rounds d end.

Definition dictRehashMicroseconds (d : dict) (rounds : nat) : option dict :=
  if 0 <? pauserehash d then Some d else rehash_rounds rounds d.

Definition _dictRehashStep (d : dict) : option dict :=
  if pauserehash d =? 0 then fst <$> dictRehash d 1 else Some d.

Definition _dictBucketRehash (d : dict) (idx : Z) : option dict :=
  if negb (pauserehash d =? 0) then Some d
  else if negb (rehash_allowed d) then Some d
  else
    d ← rehashEntriesInBucketAtIndex d idx;
    Some (fst (dictCheckRehashingCompleted d)).

(** The step of rehashing that every lookup makes. *)
Definition rehash_for (d : dict) (idx : Z) : option dict :=
  if dictIsRehashing d then
    if rehashidx d <=? idx then
      b ← bucket (ht0 d) idx;
      if is_null b then _dictRehashStep d else _dictBucketRehash d idx
    else _dictRehashStep d
  else Some d.

(** ** Expanding and shrinking when needed *)

Definition dictTypeResizeAllowed (d : dict) (n : Z) : bool :=
  match resizeAllowed T with
  | None => true
  | Some f => f (wrap_u 64 (DICTHT_SIZE (_dictNextExp n) * 8)) (ht_used (ht0 d)) (size (ht0 d))
  end.

(** [true] is [DICT_OK]. *)
Definition dictExpandIfNeeded (d : dict) : option (dict * bool) :=
  if dictIsRehashing d then Some (d, true)
  else if size (ht0 d) =? 0 then '(d, _) ← dictExpand d DICT_HT_INITIAL_SIZE; Some (d, true)
  else if bool_decide (dict_can_resize = DICT_RESIZE_ENABLE) && (size (ht0 d) <=? ht_used (ht0 d)) ||
          negb (bool_decide (dict_can_resize = DICT_RESIZE_FORBID)) &&
            (wrap_u 64 (dict_force_resize_ratio * size (ht0 d)) <=? ht_used (ht0 d))
  then
    if dictTypeResizeAllowed d (ht_used (ht0 d) + 1)
    then '(d, _) ← dictExpand d (ht_used (ht0 d) + 1); Some (d, true)
    else Some (d, true)
  else Some (d, false).

Definition _dictExpandIfNeeded (d : dict) : option dict :=
  if 0 <? pauseAutoResize d then Some d else fst <$> dictExpandIfNeeded d.

Definition dictShrinkIfNeeded (d : dict) : option (dict * bool) :=
  if dictIsRehashing d then Some (d, true)
  else if size (ht0 d) <=? DICT_HT_INITIAL_SIZE then Some (d, true)
  else if bool_decide (dict_can_resize = DICT_RESIZE_ENABLE) &&
            (wrap_u 64 (ht_used (ht0 d) * HASHTABLE_MIN_FILL) <=? size (ht0 d)) ||
          negb (bool_decide (dict_can_resize = DICT_RESIZE_FORBID)) &&
            (wrap_u 64 (ht_used (ht0 d) * HASHTABLE_MIN_FILL * dict_force_resize_ratio) <=? size (ht0 d))
  then
    if dictTypeResizeAllowed d (ht_used (ht0 d))
    then '(d, _) ← dictShrink d (ht_used (ht0 d)); Some (d, true)
    else Some (d, true)
  else Some (d, false).

Definition _dictShrinkIfNeeded (d : dict) : option dict :=
  if 0 <? pauseAutoResize d then Some d else fst <$> dictShrinkIfNeeded d.

(** ** Lookup *)

Fixpoint chain_find (key : K) (c : chain) : option entry :=
  match c with
  | CNull => None
  | CKey k => if decide (key = k) then Some (k, None) else None
  | CNoValue k next => if decide (key = k) then Some (k, None) else chain_find key next
  | CEntry k v next => if decide (key = k) then Some (k, Some v) else chain_find key next
  end.

(** The loop over the two tables from the index of the first one on: the
    table (0 or 1) and the index where it ends, and the entry if it is there. *)
Definition find_in_tables (d : dict) (h idx : Z) (key : K) : option (bool * Z * option entry) :=
  let in_second :=
    let idx := Z.land h (mask (ht1 d)) in
    c ← bucket (ht1 d) idx; Some (true, idx, chain_find key c) in
  if idx <? rehashidx d then in_second
  else
    let idx := Z.land h (mask (ht0 d)) in
    c ← bucket (ht0 d) idx;
    match chain_find key c with
    | Some e => Some (false, idx, Some e)
    | None => if dictIsRehashing d then in_second else Some (false, idx, None)
    end.

Definition dictFind (d : dict) (key : K) : option (dict * option entry) :=
  if dictSize d =? 0 then Some (d, None)
  else
    let h := hash key in
    let idx := Z.land h (mask (ht0 d)) in
    d ← rehash_for d idx;
    '(_, _, e) ← find_in_tables d h idx key;
    Some (d, e).

(** [dictGetVal] needs an entry with a value. *)
Definition dictFetchValue (d : dict) (key : K) : option (dict * option V) :=
  '(d, e) ← dictFind d key;
  match e with
  | None => Some (d, None)
  | Some (_, Some v) => Some (d, Some v)
  | Some (_, None) => None
  end.

(** ** Insertion *)

(** The place of the existing entry, or of the new one, and the entry. *)
Definition dictFindPositionForInsert (d : dict) (key : K) : option (dict * (bool * Z * option entry)) :=
  let h := hash key in
  let idx := Z.land h (mask (ht0 d)) in
  d ← rehash_for d idx;
  d ← _dictExpandIfNeeded d;
  found ← find_in_tables d h idx key;
  Some (d, found).

(** The value is the one that the caller stores in the new entry. *)
Definition new_entry (key : K) (val : V) (b : chain) : option chain :=
  if no_value T then
    if keys_are_odd T && is_null b then if odd_key key then Some (CKey key) else None
    else Some (CNoValue key b)
  else Some (CEntry key val b).

Definition dictInsertAtPosition (d : dict) (key : K) (val : V) (idx : Z) : option dict :=
  if dictIsRehashing d then
    b ← bucket (ht1 d) idx;
    de ← new_entry key val b;
    Some (set_hts d (ht0 d) (set_bucket (ht1 d) idx de (ht_used (ht1 d) + 1)) (rehashidx d))
  else
    b ← bucket (ht0 d) idx;
    de ← new_entry key val b;
    Some (set_hts d (set_bucket (ht0 d) idx de (ht_used (ht0 d) + 1)) (ht1 d) (rehashidx d)).

(** The place of the entry that exists already, [None] when the key is added. *)
Definition dictAddRaw (d : dict) (key : K) (val : V) : option (dict * option (bool * Z)) :=
  '(d, (t, idx, existing)) ← dictFindPositionForInsert d key;
  match existing with
  | Some _ => Some (d, Some (t, idx))
  | None => d ← dictInsertAtPosition d key val idx; Some (d, None)
  end.

(** [true] is [DICT_OK]. *)
Definition dictAdd (d : dict) (key : K) (val : V) : option (dict * bool) :=
  '(d, existing) ← dictAddRaw d key val;
  Some (d, bool_decide (existing = None)).

Fixpoint chain_set (key : K) (val : V) (c : chain) : option chain :=
  match c with
  | CNull => None
  | CKey _ => None
  | CNoValue k next => if decide (key = k) then None else CNoValue k <$> chain_set key val next
  | CEntry k v next => if decide (key = k) then Some (CEntry k val next) else CEntry k v <$> chain_set key val next
  end.

Definition table_of (d : dict) (t : bool) : hashtable := if t then ht1 d else ht0 d.
Definition set_table (d : dict) (t : bool) (h : hashtable) : dict :=
  if t then set_hts d (ht0 d) h (rehashidx d) else set_hts d h (ht1 d) (rehashidx d).

(** [dictSetVal] on the entry of [key] in a bucket. *)
Definition dictSetVal (d : dict) (t : bool) (idx : Z) (key : K) (val : V) : option dict :=
  c ← bucket (table_of d t) idx;
  c ← chain_set key val c;
  Some (set_table d t (set_bucket (table_of d t) idx c (ht_used (table_of d t)))).

(** [true] when the key was added. *)
Definition dictReplace (d : dict) (key : K) (val : V) : option (dict * bool) :=
  '(d, existing) ← dictAddRaw d key val;
  match existing with
  | None => if no_value T then None else Some (d, true)
  | Some (t, idx) => d ← dictSetVal d t idx key val; Some (d, false)
  end.

(** ** Deletion *)

(** The entry that is unlinked and the chain without it. *)
Fixpoint unlink (key : K) (c : chain) : option (entry * chain) :=
  match c with
  | CNull => None
  | CKey k => if decide (key = k) then Some ((k, None), CNull) else None
  | CNoValue k next =>
      if decide (key = k) then Some ((k, None), next)
      else '(e, next) ← unlink key next; Some (e, CNoValue k next)
  | CEntry k v next =>
      if decide (key = k) then Some ((k, Some v), next)
      else '(e, next) ← unlink key next; Some (e, CEntry k v next)
  end.

(** Unlink the entry of [key] in a bucket of a table. *)
Definition unlink_at (d : dict) (t : bool) (idx : Z) (key : K) : option (dict * option entry) :=
  c ← bucket (table_of d t) idx;
  match unlink key c with
  | None => Some (d, None)
  | Some (e, c) =>
      d ← _dictShrinkIfNeeded
        (set_table d t (set_bucket (table_of d t) idx c (ht_used (table_of d t) - 1)));
      Some (d, Some e)
  end.

Definition dictGenericDelete (d : dict) (key : K) : option (dict * option entry) :=
  if dictSize d =? 0 then Some (d, None)
  else
    let h := hash key in
    let idx := Z.land h (mask (ht0 d)) in
    d ← rehash_for d idx;
    let in_second := unlink_at d true (Z.land h (mask (ht1 d))) key in
    if idx <? rehashidx d then in_second
    else
      '(d', e) ← unlink_at d false (Z.land h (mask (ht0 d))) key;
      match e with
      | Some e => Some (d', Some e)
      | None => if dictIsRehashing d then in_second else Some (d, None)
      end.

(** [true] is [DICT_OK]. *)
Definition dictDelete (d : dict) (key : K) : option (dict * bool) :=
  '(d, e) ← dictGenericDelete d key; Some (d, bool_decide (is_Some e)).

Definition dictUnlink (d : dict) (key : K) : option (dict * option entry) := dictGenericDelete d key.

Definition dictEmpty (d : dict) : dict := dictCreate.
End typed.

(** ** The scan *)

Fixpoint chain_list (c : chain) : list entry :=
  match c with
  | CNull => []
  | CKey k => [(k, None)]
  | CNoValue k next => (k, None) :: chain_list next
  | CEntry k v next => (k, Some v) :: chain_list next
  end.
End dict.

Arguments chain : clear implicits.
Arguments entry : clear implicits.
Arguments hashtable : clear implicits.
Arguments dict : clear implicits.

(** The loop of [rev] on an [unsigned long]. *)
Fixpoint rev_loop (fuel : nat) (s mask v : Z) : Z :=
  match fuel with
  | O => v
  | S fuel =>
      let s := Z.shiftr s 1 in
      if s <=? 0 then v
      else
        let mask := Z.lxor mask (wrap_u 64 (Z.shiftl mask s)) in
        rev_loop fuel s mask
          (Z.lor (Z.land (Z.shiftr v s) mask) (Z.land (wrap_u 64 (Z.shiftl v s)) (wrap_u 64 (Z.lnot mask))))
  end.

(** "Function to reverse bits." *)
Definition rev (v : Z) : Z := rev_loop 7 64 (2 ^ 64 - 1) v.

(** Set the bits outside of a mask and increment the reversed cursor. *)
Definition next_cursor (v m : Z) : Z :=
  rev (wrap_u 64 (rev (Z.lor v (wrap_u 64 (Z.lnot m))) + 1)).

Section scan.
Context {K V : Type}.

(** The loop over the expansions of the cursor in the larger table: the cursor
    and the entries that the callback gets. *)
Fixpoint scan_larger (fuel : nat) (t1 : hashtable K V) (m0 v : Z) : option (Z * list (entry K V)) :=
  match fuel with
  | O => None
  | S fuel =>
      c ← bucket t1 (Z.land v (mask t1));
      let v := next_cursor v (mask t1) in
      if Z.land v (Z.lxor m0 (mask t1)) =? 0 then Some (v, chain_list c)
      else '(v, l) ← scan_larger fuel t1 m0 v; Some (v, chain_list c ++ l)
  end.

(** The next cursor and the entries that the callback gets, which does not
    change the table. *)
Definition dictScan (d : dict K V) (v : Z) : option (Z * list (entry K V)) :=
  if dictSize d =? 0 then Some (0, [])
  else if negb (dictIsRehashing d) then
    c ← bucket (ht0 d) (Z.land v (mask (ht0 d)));
    Some (next_cursor v (mask (ht0 d)), chain_list c)
  else
    let '(t0, t1) := if size (ht1 d) <? size (ht0 d) then (ht1 d, ht0 d) else (ht0 d, ht1 d) in
    c ← bucket t0 (Z.land v (mask t0));
    '(v, l) ← scan_larger (length (ht_table t1)) t1 (mask t0) v;
    Some (v, chain_list c ++ l).

(** ** The iterator *)

(** An iterator that is not safe: the table does not change while it is in
    use, so that a pointer to an entry is the chain it heads. *)
Record dictIterator : Type := mkIter {
  it_index : Z;
  it_table : bool;
  it_entry : chain K V;
  it_nextEntry : chain K V;
}.

Definition dictInitIterator : dictIterator := mkIter (-1) false CNull CNull.

(** The loop of [dictNext]; the second component is NULL or the entry. *)
Fixpoint next_loop (fuel : nat) (d : dict K V) (it : dictIterator) : option (dictIterator * option (entry K V)) :=
  match fuel with
  | O => None
  | S fuel =>
      step ←
        (if is_null (it_entry it) then
           let index :=
             if (it_index it =? -1) && negb (it_table it) && dictIsRehashing d
             then rehashidx d - 1 else it_index it in
           let index := index + 1 in
           if size (table_of d (it_table it)) <=? index then
             if dictIsRehashing d && negb (it_table it)
             then e ← bucket (ht1 d) 0; Some (mkIter 0 true e (it_nextEntry it), false)
             else Some (mkIter index (it_table it) CNull (it_nextEntry it), true)
           else
             e ← bucket (table_of d (it_table it)) index;
             Some (mkIter index (it_table it) e (it_nextEntry it), false)
         else Some (mkIter (it_index it) (it_table it) (it_nextEntry it) (it_nextEntry it), false));
      let '(it, ended) := step in
      if ended : bool then Some (it, None)
      else
        match first (it_entry it) with
        | Some (e, next) => Some (mkIter (it_index it) (it_table it) (it_entry it) next, Some e)
        | None => next_loop fuel d it
        end
  end.

Definition dictNext (d : dict K V) (it : dictIterator) : option (dictIterator * option (entry K V)) :=
  next_loop (length (ht_table (ht0 d)) + length (ht_table (ht1 d)) + 2) d it.

(** Every entry that an iterator returns, until NULL. *)
Fixpoint iterate (fuel : nat) (d : dict K V) (it : dictIterator) : option (list (entry K V)) :=
  match fuel with
  | O => None
  | S fuel =>
      '(it, e) ← dictNext d it;
      match e with
      | None => Some []
      | Some e => l ← iterate fuel d it; Some (e :: l)
      end
  end.
End scan.
