(* ===== verification/DictSpec.v ===== *)
(** * Hash tables are finite maps

    The invariant of the tables of [Dict] and what each operation does to the
    entries: moving them between the tables keeps them, in another order; a
    lookup finds an entry wherever it is; and a hash table behaves as a finite
    map whatever its sizes and however far its rehashing has come. *)

From S2P Require Import Prelude Dict.

#[local] Arguments Z.land : simpl never.
#[local] Arguments Z.to_nat : simpl never.

(** ** Sizes and masks *)

Lemma size_pow e : 0 ≤ e → DICTHT_SIZE e = 2 ^ e.
Proof. intros H. unfold DICTHT_SIZE. rewrite (proj2 (Z.eqb_neq e (-1))) by lia. by rewrite Z.shiftl_1_l. Qed.

Lemma mask_ones e : 0 ≤ e → DICTHT_SIZE_MASK e = Z.ones e.
Proof.
  intros H. unfold DICTHT_SIZE_MASK. rewrite (proj2 (Z.eqb_neq e (-1))), size_pow by lia.
  rewrite Z.ones_equiv. lia.
Qed.

Lemma land_mask e h : 0 ≤ e → Z.land h (DICTHT_SIZE_MASK e) = h mod 2 ^ e.
Proof. intros H. by rewrite mask_ones, Z.land_ones by done. Qed.

(** The index in a smaller table from the one in a larger table. *)
Lemma land_smaller e e' h : 0 ≤ e' ≤ e →
  Z.land (Z.land h (DICTHT_SIZE_MASK e)) (DICTHT_SIZE_MASK e') = Z.land h (DICTHT_SIZE_MASK e').
Proof.
  intros H. rewrite !mask_ones by lia. rewrite <- Z.land_assoc. f_equal.
  apply Z.bits_inj'. intros n Hn. rewrite Z.land_spec, !Z.testbit_ones_nonneg by lia.
  destruct (Z.ltb_spec n e), (Z.ltb_spec n e'); try done. lia.
Qed.

Section spec.
Context {K V : Type} `{!EqDecision K}.
Variable hash : K → Z.
Variable odd_key : K → bool.
Variable T : dictType.
Hypothesis odd_keys : keys_are_odd T = true → ∀ k, odd_key k = true.
#[local] Set Default Proof Using "Type".

(** ** Entries *)

Definition entries (t : hashtable K V) : list (entry K V) := ht_table t ≫= chain_list.

Definition all (d : dict K V) : list (entry K V) := entries (ht0 d) ++ entries (ht1 d).

(** The pointers of a chain are tagged as the type demands. *)
Fixpoint tagged (c : chain K V) : Prop :=
  match c with
  | CNull => True
  | CKey _ => no_value T = true ∧ keys_are_odd T = true
  | CNoValue _ next => no_value T = true ∧ tagged next
  | CEntry _ _ next => no_value T = false ∧ tagged next
  end.

Definition placed (t : hashtable K V) (idx : Z) (c : chain K V) : Prop :=
  Forall (λ e, Z.land (hash e.1) (mask t) = idx) (chain_list c).

(** A table that has been allocated. *)
Record live (t : hashtable K V) : Prop := {
  live_exp : 0 ≤ ht_size_exp t ≤ 63;
  live_length : Z.of_nat (length (ht_table t)) = 2 ^ ht_size_exp t;
  live_used : ht_used t = Z.of_nat (length (entries t));
  live_tagged : Forall tagged (ht_table t);
  live_placed : ∀ j c, ht_table t !! j = Some c → placed t (Z.of_nat j) c;
}.

Lemma bucket_index t h : live t → ∃ c, bucket t (Z.land h (mask t)) = Some c.
Proof.
  intros [He Hl _ _ _]. unfold bucket, mask. rewrite land_mask by lia.
  pose proof (Z.mod_pos_bound h (2 ^ ht_size_exp t) ltac:(lia)).
  rewrite (proj2 (Z.leb_le _ _)) by lia. apply lookup_lt_is_Some. lia.
Qed.

Lemma bucket_lookup (t : hashtable K V) idx c : bucket t idx = Some c ↔ 0 ≤ idx ∧ ht_table t !! Z.to_nat idx = Some c.
Proof. unfold bucket. destruct (Z.leb_spec 0 idx); [tauto|]. split; [done|lia]. Qed.

Lemma bucket_placed t idx c : live t → bucket t idx = Some c → placed t idx c.
Proof.
  intros H [Hi Hc]%bucket_lookup. pose proof (live_placed _ H _ _ Hc) as Hp. by rewrite Z2Nat.id in Hp.
Qed.

Lemma bucket_tagged t idx c : live t → bucket t idx = Some c → tagged c.
Proof.
  intros H [Hi Hc]%bucket_lookup. pose proof (live_tagged _ H) as Ht. rewrite Forall_lookup in Ht. by eapply Ht.
Qed.

Lemma elem_of_entries (t : hashtable K V) e : e ∈ entries t ↔ ∃ j c, ht_table t !! j = Some c ∧ e ∈ chain_list c.
Proof.
  unfold entries. rewrite list_elem_of_bind. split.
  - intros (c & He & [j Hj]%list_elem_of_lookup). eauto.
  - intros (j & c & Hj & He). exists c. split; [done|]. by apply list_elem_of_lookup_2 in Hj.
Qed.

(** An entry is in the bucket of its hash. *)
Lemma entry_in_bucket t e c : live t → bucket t (Z.land (hash e.1) (mask t)) = Some c →
  e ∈ entries t ↔ e ∈ chain_list c.
Proof.
  intros H Hc. apply bucket_lookup in Hc as [Hi Hc]. rewrite elem_of_entries. split; [|eauto].
  intros (j & c' & Hj & He). pose proof (live_placed _ H _ _ Hj) as Hp. unfold placed in Hp.
  rewrite Forall_forall in Hp. specialize (Hp e He). cbn in Hp. rewrite Hp, Nat2Z.id in Hc. by simplify_eq.
Qed.

(** Replacing a bucket. *)
Lemma entries_set (t : hashtable K V) idx b c used : bucket t idx = Some b →
  entries (set_bucket t idx c used) ++ chain_list b ≡ₚ entries t ++ chain_list c.
Proof.
  intros [Hi Hb]%bucket_lookup. unfold entries, set_bucket. cbn [ht_table].
  rewrite insert_take_drop by (by eapply lookup_lt_Some).
  rewrite <- (take_drop_middle _ _ _ Hb) at 3. rewrite !bind_app, !bind_cons.
  solve_Permutation.
Qed.

Lemma live_set t idx b c used : live t → bucket t idx = Some b → placed t idx c → tagged c →
  used = ht_used t - Z.of_nat (length (chain_list b)) + Z.of_nat (length (chain_list c)) →
  live (set_bucket t idx c used).
Proof.
  intros H Hb Hp Ht ->. pose proof (entries_set t idx b c 0 Hb) as He. apply Permutation_length in He.
  rewrite !length_app in He. apply bucket_lookup in Hb as [Hi Hb]. destruct H as [H1 H2 H3 H4 H5].
  split; cbn [set_bucket ht_size_exp ht_table ht_used]; try done.
  - by rewrite length_insert.
  - unfold entries in *. cbn in *. lia.
  - by apply Forall_insert.
  - intros j c' [(<- & -> & _)|[_ Hj]]%list_lookup_insert_Some; [|by apply H5]. by rewrite Z2Nat.id.
Qed.

Lemma set_bucket_other (t : hashtable K V) idx c used j : 0 ≤ idx → j ≠ idx → bucket (set_bucket t idx c used) j = bucket t j.
Proof.
  intros Hi Hj. unfold bucket. destruct (Z.leb_spec 0 j); [|done]. cbn. rewrite list_lookup_insert_ne; [done|lia].
Qed.

Lemma set_bucket_same (t : hashtable K V) idx b c used : bucket t idx = Some b → bucket (set_bucket t idx c used) idx = Some c.
Proof.
  intros [Hi Hb]%bucket_lookup. apply bucket_lookup. split; [done|]. cbn. apply list_lookup_insert_eq.
  by eapply lookup_lt_Some.
Qed.

(** ** Moving entries *)

(** The entry in front of a chain. *)
Definition heads (e : entry K V) (de : chain K V) : Prop :=
  match de with
  | CNull => False
  | CKey k | CNoValue k _ => e = (k, None)
  | CEntry k v _ => e = (k, Some v)
  end.

Lemma moved_entry_spec de b e : tagged de → heads e de →
  ∃ de', moved_entry odd_key T de b e.1 = Some de' ∧ chain_list de' = e :: chain_list b ∧ (tagged b → tagged de').
Proof using odd_keys.
  clear hash. intros Ht He. unfold moved_entry, dictSetNext. destruct (no_value T) eqn:Hn.
  - destruct (keys_are_odd T) eqn:Hk; cbn [andb].
    + rewrite odd_keys by done. destruct b; cbn [is_null];
        destruct de; cbn in *; try done; subst; try (destruct Ht; congruence); eexists; (split; [done|]); cbn; naive_solver.
    + destruct de; cbn in *; try done; subst; try (destruct Ht; congruence); eexists; (split; [done|]); cbn; naive_solver.
  - destruct de; cbn in *; try done; subst; try (destruct Ht; congruence). eexists. split; [done|]. cbn. naive_solver.
Qed.

(** What has become of the tables when the entries [l] have moved. *)
Record moved (l : list (entry K V)) (t0 t1 t0' t1' : hashtable K V) : Prop := {
  mv_first : t0' = mkHt (ht_table t0) (ht_used t0 - Z.of_nat (length l)) (ht_size_exp t0);
  mv_live : live t1';
  mv_exp : ht_size_exp t1' = ht_size_exp t1;
  mv_entries : entries t1' ≡ₚ l ++ entries t1;
}.

(** One entry moves to the bucket of its hash. *)
Lemma move_one idx de e t0 t1 :
  0 ≤ ht_size_exp t0 → ht_size_exp t0 ≠ ht_size_exp t1 → live t1 → tagged de → heads e de →
  Z.land (hash e.1) (mask t0) = idx →
  let h := if ht_size_exp t0 <? ht_size_exp t1 then Z.land (hash e.1) (mask t1) else Z.land idx (mask t1) in
  ∃ b de', bucket t1 h = Some b ∧ moved_entry odd_key T de b e.1 = Some de' ∧
    moved [e] t0 t1 (mkHt (ht_table t0) (ht_used t0 - 1) (ht_size_exp t0)) (set_bucket t1 h de' (ht_used t1 + 1)).
Proof using odd_keys.
  intros He0 Hne Hl Ht He Hidx h.
  assert (h = Z.land (hash e.1) (mask t1)) as ->.
  { subst h. destruct (Z.ltb_spec (ht_size_exp t0) (ht_size_exp t1)); [done|]. rewrite <- Hidx.
    apply land_smaller. pose proof (live_exp _ Hl). lia. }
  destruct (bucket_index t1 (hash e.1) Hl) as [b Hb].
  destruct (moved_entry_spec de b e Ht He) as (de' & Hde & Hlist & Htag). exists b, de'. split; [done|]. split; [done|].
  pose proof (entries_set t1 _ b de' (ht_used t1 + 1) Hb) as Hp. rewrite Hlist in Hp.
  split; [done| |done|].
  - eapply live_set; [done|done| |by apply Htag; eapply bucket_tagged|rewrite Hlist; cbn; lia].
    unfold placed. rewrite Hlist. constructor; [done|]. by eapply bucket_placed.
  - apply (Permutation_app_inv_r (chain_list b)). rewrite Hp. solve_Permutation.
Qed.

Lemma moved_trans l l' t0 t1 t0' t1' t0'' t1'' :
  moved l t0 t1 t0' t1' → moved l' t0' t1' t0'' t1'' → moved (l' ++ l) t0 t1 t0'' t1''.
Proof.
  intros [-> H1 H2 H3] [-> H4 H5 H6]. split; [|done|congruence|].
  - cbn. rewrite length_app. f_equal. lia.
  - by rewrite H6, H3, app_assoc.
Qed.

Lemma moved_nil t0 t1 : live t1 → moved [] t0 t1 t0 t1.
Proof. split; try done. destruct t0. cbn. f_equal. lia. Qed.

Lemma moved_perm l l' t0 t1 t0' t1' : l ≡ₚ l' → moved l t0 t1 t0' t1' → moved l' t0 t1 t0' t1'.
Proof.
  intros Hl [-> H1 H2 H3]. split; [|done|done|by rewrite H3, Hl]. by rewrite Hl.
Qed.

Lemma move_entries_spec idx de : ∀ t0 t1,
  0 ≤ ht_size_exp t0 → ht_size_exp t0 ≠ ht_size_exp t1 → live t1 → tagged de → placed t0 idx de →
  ∃ t0' t1', move_entries hash odd_key T idx de t0 t1 = Some (t0', t1') ∧ moved (chain_list de) t0 t1 t0' t1'.
Proof using odd_keys.
  induction de as [|k|k next IH|k v next IH]; intros t0 t1 He Hne Hl Ht Hp; cbn [move_entries].
  - exists t0, t1. split; [done|]. by apply moved_nil.
  - apply Forall_cons in Hp as [Hk _].
    destruct (move_one idx (CKey k) (k, None) t0 t1) as (b & de' & Hb & Hd & Hm); try done. cbn in Hb, Hd.
    rewrite Hb. cbn [mbind option_bind]. rewrite Hd. cbn [mbind option_bind]. by eexists _, _.
  - apply Forall_cons in Hp as [Hk Hp].
    destruct (move_one idx (CNoValue k next) (k, None) t0 t1) as (b & de' & Hb & Hd & Hm); try done. cbn in Hb, Hd.
    rewrite Hb. cbn [mbind option_bind]. rewrite Hd. cbn [mbind option_bind].
    match goal with |- context [move_entries _ _ _ _ _ ?a ?b] =>
      destruct (IH a b He Hne (mv_live _ _ _ _ _ Hm) (proj2 Ht) Hp) as (t0' & t1' & -> & Hm') end.
    eexists _, _. split; [done|]. eapply moved_perm, moved_trans; [|done..]. cbn. solve_Permutation.
  - apply Forall_cons in Hp as [Hk Hp].
    destruct (move_one idx (CEntry k v next) (k, Some v) t0 t1) as (b & de' & Hb & Hd & Hm); try done. cbn in Hb, Hd.
    rewrite Hb. cbn [mbind option_bind]. rewrite Hd. cbn [mbind option_bind].
    match goal with |- context [move_entries _ _ _ _ _ ?a ?b] =>
      destruct (IH a b He Hne (mv_live _ _ _ _ _ Hm) (proj2 Ht) Hp) as (t0' & t1' & -> & Hm') end.
    eexists _, _. split; [done|]. eapply moved_perm, moved_trans; [|done..]. cbn. solve_Permutation.
Qed.

(** ** The invariant of a dictionary *)

Record dict_ok (d : dict K V) : Prop := {
  ok_first : ht0 d = _dictReset ∨ live (ht0 d);
  ok_second : dictIsRehashing d = false → ht1 d = _dictReset;
  ok_rehashing : dictIsRehashing d = true →
    0 ≤ rehashidx d ≤ size (ht0 d) ∧ live (ht0 d) ∧ live (ht1 d) ∧ ht_size_exp (ht0 d) ≠ ht_size_exp (ht1 d) ∧
    ∀ j c, j < rehashidx d → bucket (ht0 d) j = Some c → c = CNull;
  ok_keys : NoDup (all d).*1;
}.

(** [d'] has the entries of [d] in another order, and its first table has the
    same size unless rehashing is over. *)
Record same_entries (d d' : dict K V) : Prop := {
  se_ok : dict_ok d';
  se_all : all d' ≡ₚ all d;
  se_pauses : pauserehash d' = pauserehash d ∧ pauseAutoResize d' = pauseAutoResize d;
  se_size : dictIsRehashing d' = true → dictIsRehashing d = true ∧ mask (ht0 d') = mask (ht0 d);
  se_null : ht_table (ht0 d) ≠ [] → ht_table (ht0 d') ≠ [];
}.

Lemma same_refl d : dict_ok d → same_entries d d.
Proof. done. Qed.

Lemma live_nonempty t : live t → ht_table t ≠ [].
Proof. intros H E. pose proof (live_length _ H) as Hl. pose proof (live_exp _ H). rewrite E in Hl. cbn in Hl. lia. Qed.

Lemma live_size t : live t → size t = 2 ^ ht_size_exp t ∧ Z.of_nat (length (ht_table t)) = size t.
Proof. intros H. pose proof (live_exp _ H). unfold size. rewrite size_pow by lia. split; [done|apply H]. Qed.

(** A bucket of the first table moves to the second one. *)
Lemma rehash_bucket d idx : dict_ok d → dictIsRehashing d = true → 0 ≤ idx < size (ht0 d) →
  ∃ d', rehashEntriesInBucketAtIndex hash odd_key T d idx = Some d' ∧ same_entries d d' ∧
    rehashidx d' = rehashidx d ∧ bucket (ht0 d') idx = Some CNull ∧ ht_size_exp (ht0 d') = ht_size_exp (ht0 d) ∧
    length (ht_table (ht0 d')) = length (ht_table (ht0 d)).
Proof using odd_keys.
  intros Hok Hr Hi. destruct (ok_rehashing _ Hok Hr) as (Hri & L0 & L1 & Hne & Hlow).
  destruct (live_size _ L0) as [Hs Hlen]. unfold rehashEntriesInBucketAtIndex.
  destruct (bucket (ht0 d) idx) as [de|] eqn:Hde.
  2: { unfold bucket in Hde. rewrite (proj2 (Z.leb_le 0 idx)) in Hde by lia. apply lookup_ge_None in Hde. lia. }
  cbn [mbind option_bind].
  destruct (move_entries_spec idx de (ht0 d) (ht1 d)) as (t0' & t1' & -> & [-> M1 M2 M3]); try done.
  { apply L0. } { exact (bucket_tagged _ _ _ L0 Hde). } { exact (bucket_placed _ _ _ L0 Hde). }
  cbn [mbind option_bind ht_used].
  pose proof (entries_set (ht0 d) idx de CNull (ht_used (ht0 d) - Z.of_nat (length (chain_list de))) Hde) as Hp.
  cbn [chain_list] in Hp. rewrite app_nil_r in Hp.
  assert (live (set_bucket (ht0 d) idx CNull (ht_used (ht0 d) - Z.of_nat (length (chain_list de))))) as L0'.
  { eapply live_set; [done|done|constructor|done|cbn; lia]. }
  eexists. split; [reflexivity|].
  assert (entries (set_bucket (ht0 d) idx CNull (ht_used (ht0 d) - Z.of_nat (length (chain_list de)))) ++ entries t1' ≡ₚ all d) as Hall.
  { rewrite M3, app_assoc, Hp. done. }
  split_and!; try done; [|by eapply set_bucket_same|cbn; by rewrite length_insert].
  split; try done; [|by intros _; apply live_nonempty].
  split; [by right|change (dictIsRehashing d = false → t1' = _dictReset); by rewrite Hr| |].
  2: { unfold all. cbn [ht0 ht1 set_hts]. rewrite Hall. apply Hok. }
  intros _. cbn [ht0 ht1 set_hts rehashidx]. split_and!; try done; [apply Hri|apply Hri|by rewrite M2|].
  intros j c Hj Hc. destruct (decide (j = idx)) as [->|Hji].
  - rewrite (set_bucket_same _ _ de) in Hc by exact Hde. congruence.
  - rewrite set_bucket_other in Hc by (done || lia). by apply Hlow in Hc.
Qed.

Lemma same_trans d d' d'' : same_entries d d' → same_entries d' d'' → same_entries d d''.
Proof.
  intros [] []. split; try done; [by rewrite se_all1|by destruct se_pauses0, se_pauses1; split; congruence| |by auto].
  intros H. destruct (se_size1 H) as [H1 ->]. by apply se_size0.
Qed.

Lemma no_entries t : live t → ht_used t = 0 → entries t = [].
Proof. intros H Hu. pose proof (live_used _ H) as Hl. apply length_zero_iff_nil. lia. Qed.

Lemma check_completed d : dict_ok d → dictIsRehashing d = true → same_entries d (dictCheckRehashingCompleted d).1.
Proof.
  intros Hok Hr. destruct (ok_rehashing _ Hok Hr) as (_ & L0 & L1 & _). unfold dictCheckRehashingCompleted.
  destruct (Z.eqb_spec (ht_used (ht0 d)) 0) as [Hu|]; cbn [negb fst]; [|by apply same_refl].
  assert (all (set_hts d (ht1 d) _dictReset (-1)) = all d) as Ha.
  { unfold all. cbn. rewrite (no_entries _ L0 Hu). cbn. unfold entries. cbn. by rewrite app_nil_r. }
  split; try done; [|by rewrite Ha|by intros _; apply live_nonempty].
  split; [by right|done|done|]. rewrite Ha. apply Hok.
Qed.

(** Going past an empty bucket. *)
Lemma advance_ok d : dict_ok d → dictIsRehashing d = true → bucket (ht0 d) (rehashidx d) = Some CNull →
  same_entries d (set_rehashidx d (rehashidx d + 1)) ∧ dictIsRehashing (set_rehashidx d (rehashidx d + 1)) = true.
Proof.
  intros Hok Hr Hb. destruct (ok_rehashing _ Hok Hr) as (Hi & L0 & L1 & Hne & Hlow).
  destruct (live_size _ L0) as [_ Hlen].
  assert (rehashidx d < size (ht0 d)) as Hlt.
  { apply bucket_lookup in Hb as [? Hb%lookup_lt_Some]. lia. }
  assert (dictIsRehashing (set_rehashidx d (rehashidx d + 1)) = true) as Hr'.
  { unfold dictIsRehashing. cbn. rewrite (proj2 (Z.eqb_neq _ _)) by lia. done. }
  split; [|done]. split; try done. split; [by right|by rewrite Hr'| |apply Hok].
  intros _. cbn. split_and!; try done; [lia|lia|]. intros j c Hj Hc.
  destruct (decide (j = rehashidx d)) as [->|]; [congruence|]. apply (Hlow j); [lia|done].
Qed.

Lemma is_null_spec (c : chain K V) : is_null c = true ↔ c = CNull.
Proof. by destruct c. Qed.

Lemma chain_nonempty (c : chain K V) : chain_list c ≠ [] ↔ c ≠ CNull.
Proof. by destruct c. Qed.

(** An entry that has not moved yet. *)
Lemma unmoved d : dict_ok d → dictIsRehashing d = true → ht_used (ht0 d) ≠ 0 →
  ∃ j c, rehashidx d ≤ j < size (ht0 d) ∧ bucket (ht0 d) j = Some c ∧ c ≠ CNull.
Proof.
  intros Hok Hr Hu. destruct (ok_rehashing _ Hok Hr) as (Hi & L0 & L1 & Hne & Hlow).
  destruct (live_size _ L0) as [_ Hlen]. rewrite (live_used _ L0) in Hu.
  destruct (entries (ht0 d)) as [|e l] eqn:E; [done|].
  assert (e ∈ entries (ht0 d)) as (j & c & Hj & He)%elem_of_entries by (rewrite E; by left).
  assert (bucket (ht0 d) (Z.of_nat j) = Some c) as Hb by (apply bucket_lookup; rewrite Nat2Z.id; split; [lia|done]).
  assert (c ≠ CNull) as Hc by (intros ->; by apply elem_of_nil in He).
  exists (Z.of_nat j), c. split_and!; try done; [|apply lookup_lt_Some in Hj; lia].
  destruct (Z.le_gt_cases (rehashidx d) (Z.of_nat j)); [done|]. by apply (Hlow (Z.of_nat j) c) in Hb.
Qed.

Lemma skip_empty_spec fuel : ∀ d empty_visits, dict_ok d → dictIsRehashing d = true → ht_used (ht0 d) ≠ 0 →
  size (ht0 d) - rehashidx d < Z.of_nat fuel →
  ∃ d' n stopped, skip_empty fuel empty_visits d = Some (d', n, stopped) ∧ same_entries d d' ∧
    dictIsRehashing d' = true ∧ (stopped = false → 0 ≤ rehashidx d' < size (ht0 d')) ∧
    rehashidx d ≤ rehashidx d' ∧ (stopped = true → rehashidx d < rehashidx d').
Proof.
  induction fuel as [|fuel IH]; intros d ev Hok Hr Hu Hf.
  { destruct (ok_rehashing _ Hok Hr) as (Hi & _). lia. }
  destruct (unmoved d Hok Hr Hu) as (j & c & Hj & Hc & Hcn).
  destruct (ok_rehashing _ Hok Hr) as (Hi & L0 & _). destruct (live_size _ L0) as [_ Hlen].
  assert (∃ b, bucket (ht0 d) (rehashidx d) = Some b) as [b Hb].
  { unfold bucket. rewrite (proj2 (Z.leb_le _ _)) by lia. apply lookup_lt_is_Some. lia. }
  cbn [skip_empty]. rewrite Hb. cbn [mbind option_bind]. destruct (is_null b) eqn:En.
  - apply is_null_spec in En as ->. destruct (advance_ok d Hok Hr Hb) as [Hs Hr'].
    destruct (ev - 1 =? 0); [eexists _, _, _; split_and!; try done; cbn; lia|].
    destruct (IH _ (ev - 1) (se_ok _ _ Hs) Hr' Hu) as (d' & n & st & -> & Hs' & Hr'' & Hst & Hle & Hlt); [cbn; lia|]. cbn in Hle, Hlt.
    exists d', n, st. split_and!; try done; [by eapply same_trans|lia|lia].
  - exists d, ev, false. split_and!; try done. lia.
Qed.

Lemma rehash_loop_spec n : ∀ d empty_visits, dict_ok d → dictIsRehashing d = true →
  ∃ d' stopped, rehash_loop hash odd_key T n empty_visits d = Some (d', stopped) ∧ same_entries d d' ∧
    dictIsRehashing d' = true ∧ rehashidx d ≤ rehashidx d' ∧
    (n ≠ 0%nat → stopped = false ∧ ht_used (ht0 d') = 0 ∨ rehashidx d < rehashidx d').
Proof using odd_keys.
  induction n as [|n IH]; intros d ev Hok Hr; cbn [rehash_loop]; [by eexists _, _|].
  destruct (Z.eqb_spec (ht_used (ht0 d)) 0) as [|Hu]; [by eexists _, _; eauto 10 using same_refl, Z.le_refl|].
  destruct (ok_rehashing _ Hok Hr) as (Hi & L0 & _). destruct (live_size _ L0) as [_ Hlen].
  destruct (unmoved d Hok Hr Hu) as (j & c & Hj & _). rewrite (proj2 (Z.ltb_lt _ _)) by lia. cbn [negb].
  destruct (skip_empty_spec (S (length (ht_table (ht0 d)))) d ev Hok Hr Hu) as (d1 & k & st & E & S1 & R1 & Hst & Hle & Hlt); [lia|].
  rewrite E. cbn [mbind option_bind]. destruct st; [by eexists _, _; eauto 10|]. specialize (Hst eq_refl).
  destruct (rehash_bucket d1 (rehashidx d1) (se_ok _ _ S1) R1 Hst) as (d2 & -> & S2 & Hi2 & Hb2 & _). cbn [mbind option_bind].
  assert (dictIsRehashing d2 = true) as R2 by (unfold dictIsRehashing in *; by rewrite Hi2).
  rewrite <- Hi2 in Hb2. destruct (advance_ok d2 (se_ok _ _ S2) R2 Hb2) as [S3 R3].
  destruct (IH _ k (se_ok _ _ S3) R3) as (d4 & b & -> & S4 & R4 & Hle4 & _). cbn in Hle4.
  exists d4, b. split_and!; try done; [by do 3 (eapply same_trans; [done|])|lia|right; lia].
Qed.

(** What rehashing and resizing depend on. *)
Variable can : dictResizeEnable.

Lemma rehash_allowed_rehashing (d : dict K V) : rehash_allowed can d = true → dictIsRehashing d = true.
Proof. unfold rehash_allowed. destruct (dictIsRehashing d); [done|]. by rewrite orb_true_r. Qed.

Lemma dictRehash_same d n : dict_ok d → ∃ d' b, dictRehash hash odd_key T can d n = Some (d', b) ∧ same_entries d d'.
Proof using odd_keys.
  intros Hok. unfold dictRehash. destruct (rehash_allowed can d) eqn:Ha; cbn [negb]; [|by eexists _, _].
  apply rehash_allowed_rehashing in Ha.
  destruct (rehash_loop_spec n d (Z.of_nat n * 10) Hok Ha) as (d1 & st & -> & S1 & R1 & _). cbn [mbind option_bind].
  destruct st; [by eexists _, _|]. pose proof (check_completed d1 (se_ok _ _ S1) R1) as S2.
  destruct (dictCheckRehashingCompleted d1) as [d2 b]. eexists _, _. split; [done|]. by eapply same_trans.
Qed.

(** A step of rehashing ends it, or goes on to later buckets. *)
Lemma dictRehash_progress d n : dict_ok d → rehash_allowed can d = true →
  ∃ d' b, dictRehash hash odd_key T can d (S n) = Some (d', b) ∧ same_entries d d' ∧
    (dictIsRehashing d' = false ∨ rehashidx d < rehashidx d').
Proof using odd_keys.
  intros Hok Ha. unfold dictRehash. rewrite Ha. cbn [negb]. apply rehash_allowed_rehashing in Ha.
  destruct (rehash_loop_spec (S n) d (Z.of_nat (S n) * 10) Hok Ha) as (d1 & st & -> & S1 & R1 & _ & Hp).
  cbn [mbind option_bind]. specialize (Hp ltac:(done)).
  destruct st; [destruct Hp as [[]|]; [done|]; eexists _, _; eauto|].
  pose proof (check_completed d1 (se_ok _ _ S1) R1) as S2. unfold dictCheckRehashingCompleted in *.
  destruct (Z.eqb_spec (ht_used (ht0 d1)) 0); cbn [negb fst] in *.
  - eexists _, _. split; [done|]. split; [by eapply same_trans|by left].
  - eexists _, _. split; [done|]. split; [done|right]. destruct Hp as [[]|]; done.
Qed.

Lemma same_size d d' : dict_ok d → same_entries d d' → dictIsRehashing d' = true → size (ht0 d') = size (ht0 d).
Proof.
  intros Hok S1 R1. destruct (se_size _ _ S1 R1) as [R0 Hm]. destruct (ok_rehashing _ Hok R0) as (_ & L0 & _).
  destruct (ok_rehashing _ (se_ok _ _ S1) R1) as (_ & L0' & _). pose proof (live_exp _ L0). pose proof (live_exp _ L0').
  unfold mask, DICTHT_SIZE_MASK in Hm. rewrite !(proj2 (Z.eqb_neq _ (-1))) in Hm by lia. unfold size. lia.
Qed.

Lemma rehashStep_same d : dict_ok d → ∃ d', _dictRehashStep hash odd_key T can d = Some d' ∧ same_entries d d'.
Proof using odd_keys.
  intros Hok. unfold _dictRehashStep. destruct (pauserehash d =? 0); [|by eexists].
  destruct (dictRehash_same d 1 Hok) as (d' & b & -> & Hs). by eexists.
Qed.

Lemma bucketRehash_same d idx : dict_ok d → 0 ≤ idx < size (ht0 d) →
  ∃ d', _dictBucketRehash hash odd_key T can d idx = Some d' ∧ same_entries d d'.
Proof using odd_keys.
  intros Hok Hi. unfold _dictBucketRehash. destruct (pauserehash d =? 0); cbn [negb]; [|by eexists].
  destruct (rehash_allowed can d) eqn:Ha; cbn [negb]; [|by eexists]. apply rehash_allowed_rehashing in Ha.
  destruct (rehash_bucket d idx Hok Ha Hi) as (d1 & -> & S1 & Hi1 & _). cbn [mbind option_bind].
  assert (dictIsRehashing d1 = true) as R1 by (unfold dictIsRehashing in *; by rewrite Hi1).
  eexists. split; [done|]. eapply same_trans; [done|]. by apply check_completed; [apply S1|].
Qed.

Lemma rehash_for_same d h : dict_ok d →
  ∃ d', rehash_for hash odd_key T can d (Z.land h (mask (ht0 d))) = Some d' ∧ same_entries d d'.
Proof using odd_keys.
  intros Hok. unfold rehash_for. destruct (dictIsRehashing d) eqn:Hr; [|by eexists].
  destruct (_ <=? _); [|by apply rehashStep_same].
  destruct (ok_rehashing _ Hok Hr) as (Hi & L0 & _). destruct (bucket_index (ht0 d) h L0) as [b Hb].
  rewrite Hb. cbn [mbind option_bind]. destruct (is_null b); [by apply rehashStep_same|].
  apply bucketRehash_same; [done|]. apply bucket_lookup in Hb as [? Hb%lookup_lt_Some].
  destruct (live_size _ L0) as [_ Hlen]. lia.
Qed.

(** ** Resizing *)

Lemma nextExp_range n : 2 ≤ _dictNextExp n ≤ 63.
Proof.
  unfold _dictNextExp, DICT_HT_INITIAL_EXP, LONG_MAX. change DICT_HT_INITIAL_SIZE with 4.
  destruct (Z.leb_spec n 4); [lia|]. destruct (Z.leb_spec (2 ^ 63 - 1) n); [lia|].
  pose proof (Z.log2_le_mono 4 (n - 1) ltac:(lia)) as H1. change (Z.log2 4) with 2 in H1.
  pose proof (Z.log2_lt_pow2 (n - 1) 63 ltac:(lia)). lia.
Qed.

Lemma fresh_live exp : 0 ≤ exp ≤ 63 → live (mkHt (replicate (Z.to_nat (DICTHT_SIZE exp)) CNull) 0 exp).
Proof.
  intros He. assert (entries (mkHt (replicate (Z.to_nat (DICTHT_SIZE exp)) CNull) 0 exp) = []) as Hn.
  { unfold entries. cbn. by induction (Z.to_nat (DICTHT_SIZE exp)). }
  split; cbn [ht_table ht_used ht_size_exp]; try done.
  - rewrite length_replicate, size_pow by lia. lia.
  - by rewrite Hn.
  - by apply Forall_replicate.
  - intros j c [-> _]%lookup_replicate. constructor.
Qed.

(** [d'] has the entries of [d]; rehashing may have begun. *)
Record resized (d d' : dict K V) : Prop := {
  rs_ok : dict_ok d';
  rs_all : all d' ≡ₚ all d;
  rs_pauses : pauserehash d' = pauserehash d ∧ pauseAutoResize d' = pauseAutoResize d;
  rs_begun : rehashidx d' ≤ 0 ∨ d' = d;
  rs_null : ht_table (ht0 d) ≠ [] → ht_table (ht0 d') ≠ [];
}.

Lemma resized_refl d : dict_ok d → resized d d.
Proof. split; auto. Qed.

Lemma not_rehashing (d : dict K V) : dictIsRehashing d = false → rehashidx d = -1.
Proof. unfold dictIsRehashing. destruct (Z.eqb_spec (rehashidx d) (-1)); done. Qed.

Lemma dictResize_resized d n : dict_ok d → dictIsRehashing d = false →
  ∃ d' b, _dictResize d n = Some (d', b) ∧ resized d d' ∧ (b = true → ht_table (ht0 d') ≠ []).
Proof.
  intros Hok Hr. unfold _dictResize. rewrite Hr. pose proof (nextExp_range n) as He.
  destruct (_ || _); [eexists _, _; split_and!; [done|by apply resized_refl|done]|].
  destruct (Z.eqb_spec (_dictNextExp n) (ht_size_exp (ht0 d))) as [|Hne]; [eexists _, _; split_and!; [done|by apply resized_refl|done]|].
  pose proof (fresh_live (_dictNextExp n) ltac:(lia)) as Hl. pose proof (ok_second _ Hok Hr) as H1.
  assert (entries (ht1 d) = []) as He1 by (by rewrite H1).
  assert (entries (mkHt (replicate (Z.to_nat (DICTHT_SIZE (_dictNextExp n))) CNull) 0 (_dictNextExp n)) = []) as Hn.
  { by apply no_entries. }
  destruct (bool_decide (ht_table (ht0 d) = []) || (ht_used (ht0 d) =? 0)) eqn:E.
  - assert (entries (ht0 d) = []) as He0.
    { destruct (ok_first _ Hok) as [->|L0]; [done|]. apply no_entries; [done|].
      apply orb_true_iff in E as [E%bool_decide_eq_true|E%Z.eqb_eq]; [|done]. by apply live_nonempty in L0. }
    set (d' := set_hts d _ _ _). assert (all d' = all d) as Ha by (unfold all, d'; cbn [ht0 ht1 set_hts]; by rewrite He0, He1, Hn).
    eexists d', _. split_and!; [done| |by intros _; apply live_nonempty].
    split; try done; [|by rewrite Ha|by left|by intros _; apply live_nonempty].
    split; [by right|done|done|]. rewrite Ha. apply Hok.
  - apply orb_false_iff in E as [E%bool_decide_eq_false _].
    destruct (ok_first _ Hok) as [E0|L0]; [by rewrite E0 in E|].
    set (d' := set_hts d _ _ _). assert (all d' = all d) as Ha by (unfold all, d'; cbn [ht0 ht1 set_hts]; by rewrite He1, Hn).
    destruct (live_size _ L0) as [_ Hlen].
    eexists d', _. split_and!; [done| |by intros _; apply live_nonempty].
    split; try done; [|by rewrite Ha|by left]. split; [by right|done| |rewrite Ha; apply Hok].
    intros _. cbn. split_and!; try done; [lia|]. intros j c Hj [Hj' _]%bucket_lookup. lia.
Qed.

Lemma dictExpand_resized d n : dict_ok d → ∃ d' b, dictExpand d n = Some (d', b) ∧ resized d d'.
Proof.
  intros Hok. unfold dictExpand. destruct (dictIsRehashing d) eqn:Hr; cbn [orb]; [eexists _, _; split; [done|by apply resized_refl]|].
  destruct (_ || _); [eexists _, _; split; [done|by apply resized_refl]|].
  destruct (dictResize_resized d n Hok Hr) as (d' & b & -> & H & _). by eexists _, _.
Qed.

Lemma dictShrink_resized d n : dict_ok d → ∃ d' b, dictShrink d n = Some (d', b) ∧ resized d d'.
Proof.
  intros Hok. unfold dictShrink. destruct (dictIsRehashing d) eqn:Hr; cbn [orb]; [eexists _, _; split; [done|by apply resized_refl]|].
  destruct (_ || _); [eexists _, _; split; [done|by apply resized_refl]|].
  destruct (dictResize_resized d n Hok Hr) as (d' & b & -> & H & _). by eexists _, _.
Qed.

(** The table that is about to get a key has been allocated, unless automatic
    resizing is paused. *)
Lemma expandIfNeeded_resized d : dict_ok d →
  ∃ d', _dictExpandIfNeeded T can d = Some d' ∧ resized d d' ∧
    (pauseAutoResize d ≤ 0 ∨ ht_table (ht0 d) ≠ [] → live (ht0 d')).
Proof.
  intros Hok.
  assert (∀ d', resized d d' → ht_table (ht0 d) ≠ [] → live (ht0 d')) as Hkeep.
  { intros d' H Hn. destruct (ok_first _ (rs_ok _ _ H)) as [E|]; [|done]. apply (rs_null _ _ H) in Hn. by rewrite E in Hn. }
  unfold _dictExpandIfNeeded. destruct (Z.ltb_spec 0 (pauseAutoResize d)).
  { exists d. split_and!; [done|by apply resized_refl|]. intros [|Hn]; [lia|]. by apply (Hkeep d); [apply resized_refl|]. }
  unfold dictExpandIfNeeded. destruct (dictIsRehashing d) eqn:Hr.
  { exists d. split_and!; [done|by apply resized_refl|]. intros _. by destruct (ok_rehashing _ Hok Hr) as (_ & L0 & _). }
  destruct (ok_first _ Hok) as [E0|L0].
  - assert (size (ht0 d) = 0) as Hs by (by rewrite E0). rewrite Hs. cbn [Z.eqb]. unfold dictExpand. rewrite Hr, Hs.
    assert (ht_used (ht0 d) = 0) as Hu by (by rewrite E0). rewrite Hu. cbn [orb].
    change (DICT_HT_INITIAL_SIZE <? 0) with false. change (DICT_HT_INITIAL_SIZE <=? 0) with false. cbn [orb].
    destruct (dictResize_resized d DICT_HT_INITIAL_SIZE Hok Hr) as (d' & b & E & H' & Hb). rewrite E.
    exists d'. split_and!; [done|done|]. intros _.
    destruct (ok_first _ (rs_ok _ _ H')) as [E1|]; [|done]. destruct b; [by rewrite E1 in Hb; destruct (Hb eq_refl)|].
    unfold _dictResize in E. rewrite Hr, E0 in E. done.
  - destruct (live_size _ L0) as [Hs _]. pose proof (live_exp _ L0).
    rewrite (proj2 (Z.eqb_neq (size (ht0 d)) 0)) by lia. pose proof (live_nonempty _ L0) as Hn.
    destruct (_ || _); [|exists d; split_and!; [done|by apply resized_refl|done]].
    destruct (dictTypeResizeAllowed T d _); [|exists d; split_and!; [done|by apply resized_refl|done]].
    destruct (dictExpand_resized d (ht_used (ht0 d) + 1) Hok) as (d' & b & -> & H'). exists d'. split_and!; [done|done|].
    intros _. by apply Hkeep.
Qed.

Lemma shrinkIfNeeded_resized d : dict_ok d → ∃ d', _dictShrinkIfNeeded T can d = Some d' ∧ resized d d'.
Proof.
  intros Hok. unfold _dictShrinkIfNeeded, dictShrinkIfNeeded. pose proof (resized_refl d Hok) as Hd.
  destruct (0 <? _); [by exists d|]. destruct (dictIsRehashing d); [by exists d|]. destruct (_ <=? _); [by exists d|].
  destruct (_ || _); [|by exists d]. destruct (dictTypeResizeAllowed T d _); [|by exists d].
  destruct (dictShrink_resized d (ht_used (ht0 d)) Hok) as (d' & b & -> & H). by exists d'.
Qed.

(** ** Lookup *)

Lemma chain_find_Some key (c : chain K V) e : chain_find key c = Some e → e ∈ chain_list c ∧ e.1 = key.
Proof.
  clear hash. induction c as [|k|k next IH|k v next IH]; cbn; intros H; try done; case_decide; simplify_eq;
    rewrite ?elem_of_cons; naive_solver.
Qed.

Lemma chain_find_None key (c : chain K V) : chain_find key c = None → key ∉ (chain_list c).*1.
Proof.
  induction c as [|k|k next IH|k v next IH]; cbn; intros H; try case_decide; try done; [apply not_elem_of_nil|..];
    apply not_elem_of_cons; split; auto. apply not_elem_of_nil.
Qed.

Lemma key_in_bucket t key c : live t → bucket t (Z.land (hash key) (mask t)) = Some c →
  key ∈ (entries t).*1 ↔ key ∈ (chain_list c).*1.
Proof.
  intros Hl Hc. rewrite !list_elem_of_fmap. split; intros (e & -> & He); exists e; (split; [done|]);
    by apply (entry_in_bucket t e c Hl Hc).
Qed.

Lemma keys_app (d : dict K V) key : key ∈ (all d).*1 ↔ key ∈ (entries (ht0 d)).*1 ∨ key ∈ (entries (ht1 d)).*1.
Proof. unfold all. by rewrite fmap_app, elem_of_app. Qed.

(** What the search in the two tables says. *)
Definition search_result (d : dict K V) (key : K) (t : bool) (idx : Z) (e : option (entry K V)) : Prop :=
  idx = Z.land (hash key) (mask (table_of d t)) ∧ live (table_of d t) ∧
  match e with
  | Some e => e ∈ entries (table_of d t) ∧ e.1 = key
  | None => (key ∉ (all d).*1) ∧ t = dictIsRehashing d
  end.

Lemma find_second d key : dict_ok d → dictIsRehashing d = true → key ∉ (entries (ht0 d)).*1 →
  ∃ c, bucket (ht1 d) (Z.land (hash key) (mask (ht1 d))) = Some c ∧
    search_result d key true (Z.land (hash key) (mask (ht1 d))) (chain_find key c).
Proof.
  intros Hok Hr Hn. destruct (ok_rehashing _ Hok Hr) as (_ & _ & L1 & _).
  destruct (bucket_index (ht1 d) (hash key) L1) as [c Hc]. exists c. split; [done|]. split; [done|]. split; [done|].
  destruct (chain_find key c) as [e|] eqn:E.
  - apply chain_find_Some in E as [He <-]. split; [|done]. by apply (entry_in_bucket _ _ c L1 Hc).
  - apply chain_find_None in E. rewrite <- (key_in_bucket _ _ _ L1 Hc) in E. split; [|done]. rewrite keys_app. tauto.
Qed.

Lemma find_in_tables_spec d key idx : dict_ok d → live (ht0 d) → 0 ≤ idx →
  (idx < rehashidx d → idx = Z.land (hash key) (mask (ht0 d))) →
  ∃ t i e, find_in_tables d (hash key) idx key = Some (t, i, e) ∧ search_result d key t i e.
Proof.
  intros Hok L0 Hi Hidx. unfold find_in_tables. destruct (bucket_index (ht0 d) (hash key) L0) as [c Hc].
  destruct (Z.ltb_spec idx (rehashidx d)) as [Hlt|_].
  - assert (dictIsRehashing d = true) as Hr by (unfold dictIsRehashing; rewrite (proj2 (Z.eqb_neq _ _)) by lia; done).
    destruct (ok_rehashing _ Hok Hr) as (_ & _ & _ & _ & Hlow). rewrite (Hidx Hlt) in Hlt.
    destruct (find_second d key Hok Hr) as (c' & -> & Hs); [|by eexists _, _, _].
    rewrite (key_in_bucket _ _ _ L0 Hc), (Hlow _ _ Hlt Hc). apply not_elem_of_nil.
  - rewrite Hc. cbn [mbind option_bind]. destruct (chain_find key c) as [e|] eqn:E.
    + eexists _, _, _. split; [done|]. split; [done|]. split; [done|]. apply chain_find_Some in E as [He <-].
      split; [|done]. by apply (entry_in_bucket _ _ c L0 Hc).
    + apply chain_find_None in E. rewrite <- (key_in_bucket _ _ _ L0 Hc) in E.
      destruct (dictIsRehashing d) eqn:Hr.
      * destruct (find_second d key Hok Hr E) as (c' & -> & Hs). by eexists _, _, _.
      * eexists _, _, _. split; [done|]. split; [done|]. split; [done|]. split; [|by rewrite Hr].
        rewrite keys_app, (ok_second _ Hok Hr). intros [|[]%elem_of_nil]; done.
Qed.

Lemma entry_of_table (d : dict K V) t e : e ∈ entries (table_of d t) → e ∈ all d.
Proof. unfold all. rewrite elem_of_app. destruct t; auto. Qed.

Lemma size_zero d : dict_ok d → dictSize d = 0 → all d = [].
Proof.
  intros Hok Hs. unfold dictSize in Hs. unfold all. destruct (dictIsRehashing d) eqn:Hr.
  - destruct (ok_rehashing _ Hok Hr) as (_ & L0 & L1 & _). pose proof (live_used _ L0). pose proof (live_used _ L1).
    by rewrite !no_entries by (done || lia).
  - rewrite (ok_second _ Hok Hr) in *. cbn in Hs. destruct (ok_first _ Hok) as [->|L0]; [done|].
    by rewrite no_entries by (done || lia).
Qed.

Lemma size_live d : dict_ok d → dictSize d ≠ 0 → live (ht0 d).
Proof.
  intros Hok Hs. destruct (ok_first _ Hok) as [E|]; [|done]. destruct (dictIsRehashing d) eqn:Hr.
  - by destruct (ok_rehashing _ Hok Hr) as (_ & L0 & _).
  - destruct Hs. unfold dictSize. by rewrite E, (ok_second _ Hok Hr).
Qed.

Lemma index_nonneg h m : 0 ≤ m → 0 ≤ Z.land h m.
Proof. intros H. apply Z.land_nonneg. auto. Qed.

Lemma mask_nonneg (t : hashtable K V) : live t → 0 ≤ mask t.
Proof. intros H. pose proof (live_exp _ H). unfold mask. rewrite mask_ones, Z.ones_equiv by lia. lia. Qed.

Lemma dictFind_spec d key : dict_ok d →
  ∃ d' e, dictFind hash odd_key T can d key = Some (d', e) ∧ same_entries d d' ∧
    match e with Some e => e ∈ all d ∧ e.1 = key | None => key ∉ (all d).*1 end.
Proof using odd_keys.
  intros Hok. unfold dictFind. destruct (Z.eqb_spec (dictSize d) 0) as [Hs|Hs].
  { exists d, None. split_and!; try done. rewrite (size_zero d Hok Hs). apply not_elem_of_nil. }
  pose proof (size_live d Hok Hs) as L0. pose proof (index_nonneg (hash key) _ (mask_nonneg _ L0)) as Hi.
  destruct (rehash_for_same d (hash key) Hok) as (d1 & -> & S1). cbn [mbind option_bind].
  assert (live (ht0 d1)) as L1.
  { destruct (ok_first _ (se_ok _ _ S1)) as [E|]; [|done]. pose proof (se_null _ _ S1 (live_nonempty _ L0)) as Hn. by rewrite E in Hn. }
  destruct (find_in_tables_spec d1 key _ (se_ok _ _ S1) L1 Hi) as (t & i & e & -> & _ & _ & He).
  { intros Hlt. destruct (se_size _ _ S1) as [_ ->]; [|done].
    unfold dictIsRehashing. rewrite (proj2 (Z.eqb_neq _ _)) by lia. done. }
  eexists _, _. split; [done|]. split; [done|]. destruct e as [e|].
  - destruct He as [He%entry_of_table Hk]. split; [|done]. by rewrite <- (se_all _ _ S1).
  - destruct He as [He _]. by rewrite <- (se_all _ _ S1).
Qed.

(** ** Changing a bucket *)

Lemma all_set d t idx b c used : bucket (table_of d t) idx = Some b →
  all (set_table d t (set_bucket (table_of d t) idx c used)) ++ chain_list b ≡ₚ all d ++ chain_list c.
Proof.
  intros Hb. pose proof (entries_set (table_of d t) idx b c used Hb) as Hp. unfold all.
  destruct t; cbn [set_table table_of set_hts ht0 ht1] in *.
  - by rewrite <- !app_assoc, Hp.
  - rewrite <- !app_assoc, (Permutation_app_comm _ (chain_list b)), app_assoc, Hp. solve_Permutation.
Qed.

(** A bucket of the table that takes new keys may hold anything; one of the
    other table may lose entries. *)
Lemma table_set d t idx b c used : dict_ok d → live (table_of d t) → bucket (table_of d t) idx = Some b →
  placed (table_of d t) idx c → tagged c →
  used = ht_used (table_of d t) - Z.of_nat (length (chain_list b)) + Z.of_nat (length (chain_list c)) →
  t = dictIsRehashing d ∨ (b = CNull → c = CNull) →
  NoDup (all (set_table d t (set_bucket (table_of d t) idx c used))).*1 →
  dict_ok (set_table d t (set_bucket (table_of d t) idx c used)).
Proof.
  intros Hok Hl Hb Hp Ht Hu Hcase Hnd. pose proof (live_set _ _ _ _ _ Hl Hb Hp Ht Hu) as Hl'.
  assert (0 ≤ idx) as Hi by (by apply bucket_lookup in Hb as [? _]).
  destruct t; cbn [set_table table_of] in *.
  - assert (dictIsRehashing d = true) as Hr.
    { destruct (dictIsRehashing d) eqn:Hr; [done|]. rewrite (ok_second _ Hok Hr) in Hl. by apply live_nonempty in Hl. }
    destruct (ok_rehashing _ Hok Hr) as (H1 & H2 & H3 & H4 & H5).
    split; [by right| | |done]; (change (dictIsRehashing (set_hts d (ht0 d) _ _)) with (dictIsRehashing d)); rewrite Hr; done.
  - split; [by right| | |done]; (change (dictIsRehashing (set_hts d _ (ht1 d) _)) with (dictIsRehashing d)); [apply Hok|].
    intros Hr. destruct (ok_rehashing _ Hok Hr) as (H1 & H2 & H3 & H4 & H5).
    split; [done|]. split; [done|]. split; [done|]. split; [done|]. cbn [ht0 set_hts rehashidx]. intros j c' Hj Hc'.
    destruct (decide (j = idx)) as [->|Hji]; [|rewrite set_bucket_other in Hc' by done; by eapply H5].
    rewrite (set_bucket_same _ _ b) in Hc' by done. rewrite Hr in Hcase. destruct Hcase as [|Hcase]; [done|].
    simplify_eq. apply Hcase. by eapply H5.
Qed.

Definition stored (val : V) : option V := if no_value T then None else Some val.

Lemma new_entry_spec key val b :
  ∃ de, new_entry odd_key T key val b = Some de ∧ chain_list de = (key, stored val) :: chain_list b ∧ (tagged b → tagged de).
Proof using odd_keys.
  clear hash. unfold new_entry, stored. destruct (no_value T) eqn:Hn; [|eexists; split; [done|]; by cbn].
  destruct (keys_are_odd T) eqn:Hk; cbn [andb]; [|eexists; split; [done|]; by cbn].
  rewrite odd_keys by done. destruct b; cbn [is_null]; eexists; (split; [done|]); cbn; by rewrite ?Hn, ?Hk.
Qed.

Lemma insert_spec d key val : dict_ok d → live (table_of d (dictIsRehashing d)) → key ∉ (all d).*1 →
  ∃ d', dictInsertAtPosition odd_key T d key val (Z.land (hash key) (mask (table_of d (dictIsRehashing d)))) = Some d' ∧
    dict_ok d' ∧ all d' ≡ₚ (key, stored val) :: all d ∧
    pauserehash d' = pauserehash d ∧ pauseAutoResize d' = pauseAutoResize d.
Proof using odd_keys.
  intros Hok Hl Hk. set (t := dictIsRehashing d) in *. set (idx := Z.land _ _).
  destruct (bucket_index (table_of d t) (hash key) Hl) as [b Hb]. fold idx in Hb.
  destruct (new_entry_spec key val b) as (de & Hde & Hlist & Htag).
  pose proof (all_set d t idx b de (ht_used (table_of d t) + 1) Hb) as Hp. rewrite Hlist in Hp.
  set (d' := set_table d t (set_bucket (table_of d t) idx de (ht_used (table_of d t) + 1))) in *.
  assert (all d' ≡ₚ (key, stored val) :: all d) as Ha.
  { apply (Permutation_app_inv_r (chain_list b)). rewrite Hp. solve_Permutation. }
  exists d'. split_and!; try done.
  - unfold dictInsertAtPosition. fold t. subst d'. destruct t; cbn [table_of] in Hb |- *; rewrite Hb; cbn [mbind option_bind];
      by rewrite Hde.
  - apply (table_set d t idx b); try done.
    + unfold placed. rewrite Hlist. constructor; [done|]. by eapply bucket_placed.
    + apply Htag. by eapply bucket_tagged.
    + rewrite Hlist. cbn [length]. lia.
    + by left.
    + change (NoDup (all d').*1). rewrite Ha. cbn. constructor; [done|]. apply Hok.
  - by destruct t.
  - by destruct t.
Qed.

(** A place for a new key, or the place of the existing one. *)
Lemma position_spec d key : dict_ok d → pauseAutoResize d ≤ 0 ∨ ht_table (ht0 d) ≠ [] →
  ∃ d' t i e, dictFindPositionForInsert hash odd_key T can d key = Some (d', (t, i, e)) ∧ dict_ok d' ∧ all d' ≡ₚ all d ∧
    pauserehash d' = pauserehash d ∧ pauseAutoResize d' = pauseAutoResize d ∧ search_result d' key t i e.
Proof using odd_keys.
  intros Hok Hroom. unfold dictFindPositionForInsert.
  assert (0 ≤ Z.land (hash key) (mask (ht0 d))) as Hi.
  { apply index_nonneg. destruct (ok_first _ Hok) as [->|L0]; [done|by apply mask_nonneg]. }
  destruct (rehash_for_same d (hash key) Hok) as (d1 & -> & S1). cbn [mbind option_bind].
  destruct (expandIfNeeded_resized d1 (se_ok _ _ S1)) as (d2 & -> & S2 & L2). cbn [mbind option_bind].
  destruct (se_pauses _ _ S1) as [P1 P1'], (rs_pauses _ _ S2) as [P2 P2'].
  assert (live (ht0 d2)) as L0.
  { apply L2. destruct Hroom as [?|Hn]; [left; lia|right; by apply (se_null _ _ S1)]. }
  destruct (find_in_tables_spec d2 key _ (rs_ok _ _ S2) L0 Hi) as (t & i & e & -> & He).
  { intros Hlt. destruct (rs_begun _ _ S2) as [|E]; [lia|]. subst d2.
    destruct (se_size _ _ S1) as [_ ->]; [|done]. unfold dictIsRehashing. rewrite (proj2 (Z.eqb_neq _ _)) by lia. done. }
  eexists _, _, _, _. split; [done|]. split; [apply S2|]. split; [by rewrite (rs_all _ _ S2), (se_all _ _ S1)|].
  split; [congruence|]. split; [congruence|done].
Qed.

(** What adding a key does. *)
Definition added (d d' : dict K V) (e : entry K V) : Prop :=
  dict_ok d' ∧ all d' ≡ₚ e :: all d ∧ pauseAutoResize d' = pauseAutoResize d.

Definition kept (d d' : dict K V) : Prop :=
  dict_ok d' ∧ all d' ≡ₚ all d ∧ pauseAutoResize d' = pauseAutoResize d.

Lemma addRaw_spec d key val : dict_ok d → pauseAutoResize d ≤ 0 ∨ ht_table (ht0 d) ≠ [] →
  ∃ d' r, dictAddRaw hash odd_key T can d key val = Some (d', r) ∧
    match r with
    | None => (key ∉ (all d).*1) ∧ added d d' (key, stored val)
    | Some (t, i) => kept d d' ∧ i = Z.land (hash key) (mask (table_of d' t)) ∧ live (table_of d' t) ∧
        key ∈ (entries (table_of d' t)).*1
    end.
Proof using odd_keys.
  intros Hok Hroom. unfold dictAddRaw.
  destruct (position_spec d key Hok Hroom) as (d1 & t & i & e & -> & O1 & A1 & _ & P1 & Hi & L1 & He).
  cbn [mbind option_bind]. destruct e as [e|].
  - eexists _, _. split; [done|]. split; [by split|]. destruct He as [He <-]. split_and!; try done.
    apply list_elem_of_fmap. by exists e.
  - destruct He as [He ->]. subst i. destruct (insert_spec d1 key val O1 L1 He) as (d2 & -> & O2 & A2 & _ & P2).
    eexists _, _. split; [done|]. rewrite A1 in He. split; [done|]. split; [done|]. split; [by rewrite A2, A1|congruence].
Qed.

Lemma chain_set_spec key val c v0 : no_value T = false → tagged c → (key, v0) ∈ chain_list c →
  ∃ c' l1 l2 v1, chain_set key val c = Some c' ∧ tagged c' ∧
    chain_list c = l1 ++ (key, v1) :: l2 ∧ chain_list c' = l1 ++ (key, Some val) :: l2.
Proof.
  intros Hv. induction c as [|k|k next IH|k v next IH]; cbn; intros Ht Hin; try (destruct Ht; congruence).
  { by apply elem_of_nil in Hin. }
  destruct Ht as [_ Ht]. case_decide as Hk; [subst k; by eexists _, [], (chain_list next), _|].
  apply elem_of_cons in Hin as [?|Hin]; [congruence|].
  destruct (IH Ht Hin) as (c' & l1 & l2 & v1 & -> & Ht' & -> & Hl). cbn.
  eexists _, ((k, Some v) :: l1), l2, v1. split; [done|]. cbn. by rewrite Hl.
Qed.

Lemma unlink_Some key c e c' : unlink key c = Some (e, c') →
  chain_list c ≡ₚ e :: chain_list c' ∧ e.1 = key ∧ (tagged c → tagged c').
Proof.
  revert c'. induction c as [|k|k next IH|k v next IH]; cbn; intros c' H; try case_decide; simplify_eq; try done.
  - split_and!; [done|done|by intros [_ ?]].
  - destruct (unlink key next) as [[e1 n1]|] eqn:E; [|done]. cbn in H. simplify_eq.
    destruct (IH _ eq_refl) as (Hp & Hk & Ht). cbn. split_and!; [rewrite Hp; solve_Permutation|done|by intros [? ?]; auto].
  - split_and!; [done|done|by intros [_ ?]].
  - destruct (unlink key next) as [[e1 n1]|] eqn:E; [|done]. cbn in H. simplify_eq.
    destruct (IH _ eq_refl) as (Hp & Hk & Ht). cbn. split_and!; [rewrite Hp; solve_Permutation|done|by intros [? ?]; auto].
Qed.

Lemma unlink_None key (c : chain K V) : unlink key c = None → key ∉ (chain_list c).*1.
Proof.
  induction c as [|k|k next IH|k v next IH]; cbn; intros H; try case_decide; try done; [apply not_elem_of_nil|..];
    apply not_elem_of_cons; (split; [done|]); [apply not_elem_of_nil|..]; apply IH; by destruct (unlink key next) as [[]|].
Qed.

(** ** Deletion *)

(** [d'] is [d] without the entry [e]. *)
Definition removed (d d' : dict K V) (e : entry K V) : Prop :=
  dict_ok d' ∧ all d ≡ₚ e :: all d' ∧ pauseAutoResize d' = pauseAutoResize d.

Lemma unlink_at_spec d t key : dict_ok d → live (table_of d t) →
  ∃ d' e, unlink_at T can d t (Z.land (hash key) (mask (table_of d t))) key = Some (d', e) ∧
    match e with
    | Some e => e.1 = key ∧ removed d d' e
    | None => d' = d ∧ key ∉ (entries (table_of d t)).*1
    end.
Proof.
  intros Hok Hl. unfold unlink_at. destruct (bucket_index (table_of d t) (hash key) Hl) as [c Hc].
  rewrite Hc. cbn [mbind option_bind]. set (idx := Z.land _ _) in *. destruct (unlink key c) as [[e c']|] eqn:E.
  - destruct (unlink_Some _ _ _ _ E) as (Hp & Hk & Ht).
    pose proof (all_set d t idx c c' (ht_used (table_of d t) - 1) Hc) as Ha.
    set (d1 := set_table d t _) in *.
    assert (all d ≡ₚ e :: all d1) as Hall.
    { apply (Permutation_app_inv_r (chain_list c')). rewrite <- Ha, Hp. solve_Permutation. }
    assert (dict_ok d1) as O1.
    { apply (table_set d t idx c); try done.
      - pose proof (bucket_placed _ _ _ Hl Hc) as Hpl. unfold placed in *. rewrite Hp in Hpl. by apply Forall_cons in Hpl as [_ ?].
      - apply Ht. by eapply bucket_tagged.
      - apply Permutation_length in Hp. rewrite Hp. cbn [length]. lia.
      - right. intros ->. done.
      - change (NoDup (all d1).*1). pose proof (ok_keys _ Hok) as Hn. rewrite Hall in Hn. by apply NoDup_cons in Hn as [_ ?]. }
    destruct (shrinkIfNeeded_resized d1 O1) as (d2 & -> & S2). eexists _, _. split; [done|]. split; [done|].
    split; [apply S2|]. split; [by rewrite (rs_all _ _ S2)|]. destruct (rs_pauses _ _ S2) as [_ ->]. by destruct t.
  - eexists _, _. split; [done|]. split; [done|]. rewrite (key_in_bucket _ _ _ Hl Hc). by apply unlink_None.
Qed.

Lemma removed_same d d1 d' e : same_entries d d1 → removed d1 d' e → removed d d' e.
Proof.
  intros S1 (O & A & P). split; [done|]. split; [by rewrite <- (se_all _ _ S1)|]. destruct (se_pauses _ _ S1). congruence.
Qed.

Lemma delete_spec d key : dict_ok d →
  ∃ d' e, dictGenericDelete hash odd_key T can d key = Some (d', e) ∧
    match e with
    | Some e => e.1 = key ∧ removed d d' e
    | None => kept d d' ∧ key ∉ (all d).*1
    end.
Proof using odd_keys.
  intros Hok. unfold dictGenericDelete. destruct (Z.eqb_spec (dictSize d) 0) as [Hs|Hs].
  { exists d, None. split; [done|]. rewrite (size_zero d Hok Hs). split; [done|]. apply not_elem_of_nil. }
  pose proof (size_live d Hok Hs) as L0. pose proof (index_nonneg (hash key) _ (mask_nonneg _ L0)) as Hi.
  destruct (rehash_for_same d (hash key) Hok) as (d1 & -> & S1). cbn [mbind option_bind].
  pose proof (se_ok _ _ S1) as O1. assert (kept d d1) as Hkept by (split; [done|]; split; [apply S1|]; apply (se_pauses _ _ S1)).
  assert (live (ht0 d1)) as L1.
  { destruct (ok_first _ O1) as [E|]; [|done]. pose proof (se_null _ _ S1 (live_nonempty _ L0)) as Hn. by rewrite E in Hn. }
  assert (dictIsRehashing d1 = true → key ∉ (entries (ht0 d1)).*1 →
    ∃ d' e, unlink_at T can d1 true (Z.land (hash key) (mask (ht1 d1))) key = Some (d', e) ∧
      match e with Some e => e.1 = key ∧ removed d d' e | None => kept d d' ∧ key ∉ (all d).*1 end) as Hsecond.
  { intros Hr Hno. destruct (ok_rehashing _ O1 Hr) as (_ & _ & LL & _).
    destruct (unlink_at_spec d1 true key O1 LL) as (d' & e & Hu & He). exists d', e. split; [done|].
    destruct e as [e|]; [destruct He; split; [done|]; by eapply removed_same|].
    destruct He as [-> Hno']. split; [done|]. rewrite <- (se_all _ _ S1), keys_app. tauto. }
  destruct (Z.ltb_spec (Z.land (hash key) (mask (ht0 d))) (rehashidx d1)) as [Hlt|_].
  - assert (dictIsRehashing d1 = true) as Hr by (unfold dictIsRehashing; rewrite (proj2 (Z.eqb_neq _ _)) by lia; done).
    destruct (se_size _ _ S1 Hr) as [_ Hm]. rewrite <- Hm in Hlt. apply Hsecond; [done|].
    destruct (bucket_index (ht0 d1) (hash key) L1) as [c Hc]. rewrite (key_in_bucket _ _ _ L1 Hc).
    destruct (ok_rehashing _ O1 Hr) as (_ & _ & _ & _ & Hlow). rewrite (Hlow _ _ Hlt Hc). apply not_elem_of_nil.
  - destruct (unlink_at_spec d1 false key O1 L1) as (d' & e & Hu & He). cbn [table_of] in Hu. rewrite Hu. cbn [mbind option_bind].
    destruct e as [e|]; [eexists _, _; split; [done|]; destruct He; split; [done|]; by eapply removed_same|].
    destruct He as [-> Hno]. destruct (dictIsRehashing d1) eqn:Hr; [by apply Hsecond|].
    eexists _, _. split; [done|]. split; [done|]. rewrite <- (se_all _ _ S1), keys_app, (ok_second _ O1 Hr).
    intros [|[]%elem_of_nil]; done.
Qed.

(** ** Replacement *)

Lemma setVal_spec d t key val : no_value T = false → dict_ok d → live (table_of d t) →
  key ∈ (entries (table_of d t)).*1 →
  ∃ d' l v0, dictSetVal d t (Z.land (hash key) (mask (table_of d t))) key val = Some d' ∧ dict_ok d' ∧
    all d ≡ₚ (key, v0) :: l ∧ all d' ≡ₚ (key, Some val) :: l ∧ pauseAutoResize d' = pauseAutoResize d.
Proof.
  clear odd_keys odd_key. intros Hv Hok Hl Hin. unfold dictSetVal. destruct (bucket_index (table_of d t) (hash key) Hl) as [c Hc].
  apply list_elem_of_fmap in Hin as ([k v0] & -> & Hin). cbn [fst] in *. rewrite Hc. cbn [mbind option_bind].
  rewrite (entry_in_bucket _ (k, v0) c Hl Hc) in Hin. set (idx := Z.land _ _) in *.
  destruct (chain_set_spec k val c v0 Hv (bucket_tagged _ _ _ Hl Hc) Hin) as (c' & l1 & l2 & v1 & -> & Ht & Hl1 & Hl2).
  cbn [mbind option_bind]. pose proof (all_set d t idx c c' (ht_used (table_of d t)) Hc) as Ha.
  set (d1 := set_table d t _) in *. rewrite Hl1, Hl2 in Ha.
  assert ((k, v1) ∈ all d) as [l Hall]%elem_of_Permutation.
  { apply (entry_of_table d t), (entry_in_bucket _ (k, v1) c Hl Hc). rewrite Hl1. set_solver. }
  assert (all d1 ≡ₚ (k, Some val) :: l) as Hall1.
  { apply (Permutation_app_inv_r (l1 ++ (k, v1) :: l2)). rewrite Ha, Hall. solve_Permutation. }
  exists d1, l, v1. split; [done|]. split; [|by destruct t].
  apply (table_set d t idx c); try done.
  - pose proof (bucket_placed _ _ _ Hl Hc) as Hp. unfold placed in *. rewrite Hl1, Forall_app, Forall_cons in Hp.
    rewrite Hl2, Forall_app, Forall_cons. naive_solver.
  - rewrite Hl1, Hl2, !length_app. cbn. lia.
  - right. intros ->. by destruct l1.
  - change (NoDup (all d1).*1). rewrite Hall1. pose proof (ok_keys _ Hok) as Hn. by rewrite Hall in Hn.
Qed.

Lemma replace_spec d key val : no_value T = false → dict_ok d → pauseAutoResize d ≤ 0 ∨ ht_table (ht0 d) ≠ [] →
  ∃ d' b, dictReplace hash odd_key T can d key val = Some (d', b) ∧
    if b : bool then (key ∉ (all d).*1) ∧ added d d' (key, Some val)
    else dict_ok d' ∧ pauseAutoResize d' = pauseAutoResize d ∧
      ∃ l v0, all d ≡ₚ (key, v0) :: l ∧ all d' ≡ₚ (key, Some val) :: l.
Proof using odd_keys.
  intros Hv Hok Hroom. unfold dictReplace. destruct (addRaw_spec d key val Hok Hroom) as (d1 & r & -> & H).
  cbn [mbind option_bind]. destruct r as [[t i]|].
  - destruct H as ((O1 & A1 & P1) & -> & L1 & Hin).
    destruct (setVal_spec d1 t key val Hv O1 L1 Hin) as (d2 & l & v0 & -> & O2 & A2 & A2' & P2).
    eexists _, _. split; [done|]. cbn. split; [done|]. split; [congruence|]. exists l, v0. by rewrite <- A1.
  - rewrite Hv. eexists _, _. split; [done|]. unfold stored in H. by rewrite Hv in H.
Qed.
End spec.

(** ** A finite map *)

Section map.
Context {K V : Type} `{!EqDecision K, !Countable K}.
Variable hash : K → Z.
Variable odd_key : K → bool.
Variable T : dictType.
Hypothesis odd_keys : keys_are_odd T = true → ∀ k, odd_key k = true.
#[local] Set Default Proof Using "Type".

(** The calls of the interface, each with what [dict_can_resize] is when it is
    made.  Rehashing by the timer, resizing on demand and pausing may happen
    between the others at any time. *)
Inductive dict_op : Type :=
| OAdd (k : K) (v : V)
| OReplace (k : K) (v : V)
| OFind (k : K)
| ODelete (k : K)
| OUnlink (k : K)
| ORehash (n : nat)
| OExpand (n : Z)
| OShrink (n : Z)
| OPause
| OResume
| OEmpty.

Inductive dict_answer : Type :=
| ABool (b : bool)
| AEntry (e : option (entry K V))
| ADone.

Definition run_op (can : dictResizeEnable) (d : dict K V) (o : dict_op) : option (dict K V * dict_answer) :=
  match o with
  | OAdd k v => '(d, b) ← dictAdd hash odd_key T can d k v; Some (d, ABool b)
  | OReplace k v => '(d, b) ← dictReplace hash odd_key T can d k v; Some (d, ABool b)
  | OFind k => '(d, e) ← dictFind hash odd_key T can d k; Some (d, AEntry e)
  | ODelete k => '(d, b) ← dictDelete hash odd_key T can d k; Some (d, ABool b)
  | OUnlink k => '(d, e) ← dictUnlink hash odd_key T can d k; Some (d, AEntry e)
  | ORehash n => '(d, _) ← dictRehash hash odd_key T can d n; Some (d, ADone)
  | OExpand n => '(d, _) ← dictExpand d n; Some (d, ADone)
  | OShrink n => '(d, _) ← dictShrink d n; Some (d, ADone)
  | OPause => Some (dictPauseRehashing d, ADone)
  | OResume => Some (dictResumeRehashing d, ADone)
  | OEmpty => Some (dictEmpty d, ADone)
  end.

(** What the calls mean. *)
Definition meaning (m : gmap K (option V)) (o : dict_op) : gmap K (option V) * dict_answer :=
  match o with
  | OAdd k v => match m !! k with
                | Some _ => (m, ABool false)
                | None => (<[k := stored T v]> m, ABool true)
                end
  | OReplace k v => (<[k := Some v]> m, ABool (bool_decide (m !! k = None)))
  | OFind k => (m, AEntry ((λ v, (k, v)) <$> m !! k))
  | ODelete k => (delete k m, ABool (bool_decide (is_Some (m !! k))))
  | OUnlink k => (delete k m, AEntry ((λ v, (k, v)) <$> m !! k))
  | ORehash _ | OExpand _ | OShrink _ | OPause | OResume => (m, ADone)
  | OEmpty => (∅, ADone)
  end.

(** A dictionary stands for a map, and resizes by itself. *)
Definition dict_rep (d : dict K V) (m : gmap K (option V)) : Prop :=
  dict_ok hash T d ∧ list_to_map (all d) = m ∧ pauseAutoResize d = 0.

Definition op_ok (o : dict_op) : Prop := match o with OReplace _ _ => no_value T = false | _ => True end.

Lemma rep_kept d d' m : dict_rep d m → kept hash T d d' → dict_rep d' m.
Proof.
  intros (Hok & <- & Hp) (Hok' & Ha & Hp'). split; [done|]. split; [|congruence].
  symmetry. apply list_to_map_proper; [apply Hok|done].
Qed.

Lemma rep_added d d' m e : dict_rep d m → added hash T d d' e → dict_rep d' (<[e.1 := e.2]> m).
Proof.
  intros (Hok & <- & Hp) (Hok' & Ha & Hp'). split; [done|]. split; [|congruence].
  destruct e as [k v]. rewrite <- list_to_map_cons. apply list_to_map_proper; [apply Hok'|done].
Qed.

Lemma rep_removed d d' m e : dict_rep d m → removed hash T d d' e →
  dict_rep d' (delete e.1 m) ∧ m !! e.1 = Some e.2.
Proof.
  intros (Hok & <- & Hp) (Hok' & Ha & Hp'). pose proof (ok_keys _ _ _ Hok) as Hn.
  assert (list_to_map (all d) = <[e.1 := e.2]> (list_to_map (all d') : gmap K (option V))) as ->.
  { destruct e as [k v]. rewrite <- list_to_map_cons. by apply list_to_map_proper. }
  rewrite Ha in Hn. apply NoDup_cons in Hn as [Hn _]. split; [|by rewrite lookup_insert_eq].
  split; [done|]. split; [|congruence]. rewrite delete_insert_id; [done|]. by apply not_elem_of_list_to_map_1.
Qed.

Lemma rep_replaced d d' m k v v0 l : dict_rep d m → dict_ok hash T d' → pauseAutoResize d' = pauseAutoResize d →
  all d ≡ₚ (k, v0) :: l → all d' ≡ₚ (k, v) :: l → dict_rep d' (<[k := v]> m) ∧ m !! k = Some v0.
Proof.
  intros (Hok & <- & Hp) Hok' Hp' A A'.
  assert (list_to_map (all d) = <[k := v0]> (list_to_map l : gmap K (option V))) as ->.
  { rewrite <- list_to_map_cons. apply list_to_map_proper; [apply Hok|done]. }
  split; [|by rewrite lookup_insert_eq]. split; [done|]. split; [|congruence].
  rewrite insert_insert_eq, <- list_to_map_cons. apply list_to_map_proper; [apply Hok'|done].
Qed.

Lemma rep_absent d m k : dict_rep d m → k ∉ (all d).*1 → m !! k = None.
Proof. intros (_ & <- & _) H. by apply not_elem_of_list_to_map_1. Qed.

Lemma rep_present d m e : dict_rep d m → e ∈ all d → m !! e.1 = Some e.2.
Proof. intros (Hok & <- & _) H. apply elem_of_list_to_map_1; [apply Hok|]. by destruct e. Qed.

Lemma same_kept (d d' : dict K V) : same_entries hash T d d' → kept hash T d d'.
Proof. intros []. split; [done|]. split; [done|]. apply se_pauses0. Qed.

Lemma resized_kept (d d' : dict K V) : resized hash T d d' → kept hash T d d'.
Proof. intros []. split; [done|]. split; [done|]. apply rs_pauses0. Qed.

Lemma rep_created : dict_rep dictCreate ∅.
Proof. split; [|done]. split; [by left|done|done|apply NoDup_nil_2]. Qed.

(** One call. *)
Lemma run_op_spec can d m o : dict_rep d m → op_ok o →
  ∃ d', run_op can d o = Some (d', (meaning m o).2) ∧ dict_rep d' (meaning m o).1.
Proof using odd_keys.
  intros Hrep Hop. pose proof Hrep as (Hok & _ & Hp). pose proof (Z.eq_le_incl _ _ Hp) as Hle.
  destruct o as [k v|k v|k|k|k|n|n|n| | |]; cbn [run_op meaning].
  - unfold dictAdd. destruct (addRaw_spec hash odd_key T odd_keys can d k v Hok (or_introl Hle)) as (d' & r & -> & H).
    exists d'. cbn. destruct r as [[t i]|].
    + destruct H as (Hk & _ & _ & Hin). pose proof (rep_kept d d' m Hrep Hk) as Hrep'.
      apply list_elem_of_fmap in Hin as (e & -> & He%entry_of_table). rewrite (rep_present d' m e Hrep' He). by split.
    + destruct H as [Hno Ha]. rewrite (rep_absent d m k Hrep Hno). split; [done|]. by apply (rep_added d d' m (k, stored T v)).
  - destruct (replace_spec hash odd_key T odd_keys can d k v Hop Hok (or_introl Hle)) as (d' & b & -> & H).
    exists d'. cbn. destruct b.
    + destruct H as [Hno Ha]. rewrite (rep_absent d m k Hrep Hno). split; [done|]. by apply (rep_added d d' m (k, Some v)).
    + destruct H as (Hok' & Hp' & l & v0 & A & A').
      destruct (rep_replaced d d' m k (Some v) v0 l Hrep Hok' Hp' A A') as [Hrep' ->]. by split.
  - destruct (dictFind_spec hash odd_key T odd_keys can d k Hok) as (d' & e & -> & Hs & H). exists d'. cbn.
    split; [|by eapply rep_kept, same_kept]. destruct e as [e|].
    + destruct H as [He <-]. rewrite (rep_present d m e Hrep He). by destruct e.
    + by rewrite (rep_absent d m k Hrep H).
  - unfold dictDelete. destruct (delete_spec hash odd_key T odd_keys can d k Hok) as (d' & e & -> & H). exists d'. cbn.
    destruct e as [e|].
    + destruct H as [<- H]. destruct (rep_removed d d' m e Hrep H) as [Hrep' ->]. by split.
    + destruct H as [Hk Hno]. rewrite (rep_absent d m k Hrep Hno), delete_id by (by apply (rep_absent d)).
      split; [done|]. by eapply rep_kept.
  - unfold dictUnlink. destruct (delete_spec hash odd_key T odd_keys can d k Hok) as (d' & e & -> & H). exists d'. cbn.
    destruct e as [e|].
    + destruct H as [<- H]. destruct (rep_removed d d' m e Hrep H) as [Hrep' ->]. split; [by destruct e|done].
    + destruct H as [Hk Hno]. rewrite (rep_absent d m k Hrep Hno), delete_id by (by apply (rep_absent d)).
      split; [done|]. by eapply rep_kept.
  - destruct (dictRehash_same hash odd_key T odd_keys can d n Hok) as (d' & b & -> & H). exists d'.
    split; [done|]. by eapply rep_kept, same_kept.
  - destruct (dictExpand_resized hash T d n Hok) as (d' & b & -> & H). exists d'. split; [done|]. by eapply rep_kept, resized_kept.
  - destruct (dictShrink_resized hash T d n Hok) as (d' & b & -> & H). exists d'. split; [done|]. by eapply rep_kept, resized_kept.
  - eexists. split; [done|]. apply (rep_kept d); [done|]. split; [by destruct Hok|done].
  - eexists. split; [done|]. apply (rep_kept d); [done|]. split; [by destruct Hok|done].
  - exists dictCreate. split; [done|apply rep_created].
Qed.

(** ** Sequences of calls *)

Fixpoint run_ops (ops : list (dictResizeEnable * dict_op)) (d : dict K V) : option (dict K V * list dict_answer) :=
  match ops with
  | [] => Some (d, [])
  | (can, o) :: ops => '(d, a) ← run_op can d o; '(d, l) ← run_ops ops d; Some (d, a :: l)
  end.

Fixpoint meanings (ops : list (dictResizeEnable * dict_op)) (m : gmap K (option V)) : gmap K (option V) * list dict_answer :=
  match ops with
  | [] => (m, [])
  | (_, o) :: ops => let '(m, a) := meaning m o in let '(m, l) := meanings ops m in (m, a :: l)
  end.

Lemma run_ops_spec ops d m : dict_rep d m → Forall (λ o, op_ok o.2) ops →
  ∃ d', run_ops ops d = Some (d', (meanings ops m).2) ∧ dict_rep d' (meanings ops m).1.
Proof using odd_keys.
  intros Hrep Hops. revert d m Hrep. induction Hops as [|[can o] ops Ho _ IH]; intros d m Hrep; [by exists d|].
  destruct (run_op_spec can d m o Hrep Ho) as (d1 & E1 & H1). cbn [run_ops meanings]. rewrite E1.
  destruct (meaning m o) as [m1 a]. cbn [fst snd] in *. destruct (IH d1 m1 H1) as (d2 & E2 & H2).
  cbn [mbind option_bind]. rewrite E2. destruct (meanings ops m1) as [m2 l]. by exists d2.
Qed.

(** C18: a hash table is a finite map.  On any sequence of calls that add,
    replace, find, unlink and delete keys, rehash, resize, pause and empty the
    table, with resizing enabled, avoided or forbidden at each of them, and with
    values or without, no assertion fails, no access is out of range, every
    answer is that of a finite map, and the table stands for the map at the
    end: entries are neither lost nor doubled while they move between the two
    tables. *)
Theorem dict_refines_map ops d m (Hrep : dict_rep d m) (Hops : Forall (λ o, op_ok o.2) ops) :
  ∃ d', run_ops ops d = Some (d', (meanings ops m).2) ∧ dict_rep d' (meanings ops m).1.
Proof using odd_keys. by apply run_ops_spec. Qed.

(** The calls that the timer makes. *)
Lemma rehash_calls ns d m : dict_rep d m → Forall (λ n, n ≠ 0%nat) ns →
  ∃ d', run_ops ((λ n, (DICT_RESIZE_ENABLE, ORehash n)) <$> ns) d = Some (d', (λ _, ADone) <$> ns) ∧ dict_rep d' m ∧
    (dictIsRehashing d' = true → size (ht0 d') = size (ht0 d) ∧ rehashidx d + Z.of_nat (length ns) ≤ rehashidx d' ∧ dictIsRehashing d = true).
Proof using odd_keys.
  intros Hrep Hns. revert d Hrep. induction Hns as [|n ns Hn _ IH]; intros d Hrep.
  { exists d. split; [done|]. split; [done|]. intros R. split_and!; [done|cbn; lia|done]. }
  destruct n as [|n]; [done|]. cbn [fmap list_fmap run_ops run_op].
  destruct (rehash_allowed DICT_RESIZE_ENABLE d) eqn:Ha.
  - destruct (dictRehash_progress hash odd_key T odd_keys DICT_RESIZE_ENABLE d n (proj1 Hrep) Ha) as (d1 & b & -> & S1 & Hp).
    cbn [mbind option_bind]. destruct (IH d1) as (d2 & -> & Hrep2 & H2); [by eapply rep_kept, same_kept|].
    cbn [mbind option_bind]. exists d2. split; [done|]. split; [done|]. intros R2. destruct (H2 R2) as (Hs & Hi & R1).
    rewrite Hs, (same_size hash T d d1 (proj1 Hrep) S1 R1). split_and!; [done| |apply (se_size _ _ _ _ S1 R1)].
    destruct Hp as [Hp|Hp]; [congruence|]. cbn [length]. lia.
  - unfold dictRehash at 1. rewrite Ha. cbn [negb mbind option_bind]. destruct (IH d Hrep) as (d2 & -> & Hrep2 & H2).
    cbn [mbind option_bind]. exists d2. split; [done|]. split; [done|]. intros R2. destruct (H2 R2) as (_ & _ & R).
    unfold rehash_allowed in Ha. by rewrite R in Ha.
Qed.

(** C36: rehashing comes to an end.  When resizing is enabled, as many steps as
    the first table has buckets, and one more, leave a single table with the same
    map, whatever the number of buckets that each of them may move. *)
Theorem rehash_ends ns d m (Hrep : dict_rep d m) (Hns : Forall (λ n, n ≠ 0%nat) ns)
    (Hlen : size (ht0 d) < Z.of_nat (length ns)) :
  ∃ d', run_ops ((λ n, (DICT_RESIZE_ENABLE, ORehash n)) <$> ns) d = Some (d', (λ _, ADone) <$> ns) ∧
    dictIsRehashing d' = false ∧ ht1 d' = _dictReset ∧ dict_rep d' m.
Proof using odd_keys.
  destruct (rehash_calls ns d m Hrep Hns) as (d' & E & Hrep' & H). exists d'. split; [done|].
  assert (dictIsRehashing d' = false) as Hr; [|split; [done|]; split; [by apply (proj1 Hrep')|done]].
  destruct (dictIsRehashing d') eqn:R; [|done]. destruct (H eq_refl) as (Hs & Hi & R0).
  pose proof (proj1 (ok_rehashing _ _ _ (proj1 Hrep') R)). pose proof (proj1 (ok_rehashing _ _ _ (proj1 Hrep) R0)). lia.
Qed.
End map.

(** Sets of numbers, whose keys are stored without entries where possible, from
    the first key to a table that grows and shrinks. *)
Definition sample_type : dictType := mkDictType true true None.

Definition sample_ops : list (dictResizeEnable * dict_op (K := Z) (V := unit)) :=
  ((λ k, (DICT_RESIZE_ENABLE, OAdd k ())) <$> seqZ 0 20) ++
  [(DICT_RESIZE_AVOID, OFind 3); (DICT_RESIZE_FORBID, ODelete 17); (DICT_RESIZE_ENABLE, OPause);
   (DICT_RESIZE_ENABLE, OUnlink 4); (DICT_RESIZE_ENABLE, OResume); (DICT_RESIZE_ENABLE, OAdd 5 ())] ++
  ((λ k, (DICT_RESIZE_ENABLE, ODelete k)) <$> seqZ 0 15) ++
  [(DICT_RESIZE_ENABLE, OFind 18); (DICT_RESIZE_ENABLE, ORehash 3)].

Lemma dict_refines_map_witness :
  ∃ d', run_ops (λ k, k * 11) (λ _, true) sample_type sample_ops dictCreate = Some (d', (meanings sample_type sample_ops ∅).2) ∧
    dict_rep (λ k, k * 11) sample_type d' (meanings sample_type sample_ops ∅).1.
Proof.
  apply (dict_refines_map (λ k, k * 11) (λ _, true) sample_type (λ _ _, eq_refl) sample_ops dictCreate ∅).
  - apply rep_created.
  - repeat constructor.
Defined.

(** Five numbers in a table that has begun to move from 4 buckets to 8. *)
Definition sample_adds : list (dictResizeEnable * dict_op (K := Z) (V := unit)) :=
  (λ k, (DICT_RESIZE_ENABLE, OAdd k ())) <$> seqZ 0 5.

Definition sample_dict : dict Z unit :=
  default dictCreate (fst <$> run_ops (λ k, k * 11) (λ _, true) sample_type sample_adds dictCreate).

Definition sample_map : gmap Z (option unit) := (meanings sample_type sample_adds ∅).1.

Lemma sample_stands : dict_rep (λ k, k * 11) sample_type sample_dict sample_map.
Proof.
  destruct (run_ops_spec (λ k, k * 11) (λ _, true) sample_type (λ _ _, eq_refl) sample_adds dictCreate ∅) as (d & E & H).
  - apply rep_created.
  - repeat constructor.
  - unfold sample_dict. rewrite E. exact H.
Qed.

Lemma rehash_ends_witness : dictIsRehashing sample_dict = true ∧
  ∃ d', run_ops (λ k, k * 11) (λ _, true) sample_type ((λ n, (DICT_RESIZE_ENABLE, ORehash n)) <$> [1; 1; 2; 1; 1]%nat) sample_dict =
      Some (d', (λ _, ADone) <$> [1; 1; 2; 1; 1]%nat) ∧
    dictIsRehashing d' = false ∧ ht1 d' = _dictReset ∧ dict_rep (λ k, k * 11) sample_type d' sample_map.
Proof.
  split; [by vm_compute|].
  apply (rehash_ends (λ k, k * 11) (λ _, true) sample_type (λ _ _, eq_refl) [1; 1; 2; 1; 1]%nat sample_dict sample_map sample_stands).
  - by repeat constructor.
  - by vm_compute.
Defined.
