(* ===== verification/DictScan.v ===== *)
(** * Scanning and iterating over a hash table

    [rev] reverses the bits of a cursor, so that a cursor is a position among
    the reversed hashes: a bucket is an interval of positions in a table of any
    size, and a call of [dictScan] returns the entries of an interval that
    starts at its cursor.  A scan therefore returns every element that stays in
    the table, whatever resizing and rehashing is done between its calls.  The
    iterator returns every entry once. *)

From Stdlib Require Import Zbitwise.
From S2P Require Import Prelude Dict DictSpec.

#[local] Arguments Z.land : simpl never.
#[local] Arguments Z.to_nat : simpl never.
#[local] Arguments Z.add : simpl never.
#[local] Arguments Z.sub : simpl never.
#[local] Arguments Z.mul : simpl never.
#[local] Arguments Z.pow : simpl never.

(** ** Reversing bits *)

Definition word (v : Z) : Prop := 0 ≤ v < 2 ^ 64.

Lemma word_bits v i : word v → 64 ≤ i → Z.testbit v i = false.
Proof.
  intros [Hv Hlt] Hi. destruct (decide (v = 0)) as [->|]; [apply Z.testbit_0_l|].
  apply Z.bits_above_log2; [done|]. apply Z.log2_lt_pow2; [lia|].
  eapply Z.lt_le_trans; [done|]. apply Z.pow_le_mono_r; lia.
Qed.

Lemma wrap_bits v i : 0 ≤ i → Z.testbit (wrap_u 64 v) i = (i <? 64) && Z.testbit v i.
Proof.
  intros Hi. unfold wrap_u. destruct (Z.ltb_spec i 64).
  - by rewrite Z.mod_pow2_bits_low.
  - by rewrite Z.mod_pow2_bits_high by lia.
Qed.

Lemma wrap_word v : word (wrap_u 64 v).
Proof. unfold word, wrap_u. apply Z.mod_pos_bound. lia. Qed.

Lemma wrap_id v : word v → wrap_u 64 v = v.
Proof. intros H. by apply Z.mod_small. Qed.

Lemma word_of_bits v : 0 ≤ v → (∀ i, 64 ≤ i → Z.testbit v i = false) → word v.
Proof.
  intros Hv H. split; [done|]. destruct (decide (v = 0)); [lia|].
  apply Z.log2_lt_pow2; [lia|]. destruct (Z.lt_ge_cases (Z.log2 v) 64) as [|Hge]; [done|].
  specialize (H _ Hge). rewrite Z.bit_log2 in H by lia. done.
Qed.

(** One round of the loop. *)
Definition swap (s m v : Z) : Z :=
  Z.lor (Z.land (Z.shiftr v s) m) (Z.land (wrap_u 64 (Z.shiftl v s)) (wrap_u 64 (Z.lnot m))).

(** A mask selects the bits that come from above, and the others come from
    below. *)
Definition swaps (s m : Z) : bool :=
  forallb (λ i, Bool.eqb (Z.testbit m i) (Z.lxor i s =? i + s) && Bool.eqb (negb (Z.testbit m i)) (Z.lxor i s =? i - s) &&
                (Z.lxor i s <? 64) && (0 <=? Z.lxor i s)) (seqZ 0 64).

Lemma swap_bits s m v i : 0 ≤ s → word v → word m → swaps s m = true → 0 ≤ i < 64 →
  Z.testbit (swap s m v) i = Z.testbit v (Z.lxor i s) ∧ 0 ≤ Z.lxor i s < 64.
Proof.
  intros Hs Hv Hm Hsw Hi. unfold swaps in Hsw. rewrite forallb_forall in Hsw.
  specialize (Hsw i). rewrite <- list_elem_of_In in Hsw. ospecialize (Hsw _); [apply elem_of_seqZ; lia|].
  rewrite !andb_true_iff in Hsw. destruct Hsw as [[[H1 H2] H3] H4].
  apply eqb_prop in H1, H2. apply Z.ltb_lt in H3. apply Z.leb_le in H4. split; [|lia].
  unfold swap. rewrite Z.lor_spec, !Z.land_spec, !wrap_bits, Z.shiftr_spec, Z.shiftl_spec, Z.lnot_spec by lia.
  rewrite (proj2 (Z.ltb_lt i 64)) by lia. destruct (Z.testbit m i) eqn:E; cbn [negb andb] in *.
  - symmetry in H1. apply Z.eqb_eq in H1. rewrite H1. by rewrite andb_true_r, andb_false_r, orb_false_r.
  - symmetry in H2. apply Z.eqb_eq in H2. rewrite H2. by rewrite andb_false_r, andb_true_r.
Qed.

Lemma swap_word s m v : 0 ≤ s → word v → word m → word (swap s m v).
Proof.
  intros Hs Hv Hm. apply word_of_bits.
  - unfold swap. apply Z.lor_nonneg. split; apply Z.land_nonneg; [right; apply Hm|left; apply wrap_word].
  - intros i Hi. unfold swap. rewrite Z.lor_spec, !Z.land_spec, wrap_bits by lia.
    rewrite (word_bits m) by done. rewrite (proj2 (Z.ltb_ge i 64)) by lia. by rewrite andb_false_r.
Qed.

(** The shifts of the rounds and their masks. *)
Definition rev_rounds : list (Z * Z) :=
  [(32, 0x00000000FFFFFFFF); (16, 0x0000FFFF0000FFFF); (8, 0x00FF00FF00FF00FF);
   (4, 0x0F0F0F0F0F0F0F0F); (2, 0x3333333333333333); (1, 0x5555555555555555)].

Lemma rev_loop_round fuel s m v s' m' : Z.shiftr s 1 = s' → (s' <=? 0) = false → Z.lxor m (wrap_u 64 (Z.shiftl m s')) = m' →
  rev_loop (S fuel) s m v = rev_loop fuel s' m' (swap s' m' v).
Proof. intros <- H <-. cbn [rev_loop]. by rewrite H. Qed.

Lemma rev_unrolled v : rev v = foldl (λ v r, swap r.1 r.2 v) v rev_rounds.
Proof.
  unfold rev, rev_rounds. cbn [foldl fst snd]. do 6 (erewrite rev_loop_round; [|by vm_compute..]). by cbn [rev_loop].
Qed.

(** The bit that a sequence of rounds brings to a position. *)
Fixpoint source (rs : list (Z * Z)) (i : Z) : Z :=
  match rs with [] => i | r :: rs => Z.lxor (source rs i) r.1 end.

Lemma rounds_bits rs : Forall (λ r, 0 ≤ r.1 ∧ word r.2 ∧ swaps r.1 r.2 = true) rs → ∀ v, word v →
  word (foldl (λ v r, swap r.1 r.2 v) v rs) ∧
  ∀ i, 0 ≤ i < 64 → Z.testbit (foldl (λ v r, swap r.1 r.2 v) v rs) i = Z.testbit v (source rs i) ∧ 0 ≤ source rs i < 64.
Proof.
  induction 1 as [|r rs (H1 & H2 & H3) _ IH]; intros v Hv; [by split|]. cbn [foldl source].
  destruct (IH _ (swap_word _ _ _ H1 Hv H2)) as [Hw Hb]. split; [done|]. intros i Hi.
  destruct (Hb i Hi) as [-> Hj]. by apply swap_bits.
Qed.

Lemma rounds_reverse i : 0 ≤ i < 64 → source rev_rounds i = 63 - i.
Proof.
  intros Hi. assert (forallb (λ i, source rev_rounds i =? 63 - i) (seqZ 0 64) = true) as H by (by vm_compute).
  rewrite forallb_forall in H. apply Z.eqb_eq, H, list_elem_of_In, elem_of_seqZ. lia.
Qed.

Lemma rounds_ok : Forall (λ r, 0 ≤ r.1 ∧ word r.2 ∧ swaps r.1 r.2 = true) rev_rounds.
Proof. repeat constructor; by vm_compute. Qed.

Lemma rev_word v : word v → word (rev v).
Proof. intros Hv. rewrite rev_unrolled. apply rounds_bits; [apply rounds_ok|done]. Qed.

Lemma rev_bits v i : word v → 0 ≤ i < 64 → Z.testbit (rev v) i = Z.testbit v (63 - i).
Proof.
  intros Hv Hi. rewrite rev_unrolled. destruct (rounds_bits _ rounds_ok v Hv) as [_ H].
  destruct (H i Hi) as [-> _]. by rewrite rounds_reverse.
Qed.

Lemma words_equal v w : word v → word w → (∀ i, 0 ≤ i < 64 → Z.testbit v i = Z.testbit w i) → v = w.
Proof.
  intros Hv Hw H. apply Z.bits_inj'. intros i Hi. destruct (Z.lt_ge_cases i 64); [by apply H|]. by rewrite !word_bits.
Qed.

Lemma rev_involutive v : word v → rev (rev v) = v.
Proof.
  intros Hv. apply words_equal; [by apply rev_word, rev_word|done|]. intros i Hi.
  rewrite !rev_bits by (try apply rev_word; (done || lia)). f_equal. lia.
Qed.

Lemma rev_0 : rev 0 = 0.
Proof. by vm_compute. Qed.

#[local] Opaque rev.

Lemma rev_zero v : word v → rev v = 0 ↔ v = 0.
Proof.
  pose proof rev_0 as H0. intros Hv. split; [|by intros ->].
  intros H. by rewrite <- (rev_involutive v), H, H0.
Qed.

(** ** Positions *)

(** The first position after the bucket of [r] in a table of [2 ^ e] buckets. *)
Definition bucket_end (e r : Z) : Z := (r / 2 ^ (64 - e) + 1) * 2 ^ (64 - e).

(** Two words have the same index in a table when their positions are in the
    same bucket. *)
Lemma same_bucket e v w : 0 ≤ e ≤ 64 → word v → word w →
  v mod 2 ^ e = w mod 2 ^ e ↔ rev v / 2 ^ (64 - e) = rev w / 2 ^ (64 - e).
Proof.
  intros He Hv Hw. rewrite <- !Z.shiftr_div_pow2 by lia. split; intros H; apply Z.bits_inj'; intros i Hi.
  - rewrite !Z.shiftr_spec by lia. destruct (Z.lt_ge_cases (i + (64 - e)) 64).
    + rewrite !rev_bits by (done || lia).
      assert (∀ u, Z.testbit u (63 - (i + (64 - e))) = Z.testbit (u mod 2 ^ e) (63 - (i + (64 - e)))) as Hu.
      { intros u. by rewrite Z.mod_pow2_bits_low by lia. }
      by rewrite (Hu v), (Hu w), H.
    + by rewrite !word_bits by (done || by apply rev_word).
  - destruct (Z.lt_ge_cases i e); [|by rewrite !Z.mod_pow2_bits_high by lia].
    rewrite !Z.mod_pow2_bits_low by lia.
    assert (∀ u, word u → Z.testbit u i = Z.testbit (Z.shiftr (rev u) (64 - e)) (e - 1 - i)) as Hu.
    { intros u Hu. rewrite Z.shiftr_spec, rev_bits by (done || lia). f_equal. lia. }
    by rewrite (Hu v), (Hu w), H.
Qed.

Lemma lor_ones r n : 0 ≤ n → Z.lor r (Z.ones n) + 1 = (r / 2 ^ n + 1) * 2 ^ n.
Proof.
  intros Hn. pose proof (Z.add_lor_land r (Z.ones n)) as H. rewrite Z.land_ones, Z.ones_equiv in * by lia.
  pose proof (Z.div_mod r (2 ^ n)). lia.
Qed.

Lemma word_lor v w : word v → word w → word (Z.lor v w).
Proof.
  intros Hv Hw. apply word_of_bits; [apply Z.lor_nonneg; split; [apply Hv|apply Hw]|].
  intros i Hi. by rewrite Z.lor_spec, !word_bits.
Qed.

Lemma word_ones n : 0 ≤ n ≤ 64 → word (Z.ones n).
Proof. intros Hn. rewrite Z.ones_equiv. pose proof (Z.pow_le_mono_r 2 n 64). unfold word. lia. Qed.

(** The next cursor is the start of the next bucket. *)
Lemma next_cursor_spec e v : 0 ≤ e ≤ 63 → word v →
  word (next_cursor v (Z.ones e)) ∧ rev (next_cursor v (Z.ones e)) = wrap_u 64 (bucket_end e (rev v)).
Proof.
  intros He Hv. unfold next_cursor, bucket_end. split; [by apply rev_word, wrap_word|].
  rewrite rev_involutive by apply wrap_word. rewrite <- lor_ones by lia. do 2 f_equal.
  assert (word (Z.lor v (wrap_u 64 (Z.lnot (Z.ones e))))) as Hw by (apply word_lor; [done|apply wrap_word]).
  apply words_equal; [by apply rev_word|apply word_lor; [by apply rev_word|apply word_ones; lia]|].
  intros i Hi. rewrite rev_bits, !Z.lor_spec, rev_bits, wrap_bits, Z.lnot_spec, !Z.testbit_ones_nonneg by (done || lia).
  f_equal. rewrite (proj2 (Z.ltb_lt (63 - i) 64)) by lia. cbn [andb].
  destruct (Z.ltb_spec (63 - i) e), (Z.ltb_spec i (64 - e)); cbn; (done || lia).
Qed.

Lemma bucket_end_range e r : 0 ≤ e ≤ 63 → word r → r < bucket_end e r ≤ 2 ^ 64.
Proof.
  intros He [H1 H2]. unfold bucket_end. pose proof (Z.div_mod r (2 ^ (64 - e)) ltac:(lia)).
  pose proof (Z.mod_pos_bound r (2 ^ (64 - e)) ltac:(lia)). split; [nia|].
  replace (2 ^ 64) with (2 ^ e * 2 ^ (64 - e)) in * by (rewrite <- Z.pow_add_r by lia; f_equal; lia).
  apply Z.mul_le_mono_nonneg_r; [lia|].
  assert (r / 2 ^ (64 - e) < 2 ^ e); [|lia]. apply Z.div_lt_upper_bound; lia.
Qed.

(** A position before the end of the bucket and not before [r] is in the bucket. *)
Lemma within_bucket e r p : 0 ≤ e ≤ 63 → r ≤ p < bucket_end e r → p / 2 ^ (64 - e) = r / 2 ^ (64 - e).
Proof.
  intros He [H1 H2]. unfold bucket_end in H2. apply (Z.div_le_mono _ _ (2 ^ (64 - e))) in H1; [|lia].
  enough (p / 2 ^ (64 - e) < r / 2 ^ (64 - e) + 1) by lia. apply Z.div_lt_upper_bound; lia.
Qed.

(** The ends of buckets in tables of two sizes. *)
Section two_sizes.
Variables (e0 e1 : Z).
Hypothesis sizes : 0 ≤ e0 < e1 ∧ e1 ≤ 63.

Lemma widths : 2 ^ (64 - e0) = 2 ^ (e1 - e0) * 2 ^ (64 - e1).
Proof using sizes. rewrite <- Z.pow_add_r by lia. f_equal. lia. Qed.

Lemma end_le r : bucket_end e1 r ≤ bucket_end e0 r.
Proof using sizes.
  unfold bucket_end. rewrite widths, Z.mul_assoc. apply Z.mul_le_mono_nonneg_r; [lia|].
  rewrite (Z.mul_comm (2 ^ (e1 - e0)) (2 ^ (64 - e1))), <- Z.div_div by lia. set (q := r / 2 ^ (64 - e1)).
  pose proof (Z.div_mod q (2 ^ (e1 - e0)) ltac:(lia)). pose proof (Z.mod_pos_bound q (2 ^ (e1 - e0)) ltac:(lia)). lia.
Qed.

Lemma end_multiple r : bucket_end e1 r mod 2 ^ (64 - e0) = 0 ↔ bucket_end e1 r = bucket_end e0 r.
Proof using sizes.
  pose proof (end_le r) as Hle. split.
  - intros H. apply Z.le_antisymm; [done|]. apply Z.div_exact in H; [|lia]. unfold bucket_end at 1. rewrite H.
    rewrite (Z.mul_comm (2 ^ (64 - e0))). apply Z.mul_le_mono_nonneg_r; [lia|].
    enough (r / 2 ^ (64 - e0) < bucket_end e1 r / 2 ^ (64 - e0)) by lia.
    assert (r < bucket_end e1 r) as Hr.
    { unfold bucket_end. pose proof (Z.div_mod r (2 ^ (64 - e1)) ltac:(lia)).
      pose proof (Z.mod_pos_bound r (2 ^ (64 - e1)) ltac:(lia)). nia. }
    apply Z.div_lt_upper_bound; [lia|]. rewrite <- H. exact Hr.
  - intros ->. unfold bucket_end. apply Z.mod_mul. lia.
Qed.

Lemma wrap_multiple x n : 0 ≤ n ≤ 64 → wrap_u 64 x mod 2 ^ n = x mod 2 ^ n.
Proof.
  intros Hn. unfold wrap_u. apply Z.mod_mod_divide. exists (2 ^ (64 - n)).
  rewrite <- Z.pow_add_r by lia. f_equal. lia.
Qed.

(** The condition of the loop over the expansions. *)
Lemma expansion_test v : word v → rev v mod 2 ^ (64 - e1) = 0 →
  Z.land v (Z.lxor (Z.ones e0) (Z.ones e1)) = 0 ↔ rev v mod 2 ^ (64 - e0) = 0.
Proof using sizes.
  intros Hv Hr. split; intros H; apply Z.bits_inj'; intros i Hi; rewrite Z.testbit_0_l.
  - destruct (Z.lt_ge_cases i (64 - e0)); [|by rewrite Z.mod_pow2_bits_high by lia].
    rewrite Z.mod_pow2_bits_low by lia. destruct (Z.lt_ge_cases i (64 - e1)).
    + by rewrite <- (Z.mod_pow2_bits_low (rev v) (64 - e1) i), Hr, Z.testbit_0_l by lia.
    + rewrite rev_bits by (done || lia). apply (f_equal (λ x, Z.testbit x (63 - i))) in H. revert H.
      rewrite Z.land_spec, Z.lxor_spec, !Z.testbit_ones_nonneg, Z.testbit_0_l by lia.
      rewrite (proj2 (Z.ltb_ge (63 - i) e0)), (proj2 (Z.ltb_lt (63 - i) e1)) by lia. by rewrite andb_true_r.
  - rewrite Z.land_spec, Z.lxor_spec, !Z.testbit_ones_nonneg by lia.
    destruct (Z.ltb_spec i e0), (Z.ltb_spec i e1); cbn [xorb]; rewrite ?andb_false_r; try done; [lia|].
    replace i with (63 - (63 - i)) by lia. rewrite <- rev_bits by (done || lia).
    by rewrite <- (Z.mod_pow2_bits_low (rev v) (64 - e0) (63 - i)), H, Z.testbit_0_l by lia.
Qed.
End two_sizes.

(** ** One call *)

Section scan.
Context {K V : Type} `{!EqDecision K}.
Variable hash : K → Z.
Variable T : dictType.
#[local] Set Default Proof Using "Type".

Definition position (k : K) : Z := rev (wrap_u 64 (hash k)).

(** What a call returned: entries of [l0], among them those whose positions
    are in an interval. *)
Definition covers (l l0 : list (entry K V)) (r n : Z) : Prop :=
  (∀ e, e ∈ l → e ∈ l0) ∧ ∀ e, e ∈ l0 → r ≤ position e.1 < n → e ∈ l.

Lemma live_mask (t : hashtable K V) : live hash T t → mask t = Z.ones (ht_size_exp t).
Proof. intros H. apply mask_ones, H. Qed.

Lemma bucket_covers (t : hashtable K V) v : live hash T t → word v →
  ∃ c, bucket t (Z.land v (mask t)) = Some c ∧
    covers (chain_list c) (entries t) (rev v) (bucket_end (ht_size_exp t) (rev v)).
Proof.
  intros Ht Hv. pose proof (live_exp _ _ _ Ht) as He. destruct (bucket_index hash T t v Ht) as [c Hc]. exists c.
  split; [done|]. split.
  - intros e Hin. apply elem_of_entries. apply bucket_lookup in Hc as [_ Hc]. eauto.
  - intros e Hin Hp. apply within_bucket in Hp; [|lia]. unfold position in Hp.
    apply (proj2 (same_bucket (ht_size_exp t) (wrap_u 64 (hash e.1)) v ltac:(lia) (wrap_word _) Hv)) in Hp.
    rewrite wrap_multiple in Hp by lia. apply (entry_in_bucket hash T t e c Ht); [|done].
    rewrite live_mask, Z.land_ones in * by (done || lia). by rewrite Hp.
Qed.

Lemma covers_extend l l' l0 r m n : covers l l0 r m → covers l' l0 m n → covers (l ++ l') l0 r n.
Proof.
  intros [H1 H2] [H3 H4]. split; intros e He; [apply elem_of_app in He as []; auto|].
  intros Hp. apply elem_of_app. destruct (Z.lt_ge_cases (position e.1) m); [left; apply H2|right; apply H4]; (done || lia).
Qed.

Lemma covers_union l l' l0 l0' r n : covers l l0 r n → covers l' l0' r n → covers (l ++ l') (l0 ++ l0') r n.
Proof. intros [H1 H2] [H3 H4]. split; intros e; rewrite !elem_of_app; intros [|]; auto. Qed.

Lemma covers_perm l l0 l0' r n : l0 ≡ₚ l0' → covers l l0 r n → covers l l0' r n.
Proof. intros Hp [H1 H2]. split; intros e; rewrite <- Hp; auto. Qed.

(** The next cursor of a bucket is at its end unless that is the end of all. *)
Lemma next_cursor_mask (t : hashtable K V) v : live hash T t → word v →
  word (next_cursor v (mask t)) ∧ rev (next_cursor v (mask t)) = wrap_u 64 (bucket_end (ht_size_exp t) (rev v)).
Proof. intros Ht Hv. rewrite live_mask by done. apply next_cursor_spec; [apply Ht|done]. Qed.

(** The buckets of the larger table that a bucket of the smaller one has. *)
Lemma scan_larger_spec e0 (t1 : hashtable K V) fuel : live hash T t1 → 0 ≤ e0 < ht_size_exp t1 → ∀ v, word v →
  let r := rev v in let w := 2 ^ (64 - ht_size_exp t1) in
  bucket_end e0 r - r / w * w ≤ Z.of_nat fuel * w →
  ∃ v' l, scan_larger fuel t1 (Z.ones e0) v = Some (v', l) ∧ word v' ∧ rev v' = wrap_u 64 (bucket_end e0 r) ∧
    covers l (entries t1) r (bucket_end e0 r).
Proof.
  intros Ht He. pose proof (live_exp _ _ _ Ht) as He1. induction fuel as [|fuel IH]; intros v Hv r w Hf.
  { exfalso. pose proof (bucket_end_range e0 r ltac:(lia) (rev_word _ Hv)).
    pose proof (Z.div_mod r w ltac:(lia)). pose proof (Z.mod_pos_bound r w ltac:(lia)). nia. }
  cbn [scan_larger]. destruct (bucket_covers t1 v Ht Hv) as (c & -> & Hc). cbn [mbind option_bind].
  destruct (next_cursor_mask t1 v Ht Hv) as [Hw Hn]. set (v1 := next_cursor v (mask t1)) in *. clearbody v1.
  pose proof (bucket_end_range _ r He1 (rev_word _ Hv)) as Hr. rewrite (live_mask t1) by done.
  assert (Z.land v1 (Z.lxor (Z.ones e0) (Z.ones (ht_size_exp t1))) = 0 ↔ bucket_end (ht_size_exp t1) r = bucket_end e0 r) as Htest.
  { rewrite <- end_multiple, (expansion_test e0 (ht_size_exp t1)), Hn, wrap_multiple by (done || lia || (rewrite Hn, wrap_multiple by lia; apply Z.mod_mul; lia)).
    done. }
  destruct (Z.eqb_spec (Z.land v1 (Z.lxor (Z.ones e0) (Z.ones (ht_size_exp t1)))) 0) as [E|E].
  - apply Htest in E. exists v1, (chain_list c). by rewrite <- E.
  - assert (bucket_end (ht_size_exp t1) r < bucket_end e0 r) as Hlt.
    { pose proof (end_le e0 (ht_size_exp t1) ltac:(lia) r). assert (bucket_end (ht_size_exp t1) r ≠ bucket_end e0 r) by tauto. lia. }
    pose proof (rev_word v Hv) as Hrw. fold r in Hrw, Hn.
    pose proof (bucket_end_range e0 r ltac:(lia) Hrw) as Hr0. rewrite wrap_id in Hn by (unfold word in *; lia).
    assert (bucket_end e0 (rev v1) = bucket_end e0 r) as Hsame.
    { rewrite Hn. unfold bucket_end at 1. rewrite (within_bucket e0 r) by lia. done. }
    destruct (IH v1 Hw) as (v' & l & -> & Hw' & Hr' & Hl).
    { fold w. rewrite Hsame, Hn. unfold bucket_end at 2. fold w. rewrite Z.div_mul by lia. lia. }
    exists v', (chain_list c ++ l). split; [done|]. rewrite Hsame in Hr', Hl. rewrite Hn in Hl.
    split; [done|]. split; [done|]. by eapply covers_extend.
Qed.

(** The exponent of the larger table. *)
Definition larger_exp (d : dict K V) : Z := Z.max 0 (Z.max (ht_size_exp (ht0 d)) (ht_size_exp (ht1 d))).

(** A call returns a cursor and all the entries from its own cursor to it. *)
Definition scanned (d : dict K V) (v v' : Z) (l : list (entry K V)) : Prop :=
  word v' ∧ ∃ e, 0 ≤ e ≤ larger_exp d ∧ e ≤ 63 ∧ rev v' = wrap_u 64 (bucket_end e (rev v)) ∧
    covers l (all d) (rev v) (bucket_end e (rev v)).

Lemma scan_two (t0 t1 : hashtable K V) v : live hash T t0 → live hash T t1 → ht_size_exp t0 < ht_size_exp t1 → word v →
  let n := bucket_end (ht_size_exp t0) (rev v) in
  ∃ c v' l, bucket t0 (Z.land v (mask t0)) = Some c ∧ scan_larger (length (ht_table t1)) t1 (mask t0) v = Some (v', l) ∧
    word v' ∧ rev v' = wrap_u 64 n ∧ covers (chain_list c ++ l) (entries t0 ++ entries t1) (rev v) n.
Proof.
  intros H0 H1 Hlt Hv n. pose proof (live_exp _ _ _ H0) as He0. pose proof (live_exp _ _ _ H1) as He1.
  destruct (bucket_covers t0 v H0 Hv) as (c & Hc & Hcov). exists c. rewrite (live_mask t0) by done.
  destruct (scan_larger_spec (ht_size_exp t0) t1 (length (ht_table t1)) H1 ltac:(lia) v Hv) as (v' & l & E & Hw & Hr & Hl).
  { rewrite (live_length _ _ _ H1). unfold bucket_end.
    pose proof (widths (ht_size_exp t0) (ht_size_exp t1) ltac:(lia)) as Hwd. set (w := 2 ^ (64 - ht_size_exp t1)) in *.
    set (w0 := 2 ^ (64 - ht_size_exp t0)) in *. set (r := rev v).
    assert (r / w0 * w0 ≤ r / w * w) as Hle.
    { rewrite Hwd, Z.mul_assoc. apply Z.mul_le_mono_nonneg_r; [lia|]. apply Z.div_le_lower_bound; [lia|].
      pose proof (Z.mul_div_le r (2 ^ (ht_size_exp t1 - ht_size_exp t0) * w)). lia. }
    assert (w0 ≤ 2 ^ ht_size_exp t1 * w); [|lia]. rewrite Hwd. apply Z.mul_le_mono_nonneg_r; [lia|].
    apply Z.pow_le_mono_r; lia. }
  exists v', l. rewrite <- (live_mask t0) at 1 by done. repeat split_and; try done. by apply covers_union.
Qed.

Lemma dictScan_spec d v : dict_ok hash T d → word v → ∃ v' l, dictScan d v = Some (v', l) ∧ scanned d v v' l.
Proof.
  intros Hok Hv. unfold dictScan. destruct (Z.eqb_spec (dictSize d) 0) as [Hs|Hs].
  { exists 0, []. split; [done|]. split; [done|]. exists 0. unfold larger_exp.
    rewrite (size_zero hash T d) by done. assert (bucket_end 0 (rev v) = 2 ^ 64) as ->.
    { unfold bucket_end. by rewrite Z.div_small by (by apply rev_word). }
    split; [lia|]. split; [lia|]. split; [by vm_compute|]. split; intros e He; by apply elem_of_nil in He. }
  pose proof (size_live hash T d Hok Hs) as H0. destruct (dictIsRehashing d) eqn:Hre; cbn [negb].
  - destruct (ok_rehashing _ _ _ Hok Hre) as (_ & _ & H1 & Hne & _). pose proof (live_exp _ _ _ H0). pose proof (live_exp _ _ _ H1).
    destruct (live_size _ _ _ H0) as [-> _], (live_size _ _ _ H1) as [-> _].
    destruct (Z.ltb_spec (2 ^ ht_size_exp (ht1 d)) (2 ^ ht_size_exp (ht0 d))) as [Hlt|Hge].
    + apply Z.pow_lt_mono_r_iff in Hlt; [|lia..].
      destruct (scan_two (ht1 d) (ht0 d) v H1 H0 Hlt Hv) as (c & v' & l & -> & Hl & Hw & Hr & Hcov).
      cbn [mbind option_bind]. rewrite Hl. cbn [mbind option_bind]. eexists _, _. split; [done|]. split; [done|].
      exists (ht_size_exp (ht1 d)). unfold larger_exp. split; [lia|]. split; [lia|]. split; [done|].
      eapply covers_perm; [|done]. apply Permutation_app_comm.
    + apply Z.pow_le_mono_r_iff in Hge; [|lia..].
      destruct (scan_two (ht0 d) (ht1 d) v H0 H1 ltac:(lia) Hv) as (c & v' & l & -> & Hl & Hw & Hr & Hcov).
      cbn [mbind option_bind]. rewrite Hl. cbn [mbind option_bind]. eexists _, _. split; [done|]. split; [done|].
      exists (ht_size_exp (ht0 d)). unfold larger_exp. split; [lia|]. split; [lia|]. done.
  - destruct (bucket_covers (ht0 d) v H0 Hv) as (c & -> & Hcov). cbn [mbind option_bind].
    destruct (next_cursor_mask (ht0 d) v H0 Hv) as [Hw Hr]. pose proof (live_exp _ _ _ H0).
    eexists _, _. split; [done|]. split; [done|]. exists (ht_size_exp (ht0 d)). unfold larger_exp.
    split; [lia|]. split; [lia|]. split; [done|]. unfold all. rewrite (ok_second _ _ _ Hok Hre). by rewrite app_nil_r.
Qed.
End scan.

(** ** Scans *)

Section session.
Context {K V : Type} `{!EqDecision K, !Countable K}.
Variable hash : K → Z.
Variable odd_key : K → bool.
Variable T : dictType.
Hypothesis odd_keys : keys_are_odd T = true → ∀ k, odd_key k = true.
#[local] Set Default Proof Using "Type".

Abbreviation calls := (list (dictResizeEnable * dict_op (K := K) (V := V))).

(** A scan from a cursor, with other calls after each call of [dictScan], until
    the cursor is 0 again or there are no more rounds: the tables that were
    scanned, whether the scan is over, and the entries it returned. *)
Fixpoint scan_session (rounds : list calls) (d : dict K V) (v : Z) : option (list (dict K V) * bool * list (entry K V)) :=
  match rounds with
  | [] => Some ([], false, [])
  | ops :: rounds =>
      '(v, l) ← dictScan d v;
      if v =? 0 then Some ([d], true, l)
      else
        '(d', _) ← run_ops hash odd_key T ops d;
        '(ds, over, l') ← scan_session rounds d' v;
        Some (d :: ds, over, l ++ l')
  end.

(** The call leaves [k] in the table. *)
Definition keeps (k : K) (o : dictResizeEnable * dict_op (K := K) (V := V)) : Prop :=
  match o.2 with ODelete k' | OUnlink k' => k' ≠ k | OEmpty => False | _ => True end.

Lemma meanings_keep k ops (m : gmap K (option V)) : Forall (keeps k) ops → is_Some (m !! k) →
  is_Some ((meanings T ops m).1 !! k).
Proof.
  intros H. revert m. induction H as [|[can o] ops Ho _ IH]; intros m Hm; [done|]. cbn [meanings].
  assert (is_Some ((meaning T m o).1 !! k)) as H1.
  { destruct o; cbn in *; try done; rewrite ?lookup_delete_ne by done; try done.
    - destruct (m !! k0) eqn:E; cbn; [done|]. destruct (decide (k0 = k)) as [->|]; [|by rewrite lookup_insert_ne].
      by rewrite lookup_insert_eq.
    - destruct (decide (k0 = k)) as [->|]; [by rewrite lookup_insert_eq|by rewrite lookup_insert_ne]. }
  destruct (meaning T m o) as [m1 a]. specialize (IH m1 H1). by destruct (meanings T ops m1).
Qed.

Lemma map_entry (d : dict K V) m k : dict_rep hash T d m → is_Some (m !! k) → ∃ e, e ∈ all d ∧ e.1 = k.
Proof.
  intros (Hok & <- & _) [v Hv]. apply elem_of_list_to_map_2 in Hv. by exists (k, v).
Qed.

Lemma run_ops_rep ops (d : dict K V) m : dict_rep hash T d m → Forall (λ o, op_ok T o.2) ops →
  ∃ d' l, run_ops hash odd_key T ops d = Some (d', l) ∧ dict_rep hash T d' (meanings T ops m).1.
Proof using odd_keys. intros H1 H2. destruct (run_ops_spec hash odd_key T odd_keys ops d m H1 H2) as (d' & E & H). eauto. Qed.

(** What a scan from [v] has returned. *)
Record session (rounds : list calls) (m : gmap K (option V)) (v : Z) (ds : list (dict K V)) (over : bool)
    (l : list (entry K V)) : Prop := {
  ss_found : ∀ k, over = true → is_Some (m !! k) → rev v ≤ position hash k → Forall (Forall (keeps k)) rounds → k ∈ l.*1;
  ss_sound : ∀ e, e ∈ l → ∃ d, d ∈ ds ∧ e ∈ all d;
  ss_over : ∀ E, 0 ≤ E ≤ 63 → Forall (λ d, larger_exp d ≤ E) ds →
    2 ^ E ≤ rev v / 2 ^ (64 - E) + Z.of_nat (length rounds) → over = true;
}.

Lemma position_word k : word (position hash k).
Proof. apply rev_word, wrap_word. Qed.

Lemma end_mono e E r : 0 ≤ e ≤ E → E ≤ 63 → bucket_end E r ≤ bucket_end e r.
Proof. intros H1 H2. destruct (decide (e = E)) as [->|]; [done|]. apply end_le. lia. Qed.

Lemma session_nil m v : word v → session [] m v [] false [].
Proof.
  intros Hv. split; [done|by intros e He; apply elem_of_nil in He|]. intros E HE _ H. cbn [length] in H. exfalso.
  assert (rev v / 2 ^ (64 - E) < 2 ^ E); [|lia]. apply Z.div_lt_upper_bound; [lia|].
  rewrite <- Z.pow_add_r by lia. replace (64 - E + E) with 64 by lia. by apply rev_word.
Qed.

(** The scan is over: the call covers all positions from its cursor on. *)
Lemma session_last ops rounds (d : dict K V) m v l : dict_rep hash T d m → word v → scanned hash d v 0 l →
  session (ops :: rounds) m v [d] true l.
Proof.
  intros Hrep Hv (_ & e & He & He' & Hr & Hsub & Hcov). split; [| |done].
  - intros k _ Hk Hp _. destruct (map_entry d m k Hrep Hk) as (x & Hx & <-).
    apply list_elem_of_fmap_2. apply Hcov; [done|]. split; [done|].
    pose proof (bucket_end_range e (rev v) ltac:(lia) (rev_word _ Hv)) as Hb.
    pose proof (position_word x.1) as [_ Hpw]. pose proof (proj1 (rev_word _ Hv)).
    rewrite rev_0 in Hr. destruct (decide (bucket_end e (rev v) = 2 ^ 64)) as [->|]; [done|].
    rewrite wrap_id in Hr by (unfold word; lia). lia.
  - intros x Hx. exists d. split; [apply list_elem_of_singleton|]; auto.
Qed.

Lemma session_cons ops rounds (d : dict K V) m v v' l ds over l' : dict_rep hash T d m → word v →
  scanned hash d v v' l → v' ≠ 0 → session rounds (meanings T ops m).1 v' ds over l' →
  session (ops :: rounds) m v (d :: ds) over (l ++ l').
Proof.
  intros Hrep Hv (Hv' & e & He & He' & Hr & Hsub & Hcov) Hne [H1 H2 H3].
  pose proof (bucket_end_range e (rev v) ltac:(lia) (rev_word _ Hv)) as Hb.
  pose proof (proj1 (rev_word _ Hv)) as Hpos.
  assert (rev v' = bucket_end e (rev v)) as Hn.
  { destruct (decide (bucket_end e (rev v) = 2 ^ 64)) as [Heq|]; [|rewrite Hr; apply wrap_id; unfold word; lia].
    rewrite Heq in Hr. change (wrap_u 64 (2 ^ 64)) with 0 in Hr. by apply (proj1 (rev_zero v' Hv')) in Hr. }
  rewrite <- Hn in Hcov. split.
  - intros k Ho Hk Hp Hkeep. apply Forall_cons in Hkeep as [Hk1 Hk2]. rewrite fmap_app, elem_of_app.
    destruct (Z.lt_ge_cases (position hash k) (rev v')).
    + left. destruct (map_entry d m k Hrep Hk) as (x & Hx & <-). apply list_elem_of_fmap_2. by apply Hcov.
    + right. apply H1; try done. by apply meanings_keep.
  - intros x [Hx|Hx]%elem_of_app; [exists d; split; [left|auto]|].
    destruct (H2 x Hx) as (d' & Hd & Hall). exists d'. split; [by right|done].
  - intros E HE [Hd Hds]%Forall_cons Hlen. apply (H3 E HE Hds). rewrite Hn. cbn [length] in Hlen.
    pose proof (end_mono e E (rev v) ltac:(lia) ltac:(lia)) as Hle.
    enough (rev v / 2 ^ (64 - E) + 1 ≤ bucket_end e (rev v) / 2 ^ (64 - E)) by lia.
    apply Z.div_le_lower_bound; [lia|]. unfold bucket_end in Hle at 1. lia.
Qed.

Lemma scan_session_spec rounds : Forall (Forall (λ o, op_ok T o.2)) rounds → ∀ d m v, dict_rep hash T d m → word v →
  ∃ ds over l, scan_session rounds d v = Some (ds, over, l) ∧ session rounds m v ds over l.
Proof using odd_keys.
  induction 1 as [|ops rounds Hops _ IH]; intros d m v Hrep Hv; cbn [scan_session].
  { eexists _, _, _. split; [done|]. by apply session_nil. }
  destruct (dictScan_spec hash T d v (proj1 Hrep) Hv) as (v' & l & -> & Hs). cbn [mbind option_bind].
  destruct (Z.eqb_spec v' 0) as [->|Hne]; [eexists _, _, _; split; [done|by apply session_last]|].
  destruct (run_ops_rep ops d m Hrep Hops) as (d' & a & -> & Hrep'). cbn [mbind option_bind].
  destruct (IH d' _ v' Hrep' (proj1 Hs)) as (ds & over & l' & -> & Hss). cbn [mbind option_bind].
  eexists _, _, _. split; [done|]. by eapply session_cons.
Qed.

(** C19: a scan returns every key that is in the table from its start to its
    end, whatever is added, removed, resized and rehashed between its calls: it
    starts with cursor 0 and is over when the cursor is 0 again.  What it
    returns was in the table at the time, and it is over after as many calls as
    the largest table has buckets. *)
Theorem scan_returns_all rounds d m (Hrep : dict_rep hash T d m)
    (Hops : Forall (Forall (λ o, op_ok T o.2)) rounds) :
  ∃ ds over l, scan_session rounds d 0 = Some (ds, over, l) ∧
    (over = true → ∀ k, is_Some (m !! k) → Forall (Forall (keeps k)) rounds → k ∈ l.*1) ∧
    (∀ e, e ∈ l → ∃ d, d ∈ ds ∧ e ∈ all d) ∧
    (∀ E, 0 ≤ E ≤ 63 → Forall (λ d, larger_exp d ≤ E) ds → 2 ^ E ≤ Z.of_nat (length rounds) → over = true).
Proof using odd_keys.
  destruct (scan_session_spec rounds Hops d m 0 Hrep ltac:(done)) as (ds & over & l & E & [H1 H2 H3]).
  exists ds, over, l. split; [done|]. rewrite rev_0 in *. split; [|split; [done|]].
  - intros Ho k Hk. apply H1; [done|done|apply position_word].
  - intros E' HE Hds Hlen. by apply (H3 E' HE Hds); rewrite Z.div_0_l by lia.
Qed.
End session.

(** The scan of a table that has begun to move from 4 buckets to 8, and gets 16
    between the calls. *)
Definition sample_rounds : list (list (dictResizeEnable * dict_op (K := Z) (V := unit))) :=
  [((λ k, (DICT_RESIZE_ENABLE, OAdd k ())) <$> seqZ 5 8); [(DICT_RESIZE_ENABLE, OFind 9)];
   ((λ k, (DICT_RESIZE_ENABLE, ODelete k)) <$> seqZ 5 8)] ++ replicate 13 [].

Lemma scan_returns_all_witness :
  ∃ ds l, scan_session (λ k, k * 11) (λ _, true) sample_type sample_rounds sample_dict 0 = Some (ds, true, l) ∧ 3 ∈ l.*1.
Proof.
  destruct (scan_returns_all (λ k, k * 11) (λ _, true) sample_type (λ _ _, eq_refl) sample_rounds sample_dict sample_map
    sample_stands) as (ds & over & l & E & H1 & _).
  - repeat constructor.
  - assert (over = true) as ->.
    { apply (f_equal (fmap (λ x, x.1.2))) in E. vm_compute in E. congruence. }
    exists ds, l. split; [exact E|]. assert (sample_map !! 3 = Some None) as Hk by (by vm_compute).
    apply (H1 eq_refl 3); [by rewrite Hk|]. repeat constructor; cbn; lia.
Defined.

(** ** The iterator *)

Section iterator.
Context {K V : Type} `{!EqDecision K}.
Variable hash : K → Z.
Variable T : dictType.
Variable d : dict K V.
Hypothesis Hok : dict_ok hash T d.
#[local] Set Default Proof Using "Type".

(** The entries that an iterator has not returned yet. *)
Definition to_come (it : dictIterator (K := K) (V := V)) : list (entry K V) :=
  (if is_null (it_entry it) then [] else chain_list (it_nextEntry it)) ++
  (drop (Z.to_nat (it_index it + 1)) (ht_table (table_of d (it_table it))) ≫= chain_list) ++
  (if it_table it then [] else entries (ht1 d)).

(** The buckets that it has not visited. *)
Definition unvisited (it : dictIterator (K := K) (V := V)) : Z :=
  Z.max 0 (Z.of_nat (length (ht_table (table_of d (it_table it)))) - (it_index it + 1)) +
  (if it_table it then 0 else Z.of_nat (length (ht_table (ht1 d)))).

(** How the call of [dictNext] ends. *)
Definition next_result (it : dictIterator) (r : option (dictIterator * option (entry K V))) : Prop :=
  match to_come it with
  | [] => ∃ it', r = Some (it', None)
  | e :: l => ∃ it', r = Some (it', Some e) ∧ to_come it' = l ∧ -1 ≤ it_index it' ∧ is_null (it_entry it') = false
  end.

Lemma table_size t : size (table_of d t) = Z.of_nat (length (ht_table (table_of d t))).
Proof using Hok.
  destruct t; cbn [table_of].
  - destruct (dictIsRehashing d) eqn:E; [|by rewrite (ok_second _ _ _ Hok E)].
    symmetry. by apply (live_size hash T), (ok_rehashing _ _ _ Hok E).
  - destruct (ok_first _ _ _ Hok) as [->|H]; [done|]. symmetry. by apply (live_size hash T).
Qed.

Lemma first_list (c : chain K V) :
  match first c with Some (e, next) => chain_list c = e :: chain_list next ∧ is_null c = false | None => c = CNull end.
Proof. by destruct c. Qed.

Lemma empty_buckets (l : list (chain K V)) : Forall (λ c, c = CNull) l → l ≫= chain_list = [].
Proof. by induction 1 as [|c l -> _ IH]. Qed.

(** The buckets before [rehashidx] are empty. *)
Lemma skip_rehashed n : dictIsRehashing d = true → to_come (mkIter (rehashidx d - 1) false CNull n) = to_come (mkIter (-1) false CNull n).
Proof using Hok.
  intros E. destruct (ok_rehashing _ _ _ Hok E) as (Hr & _ & _ & _ & Hnull).
  unfold to_come. cbn [it_entry it_index it_table is_null table_of app]. f_equal.
  replace (rehashidx d - 1 + 1) with (rehashidx d) by lia. change (Z.to_nat (-1 + 1)) with 0%nat. rewrite drop_0.
  rewrite <- (take_drop (Z.to_nat (rehashidx d)) (ht_table (ht0 d))) at 2. rewrite bind_app.
  rewrite (empty_buckets (take _ _)); [done|]. rewrite Forall_lookup. intros j c Hj.
  apply lookup_take_Some in Hj as [Hj Hlt]. apply (Hnull (Z.of_nat j) c); [lia|].
  apply bucket_lookup. rewrite Nat2Z.id. split; [lia|done].
Qed.

Lemma visit_bucket j t c e n : 0 ≤ j → bucket (table_of d t) j = Some c →
  to_come (mkIter (j - 1) t CNull n) =
    chain_list c ++ to_come (mkIter j t CNull e).
Proof.
  clear hash T Hok. intros Hj [_ Hc]%bucket_lookup. unfold to_come. cbn [it_entry it_index it_table is_null app].
  replace (j - 1 + 1) with j by lia. rewrite (drop_S _ c) by done. rewrite bind_cons, <- app_assoc.
  replace (Z.to_nat (j + 1)) with (S (Z.to_nat j)) by lia. done.
Qed.

Definition nexts (fuel : nat) : Prop := ∀ it, it_entry it = CNull → -1 ≤ it_index it → unvisited it + 1 ≤ Z.of_nat fuel →
  next_result it (next_loop fuel d it).

Lemma to_come_entry j t c next n : is_null c = false →
  to_come (mkIter j t c next) = chain_list next ++ to_come (mkIter j t CNull n).
Proof. clear hash T Hok. intros H. unfold to_come. cbn [it_entry it_nextEntry it_index it_table is_null app]. by rewrite H. Qed.

Lemma visit_result fuel it j t c n : nexts fuel → 0 ≤ j →
  unvisited (mkIter j t CNull n) + 1 ≤ Z.of_nat fuel → to_come it = chain_list c ++ to_come (mkIter j t CNull n) →
  next_result it
    (match first c with
     | Some (e, next) => Some (mkIter j t c next, Some e)
     | None => next_loop fuel d (mkIter j t c n)
     end).
Proof.
  clear hash T Hok. intros IH Hj Hf Hcome. pose proof (first_list c) as Hc. destruct (first c) as [[e next]|].
  - destruct Hc as [Hl Hn]. unfold next_result. rewrite Hcome, Hl. cbn [app]. eexists. split; [done|].
    split; [by apply to_come_entry|]. split; [cbn; lia|done].
  - subst c. specialize (IH (mkIter j t CNull n) eq_refl ltac:(cbn; lia) Hf). unfold next_result in *. by rewrite Hcome.
Qed.

Lemma visit_next fuel it j t c n : nexts fuel → 0 ≤ j → bucket (table_of d t) j = Some c → j < size (table_of d t) →
  to_come it = to_come (mkIter (j - 1) t CNull n) → unvisited (mkIter (j - 1) t CNull n) ≤ Z.of_nat fuel →
  next_result it
    (match first c with
     | Some (e, next) => Some (mkIter j t c next, Some e)
     | None => next_loop fuel d (mkIter j t c n)
     end).
Proof using Hok.
  intros IH Hj Hc Hlt Hcome Hf. apply visit_result; [done|done| |].
  - rewrite table_size in Hlt. unfold unvisited in *. cbn [it_index it_table] in *. lia.
  - rewrite Hcome. by apply visit_bucket.
Qed.

Lemma nexts_all fuel : nexts fuel.
Proof using Hok.
  induction fuel as [|fuel IH]; intros [idx t en n] Hen Hi Hf; cbn in Hen, Hi; subst en.
  { exfalso. unfold unvisited in Hf. cbn [it_index it_table] in Hf. destruct t; lia. }
  cbn [next_loop it_entry it_index it_table it_nextEntry is_null].
  set (i := if (idx =? -1) && negb t && dictIsRehashing d then rehashidx d - 1 else idx).
  assert (to_come (mkIter idx t CNull n) = to_come (mkIter i t CNull n) ∧ idx ≤ i) as [Hcome Hle].
  { subst i. destruct (Z.eqb_spec idx (-1)) as [->|]; [|done]. destruct t; [done|]. destruct (dictIsRehashing d) eqn:E; [|done].
    cbn [andb negb]. split; [by rewrite skip_rehashed|]. pose proof (ok_rehashing _ _ _ Hok E). lia. }
  clearbody i. pose proof (table_size t) as Hs. pose proof (table_size true) as Hs1. cbn [table_of] in Hs1.
  unfold unvisited in Hf. cbn [it_index it_table] in Hf. destruct (Z.leb_spec (size (table_of d t)) (i + 1)) as [Hge|Hlt].
  - assert (to_come (mkIter i t CNull n) = if t then [] else entries (ht1 d)) as Hrest.
    { unfold to_come. cbn [it_entry it_index it_table is_null app]. by rewrite drop_ge by lia. }
    destruct (dictIsRehashing d && negb t) eqn:E.
    + apply andb_true_iff in E as [E ->%negb_true_iff]. destruct (ok_rehashing _ _ _ Hok E) as (_ & _ & H1 & _).
      pose proof (live_nonempty _ _ _ H1). destruct (ht_table (ht1 d)) as [|c cs] eqn:Et; [done|].
      assert (bucket (ht1 d) 0 = Some c) as Hb by (unfold bucket; by rewrite Et). rewrite Hb. cbn [mbind option_bind it_entry it_index it_table it_nextEntry length] in *.
      apply (visit_next fuel _ 0 true c n IH); cbn [table_of]; [done|done|lia| |].
      * rewrite Hcome, Hrest. unfold to_come. cbn [it_entry it_index it_table is_null app]. change (Z.to_nat _) with 0%nat.
        by rewrite drop_0, app_nil_r.
      * unfold unvisited. cbn [it_index it_table table_of]. rewrite Et. cbn [length]. lia.
    + cbn [mbind option_bind]. unfold next_result. rewrite Hcome, Hrest. destruct t; [eauto|]. rewrite andb_true_r in E.
      rewrite (ok_second _ _ _ Hok E). by eexists.
  - destruct (ht_table (table_of d t) !! Z.to_nat (i + 1)) as [c|] eqn:Ec; [|apply lookup_ge_None in Ec; lia].
    assert (bucket (table_of d t) (i + 1) = Some c) as Hb by (apply bucket_lookup; split; [lia|done]). rewrite Hb.
    cbn [mbind option_bind it_entry it_index it_table it_nextEntry].
    apply (visit_next fuel _ (i + 1) t c n IH); [lia|done|lia| |].
    + rewrite Hcome. f_equal. f_equal. lia.
    + unfold unvisited. cbn [it_index it_table]. lia.
Qed.

Lemma dictNext_result it : -1 ≤ it_index it → next_result it (dictNext d it).
Proof using Hok.
  intros Hi. unfold dictNext. assert (unvisited it ≤ Z.of_nat (length (ht_table (ht0 d)) + length (ht_table (ht1 d)))) as Hu.
  { unfold unvisited. destruct (it_table it); cbn [table_of]; lia. }
  destruct it as [idx t en n]. cbn [it_index] in Hi. destruct (is_null en) eqn:Hen.
  { apply is_null_spec in Hen as ->. apply nexts_all; [done|done|lia]. }
  rewrite Nat.add_succ_r. cbn [next_loop it_entry it_index it_table it_nextEntry]. rewrite Hen.
  cbn [mbind option_bind it_entry it_index it_table it_nextEntry].
  pose proof (first_list n) as Hn. pose proof (to_come_entry idx t en n n Hen) as Hcome. destruct (first n) as [[e next]|].
  - destruct Hn as [Hl Hnn]. unfold next_result. rewrite Hcome, Hl. cbn [app]. eexists. split; [done|].
    split; [by apply to_come_entry|]. split; [done|done].
  - subst n. pose proof (nexts_all (length (ht_table (ht0 d)) + length (ht_table (ht1 d)) + 1) (mkIter idx t CNull CNull) eq_refl Hi) as H.
    unfold next_result in *. rewrite Hcome. apply H. unfold unvisited in *. cbn [it_index it_table] in *. lia.
Qed.

Lemma iterate_spec fuel : ∀ it, -1 ≤ it_index it → (length (to_come it) < fuel)%nat → iterate fuel d it = Some (to_come it).
Proof using Hok.
  induction fuel as [|fuel IH]; intros it Hi Hf; [lia|]. cbn [iterate]. pose proof (dictNext_result it Hi) as H.
  unfold next_result in H. destruct (to_come it) as [|e l]; [by destruct H as [it' ->]|].
  destruct H as (it' & -> & <- & Hi' & _). cbn [mbind option_bind]. rewrite IH; [done|done|cbn in Hf; lia].
Qed.

Lemma iterate_all fuel : (length (all d) < fuel)%nat → iterate fuel d dictInitIterator = Some (all d).
Proof using Hok.
  intros H. rewrite iterate_spec; [|done|].
  - unfold to_come, dictInitIterator. cbn [it_entry it_index it_table is_null app]. by rewrite drop_0.
  - unfold to_come, dictInitIterator. cbn [it_entry it_index it_table is_null app]. by rewrite drop_0.
Qed.
End iterator.

Section iterator_map.
Context {K V : Type} `{!EqDecision K, !Countable K}.
Variable hash : K → Z.
Variable T : dictType.

(** C20: an iterator returns every key of the table once, with its value, and
    then NULL, also while rehashing has moved some of the buckets to the second
    table. *)
Theorem iterator_lists_map (d : dict K V) m fuel
    (Hrep : dict_rep hash T d m) (Hfuel : (base.size m < fuel)%nat) :
  ∃ l, iterate fuel d dictInitIterator = Some l ∧ l ≡ₚ map_to_list m.
Proof.
  destruct Hrep as (Hok & <- & _). assert (all d ≡ₚ map_to_list (list_to_map (M := gmap K (option V)) (all d))) as Hp.
  { symmetry. apply map_to_list_to_map, Hok. }
  exists (all d). split; [|done]. apply (iterate_all hash T d Hok).
  eapply Nat.le_lt_trans; [|exact Hfuel]. apply Nat.eq_le_incl. etrans; [by apply Permutation_length|].
  exact (length_map_to_list (M := gmap K) (list_to_map (all d))).
Qed.
End iterator_map.

Lemma iterator_lists_map_witness :
  ∃ l, iterate 6 sample_dict dictInitIterator = Some l ∧ l ≡ₚ map_to_list sample_map.
Proof. apply (iterator_lists_map (λ k, k * 11) sample_type sample_dict sample_map 6 sample_stands). vm_compute. lia. Defined.
