(* ===== verification/Replication.v ===== *)
(** * The replication stream of a master

    src/redis/src/replication.c on the side of the master: the commands that
    change the data are appended to a list of blocks that all replicas and the
    backlog share.  A block counts the replicas, and the backlog, that refer to
    it as the first block they still need; the backlog gives up its oldest blocks when
    it is larger than configured and nobody else needs them.  A replica that
    comes back continues at the offset it asks for if the backlog still has it.

    A pointer to a node of the list is the number of its block.  The radix tree
    that indexes the blocks is a list in the order of the offsets.  The usable
    size of an allocation, whether a replica exceeds its limits, and how much a
    socket takes are parameters.  [None] is a failed assertion. *)

From S2P Require Import Prelude CLib Buffers Hiredis Util.

Definition REPL_BACKLOG_TRIM_BLOCKS_PER_CALL : nat := 64.
Definition REPL_BACKLOG_INDEX_PER_BLOCKS : Z := 64.
Definition REPLY_CHUNK_BYTES : nat := Z.to_nat (16 * 1024).

(** [used] is the length of [buf]. *)
Record replBufBlock : Type := mkReplBlock {
  refcount : Z;
  block_id : Z;
  repl_offset : Z;
  block_size : nat;
  block_buf : string;
}.

Definition block_used (b : replBufBlock) : nat := String.length (block_buf b).

Definition add_ref (n : Z) (b : replBufBlock) : replBufBlock :=
  mkReplBlock (refcount b + n) (block_id b) (repl_offset b) (block_size b) (block_buf b).

Definition fill_block (s : string) (b : replBufBlock) : replBufBlock :=
  mkReplBlock (refcount b) (block_id b) (repl_offset b) (block_size b) (block_buf b +:+ s).

Record replBacklog : Type := mkBacklog {
  backlog_ref : option Z;
  unindexed_count : Z;
  blocks_index : list (Z * Z);
  histlen : Z;
  backlog_offset : Z;
}.

Inductive slave_state : Set :=
| SLAVE_STATE_WAIT_BGSAVE_START
| SLAVE_STATE_WAIT_BGSAVE_END
| SLAVE_STATE_SEND_BULK
| SLAVE_STATE_ONLINE
| SLAVE_STATE_RDB_TRANSMITTED.

#[export] Instance slave_state_eq_dec : EqDecision slave_state.
Proof. solve_decision. Defined.

(** The client of a replica: its number, its flags [CLIENT_REPL_RDBONLY],
    [CLIENT_PRE_PSYNC] and [CLIENT_CLOSE_ASAP], where it is in the blocks, its
    acknowledgements, and what it declared. *)
Record replica : Type := mkReplica {
  replica_id : nat;
  replstate : slave_state;
  rdb_only : bool;
  pre_psync : bool;
  close_asap : bool;
  ref_repl_buf_node : option Z;
  ref_block_pos : nat;
  repl_ack_off : Z;
  repl_aof_off : Z;
  psync_initial_offset : Z;
  start_cmd_stream_on_ack : bool;
  slave_capa : Z;
  slave_req : Z;
}.

#[export] Instance replica_eq_dec : EqDecision replica.
Proof. solve_decision. Defined.

Definition set_ref (node : option Z) (pos : nat) (r : replica) : replica :=
  mkReplica (replica_id r) (replstate r) (rdb_only r) (pre_psync r) (close_asap r) node pos (repl_ack_off r) (repl_aof_off r)
    (psync_initial_offset r) (start_cmd_stream_on_ack r) (slave_capa r) (slave_req r).
Definition set_close_asap (r : replica) : replica :=
  mkReplica (replica_id r) (replstate r) (rdb_only r) (pre_psync r) true (ref_repl_buf_node r) (ref_block_pos r) (repl_ack_off r)
    (repl_aof_off r) (psync_initial_offset r) (start_cmd_stream_on_ack r) (slave_capa r) (slave_req r).
Definition set_replstate (s : slave_state) (r : replica) : replica :=
  mkReplica (replica_id r) s (rdb_only r) (pre_psync r) (close_asap r) (ref_repl_buf_node r) (ref_block_pos r) (repl_ack_off r)
    (repl_aof_off r) (psync_initial_offset r) (start_cmd_stream_on_ack r) (slave_capa r) (slave_req r).
Definition set_initial_offset (n : Z) (r : replica) : replica :=
  mkReplica (replica_id r) (replstate r) (rdb_only r) (pre_psync r) (close_asap r) (ref_repl_buf_node r) (ref_block_pos r)
    (repl_ack_off r) (repl_aof_off r) n (start_cmd_stream_on_ack r) (slave_capa r) (slave_req r).
Definition set_start_on_ack (b : bool) (r : replica) : replica :=
  mkReplica (replica_id r) (replstate r) (rdb_only r) (pre_psync r) (close_asap r) (ref_repl_buf_node r) (ref_block_pos r)
    (repl_ack_off r) (repl_aof_off r) (psync_initial_offset r) b (slave_capa r) (slave_req r).
Definition set_acks (ack aof : Z) (r : replica) : replica :=
  mkReplica (replica_id r) (replstate r) (rdb_only r) (pre_psync r) (close_asap r) (ref_repl_buf_node r) (ref_block_pos r)
    ack aof (psync_initial_offset r) (start_cmd_stream_on_ack r) (slave_capa r) (slave_req r).

(** The variables of [server] that are used here. *)
Record master : Type := mkMaster {
  repl_buffer_blocks : list replBufBlock;
  repl_block_id : Z;
  repl_backlog : option replBacklog;
  master_repl_offset : Z;
  slaves : list replica;
  repl_backlog_size : Z;
  slaveseldb : Z;
  replid : string;
  replid2 : string;
  second_replid_offset : Z;
}.

Definition set_blocks (l : list replBufBlock) (m : master) : master :=
  mkMaster l (repl_block_id m) (repl_backlog m) (master_repl_offset m) (slaves m) (repl_backlog_size m) (slaveseldb m)
    (replid m) (replid2 m) (second_replid_offset m).
Definition set_backlog (b : replBacklog) (m : master) : master :=
  mkMaster (repl_buffer_blocks m) (repl_block_id m) (Some b) (master_repl_offset m) (slaves m) (repl_backlog_size m)
    (slaveseldb m) (replid m) (replid2 m) (second_replid_offset m).
Definition set_slaves (l : list replica) (m : master) : master :=
  mkMaster (repl_buffer_blocks m) (repl_block_id m) (repl_backlog m) (master_repl_offset m) l (repl_backlog_size m)
    (slaveseldb m) (replid m) (replid2 m) (second_replid_offset m).
Definition set_slaveseldb (n : Z) (m : master) : master :=
  mkMaster (repl_buffer_blocks m) (repl_block_id m) (repl_backlog m) (master_repl_offset m) (slaves m)
    (repl_backlog_size m) n (replid m) (replid2 m) (second_replid_offset m).
Definition set_offset (n : Z) (m : master) : master :=
  mkMaster (repl_buffer_blocks m) (repl_block_id m) (repl_backlog m) n (slaves m) (repl_backlog_size m) (slaveseldb m)
    (replid m) (replid2 m) (second_replid_offset m).

(** ** Nodes *)

Definition find_block (id : Z) (l : list replBufBlock) : option replBufBlock :=
  head (filter (λ b, block_id b = id) l).

Definition upd_block (id : Z) (f : replBufBlock → replBufBlock) (l : list replBufBlock) : list replBufBlock :=
  (λ b, if decide (block_id b = id) then f b else b) <$> l.

(** [listNextNode]. *)
Fixpoint next_block (id : Z) (l : list replBufBlock) : option replBufBlock :=
  match l with
  | [] => None
  | b :: l => if decide (block_id b = id) then head l else next_block id l
  end.

(** The list from a node on. *)
Fixpoint from_block (id : Z) (l : list replBufBlock) : list replBufBlock :=
  match l with
  | [] => []
  | b :: l' => if decide (block_id b = id) then l else from_block id l'
  end.

Definition upd_replica (i : nat) (f : replica → replica) (m : master) : master :=
  set_slaves ((λ r, if decide (replica_id r = i) then f r else r) <$> slaves m) m.

Definition find_replica (i : nat) (m : master) : option replica :=
  head (filter (λ r, replica_id r = i) (slaves m)).

Definition canFeedReplicaReplBuffer (r : replica) : bool :=
  negb (rdb_only r) && negb (bool_decide (replstate r = SLAVE_STATE_WAIT_BGSAVE_START)) && negb (close_asap r).

(** ** The backlog *)

Definition createReplicationBacklog (m : master) : option master :=
  match repl_backlog m with
  | Some _ => None
  | None => Some (set_backlog (mkBacklog None 0 [] 0 (master_repl_offset m + 1)) m)
  end.

(** [raxInsert]: a key that is there gets the new value. *)
Fixpoint index_insert (k v : Z) (l : list (Z * Z)) : list (Z * Z) :=
  match l with
  | [] => [(k, v)]
  | (k', v') :: l =>
      if k <? k' then (k, v) :: (k', v') :: l
      else if k =? k' then (k, v) :: l
      else (k', v') :: index_insert k v l
  end.

Definition index_remove (k : Z) (l : list (Z * Z)) : list (Z * Z) := filter (λ e, e.1 ≠ k) l.

Definition createReplicationBacklogIndex (b : replBufBlock) (bl : replBacklog) : replBacklog :=
  let count := unindexed_count bl + 1 in
  if REPL_BACKLOG_INDEX_PER_BLOCKS <=? count
  then mkBacklog (backlog_ref bl) 0 (index_insert (repl_offset b) (block_id b) (blocks_index bl)) (histlen bl) (backlog_offset bl)
  else mkBacklog (backlog_ref bl) count (blocks_index bl) (histlen bl) (backlog_offset bl).

(** The loop that gives up the first block; [max] is [max_blocks] less
    [trimmed_blocks]. *)
Fixpoint trim_loop (max : nat) (size : Z) (l : list replBufBlock) (bl : replBacklog) : option (list replBufBlock * replBacklog) :=
  match max with
  | O => Some (l, bl)
  | S max =>
      if negb (size <? histlen bl) then Some (l, bl)
      else
        match l with
        | [] | [_] => Some (l, bl)
        | fo :: next :: l' =>
            if negb (bool_decide (backlog_ref bl = Some (block_id fo))) then None
            else if negb (refcount fo =? 1) then Some (l, bl)
            else if histlen bl - Z.of_nat (block_size fo) <=? size then Some (l, bl)
            else if negb (block_used fo =? block_size fo)%nat then None
            else
              trim_loop max size (add_ref 1 next :: l')
                (mkBacklog (Some (block_id next)) (unindexed_count bl) (index_remove (repl_offset fo) (blocks_index bl))
                   (histlen bl - Z.of_nat (block_size fo)) (backlog_offset bl))
        end
  end.

Definition incrementalTrimReplicationBacklog (max_blocks : nat) (m : master) : option master :=
  bl ← repl_backlog m;
  '(l, bl) ← trim_loop max_blocks (repl_backlog_size m) (repl_buffer_blocks m) bl;
  Some (set_backlog (mkBacklog (backlog_ref bl) (unindexed_count bl) (blocks_index bl) (histlen bl)
                       (master_repl_offset m - histlen bl + 1))
          (set_blocks l m)).

(** The client is freed afterwards. *)
Definition freeReplicaReferencedReplBuffer (r : replica) (m : master) : option master :=
  match ref_repl_buf_node r with
  | None => Some m
  | Some id =>
      o ← find_block id (repl_buffer_blocks m);
      if negb (0 <? refcount o) then None
      else incrementalTrimReplicationBacklog REPL_BACKLOG_TRIM_BLOCKS_PER_CALL
             (set_blocks (upd_block id (add_ref (-1)) (repl_buffer_blocks m)) m)
  end.

(** What [freeClient] does for a replica. *)
Definition freeClient (i : nat) (m : master) : option master :=
  r ← find_replica i m;
  m ← freeReplicaReferencedReplBuffer r m;
  Some (set_slaves (filter (λ r, replica_id r ≠ i) (slaves m)) m).

Section master.
(** [zmalloc_usable (n)] reports that [usable n] bytes can be used. *)
Variable usable : nat → nat.
(** [checkClientOutputBufferLimits]. *)
Variable over_limits : master → replica → bool.

(** ** Feeding *)

(** The header of a block takes 40 bytes. *)
Definition new_block_size (m : master) (len : nat) : nat :=
  let limit := Nat.max (Z.to_nat (repl_backlog_size m / 16)) REPLY_CHUNK_BYTES in
  let size := Nat.min (Nat.max len REPLY_CHUNK_BYTES) limit in
  (usable (size + 40) - 40)%nat.

(** [master_repl_offset] and [histlen] count the bytes that were copied. *)
Definition count_bytes (n : nat) (bl : replBacklog) (m : master) : master :=
  set_offset (master_repl_offset m + Z.of_nat n)
    (set_backlog (mkBacklog (backlog_ref bl) (unindexed_count bl) (blocks_index bl) (histlen bl + Z.of_nat n) (backlog_offset bl)) m).

(** "Append to tail string when possible": the rest of the bytes, and the node
    and position where the new ones start. *)
Definition append_tail (m : master) (bl : replBacklog) (s : string) : master * string * option (Z * nat) :=
  match last (repl_buffer_blocks m) with
  | None => (m, s, None)
  | Some tail =>
      if (block_used tail <? block_size tail)%nat then
        let avail := (block_size tail - block_used tail)%nat in
        let copy := if (String.length s <=? avail)%nat then String.length s else avail in
        (count_bytes copy bl (set_blocks (upd_block (block_id tail) (fill_block (stake copy s)) (repl_buffer_blocks m)) m),
         sdrop copy s, Some (block_id tail, block_used tail))
      else (m, s, None)
  end.

Definition add_block (m : master) (bl : replBacklog) (s : string) : master * string :=
  let size := new_block_size m (String.length s) in
  let copy := if (String.length s <=? size)%nat then String.length s else size in
  let tail := mkReplBlock 0 (repl_block_id m) (master_repl_offset m + 1) size (stake copy s) in
  let m := mkMaster (repl_buffer_blocks m ++ [tail]) (repl_block_id m + 1) (repl_backlog m) (master_repl_offset m)
             (slaves m) (repl_backlog_size m) (slaveseldb m) (replid m) (replid2 m) (second_replid_offset m) in
  (count_bytes copy bl m, sdrop copy s).

(** The loop over the replicas: the start is set in those that have none. *)
Fixpoint feed_slaves (m : master) (start : Z * nat) (add_new_block : bool) (rs : list replica) (l : list replBufBlock) :
    list replica * list replBufBlock :=
  match rs with
  | [] => ([], l)
  | r :: rs =>
      let '(r, l) :=
        if negb (canFeedReplicaReplBuffer r) then (r, l)
        else
          let '(r, l) :=
            match ref_repl_buf_node r with
            | None => (set_ref (Some start.1) start.2 r, upd_block start.1 (add_ref 1) l)
            | Some _ => (r, l)
            end in
          (if add_new_block && negb (close_asap r) && over_limits m r then set_close_asap r else r, l) in
      let '(rs, l) := feed_slaves m start add_new_block rs l in
      (r :: rs, l)
  end.

(** The backlog refers to the first block of all. *)
Definition feed_backlog (start : Z * nat) (add_new_block : bool) (m : master) : option master :=
  bl ← repl_backlog m;
  match backlog_ref bl with
  | Some _ => Some m
  | None =>
      if negb (add_new_block && (start.2 =? 0)%nat) then None
      else
        Some (set_backlog (mkBacklog (Some start.1) (unindexed_count bl) (blocks_index bl) (histlen bl) (backlog_offset bl))
                (set_blocks (upd_block start.1 (add_ref 1) (repl_buffer_blocks m)) m))
  end.

(** The bytes that fit are copied: the rest of them, where the new ones start, and
    whether there is a new block. *)
Definition copy_bytes (m : master) (bl : replBacklog) (s : string) : option (master * string * option (Z * nat) * bool) :=
  let '(m, s, start) := append_tail m bl s in
  match s with
  | EmptyString => Some (m, s, start, false)
  | _ =>
      bl ← repl_backlog m;
      let '(m', s') := add_block m bl s in
      Some (m', s', Some (default (repl_block_id m, 0%nat) start), true)
  end.

(** One round of the loop: the rest of the bytes. *)
Definition feed_round (m : master) (bl : replBacklog) (s : string) : option (master * string) :=
  '(m, s, start, add_new_block) ← copy_bytes m bl s;
  start ← start;
  let '(rs, l) := feed_slaves m start add_new_block (slaves m) (repl_buffer_blocks m) in
  m ← feed_backlog start add_new_block (set_slaves rs (set_blocks l m));
  if add_new_block : bool then
    bl ← repl_backlog m;
    tail ← last (repl_buffer_blocks m);
    m ← incrementalTrimReplicationBacklog REPL_BACKLOG_TRIM_BLOCKS_PER_CALL
          (set_backlog (createReplicationBacklogIndex tail bl) m);
    Some (m, s)
  else Some (m, s).

Fixpoint feed_loop (fuel : nat) (m : master) (s : string) : option master :=
  match s with
  | EmptyString => Some m
  | _ =>
      match fuel with
      | O => None
      | S fuel => bl ← repl_backlog m; '(m, s) ← feed_round m bl s; feed_loop fuel m s
      end
  end.

(** Every round copies a byte. *)
Definition feedReplicationBuffer (s : string) (m : master) : option master :=
  match repl_backlog m with None => Some m | Some _ => feed_loop (String.length s) m s end.

Fixpoint feed_all (l : list string) (m : master) : option master :=
  match l with [] => Some m | s :: l => m ← feedReplicationBuffer s m; feed_all l m end.

(** What is fed for a command: its length, then each argument with its own. *)
Definition command_pieces (argv : list string) : list string :=
  ("*" +:+ pretty (length argv) +:+ CRLF) ::
  (argv ≫= λ a, ["$" +:+ pretty (String.length a) +:+ CRLF; a; CRLF]).

Definition select_command (dictid : Z) : string :=
  "*2" +:+ CRLF +:+ "$6" +:+ CRLF +:+ "SELECT" +:+ CRLF +:+ "$" +:+ pretty (String.length (pretty dictid)) +:+ CRLF +:+
  pretty dictid +:+ CRLF.

(** The number of databases. *)
Variable dbnum : Z.

(** On a server that is no replica itself; [dictid] is -1 for a command without keys. *)
Definition replicationFeedSlaves (dictid : Z) (argv : list string) (m : master) : option master :=
  if negb ((dictid =? -1) || ((0 <=? dictid) && (dictid <? dbnum))) then None
  else
    match repl_backlog m, slaves m with
    | None, [] => Some (set_offset (master_repl_offset m + 1) m)
    | None, _ => None
    | Some _, _ =>
        m ← (if negb (dictid =? -1) && negb (slaveseldb m =? dictid)
             then m ← feedReplicationBuffer (select_command dictid) m; Some (set_slaveseldb dictid m)
             else Some m);
        feed_all (command_pieces argv) m
    end.

(** What a replica gets from its own master goes on to its replicas. *)
Definition replicationFeedStreamFromMasterStream (buf : string) (m : master) : option master :=
  match slaves m, repl_backlog m with
  | _ :: _, None => None
  | _, None => Some m
  | _, Some _ => feedReplicationBuffer buf m
  end.
End master.

(** ** Writing to a replica *)

(** The branch of [clientHasPendingReplies] for replicas. *)
Definition hasPendingReplies (r : replica) (m : master) : option bool :=
  match ref_repl_buf_node r with
  | None => Some false
  | Some id =>
      tail ← last (repl_buffer_blocks m);
      Some (negb (bool_decide (block_id tail = id) && (ref_block_pos r =? block_used tail)%nat))
  end.

(** The branch of [_writeToClient] for replicas; [connWrite] is the number of
    bytes that the socket takes of those it is given, or an error.  The bytes
    that were written, [None] when the function returns [C_ERR]. *)
Definition writeToReplica (i : nat) (connWrite : nat → option nat) (m : master) : option (master * option string) :=
  r ← find_replica i m;
  id ← ref_repl_buf_node r;
  o ← find_block id (repl_buffer_blocks m);
  if negb (ref_block_pos r <=? block_used o)%nat then None
  else
    let rest := sdrop (ref_block_pos r) (block_buf o) in
    match (match rest with
           | EmptyString => Some 0%nat
           | _ => n ← connWrite (String.length rest); if (n =? 0)%nat then None else Some n
           end) with
    | None => Some (m, None)
    | Some n =>
        let pos := (ref_block_pos r + n)%nat in
        match next_block id (repl_buffer_blocks m) with
        | Some next =>
            if (pos =? block_used o)%nat then
              m ← incrementalTrimReplicationBacklog REPL_BACKLOG_TRIM_BLOCKS_PER_CALL
                    (upd_replica i (set_ref (Some (block_id next)) 0)
                      (set_blocks (upd_block (block_id next) (add_ref 1) (upd_block id (add_ref (-1)) (repl_buffer_blocks m))) m));
              Some (m, Some (stake n rest))
            else Some (upd_replica i (set_ref (Some id) pos) m, Some (stake n rest))
        | None => Some (upd_replica i (set_ref (Some id) pos) m, Some (stake n rest))
        end
    end.

(** ** Synchronisation *)

(** The last entry of the index that is not beyond [offset]. *)
Fixpoint index_seek (offset : Z) (found : option Z) (index : list (Z * Z)) : option Z :=
  match index with
  | [] => found
  | (k, node) :: index => if offset <? k then found else index_seek offset (Some node) index
  end.

Fixpoint search_node (offset : Z) (l : list replBufBlock) : option replBufBlock :=
  match l with
  | [] => None
  | o :: l => if offset <=? repl_offset o + Z.of_nat (block_used o) then Some o else search_node offset l
  end.

(** The replica is the client of number [i], and the result is the number of bytes it
    will get from the backlog. *)
Definition addReplyReplicationBacklog (i : nat) (offset : Z) (m : master) : option (master * Z) :=
  bl ← repl_backlog m;
  if histlen bl =? 0 then Some (m, 0)
  else
    let skip := offset - backlog_offset bl in
    node ← (match index_seek offset None (blocks_index bl) with Some node => Some node | None => backlog_ref bl end);
    o ← search_node offset (from_block node (repl_buffer_blocks m));
    Some (upd_replica i (set_ref (Some (block_id o)) (Z.to_nat (offset - repl_offset o)))
            (set_blocks (upd_block (block_id o) (add_ref 1) (repl_buffer_blocks m)) m),
          histlen bl - skip).

(** [strcasecmp] of replication identifiers. *)
Definition same_replid (a b : string) : bool := strcaseeq a b.

(** A client that asks for synchronisation: its number, what it told about itself
    with REPLCONF, and whether it has pending output. *)
Record sync_client : Type := mkSyncClient {
  c_id : nat;
  c_rdb_only : bool;
  c_capa : Z;
  c_req : Z;
  c_pending : bool;
}.

Definition new_replica (c : sync_client) (state : slave_state) (pre : bool) : replica :=
  mkReplica (c_id c) state (c_rdb_only c) pre false None 0 0 0 0 false (c_capa c) (c_req c).

(** [sent] is whether the line +CONTINUE was written; the result is whether the
    request was accepted. *)
Definition masterTryPartialResynchronization (c : sync_client) (master_replid : string) (psync_offset : Z) (sent : bool)
    (m : master) : option (master * bool) :=
  if negb (same_replid master_replid (replid m)) &&
     (negb (same_replid master_replid (replid2 m)) || (second_replid_offset m <? psync_offset))
  then Some (m, false)
  else
    match repl_backlog m with
    | None => Some (m, false)
    | Some bl =>
        if (psync_offset <? backlog_offset bl) || (backlog_offset bl + histlen bl <? psync_offset) then Some (m, false)
        else
          let m := set_slaves (slaves m ++ [new_replica c SLAVE_STATE_ONLINE false]) m in
          if negb sent then Some (upd_replica (c_id c) set_close_asap m, true)
          else '(m, _) ← addReplyReplicationBacklog (c_id c) psync_offset m; Some (m, true)
    end.

(** What is fed from now on is for the replica as well.  [sent] is whether the
    line +FULLRESYNC was written; replicas that use SYNC do not get it. *)
Definition replicationSetupSlaveForFullResync (i : nat) (offset : Z) (sent : bool) (m : master) : master :=
  set_slaveseldb (-1)
    (upd_replica i (λ r,
      let r := set_replstate SLAVE_STATE_WAIT_BGSAVE_END (set_initial_offset offset r) in
      if negb (pre_psync r) && negb sent then set_close_asap r else r) m).

(** A replica joins the snapshot of another one. *)
Definition copyReplicaOutputBuffer (dst src : nat) (m : master) : option master :=
  s ← find_replica src m;
  match ref_repl_buf_node s with
  | None => Some m
  | Some id =>
      Some (upd_replica dst (set_ref (Some id) (ref_block_pos s))
              (set_blocks (upd_block id (add_ref 1) (repl_buffer_blocks m)) m))
  end.

Definition SLAVE_CAPA_EOF : Z := 1.
Definition SLAVE_REQ_RDB_MASK : Z := 3.

(** The child process that is active. *)
Inductive child_type : Set := CHILD_RDB_DISK | CHILD_RDB_SOCKET | CHILD_OTHER.

(** What the server finds around it: the child process, how [repl_diskless_sync] and
    what belongs to it are configured, whether a snapshot can be started, which
    replicas a line can be written to, a random identifier, the seconds since a
    client was last heard of, and whether there has been no replica for longer than
    [repl_backlog_time_limit]. *)
Record sync_env : Type := mkSyncEnv {
  active_child : option child_type;
  repl_diskless_sync : bool;
  repl_diskless_sync_delay : Z;
  repl_diskless_sync_max_replicas : Z;
  save_ok : bool;
  line_sent : nat → bool;
  random_id : string;
  idle_time : nat → Z;
  backlog_expired : bool;
}.

Definition getPsyncInitialOffset (m : master) : Z := master_repl_offset m.

(** The replicas that wait for a snapshot with these requirements get it. *)
Fixpoint setup_waiting (e : sync_env) (req : Z) (rs : list replica) (m : master) : master :=
  match rs with
  | [] => m
  | r :: rs =>
      setup_waiting e req rs
        (if bool_decide (replstate r = SLAVE_STATE_WAIT_BGSAVE_START) && (slave_req r =? req)
         then replicationSetupSlaveForFullResync (replica_id r) (getPsyncInitialOffset m) (line_sent e (replica_id r)) m
         else m)
  end.

(** When the snapshot is not started, the replicas that wait are given up.  A
    failure to fork after the replicas have been told to expect the snapshot on
    their sockets is not considered. *)
Definition startBgsaveForReplication (e : sync_env) (mincapa req : Z) (m : master) : option (master * bool) :=
  let socket_target := (repl_diskless_sync e || negb (Z.land req SLAVE_REQ_RDB_MASK =? 0)) && negb (Z.land mincapa SLAVE_CAPA_EOF =? 0) in
  if negb (socket_target || (Z.land req SLAVE_REQ_RDB_MASK =? 0)) then None
  else if negb (save_ok e) then
    Some (set_slaves (filter (λ r, replstate r ≠ SLAVE_STATE_WAIT_BGSAVE_START) (slaves m)) m, false)
  else Some (setup_waiting e req (slaves m) m, true).

(** The first replica whose snapshot serves the client as well. *)
Definition attach_candidate (c : sync_client) (m : master) : option replica :=
  head (filter (λ s, replstate s = SLAVE_STATE_WAIT_BGSAVE_END ∧ (rdb_only s = false ∨ c_rdb_only c = true)) (slaves m)).

Definition change_ids (id : string) (m : master) : master :=
  mkMaster (repl_buffer_blocks m) (repl_block_id m) (repl_backlog m) (master_repl_offset m) (slaves m)
    (repl_backlog_size m) (slaveseldb m) id "0000000000000000000000000000000000000000" (-1).

(** The replica joins the others: a backlog is created for the first one. *)
Definition add_waiting (e : sync_env) (c : sync_client) (pre : bool) (m : master) : option master :=
  let m := set_slaves (slaves m ++ [new_replica c SLAVE_STATE_WAIT_BGSAVE_START pre]) m in
  match repl_backlog m with
  | None => if (length (slaves m) =? 1)%nat then createReplicationBacklog (change_ids (random_id e) m) else Some m
  | Some _ => Some m
  end.

(** A snapshot on disk is under way. *)
Definition attach_to_snapshot (e : sync_env) (c : sync_client) (m : master) : option master :=
  match attach_candidate c m with
  | None => Some m
  | Some s =>
      if (Z.land (c_capa c) (slave_capa s) =? slave_capa s) && (c_req c =? slave_req s) then
        m ← (if c_rdb_only c then Some m else copyReplicaOutputBuffer (c_id c) (replica_id s) m);
        Some (replicationSetupSlaveForFullResync (c_id c) (psync_initial_offset s) (line_sent e (c_id c)) m)
      else Some m
  end.

Definition full_sync (e : sync_env) (c : sync_client) (pre : bool) (m : master) : option master :=
  m ← add_waiting e c pre m;
  match active_child e with
  | Some CHILD_RDB_DISK => attach_to_snapshot e c m
  | Some CHILD_RDB_SOCKET => Some m
  | child =>
      if repl_diskless_sync e && negb (Z.land (c_capa c) SLAVE_CAPA_EOF =? 0) && negb (repl_diskless_sync_delay e =? 0)
      then Some m
      else match child with
           | None => fst <$> startBgsaveForReplication e (c_capa c) (c_req c) m
           | Some _ => Some m
           end
  end.

(** SYNC, or PSYNC with an identifier and an offset, on a server that is no replica
    itself and in no failover. *)
Definition syncCommand (e : sync_env) (c : sync_client) (psync : option (string * Z)) (m : master) : option master :=
  match find_replica (c_id c) m with
  | Some _ => Some m
  | None =>
      if c_pending c then Some m
      else if negb (Z.land (c_req c) SLAVE_REQ_RDB_MASK =? 0) && (Z.land (c_capa c) SLAVE_CAPA_EOF =? 0) then Some m
      else
        match psync with
        | Some (id, offset) =>
            '(m, accepted) ← masterTryPartialResynchronization c id offset (line_sent e (c_id c)) m;
            if accepted : bool then Some m else full_sync e c false m
        | None => full_sync e c true m
        end
  end.

(** ** From the snapshot to the stream *)

(** [false] when the client is to be freed. *)
Definition replicaPutOnline (r : replica) : replica * bool :=
  if rdb_only r then (set_replstate SLAVE_STATE_RDB_TRANSMITTED r, false)
  else (set_replstate SLAVE_STATE_ONLINE r, true).

(** The child process has ended; [file_ok] is whether its file could be opened, and
    the handler that sends it be installed. *)
Definition updateSlavesWaitingBgsave (save_done socket : bool) (file_ok : nat → bool) (m : master) : master :=
  set_slaves ((λ r,
    if negb (bool_decide (replstate r = SLAVE_STATE_WAIT_BGSAVE_END)) then r
    else if negb save_done then set_close_asap r
    else if socket then
      let '(r, online) := replicaPutOnline r in
      if (online : bool) then set_start_on_ack true r else set_close_asap r
    else if file_ok (replica_id r) then set_replstate SLAVE_STATE_SEND_BULK r
    else set_close_asap r) <$> slaves m) m.

(** The end of [sendBulkToSlave]: the file was sent. *)
Definition sendBulkToSlave (i : nat) (m : master) : option master :=
  r ← find_replica i m;
  let '(r', online) := replicaPutOnline r in
  let m := upd_replica i (λ _, r') m in
  if (online : bool) then
    if rdb_only r' then None else Some (upd_replica i (set_start_on_ack false) m)
  else freeClient i m.

(** REPLCONF ACK [offset], with FACK [fack] if it has one. *)
Definition replconfAck (i : nat) (offset : Z) (fack : option Z) (m : master) : master :=
  upd_replica i (λ r,
    let r := set_acks (Z.max (repl_ack_off r) offset)
                      (match fack with Some n => Z.max (repl_aof_off r) n | None => repl_aof_off r end) r in
    if start_cmd_stream_on_ack r && bool_decide (replstate r = SLAVE_STATE_ONLINE) then set_start_on_ack false r else r) m.

(** The condition under which [putClientInPendingWriteQueue] and
    [handleClientsWithPendingWrites] write to a replica. *)
Definition writable (r : replica) : bool :=
  bool_decide (replstate r = SLAVE_STATE_ONLINE) && negb (start_cmd_stream_on_ack r) && negb (close_asap r).

(** [freeReplicationBacklog], and [resetReplicationBuffer]. *)
Definition freeReplicationBacklog (m : master) : option master :=
  match slaves m, repl_backlog m with
  | _ :: _, _ => None
  | [], None => Some m
  | [], Some bl =>
      _ ← (match backlog_ref bl with
           | None => Some tt
           | Some id => o ← find_block id (repl_buffer_blocks m); if refcount o =? 1 then Some tt else None
           end);
      Some (mkMaster [] (repl_block_id m) None (master_repl_offset m) (slaves m) (repl_backlog_size m) (slaveseldb m) (replid m)
              (replid2 m) (second_replid_offset m))
  end.

(** ** The cron *)

(** The replicas that wait and have the requirements of the first of them: their common
    capabilities, the requirements, their number and the longest time. *)
Fixpoint waiting_group (e : sync_env) (rs : list replica) (found : option (Z * Z * Z * Z)) : option (Z * Z * Z * Z) :=
  match rs with
  | [] => found
  | r :: rs =>
      waiting_group e rs
        (if negb (bool_decide (replstate r = SLAVE_STATE_WAIT_BGSAVE_START)) then found
         else match found with
              | None => Some (slave_capa r, slave_req r, 1, Z.max 0 (idle_time e (replica_id r)))
              | Some (mincapa, req, n, max_idle) =>
                  if negb (req =? slave_req r) then found
                  else Some (Z.land mincapa (slave_capa r), req, n + 1, Z.max max_idle (idle_time e (replica_id r)))
              end)
  end.

Definition shouldStartChildReplication (e : sync_env) (m : master) : option (Z * Z) :=
  match active_child e with
  | Some _ => None
  | None =>
      '(mincapa, req, n, max_idle) ← waiting_group e (slaves m) None;
      if negb (repl_diskless_sync e) ||
         ((0 <? repl_diskless_sync_max_replicas e) && (repl_diskless_sync_max_replicas e <=? n)) ||
         (repl_diskless_sync_delay e <=? max_idle)
      then Some (mincapa, req) else None
  end.

Definition replicationStartPendingFork (e : sync_env) (m : master) : option master :=
  match shouldStartChildReplication e m with
  | Some (mincapa, req) => fst <$> startBgsaveForReplication e mincapa req m
  | None => Some m
  end.

(** The end of [replicationCron]: the backlog is freed when it has not been of use,
    snapshots are started, and the first block is checked. *)
Definition replicationCron (e : sync_env) (m : master) : option master :=
  m ← (match slaves m, repl_backlog m with
       | [], Some _ => if backlog_expired e then freeReplicationBacklog (change_ids (random_id e) m) else Some m
       | _, _ => Some m
       end);
  m ← replicationStartPendingFork e m;
  match repl_buffer_blocks m with
  | [] => Some m
  | o :: _ => if (0 <? refcount o) && (refcount o <=? Z.of_nat (length (slaves m)) + 1) then Some m else None
  end.
