(* ===== verification/ReplicationSpec.v ===== *)
(** * What the replicas of a master are sent

    The invariant of the shared blocks of [Replication]: they hold the end of
    the stream, the counts of references are exact, and the position of a
    replica in the blocks is a position in the stream, which feeding, trimming
    and the other replicas do not move.  Hence no block that is still needed
    is given up, no assertion fails, and every replica is sent the bytes of the
    stream from where it started, without a gap. *)

From S2P Require Import Prelude CLib Buffers Hiredis Util Replication.

#[local] Abbreviation slen s := (Z.of_nat (String.length s)).

(** ** Blocks *)

Definition content (l : list replBufBlock) : string := stream (block_buf <$> l).

(** Every block starts where the one before it ends. *)
Fixpoint offsets (o : Z) (l : list replBufBlock) : Prop :=
  match l with
  | [] => True
  | b :: l => repl_offset b = o ∧ offsets (o + slen (block_buf b)) l
  end.

(** Only the last block may have room. *)
Fixpoint packed (l : list replBufBlock) : Prop :=
  match l with
  | [] => True
  | [b] => (block_used b ≤ block_size b)%nat
  | b :: l => block_used b = block_size b ∧ packed l
  end.

(** The same blocks but for the counts of references. *)
Definition same_block (b b' : replBufBlock) : Prop :=
  block_id b' = block_id b ∧ repl_offset b' = repl_offset b ∧ block_size b' = block_size b ∧ block_buf b' = block_buf b.

Record shape (next mro : Z) (l : list replBufBlock) : Prop := {
  sh_offsets : offsets (mro - slen (content l) + 1) l;
  sh_ids : NoDup (block_id <$> l);
  sh_next : Forall (λ b, block_id b < next) l;
  sh_nonempty : Forall (λ b, block_buf b ≠ EmptyString) l;
  sh_packed : packed l;
}.

Lemma content_cons b l : content (b :: l) = block_buf b +:+ content l.
Proof. done. Qed.

Lemma content_app l l' : content (l ++ l') = content l +:+ content l'.
Proof. unfold content. by rewrite fmap_app, stream_app. Qed.

Lemma same_ids l l' : Forall2 same_block l l' → block_id <$> l' = block_id <$> l.
Proof. induction 1 as [|b b' l l' (H & _) _ IH]; [done|]. cbn. by rewrite H, IH. Qed.

Lemma same_content l l' : Forall2 same_block l l' → content l' = content l.
Proof. induction 1 as [|b b' l l' (_ & _ & _ & H) _ IH]; [done|]. rewrite !content_cons. by rewrite H, IH. Qed.

Lemma same_shape next mro l l' : Forall2 same_block l l' → shape next mro l → shape next mro l'.
Proof.
  intros Hs [H1 H2 H3 H4 H5]. split.
  - rewrite (same_content _ _ Hs). revert H1. generalize (mro - slen (content l) + 1). clear H2 H3 H4 H5.
    induction Hs as [|b b' l l' (E1 & E2 & E3 & E4) _ IH]; intros o; [done|]. cbn. rewrite E2, E4. intros [-> H]. split; [done|by apply IH].
  - by rewrite (same_ids _ _ Hs).
  - clear -Hs H3. induction Hs as [|b b' l l' (E & _) _ IH]; [done|]. apply Forall_cons in H3 as [? ?].
    constructor; [by rewrite E|by apply IH].
  - clear -Hs H4. induction Hs as [|b b' l l' (_ & _ & _ & E) _ IH]; [done|]. apply Forall_cons in H4 as [? ?].
    constructor; [by rewrite E|by apply IH].
  - clear -Hs H5. induction Hs as [|b b' l l' (_ & _ & E & E') Hs IH]; [done|].
    unfold block_used in *. destruct Hs; cbn in *; unfold block_used in *; rewrite E, E'; [done|]. destruct H5. split; [done|by apply IH].
Qed.

(** *** Updates *)

Lemma upd_same id f l : (∀ b, same_block b (f b)) → Forall2 same_block l (upd_block id f l).
Proof. intros Hf. unfold upd_block. induction l as [|b l IH]; constructor; [|done]. by case_decide. Qed.

Lemma same_add_ref n b : same_block b (add_ref n b).
Proof. done. Qed.

Lemma upd_absent id f l : id ∉ (block_id <$> l) → upd_block id f l = l.
Proof.
  intros H. unfold upd_block. rewrite <- (list_fmap_id l) at 2. apply list_fmap_ext. intros i b Hb. cbn.
  rewrite decide_False; [done|]. intros <-. apply H, list_elem_of_fmap. exists b. split; [done|]. by apply list_elem_of_lookup_2 in Hb.
Qed.

Lemma upd_app id f l l' : upd_block id f (l ++ l') = upd_block id f l ++ upd_block id f l'.
Proof. apply fmap_app. Qed.

(** The block with a number, and what is around it. *)
Lemma block_split id l b : NoDup (block_id <$> l) → b ∈ l → block_id b = id →
  ∃ l1 l2, l = l1 ++ b :: l2 ∧ (id ∉ block_id <$> l1) ∧ (id ∉ block_id <$> l2).
Proof.
  intros Hn Hb <-. apply list_elem_of_split in Hb as (l1 & l2 & ->). exists l1, l2. split; [done|].
  rewrite fmap_app, fmap_cons in Hn. apply NoDup_app in Hn as (_ & H1 & H2). apply NoDup_cons in H2 as [H2 _].
  split; [|done]. intros Hin. apply (H1 _ Hin). by left.
Qed.

Lemma find_block_spec id l b : NoDup (block_id <$> l) → b ∈ l → block_id b = id → find_block id l = Some b.
Proof.
  intros Hn Hb He. destruct (block_split id l b Hn Hb He) as (l1 & l2 & -> & H1 & _). unfold find_block.
  clear Hn Hb. induction l1 as [|c l1 IH]; cbn [app]; rewrite filter_cons; [by rewrite decide_True|].
  rewrite fmap_cons, not_elem_of_cons in H1. destruct H1 as [H1 H2]. rewrite decide_False by done. by apply IH.
Qed.

Lemma find_block_Some id l b : find_block id l = Some b → b ∈ l ∧ block_id b = id.
Proof.
  unfold find_block. intros H. assert (b ∈ filter (λ b, block_id b = id) l) as [? ?]%list_elem_of_filter; [|done].
  destruct (filter _ _); [done|]. cbn in H. simplify_eq. by left.
Qed.

Lemma next_block_split l1 b l2 : block_id b ∉ (block_id <$> l1) → next_block (block_id b) (l1 ++ b :: l2) = head l2.
Proof.
  induction l1 as [|c l1 IH]; cbn [app next_block]; [by rewrite decide_True|].
  rewrite fmap_cons, not_elem_of_cons. intros [H1 H2]. rewrite decide_False by done. by apply IH.
Qed.

Lemma from_block_split l1 b l2 : block_id b ∉ (block_id <$> l1) → from_block (block_id b) (l1 ++ b :: l2) = b :: l2.
Proof.
  induction l1 as [|c l1 IH]; cbn [app from_block]; [by rewrite decide_True|].
  rewrite fmap_cons, not_elem_of_cons. intros [H1 H2]. rewrite decide_False by done. by apply IH.
Qed.

(** *** Counts of references *)

Definition counted (f : Z → Z) (l : list replBufBlock) : Prop := Forall (λ b, refcount b = f (block_id b)) l.

Lemma counted_upd f g id n l : counted f l → (∀ x, g x = f x + (if decide (x = id) then n else 0)) →
  counted g (upd_block id (add_ref n) l).
Proof.
  intros Hf Hg. unfold counted, upd_block. apply Forall_fmap. eapply Forall_impl; [done|]. intros b Hb. unfold compose.
  case_decide; cbn [add_ref refcount block_id]; rewrite Hg, Hb; [rewrite decide_True by done|rewrite decide_False by done]; lia.
Qed.

Lemma counted_ext f g l : counted f l → (∀ x, g x = f x) → counted g l.
Proof. intros Hf Hg. eapply Forall_impl; [done|]. intros b ->. by rewrite Hg. Qed.

(** The replicas that refer to a block. *)
Definition refers (id : Z) (r : replica) : Z := if decide (ref_repl_buf_node r = Some id) then 1 else 0.

Fixpoint refs (rs : list replica) (id : Z) : Z :=
  match rs with [] => 0 | r :: rs => refers id r + refs rs id end.

Lemma refs_app rs rs' id : refs (rs ++ rs') id = refs rs id + refs rs' id.
Proof. induction rs as [|r rs IH]; cbn; [done|]. lia. Qed.

Lemma refs_nonneg rs id : 0 ≤ refs rs id.
Proof. induction rs as [|r rs IH]; cbn; [done|]. unfold refers. case_decide; lia. Qed.

Lemma refs_pos rs r id : r ∈ rs → ref_repl_buf_node r = Some id → 0 < refs rs id.
Proof.
  intros Hr He. apply list_elem_of_split in Hr as (l1 & l2 & ->). rewrite refs_app. cbn. unfold refers. rewrite decide_True by done.
  pose proof (refs_nonneg l1 id). pose proof (refs_nonneg l2 id). lia.
Qed.

Definition own (bref : option Z) (id : Z) : Z := if decide (bref = Some id) then 1 else 0.

(** ** The invariant *)

(** A replica refers to a byte of the blocks, or to the one after the end of a block. *)
Definition refers_ok (l : list replBufBlock) (r : replica) : Prop :=
  ∀ id, ref_repl_buf_node r = Some id → ∃ b, b ∈ l ∧ block_id b = id ∧ (ref_block_pos r ≤ block_used b)%nat.

Definition index_ok (l : list replBufBlock) (index : list (Z * Z)) : Prop :=
  ∀ k id, (k, id) ∈ index → ∃ b, b ∈ l ∧ block_id b = id ∧ repl_offset b = k.

(** The blocks and the backlog, but for its offset. *)
Record buffer_ok (hist : string) (next mro : Z) (rs : list replica) (l : list replBufBlock) (bl : replBacklog) : Prop := {
  bo_shape : shape next mro l;
  bo_content : ∃ gone, hist = gone +:+ content l;
  bo_count : counted (λ id, refs rs id + own (backlog_ref bl) id) l;
  bo_backlog : backlog_ref bl = block_id <$> head l;
  bo_histlen : histlen bl = slen (content l);
  bo_index : index_ok l (blocks_index bl);
  bo_refers : Forall (refers_ok l) rs;
}.

(** [hist] is all that was ever fed, and [base] the offset before it. *)
Record near_ok (base : Z) (hist : string) (m : master) (bl : replBacklog) : Prop := {
  ro_offset : master_repl_offset m = base + slen hist;
  ro_ids : NoDup (replica_id <$> slaves m);
  ro_backlog : repl_backlog m = Some bl;
  ro_buffer : buffer_ok hist (repl_block_id m) (master_repl_offset m) (slaves m) (repl_buffer_blocks m) bl;
}.

Definition repl_ok (base : Z) (hist : string) (m : master) : Prop :=
  ∃ bl, near_ok base hist m bl ∧ backlog_offset bl = master_repl_offset m - histlen bl + 1.

(** The offset of the next byte for a replica. *)
Definition position (m : master) (r : replica) : Z :=
  match ref_repl_buf_node r with
  | Some id =>
      match find_block id (repl_buffer_blocks m) with
      | Some b => repl_offset b + Z.of_nat (ref_block_pos r)
      | None => 0
      end
  | None => master_repl_offset m + 1
  end.

(** A replica for which the stream is kept. *)
Definition active (r : replica) : Prop := canFeedReplicaReplBuffer r = true ∨ ref_repl_buf_node r ≠ None.

(** The same replica later on: it may be about to be closed, and it is where it was. *)
Record kept (m m' : master) (r r' : replica) : Prop := {
  k_id : replica_id r' = replica_id r;
  k_state : replstate r' = replstate r ∧ rdb_only r' = rdb_only r ∧ psync_initial_offset r' = psync_initial_offset r;
  k_acks : repl_ack_off r' = repl_ack_off r ∧ repl_aof_off r' = repl_aof_off r;
  k_wants : slave_capa r' = slave_capa r ∧ slave_req r' = slave_req r;
  k_close : close_asap r = true → close_asap r' = true;
  k_active : active r' ↔ active r;
  k_position : active r → position m' r' = position m r;
}.

Lemma kept_refl m r : kept m m r r.
Proof. done. Qed.

Lemma kept_trans m m' m'' r r' r'' : kept m m' r r' → kept m' m'' r' r'' → kept m m'' r r''.
Proof.
  intros [H1 (H2 & H3 & H4) [H5 H6] [Hc Hq] H7 H8 H9] [J1 (J2 & J3 & J4) [J5 J6] [Jc Jq] J7 J8 J9].
  split; [congruence|split_and!; congruence|split; congruence|split; congruence|auto|by rewrite J8|].
  intros Ha. rewrite J9 by (by apply H8). by apply H9.
Qed.

Definition all_kept (m m' : master) : Prop := Forall2 (kept m m') (slaves m) (slaves m').

Lemma all_kept_refl m : all_kept m m.
Proof. unfold all_kept. induction (slaves m); constructor; done. Qed.

Lemma all_kept_trans m m' m'' : all_kept m m' → all_kept m' m'' → all_kept m m''.
Proof.
  unfold all_kept. intros H1 H2. apply Forall2_same_length_lookup. pose proof (Forall2_length _ _ _ H1). pose proof (Forall2_length _ _ _ H2).
  split; [congruence|]. intros i r r'' Hr Hr''. destruct (lookup_lt_is_Some_2 (slaves m') i) as [r' Hr'].
  { apply lookup_lt_Some in Hr. lia. }
  eapply kept_trans; [by eapply Forall2_lookup_lr|by eapply Forall2_lookup_lr].
Qed.

Lemma all_kept_ids m m' : all_kept m m' → replica_id <$> slaves m' = replica_id <$> slaves m.
Proof. unfold all_kept. induction 1 as [|r r' rs rs' Hr _ IH]; [done|]. cbn. by rewrite (k_id _ _ _ _ Hr), IH. Qed.

Lemma all_kept_view m m' : repl_buffer_blocks m' = repl_buffer_blocks m → master_repl_offset m' = master_repl_offset m →
  slaves m' = slaves m → all_kept m m'.
Proof.
  intros H1 H2 H3. unfold all_kept. rewrite H3. clear H3. induction (slaves m) as [|r rs IH]; [done|]. constructor; [|done].
  split; try done. intros Ha. unfold position. by rewrite H1, H2.
Qed.

(** *** Trimming *)

Lemma same_blocks_refl l : Forall2 same_block l l.
Proof. induction l; constructor; done. Qed.

Lemma same_blocks_trans l l' l'' : Forall2 same_block l l' → Forall2 same_block l' l'' → Forall2 same_block l l''.
Proof.
  intros H1 H2. revert l'' H2. induction H1 as [|b b' l l' (A1 & A2 & A3 & A4) _ IH]; intros l'' H2; [by inversion H2|].
  inversion H2 as [|? b'' ? l3 (B1 & B2 & B3 & B4) H3]; subst. constructor; [split_and!; congruence|auto].
Qed.

(** The first block has been given up. *)
Lemma trim_one hist next mro rs fo nx l bl :
  buffer_ok hist next mro rs (fo :: nx :: l) bl → refcount fo = 1 →
  refs rs (block_id fo) = 0 ∧
  buffer_ok hist next mro rs (add_ref 1 nx :: l)
    (mkBacklog (Some (block_id nx)) (unindexed_count bl) (index_remove (repl_offset fo) (blocks_index bl))
       (histlen bl - Z.of_nat (block_size fo)) (backlog_offset bl)).
Proof.
  intros [[S1 S2 S3 S4 [S5 S5']] [gone Hg] Hc Hb Hh Hx Hr] E.
  apply Forall_cons in Hc as [Hfo Hc]. rewrite Hb in Hfo, Hc. cbn [head fmap option_fmap option_map] in Hfo, Hc.
  unfold own in Hfo at 1. rewrite decide_True in Hfo by done. assert (refs rs (block_id fo) = 0) as Hz by lia. split; [done|].
  cbn in S2. apply NoDup_cons in S2 as [S2 S2']. apply Forall_cons in S3 as [_ S3], S4 as [_ S4].
  destruct S1 as [_ S1]. rewrite content_cons, string_length_app in S1, Hh.
  assert (Forall2 same_block (nx :: l) (add_ref 1 nx :: l)) as Hsame by (constructor; [done|apply same_blocks_refl]).
  assert (∀ r id, r ∈ rs → ref_repl_buf_node r = Some id → id ≠ block_id fo) as Hnot.
  { intros r id Hin Hid ->. pose proof (refs_pos rs r _ Hin Hid). lia. }
  assert (∀ b, b ∈ (nx :: l) → ∃ b', b' ∈ (add_ref 1 nx :: l) ∧ same_block b b') as Hin'.
  { intros b [->|Hb']%elem_of_cons; [exists (add_ref 1 nx); split; [by left|done]|exists b; split; [by right|done]]. }
  split; cbn [backlog_ref blocks_index histlen].
  - eapply same_shape; [exact Hsame|]. split; try done.
    replace (mro - slen (content (nx :: l)) + 1) with (mro - (slen (block_buf fo) + slen (content (nx :: l))) + 1 + slen (block_buf fo)) by lia.
    by replace (slen (block_buf fo) + slen (content (nx :: l))) with (Z.of_nat (String.length (block_buf fo) + String.length (content (nx :: l)))) by lia.
  - exists (gone +:+ block_buf fo). rewrite (same_content _ _ Hsame), Hg, content_cons. by rewrite string_app_assoc.
  - assert (add_ref 1 nx :: l = upd_block (block_id nx) (add_ref 1) (nx :: l)) as ->.
    { cbn. rewrite decide_True by done. f_equal. symmetry. apply upd_absent. by apply NoDup_cons in S2' as [? _]. }
    apply (counted_upd (refs rs)); [|intros x; unfold own; repeat case_decide; simplify_eq; lia].
    apply Forall_forall. intros b Hb'. rewrite Forall_forall in Hc. rewrite (Hc b Hb'). unfold own. rewrite decide_False; [lia|].
    intros [= Heq]. apply S2. rewrite Heq. change (block_id nx :: (block_id <$> l)) with (block_id <$> nx :: l).
    by apply list_elem_of_fmap_2.
  - done.
  - rewrite (same_content _ _ Hsame). unfold block_used in S5. lia.
  - intros k id [Hk Hin]%list_elem_of_filter. destruct (Hx k id Hin) as (b & [->|Hb']%elem_of_cons & Hid & Hk'); [by destruct Hk|].
    destruct (Hin' b Hb') as (b' & ? & A1 & A2 & _). exists b'. split_and!; [done|congruence|congruence].
  - apply Forall_forall. intros r Hin id Hid. rewrite Forall_forall in Hr. destruct (Hr r Hin id Hid) as (b & Hb' & Hbid & Hp).
    apply elem_of_cons in Hb' as [->|Hb']; [by destruct (Hnot r id Hin Hid)|].
    destruct (Hin' b Hb') as (b' & ? & A1 & _ & _ & A4). exists b'. unfold block_used in *. rewrite A4. split_and!; [done|congruence|done].
Qed.

Lemma trim_loop_spec max size hist next mro rs l bl : buffer_ok hist next mro rs l bl →
  ∃ l1 l2 l' bl', trim_loop max size l bl = Some (l', bl') ∧ buffer_ok hist next mro rs l' bl' ∧
    l = l1 ++ l2 ∧ Forall (λ b, refs rs (block_id b) = 0) l1 ∧ Forall2 same_block l2 l'.
Proof.
  revert l bl. induction max as [|max IH]; intros l bl H; cbn [trim_loop].
  { exists [], l, l, bl. split_and!; try done. apply same_blocks_refl. }
  assert (∃ l1 l2 l' bl', Some (l, bl) = Some (l', bl') ∧ buffer_ok hist next mro rs l' bl' ∧
    l = l1 ++ l2 ∧ Forall (λ b, refs rs (block_id b) = 0) l1 ∧ Forall2 same_block l2 l') as Hstay.
  { exists [], l, l, bl. split_and!; try done. apply same_blocks_refl. }
  destruct (size <? histlen bl); cbn [negb]; [|done]. destruct l as [|fo [|nx l]]; [done|done|].
  rewrite (bo_backlog _ _ _ _ _ _ H). cbn [head fmap option_fmap option_map]. rewrite bool_decide_true by done. cbn [negb].
  destruct (Z.eqb_spec (refcount fo) 1) as [E|E]; cbn [negb]; [|done].
  destruct (_ <=? size); [done|]. rewrite (proj1 (sh_packed _ _ _ (bo_shape _ _ _ _ _ _ H))), Nat.eqb_refl. cbn [negb].
  destruct (trim_one _ _ _ _ _ _ _ _ H E) as [Hz Hok].
  destruct (IH _ _ Hok) as (l1 & l2 & l' & bl' & -> & Hok' & Hl & Hl1 & Hsame).
  destruct l1 as [|b l1]; cbn [app] in Hl.
  - exists [fo], (nx :: l), l', bl'. split_and!; try done; [by constructor|].
    eapply same_blocks_trans; [|rewrite <- Hl in Hsame; exact Hsame]. constructor; [done|apply same_blocks_refl].
  - injection Hl as <- ->. exists (fo :: nx :: l1), l2, l', bl'. apply Forall_cons in Hl1 as [? ?]. split_and!; try done.
    by repeat constructor.
Qed.

(** *** Positions *)

Lemma block_ids hist next mro rs l bl : buffer_ok hist next mro rs l bl → NoDup (block_id <$> l).
Proof. intros H. apply H. Qed.

(** Replicas stay where they are while the blocks they refer to stay. *)
Lemma positions_kept m m' : slaves m' = slaves m →
  NoDup (block_id <$> repl_buffer_blocks m) → NoDup (block_id <$> repl_buffer_blocks m') →
  master_repl_offset m' = master_repl_offset m → Forall (refers_ok (repl_buffer_blocks m)) (slaves m) →
  (∀ r b, r ∈ slaves m → b ∈ repl_buffer_blocks m → ref_repl_buf_node r = Some (block_id b) →
     ∃ b', b' ∈ repl_buffer_blocks m' ∧ block_id b' = block_id b ∧ repl_offset b' = repl_offset b) →
  all_kept m m'.
Proof.
  intros Hsl N1 N2 Hmro Hr Hb. unfold all_kept. rewrite Hsl. apply Forall2_same_length_lookup. split; [done|].
  intros i r r' Hi Hi'. simplify_eq. apply list_elem_of_lookup_2 in Hi. split; try done. intros Ha.
  unfold position. destruct (ref_repl_buf_node r) as [id|] eqn:E; [|by rewrite Hmro].
  rewrite Forall_forall in Hr. destruct (Hr r Hi id E) as (b & Hin & <- & _).
  destruct (Hb r b Hi Hin E) as (b' & Hin' & E1 & E2).
  by rewrite (find_block_spec _ _ b N1 Hin eq_refl), (find_block_spec _ _ b' N2 Hin' E1), E2.
Qed.

Lemma same_block_in l l' b : Forall2 same_block l l' → b ∈ l → ∃ b', b' ∈ l' ∧ same_block b b'.
Proof.
  intros H Hb. apply list_elem_of_lookup in Hb as [i Hi]. eapply Forall2_lookup_l in H as (b' & Hi' & Hs); [|done].
  exists b'. split; [by apply list_elem_of_lookup_2 in Hi'|done].
Qed.

(** What operations other than feeding leave alone. *)
Definition same_stream (m m' : master) : Prop :=
  master_repl_offset m' = master_repl_offset m ∧ repl_backlog_size m' = repl_backlog_size m ∧ slaveseldb m' = slaveseldb m ∧
  replid m' = replid m ∧ replid2 m' = replid2 m ∧ second_replid_offset m' = second_replid_offset m.

Lemma trim_spec n base hist m bl : near_ok base hist m bl →
  ∃ m', incrementalTrimReplicationBacklog n m = Some m' ∧ repl_ok base hist m' ∧ all_kept m m' ∧
    slaves m' = slaves m ∧ same_stream m m'.
Proof.
  intros [Ho Hi Hbl Hb]. unfold incrementalTrimReplicationBacklog. rewrite Hbl. cbn [mbind option_bind].
  destruct (trim_loop_spec n (repl_backlog_size m) _ _ _ _ _ _ Hb) as (l1 & l2 & l' & bl' & -> & Hb' & Hl & Hl1 & Hsame).
  cbn [mbind option_bind]. eexists. split; [done|]. split.
  { eexists. split; [split; [done|done|done|]|done]. destruct Hb'. by split. }
  split; [|done]. apply positions_kept; try done; [by eapply block_ids|by eapply block_ids|apply Hb|].
  intros r b Hr Hin E. cbn [set_backlog set_blocks repl_buffer_blocks slaves] in *. rewrite Hl in Hin.
  apply elem_of_app in Hin as [Hin|Hin].
  - exfalso. rewrite Forall_forall in Hl1. pose proof (Hl1 b Hin). pose proof (refs_pos _ _ _ Hr E). lia.
  - destruct (same_block_in _ _ b Hsame Hin) as (b' & ? & ? & ? & _). by exists b'.
Qed.

(** *** Feeding *)

Definition full (l : list replBufBlock) : Prop := Forall (λ b, block_used b = block_size b) l.

Lemma packed_snoc l b : packed (l ++ [b]) ↔ full l ∧ (block_used b ≤ block_size b)%nat.
Proof.
  induction l as [|c l IH]; [split; [intros H; split; [constructor|exact H]|intros [_ H]; exact H]|]. unfold full in *. rewrite Forall_cons.
  destruct l as [|d l]; cbn [app packed] in *; tauto.
Qed.

Lemma offsets_snoc o l b : offsets o (l ++ [b]) ↔ offsets o l ∧ repl_offset b = o + slen (content l).
Proof.
  revert o. induction l as [|c l IH]; intros o; cbn [app offsets].
  - cbn. rewrite Z.add_0_r. tauto.
  - rewrite IH, content_cons, string_length_app. rewrite <- (and_assoc (repl_offset c = o)). f_equiv.
    assert (o + slen (block_buf c) + slen (content l) = o + Z.of_nat (String.length (block_buf c) + String.length (content l))) as -> by lia.
    done.
Qed.

(** The blocks while a round is under way: the backlog may not refer to them yet. *)
Record stored (hist : string) (next mro : Z) (rs : list replica) (l : list replBufBlock) (bl : replBacklog) : Prop := {
  st_shape : shape next mro l;
  st_content : ∃ gone, hist = gone +:+ content l;
  st_count : counted (λ id, refs rs id + own (backlog_ref bl) id) l;
  st_histlen : histlen bl = slen (content l);
  st_index : index_ok l (blocks_index bl);
  st_refers : Forall (refers_ok l) rs;
}.

Lemma buffer_stored hist next mro rs l bl :
  buffer_ok hist next mro rs l bl ↔ stored hist next mro rs l bl ∧ backlog_ref bl = block_id <$> head l.
Proof. split; [by intros []|]. intros [[] ?]. by split. Qed.

(** Blocks that were there are there still, and may have more bytes. *)
Definition grown (l l' : list replBufBlock) : Prop :=
  ∀ b, b ∈ l → ∃ b' s, b' ∈ l' ∧ block_id b' = block_id b ∧ repl_offset b' = repl_offset b ∧ block_buf b' = block_buf b +:+ s.

Lemma grown_refl l : grown l l.
Proof. intros b Hb. exists b, EmptyString. by rewrite string_app_nil_r. Qed.

Lemma grown_trans l l' l'' : grown l l' → grown l' l'' → grown l l''.
Proof.
  intros H1 H2 b Hb. destruct (H1 b Hb) as (b' & s & Hb' & E1 & E2 & E3). destruct (H2 b' Hb') as (b'' & s' & Hb'' & F1 & F2 & F3).
  exists b'', (s +:+ s'). split_and!; [done|congruence|congruence|]. by rewrite F3, E3, string_app_assoc.
Qed.

Lemma grown_same l l' : Forall2 same_block l l' → grown l l'.
Proof.
  intros H b Hb. destruct (same_block_in _ _ b H Hb) as (b' & ? & ? & ? & _ & E). exists b', EmptyString.
  by rewrite string_app_nil_r.
Qed.

Lemma grown_refers l l' r : grown l l' → refers_ok l r → refers_ok l' r.
Proof.
  intros Hg Hr id E. destruct (Hr id E) as (b & Hb & <- & Hp). destruct (Hg b Hb) as (b' & s & Hb' & E1 & _ & E3).
  exists b'. split_and!; [done|done|]. unfold block_used in *. rewrite E3, string_length_app. lia.
Qed.

Lemma grown_index l l' i : grown l l' → index_ok l i → index_ok l' i.
Proof.
  intros Hg Hi k id Hin. destruct (Hi k id Hin) as (b & Hb & E1 & E2). destruct (Hg b Hb) as (b' & s & Hb' & F1 & F2 & _).
  exists b'. split_and!; [done|congruence|congruence].
Qed.

(** A place in the blocks that is a given offset of the stream. *)
Definition at_offset (l : list replBufBlock) (start : Z * nat) (n : Z) : Prop :=
  ∃ b, b ∈ l ∧ block_id b = start.1 ∧ (start.2 ≤ block_used b)%nat ∧ repl_offset b + Z.of_nat start.2 = n.

Lemma at_offset_grown l l' start n : grown l l' → at_offset l start n → at_offset l' start n.
Proof.
  intros Hg (b & Hb & E1 & E2 & E3). destruct (Hg b Hb) as (b' & s & Hb' & F1 & F2 & F3). exists b'.
  split_and!; [done|congruence| |lia]. unfold block_used in *. rewrite F3, string_length_app. lia.
Qed.

Lemma Forall_last_other {A} (P : A → Prop) l a b : (P a → P b) → Forall P (l ++ [a]) → Forall P (l ++ [b]).
Proof. rewrite !Forall_app, !Forall_cons. tauto. Qed.

Lemma append_string hist gone c x : hist = gone +:+ c → hist +:+ x = gone +:+ (c +:+ x).
Proof. intros ->. by rewrite string_app_assoc. Qed.

Lemma fill_spec hist next mro rs l0 tail x bl : stored hist next mro rs (l0 ++ [tail]) bl →
  (String.length x ≤ block_size tail - block_used tail)%nat →
  stored (hist +:+ x) next (mro + slen x) rs (l0 ++ [fill_block x tail])
    (mkBacklog (backlog_ref bl) (unindexed_count bl) (blocks_index bl) (histlen bl + slen x) (backlog_offset bl)) ∧
  grown (l0 ++ [tail]) (l0 ++ [fill_block x tail]).
Proof.
  intros [[S1 S2 S3 S4 S5] [gone Hg] Hc Hh Hx Hr] Hlen.
  assert (grown (l0 ++ [tail]) (l0 ++ [fill_block x tail])) as Hgr.
  { intros b [Hb|Hb%list_elem_of_singleton]%elem_of_app.
    - exists b, EmptyString. rewrite string_app_nil_r. split_and!; try done. apply elem_of_app. by left.
    - subst b. exists (fill_block x tail), x. split_and!; try done. apply elem_of_app. right. by left. }
  assert (content (l0 ++ [fill_block x tail]) = content (l0 ++ [tail]) +:+ x) as Hcon.
  { rewrite !content_app, !content_cons. cbn. by rewrite !string_app_nil_r, string_app_assoc. }
  split; [|done]. split; cbn [backlog_ref blocks_index histlen].
  - split.
    + rewrite Hcon, string_length_app. apply offsets_snoc in S1 as [S1 S1']. apply offsets_snoc. cbn [fill_block repl_offset].
      replace (mro + slen x - Z.of_nat (String.length (content (l0 ++ [tail])) + String.length x) + 1)
        with (mro - slen (content (l0 ++ [tail])) + 1) by lia. done.
    + by rewrite fmap_app in *.
    + by eapply Forall_last_other; [|exact S3].
    + eapply Forall_last_other; [|exact S4]. cbn. by destruct (block_buf tail).
    + apply packed_snoc in S5 as [S5 S5']. apply packed_snoc. split; [done|]. unfold block_used in *. cbn [fill_block block_buf block_size].
      rewrite string_length_app. lia.
  - exists gone. rewrite Hcon. by apply append_string.
  - by eapply Forall_last_other; [|exact Hc].
  - rewrite Hcon, string_length_app. lia.
  - by eapply grown_index.
  - eapply Forall_impl; [exact Hr|]. intros r. by apply grown_refers.
Qed.

(** Nobody refers to a block that is not there. *)
Lemma refs_absent l rs id : Forall (refers_ok l) rs → (id ∉ block_id <$> l) → refs rs id = 0.
Proof.
  intros Hr Hid. induction Hr as [|r rs H _ IH]; [done|]. cbn. rewrite IH. unfold refers. rewrite decide_False; [done|].
  intros E. destruct (H id E) as (b & Hb & <- & _). apply Hid. by apply list_elem_of_fmap_2.
Qed.

Lemma own_head l id : (id ∉ block_id <$> l) → own (block_id <$> head l) id = 0.
Proof.
  intros Hid. unfold own. rewrite decide_False; [done|]. destruct l as [|b l]; cbn; [done|]. intros [= <-]. apply Hid. by left.
Qed.

Lemma next_absent next mro l : shape next mro l → next ∉ block_id <$> l.
Proof.
  intros H Hin. apply list_elem_of_fmap in Hin as (b & -> & Hb). pose proof (sh_next _ _ _ H) as Hn.
  rewrite Forall_forall in Hn. specialize (Hn b Hb). lia.
Qed.

Lemma add_spec hist next mro rs l x size bl : buffer_ok hist next mro rs l bl → full l → x ≠ EmptyString →
  (String.length x ≤ size)%nat →
  let l' := l ++ [mkReplBlock 0 next (mro + 1) size x] in
  stored (hist +:+ x) (next + 1) (mro + slen x) rs l'
    (mkBacklog (backlog_ref bl) (unindexed_count bl) (blocks_index bl) (histlen bl + slen x) (backlog_offset bl)) ∧
  grown l l'.
Proof.
  intros H Hfull Hx Hlen l'. pose proof (next_absent _ _ _ (bo_shape _ _ _ _ _ _ H)) as Hnew.
  destruct H as [[S1 S2 S3 S4 S5] [gone Hg] Hc Hb Hh Hi Hr].
  assert (grown l l') as Hgr.
  { intros b Hb'. exists b, EmptyString. rewrite string_app_nil_r. split_and!; try done. apply elem_of_app. by left. }
  assert (content l' = content l +:+ x) as Hcon.
  { unfold l'. rewrite content_app, content_cons. cbn. by rewrite string_app_nil_r. }
  split; [|done]. split; cbn [backlog_ref blocks_index histlen].
  - split.
    + rewrite Hcon, string_length_app. apply offsets_snoc. cbn [repl_offset].
      replace (mro + slen x - Z.of_nat (String.length (content l) + String.length x) + 1) with (mro - slen (content l) + 1) by lia.
      split; [done|lia].
    + unfold l'. rewrite fmap_app. apply NoDup_app. split_and!; [done| |apply NoDup_singleton].
      intros id Hid Hin%list_elem_of_singleton. cbn in Hin. by subst.
    + apply Forall_app. split; [eapply Forall_impl; [exact S3|]; cbn; lia|]. constructor; [cbn; lia|done].
    + apply Forall_app. split; [done|]. by constructor.
    + apply packed_snoc. done.
  - exists gone. rewrite Hcon. by apply append_string.
  - apply Forall_app. split; [done|]. constructor; [|done]. cbn. rewrite Hb, (refs_absent l), own_head by done. done.
  - rewrite Hcon, string_length_app. lia.
  - by eapply grown_index.
  - eapply Forall_impl; [exact Hr|]. intros r. by apply grown_refers.
Qed.

(** What the loop over the replicas does to one of them. *)
Definition fed (start : Z * nat) (r r' : replica) : Prop :=
  let r1 := if canFeedReplicaReplBuffer r && bool_decide (ref_repl_buf_node r = None)
            then set_ref (Some start.1) start.2 r else r in
  r' = r1 ∨ r' = set_close_asap r1.

Lemma refs_fed_one start r (l : list replBufBlock) (over : master → replica → bool) n add m :
  let out := if negb (canFeedReplicaReplBuffer r) then (r, l)
        else
          let '(r, l) :=
            match ref_repl_buf_node r with
            | None => (set_ref (Some start.1) start.2 r, upd_block start.1 (add_ref 1) l)
            | Some _ => (r, l)
            end in
          (if (add : bool) && negb (close_asap r) && over m r then set_close_asap r else r, l) in
  counted (λ id, refers id r + n id) l →
  fed start r out.1 ∧ Forall2 same_block l out.2 ∧ counted (λ id, refers id out.1 + n id) out.2.
Proof.
  intros out Hc. subst out. unfold fed. destruct (canFeedReplicaReplBuffer r); cbn [negb andb].
  - destruct (ref_repl_buf_node r) as [id|] eqn:E.
    + rewrite bool_decide_false by done. cbn [fst snd]. destruct (_ && _); (split; [auto|]); (split; [apply same_blocks_refl|]); done.
    + rewrite bool_decide_true by done. cbn [fst snd].
      assert (counted (λ id, refers id (set_ref (Some start.1) start.2 r) + n id) (upd_block start.1 (add_ref 1) l)) as Hc'.
      { eapply counted_upd; [exact Hc|]. intros x. unfold refers. rewrite E. cbn. repeat case_decide; simplify_eq; lia. }
      destruct (_ && _); (split; [auto|]); (split; [by apply upd_same|]); done.
  - split; [auto|]. split; [apply same_blocks_refl|done].
Qed.

Lemma feed_slaves_spec over m start add rs : ∀ l n rs' l', counted (λ id, refs rs id + n id) l →
  feed_slaves over m start add rs l = (rs', l') →
  Forall2 (fed start) rs rs' ∧ Forall2 same_block l l' ∧ counted (λ id, refs rs' id + n id) l'.
Proof.
  induction rs as [|r rs IH]; intros l n rs' l' Hc; cbn [feed_slaves].
  { intros [= <- <-]. split; [done|]. split; [apply same_blocks_refl|done]. }
  pose proof (refs_fed_one start r l over (λ id, refs rs id + n id) add m) as H1. cbv zeta in H1.
  destruct (if negb (canFeedReplicaReplBuffer r) then _ else _) as [r1 l1]. cbn [fst snd] in H1.
  destruct H1 as (H1 & H2 & H3); [eapply counted_ext; [exact Hc|]; intros x; cbn; lia|].
  destruct (feed_slaves over m start add rs l1) as [rs2 l2] eqn:E. intros [= <- <-].
  destruct (IH l1 (λ id, refers id r1 + n id) rs2 l2) as (J1 & J2 & J3); [|exact E|].
  { eapply counted_ext; [exact H3|]. intros x. cbn. lia. }
  split; [by constructor|]. split; [by eapply same_blocks_trans|]. eapply counted_ext; [exact J3|]. intros x. cbn. lia.
Qed.

Section feed.
Variable usable : nat → nat.
Hypothesis usable_enough : ∀ n, (n ≤ usable n)%nat.
Variable over_limits : master → replica → bool.
#[local] Set Default Proof Using "Type".

Lemma new_block_positive m n : (0 < new_block_size usable m n)%nat.
Proof using usable_enough.
  unfold new_block_size, REPLY_CHUNK_BYTES. set (k := Nat.min _ _). pose proof (usable_enough (k + 40)).
  assert (0 < k)%nat; [|lia]. unfold k. change (Z.to_nat (16 * 1024)) with (Pos.to_nat 16384). lia.
Qed.

(** Everything but the blocks, the backlog, the offset and the replicas. *)
Definition same_setting (m m' : master) : Prop :=
  repl_backlog_size m' = repl_backlog_size m ∧ slaveseldb m' = slaveseldb m ∧
  replid m' = replid m ∧ replid2 m' = replid2 m ∧ second_replid_offset m' = second_replid_offset m.

(** [n] bytes of [s] have been copied. *)
Record copied (hist : string) (m : master) (bl : replBacklog) (x : string) (m' : master) (bl' : replBacklog) (start : Z * nat) (add : bool) : Prop := {
  cp_stored : stored (hist +:+ x) (repl_block_id m') (master_repl_offset m') (slaves m) (repl_buffer_blocks m') bl';
  cp_backlog : repl_backlog m' = Some bl' ∧ backlog_ref bl' = backlog_ref bl ∧ backlog_offset bl' = backlog_offset bl ∧
    histlen bl' = histlen bl + slen x;
  cp_slaves : slaves m' = slaves m;
  cp_offset : master_repl_offset m' = master_repl_offset m + slen x;
  cp_grown : grown (repl_buffer_blocks m) (repl_buffer_blocks m');
  cp_start : at_offset (repl_buffer_blocks m') start (master_repl_offset m + 1);
  cp_first : backlog_ref bl = None → add = true ∧ start.2 = 0%nat ∧ head (block_id <$> repl_buffer_blocks m') = Some start.1;
  cp_head : backlog_ref bl ≠ None → block_id <$> head (repl_buffer_blocks m') = block_id <$> head (repl_buffer_blocks m);
  cp_setting : same_setting m m';
}.

Lemma upd_last l0 (tail : replBufBlock) f : NoDup (block_id <$> l0 ++ [tail]) →
  upd_block (block_id tail) f (l0 ++ [tail]) = l0 ++ [f tail].
Proof.
  rewrite fmap_app. intros (_ & H & _)%NoDup_app. rewrite upd_app, upd_absent.
  - cbn. by rewrite decide_True.
  - intros Hin. apply (H _ Hin). by left.
Qed.

Lemma add_copied base hist m bl s : near_ok base hist m bl → full (repl_buffer_blocks m) → s ≠ EmptyString →
  ∃ n bl', (0 < n ≤ String.length s)%nat ∧ (add_block usable m bl s).2 = sdrop n s ∧
    copied hist m bl (stake n s) (add_block usable m bl s).1 bl' (repl_block_id m, 0%nat) true.
Proof using usable_enough.
  intros [Ho Hi Hbl Hb] Hfull Hs. set (size := new_block_size usable m (String.length s)).
  pose proof (new_block_positive m (String.length s)) as Hsz. fold size in Hsz.
  set (n := if (String.length s <=? size)%nat then String.length s else size).
  assert (0 < String.length s)%nat as Hpos by (destruct s; [done|cbn; lia]).
  assert (0 < n ≤ String.length s ∧ n ≤ size)%nat as [Hn Hns] by (unfold n; destruct (Nat.leb_spec (String.length s) size); lia).
  assert (String.length (stake n s) = n) as Hlen by (rewrite stake_length; lia).
  destruct (add_spec hist _ _ _ _ (stake n s) size bl Hb Hfull) as [Hst Hgr]; [intros E; rewrite E in Hlen; cbn in Hlen; lia|lia|].
  exists n, (mkBacklog (backlog_ref bl) (unindexed_count bl) (blocks_index bl) (histlen bl + slen (stake n s)) (backlog_offset bl)).
  split; [done|]. unfold add_block. fold size. fold n. cbn [fst snd]. split; [done|]. cbn in Hst, Hgr.
  unfold count_bytes. assert (Z.of_nat n = slen (stake n s)) as -> by lia.
  split; cbn; try done.
  - eexists. split; [apply elem_of_app; right; by left|]. cbn. split_and!; [done|lia|lia].
  - intros E. pose proof (bo_backlog _ _ _ _ _ _ Hb) as Hh. rewrite E in Hh. by destruct (repl_buffer_blocks m).
  - intros E. pose proof (bo_backlog _ _ _ _ _ _ Hb) as Hh. by destruct (repl_buffer_blocks m); [rewrite Hh in E|].
Qed.

Lemma stake_plus n k s : stake (n + k) s = stake n s +:+ stake k (sdrop n s).
Proof. revert s. induction n as [|n IH]; intros [|c s]; cbn; [done|done|by destruct k|by rewrite IH]. Qed.

Lemma last_split {A} (l : list A) x : last l = Some x → ∃ l0, l = l0 ++ [x].
Proof. apply last_Some. Qed.

(** The part that fits into the last block. *)
Lemma append_copied base hist m bl s l0 tail : near_ok base hist m bl → repl_buffer_blocks m = l0 ++ [tail] →
  (block_used tail < block_size tail)%nat → s ≠ EmptyString →
  ∃ n m' bl', (0 < n ≤ String.length s)%nat ∧ append_tail m bl s = (m', sdrop n s, Some (block_id tail, block_used tail)) ∧
    copied hist m bl (stake n s) m' bl' (block_id tail, block_used tail) false ∧ near_ok base (hist +:+ stake n s) m' bl' ∧
    (sdrop n s ≠ EmptyString → full (repl_buffer_blocks m')).
Proof.
  clear usable_enough usable. intros [Ho Hi Hbl Hb] Hl Hroom Hs. set (avail := (block_size tail - block_used tail)%nat).
  set (n := if (String.length s <=? avail)%nat then String.length s else avail).
  assert (0 < String.length s)%nat as Hpos by (destruct s; [done|cbn; lia]).
  assert (0 < n ≤ String.length s ∧ n ≤ avail ∧ (n = avail ∨ n = String.length s))%nat as (Hn & Hns & Hor).
  { unfold n. destruct (Nat.leb_spec (String.length s) avail); unfold avail in *; lia. }
  assert (String.length (stake n s) = n) as Hlen by (rewrite stake_length; lia).
  pose proof Hb as Hb0. rewrite Hl in Hb. apply buffer_stored in Hb as [Hst Hhead].
  destruct (fill_spec _ _ _ _ _ _ (stake n s) _ Hst) as [Hst' Hgr]; [fold avail; lia|].
  set (bl' := mkBacklog _ _ _ _ _) in Hst'.
  assert (NoDup (block_id <$> l0 ++ [tail])) as Hnd by (rewrite <- Hl; apply Hb0).
  exists n, (count_bytes n bl (set_blocks (l0 ++ [fill_block (stake n s) tail]) m)), bl'. split; [done|].
  assert (block_id <$> head (l0 ++ [fill_block (stake n s) tail]) = block_id <$> head (l0 ++ [tail])) as Hhd by (by destruct l0).
  unfold count_bytes. replace (Z.of_nat n) with (slen (stake n s)) by lia. split.
  { unfold append_tail. rewrite Hl, last_snoc. rewrite (proj2 (Nat.ltb_lt _ _)) by done. fold avail. fold n.
    unfold count_bytes. rewrite upd_last by done. by replace (Z.of_nat n) with (slen (stake n s)) by lia. }
  split.
  { split; cbn; try done; [by rewrite Hl| | |by rewrite Hl].
    - eexists. split; [apply elem_of_app; right; by left|]. unfold block_used. cbn. rewrite string_length_app. split_and!; [done|lia|].
      pose proof (sh_offsets _ _ _ (st_shape _ _ _ _ _ _ Hst)) as Hoff. apply offsets_snoc in Hoff as [_ Hoff].
      rewrite Hoff, content_app, content_cons, !string_length_app. cbn. lia.
    - intros E. rewrite E in Hhead. by destruct l0. }
  split.
  { split; cbn; try done; [rewrite string_length_app; lia|]. apply buffer_stored. split; [done|]. cbn. by rewrite Hhd. }
  intros Hrest. cbn. pose proof (sh_packed _ _ _ (st_shape _ _ _ _ _ _ Hst)) as [Hp1 Hp2]%packed_snoc.
  apply Forall_app. split; [done|]. constructor; [|done]. unfold block_used. cbn. rewrite string_length_app.
  destruct Hor as [Hor|Hor]; [unfold avail, block_used in *; lia|]. destruct Hrest. apply string_length_zero.
  rewrite sdrop_length. lia.
Qed.

Lemma copied_trans base hist m bl x m1 bl1 start add y m2 bl2 start' :
  near_ok base hist m bl → backlog_ref bl ≠ None →
  copied hist m bl x m1 bl1 start add → copied (hist +:+ x) m1 bl1 y m2 bl2 start' true →
  copied hist m bl (x +:+ y) m2 bl2 start true.
Proof.
  clear usable_enough usable. intros Hn Hne [A1 (A2 & A3 & A4 & A5) A6 A7 A8 A9 A10 A11 A12] [B1 (B2 & B3 & B4 & B5) B6 B7 B8 B9 B10 B11 B12].
  split; try done.
  - rewrite <- string_app_assoc in B1. by rewrite A6 in B1.
  - split_and!; [done|congruence|congruence|]. rewrite string_length_app. lia.
  - congruence.
  - rewrite string_length_app. lia.
  - by eapply grown_trans.
  - by eapply at_offset_grown.
  - intros _. rewrite B11, A11 by congruence. done.
  - destruct A12 as (?&?&?&?&?), B12 as (?&?&?&?&?). split_and!; congruence.
Qed.

Lemma copy_bytes_spec base hist m bl s : near_ok base hist m bl → s ≠ EmptyString →
  ∃ n m' bl' start add, (0 < n ≤ String.length s)%nat ∧ copy_bytes usable m bl s = Some (m', sdrop n s, Some start, add) ∧
    copied hist m bl (stake n s) m' bl' start add.
Proof using usable_enough.
  intros Hok Hs. unfold copy_bytes.
  assert (append_tail m bl s = (m, s, None) → full (repl_buffer_blocks m) →
    ∃ n m' bl' start add, (0 < n ≤ String.length s)%nat ∧
      (let '(m, s, start) := append_tail m bl s in
       match s with
       | EmptyString => Some (m, s, start, false)
       | _ => bl ← repl_backlog m; let '(m', s') := add_block usable m bl s in
              Some (m', s', Some (default (repl_block_id m, 0%nat) start), true)
       end) = Some (m', sdrop n s, Some start, add) ∧ copied hist m bl (stake n s) m' bl' start add) as Hadd.
  { intros E Hf. rewrite E. destruct (add_copied base hist m bl s Hok Hf Hs) as (n & bl' & Hn & E2 & Hc).
    exists n, (add_block usable m bl s).1, bl', (repl_block_id m, 0%nat), true. split; [done|]. split; [|done].
    rewrite (ro_backlog _ _ _ _ Hok). rewrite <- E2. cbn [mbind option_bind]. destruct (add_block usable m bl s). by destruct s. }
  destruct (last (repl_buffer_blocks m)) as [tail|] eqn:Elast.
  2:{ apply last_None in Elast. apply Hadd; [unfold append_tail; by rewrite Elast|rewrite Elast; constructor]. }
  destruct (last_split _ _ Elast) as [l0 Hl]. pose proof (ro_buffer _ _ _ _ Hok) as Hb.
  pose proof (sh_packed _ _ _ (bo_shape _ _ _ _ _ _ Hb)) as Hpk. rewrite Hl in Hpk. apply packed_snoc in Hpk as [Hp1 Hp2].
  destruct (decide (block_used tail < block_size tail)%nat) as [Hroom|Hroom].
  2:{ apply Hadd; [unfold append_tail; rewrite Elast; by rewrite (proj2 (Nat.ltb_ge _ _)) by lia|].
      rewrite Hl. apply Forall_app. split; [done|]. constructor; [lia|done]. }
  clear Hadd. destruct (append_copied base hist m bl s l0 tail Hok Hl Hroom Hs) as (n & m1 & bl1 & Hn & -> & Hc & Hok1 & Hf).
  destruct (sdrop n s) as [|c rest] eqn:Erest.
  { exists n, m1, bl1, (block_id tail, block_used tail), false. rewrite Erest. done. }
  rewrite <- Erest in *. assert (sdrop n s ≠ EmptyString) as Hne by (by rewrite Erest).
  destruct (add_copied base _ m1 bl1 (sdrop n s) Hok1 (Hf Hne) Hne) as (k & bl2 & Hk & E2 & Hc2).
  rewrite sdrop_length in Hk. destruct (add_block usable m1 bl1 (sdrop n s)) as [m2 s2] eqn:E. cbn [fst snd] in E2, Hc2. subst s2.
  exists (n + k)%nat, m2, bl2, (block_id tail, block_used tail), true. split; [lia|]. split.
  - destruct (sdrop n s) as [|c' rest'] eqn:Erest'; [done|]. rewrite (ro_backlog _ _ _ _ Hok1). cbn [mbind option_bind].
    rewrite E. cbn. by rewrite <- Erest', sdrop_sdrop.
  - rewrite stake_plus. eapply copied_trans; [exact Hok| |exact Hc|exact Hc2].
    rewrite (bo_backlog _ _ _ _ _ _ Hb), Hl. by destruct l0.
Qed.

(** *** A round of feeding *)

Lemma fed_refers l start n r r' : at_offset l start n → refers_ok l r → fed start r r' → refers_ok l r'.
Proof.
  intros (b & Hb & E1 & E2 & _) Hr [->| ->] id; (destruct (_ && _); [cbn; intros [= <-]; by exists b|by apply Hr]).
Qed.

Lemma fed_kept m m' start r r' : NoDup (block_id <$> repl_buffer_blocks m) → NoDup (block_id <$> repl_buffer_blocks m') →
  refers_ok (repl_buffer_blocks m) r → grown (repl_buffer_blocks m) (repl_buffer_blocks m') →
  at_offset (repl_buffer_blocks m') start (master_repl_offset m + 1) → fed start r r' → kept m m' r r'.
Proof.
  clear usable_enough usable. intros N1 N2 Hr Hg (b & Hb & E1 & _ & E3) Hf.
  assert (active r → ref_repl_buf_node r' ≠ None ∧ position m' r' = position m r) as Ha.
  { intros Ha. unfold position. destruct (ref_repl_buf_node r) as [id|] eqn:E.
    - assert (ref_repl_buf_node r' = Some id ∧ ref_block_pos r' = ref_block_pos r) as [-> ->].
      { destruct Hf as [->| ->]; rewrite bool_decide_false, andb_false_r by (by rewrite E); done. }
      split; [done|]. destruct (Hr id E) as (c & Hc & Ec & _). destruct (Hg c Hc) as (c' & s & Hc' & F1 & F2 & _).
      rewrite (find_block_spec id _ c N1 Hc Ec), (find_block_spec id _ c' N2 Hc') by congruence. by rewrite F2.
    - destruct Ha as [Ha|Ha]; [|done].
      assert (ref_repl_buf_node r' = Some start.1 ∧ ref_block_pos r' = start.2) as [-> ->].
      { destruct Hf as [->| ->]; rewrite Ha, bool_decide_true by done; done. }
      split; [done|]. by rewrite (find_block_spec _ _ b N2 Hb E1). }
  assert (active r' → active r) as Hback.
  { destruct (canFeedReplicaReplBuffer r && bool_decide (ref_repl_buf_node r = None)) eqn:Ec.
    - intros _. left. by apply andb_prop in Ec as [? _].
    - unfold fed in Hf. rewrite Ec in Hf. destruct Hf as [->| ->]; [done|]. intros [Hc|Hc]; [|by right].
      unfold canFeedReplicaReplBuffer in Hc. cbn in Hc. by rewrite andb_false_r in Hc. }
  assert (active r' ↔ active r) as Hiff by (split; [done|]; intros Hact; right; by apply Ha).
  assert (active r → position m' r' = position m r) as Hpos by (intros Hact; by apply Ha).
  clear -Hf Hiff Hpos. destruct Hf as [->| ->]; (destruct (_ && _); split; done).
Qed.

(** What a step leaves alone. *)
Lemma same_setting_refl m : same_setting m m.
Proof. done. Qed.

Lemma same_setting_trans m m' m'' : same_setting m m' → same_setting m' m'' → same_setting m m''.
Proof. intros (?&?&?&?&?) (?&?&?&?&?). split_and!; congruence. Qed.

(** The backlog refers to the first block again. *)
Lemma feed_backlog_spec hist m bl start add :
  stored hist (repl_block_id m) (master_repl_offset m) (slaves m) (repl_buffer_blocks m) bl → repl_backlog m = Some bl →
  (backlog_ref bl = None → add = true ∧ start.2 = 0%nat ∧ head (block_id <$> repl_buffer_blocks m) = Some start.1) →
  (backlog_ref bl ≠ None → backlog_ref bl = block_id <$> head (repl_buffer_blocks m)) →
  ∃ m' bl', feed_backlog start add m = Some m' ∧ repl_backlog m' = Some bl' ∧
    buffer_ok hist (repl_block_id m') (master_repl_offset m') (slaves m') (repl_buffer_blocks m') bl' ∧
    Forall2 same_block (repl_buffer_blocks m) (repl_buffer_blocks m') ∧ slaves m' = slaves m ∧
    master_repl_offset m' = master_repl_offset m ∧ same_setting m m' ∧ backlog_offset bl' = backlog_offset bl ∧
    histlen bl' = histlen bl.
Proof.
  clear usable_enough usable. intros Hst Hbl Hnone Hsome. unfold feed_backlog. rewrite Hbl. cbn [mbind option_bind].
  destruct (backlog_ref bl) as [id|] eqn:E.
  { exists m, bl. split_and!; try done; [|apply same_blocks_refl]. apply buffer_stored. split; [done|]. rewrite E. by apply Hsome. }
  destruct (Hnone eq_refl) as (-> & -> & Hh). cbn [andb negb Nat.eqb]. do 2 eexists. split; [done|].
  assert (Forall2 same_block (repl_buffer_blocks m) (upd_block start.1 (add_ref 1) (repl_buffer_blocks m))) as Hsame by (by apply upd_same).
  split; [done|]. cbn. split_and!; try done. destruct Hst as [S1 [gone S2] S3 S4 S5 S6]. split; cbn.
  - by eapply same_shape.
  - exists gone. by rewrite (same_content _ _ Hsame).
  - eapply counted_upd; [exact S3|]. intros x. rewrite E. unfold own. repeat case_decide; simplify_eq; lia.
  - pose proof (same_ids _ _ Hsame) as Hids. rewrite <- Hids in Hh.
    destruct (upd_block start.1 _ _); [done|]. cbn in *. congruence.
  - by rewrite (same_content _ _ Hsame).
  - eapply grown_index; [by apply grown_same|done].
  - eapply Forall_impl; [exact S6|]. intros r. apply grown_refers. by apply grown_same.
Qed.

Lemma index_insert_elem k v l e : e ∈ index_insert k v l → e = (k, v) ∨ e ∈ l.
Proof.
  induction l as [|[k' v'] l IH]; cbn; [intros ?%list_elem_of_singleton; by left|].
  destruct (k <? k'); [intros [?|?]%elem_of_cons; [by left|by right]|]. destruct (k =? k').
  - intros [?|?]%elem_of_cons; [by left|right; by right].
  - intros [->|H]%elem_of_cons; [right; by left|]. destruct (IH H); [by left|right; by right].
Qed.

Lemma index_block_ok hist next mro rs l bl b : buffer_ok hist next mro rs l bl → b ∈ l →
  buffer_ok hist next mro rs l (createReplicationBacklogIndex b bl).
Proof.
  intros [H1 H2 H3 H4 H5 H6 H7] Hb. unfold createReplicationBacklogIndex. destruct (_ <=? _); split; try done.
  intros k id [[= -> ->]|Hin]%index_insert_elem; [by exists b|by apply H6].
Qed.

Lemma buffer_nonempty hist next mro rs l bl : buffer_ok hist next mro rs l bl → 0 < histlen bl → ∃ l0 b, l = l0 ++ [b].
Proof.
  intros H. rewrite (bo_histlen _ _ _ _ _ _ H). destruct l as [|b l _] using rev_ind; [cbn; lia|]. by eauto.
Qed.

Lemma head_ids (l : list replBufBlock) : block_id <$> head l = head (block_id <$> l).
Proof. by destruct l. Qed.

(** The replicas and the backlog take note of the bytes that were copied. *)
Lemma feed_refs_spec base hist m bl x m1 bl1 start add :
  near_ok base hist m bl → copied hist m bl x m1 bl1 start add →
  ∃ m3 bl3, (let '(rs, l) := feed_slaves over_limits m1 start add (slaves m1) (repl_buffer_blocks m1) in
             feed_backlog start add (set_slaves rs (set_blocks l m1))) = Some m3 ∧
    near_ok base (hist +:+ x) m3 bl3 ∧ all_kept m m3 ∧ same_setting m m3 ∧
    backlog_offset bl3 = backlog_offset bl ∧ histlen bl3 = histlen bl + slen x.
Proof.
  clear usable_enough usable. intros [Ho Hi Hbl Hb] [C1 (C2 & C3 & C4 & C5) C6 C7 C8 C9 C10 C11 C12].
  destruct (feed_slaves over_limits m1 start add (slaves m1) (repl_buffer_blocks m1)) as [rs l] eqn:E.
  pose proof (st_count _ _ _ _ _ _ C1) as Hc. rewrite <- C6 in Hc.
  destruct (feed_slaves_spec _ _ _ _ _ _ _ _ _ Hc E) as (F1 & F2 & F3). rewrite C6 in F1.
  pose proof (at_offset_grown _ _ _ _ (grown_same _ _ F2) C9) as Hat.
  pose proof (same_ids _ _ F2) as Hids.
  destruct (feed_backlog_spec (hist +:+ x) (set_slaves rs (set_blocks l m1)) bl1 start add) as
    (m3 & bl3 & E3 & B1 & B2 & B3 & B4 & B5 & B6 & B7 & B8); cbn; try done.
  { destruct C1 as [S1 [gone S2] S3 S4 S5 S6]. split; cbn; try done.
    - by eapply same_shape.
    - exists gone. by rewrite (same_content _ _ F2).
    - by rewrite (same_content _ _ F2).
    - eapply grown_index; [by apply grown_same|done].
    - apply Forall_forall. intros r' [i Hr']%list_elem_of_lookup. destruct (Forall2_lookup_r _ _ _ _ _ F1 Hr') as (r & Hr & Hf).
      eapply fed_refers; [exact Hat| |exact Hf]. eapply grown_refers; [by apply grown_same|].
      rewrite Forall_forall in S6. apply S6. by apply list_elem_of_lookup_2 in Hr. }
  { rewrite C3. intros Hn. rewrite Hids. by apply C10. }
  { rewrite C3. intros Hn. rewrite head_ids, Hids, <- head_ids, C11 by done. apply Hb. }
  exists m3, bl3. split; [done|]. cbn in *.
  assert (all_kept m m3) as Hk.
  { unfold all_kept. rewrite B4. apply Forall2_same_length_lookup. split; [by eapply Forall2_length|].
    intros i r r' Hr Hr'. eapply fed_kept; [apply Hb|by eapply block_ids| | | |by eapply Forall2_lookup_lr].
    - pose proof (bo_refers _ _ _ _ _ _ Hb) as Hall. rewrite Forall_forall in Hall. apply Hall. by apply list_elem_of_lookup_2 in Hr.
    - eapply grown_trans; [exact C8|]. eapply grown_trans; apply grown_same; done.
    - eapply at_offset_grown; [by apply grown_same|done]. }
  split; [|split_and!; [done|by eapply same_setting_trans|congruence|lia]].
  split; [rewrite B5, string_length_app; lia| |done|by rewrite B4 in B2 |- *].
  rewrite (all_kept_ids _ _ Hk). done.
Qed.

(** The bytes [x] have been added to the stream. *)
Record streamed (base : Z) (hist x : string) (m m' : master) : Prop := {
  sd_ok : repl_ok base (hist +:+ x) m';
  sd_kept : all_kept m m';
  sd_setting : same_setting m m';
}.

Lemma streamed_nil base hist m : repl_ok base hist m → streamed base hist EmptyString m m.
Proof. split; [by rewrite string_app_nil_r|apply all_kept_refl|done]. Qed.

Lemma streamed_trans base hist x y m m' m'' :
  streamed base hist x m m' → streamed base (hist +:+ x) y m' m'' → streamed base hist (x +:+ y) m m''.
Proof.
  intros [H1 H2 H3] [J1 J2 J3]. split; [by rewrite string_app_assoc|by eapply all_kept_trans|by eapply same_setting_trans].
Qed.

Lemma option_bind_some {A B} (f : A → option B) x : (y ← Some x; f y) = f x.
Proof. done. Qed.

(** The last block gets its entry in the index, and the backlog is trimmed. *)
Lemma index_trim_spec base hist m bl : near_ok base hist m bl → 0 < histlen bl →
  ∃ tail m', last (repl_buffer_blocks m) = Some tail ∧
    incrementalTrimReplicationBacklog REPL_BACKLOG_TRIM_BLOCKS_PER_CALL (set_backlog (createReplicationBacklogIndex tail bl) m) = Some m' ∧
    repl_ok base hist m' ∧ all_kept m m' ∧ same_setting m m'.
Proof.
  clear usable_enough usable. intros Hok Hpos. pose proof (ro_buffer _ _ _ _ Hok) as Hb.
  destruct (buffer_nonempty _ _ _ _ _ _ Hb Hpos) as (l0 & b & Hl). exists b.
  assert (near_ok base hist (set_backlog (createReplicationBacklogIndex b bl) m) (createReplicationBacklogIndex b bl)) as Hok'.
  { destruct Hok as [A1 A2 A3 A4]. split; [exact A1|exact A2|done|]. apply index_block_ok; [exact A4|]. cbn. rewrite Hl. apply elem_of_app. right. by left. }
  destruct (trim_spec REPL_BACKLOG_TRIM_BLOCKS_PER_CALL _ _ _ _ Hok') as (m' & E & H1 & H2 & _ & _ & H4).
  exists m'. split; [rewrite Hl; apply last_snoc|]. split; [exact E|]. split; [exact H1|]. split; [|exact H4].
  eapply all_kept_trans; [|exact H2]. by apply all_kept_view.
Qed.

Lemma feed_round_eq m bl s m1 s1 start add m3 : copy_bytes usable m bl s = Some (m1, s1, Some start, add) →
  (let '(rs, l) := feed_slaves over_limits m1 start add (slaves m1) (repl_buffer_blocks m1) in
   feed_backlog start add (set_slaves rs (set_blocks l m1))) = Some m3 →
  feed_round usable over_limits m bl s =
    if add : bool then
      bl ← repl_backlog m3; tail ← last (repl_buffer_blocks m3);
      m ← incrementalTrimReplicationBacklog REPL_BACKLOG_TRIM_BLOCKS_PER_CALL (set_backlog (createReplicationBacklogIndex tail bl) m3);
      Some (m, s1)
    else Some (m3, s1).
Proof.
  intros E1 E3. unfold feed_round. rewrite E1. cbn [mbind option_bind].
  destruct (feed_slaves over_limits m1 start add (slaves m1) (repl_buffer_blocks m1)) as [rs l]. by rewrite E3.
Qed.

Lemma feed_round_spec base hist m bl s : near_ok base hist m bl → backlog_offset bl = master_repl_offset m - histlen bl + 1 →
  s ≠ EmptyString →
  ∃ n m', (0 < n ≤ String.length s)%nat ∧ feed_round usable over_limits m bl s = Some (m', sdrop n s) ∧
    streamed base hist (stake n s) m m'.
Proof using usable_enough.
  intros Hok Hoff Hs. destruct (copy_bytes_spec base hist m bl s Hok Hs) as (n & m1 & bl1 & start & add & Hn & E1 & Hc).
  destruct (feed_refs_spec _ _ _ _ _ _ _ _ _ Hok Hc) as (m3 & bl3 & E3 & Hok3 & Hk & Hset & Ho & Hh).
  rewrite (feed_round_eq _ _ _ _ _ _ _ _ E1 E3). exists n. destruct add.
  - assert (0 < histlen bl3) as Hpos.
    { rewrite Hh, stake_length, (bo_histlen _ _ _ _ _ _ (ro_buffer _ _ _ _ Hok)). lia. }
    destruct (index_trim_spec _ _ _ _ Hok3 Hpos) as (tail & m4 & El & E4 & H1 & H2 & H3).
    rewrite (ro_backlog _ _ _ _ Hok3), option_bind_some, El, option_bind_some, E4. exists m4.
    split; [done|]. split; [done|]. split; [done|by eapply all_kept_trans|by eapply same_setting_trans].
  - exists m3. split; [done|]. split; [done|]. split; [|done|done]. exists bl3. split; [done|].
    rewrite (ro_offset _ _ _ _ Hok3), string_length_app. pose proof (ro_offset _ _ _ _ Hok). lia.
Qed.

Lemma feed_loop_spec base : ∀ fuel hist m s, repl_ok base hist m → (String.length s ≤ fuel)%nat →
  ∃ m', feed_loop usable over_limits fuel m s = Some m' ∧ streamed base hist s m m'.
Proof using usable_enough.
  induction fuel as [|fuel IH]; intros hist m s Hok Hf.
  { destruct s; [|cbn in Hf; lia]. exists m. split; [done|by apply streamed_nil]. }
  destruct (decide (s = EmptyString)) as [->|Hs]; [exists m; split; [done|by apply streamed_nil]|].
  destruct Hok as (bl & Hok & Hoff). destruct (feed_round_spec base hist m bl s Hok Hoff Hs) as (n & m1 & Hn & E & H1).
  destruct (IH _ m1 (sdrop n s) (sd_ok _ _ _ _ _ H1)) as (m2 & E2 & H2); [rewrite sdrop_length; lia|].
  exists m2. split.
  - cbn [feed_loop]. destruct s; [done|]. rewrite (ro_backlog _ _ _ _ Hok). cbn [mbind option_bind]. rewrite E. done.
  - rewrite <- (stake_sdrop n s) at 1. by eapply streamed_trans.
Qed.

Lemma feedReplicationBuffer_spec base hist m s : repl_ok base hist m →
  ∃ m', feedReplicationBuffer usable over_limits s m = Some m' ∧ streamed base hist s m m'.
Proof using usable_enough.
  intros Hok. unfold feedReplicationBuffer. pose proof Hok as (bl & Hn & _). rewrite (ro_backlog _ _ _ _ Hn).
  by apply feed_loop_spec.
Qed.

Lemma feed_all_spec base l : ∀ hist m, repl_ok base hist m →
  ∃ m', feed_all usable over_limits l m = Some m' ∧ streamed base hist (stream l) m m'.
Proof using usable_enough.
  induction l as [|s l IH]; intros hist m Hok; cbn [feed_all]; [exists m; split; [done|by apply streamed_nil]|].
  destruct (feedReplicationBuffer_spec base hist m s Hok) as (m1 & -> & H1). cbn [mbind option_bind].
  destruct (IH _ m1 (sd_ok _ _ _ _ _ H1)) as (m2 & -> & H2). exists m2. split; [done|]. by eapply streamed_trans.
Qed.

(** *** Commands *)

Lemma arguments_stream argv :
  stream (argv ≫= λ a, ["$" +:+ pretty (String.length a) +:+ CRLF; a; CRLF]) = foldr (λ a r, bulk a +:+ r) EmptyString argv.
Proof.
  induction argv as [|a argv IH]; [done|]. rewrite bind_cons, stream_app, IH. unfold bulk. cbn [stream foldr].
  by rewrite string_app_nil_r, <- !string_app_assoc.
Qed.

Lemma command_stream argv : stream (command_pieces argv) = resp_request argv.
Proof.
  unfold command_pieces. change (stream (?x :: ?l)) with (x +:+ stream l). rewrite arguments_stream.
  unfold resp_request. by rewrite <- !string_app_assoc.
Qed.

Lemma select_stream dictid : select_command dictid = resp_request ["SELECT"; pretty dictid].
Proof. unfold select_command, resp_request, bulk. cbn [foldr length]. by rewrite string_app_nil_r, <- !string_app_assoc. Qed.

(** What is fed for a command: SELECT before it when it is for another database. *)
Definition fed_bytes (m : master) (dictid : Z) (argv : list string) : string :=
  (if negb (dictid =? -1) && negb (slaveseldb m =? dictid) then resp_request ["SELECT"; pretty dictid] else EmptyString) +:+
  resp_request argv.

Lemma slaveseldb_spec base hist m n : repl_ok base hist m → repl_ok base hist (set_slaveseldb n m).
Proof. intros (bl & [H1 H2 H3 H4] & H). exists bl. split; [by split|done]. Qed.

Lemma database_check dbnum dictid : dictid = -1 ∨ 0 ≤ dictid < dbnum →
  (dictid =? -1) || ((0 <=? dictid) && (dictid <? dbnum)) = true.
Proof. clear. lia. Qed.

Lemma replicationFeedSlaves_spec dbnum base hist m dictid argv : repl_ok base hist m → dictid = -1 ∨ 0 ≤ dictid < dbnum →
  ∃ m', replicationFeedSlaves usable over_limits dbnum dictid argv m = Some m' ∧
    repl_ok base (hist +:+ fed_bytes m dictid argv) m' ∧ all_kept m m'.
Proof using usable_enough.
  intros Hok Hd. unfold replicationFeedSlaves, fed_bytes. rewrite (database_check _ _ Hd). cbn [negb].
  pose proof Hok as (bl & Hn & _). rewrite (ro_backlog _ _ _ _ Hn). destruct (negb (dictid =? -1) && _).
  - destruct (feedReplicationBuffer_spec base hist m (select_command dictid) Hok) as (m1 & -> & [H1 H2 _]).
    cbn [mbind option_bind]. rewrite select_stream in H1.
    destruct (feed_all_spec base (command_pieces argv) _ _ (slaveseldb_spec _ _ _ dictid H1)) as (m2 & -> & [J1 J2 _]).
    exists m2. split; [done|]. rewrite command_stream in J1. rewrite string_app_assoc. split; [done|].
    eapply all_kept_trans; [exact H2|]. eapply all_kept_trans; [|exact J2]. by apply all_kept_view.
  - cbn [mbind option_bind]. destruct (feed_all_spec base (command_pieces argv) _ _ Hok) as (m2 & -> & [J1 J2 _]).
    exists m2. rewrite command_stream in J1. done.
Qed.
End feed.
