(* ===== verification/ReplicationStream.v ===== *)
(** * Every replica is sent the stream

    The events of a master that has replicas, in any order: commands, writes to
    the replicas, requests for partial and full synchronisation, snapshots that start
    and end, acknowledgements, clients that are freed, and the trimming and the
    freeing of the backlog.  Each keeps the invariant of [ReplicationSpec], so that
    no assertion of the code fails, and what was written to a replica is the
    stream from the offset that it was told, without a gap and without a
    byte that was sent twice. *)

From S2P Require Import Prelude CLib Buffers Hiredis Util Replication ReplicationSpec.

#[local] Abbreviation slen s := (Z.of_nat (String.length s)).

(** ** Replicas *)

Lemma find_replica_elem i m r : find_replica i m = Some r → r ∈ slaves m ∧ replica_id r = i.
Proof.
  unfold find_replica. intros H. assert (r ∈ filter (λ r, replica_id r = i) (slaves m)) as [? ?]%list_elem_of_filter; [|done].
  destruct (filter _ _); [done|]. cbn in H. simplify_eq. by left.
Qed.

Lemma find_replica_none i m : find_replica i m = None → i ∉ (replica_id <$> slaves m).
Proof.
  unfold find_replica. intros H (r & -> & Hr)%list_elem_of_fmap.
  assert (r ∈ filter (λ r', replica_id r' = replica_id r) (slaves m)) as Hin by (by apply list_elem_of_filter).
  destruct (filter _ _); [by apply elem_of_nil in Hin|done].
Qed.

Definition upd_one (i : nat) (f : replica → replica) (rs : list replica) : list replica :=
  (λ r, if decide (replica_id r = i) then f r else r) <$> rs.

Lemma upd_one_absent i f rs : i ∉ (replica_id <$> rs) → upd_one i f rs = rs.
Proof.
  intros H. unfold upd_one. rewrite <- (list_fmap_id rs) at 2. apply list_fmap_ext. intros k r Hr. cbn.
  rewrite decide_False; [done|]. intros <-. apply H, list_elem_of_fmap_2. by apply list_elem_of_lookup_2 in Hr.
Qed.

(** The replica with a number, and the others. *)
Lemma replica_split i m r : NoDup (replica_id <$> slaves m) → find_replica i m = Some r →
  ∃ rs1 rs2, slaves m = rs1 ++ r :: rs2 ∧ replica_id r = i ∧ (i ∉ replica_id <$> rs1) ∧ (i ∉ replica_id <$> rs2).
Proof.
  intros Hn [Hr <-]%find_replica_elem. apply list_elem_of_split in Hr as (rs1 & rs2 & E). exists rs1, rs2. split; [done|]. split; [done|].
  rewrite E, fmap_app, fmap_cons in Hn. apply NoDup_app in Hn as (_ & H1 & H2). apply NoDup_cons in H2 as [H2 _].
  split; [|done]. intros Hin. apply (H1 _ Hin). by left.
Qed.

Lemma upd_one_split i f rs1 r rs2 : replica_id r = i → (i ∉ replica_id <$> rs1) → (i ∉ replica_id <$> rs2) →
  upd_one i f (rs1 ++ r :: rs2) = rs1 ++ f r :: rs2.
Proof.
  intros <- H1 H2. unfold upd_one. rewrite fmap_app, fmap_cons. fold (upd_one (replica_id r) f rs1). fold (upd_one (replica_id r) f rs2).
  by rewrite !upd_one_absent, decide_True by done.
Qed.

(** ** The blocks and other replicas *)

Lemma buffer_refs hist next mro rs rs' l bl : buffer_ok hist next mro rs l bl → (∀ id, refs rs' id = refs rs id) →
  Forall (refers_ok l) rs' → buffer_ok hist next mro rs' l bl.
Proof.
  intros [H1 H2 H3 H4 H5 H6 _] Hr Hf. split; try done. eapply counted_ext; [exact H3|]. intros x. cbn. by rewrite Hr.
Qed.

Lemma buffer_ref_one hist next mro rs rs' l bl id n : buffer_ok hist next mro rs l bl →
  (∀ x, refs rs' x = refs rs x + (if decide (x = id) then n else 0)) → Forall (refers_ok l) rs' →
  buffer_ok hist next mro rs' (upd_block id (add_ref n) l) bl.
Proof.
  intros [H1 [gone H2] H3 H4 H5 H6 _] Hr Hf.
  assert (Forall2 same_block l (upd_block id (add_ref n) l)) as Hs by (by apply upd_same). pose proof (grown_same _ _ Hs) as Hg.
  split.
  - by eapply same_shape.
  - exists gone. by rewrite (same_content _ _ Hs).
  - eapply counted_upd; [exact H3|]. intros x. cbn. rewrite Hr. lia.
  - rewrite H4, !head_ids, (same_ids _ _ Hs). done.
  - by rewrite (same_content _ _ Hs).
  - by eapply grown_index.
  - eapply Forall_impl; [exact Hf|]. intros r. by apply grown_refers.
Qed.

Lemma refs_one rs1 r r' rs2 x : refs (rs1 ++ r' :: rs2) x = refs (rs1 ++ r :: rs2) x - refers x r + refers x r'.
Proof. rewrite !refs_app. cbn. lia. Qed.

(** ** Positions in the stream *)

(** The stretch of the stream that starts at an offset. *)
Definition from_offset (base : Z) (hist : string) (offset : Z) : string := sdrop (Z.to_nat (offset - base - 1)) hist.

Lemma content_split l1 b l2 : content (l1 ++ b :: l2) = content l1 +:+ block_buf b +:+ content l2.
Proof. by rewrite content_app, content_cons. Qed.

Lemma offsets_split o l1 b l2 : offsets o (l1 ++ b :: l2) → repl_offset b = o + slen (content l1) ∧ offsets (o + slen (content l1)) (b :: l2).
Proof.
  revert o. induction l1 as [|c l1 IH]; intros o; cbn [app].
  - cbn. rewrite Z.add_0_r. by intros [-> ?].
  - intros [_ H]. apply IH in H. rewrite content_cons, string_length_app.
    by replace (o + Z.of_nat (String.length (block_buf c) + String.length (content l1)))
      with (o + slen (block_buf c) + slen (content l1)) by lia.
Qed.

(** Where the bytes of a block are. *)
Lemma block_at base hist m bl l1 b l2 : near_ok base hist m bl → repl_buffer_blocks m = l1 ++ b :: l2 →
  ∃ pre, hist = pre +:+ block_buf b +:+ content l2 ∧ repl_offset b = base + 1 + slen pre.
Proof.
  intros [Ho _ _ [[S1 _ _ _ _] [gone Hg] _ _ _ _ _]] Hl. rewrite Hl in *. exists (gone +:+ content l1).
  rewrite content_split in *. split; [by rewrite Hg, <- string_app_assoc|]. apply offsets_split in S1 as [-> _].
  rewrite Ho, Hg, !string_length_app. lia.
Qed.

Lemma from_block_at base hist m bl l1 b l2 pos : near_ok base hist m bl → repl_buffer_blocks m = l1 ++ b :: l2 →
  (pos ≤ block_used b)%nat →
  from_offset base hist (repl_offset b + Z.of_nat pos) = sdrop pos (block_buf b) +:+ content l2.
Proof.
  intros Hok Hl Hp. destruct (block_at _ _ _ _ _ _ _ Hok Hl) as (pre & -> & ->). unfold from_offset.
  replace (Z.to_nat (base + 1 + slen pre + Z.of_nat pos - base - 1)) with (String.length pre + pos)%nat by lia.
  rewrite <- sdrop_sdrop, sdrop_app. apply sdrop_app_le. done.
Qed.

(** A replica as a step leaves it, [d] bytes further in the stream. *)
Record moved (d : Z) (m m' : master) (r r' : replica) : Prop := {
  mv_id : replica_id r' = replica_id r;
  mv_state : replstate r' = replstate r;
  mv_initial : psync_initial_offset r' = psync_initial_offset r;
  mv_wants : slave_capa r' = slave_capa r ∧ slave_req r' = slave_req r;
  mv_acks : repl_ack_off r' = repl_ack_off r ∧ repl_aof_off r' = repl_aof_off r;
  mv_active : active r' → active r;
  mv_position : active r' → position m' r' = position m r + d;
}.

Definition all_moved (d : replica → Z) (m m' : master) : Prop := Forall2 (λ r r', moved (d r) m m' r r') (slaves m) (slaves m').

Lemma kept_moved m m' r r' : kept m m' r r' → moved 0 m m' r r'.
Proof. intros [H1 (H2 & _ & H3) Hk Hw _ H4 H5]. split; try done; [by apply H4|]. intros Ha. rewrite H5 by (by apply H4). lia. Qed.

Lemma all_kept_moved m m' : all_kept m m' → all_moved (λ _, 0) m m'.
Proof. intros H. eapply Forall2_impl; [exact H|]. intros r r'. apply kept_moved. Qed.

Lemma moved_kept d m m' m'' r r' r'' : moved d m m' r r' → kept m' m'' r' r'' → moved d m m'' r r''.
Proof.
  intros [H1 H2 H3 [Hc Hq] [Ha1 Ha2] H4 H5] [J1 (J2 & _ & J3) [Ja1 Ja2] [Jc Jq] _ J4 J5].
  split; [congruence|congruence|congruence|split; congruence|split; congruence|by rewrite J4|].
  intros Ha. rewrite J4 in Ha. by rewrite J5, H5.
Qed.

Lemma all_moved_kept d m m' m'' : all_moved d m m' → all_kept m' m'' → all_moved d m m''.
Proof.
  intros H1 H2. pose proof (Forall2_length _ _ _ H1). pose proof (Forall2_length _ _ _ H2).
  apply Forall2_same_length_lookup. split; [congruence|]. intros i r r'' Hr Hr''.
  destruct (lookup_lt_is_Some_2 (slaves m') i) as [r' Hr']; [apply lookup_lt_Some in Hr; lia|].
  eapply moved_kept; [exact (Forall2_lookup_lr _ _ _ _ _ _ H1 Hr Hr')|exact (Forall2_lookup_lr _ _ _ _ _ _ H2 Hr' Hr'')].
Qed.

Lemma position_same m m' r r' : Forall2 same_block (repl_buffer_blocks m) (repl_buffer_blocks m') →
  NoDup (block_id <$> repl_buffer_blocks m) → master_repl_offset m' = master_repl_offset m →
  ref_repl_buf_node r' = ref_repl_buf_node r → ref_block_pos r' = ref_block_pos r → position m' r' = position m r.
Proof.
  intros Hs Hn Hm Hr Hp. unfold position. rewrite Hr, Hp, Hm. destruct (ref_repl_buf_node r) as [id|]; [|done].
  destruct (find_block id (repl_buffer_blocks m)) as [b|] eqn:E.
  - apply find_block_Some in E as [Hb <-]. destruct (same_block_in _ _ b Hs Hb) as (b' & Hb' & E1 & E2 & _).
    rewrite (find_block_spec _ _ b' ltac:(by rewrite (same_ids _ _ Hs)) Hb' E1). by rewrite E2.
  - destruct (find_block id (repl_buffer_blocks m')) as [b'|] eqn:E'; [|done]. apply find_block_Some in E' as [Hb' <-].
    apply (list_elem_of_fmap_2 block_id) in Hb'. rewrite (same_ids _ _ Hs) in Hb'. apply list_elem_of_fmap in Hb' as (b & Eb & Hb).
    by rewrite (find_block_spec _ _ b Hn Hb (eq_sym Eb)) in E.
Qed.

(** One replica has moved, and the counts with it. *)
Lemma all_moved_one d m m' rs1 r r' rs2 : slaves m = rs1 ++ r :: rs2 → slaves m' = rs1 ++ r' :: rs2 →
  NoDup (replica_id <$> slaves m) → NoDup (block_id <$> repl_buffer_blocks m) →
  Forall2 same_block (repl_buffer_blocks m) (repl_buffer_blocks m') → master_repl_offset m' = master_repl_offset m →
  moved d m m' r r' → all_moved (λ q, if decide (replica_id q = replica_id r) then d else 0) m m'.
Proof.
  intros Hl Hl' Hn Hnb Hs Hm Hr. unfold all_moved. rewrite Hl, Hl'. rewrite Hl, fmap_app, fmap_cons in Hn.
  apply NoDup_app in Hn as (_ & N1 & N2). apply NoDup_cons in N2 as [N2 _].
  assert (∀ rs : list replica, (replica_id r ∉ replica_id <$> rs) →
    Forall2 (λ q q', moved (if decide (replica_id q = replica_id r) then d else 0) m m' q q') rs rs) as Hother.
  { intros rs Hrs. apply Forall2_same_length_lookup. split; [done|]. intros k q q' Hq Hq'. simplify_eq.
    rewrite decide_False; [split; try done; intros _; rewrite Z.add_0_r; by apply position_same|].
    intros E. apply Hrs. rewrite <- E. apply list_elem_of_fmap_2. by apply list_elem_of_lookup_2 in Hq. }
  apply Forall2_app; [apply Hother; intros Hin; apply (N1 _ Hin); by left|]. constructor; [by rewrite decide_True|by apply Hother].
Qed.

(** ** Writing *)

Lemma replica_place base hist m bl r id : near_ok base hist m bl → r ∈ slaves m → ref_repl_buf_node r = Some id →
  ∃ l1 b l2, repl_buffer_blocks m = l1 ++ b :: l2 ∧ block_id b = id ∧ (ref_block_pos r ≤ block_used b)%nat ∧
    find_block id (repl_buffer_blocks m) = Some b ∧ next_block id (repl_buffer_blocks m) = head l2 ∧
    position m r = repl_offset b + Z.of_nat (ref_block_pos r).
Proof.
  intros [_ _ _ Hb] Hr Hid. pose proof (bo_refers _ _ _ _ _ _ Hb) as Hall. rewrite Forall_forall in Hall.
  destruct (Hall r Hr id Hid) as (b & Hin & <- & Hp). pose proof (block_ids _ _ _ _ _ _ Hb) as Hn.
  destruct (block_split _ _ b Hn Hin eq_refl) as (l1 & l2 & Hl & H1 & H2). exists l1, b, l2.
  pose proof (find_block_spec _ _ b Hn Hin eq_refl) as Hf. split_and!; try done.
  - rewrite Hl. by apply next_block_split.
  - unfold position. by rewrite Hid, Hf.
Qed.

(** The replica moves on in its block. *)
Lemma move_within base hist m bl i r id b pos : near_ok base hist m bl → find_replica i m = Some r →
  ref_repl_buf_node r = Some id → b ∈ repl_buffer_blocks m → block_id b = id → (pos ≤ block_used b)%nat →
  let m' := upd_replica i (set_ref (Some id) pos) m in
  near_ok base hist m' bl ∧
  all_moved (λ q, if decide (replica_id q = i) then Z.of_nat pos - Z.of_nat (ref_block_pos r) else 0) m m'.
Proof.
  intros [Ho Hi Hbl Hb] Hf Hid Hin Hbid Hp m'. destruct (replica_split _ _ _ Hi Hf) as (rs1 & rs2 & Hl & Hri & N1 & N2).
  assert (slaves m' = rs1 ++ set_ref (Some id) pos r :: rs2) as Hl'.
  { unfold m', upd_replica. cbn. rewrite Hl. by apply upd_one_split. }
  pose proof (bo_refers _ _ _ _ _ _ Hb) as Hrf. rewrite Hl in Hrf. apply Forall_app in Hrf as [R1 [R2 R3]%Forall_cons].
  split.
  - split; try done.
    + rewrite Hl'. rewrite Hl in Hi. by rewrite fmap_app in *.
    + rewrite Hl'. eapply buffer_refs; [exact Hb| |].
      * intros x. rewrite Hl, (refs_one rs1 r). unfold refers. cbn. rewrite Hid. lia.
      * apply Forall_app. split; [done|]. constructor; [|done]. intros x [= <-]. exists b. done.
  - rewrite <- Hri. eapply all_moved_one; try done; [by eapply block_ids|apply same_blocks_refl|].
    split; try done; [intros _; by right; rewrite Hid|]. intros _. unfold position. cbn. rewrite Hid.
    rewrite (find_block_spec _ _ b (block_ids _ _ _ _ _ _ Hb) Hin Hbid). lia.
Qed.

(** The replica moves on to the next block. *)
Lemma move_to_next base hist m bl i r l1 b nx l2 : near_ok base hist m bl → find_replica i m = Some r →
  ref_repl_buf_node r = Some (block_id b) → repl_buffer_blocks m = l1 ++ b :: nx :: l2 →
  let m' := upd_replica i (set_ref (Some (block_id nx)) 0)
              (set_blocks (upd_block (block_id nx) (add_ref 1) (upd_block (block_id b) (add_ref (-1)) (repl_buffer_blocks m))) m) in
  near_ok base hist m' bl ∧
  all_moved (λ q, if decide (replica_id q = i) then slen (block_buf b) - Z.of_nat (ref_block_pos r) else 0) m m'.
Proof.
  intros [Ho Hi Hbl Hb] Hf Hid Hblk m'. destruct (replica_split _ _ _ Hi Hf) as (rs1 & rs2 & Hl & Hri & N1 & N2).
  assert (slaves m' = rs1 ++ set_ref (Some (block_id nx)) 0 r :: rs2) as Hl'.
  { unfold m', upd_replica. cbn. rewrite Hl. by apply upd_one_split. }
  pose proof (bo_refers _ _ _ _ _ _ Hb) as Hrf. rewrite Hl in Hrf. apply Forall_app in Hrf as [R1 [R2 R3]%Forall_cons].
  set (l' := upd_block (block_id b) (add_ref (-1)) (repl_buffer_blocks m)).
  assert (Forall2 same_block (repl_buffer_blocks m) l') as S1 by (by apply upd_same).
  assert (Forall2 same_block l' (upd_block (block_id nx) (add_ref 1) l')) as S2 by (by apply upd_same).
  pose proof (same_blocks_trans _ _ _ S1 S2) as S3. pose proof (block_ids _ _ _ _ _ _ Hb) as Hnb.
  assert (nx ∈ repl_buffer_blocks m) as Hnx by (rewrite Hblk; apply elem_of_app; right; right; by left).
  assert (b ∈ repl_buffer_blocks m) as Hbm by (rewrite Hblk; apply elem_of_app; right; by left).
  split.
  - split; try done; [rewrite Hl'; rewrite Hl in Hi; by rewrite fmap_app in *|]. rewrite Hl'. cbn.
    apply (buffer_ref_one _ _ _ (rs1 ++ set_ref None 0 r :: rs2)).
    + apply (buffer_ref_one _ _ _ (slaves m)); [done| |].
      * intros x. rewrite Hl, (refs_one rs1 r). unfold refers. cbn. rewrite Hid. repeat case_decide; simplify_eq; lia.
      * apply Forall_app. split; [done|]. constructor; [|done]. by intros x.
    + intros x. rewrite (refs_one rs1 (set_ref None 0 r)). unfold refers. cbn. repeat case_decide; simplify_eq; lia.
    + eapply Forall_impl; [|intros q; apply grown_refers, grown_same, S1]. apply Forall_app. split; [done|]. constructor; [|done].
      intros x [= <-]. exists nx. split_and!; [done|done|cbn; lia].
  - rewrite <- Hri. eapply all_moved_one; try done. split; try done; [intros _; by right; rewrite Hid|]. intros _.
    destruct (same_block_in _ _ nx S3 Hnx) as (nx' & Hnx' & E1 & E2 & _). unfold position. cbn. fold l'. rewrite Hid.
    rewrite (find_block_spec _ _ b Hnb Hbm eq_refl), (find_block_spec _ _ nx' ltac:(by rewrite (same_ids _ _ S3)) Hnx' E1), E2.
    pose proof (sh_offsets _ _ _ (bo_shape _ _ _ _ _ _ Hb)) as Hoff. rewrite Hblk in Hoff. apply offsets_split in Hoff as [-> [_ [-> _]]]. lia.
Qed.

Lemma all_moved_ext d d' m m' : all_moved d m m' → (∀ r, r ∈ slaves m → d r = d' r) → all_moved d' m m'.
Proof.
  intros H Hd. apply Forall2_same_length_lookup. split; [by eapply Forall2_length|]. intros k r r' Hr Hr'.
  rewrite <- Hd by (by eapply list_elem_of_lookup_2). exact (Forall2_lookup_lr _ _ _ _ _ _ H Hr Hr').
Qed.

Lemma all_moved_refl m : all_moved (λ _, 0) m m.
Proof. apply all_kept_moved, all_kept_refl. Qed.

(** What a write sends is the next stretch of the stream. *)
Lemma writeToReplica_spec base hist m i r conn : repl_ok base hist m → find_replica i m = Some r → ref_repl_buf_node r ≠ None →
  (∀ k n, conn k = Some n → (n ≤ k)%nat) →
  ∃ m' out, writeToReplica i conn m = Some (m', out) ∧ repl_ok base hist m' ∧
    all_moved (λ q, if decide (replica_id q = i) then slen (default EmptyString out) else 0) m m' ∧
    ∀ s, out = Some s → s = stake (String.length s) (from_offset base hist (position m r)).
Proof.
  intros (bl & Hok & Hoff) Hf Href Hconn. destruct (ref_repl_buf_node r) as [id|] eqn:Hid; [|done].
  destruct (find_replica_elem _ _ _ Hf) as [Hr Hri].
  destruct (replica_place _ _ _ _ _ _ Hok Hr Hid) as (l1 & b & l2 & Hblk & Hbid & Hp & Efind & Enext & Hpos).
  assert (b ∈ repl_buffer_blocks m) as Hbm by (rewrite Hblk; apply elem_of_app; right; by left).
  unfold writeToReplica. rewrite Hf, option_bind_some, Hid, option_bind_some, Efind, option_bind_some, Enext.
  rewrite (proj2 (Nat.leb_le _ _) Hp). cbn [negb]. set (rest := sdrop (ref_block_pos r) (block_buf b)).
  assert (String.length rest = (block_used b - ref_block_pos r)%nat) as Hrest by apply sdrop_length.
  set (out := match rest with EmptyString => Some 0%nat | _ => _ end).
  assert (∀ n, out = Some n → (n ≤ String.length rest)%nat) as Hout.
  { unfold out. destruct rest as [|c rest'] eqn:E; [by intros n [= <-]|]. intros n.
    destruct (conn _) as [k|] eqn:Ek; cbn; [|done]. destruct (k =? 0)%nat; [done|]. intros [= <-]. by apply Hconn in Ek. }
  destruct out as [n|]; [|exists m, None; split; [done|]; split; [by exists bl|]; split; [|done];
    eapply all_moved_ext; [apply all_moved_refl|]; intros q _; by case_decide].
  specialize (Hout n eq_refl).
  assert (String.length (stake n rest) = n) as Hlen by (rewrite stake_length; lia).
  assert (∀ s, Some (stake n rest) = Some s → s = stake (String.length s) (from_offset base hist (position m r))) as Hs.
  { intros s [= <-]. rewrite Hlen, Hpos, (from_block_at _ _ _ _ _ _ _ _ Hok Hblk Hp). by rewrite stake_app_le by done. }
  assert (∃ m', Some (upd_replica i (set_ref (Some id) (ref_block_pos r + n)) m, Some (stake n rest)) = Some (m', Some (stake n rest)) ∧
    repl_ok base hist m' ∧ all_moved (λ q, if decide (replica_id q = i) then slen (stake n rest) else 0) m m') as Hwithin.
  { destruct (move_within base hist m bl i r id b (ref_block_pos r + n) Hok Hf Hid Hbm Hbid) as [W1 W2]; [lia|].
    eexists. split; [done|]. split; [by exists bl|]. eapply all_moved_ext; [exact W2|]. intros q _. cbn beta. rewrite Hlen. case_decide; lia. }
  destruct l2 as [|nx l2]; cbn [head].
  { destruct Hwithin as (m' & E & W1 & W2). exists m', (Some (stake n rest)). done. }
  destruct (Nat.eqb_spec (ref_block_pos r + n) (block_used b)) as [Heq|_].
  2:{ destruct Hwithin as (m' & E & W1 & W2). exists m', (Some (stake n rest)). done. }
  subst id. destruct (move_to_next base hist m bl i r l1 b nx l2 Hok Hf Hid Hblk) as [W1 W2].
  destruct (trim_spec REPL_BACKLOG_TRIM_BLOCKS_PER_CALL _ _ _ _ W1) as (m' & E & H1 & H2 & _). rewrite E, option_bind_some.
  exists m', (Some (stake n rest)). split; [done|]. split; [done|]. split; [|done]. eapply all_moved_kept; [|exact H2].
  eapply all_moved_ext; [exact W2|]. intros q _. cbn [default]. unfold block_used in *. case_decide; cbn; lia.
Qed.

(** ** The other steps *)

Lemma near_repl base hist m bl : near_ok base hist m bl → backlog_offset bl = master_repl_offset m - histlen bl + 1 → repl_ok base hist m.
Proof. by exists bl. Qed.

(** A change of the replicas that leaves the references alone. *)
Lemma attr_spec base hist m f : repl_ok base hist m →
  (∀ r, replica_id (f r) = replica_id r ∧ ref_repl_buf_node (f r) = ref_repl_buf_node r ∧ ref_block_pos (f r) = ref_block_pos r) →
  repl_ok base hist (set_slaves (f <$> slaves m) m).
Proof.
  intros (bl & [Ho Hi Hbl Hb] & Hoff) Hf. exists bl. split; [|done]. split; try done; cbn.
  - assert (replica_id <$> (f <$> slaves m) = replica_id <$> slaves m) as ->; [|done].
    rewrite <- list_fmap_compose. apply list_fmap_ext. intros k r _. apply Hf.
  - eapply buffer_refs; [exact Hb| |].
    + intros id. clear -Hf. induction (slaves m) as [|r rs IH]; [done|]. cbn. rewrite IH. unfold refers. by destruct (Hf r) as (_ & -> & _).
    + apply Forall_fmap. eapply Forall_impl; [apply Hb|]. intros r Hr id. unfold compose. destruct (Hf r) as (_ & -> & ->). apply Hr.
Qed.

(** A replica that refers to nothing comes. *)
Lemma append_spec base hist m r : repl_ok base hist m → find_replica (replica_id r) m = None → ref_repl_buf_node r = None →
  repl_ok base hist (set_slaves (slaves m ++ [r]) m).
Proof.
  intros (bl & [Ho Hi Hbl Hb] & Hoff) Hf%find_replica_none Hr. exists bl. split; [|done]. split; try done; cbn.
  - rewrite fmap_app. apply NoDup_app. split_and!; [done| |apply NoDup_singleton].
    intros i Hin ->%list_elem_of_singleton. done.
  - eapply buffer_refs; [exact Hb| |].
    + intros id. rewrite refs_app. cbn. unfold refers. rewrite Hr. rewrite decide_False by done. lia.
    + apply Forall_app. split; [apply Hb|]. constructor; [|done]. intros id. by rewrite Hr.
Qed.

(** Replicas that refer to nothing go. *)
Lemma drop_spec base hist m P `{!∀ r, Decision (P r)} : repl_ok base hist m →
  (∀ r, r ∈ slaves m → ¬ P r → ref_repl_buf_node r = None) → repl_ok base hist (set_slaves (filter P (slaves m)) m).
Proof.
  intros (bl & [Ho Hi Hbl Hb] & Hoff) Hf. exists bl. split; [|done]. split; try done; cbn.
  - eapply sublist_NoDup; [exact Hi|]. apply fmap_sublist, sublist_filter.
  - eapply buffer_refs; [exact Hb| |].
    + intros id. clear -Hf. induction (slaves m) as [|r rs IH]; [done|]. rewrite filter_cons. cbn.
      rewrite <- IH by (intros q Hq; apply Hf; by right). case_decide as HP; [done|]. unfold refers.
      rewrite (Hf r (list_elem_of_here _ _) HP), decide_False by done. lia.
    + pose proof (bo_refers _ _ _ _ _ _ Hb) as Hall. rewrite Forall_forall in Hall. apply Forall_forall.
      intros r [_ Hr]%list_elem_of_filter. by apply Hall.
Qed.

(** A replica that refers to nothing gets a place in the blocks. *)
Lemma attach_spec base hist m i r b pos : repl_ok base hist m → find_replica i m = Some r → ref_repl_buf_node r = None →
  b ∈ repl_buffer_blocks m → (pos ≤ block_used b)%nat →
  let m' := upd_replica i (set_ref (Some (block_id b)) pos)
              (set_blocks (upd_block (block_id b) (add_ref 1) (repl_buffer_blocks m)) m) in
  repl_ok base hist m' ∧ (∀ q, position m' q = position m q) ∧
  position m' (set_ref (Some (block_id b)) pos r) = repl_offset b + Z.of_nat pos.
Proof.
  intros (bl & [Ho Hi Hbl Hb] & Hoff) Hf Hid Hin Hp m'. destruct (replica_split _ _ _ Hi Hf) as (rs1 & rs2 & Hl & Hri & N1 & N2).
  assert (slaves m' = rs1 ++ set_ref (Some (block_id b)) pos r :: rs2) as Hl'.
  { unfold m', upd_replica. cbn. rewrite Hl. by apply upd_one_split. }
  pose proof (bo_refers _ _ _ _ _ _ Hb) as Hrf. rewrite Hl in Hrf. apply Forall_app in Hrf as [R1 [R2 R3]%Forall_cons].
  assert (Forall2 same_block (repl_buffer_blocks m) (repl_buffer_blocks m')) as Hs by (by apply upd_same).
  pose proof (block_ids _ _ _ _ _ _ Hb) as Hnb.
  assert (∀ q, position m' q = position m q) as Hpos by (intros q; by apply position_same).
  split; [|split; [done|]].
  - exists bl. split; [|done]. split; try done; [rewrite Hl'; rewrite Hl in Hi; by rewrite fmap_app in *|]. rewrite Hl'. cbn.
    apply (buffer_ref_one _ _ _ (slaves m)); [done| |].
    + intros x. rewrite Hl, (refs_one rs1 r). unfold refers. cbn. rewrite Hid. repeat case_decide; simplify_eq; lia.
    + apply Forall_app. split; [done|]. constructor; [|done]. intros x [= <-]. by exists b.
  - rewrite Hpos. unfold position. cbn. by rewrite (find_block_spec _ _ b Hnb Hin eq_refl).
Qed.

Lemma index_seek_spec offset index : ∀ found node, index_seek offset found index = Some node →
  found = Some node ∨ ∃ k, (k, node) ∈ index ∧ k ≤ offset.
Proof.
  induction index as [|[k n] index IH]; intros found node; cbn; [by left|].
  destruct (Z.ltb_spec offset k) as [_|Hk]; [by left|]. intros [[= <-]|(k' & Hin & Hk')]%IH; right.
  - exists k. split; [by left|done].
  - exists k'. split; [by right|done].
Qed.

(** The search finds the block of the offset. *)
Lemma search_node_spec offset l : ∀ o, offsets o l → l ≠ [] → o ≤ offset ≤ o + slen (content l) →
  ∃ b, b ∈ l ∧ search_node offset l = Some b ∧ repl_offset b ≤ offset ≤ repl_offset b + Z.of_nat (block_used b).
Proof.
  induction l as [|b l IH]; intros o Ho Hne Hr; [done|]. cbn [search_node]. cbn in Ho. destruct Ho as [Hb Ho].
  rewrite content_cons, string_length_app in Hr. unfold block_used.
  destruct (Z.leb_spec offset (repl_offset b + slen (block_buf b))) as [Hle|Hle]; [exists b; split_and!; [by left|done|lia|lia]|].
  destruct l as [|c l]; [cbn in Hr; lia|]. destruct (IH _ Ho) as (b' & Hin & E & Hb'); [done|lia|]. exists b'. split_and!; [by right|done|lia|].
  unfold block_used in Hb'. lia.
Qed.

(** The replica continues at the offset that it asked for. *)
Lemma addReplyReplicationBacklog_spec base hist m bl i r offset : repl_ok base hist m → repl_backlog m = Some bl →
  find_replica i m = Some r → ref_repl_buf_node r = None → backlog_offset bl ≤ offset ≤ backlog_offset bl + histlen bl →
  ∃ m' n r', addReplyReplicationBacklog i offset m = Some (m', n) ∧ repl_ok base hist m' ∧
    slaves m' = upd_one i (λ _, r') (slaves m) ∧ (∀ q, position m' q = position m q) ∧
    replica_id r' = i ∧ replstate r' = replstate r ∧ position m' r' = offset ∧ n = master_repl_offset m' + 1 - offset ∧
    repl_ack_off r' = repl_ack_off r ∧ repl_aof_off r' = repl_aof_off r.
Proof.
  intros (bl' & Hok & Hoff) Hbl Hf Hid Hrange. pose proof (ro_backlog _ _ _ _ Hok) as Hbl'. assert (bl' = bl) as -> by congruence.
  pose proof (ro_buffer _ _ _ _ Hok) as Hb. pose proof (block_ids _ _ _ _ _ _ Hb) as Hnb.
  pose proof (find_replica_elem _ _ _ Hf) as [Hin Hri].
  unfold addReplyReplicationBacklog. rewrite Hbl, option_bind_some. destruct (Z.eqb_spec (histlen bl) 0) as [Hz|Hz].
  { exists m, 0, r. split_and!; try done; [by exists bl| | |lia].
    - destruct (replica_split _ _ _ (ro_ids _ _ _ _ Hok) Hf) as (rs1 & rs2 & Hl & _ & N1 & N2). rewrite Hl. by rewrite upd_one_split.
    - unfold position. rewrite Hid. lia. }
  rewrite (bo_histlen _ _ _ _ _ _ Hb) in Hz, Hoff, Hrange.
  assert (∃ c, c ∈ repl_buffer_blocks m ∧ repl_offset c ≤ offset ∧
    (match index_seek offset None (blocks_index bl) with Some node => Some node | None => backlog_ref bl end) = Some (block_id c)) as (c & Hc & Hco & Ec).
  { destruct (index_seek offset None (blocks_index bl)) as [node|] eqn:E.
    - apply index_seek_spec in E as [?|(k & Hk & Hle)]; [done|].
      destruct (bo_index _ _ _ _ _ _ Hb k node Hk) as (c & Hc & <- & <-). by exists c.
    - rewrite (bo_backlog _ _ _ _ _ _ Hb). pose proof (sh_offsets _ _ _ (bo_shape _ _ _ _ _ _ Hb)) as Ho.
      destruct (repl_buffer_blocks m) as [|c l]; [done|]. exists c. split; [by left|]. split; [|done]. destruct Ho as [-> _]. lia. }
  rewrite Ec, option_bind_some. destruct (block_split _ _ c Hnb Hc eq_refl) as (l1 & l2 & Hl & N1 & _).
  assert (from_block (block_id c) (repl_buffer_blocks m) = c :: l2) as -> by (rewrite Hl; by apply from_block_split).
  pose proof (sh_offsets _ _ _ (bo_shape _ _ _ _ _ _ Hb)) as Ho. remember (_ - _ + 1) as o0 eqn:Eo0 in Ho.
  rewrite Hl in Ho. apply offsets_split in Ho as [Hco' Ho].
  rewrite <- Hco' in Ho. destruct (search_node_spec offset _ _ Ho) as (b & Hbin & -> & Hbr); [done| |].
  { rewrite Hl, content_app, string_length_app in Hrange, Eo0, Hoff. lia. }
  rewrite option_bind_some. assert (b ∈ repl_buffer_blocks m) as Hbm by (rewrite Hl; apply elem_of_app; by right).
  destruct (attach_spec base hist m i r b (Z.to_nat (offset - repl_offset b)) (near_repl _ _ _ _ Hok ltac:(by rewrite (bo_histlen _ _ _ _ _ _ Hb))) Hf Hid Hbm)
    as (A1 & A2 & A3); [lia|].
  do 2 eexists. exists (set_ref (Some (block_id b)) (Z.to_nat (offset - repl_offset b)) r). split; [done|]. split; [exact A1|].
  split_and!; try done.
  - unfold upd_replica. cbn. destruct (replica_split _ _ _ (ro_ids _ _ _ _ Hok) Hf) as (rs1 & rs2 & Hls & _ & M1 & M2). rewrite Hls.
    rewrite (upd_one_split i (λ _, _)) by done. by apply upd_one_split.
  - rewrite A3. lia.
  - cbn. rewrite (bo_histlen _ _ _ _ _ _ Hb). lia.
Qed.

(** A replica joins another one at the same place. *)
Lemma copyReplicaOutputBuffer_spec base hist m dst src d s : repl_ok base hist m → find_replica dst m = Some d →
  ref_repl_buf_node d = None → find_replica src m = Some s →
  ∃ m' d', copyReplicaOutputBuffer dst src m = Some m' ∧ repl_ok base hist m' ∧
    slaves m' = upd_one dst (λ _, d') (slaves m) ∧ (∀ q, position m' q = position m q) ∧ master_repl_offset m' = master_repl_offset m ∧
    replica_id d' = dst ∧ position m' d' = position m s ∧ repl_ack_off d' = repl_ack_off d ∧ repl_aof_off d' = repl_aof_off d.
Proof.
  intros Hok Hd Hdn Hs. pose proof Hok as (bl & Hn & _). pose proof (find_replica_elem _ _ _ Hd) as [_ Hdi].
  destruct (replica_split _ _ _ (ro_ids _ _ _ _ Hn) Hd) as (rs1 & rs2 & Hl & _ & M1 & M2).
  unfold copyReplicaOutputBuffer. rewrite Hs, option_bind_some. destruct (ref_repl_buf_node s) as [id|] eqn:E.
  - destruct (replica_place _ _ _ _ _ _ Hn (proj1 (find_replica_elem _ _ _ Hs)) E) as (l1 & b & l2 & Hblk & <- & Hp & _ & _ & Hpos).
    destruct (attach_spec base hist m dst d b (ref_block_pos s) Hok Hd Hdn) as (A1 & A2 & A3); [rewrite Hblk; apply elem_of_app; right; by left|done|].
    eexists. exists (set_ref (Some (block_id b)) (ref_block_pos s) d). split; [done|]. split; [exact A1|]. split_and!; try done.
    + unfold upd_replica. cbn. rewrite Hl, (upd_one_split dst (λ _, _)) by done. by apply upd_one_split.
    + by rewrite A3, Hpos.
  - exists m, d. split_and!; try done.
    + by rewrite Hl, upd_one_split.
    + unfold position. by rewrite Hdn, E.
Qed.

Lemma trim_slaves n rs m : incrementalTrimReplicationBacklog n (set_slaves rs m) = set_slaves rs <$> incrementalTrimReplicationBacklog n m.
Proof.
  unfold incrementalTrimReplicationBacklog. cbn. destruct (repl_backlog m) as [bl|]; [|done]. rewrite !option_bind_some.
  by destruct (trim_loop _ _ _ _) as [[l bl']|].
Qed.

Lemma trim_same_slaves n m m' : incrementalTrimReplicationBacklog n m = Some m' → slaves m' = slaves m.
Proof.
  unfold incrementalTrimReplicationBacklog. destruct (repl_backlog m); [|done]. rewrite option_bind_some.
  destruct (trim_loop _ _ _ _) as [[? ?]|]; [|done]. by intros [= <-].
Qed.

Lemma filter_one i rs1 r rs2 : replica_id r = i → (i ∉ replica_id <$> rs1) → (i ∉ replica_id <$> rs2) →
  filter (λ r, replica_id r ≠ i) (rs1 ++ r :: rs2) = rs1 ++ rs2.
Proof.
  intros Hr H1 H2. rewrite filter_app, filter_cons, decide_False by (by intros []).
  assert (∀ rs : list replica, (i ∉ replica_id <$> rs) → filter (λ r, replica_id r ≠ i) rs = rs) as Hall.
  { intros rs. induction rs as [|q rs IH]; [done|]. rewrite fmap_cons, not_elem_of_cons. intros [Hq Hrs].
    rewrite filter_cons, decide_True by done. by rewrite IH. }
  by rewrite !Hall.
Qed.

(** The others stay where they are when a replica goes. *)
Lemma freeClient_spec base hist m i r : repl_ok base hist m → find_replica i m = Some r →
  ∃ m', freeClient i m = Some m' ∧ repl_ok base hist m' ∧ all_kept (set_slaves (filter (λ r, replica_id r ≠ i) (slaves m)) m) m'.
Proof.
  intros (bl & Hok & Hoff) Hf. pose proof Hok as [Ho Hi Hbl Hb]. destruct (replica_split _ _ _ Hi Hf) as (rs1 & rs2 & Hl & Hri & N1 & N2).
  unfold freeClient. rewrite Hf, option_bind_some. unfold freeReplicaReferencedReplBuffer. rewrite Hl, filter_one by done.
  pose proof (bo_refers _ _ _ _ _ _ Hb) as Hrf. rewrite Hl in Hrf. apply Forall_app in Hrf as [R1 [R2 R3]%Forall_cons].
  assert (Forall (refers_ok (repl_buffer_blocks m)) (rs1 ++ rs2)) as Hrf by (by apply Forall_app).
  assert (NoDup (replica_id <$> rs1 ++ rs2)) as Hnd.
  { rewrite Hl, fmap_app, fmap_cons in Hi. rewrite fmap_app. apply NoDup_app in Hi as (I1 & I2 & [_ I3]%NoDup_cons).
    apply NoDup_app. split_and!; [done| |done]. intros x Hx Hx'. apply (I2 x Hx). by right. }
  assert (∀ x, refs (rs1 ++ rs2) x = refs (slaves m) x + (if decide (ref_repl_buf_node r = Some x) then -1 else 0)) as Hrefs.
  { intros x. rewrite Hl, !refs_app. cbn. unfold refers. case_decide; lia. }
  destruct (ref_repl_buf_node r) as [id|] eqn:Hid.
  - destruct (replica_place _ _ _ _ _ _ Hok (proj1 (find_replica_elem _ _ _ Hf)) Hid) as (l1 & b & l2 & Hblk & Hbid & Hp & -> & _).
    rewrite option_bind_some. assert (b ∈ repl_buffer_blocks m) as Hbm by (rewrite Hblk; apply elem_of_app; right; by left).
    assert (0 < refcount b) as Hpos.
    { pose proof (bo_count _ _ _ _ _ _ Hb) as Hc. unfold counted in Hc. rewrite Forall_forall in Hc. rewrite (Hc b Hbm), Hbid.
      pose proof (refs_pos (slaves m) r id (proj1 (find_replica_elem _ _ _ Hf)) Hid). unfold own. case_decide; lia. }
    rewrite (proj2 (Z.ltb_lt _ _) Hpos). cbn [negb].
    set (m1 := set_blocks (upd_block id (add_ref (-1)) (repl_buffer_blocks m)) m).
    assert (near_ok base hist (set_slaves (rs1 ++ rs2) m1) bl) as Hok1.
    { split; try done. cbn. apply (buffer_ref_one _ _ _ (slaves m)); [done| |done]. intros x. rewrite Hrefs. repeat case_decide; simplify_eq; lia. }
    destruct (trim_spec REPL_BACKLOG_TRIM_BLOCKS_PER_CALL _ _ _ _ Hok1) as (m2 & E & T1 & T2 & T3 & _).
    rewrite trim_slaves in E. destruct (incrementalTrimReplicationBacklog _ m1) as [m3|] eqn:E3; [|done]. cbn in E. injection E as <-.
    rewrite option_bind_some. eexists. split; [done|]. pose proof (trim_same_slaves _ _ _ E3 : slaves m3 = slaves m) as Hm3.
    rewrite Hm3, Hl, filter_one by done. split; [done|]. eapply all_kept_trans; [|exact T2].
    unfold all_kept. cbn. apply Forall2_same_length_lookup. split; [done|]. intros k q q' Hq Hq'. simplify_eq.
    split; try done. intros _. apply position_same; try done; [by apply upd_same|by eapply block_ids].
  - rewrite option_bind_some. eexists. split; [done|]. rewrite Hl, filter_one by done. split; [|apply all_kept_refl].
    exists bl. split; [|done]. split; try done. cbn. eapply buffer_refs; [exact Hb| |done]. intros x. rewrite Hrefs. rewrite decide_False by done. lia.
Qed.
