(* ===== verification/ReplicationRun.v ===== *)
(** * A master and its replicas over time

    Any sequence of the events of a master: commands, writes to the replicas,
    requests for synchronisation, snapshots that start and end, files that have been
    sent, acknowledgements, clients that are freed, the cron and the trimming before
    the server sleeps.  Beside the state of the master stand the whole stream,
    and for every replica the offset where it was told that its stream starts and
    the bytes that were written to it.  No assertion of the code fails, and what
    a replica was sent is the stream from that offset on. *)

From S2P Require Import Prelude CLib Buffers Hiredis Util Replication ReplicationSpec ReplicationStream.

#[local] Abbreviation slen s := (Z.of_nat (String.length s)).

(** ** Events *)

Record world : Type := mkWorld {
  w_master : master;
  w_base : Z;
  w_stream : string;
  w_told : gmap nat (Z * string);
}.

Inductive event : Type :=
| Propagate (dictid : Z) (argv : list string)
| Relay (buf : string)
| WriteTo (i : nat) (n : option nat)
| Sync (e : sync_env) (c : sync_client) (psync : option (string * Z))
| BgsaveEnds (save_done socket : bool) (file_ok : nat → bool)
| BulkSent (i : nat)
| Ack (i : nat) (offset : Z) (fack : option Z)
| Free (i : nat)
| BeforeSleep
| Cron (e : sync_env).

(** The offset that a replica is told in a step from [m]: +FULLRESYNC has the offset
    before the first byte, +CONTINUE confirms the one that was asked for. *)
Definition greeted (psync : option (string * Z)) (m : master) (r : replica) : option Z :=
  let before := find_replica (replica_id r) m in
  match replstate r with
  | SLAVE_STATE_WAIT_BGSAVE_END =>
      if decide (replstate <$> before = Some SLAVE_STATE_WAIT_BGSAVE_END) then None else Some (psync_initial_offset r + 1)
  | SLAVE_STATE_ONLINE => match before with None => snd <$> psync | Some _ => None end
  | _ => None
  end.

Definition greet (psync : option (string * Z)) (m : master) (rs : list replica) (told : gmap nat (Z * string)) : gmap nat (Z * string) :=
  foldr (λ r told, match greeted psync m r with Some o => <[replica_id r := (o, EmptyString)]> told | None => told end) told rs.

(** What a socket that takes at most [n] bytes does; [None] is an error. *)
Definition socket (n : option nat) (len : nat) : option nat := Nat.min len <$> n.

Section run.
Variable usable : nat → nat.
Variable over_limits : master → replica → bool.
Variable dbnum : Z.

Definition write_step (i : nat) (n : option nat) (w : world) : option world :=
  let m := w_master w in
  match find_replica i m with
  | None => Some w
  | Some r =>
      pending ← hasPendingReplies r m;
      if negb (writable r && pending) then Some w
      else
        '(m', out) ← writeToReplica i (socket n) m;
        Some (mkWorld m' (w_base w) (w_stream w)
                (match out with
                 | Some s => alter (λ t, (t.1, t.2 +:+ s)) i (w_told w)
                 | None => w_told w
                 end))
  end.

Definition step (ev : event) (w : world) : option world :=
  let m := w_master w in
  match ev with
  | Propagate dictid argv =>
      m' ← replicationFeedSlaves usable over_limits dbnum dictid argv m;
      Some (match repl_backlog m with
            | None => mkWorld m' (w_base w + 1) (w_stream w) (w_told w)
            | Some _ => mkWorld m' (w_base w) (w_stream w +:+ fed_bytes m dictid argv) (w_told w)
            end)
  | Relay buf =>
      m' ← replicationFeedStreamFromMasterStream usable over_limits buf m;
      Some (match repl_backlog m with
            | None => w
            | Some _ => mkWorld m' (w_base w) (w_stream w +:+ buf) (w_told w)
            end)
  | WriteTo i n => write_step i n w
  | Sync e c psync =>
      m' ← syncCommand e c psync m;
      Some (mkWorld m' (w_base w) (w_stream w) (greet psync m (slaves m') (w_told w)))
  | BgsaveEnds save_done socket file_ok =>
      Some (mkWorld (updateSlavesWaitingBgsave save_done socket file_ok m) (w_base w) (w_stream w) (w_told w))
  | BulkSent i =>
      match find_replica i m with
      | Some r =>
          if decide (replstate r = SLAVE_STATE_SEND_BULK)
          then m' ← sendBulkToSlave i m; Some (mkWorld m' (w_base w) (w_stream w) (w_told w))
          else Some w
      | None => Some w
      end
  | Ack i offset fack => Some (mkWorld (replconfAck i offset fack m) (w_base w) (w_stream w) (w_told w))
  | Free i =>
      match find_replica i m with
      | Some _ => m' ← freeClient i m; Some (mkWorld m' (w_base w) (w_stream w) (w_told w))
      | None => Some w
      end
  | BeforeSleep =>
      match repl_backlog m with
      | Some _ =>
          m' ← incrementalTrimReplicationBacklog (10 * REPL_BACKLOG_TRIM_BLOCKS_PER_CALL) m;
          Some (mkWorld m' (w_base w) (w_stream w) (w_told w))
      | None => Some w
      end
  | Cron e =>
      m' ← replicationCron e m;
      Some (match repl_backlog m' with
            | None => mkWorld m' (master_repl_offset m') EmptyString (w_told w)
            | Some _ => mkWorld m' (w_base w) (w_stream w) (greet None m (slaves m') (w_told w))
            end)
  end.

Fixpoint run (evs : list event) (w : world) : option world :=
  match evs with [] => Some w | ev :: evs => w ← step ev w; run evs w end.

(** The last offset that a replica has been sent. *)
Definition sent_end (w : world) (r : replica) : Z :=
  if decide (replstate r = SLAVE_STATE_WAIT_BGSAVE_START) then w_base w
  else match w_told w !! replica_id r with Some (start, s) => start + slen s - 1 | None => w_base w end.

(** What is asked of an event: a command is for a database, and a client does not
    join the snapshot of a replica that is being closed and gets no more of the stream.  When
    [honest] holds, replicas acknowledge only what they have been sent. *)
Definition allowed (honest : bool) (ev : event) (w : world) : Prop :=
  match ev with
  | Propagate dictid _ => dictid = -1 ∨ 0 ≤ dictid < dbnum
  | Sync _ c _ => ∀ s, attach_candidate c (w_master w) = Some s → close_asap s = true → ref_repl_buf_node s ≠ None
  | Ack i offset fack =>
      honest = true → ∀ r, find_replica i (w_master w) = Some r → offset ≤ sent_end w r ∧ default offset fack ≤ sent_end w r
  | _ => True
  end.

Fixpoint all_allowed (honest : bool) (evs : list event) (w : world) : Prop :=
  match evs with
  | [] => True
  | ev :: evs => allowed honest ev w ∧ ∀ w', step ev w = Some w' → all_allowed honest evs w'
  end.
End run.

(** ** The invariant *)

Section invariant.
Context (honest : bool).

(** What a replica has acknowledged. *)
Definition acks_within (r : replica) (last : Z) : Prop := honest = true → repl_ack_off r ≤ last ∧ repl_aof_off r ≤ last.

(** A replica has been sent the stream from where it was told to where it is. *)
Definition follows (base : Z) (stream : string) (told : gmap nat (Z * string)) (m : master) (r : replica) : Prop :=
  replstate r ≠ SLAVE_STATE_WAIT_BGSAVE_START → ∃ start s, told !! replica_id r = Some (start, s) ∧ base < start ∧
    s = stake (String.length s) (from_offset base stream start) ∧ (active r → position m r = start + slen s) ∧
    (replstate r = SLAVE_STATE_WAIT_BGSAVE_END → s = EmptyString ∧ start = psync_initial_offset r + 1) ∧
    acks_within r (start + slen s - 1).

(** A replica that waits for a snapshot. *)
Definition waits_ok (base : Z) (r : replica) : Prop :=
  replstate r = SLAVE_STATE_WAIT_BGSAVE_START →
  ¬ active r ∧ (Z.land (slave_req r) SLAVE_REQ_RDB_MASK = 0 ∨ Z.land (slave_capa r) SLAVE_CAPA_EOF ≠ 0) ∧ acks_within r base.

Record stream_ok (base : Z) (stream : string) (told : gmap nat (Z * string)) (m : master) : Prop := {
  so_repl : repl_ok base stream m;
  so_base : honest = true → 0 ≤ base;
  so_follows : Forall (follows base stream told m) (slaves m);
  so_waits : Forall (waits_ok base) (slaves m);
}.

Definition world_ok (w : world) : Prop :=
  match repl_backlog (w_master w) with
  | None => slaves (w_master w) = [] ∧ repl_buffer_blocks (w_master w) = [] ∧ w_stream w = EmptyString ∧
            master_repl_offset (w_master w) = w_base w ∧ (honest = true → 0 ≤ w_base w)
  | Some _ => stream_ok (w_base w) (w_stream w) (w_told w) (w_master w)
  end.

(** *** Steps that move the replicas *)

Lemma segment_grows k s stream x : s = stake (String.length s) (sdrop k stream) → s = stake (String.length s) (sdrop k (stream +:+ x)).
Proof.
  intros H. destruct s as [|c s]; [by destruct (sdrop k (stream +:+ x))|]. remember (String c s) as s' eqn:E.
  assert (String.length s' ≤ String.length stream - k)%nat as Hl.
  { rewrite H at 1. rewrite stake_length, sdrop_length. lia. }
  assert (0 < String.length s')%nat by (subst; cbn; lia).
  rewrite sdrop_app_le by lia. rewrite stake_app_le; [done|]. rewrite sdrop_length. lia.
Qed.

Lemma segment_next base stream start s out : base < start → s = stake (String.length s) (from_offset base stream start) →
  out = stake (String.length out) (from_offset base stream (start + slen s)) →
  s +:+ out = stake (String.length (s +:+ out)) (from_offset base stream start).
Proof.
  intros Hb Hs Hout. rewrite string_length_app, stake_plus, <- Hs. f_equal. rewrite Hout at 1. f_equal. unfold from_offset.
  rewrite sdrop_sdrop. f_equal. lia.
Qed.

Lemma acks_moved d m m' r r' last : acks_within r last → moved d m m' r r' → acks_within r' last.
Proof. intros H [_ _ _ _ [E1 E2] _ _] Hh. rewrite E1, E2. by apply H. Qed.

Lemma follows_moved base stream x told m m' r r' : follows base stream told m r → moved 0 m m' r r' →
  follows base (stream +:+ x) told m' r'.
Proof.
  intros Hf Hm. pose proof Hm as [M1 M2 M3 _ _ M4 M5]. unfold follows. rewrite M1, M2, M3. intros Hst.
  destruct (Hf Hst) as (start & s & H1 & H2 & H3 & H4 & H5 & H6). exists start, s. split_and!; try done.
  - by apply segment_grows.
  - intros Ha. rewrite (M5 Ha), (H4 (M4 Ha)). lia.
  - by eapply acks_moved.
Qed.

Lemma waits_moved base d m m' r r' : waits_ok base r → moved d m m' r r' → waits_ok base r'.
Proof.
  intros Hw Hm. pose proof Hm as [M1 M2 M3 [Mc Mq] _ M4 M5]. unfold waits_ok. rewrite M2, Mc, Mq. intros E. destruct (Hw E) as (? & ? & ?).
  split; [by intros ?%M4|]. split; [done|]. by eapply acks_moved.
Qed.

Lemma Forall2_Forall {A} (R : A → A → Prop) (P Q : A → Prop) l l' : Forall2 R l l' → Forall P l →
  (∀ x y, P x → R x y → Q y) → Forall Q l'.
Proof. intros H. induction H as [|x y l l' Hxy _ IH]; intros HP Hq; [done|]. apply Forall_cons in HP as [? ?]. constructor; eauto. Qed.

Lemma stream_moved base stream x told m m' : stream_ok base stream told m → repl_ok base (stream +:+ x) m' →
  all_moved (λ _, 0) m m' → stream_ok base (stream +:+ x) told m'.
Proof.
  intros [H1 H0 H2 H3] Hok Hm. split; [done|done| |].
  - eapply Forall2_Forall; [exact Hm|exact H2|]. intros r r'. by apply follows_moved.
  - eapply Forall2_Forall; [exact Hm|exact H3|]. intros r r'. by apply waits_moved.
Qed.

Lemma stream_kept base stream told m m' : stream_ok base stream told m → repl_ok base stream m' → all_kept m m' →
  stream_ok base stream told m'.
Proof.
  intros H Hok Hk. rewrite <- (string_app_nil_r stream). eapply stream_moved; [done|by rewrite string_app_nil_r|by apply all_kept_moved].
Qed.

(** A write adds the next bytes to those that the replica was sent. *)
Lemma follows_write base stream told m m' i s r r' : follows base stream told m r →
  moved (if decide (replica_id r = i) then slen s else 0) m m' r r' → (replstate r' = SLAVE_STATE_ONLINE ∧ active r) ∨ replica_id r ≠ i →
  (replica_id r = i → s = stake (String.length s) (from_offset base stream (position m r))) →
  follows base stream (alter (λ t, (t.1, t.2 +:+ s)) i told) m' r'.
Proof.
  intros Hf Hm Hst Hs. pose proof Hm as [M1 M2 M3 _ _ M4 M5]. unfold follows. rewrite M1, M2, M3. intros Hw.
  destruct (Hf Hw) as (start & s0 & H1 & H2 & H3 & H4 & H5 & H6). rewrite M2 in Hst.
  destruct (decide (replica_id r = i)) as [E|E].
  - destruct Hst as [[Hst Har]|Hst]; [|done]. exists start, (s0 +:+ s). subst i. rewrite lookup_alter_eq, H1. cbn.
    split_and!; [done|done| | |by rewrite Hst|].
    + apply segment_next; [done|done|]. rewrite <- (H4 Har). by apply Hs.
    + intros Ha. rewrite (M5 Ha), (H4 Har), string_length_app. lia.
    + intros Hh. destruct (acks_moved _ _ _ _ _ _ H6 Hm Hh). rewrite string_length_app. lia.
  - exists start, s0. rewrite lookup_alter_ne by done. split_and!; try done; [|by eapply acks_moved].
    intros Ha. rewrite (M5 Ha), (H4 (M4 Ha)). lia.
Qed.

Lemma pending_total base stream m r : repl_ok base stream m → r ∈ slaves m → ∃ b, hasPendingReplies r m = Some b.
Proof.
  intros (bl & Hok & _) Hr. unfold hasPendingReplies. destruct (ref_repl_buf_node r) as [id|] eqn:E; [|by eexists].
  destruct (replica_place _ _ _ _ _ _ Hok Hr E) as (l1 & b & l2 & Hl & _).
  destruct (last (repl_buffer_blocks m)) as [tail|] eqn:El; [by eexists|]. apply last_None in El. rewrite Hl in El. by destruct l1.
Qed.

(** A replica with nothing pending is at the end of the stream. *)
Lemma pending_end base stream m r : repl_ok base stream m → r ∈ slaves m → hasPendingReplies r m = Some false →
  position m r = base + slen stream + 1.
Proof.
  intros (bl & Hok & _) Hr Hp. unfold hasPendingReplies in Hp. pose proof (ro_offset _ _ _ _ Hok) as Ho.
  destruct (ref_repl_buf_node r) as [id|] eqn:E; [|unfold position; rewrite E; lia].
  destruct (replica_place _ _ _ _ _ _ Hok Hr E) as (l1 & b & l2 & Hl & Hid & _ & _ & _ & ->).
  destruct (last (repl_buffer_blocks m)) as [tail|] eqn:El; [|done]. cbn in Hp.
  assert (block_id tail = id ∧ ref_block_pos r = block_used tail) as [Ht Hpos].
  { injection Hp as Hp. apply negb_false_iff, andb_prop in Hp as [H1 H2]. apply bool_decide_eq_true in H1. by apply Nat.eqb_eq in H2. }
  assert (tail = b ∧ l2 = []) as [-> ->].
  { pose proof (block_ids _ _ _ _ _ _ (ro_buffer _ _ _ _ Hok)) as Hn. apply last_Some in El as [l0 El].
    destruct l2 as [|c l2 _] using rev_ind.
    - rewrite El in Hl. by apply app_inj_2 in Hl as [_ [= ->]].
    - exfalso. assert (c = tail) as ->.
      { rewrite El in Hl. change (b :: l2 ++ [c]) with ((b :: l2) ++ [c]) in Hl. rewrite app_assoc in Hl. by apply app_inj_2 in Hl as [_ [= ->]]. }
      rewrite Hl, fmap_app, fmap_cons, fmap_app in Hn. apply NoDup_app in Hn as (_ & _ & [Hn _]%NoDup_cons).
      apply Hn, elem_of_app. right. rewrite Hid, <- Ht. by left. }
  destruct (block_at _ _ _ _ _ _ _ Hok Hl) as (pre & -> & ->). rewrite Hpos, !string_length_app. unfold block_used. cbn. lia.
Qed.

Lemma write_step_ok w i n : repl_backlog (w_master w) ≠ None → stream_ok (w_base w) (w_stream w) (w_told w) (w_master w) →
  ∃ w', write_step i n w = Some w' ∧ repl_backlog (w_master w') ≠ None ∧
    stream_ok (w_base w') (w_stream w') (w_told w') (w_master w').
Proof.
  destruct w as [m base stream told]. cbn. intros Hbl Hok. unfold write_step. cbn.
  destruct (find_replica i m) as [r|] eqn:Hf; [|by eexists]. destruct (find_replica_elem _ _ _ Hf) as [Hr Hri].
  pose proof (so_repl _ _ _ _ Hok) as Hrepl.
  destruct (pending_total _ _ _ _ Hrepl Hr) as [p Hp]. rewrite Hp, option_bind_some.
  destruct (writable r && p) eqn:Hw; cbn [negb]; [|by eexists]. apply andb_prop in Hw as [Hw ->].
  assert (ref_repl_buf_node r ≠ None) as Href by (intros E; unfold hasPendingReplies in Hp; by rewrite E in Hp).
  assert (replstate r = SLAVE_STATE_ONLINE) as Hon.
  { unfold writable in Hw. apply andb_prop in Hw as [[Hw _]%andb_prop _]. by apply bool_decide_eq_true in Hw. }
  destruct (writeToReplica_spec base stream m i r (socket n) Hrepl Hf Href) as (m' & out & -> & Hok' & Hm & Hout).
  { intros k j. unfold socket. destruct n; [|done]. intros [= <-]. lia. }
  rewrite option_bind_some. eexists. split; [done|]. cbn. split; [destruct Hok' as (bl' & Hn' & _); by rewrite (ro_backlog _ _ _ _ Hn')|].
  assert (∀ q, q ∈ slaves m → replica_id q = i → q = r) as Huniq.
  { intros q Hq Hqi. pose proof Hrepl as (bl & Hn & _). destruct (replica_split _ _ _ (ro_ids _ _ _ _ Hn) Hf) as (rs1 & rs2 & Hl & _ & N1 & N2).
    rewrite Hl in Hq. apply elem_of_app in Hq as [Hq|[Hq|Hq]%elem_of_cons]; [|done|].
    - destruct N1. rewrite <- Hqi. by apply list_elem_of_fmap_2.
    - destruct N2. rewrite <- Hqi. by apply list_elem_of_fmap_2. }
  destruct Hok as [_ H0 H2 H3]. rewrite Forall_forall in H2, H3. split; [done|done| |]; apply Forall_forall; intros r' [k Hk]%list_elem_of_lookup;
    destruct (Forall2_lookup_r _ _ _ _ _ Hm Hk) as (q & Hq & Hmv); apply list_elem_of_lookup_2 in Hq.
  - destruct out as [s|]; cbn in Hmv.
    + eapply follows_write; [by apply H2|exact Hmv| |].
      * destruct (decide (replica_id q = i)) as [E|E]; [left|by right]. rewrite (mv_state _ _ _ _ _ Hmv).
        rewrite (Huniq q Hq E). split; [done|by right].
      * intros E. rewrite (Huniq q Hq E). by apply Hout.
    + rewrite <- (string_app_nil_r stream). eapply follows_moved; [by apply H2|]. by destruct (decide (replica_id q = i)).
  - eapply waits_moved; [by apply H3|exact Hmv].
Qed.

(** *** Steps that change the state of replicas *)

(** The replica was there before, and it is where it was. *)
Definition continues (m m' : master) (r' : replica) : Prop :=
  ∃ r, r ∈ slaves m ∧ replica_id r = replica_id r' ∧ replstate r ≠ SLAVE_STATE_WAIT_BGSAVE_START ∧
    (active r' → active r ∧ position m' r' = position m r) ∧
    (replstate r' = SLAVE_STATE_WAIT_BGSAVE_END →
     replstate r = SLAVE_STATE_WAIT_BGSAVE_END ∧ psync_initial_offset r' = psync_initial_offset r) ∧
    ∀ last, acks_within r last → acks_within r' last.

(** The replica starts at the offset that it was told. *)
Definition starts (base : Z) (m' : master) (r' : replica) (o : Z) : Prop :=
  (active r' → position m' r' = o) ∧ base < o ∧ (replstate r' = SLAVE_STATE_WAIT_BGSAVE_END → o = psync_initial_offset r' + 1) ∧
  acks_within r' base.

Lemma greet_lookup psync m told rs r : NoDup (replica_id <$> rs) → r ∈ rs →
  greet psync m rs told !! replica_id r =
    match greeted psync m r with Some o => Some (o, EmptyString) | None => told !! replica_id r end.
Proof.
  induction rs as [|q rs IH]; [by intros _ ?%elem_of_nil|]. cbn. intros [Hq Hn]%NoDup_cons [->|Hr]%elem_of_cons.
  - destruct (greeted psync m q); [by rewrite lookup_insert_eq|]. clear IH Hn. induction rs as [|p rs IH]; [done|].
    rewrite fmap_cons, not_elem_of_cons in Hq. destruct Hq as [H1 H2]. cbn. destruct (greeted psync m p); [rewrite lookup_insert_ne by done|]; by apply IH.
  - assert (replica_id q ≠ replica_id r) as Hne by (intros E; apply Hq; rewrite E; by apply list_elem_of_fmap_2).
    destruct (greeted psync m q); [rewrite lookup_insert_ne by done|]; by apply IH.
Qed.

Lemma repl_ok_ids base stream m : repl_ok base stream m → NoDup (replica_id <$> slaves m).
Proof. intros (bl & H & _). apply H. Qed.

Lemma continues_follows base stream told m m' r' : Forall (follows base stream told m) (slaves m) → continues m m' r' →
  ∃ start s, told !! replica_id r' = Some (start, s) ∧ base < start ∧
    s = stake (String.length s) (from_offset base stream start) ∧ (active r' → position m' r' = start + slen s) ∧
    (replstate r' = SLAVE_STATE_WAIT_BGSAVE_END → s = EmptyString ∧ start = psync_initial_offset r' + 1) ∧
    acks_within r' (start + slen s - 1).
Proof.
  intros Hf (r & Hr & Hid & Hst & Hp & He & Hk). rewrite Forall_forall in Hf.
  destruct (Hf r Hr Hst) as (start & s & H1 & H2 & H3 & H4 & H5 & H6). exists start, s. rewrite <- Hid. split_and!; try done; [| |by apply Hk].
  - intros Ha. destruct (Hp Ha) as [Ha' ->]. by apply H4.
  - intros E. destruct (He E) as [E1 E2]. destruct (H5 E1) as [-> ->]. by rewrite E2.
Qed.

Lemma stream_regroup base stream told psync m m' : stream_ok base stream told m → repl_ok base stream m' →
  Forall (waits_ok base) (slaves m') →
  (∀ r', r' ∈ slaves m' → replstate r' ≠ SLAVE_STATE_WAIT_BGSAVE_START →
     match greeted psync m r' with Some o => starts base m' r' o | None => continues m m' r' end) →
  stream_ok base stream (greet psync m (slaves m') told) m'.
Proof.
  intros [_ H0 Hf _] Hok Hw Hr. split; [done|done| |done]. apply Forall_forall. intros r' Hin Hst. specialize (Hr r' Hin Hst).
  rewrite greet_lookup by (done || by eapply repl_ok_ids). destruct (greeted psync m r') as [o|].
  - destruct Hr as (H1 & H2 & H3 & H4). exists o, EmptyString. cbn. split_and!; try done.
    + intros Ha. rewrite (H1 Ha). lia.
    + intros E. split; [done|]. by apply H3.
    + intros Hh. destruct (H4 Hh). lia.
  - by apply continues_follows with (m := m).
Qed.

(** Without a greeting. *)
Lemma stream_continue base stream told m m' : stream_ok base stream told m → repl_ok base stream m' →
  Forall (waits_ok base) (slaves m') →
  (∀ r', r' ∈ slaves m' → replstate r' ≠ SLAVE_STATE_WAIT_BGSAVE_START → continues m m' r') → stream_ok base stream told m'.
Proof.
  intros [_ H0 Hf _] Hok Hw Hr. split; [done|done| |done]. apply Forall_forall. intros r' Hin Hst.
  by apply continues_follows with (m := m), Hr.
Qed.

(** A change of the replicas that leaves their places and acknowledgements alone and does not make them wait. *)
Record quiet (r r' : replica) : Prop := {
  q_id : replica_id r' = replica_id r;
  q_ref : ref_repl_buf_node r' = ref_repl_buf_node r ∧ ref_block_pos r' = ref_block_pos r;
  q_active : active r' → active r;
  q_waits : ∀ base, waits_ok base r → waits_ok base r';
  q_start : replstate r = SLAVE_STATE_WAIT_BGSAVE_START → replstate r' = SLAVE_STATE_WAIT_BGSAVE_START;
  q_end : replstate r' = SLAVE_STATE_WAIT_BGSAVE_END →
          replstate r = SLAVE_STATE_WAIT_BGSAVE_END ∧ psync_initial_offset r' = psync_initial_offset r;
  q_acks : ∀ last, acks_within r last → acks_within r' last;
}.

Lemma quiet_refl r : quiet r r.
Proof. done. Qed.

Lemma stream_quiet base stream told m f : stream_ok base stream told m → (∀ r, quiet r (f r)) →
  stream_ok base stream told (set_slaves (f <$> slaves m) m).
Proof.
  intros Hok Hq. pose proof Hok as [H1 H0 H2 H3]. eapply stream_continue; [exact Hok| | |].
  - apply attr_spec; [done|]. intros r. destruct (Hq r) as [? [? ?] _ _ _ _ _]. done.
  - cbn. apply Forall_fmap. eapply Forall_impl; [exact H3|]. intros r. apply (Hq r).
  - cbn. intros r' (r & -> & Hr)%list_elem_of_fmap Hst. exists r. destruct (Hq r) as [E1 [E2 E3] E4 _ E5 E6 E7].
    split_and!; try done; [auto|]. intros Ha. split; [auto|]. unfold position. cbn. by rewrite E2, E3.
Qed.

Lemma close_active r : active (set_close_asap r) → active r.
Proof. intros [H|H]; [|by right]. unfold canFeedReplicaReplBuffer in H. cbn in H. by rewrite andb_false_r in H. Qed.

Lemma quiet_close r : quiet r (set_close_asap r).
Proof. split; try done; [by apply close_active|]. intros base Hw E. destruct (Hw E). split; [by intros ?%close_active|done]. Qed.

Lemma state_active r s : replstate r ≠ SLAVE_STATE_WAIT_BGSAVE_START → active (set_replstate s r) → active r.
Proof.
  intros Hr [H|H]; [|by right]. left. unfold canFeedReplicaReplBuffer in *. cbn in *. rewrite (bool_decide_false (replstate r = _)) by done.
  destruct (rdb_only r), (close_asap r); try done. by rewrite !andb_false_r in H.
Qed.

Lemma quiet_state r s : replstate r ≠ SLAVE_STATE_WAIT_BGSAVE_START → s ≠ SLAVE_STATE_WAIT_BGSAVE_START →
  s ≠ SLAVE_STATE_WAIT_BGSAVE_END → quiet r (set_replstate s r).
Proof. intros H1 H2 H3. split; [done|done|by apply state_active|by intros base _ E|done|by intros E|done]. Qed.

Lemma quiet_trans r r' r'' : quiet r r' → quiet r' r'' → quiet r r''.
Proof.
  intros [H1 [H2 H2'] H3 H4 H5 H6 H7] [J1 [J2 J2'] J3 J4 J5 J6 J7]. split; [congruence|split; congruence|auto|auto|auto| |auto].
  intros E. destruct (J6 E) as [E1 E2]. destruct (H6 E1). split; congruence.
Qed.

Lemma quiet_start_on_ack r b : quiet r (set_start_on_ack b r).
Proof. done. Qed.

Lemma bgsave_ends_ok base stream told m save_done sock file_ok : stream_ok base stream told m →
  stream_ok base stream told (updateSlavesWaitingBgsave save_done sock file_ok m).
Proof.
  intros Hok. apply stream_quiet; [done|]. intros r. case_bool_decide as E; cbn [negb]; [|done].
  destruct save_done; cbn [negb]; [|apply quiet_close]. assert (∀ s, s ≠ SLAVE_STATE_WAIT_BGSAVE_START →
    s ≠ SLAVE_STATE_WAIT_BGSAVE_END → quiet r (set_replstate s r)) as Hq by (intros s ? ?; apply quiet_state; by rewrite ?E).
  destruct sock.
  - unfold replicaPutOnline. destruct (rdb_only r).
    + eapply quiet_trans; [|apply quiet_close]. by apply Hq.
    + eapply quiet_trans; [|apply quiet_start_on_ack]. by apply Hq.
  - destruct (file_ok _); [by apply Hq|apply quiet_close].
Qed.

Lemma stream_upd base stream told m i f : stream_ok base stream told m → (∀ r, quiet r (f r)) →
  stream_ok base stream told (upd_replica i f m).
Proof. intros Hok Hq. apply stream_quiet; [done|]. intros r. by case_decide. Qed.

(** Only the replica that was found is changed. *)
Lemma stream_upd_found base stream told m i r r' : stream_ok base stream told m → find_replica i m = Some r → quiet r r' →
  stream_ok base stream told (upd_replica i (λ _, r') m) ∧ find_replica i (upd_replica i (λ _, r') m) = Some r'.
Proof.
  intros Hok Hf Hq. destruct (replica_split _ _ _ (repl_ok_ids _ _ _ (so_repl _ _ _ _ Hok)) Hf) as (rs1 & rs2 & Hl & Hri & N1 & N2).
  assert (upd_replica i (λ _, r') m = upd_replica i (λ q, if decide (q = r) then r' else q) m) as E.
  { unfold upd_replica. f_equal. fold (upd_one i (λ _, r') (slaves m)). fold (upd_one i (λ q, if decide (q = r) then r' else q) (slaves m)).
    rewrite Hl, !upd_one_split by done. by rewrite decide_True. }
  split; [rewrite E; apply stream_upd; [done|]; intros q; case_decide; by subst|].
  unfold find_replica, upd_replica. cbn. fold (upd_one i (λ _, r') (slaves m)). rewrite Hl, upd_one_split by done.
  rewrite filter_app. replace (filter (λ r, replica_id r = i) rs1) with (@nil replica).
  - cbn [app]. rewrite filter_cons, decide_True; [done|]. by rewrite (q_id _ _ Hq).
  - symmetry. clear -N1. induction rs1 as [|q rs1 IH]; [done|]. rewrite fmap_cons, not_elem_of_cons in N1. destruct N1 as [N1 N2].
    rewrite filter_cons, decide_False by done. by apply IH.
Qed.

Lemma free_ok base stream told m i r : stream_ok base stream told m → find_replica i m = Some r →
  ∃ m', freeClient i m = Some m' ∧ stream_ok base stream told m'.
Proof.
  intros [H1 H0 H2 H3] Hf. destruct (freeClient_spec _ _ _ _ _ H1 Hf) as (m' & E & Hok & Hk). exists m'. split; [done|].
  apply all_kept_moved in Hk. split; [done|done| |].
  - eapply Forall2_Forall; [exact Hk| |].
    + cbn. apply Forall_forall. intros q [_ Hq]%list_elem_of_filter. rewrite Forall_forall in H2. exact (H2 q Hq).
    + intros q q' Hq Hm. rewrite <- (string_app_nil_r stream). eapply follows_moved; [|exact Hm]. exact Hq.
  - eapply Forall2_Forall; [exact Hk| |].
    + cbn. apply Forall_forall. intros q [_ Hq]%list_elem_of_filter. rewrite Forall_forall in H3. exact (H3 q Hq).
    + intros q q' Hq Hm. eapply waits_moved; [exact Hq|exact Hm].
Qed.

Lemma bulk_sent_ok base stream told m i r : stream_ok base stream told m → find_replica i m = Some r →
  replstate r = SLAVE_STATE_SEND_BULK → ∃ m', sendBulkToSlave i m = Some m' ∧ stream_ok base stream told m'.
Proof.
  intros Hok Hf Hst. unfold sendBulkToSlave. rewrite Hf, option_bind_some. unfold replicaPutOnline.
  assert (∀ s, s ≠ SLAVE_STATE_WAIT_BGSAVE_START → s ≠ SLAVE_STATE_WAIT_BGSAVE_END → quiet r (set_replstate s r)) as Hq
    by (intros s ? ?; apply quiet_state; by rewrite ?Hst).
  destruct (rdb_only r) eqn:E; cbn.
  - destruct (stream_upd_found base stream told m i r (set_replstate SLAVE_STATE_RDB_TRANSMITTED r) Hok Hf) as [H1 H2]; [by apply Hq|].
    by eapply free_ok.
  - destruct (stream_upd_found base stream told m i r (set_replstate SLAVE_STATE_ONLINE r) Hok Hf) as [H1 H2]; [by apply Hq|].
    rewrite E. eexists. split; [done|]. apply stream_upd; [done|]. intros q. apply quiet_start_on_ack.
Qed.

(** *** Snapshots *)

Lemma find_replica_in m r : NoDup (replica_id <$> slaves m) → r ∈ slaves m → find_replica (replica_id r) m = Some r.
Proof.
  intros Hn Hr. destruct (find_replica (replica_id r) m) as [q|] eqn:E.
  - destruct (replica_split _ _ _ Hn E) as (rs1 & rs2 & Hl & Hq & N1 & N2). f_equal. rewrite Hl in Hr.
    apply elem_of_app in Hr as [Hr|[Hr|Hr]%elem_of_cons]; [destruct N1; by apply list_elem_of_fmap_2|done|destruct N2; by apply list_elem_of_fmap_2].
  - apply find_replica_none in E. destruct E. by apply list_elem_of_fmap_2.
Qed.

(** An acknowledgement of what was sent. *)
Definition acked (offset : Z) (fack : option Z) (r : replica) : replica :=
  let r := set_acks (Z.max (repl_ack_off r) offset)
                    (match fack with Some n => Z.max (repl_aof_off r) n | None => repl_aof_off r end) r in
  if start_cmd_stream_on_ack r && bool_decide (replstate r = SLAVE_STATE_ONLINE) then set_start_on_ack false r else r.

Lemma acked_fields offset fack r : let r' := acked offset fack r in
  replica_id r' = replica_id r ∧ ref_repl_buf_node r' = ref_repl_buf_node r ∧ ref_block_pos r' = ref_block_pos r ∧
  replstate r' = replstate r ∧ psync_initial_offset r' = psync_initial_offset r ∧ slave_capa r' = slave_capa r ∧
  slave_req r' = slave_req r ∧ (active r' ↔ active r) ∧
  repl_ack_off r' = Z.max (repl_ack_off r) offset ∧
  repl_aof_off r' = match fack with Some n => Z.max (repl_aof_off r) n | None => repl_aof_off r end.
Proof. unfold acked. cbn zeta. by case_match. Qed.

Lemma acked_within offset fack r last : acks_within r last → (honest = true → offset ≤ last ∧ default offset fack ≤ last) →
  acks_within (acked offset fack r) last.
Proof.
  intros H Ho Hh. destruct (H Hh), (Ho Hh) as [? Hd]. destruct (acked_fields offset fack r) as (_&_&_&_&_&_&_&_&E1&E2). rewrite E1, E2.
  destruct fack; cbn in Hd; lia.
Qed.

Lemma follows_acked base stream told m m' r offset fack : follows base stream told m r →
  (∀ q q', ref_repl_buf_node q' = ref_repl_buf_node q → ref_block_pos q' = ref_block_pos q → position m' q' = position m q) →
  (honest = true → offset ≤ sent_end (mkWorld m base stream told) r ∧ default offset fack ≤ sent_end (mkWorld m base stream told) r) →
  follows base stream told m' (acked offset fack r).
Proof.
  intros Hf Hpos Ho. destruct (acked_fields offset fack r) as (E1&E2&E3&E4&E5&_&_&E6&_). unfold follows. rewrite E1, E4, E5. intros Hst.
  destruct (Hf Hst) as (start & s & H1 & H2 & H3 & H4 & H5 & H6). exists start, s. split_and!; try done.
  - intros Ha. rewrite (Hpos r) by done. apply H4. by apply E6.
  - apply acked_within; [done|]. intros Hh. specialize (Ho Hh). unfold sent_end in Ho. cbn in Ho. rewrite decide_False, H1 in Ho by done. done.
Qed.

Lemma waits_acked base stream told m r offset fack : waits_ok base r →
  (honest = true → offset ≤ sent_end (mkWorld m base stream told) r ∧ default offset fack ≤ sent_end (mkWorld m base stream told) r) →
  waits_ok base (acked offset fack r).
Proof.
  intros Hw Ho. destruct (acked_fields offset fack r) as (_&_&_&E4&_&E5&E7&E6&_). unfold waits_ok. rewrite E4, E5, E7, E6. intros Hst.
  destruct (Hw Hst) as (W1 & W2 & W3). split_and!; [done|done|]. apply acked_within; [done|]. intros Hh. specialize (Ho Hh).
  unfold sent_end in Ho. cbn in Ho. rewrite decide_True in Ho by done. done.
Qed.

Lemma ack_ok dbnum base stream told m i offset fack : stream_ok base stream told m →
  allowed dbnum honest (Ack i offset fack) (mkWorld m base stream told) → stream_ok base stream told (replconfAck i offset fack m).
Proof.
  intros Hok Hal. pose proof Hok as [H1 H0 H2 H3]. cbn in Hal.
  assert (∀ r, r ∈ slaves m → replica_id r = i → honest = true →
    offset ≤ sent_end (mkWorld m base stream told) r ∧ default offset fack ≤ sent_end (mkWorld m base stream told) r) as Hsent.
  { intros r Hr Hi Hh. apply (Hal Hh). rewrite <- Hi. apply find_replica_in; [by eapply repl_ok_ids|done]. }
  change (replconfAck i offset fack m) with (upd_replica i (acked offset fack) m).
  split; [|done| |].
  - apply attr_spec; [done|]. intros r. case_decide; [|done]. by destruct (acked_fields offset fack r) as (?&?&?&_).
  - apply Forall_forall. intros r' (r & -> & Hr)%list_elem_of_fmap. rewrite Forall_forall in H2. case_decide as Hi; [|by apply H2].
    eapply follows_acked; [by apply H2| |by apply Hsent]. intros q q' E1 E2. unfold position. by rewrite E1, E2.
  - apply Forall_forall. intros r' (r & -> & Hr)%list_elem_of_fmap. rewrite Forall_forall in H3. case_decide as Hi; [|by apply H3].
    eapply waits_acked; [by apply H3|by apply Hsent].
Qed.

Lemma greeted_old psync m r : NoDup (replica_id <$> slaves m) → r ∈ slaves m → greeted psync m r = None.
Proof.
  intros Hn Hr. unfold greeted. rewrite (find_replica_in _ _ Hn Hr). cbn. by destruct (replstate r).
Qed.

Lemma greeted_end psync m r : replstate r = SLAVE_STATE_WAIT_BGSAVE_END →
  (∀ q, find_replica (replica_id r) m = Some q → replstate q ≠ SLAVE_STATE_WAIT_BGSAVE_END) →
  greeted psync m r = Some (psync_initial_offset r + 1).
Proof.
  intros E Hq. unfold greeted. rewrite E. destruct (find_replica (replica_id r) m) as [q|]; cbn; [|by rewrite decide_False].
  rewrite decide_False; [done|]. intros [= H]. by apply (Hq q).
Qed.

Lemma greet_same psync m told rs : (∀ r, r ∈ rs → greeted psync m r = None) → greet psync m rs told = told.
Proof. induction rs as [|r rs IH]; intros H; [done|]. cbn. rewrite (H r (list_elem_of_here _ _)). apply IH. intros q Hq. apply H. by right. Qed.

Lemma greet_ext psync psync' m m' told rs : (∀ r, r ∈ rs → greeted psync m r = greeted psync' m' r) →
  greet psync m rs told = greet psync' m' rs told.
Proof.
  unfold greet. induction rs as [|r rs IH]; intros H; [done|]. cbn. rewrite (H r (list_elem_of_here _ _)), IH; [done|].
  intros q Hq. apply H. by right.
Qed.

(** The replica as it is when it was told about a full synchronisation. *)
Definition resynced (offset : Z) (sent : bool) (r : replica) : replica :=
  let r := set_replstate SLAVE_STATE_WAIT_BGSAVE_END (set_initial_offset offset r) in
  if negb (pre_psync r) && negb sent then set_close_asap r else r.

Lemma resynced_fields offset sent r : replica_id (resynced offset sent r) = replica_id r ∧
  ref_repl_buf_node (resynced offset sent r) = ref_repl_buf_node r ∧ ref_block_pos (resynced offset sent r) = ref_block_pos r ∧
  replstate (resynced offset sent r) = SLAVE_STATE_WAIT_BGSAVE_END ∧ psync_initial_offset (resynced offset sent r) = offset ∧
  repl_ack_off (resynced offset sent r) = repl_ack_off r ∧ repl_aof_off (resynced offset sent r) = repl_aof_off r.
Proof. unfold resynced. by destruct (_ && _). Qed.

(** All but the replicas and the database that was selected. *)
Definition same_rest (m m' : master) : Prop :=
  repl_buffer_blocks m' = repl_buffer_blocks m ∧ repl_block_id m' = repl_block_id m ∧ repl_backlog m' = repl_backlog m ∧
  master_repl_offset m' = master_repl_offset m.

Lemma same_rest_ok base stream m m' : same_rest m m' → repl_ok base stream (set_slaves (slaves m') m) → repl_ok base stream m'.
Proof.
  intros (E1 & E2 & E3 & E4) (bl & [H1 H2 H3 H4] & H). cbn in *. exists bl. rewrite E4. split; [|done].
  split; rewrite ?E1, ?E2, ?E3, ?E4; done.
Qed.

Lemma same_rest_position m m' r : same_rest m m' → position m' r = position m r.
Proof. intros (E1 & _ & _ & E4). unfold position. by rewrite E1, E4. Qed.

Definition waiting (req : Z) (r : replica) : Prop := replstate r = SLAVE_STATE_WAIT_BGSAVE_START ∧ slave_req r = req.
#[local] Instance waiting_dec req r : Decision (waiting req r).
Proof. unfold waiting. apply _. Defined.

Lemma setup_waiting_spec e req rs : ∀ m, NoDup (replica_id <$> rs) →
  same_rest m (setup_waiting e req rs m) ∧
  slaves (setup_waiting e req rs m) =
    (λ q, if decide (replica_id q ∈ replica_id <$> filter (waiting req) rs)
          then resynced (master_repl_offset m) (line_sent e (replica_id q)) q else q) <$> slaves m.
Proof.
  induction rs as [|r rs IH]; intros m Hn; cbn [setup_waiting].
  { split; [done|]. rewrite <- (list_fmap_id (slaves m)) at 1. apply list_fmap_ext. intros k q _. cbn. by rewrite decide_False by (by apply not_elem_of_nil). }
  cbn in Hn. apply NoDup_cons in Hn as [Hr Hn].
  assert (replica_id r ∉ replica_id <$> filter (waiting req) rs) as Hr'.
  { intros (q & E & [_ Hq]%list_elem_of_filter)%list_elem_of_fmap. apply Hr. rewrite E. by apply list_elem_of_fmap_2. }
  rewrite filter_cons. destruct (bool_decide (replstate r = SLAVE_STATE_WAIT_BGSAVE_START) && (slave_req r =? req)) eqn:E.
  - apply andb_prop in E as [E1 E2]. apply bool_decide_eq_true in E1. apply Z.eqb_eq in E2.
    rewrite decide_True by done. set (sent := line_sent e (replica_id r)).
    destruct (IH (replicationSetupSlaveForFullResync (replica_id r) (getPsyncInitialOffset m) sent m) Hn) as [S1 S2].
    split; [done|]. rewrite S2. clear S1 S2.
    change (master_repl_offset (replicationSetupSlaveForFullResync _ _ _ m)) with (master_repl_offset m).
    change (slaves (replicationSetupSlaveForFullResync _ _ _ m)) with (upd_one (replica_id r) (resynced (master_repl_offset m) sent) (slaves m)).
    unfold upd_one. rewrite <- list_fmap_compose. apply list_fmap_ext. intros k q _. unfold compose.
    rewrite fmap_cons. destruct (decide (replica_id q = replica_id r)) as [Eq|Eq].
    + destruct (resynced_fields (master_repl_offset m) sent q) as (Hid & _). rewrite Hid, Eq, decide_False by done.
      rewrite decide_True by (by left). done.
    + destruct (decide (replica_id q ∈ replica_id <$> filter (waiting req) rs)) as [Hin|Hin].
      * rewrite decide_True by (by right). done.
      * rewrite decide_False; [done|]. by intros [?|?]%elem_of_cons.
  - rewrite decide_False; [by apply IH|]. intros [E1 E2]. rewrite bool_decide_true, E2, Z.eqb_refl in E by done. done.
Qed.

Lemma setup_waiting_all e req m : NoDup (replica_id <$> slaves m) →
  same_rest m (setup_waiting e req (slaves m) m) ∧
  slaves (setup_waiting e req (slaves m) m) =
    (λ q, if decide (waiting req q) then resynced (master_repl_offset m) (line_sent e (replica_id q)) q else q) <$> slaves m.
Proof.
  intros Hn. destruct (setup_waiting_spec e req (slaves m) m Hn) as [H1 H2]. split; [done|]. rewrite H2. apply list_fmap_ext.
  intros k q Hq%list_elem_of_lookup_2. destruct (decide (waiting req q)) as [Hw|Hw].
  - rewrite decide_True; [done|]. apply list_elem_of_fmap_2, list_elem_of_filter. done.
  - rewrite decide_False; [done|]. intros (p & E & [Hp Hin]%list_elem_of_filter)%list_elem_of_fmap.
    pose proof (find_replica_in _ _ Hn Hq) as F1. pose proof (find_replica_in _ _ Hn Hin) as F2. rewrite E in F1. congruence.
Qed.

Lemma inactive_ref r : ¬ active r → ref_repl_buf_node r = None.
Proof. intros H. destruct (ref_repl_buf_node r) eqn:E; [|done]. destruct H. right. by rewrite E. Qed.

(** Where the replicas after a step come from: they are as before, or were told about a full synchronisation. *)
Definition from_old (m m' : master) : Prop :=
  ∀ r', r' ∈ slaves m' → ∃ q, q ∈ slaves m ∧ replica_id r' = replica_id q ∧
    (r' = q ∨ replstate r' = SLAVE_STATE_WAIT_BGSAVE_END).

Lemma from_old_refl m : from_old m m.
Proof. intros r Hr. exists r. auto. Qed.

Lemma stream_unchanged base stream told m : stream_ok base stream told m → stream_ok base stream (greet None m (slaves m) told) m.
Proof.
  intros Hok. rewrite greet_same; [done|]. intros r Hr. apply greeted_old; [|done]. by eapply repl_ok_ids, so_repl.
Qed.

Lemma continues_same psync base stream told m m' r : stream_ok base stream told m → r ∈ slaves m →
  replstate r ≠ SLAVE_STATE_WAIT_BGSAVE_START → position m' r = position m r →
  greeted psync m r = None ∧ continues m m' r.
Proof.
  intros Hok Hr Hst Hp. split; [apply greeted_old; [by eapply repl_ok_ids, so_repl|done]|]. by exists r.
Qed.

Lemma setup_ok base stream told e req m : stream_ok base stream told m →
  let m' := setup_waiting e req (slaves m) m in
  stream_ok base stream (greet None m (slaves m') told) m' ∧ from_old m m' ∧ repl_backlog m' = repl_backlog m.
Proof.
  intros Hok m'. pose proof Hok as [H1 H0 H2 H3]. pose proof (repl_ok_ids _ _ _ H1) as Hn.
  destruct (setup_waiting_all e req m Hn) as [Hrest Hsl]. fold m' in Hrest, Hsl.
  set (f := λ q, if decide (waiting req q) then resynced (master_repl_offset m) (line_sent e (replica_id q)) q else q) in Hsl.
  split; [|split; [|apply Hrest]].
  - eapply stream_regroup; [exact Hok| | |].
    + eapply same_rest_ok; [exact Hrest|]. rewrite Hsl. apply attr_spec; [done|]. intros r. unfold f. case_decide; [|done].
      destruct (resynced_fields (master_repl_offset m) (line_sent e (replica_id r)) r) as (? & ? & ? & _). done.
    + rewrite Hsl. apply Forall_fmap. eapply Forall_impl; [exact H3|]. intros r Hr. unfold compose, f. case_decide; [|done].
      intros E. destruct (resynced_fields (master_repl_offset m) (line_sent e (replica_id r)) r) as (_ & _ & _ & E' & _). by rewrite E' in E.
    + rewrite Hsl. intros r' (q & -> & Hq)%list_elem_of_fmap Hst. unfold f in *. case_decide as Hw.
      * destruct (resynced_fields (master_repl_offset m) (line_sent e (replica_id q)) q) as (F1 & F2 & F3 & F4 & F5 & F6 & F7).
        set (r' := resynced _ _ q) in *. rewrite (greeted_end None m r' F4).
        -- rewrite Forall_forall in H3. destruct (H3 q Hq (proj1 Hw)) as (Hna & _ & Hk). rewrite F5. split_and!.
           ++ intros _. rewrite (same_rest_position _ _ _ Hrest). unfold position. by rewrite F2, (inactive_ref _ Hna).
           ++ destruct H1 as (bl & Hb & _). rewrite (ro_offset _ _ _ _ Hb). lia.
           ++ intros _. by rewrite F5.
           ++ intros Hh. rewrite F6, F7. by apply Hk.
        -- rewrite F1, (find_replica_in _ _ Hn Hq). intros q' [= <-]. by rewrite (proj1 Hw).
      * destruct (continues_same None _ _ _ _ m' q Hok Hq Hst) as [-> Hc]; [by apply same_rest_position|done].
  - unfold from_old. rewrite Hsl. intros r' (q & -> & Hq)%list_elem_of_fmap. exists q. unfold f. split; [done|]. case_decide; [|auto].
    destruct (resynced_fields (master_repl_offset m) (line_sent e (replica_id q)) q) as (? & _ & _ & ? & _). auto.
Qed.

Lemma start_ok base stream told e mincapa req m : stream_ok base stream told m →
  Z.land req SLAVE_REQ_RDB_MASK = 0 ∨ Z.land mincapa SLAVE_CAPA_EOF ≠ 0 →
  ∃ m' b, startBgsaveForReplication e mincapa req m = Some (m', b) ∧
    stream_ok base stream (greet None m (slaves m') told) m' ∧ from_old m m' ∧ repl_backlog m' = repl_backlog m.
Proof.
  intros Hok Hreq. unfold startBgsaveForReplication.
  assert (((repl_diskless_sync e || negb (Z.land req SLAVE_REQ_RDB_MASK =? 0)) && negb (Z.land mincapa SLAVE_CAPA_EOF =? 0) ||
    (Z.land req SLAVE_REQ_RDB_MASK =? 0)) = true) as ->.
  { destruct (Z.eqb_spec (Z.land req SLAVE_REQ_RDB_MASK) 0) as [E|E]; [apply orb_true_r|]. destruct Hreq as [Hreq|Hreq]; [done|].
    rewrite (proj2 (Z.eqb_neq _ _) Hreq). by rewrite orb_true_r. }
  cbn [negb]. destruct (save_ok e); cbn [negb]; do 2 eexists; (split; [done|]).
  - by apply setup_ok.
  - pose proof Hok as [H1 H0 H2 H3]. split; [|split; [|done]].
    + eapply stream_regroup; [exact Hok| | |].
      * apply drop_spec; [done|]. intros r Hr HP. apply dec_stable in HP. rewrite Forall_forall in H3. destruct (H3 r Hr HP) as [Hna _].
        by apply inactive_ref.
      * cbn. apply Forall_forall. intros r [_ Hr]%list_elem_of_filter. rewrite Forall_forall in H3. by apply H3.
      * cbn. intros r [_ Hr]%list_elem_of_filter Hst.
        by destruct (continues_same None _ _ _ _ (set_slaves (filter (λ r, replstate r ≠ SLAVE_STATE_WAIT_BGSAVE_START) (slaves m)) m) r Hok Hr Hst eq_refl) as [-> Hc].
    + intros r [_ Hr]%list_elem_of_filter. exists r. auto.
Qed.

Lemma candidate_spec c m s : attach_candidate c m = Some s →
  s ∈ slaves m ∧ replstate s = SLAVE_STATE_WAIT_BGSAVE_END ∧ (rdb_only s = false ∨ c_rdb_only c = true).
Proof.
  unfold attach_candidate. set (P := λ s, _ ∧ _). intros H. assert (s ∈ filter P (slaves m)) as [[? ?] ?]%list_elem_of_filter; [|done].
  destruct (filter P (slaves m)); [done|]. cbn in H. simplify_eq. by left.
Qed.

Lemma end_active s : replstate s = SLAVE_STATE_WAIT_BGSAVE_END → rdb_only s = false →
  (close_asap s = true → ref_repl_buf_node s ≠ None) → active s.
Proof.
  intros H1 H2 H3. destruct (close_asap s) eqn:E; [right; by apply H3|]. left. unfold canFeedReplicaReplBuffer.
  rewrite H2, E, bool_decide_false by (by rewrite H1). done.
Qed.

(** The buffer that the new replica gets from the one whose snapshot it joins. *)
Lemma attach_copy base stream told c m n s : stream_ok base stream told m → find_replica (c_id c) m = Some n →
  replstate n = SLAVE_STATE_WAIT_BGSAVE_START → rdb_only n = c_rdb_only c → attach_candidate c m = Some s →
  (close_asap s = true → ref_repl_buf_node s ≠ None) →
  ∃ m' n', (if c_rdb_only c then Some m else copyReplicaOutputBuffer (c_id c) (replica_id s) m) = Some m' ∧
    repl_ok base stream m' ∧ slaves m' = upd_one (c_id c) (λ _, n') (slaves m) ∧ (∀ q, position m' q = position m q) ∧
    replica_id n' = c_id c ∧ repl_backlog m' = repl_backlog m ∧ acks_within n' base ∧ base < psync_initial_offset s + 1 ∧
    ((rdb_only n' = true ∧ ref_repl_buf_node n' = None) ∨ position m' n' = psync_initial_offset s + 1).
Proof.
  intros Hok Hf Hnst Hrdb Hs Hcl. pose proof Hok as [H1 H0 H2 H3]. pose proof (repl_ok_ids _ _ _ H1) as Hn.
  destruct (candidate_spec _ _ _ Hs) as (Hin & Hst & Hor). destruct (find_replica_elem _ _ _ Hf) as [Hnin Hid].
  rewrite Forall_forall in H2, H3. destruct (H3 n Hnin Hnst) as (Hna & _ & Hk). pose proof (inactive_ref _ Hna) as Hr.
  destruct (H2 s Hin) as (start & s0 & _ & F2 & _ & F3 & F5 & _); [by rewrite Hst|]. destruct (F5 Hst) as [-> ->]. cbn in F3.
  destruct (c_rdb_only c) eqn:Ec.
  - exists m, n. split_and!; try done; [|auto]. destruct (replica_split _ _ _ Hn Hf) as (rs1 & rs2 & Hl & _ & N1 & N2).
    rewrite Hl. by rewrite upd_one_split.
  - destruct Hor as [Hor|Hor]; [|done].
    destruct (copyReplicaOutputBuffer_spec base stream m (c_id c) (replica_id s) n s H1 Hf Hr (find_replica_in _ _ Hn Hin))
      as (m' & n' & E & K1 & K2 & K3 & _ & K5 & K6 & K7 & K8).
    exists m', n'. split_and!; try done.
    + unfold copyReplicaOutputBuffer in E. destruct (find_replica (replica_id s) m); [|done]. cbn in E.
      case_match; by injection E as <-.
    + intros Hh. rewrite K7, K8. by apply Hk.
    + right. rewrite K6, (F3 (end_active _ Hst Hor Hcl)). lia.
Qed.

Lemma attach_ok base stream told e c m n : stream_ok base stream told m → find_replica (c_id c) m = Some n →
  replstate n = SLAVE_STATE_WAIT_BGSAVE_START → rdb_only n = c_rdb_only c →
  (∀ s, attach_candidate c m = Some s → close_asap s = true → ref_repl_buf_node s ≠ None) →
  ∃ m', attach_to_snapshot e c m = Some m' ∧ stream_ok base stream (greet None m (slaves m') told) m' ∧ from_old m m' ∧
    repl_backlog m' = repl_backlog m.
Proof.
  intros Hok Hf Hnst Hrdb Hcl. unfold attach_to_snapshot. destruct (attach_candidate c m) as [s|] eqn:Es.
  2:{ exists m. split; [done|]. split; [by apply stream_unchanged|]. split; [apply from_old_refl|done]. }
  case_match; [|exists m; split; [done|]; split; [by apply stream_unchanged|]; split; [apply from_old_refl|done]].
  destruct (attach_copy _ _ _ _ _ _ _ Hok Hf Hnst Hrdb Es (Hcl s eq_refl)) as (m1 & n1 & -> & K1 & K2 & K3 & K4 & K5 & K6 & K7 & K8).
  rewrite option_bind_some. eexists. split; [done|]. set (sent := line_sent e (c_id c)). set (m' := replicationSetupSlaveForFullResync _ _ _ m1).
  pose proof Hok as [H1 H0 H2 H3]. pose proof (repl_ok_ids _ _ _ H1) as Hn.
  destruct (replica_split _ _ _ Hn Hf) as (rs1 & rs2 & Hl & Hid & N1 & N2).
  destruct (resynced_fields (psync_initial_offset s) sent n1) as (F1 & F2 & F3 & F4 & F5 & F6 & F7). set (n' := resynced (psync_initial_offset s) sent n1) in *.
  assert (slaves m' = rs1 ++ n' :: rs2) as Hl'.
  { unfold m', replicationSetupSlaveForFullResync, upd_replica. cbn. rewrite K2, Hl, upd_one_split by done. by apply upd_one_split. }
  assert (∀ q, position m' q = position m q) as Hpos by (intros q; rewrite <- K3; done).
  assert (∀ q, q ∈ rs1 ++ rs2 → q ∈ slaves m) as Hold.
  { intros q [Hq|Hq]%elem_of_app; rewrite Hl; apply elem_of_app; [by left|right; by right]. }
  assert (∀ r', r' ∈ slaves m' → r' = n' ∨ r' ∈ rs1 ++ rs2) as Hcase.
  { intros r'. rewrite Hl'. intros [Hq|[Hq|Hq]%elem_of_cons]%elem_of_app; [right; apply elem_of_app; by left|by left|right; apply elem_of_app; by right]. }
  split; [|split; [|done]].
  - eapply stream_regroup; [exact Hok| | |].
    + eapply slaveseldb_spec, attr_spec; [done|]. intros r. case_decide; [|done].
      destruct (resynced_fields (psync_initial_offset s) sent r) as (? & ? & ? & _). done.
    + apply Forall_forall. intros r' [->|Hq]%Hcase; [by intros E; rewrite F4 in E|]. rewrite Forall_forall in H3. by apply H3, Hold.
    + intros r' [->|Hq]%Hcase Hst.
      * rewrite (greeted_end None m n' F4); [|rewrite F1, K4, Hf; intros q [= <-]; by rewrite Hnst]. rewrite F5.
        split_and!; [|done|by rewrite F5|intros Hh; rewrite F6, F7; by apply K6]. intros Ha. destruct K8 as [[G1 G2]|G1].
        -- exfalso. destruct Ha as [Ha|Ha]; [|by rewrite F2 in Ha]. unfold canFeedReplicaReplBuffer in Ha.
           assert (rdb_only n' = true) as E by (rewrite <- G1; unfold n', resynced; by case_match). by rewrite E in Ha.
        -- rewrite Hpos, <- K3, <- G1. unfold position. by rewrite F2, F3.
      * by destruct (continues_same None _ _ _ _ m' r' Hok (Hold _ Hq) Hst (Hpos r')) as [-> Hc].
  - intros r' [->|Hq]%Hcase; [|exists r'; split; [by apply Hold|auto]]. exists n. split; [rewrite Hl; apply elem_of_app; right; by left|].
    split; [by rewrite F1, K4|auto].
Qed.

(** *** Synchronisation *)

Lemma find_replica_app i m r : find_replica i (set_slaves (slaves m ++ [r]) m) =
  match find_replica i m with Some q => Some q | None => if decide (replica_id r = i) then Some r else None end.
Proof.
  unfold find_replica. cbn. rewrite filter_app. destruct (filter _ (slaves m)); [|done]. cbn. by case_decide.
Qed.

Lemma new_inactive c pre : ¬ active (new_replica c SLAVE_STATE_WAIT_BGSAVE_START pre).
Proof. intros [H|H]; [|done]. unfold canFeedReplicaReplBuffer in H. cbn in H. by rewrite andb_false_r in H. Qed.

(** The new replica among the others, with a backlog. *)
Lemma add_waiting_ok e c pre w : world_ok w → find_replica (c_id c) (w_master w) = None →
  Z.land (c_req c) SLAVE_REQ_RDB_MASK = 0 ∨ Z.land (c_capa c) SLAVE_CAPA_EOF ≠ 0 →
  ∃ m', add_waiting e c pre (w_master w) = Some m' ∧ stream_ok (w_base w) (w_stream w) (w_told w) m' ∧
    slaves m' = slaves (w_master w) ++ [new_replica c SLAVE_STATE_WAIT_BGSAVE_START pre].
Proof.
  destruct w as [m base stream told]. unfold world_ok. cbn. intros Hok Hf Hreq. unfold add_waiting. cbn.
  set (n := new_replica c SLAVE_STATE_WAIT_BGSAVE_START pre).
  assert ((honest = true → 0 ≤ base) → waits_ok base n) as Hw.
  { intros H0 _. split; [apply new_inactive|]. split; [done|]. intros Hh. cbn. auto. }
  assert (follows base stream told m n) as Hfn by (by intros E). destruct (repl_backlog m) as [bl|] eqn:Ebl.
  - eexists. split; [done|]. split; [|done]. destruct Hok as [H1 H0 H2 H3]. split; [by apply append_spec|done| |].
    + cbn. apply Forall_app. split; [eapply Forall_impl; [exact H2|]; intros r Hr; exact Hr|]. constructor; [exact Hfn|done].
    + cbn. apply Forall_app. split; [done|]. constructor; [auto|done].
  - destruct Hok as (Hs & Hb & -> & Hm & H0). rewrite Hs. cbn. unfold createReplicationBacklog. cbn. rewrite Ebl. eexists. split; [done|]. cbn.
    split; [|done]. split; cbn; [|done|constructor; [by intros E|done]|constructor; [auto|done]].
    eexists. split; [split; cbn; [lia| |done|]|cbn; lia].
    + apply NoDup_singleton.
    + rewrite Hb. split; cbn; try done;
        [split; cbn; try done; constructor|by exists EmptyString|constructor|by intros k id ?%elem_of_nil|by repeat constructor].
Qed.

(** A greeting after the new replica was added is one of the whole step. *)
Lemma greeted_waiting psync c pre m m1 r' : slaves m1 = slaves m ++ [new_replica c SLAVE_STATE_WAIT_BGSAVE_START pre] →
  find_replica (c_id c) m = None →
  (∃ q, q ∈ slaves m1 ∧ replica_id r' = replica_id q ∧ (r' = q ∨ replstate r' = SLAVE_STATE_WAIT_BGSAVE_END)) →
  greeted psync m r' = greeted None m1 r'.
Proof.
  intros Hl Hf (q & Hq & Hid & Hor). set (n := new_replica c SLAVE_STATE_WAIT_BGSAVE_START pre) in *.
  assert (find_replica (replica_id r') m1 = match find_replica (replica_id r') m with
    | Some q => Some q | None => if decide (replica_id n = replica_id r') then Some n else None end) as Hfind.
  { rewrite <- find_replica_app. unfold find_replica. by rewrite Hl. }
  unfold greeted. rewrite Hfind. destruct (find_replica (replica_id r') m) as [p|] eqn:E; [done|].
  rewrite Hl in Hq. apply elem_of_app in Hq as [Hq|Hq%list_elem_of_singleton].
  - apply find_replica_none in E. destruct E. rewrite Hid. by apply list_elem_of_fmap_2.
  - subst q. destruct (decide (replica_id n = replica_id r')) as [_|Hne]; [|by destruct Hne]. destruct Hor as [->|Hor]; [done|]. rewrite Hor. by rewrite !decide_False.
Qed.

Lemma candidate_waiting c c' pre m m1 : slaves m1 = slaves m ++ [new_replica c' SLAVE_STATE_WAIT_BGSAVE_START pre] →
  attach_candidate c m1 = attach_candidate c m.
Proof. intros Hl. unfold attach_candidate. rewrite Hl, filter_app, (filter_cons _ _ []), decide_False by (by intros [? _]). by rewrite app_nil_r. Qed.

Lemma full_sync_ok e c pre psync w : world_ok w → find_replica (c_id c) (w_master w) = None →
  Z.land (c_req c) SLAVE_REQ_RDB_MASK = 0 ∨ Z.land (c_capa c) SLAVE_CAPA_EOF ≠ 0 →
  (∀ s, attach_candidate c (w_master w) = Some s → close_asap s = true → ref_repl_buf_node s ≠ None) →
  ∃ m', full_sync e c pre (w_master w) = Some m' ∧
    stream_ok (w_base w) (w_stream w) (greet psync (w_master w) (slaves m') (w_told w)) m'.
Proof.
  intros Hok Hf Hreq Hcl. destruct (add_waiting_ok e c pre w Hok Hf Hreq) as (m1 & E1 & Hok1 & Hl). unfold full_sync. rewrite E1, option_bind_some.
  assert (∀ m', stream_ok (w_base w) (w_stream w) (greet None m1 (slaves m') (w_told w)) m' → from_old m1 m' →
    stream_ok (w_base w) (w_stream w) (greet psync (w_master w) (slaves m') (w_told w)) m') as Hend.
  { intros m' H Hold. erewrite greet_ext; [exact H|]. intros r' Hr'. eapply greeted_waiting; [exact Hl|done|]. by apply Hold. }
  assert (∃ m', Some m1 = Some m' ∧ stream_ok (w_base w) (w_stream w) (greet psync (w_master w) (slaves m') (w_told w)) m') as Hstay.
  { exists m1. split; [done|]. apply Hend; [by apply stream_unchanged|apply from_old_refl]. }
  assert (find_replica (c_id c) m1 = Some (new_replica c SLAVE_STATE_WAIT_BGSAVE_START pre)) as Hf1.
  { apply (find_replica_in m1 (new_replica c SLAVE_STATE_WAIT_BGSAVE_START pre)); [by eapply repl_ok_ids, so_repl|].
    rewrite Hl. apply elem_of_app. right. by left. }
  destruct (active_child e) as [[]|]; [|done| |].
  - destruct (attach_ok _ _ _ e c m1 _ Hok1 Hf1 eq_refl eq_refl) as (m' & -> & K1 & K2 & _).
    + intros s. rewrite (candidate_waiting _ _ _ _ _ Hl). apply Hcl.
    + exists m'. split; [done|]. by apply Hend.
  - by destruct (_ && _).
  - destruct (_ && _); [done|]. destruct (start_ok _ _ _ e (c_capa c) (c_req c) m1 Hok1 Hreq) as (m' & b & -> & K1 & K2 & _).
    exists m'. split; [done|]. by apply Hend.
Qed.

Lemma partial_sync_ok base stream told c id offset sent m : stream_ok base stream told m → find_replica (c_id c) m = None →
  ∃ m' b, masterTryPartialResynchronization c id offset sent m = Some (m', b) ∧
    if b : bool then stream_ok base stream (greet (Some (id, offset)) m (slaves m') told) m' else m' = m.
Proof.
  intros Hok Hf. unfold masterTryPartialResynchronization. destruct (_ && _); [by do 2 eexists|].
  pose proof Hok as [H1 H0 H2 H3]. pose proof H1 as (bl & Hn & Hoff). rewrite (ro_backlog _ _ _ _ Hn).
  destruct (Z.ltb_spec offset (backlog_offset bl)) as [|L1]; [by do 2 eexists|].
  destruct (Z.ltb_spec (backlog_offset bl + histlen bl) offset) as [|L2]; [by do 2 eexists|]. cbn [orb].
  set (n := new_replica c SLAVE_STATE_ONLINE false). set (m1 := set_slaves (slaves m ++ [n]) m).
  assert (repl_ok base stream m1) as Hok1 by (by apply append_spec).
  assert (find_replica (c_id c) m1 = Some n) as Hf1.
  { apply (find_replica_in m1 n); [by eapply repl_ok_ids|]. apply elem_of_app. right. by left. }
  assert (∀ f, upd_one (c_id c) f (slaves m1) = slaves m ++ [f n]) as Hupd.
  { intros f. apply upd_one_split; [done|by apply find_replica_none|by apply not_elem_of_nil]. }
  assert (base < offset) as Hbase.
  { destruct (ro_buffer _ _ _ _ Hn) as [_ [gone Hg] _ _ Hh _ _]. pose proof (ro_offset _ _ _ _ Hn) as Ho.
    rewrite Hg, string_length_app in Ho. lia. }
  assert (∀ n', replica_id n' = c_id c → replstate n' = SLAVE_STATE_ONLINE → greeted (Some (id, offset)) m n' = Some offset) as Hgr.
  { intros n' E1 E2. unfold greeted. by rewrite E2, E1, Hf. }
  destruct sent; cbn [negb].
  - destruct (addReplyReplicationBacklog_spec base stream m1 bl (c_id c) n offset Hok1 (ro_backlog _ _ _ _ Hn) Hf1 eq_refl (conj L1 L2))
      as (m' & k & n' & -> & K1 & K2 & K3 & K4 & K5 & K6 & _ & K7 & K8). rewrite option_bind_some. do 2 eexists. split; [done|].
    rewrite Hupd in K2. eapply stream_regroup; [exact Hok|done| |].
    + rewrite K2. apply Forall_app. split; [done|]. constructor; [|done]. intros E. by rewrite K5 in E.
    + rewrite K2. intros r' [Hr|Hr%list_elem_of_singleton]%elem_of_app Hst.
      * by destruct (continues_same (Some (id, offset)) _ _ _ _ m' r' Hok Hr Hst (K3 r')) as [-> Hc].
      * subst r'. rewrite Hgr by done. split_and!; [done|done|by rewrite K5|]. intros Hh. rewrite K7, K8. cbn. auto.
  - do 2 eexists. split; [done|]. unfold upd_replica. fold (upd_one (c_id c) set_close_asap (slaves m1)). rewrite Hupd.
    eapply stream_regroup; [exact Hok| | |].
    + apply (append_spec base stream m (set_close_asap n)); done.
    + cbn. apply Forall_app. split; [done|]. constructor; [by intros E|done].
    + intros r' [Hr|Hr%list_elem_of_singleton]%elem_of_app Hst.
      * by destruct (continues_same (Some (id, offset)) _ _ _ _ (set_slaves (slaves m ++ [set_close_asap n]) m1) r' Hok Hr Hst eq_refl) as [-> Hc].
      * subst r'. rewrite Hgr by done. split_and!; [|done|done|intros Hh; cbn; auto].
        intros [Ha|Ha]; [|done]. unfold canFeedReplicaReplBuffer in Ha. cbn in Ha. by rewrite andb_false_r in Ha.
Qed.

Lemma stream_world base stream told m : stream_ok base stream told m → world_ok (mkWorld m base stream told).
Proof. intros Hok. unfold world_ok. cbn. pose proof (so_repl _ _ _ _ Hok) as (bl & Hn & _). by rewrite (ro_backlog _ _ _ _ Hn). Qed.

Lemma world_ids w : world_ok w → NoDup (replica_id <$> slaves (w_master w)).
Proof.
  unfold world_ok. destruct (repl_backlog (w_master w)); [intros H; by eapply repl_ok_ids, so_repl|]. intros (-> & _). apply NoDup_nil_2.
Qed.

Lemma sync_ok e c psync w : world_ok w →
  (∀ s, attach_candidate c (w_master w) = Some s → close_asap s = true → ref_repl_buf_node s ≠ None) →
  ∃ m', syncCommand e c psync (w_master w) = Some m' ∧
    world_ok (mkWorld m' (w_base w) (w_stream w) (greet psync (w_master w) (slaves m') (w_told w))).
Proof.
  intros Hok Hcl. assert (∃ m', Some (w_master w) = Some m' ∧
    world_ok (mkWorld m' (w_base w) (w_stream w) (greet psync (w_master w) (slaves m') (w_told w)))) as Hstay.
  { eexists. split; [done|]. rewrite greet_same; [by destruct w|]. intros r Hr. apply greeted_old; [by apply world_ids|done]. }
  unfold syncCommand. destruct (find_replica (c_id c) (w_master w)) as [r|] eqn:Hf; [done|]. destruct (c_pending c); [done|].
  assert (∀ pre, Z.land (c_req c) SLAVE_REQ_RDB_MASK = 0 ∨ Z.land (c_capa c) SLAVE_CAPA_EOF ≠ 0 →
    ∃ m', full_sync e c pre (w_master w) = Some m' ∧
      world_ok (mkWorld m' (w_base w) (w_stream w) (greet psync (w_master w) (slaves m') (w_told w)))) as Hfull.
  { intros pre Hreq. destruct (full_sync_ok e c pre psync w Hok Hf Hreq Hcl) as (m' & E & H). exists m'. split; [done|]. by apply stream_world. }
  destruct (negb _ && _) eqn:Eg; [done|].
  assert (Z.land (c_req c) SLAVE_REQ_RDB_MASK = 0 ∨ Z.land (c_capa c) SLAVE_CAPA_EOF ≠ 0) as Hreq.
  { apply andb_false_iff in Eg as [Eg|Eg]; [left|right; by apply Z.eqb_neq]. apply negb_false_iff in Eg. by apply Z.eqb_eq. }
  destruct psync as [[id offset]|]; [|by apply Hfull]. unfold world_ok in Hok. destruct (repl_backlog (w_master w)) eqn:Ebl.
  - destruct (partial_sync_ok _ _ _ c id offset (line_sent e (c_id c)) _ Hok Hf) as (m' & b & -> & Hb). rewrite option_bind_some.
    destruct b; [exists m'; split; [done|]; by apply stream_world|]. subst m'. by apply Hfull.
  - assert (masterTryPartialResynchronization c id offset (line_sent e (c_id c)) (w_master w) = Some (w_master w, false)) as ->.
    { unfold masterTryPartialResynchronization. rewrite Ebl. by case_match. }
    rewrite option_bind_some. by apply Hfull.
Qed.

(** *** The cron *)

Lemma eof_and a b : Z.land a SLAVE_CAPA_EOF ≠ 0 → Z.land b SLAVE_CAPA_EOF ≠ 0 → Z.land (Z.land a b) SLAVE_CAPA_EOF ≠ 0.
Proof.
  assert (∀ x, Z.land x SLAVE_CAPA_EOF = Z.b2z (Z.odd x)) as H.
  { intros x. change SLAVE_CAPA_EOF with (Z.ones 1). rewrite Z.land_ones by done. rewrite Zmod_odd. by destruct (Z.odd x). }
  rewrite !H, <- !Z.bit0_odd, Z.land_spec. by destruct (Z.testbit a 0), (Z.testbit b 0).
Qed.

Definition group_ok (found : option (Z * Z * Z * Z)) : Prop :=
  match found with
  | Some (mincapa, req, _, _) => Z.land req SLAVE_REQ_RDB_MASK = 0 ∨ Z.land mincapa SLAVE_CAPA_EOF ≠ 0
  | None => True
  end.

Lemma waiting_group_ok base e rs : ∀ found, Forall (waits_ok base) rs → group_ok found → group_ok (waiting_group e rs found).
Proof.
  induction rs as [|r rs IH]; intros found Hw Hg; [done|]. apply Forall_cons in Hw as [Hr Hw]. cbn. apply IH; [done|].
  case_bool_decide as E; cbn [negb]; [|done]. destruct (Hr E) as (_ & Hreq & _). destruct found as [[[[mincapa req] n] idle]|]; [|done].
  destruct (Z.eqb_spec req (slave_req r)) as [->|]; cbn [negb]; [|done]. cbn in *.
  destruct Hg as [Hg|Hg], Hreq as [Hq|Hq]; auto. right. by apply eof_and.
Qed.

Lemma pending_fork_ok base stream told e m : stream_ok base stream told m →
  ∃ m', replicationStartPendingFork e m = Some m' ∧ stream_ok base stream (greet None m (slaves m') told) m' ∧
    repl_backlog m' = repl_backlog m.
Proof.
  intros Hok. unfold replicationStartPendingFork. assert (∃ m', Some m = Some m' ∧
    stream_ok base stream (greet None m (slaves m') told) m' ∧ repl_backlog m' = repl_backlog m) as Hstay.
  { exists m. split; [done|]. split; [by apply stream_unchanged|done]. }
  unfold shouldStartChildReplication. destruct (active_child e); [done|].
  pose proof (waiting_group_ok base e (slaves m) None (so_waits _ _ _ _ Hok) I) as Hg.
  destruct (waiting_group e (slaves m) None) as [[[[mincapa req] n] idle]|]; [|done]. rewrite option_bind_some. destruct (_ || _); [|done].
  destruct (start_ok _ _ _ e mincapa req m Hok Hg) as (m' & b & -> & K1 & _ & K3). by exists m'.
Qed.

Lemma refs_length rs id : refs rs id ≤ Z.of_nat (length rs).
Proof. induction rs as [|r rs IH]; [done|]. cbn. unfold refers. case_decide; lia. Qed.

Lemma first_block_ok base stream m : repl_ok base stream m →
  match repl_buffer_blocks m with
  | [] => Some m
  | o :: _ => if (0 <? refcount o) && (refcount o <=? Z.of_nat (length (slaves m)) + 1) then Some m else None
  end = Some m.
Proof.
  intros (bl & [_ _ _ [_ _ Hc Hb _ _ _]] & _). destruct (repl_buffer_blocks m) as [|o l]; [done|]. apply Forall_cons in Hc as [Hc _].
  rewrite Hb in Hc. unfold own in Hc. cbn in Hc. rewrite decide_True in Hc by done.
  pose proof (refs_nonneg (slaves m) (block_id o)). pose proof (refs_length (slaves m) (block_id o)).
  by rewrite (proj2 (Z.ltb_lt _ _)), (proj2 (Z.leb_le _ _)) by lia.
Qed.

Lemma free_backlog_ok base stream m bl id : repl_ok base stream m → repl_backlog m = Some bl → slaves m = [] →
  ∃ m', freeReplicationBacklog (change_ids id m) = Some m' ∧ repl_backlog m' = None ∧ slaves m' = [] ∧ repl_buffer_blocks m' = [] ∧
    master_repl_offset m' = base + slen stream.
Proof.
  intros (bl' & [Ho _ Hbl Hb] & _) E Hs. assert (bl' = bl) as -> by congruence. unfold freeReplicationBacklog. cbn. rewrite Hs, E.
  destruct Hb as [_ _ Hc Hh _ _ _]. rewrite Hh in *. rewrite Hs in Hc. destruct (repl_buffer_blocks m) as [|o l]; cbn; [by eexists|].
  apply Forall_cons in Hc as [Hc _]. unfold own in Hc. cbn in Hc. rewrite decide_True in Hc by done.
  unfold find_block. rewrite filter_cons, decide_True by done. cbn. rewrite Hc. by eexists.
Qed.

Lemma fork_empty e m : slaves m = [] → replicationStartPendingFork e m = Some m.
Proof. intros H. unfold replicationStartPendingFork, shouldStartChildReplication. rewrite H. cbn. by destruct (active_child e). Qed.

Lemma cron_rest base stream told e m : stream_ok base stream told m →
  ∃ m', (m ← replicationStartPendingFork e m;
         match repl_buffer_blocks m with
         | [] => Some m
         | o :: _ => if (0 <? refcount o) && (refcount o <=? Z.of_nat (length (slaves m)) + 1) then Some m else None
         end) = Some m' ∧ stream_ok base stream (greet None m (slaves m') told) m'.
Proof.
  intros Hok. destruct (pending_fork_ok _ _ _ e m Hok) as (m' & -> & K1 & _). rewrite option_bind_some.
  exists m'. split; [|done]. by eapply first_block_ok, so_repl.
Qed.

Section steps.
Variable usable : nat → nat.
Hypothesis usable_enough : ∀ n, (n ≤ usable n)%nat.
Variable over_limits : master → replica → bool.
Variable dbnum : Z.
#[local] Set Default Proof Using "Type".

Lemma cron_ok e w : world_ok w → ∃ w', step usable over_limits dbnum (Cron e) w = Some w' ∧ world_ok w'.
Proof.
  clear usable_enough. destruct w as [m base stream told]. intros Hok. cbn. unfold world_ok in Hok. cbn in Hok. destruct (repl_backlog m) as [bl|] eqn:Ebl.
  - assert (∃ m', (m ← replicationStartPendingFork e m;
         match repl_buffer_blocks m with
         | [] => Some m
         | o :: _ => if (0 <? refcount o) && (refcount o <=? Z.of_nat (length (slaves m)) + 1) then Some m else None
         end) = Some m' ∧ stream_ok base stream (greet None m (slaves m') told) m') as (m' & E & Hok') by (by apply cron_rest).
    assert (∃ w', (m' ← Some m'; Some (match repl_backlog m' with
            | None => mkWorld m' (master_repl_offset m') EmptyString told
            | Some _ => mkWorld m' base stream (greet None m (slaves m') told) end)) = Some w' ∧ world_ok w') as Hrest.
    { eexists. split; [done|]. pose proof (so_repl _ _ _ _ Hok') as (bl' & Hn & _). rewrite (ro_backlog _ _ _ _ Hn). by apply stream_world. }
    unfold replicationCron. rewrite Ebl. destruct (slaves m) as [|r rs] eqn:Es; [|by rewrite option_bind_some, E].
    destruct (backlog_expired e); [|by rewrite option_bind_some, E].
    destruct (free_backlog_ok _ _ _ _ (random_id e) (so_repl _ _ _ _ Hok) Ebl Es) as (m1 & -> & B1 & B2 & B3 & B4). rewrite option_bind_some.
    rewrite fork_empty, option_bind_some, B3, option_bind_some by done. eexists. split; [done|]. rewrite B1.
    unfold world_ok. cbn. rewrite B1. split_and!; try done. intros Hh. pose proof (so_base _ _ _ _ Hok Hh). lia.
  - destruct Hok as (H1 & H2 & H3 & H4 & H5). unfold replicationCron. rewrite Ebl, H1, option_bind_some.
    rewrite fork_empty, option_bind_some, H2, option_bind_some, Ebl by done. eexists. split; [done|].
    unfold world_ok. cbn. rewrite Ebl. split_and!; try done. intros Hh. rewrite H4. by apply H5.
Qed.

Lemma step_ok ev w : world_ok w → allowed dbnum honest ev w → ∃ w', step usable over_limits dbnum ev w = Some w' ∧ world_ok w'.
Proof using usable_enough.
  intros Hok Hal. destruct (repl_backlog (w_master w)) as [bl|] eqn:Ebl; destruct w as [m base stream told]; cbn in Ebl.
  - assert (stream_ok base stream told m) as Hs by (unfold world_ok in Hok; cbn in Hok; by rewrite Ebl in Hok).
    pose proof (so_repl _ _ _ _ Hs) as Hr. destruct ev; cbn [step w_master w_base w_stream w_told].
    + destruct (replicationFeedSlaves_spec usable usable_enough over_limits dbnum base stream m dictid argv Hr Hal) as (m' & -> & K1 & K2).
      rewrite option_bind_some, Ebl. eexists. split; [done|]. apply stream_world. eapply stream_moved; [done|done|by apply all_kept_moved].
    + destruct (feedReplicationBuffer_spec usable usable_enough over_limits base stream m buf Hr) as (m' & E & [K1 K2 _]).
      unfold replicationFeedStreamFromMasterStream. rewrite Ebl, E. exists (mkWorld m' base (stream +:+ buf) told).
      split; [by destruct (slaves m)|]. apply stream_world. eapply stream_moved; [done|done|by apply all_kept_moved].
    + destruct (write_step_ok (mkWorld m base stream told) i n) as (w' & E & K1 & K2); [cbn; by rewrite Ebl|done|].
      exists w'. split; [done|]. destruct w'. by apply stream_world.
    + destruct (sync_ok e c psync (mkWorld m base stream told) Hok Hal) as (m' & E & K). cbn in E. rewrite E, option_bind_some. by eexists.
    + eexists. split; [done|]. by apply stream_world, bgsave_ends_ok.
    + destruct (find_replica i m) as [r|] eqn:Hf; [|by eexists]. case_decide as Hst; [|by eexists].
      destruct (bulk_sent_ok _ _ _ _ _ _ Hs Hf Hst) as (m' & -> & K). rewrite option_bind_some. eexists. split; [done|]. by apply stream_world.
    + eexists. split; [done|]. by eapply stream_world, ack_ok.
    + destruct (find_replica i m) as [r|] eqn:Hf; [|by eexists].
      destruct (free_ok _ _ _ _ _ _ Hs Hf) as (m' & -> & K). rewrite option_bind_some. eexists. split; [done|]. by apply stream_world.
    + rewrite Ebl. pose proof Hr as (bl' & Hn & _).
      destruct (trim_spec (10 * REPL_BACKLOG_TRIM_BLOCKS_PER_CALL) _ _ _ _ Hn) as (m' & -> & K1 & K2 & _).
      rewrite option_bind_some. eexists. split; [done|]. apply stream_world. by eapply stream_kept.
    + by apply (cron_ok e (mkWorld m base stream told)).
  - unfold world_ok in Hok. cbn in Hok. rewrite Ebl in Hok. destruct Hok as (H1 & H2 & H3 & H4 & H5).
    assert (world_ok (mkWorld m base stream told)) as Hok by (unfold world_ok; cbn; by rewrite Ebl).
    assert (∀ i, find_replica i m = None) as Hnone by (intros i; unfold find_replica; by rewrite H1).
    destruct ev; cbn [step w_master w_base w_stream w_told]; rewrite ?Hnone, ?Ebl; try (by eexists).
    + unfold replicationFeedSlaves. rewrite (database_check _ _ Hal), Ebl, H1. cbn. eexists. split; [done|].
      unfold world_ok. cbn. rewrite Ebl. split_and!; try done; [lia|]. intros Hh. specialize (H5 Hh). lia.
    + unfold replicationFeedStreamFromMasterStream. rewrite Ebl, H1. by eexists.
    + unfold write_step. cbn. rewrite Hnone. by eexists.
    + destruct (sync_ok e c psync (mkWorld m base stream told) Hok Hal) as (m' & E & K). cbn in E. rewrite E, option_bind_some. by eexists.
    + eexists. split; [done|]. unfold world_ok. cbn. by rewrite Ebl, H1.
    + eexists. split; [done|]. unfold world_ok. cbn. by rewrite Ebl, H1.
    + by apply (cron_ok e (mkWorld m base stream told)).
Qed.

Lemma run_ok evs : ∀ w, world_ok w → all_allowed usable over_limits dbnum honest evs w → ∃ w', run usable over_limits dbnum evs w = Some w' ∧ world_ok w'.
Proof using usable_enough.
  induction evs as [|ev evs IH]; intros w Hok Hal; cbn [run]; [by exists w|]. destruct Hal as [Hev Hal].
  destruct (step_ok ev w Hok Hev) as (w1 & E & Hok1). rewrite E, option_bind_some. by apply IH, Hal.
Qed.
End steps.
End invariant.

(** ** What replicas are sent *)

(** A server without replicas. *)
Definition no_replicas (m : master) : Prop := slaves m = [] ∧ repl_buffer_blocks m = [] ∧ repl_backlog m = None.

Definition start_world (m : master) : world := mkWorld m (master_repl_offset m) EmptyString ∅.

Lemma start_world_ok honest m : no_replicas m → (honest = true → 0 ≤ master_repl_offset m) → world_ok honest (start_world m).
Proof. intros (H1 & H2 & H3) H0. unfold world_ok. cbn. by rewrite H3. Qed.

Lemma follows_end honest base stream told m r : repl_ok base stream m → r ∈ slaves m → follows honest base stream told m r →
  replstate r ≠ SLAVE_STATE_WAIT_BGSAVE_START →
  ∃ start s, told !! replica_id r = Some (start, s) ∧ base < start ∧ s = stake (String.length s) (from_offset base stream start) ∧
    (active r → hasPendingReplies r m = Some false → s = from_offset base stream start).
Proof.
  intros Hok Hr Hf Hst. destruct (Hf Hst) as (start & s & H1 & H2 & H3 & H4 & _). exists start, s. split_and!; try done.
  intros Ha Hp. pose proof (pending_end _ _ _ _ Hok Hr Hp) as E. specialize (H4 Ha). rewrite H3 at 1.
  apply stake_all. unfold from_offset. rewrite sdrop_length. lia.
Qed.

(** C21: over any sequence of the events of a master that starts without replicas
    (commands, partial writes to the replicas' sockets, SYNC and PSYNC with any outcome,
    snapshots, acknowledgements, clients that are freed, the cron and the trimming of the
    backlog), provided that nobody joins the snapshot of a replica that is being closed: no
    assertion of the replication code fails, and every replica that has got an answer to its
    request has been sent exactly the bytes of the stream from the offset it was
    told in that answer, and all of them when nothing is pending. *)
Theorem replicas_get_stream usable over_limits dbnum evs m : (∀ n, (n ≤ usable n)%nat) → no_replicas m →
  all_allowed usable over_limits dbnum false evs (start_world m) →
  ∃ w, run usable over_limits dbnum evs (start_world m) = Some w ∧
    ∀ r, r ∈ slaves (w_master w) → replstate r ≠ SLAVE_STATE_WAIT_BGSAVE_START →
      ∃ start s, w_told w !! replica_id r = Some (start, s) ∧ w_base w < start ∧
        s = stake (String.length s) (from_offset (w_base w) (w_stream w) start) ∧
        (active r → hasPendingReplies r (w_master w) = Some false → s = from_offset (w_base w) (w_stream w) start).
Proof.
  intros Hu Hm Hal. destruct (run_ok false usable Hu over_limits dbnum evs _ (start_world_ok false m Hm ltac:(done)) Hal) as (w & E & Hok).
  exists w. split; [done|]. unfold world_ok in Hok. intros r Hr Ha. destruct (repl_backlog (w_master w)).
  - destruct Hok as [H1 _ H2 _]. rewrite Forall_forall in H2. by apply (follows_end _ _ _ _ _ _ H1 Hr (H2 r Hr)).
  - destruct Hok as (E' & _). rewrite E' in Hr. by apply elem_of_nil in Hr.
Qed.

Definition sample_master : master := mkMaster [] 0 None 100 [] 1048576 (-1) "a" "0" (-1).
Definition sample_client (i : nat) : sync_client := mkSyncClient i false 3 0 false.
Definition sample_env (child : option child_type) (sent : nat → bool) : sync_env :=
  mkSyncEnv child false 0 0 true sent "b" (λ _, 0) false.
Definition sample_events : list event :=
  [Sync (sample_env None (λ _, true)) (sample_client 0) (Some ("?", -1)); Propagate 0 ["SET"; "x"; "1"];
   BgsaveEnds true false (λ _, true); BulkSent 0; WriteTo 0 (Some 7%nat)].

Lemma replicas_get_stream_witness :
  ∃ w, run id (λ _ _, false) 16 sample_events (start_world sample_master) = Some w ∧
    ∀ r, r ∈ slaves (w_master w) → replstate r ≠ SLAVE_STATE_WAIT_BGSAVE_START →
      ∃ start s, w_told w !! replica_id r = Some (start, s) ∧ w_base w < start ∧
        s = stake (String.length s) (from_offset (w_base w) (w_stream w) start) ∧
        (active r → hasPendingReplies r (w_master w) = Some false → s = from_offset (w_base w) (w_stream w) start).
Proof.
  apply (replicas_get_stream id (λ _ _, false) 16 sample_events sample_master); [done|done|].
  split; [done|]. intros w1 _. split; [cbn; lia|]. intros w2 _. split; [done|]. intros w3 _. split; [done|]. intros w4 _.
  split; [done|]. intros w5 _. done.
Defined.

(** A replica joins the snapshot of one that could not be written to, after a command. *)
Definition joining_events : list event :=
  [Sync (sample_env None (λ _, false)) (sample_client 0) (Some ("?", -1)); Propagate 0 ["SET"; "x"; "1"];
   Sync (sample_env (Some CHILD_RDB_DISK) (λ _, true)) (sample_client 1) (Some ("?", -1)); Free 0;
   BgsaveEnds true false (λ _, true); BulkSent 1; Propagate 0 ["INCR"; "y"]; WriteTo 1 (Some 1000%nat)].

(** A client may join the snapshot of a replica that is about to be closed and gets no more of the
    stream, since [syncCommand] does not look at CLIENT_CLOSE_ASAP: it is then told the offset
    of the snapshot, 100, but is never sent the command that follows it. *)
Theorem joining_closing_replica_gap :
  ∃ w, run id (λ _ _, false) 16 joining_events (start_world sample_master) = Some w ∧
    w_stream w = resp_request ["SELECT"; "0"] +:+ resp_request ["SET"; "x"; "1"] +:+ resp_request ["SELECT"; "0"] +:+ resp_request ["INCR"; "y"] ∧
    replstate <$> find_replica 1 (w_master w) = Some SLAVE_STATE_ONLINE ∧
    psync_initial_offset <$> find_replica 1 (w_master w) = Some 100 ∧
    w_told w !! 1%nat = Some (101, resp_request ["SELECT"; "0"] +:+ resp_request ["INCR"; "y"]).
Proof. eexists. split; [vm_compute; reflexivity|]. vm_compute. done. Qed.
