(* ===== verification/Wait.v ===== *)
(** * WAIT and WAITAOF

    src/redis/src/replication.c and src/redis/src/blocked.c: a client waits until enough replicas have
    acknowledged the stream up to its last write.  The client is answered at
    once, or blocked with the offset and the number, to be answered when
    acknowledgements have come or at its timeout.  The number that a blocked client
    waits for is an [int], while the command takes a [long].

    The stream, the replicas and what they were sent are those of
    [ReplicationRun].  Shown is that a reply never counts a replica that has not been
    sent all that the client wrote. *)

From S2P Require Import Prelude CLib Buffers Hiredis Util Replication ReplicationSpec ReplicationStream ReplicationRun.

#[local] Abbreviation slen s := (Z.of_nat (String.length s)).

(** ** The operations *)

Fixpoint count_online (acked : replica → bool) (rs : list replica) : Z :=
  match rs with
  | [] => 0
  | r :: rs =>
      (if negb (bool_decide (replstate r = SLAVE_STATE_ONLINE)) then 0 else if acked r then 1 else 0) + count_online acked rs
  end.

Definition replicationCountAcksByOffset (offset : Z) (m : master) : Z :=
  count_online (λ r, offset <=? repl_ack_off r) (slaves m).

Definition replicationCountAOFAcksByOffset (offset : Z) (m : master) : Z :=
  count_online (λ r, offset <=? repl_aof_off r) (slaves m).

(** A client that is blocked: [btype] is BLOCKED_WAITAOF or BLOCKED_WAIT. *)
Record blockingState : Type := mkBlocked {
  b_client : nat;
  b_waitaof : bool;
  b_timeout : Z;
  b_reploffset : Z;
  b_numreplicas : Z;
  b_numlocal : Z;
}.

Inductive wait_reply : Type :=
| WaitReply (numreplicas : Z)
| WaitAofReply (numlocal numreplicas : Z)
| WaitError (err : string).

Record waiter : Type := mkWaiter {
  wt_world : world;
  clients_waiting_acks : list blockingState;
  get_ack_from_slaves : bool;
  woffs : gmap nat Z;
  aof_enabled : bool;
  fsynced_reploff : Z;
}.

Definition wt_master (s : waiter) : master := w_master (wt_world s).
Definition woff (s : waiter) (c : nat) : Z := default 0 (woffs s !! c).

Definition set_world (w : world) (s : waiter) : waiter :=
  mkWaiter w (clients_waiting_acks s) (get_ack_from_slaves s) (woffs s) (aof_enabled s) (fsynced_reploff s).
Definition set_waiting (l : list blockingState) (s : waiter) : waiter :=
  mkWaiter (wt_world s) l (get_ack_from_slaves s) (woffs s) (aof_enabled s) (fsynced_reploff s).
Definition set_getack (b : bool) (s : waiter) : waiter :=
  mkWaiter (wt_world s) (clients_waiting_acks s) b (woffs s) (aof_enabled s) (fsynced_reploff s).

(** The fields [numreplicas] and [numlocal] are of type [int]. *)
Definition blockForReplication (c : nat) (timeout offset numreplicas : Z) (s : waiter) : waiter :=
  set_waiting (mkBlocked c false timeout offset (wrap_s 32 numreplicas) 0 :: clients_waiting_acks s) s.

Definition blockForAofFsync (c : nat) (timeout offset numlocal numreplicas : Z) (s : waiter) : waiter :=
  set_waiting (mkBlocked c true timeout offset (wrap_s 32 numreplicas) numlocal :: clients_waiting_acks s) s.

Definition replicationRequestAckFromSlaves (s : waiter) : waiter := set_getack true s.

(** With its arguments parsed, on a server that is no replica; [deny] is
    CLIENT_DENY_BLOCKING. *)
Definition waitCommand (c : nat) (numreplicas timeout : Z) (deny : bool) (s : waiter) : waiter * option wait_reply :=
  let ackreplicas := replicationCountAcksByOffset (woff s c) (wt_master s) in
  if (numreplicas <=? ackreplicas) || deny then (s, Some (WaitReply ackreplicas))
  else (replicationRequestAckFromSlaves (blockForReplication c timeout (woff s c) numreplicas s), None).

Definition waitaof_disabled : string := "WAITAOF cannot be used when numlocal is set but appendonly is disabled.".

Definition waitaofCommand (c : nat) (numlocal numreplicas timeout : Z) (deny : bool) (s : waiter) : waiter * option wait_reply :=
  if negb (numlocal =? 0) && negb (aof_enabled s) then (s, Some (WaitError waitaof_disabled))
  else
    let ackreplicas := replicationCountAOFAcksByOffset (woff s c) (wt_master s) in
    let acklocal := Z.b2z (woff s c <=? fsynced_reploff s) in
    if ((numreplicas <=? ackreplicas) && (numlocal <=? acklocal)) || deny then (s, Some (WaitAofReply acklocal ackreplicas))
    else (replicationRequestAckFromSlaves (blockForAofFsync c timeout (woff s c) numlocal numreplicas s), None).

(** The loop of [processClientsWaitingReplicas]: [last] and [last_aof] are the offset and
    the count of the client that was satisfied last; the clients that stay, and the
    replies. *)
Fixpoint process_loop (s : waiter) (last last_aof : Z * Z) (l : list blockingState) : list blockingState * list (nat * wait_reply) :=
  match l with
  | [] => ([], [])
  | c :: l =>
      if b_waitaof c && negb (b_numlocal c =? 0) && negb (aof_enabled s) then
        let '(stay, replies) := process_loop s last last_aof l in
        (stay, (b_client c, WaitError waitaof_disabled) :: replies)
      else
        let remembered := if b_waitaof c then last_aof else last in
        let shortcut := negb (remembered.1 =? 0) && (b_reploffset c <=? remembered.1) && (b_numreplicas c <=? remembered.2) in
        let numreplicas :=
          if shortcut then remembered.2
          else if b_waitaof c then replicationCountAOFAcksByOffset (b_reploffset c) (wt_master s)
          else replicationCountAcksByOffset (b_reploffset c) (wt_master s) in
        if negb shortcut && (numreplicas <? b_numreplicas c) then
          let '(stay, replies) := process_loop s last last_aof l in (c :: stay, replies)
        else
          let now := if shortcut then remembered else (b_reploffset c, numreplicas) in
          let last := if b_waitaof c then last else now in
          let last_aof := if b_waitaof c then now else last_aof in
          let numlocal := Z.b2z (b_reploffset c <=? fsynced_reploff s) in
          let '(stay, replies) := process_loop s last last_aof l in
          if b_waitaof c && (numlocal <? b_numlocal c) then (c :: stay, replies)
          else (stay, (b_client c, if b_waitaof c then WaitAofReply numlocal numreplicas else WaitReply numreplicas) :: replies)
  end.

Definition processClientsWaitingReplicas (s : waiter) : waiter * list (nat * wait_reply) :=
  let '(stay, replies) := process_loop s (0, 0) (0, 0) (clients_waiting_acks s) in (set_waiting stay s, replies).

Definition replyToBlockedClientTimedOut (s : waiter) (c : blockingState) : wait_reply :=
  if b_waitaof c
  then WaitAofReply (Z.b2z (b_reploffset c <=? fsynced_reploff s)) (replicationCountAOFAcksByOffset (b_reploffset c) (wt_master s))
  else WaitReply (replicationCountAcksByOffset (b_reploffset c) (wt_master s)).

Definition checkBlockedClientTimeout (now : Z) (c : blockingState) : bool := negb (b_timeout c =? 0) && (b_timeout c <? now).

Definition handleBlockedClientsTimeout (now : Z) (s : waiter) : waiter * list (nat * wait_reply) :=
  let l := clients_waiting_acks s in
  (set_waiting (filter (λ c, checkBlockedClientTimeout now c = false) l) s,
   (λ c, (b_client c, replyToBlockedClientTimedOut s c)) <$> filter (λ c, checkBlockedClientTimeout now c = true) l).

(** [unblockClientWaitingReplicas], for a client that is freed. *)
Definition unblockClientWaitingReplicas (c : nat) (s : waiter) : waiter :=
  set_waiting (filter (λ b, b_client b ≠ c) (clients_waiting_acks s)) s.

(** The end of [call]: the offset after the last command of the client that was propagated. *)
Definition remember_woff (c : nat) (old : Z) (s : waiter) : waiter :=
  if old =? master_repl_offset (wt_master s) then s
  else mkWaiter (wt_world s) (clients_waiting_acks s) (get_ack_from_slaves s)
         (<[c := master_repl_offset (wt_master s)]> (woffs s)) (aof_enabled s) (fsynced_reploff s).

(** ** Events *)

Inductive wait_event : Type :=
| Replication (ev : event)
| Command (c : nat) (propagated : list (Z * list string))
| CallWait (c : nat) (numreplicas timeout : Z) (deny : bool)
| CallWaitAof (c : nat) (numlocal numreplicas timeout : Z) (deny : bool)
| Timeouts (now : Z)
| BlockedBeforeSleep
| SendGetack
| FreeWaiting (c : nat)
| Fsynced (offset : Z)
| AofConfig (enabled : bool).

(** A client that is blocked runs no commands. *)
Definition is_blocked (c : nat) (s : waiter) : bool := existsb (λ b, Nat.eqb (b_client b) c) (clients_waiting_acks s).

Section run.
Variable usable : nat → nat.
Variable over_limits : master → replica → bool.
Variable dbnum : Z.

Definition answer (c : nat) (r : waiter * option wait_reply) : waiter * list (nat * wait_reply) :=
  (r.1, match r.2 with Some reply => [(c, reply)] | None => [] end).

Definition wait_step (ev : wait_event) (s : waiter) : option (waiter * list (nat * wait_reply)) :=
  match ev with
  | Replication ev => w ← step usable over_limits dbnum ev (wt_world s); Some (set_world w s, [])
  | Command c cmds =>
      if is_blocked c s then Some (s, [])
      else
        w ← run usable over_limits dbnum ((λ p, Propagate p.1 p.2) <$> cmds) (wt_world s);
        Some (remember_woff c (master_repl_offset (wt_master s)) (set_world w s), [])
  | CallWait c n timeout deny =>
      Some (if is_blocked c s then (s, []) else answer c (waitCommand c n timeout deny s))
  | CallWaitAof c l n timeout deny =>
      Some (if is_blocked c s then (s, []) else answer c (waitaofCommand c l n timeout deny s))
  | Timeouts now => Some (handleBlockedClientsTimeout now s)
  | BlockedBeforeSleep => Some (processClientsWaitingReplicas s)
  | SendGetack =>
      if get_ack_from_slaves s
      then w ← step usable over_limits dbnum (Propagate (-1) ["REPLCONF"; "GETACK"; "*"]) (wt_world s); Some (set_getack false (set_world w s), [])
      else Some (s, [])
  | FreeWaiting c => Some (unblockClientWaitingReplicas c s, [])
  | Fsynced offset =>
      Some (mkWaiter (wt_world s) (clients_waiting_acks s) (get_ack_from_slaves s) (woffs s) (aof_enabled s) offset, [])
  | AofConfig enabled =>
      Some (mkWaiter (wt_world s) (clients_waiting_acks s) (get_ack_from_slaves s) (woffs s) enabled (fsynced_reploff s), [])
  end.

Definition wait_allowed (ev : wait_event) (s : waiter) : Prop :=
  match ev with
  | Replication ev => allowed dbnum true ev (wt_world s)
  | Command _ cmds => Forall (λ p, p.1 = -1 ∨ 0 ≤ p.1 < dbnum) cmds
  | _ => True
  end.

(** The states that a master reaches from one without replicas and waiting clients, while replicas
    acknowledge only what they have been sent. *)
Inductive wait_reachable (m : master) : waiter → Prop :=
| reach_start aof fsynced : wait_reachable m (mkWaiter (start_world m) [] false ∅ aof fsynced)
| reach_step s ev s' replies : wait_reachable m s → wait_allowed ev s → wait_step ev s = Some (s', replies) → wait_reachable m s'.
End run.

(** ** Counting *)

Lemma count_bounds f rs : 0 ≤ count_online f rs ≤ Z.of_nat (length rs).
Proof. induction rs as [|r rs IH]; cbn; [done|]. case_bool_decide; cbn [negb]; [destruct (f r)|]; lia. Qed.

Lemma count_mono f g rs : (∀ r, f r = true → g r = true) → count_online f rs ≤ count_online g rs.
Proof.
  intros H. induction rs as [|r rs IH]; cbn; [done|]. case_bool_decide; cbn [negb]; [|lia]. destruct (f r) eqn:E; [rewrite (H r E); lia|].
  destruct (g r); lia.
Qed.

Lemma acks_mono o o' m : o' ≤ o → replicationCountAcksByOffset o m ≤ replicationCountAcksByOffset o' m.
Proof. intros H. apply count_mono. intros r E%Z.leb_le. apply Z.leb_le. lia. Qed.

Lemma aof_acks_mono o o' m : o' ≤ o → replicationCountAOFAcksByOffset o m ≤ replicationCountAOFAcksByOffset o' m.
Proof. intros H. apply count_mono. intros r E%Z.leb_le. apply Z.leb_le. lia. Qed.

Lemma count_filter f rs : count_online f rs = Z.of_nat (length (filter (λ r, replstate r = SLAVE_STATE_ONLINE ∧ f r = true) rs)).
Proof.
  induction rs as [|r rs IH]; [done|]. cbn [count_online]. rewrite filter_cons, IH. case_bool_decide as E; cbn [negb].
  - destruct (f r) eqn:Ef; [rewrite decide_True by done; cbn; lia|rewrite decide_False by (by intros [_ ?]; congruence); lia].
  - rewrite decide_False by (by intros [? _]). lia.
Qed.

(** Replicas that count. *)
Lemma count_witnesses f rs n : NoDup (replica_id <$> rs) → n ≤ count_online f rs →
  ∃ found, found ⊆ rs ∧ NoDup (replica_id <$> found) ∧ Z.of_nat (length found) = Z.max 0 n ∧
    Forall (λ r, replstate r = SLAVE_STATE_ONLINE ∧ f r = true) found.
Proof.
  intros Hn Hc. rewrite count_filter in Hc. set (l := filter _ rs) in Hc. exists (take (Z.to_nat n) l).
  assert (take (Z.to_nat n) l `sublist_of` rs) as Hsub.
  { etrans; [apply sublist_take|apply sublist_filter]. }
  split_and!.
  - intros r Hr. by eapply elem_of_sublist.
  - eapply sublist_NoDup; [exact Hn|]. by apply fmap_sublist.
  - rewrite length_take. lia.
  - apply Forall_take. apply Forall_forall. by intros r [? _]%list_elem_of_filter.
Qed.

(** ** A pass over the blocked clients *)

(** The number that a client waits for. *)
Definition acks_for (s : waiter) (b : blockingState) : Z :=
  if b_waitaof b then replicationCountAOFAcksByOffset (b_reploffset b) (wt_master s)
  else replicationCountAcksByOffset (b_reploffset b) (wt_master s).

Definition local_for (s : waiter) (b : blockingState) : Z := Z.b2z (b_reploffset b <=? fsynced_reploff s).

(** The client can only be told that it waits for nothing. *)
Definition hopeless (s : waiter) (b : blockingState) : bool := b_waitaof b && negb (b_numlocal b =? 0) && negb (aof_enabled s).

Definition satisfied (s : waiter) (b : blockingState) : bool :=
  (b_numreplicas b <=? acks_for s b) && (negb (b_waitaof b) || (b_numlocal b <=? local_for s b)).

(** A reply to a client that was satisfied. *)
Definition good_reply (s : waiter) (b : blockingState) (r : nat * wait_reply) : Prop :=
  r.1 = b_client b ∧
  match r.2 with
  | WaitReply n => b_waitaof b = false ∧ satisfied s b = true ∧ b_numreplicas b ≤ n ∧ 0 ≤ n ≤ acks_for s b
  | WaitAofReply l n => b_waitaof b = true ∧ satisfied s b = true ∧ b_numreplicas b ≤ n ∧ 0 ≤ n ≤ acks_for s b ∧ l = local_for s b
  | WaitError _ => hopeless s b = true
  end.

Definition remembered_ok (count : Z → Z) (last : Z * Z) : Prop := last.1 ≠ 0 → 0 ≤ last.2 ≤ count last.1.

Lemma acks_for_nonneg s b : 0 ≤ acks_for s b.
Proof. unfold acks_for. case_match; apply count_bounds. Qed.

(** The count that was remembered holds for a client that waits for less. *)
Lemma remembered_bound s b last last_aof :
  remembered_ok (λ o, replicationCountAcksByOffset o (wt_master s)) last →
  remembered_ok (λ o, replicationCountAOFAcksByOffset o (wt_master s)) last_aof →
  let remembered := if b_waitaof b then last_aof else last in
  remembered.1 ≠ 0 → b_reploffset b ≤ remembered.1 → 0 ≤ remembered.2 ≤ acks_for s b.
Proof.
  intros Hl Ha remembered Hne Hle. unfold remembered, acks_for in *. destruct (b_waitaof b).
  - pose proof (Ha Hne). pose proof (aof_acks_mono _ _ (wt_master s) Hle). cbn in *. lia.
  - pose proof (Hl Hne). pose proof (acks_mono _ _ (wt_master s) Hle). cbn in *. lia.
Qed.

Lemma remembered_now s b n : 0 ≤ n ≤ acks_for s b →
  (b_waitaof b = false → remembered_ok (λ o, replicationCountAcksByOffset o (wt_master s)) (b_reploffset b, n)) ∧
  (b_waitaof b = true → remembered_ok (λ o, replicationCountAOFAcksByOffset o (wt_master s)) (b_reploffset b, n)).
Proof. unfold acks_for. intros Hn. split; intros E _; cbn; by rewrite E in Hn. Qed.

Lemma process_loop_spec s l : ∀ last last_aof,
  remembered_ok (λ o, replicationCountAcksByOffset o (wt_master s)) last →
  remembered_ok (λ o, replicationCountAOFAcksByOffset o (wt_master s)) last_aof →
  let '(stay, replies) := process_loop s last last_aof l in
  stay = filter (λ b, hopeless s b || satisfied s b = false) l ∧
  Forall2 (good_reply s) (filter (λ b, hopeless s b || satisfied s b = true) l) replies.
Proof.
  induction l as [|b l IH]; intros last last_aof Hl Ha; [done|]. cbn [process_loop]. rewrite !filter_cons.
  fold (hopeless s b). destruct (hopeless s b) eqn:Eh; cbn [orb].
  { specialize (IH last last_aof Hl Ha). destruct (process_loop s last last_aof l) as [stay replies]. destruct IH as [-> IH].
    rewrite decide_False by done. rewrite decide_True by done. split; [done|]. constructor; [done|done]. }
  pose proof (remembered_bound s b last last_aof Hl Ha) as Hrem. cbn zeta in Hrem.
  set (remembered := if b_waitaof b then last_aof else last) in *.
  set (shortcut := negb (remembered.1 =? 0) && (b_reploffset b <=? remembered.1) && (b_numreplicas b <=? remembered.2)).
  fold (acks_for s b). set (n := if shortcut then remembered.2 else acks_for s b).
  assert (0 ≤ n ≤ acks_for s b ∧ (shortcut = true → b_numreplicas b ≤ n)) as [Hn Hsc].
  { unfold n. destruct shortcut eqn:Es; [|pose proof (acks_for_nonneg s b); split; [lia|done]].
    apply andb_prop in Es as [[Es1 Es2]%andb_prop Es3]. apply negb_true_iff, Z.eqb_neq in Es1. apply Z.leb_le in Es2, Es3. auto. }
  destruct (negb shortcut && (n <? b_numreplicas b)) eqn:Estay.
  { apply andb_prop in Estay as [Es1 Es2]. apply negb_true_iff in Es1. apply Z.ltb_lt in Es2.
    specialize (IH last last_aof Hl Ha). destruct (process_loop s last last_aof l) as [stay replies]. destruct IH as [-> IH].
    assert (satisfied s b = false) as ->; [|by rewrite decide_True, decide_False by done].
    unfold satisfied. unfold n in Es2. rewrite Es1 in Es2. by rewrite (proj2 (Z.leb_gt _ _)) by lia. }
  assert (b_numreplicas b ≤ n) as Henough.
  { apply andb_false_iff in Estay as [E|E]; [apply Hsc; by apply negb_false_iff|]. by apply Z.ltb_ge in E. }
  set (now := if shortcut then remembered else (b_reploffset b, n)).
  destruct (remembered_now s b n Hn) as [Hnow Hnow'].
  assert (remembered_ok (λ o, replicationCountAcksByOffset o (wt_master s)) (if b_waitaof b then last else now)) as Hl'.
  { unfold now, remembered. destruct (b_waitaof b); [done|]. destruct shortcut; [done|]. by apply Hnow. }
  assert (remembered_ok (λ o, replicationCountAOFAcksByOffset o (wt_master s)) (if b_waitaof b then now else last_aof)) as Ha'.
  { unfold now, remembered. destruct (b_waitaof b); [|done]. destruct shortcut; [done|]. by apply Hnow'. }
  specialize (IH _ _ Hl' Ha'). destruct (process_loop s _ _ l) as [stay replies]. destruct IH as [-> IH].
  fold (local_for s b). assert (satisfied s b = negb (b_waitaof b) || (b_numlocal b <=? local_for s b)) as Hsat.
  { unfold satisfied. by rewrite (proj2 (Z.leb_le _ _)) by lia. }
  rewrite Hsat. destruct (b_waitaof b) eqn:Ew; cbn [andb negb orb]; [destruct (Z.ltb_spec (local_for s b) (b_numlocal b)) as [Hlt|Hge]|].
  - rewrite (proj2 (Z.leb_gt _ _)) by done. by rewrite decide_True, decide_False by done.
  - rewrite (proj2 (Z.leb_le _ _)) by done. rewrite decide_False, decide_True by done. split; [done|]. constructor; [|done].
    split; [done|]. cbn. rewrite Hsat. cbn. rewrite (proj2 (Z.leb_le _ _)) by done. done.
  - rewrite decide_False, decide_True by done. split; [done|]. constructor; [|done]. split; [done|]. cbn. by rewrite Hsat.
Qed.

(** ** The invariant *)

(** Blocked clients wait for the offset of their last write. *)
Definition wait_ok (s : waiter) : Prop :=
  world_ok true (wt_world s) ∧ Forall (λ b, b_reploffset b = woff s (b_client b)) (clients_waiting_acks s).

Lemma not_blocked c s : is_blocked c s = false → Forall (λ b, b_client b ≠ c) (clients_waiting_acks s).
Proof.
  unfold is_blocked. intros H. apply Forall_forall. intros b Hb E. rewrite <- not_true_iff_false in H. apply H, existsb_exists.
  exists b. split; [by apply list_elem_of_In|]. by apply Nat.eqb_eq.
Qed.

Lemma wait_ok_sub s l s' : wait_ok s → wt_world s' = wt_world s → woffs s' = woffs s → clients_waiting_acks s' = l →
  (∀ b, b ∈ l → b ∈ clients_waiting_acks s) → wait_ok s'.
Proof.
  intros [H1 H2] Ew Eo El Hin. split; [by rewrite Ew|]. rewrite El. apply Forall_forall. intros b Hb. rewrite Forall_forall in H2.
  rewrite (H2 b (Hin b Hb)). unfold woff. by rewrite Eo.
Qed.

Lemma wait_ok_world s w : wait_ok s → world_ok true w → wait_ok (set_world w s).
Proof. intros [H1 H2] Hw. by split. Qed.

Lemma woff_other c old s b : b_client b ≠ c → woff (remember_woff c old s) (b_client b) = woff s (b_client b).
Proof. intros Hb. unfold remember_woff, woff. case_match; [done|]. cbn. by rewrite lookup_insert_ne by done. Qed.

Lemma remember_waiting c old s : clients_waiting_acks (remember_woff c old s) = clients_waiting_acks s ∧ wt_world (remember_woff c old s) = wt_world s.
Proof. unfold remember_woff. by case_match. Qed.

Section invariant.
Variable usable : nat → nat.
Hypothesis usable_enough : ∀ n, (n ≤ usable n)%nat.
Variable over_limits : master → replica → bool.
Variable dbnum : Z.
#[local] Set Default Proof Using "Type".

Lemma propagate_ok cmds : ∀ w, world_ok true w → Forall (λ p : Z * list string, p.1 = -1 ∨ 0 ≤ p.1 < dbnum) cmds →
  ∃ w', run usable over_limits dbnum ((λ p, Propagate p.1 p.2) <$> cmds) w = Some w' ∧ world_ok true w'.
Proof using usable_enough.
  induction cmds as [|p cmds IH]; intros w Hw Hc; [by exists w|]. apply Forall_cons in Hc as [Hp Hc].
  destruct (step_ok true usable usable_enough over_limits dbnum (Propagate p.1 p.2) w Hw Hp) as (w1 & E & Hw1).
  destruct (IH w1 Hw1 Hc) as (w2 & E2 & Hw2). exists w2. split; [|done]. rewrite fmap_cons. cbn [run]. by rewrite E.
Qed.

Lemma wait_step_ok ev s : wait_ok s → wait_allowed dbnum ev s → ∃ s' replies, wait_step usable over_limits dbnum ev s = Some (s', replies) ∧ wait_ok s'.
Proof using usable_enough.
  intros Hok Hal. pose proof Hok as [H1 H2]. destruct ev; cbn [wait_step].
  - destruct (step_ok true usable usable_enough over_limits dbnum ev (wt_world s) H1 Hal) as (w & -> & Hw). cbn.
    do 2 eexists. split; [done|]. by apply wait_ok_world.
  - destruct (is_blocked c s) eqn:Eb; [by do 2 eexists|]. destruct (propagate_ok propagated (wt_world s) H1 Hal) as (w & -> & Hw). cbn.
    do 2 eexists. split; [done|]. destruct (remember_waiting c (master_repl_offset (wt_master s)) (set_world w s)) as [E1 E2].
    split; [by rewrite E2|]. rewrite E1. cbn. apply not_blocked in Eb. rewrite Forall_forall in H2, Eb. apply Forall_forall. intros b Hb.
    rewrite woff_other by (by apply Eb). by rewrite (H2 b Hb).
  - destruct (is_blocked c s); [by do 2 eexists|]. do 2 eexists. split; [done|]. unfold waitCommand. case_match; [done|].
    split; [done|]. cbn. by constructor.
  - destruct (is_blocked c s); [by do 2 eexists|]. do 2 eexists. split; [done|]. unfold waitaofCommand. case_match; [done|]. case_match; [done|].
    split; [done|]. cbn. by constructor.
  - do 2 eexists. split; [done|]. eapply wait_ok_sub; [exact Hok|done|done|done|]. by intros b [_ Hb]%list_elem_of_filter.
  - unfold processClientsWaitingReplicas. pose proof (process_loop_spec s (clients_waiting_acks s) (0, 0) (0, 0)) as Hp.
    destruct (process_loop s (0, 0) (0, 0) (clients_waiting_acks s)) as [stay replies]. destruct Hp as [-> _]; [done|done|].
    do 2 eexists. split; [done|]. eapply wait_ok_sub; [exact Hok|done|done|done|]. by intros b [_ Hb]%list_elem_of_filter.
  - destruct (get_ack_from_slaves s); [|by do 2 eexists].
    destruct (step_ok true usable usable_enough over_limits dbnum (Propagate (-1) ["REPLCONF"; "GETACK"; "*"]) (wt_world s) H1) as (w & -> & Hw); [by left|].
    rewrite option_bind_some. do 2 eexists. split; [done|]. by split.
  - do 2 eexists. split; [done|]. eapply wait_ok_sub; [exact Hok|done|done|done|]. by intros b [_ Hb]%list_elem_of_filter.
  - do 2 eexists. split; [done|]. by split.
  - do 2 eexists. split; [done|]. by split.
Qed.

Lemma reachable_ok m s : no_replicas m → 0 ≤ master_repl_offset m → wait_reachable usable over_limits dbnum m s → wait_ok s.
Proof using usable_enough.
  intros Hm H0. induction 1 as [aof fsynced|s ev s' replies _ IH Hal E]; [split; [by apply start_world_ok|done]|].
  destruct (wait_step_ok ev s IH Hal) as (s1 & replies1 & E1 & Hok). congruence.
Qed.
End invariant.

(** ** Replies *)

(** Replies to WAIT count at most the replicas that have acknowledged what the client wrote. *)
Lemma wait_reply_count usable over_limits dbnum ev s s' replies c n : wait_ok s →
  wait_step usable over_limits dbnum ev s = Some (s', replies) → (c, WaitReply n) ∈ replies →
  0 ≤ n ≤ replicationCountAcksByOffset (woff s c) (wt_master s).
Proof.
  intros [_ Hw] E Hin. rewrite Forall_forall in Hw. destruct ev; cbn [wait_step] in E.
  - destruct (step _ _ _ _); [|done]. cbn in E. simplify_eq. by apply elem_of_nil in Hin.
  - destruct (is_blocked c0 s); [simplify_eq; by apply elem_of_nil in Hin|]. destruct (run _ _ _ _); [|done]. cbn in E. simplify_eq. by apply elem_of_nil in Hin.
  - injection E as E. destruct (is_blocked c0 s); [simplify_eq; by apply elem_of_nil in Hin|]. unfold answer, waitCommand in E.
    case_match; cbn in E; simplify_eq; [|by apply elem_of_nil in Hin]. apply list_elem_of_singleton in Hin as [= -> ->].
    split; [apply count_bounds|done].
  - injection E as E. destruct (is_blocked c0 s); [simplify_eq; by apply elem_of_nil in Hin|]. unfold answer, waitaofCommand in E.
    repeat case_match; cbn in E; simplify_eq; try (by apply elem_of_nil in Hin); apply list_elem_of_singleton in Hin; simplify_eq.
  - injection E as <- <-. apply list_elem_of_fmap in Hin as (b & [= -> Hr] & [_ Hb]%list_elem_of_filter).
    unfold replyToBlockedClientTimedOut in Hr. case_match; simplify_eq. rewrite <- (Hw b Hb). split; [apply count_bounds|done].
  - injection E as E. unfold processClientsWaitingReplicas in E. pose proof (process_loop_spec s (clients_waiting_acks s) (0, 0) (0, 0)) as Hp.
    destruct (process_loop s (0, 0) (0, 0) (clients_waiting_acks s)) as [stay rs]. destruct Hp as [_ Hp]; [done|done|]. injection E as <- <-.
    apply list_elem_of_lookup in Hin as [k Hk]. destruct (Forall2_lookup_r _ _ _ _ _ Hp Hk) as (b & Hb & Hg1 & Hg2). cbn in Hg1, Hg2. subst c.
    apply list_elem_of_lookup_2, list_elem_of_filter in Hb as [_ Hb]. rewrite <- (Hw b Hb). destruct Hg2 as (Ew & _ & _ & Hn).
    unfold acks_for in Hn. by rewrite Ew in Hn.
  - destruct (get_ack_from_slaves s); [|simplify_eq; by apply elem_of_nil in Hin]. destruct (step _ _ _ _); [|done]. cbn in E. simplify_eq.
    by apply elem_of_nil in Hin.
  - simplify_eq. by apply elem_of_nil in Hin.
  - simplify_eq. by apply elem_of_nil in Hin.
  - simplify_eq. by apply elem_of_nil in Hin.
Qed.


(** C26: a pass over the blocked clients answers exactly those whose condition holds, and leaves the
    others waiting: the reply to WAIT is at least the number that the blocked client waits for and at
    most the number of online replicas that have acknowledged its offset, although the count of
    one client is reused for others; WAITAOF also needs the local file, and is refused when it is disabled. *)
Theorem process_waiting_exact s :
  let '(s', replies) := processClientsWaitingReplicas s in
  clients_waiting_acks s' = filter (λ b, hopeless s b || satisfied s b = false) (clients_waiting_acks s) ∧
  Forall2 (good_reply s) (filter (λ b, hopeless s b || satisfied s b = true) (clients_waiting_acks s)) replies ∧
  wt_world s' = wt_world s ∧ woffs s' = woffs s.
Proof.
  unfold processClientsWaitingReplicas. pose proof (process_loop_spec s (clients_waiting_acks s) (0, 0) (0, 0)) as Hp.
  destruct (process_loop s (0, 0) (0, 0) (clients_waiting_acks s)) as [stay replies]. destruct Hp as [-> Hp]; done.
Qed.

(** ** An example *)

Section example.
Variable usable : nat → nat.
Variable over_limits : master → replica → bool.
Variable dbnum : Z.

Fixpoint wait_run (evs : list wait_event) (s : waiter) : option waiter :=
  match evs with [] => Some s | ev :: evs => '(s, _) ← wait_step usable over_limits dbnum ev s; wait_run evs s end.

Fixpoint wait_all_allowed (evs : list wait_event) (s : waiter) : Prop :=
  match evs with
  | [] => True
  | ev :: evs => wait_allowed dbnum ev s ∧ match wait_step usable over_limits dbnum ev s with Some (s', _) => wait_all_allowed evs s' | None => True end
  end.

Lemma wait_run_reachable m evs : ∀ s s', wait_reachable usable over_limits dbnum m s → wait_all_allowed evs s →
  wait_run evs s = Some s' → wait_reachable usable over_limits dbnum m s'.
Proof.
  induction evs as [|ev evs IH]; intros s s' Hr Hal; cbn [wait_run]; [by intros [= <-]|]. destruct Hal as [H1 H2].
  destruct (wait_step usable over_limits dbnum ev s) as [[s1 replies]|] eqn:E; [|done]. cbn. by apply IH; [eapply reach_step|].
Qed.
End example.

(** A replica has got and acknowledged what client 7 wrote. *)
Definition sample_wait_events : list wait_event :=
  [Replication (Sync (sample_env None (λ _, true)) (sample_client 0) (Some ("?", -1))); Command 7 [(0, ["SET"; "x"; "1"])];
   Replication (BgsaveEnds true false (λ _, true)); Replication (BulkSent 0); Replication (WriteTo 0 (Some 1000%nat));
   Replication (Ack 0 150 None)].

Definition sample_waiter : waiter := mkWaiter (start_world sample_master) [] false ∅ false 0.

Definition acked_waiter : waiter := default sample_waiter (wait_run id (λ _ _, false) 16 sample_wait_events sample_waiter).

Lemma acked_reachable : wait_reachable id (λ _ _, false) 16 sample_master acked_waiter.
Proof.
  apply (wait_run_reachable id (λ _ _, false) 16 sample_master sample_wait_events sample_waiter); [constructor| |vm_compute; reflexivity].
  vm_compute. split_and!; try done; [by repeat constructor|]. intros _ r [= <-]. done.
Qed.


(** The number that a blocked client waits for is kept in an int, so a client that asks for
    4294967297 replicas is answered, without a timeout, when one replica has acknowledged. *)
Theorem wait_count_truncated :
  ∃ s s', wait_step id (λ _ _, false) 16 (CallWait 7 4294967297 0 false) acked_waiter = Some (s, []) ∧
    b_numreplicas <$> clients_waiting_acks s = [1] ∧ length (slaves (wt_master s)) = 1%nat ∧
    wait_step id (λ _ _, false) 16 BlockedBeforeSleep s = Some (s', [(7%nat, WaitReply 1)]).
Proof. do 2 eexists. vm_compute. done. Qed.
