(* ===== verification/Reader.v ===== *)
(** * The reply parser of hiredis

    src/redis/deps/hiredis/read.c, with the functions of hiredis.c that build
    the reply objects.  The parser keeps an array of tasks as the stack of the
    aggregates it is inside of, and stores every object it creates into its
    parent through a pointer, so the objects live in a heap here.  A step that
    the C code leaves undefined (an access outside the array or through NULL, a
    failed assertion, the overflow of an [int]) is [None].

    Allocation succeeds.  What [strtod] says of the text of a double is a
    parameter, and the value of a double is not kept beside its text. *)

From S2P Require Import Prelude CLib Buffers Hiredis Util.
From Stdlib Require Import Ascii.

Definition REDIS_ERR_PROTOCOL : Z := 4.

Definition REDIS_REPLY_STRING : Z := 1.
Definition REDIS_REPLY_ARRAY : Z := 2.
Definition REDIS_REPLY_INTEGER : Z := 3.
Definition REDIS_REPLY_NIL : Z := 4.
Definition REDIS_REPLY_STATUS : Z := 5.
Definition REDIS_REPLY_ERROR : Z := 6.
Definition REDIS_REPLY_DOUBLE : Z := 7.
Definition REDIS_REPLY_BOOL : Z := 8.
Definition REDIS_REPLY_MAP : Z := 9.
Definition REDIS_REPLY_SET : Z := 10.
Definition REDIS_REPLY_PUSH : Z := 12.
Definition REDIS_REPLY_BIGNUM : Z := 13.
Definition REDIS_REPLY_VERB : Z := 14.

Definition REDIS_READER_MAX_ARRAY_ELEMENTS : Z := 2 ^ 32 - 1.
Definition REDIS_READER_STACK_SIZE : nat := 9.

(** ** Data *)

(** A [redisReply] in memory; [element] holds the addresses of the elements,
    [None] for NULL. *)
Record reply_object : Type := mkObject {
  o_type : Z;
  o_integer : Z;
  o_str : option string;
  o_vtype : string;
  o_element : list (option nat);
}.

Record redisReadTask : Type := mkTask {
  t_type : Z;
  t_elements : Z;
  t_idx : Z;
  t_obj : option nat;
  t_parent : option nat;          (* an index of the array of tasks *)
}.

(** [len] is the length of [buf], [tasks] the length of [task]. *)
Record redisReader : Type := mkReader {
  r_err : Z;
  r_errstr : string;
  r_buf : string;
  r_pos : nat;
  r_task : list redisReadTask;
  r_ridx : Z;
  r_reply : option nat;
  r_heap : list reply_object;
}.

Definition set_err (r : redisReader) (e : Z) (s : string) : redisReader :=
  mkReader e s (r_buf r) (r_pos r) (r_task r) (r_ridx r) (r_reply r) (r_heap r).
Definition set_buf (r : redisReader) (b : string) (p : nat) : redisReader :=
  mkReader (r_err r) (r_errstr r) b p (r_task r) (r_ridx r) (r_reply r) (r_heap r).
Definition set_tasks (r : redisReader) (t : list redisReadTask) : redisReader :=
  mkReader (r_err r) (r_errstr r) (r_buf r) (r_pos r) t (r_ridx r) (r_reply r) (r_heap r).
Definition set_ridx (r : redisReader) (i : Z) : redisReader :=
  mkReader (r_err r) (r_errstr r) (r_buf r) (r_pos r) (r_task r) i (r_reply r) (r_heap r).
Definition set_reply (r : redisReader) (p : option nat) : redisReader :=
  mkReader (r_err r) (r_errstr r) (r_buf r) (r_pos r) (r_task r) (r_ridx r) p (r_heap r).
Definition set_heap (r : redisReader) (h : list reply_object) : redisReader :=
  mkReader (r_err r) (r_errstr r) (r_buf r) (r_pos r) (r_task r) (r_ridx r) (r_reply r) h.

(** Computations on a reader; [None] is undefined behaviour. *)
Definition rd (A : Type) : Type := redisReader → option (A * redisReader).

#[export] Instance rd_ret : MRet rd := λ _ a r, Some (a, r).
#[export] Instance rd_bind : MBind rd := λ _ _ f m r,
  match m r with Some (a, r') => f a r' | None => None end.
#[export] Instance rd_fmap : FMap rd := λ _ _ f m, m ≫= λ a, mret (f a).

Definition undefined {A} : rd A := λ _, None.
Definition r_assert (b : bool) : rd unit := if b then mret tt else undefined.
Definition must {A} (o : option A) : rd A := λ r, (λ a, (a, r)) <$> o.
Definition gets {A} (f : redisReader → A) : rd A := λ r, Some (f r, r).
Definition modify (f : redisReader → redisReader) : rd unit := λ r, Some (tt, f r).

(** [r->task[i]]. *)
Definition task_at (i : Z) : rd redisReadTask :=
  l ← gets r_task; r_assert (0 <=? i);; must (l !! Z.to_nat i).
Definition put_task (i : Z) (t : redisReadTask) : rd unit :=
  task_at i;; modify (λ r, set_tasks r (<[Z.to_nat i := t]> (r_task r))).

(** ** Errors *)

Definition __redisReaderSetError (type : Z) (str : string) : rd unit :=
  modify (λ r, set_err (set_ridx (set_buf (set_reply r None) EmptyString 0) (-1)) type (stake 127 str)).

Definition hex_char (n : N) : ascii :=
  default NUL (String.get (N.to_nat n) "0123456789abcdef").

Definition chrtos (byte : ascii) : string :=
  let q := String (ascii_of_nat 34) EmptyString in
  let esc c := q +:+ String (ascii_of_nat 92) (String c q) in
  let n := N_of_ascii byte in
  if (n =? 92)%N || (n =? 34)%N then esc byte
  else if (n =? 10)%N then esc "n"%char
  else if (n =? 13)%N then esc "r"%char
  else if (n =? 9)%N then esc "t"%char
  else if (n =? 7)%N then esc "a"%char
  else if (n =? 8)%N then esc "b"%char
  else if (32 <=? n)%N && (n <=? 126)%N then q +:+ String byte q
  else q +:+ String (ascii_of_nat 92)
         (String "x"%char (String (hex_char (n / 16)) (String (hex_char (n mod 16)) q))).

Definition __redisReaderSetErrorProtocolByte (byte : ascii) : rd unit :=
  __redisReaderSetError REDIS_ERR_PROTOCOL
    ("Protocol error, got " +:+ chrtos byte +:+ " as reply type byte").

(** ** Lines *)

(** The bytes from [buf + pos] on, and [r->pos += k]. *)
Definition r_unread (r : redisReader) : string := sdrop (r_pos r) (r_buf r).
Definition advance (k : nat) (r : redisReader) : redisReader := set_buf r (r_buf r) (r_pos r + k).

(** [readBytes (r, 1)]. *)
Definition readByte : rd (option ascii) :=
  s ← gets r_unread;
  match s with
  | EmptyString => mret None
  | String c _ => modify (advance 1);; mret (Some c)
  end.

(** The index of the first [c] among the first [n] bytes. *)
Fixpoint memchr (s : string) (c : ascii) (n : nat) : option nat :=
  match n, s with
  | S n, String d s => if decide (d = c) then Some 0%nat else S <$> memchr s c n
  | _, _ => None
  end.

Fixpoint seek_loop (fuel : nat) (off : nat) (s : string) (len : nat) : option nat :=
  match fuel with
  | O => None
  | S fuel =>
      match memchr s CR len with
      | None => None
      | Some ret =>
          if decide (String.get (ret + 1) s = Some LF) then Some (off + ret)%nat
          else seek_loop fuel (off + ret + 1) (sdrop (ret + 1) s) (len - (ret + 1))
      end
  end.

(** The distance of the first [\r\n]. *)
Definition seekNewline (s : string) (len : nat) : option nat :=
  if (len <? 2)%nat then None else seek_loop len 0 s (len - 1).

(** [string2ll] of read.c; its loop over the digits is that of util.c.  [None]
    is [REDIS_ERR]. *)
Definition string2ll (s : string) : option Z :=
  match s with
  | EmptyString => None
  | String c p =>
      if bool_decide (s = "0") then Some 0
      else if bool_decide (c = "-"%char) then
        match p with
        | EmptyString => None
        | _ =>
            match parse_magnitude p with
            | Some v => if (- (LLONG_MIN + 1)) + 1 <? v then None else Some (wrap_s 64 (wrap_u 64 (- v)))
            | None => None
            end
        end
      else
        match parse_magnitude s with
        | Some v => if LLONG_MAX <? v then None else Some v
        | None => None
        end
  end.

(** The length of the line is an [int]. *)
Definition readLine : rd (option string) :=
  s ← gets r_unread;
  match seekNewline s (String.length s) with
  | None => mret None
  | Some off =>
      let len := wrap_s 32 (Z.of_nat off) in
      r_assert (0 <=? len);; r_assert (len + 2 <=? INT_MAX);;
      modify (advance (Z.to_nat len + 2));;
      mret (Some (stake (Z.to_nat len) s))
  end.

(** ** Objects (hiredis.c) *)

Definition is_aggregate (type : Z) : bool :=
  (type =? REDIS_REPLY_ARRAY) || (type =? REDIS_REPLY_MAP) ||
  (type =? REDIS_REPLY_SET) || (type =? REDIS_REPLY_PUSH).

Definition set_element (o : reply_object) (l : list (option nat)) : reply_object :=
  mkObject (o_type o) (o_integer o) (o_str o) (o_vtype o) l.

Definition alloc (o : reply_object) : rd nat :=
  h ← gets r_heap; modify (λ r, set_heap r (h ++ [o]));; mret (length h).

(** [parent->element[task->idx] = r] for a task with a parent. *)
Definition attach (t : redisReadTask) (p : nat) : rd unit :=
  match t_parent t with
  | None => mret tt
  | Some i =>
      parent_task ← task_at (Z.of_nat i);
      q ← must (t_obj parent_task);
      h ← gets r_heap;
      parent ← must (h !! q);
      r_assert (is_aggregate (o_type parent));;
      r_assert ((0 <=? t_idx t) && (t_idx t <? Z.of_nat (length (o_element parent))));;
      modify (λ r, set_heap r
        (<[q := set_element parent (<[Z.to_nat (t_idx t) := Some p]> (o_element parent))]> h))
  end.

Definition create (t : redisReadTask) (o : reply_object) : rd nat :=
  p ← alloc o; attach t p;; mret p.

Definition createStringObject (t : redisReadTask) (s : string) : rd nat :=
  r_assert ((t_type t =? REDIS_REPLY_ERROR) || (t_type t =? REDIS_REPLY_STATUS) ||
            (t_type t =? REDIS_REPLY_STRING) || (t_type t =? REDIS_REPLY_VERB) ||
            (t_type t =? REDIS_REPLY_BIGNUM));;
  if t_type t =? REDIS_REPLY_VERB then
    create t (mkObject (t_type t) 0 (Some (sdrop 4 s)) (stake 3 s) [])
  else create t (mkObject (t_type t) 0 (Some s) EmptyString []).

Definition createArrayObject (t : redisReadTask) (elements : Z) : rd nat :=
  create t (mkObject (t_type t) 0 None EmptyString (replicate (Z.to_nat elements) None)).

Definition createIntegerObject (t : redisReadTask) (v : Z) : rd nat :=
  create t (mkObject REDIS_REPLY_INTEGER v None EmptyString []).

Definition createDoubleObject (t : redisReadTask) (s : string) : rd nat :=
  create t (mkObject REDIS_REPLY_DOUBLE 0 (Some s) EmptyString []).

Definition createNilObject (t : redisReadTask) : rd nat :=
  create t (mkObject REDIS_REPLY_NIL 0 None EmptyString []).

Definition createBoolObject (t : redisReadTask) (bval : bool) : rd nat :=
  create t (mkObject REDIS_REPLY_BOOL (if bval then 1 else 0) None EmptyString []).

(** ** Items *)

(** The loop of [moveToNextTask]: leave the aggregates whose last element is
    complete. *)
Fixpoint move_loop (fuel : nat) : rd unit :=
  match fuel with
  | O => mret tt
  | S fuel =>
      i ← gets r_ridx;
      if i <? 0 then mret tt
      else if i =? 0 then modify (λ r, set_ridx r (i - 1))
      else
        cur ← task_at i;
        prv ← task_at (i - 1);
        r_assert (is_aggregate (t_type prv));;
        if t_idx cur =? t_elements prv - 1 then
          modify (λ r, set_ridx r (i - 1));; move_loop fuel
        else
          r_assert (t_idx cur <? t_elements prv);;
          r_assert (t_idx cur + 1 <=? INT_MAX);;
          put_task i (mkTask (-1) (-1) (t_idx cur + 1) (t_obj cur) (t_parent cur))
  end.

Definition moveToNextTask : rd unit := i ← gets r_ridx; move_loop (Z.to_nat (i + 1)).

(** An error of the protocol. *)
Definition bad {A} (a : A) (str : string) : rd A := __redisReaderSetError REDIS_ERR_PROTOCOL str;; mret a.

(** "Set reply if this is the root object." *)
Definition set_root (p : nat) : rd unit := modify (λ r, if r_ridx r =? 0 then set_reply r (Some p) else r).

(** [strchr ("tTfF", c)] also finds the NUL that ends the string. *)
Definition is_bool_char (c : ascii) : bool :=
  bool_decide (c = "t"%char) || bool_decide (c = "T"%char) ||
  bool_decide (c = "f"%char) || bool_decide (c = "F"%char) || bool_decide (c = NUL).

Fixpoint all_chars (p : ascii → bool) (s : string) : bool :=
  match s with EmptyString => true | String c s => p c && all_chars p s end.

Definition bignum_chars (s : string) : bool :=
  match s with
  | String c s' => (bool_decide (c = "-"%char) || is_digit c) && all_chars is_digit s'
  | EmptyString => true
  end.

Definition simple_char (c : ascii) : bool := negb (bool_decide (c = CR) || bool_decide (c = LF)).

Section reader.
(** [strtod] takes the whole of a non-empty text and the result is finite. *)
Variable finite_double : string → bool.

Definition double_name (s : string) : bool :=
  existsb (λ name, (String.length s =? String.length name)%nat && strcaseeq s name)
    ["inf"; "-inf"; "nan"; "-nan"].

(** The object of a complete line, [None] after an error of the protocol. *)
Definition line_object (cur : redisReadTask) (p : string) : rd (option nat) :=
  let len := Z.of_nat (String.length p) in
  if t_type cur =? REDIS_REPLY_INTEGER then
    match string2ll p with
    | None => bad None "Bad integer value"
    | Some v => Some <$> createIntegerObject cur v
    end
  else if t_type cur =? REDIS_REPLY_DOUBLE then
    if 326 <=? len then bad None "Double value is too large"
    else if double_name p || negb (bool_decide (c_str p = EmptyString)) && finite_double p then
      Some <$> createDoubleObject cur p
    else bad None "Bad double value"
  else if t_type cur =? REDIS_REPLY_NIL then
    if negb (len =? 0) then bad None "Bad nil value" else Some <$> createNilObject cur
  else if t_type cur =? REDIS_REPLY_BOOL then
    match p with
    | String c EmptyString =>
        if is_bool_char c
        then Some <$> createBoolObject cur (bool_decide (c = "t"%char) || bool_decide (c = "T"%char))
        else bad None "Bad bool value"
    | _ => bad None "Bad bool value"
    end
  else if t_type cur =? REDIS_REPLY_BIGNUM then
    if bignum_chars p then Some <$> createStringObject cur p else bad None "Bad bignum value"
  else if all_chars simple_char p then Some <$> createStringObject cur p
  else bad None "Bad simple string value".

(** The end of an item: move on, or stop at an error. *)
Definition finish_item (obj : option nat) : rd bool :=
  match obj with
  | None => mret false
  | Some p => set_root p;; moveToNextTask;; mret true
  end.

Definition processLineItem : rd bool :=
  i ← gets r_ridx;
  cur ← task_at i;
  line ← readLine;
  match line with
  | None => mret false
  | Some p => obj ← line_object cur p; finish_item obj
  end.

(** [bytelen] is an [unsigned long], and no buffer is long enough for it to
    wrap. *)
Definition processBulkItem : rd bool :=
  i ← gets r_ridx;
  cur ← task_at i;
  s ← gets r_unread;
  match seekNewline s (String.length s) with
  | None => mret false
  | Some off =>
      match string2ll (stake off s) with
      | None => bad false "Bad bulk string length"
      | Some len =>
          let bytelen := Z.of_nat off + 2 in
          if len <? -1 then bad false "Bulk string length out of range"
          else if len =? -1 then
            p ← createNilObject cur;
            modify (advance (Z.to_nat bytelen));;
            finish_item (Some p)
          else
            let bytelen := bytelen + (len + 2) in
            if bytelen <=? Z.of_nat (String.length s) then
              let content := stake (Z.to_nat len) (sdrop (off + 2) s) in
              if (t_type cur =? REDIS_REPLY_VERB) &&
                 ((len <? 4) || negb (bool_decide (String.get (off + 5) s = Some ":"%char)))
              then bad false "Verbatim string 4 bytes of content type are missing or incorrectly encoded."
              else
                p ← createStringObject cur content;
                modify (advance (Z.to_nat bytelen));;
                finish_item (Some p)
            else mret false
      end
  end.

(** [calloc] fills the new tasks with zeros. *)
Definition redisReaderGrow : rd unit :=
  modify (λ r, set_tasks r (r_task r ++ replicate REDIS_READER_STACK_SIZE (mkTask 0 0 0 None None))).

(** The number of elements is known. *)
Definition open_aggregate (i : Z) (cur : redisReadTask) (elements : Z) : rd bool :=
  obj ←
    (if elements =? -1 then p ← createNilObject cur; moveToNextTask;; mret p
     else
       let elements := if t_type cur =? REDIS_REPLY_MAP then elements * 2 else elements in
       obj ← createArrayObject cur elements;
       (if 0 <? elements then
         put_task i (mkTask (t_type cur) elements (t_idx cur) (Some obj) (t_parent cur));;
         modify (λ r, set_ridx r (i + 1));;
         put_task (i + 1) (mkTask (-1) (-1) 0 None (Some (Z.to_nat i)))
       else moveToNextTask);;
       mret obj);
  (if i =? 0 then modify (λ r, set_reply r (Some obj)) else mret tt);;
  mret true.

(** From the line with the number of elements on. *)
Definition read_aggregate : rd bool :=
  i ← gets r_ridx;
  cur ← task_at i;
  line ← readLine;
  match line with
  | None => mret false
  | Some p =>
      match string2ll p with
      | None => bad false "Bad multi-bulk length"
      | Some elements =>
          if (elements <? -1) || (REDIS_READER_MAX_ARRAY_ELEMENTS <? elements)
          then bad false "Multi-bulk length out of range"
          else open_aggregate i cur elements
      end
  end.

Definition grow_when_full : rd unit :=
  i ← gets r_ridx;
  task_at i;;
  tasks ← gets (λ r, Z.of_nat (length (r_task r)));
  if i =? tasks - 1 then redisReaderGrow else mret tt.

Definition processAggregateItem : rd bool := grow_when_full;; read_aggregate.

(** The type that a byte announces. *)
Definition type_of_byte (c : ascii) : option Z :=
  match c with
  | "-"%char => Some REDIS_REPLY_ERROR
  | "+"%char => Some REDIS_REPLY_STATUS
  | ":"%char => Some REDIS_REPLY_INTEGER
  | ","%char => Some REDIS_REPLY_DOUBLE
  | "_"%char => Some REDIS_REPLY_NIL
  | "$"%char => Some REDIS_REPLY_STRING
  | "*"%char => Some REDIS_REPLY_ARRAY
  | "%"%char => Some REDIS_REPLY_MAP
  | "~"%char => Some REDIS_REPLY_SET
  | "#"%char => Some REDIS_REPLY_BOOL
  | "="%char => Some REDIS_REPLY_VERB
  | ">"%char => Some REDIS_REPLY_PUSH
  | "("%char => Some REDIS_REPLY_BIGNUM
  | _ => None
  end.

(** The part of [processItem] that reads the type of a new item: whether the
    item can be processed. *)
Definition read_type : rd bool :=
  i ← gets r_ridx;
  cur ← task_at i;
  if 0 <=? t_type cur then mret true
  else
    b ← readByte;
    match b with
    | None => mret false
    | Some c =>
        match type_of_byte c with
        | Some type =>
            put_task i (mkTask type (t_elements cur) (t_idx cur) (t_obj cur) (t_parent cur));; mret true
        | None => __redisReaderSetErrorProtocolByte c;; mret false
        end
    end.

Definition is_line_type (type : Z) : bool :=
  (type =? REDIS_REPLY_ERROR) || (type =? REDIS_REPLY_STATUS) || (type =? REDIS_REPLY_INTEGER) ||
  (type =? REDIS_REPLY_DOUBLE) || (type =? REDIS_REPLY_NIL) || (type =? REDIS_REPLY_BOOL) ||
  (type =? REDIS_REPLY_BIGNUM).

Definition process_typed : rd bool :=
  i ← gets r_ridx;
  cur ← task_at i;
  if is_line_type (t_type cur) then processLineItem
  else if (t_type cur =? REDIS_REPLY_STRING) || (t_type cur =? REDIS_REPLY_VERB) then processBulkItem
  else if is_aggregate (t_type cur) then processAggregateItem
  else undefined.

(** [true] is [REDIS_OK]. *)
Definition processItem : rd bool :=
  typed ← read_type;
  if typed : bool then process_typed else mret false.

(** ** The reader *)

Definition redisReaderCreate : redisReader :=
  mkReader 0 EmptyString EmptyString 0
    (replicate REDIS_READER_STACK_SIZE (mkTask 0 0 0 None None)) (-1) None [].

(** [false] is [REDIS_ERR].  An empty buffer that has grown large is replaced
    by a new one, which has the same contents. *)
Definition redisReaderFeed (bytes : string) : rd bool := λ r,
  if r_err r =? 0 then Some (true, set_buf r (r_buf r +:+ bytes) (r_pos r)) else Some (false, r).

(** Every item that is processed takes a byte, so the bytes are fuel enough. *)
Fixpoint item_loop (fuel : nat) : rd unit :=
  match fuel with
  | O => mret tt
  | S fuel =>
      i ← gets r_ridx;
      if i <? 0 then mret tt
      else ok ← processItem; if ok : bool then item_loop fuel else mret tt
  end.

(** Set the first task when the stack is empty. *)
Definition start_item : rd unit :=
  i ← gets r_ridx;
  if i =? -1 then put_task 0 (mkTask (-1) (-1) (-1) None None);; modify (λ r, set_ridx r 0) else mret tt.

Definition discard : rd unit :=
  modify (λ r, if (1024 <=? r_pos r)%nat then set_buf r (r_unread r) 0 else r).

(** The result, [None] for [REDIS_ERR], is the reply or NULL. *)
Definition redisReaderGetReply : rd (option (option nat)) :=
  e ← gets r_err;
  if negb (e =? 0) then mret None
  else
    len ← gets (λ r, String.length (r_buf r));
    if (len =? 0)%nat then mret (Some None)
    else
      start_item;;
      n ← gets (λ r, String.length (r_unread r));
      item_loop (S n);;
      e ← gets r_err;
      if negb (e =? 0) then mret None
      else
        discard;;
        i ← gets r_ridx;
        if i =? -1 then
          p ← gets r_reply; modify (λ r, set_reply r None);; mret (Some p)
        else mret (Some None).
End reader.
