(* ===== verification/ReaderSpec.v ===== *)
(** * The reply parser reads what was sent

    Equivalence of the searches and conversions of [Reader] with reference
    definitions, and the theorems on whole replies. *)

From S2P Require Import Prelude CLib Buffers Hiredis Util Reader.
From Stdlib Require Import Ascii.

(** ** Lines *)

(** The distance of the first [\r\n], by structural recursion. *)
Fixpoint find_crlf (s : string) : option nat :=
  match s with
  | EmptyString => None
  | String c s' =>
      if decide (c = CR ∧ String.get 0 s' = Some LF) then Some 0%nat else S <$> find_crlf s'
  end.

Lemma memchr_find s : s ≠ EmptyString →
  find_crlf s =
    match memchr s CR (String.length s - 1) with
    | None => None
    | Some i =>
        if decide (String.get (i + 1) s = Some LF) then Some i
        else (λ n, i + 1 + n)%nat <$> find_crlf (sdrop (i + 1) s)
    end.
Proof.
  induction s as [|c s IH]; [done|]. intros _. destruct (decide (s = EmptyString)) as [->|Hs].
  { simpl. by rewrite decide_False by (by intros [_ ?]). }
  specialize (IH Hs). replace (String.length (String c s) - 1)%nat with (S (String.length s - 1))
    by (destruct s; simpl; [done|lia]).
  cbn [memchr find_crlf]. destruct (decide (c = CR)) as [->|Hc].
  - cbn [Nat.add sdrop]. change (String.get 1 (String CR s)) with (String.get 0 s).
    destruct (decide (String.get 0 s = Some LF)) as [H1|H1]; [by rewrite decide_True|].
    by rewrite decide_False by tauto.
  - rewrite decide_False by tauto. rewrite IH.
    destruct (memchr s CR _) as [i|]; cbn [fmap option_fmap option_map]; [|done].
    change (String.get (S i + 1) (String c s)) with (String.get (i + 1) s).
    change (sdrop (S i + 1) (String c s)) with (sdrop (i + 1) s).
    case_decide; [done|]. by destruct (find_crlf (sdrop (i + 1) s)).
Qed.

Lemma memchr_lt s c n i : memchr s c n = Some i → (i < n)%nat.
Proof.
  revert n i. induction s as [|d s IH]; intros [|n] i H; simpl in H; try done.
  case_decide; simplify_eq; [lia|]. apply fmap_Some in H as (j & H & ->). apply IH in H. lia.
Qed.

Lemma seek_loop_find fuel off s : s ≠ EmptyString → (String.length s ≤ fuel)%nat →
  seek_loop fuel off s (String.length s - 1) = (λ n, off + n)%nat <$> find_crlf s.
Proof.
  revert off s. induction fuel as [|fuel IH]; intros off s Hs Hf.
  { by destruct s; simpl in *; [|lia]. }
  cbn [seek_loop]. rewrite memchr_find by done.
  destruct (memchr s CR _) as [i|] eqn:E; [|done]. apply memchr_lt in E as Hi.
  case_decide; [done|].
  replace (String.length s - 1 - (i + 1))%nat with (String.length (sdrop (i + 1) s) - 1)%nat
    by (rewrite sdrop_length; lia).
  rewrite IH.
  - destruct (find_crlf (sdrop (i + 1) s)); cbn; [f_equal; lia|done].
  - intros H0. apply (f_equal String.length) in H0. rewrite sdrop_length in H0. simpl in H0. lia.
  - rewrite sdrop_length. lia.
Qed.

Lemma seekNewline_find s : seekNewline s (String.length s) = find_crlf s.
Proof.
  unfold seekNewline. destruct (Nat.ltb_spec (String.length s) 2) as [H|H].
  - destruct s as [|c [|d s]]; simpl in *; try lia; [done|]. by rewrite decide_False by (by intros [_ ?]).
  - rewrite seek_loop_find; [by destruct (find_crlf s)| |lia]. intros ->. simpl in H. lia.
Qed.

Lemma find_crlf_bound s n : find_crlf s = Some n → (n + 2 ≤ String.length s)%nat.
Proof.
  revert n. induction s as [|c s IH]; intros n H; simpl in H; [done|]. case_decide as Hc.
  - simplify_eq. destruct Hc as [_ Hc], s; simpl in *; [done|lia].
  - apply fmap_Some in H as (m & H & ->). apply IH in H. simpl. lia.
Qed.

Lemma find_crlf_app s y n : find_crlf s = Some n → find_crlf (s +:+ y) = Some n.
Proof.
  revert n. induction s as [|c s IH]; intros n H; simpl in H |- *; [done|]. case_decide as Hc.
  - destruct Hc as [-> Hc], s as [|d s]; [done|]. by rewrite decide_True by done.
  - apply fmap_Some in H as (m & H & ->). rewrite decide_False; [by rewrite (IH m)|].
    intros [-> Hg]. apply Hc. split; [done|]. by destruct s.
Qed.

Lemma find_crlf_line p y : char_free CR p → find_crlf (p +:+ CRLF +:+ y) = Some (String.length p).
Proof.
  induction p as [|c p IH]; [done|]. intros [Hc Hp]. cbn [find_crlf String.append String.length]. rewrite decide_False by tauto. by rewrite IH.
Qed.

(** ** Numbers *)

(** The conversion of hiredis is that of the server. *)
Lemma string2ll_agree s : Reader.string2ll s = Util.string2ll s.
Proof.
  unfold Util.string2ll, LONG_STR_SIZE.
  destruct (Z.leb_spec 21 (Z.of_nat (String.length s))) as [Hl|Hl].
  - rewrite orb_true_r. destruct (Reader.string2ll s) as [v|] eqn:E; [|done]. exfalso.
    destruct s as [|c s]; [done|]. unfold Reader.string2ll in E.
    case_bool_decide as H0; [by rewrite H0 in Hl|]. case_bool_decide as Hc.
    + subst c. destruct s as [|d s]; [done|].
      destruct (parse_magnitude _) as [m|] eqn:Hm; [|done]. apply parse_magnitude_canonical in Hm as [Hm Hp].
      destruct (Z.ltb_spec (- (LLONG_MIN + 1) + 1) m); [done|].
      pose proof (pretty_llong_length (- m) ltac:(ints)) as Hlen.
      rewrite pretty_Z_neg, Z.opp_involutive, <- pretty_Z_nonneg, <- Hp in Hlen by lia.
      cbn [String.append String.length] in *. lia.
    + destruct (parse_magnitude _) as [m|] eqn:Hm; [|done]. apply parse_magnitude_canonical in Hm as [Hm Hp].
      destruct (Z.ltb_spec LLONG_MAX m); [done|].
      pose proof (pretty_llong_length m ltac:(ints)) as Hlen. rewrite <- Hp in Hlen. lia.
  - rewrite orb_false_r. destruct s as [|c s]; [done|]. cbn [String.length Nat.eqb]. unfold Reader.string2ll.
    case_bool_decide; [done|]. case_bool_decide; [|done]. by destruct s.
Qed.

Lemma string2ll_pretty v : in_llong v → Reader.string2ll (pretty v) = Some v.
Proof. intros. rewrite string2ll_agree. by apply string2ll_spec. Qed.

(** ** More input

    [related y r r']: the readers differ in what is left of the buffer only,
    and [r'] has [y] after what [r] has.  Processing keeps the relation as long
    as the shorter input suffices, and with an empty [y] it is a congruence. *)

Definition in_buf (r : redisReader) : Prop := (r_pos r ≤ String.length (r_buf r))%nat.

Record related (y : string) (r r' : redisReader) : Prop := mkRelated {
  rel_err : r_err r' = r_err r;
  rel_errstr : r_errstr r' = r_errstr r;
  rel_task : r_task r' = r_task r;
  rel_ridx : r_ridx r' = r_ridx r;
  rel_reply : r_reply r' = r_reply r;
  rel_heap : r_heap r' = r_heap r;
  rel_in : in_buf r;
  rel_in' : in_buf r';
  rel_unread : r_unread r' = if r_err r =? 0 then r_unread r +:+ y else r_unread r;
}.

Definition res_rel {A} (y : string) (x x' : option (A * redisReader)) : Prop :=
  match x, x' with
  | Some (a, s), Some (a', s') => a = a' ∧ related y s s'
  | None, None => True
  | _, _ => False
  end.

Definition keeps {A} (y : string) (m : rd A) : Prop :=
  ∀ r r', related y r r' → res_rel y (m r) (m r').

Create HintDb reader.

Section keeps.
Context (y : string).

Lemma keeps_ret {A} (a : A) : keeps y (mret a).
Proof. done. Qed.

Lemma keeps_undefined {A} : keeps y (@undefined A).
Proof. done. Qed.

Lemma keeps_must {A} (o : option A) : keeps y (must o).
Proof. intros r r' H. by destruct o. Qed.

Lemma keeps_bind {A B} (m : rd A) (f : A → rd B) :
  keeps y m → (∀ a, keeps y (f a)) → keeps y (m ≫= f).
Proof.
  intros Hm Hf r r' H. unfold mbind, rd_bind. specialize (Hm r r' H). unfold res_rel in Hm.
  destruct (m r) as [[a s]|], (m r') as [[a' s']|]; try done. destruct Hm as [<- Hm]. by apply Hf.
Qed.

Lemma keeps_fmap {A B} (f : A → B) (m : rd A) : keeps y m → keeps y (f <$> m).
Proof. intros Hm. by apply keeps_bind. Qed.

Lemma keeps_gets {A} (f : redisReader → A) :
  (∀ r r', related y r r' → f r' = f r) → keeps y (gets f).
Proof. intros Hf r r' H. simpl. by rewrite (Hf r r'). Qed.

Lemma keeps_modify f : (∀ r r', related y r r' → related y (f r) (f r')) → keeps y (modify f).
Proof. intros Hf r r' H. simpl. auto. Qed.

Lemma keeps_assert b : keeps y (r_assert b).
Proof. by destruct b. Qed.

Lemma keeps_task_at i : keeps y (task_at i).
Proof.
  apply keeps_bind; [apply keeps_gets; apply rel_task|]. intros l.
  apply keeps_bind; [apply keeps_assert|]. intros _. apply keeps_must.
Qed.

Lemma keeps_put_task i t : keeps y (put_task i t).
Proof.
  apply keeps_bind; [apply keeps_task_at|]. intros _. apply keeps_modify. intros r r' []. split; simpl; first [done | congruence].
Qed.

Lemma keeps_set_ridx i : keeps y (modify (λ r, set_ridx r i)).
Proof. apply keeps_modify. intros r r' []. by split. Qed.

Lemma keeps_set_reply p : keeps y (modify (λ r, set_reply r p)).
Proof. apply keeps_modify. intros r r' []. by split. Qed.

Lemma keeps_set_heap h : keeps y (modify (λ r, set_heap r h)).
Proof. apply keeps_modify. intros r r' []. by split. Qed.

Lemma keeps_set_root p : keeps y (set_root p).
Proof.
  apply keeps_modify. intros r r' H. rewrite (rel_ridx _ _ _ H). destruct (r_ridx r =? 0); [|done].
  destruct H. by split.
Qed.

Lemma keeps_set_error e s : e ≠ 0 → keeps y (__redisReaderSetError e s).
Proof.
  intros He. apply keeps_modify. intros r r' []. split; try done.
  - apply Nat.le_0_l.
  - apply Nat.le_0_l.
  - cbn. by rewrite (proj2 (Z.eqb_neq e 0) He).
Qed.

Lemma keeps_grow : keeps y redisReaderGrow.
Proof. apply keeps_modify. intros r r' []. split; simpl; first [done | congruence]. Qed.

End keeps.

#[export] Hint Resolve keeps_ret keeps_undefined keeps_must keeps_assert keeps_task_at keeps_put_task
  keeps_set_ridx keeps_set_reply keeps_set_heap keeps_set_root keeps_grow : reader.
#[export] Hint Resolve rel_task rel_ridx rel_heap rel_err : reader.

(** Follow the structure of a computation. *)
Ltac keep :=
  repeat first
    [ solve [eauto with reader]
    | apply keeps_bind; [|intros ?]
    | apply keeps_fmap
    | apply keeps_gets; [eauto with reader..]
    | apply keeps_set_error; done
    | match goal with |- keeps _ (match ?x with _ => _ end) => destruct x end
    | match goal with |- keeps _ (if ?x then _ else _) => destruct x end ].

Section keeps_items.
Context (y : string).

Lemma keeps_bad {A} (a : A) s : keeps y (bad a s).
Proof. unfold bad. keep. Qed.

Lemma keeps_create t o : keeps y (create t o).
Proof. unfold create, alloc, attach. keep. Qed.
#[local] Hint Resolve keeps_bad keeps_create : reader.

Lemma keeps_move_loop n : keeps y (move_loop n).
Proof. induction n as [|n IH]; [done|]. cbn [move_loop]. keep. Qed.

Lemma keeps_move : keeps y moveToNextTask.
Proof. unfold moveToNextTask. apply keeps_bind; [keep|]. intros i. apply keeps_move_loop. Qed.
#[local] Hint Resolve keeps_move : reader.

Lemma keeps_string t s : keeps y (createStringObject t s).
Proof. unfold createStringObject. keep. Qed.

Lemma keeps_finish o : keeps y (finish_item o).
Proof. unfold finish_item. keep. Qed.

End keeps_items.

#[export] Hint Resolve keeps_bad keeps_create keeps_move keeps_string keeps_finish : reader.

Lemma keeps_line_object fd y t s : keeps y (line_object fd t s).
Proof.
  unfold line_object, createIntegerObject, createDoubleObject, createNilObject, createBoolObject. keep.
Qed.

#[export] Hint Resolve keeps_line_object : reader.

(** ** Suspension *)

Lemma wrap_s_le w z : 0 < w → 0 ≤ z → wrap_s w z ≤ z.
Proof.
  intros Hw Hz. unfold wrap_s. assert (0 < 2 ^ (w - 1)) by (apply Z.pow_pos_nonneg; lia).
  assert (0 < 2 ^ w) by (apply Z.pow_pos_nonneg; lia).
  pose proof (Z.mod_le (z + 2 ^ (w - 1)) (2 ^ w)). lia.
Qed.

Lemma unread_advance k r : r_unread (advance k r) = sdrop k (r_unread r).
Proof. unfold r_unread, advance. cbn. by rewrite sdrop_sdrop. Qed.

Lemma unread_length r : String.length (r_unread r) = (String.length (r_buf r) - r_pos r)%nat.
Proof. apply sdrop_length. Qed.

Lemma related_advance y k r r' : related y r r' → r_err r = 0 → (k ≤ String.length (r_unread r))%nat →
  related y (advance k r) (advance k r').
Proof.
  intros H He Hk. pose proof (rel_unread _ _ _ H) as Hu. rewrite He in Hu. cbn in Hu.
  assert (k ≤ String.length (r_unread r'))%nat as Hk' by (rewrite Hu, string_length_app; lia).
  rewrite unread_length in Hk, Hk'. destruct H as [? ? ? ? ? ? Hi Hi' _]. unfold in_buf in *.
  split; try done; try (unfold in_buf, advance; cbn; lia).
  rewrite !unread_advance, Hu. cbn. rewrite He. cbn. apply sdrop_app_le. rewrite unread_length. lia.
Qed.

(** A longer reader that both extend is the same for both. *)
Lemma related_fork y s r r' : related y s r → related y s r' → related EmptyString r r'.
Proof.
  intros [] []. split; try congruence; try done.
  destruct (r_err r =? 0); rewrite ?string_app_nil_r; congruence.
Qed.

Lemma related_refl r : in_buf r → related EmptyString r r.
Proof. intros H. split; try done. destruct (r_err r =? 0); by rewrite ?string_app_nil_r. Qed.

Lemma related_feed y r : in_buf r → r_err r = 0 → related y r (set_buf r (r_buf r +:+ y) (r_pos r)).
Proof.
  unfold in_buf. intros H He. split; try done.
  - unfold in_buf. cbn. rewrite string_length_app. lia.
  - rewrite He. cbn. unfold r_unread. cbn. by rewrite sdrop_app_le.
Qed.

Lemma unread_related y r r' : related y r r' → r_err r = 0 → r_unread r' = r_unread r +:+ y.
Proof. intros H He. rewrite (rel_unread _ _ _ H), He. done. Qed.

(** Either the input is enough, and more of it makes no difference, or the
    reader waits and has not changed. *)
Definition follows (P : rd bool) (r : redisReader) : Prop :=
  ∀ y r', related y r r' → res_rel y (P r) (P r').

Definition waits (P : rd bool) (r : redisReader) : Prop :=
  follows P r ∨ P r = Some (false, r) ∧ ∀ r', related EmptyString r r' → P r' = Some (false, r').

Lemma waits_cong P r r' : waits P r → related EmptyString r r' → res_rel EmptyString (P r) (P r').
Proof. intros [H|[H H']] Hr; [by apply H|]. by rewrite H, (H' r'). Qed.

Lemma readLine_cases r : r_err r = 0 →
  (∃ line k, (0 < k ≤ String.length (r_unread r))%nat ∧ readLine r = Some (Some line, advance k r) ∧
    ∀ y r', related y r r' → readLine r' = Some (Some line, advance k r')) ∨
  (readLine r = None ∧ ∀ y r', related y r r' → readLine r' = None) ∨
  (readLine r = Some (None, r) ∧ ∀ r', related EmptyString r r' → readLine r' = Some (None, r')).
Proof.
  intros He. unfold readLine, gets, mbind, rd_bind. cbn beta iota. rewrite seekNewline_find.
  destruct (find_crlf (r_unread r)) as [off|] eqn:E.
  - assert (∀ y r', related y r r' → r_unread r' = r_unread r +:+ y ∧ seekNewline (r_unread r') (String.length (r_unread r')) = Some off) as Hy.
    { intros y r' H. rewrite seekNewline_find, (unread_related _ _ _ H He). split; [done|]. by apply find_crlf_app. }
    apply find_crlf_bound in E as Hb. pose proof (wrap_s_le 32 (Z.of_nat off)) as Hle.
    destruct (Z.leb_spec 0 (wrap_s 32 (Z.of_nat off))) as [H0|H0].
    2: { right. left. split; [done|]. intros y r' H. destruct (Hy y r' H) as [_ ->]. cbn zeta.
         by rewrite (proj2 (Z.leb_gt 0 _)). }
    destruct (Z.leb_spec (wrap_s 32 (Z.of_nat off) + 2) INT_MAX) as [H2|H2].
    2: { right. left. split; [done|]. intros y r' H. destruct (Hy y r' H) as [_ ->]. cbn zeta.
         by rewrite (proj2 (Z.leb_le 0 _)), (proj2 (Z.leb_gt _ INT_MAX)). }
    left. eexists _, (Z.to_nat (wrap_s 32 (Z.of_nat off)) + 2)%nat. split; [lia|]. split; [done|].
    intros y r' H. destruct (Hy y r' H) as [Hu ->]. cbn zeta.
    rewrite (proj2 (Z.leb_le 0 _)), (proj2 (Z.leb_le _ INT_MAX)) by done. cbn. by rewrite Hu, stake_app_le by lia.
  - right. right. split; [done|]. intros r' H. by rewrite seekNewline_find, (unread_related _ _ _ H He), string_app_nil_r, E.
Qed.

Lemma task_at_looks i s : match task_at i s with Some (_, s') => s' = s | None => True end.
Proof. unfold task_at, gets, mbind, rd_bind. destruct (0 <=? i); simpl; [|done]. by destruct (r_task s !! _). Qed.

(** A first part that only looks. *)
Lemma waits_look {A} (m : rd A) (f : A → rd bool) r :
  (∀ y, keeps y m) → (∀ s, match m s with Some (_, s') => s' = s | None => True end) →
  (∀ a, waits (f a) r) → waits (m ≫= f) r.
Proof.
  intros Hm Hl Hf. pose proof (Hl r) as H1.
  assert (∀ y r', related y r r' → match m r, m r' with
    | Some (a, _), Some (a', s') => a = a' ∧ s' = r' | None, None => True | _, _ => False end) as Hr.
  { intros y r' H. specialize (Hm y r r' H). pose proof (Hl r') as H2. unfold res_rel in Hm.
    destruct (m r) as [[a s]|], (m r') as [[a' s']|]; try done. destruct Hm as [<- _]. by subst. }
  unfold waits, follows, mbind, rd_bind. destruct (m r) as [[a s]|].
  - subst s. destruct (Hf a) as [HF|[HF HW]]; [left|right].
    + intros y r' H. specialize (Hr y r' H). destruct (m r') as [[a' s']|]; [|done]. destruct Hr as [<- ->]. by apply HF.
    + split; [done|]. intros r' H. specialize (Hr _ r' H). destruct (m r') as [[a' s']|]; [|done].
      destruct Hr as [<- ->]. by apply HW.
  - left. intros y r' H. specialize (Hr y r' H). by destruct (m r').
Qed.

Lemma waits_task i f r : (∀ t, waits (f t) r) → waits (task_at i ≫= f) r.
Proof. apply waits_look; [intros; apply keeps_task_at|apply task_at_looks]. Qed.

Lemma waits_ridx f r : (∀ i, waits (f i) r) → waits (gets r_ridx ≫= f) r.
Proof. apply waits_look; [intros y; apply keeps_gets; apply rel_ridx|done]. Qed.

Lemma waits_readLine (f : string → rd bool) r : r_err r = 0 → (∀ y p, keeps y (f p)) →
  waits (readLine ≫= λ line, match line with None => mret false | Some p => f p end) r.
Proof.
  intros He Hf. unfold waits, follows, mbind, rd_bind.
  destruct (readLine_cases r He) as [(p & k & Hk & -> & Hl)|[[-> Hn]|[-> Hn]]].
  - left. intros y r' H. rewrite (Hl y r' H). apply Hf, related_advance; [done..|lia].
  - left. intros y r' H. by rewrite (Hn y r' H).
  - right. split; [done|]. intros r' H. by rewrite (Hn r' H).
Qed.

Lemma waits_line fd r : r_err r = 0 → waits (processLineItem fd) r.
Proof.
  intros He. apply waits_ridx. intros i. apply waits_task. intros t. apply waits_readLine; [done|]. intros y p. keep.
Qed.

Lemma waits_aggregate r : r_err r = 0 → waits read_aggregate r.
Proof.
  intros He. apply waits_ridx. intros i. apply waits_task. intros t. apply waits_readLine; [done|]. intros y p.
  unfold open_aggregate, createNilObject, createArrayObject. keep.
Qed.

(** Creating an object changes the heap only. *)
Lemma create_frame t o r p s : create t o r = Some (p, s) → s = set_heap r (r_heap s).
Proof.
  unfold create, alloc, attach, gets, modify, mbind, rd_bind. simpl.
  destruct (t_parent t) as [i|]; [|by intros [= <- <-]].
  pose proof (task_at_looks (Z.of_nat i) (set_heap r (r_heap r ++ [o]))) as Hl.
  destruct (task_at _ _) as [[u s']|]; [|done]. subst s'.
  destruct (t_obj u) as [q|]; [|done]. simpl. destruct ((r_heap r ++ [o]) !! q) as [par|]; [|done]. simpl.
  destruct (is_aggregate _); [|done]. simpl. destruct ((0 <=? _) && _); [|done]. by intros [= <- <-].
Qed.

Lemma string_frame t c r p s : createStringObject t c r = Some (p, s) → s = set_heap r (r_heap s).
Proof.
  unfold createStringObject, mbind, rd_bind. destruct (_ || _); [|done]. cbn.
  destruct (_ =? _); apply create_frame.
Qed.

(** An object is created and the bytes of its item are passed over. *)
Lemma follows_object k (m : rd nat) r y r' : r_err r = 0 → related y r r' →
  keeps y m → (∀ p s, m r = Some (p, s) → s = set_heap r (r_heap s)) → (k ≤ String.length (r_unread r))%nat →
  res_rel y ((p ← m; modify (advance k);; finish_item (Some p)) r)
    ((p ← m; modify (advance k);; finish_item (Some p)) r').
Proof.
  intros He H Hm Hs Hk. unfold mbind, rd_bind. specialize (Hm r r' H). unfold res_rel in Hm.
  destruct (m r) as [[p s]|], (m r') as [[p' s']|]; try done. destruct Hm as [<- Hm].
  pose proof (Hs p s eq_refl) as Hf. apply keeps_finish, related_advance; [done|rewrite Hf; exact He|].
  rewrite Hf. exact Hk.
Qed.

Lemma waits_bulk r : r_err r = 0 → waits processBulkItem r.
Proof.
  intros He. apply waits_ridx. intros i. apply waits_task. intros t.
  match goal with |- waits (gets r_unread ≫= ?f) _ => set (F := f) end.
  change ((∀ y r', related y r r' → res_rel y (F (r_unread r) r) (F (r_unread r') r')) ∨
    F (r_unread r) r = Some (false, r) ∧ ∀ r', related EmptyString r r' → F (r_unread r') r' = Some (false, r')).
  assert (∀ r', related EmptyString r r' → r_unread r' = r_unread r) as H0.
  { intros r' H. by rewrite (unread_related _ _ _ H He), string_app_nil_r. }
  destruct (find_crlf (r_unread r)) as [off|] eqn:E.
  2: { right. unfold F. rewrite seekNewline_find, E. split; [done|]. intros r' H. by rewrite H0, seekNewline_find, E. }
  assert (∀ y r', related y r r' → r_unread r' = r_unread r +:+ y ∧ find_crlf (r_unread r +:+ y) = Some off) as Hy.
  { intros y r' H. split; [by apply unread_related|by apply find_crlf_app]. }
  destruct (Z.leb_spec (Z.of_nat off + 2 + (default 0 (string2ll (stake off (r_unread r))) + 2))
    (Z.of_nat (String.length (r_unread r)))) as [Hl|Hl].
  - left. intros y r' H. destruct (Hy y r' H) as [Hu Hc]. unfold F. rewrite !seekNewline_find, E, Hu, Hc.
    apply find_crlf_bound in E. rewrite stake_app_le by lia.
    destruct (string2ll (stake off (r_unread r))) as [len|]; [|by apply keeps_bad]. cbn zeta. unfold default, id in Hl.
    destruct (Z.ltb_spec len (-1)); [by apply keeps_bad|]. destruct (Z.eqb_spec len (-1)).
    { apply follows_object; try done; [apply keeps_create|apply create_frame|lia]. }
    rewrite !(proj2 (Z.leb_le _ _)) by (rewrite ?string_length_app; lia).
    rewrite sdrop_app_le, stake_app_le by (rewrite ?sdrop_length; lia).
    destruct (t_type t =? REDIS_REPLY_VERB) eqn:Hv; [destruct (Z.ltb_spec len 4)|]; cbn [andb orb];
      [apply keeps_bad; done|rewrite get_app_l by lia; destruct (negb _); [apply keeps_bad; done|]|];
      (apply follows_object; try done; [apply keeps_string|apply string_frame|lia]).
  - destruct (string2ll (stake off (r_unread r))) as [len|] eqn:En; unfold default, id in Hl.
    2: { left. intros y r' H. destruct (Hy y r' H) as [Hu Hc]. unfold F. rewrite !seekNewline_find, E, Hu, Hc.
         apply find_crlf_bound in E. rewrite stake_app_le, En by lia. by apply keeps_bad. }
    destruct (decide (len ≤ -1)) as [Hneg|Hpos].
    { left. intros y r' H. destruct (Hy y r' H) as [Hu Hc]. unfold F. rewrite !seekNewline_find, E, Hu, Hc.
      apply find_crlf_bound in E. rewrite stake_app_le, En by lia. cbn zeta.
      destruct (Z.ltb_spec len (-1)); [by apply keeps_bad|]. rewrite (proj2 (Z.eqb_eq _ _)) by lia.
      apply follows_object; try done; [apply keeps_create|apply create_frame|lia]. }
    assert (F (r_unread r) = mret false) as HF.
    { unfold F. rewrite seekNewline_find, E, En. cbn zeta.
      by rewrite (proj2 (Z.ltb_ge _ _)), (proj2 (Z.eqb_neq _ _)), (proj2 (Z.leb_gt _ _)) by lia. }
    right. rewrite HF. split; [done|]. intros r' H. by rewrite H0, HF.
Qed.

(** ** Items that have to wait *)

Lemma task_at_eq i r t s : task_at i r = Some (t, s) → 0 ≤ i ∧ r_task r !! Z.to_nat i = Some t ∧ s = r.
Proof.
  unfold task_at, gets, mbind, rd_bind. cbn. destruct (Z.leb_spec 0 i); cbn; [|done].
  destruct (r_task r !! Z.to_nat i); cbn; [|done]. by intros [= <- <-].
Qed.

Lemma task_at_some i r t : 0 ≤ i → r_task r !! Z.to_nat i = Some t → task_at i r = Some (t, r).
Proof.
  intros Hi Ht. unfold task_at, gets, mbind, rd_bind. cbn. by rewrite (proj2 (Z.leb_le _ _) Hi), Ht.
Qed.

Lemma grow_when_full_eq r t : task_at (r_ridx r) r = Some (t, r) →
  ∃ g, grow_when_full r = Some (tt, g) ∧ (g = r ∨ ∃ l, g = set_tasks r (r_task r ++ l)) ∧
    task_at (r_ridx r) g = Some (t, g) ∧ r_ridx r + 1 < Z.of_nat (length (r_task g)) ∧
    ∀ s, r_task s = r_task g → r_ridx s = r_ridx r → grow_when_full s = Some (tt, s).
Proof.
  intros Ht. apply task_at_eq in Ht as (Hi & Ht & _).
  assert (∀ s, r_ridx s = r_ridx r → r_task s !! Z.to_nat (r_ridx r) = Some t →
    grow_when_full s = if r_ridx r =? Z.of_nat (length (r_task s)) - 1 then redisReaderGrow s else Some (tt, s)) as Hg.
  { intros s Hs Hts. unfold grow_when_full. unfold mbind, rd_bind. cbn. rewrite Hs, (task_at_some _ _ t Hi Hts).
    by destruct (_ =? _). }
  pose proof (lookup_lt_Some _ _ _ Ht) as Hl. rewrite Hg by done.
  destruct (Z.eqb_spec (r_ridx r) (Z.of_nat (length (r_task r)) - 1)) as [Hf|Hf].
  - eexists. split; [done|]. split; [by right; eexists|].
    assert ((r_task r ++ replicate REDIS_READER_STACK_SIZE (mkTask 0 0 0 None None)) !! Z.to_nat (r_ridx r) = Some t) as Ht'
      by (by apply lookup_app_l_Some).
    split; [by apply task_at_some|].
    split; [cbn [r_task set_tasks]; rewrite length_app, length_replicate; unfold REDIS_READER_STACK_SIZE; lia|].
    intros s Hs Hr. rewrite Hg; [|done|by rewrite Hs]. rewrite Hs. cbn [r_task set_tasks]. rewrite length_app, length_replicate. unfold REDIS_READER_STACK_SIZE.
    by rewrite (proj2 (Z.eqb_neq _ _)) by lia.
  - exists r. split; [done|]. split; [by left|]. split; [by apply task_at_some|]. split; [lia|].
    intros s Hs Hr. rewrite Hg; [|done|by rewrite Hs]. rewrite Hs. by rewrite (proj2 (Z.eqb_neq _ _)).
Qed.

(** The item is suspended at [s]: with more input it goes on from there as if
    all of the input had been there from the start. *)
Definition suspended (P : rd bool) (r s : redisReader) : Prop :=
  P r = Some (false, s) ∧ r_err s = 0 ∧ r_ridx s = r_ridx r ∧ in_buf s ∧
  ∀ y r' s', related y r r' → related y s s' → res_rel EmptyString (P r') (P s').

Lemma waits_suspended P r : in_buf r → r_err r = 0 → (∀ s, r_err s = 0 → waits P s) →
  follows P r ∨ suspended P r r.
Proof.
  intros Hi He HP. destruct (HP r He) as [H|[H _]]; [by left|right]. repeat split; try done.
  intros y r' s' Hr Hs. apply waits_cong; [apply HP|by eapply related_fork]. by rewrite (rel_err _ _ _ Hr).
Qed.

Lemma keeps_grow_when_full y : keeps y grow_when_full.
Proof. unfold grow_when_full. keep. intros s s' Hss. by rewrite (rel_task _ _ _ Hss). Qed.

Lemma aggregate_suspended r t : in_buf r → r_err r = 0 → task_at (r_ridx r) r = Some (t, r) →
  follows processAggregateItem r ∨ ∃ s, suspended processAggregateItem r s ∧ task_at (r_ridx r) s = Some (t, s).
Proof.
  intros Hb He Ht. destruct (grow_when_full_eq r t Ht) as (g & Hg & Hgr & Htg & _ & Hs).
  assert (∀ y r', related y r r' → ∃ g', grow_when_full r' = Some (tt, g') ∧ related y g g') as Hk.
  { intros y r' H. pose proof (keeps_grow_when_full y r r' H) as Hk. rewrite Hg in Hk.
    destruct (grow_when_full r') as [[[] g']|]; [|done]. exists g'. by destruct Hk. }
  assert (r_err g = 0 ∧ r_ridx g = r_ridx r ∧ in_buf g) as (Heg & Hig & Hbg) by (by destruct Hgr as [->|[l ->]]).
  destruct (waits_aggregate g Heg) as [Hw|[Hw _]].
  - left. intros y r' H. destruct (Hk y r' H) as (g' & Hg' & Hgg).
    unfold processAggregateItem, mbind, rd_bind. rewrite Hg, Hg'. by apply Hw.
  - right. exists g. split; [|done]. unfold suspended, processAggregateItem, mbind, rd_bind. rewrite Hg.
    repeat split; try done. intros y r' s' H Hs'. destruct (Hk y r' H) as (g' & -> & Hgg).
    rewrite (Hs s') by (rewrite ?(rel_task _ _ _ Hs'), ?(rel_ridx _ _ _ Hs'); done).
    apply waits_cong; [apply waits_aggregate|by eapply related_fork]. by rewrite (rel_err _ _ _ Hgg).
Qed.

(** What the type of the task selects. *)
Definition dispatch (fd : string → bool) (t : redisReadTask) : rd bool :=
  if is_line_type (t_type t) then processLineItem fd
  else if (t_type t =? REDIS_REPLY_STRING) || (t_type t =? REDIS_REPLY_VERB) then processBulkItem
  else if is_aggregate (t_type t) then processAggregateItem
  else undefined.

Lemma typed_dispatch fd t s : task_at (r_ridx s) s = Some (t, s) → process_typed fd s = dispatch fd t s.
Proof. intros Ht. unfold process_typed, mbind, rd_bind. cbn. by rewrite Ht. Qed.

Lemma task_at_related y t s s' : related y s s' → task_at (r_ridx s) s = Some (t, s) →
  task_at (r_ridx s') s' = Some (t, s').
Proof.
  intros Hs Ht. apply task_at_eq in Ht as (Hi & Ht & _). apply task_at_some; [by rewrite (rel_ridx _ _ _ Hs)|].
  by rewrite (rel_task _ _ _ Hs), (rel_ridx _ _ _ Hs).
Qed.

Lemma dispatch_suspended fd r t : in_buf r → r_err r = 0 → task_at (r_ridx r) r = Some (t, r) →
  follows (dispatch fd t) r ∨ ∃ s, suspended (dispatch fd t) r s ∧ task_at (r_ridx r) s = Some (t, s).
Proof.
  intros Hb He Ht. unfold dispatch. destruct (is_line_type (t_type t)); [|destruct (_ || _)].
  3: destruct (is_aggregate (t_type t)); [by apply aggregate_suspended|by left].
  - destruct (waits_suspended (processLineItem fd) r) as [Hw|Hw]; try done; [apply waits_line|by left|by right; eauto].
  - destruct (waits_suspended processBulkItem r) as [Hw|Hw]; try done; [apply waits_bulk|by left|by right; eauto].
Qed.

Lemma typed_suspended fd r t : in_buf r → r_err r = 0 → task_at (r_ridx r) r = Some (t, r) →
  follows (process_typed fd) r ∨
  ∃ s, suspended (process_typed fd) r s ∧ task_at (r_ridx r) s = Some (t, s).
Proof.
  intros Hb He Ht. destruct (dispatch_suspended fd r t Hb He Ht) as [Hd|(s & (Hs & Hse & Hsi & Hsb & Hss) & Hst)].
  - left. intros y r' H. pose proof (task_at_related y t r r' H Ht) as Ht'.
    rewrite (typed_dispatch fd t r Ht), (typed_dispatch fd t r' Ht'). by apply Hd.
  - right. exists s. split; [|done]. unfold suspended. rewrite (typed_dispatch fd t r Ht). split_and!; try done.
    intros y r' s' H Hs'. pose proof (task_at_related y t r r' H Ht) as Ht'.
    rewrite (typed_dispatch fd t r' Ht'), (typed_dispatch fd t s'); [by apply (Hss y)|].
    apply (task_at_related y t s); [done|]. by rewrite Hsi.
Qed.

Lemma typed_cong fd r r' t : related EmptyString r r' → r_err r = 0 → task_at (r_ridx r) r = Some (t, r) →
  res_rel EmptyString (process_typed fd r) (process_typed fd r').
Proof.
  intros H He Ht. rewrite (typed_dispatch fd t r Ht), (typed_dispatch fd t r' (task_at_related _ t r r' H Ht)).
  unfold dispatch. destruct (is_line_type _); [|destruct (_ || _)]; [by apply waits_cong; [apply waits_line|]|by apply waits_cong; [apply waits_bulk|]|].
  destruct (is_aggregate _); [|done]. destruct (grow_when_full_eq r t Ht) as (g & Hg & Hgr & _).
  pose proof (keeps_grow_when_full _ r r' H) as Hk. rewrite Hg in Hk. unfold processAggregateItem, mbind, rd_bind.
  rewrite Hg. destruct (grow_when_full r') as [[[] g']|]; [|done]. destruct Hk as [_ Hk].
  apply waits_cong; [apply waits_aggregate|done]. by destruct Hgr as [->|[l ->]].
Qed.

(** The type byte. *)
Definition typed_as (type : Z) (t : redisReadTask) : redisReadTask :=
  mkTask type (t_elements t) (t_idx t) (t_obj t) (t_parent t).

Lemma read_type_eq r t : task_at (r_ridx r) r = Some (t, r) →
  read_type r =
    if 0 <=? t_type t then Some (true, r)
    else match r_unread r with
         | EmptyString => Some (false, r)
         | String c _ =>
             match type_of_byte c with
             | Some type =>
                 Some (true, set_tasks (advance 1 r) (<[Z.to_nat (r_ridx r) := typed_as type t]> (r_task r)))
             | None => (__redisReaderSetErrorProtocolByte c;; mret false) (advance 1 r)
             end
         end.
Proof.
  intros Ht. unfold read_type, mbind, rd_bind. cbn [gets]. rewrite Ht. destruct (0 <=? t_type t); [done|].
  unfold readByte, mbind, rd_bind. cbn [gets]. destruct (r_unread r) as [|c u]; [done|]. cbn.
  destruct (type_of_byte c) as [type|]; [|done]. unfold put_task, mbind, rd_bind.
  apply task_at_eq in Ht as (Hi & Ht & _). by rewrite (task_at_some _ (advance 1 r) t Hi Ht).
Qed.

Lemma type_of_byte_pos c type : type_of_byte c = Some type → 0 ≤ type.
Proof. unfold type_of_byte. intros H. repeat case_match; simplify_eq; done. Qed.

Lemma task_at_none y r r' : related y r r' → task_at (r_ridx r) r = None → task_at (r_ridx r') r' = None.
Proof.
  intros H. pose proof (keeps_task_at y (r_ridx r) r r' H) as Ht. rewrite (rel_ridx _ _ _ H). intros Hn.
  rewrite Hn in Ht. by destruct (task_at (r_ridx r) r').
Qed.

(** What [read_type] leaves in a task whose type is known. *)
Lemma read_type_cases r : in_buf r → r_err r = 0 →
  (∃ r1 t, read_type r = Some (true, r1) ∧ r_err r1 = 0 ∧ in_buf r1 ∧ r_ridx r1 = r_ridx r ∧
    task_at (r_ridx r1) r1 = Some (t, r1) ∧ 0 ≤ t_type t ∧
    ∀ y r', related y r r' → ∃ r1', read_type r' = Some (true, r1') ∧ related y r1 r1') ∨
  (∀ s, read_type r ≠ Some (true, s)) ∧ follows read_type r ∨
  read_type r = Some (false, r) ∧ ∀ r', related EmptyString r r' → read_type r' = Some (false, r').
Proof.
  intros Hb He. destruct (task_at (r_ridx r) r) as [[t s]|] eqn:Ht.
  2: { right. left. unfold follows, read_type, mbind, rd_bind. cbn [gets]. rewrite Ht. split; [done|]. intros y r' H.
       by rewrite (task_at_none y r r' H Ht). }
  pose proof (task_at_eq _ _ _ _ Ht) as (Hi & Hl & ->).
  assert (∀ y r', related y r r' → task_at (r_ridx r') r' = Some (t, r')) as Ht'
    by (intros y r' H; by apply (task_at_related y t r)).
  unfold follows. rewrite (read_type_eq r t Ht). destruct (Z.leb_spec 0 (t_type t)) as [Hty|Hty].
  { left. exists r, t. split_and!; try done. intros y r' H. exists r'. rewrite (read_type_eq r' t (Ht' y r' H)).
    by rewrite (proj2 (Z.leb_le _ _)). }
  destruct (r_unread r) as [|c u] eqn:Er.
  { right. right. split; [done|]. intros r' H. rewrite (read_type_eq r' t (Ht' _ r' H)), (proj2 (Z.leb_gt _ _)) by done.
    by rewrite (unread_related _ _ _ H He), Er. }
  assert (∀ y r', related y r r' → read_type r' = match type_of_byte c with
    | Some type => Some (true, set_tasks (advance 1 r') (<[Z.to_nat (r_ridx r) := typed_as type t]> (r_task r)))
    | None => (__redisReaderSetErrorProtocolByte c;; mret false) (advance 1 r') end ∧
    related y (advance 1 r) (advance 1 r')) as Hr'.
  { intros y r' H. rewrite (read_type_eq r' t (Ht' y r' H)), (proj2 (Z.leb_gt _ _)) by done.
    rewrite (unread_related _ _ _ H He), Er, (rel_ridx _ _ _ H), (rel_task _ _ _ H). split; [done|].
    apply related_advance; [done..|]. rewrite Er. cbn. lia. }
  destruct (type_of_byte c) as [type|] eqn:Ec; [left|right; left].
  - eexists _, (typed_as type t). split; [done|]. split; [done|].
    split. { apply (f_equal String.length) in Er. rewrite unread_length in Er. cbn in Er. unfold in_buf in *. cbn. lia. }
    split; [done|]. split; [|split; [by apply type_of_byte_pos in Ec|]].
    + apply task_at_some; [done|]. apply list_lookup_insert_eq. by eapply lookup_lt_Some.
    + intros y r' H. destruct (Hr' y r' H) as [-> Ha]. eexists. split; [done|]. destruct Ha; by split.
  - split; [done|]. intros y r' H. destruct (Hr' y r' H) as [-> Ha].
    apply (keeps_bind y _ _ (keeps_set_error y REDIS_ERR_PROTOCOL _ ltac:(done))); [keep|done].
Qed.

Lemma item_typed fd r r1 : read_type r = Some (true, r1) → processItem fd r = process_typed fd r1.
Proof. intros Hr. unfold processItem, mbind, rd_bind. by rewrite Hr. Qed.

Lemma item_untyped fd r : (∀ s, read_type r ≠ Some (true, s)) → follows read_type r → follows (processItem fd) r.
Proof.
  intros Hn Hf y r' H. specialize (Hf y r' H). unfold processItem, mbind, rd_bind.
  destruct (read_type r) as [[[] s]|], (read_type r') as [[b s']|]; try done.
  - by destruct (Hn s).
  - by destruct Hf as [<- Hf].
Qed.

Lemma item_waiting fd r : read_type r = Some (false, r) → processItem fd r = Some (false, r).
Proof. intros Hr. unfold processItem, mbind, rd_bind. by rewrite Hr. Qed.

Lemma item_cong fd r r' : related EmptyString r r' → r_err r = 0 →
  res_rel EmptyString (processItem fd r) (processItem fd r').
Proof.
  intros H He. pose proof (rel_in _ _ _ H) as Hb.
  destruct (read_type_cases r Hb He) as [(r1 & t & H1 & Hre & Hrb & _ & Ht & _ & Hr')|[[Hn Hr]|[Hn Hn']]].
  - destruct (Hr' _ r' H) as (r1' & H1' & Hr). rewrite (item_typed fd r r1 H1), (item_typed fd r' r1' H1').
    by apply (typed_cong fd r1 r1' t).
  - by apply item_untyped.
  - rewrite (item_waiting fd r Hn), (item_waiting fd r' (Hn' r' H)). exact (conj eq_refl H).
Qed.

(** The item is finished, or goes on after more input. *)
Lemma item_suspended fd r : in_buf r → r_err r = 0 →
  follows (processItem fd) r ∨ ∃ s, suspended (processItem fd) r s.
Proof.
  intros Hb He.
  destruct (read_type_cases r Hb He) as [(r1 & t & H1 & Hre & Hrb & Hri & Ht & Hp & Hr')|[[Hn Hr]|[Hn _]]].
  - destruct (typed_suspended fd r1 t Hrb Hre Ht) as [Hf|(s & (Hs & Hse & Hsi & Hsb & Hss) & Hst)].
    + left. intros y r' H. destruct (Hr' y r' H) as (r1' & H1' & Hr).
      rewrite (item_typed fd r r1 H1), (item_typed fd r' r1' H1'). by apply Hf.
    + right. exists s. unfold suspended. rewrite (item_typed fd r r1 H1). split_and!; try done; [by rewrite <- Hri|].
      intros y r' s' H Hs'. destruct (Hr' y r' H) as (r1' & H1' & Hr). rewrite (item_typed fd r' r1' H1').
      rewrite (item_typed fd s' s'); [by apply (Hss y)|].
      assert (task_at (r_ridx s') s' = Some (t, s')) as Ht'.
      { apply (task_at_related y t s); [done|]. by rewrite Hsi. }
      rewrite (read_type_eq _ _ Ht'). by rewrite (proj2 (Z.leb_le _ _) Hp).
  - left. by apply item_untyped.
  - right. exists r. unfold suspended. split_and!; try done; [by apply item_waiting|].
    intros y r' s' H Hs'. apply item_cong; [by eapply related_fork|]. by rewrite (rel_err _ _ _ H).
Qed.

(** ** Runs of the loop over items *)

Section runs.
Context (fd : string → bool).

Inductive runs_to : redisReader → redisReader → Prop :=
| run_done r : r_ridx r < 0 → runs_to r r
| run_stop r s : 0 ≤ r_ridx r → processItem fd r = Some (false, s) → runs_to r s
| run_item r r1 s : 0 ≤ r_ridx r → processItem fd r = Some (true, r1) → r_err r1 = 0 →
    runs_to r1 s → runs_to r s.

Lemma runs_det r s s' : runs_to r s → runs_to r s' → s = s'.
Proof using Type.
  intros H. revert s'. induction H as [r Hr|r s Hr Hs|r r1 s Hr Hs He H IH]; intros s' H'; inversion H'; subst;
    try lia; try congruence; try (by simplify_eq). simplify_eq. auto.
Qed.

Lemma related_sym r r' : related EmptyString r r' → related EmptyString r' r.
Proof using Type.
  intros []. split; try congruence; try done.
  destruct (r_err r =? 0) eqn:E; rewrite rel_err0, E; rewrite ?string_app_nil_r in *; congruence.
Qed.

Lemma runs_cong r s r' : runs_to r s → related EmptyString r r' → r_err r = 0 →
  ∃ s', runs_to r' s' ∧ related EmptyString s s'.
Proof using Type.
  intros H. revert r'. induction H as [r Hr|r s Hr Hs|r r1 s Hr Hs He1 H IH]; intros r' Hrel He;
    pose proof (rel_ridx _ _ _ Hrel) as Hi.
  - exists r'. split; [|done]. constructor. lia.
  - pose proof (item_cong fd r r' Hrel He) as Hp. rewrite Hs in Hp.
    destruct (processItem fd r') as [[b s']|] eqn:E; [|done]. destruct Hp as [<- Hp].
    exists s'. split; [|done]. by constructor; [lia|].
  - pose proof (item_cong fd r r' Hrel He) as Hp. rewrite Hs in Hp.
    destruct (processItem fd r') as [[b s']|] eqn:E; [|done]. destruct Hp as [<- Hp].
    destruct (IH s' Hp He1) as (u & Hu & Hr'). exists u. split; [|done].
    eapply run_item; [lia|done| |done]. by rewrite (rel_err _ _ _ Hp).
Qed.

(** A run on the shorter input is a part of the run on the longer one. *)
Lemma runs_extend r s : runs_to r s → in_buf r → r_err r = 0 →
  (∀ y r', related y r r' → ∃ s', runs_to r' s' ∧ related y s s') ∨
  r_err s = 0 ∧ 0 ≤ r_ridx s ∧ in_buf s ∧
    ∀ y r' s' u', related y r r' → related y s s' → runs_to r' u' → ∃ u, runs_to s' u ∧ related EmptyString u' u.
Proof using Type.
  induction 1 as [r Hr|r s Hr Hs|r r1 s Hr Hs He1 H IH]; intros Hb He.
  - left. intros y r' H. exists r'. split; [|done]. constructor. by rewrite (rel_ridx _ _ _ H).
  - destruct (item_suspended fd r Hb He) as [Hp|(s1 & Hs1 & Hse & Hsi & Hsb & Hss)]; [left|right].
    + intros y r' H. specialize (Hp y r' H). rewrite Hs in Hp.
      destruct (processItem fd r') as [[b s']|] eqn:E; [|done]. destruct Hp as [<- Hp].
      exists s'. split; [|done]. constructor; [by rewrite (rel_ridx _ _ _ H)|done].
    + rewrite Hs in Hs1. injection Hs1 as <-. split_and!; try done; [lia|]. intros y r' s' u' H Hs' Hu.
      specialize (Hss y r' s' H Hs'). assert (0 ≤ r_ridx s') as Hi' by (rewrite (rel_ridx _ _ _ Hs'); lia).
      pose proof (rel_ridx _ _ _ H).
      inversion Hu as [? Hneg|? ? _ Hstop|? r1' ? _ Hitem He1 Hrun]; subst; [lia|..].
      * rewrite Hstop in Hss. destruct (processItem fd s') as [[b u]|] eqn:E; [|done]. destruct Hss as [<- Hss].
        exists u. split; [by constructor|done].
      * rewrite Hitem in Hss. destruct (processItem fd s') as [[b s1]|] eqn:E; [|done]. destruct Hss as [<- Hss].
        destruct (runs_cong r1' u' s1 Hrun Hss He1) as (u & Hu' & Hr').
        exists u. split; [|done]. eapply run_item; [lia|done| |done]. by rewrite (rel_err _ _ _ Hss).
  - destruct (item_suspended fd r Hb He) as [Hp|(s1 & Hs1 & _)]; [|congruence].
    assert (∀ y r', related y r r' → ∃ r1', processItem fd r' = Some (true, r1') ∧ related y r1 r1') as Hn.
    { intros y r' Hrel. specialize (Hp y r' Hrel). rewrite Hs in Hp.
      destruct (processItem fd r') as [[b r1']|]; [|done]. destruct Hp as [<- Hp]. eauto. }
    assert (in_buf r1) as Hb1 by (destruct (Hn _ r (related_refl r Hb)) as (? & _ & Hr1); apply Hr1).
    destruct (IH Hb1 He1) as [Hs'|(Hse & Hsi & Hsb & Hss)]; [left|right].
    + intros y r' Hrel. destruct (Hn y r' Hrel) as (r1' & E & Hrel1). destruct (Hs' y r1' Hrel1) as (s' & Hrun & Hr').
      exists s'. split; [|done]. eapply run_item; [by rewrite (rel_ridx _ _ _ Hrel)|done| |done].
      by rewrite (rel_err _ _ _ Hrel1).
    + split_and!; try done. intros y r' s' u' Hrel Hs' Hu. destruct (Hn y r' Hrel) as (r1' & E & Hrel1).
      pose proof (rel_ridx _ _ _ Hrel).
      inversion Hu as [? Hneg|? ? _ Hstop|? r2' ? _ Hitem _ Hrun]; subst; [lia|congruence|]. simplify_eq.
      by apply (Hss y r1').
Qed.

(** Where the longer input has a run, the shorter one has. *)
Lemma runs_shorter y r r' u' : runs_to r' u' → related y r r' → r_err r = 0 → ∃ u, runs_to r u.
Proof using Type.
  intros H. revert r. induction H as [r' Hr|r' u' Hr Hs|r' r1' u' Hr Hs He1 H IH]; intros r Hrel He;
    pose proof (rel_ridx _ _ _ Hrel) as Hi; pose proof (rel_in _ _ _ Hrel) as Hb.
  - exists r. constructor. lia.
  - destruct (item_suspended fd r Hb He) as [Hp|(s & Hsus & _)]; [|exists s; by constructor; [lia|]].
    specialize (Hp y r' Hrel). rewrite Hs in Hp. destruct (processItem fd r) as [[b s]|] eqn:E; [|done].
    destruct Hp as [-> _]. exists s. by constructor; [lia|].
  - destruct (item_suspended fd r Hb He) as [Hp|(s & Hsus & _)]; [|exists s; by constructor; [lia|]].
    specialize (Hp y r' Hrel). rewrite Hs in Hp. destruct (processItem fd r) as [[b r1]|] eqn:E; [|done].
    destruct Hp as [-> Hp]. assert (r_err r1 = 0) as He' by (by rewrite <- (rel_err _ _ _ Hp)).
    destruct (IH r1 Hp He') as (u & Hu). exists u. eapply run_item; [lia|done..].
Qed.
End runs.

(** ** Every item takes a byte *)

Definition left_of (r : redisReader) : nat := String.length (r_unread r).

Definition shrinks {A} (m : rd A) : Prop :=
  ∀ r a s, m r = Some (a, s) → (left_of s ≤ left_of r)%nat.

Lemma shrinks_ret {A} (a : A) : shrinks (mret a).
Proof. intros r b s [= <- <-]. done. Qed.
Lemma shrinks_undefined {A} : shrinks (@undefined A).
Proof. done. Qed.
Lemma shrinks_must {A} (o : option A) : shrinks (must o).
Proof. intros r b s H. destruct o; [|done]. by injection H as <- <-. Qed.
Lemma shrinks_gets {A} (f : redisReader → A) : shrinks (gets f).
Proof. intros r b s [= <- <-]. done. Qed.
Lemma shrinks_modify f : (∀ r, left_of (f r) ≤ left_of r)%nat → shrinks (modify f).
Proof. intros Hf r [] s [= <-]. apply Hf. Qed.
Lemma shrinks_assert b : shrinks (r_assert b).
Proof. destruct b; [apply shrinks_ret|apply shrinks_undefined]. Qed.
Lemma shrinks_bind {A B} (m : rd A) (f : A → rd B) : shrinks m → (∀ a, shrinks (f a)) → shrinks (m ≫= f).
Proof.
  intros Hm Hf r b s H. unfold mbind, rd_bind in H. destruct (m r) as [[a r1]|] eqn:E; [|done].
  apply Hm in E. apply Hf in H. lia.
Qed.
Lemma left_of_advance k r : left_of (advance k r) = (left_of r - k)%nat.
Proof. unfold left_of. by rewrite unread_advance, sdrop_length. Qed.
Lemma shrinks_set_error e s : shrinks (__redisReaderSetError e s).
Proof. apply shrinks_modify. intros r. unfold left_of. cbn. lia. Qed.
Lemma shrinks_set_root p : shrinks (set_root p).
Proof. apply shrinks_modify. intros r. by destruct (_ =? _). Qed.
Lemma shrinks_advance k : shrinks (modify (advance k)).
Proof. apply shrinks_modify. intros r. rewrite left_of_advance. lia. Qed.

#[export] Hint Resolve shrinks_ret shrinks_undefined shrinks_must shrinks_gets shrinks_assert shrinks_set_error
  shrinks_set_root shrinks_advance : reader.

Ltac shrink :=
  repeat first
    [ solve [eauto with reader]
    | apply shrinks_bind; [|intros ?]
    | match goal with
      | |- shrinks (modify _) => apply shrinks_modify; intros ?; done
      | |- shrinks (fmap _ _) => apply shrinks_bind
      | |- shrinks (match ?x with _ => _ end) => destruct x
      | |- shrinks (if ?x then _ else _) => destruct x
      | |- shrinks (let _ := _ in _) => cbn zeta
      end ].

Lemma shrinks_create t o : shrinks (create t o).
Proof. unfold create, alloc, attach, task_at. shrink. Qed.
Lemma shrinks_task_at i : shrinks (task_at i).
Proof. unfold task_at. shrink. Qed.
#[export] Hint Resolve shrinks_create shrinks_task_at : reader.
Lemma shrinks_put_task i t : shrinks (put_task i t).
Proof. unfold put_task. shrink. Qed.
Lemma shrinks_string t s : shrinks (createStringObject t s).
Proof. unfold createStringObject. shrink. Qed.
#[export] Hint Resolve shrinks_put_task shrinks_string : reader.
Lemma shrinks_move n : shrinks (move_loop n).
Proof. induction n as [|n IH]; [apply shrinks_ret|]. cbn [move_loop]. shrink. Qed.
#[export] Hint Resolve shrinks_move : reader.
Lemma shrinks_finish o : shrinks (finish_item o).
Proof. unfold finish_item, moveToNextTask. shrink. Qed.
Lemma shrinks_line fd t s : shrinks (line_object fd t s).
Proof.
  unfold line_object, bad, createIntegerObject, createDoubleObject, createNilObject, createBoolObject. shrink.
Qed.
#[export] Hint Resolve shrinks_finish shrinks_line : reader.

Definition eats (P : rd bool) : Prop := ∀ r s, P r = Some (true, s) → (left_of s < left_of r)%nat.

Lemma eats_after {A} (m : rd A) (f : A → rd bool) : shrinks m → (∀ a, eats (f a)) → eats (m ≫= f).
Proof.
  intros Hm Hf r s H. unfold mbind, rd_bind in H. destruct (m r) as [[a r1]|] eqn:E; [|done].
  apply Hm in E. apply Hf in H. lia.
Qed.

Lemma eats_readLine (f : string → rd bool) : (∀ p, shrinks (f p)) →
  eats (readLine ≫= λ line, match line with None => mret false | Some p => f p end).
Proof.
  intros Hf r s H. unfold readLine, mbind, rd_bind, gets in H. cbn beta iota in H. rewrite seekNewline_find in H.
  destruct (find_crlf (r_unread r)) as [off|] eqn:E; [|done]. apply find_crlf_bound in E.
  destruct (0 <=? _); [|done]. destruct (_ <=? INT_MAX); [|done]. cbn in H. apply Hf in H.
  rewrite left_of_advance in H. unfold left_of in *. lia.
Qed.

Lemma eats_object k (m : rd nat) r s : shrinks m → (0 < k)%nat → (0 < left_of r)%nat →
  (p ← m; modify (advance k);; finish_item (Some p)) r = Some (true, s) → (left_of s < left_of r)%nat.
Proof.
  intros Hm Hk Hr H. unfold mbind, rd_bind in H. destruct (m r) as [[a r1]|] eqn:E; [|done].
  apply Hm in E. apply shrinks_finish in H. rewrite left_of_advance in H. lia.
Qed.

Lemma eats_bulk : eats processBulkItem.
Proof.
  apply eats_after; [apply shrinks_gets|]. intros i. apply eats_after; [apply shrinks_task_at|]. intros t r s H.
  unfold mbind at 1, rd_bind at 1 in H. cbn beta iota delta [gets] in H. rewrite seekNewline_find in H.
  destruct (find_crlf (r_unread r)) as [off|] eqn:E; [|done]. apply find_crlf_bound in E.
  destruct (string2ll _) as [len|]; [|done]. cbn zeta in H.
  destruct (Z.ltb_spec len (-1)); [done|]. destruct (Z.eqb_spec len (-1)).
  { eapply eats_object; [| | |exact H]; [apply shrinks_create|lia|unfold left_of; lia]. }
  destruct (Z.leb_spec (Z.of_nat off + 2 + (len + 2)) (Z.of_nat (String.length (r_unread r)))); [|done].
  destruct (_ && _); [done|].
  eapply eats_object; [| | |exact H]; [apply shrinks_string|lia|unfold left_of; lia].
Qed.

Lemma eats_item fd : eats (processItem fd).
Proof.
  apply eats_after. { unfold read_type, readByte, __redisReaderSetErrorProtocolByte. shrink. }
  intros []; [|done]. apply eats_after; [apply shrinks_gets|]. intros i.
  apply eats_after; [apply shrinks_task_at|]. intros t.
  destruct (is_line_type _); [|destruct (_ || _); [apply eats_bulk|destruct (is_aggregate _); [|done]]].
  - apply eats_after; [apply shrinks_gets|]. intros j. apply eats_after; [apply shrinks_task_at|]. intros u.
    apply eats_readLine. intros p. shrink.
  - apply eats_after. { unfold grow_when_full, redisReaderGrow. shrink. }
    intros _. apply eats_after; [apply shrinks_gets|]. intros j. apply eats_after; [apply shrinks_task_at|]. intros u.
    apply eats_readLine. intros p. unfold bad, open_aggregate, createNilObject, createArrayObject, moveToNextTask. shrink.
Qed.

(** The fuel of the loop is enough. *)
Lemma item_loop_runs fd n r s : runs_to fd r s → (left_of r < n)%nat → item_loop fd n r = Some (tt, s).
Proof.
  intros H. revert n. induction H as [r Hr|r s Hr Hs|r r1 s Hr Hs He H IH]; intros [|n] Hn; try lia;
    cbn [item_loop]; unfold mbind at 1, rd_bind at 1; cbn beta iota delta [gets].
  - by rewrite (proj2 (Z.ltb_lt _ _)).
  - rewrite (proj2 (Z.ltb_ge _ _)) by done. unfold mbind, rd_bind. by rewrite Hs.
  - rewrite (proj2 (Z.ltb_ge _ _)) by done. unfold mbind, rd_bind. rewrite Hs. apply IH.
    apply eats_item in Hs. lia.
Qed.
