(* ===== verification/ReaderTree.v ===== *)
(** * Whole replies

    Replies as trees, the bytes that stand for them, and the objects that the
    parser of hiredis builds: the parser of [Reader], on the bytes of any reply
    in any pieces, builds the reply. *)

From S2P Require Import Prelude CLib Buffers Hiredis Util Reader ReaderSpec.
From Stdlib Require Import Ascii.

(** ** Replies as trees *)

(** The three spellings of nil. *)
Inductive nil_form : Set := NilLine | NilBulk | NilArray.

Inductive resp : Type :=
| PLine (type : Z) (s : string)          (* a status, an error or a big number *)
| PInteger (z : Z)
| PDouble (s : string)
| PNil (f : nil_form)
| PBool (b : bool)
| PString (s : string)
| PVerbatim (vtype s : string)
| PAggregate (type : Z) (l : list resp).

Lemma resp_tree_ind (P : resp → Prop) :
  (∀ type s, P (PLine type s)) → (∀ z, P (PInteger z)) → (∀ s, P (PDouble s)) → (∀ f, P (PNil f)) →
  (∀ b, P (PBool b)) → (∀ s, P (PString s)) → (∀ v s, P (PVerbatim v s)) →
  (∀ type l, Forall P l → P (PAggregate type l)) → ∀ t, P t.
Proof.
  intros H1 H2 H3 H4 H5 H6 H7 H8. fix IH 1. intros [| | | | | | |type l];
    [apply H1|apply H2|apply H3|apply H4|apply H5|apply H6|apply H7|].
  apply H8. revert l. fix IHl 1. intros [|t l]; constructor; [apply IH|apply IHl].
Qed.

(** ** Bytes *)

Definition line (c : ascii) (s : string) : string := String c (s +:+ CRLF).

Definition type_byte (type : Z) : ascii :=
  if type =? REDIS_REPLY_ERROR then "-"%char
  else if type =? REDIS_REPLY_STATUS then "+"%char
  else if type =? REDIS_REPLY_BIGNUM then "("%char
  else if type =? REDIS_REPLY_ARRAY then "*"%char
  else if type =? REDIS_REPLY_MAP then "%"%char
  else if type =? REDIS_REPLY_SET then "~"%char
  else ">"%char.

(** A map has its keys and values in turn. *)
Definition count_of (type : Z) (n : nat) : Z :=
  if type =? REDIS_REPLY_MAP then Z.of_nat n / 2 else Z.of_nat n.

Definition text (c : ascii) (s : string) : string :=
  line c (pretty (Z.of_nat (String.length s))) +:+ s +:+ CRLF.

Fixpoint encode (t : resp) : string :=
  match t with
  | PLine type s => line (type_byte type) s
  | PInteger z => line ":" (pretty z)
  | PDouble s => line "," s
  | PNil NilLine => line "_" EmptyString
  | PNil NilBulk => line "$" "-1"
  | PNil NilArray => line "*" "-1"
  | PBool b => line "#" (if b then "t" else "f")
  | PString s => text "$" s
  | PVerbatim vtype s => text "=" (vtype +:+ ":" +:+ s)
  | PAggregate type l =>
      line (type_byte type) (pretty (count_of type (length l))) +:+ stream (encode <$> l)
  end.

(** ** Objects *)

Fixpoint size (t : resp) : nat :=
  match t with PAggregate _ l => S (sum_list (size <$> l)) | _ => 1%nat end.

(** The addresses of the elements, one after the other from [p] on. *)
Fixpoint addresses (p : nat) (l : list resp) : list nat :=
  match l with [] => [] | t :: l => p :: addresses (p + size t) l end.

Definition head (p : nat) (t : resp) : reply_object :=
  match t with
  | PLine type s => mkObject type 0 (Some s) EmptyString []
  | PInteger z => mkObject REDIS_REPLY_INTEGER z None EmptyString []
  | PDouble s => mkObject REDIS_REPLY_DOUBLE 0 (Some s) EmptyString []
  | PNil _ => mkObject REDIS_REPLY_NIL 0 None EmptyString []
  | PBool b => mkObject REDIS_REPLY_BOOL (if b then 1 else 0) None EmptyString []
  | PString s => mkObject REDIS_REPLY_STRING 0 (Some s) EmptyString []
  | PVerbatim vtype s => mkObject REDIS_REPLY_VERB 0 (Some s) vtype []
  | PAggregate type l => mkObject type 0 None EmptyString (Some <$> addresses (p + 1) l)
  end.

(** The objects of a reply in the order in which they are created. *)
Fixpoint layout (p : nat) (t : resp) : list reply_object :=
  head p t ::
  match t with
  | PAggregate _ l =>
      (fix go (p : nat) (l : list resp) : list reply_object :=
         match l with [] => [] | t :: l => layout p t ++ go (p + size t)%nat l end) (p + 1)%nat l
  | _ => []
  end.

Fixpoint layouts (p : nat) (l : list resp) : list reply_object :=
  match l with [] => [] | t :: l => layout p t ++ layouts (p + size t) l end.

Lemma layout_aggregate p type l :
  layout p (PAggregate type l) = head p (PAggregate type l) :: layouts (p + 1) l.
Proof. reflexivity. Qed.

Lemma layout_leaf p t : (∀ type l, t ≠ PAggregate type l) → layout p t = [head p t] ∧ size t = 1%nat.
Proof. intros H. destruct t; try done. by destruct (H type l). Qed.

Lemma layout_length p t : length (layout p t) = size t.
Proof.
  revert p. induction t as [| | | | | | |type l IH] using resp_tree_ind; intros p; try done.
  rewrite layout_aggregate. cbn. f_equal. generalize (p + 1)%nat.
  induction IH as [|t l Ht _ IHl]; intros q; cbn; [done|]. by rewrite length_app, Ht, IHl.
Qed.

Lemma layouts_length p l : length (layouts p l) = sum_list (size <$> l).
Proof. revert p. induction l as [|t l IH]; intros p; cbn; [done|]. by rewrite length_app, layout_length, IH. Qed.

Lemma layouts_app p l l' :
  layouts p (l ++ l') = layouts p l ++ layouts (p + sum_list (size <$> l)) l'.
Proof.
  revert p. induction l as [|t l IH]; intros p; cbn; [by rewrite Nat.add_0_r|].
  rewrite IH, <- app_assoc. do 3 f_equal. lia.
Qed.

Lemma addresses_app p l l' :
  addresses p (l ++ l') = addresses p l ++ addresses (p + sum_list (size <$> l)) l'.
Proof.
  revert p. induction l as [|t l IH]; intros p; cbn; [by rewrite Nat.add_0_r|]. rewrite IH. do 3 f_equal. lia.
Qed.

Lemma addresses_length p l : length (addresses p l) = length l.
Proof. revert p. induction l as [|t l IH]; intros p; cbn; auto. Qed.

(** ** Reading the objects back *)

Definition line_type (type : Z) : bool :=
  (type =? REDIS_REPLY_STATUS) || (type =? REDIS_REPLY_ERROR) || (type =? REDIS_REPLY_BIGNUM).

Fixpoint reply_at (fuel : nat) (h : list reply_object) (p : nat) : option resp :=
  match fuel with
  | O => None
  | S fuel =>
      o ← h !! p;
      if is_aggregate (o_type o) then
        PAggregate (o_type o) <$> mapM (λ q, q ≫= reply_at fuel h) (o_element o)
      else if o_type o =? REDIS_REPLY_INTEGER then Some (PInteger (o_integer o))
      else if o_type o =? REDIS_REPLY_NIL then Some (PNil NilLine)
      else if o_type o =? REDIS_REPLY_BOOL then Some (PBool (o_integer o =? 1))
      else
        s ← o_str o;
        if o_type o =? REDIS_REPLY_STRING then Some (PString s)
        else if o_type o =? REDIS_REPLY_DOUBLE then Some (PDouble s)
        else if o_type o =? REDIS_REPLY_VERB then Some (PVerbatim (o_vtype o) s)
        else Some (PLine (o_type o) s)
  end.

(** A reply up to the spelling of nil. *)
Fixpoint plain (t : resp) : resp :=
  match t with
  | PNil _ => PNil NilLine
  | PAggregate type l => PAggregate type (plain <$> l)
  | _ => t
  end.

(** The replies that can be sent: the lengths are those of the protocol, the
    number of elements fits the index of a task, and a line has no line
    break. *)
Section valid.
Context (fd : string → bool).

Definition line_ok (s : string) : Prop := Z.of_nat (String.length s) + 2 ≤ INT_MAX ∧ char_free CR s.

Definition leaf_ok (t : resp) : Prop :=
  match t with
  | PLine type s =>
      line_ok s ∧ (type = REDIS_REPLY_BIGNUM ∧ bignum_chars s = true ∨
        (type = REDIS_REPLY_STATUS ∨ type = REDIS_REPLY_ERROR) ∧ char_free LF s)
  | PInteger z => in_llong z
  | PDouble s =>
      line_ok s ∧ Z.of_nat (String.length s) < 326 ∧
      (double_name s = true ∨ c_str s ≠ EmptyString ∧ fd s = true)
  | PNil _ | PBool _ => True
  | PString s => in_llong (Z.of_nat (String.length s))
  | PVerbatim vtype s => String.length vtype = 3%nat ∧ in_llong (Z.of_nat (String.length s) + 4)
  | PAggregate _ _ => False
  end.

Inductive valid : resp → Prop :=
| valid_leaf t : leaf_ok t → valid t
| valid_aggregate type l :
    is_aggregate type = true → Z.of_nat (length l) ≤ 2 ^ 31 →
    (type = REDIS_REPLY_MAP → Nat.Even (length l)) →
    Forall valid l → valid (PAggregate type l).
End valid.

Lemma reply_at_plain fd t : valid fd t → ∀ fuel a b, (size t ≤ fuel)%nat →
  reply_at fuel (a ++ layout (length a) t ++ b) (length a) = Some (plain t).
Proof.
  induction t as [type s|z|s|f|bl|s|v s|type l IH] using resp_tree_ind; intros Hv [|fuel] a b Hf; try (by cbn in Hf; lia);
    cbn [reply_at]; rewrite lookup_app_r, Nat.sub_diag by lia; try done.
  - inversion Hv as [? Ht|]; subst. cbn [leaf_ok] in Ht. destruct Ht as [_ [[-> _]|[[->| ->] _]]]; done.
  - by destruct bl.
  - rewrite layout_aggregate. cbn [lookup list_lookup app mbind option_bind head o_type o_element].
    inversion Hv as [? Hx|? ? Ha _ _ Hl]; subst; [by destruct Hx|]. rewrite Ha. cbn [plain]. cbn in Hf.
    enough (∀ c q ls, Forall (valid fd) ls → Forall (λ t, valid fd t → ∀ fuel a b, (size t ≤ fuel)%nat →
        reply_at fuel (a ++ layout (length a) t ++ b) (length a) = Some (plain t)) ls →
        (sum_list (size <$> ls) ≤ fuel)%nat → length c = q →
      mapM (λ p, p ≫= reply_at fuel (c ++ layouts q ls ++ b)) (Some <$> addresses q ls) = Some (plain <$> ls)) as Hm.
    { specialize (Hm (a ++ [head (length a) (PAggregate type l)]) (length a + 1)%nat l Hl IH ltac:(lia)
        ltac:(by rewrite length_app)). rewrite <- app_assoc in Hm. cbn [app head] in Hm |- *. by rewrite Hm. }
    clear. intros c q ls Hls HP. revert c q. induction HP as [|t ls Ht _ IHls]; intros c q Hf Hc; [done|].
    inversion Hls as [|? ? Hvt Hvs]; subst. cbn in Hf. cbn [layouts addresses fmap list_fmap].
    cbn [mapM mbind option_bind].
    rewrite <- app_assoc, Ht by (done || lia). cbn [mbind option_bind].
    specialize (IHls Hvs (c ++ layout (length c) t) (length c + size t)%nat ltac:(lia)
      ltac:(by rewrite length_app, layout_length)). rewrite <- app_assoc in IHls. by rewrite IHls.
Qed.

(** ** Where an object goes *)

(** The effect on the heap of storing the object at [p] into its parent. *)
Inductive placed (r : redisReader) (task : redisReadTask) : (nat → list reply_object → list reply_object) → Prop :=
| placed_root : t_parent task = None → placed r task (λ _ h, h)
| placed_child i u q o :
    t_parent task = Some i → r_task r !! i = Some u → t_obj u = Some q → r_heap r !! q = Some o →
    is_aggregate (o_type o) = true → 0 ≤ t_idx task < Z.of_nat (length (o_element o)) →
    placed r task (λ p h, <[q := set_element o (<[Z.to_nat (t_idx task) := Some p]> (o_element o))]> h).

Lemma create_placed r task f o : placed r task f →
  create task o r = Some (length (r_heap r), set_heap r (f (length (r_heap r)) (r_heap r) ++ [o])).
Proof.
  intros Hp. unfold create, alloc, attach, gets, modify, mbind, rd_bind. cbn.
  destruct Hp as [Hp|i u q o' Hp Ht Ho Hh Ha Hi]; rewrite Hp; [done|].
  rewrite (task_at_some _ _ u); [|lia|by rewrite Nat2Z.id]. rewrite Ho. cbn.
  pose proof (lookup_lt_Some _ _ _ Hh) as Hlt. rewrite lookup_app_l, Hh by done. cbn. rewrite Ha. cbn.
  rewrite (proj2 (Z.leb_le _ _)), (proj2 (Z.ltb_lt _ _)) by lia. cbn. by rewrite insert_app_l.
Qed.

Lemma placed_state r s task f : r_task s = r_task r → r_heap s = r_heap r → placed r task f → placed s task f.
Proof.
  intros Ht Hh Hp. destruct Hp; [by apply placed_root|]. eapply placed_child; rewrite ?Ht, ?Hh; done.
Qed.

(** The current task is at the start of an item. *)
Record fresh (r : redisReader) (i : nat) (task : redisReadTask) : Prop := mkFresh {
  fresh_err : r_err r = 0;
  fresh_in : in_buf r;
  fresh_ridx : r_ridx r = Z.of_nat i;
  fresh_task : r_task r !! i = Some task;
  fresh_type : t_type task < 0;
  fresh_parent : ∀ j, t_parent task = Some j → (j < i)%nat;
}.

(** Its type has been read. *)
Definition begun (r : redisReader) (i : nat) (task : redisReadTask) (type : Z) : redisReader :=
  set_tasks (advance 1 r) (<[i := typed_as type task]> (r_task r)).

Section begun.
Context (fd : string → bool) (r : redisReader) (i : nat) (task : redisReadTask) (H : fresh r i task).

Lemma fresh_task_at : task_at (r_ridx r) r = Some (task, r).
Proof using H. apply task_at_some; [rewrite (fresh_ridx _ _ _ H); lia|]. rewrite (fresh_ridx _ _ _ H), Nat2Z.id. apply H. Qed.

Lemma begun_task type : r_task (begun r i task type) !! i = Some (typed_as type task).
Proof using H. apply list_lookup_insert_eq. eapply lookup_lt_Some, H. Qed.

Lemma begun_task_at type : task_at (Z.of_nat i) (begun r i task type) = Some (typed_as type task, begun r i task type).
Proof using H. apply task_at_some; [lia|]. rewrite Nat2Z.id. apply begun_task. Qed.

Lemma item_begun c u type : r_unread r = String c u → type_of_byte c = Some type →
  processItem fd r = dispatch fd (typed_as type task) (begun r i task type).
Proof using H.
  intros Hu Hc. erewrite (item_typed fd r (begun r i task type)).
  - apply typed_dispatch. cbn. rewrite (fresh_ridx _ _ _ H). apply begun_task_at.
  - rewrite (read_type_eq _ _ fresh_task_at), Hu, Hc. rewrite (proj2 (Z.leb_gt _ _)) by apply H.
    by rewrite (fresh_ridx _ _ _ H), Nat2Z.id.
Qed.

Lemma begun_unread c u type : r_unread r = String c u → r_unread (begun r i task type) = u.
Proof using Type.
  intros Hu. change (r_unread (begun r i task type)) with (r_unread (advance 1 r)). by rewrite unread_advance, Hu.
Qed.

Lemma begun_in c u type : r_unread r = String c u → in_buf (begun r i task type).
Proof using H.
  intros Hu. pose proof (fresh_in _ _ _ H) as Hi. unfold in_buf in *. cbn.
  apply (f_equal String.length) in Hu. rewrite unread_length in Hu. cbn in Hu. lia.
Qed.

Lemma begun_placed type f : placed r task f → placed (begun r i task type) (typed_as type task) f.
Proof using H.
  intros Hp. destruct Hp as [Hp|j u q o Hp Ht Ho Hh Ha Hi].
  - by apply (placed_root _ (typed_as type task)).
  - apply (placed_child _ (typed_as type task) j u q o); try done. cbn.
    rewrite list_lookup_insert_ne; [done|]. pose proof (fresh_parent _ _ _ H j Hp). lia.
Qed.
End begun.

(** A complete line at the current position. *)
Lemma readLine_line r p tail : r_unread r = p +:+ CRLF +:+ tail → line_ok p →
  readLine r = Some (Some p, advance (String.length p + 2) r) ∧
  r_unread (advance (String.length p + 2) r) = tail.
Proof.
  intros Hu [Hl Hc]. split.
  - unfold readLine, gets, mbind, rd_bind. rewrite seekNewline_find, Hu.
    rewrite find_crlf_line by done. rewrite wrap_s_32 by (unfold in_int; unfold_ints; lia).
    rewrite !(proj2 (Z.leb_le _ _)) by lia. cbn. by rewrite Nat2Z.id, stake_app.
  - rewrite unread_advance, Hu, string_app_assoc.
    replace (String.length p + 2)%nat with (String.length (p +:+ CRLF)) by (rewrite string_length_app; done).
    apply sdrop_app.
Qed.

Lemma advance_in r k : in_buf r → (k ≤ String.length (r_unread r))%nat → in_buf (advance k r).
Proof. unfold in_buf. rewrite unread_length. cbn. lia. Qed.

(** ** The end of an item *)

Definition rooted (i : nat) (p : nat) (r : redisReader) : redisReader :=
  if decide (i = 0%nat) then set_reply r (Some p) else r.

(** The item at the task [i] is complete, and the reader is about to move to
    the next task. *)
Record complete (r : redisReader) (i : nat) (task : redisReadTask) (f : nat → list reply_object → list reply_object)
    (t : resp) (tail : string) (s : redisReader) : Prop := mkComplete {
  complete_err : r_err s = 0;
  complete_in : in_buf s;
  complete_unread : r_unread s = tail;
  complete_ridx : r_ridx s = Z.of_nat i;
  complete_task : ∃ u, r_task s !! i = Some u ∧ t_idx u = t_idx task ∧ t_parent u = t_parent task;
  complete_below : ∀ j, (j < i)%nat → r_task s !! j = r_task r !! j;
  complete_heap : r_heap s = f (length (r_heap r)) (r_heap r) ++ layout (length (r_heap r)) t;
  complete_reply : r_reply s = if decide (i = 0%nat) then Some (length (r_heap r)) else r_reply r;
}.

(** The parser reads the reply [t] at the start of an item. *)
Definition reads (fd : string → bool) (t : resp) : Prop :=
  ∀ r i task f tail, fresh r i task → placed r task f → r_unread r = encode t +:+ tail →
  ∃ s, complete r i task f t tail s ∧
    ∀ s', moveToNextTask s = Some (tt, s') → ∀ u, runs_to fd s' u → runs_to fd r u.

Lemma put_task_frame i t r s : put_task i t r = Some (tt, s) → s = set_tasks r (r_task s).
Proof.
  unfold put_task, mbind, rd_bind. destruct (task_at i r) as [[u r']|] eqn:E; [|done].
  apply task_at_eq in E as (_ & _ & ->). by intros [= <-].
Qed.

Lemma move_loop_frame n r s : move_loop n r = Some (tt, s) → s = set_ridx (set_tasks r (r_task s)) (r_ridx s).
Proof.
  revert r s. induction n as [|n IH]; intros r s H; cbn [move_loop] in H; [by injection H as <-; destruct r|].
  unfold mbind at 1, rd_bind at 1 in H. cbn beta iota delta [gets] in H.
  destruct (r_ridx r <? 0); [by injection H as <-; destruct r|].
  destruct (r_ridx r =? 0); [by injection H as <-; destruct r|].
  unfold mbind at 1, rd_bind at 1 in H. destruct (task_at (r_ridx r) r) as [[cur r1]|] eqn:E1; [|done].
  apply task_at_eq in E1 as (_ & _ & ->). unfold mbind at 1, rd_bind at 1 in H.
  destruct (task_at (r_ridx r - 1) r) as [[prv r1]|] eqn:E2; [|done]. apply task_at_eq in E2 as (_ & _ & ->).
  unfold mbind, rd_bind in H. destruct (is_aggregate _); [|done]. cbn beta iota delta [r_assert mret rd_ret] in H.
  destruct (_ =? _); [by apply IH in H; rewrite H at 1|]. destruct (_ <? _); [|done]. destruct (_ <=? _); [|done].
  cbn beta iota delta [r_assert mret rd_ret] in H. apply put_task_frame in H. rewrite H at 1. rewrite H at 3. by destruct r.
Qed.

Lemma move_frame r s : moveToNextTask r = Some (tt, s) → s = set_ridx (set_tasks r (r_task s)) (r_ridx s).
Proof. apply move_loop_frame. Qed.

(** The reply of the root may be set before or after the move. *)
Definition ignores_reply {A} (m : rd A) : Prop :=
  ∀ r p, m (set_reply r p) = (λ x, (x.1, set_reply x.2 p)) <$> m r.

Lemma ignores_bind {A B} (m : rd A) (f : A → rd B) :
  ignores_reply m → (∀ a, ignores_reply (f a)) → ignores_reply (m ≫= f).
Proof. intros Hm Hf r p. unfold mbind, rd_bind. rewrite Hm. destruct (m r) as [[a s]|]; cbn; [apply Hf|done]. Qed.

Lemma ignores_assert b : ignores_reply (r_assert b).
Proof. by destruct b. Qed.

Lemma ignores_task_at i : ignores_reply (task_at i).
Proof. intros r p. unfold task_at, gets, mbind, rd_bind. destruct (0 <=? i); [|done]. cbn. by destruct (r_task r !! _). Qed.

Lemma ignores_put_task i t : ignores_reply (put_task i t).
Proof. apply ignores_bind; [apply ignores_task_at|done]. Qed.

Lemma ignores_move n : ignores_reply (move_loop n).
Proof.
  induction n as [|n IH]; [done|]. cbn [move_loop]. apply ignores_bind; [done|]. intros i.
  destruct (i <? 0); [done|]. destruct (i =? 0); [done|].
  do 2 (apply ignores_bind; [apply ignores_task_at|intros ?]). apply ignores_bind; [apply ignores_assert|intros _].
  destruct (_ =? _); [by apply ignores_bind|].
  do 2 (apply ignores_bind; [apply ignores_assert|intros _]). apply ignores_put_task.
Qed.

Lemma move_reply r p : moveToNextTask (set_reply r p) = (λ x, (x.1, set_reply x.2 p)) <$> moveToNextTask r.
Proof. apply ignores_move. Qed.

Lemma move_root s : r_ridx s = 0 → moveToNextTask s = Some (tt, set_ridx s (-1)).
Proof.
  intros Hi. unfold moveToNextTask. unfold mbind at 1, rd_bind at 1. cbn beta iota delta [gets]. rewrite Hi.
  change (Z.to_nat (0 + 1)) with 1%nat. cbn [move_loop]. unfold mbind, rd_bind. cbn beta iota delta [gets]. by rewrite Hi.
Qed.

(** One item, and the runs go on after the move. *)
Lemma reads_step fd r s : 0 ≤ r_ridx r → r_err s = 0 → processItem fd r = (moveToNextTask;; mret true) s →
  ∀ s', moveToNextTask s = Some (tt, s') → ∀ u, runs_to fd s' u → runs_to fd r u.
Proof.
  intros Hi He Hp s' Hm u Hu. eapply run_item; [done|..|done].
  - rewrite Hp. unfold mbind, rd_bind. by rewrite Hm.
  - apply move_frame in Hm. by rewrite Hm.
Qed.

Lemma finish_rooted i p s : r_ridx s = Z.of_nat i →
  finish_item (Some p) s = (moveToNextTask;; mret true) (rooted i p s).
Proof.
  intros Hi. unfold finish_item, set_root, rooted, mbind, rd_bind. cbn. rewrite Hi.
  by case_decide; [rewrite (proj2 (Z.eqb_eq _ _)) by lia|rewrite (proj2 (Z.eqb_neq _ _)) by lia].
Qed.

Section leaf.
Context (fd : string → bool) (r : redisReader) (i : nat) (task : redisReadTask).
Context (f : nat → list reply_object → list reply_object) (Hf : fresh r i task) (Hp : placed r task f).

(** The state after an object that is not an aggregate. *)
Lemma complete_leaf t type tail k c u : layout (length (r_heap r)) t = [head (length (r_heap r)) t] →
  r_unread r = String c u → u = stake k u +:+ tail → String.length (stake k u) = k →
  complete r i task f t tail (rooted i (length (r_heap r)) (advance k (set_heap (begun r i task type)
    (f (length (r_heap r)) (r_heap r) ++ [head (length (r_heap r)) t])))).
Proof using Hf.
  intros Hl Hu Ht Hk. set (s := advance k _).
  assert (r_unread s = tail) as Hs.
  { unfold s. rewrite unread_advance. change (r_unread (set_heap _ _)) with (r_unread (begun r i task type)).
    rewrite (begun_unread _ _ _ _ _ _ Hu), Ht, <- Hk at 1. apply sdrop_app. }
  assert (in_buf s) as Hin.
  { apply advance_in; [by eapply begun_in|]. change (r_unread (set_heap _ _)) with (r_unread (begun r i task type)).
    rewrite (begun_unread _ _ _ _ _ _ Hu), Ht, string_length_app. lia. }
  assert (∀ j, (j < i)%nat → r_task s !! j = r_task r !! j) as Hb.
  { intros j Hj. unfold s. cbn. apply list_lookup_insert_ne. lia. }
  pose proof (begun_task r i task Hf type) as Hi. unfold rooted.
  case_decide; split; try done; try apply Hf; try (by rewrite Hl); try (by rewrite decide_True);
    try (by rewrite decide_False); by exists (typed_as type task).
Qed.

Lemma begun_ridx type : r_ridx (begun r i task type) = Z.of_nat i.
Proof using Hf. apply Hf. Qed.

(** Objects on a line. *)
Lemma reads_line t c type p tail : layout (length (r_heap r)) t = [head (length (r_heap r)) t] →
  type_of_byte c = Some type → is_line_type type = true → line_ok p →
  r_unread r = String c (p +:+ CRLF +:+ tail) →
  (∀ s, line_object fd (typed_as type task) p s =
     (Some <$> create (typed_as type task) (head (length (r_heap r)) t)) s) →
  ∃ s, complete r i task f t tail s ∧
    ∀ s', moveToNextTask s = Some (tt, s') → ∀ u, runs_to fd s' u → runs_to fd r u.
Proof using Hf Hp.
  intros Hl Hc Ht Hok Hu Ho. set (k := (String.length p + 2)%nat).
  set (s := rooted i (length (r_heap r)) (advance k (set_heap (begun r i task type)
    (f (length (r_heap r)) (r_heap r) ++ [head (length (r_heap r)) t])))).
  assert (complete r i task f t tail s) as Hs.
  { apply (complete_leaf t type tail k c (p +:+ CRLF +:+ tail)); try done.
    - unfold k. rewrite string_app_assoc. f_equal.
      replace (String.length p + 2)%nat with (String.length (p +:+ CRLF)) by (by rewrite string_length_app).
      by rewrite stake_app.
    - unfold k. replace (String.length p + 2)%nat with (String.length (p +:+ CRLF)) by (by rewrite string_length_app).
      by rewrite string_app_assoc, stake_app. }
  exists s. split; [done|]. apply reads_step; [rewrite (fresh_ridx _ _ _ Hf); lia|apply Hs|].
  rewrite (item_begun fd r i task Hf c _ type Hu Hc). unfold dispatch. cbn [typed_as t_type]. rewrite Ht.
  unfold processLineItem. unfold mbind at 1, rd_bind at 1. cbn beta iota delta [gets]. rewrite begun_ridx.
  unfold mbind at 1, rd_bind at 1. rewrite (begun_task_at r i task Hf type).
  destruct (readLine_line (begun r i task type) p tail) as [Hr _]; [by apply (begun_unread _ _ _ _ _ _ Hu)|done|].
  unfold mbind at 1, rd_bind at 1. rewrite Hr. unfold mbind at 1, rd_bind at 1. rewrite Ho.
  unfold fmap at 1, rd_fmap at 1, mbind at 1, rd_bind at 1.
  rewrite (create_placed _ _ f); [|by apply (placed_state (begun r i task type)); [..|apply begun_placed]].
  cbn beta iota delta [mret rd_ret]. apply finish_rooted. apply begun_ridx.
Qed.

(** Objects whose bytes are at the current position. *)
Lemma reads_object t c type u k tail (m : rd nat) : layout (length (r_heap r)) t = [head (length (r_heap r)) t] →
  type_of_byte c = Some type → r_unread r = String c u → u = stake k u +:+ tail → String.length (stake k u) = k →
  dispatch fd (typed_as type task) (begun r i task type) =
    (p ← m; modify (advance k);; finish_item (Some p)) (begun r i task type) →
  (∀ s, m s = create (typed_as type task) (head (length (r_heap r)) t) s) →
  ∃ s, complete r i task f t tail s ∧
    ∀ s', moveToNextTask s = Some (tt, s') → ∀ u, runs_to fd s' u → runs_to fd r u.
Proof using Hf Hp.
  intros Hl Hc Hu Hk Hk' Hd Hm.
  pose proof (complete_leaf t type tail k c u Hl Hu Hk Hk') as Hs. eexists. split; [exact Hs|].
  apply reads_step; [rewrite (fresh_ridx _ _ _ Hf); lia|apply Hs|].
  rewrite (item_begun fd r i task Hf c _ type Hu Hc), Hd. unfold mbind at 1, rd_bind at 1. rewrite Hm.
  rewrite (create_placed _ _ f); [|by apply begun_placed].
  unfold mbind at 1, rd_bind at 1. cbn beta iota delta [modify]. apply finish_rooted. apply begun_ridx.
Qed.

Lemma bulk_dispatch type : type = REDIS_REPLY_STRING ∨ type = REDIS_REPLY_VERB →
  dispatch fd (typed_as type task) (begun r i task type) = processBulkItem (begun r i task type).
Proof using Type. by intros [->| ->]. Qed.

Lemma reads_bulk t c type content tail : layout (length (r_heap r)) t = [head (length (r_heap r)) t] →
  type = REDIS_REPLY_STRING ∨ type = REDIS_REPLY_VERB ∧ (4 ≤ String.length content)%nat ∧ String.get 3 content = Some ":"%char →
  type_of_byte c = Some type → in_llong (Z.of_nat (String.length content)) →
  r_unread r = text c content +:+ tail →
  (∀ s, createStringObject (typed_as type task) content s = create (typed_as type task) (head (length (r_heap r)) t) s) →
  ∃ s, complete r i task f t tail s ∧
    ∀ s', moveToNextTask s = Some (tt, s') → ∀ u, runs_to fd s' u → runs_to fd r u.
Proof using Hf Hp.
  intros Hl Ht Hc Hn Hu Hm. set (h := pretty (Z.of_nat (String.length content))) in *.
  assert (r_unread r = String c (h +:+ CRLF +:+ content +:+ CRLF +:+ tail)) as Hu'.
  { rewrite Hu. unfold text, line, h. cbn. by rewrite <- !string_app_assoc. }
  pose proof (begun_unread r i task _ _ type Hu') as Hb.
  set (v := h +:+ CRLF +:+ content +:+ CRLF +:+ tail) in *.
  set (k := (String.length h + 2 + (String.length content + 2))%nat).
  assert (v = (h +:+ CRLF +:+ content +:+ CRLF) +:+ tail) as Hv by (unfold v; by rewrite <- !string_app_assoc).
  assert (String.length (h +:+ CRLF +:+ content +:+ CRLF) = k) as Hk by (rewrite !string_length_app; unfold k; cbn; lia).
  assert (stake k v = h +:+ CRLF +:+ content +:+ CRLF) as Hsk by (rewrite Hv, <- Hk; apply stake_app).
  assert (find_crlf v = Some (String.length h)) as Hfind by (apply find_crlf_line; by apply pretty_Z_char_free).
  assert (stake (String.length h) v = h) as Hsh by apply stake_app.
  assert (sdrop (String.length h + 2) v = content +:+ CRLF +:+ tail) as Hsd.
  { rewrite <- sdrop_sdrop. unfold v. rewrite sdrop_app. done. }
  apply (reads_object t c type v k tail (createStringObject (typed_as type task) content)); try done;
    [by rewrite Hsk|by rewrite Hsk|].
  rewrite bulk_dispatch by tauto. unfold processBulkItem. unfold mbind at 1, rd_bind at 1.
  cbn beta iota delta [gets]. rewrite begun_ridx. unfold mbind at 1, rd_bind at 1. rewrite (begun_task_at r i task Hf type).
  unfold mbind at 1, rd_bind at 1. cbn beta iota delta [gets]. rewrite Hb, seekNewline_find, Hfind, Hsh.
  unfold h at 1. rewrite string2ll_pretty by done. cbn zeta.
  rewrite (proj2 (Z.ltb_ge _ _)), (proj2 (Z.eqb_neq _ _)) by lia.
  rewrite (proj2 (Z.leb_le _ _)) by (rewrite Hv, string_length_app, Hk; unfold k; lia).
  rewrite Hsd, Nat2Z.id, stake_app. cbn [typed_as t_type].
  replace (Z.to_nat (Z.of_nat (String.length h) + 2 + (Z.of_nat (String.length content) + 2))) with k by (unfold k; lia).
  destruct Ht as [->|(-> & Hlen & Hcol)]; [done|].
  replace (String.get (String.length h + 5) v) with (String.get 3 (sdrop (String.length h + 2) v)).
  2: { rewrite get_sdrop. f_equal. lia. }
  rewrite Hsd, get_app_l, Hcol by lia. rewrite (proj2 (Z.ltb_ge _ _)) by lia.
  rewrite bool_decide_eq_true_2 by done. done.
Qed.

Lemma reads_nil_bulk tail : r_unread r = encode (PNil NilBulk) +:+ tail →
  ∃ s, complete r i task f (PNil NilBulk) tail s ∧
    ∀ s', moveToNextTask s = Some (tt, s') → ∀ u, runs_to fd s' u → runs_to fd r u.
Proof using Hf Hp.
  intros Hu. change (encode (PNil NilBulk) +:+ tail) with (String "$" ("-1" +:+ CRLF +:+ tail)) in Hu.
  pose proof (begun_unread r i task _ _ REDIS_REPLY_STRING Hu) as Hb.
  apply (reads_object (PNil NilBulk) "$" REDIS_REPLY_STRING ("-1" +:+ CRLF +:+ tail) 4 tail
    (createNilObject (typed_as REDIS_REPLY_STRING task))); try done.
  rewrite bulk_dispatch by tauto. unfold processBulkItem. unfold mbind at 1, rd_bind at 1.
  cbn beta iota delta [gets]. rewrite begun_ridx. unfold mbind at 1, rd_bind at 1.
  rewrite (begun_task_at r i task Hf REDIS_REPLY_STRING). unfold mbind at 1, rd_bind at 1. cbn beta iota delta [gets].
  rewrite Hb, seekNewline_find, (find_crlf_line "-1") by done. done.
Qed.
End leaf.

(** ** Aggregates *)

Lemma placed_length r task f p h : placed r task f → length (f p h) = length h.
Proof. intros [|]; [done|]. by rewrite length_insert. Qed.

(** An aggregate up to the number of its elements. *)
Lemma aggregate_header fd r i task f c type n rest :
  fresh r i task → placed r task f → type_of_byte c = Some type → is_aggregate type = true →
  -1 ≤ n ≤ REDIS_READER_MAX_ARRAY_ELEMENTS → r_unread r = String c (pretty n +:+ CRLF +:+ rest) →
  ∃ a, processItem fd r = open_aggregate (Z.of_nat i) (typed_as type task) n a ∧
    r_err a = 0 ∧ in_buf a ∧ r_unread a = rest ∧ r_ridx a = Z.of_nat i ∧ (i + 1 < length (r_task a))%nat ∧
    r_task a !! i = Some (typed_as type task) ∧ (∀ j, (j < i)%nat → r_task a !! j = r_task r !! j) ∧
    r_heap a = r_heap r ∧ r_reply a = r_reply r ∧ placed a (typed_as type task) f.
Proof.
  intros Hf Hp Hc Ha Hn Hu. pose proof (begun_unread r i task _ _ type Hu) as Hb.
  pose proof (begun_task_at r i task Hf type) as Ht.
  assert (r_ridx (begun r i task type) = Z.of_nat i) as Hi by apply Hf.
  destruct (grow_when_full_eq (begun r i task type) (typed_as type task)) as (g & Hg & Hgr & Htg & Hlen & _);
    [by rewrite Hi|].
  assert (r_unread g = pretty n +:+ CRLF +:+ rest ∧ r_ridx g = Z.of_nat i ∧ r_err g = 0 ∧ in_buf g ∧
    r_heap g = r_heap r ∧ r_reply g = r_reply r) as (Hgu & Hgi & Hge & Hgb & Hgh & Hgrep).
  { pose proof (begun_in r i task Hf _ _ type Hu). pose proof (fresh_err _ _ _ Hf).
    destruct Hgr as [->|[l ->]]; split_and!; done. }
  assert (∀ j, (j ≤ i)%nat → r_task g !! j = r_task (begun r i task type) !! j) as Hgt.
  { intros j Hj. destruct Hgr as [->|[l ->]]; [done|]. cbn [r_task set_tasks]. apply lookup_app_l.
    pose proof (lookup_lt_Some _ _ _ (begun_task r i task Hf type)). lia. }
  destruct (readLine_line g (pretty n) rest Hgu) as [Hr Hra].
  { split; [|by apply pretty_Z_char_free]. pose proof (pretty_llong_length n). unfold REDIS_READER_MAX_ARRAY_ELEMENTS in Hn.
    unfold_ints. lia. }
  exists (advance (String.length (pretty n) + 2) g). split_and!; try done.
  - rewrite (item_begun fd r i task Hf c _ type Hu Hc). unfold dispatch. cbn [typed_as t_type]. rewrite Ha.
    assert (is_line_type type = false ∧ (type =? REDIS_REPLY_STRING) || (type =? REDIS_REPLY_VERB) = false) as [-> ->].
    { unfold is_aggregate in Ha. repeat (apply orb_true_iff in Ha as [Ha|Ha]); apply Z.eqb_eq in Ha; by subst. }
    unfold processAggregateItem. unfold mbind at 1, rd_bind at 1. rewrite Hg. unfold read_aggregate.
    unfold mbind at 1, rd_bind at 1. cbn beta iota delta [gets]. rewrite Hgi. rewrite Hi in Htg.
    unfold mbind at 1, rd_bind at 1. rewrite Htg. unfold mbind at 1, rd_bind at 1. rewrite Hr.
    rewrite string2ll_pretty by (unfold REDIS_READER_MAX_ARRAY_ELEMENTS in Hn; unfold_ints; lia).
    rewrite !(proj2 (Z.ltb_ge _ _)) by lia. done.
  - apply advance_in; [done|]. rewrite Hgu, !string_length_app. cbn. lia.
  - cbn. rewrite Hi in Hlen. lia.
  - cbn. rewrite Hgt by lia. by apply begun_task.
  - intros j Hj. cbn. rewrite Hgt by lia. cbn. apply list_lookup_insert_ne. lia.
  - eapply begun_placed in Hp; [|done]. destruct Hp as [Hp|j u q o Hp Hu' Ho Hh Hag Hidx]; [by apply placed_root|].
    eapply placed_child; try done; [|by cbn; rewrite Hgh]. cbn. rewrite Hgt; [done|].
    pose proof (fresh_parent _ _ _ Hf j Hp). lia.
Qed.

(** An aggregate without elements, or nil in the place of one. *)
Lemma reads_childless fd r i task f c type n t tail :
  fresh r i task → placed r task f → type_of_byte c = Some type → is_aggregate type = true → n = -1 ∨ n = 0 →
  r_unread r = String c (pretty n +:+ CRLF +:+ tail) → layout (length (r_heap r)) t = [head (length (r_heap r)) t] →
  head (length (r_heap r)) t =
    (if n =? -1 then mkObject REDIS_REPLY_NIL 0 None EmptyString [] else mkObject type 0 None EmptyString []) →
  ∃ s, complete r i task f t tail s ∧
    ∀ s', moveToNextTask s = Some (tt, s') → ∀ u, runs_to fd s' u → runs_to fd r u.
Proof.
  intros Hf Hp Hc Ha Hn Hu Hl Hh.
  destruct (aggregate_header fd r i task f c type n tail Hf Hp Hc Ha) as
    (a & Hi & Hae & Hab & Hau & Hai & Hal & Hat & Hat' & Hah & Har & Hap);
    [unfold REDIS_READER_MAX_ARRAY_ELEMENTS; lia|done|].
  set (p := length (r_heap r)) in *. set (b := set_heap a (f p (r_heap r) ++ [head p t])).
  assert (open_aggregate (Z.of_nat i) (typed_as type task) n a = (moveToNextTask;; mret true) (rooted i p b)) as Ho.
  { assert (create (typed_as type task) (head p t) a = Some (p, b)) as Hcr.
    { rewrite (create_placed _ _ f) by done. by rewrite Hah. }
    assert ((obj ← (if n =? -1 then createNilObject (typed_as type task)
                    else createArrayObject (typed_as type task) 0); moveToNextTask;; mret obj) a =
            (λ x, (p, x.2)) <$> moveToNextTask b) as Hob.
    { assert ((if n =? -1 then createNilObject (typed_as type task)
               else createArrayObject (typed_as type task) 0) a = Some (p, b)) as E
        by (destruct Hn as [-> | ->]; cbn in Hh; rewrite Hh in Hcr; exact Hcr).
      unfold mbind, rd_bind. rewrite E. by destruct (moveToNextTask b) as [[[] ?]|]. }
    transitivity ((obj ← (obj ← (if n =? -1 then createNilObject (typed_as type task)
                    else createArrayObject (typed_as type task) 0); moveToNextTask;; mret obj);
      (if Z.of_nat i =? 0 then modify (λ r, set_reply r (Some obj)) else mret tt);; mret true) a).
    { destruct Hn as [-> | ->]; unfold open_aggregate; cbn; [done|]. by destruct (type =? REDIS_REPLY_MAP). }
    unfold mbind at 1, rd_bind at 1. rewrite Hob. unfold rooted, mbind, rd_bind.
    case_decide as H0; [rewrite (proj2 (Z.eqb_eq _ _)) by lia; rewrite move_reply|
      rewrite (proj2 (Z.eqb_neq _ _)) by lia]; by destruct (moveToNextTask b) as [[[] ?]|]. }
  assert (complete r i task f t tail (rooted i p b)) as Hs.
  { unfold rooted. case_decide; split; try done; try (by eexists); try (by fold p; rewrite Hl); try (by rewrite decide_True);
      by rewrite decide_False. }
  eexists. split; [exact Hs|]. apply reads_step; [rewrite (fresh_ridx _ _ _ Hf); lia|apply Hs|]. by rewrite Hi, Ho.
Qed.

(** ** The elements of an aggregate *)

Lemma move_up s i cur prv : r_ridx s = Z.of_nat (S i) → r_task s !! S i = Some cur → r_task s !! i = Some prv →
  is_aggregate (t_type prv) = true → t_idx cur = t_elements prv - 1 →
  moveToNextTask s = moveToNextTask (set_ridx s (Z.of_nat i)).
Proof.
  intros Hi Hcur Hprv Ha Hidx. unfold moveToNextTask. unfold mbind at 1 2, rd_bind at 1 2. cbn beta iota delta [gets].
  cbn [r_ridx set_ridx]. rewrite Hi. replace (Z.to_nat (Z.of_nat (S i) + 1)) with (S (Z.to_nat (Z.of_nat i + 1))) by lia.
  cbn [move_loop]. unfold mbind, rd_bind. cbn beta iota delta [gets]. rewrite Hi.
  rewrite (proj2 (Z.ltb_ge _ _)), (proj2 (Z.eqb_neq _ _)) by lia.
  rewrite (task_at_some _ s cur) by (rewrite ?Nat2Z.id; done || lia).
  replace (Z.of_nat (S i) - 1) with (Z.of_nat i) by lia.
  rewrite (task_at_some _ s prv) by (rewrite ?Nat2Z.id; done || lia). rewrite Ha. cbn beta iota delta [r_assert mret rd_ret].
  rewrite (proj2 (Z.eqb_eq _ _)) by done. done.
Qed.

Lemma move_next s i cur prv : r_ridx s = Z.of_nat (S i) → r_task s !! S i = Some cur → r_task s !! i = Some prv →
  is_aggregate (t_type prv) = true → t_idx cur < t_elements prv - 1 → t_idx cur + 1 ≤ INT_MAX →
  moveToNextTask s = Some (tt, set_tasks s
    (<[S i := mkTask (-1) (-1) (t_idx cur + 1) (t_obj cur) (t_parent cur)]> (r_task s))).
Proof.
  intros Hi Hcur Hprv Ha Hidx Hmax. unfold moveToNextTask. unfold mbind at 1, rd_bind at 1. cbn beta iota delta [gets].
  rewrite Hi. replace (Z.to_nat (Z.of_nat (S i) + 1)) with (S (S i)) by lia.
  cbn [move_loop]. unfold mbind, rd_bind. cbn beta iota delta [gets]. rewrite Hi.
  rewrite (proj2 (Z.ltb_ge _ _)), (proj2 (Z.eqb_neq _ _)) by lia.
  rewrite (task_at_some _ s cur) by (rewrite ?Nat2Z.id; done || lia).
  replace (Z.of_nat (S i) - 1) with (Z.of_nat i) by lia.
  rewrite (task_at_some _ s prv) by (rewrite ?Nat2Z.id; done || lia). rewrite Ha. cbn beta iota delta [r_assert mret rd_ret].
  rewrite (proj2 (Z.eqb_neq _ _)), (proj2 (Z.ltb_lt _ _)), (proj2 (Z.leb_le _ _)) by lia.
  cbn beta iota delta [r_assert mret rd_ret].
  unfold put_task, mbind, rd_bind. rewrite (task_at_some _ s cur) by (rewrite ?Nat2Z.id; done || lia).
  cbn beta iota delta [modify]. by rewrite Nat2Z.id.
Qed.

Section elements.
Context (fd : string → bool) (r : redisReader) (i : nat) (task : redisReadTask).
Context (f : nat → list reply_object → list reply_object) (Hf : fresh r i task) (Hp : placed r task f).
Context (type : Z) (Ha : is_aggregate type = true) (tail : string).

Let p := length (r_heap r).

(** The aggregate with the elements [done] read and [n] still NULL. *)
Definition partly (read : list resp) (n : nat) : reply_object :=
  mkObject type 0 None EmptyString ((Some <$> addresses (p + 1) read) ++ replicate n None).

(** The elements [read] have been read, those of [l] come next. *)
Record inside (read l : list resp) (s : redisReader) : Prop := mkInside {
  inside_err : r_err s = 0;
  inside_in : in_buf s;
  inside_unread : r_unread s = stream (encode <$> l) +:+ tail;
  inside_ridx : r_ridx s = Z.of_nat (S i);
  inside_parent : r_task s !! i =
    Some (mkTask type (Z.of_nat (length read + length l)) (t_idx task) (Some p) (t_parent task));
  inside_task : ∃ u, r_task s !! S i = Some u ∧ t_type u < 0 ∧ t_idx u = Z.of_nat (length read) ∧ t_parent u = Some i;
  inside_below : ∀ j, (j < i)%nat → r_task s !! j = r_task r !! j;
  inside_heap : r_heap s = f p (r_heap r) ++ partly read (length l) :: layouts (p + 1) read;
  inside_reply : r_reply s = if decide (i = 0%nat) then Some p else r_reply r;
}.

Lemma inside_length read l s : inside read l s → length (r_heap s) = (p + 1 + sum_list (size <$> read))%nat.
Proof using Hp.
  intros H. rewrite (inside_heap _ _ _ H), length_app, (placed_length _ _ _ _ _ Hp). cbn. rewrite layouts_length.
  fold p. lia.
Qed.

(** Storing the next element. *)
Lemma partly_store (read l : list resp) t q : q = (p + 1 + sum_list (size <$> read))%nat →
  set_element (partly read (S (length l)))
    (<[Z.to_nat (Z.of_nat (length read)) := Some q]> (o_element (partly read (S (length l))))) =
  partly (read ++ [t]) (length l).
Proof using Type.
  intros ->. unfold partly, set_element. cbn. f_equal. rewrite Nat2Z.id, insert_app_r_alt by
    (rewrite length_fmap, addresses_length; lia).
  rewrite length_fmap, addresses_length, Nat.sub_diag. cbn. rewrite addresses_app, fmap_app, <- app_assoc. done.
Qed.

Lemma inside_step read t l s s1 u : inside read (t :: l) s →
  complete s (S i) u
    (λ q h, <[p := set_element (partly read (S (length l)))
      (<[Z.to_nat (Z.of_nat (length read)) := Some q]> (o_element (partly read (S (length l)))))]> h)
    t (stream (encode <$> l) +:+ tail) s1 →
  r_heap s1 = f p (r_heap r) ++ partly (read ++ [t]) (length l) :: layouts (p + 1) (read ++ [t]) ∧
  r_reply s1 = (if decide (i = 0%nat) then Some p else r_reply r) ∧
  ∀ j, (j ≤ i)%nat → r_task s1 !! j = r_task s !! j.
Proof using Hp.
  intros Hs H1. pose proof (inside_length _ _ _ Hs) as Hlen. split_and!.
  - rewrite (complete_heap _ _ _ _ _ _ _ H1), (partly_store read l t) by done. rewrite (inside_heap _ _ _ Hs) at 1.
    rewrite insert_app_r_alt by (rewrite (placed_length _ _ _ _ _ Hp); done).
    rewrite (placed_length _ _ _ _ _ Hp). fold p. rewrite Nat.sub_diag. cbn.
    rewrite <- app_assoc. cbn. rewrite layouts_app. cbn. rewrite app_nil_r, Hlen. done.
  - rewrite (complete_reply _ _ _ _ _ _ _ H1). cbn. apply Hs.
  - intros j Hj. apply H1. lia.
Qed.

Lemma inside_fresh read l s u : inside read l s → r_task s !! S i = Some u → t_type u < 0 → t_parent u = Some i →
  fresh s (S i) u.
Proof using Type. intros Hs Hu Ht Hpar. split; try apply Hs; try done. intros j Hj. rewrite Hpar in Hj. simplify_eq. lia. Qed.

Lemma inside_placed read t l s u : inside read (t :: l) s → t_idx u = Z.of_nat (length read) → t_parent u = Some i →
  placed s u (λ q h, <[p := set_element (partly read (S (length l)))
      (<[Z.to_nat (Z.of_nat (length read)) := Some q]> (o_element (partly read (S (length l)))))]> h).
Proof using Hp Ha.
  intros Hs Hidx Hpar. rewrite <- Hidx. eapply placed_child; [done|apply (inside_parent _ _ _ Hs)|done|..].
  - rewrite (inside_heap _ _ _ Hs), lookup_app_r, (placed_length _ _ _ _ _ Hp) by (rewrite (placed_length _ _ _ _ _ Hp); done).
    fold p. by rewrite Nat.sub_diag.
  - done.
  - rewrite Hidx. cbn. rewrite length_app, length_fmap, addresses_length. cbn. lia.
Qed.

(** All elements are read, and the aggregate is complete. *)
Lemma inside_reads l : Forall (reads fd) l → ∀ read s, l ≠ [] → Z.of_nat (length read + length l) ≤ 2 ^ 31 →
  inside read l s →
  ∃ s1, complete r i task f (PAggregate type (read ++ l)) tail s1 ∧
    ∀ s', moveToNextTask s1 = Some (tt, s') → ∀ u, runs_to fd s' u → runs_to fd s u.
Proof using Hf Hp Ha.
  induction 1 as [|t l Ht Hl IH]; intros read s Hne Hn Hs; [done|]. clear Hne. cbn in Hn.
  destruct (inside_task _ _ _ Hs) as (u & Hu & Hty & Hidx & Hpar).
  destruct (Ht s (S i) u _ (stream (encode <$> l) +:+ tail) (inside_fresh _ _ _ _ Hs Hu Hty Hpar)
    (inside_placed _ _ _ _ _ Hs Hidx Hpar)) as (s1 & H1 & Hm).
  { rewrite (inside_unread _ _ _ Hs). cbn. by rewrite <- string_app_assoc. }
  destruct (inside_step _ _ _ _ _ _ Hs H1) as (Hheap & Hrep & Hbelow).
  destruct (complete_task _ _ _ _ _ _ _ H1) as (v & Hv & Hvi & Hvp).
  pose proof (inside_parent _ _ _ Hs) as Hprv. rewrite <- Hbelow in Hprv by lia. cbn [length] in Hprv.
  assert (∀ j, (j < i)%nat → r_task s1 !! j = r_task r !! j) as Hb.
  { intros j Hj. rewrite Hbelow by lia. by apply Hs. }
  destruct l as [|t' l'].
  - exists (set_ridx s1 (Z.of_nat i)). split.
    + split; [apply H1|apply H1|exact (complete_unread _ _ _ _ _ _ _ H1)|done|by eexists|exact Hb| |exact Hrep].
      cbn [r_heap set_ridx]. fold p. rewrite layout_aggregate, Hheap. unfold partly. cbn [head length replicate].
      by rewrite app_nil_r.
    + intros s' Hs' w Hw. apply (Hm s'); [|done]. rewrite <- Hs'. apply (move_up s1 i v) with (prv :=
        mkTask type (Z.of_nat (length read + 1)) (t_idx task) (Some p) (t_parent task)); try done; [apply H1|].
      rewrite Hvi, Hidx. cbn. lia.
  - set (s2 := set_tasks s1 (<[S i := mkTask (-1) (-1) (t_idx v + 1) (t_obj v) (t_parent v)]> (r_task s1))).
    assert (moveToNextTask s1 = Some (tt, s2)) as Hmv.
    { eapply move_next; try done; [apply H1|..]; rewrite Hvi, Hidx; cbn; cbn in Hn; [lia|unfold INT_MAX; lia]. }
    destruct (IH (read ++ [t]) s2) as (s3 & H3 & Hm3); [done|rewrite length_app; cbn in *; lia|..].
    + split; [apply H1|apply H1|exact (complete_unread _ _ _ _ _ _ _ H1)|apply H1|..|exact Hheap|exact Hrep].
      * unfold s2. cbn. rewrite list_lookup_insert_ne by lia. rewrite Hprv. do 3 f_equal. rewrite length_app. cbn. lia.
      * eexists. split; [by apply list_lookup_insert_eq; eapply lookup_lt_Some|]. cbn.
        split; [lia|]. rewrite Hvi, Hidx, Hvp, length_app. cbn. split; [lia|done].
      * intros j Hj. unfold s2. cbn. rewrite list_lookup_insert_ne by lia. by apply Hb.
    + rewrite <- app_assoc in H3. exists s3. split; [done|]. intros s' Hs' w Hw.
      apply (Hm s2 Hmv). by apply (Hm3 s').
Qed.
End elements.

Lemma put_task_eq (j : nat) t s : (j < length (r_task s))%nat →
  put_task (Z.of_nat j) t s = Some (tt, set_tasks s (<[j := t]> (r_task s))).
Proof.
  intros Hj. destruct (lookup_lt_is_Some_2 _ _ Hj) as [u Hu]. unfold put_task, mbind, rd_bind.
  rewrite (task_at_some _ s u) by (rewrite ?Nat2Z.id; done || lia). cbn. by rewrite Nat2Z.id.
Qed.

Lemma count_of_even type n : (type = REDIS_REPLY_MAP → Nat.Even n) →
  (if type =? REDIS_REPLY_MAP then count_of type n * 2 else count_of type n) = Z.of_nat n ∧
  0 ≤ count_of type n ≤ Z.of_nat n.
Proof.
  intros He. unfold count_of. destruct (Z.eqb_spec type REDIS_REPLY_MAP) as [Ht|Ht]; [|lia].
  destruct (He Ht) as [m ->]. pose proof (Z.div_mul (Z.of_nat m) 2). replace (Z.of_nat (2 * m)) with (Z.of_nat m * 2) by lia. lia.
Qed.

Lemma type_of_byte_aggregate type : is_aggregate type = true → type_of_byte (type_byte type) = Some type.
Proof.
  unfold is_aggregate. intros Ha. repeat (apply orb_true_iff in Ha as [Ha|Ha]); apply Z.eqb_eq in Ha; by subst.
Qed.

Lemma reads_aggregate fd type l : is_aggregate type = true → Z.of_nat (length l) ≤ 2 ^ 31 →
  (type = REDIS_REPLY_MAP → Nat.Even (length l)) → Forall (reads fd) l → reads fd (PAggregate type l).
Proof.
  intros Ha Hn He Hl r i task f tail Hf Hp Hu.
  assert (r_unread r = String (type_byte type) (pretty (count_of type (length l)) +:+ CRLF +:+
    stream (encode <$> l) +:+ tail)) as Hu'.
  { rewrite Hu. cbn. by rewrite <- !string_app_assoc. }
  pose proof (type_of_byte_aggregate type Ha) as Hc. destruct (count_of_even type (length l) He) as [Hcount Hcr].
  destruct l as [|t0 l0] eqn:El.
  { assert (count_of type (length (@nil resp)) = 0) as Hz by (cbn [length] in *; lia). rewrite Hz in Hu'.
    by apply (reads_childless fd r i task f (type_byte type) type 0); try done; right. }
  rewrite <- El in *. assert (0 < length l)%nat as Hpos by (rewrite El; cbn; lia).
  destruct (aggregate_header fd r i task f _ type (count_of type (length l)) (stream (encode <$> l) +:+ tail) Hf Hp Hc Ha) as
    (a & Hi & Hae & Hab & Hau & Hai & Hal & Hat & Hat' & Hah & Har & Hap);
    [unfold REDIS_READER_MAX_ARRAY_ELEMENTS; lia|exact Hu'|].
  set (p := length (r_heap r)).
  set (h := rooted i p (set_tasks (set_ridx (set_heap a (f p (r_heap r) ++ [partly r type [] (length l)]))
      (Z.of_nat (S i)))
    (<[S i := mkTask (-1) (-1) 0 None (Some i)]>
      (<[i := mkTask type (Z.of_nat (length l)) (t_idx task) (Some p) (t_parent task)]> (r_task a))))).
  assert (open_aggregate (Z.of_nat i) (typed_as type task) (count_of type (length l)) a = Some (true, h)) as Ho.
  { unfold open_aggregate. rewrite (proj2 (Z.eqb_neq (count_of type (length l)) (-1))) by lia. cbn [typed_as t_type t_idx t_parent]. cbn zeta.
    rewrite Hcount, (proj2 (Z.ltb_lt _ _)) by lia. unfold createArrayObject, mbind, rd_bind.
    rewrite (create_placed _ _ f) by done. rewrite Hah, put_task_eq by (cbn; lia). cbn beta iota delta [modify].
    replace (Z.of_nat i + 1) with (Z.of_nat (S i)) by lia. rewrite put_task_eq by (cbn; rewrite length_insert; lia).
    cbn beta iota. rewrite !Nat2Z.id. unfold h, rooted.
    case_decide; [rewrite (proj2 (Z.eqb_eq _ _)) by lia|rewrite (proj2 (Z.eqb_neq _ _)) by lia]; done. }
  assert (inside r i task f type tail [] l h) as Hin.
  { unfold h, rooted. case_decide; split; try done; try (by rewrite decide_True); try (by rewrite decide_False);
      cbn [r_task set_tasks set_reply];
      try (by rewrite list_lookup_insert_ne, list_lookup_insert_eq by lia);
      try (by eexists; rewrite list_lookup_insert_eq by (rewrite length_insert; lia));
      intros j Hj; rewrite !list_lookup_insert_ne by lia; by apply Hat'. }
  destruct (inside_reads fd r i task f Hf Hp type Ha tail l Hl [] h) as (s & Hs & Hm); [by rewrite El|cbn; lia|done|].
  exists s. split; [done|]. intros s' Hs' u Hw. eapply run_item; [rewrite (fresh_ridx _ _ _ Hf); lia|by rewrite Hi|..].
  - unfold h, rooted. by case_decide.
  - by apply (Hm s').
Qed.

Lemma all_chars_simple s : char_free CR s → char_free LF s → all_chars simple_char s = true.
Proof.
  induction s as [|c s IH]; [done|]. intros [H1 H2] [H3 H4]. cbn. rewrite IH by done. unfold simple_char.
  by rewrite !bool_decide_eq_false_2.
Qed.

Lemma leaf_reads fd t : leaf_ok fd t → reads fd t.
Proof.
  intros Hok r i task f tail Hf Hp Hu.
  destruct t as [type s|z|s|[]|b|s|v s|]; cbn [leaf_ok] in Hok; try done.
  - destruct Hok as [Hl Ht].
    assert (type_of_byte (type_byte type) = Some type ∧ is_line_type type = true ∧
      ∀ st, line_object fd (typed_as type task) s st =
        (Some <$> create (typed_as type task) (mkObject type 0 (Some s) EmptyString [])) st) as (Hc & Hlt & Ho).
    { destruct Ht as [[-> Hb]|[[-> | ->] Hlf]]; split_and!; try done; intros st; unfold line_object; cbn.
      - by rewrite Hb.
      - by rewrite (all_chars_simple s) by (apply Hl || done).
      - by rewrite (all_chars_simple s) by (apply Hl || done). }
    apply (reads_line fd r i task f Hf Hp (PLine type s) (type_byte type) type s tail); try done.
    rewrite Hu. cbn. by rewrite <- string_app_assoc.
  - apply (reads_line fd r i task f Hf Hp (PInteger z) ":" REDIS_REPLY_INTEGER (pretty z) tail); try done.
    + split; [|by apply pretty_Z_char_free]. pose proof (pretty_llong_length z Hok). unfold_ints. lia.
    + rewrite Hu. cbn. by rewrite <- string_app_assoc.
    + intros st. unfold line_object. cbn. by rewrite string2ll_pretty.
  - destruct Hok as (Hl & H326 & Hd).
    apply (reads_line fd r i task f Hf Hp (PDouble s) "," REDIS_REPLY_DOUBLE s tail); try done.
    + rewrite Hu. cbn. by rewrite <- string_app_assoc.
    + intros st. unfold line_object. cbn [typed_as t_type Z.eqb]. cbn zeta. rewrite (proj2 (Z.leb_gt _ _)) by done.
      assert (double_name s || negb (bool_decide (c_str s = EmptyString)) && fd s = true) as ->; [|done].
      destruct Hd as [->|[Hd ->]]; [done|]. rewrite bool_decide_eq_false_2 by done. by rewrite orb_true_r.
  - by apply (reads_line fd r i task f Hf Hp (PNil NilLine) "_" REDIS_REPLY_NIL EmptyString tail).
  - by apply reads_nil_bulk.
  - apply (reads_childless fd r i task f "*" REDIS_REPLY_ARRAY (-1)); try done. by left.
  - apply (reads_line fd r i task f Hf Hp (PBool b) "#" REDIS_REPLY_BOOL (if b then "t" else "f") tail); try done;
      by destruct b.
  - by apply (reads_bulk fd r i task f Hf Hp (PString s) "$" REDIS_REPLY_STRING s tail); try done; left.
  - destruct Hok as [Hv Hn].
    assert (String.length (v +:+ ":" +:+ s) = (String.length s + 4)%nat) as Hlen
      by (rewrite !string_length_app; cbn; lia).
    apply (reads_bulk fd r i task f Hf Hp (PVerbatim v s) "=" REDIS_REPLY_VERB (v +:+ ":" +:+ s) tail); try done.
    + right. split; [done|]. split; [lia|]. destruct v as [|? [|? [|? [|]]]]; try done.
    + rewrite Hlen, Nat2Z.inj_add. done.
    + intros st. destruct v as [|? [|? [|? [|]]]]; try done.
Qed.

(** The parser reads every reply that can be sent. *)
Lemma valid_reads fd t : valid fd t → reads fd t.
Proof.
  induction t as [| | | | | | |type l IH] using resp_tree_ind; intros Hv; try (inversion Hv; subst; by apply leaf_reads).
  inversion Hv as [? Hx|? ? Ha Hn He Hl]; subst; [by destruct Hx|]. apply reads_aggregate; try done.
  rewrite Forall_forall in IH, Hl |- *. eauto.
Qed.

(** ** Replies in pieces *)

Lemma related_trans y y' a b c : related y a b → related y' b c → related (y +:+ y') a c.
Proof.
  intros H H'. pose proof (rel_unread _ _ _ H) as Hu. pose proof (rel_unread _ _ _ H') as Hu'.
  rewrite (rel_err _ _ _ H) in Hu'. destruct H, H'. split; try congruence; try done.
  rewrite Hu', Hu. destruct (r_err a =? 0); [by rewrite string_app_assoc|done].
Qed.

Definition feed (y : string) (r : redisReader) : redisReader := set_buf r (r_buf r +:+ y) (r_pos r).

Section pieces.
Context (fd : string → bool).

(** [s] has begun to read what is at [r0], and goes on as [r0] would. *)
Definition like (r0 s : redisReader) : Prop :=
  r_err s = 0 ∧ 0 ≤ r_ridx s ∧ in_buf s ∧
  ∀ y r' s' u', related y r0 r' → related y s s' → runs_to fd r' u' →
    ∃ u, runs_to fd s' u ∧ related EmptyString u' u.

Lemma like_refl r0 task : fresh r0 0 task → like r0 r0.
Proof using Type.
  intros H. repeat split; try apply H; [rewrite (fresh_ridx _ _ _ H); done|]. intros y r' s' u' Hr Hs Hu.
  apply (runs_cong fd r' u' s' Hu); [by eapply related_fork|]. rewrite (rel_err _ _ _ Hr). apply H.
Qed.

Lemma like_feed y r0 s : in_buf r0 → r_err r0 = 0 → like r0 s → like (feed y r0) (feed y s).
Proof using Type.
  intros Hb He (Hse & Hsi & Hsb & Hl). pose proof (related_feed y r0 Hb He) as H0. pose proof (related_feed y s Hsb Hse) as Hs.
  repeat split; try done; [apply Hs|]. intros y' r' s' u' Hr Hs' Hu.
  apply (Hl (y +:+ y') r' s' u'); [by eapply related_trans|by eapply related_trans|done].
Qed.

Lemma like_cong r0 s s' : like r0 s → related EmptyString s s' → like r0 s'.
Proof using Type.
  intros (Hse & Hsi & Hsb & Hl) H. repeat split; [by rewrite (rel_err _ _ _ H)|by rewrite (rel_ridx _ _ _ H)|apply H|].
  intros y r' s2 u' Hr Hs2 Hu. apply (Hl y r' s2 u'); [done| |done]. by apply (related_trans EmptyString y s s' s2).
Qed.

(** A reply has been read completely. *)
Record finished (r0 : redisReader) (t : resp) (w : string) (u : redisReader) : Prop := mkFinished {
  finished_err : r_err u = 0;
  finished_in : in_buf u;
  finished_ridx : r_ridx u = -1;
  finished_unread : r_unread u = w;
  finished_reply : r_reply u = Some (length (r_heap r0));
  finished_heap : r_heap u = r_heap r0 ++ layout (length (r_heap r0)) t;
  finished_tasks : (0 < length (r_task u))%nat;
}.

Lemma finished_cong r0 t w u u' : finished r0 t w u → related EmptyString u u' → finished r0 t w u'.
Proof using Type.
  intros H Hr. pose proof (rel_unread _ _ _ Hr) as Hu. rewrite string_app_nil_r in Hu.
  destruct H, Hr. split; try congruence. rewrite Hu. by destruct (_ =? _).
Qed.

(** The whole of a reply is there. *)
Lemma runs_whole r0 task t w : fresh r0 0 task → t_parent task = None → valid fd t → r_unread r0 = encode t +:+ w →
  ∃ u, runs_to fd r0 u ∧ finished r0 t w u.
Proof using Type.
  intros Hf Hp Hv Hu.
  destruct (valid_reads fd t Hv r0 0%nat task _ w Hf (placed_root r0 task Hp) Hu) as (s & Hs & Hm).
  exists (set_ridx s (-1)).
  pose proof (move_root s (complete_ridx _ _ _ _ _ _ _ Hs)) as Hmv.
  split; [apply (Hm _ Hmv); by constructor|]. split; try done; try apply Hs.
  destruct (complete_task _ _ _ _ _ _ _ Hs) as (v & Hv' & _). by eapply lookup_lt_Some.
Qed.

Lemma feed_fresh y r0 task : fresh r0 0 task → fresh (feed y r0) 0 task.
Proof using Type.
  intros H. split; try apply H. pose proof (fresh_in _ _ _ H). unfold in_buf in *. cbn. rewrite string_length_app. lia.
Qed.

(** Part of a reply, or more: the reply is read, or the reader waits. *)
Lemma runs_part r0 task t z tail s : fresh r0 0 task → t_parent task = None → valid fd t →
  r_unread r0 +:+ z = encode t +:+ tail → like r0 s →
  ∃ u, runs_to fd s u ∧
    ((∃ w, tail = w +:+ z ∧ finished r0 t w u) ∨ z ≠ EmptyString ∧ like r0 u).
Proof using Type.
  intros Hf Hp Hv Hz Hl. pose proof (fresh_in _ _ _ Hf) as Hb. pose proof (fresh_err _ _ _ Hf) as He.
  assert (∀ u', runs_to fd r0 u' → ∃ u, runs_to fd s u ∧ related EmptyString u' u) as Hrun.
  { intros u' Hu'. destruct Hl as (_ & _ & Hsb & Hl). by apply (Hl EmptyString r0 s u'); [apply related_refl..|]. }
  destruct (string_split (encode t) tail (r_unread r0) z) as [(w & Hw & Htail)|(w & Hw & Henc & Hz')]; [done|..].
  { destruct (runs_whole r0 task t w Hf Hp Hv Hw) as (u' & Hu' & Hfin). destruct (Hrun u' Hu') as (u & Hu & Hr).
    exists u. split; [done|]. left. exists w. split; [done|]. by apply (finished_cong r0 t w u'). }
  pose proof (related_feed z r0 Hb He) as Hrel.
  destruct (runs_whole (feed z r0) task t tail) as (v & Hrv & Hv'); [by apply feed_fresh|done|done|..].
  { rewrite <- Hz. apply (unread_related z r0 (feed z r0) Hrel He). }
  destruct (runs_shorter fd z r0 (feed z r0) v Hrv Hrel He) as (u' & Hu').
  destruct (Hrun u' Hu') as (u & Hu & Hr). exists u. split; [done|]. right.
  destruct (runs_extend fd r0 u' Hu' Hb He) as [Hx|Hx].
  - exfalso. destruct (Hx z (feed z r0) Hrel) as (v' & Hrv' & Hvr). assert (v' = v) as -> by (by eapply runs_det).
    pose proof (rel_unread _ _ _ Hvr) as Hun. rewrite (finished_unread _ _ _ _ Hv'), <- (rel_err _ _ _ Hvr),
      (finished_err _ _ _ _ Hv') in Hun. cbn in Hun. subst z.
    apply (f_equal String.length) in Hun. rewrite !string_length_app in Hun.
    destruct w; [done|]. cbn in Hun. lia.
  - split; [by subst z; destruct w|]. apply like_cong with u'; [|done]. destruct Hx as (?&?&?&Hx). repeat split; done.
Qed.

(** ** [redisReaderGetReply] *)

(** Between two replies. *)
Record at_rest (h : list reply_object) (r : redisReader) : Prop := mkAtRest {
  rest_err : r_err r = 0;
  rest_in : in_buf r;
  rest_ridx : r_ridx r = -1;
  rest_tasks : (0 < length (r_task r))%nat;
  rest_heap : r_heap r = h;
}.

Definition root_task : redisReadTask := mkTask (-1) (-1) (-1) None None.

Definition started (r : redisReader) : redisReader :=
  set_ridx (set_tasks r (<[0%nat := root_task]> (r_task r))) 0.

Lemma start_rest h r : at_rest h r → start_item r = Some (tt, started r) ∧ fresh (started r) 0 root_task.
Proof using Type.
  intros H. split.
  - unfold start_item, mbind, rd_bind. cbn beta iota delta [gets]. rewrite (rest_ridx _ _ H). change (-1 =? -1) with true. cbn beta iota.
    pose proof (put_task_eq 0 root_task r (rest_tasks _ _ H)) as Hp. change (Z.of_nat 0) with 0 in Hp.
    fold root_task. by rewrite Hp.
  - split; try apply H; try done. apply list_lookup_insert_eq, H.
Qed.

Lemma start_begun r : 0 ≤ r_ridx r → start_item r = Some (tt, r).
Proof using Type.
  intros H. unfold start_item, mbind, rd_bind. cbn beta iota delta [gets].
  by rewrite (proj2 (Z.eqb_neq _ _)) by lia.
Qed.

Definition discarded (r : redisReader) : redisReader :=
  if (1024 <=? r_pos r)%nat then set_buf r (r_unread r) 0 else r.

Lemma related_discarded r : in_buf r → related EmptyString r (discarded r).
Proof using Type.
  intros H. unfold discarded. destruct (_ <=? _)%nat; [|by apply related_refl]. split; try done; [apply Nat.le_0_l|].
  unfold r_unread at 1. cbn. destruct (_ =? _); by rewrite ?string_app_nil_r.
Qed.

Lemma getReply_run r s u : r_err r = 0 → r_buf r ≠ EmptyString → start_item r = Some (tt, s) → runs_to fd s u →
  r_err u = 0 → redisReaderGetReply fd r =
    Some (if r_ridx u =? -1 then (Some (r_reply u), set_reply (discarded u) None) else (Some None, discarded u)).
Proof using Type.
  intros He Hb Hs Hu Hue. unfold redisReaderGetReply. unfold mbind at 1, rd_bind at 1. cbn beta iota delta [gets].
  rewrite He. cbn [negb Z.eqb]. unfold mbind at 1, rd_bind at 1. cbn beta iota delta [gets].
  rewrite (proj2 (Nat.eqb_neq _ _)) by (by destruct (r_buf r)). unfold mbind at 1, rd_bind at 1. rewrite Hs.
  unfold mbind at 1, rd_bind at 1. cbn beta iota delta [gets]. unfold mbind at 1, rd_bind at 1.
  rewrite (item_loop_runs fd _ s u Hu) by (unfold left_of; lia). unfold mbind, rd_bind. cbn beta iota delta [gets].
  rewrite Hue. cbn [negb Z.eqb]. cbn beta iota delta [discard modify]. fold (discarded u).
  assert (r_ridx (discarded u) = r_ridx u ∧ r_reply (discarded u) = r_reply u) as [-> Hr]
    by (unfold discarded; by destruct (_ <=? _)%nat).
  destruct (_ =? _); [by rewrite <- Hr|done].
Qed.

Lemma getReply_empty r : r_err r = 0 → r_buf r = EmptyString → redisReaderGetReply fd r = Some (Some None, r).
Proof using Type. destruct r. cbn. by intros -> ->. Qed.

(** The reader waits for the rest [z] of the reply [t] and what follows it. *)
Definition expecting (h : list reply_object) (t : resp) (z tail : string) (r : redisReader) : Prop :=
  at_rest h r ∧ r_unread r +:+ z = encode t +:+ tail ∨
  ∃ r0, fresh r0 0 root_task ∧ r_heap r0 = h ∧ r_unread r0 +:+ z = encode t +:+ tail ∧ like r0 r ∧
    (z = EmptyString → r_buf r ≠ EmptyString).

Lemma expecting_feed h t y z tail r : expecting h t (y +:+ z) tail r → expecting h t z tail (feed y r).
Proof using Type.
  intros [[Hr Hu]|(r0 & Hf & Hh & Hu & Hl & Hb)].
  - left. pose proof (related_feed y r (rest_in _ _ Hr) (rest_err _ _ Hr)) as Hrel.
    split; [destruct Hr; split; try done; apply Hrel|].
    rewrite (unread_related y r (feed y r) Hrel) by apply Hr. by rewrite <- string_app_assoc.
  - right. exists (feed y r0). pose proof (related_feed y r0 (fresh_in _ _ _ Hf) (fresh_err _ _ _ Hf)) as Hrel.
    split; [by apply feed_fresh|]. split; [done|]. split.
    + rewrite (unread_related y r0 (feed y r0) Hrel) by apply Hf. by rewrite <- string_app_assoc.
    + split; [apply like_feed; try done; apply Hf|]. intros ->. cbn. destruct (r_buf r); [|done].
      destruct y; [by specialize (Hb eq_refl)|done].
Qed.

Lemma reply_nonempty t : encode t ≠ EmptyString.
Proof using Type. by destruct t as [| | |[]| | | |]. Qed.

(** One call: the reply is there, or the reader goes on waiting. *)
Lemma getReply_expecting h t z tail r : valid fd t → expecting h t z tail r →
  (∃ r' w, redisReaderGetReply fd r = Some (Some (Some (length h)), r') ∧ tail = w +:+ z ∧ r_unread r' = w ∧
     at_rest (h ++ layout (length h) t) r') ∨
  z ≠ EmptyString ∧ ∃ r', redisReaderGetReply fd r = Some (Some None, r') ∧ expecting h t z tail r'.
Proof using Type.
  intros Hv Hx.
  assert (r_buf r = EmptyString ∧ z ≠ EmptyString ∧ redisReaderGetReply fd r = Some (Some None, r) ∨
    ∃ r0 s, start_item r = Some (tt, s) ∧ r_err r = 0 ∧ r_buf r ≠ EmptyString ∧
      fresh r0 0 root_task ∧ r_heap r0 = h ∧ r_unread r0 +:+ z = encode t +:+ tail ∧ like r0 s)
    as [(Hb & Hz & Hg)|(r0 & s & Hst & He & Hb & Hf & Hh & Hu & Hl)].
  { pose proof (getReply_empty r) as Hempty. destruct Hx as [[Hr Hu]|(r0 & Hf & Hh & Hu & Hl & Hb)].
    - destruct (start_rest h r Hr) as [Hs Hf]. destruct (decide (r_buf r = EmptyString)) as [Hb|Hb].
      + left. split; [done|]. split; [|apply Hempty; [apply Hr|done]].
        intros ->. unfold r_unread in Hu. rewrite Hb in Hu. pose proof (reply_nonempty t).
        destruct (r_pos r); cbn in Hu; by destruct (encode t).
      + right. exists (started r), (started r). split_and!; try done; try apply Hr. by apply like_refl with root_task.
    - pose proof Hl as (He & Hi & Hin & _). destruct (decide (r_buf r = EmptyString)) as [Hb'|Hb'].
      + left. split; [done|]. split; [|by apply Hempty]. intros Hz. by destruct (Hb Hz).
      + right. exists r0, r. split_and!; try done. by apply start_begun. }
  { right. split; [done|]. by exists r. }
  destruct (runs_part r0 root_task t z tail s Hf eq_refl Hv Hu Hl) as (u & Hrun & [(w & Htail & Hfin)|[Hz Hlu]]).
  - left. rewrite (getReply_run r s u He Hb Hst Hrun (finished_err _ _ _ _ Hfin)), (finished_ridx _ _ _ _ Hfin),
      (finished_reply _ _ _ _ Hfin), Hh. cbn [Z.eqb Pos.eqb].
    pose proof (finished_cong _ _ _ _ _ Hfin (related_discarded u (finished_in _ _ _ _ Hfin))) as Hd.
    eexists _, w. split; [done|]. split; [done|]. split; [apply Hd|]. rewrite <- Hh. destruct Hd. by split.
  - right. split; [done|]. pose proof Hlu as (Hue & Hui & Hub & _).
    rewrite (getReply_run r s u He Hb Hst Hrun Hue). rewrite (proj2 (Z.eqb_neq _ _)) by lia.
    eexists. split; [done|]. right. exists r0. split_and!; try done.
    apply like_cong with u; [done|]. by apply related_discarded.
Qed.
End pieces.
