(* ===== verification/Connection.v ===== *)
(** * The hiredis client: one command over a socket

    The blocking context of src/redis/deps/hiredis/hiredis.c with the calls of
    net.c: a command is formatted into the output buffer, the buffer is written
    to the socket, and the socket is read until the parser of [Reader] has a
    reply.  The socket is what [recv] and [send] will return; the bytes that
    have been sent are kept.  A call that does not return, because the socket
    has nothing more, is [None], and so is undefined behaviour of the parser.
    The texts of errors are not modelled. *)

From S2P Require Import Prelude CLib Buffers Hiredis Util Reader ReaderSpec ReaderTree.
From Stdlib Require Import Ascii.

Definition REDIS_ERR_IO : Z := 1.
Definition REDIS_ERR_OTHER : Z := 2.
Definition REDIS_ERR_EOF : Z := 3.
Definition REDIS_ERR_TIMEOUT : Z := 6.

(** What [recv] returns: bytes, at most as many as the buffer of 16 KB takes
    and none at the end of the stream, or an error. *)
Inductive recv_result : Type := Received (bytes : string) | RecvInterrupted | RecvTimeout | RecvFailed.

(** What [send] returns. *)
Inductive send_result : Type := Sent (n : nat) | SendInterrupted | SendFailed.

Record redisContext : Type := mkContext {
  c_err : Z;
  c_obuf : string;
  c_reader : redisReader;
  c_recv : list recv_result;
  c_send : list send_result;
  c_sent : string;
}.

Definition with_err (c : redisContext) (e : Z) : redisContext :=
  mkContext e (c_obuf c) (c_reader c) (c_recv c) (c_send c) (c_sent c).
Definition with_reader (c : redisContext) (r : redisReader) : redisContext :=
  mkContext (c_err c) (c_obuf c) r (c_recv c) (c_send c) (c_sent c).
Definition with_recv (c : redisContext) (l : list recv_result) : redisContext :=
  mkContext (c_err c) (c_obuf c) (c_reader c) l (c_send c) (c_sent c).
Definition with_send (c : redisContext) (l : list send_result) : redisContext :=
  mkContext (c_err c) (c_obuf c) (c_reader c) (c_recv c) l (c_sent c).
Definition with_obuf (c : redisContext) (o sent : string) : redisContext :=
  mkContext (c_err c) o (c_reader c) (c_recv c) (c_send c) sent.

(** A context as [redisContextInit] makes it, connected to a socket. *)
Definition redisContextInit (recv : list recv_result) (send : list send_result) : redisContext :=
  mkContext 0 EmptyString redisReaderCreate recv send EmptyString.

Definition hi (A : Type) : Type := redisContext → option (A * redisContext).

#[export] Instance hi_ret : MRet hi := λ _ a c, Some (a, c).
#[export] Instance hi_bind : MBind hi := λ _ _ f m c,
  match m c with Some (a, c') => f a c' | None => None end.

(** The call does not return. *)
Definition blocks {A} : hi A := λ _, None.
Definition look {A} (f : redisContext → A) : hi A := λ c, Some (f c, c).
Definition change (f : redisContext → redisContext) : hi unit := λ c, Some (tt, f c).
Definition on_reader {A} (m : rd A) : hi A := λ c,
  match m (c_reader c) with Some (a, r) => Some (a, with_reader c r) | None => None end.

Definition __redisSetError (e : Z) : hi unit := change (λ c, with_err c e).

(** ** The socket (net.c) *)

(** [None] is -1, and the empty string is 0. *)
Definition redisNetRead : hi (option string) := λ c,
  match c_recv c with
  | [] => None
  | x :: l =>
      (change (λ c, with_recv c l);;
       match x with
       | RecvInterrupted => mret (Some EmptyString)
       | RecvTimeout => __redisSetError REDIS_ERR_TIMEOUT;; mret None
       | RecvFailed => __redisSetError REDIS_ERR_IO;; mret None
       | Received EmptyString => __redisSetError REDIS_ERR_EOF;; mret None
       | Received bytes => mret (Some bytes)
       end) c
  end.

(** The number of bytes of the output buffer that were sent. *)
Definition redisNetWrite : hi (option nat) := λ c,
  match c_send c with
  | [] => None
  | x :: l =>
      (change (λ c, with_send c l);;
       match x with
       | SendInterrupted => mret (Some 0%nat)
       | SendFailed => __redisSetError REDIS_ERR_IO;; mret None
       | Sent n =>
           change (λ c, with_obuf c (c_obuf c) (c_sent c +:+ stake n (c_obuf c)));; mret (Some n)
       end) c
  end.

(** ** Buffers *)

Definition redisBufferRead : hi bool :=
  e ← look c_err;
  if negb (e =? 0) then mret false
  else
    nread ← redisNetRead;
    match nread with
    | None => mret false
    | Some EmptyString => mret true
    | Some bytes =>
        ok ← on_reader (redisReaderFeed bytes);
        if ok : bool then mret true
        else e ← look (λ c, r_err (c_reader c)); __redisSetError e;; mret false
    end.

(** The second component is [done]. *)
Definition redisBufferWrite : hi (bool * bool) :=
  e ← look c_err;
  if negb (e =? 0) then mret (false, false)
  else
    len ← look (λ c, String.length (c_obuf c));
    ok ← (if (0 <? len)%nat then
            nwritten ← redisNetWrite;
            match nwritten with
            | None => mret false
            | Some n => change (λ c, with_obuf c (sdrop n (c_obuf c)) (c_sent c));; mret true
            end
          else mret true);
    if ok : bool then empty ← look (λ c, (String.length (c_obuf c) =? 0)%nat); mret (true, empty)
    else mret (false, false).

(** ** Replies *)

Section replies.
Variable finite_double : string → bool.

(** [None] is [REDIS_ERR]. *)
Definition redisGetReplyFromReader : hi (option (option nat)) :=
  reply ← on_reader (redisReaderGetReply finite_double);
  match reply with
  | None => e ← look (λ c, r_err (c_reader c)); __redisSetError e;; mret None
  | Some p => mret (Some p)
  end.

(** The default callback for push messages frees them. *)
Definition redisHandledPushReply (reply : option nat) : hi bool :=
  match reply with
  | None => mret false
  | Some p => look (λ c, match r_heap (c_reader c) !! p with
                         | Some o => o_type o =? REDIS_REPLY_PUSH
                         | None => false
                         end)
  end.

(** Every reply takes a byte of the buffer, so its length is fuel enough. *)
Fixpoint in_band_loop (fuel : nat) : hi (option (option nat)) :=
  match fuel with
  | O => blocks
  | S fuel =>
      reply ← redisGetReplyFromReader;
      match reply with
      | None => mret None
      | Some p =>
          pushed ← redisHandledPushReply p;
          if pushed : bool then in_band_loop fuel else mret (Some p)
      end
  end.

Definition redisNextInBandReplyFromReader : hi (option (option nat)) :=
  n ← look (λ c, String.length (r_unread (c_reader c)));
  in_band_loop (S n).

(** Write until done: each round takes one result of [send]. *)
Fixpoint write_loop (rounds : list send_result) : hi bool :=
  w ← redisBufferWrite;
  match w with
  | (false, _) => mret false
  | (true, true) => mret true
  | (true, false) => match rounds with [] => blocks | _ :: rounds => write_loop rounds end
  end.

(** Read until there is a reply: each round takes one result of [recv]. *)
Fixpoint read_loop (rounds : list recv_result) : hi (option nat) :=
  ok ← redisBufferRead;
  if negb ok then mret None
  else
    reply ← redisNextInBandReplyFromReader;
    match reply with
    | None => mret None
    | Some (Some p) => mret (Some p)
    | Some None => match rounds with [] => blocks | _ :: rounds => read_loop rounds end
    end.

(** Of a blocking context; [None] is [REDIS_ERR]. *)
Definition redisGetReply : hi (option nat) :=
  aux ← redisNextInBandReplyFromReader;
  match aux with
  | None => mret None
  | Some (Some p) => mret (Some p)
  | Some None =>
      sends ← look c_send;
      ok ← write_loop sends;
      if negb ok then mret None else recvs ← look c_recv; read_loop recvs
  end.

Definition __redisAppendCommand (cmd : string) : hi unit :=
  change (λ c, with_obuf c (c_obuf c +:+ cmd) (c_sent c)).

(** [redisvAppendCommand] and [redisvCommand]; NULL is [None]. *)
Definition redisvCommand (printf_conv : string → Z → string) (format : string) (ap : list fmt_arg) :
    hi (option nat) :=
  match redisvFormatCommand printf_conv format ap with
  | None => __redisSetError REDIS_ERR_OTHER;; mret None
  | Some cmd => __redisAppendCommand cmd;; redisGetReply
  end.
End replies.

(** ** One command and its reply *)

Section exchange.
Context (fd : string → bool).

Definition is_push (t : resp) : Prop := ∃ l, t = PAggregate REDIS_REPLY_PUSH l.

(** Between two commands. *)
Record ready (h : list reply_object) (c : redisContext) : Prop := mkReady {
  ready_err : c_err c = 0;
  ready_obuf : c_obuf c = EmptyString;
  ready_reader : at_rest h (c_reader c);
  ready_unread : r_unread (c_reader c) = EmptyString;
}.

Lemma with_reader_reader c r : c_reader (with_reader c r) = r.
Proof using Type. done. Qed.

Lemma head_not_push t p : ¬ is_push t → valid fd t → (o_type (head p t) =? REDIS_REPLY_PUSH) = false.
Proof using Type.
  intros Hn Hv. apply Z.eqb_neq. destruct t as [type s| | | | | | |type l]; try done; cbn.
  - intros ->. inversion Hv as [? Hl|]; subst. destruct Hl as [_ [[? _]|[[?|?] _]]]; done.
  - intros ->. apply Hn. by exists l.
Qed.

Lemma next_reply c h t z tail : valid fd t → ¬ is_push t → expecting fd h t z tail (c_reader c) →
  (∃ r' w, redisNextInBandReplyFromReader fd c = Some (Some (Some (length h)), with_reader c r') ∧
     tail = w +:+ z ∧ r_unread r' = w ∧ at_rest (h ++ layout (length h) t) r') ∨
  z ≠ EmptyString ∧ ∃ r', redisNextInBandReplyFromReader fd c = Some (Some None, with_reader c r') ∧
    expecting fd h t z tail r'.
Proof using Type.
  intros Hv Hp Hx. unfold redisNextInBandReplyFromReader. unfold mbind at 1 2, hi_bind at 1 2. cbn beta iota delta [look].
  cbn [in_band_loop]. unfold mbind, hi_bind, redisGetReplyFromReader, mbind, hi_bind, on_reader.
  destruct (getReply_expecting fd h t z tail (c_reader c) Hv Hx) as [(r' & w & Hg & Ht & Hu & Hr)|[Hz (r' & Hg & Hx')]].
  - left. exists r', w. rewrite Hg. cbn beta iota delta [mret hi_ret redisHandledPushReply look].
    rewrite with_reader_reader, (rest_heap _ _ Hr), lookup_app_r, Nat.sub_diag by done.
    assert (layout (length h) t !! 0%nat = Some (head (length h) t)) as -> by (by destruct t).
    by rewrite head_not_push.
  - right. split; [done|]. exists r'. rewrite Hg. done.
Qed.

(** The socket delivers pieces until the reply is complete. *)
Lemma read_until h t tail more pieces c rounds : valid fd t → ¬ is_push t → Forall (λ p, p ≠ EmptyString) pieces →
  pieces ≠ [] → c_err c = 0 → (length pieces ≤ S (length rounds))%nat →
  c_recv c = (Received <$> pieces) ++ more → expecting fd h t (stream pieces) tail (c_reader c) →
  ∃ pieces' r', read_loop fd rounds c =
      Some (Some (length h), with_recv (with_reader c r') ((Received <$> pieces') ++ more)) ∧
    r_unread r' +:+ stream pieces' = tail ∧ Forall (λ p, p ≠ EmptyString) pieces' ∧
    at_rest (h ++ layout (length h) t) r'.
Proof using Type.
  intros Hv Hp Hall. revert c rounds. induction Hall as [|p pieces Hp0 Hall IH]; intros c rounds Hne He Hlen Hrecv Hx; [done|].
  assert (r_err (c_reader c) = 0) as Hre.
  { destruct Hx as [[Hx _]|(r0 & _ & _ & _ & Hx & _)]; apply Hx. }
  assert (redisBufferRead c = Some (true, with_recv (with_reader c (feed p (c_reader c))) ((Received <$> pieces) ++ more))) as Hrd.
  { unfold redisBufferRead, mbind, hi_bind. cbn beta iota delta [look]. rewrite He. cbn [negb Z.eqb].
    unfold redisNetRead. rewrite Hrecv. cbn [fmap list_fmap app]. destruct p as [|ch p]; [done|].
    unfold mbind, hi_bind. cbn beta iota delta [change mret hi_ret on_reader redisReaderFeed].
    unfold on_reader, redisReaderFeed. cbn [c_reader with_recv]. by rewrite Hre. }
  apply expecting_feed in Hx. set (c1 := with_recv (with_reader c (feed p (c_reader c))) ((Received <$> pieces) ++ more)) in *.
  assert (read_loop fd rounds c = (reply ← redisNextInBandReplyFromReader fd;
    match reply with None => mret None | Some (Some p) => mret (Some p)
    | Some None => match rounds with [] => blocks | _ :: rounds => read_loop fd rounds end end) c1) as ->.
  { destruct rounds; cbn [read_loop]; unfold mbind at 1, hi_bind at 1; by rewrite Hrd. }
  unfold mbind, hi_bind.
  destruct (next_reply c1 h t (stream pieces) tail Hv Hp Hx) as [(r' & w & -> & Ht & Hu & Hr)|[Hz (r' & -> & Hx')]].
  - exists pieces, r'. split; [done|]. split; [by rewrite Hu|done].
  - assert (pieces ≠ []) as Hne' by (by destruct pieces). destruct rounds as [|x rounds]; [destruct pieces; cbn in Hlen; [done|lia]|].
    destruct (IH (with_reader c1 r') rounds) as (pieces' & r2 & -> & Ht & Hall' & Hr); try done; [cbn in Hlen; lia|].
    exists pieces', r2. done.
Qed.

(** The socket takes the output buffer piece by piece. *)
Lemma write_until more pieces c rounds : Forall (λ p, p ≠ EmptyString) pieces → c_err c = 0 →
  (length pieces ≤ length rounds)%nat → c_obuf c = stream pieces →
  c_send c = ((λ p, Sent (String.length p)) <$> pieces) ++ more →
  write_loop rounds c = Some (true, with_send (with_obuf c EmptyString (c_sent c +:+ stream pieces)) more).
Proof using Type.
  intros Hall. revert c rounds. induction Hall as [|p pieces Hp Hall IH]; intros c rounds He Hlen Hob Hsend.
  - destruct c. cbn in *. subst. by destruct rounds; cbn; rewrite string_app_nil_r.
  - destruct rounds as [|x rounds]; [cbn in Hlen; lia|]. cbn [stream foldr] in Hob.
    assert (redisBufferWrite c = Some ((true, (String.length (stream pieces) =? 0)%nat),
      with_send (with_obuf c (stream pieces) (c_sent c +:+ p)) (((λ p, Sent (String.length p)) <$> pieces) ++ more))) as Hw.
    { destruct c as [e o r rc sd st]. cbn in He, Hob, Hsend. subst e o sd. clear IH.
      unfold redisBufferWrite, mbind, hi_bind. cbn [look c_err negb Z.eqb]. cbn beta iota delta [look].
      cbn [c_obuf]. rewrite (proj2 (Nat.ltb_lt _ _)) by (destruct p; [done|cbn; lia]).
      unfold redisNetWrite, mbind, hi_bind. cbn [c_send]. cbn beta iota delta [change mret hi_ret].
      cbn [c_obuf c_sent with_send with_obuf]. rewrite stake_app. cbn [c_obuf c_sent with_send with_obuf].
      by rewrite sdrop_app. }
    cbn [write_loop]. unfold mbind at 1, hi_bind at 1. rewrite Hw. destruct (Nat.eqb_spec (String.length (stream pieces)) 0) as [H0|H0].
    + destruct pieces as [|q pieces]; [by cbn; rewrite string_app_nil_r|]. exfalso.
      inversion Hall; subst. destruct q; [done|]. cbn in H0. lia.
    + rewrite IH; try done; [|cbn in Hlen; lia]. cbn [stream foldr]. cbn. by rewrite string_app_assoc.
Qed.
End exchange.

(** What is in the output buffer is sent, and the reply is read. *)
Lemma get_reply_exchange fd h c t sends recvs os ins :
  c_err c = 0 → at_rest h (c_reader c) → r_unread (c_reader c) = EmptyString → valid fd t → ¬ is_push t →
  Forall (λ p, p ≠ EmptyString) os → c_obuf c = stream os →
  c_send c = ((λ p, Sent (String.length p)) <$> os) ++ sends →
  Forall (λ p, p ≠ EmptyString) ins → stream ins = encode t → c_recv c = (Received <$> ins) ++ recvs →
  ∃ r', redisGetReply fd c = Some (Some (length h), mkContext 0 EmptyString r' recvs sends (c_sent c +:+ stream os)) ∧
    at_rest (h ++ layout (length h) t) r' ∧ r_unread r' = EmptyString.
Proof.
  intros He Hr Hu Hv Hp Hos Hob Hsend His Hst Hrecv.
  assert (expecting fd h t (stream ins) EmptyString (c_reader c)) as Hx.
  { left. split; [done|]. by rewrite Hu, Hst, string_app_nil_r. }
  unfold redisGetReply, mbind, hi_bind.
  destruct (next_reply fd c h t (stream ins) EmptyString Hv Hp Hx) as [(r' & w & _ & Ht & _)|[Hz (r1 & -> & Hx1)]].
  { pose proof (reply_nonempty t) as Hn. rewrite <- Hst in Hn. destruct w; [|done]. cbn in Ht. by rewrite <- Ht in Hn. }
  cbn beta iota delta [look]. rewrite (write_until sends os (with_reader c r1)); try done.
  2: { cbn. rewrite Hsend, length_app, length_fmap. lia. }
  cbn [negb]. set (c2 := with_send _ _).
  destruct (read_until fd h t EmptyString recvs ins c2 (c_recv c2)) as (ins' & r' & -> & Ht & Hall & Hr'); try done.
  - by destruct ins.
  - cbn. rewrite Hrecv, length_app, length_fmap. lia.
  - assert (ins' = []) as ->.
    { destruct ins' as [|q ins']; [done|]. inversion Hall; subst. exfalso.
      apply (f_equal String.length) in Ht. rewrite string_length_app in Ht. destruct q; [done|]. cbn in Ht. lia. }
    exists r'. split; [|split; [done|]].
    + do 2 f_equal. unfold c2, with_recv, with_reader, with_send, with_obuf. cbn. by rewrite He.
    + by rewrite string_app_nil_r in Ht.
Qed.

Lemma command_reply fd printf_conv format ap cmd h c t os ins sends recvs
    (Hready : ready h c) (Hcmd : redisvFormatCommand printf_conv format ap = Some cmd)
    (Hvalid : valid fd t) (Hpush : ¬ is_push t)
    (Hos : Forall (λ p, p ≠ EmptyString) os) (Hcut : stream os = cmd)
    (Hsend : c_send c = ((λ p, Sent (String.length p)) <$> os) ++ sends)
    (His : Forall (λ p, p ≠ EmptyString) ins) (Hbytes : stream ins = encode t)
    (Hrecv : c_recv c = (Received <$> ins) ++ recvs) :
  ∃ c' p, redisvCommand fd printf_conv format ap c = Some (Some p, c') ∧
    reply_at (size t) (r_heap (c_reader c')) p = Some (plain t) ∧
    c_sent c' = c_sent c +:+ cmd ∧ c_send c' = sends ∧ c_recv c' = recvs ∧
    ready (r_heap (c_reader c')) c'.
Proof.
  destruct Hready as [He Hob Hr Hu].
  destruct (get_reply_exchange fd h (with_obuf c (c_obuf c +:+ cmd) (c_sent c)) t sends recvs os ins) as
    (r' & Hg & Hr' & Hu'); try done; [cbn; by rewrite Hob, Hcut|].
  eexists _, (length h). unfold redisvCommand, mbind, hi_bind. rewrite Hcmd. cbn beta iota delta [__redisAppendCommand change].
  rewrite Hg. split; [done|]. cbn. rewrite Hcut. split.
  - rewrite (rest_heap _ _ Hr'). pose proof (reply_at_plain fd t Hvalid (size t) h []) as Hp.
    rewrite app_nil_r in Hp. by apply Hp.
  - split_and!; try done. split; try done. by destruct Hr'; split.
Qed.

(** C31: a command of a client between two commands, on a connection that does
    not fail: [redisvCommand] sends exactly the bytes of the request, in
    whatever portions the socket takes them, and returns the reply whose bytes
    arrive, a tree of any shape and in whatever pieces the socket delivers it
    ([reply_at] reads the objects the parser has built).  The client is then
    between two commands again. *)
Theorem command_answered fd printf_conv format ap cmd h c t os ins sends recvs
    (Hready : ready h c) (Hcmd : redisvFormatCommand printf_conv format ap = Some cmd)
    (Hvalid : valid fd t) (Hpush : ¬ is_push t)
    (Hos : Forall (λ p, p ≠ EmptyString) os) (Hcut : stream os = cmd)
    (Hsend : c_send c = ((λ p, Sent (String.length p)) <$> os) ++ sends)
    (His : Forall (λ p, p ≠ EmptyString) ins) (Hbytes : stream ins = encode t)
    (Hrecv : c_recv c = (Received <$> ins) ++ recvs) :
  ∃ c' p, redisvCommand fd printf_conv format ap c = Some (Some p, c') ∧
    reply_at (size t) (r_heap (c_reader c')) p = Some (plain t) ∧
    c_sent c' = c_sent c +:+ cmd ∧ c_send c' = sends ∧ c_recv c' = recvs ∧
    ready (r_heap (c_reader c')) c'.
Proof. by apply command_reply with h os ins. Qed.

(** A reply with nested arrays, a nil and a string with line breaks, one byte
    at a time. *)
Fixpoint bytewise (s : string) : list string :=
  match s with EmptyString => [] | String c s => String c EmptyString :: bytewise s end.

Definition sample_reply : resp :=
  PAggregate REDIS_REPLY_ARRAY
    [PString ("a" +:+ CRLF +:+ "$1"); PNil NilBulk; PAggregate REDIS_REPLY_ARRAY [PInteger (-42); PLine REDIS_REPLY_ERROR "ERR x"];
     PAggregate REDIS_REPLY_MAP [PString "k"; PBool true]; PAggregate REDIS_REPLY_ARRAY []].

Lemma sample_reply_valid : valid (λ _, false) sample_reply.
Proof.
  assert (line_ok "ERR x") by (split; [done|by repeat split]).
  repeat first
    [ apply Forall_nil; exact I
    | apply Forall_cons; split
    | apply valid_aggregate; [reflexivity|done|intros ?; first [by exists 1%nat|done]|]
    | apply valid_leaf ]; try done.
  split; [done|]. right. split; [by right|]. by repeat split.
Qed.

Definition sample_context : redisContext :=
  redisContextInit (Received <$> bytewise (encode sample_reply)) [Sent 7; Sent 15].

Lemma command_answered_witness :
  ∃ c' p, redisvCommand (λ _, false) no_printf "GET %s" [FStr "x_1"] sample_context = Some (Some p, c') ∧
    reply_at (size sample_reply) (r_heap (c_reader c')) p = Some (plain sample_reply) ∧
    c_sent c' = EmptyString +:+ resp_request ["GET"; "x_1"] ∧ c_send c' = [] ∧ c_recv c' = [] ∧
    ready (r_heap (c_reader c')) c'.
Proof.
  apply (command_answered (λ _, false) no_printf "GET %s" [FStr "x_1"] (resp_request ["GET"; "x_1"]) [] sample_context
    sample_reply [stake 7 (resp_request ["GET"; "x_1"]); sdrop 7 (resp_request ["GET"; "x_1"])]
    (bytewise (encode sample_reply)) [] []).
  - split; try done. split; try done; [apply Nat.le_0_l|apply Nat.ltb_lt; reflexivity].
  - reflexivity.
  - apply sample_reply_valid.
  - by intros [l [=]].
  - repeat constructor; done.
  - reflexivity.
  - reflexivity.
  - repeat constructor; done.
  - reflexivity.
  - reflexivity.
Defined.
