(* ===== verification/Output.v ===== *)
(** * Replies on the wire

    The writing side of a connection, from src/redis/src/networking.c: a reply
    is appended to the static buffer of the client, or to a list of blocks once
    the buffer is full; the length of an array may be filled in after its
    elements; and the socket takes the buffer and the blocks in portions of
    any size.

    The client is an ordinary one that speaks the second version of the
    protocol, without a limit on its output and without push messages; commands
    run in the main thread, and the memory of the server is not limited.  The usable size of an allocation and the
    number of buffers that one system call takes are parameters. *)

From S2P Require Import Prelude CLib Buffers Hiredis Util Reader ReaderSpec ReaderTree.
From Stdlib Require Import Ascii.

Definition PROTO_REPLY_CHUNK_BYTES : nat := Z.to_nat (16 * 1024).
Definition NET_MAX_WRITES_PER_EVENT : nat := Z.to_nat (1024 * 64).
Definition OBJ_SHARED_BULKHDR_LEN : Z := 32.

(** [used] is the length of [b_buf]. *)
Record clientReplyBlock : Type := mkBlock {
  b_size : nat;
  b_buf : string;
}.

Definition b_used (b : clientReplyBlock) : nat := String.length (b_buf b).

(** A node of the list of replies: its address, and its block or NULL in the
    place of a length that is not known yet. *)
Definition reply_node : Type := nat * option clientReplyBlock.

(** The fields of [client] that are written here; [o_buf] holds the first
    [bufpos] bytes of [buf], and [o_next] is the address of the next node. *)
Record output : Type := mkOutput {
  o_buf_usable_size : nat;
  o_buf : string;
  o_reply : list reply_node;
  o_sentlen : nat;
  o_reply_bytes : Z;
  o_next : nat;
  o_close_after_reply : bool;
  o_close_asap : bool;
}.

Definition with_buf (c : output) (b : string) : output :=
  mkOutput (o_buf_usable_size c) b (o_reply c) (o_sentlen c) (o_reply_bytes c) (o_next c)
    (o_close_after_reply c) (o_close_asap c).
Definition with_reply (c : output) (l : list reply_node) (n : Z) : output :=
  mkOutput (o_buf_usable_size c) (o_buf c) l (o_sentlen c) n (o_next c)
    (o_close_after_reply c) (o_close_asap c).
Definition with_sentlen (c : output) (n : nat) : output :=
  mkOutput (o_buf_usable_size c) (o_buf c) (o_reply c) n (o_reply_bytes c) (o_next c)
    (o_close_after_reply c) (o_close_asap c).
Definition with_next (c : output) (n : nat) : output :=
  mkOutput (o_buf_usable_size c) (o_buf c) (o_reply c) (o_sentlen c) (o_reply_bytes c) n
    (o_close_after_reply c) (o_close_asap c).
Definition freeClientAsync (c : output) : output :=
  mkOutput (o_buf_usable_size c) (o_buf c) (o_reply c) (o_sentlen c) (o_reply_bytes c) (o_next c)
    (o_close_after_reply c) true.

Definition prepareClientToWrite (c : output) : bool := negb (o_close_asap c).

Definition clientHasPendingReplies (c : output) : bool :=
  (0 <? String.length (o_buf c))%nat || (0 <? length (o_reply c))%nat.

Section output.
(** [zmalloc_usable (n)] reports that [usable n] bytes can be used. *)
Variable usable : nat → nat.

(** The size of a block allocated for [n] bytes, after its header. *)
Definition block_size (n : nat) : nat := usable (n + 16) - 16.

Definition createOutput : output :=
  mkOutput (usable PROTO_REPLY_CHUNK_BYTES) EmptyString [] 0 0 0 false false.

(** ** Appending *)

(** The number of bytes that the buffer takes. *)
Definition _addReplyToBuffer (c : output) (s : string) : output * nat :=
  let available := (o_buf_usable_size c - String.length (o_buf c))%nat in
  if (0 <? length (o_reply c))%nat then (c, 0%nat)
  else
    let reply_len := if (available <? String.length s)%nat then available else String.length s in
    (with_buf c (o_buf c +:+ stake reply_len s), reply_len).

(** Copy the part that fits into the last block; the rest of the bytes. *)
Fixpoint fill_tail (l : list reply_node) (s : string) : list reply_node * string :=
  match l with
  | [] => ([], s)
  | [(a, Some tail)] =>
      let avail := (b_size tail - b_used tail)%nat in
      let copy := if (String.length s <=? avail)%nat then String.length s else avail in
      ([(a, Some (mkBlock (b_size tail) (b_buf tail +:+ stake copy s)))], sdrop copy s)
  | [(a, None)] => ([(a, None)], s)
  | n :: l => let '(l, s) := fill_tail l s in (n :: l, s)
  end.

Definition _addReplyProtoToList (c : output) (s : string) : output :=
  let '(l, s) := fill_tail (o_reply c) s in
  match s with
  | EmptyString => with_reply c l (o_reply_bytes c)
  | _ =>
      let len := String.length s in
      let size := if (len <? PROTO_REPLY_CHUNK_BYTES)%nat then PROTO_REPLY_CHUNK_BYTES else len in
      let tail := mkBlock (block_size size) s in
      with_next (with_reply c (l ++ [(o_next c, Some tail)]) (o_reply_bytes c + Z.of_nat (b_size tail)))
        (S (o_next c))
  end.

Definition _addReplyToBufferOrList (c : output) (s : string) : output :=
  if o_close_after_reply c then c
  else
    let '(c, reply_len) := _addReplyToBuffer c s in
    if (reply_len <? String.length s)%nat then _addReplyProtoToList c (sdrop reply_len s) else c.

(** [addReplyProto], [addReply] of an object with text, and [addReplySds]. *)
Definition addReplyProto (c : output) (s : string) : output :=
  if prepareClientToWrite c then _addReplyToBufferOrList c s else c.

(** ** Numbers and strings *)

Definition OBJ_SHARED_HDR_STRLEN (n : Z) : nat := if n <? 10 then 4 else 5.

(** [shared.mbulkhdr] and [shared.bulkhdr]: ["%c%d\r\n"]. *)
Definition shared_hdr (prefix : ascii) (n : Z) : string := String prefix (pretty n +:+ CRLF).

Definition long_long_line (prefix : ascii) (ll : Z) : string :=
  String prefix (default EmptyString (ll2string 127 ll) +:+ CRLF).

Definition _addReplyLongLongSharedHdr (c : output) (ll : Z) (prefix : ascii) : output :=
  if (ll <? OBJ_SHARED_BULKHDR_LEN) && (0 <=? ll)
  then _addReplyToBufferOrList c (stake (OBJ_SHARED_HDR_STRLEN ll) (shared_hdr prefix ll))
  else _addReplyToBufferOrList c (long_long_line prefix ll).

(** The shared headers are for arrays, strings, maps and sets. *)
Definition _addReplyLongLongWithPrefix (c : output) (ll : Z) (prefix : ascii) : output :=
  let opt_hdr := (ll <? OBJ_SHARED_BULKHDR_LEN) && (0 <=? ll) in
  if bool_decide (prefix ∈ ["*"%char; "$"%char; "%"%char; "~"%char]) && opt_hdr
  then _addReplyToBufferOrList c (stake (OBJ_SHARED_HDR_STRLEN ll) (shared_hdr prefix ll))
  else _addReplyToBufferOrList c (long_long_line prefix ll).

Definition addReplyLongLong (c : output) (ll : Z) : output :=
  if ll =? 0 then addReplyProto c (":0" +:+ CRLF)
  else if ll =? 1 then addReplyProto c (":1" +:+ CRLF)
  else if prepareClientToWrite c then _addReplyLongLongWithPrefix c ll ":" else c.

(** [None] is a failed assertion. *)
Definition addReplyArrayLen (c : output) (length : Z) : option output :=
  if 0 <=? length then
    Some (if prepareClientToWrite c then _addReplyLongLongSharedHdr c length "*" else c)
  else None.

Definition addReplySetLen (c : output) (length : Z) : option output :=
  if 0 <=? length then
    Some (if prepareClientToWrite c then _addReplyLongLongWithPrefix c length "*" else c)
  else None.

Definition addReplyNull (c : output) : output := addReplyProto c ("$-1" +:+ CRLF).

Definition addReplyBulkLen (c : output) (len : Z) : output :=
  if prepareClientToWrite c then _addReplyLongLongSharedHdr c len "$" else c.

(** [addReplyBulk] of an object with the text [s]. *)
Definition addReplyBulk (c : output) (s : string) : output :=
  addReplyProto (addReplyProto (addReplyBulkLen c (Z.of_nat (String.length s))) s) CRLF.

Definition addReplyBulkCBuffer (c : output) (s : string) : output :=
  if prepareClientToWrite c then
    _addReplyToBufferOrList (_addReplyToBufferOrList
      (_addReplyLongLongSharedHdr c (Z.of_nat (String.length s)) "$") s) CRLF
  else c.

Definition addReplyBulkLongLong (c : output) (ll : Z) : output :=
  addReplyBulkCBuffer c (default EmptyString (ll2string 64 ll)).

Definition addReplyErrorLength (c : output) (s : string) : output :=
  let c := match s with String "-"%char _ => c | _ => addReplyProto c "-ERR " end in
  addReplyProto (addReplyProto c s) CRLF.

Definition addReplyStatusLength (c : output) (s : string) : output :=
  addReplyProto (addReplyProto (addReplyProto c "+") s) CRLF.

(** ** Lengths that are filled in later *)

(** Give back the unused end of the last block; the change of its size. *)
Fixpoint trim_tail (l : list reply_node) : list reply_node * Z :=
  match l with
  | [] => ([], 0)
  | [(a, Some tail)] =>
      if (b_size tail / 4 <? b_size tail - b_used tail)%nat && (b_used tail <? PROTO_REPLY_CHUNK_BYTES)%nat
      then ([(a, Some (mkBlock (block_size (b_used tail)) (b_buf tail)))],
            Z.of_nat (block_size (b_used tail)) - Z.of_nat (b_size tail))
      else (l, 0)
  | [(a, None)] => (l, 0)
  | n :: l => let '(l, d) := trim_tail l in (n :: l, d)
  end.

Definition trimReplyUnusedTailSpace (c : output) : output :=
  let '(l, d) := trim_tail (o_reply c) in with_reply c l (o_reply_bytes c + d).

(** The address of the node, [None] for NULL. *)
Definition addReplyDeferredLen (c : output) : output * option nat :=
  if negb (prepareClientToWrite c) then (c, None)
  else
    let c := trimReplyUnusedTailSpace c in
    (with_next (with_reply c (o_reply c ++ [(o_next c, None)]) (o_reply_bytes c)) (S (o_next c)),
     Some (o_next c)).

(** The nodes before and after the one at [a], and its value. *)
Fixpoint find_node (a : nat) (l : list reply_node) :
    option (list reply_node * option clientReplyBlock * list reply_node) :=
  match l with
  | [] => None
  | n :: l =>
      if decide (n.1 = a) then Some ([], n.2, l)
      else '(before, v, after) ← find_node a l; Some (n :: before, v, after)
  end.

(** The last of the nodes is a block with room. *)
Definition has_room (l : list reply_node) : bool :=
  match last l with Some (_, Some prev) => (0 <? b_size prev - b_used prev)%nat | _ => false end.

(** [None] is a failed assertion or an invalid pointer. *)
Definition setDeferredReply (c : output) (node : option nat) (s : string) : option output :=
  match node with
  | None => Some c
  | Some a =>
      match find_node a (o_reply c) with
      | Some (before, None, after) =>
          let '(before', s') := if has_room before then fill_tail before s else (before, s) in
          if has_room before && bool_decide (s' = EmptyString) then
            Some (with_reply c (before' ++ after) (o_reply_bytes c))
          else
            let length := String.length s' in
            let fresh_block :=
              let buf := mkBlock (block_size length) s' in
              with_reply c (before' ++ (a, Some buf) :: after) (o_reply_bytes c + Z.of_nat (b_size buf)) in
            match after with
            | (b, Some next) :: after' =>
                if (length <=? b_size next - b_used next)%nat && (b_used next <? PROTO_REPLY_CHUNK_BYTES * 4)%nat
                then Some (with_reply c (before' ++ (b, Some (mkBlock (b_size next) (s' +:+ b_buf next))) :: after')
                       (o_reply_bytes c))
                else Some fresh_block
            | _ => Some fresh_block
            end
      | _ => None
      end
  end.

Definition setDeferredArrayLen (c : output) (node : option nat) (length : Z) : option output :=
  if negb (0 <=? length) then None
  else
    match node with
    | None => Some c
    | Some _ =>
        if length <? OBJ_SHARED_BULKHDR_LEN
        then setDeferredReply c node (stake (OBJ_SHARED_HDR_STRLEN length) (shared_hdr "*" length))
        else setDeferredReply c node (String "*" (pretty length +:+ CRLF))
    end.

(** ** Writing to the socket *)

(** What the socket does with a buffer: it takes up to [n] bytes, at least one,
    would block, or fails. *)
Inductive write_result : Set := Wrote (n : nat) | WouldBlock | WriteFailed.

Definition taken (n : nat) (s : string) : nat := Nat.min (Nat.max 1 n) (String.length s).

Variable iovmax : nat.

(** Collect the blocks of one system call, dropping empty ones: the list, the
    number of buffers, their bytes, and the size of the blocks dropped. *)
Fixpoint gather (l : list reply_node) (iovcnt : nat) (bytes : string) (offset : nat) :
    option (list reply_node * nat * string * Z) :=
  match l with
  | [] => Some ([], iovcnt, bytes, 0)
  | (a, o) :: l' =>
      if negb ((iovcnt <? iovmax)%nat && (String.length bytes <? NET_MAX_WRITES_PER_EVENT)%nat)
      then Some (l, iovcnt, bytes, 0)
      else
        match o with
        | None => None
        | Some o =>
            if (b_used o =? 0)%nat then
              '(l'', n, b, d) ← gather l' iovcnt bytes 0; Some (l'', n, b, d + Z.of_nat (b_size o))
            else
              '(l'', n, b, d) ← gather l' (S iovcnt) (bytes +:+ sdrop offset (b_buf o)) 0;
              Some ((a, Some o) :: l'', n, b, d)
        end
  end.

(** Release the blocks that were sent: the list, [sentlen], and the size of the
    blocks released. *)
Fixpoint release (l : list reply_node) (remaining sentlen : nat) : option (list reply_node * nat * Z) :=
  match remaining with
  | O => Some (l, sentlen, 0)
  | _ =>
      match l with
      | (a, Some o) :: l' =>
          if (remaining <? b_used o - sentlen)%nat then Some (l, (sentlen + remaining)%nat, 0)
          else
            '(l'', n, d) ← release l' (remaining - (b_used o - sentlen)) 0;
            Some (l'', n, d + Z.of_nat (b_size o))
      | _ => None
      end
  end.

(** The results of the functions that write: [nwritten] and the bytes that left,
    or [C_ERR] with whether the connection has failed. *)
Inductive written : Type := Left_ (bytes : string) | Err (failed : bool).

Definition _writevToClient (c : output) (w : write_result) : option (output * written) :=
  let '(iovcnt, bytes) :=
    if (0 <? String.length (o_buf c))%nat then (1%nat, sdrop (o_sentlen c) (o_buf c)) else (0%nat, EmptyString) in
  let offset := if (0 <? String.length (o_buf c))%nat then 0%nat else o_sentlen c in
  '(l, iovcnt, bytes, d) ← gather (o_reply c) iovcnt bytes offset;
  let c := with_reply c l (o_reply_bytes c - d) in
  if (iovcnt =? 0)%nat then Some (c, Left_ EmptyString)
  else
    match w with
    | WouldBlock => Some (c, Err false)
    | WriteFailed => Some (c, Err true)
    | Wrote n =>
        let nwritten := taken n bytes in
        let '(c, remaining) :=
          if (0 <? String.length (o_buf c))%nat then
            let buf_len := (String.length (o_buf c) - o_sentlen c)%nat in
            (if (buf_len <=? nwritten)%nat then with_sentlen (with_buf c EmptyString) 0
             else with_sentlen c (o_sentlen c + nwritten), (nwritten - buf_len)%nat)
          else (c, nwritten) in
        '(l, sentlen, d) ← release (o_reply c) remaining (o_sentlen c);
        Some (with_sentlen (with_reply c l (o_reply_bytes c - d)) sentlen, Left_ (stake nwritten bytes))
    end.

Definition _writeToClient (c : output) (w : write_result) : option (output * written) :=
  if (0 <? length (o_reply c))%nat then
    '(c, ret) ← _writevToClient c w;
    match ret with
    | Err _ => Some (c, ret)
    | Left_ _ =>
        if (length (o_reply c) =? 0)%nat && negb (o_reply_bytes c =? 0) then None else Some (c, ret)
    end
  else if (0 <? String.length (o_buf c))%nat then
    match w with
    | WouldBlock => Some (c, Err false)
    | WriteFailed => Some (c, Err true)
    | Wrote n =>
        let bytes := sdrop (o_sentlen c) (o_buf c) in
        let nwritten := taken n bytes in
        let c := with_sentlen c (o_sentlen c + nwritten) in
        Some (if (o_sentlen c =? String.length (o_buf c))%nat then with_sentlen (with_buf c EmptyString) 0 else c,
              Left_ (stake nwritten bytes))
    end
  else Some (c, Left_ EmptyString).

(** The loop of [writeToClient]: the bytes that left and whether the connection
    failed.  When the results of the socket run out it would block. *)
Fixpoint write_rounds (rounds : list write_result) (c : output) (tot : string) : option (output * string * bool) :=
  if negb (clientHasPendingReplies c) then Some (c, tot, false)
  else
    '(c, ret) ← _writeToClient c (match rounds with [] => WouldBlock | w :: _ => w end);
    match ret with
    | Err failed => Some (c, tot, failed)
    | Left_ bytes =>
        let tot := tot +:+ bytes in
        if (NET_MAX_WRITES_PER_EVENT <? String.length tot)%nat then Some (c, tot, false)
        else match rounds with [] => Some (c, tot, false) | _ :: rounds => write_rounds rounds c tot end
    end.

(** The bytes that left the server. *)
Definition writeToClient (c : output) (rounds : list write_result) : option (output * string) :=
  '(c, tot, failed) ← write_rounds rounds c EmptyString;
  if failed : bool then Some (freeClientAsync c, tot)
  else if negb (clientHasPendingReplies c) then
    let c := with_sentlen c 0 in
    Some (if o_close_after_reply c then freeClientAsync c else c, tot)
  else Some (c, tot).
End output.
