(* ===== verification/OutputSpec.v ===== *)
(** * Every reply leaves in order

    The invariant of the output buffers of [Output]; what each function appends;
    a length that is filled in later lands in the place of its node; writing
    sends a prefix of what is pending and keeps the rest.  So however replies
    are built and in whatever portions the socket takes them, the bytes that
    leave are the encodings of the replies in their order. *)

From S2P Require Import Prelude CLib Buffers Hiredis Util Reader ReaderSpec ReaderTree Output.
From Stdlib Require Import Ascii.

(** ** What is pending *)

(** The text of a node, when the node at [a] is going to hold [f a]. *)
Definition text_of (f : nat → string) (n : reply_node) : string :=
  match n.2 with Some b => b_buf b | None => f n.1 end.

Definition texts (f : nat → string) (l : list reply_node) : string := stream (text_of f <$> l).

(** The static buffer and the list, with what has left already. *)
Definition raw (f : nat → string) (c : output) : string := o_buf c +:+ texts f (o_reply c).

Definition pending (f : nat → string) (c : output) : string := sdrop (o_sentlen c) (raw f c).

Definition is_hole (n : reply_node) : bool := match n.2 with None => true | Some _ => false end.

Definition holes (c : output) : list nat := (filter is_hole (o_reply c)).*1.

(** ** The invariant *)

Definition block_ok (n : reply_node) : Prop :=
  match n.2 with Some b => (0 < b_used b ≤ b_size b)%nat | None => True end.

Definition node_size (n : reply_node) : Z := match n.2 with Some b => Z.of_nat (b_size b) | None => 0 end.

Definition space (l : list reply_node) : Z := foldr Z.add 0 (node_size <$> l).

(** The length of the first chunk of a list. *)
Definition first_length (l : list reply_node) : nat :=
  match l with (_, Some b) :: _ => b_used b | _ => 0%nat end.

Definition front (c : output) : nat :=
  match o_buf c with EmptyString => first_length (o_reply c) | s => String.length s end.

Record out_ok (c : output) : Prop := {
  ok_buf : (String.length (o_buf c) ≤ o_buf_usable_size c)%nat;
  ok_blocks : Forall block_ok (o_reply c);
  ok_space : o_reply_bytes c = space (o_reply c);
  ok_nodup : NoDup (o_reply c).*1;
  ok_next : Forall (λ a, (a < o_next c)%nat) (o_reply c).*1;
  ok_sent : (o_sentlen c < Nat.max 1 (front c))%nat;
}.

#[local] Arguments texts : simpl never.
#[local] Arguments space : simpl never.
#[local] Arguments Nat.ltb : simpl never.

Lemma texts_app f l l' : texts f (l ++ l') = texts f l +:+ texts f l'.
Proof. unfold texts. by rewrite fmap_app, stream_app. Qed.

Lemma texts_cons f n l : texts f (n :: l) = text_of f n +:+ texts f l.
Proof. reflexivity. Qed.

Lemma space_app l l' : space (l ++ l') = space l + space l'.
Proof. induction l as [|n l IH]; [done|]. unfold space in *. cbn in *. lia. Qed.

Lemma space_cons n l : space (n :: l) = node_size n + space l.
Proof. reflexivity. Qed.

Lemma front_raw f c : (front c ≤ String.length (raw f c))%nat.
Proof.
  unfold front, raw. rewrite string_length_app. destruct (o_buf c); [|lia].
  destruct (o_reply c) as [|[a [b|]] l]; cbn; [lia| |lia]. rewrite texts_cons, string_length_app.
  unfold text_of, b_used. cbn. lia.
Qed.

Lemma sent_raw f c : out_ok c → (o_sentlen c ≤ String.length (raw f c))%nat.
Proof. intros H. pose proof (ok_sent _ H). pose proof (front_raw f c). lia. Qed.

(** ** The end of the list *)

Lemma fill_tail_cons x n l s :
  fill_tail (x :: n :: l) s = let '(l', s') := fill_tail (n :: l) s in (x :: l', s').
Proof. by destruct x as [a [b|]]. Qed.

Lemma fill_tail_spec l s : ∀ l' s', fill_tail l s = (l', s') → Forall block_ok l →
  Forall block_ok l' ∧ l'.*1 = l.*1 ∧ filter is_hole l' = filter is_hole l ∧ space l' = space l ∧
  (∀ f, texts f l' +:+ s' = texts f l +:+ s) ∧ (first_length l ≤ first_length l')%nat ∧
  (String.length s' ≤ String.length s)%nat.
Proof.
  induction l as [|[a b] l IH]; intros l' s' H Hok; [by inversion H|].
  inversion Hok as [|? ? Hb Hl]; subst. destruct l as [|n l].
  - destruct b as [b|]; cbn in H; inversion H; subst; clear H; [|by split_and!].
    set (k := if (_ <=? _)%nat then _ else _).
    assert ((k ≤ String.length s)%nat ∧ (k ≤ b_size b - b_used b)%nat) as [Hk Hk'].
    { subst k. destruct (Nat.leb_spec (String.length s) (b_size b - b_used b)); lia. }
    assert (String.length (stake k s) = k) as Hl'.
    { rewrite stake_length. lia. }
    unfold block_ok, b_used in *. cbn in *. split_and!; try done.
    + constructor; [|done]. cbn. rewrite string_length_app. lia.
    + intros f. unfold texts, text_of. cbn. by rewrite !string_app_nil_r, <- string_app_assoc, stake_sdrop.
    + unfold b_used. cbn. rewrite string_length_app. lia.
    + rewrite sdrop_length. lia.
  - rewrite fill_tail_cons in H. destruct (fill_tail (n :: l) s) as [l1 s1] eqn:E. inversion H; subst.
    destruct (IH l1 s' eq_refl Hl) as (H1 & H2 & H3 & H4 & H5 & H6 & H7). split_and!; try done.
    + by constructor.
    + cbn in *. by rewrite H2.
    + rewrite !filter_cons, H3. done.
    + rewrite !space_cons in *. lia.
    + intros f. rewrite !(texts_cons _ (a, b)), <- !string_app_assoc. f_equal. apply H5.
Qed.

Section appending.
Variable usable : nat → nat.
Hypothesis usable_enough : ∀ n, (n ≤ usable n)%nat.
#[local] Set Default Proof Using "Type".

Lemma block_size_enough n : (n ≤ block_size usable n)%nat.
Proof using usable_enough. unfold block_size. pose proof (usable_enough (n + 16)). lia. Qed.

Lemma trim_tail_cons x n l :
  trim_tail usable (x :: n :: l) = let '(l', d) := trim_tail usable (n :: l) in (x :: l', d).
Proof. by destruct x as [a [b|]]. Qed.

Lemma trim_tail_spec l : ∀ l' d, trim_tail usable l = (l', d) → Forall block_ok l →
  Forall block_ok l' ∧ l'.*1 = l.*1 ∧ filter is_hole l' = filter is_hole l ∧ space l' = space l + d ∧
  (∀ f, texts f l' = texts f l) ∧ first_length l' = first_length l.
Proof using usable_enough.
  induction l as [|[a b] l IH]; intros l' d H Hok; [by inversion H|].
  inversion Hok as [|? ? Hb Hl]; subst. destruct l as [|n l].
  - destruct b as [b|]; cbn in H; [|by inversion H].
    destruct (_ && _); inversion H; subst; clear H; [|split_and!; try done; lia].
    split_and!; try done; [|unfold space; cbn; lia].
    constructor; [|done]. unfold block_ok, b_used in *. cbn in *. split; [lia|]. apply block_size_enough.
  - rewrite trim_tail_cons in H. destruct (trim_tail usable (n :: l)) as [l1 d1] eqn:E. inversion H; subst.
    destruct (IH l1 d eq_refl Hl) as (H1 & H2 & H3 & H4 & H5 & H6). split_and!; try done.
    + by constructor.
    + cbn in *. by rewrite H2.
    + rewrite !filter_cons, H3. done.
    + rewrite !space_cons in *. lia.
    + intros f. rewrite !(texts_cons _ (a, b)), H5. done.
Qed.

(** ** Appending *)

(** [c'] is [c] with [s] appended. *)
Record appends (s : string) (c c' : output) : Prop := {
  app_ok : out_ok c';
  app_raw : ∀ f, raw f c' = raw f c +:+ s;
  app_sent : o_sentlen c' = o_sentlen c;
  app_holes : holes c' = holes c;
  app_next : (o_next c ≤ o_next c')%nat;
  app_after : o_close_after_reply c' = o_close_after_reply c;
  app_asap : o_close_asap c' = o_close_asap c;
}.

(** The client takes replies. *)
Definition open (c : output) : Prop := o_close_after_reply c = false ∧ o_close_asap c = false.

Lemma appends_refl c : out_ok c → appends EmptyString c c.
Proof. split; try done. intros f. by rewrite string_app_nil_r. Qed.

Lemma appends_trans s s' c c' c'' : appends s c c' → appends s' c' c'' → appends (s +:+ s') c c''.
Proof.
  intros [] []. split; try done; try congruence; try lia. intros f. by rewrite app_raw1, app_raw0, string_app_assoc.
Qed.

Lemma appends_open s c c' : appends s c c' → open c → open c'.
Proof. intros [] []. split; congruence. Qed.

Lemma appends_pending f s c c' : out_ok c → appends s c c' → pending f c' = pending f c +:+ s.
Proof. intros Hc []. unfold pending. rewrite app_sent0, app_raw0. by apply sdrop_app_le, sent_raw. Qed.

Lemma addToBuffer_appends c s c' n : out_ok c → _addReplyToBuffer c s = (c', n) →
  (n ≤ String.length s)%nat ∧ appends (stake n s) c c'.
Proof.
  intros [] H. unfold _addReplyToBuffer in H. destruct (o_reply c) as [|x l] eqn:Hl; cbn in H;
    [change (0 <? 0)%nat with false in H|change (0 <? S (length l))%nat with true in H]; inversion H; subst; clear H.
  - set (k := if (_ <? _)%nat then _ else _).
    assert ((k ≤ String.length s)%nat ∧ (k ≤ o_buf_usable_size c - String.length (o_buf c))%nat) as [Hk Hk'].
    { subst k. destruct (Nat.ltb_spec (o_buf_usable_size c - String.length (o_buf c)) (String.length s)); lia. }
    assert (String.length (stake k s) = k) as Hl'.
    { rewrite stake_length. lia. }
    split; [done|]. split; try done.
    + split; cbn; try done; try (by rewrite Hl).
      * rewrite string_length_app. lia.
      * unfold front in *. cbn. rewrite Hl in *. cbn in *. destruct (o_buf c) as [|x b]; cbn in *; [|rewrite string_length_app; lia].
        destruct (stake k s); cbn; lia.
    + intros f. unfold raw. cbn. rewrite Hl. cbn. by rewrite !string_app_nil_r.
  - split; [lia|]. split; try done; [by split; rewrite ?Hl|].
    intros f. by destruct s; cbn; rewrite string_app_nil_r.
Qed.

Lemma holes_filter c l n : filter is_hole l = filter is_hole (o_reply c) → holes (with_reply c l n) = holes c.
Proof. intros H. unfold holes. cbn. by rewrite H. Qed.

(** The list may be replaced by one with more bytes in front and no new nodes. *)
Lemma with_reply_ok c l : out_ok c → Forall block_ok l → l.*1 `sublist_of` (o_reply c).*1 →
  (first_length (o_reply c) ≤ first_length l)%nat → out_ok (with_reply c l (space l)).
Proof.
  intros [] H1 H2 H3. split; cbn; try done; [by eapply sublist_NoDup|rewrite Forall_forall in *; intros a Ha; apply ok_next0; by eapply elem_of_sublist|]. unfold front in *. cbn. revert ok_sent0. destruct (o_buf c); cbn; lia.
Qed.

(** A node may be added at the end. *)
Lemma add_node_ok c v : out_ok c → block_ok (o_next c, v) →
  out_ok (with_next (with_reply c (o_reply c ++ [(o_next c, v)]) (o_reply_bytes c + node_size (o_next c, v))) (S (o_next c))).
Proof.
  intros [] Hv. split; cbn; try done.
  - by apply Forall_app_2; [|apply Forall_singleton].
  - rewrite space_app, ok_space0. unfold space at 3. cbn. lia.
  - rewrite fmap_app, NoDup_app. cbn. split_and!; [done| |apply NoDup_singleton].
    intros a Ha ->%list_elem_of_singleton. rewrite Forall_forall in ok_next0. apply ok_next0 in Ha. lia.
  - rewrite fmap_app, Forall_app. split; [eapply Forall_impl; [done|cbn; lia]|]. cbn. apply Forall_singleton. lia.
  - unfold front in *. cbn. destruct (o_buf c); [|done].
    destruct (o_reply c) as [|[a [b|]] l], v; cbn in *; lia.
Qed.

Lemma addToList_appends c s : out_ok c → s ≠ EmptyString → appends s c (_addReplyProtoToList usable c s).
Proof using usable_enough.
  intros Hc Hs. unfold _addReplyProtoToList. destruct (fill_tail (o_reply c) s) as [l s'] eqn:E.
  destruct (fill_tail_spec _ _ _ _ E (ok_blocks _ Hc)) as (H1 & H2 & H3 & H4 & H5 & H6 & H7).
  pose proof (with_reply_ok c l Hc H1 ltac:(by rewrite H2) H6) as Hl. rewrite (ok_space _ Hc), <- H4. destruct s' as [|x q].
  { split; try done; [|by apply holes_filter]. intros f. unfold raw. cbn.
    by rewrite <- string_app_assoc, <- H5, string_app_nil_r. }
  set (size := if (_ <? _)%nat then _ else _).
  assert (String.length (String x q) ≤ block_size usable size)%nat as Hsize.
  { pose proof (block_size_enough size). subst size.
    destruct (Nat.ltb_spec (String.length (String x q)) PROTO_REPLY_CHUNK_BYTES); lia. }
  split; try done; [| | |cbn; lia].
  - apply (add_node_ok _ (Some (mkBlock (block_size usable size) (String x q))) Hl). unfold block_ok, b_used. cbn in *. lia.
  - intros f. unfold raw. cbn [o_buf o_reply with_next with_reply]. rewrite texts_app, <- string_app_assoc, <- H5.
    unfold texts at 2. cbn [fmap list_fmap stream foldr text_of snd b_buf]. by rewrite string_app_nil_r.
  - unfold holes. cbn. by rewrite filter_app, H3, app_nil_r.
Qed.

Lemma addProto_appends c s : out_ok c → open c → appends s c (_addReplyToBufferOrList usable c s).
Proof using usable_enough.
  intros Hc [Ha _]. unfold _addReplyToBufferOrList. rewrite Ha.
  destruct (_addReplyToBuffer c s) as [c' n] eqn:E. destruct (addToBuffer_appends c s c' n Hc E) as [Hn Hb].
  destruct (Nat.ltb_spec n (String.length s)).
  - rewrite <- (stake_sdrop n s) at 1. eapply appends_trans; [done|]. apply addToList_appends; [apply Hb|].
    intros Hs. apply (f_equal String.length) in Hs. rewrite sdrop_length in Hs. cbn in Hs. lia.
  - by rewrite stake_all in Hb by lia.
Qed.

Lemma addReplyProto_appends c s : out_ok c → open c → appends s c (addReplyProto usable c s).
Proof using usable_enough.
  intros Hc Ho. unfold addReplyProto, prepareClientToWrite. rewrite (proj2 Ho). by apply addProto_appends.
Qed.

(** ** Numbers and strings *)

Lemma shared_header p n : 0 ≤ n < OBJ_SHARED_BULKHDR_LEN →
  stake (OBJ_SHARED_HDR_STRLEN n) (shared_hdr p n) = line p (pretty n).
Proof.
  intros Hn. apply stake_all. cbn [shared_hdr String.length].
  assert (Forall (λ n, (S (String.length (pretty n +:+ CRLF)) <=? OBJ_SHARED_HDR_STRLEN n)%nat = true)
    (seqZ 0 32)) as H by (by apply Forall_forall, list.Forall_forall; vm_compute; repeat constructor).
  rewrite Forall_forall in H. apply Nat.leb_le, H, elem_of_seqZ. unfold OBJ_SHARED_BULKHDR_LEN in Hn. lia.
Qed.

Lemma long_long_line_eq p n : in_llong n → long_long_line p n = line p (pretty n).
Proof. intros H. unfold long_long_line. by rewrite ll2string_pretty by done. Qed.

Lemma sharedHdr_appends c n p : out_ok c → open c → in_llong n →
  appends (line p (pretty n)) c (_addReplyLongLongSharedHdr usable c n p).
Proof using usable_enough.
  intros Hc Ho Hn. unfold _addReplyLongLongSharedHdr.
  destruct (Z.ltb_spec n OBJ_SHARED_BULKHDR_LEN), (Z.leb_spec 0 n); cbn [andb];
    rewrite ?shared_header, ?long_long_line_eq by done; by apply addProto_appends.
Qed.

Lemma withPrefix_appends c n p : out_ok c → open c → in_llong n →
  appends (line p (pretty n)) c (_addReplyLongLongWithPrefix usable c n p).
Proof using usable_enough.
  intros Hc Ho Hn. unfold _addReplyLongLongWithPrefix. case_bool_decide;
  destruct (Z.ltb_spec n OBJ_SHARED_BULKHDR_LEN), (Z.leb_spec 0 n); cbn [andb];
    rewrite ?shared_header, ?long_long_line_eq by done; by apply addProto_appends.
Qed.

(** ** A length in its place *)

Lemma deferred_len c : out_ok c → open c →
  ∃ c1, addReplyDeferredLen usable c = (c1, Some (o_next c)) ∧ out_ok c1 ∧ open c1 ∧
    o_sentlen c1 = o_sentlen c ∧ o_next c1 = S (o_next c) ∧ holes c1 = holes c ++ [o_next c] ∧
    ∀ f, raw f c1 = raw f c +:+ f (o_next c).
Proof using usable_enough.
  intros Hc Ho. unfold addReplyDeferredLen, trimReplyUnusedTailSpace, prepareClientToWrite. rewrite (proj2 Ho). cbn [negb].
  destruct (trim_tail usable (o_reply c)) as [l d] eqn:E.
  destruct (trim_tail_spec _ _ _ E (ok_blocks _ Hc)) as (H1 & H2 & H3 & H4 & H5 & H6).
  pose proof (with_reply_ok c l Hc H1 ltac:(by rewrite H2) ltac:(lia)) as Hl. rewrite (ok_space _ Hc), <- H4.
  eexists. split; [reflexivity|]. split_and!; try done.
  - pose proof (add_node_ok _ None Hl I) as H. by rewrite Z.add_0_r in H.
  - unfold holes. cbn. by rewrite filter_app, fmap_app, H3.
  - intros f. unfold raw. cbn [o_buf o_reply with_next with_reply]. rewrite texts_app, H5, string_app_assoc.
    unfold texts at 2. cbn. by rewrite string_app_nil_r.
Qed.

Lemma find_node_hole a l : a ∈ (filter is_hole l).*1 → NoDup l.*1 →
  ∃ before after, find_node a l = Some (before, None, after) ∧ l = before ++ (a, None) :: after.
Proof.
  induction l as [|[b v] l IH]; intros Ha Hn; [by apply elem_of_nil in Ha|]. cbn [find_node fst snd].
  apply NoDup_cons in Hn as [Hb Hn]. destruct (decide (b = a)) as [->|Hne].
  - exists [], l. destruct v as [v|]; [|done]. rewrite filter_cons_False in Ha by (cbn; auto). destruct Hb.
    apply list_elem_of_fmap in Ha as (x & -> & Hx). apply list_elem_of_filter in Hx as [_ Hx]. apply list_elem_of_fmap. by exists x.
  - destruct IH as (before & after & -> & ->); [|done|].
    { destruct v; [by rewrite filter_cons_False in Ha by (cbn; auto)|].
      rewrite filter_cons_True in Ha by done. cbn in Ha. by apply elem_of_cons in Ha as [->|Ha]. }
    by exists ((b, v) :: before), after.
Qed.

Definition plug (a : nat) (s : string) (f : nat → string) (b : nat) : string := if decide (b = a) then s else f b.

Lemma texts_plug a s f l : a ∉ l.*1 → texts (plug a s f) l = texts f l.
Proof.
  induction l as [|[b v] l IH]; [done|]. intros Ha. apply not_elem_of_cons in Ha as [Hb Ha].
  rewrite !texts_cons, IH by done. f_equal. unfold text_of, plug. cbn in *. destruct v; [done|]. by rewrite decide_False.
Qed.

(** What the node before the hole takes, and what is left. *)
Lemma fill_before l s : Forall block_ok l →
  ∃ l' s', (if has_room l then fill_tail l s else (l, s)) = (l', s') ∧
    Forall block_ok l' ∧ l'.*1 = l.*1 ∧ filter is_hole l' = filter is_hole l ∧ space l' = space l ∧
    (∀ f, texts f l' +:+ s' = texts f l +:+ s) ∧ (first_length l ≤ first_length l')%nat ∧
    (has_room l = false → s' = s).
Proof.
  intros H. destruct (has_room l); [|by exists l, s].
  destruct (fill_tail l s) as [l' s'] eqn:E. apply fill_tail_spec in E; [|done]. exists l', s'. naive_solver.
Qed.

(** [c'] is [c] with [s] in the place of the node at [a]. *)
Record plugged (a : nat) (s : string) (c c' : output) : Prop := {
  plug_ok : out_ok c';
  plug_raw : ∀ f, raw f c' = raw (plug a s f) c;
  plug_sent : o_sentlen c' = o_sentlen c;
  plug_holes : holes c' = filter (λ b, b ≠ a) (holes c);
  plug_next : o_next c' = o_next c;
  plug_after : o_close_after_reply c' = o_close_after_reply c;
  plug_asap : o_close_asap c' = o_close_asap c;
}.

Lemma first_length_same l l' m m' m'' : l'.*1 = l.*1 → (first_length l ≤ first_length l')%nat →
  (first_length (l ++ (m, None) :: m') ≤ first_length (l' ++ m''))%nat.
Proof.
  destruct l as [|n l]; cbn; [lia|]. destruct l' as [|[a [v|]] l']; cbn; [done|lia|].
  destruct n as [b [w|]]; cbn; lia.
Qed.

Lemma filter_other (a : nat) (l : list nat) : a ∉ l → filter (λ b, b ≠ a) l = l.
Proof.
  induction l as [|b l IH]; [done|]. intros [Hb Hl]%not_elem_of_cons. by rewrite filter_cons_True, IH by auto.
Qed.

Lemma filter_plug (a : nat) (l l' : list nat) : a ∉ l → a ∉ l' → filter (λ b, b ≠ a) (l ++ a :: l') = l ++ l'.
Proof.
  intros H H'. rewrite filter_app, filter_cons_False by auto.
  by rewrite !filter_other.
Qed.

(** The outcomes have the same shape. *)
Lemma plugged_shape a s c before after l :
  out_ok c → o_reply c = before ++ (a, None) :: after →
  Forall block_ok l → l.*1 `sublist_of` (o_reply c).*1 →
  (first_length (o_reply c) ≤ first_length l)%nat →
  filter is_hole l = filter is_hole before ++ filter is_hole after →
  (∀ f, texts f l = texts f before +:+ s +:+ texts f after) →
  plugged a s c (with_reply c l (space l)).
Proof.
  intros Hc Hl H1 H2 H3 H4 H5. pose proof (ok_nodup _ Hc) as Hn. rewrite Hl in Hn.
  rewrite fmap_app, fmap_cons in Hn. cbn [fst] in Hn. apply NoDup_app in Hn as (_ & Hb & [Ha _]%NoDup_cons).
  assert (a ∉ before.*1) as Hb' by (intros Hx; apply (Hb _ Hx); by left).
  split; try done; [by apply with_reply_ok| |].
  - intros f. unfold raw. cbn. rewrite H5, Hl, texts_app, texts_cons, !texts_plug by done.
    unfold text_of, plug. cbn. by rewrite decide_True.
  - unfold holes. cbn [o_reply with_reply]. rewrite H4, Hl, filter_app, filter_cons_True by done.
    rewrite !fmap_app, fmap_cons, filter_plug; [done| |]; intros Hx;
      [apply Hb'|apply Ha]; apply list_elem_of_fmap in Hx as (x & E & Hx); apply list_elem_of_filter in Hx as [_ Hx];
      apply list_elem_of_fmap; by exists x.
Qed.

(** The node before the hole has taken a part of [s], and [m] holds the rest. *)
Lemma plugged_part a s s' c before before' after m :
  out_ok c → o_reply c = before ++ (a, None) :: after →
  Forall block_ok before' → before'.*1 = before.*1 → filter is_hole before' = filter is_hole before →
  (∀ f, texts f before' +:+ s' = texts f before +:+ s) → (first_length before ≤ first_length before')%nat →
  Forall block_ok m → m.*1 `sublist_of` a :: after.*1 → filter is_hole m = filter is_hole after →
  (∀ f, texts f m = s' +:+ texts f after) →
  plugged a s c (with_reply c (before' ++ m) (space (before' ++ m))).
Proof.
  intros Hc Hl H1 H2 H3 H5 H6 M1 M2 M3 M5. apply (plugged_shape a s c before after); try done.
  - by apply Forall_app.
  - rewrite Hl, !fmap_app, H2. by apply sublist_app.
  - rewrite Hl. by apply first_length_same.
  - by rewrite filter_app, H3, M3.
  - intros f. by rewrite texts_app, M5, !string_app_assoc, <- H5.
Qed.

Lemma set_deferred c a s : out_ok c → a ∈ holes c → s ≠ EmptyString →
  ∃ c', setDeferredReply usable c (Some a) s = Some c' ∧ plugged a s c c'.
Proof using usable_enough.
  intros Hc Ha Hs. destruct (find_node_hole _ _ Ha (ok_nodup _ Hc)) as (before & after & Hf & Hl).
  cbn [setDeferredReply]. rewrite Hf. pose proof (ok_blocks _ Hc) as Hb. rewrite Hl in Hb.
  apply Forall_app in Hb as [Hb [_ Hb']%Forall_cons].
  destruct (fill_before before s Hb) as (before' & s' & -> & H1 & H2 & H3 & H4 & H5 & H6 & H7).
  assert (o_reply_bytes c = space before' + space after) as ->.
  { rewrite (ok_space _ Hc), Hl, space_app, space_cons, H4. cbn. lia. }
  destruct (has_room before && _) eqn:Er.
  { apply andb_true_iff in Er as [_ ->%bool_decide_eq_true]. eexists. split; [done|].
    rewrite <- space_app. eapply plugged_part; try done. by apply sublist_cons. }
  assert (0 < String.length s')%nat as Hs'.
  { destruct s' as [|x q]; [|cbn; lia]. apply andb_false_iff in Er as [Er|Er]; [|done]. by rewrite <- H7 in Hs. }
  set (fresh := with_reply c (before' ++ (a, Some _) :: after) _).
  assert (plugged a s c fresh) as Hfresh.
  { subst fresh. pose proof (block_size_enough (String.length s')). cbn [b_size].
    replace (space before' + space after + _) with
      (space (before' ++ (a, Some (mkBlock (block_size usable (String.length s')) s')) :: after))
      by (rewrite space_app, space_cons; cbn; lia).
    eapply plugged_part; try done. by constructor. }
  clearbody fresh. destruct after as [|[b [next|]] after]; try by eauto.
  apply Forall_cons in Hb' as [Hn Hb']. destruct (_ && (_ <? _)%nat) eqn:Ef; [|by eauto].
  apply andb_true_iff in Ef as [Ef%Nat.leb_le _]. eexists. split; [done|].
  rewrite space_cons. cbn [node_size snd]. rewrite Z.add_assoc.
  replace (space before' + Z.of_nat (b_size next) + space after) with
    (space (before' ++ (b, Some (mkBlock (b_size next) (s' +:+ b_buf next))) :: after))
    by (rewrite space_app, space_cons; cbn; lia).
  eapply plugged_part; try done.
  - constructor; [|done]. unfold block_ok, b_used in *. cbn in *. rewrite string_length_app. lia.
  - by apply sublist_cons.
  - intros f. rewrite !texts_cons. cbn. by rewrite string_app_assoc.
Qed.

(** ** How commands reply *)

(** The calls by which a command builds its reply: [addReply] of a shared object
    that holds a whole reply, the functions of [Output], and the elements of an
    array after its length or before it is known. *)
Inductive emission : Type :=
| EShared (t : resp)
| EStatus (s : string)
| EError (s : string)
| EInteger (z : Z)
| ENull
| EBulk (s : string)
| EBulkCBuffer (s : string)
| EBulkLongLong (z : Z)
| EArray (l : list emission)
| ESet (l : list emission)
| EDeferred (l : list emission).

Fixpoint emit (e : emission) (c : output) : option output :=
  let emits := fix go (l : list emission) (c : output) : option output :=
    match l with [] => Some c | e :: l => c ← emit e c; go l c end in
  match e with
  | EShared t => Some (addReplyProto usable c (encode t))
  | EStatus s => Some (addReplyStatusLength usable c s)
  | EError s => Some (addReplyErrorLength usable c s)
  | EInteger z => Some (addReplyLongLong usable c z)
  | ENull => Some (addReplyNull usable c)
  | EBulk s => Some (addReplyBulk usable c s)
  | EBulkCBuffer s => Some (addReplyBulkCBuffer usable c s)
  | EBulkLongLong z => Some (addReplyBulkLongLong usable c z)
  | EArray l => c ← addReplyArrayLen usable c (Z.of_nat (length l)); emits l c
  | ESet l => c ← addReplySetLen usable c (Z.of_nat (length l)); emits l c
  | EDeferred l =>
      let '(c, node) := addReplyDeferredLen usable c in
      c ← emits l c; setDeferredArrayLen usable c node (Z.of_nat (length l))
  end.

Fixpoint emits (l : list emission) (c : output) : option output :=
  match l with [] => Some c | e :: l => c ← emit e c; emits l c end.

(** The reply that is built. *)
Fixpoint resp_of (e : emission) : resp :=
  match e with
  | EShared t => t
  | EStatus s => PLine REDIS_REPLY_STATUS s
  | EError s => PLine REDIS_REPLY_ERROR (match s with String "-"%char s => s | _ => "ERR " +:+ s end)
  | EInteger z => PInteger z
  | ENull => PNil NilBulk
  | EBulk s | EBulkCBuffer s => PString s
  | EBulkLongLong z => PString (pretty z)
  | EArray l | ESet l | EDeferred l => PAggregate REDIS_REPLY_ARRAY (resp_of <$> l)
  end.

(** Numbers and lengths have the width of their types. *)
Inductive buildable : emission → Prop :=
| buildable_shared t : buildable (EShared t)
| buildable_status s : buildable (EStatus s)
| buildable_error s : buildable (EError s)
| buildable_integer z : in_llong z → buildable (EInteger z)
| buildable_null : buildable ENull
| buildable_bulk s : in_llong (Z.of_nat (String.length s)) → buildable (EBulk s)
| buildable_buffer s : in_llong (Z.of_nat (String.length s)) → buildable (EBulkCBuffer s)
| buildable_long_long z : in_llong z → buildable (EBulkLongLong z)
| buildable_array l : in_llong (Z.of_nat (length l)) → Forall buildable l → buildable (EArray l)
| buildable_set l : in_llong (Z.of_nat (length l)) → Forall buildable l → buildable (ESet l)
| buildable_deferred l : in_llong (Z.of_nat (length l)) → Forall buildable l → buildable (EDeferred l).

Lemma emission_tree_ind (P : emission → Prop) :
  (∀ t, P (EShared t)) → (∀ s, P (EStatus s)) → (∀ s, P (EError s)) → (∀ z, P (EInteger z)) → P ENull → (∀ s, P (EBulk s)) →
  (∀ s, P (EBulkCBuffer s)) → (∀ z, P (EBulkLongLong z)) → (∀ l, Forall P l → P (EArray l)) →
  (∀ l, Forall P l → P (ESet l)) → (∀ l, Forall P l → P (EDeferred l)) → ∀ e, P e.
Proof.
  intros H0 H1 H2 H3 H4 H5 H6 H7 H8 H9 H10. fix IH 1.
  assert (∀ l, Forall P l) as IHl.
  { fix IHl 1. intros [|e l]; constructor; [apply IH|apply IHl]. }
  intros [| | | | | | | |l|l|l];
    [apply H0|apply H1|apply H2|apply H3|apply H4|apply H5|apply H6|apply H7|apply H8, IHl|apply H9, IHl|apply H10, IHl].
Qed.

Lemma appends_then s s' c c' c'' : open c → appends s c c' →
  (out_ok c' → open c' → appends s' c' c'') → appends (s +:+ s') c c''.
Proof. intros Ho H H'. eapply appends_trans; [done|]. apply H'; [apply H|by eapply appends_open]. Qed.

Lemma setArrayLen_plugs c a n : out_ok c → a ∈ holes c → 0 ≤ n →
  ∃ c', setDeferredArrayLen usable c (Some a) n = Some c' ∧ plugged a (line "*" (pretty n)) c c'.
Proof using usable_enough.
  intros Hc Ha Hn. unfold setDeferredArrayLen. rewrite (proj2 (Z.leb_le 0 n)) by lia. cbn [negb].
  destruct (Z.ltb_spec n OBJ_SHARED_BULKHDR_LEN); [rewrite shared_header by done|]; by apply set_deferred.
Qed.

(** An element list, after a length or before it. *)
Definition emits_well (l : list emission) : Prop := ∀ c, out_ok c → open c →
  ∃ c', emits l c = Some c' ∧ appends (stream (encode ∘ resp_of <$> l)) c c'.

Lemma emits_all l : Forall (λ e, buildable e → ∀ c, out_ok c → open c →
    ∃ c', emit e c = Some c' ∧ appends (encode (resp_of e)) c c') l →
  Forall buildable l → emits_well l.
Proof.
  induction 1 as [|e l He _ IH]; intros Hs c Hc Ho; [by exists c; split; [|apply appends_refl]|].
  apply Forall_cons in Hs as [Hs Hl]. destruct (He Hs c Hc Ho) as (c1 & H1 & A1).
  destruct (IH Hl c1 (app_ok _ _ _ A1) (appends_open _ _ _ A1 Ho)) as (c2 & H2 & A2).
  exists c2. cbn. rewrite H1. split; [done|]. by eapply appends_trans.
Qed.

(** The header first, the elements after it. *)
Lemma array_appends l c c1 : open c → emits_well l → appends (line "*" (pretty (Z.of_nat (length l)))) c c1 →
  ∃ c', emits l c1 = Some c' ∧ appends (encode (PAggregate REDIS_REPLY_ARRAY (resp_of <$> l))) c c'.
Proof.
  intros Ho Hl H. destruct (Hl c1 (app_ok _ _ _ H) (appends_open _ _ _ H Ho)) as (c' & H' & A).
  exists c'. split; [done|]. cbn [encode]. rewrite length_fmap, <- list_fmap_compose. by eapply appends_trans.
Qed.

(** The elements first, the header in its place. *)
Lemma deferred_appends l c : out_ok c → open c → emits_well l →
  ∃ c', emit (EDeferred l) c = Some c' ∧ appends (encode (PAggregate REDIS_REPLY_ARRAY (resp_of <$> l))) c c'.
Proof using usable_enough.
  intros Hc Ho Hl. destruct (deferred_len c Hc Ho) as (c1 & E1 & Hc1 & Ho1 & Hs1 & Hn1 & Hh1 & Hr1).
  destruct (Hl c1 Hc1 Ho1) as (c2 & E2 & A2). destruct A2 as [Ak Ar As Ah An Aa Ab].
  destruct (setArrayLen_plugs c2 (o_next c) (Z.of_nat (length l))) as (c3 & E3 & [Pk Pr Ps Ph Pn Pa Pb]);
    [done|rewrite Ah, Hh1; set_solver|lia|].
  assert (o_next c ∉ (o_reply c).*1) as Hnew.
  { intros Hx. pose proof (ok_next _ Hc) as Hn. rewrite Forall_forall in Hn. apply Hn in Hx. lia. }
  exists c3. split.
  { change (emit (EDeferred l) c) with (let '(c, node) := addReplyDeferredLen usable c in
      c ← emits l c; setDeferredArrayLen usable c node (Z.of_nat (length l))). by rewrite E1, E2. }
  destruct Ho, Ho1. split; try done; try congruence; [| |lia].
  - intros f. rewrite Pr, Ar, Hr1. cbn [encode]. rewrite length_fmap, <- list_fmap_compose. unfold raw at 1.
    rewrite texts_plug by done. unfold plug. rewrite decide_True by done. by rewrite !string_app_assoc.
  - rewrite Ph, Ah, Hh1, filter_plug; [by rewrite app_nil_r| |apply not_elem_of_nil].
    intros Hx. apply Hnew. apply list_elem_of_fmap in Hx as (x & E & Hx). apply list_elem_of_filter in Hx as [_ Hx].
    apply list_elem_of_fmap. by exists x.
Qed.

Lemma bulkLen_appends c s : out_ok c → open c → in_llong (Z.of_nat (String.length s)) →
  appends (line "$" (pretty (Z.of_nat (String.length s)))) c (addReplyBulkLen usable c (Z.of_nat (String.length s))).
Proof using usable_enough.
  intros Hc Ho Hs. unfold addReplyBulkLen, prepareClientToWrite. rewrite (proj2 Ho). by apply sharedHdr_appends.
Qed.

Lemma bulkCBuffer_appends c s : out_ok c → open c → in_llong (Z.of_nat (String.length s)) →
  appends (text "$" s) c (addReplyBulkCBuffer usable c s).
Proof using usable_enough.
  intros Hc Ho Hs. unfold addReplyBulkCBuffer, prepareClientToWrite. rewrite (proj2 Ho). cbn [negb]. unfold text.
  eapply appends_then; [done|by apply sharedHdr_appends|]. intros Hc' Ho'.
  eapply appends_then; [done|by apply addProto_appends|]. intros. by apply addProto_appends.
Qed.

Lemma error_appends c s : out_ok c → open c → appends (encode (resp_of (EError s))) c (addReplyErrorLength usable c s).
Proof using usable_enough.
  intros Hc Ho. unfold addReplyErrorLength.
  assert (∀ t c', out_ok c' → open c' → appends (t +:+ CRLF) c' (addReplyProto usable (addReplyProto usable c' t) CRLF)) as H.
  { intros t c' Hc' Ho'. eapply appends_then; [done|by apply addReplyProto_appends|]. intros. by apply addReplyProto_appends. }
  assert (appends ("-ERR " +:+ s +:+ CRLF) c
    (addReplyProto usable (addReplyProto usable (addReplyProto usable c "-ERR ") s) CRLF)) as H'.
  { eapply appends_then; [done|by apply addReplyProto_appends|]. intros. by apply H. }
  destruct s as [|x s]; [by apply H'|]. destruct (decide (x = "-"%char)) as [->|Hx].
  - cbn [resp_of encode]. by apply (H (String "-" s)).
  - destruct x as [[] [] [] [] [] [] [] []]; first [exact H'|done].
Qed.

Lemma arrayLen_appends c n : out_ok c → open c → in_llong (Z.of_nat n) →
  ∃ c', addReplyArrayLen usable c (Z.of_nat n) = Some c' ∧ appends (line "*" (pretty (Z.of_nat n))) c c'.
Proof using usable_enough.
  intros Hc Ho Hn. unfold addReplyArrayLen, prepareClientToWrite. rewrite (proj2 Ho), (proj2 (Z.leb_le _ _)) by lia.
  eexists. split; [done|]. by apply sharedHdr_appends.
Qed.

Lemma setLen_appends c n : out_ok c → open c → in_llong (Z.of_nat n) →
  ∃ c', addReplySetLen usable c (Z.of_nat n) = Some c' ∧ appends (line "*" (pretty (Z.of_nat n))) c c'.
Proof using usable_enough.
  intros Hc Ho Hn. unfold addReplySetLen, prepareClientToWrite. rewrite (proj2 Ho), (proj2 (Z.leb_le _ _)) by lia.
  eexists. split; [done|]. by apply withPrefix_appends.
Qed.

(** A command that builds a reply appends its bytes. *)
Lemma emit_appends e : buildable e → ∀ c, out_ok c → open c →
  ∃ c', emit e c = Some c' ∧ appends (encode (resp_of e)) c c'.
Proof using usable_enough.
  induction e as [t|s|s|z| |s|s|z|l IH|l IH|l IH] using emission_tree_ind; intros Hs c Hc Ho; inversion Hs; subst.
  - eexists. split; [done|]. by apply addReplyProto_appends.
  - eexists. split; [done|]. unfold addReplyStatusLength.
    change (encode (resp_of (EStatus s))) with ("+" +:+ s +:+ CRLF).
    eapply appends_then; [done|by apply addReplyProto_appends|]. intros.
    eapply appends_then; [done|by apply addReplyProto_appends|]. intros. by apply addReplyProto_appends.
  - eexists. split; [done|]. by apply error_appends.
  - eexists. split; [done|]. unfold addReplyLongLong, prepareClientToWrite. rewrite (proj2 Ho). cbn [negb resp_of encode].
    destruct (Z.eqb_spec z 0) as [->|]; [by apply addReplyProto_appends|].
    destruct (Z.eqb_spec z 1) as [->|]; [by apply addReplyProto_appends|]. by apply withPrefix_appends.
  - eexists. split; [done|]. by apply addReplyProto_appends.
  - eexists. split; [done|]. unfold addReplyBulk. cbn [resp_of encode]. unfold text.
    eapply appends_then; [done|by apply bulkLen_appends|]. intros.
    eapply appends_then; [done|by apply addReplyProto_appends|]. intros. by apply addReplyProto_appends.
  - eexists. split; [done|]. by apply bulkCBuffer_appends.
  - eexists. split; [done|]. unfold addReplyBulkLongLong. rewrite ll2string_pretty by done. cbn [default resp_of encode].
    apply bulkCBuffer_appends; try done. pose proof (pretty_llong_length z ltac:(done)). unfold id. unfold_ints. lia.
  - destruct (arrayLen_appends c (length l)) as (c1 & E1 & A1); try done.
    destruct (array_appends l c c1 Ho (emits_all _ IH ltac:(done)) A1) as (c' & E' & A').
    exists c'. split; [|done]. cbn [emit]. rewrite E1. exact E'.
  - destruct (setLen_appends c (length l)) as (c1 & E1 & A1); try done.
    destruct (array_appends l c c1 Ho (emits_all _ IH ltac:(done)) A1) as (c' & E' & A').
    exists c'. split; [|done]. cbn [emit]. rewrite E1. exact E'.
  - apply deferred_appends; try done. by apply emits_all.
Qed.

(** A client that is being closed takes nothing. *)
Lemma emit_closed e c : o_close_asap c = true → emit e c = Some c.
Proof.
  intros Hc. assert (prepareClientToWrite c = false) as Hp by (unfold prepareClientToWrite; by rewrite Hc).
  assert (∀ s, addReplyProto usable c s = c) as Ha by (intros s; unfold addReplyProto; by rewrite Hp).
  assert (∀ n, (0 <=? Z.of_nat n) = true) as Hn by (intros n; apply Z.leb_le; lia).
  assert (∀ l, Forall (λ e, emit e c = Some c) l → emits l c = Some c) as Hl.
  { induction 1 as [|e' l He _ IH]; [done|]. cbn. by rewrite He. }
  induction e as [t|s|s|z| |s|s|z|l IH|l IH|l IH] using emission_tree_ind; cbn [emit];
    unfold addReplyStatusLength, addReplyErrorLength, addReplyLongLong, addReplyNull, addReplyBulk, addReplyBulkLongLong,
      addReplyBulkCBuffer, addReplyBulkLen, addReplyArrayLen, addReplySetLen, addReplyDeferredLen; rewrite ?Hp, ?Hn; cbn [negb].
  - by rewrite Ha.
  - by rewrite !Ha.
  - rewrite !Ha. destruct s as [|[[] [] [] [] [] [] [] []] s]; by rewrite ?Ha.
  - by rewrite !Ha; repeat case_match.
  - by rewrite Ha.
  - by rewrite !Ha.
  - done.
  - done.
  - by apply Hl.
  - by apply Hl.
  - change (emits l c ≫= (λ c, setDeferredArrayLen usable c None (Z.of_nat (length l))) = Some c). rewrite Hl by done.
    unfold setDeferredArrayLen. cbn. by rewrite Hn.
Qed.
End appending.

(** ** Writing *)

Section writing.
Variable iovmax : nat.
#[local] Set Default Proof Using "Type".

(** No length is missing. *)
Definition solid (l : list reply_node) : Prop := Forall (λ n, is_hole n = false) l.

Lemma solid_holes c : holes c = [] ↔ solid (o_reply c).
Proof.
  unfold holes, solid. induction (o_reply c) as [|[a [b|]] l IH]; [done| |].
  - rewrite filter_cons_False, Forall_cons by (cbn; auto). naive_solver.
  - rewrite filter_cons_True, Forall_cons by done. naive_solver.
Qed.

(** The buffers of one system call hold a prefix of the list, and at least one
    byte. *)
Lemma gather_spec l : Forall block_ok l → solid l → ∀ iovcnt bytes offset,
  (offset < Nat.max 1 (first_length l))%nat →
  ∃ n part, gather iovmax l iovcnt bytes offset = Some (l, n, bytes +:+ part, 0) ∧ (iovcnt ≤ n)%nat ∧
    (∀ f, ∃ rest, sdrop offset (texts f l) = part +:+ rest) ∧
    (l ≠ [] → (iovcnt < iovmax)%nat → (String.length bytes < NET_MAX_WRITES_PER_EVENT)%nat →
      (iovcnt < n)%nat ∧ (0 < String.length part)%nat).
Proof.
  induction l as [|[a v] l IH]; intros Hb Hs iovcnt bytes offset Ho.
  { exists iovcnt, EmptyString. cbn. rewrite string_app_nil_r. split_and!; try done. intros f. by eexists. }
  apply Forall_cons in Hb as [Hb Hbl], Hs as [Hs Hsl]. destruct v as [o|]; [|done].
  cbn [gather]. destruct (_ && _) eqn:E; cbn [negb].
  - unfold block_ok, b_used in Hb. cbn in Hb, Ho. unfold b_used in *. destruct (Nat.eqb_spec (String.length (b_buf o)) 0); [lia|].
    destruct (IH Hbl Hsl (S iovcnt) (bytes +:+ sdrop offset (b_buf o)) 0%nat ltac:(lia)) as (n' & part & -> & Hn & Hp & _).
    exists n', (sdrop offset (b_buf o) +:+ part). cbn. rewrite string_app_assoc. split_and!; [done|lia| |].
    + intros f. destruct (Hp f) as [rest Hr]. exists rest. rewrite texts_cons. cbn.
      rewrite sdrop_app_le, <- string_app_assoc, <- Hr, sdrop_0 by (unfold b_used in *; lia). done.
    + intros _ _ _. rewrite string_length_app, sdrop_length. unfold b_used in *. lia.
  - exists iovcnt, EmptyString. rewrite string_app_nil_r. split_and!; try done; [intros f; by eexists|].
    intros _ H1%Nat.ltb_lt H2%Nat.ltb_lt. by rewrite H1, H2 in E.
Qed.

Lemma release_spec l : Forall block_ok l → solid l → ∀ remaining sentlen,
  (sentlen < Nat.max 1 (first_length l))%nat →
  (∀ f, remaining ≤ String.length (sdrop sentlen (texts f l)))%nat →
  ∃ gone l' sentlen', release l remaining sentlen = Some (l', sentlen', space gone) ∧ l = gone ++ l' ∧
    (sentlen' < Nat.max 1 (first_length l'))%nat ∧
    ∀ f, sdrop sentlen' (texts f l') = sdrop remaining (sdrop sentlen (texts f l)).
Proof.
  induction l as [|[a v] l IH]; intros Hb Hs remaining sentlen Ho Hr.
  { specialize (Hr (λ _, EmptyString)). cbn in Ho. rewrite sdrop_length in Hr. unfold texts in Hr. cbn in Hr.
    exists [], [], sentlen. destruct remaining; [|lia]. split_and!; try done. }
  apply Forall_cons in Hb as [Hb Hbl], Hs as [Hs Hsl]. destruct v as [o|]; [|done].
  destruct remaining as [|r].
  { exists [], ((a, Some o) :: l), sentlen. split_and!; try done. }
  unfold block_ok in Hb. cbn in Hb, Ho. cbn [release]. destruct (Nat.ltb_spec (S r) (b_used o - sentlen)).
  - exists [], ((a, Some o) :: l), (sentlen + S r)%nat. split_and!; try done; [cbn; lia|]. intros f. by rewrite sdrop_sdrop.
  - destruct (IH Hbl Hsl (S r - (b_used o - sentlen))%nat 0%nat) as (gone & l' & sentlen' & -> & -> & Hs' & Hd); [lia| |].
    { intros f. specialize (Hr f). rewrite sdrop_0. rewrite texts_cons, sdrop_length, string_length_app in Hr.
      cbn in Hr. unfold b_used in *. lia. }
    exists ((a, Some o) :: gone), l', sentlen'. split_and!; try done.
    + cbn. rewrite space_cons. cbn. do 2 f_equal. lia.
    + intros f. rewrite Hd, sdrop_0, texts_cons, !sdrop_sdrop. cbn.
      replace (sentlen + S r)%nat with (String.length (b_buf o) + (S r - (b_used o - sentlen)))%nat by (unfold b_used in *; lia).
      by rewrite <- sdrop_sdrop, sdrop_app.
Qed.

(** [c'] is [c] after the bytes [b] of it have left. *)
Record leaves (b : string) (c c' : output) : Prop := {
  left_ok : out_ok c';
  left_solid : solid (o_reply c');
  left_pending : ∀ f, pending f c = b +:+ pending f c';
  left_after : o_close_after_reply c' = o_close_after_reply c;
  left_asap : o_close_asap c' = o_close_asap c;
}.

Lemma leaves_refl c : out_ok c → solid (o_reply c) → leaves EmptyString c c.
Proof. by split. Qed.

Lemma leaves_trans b b' c c' c'' : leaves b c c' → leaves b' c' c'' → leaves (b +:+ b') c c''.
Proof.
  intros [] []. split; try done; try congruence. intros f. by rewrite left_pending0, left_pending1, string_app_assoc.
Qed.

(** Removing nodes in front of the list. *)
Lemma drop_nodes_ok c buf gone l sentlen :
  out_ok c → o_reply c = gone ++ l → (String.length buf ≤ o_buf_usable_size c)%nat →
  (sentlen < Nat.max 1 (match buf with EmptyString => first_length l | s => String.length s end))%nat →
  out_ok (with_sentlen (with_reply (with_buf c buf) l (o_reply_bytes c - space gone)) sentlen).
Proof.
  intros [] Hl Hb Hs. rewrite Hl in *. rewrite fmap_app in *. apply Forall_app in ok_blocks0 as [_ ?], ok_next0 as [_ ?].
  apply NoDup_app in ok_nodup0 as (_ & _ & ?). split; cbn; try done; [|by unfold front; cbn; destruct buf].
  rewrite ok_space0, space_app. lia.
Qed.

(** What one call says about the bytes that left. *)
Definition wrote (w : write_result) (r : written) (c c' : output) : Prop :=
  match r with
  | Left_ b => leaves b c c' ∧ ∃ n, w = Wrote n ∧ b ≠ EmptyString
  | Err failed => leaves EmptyString c c' ∧ w = if failed : bool then WriteFailed else WouldBlock
  end.

Lemma stake_nonempty n s : (0 < String.length s)%nat → stake (taken n s) s ≠ EmptyString.
Proof.
  intros H E. apply (f_equal String.length) in E. rewrite stake_length in E. unfold taken in E. cbn in E. lia.
Qed.

Lemma pending_split f c : out_ok c →
  pending f c = match o_buf c with
                | EmptyString => sdrop (o_sentlen c) (texts f (o_reply c))
                | b => sdrop (o_sentlen c) b +:+ texts f (o_reply c)
                end.
Proof.
  intros Hc. pose proof (ok_sent _ Hc) as Hs. unfold pending, raw, front in *. destruct (o_buf c) as [|x b]; [done|].
  by rewrite sdrop_app_le by (cbn in *; lia).
Qed.

(** A part of the static buffer leaves. *)
Lemma buffer_left c k : out_ok c → solid (o_reply c) → (k < String.length (o_buf c) - o_sentlen c)%nat →
  leaves (stake k (sdrop (o_sentlen c) (o_buf c))) c (with_sentlen c (o_sentlen c + k)).
Proof.
  intros Hc Hs Hk. assert (out_ok (with_sentlen c (o_sentlen c + k))) as Hc'.
  { destruct Hc. split; cbn; try done. unfold front in *. cbn. destruct (o_buf c); cbn in *; lia. }
  split; try done. intros f. rewrite !pending_split by done. cbn. destruct (o_buf c) as [|x b]; [cbn in Hk; lia|].
  rewrite string_app_assoc, <- sdrop_sdrop, stake_sdrop. done.
Qed.

(** The whole of it leaves. *)
Lemma buffer_gone c : out_ok c → solid (o_reply c) → o_buf c ≠ EmptyString →
  leaves (sdrop (o_sentlen c) (o_buf c)) c (with_sentlen (with_buf c EmptyString) 0).
Proof.
  intros Hc Hs Hb. assert (out_ok (with_sentlen (with_buf c EmptyString) 0)) as Hc'.
  { destruct Hc. split; cbn; try done; lia. }
  split; try done. intros f. rewrite !pending_split by done. cbn. by destruct (o_buf c).
Qed.

(** A part of the list leaves. *)
Lemma list_left c k part : out_ok c → solid (o_reply c) → o_buf c = EmptyString →
  (k ≤ String.length part)%nat → (∀ f, ∃ rest, sdrop (o_sentlen c) (texts f (o_reply c)) = part +:+ rest) →
  ∃ gone l sentlen, release (o_reply c) k (o_sentlen c) = Some (l, sentlen, space gone) ∧
    leaves (stake k part) c (with_sentlen (with_reply c l (o_reply_bytes c - space gone)) sentlen).
Proof.
  intros Hc Hs Hb Hk Hp. pose proof (ok_sent _ Hc) as Ho. unfold front in Ho. rewrite Hb in Ho.
  destruct (release_spec (o_reply c) (ok_blocks _ Hc) Hs k (o_sentlen c) Ho) as (gone & l & s' & Hr & Hl & Hs' & Hd).
  { intros f. destruct (Hp f) as [rest ->]. rewrite string_length_app. lia. }
  exists gone, l, s'. split; [done|].
  pose proof (drop_nodes_ok c (o_buf c) gone l s' Hc Hl (ok_buf _ Hc)) as Hc'. rewrite Hb in Hc'. specialize (Hc' Hs').
  replace (with_buf c EmptyString) with c in Hc' by (destruct c; cbn in *; by subst).
  split; try done; [cbn; unfold solid in *; rewrite Hl in Hs; by apply Forall_app in Hs as [_ ?]|].
  intros f. rewrite !pending_split by done. cbn. rewrite Hb, Hd. destruct (Hp f) as [rest ->].
  rewrite sdrop_app_le by done. by rewrite string_app_assoc, stake_sdrop.
Qed.

Lemma with_reply_same c : with_reply c (o_reply c) (o_reply_bytes c - 0) = c.
Proof. destruct c. unfold with_reply. cbn. by rewrite Z.sub_0_r. Qed.

Lemma stake_app_ge n a b : (String.length a ≤ n)%nat → stake n (a +:+ b) = a +:+ stake (n - String.length a) b.
Proof.
  revert n. induction a as [|x a IH]; intros n H; cbn in *; [by rewrite Nat.sub_0_r|].
  destruct n; [lia|]. cbn. by rewrite IH by lia.
Qed.

Lemma pending_positive f c : out_ok c → solid (o_reply c) → clientHasPendingReplies c = true → (0 < String.length (pending f c))%nat.
Proof.
  intros Hc Hs Hp. rewrite pending_split by done. pose proof (ok_sent _ Hc) as Ho. pose proof (ok_blocks _ Hc) as Hb.
  unfold front, clientHasPendingReplies in *. destruct (o_buf c) as [|x b].
  - destruct (o_reply c) as [|[a [v|]] l]; [done| |by apply Forall_cons in Hs as [[=] _]].
    apply Forall_cons in Hb as [Hb _]. unfold block_ok in Hb. cbn in *.
    rewrite texts_cons, sdrop_length, string_length_app. cbn. unfold b_used in *. lia.
  - rewrite string_length_app, sdrop_length. cbn in *. lia.
Qed.

Lemma idle_pending f c : out_ok c → clientHasPendingReplies c = false → pending f c = EmptyString ∧ o_sentlen c = 0%nat.
Proof.
  intros Hc Hp. unfold clientHasPendingReplies in Hp. apply orb_false_iff in Hp as [H1%Nat.ltb_ge H2%Nat.ltb_ge].
  assert (o_buf c = EmptyString) as Hb by (apply string_length_zero; lia).
  assert (o_reply c = []) as Hl by (apply length_zero_iff_nil; lia).
  pose proof (ok_sent _ Hc) as Ho. unfold front in Ho. rewrite pending_split, Hb, Hl in * by done. cbn in *.
  by destruct (o_sentlen c); [|lia].
Qed.

Hypothesis iovmax_pos : (0 < iovmax)%nat.

Lemma writev_list c w : out_ok c → solid (o_reply c) → o_reply c ≠ [] → o_buf c = EmptyString →
  ∃ c' r, _writevToClient iovmax c w = Some (c', r) ∧ wrote w r c c'.
Proof using iovmax_pos.
  intros Hc Hs Hl Hb. pose proof (ok_sent _ Hc) as Ho. unfold front in Ho. rewrite Hb in Ho.
  unfold _writevToClient. rewrite Hb. change (0 <? String.length "")%nat with false. cbn iota.
  destruct (gather_spec _ (ok_blocks _ Hc) Hs 0%nat EmptyString (o_sentlen c) Ho) as (n & part & -> & Hn & Hp & Hpos).
  destruct Hpos as [Hn' Hpart]; [done|done|by apply Nat.ltb_lt|]. cbn [mbind option_bind]. rewrite with_reply_same.
  rewrite (proj2 (Nat.eqb_neq n 0)) by lia. cbn [String.append].
  destruct w as [m| |]; [|eexists _, _; by split; [done|split; [apply leaves_refl|]]..].
  rewrite Hb. change (0 <? String.length "")%nat with false. cbn iota.
  destruct (list_left c (taken m part) part Hc Hs Hb) as (gone & l & s' & -> & HL); [unfold taken; lia|done|].
  eexists _, _. split; [done|]. split; [done|]. exists m. split; [done|]. by apply stake_nonempty.
Qed.

Lemma release_0 l s : release l 0 s = Some (l, s, 0).
Proof. by destruct l. Qed.

Lemma writev_both c w : out_ok c → solid (o_reply c) → o_buf c ≠ EmptyString →
  ∃ c' r, _writevToClient iovmax c w = Some (c', r) ∧ wrote w r c c'.
Proof using iovmax_pos.
  intros Hc Hs Hb. pose proof (ok_sent _ Hc) as Ho. unfold front in Ho.
  assert ((0 <? String.length (o_buf c))%nat = true) as Hlt by (apply Nat.ltb_lt; destruct (o_buf c); cbn; [done|lia]).
  assert (o_sentlen c < String.length (o_buf c))%nat as Ho' by (destruct (o_buf c); cbn in *; [done|lia]).
  unfold _writevToClient. rewrite Hlt. cbn iota.
  destruct (gather_spec _ (ok_blocks _ Hc) Hs 1%nat (sdrop (o_sentlen c) (o_buf c)) 0%nat) as (n & part & -> & Hn & Hp & _); [lia|].
  cbn [mbind option_bind]. rewrite with_reply_same, (proj2 (Nat.eqb_neq n 0)) by lia.
  destruct w as [m| |]; [|eexists _, _; by split; [done|split; [apply leaves_refl|]]..].
  rewrite Hlt. cbn iota. set (bytes := sdrop (o_sentlen c) (o_buf c)).
  assert (String.length bytes = String.length (o_buf c) - o_sentlen c)%nat as Hlen by apply sdrop_length.
  set (k := taken m (bytes +:+ part)).
  assert (k ≤ String.length bytes + String.length part)%nat as Hk by (subst k; unfold taken; rewrite string_length_app; lia).
  assert (stake k (bytes +:+ part) ≠ EmptyString) as Hne by (apply stake_nonempty; rewrite string_length_app; lia).
  rewrite <- Hlen. destruct (Nat.leb_spec (String.length bytes) k).
  - pose proof (buffer_gone c Hc Hs Hb) as HB.
    destruct (list_left _ (k - String.length bytes) part (left_ok _ _ _ HB) Hs eq_refl ltac:(lia) Hp) as (gone & l & s' & Hr & HL).
    cbn [o_reply with_sentlen with_buf o_sentlen] in Hr |- *. rewrite Hr. cbn. eexists _, _. split; [done|].
    rewrite stake_app_ge in Hne |- * by lia. split; [by eapply leaves_trans|]. by exists m.
  - replace (k - String.length bytes)%nat with 0%nat by lia.
    rewrite release_0. cbn [mbind option_bind]. rewrite stake_app_le in Hne |- * by lia.
    eexists _, _. split; [done|]. split; [|by exists m].
    pose proof (buffer_left c k Hc Hs ltac:(lia)) as HL. by rewrite with_reply_same.
Qed.

Lemma _writeToClient_spec c w : out_ok c → solid (o_reply c) → clientHasPendingReplies c = true →
  ∃ c' r, _writeToClient iovmax c w = Some (c', r) ∧ wrote w r c c'.
Proof using iovmax_pos.
  intros Hc Hs Hp. unfold _writeToClient. destruct (Nat.ltb_spec 0 (length (o_reply c))) as [Hl|Hl].
  - assert (∃ c' r, _writevToClient iovmax c w = Some (c', r) ∧ wrote w r c c') as (c' & r & -> & H).
    { destruct (decide (o_buf c = EmptyString)); [|by apply writev_both].
      apply writev_list; try done. intros E. rewrite E in Hl. cbn in Hl. lia. }
    cbn. destruct r as [b|failed]; [|by eauto]. exists c', (Left_ b). split; [|done].
    destruct H as [H _]. pose proof (ok_space _ (left_ok _ _ _ H)) as E. destruct (o_reply c'); [|done]. by rewrite E.
  - destruct (o_reply c) eqn:El; [|cbn in Hl; lia]. unfold clientHasPendingReplies in Hp. rewrite El, orb_false_r in Hp.
    rewrite Hp. assert (o_buf c ≠ EmptyString) as Hb by (intros E; by rewrite E in Hp).
    assert (o_sentlen c < String.length (o_buf c))%nat as Ho.
    { pose proof (ok_sent _ Hc) as Ho. unfold front in Ho. destruct (o_buf c); cbn in *; [done|lia]. }
    rewrite <- El in Hs. destruct w as [m| |]; [|eexists _, _; by split; [done|split; [apply leaves_refl|]]..].
    set (bytes := sdrop (o_sentlen c) (o_buf c)). set (k := taken m bytes).
    assert (String.length bytes = String.length (o_buf c) - o_sentlen c)%nat as Hlen by apply sdrop_length.
    assert (k ≤ String.length bytes)%nat as Hk by (subst k; unfold taken; lia).
    assert (stake k bytes ≠ EmptyString) as Hne by (apply stake_nonempty; lia).
    eexists _, _. split; [done|]. split; [|by exists m]. cbn [o_sentlen o_buf with_sentlen].
    destruct (Nat.eqb_spec (o_sentlen c + k) (String.length (o_buf c))).
    + rewrite stake_all by lia. exact (buffer_gone c Hc Hs Hb).
    + apply buffer_left; try done. lia.
Qed.

(** Every round sends a prefix of what is pending. *)
Lemma write_rounds_spec rounds c tot : out_ok c → solid (o_reply c) →
  ∃ c' b failed, write_rounds iovmax rounds c tot = Some (c', tot +:+ b, failed) ∧ leaves b c c'.
Proof using iovmax_pos.
  revert c tot. induction rounds as [|w rounds IH]; intros c tot Hc Hs; cbn [write_rounds];
    (destruct (clientHasPendingReplies c) eqn:Hp; cbn [negb];
      [|exists c, EmptyString, false; rewrite string_app_nil_r; by split; [|apply leaves_refl]]).
  - destruct (_writeToClient_spec c WouldBlock Hc Hs Hp) as (c' & r & -> & H). cbn. destruct r as [b|failed].
    + destruct H as (_ & n & [=] & _).
    + exists c', EmptyString, failed. rewrite string_app_nil_r. by destruct H.
  - destruct (_writeToClient_spec c w Hc Hs Hp) as (c' & r & -> & H). cbn. destruct r as [b|failed].
    + destruct H as [H _]. destruct (_ <? _)%nat; [by eauto|].
      destruct (IH c' (tot +:+ b) (left_ok _ _ _ H) (left_solid _ _ _ H)) as (c'' & b' & failed & -> & H').
      exists c'', (b +:+ b'), failed. rewrite string_app_assoc. split; [done|]. by eapply leaves_trans.
    + exists c', EmptyString, failed. rewrite string_app_nil_r. by destruct H.
Qed.

(** A socket that keeps taking bytes gets them all, or the limit of one event. *)
Lemma write_rounds_drain rounds c tot f : out_ok c → solid (o_reply c) →
  Forall (λ w, ∃ n, w = Wrote n) rounds → (String.length (pending f c) ≤ length rounds)%nat →
  ∃ c' b, write_rounds iovmax rounds c tot = Some (c', tot +:+ b, false) ∧ leaves b c c' ∧
    (clientHasPendingReplies c' = false ∨ (NET_MAX_WRITES_PER_EVENT < String.length (tot +:+ b))%nat).
Proof using iovmax_pos.
  revert c tot. induction rounds as [|w rounds IH]; intros c tot Hc Hs Hw Hlen; cbn [write_rounds];
    (destruct (clientHasPendingReplies c) eqn:Hp; cbn [negb];
      [|exists c, EmptyString; rewrite string_app_nil_r; by split_and!; [|apply leaves_refl|left]]).
  - pose proof (pending_positive f c Hc Hs Hp). cbn in Hlen. lia.
  - apply Forall_cons in Hw as [[n ->] Hw].
    destruct (_writeToClient_spec c (Wrote n) Hc Hs Hp) as (c' & r & -> & H). cbn. destruct r as [b|[]]; [|by destruct H..].
    destruct H as (H & _ & _ & Hb). destruct (_ <? _)%nat eqn:E.
    { exists c', b. apply Nat.ltb_lt in E. by split_and!; [|done|right]. }
    destruct (IH c' (tot +:+ b) (left_ok _ _ _ H) (left_solid _ _ _ H) Hw) as (c'' & b' & -> & H' & H'').
    { pose proof (f_equal String.length (left_pending _ _ _ H f)) as El. rewrite string_length_app in El.
      destruct b; [done|]. cbn in *. lia. }
    exists c'', (b +:+ b'). rewrite string_app_assoc. split_and!; [done|by eapply leaves_trans|done].
Qed.

Lemma writeToClient_spec c rounds : out_ok c → solid (o_reply c) →
  ∃ c' b, writeToClient iovmax c rounds = Some (c', b) ∧ out_ok c' ∧ solid (o_reply c') ∧
    (∀ f, pending f c = b +:+ pending f c') ∧ o_close_after_reply c' = o_close_after_reply c ∧
    (o_close_asap c = true → o_close_asap c' = true).
Proof using iovmax_pos.
  intros Hc Hs. unfold writeToClient.
  destruct (write_rounds_spec rounds c EmptyString Hc Hs) as (c1 & b & failed & -> & [Hc1 Hs1 Hp Ha Hb]). cbn.
  assert (∀ x, out_ok x → out_ok (freeClientAsync x)) as Hf by (by intros x []; split).
  destruct failed; [eexists _, _; split; [done|]; split_and!; eauto|].
  destruct (clientHasPendingReplies c1) eqn:E; cbn [negb].
  { eexists _, _. split; [done|]. split_and!; try done. by rewrite Hb. }
  destruct (idle_pending (λ _, EmptyString) c1 Hc1 E) as [_ Hz].
  replace (with_sentlen c1 0) with c1 by (destruct c1; cbn in *; by subst).
  destruct (o_close_after_reply c1) eqn:Ea; eexists _, _; (split; [done|]); split_and!; eauto;
    cbn; by rewrite ?Ea, ?Hb, ?Ha.
Qed.
End writing.

(** ** Replies and writes in any order *)

(** What happens on a connection: a command replies, or the socket takes
    bytes. *)
Inductive event : Type := Replies (e : emission) | Writable (rounds : list write_result).

Section events.
Variable usable : nat → nat.
Variable iovmax : nat.

(** The bytes that leave. *)
Fixpoint run_events (evs : list event) (c : output) : option (output * string) :=
  match evs with
  | [] => Some (c, EmptyString)
  | Replies e :: evs => c ← emit usable e c; run_events evs c
  | Writable rounds :: evs =>
      '(c, b) ← writeToClient iovmax c rounds; '(c, b') ← run_events evs c; Some (c, b +:+ b')
  end.

(** The replies, as they should arrive. *)
Fixpoint replied (evs : list event) : string :=
  match evs with
  | [] => EmptyString
  | Replies e :: evs => encode (resp_of e) +:+ replied evs
  | Writable _ :: evs => replied evs
  end.

Definition event_ok (ev : event) : Prop := match ev with Replies e => buildable e | Writable _ => True end.

(** A client that is being closed takes no replies. *)
Lemma closed_events evs c : (0 < iovmax)%nat → out_ok c → solid (o_reply c) → o_close_asap c = true →
  ∃ c' sent, run_events evs c = Some (c', sent) ∧ out_ok c' ∧ solid (o_reply c') ∧ o_close_asap c' = true ∧
    ∀ f, pending f c = sent +:+ pending f c'.
Proof.
  intros Hiov. revert c. induction evs as [|[e|rounds] evs IH]; intros c Hc Hs Hz; cbn [run_events].
  - by exists c, EmptyString.
  - rewrite emit_closed by done. by apply IH.
  - destruct (writeToClient_spec iovmax Hiov c rounds Hc Hs) as (c1 & b & -> & Hc1 & Hs1 & Hb & _ & Ha).
    destruct (IH c1 Hc1 Hs1 (Ha Hz)) as (c' & sent & E & Hc' & Hs' & Hz' & Hp). cbn. rewrite E. cbn.
    exists c', (b +:+ sent). split_and!; try done. intros f. by rewrite Hb, Hp, string_app_assoc.
Qed.

Lemma events_in_order evs c (Husable : ∀ n, (n ≤ usable n)%nat) (Hiov : (0 < iovmax)%nat)
    (Hc : out_ok c) (Hsolid : holes c = []) (Hafter : o_close_after_reply c = false)
    (Hevs : Forall event_ok evs) :
  ∃ c' sent lost, run_events evs c = Some (c', sent) ∧ out_ok c' ∧ holes c' = [] ∧
    pending (λ _, EmptyString) c +:+ replied evs = sent +:+ pending (λ _, EmptyString) c' +:+ lost ∧
    (o_close_asap c' = false → lost = EmptyString).
Proof.
  revert c Hc Hsolid Hafter. induction Hevs as [|ev evs Hev _ IH]; intros c Hc Hsolid Hafter.
  { exists c, EmptyString, EmptyString. by rewrite !string_app_nil_r. }
  destruct ev as [e|rounds]; cbn [run_events replied].
  - destruct (o_close_asap c) eqn:Hz.
    + rewrite emit_closed by done. apply solid_holes in Hsolid.
      destruct (closed_events evs c Hiov Hc Hsolid Hz) as (c' & sent & E & Hc' & Hs' & Hz' & Hp).
      exists c', sent, (encode (resp_of e) +:+ replied evs). split_and!; try done; [by apply solid_holes| |congruence].
      by rewrite Hp, <- string_app_assoc.
    + destruct (emit_appends usable Husable e Hev c Hc (conj Hafter Hz)) as (c1 & -> & A). cbn.
      destruct (IH c1) as (c' & sent & lost & -> & Hc' & Hh' & Hp & Hl); [apply A|by rewrite (app_holes _ _ _ A)|
        by rewrite (app_after _ _ _ A)|]. exists c', sent, lost. split_and!; try done.
      by rewrite <- Hp, (appends_pending _ _ c c1 Hc A), string_app_assoc.
  - apply solid_holes in Hsolid.
    destruct (writeToClient_spec iovmax Hiov c rounds Hc Hsolid) as (c1 & b & -> & Hc1 & Hs1 & Hb & Ha & _). cbn.
    destruct (IH c1) as (c' & sent & lost & -> & Hc' & Hh' & Hp & Hl); [done|by apply solid_holes|congruence|]. cbn.
    exists c', (b +:+ sent), lost. split_and!; try done. by rewrite Hb, <- !string_app_assoc, Hp.
Qed.

(** C32: the replies of a connection leave in order, whole and unchanged: for
    any sequence of commands that build their replies, with array lengths
    before or after the elements at any depth, and of write events in which the
    socket takes any portions, blocks or fails, no assertion fails, the
    invariant of the buffers is kept, and the bytes that have left followed by
    those that are pending are the encodings of the replies in order.  Only a
    client whose connection failed loses an end of them. *)
Theorem replies_in_order evs c (Husable : ∀ n, (n ≤ usable n)%nat) (Hiov : (0 < iovmax)%nat)
    (Hc : out_ok c) (Hsolid : holes c = []) (Hafter : o_close_after_reply c = false)
    (Hevs : Forall event_ok evs) :
  ∃ c' sent lost, run_events evs c = Some (c', sent) ∧ out_ok c' ∧ holes c' = [] ∧
    pending (λ _, EmptyString) c +:+ replied evs = sent +:+ pending (λ _, EmptyString) c' +:+ lost ∧
    (o_close_asap c' = false → lost = EmptyString).
Proof. by apply events_in_order. Qed.

Lemma drained c rounds (Hiov : (0 < iovmax)%nat) (Hc : out_ok c) (Hsolid : holes c = [])
    (Hrounds : Forall (λ w, ∃ n, w = Wrote n) rounds)
    (Henough : (String.length (pending (λ _, EmptyString) c) ≤ length rounds)%nat)
    (Hlimit : (String.length (pending (λ _, EmptyString) c) ≤ NET_MAX_WRITES_PER_EVENT)%nat) :
  ∃ c', writeToClient iovmax c rounds = Some (c', pending (λ _, EmptyString) c) ∧ out_ok c' ∧
    clientHasPendingReplies c' = false.
Proof.
  apply solid_holes in Hsolid. unfold writeToClient.
  destruct (write_rounds_drain iovmax Hiov rounds c EmptyString _ Hc Hsolid Hrounds Henough)
    as (c1 & b & -> & [Hc1 Hs1 Hp Ha Hb] & Hd). cbn [mbind option_bind String.append] in *. rewrite (Hp (λ _, EmptyString)) in Hlimit |- *.
  destruct Hd as [Hd|Hd]; [|rewrite string_length_app in Hlimit; lia]. rewrite Hd. cbn [negb].
  destruct (idle_pending (λ _, EmptyString) c1 Hc1 Hd) as [-> Hz]. rewrite string_app_nil_r.
  replace (with_sentlen c1 0) with c1 by (destruct c1; cbn in *; by subst).
  eexists. split; [done|]. destruct (o_close_after_reply c1); [|done]. by destruct Hc1.
Qed.

(** C33: a write event on a socket that keeps taking bytes, however few at a
    time, sends everything that is pending when that is within the limit of one
    event, and leaves the buffers empty. *)
Theorem writes_drain c rounds (Hiov : (0 < iovmax)%nat) (Hc : out_ok c) (Hsolid : holes c = [])
    (Hrounds : Forall (λ w, ∃ n, w = Wrote n) rounds)
    (Henough : (String.length (pending (λ _, EmptyString) c) ≤ length rounds)%nat)
    (Hlimit : (String.length (pending (λ _, EmptyString) c) ≤ NET_MAX_WRITES_PER_EVENT)%nat) :
  ∃ c', writeToClient iovmax c rounds = Some (c', pending (λ _, EmptyString) c) ∧ out_ok c' ∧
    clientHasPendingReplies c' = false.
Proof. by apply drained. Qed.
End events.

Definition sample_events : list event :=
  [Replies (EDeferred [EBulk "a"; EDeferred [EInteger (-7); EDeferred []]; ENull]);
   Writable [Wrote 3; WouldBlock]; Replies (EError "no such key"); Replies (ESet [EBulkLongLong 12]);
   Writable [Wrote 5; Wrote 1; WriteFailed]; Replies (EStatus "OK")].

Lemma createOutput_ok usable : out_ok (createOutput usable).
Proof. split; cbn; try done; [lia|apply NoDup_nil_2|lia]. Qed.

Lemma replies_in_order_witness :
  ∃ c' sent lost, run_events (λ n, n) 16 sample_events (createOutput (λ n, n)) = Some (c', sent) ∧ out_ok c' ∧ holes c' = [] ∧
    pending (λ _, EmptyString) (createOutput (λ n, n)) +:+ replied sample_events =
      sent +:+ pending (λ _, EmptyString) c' +:+ lost ∧
    (o_close_asap c' = false → lost = EmptyString).
Proof.
  apply (replies_in_order (λ n, n) 16 sample_events (createOutput (λ n, n))).
  - done.
  - lia.
  - apply createOutput_ok.
  - done.
  - done.
  - repeat constructor; done.
Defined.

(** The first of the replies, sent one byte at a time. *)
Definition sample_output : output :=
  default (createOutput (λ n, n)) (emit (λ n, n) (EDeferred [EBulk "a"; EArray [ENull]]) (createOutput (λ n, n))).

Lemma writes_drain_witness :
  ∃ c', writeToClient 1 sample_output (replicate 20 (Wrote 1)) = Some (c', pending (λ _, EmptyString) sample_output) ∧
    out_ok c' ∧ clientHasPendingReplies c' = false.
Proof.
  apply (writes_drain 1 sample_output (replicate 20 (Wrote 1))).
  - lia.
  - unfold sample_output.
    destruct (emit_appends (λ n, n) (λ n, le_n n) (EDeferred [EBulk "a"; EArray [ENull]])
      ltac:(repeat constructor; done) _ (createOutput_ok (λ n, n)) (conj eq_refl eq_refl)) as (c' & -> & A). apply A.
  - by vm_compute.
  - apply Forall_replicate. by eexists.
  - apply Nat.leb_le. by vm_compute.
  - apply Nat.leb_le. by vm_compute.
Defined.
