(* ===== verification/Bytes.v ===== *)
(** * Memory blocks

    Byte buffers as lists of integers in [0 .. 255], the little-endian
    representation of machine integers in them, and [memcpy], [memmove] and
    [realloc] on one block.  Redis keeps its packed structures little-endian
    on every host (endianconv.h), so this is the layout on all of them. *)

From S2P Require Import Prelude.

Definition byte_ok (b : Z) : Prop := 0 ≤ b < 256.

(** ** Little-endian integers *)

Fixpoint le_bytes (n : nat) (v : Z) : list Z :=
  match n with
  | O => []
  | S n => v mod 256 :: le_bytes n (v / 256)
  end.

Fixpoint le_value (bs : list Z) : Z :=
  match bs with
  | [] => 0
  | b :: bs => b + 256 * le_value bs
  end.

(** ** Reading and writing a range of a block *)

Definition get_bytes (off n : nat) (c : list Z) : list Z := take n (drop off c).

Definition set_bytes (off : nat) (bs c : list Z) : list Z :=
  take off c ++ bs ++ drop (off + length bs) c.

(** [memmove (c + dst, c + src, n)] *)
Definition move_bytes (dst src n : nat) (c : list Z) : list Z :=
  set_bytes dst (get_bytes src n c) c.

(** [realloc]: shrink, or grow by bytes whose content is unspecified. *)
Definition resize_bytes (junk : nat → Z) (n : nat) (c : list Z) : list Z :=
  take n c ++ (junk <$> seq (length c) (n - length c)).

(** ** Lemmas *)

Lemma length_le_bytes n v : length (le_bytes n v) = n.
Proof. revert v. induction n; intros v; simpl; auto. Qed.

Lemma le_bytes_ok n v : Forall byte_ok (le_bytes n v).
Proof.
  revert v. induction n; intros v; simpl; constructor; auto.
  apply Z.mod_pos_bound. lia.
Qed.

Lemma le_value_bytes n v : le_value (le_bytes n v) = v mod 2 ^ (8 * Z.of_nat n).
Proof.
  revert v. induction n as [|n IH]; intros v; [by rewrite Z.mod_1_r|].
  cbn [le_bytes le_value]. rewrite IH.
  replace (8 * Z.of_nat (S n)) with (8 + 8 * Z.of_nat n) by lia.
  rewrite Z.pow_add_r by lia. change (2 ^ 8) with 256.
  by rewrite Z.rem_mul_r by lia.
Qed.

Lemma le_value_range bs : Forall byte_ok bs → 0 ≤ le_value bs < 2 ^ (8 * Z.of_nat (length bs)).
Proof.
  induction 1 as [|b bs Hb _ IH]; simpl length; [simpl; lia|]. cbn [le_value].
  replace (8 * Z.of_nat (S (length bs))) with (8 + 8 * Z.of_nat (length bs)) by lia.
  rewrite Z.pow_add_r by lia. change (2 ^ 8) with 256. unfold byte_ok in Hb. lia.
Qed.

(** A signed value that fits its width survives the round trip. *)
Lemma le_value_signed n v :
  (0 < n)%nat → - 2 ^ (8 * Z.of_nat n - 1) ≤ v < 2 ^ (8 * Z.of_nat n - 1) →
  wrap_s (8 * Z.of_nat n) (le_value (le_bytes n v)) = v.
Proof.
  intros Hn Hv. rewrite le_value_bytes. unfold wrap_s. rewrite Zplus_mod_idemp_l.
  assert (2 ^ (8 * Z.of_nat n) = 2 * 2 ^ (8 * Z.of_nat n - 1)) as Hp.
  { rewrite <- Z.pow_succ_r by lia. f_equal. lia. }
  rewrite Z.mod_small; lia.
Qed.

Lemma length_get_bytes off n c :
  (off + n ≤ length c)%nat → length (get_bytes off n c) = n.
Proof. intros. unfold get_bytes. rewrite length_take, length_drop. lia. Qed.

Lemma length_set_bytes off bs c :
  (off + length bs ≤ length c)%nat → length (set_bytes off bs c) = length c.
Proof. intros. unfold set_bytes. rewrite !length_app, length_take, length_drop. lia. Qed.

Lemma length_resize_bytes junk n c : length (resize_bytes junk n c) = n.
Proof. unfold resize_bytes. rewrite length_app, length_take, length_fmap, length_seq. lia. Qed.

Lemma lookup_get_bytes off n c j :
  (j < n)%nat → get_bytes off n c !! j = c !! (off + j)%nat.
Proof. intros. unfold get_bytes. by rewrite lookup_take_lt, lookup_drop. Qed.

Lemma lookup_set_bytes off bs c j :
  (off + length bs ≤ length c)%nat →
  set_bytes off bs c !! j =
    if decide (off ≤ j < off + length bs)%nat then bs !! (j - off)%nat else c !! j.
Proof.
  intros Hlen. unfold set_bytes. case_decide as Hj.
  - rewrite lookup_app_r by (rewrite length_take; lia).
    rewrite length_take, Nat.min_l by lia. by rewrite lookup_app_l by lia.
  - destruct (decide (j < off)%nat).
    + rewrite lookup_app_l by (rewrite length_take; lia). by rewrite lookup_take_lt by lia.
    + rewrite lookup_app_r by (rewrite length_take; lia).
      rewrite length_take, Nat.min_l by lia.
      rewrite lookup_app_r by lia. rewrite lookup_drop. f_equal. lia.
Qed.

Lemma get_set_same off bs c :
  (off + length bs ≤ length c)%nat → get_bytes off (length bs) (set_bytes off bs c) = bs.
Proof.
  intros Hlen. apply list_eq. intros j. destruct (decide (j < length bs)%nat).
  - rewrite lookup_get_bytes, lookup_set_bytes by done. rewrite decide_True by lia.
    f_equal. lia.
  - rewrite !lookup_ge_None_2; [done|lia|].
    rewrite length_get_bytes; [lia|]. rewrite length_set_bytes; lia.
Qed.

Lemma get_set_other off n off' bs c :
  (off' + length bs ≤ length c)%nat → (off + n ≤ length c)%nat →
  (off + n ≤ off' ∨ off' + length bs ≤ off)%nat →
  get_bytes off n (set_bytes off' bs c) = get_bytes off n c.
Proof.
  intros Hlen Hn Hd. apply list_eq. intros j. destruct (decide (j < n)%nat).
  - rewrite !lookup_get_bytes, lookup_set_bytes by done. by rewrite decide_False by lia.
  - rewrite !lookup_ge_None_2; [done|..]; rewrite length_get_bytes;
      rewrite ?length_set_bytes; lia.
Qed.

(** Inside the destination, what was at the source; the rest is kept. *)
Lemma get_move_in off n dst src len c :
  (dst + len ≤ length c)%nat → (src + len ≤ length c)%nat →
  (dst ≤ off)%nat → (off + n ≤ dst + len)%nat →
  get_bytes off n (move_bytes dst src len c) = get_bytes (off - dst + src) n c.
Proof.
  intros Hd Hs Ho Hn. unfold move_bytes. apply list_eq. intros j.
  destruct (decide (j < n)%nat).
  - rewrite !lookup_get_bytes by done.
    rewrite lookup_set_bytes by (rewrite length_get_bytes; lia).
    rewrite length_get_bytes by lia. rewrite decide_True by lia.
    rewrite lookup_get_bytes by lia. f_equal. lia.
  - rewrite !lookup_ge_None_2; [done|..]; rewrite length_get_bytes;
      rewrite ?length_set_bytes; rewrite ?length_get_bytes; lia.
Qed.

Lemma get_move_out off n dst src len c :
  (dst + len ≤ length c)%nat → (src + len ≤ length c)%nat → (off + n ≤ length c)%nat →
  (off + n ≤ dst ∨ dst + len ≤ off)%nat →
  get_bytes off n (move_bytes dst src len c) = get_bytes off n c.
Proof.
  intros Hd Hs Hn Ho. unfold move_bytes.
  apply get_set_other; rewrite ?length_get_bytes; lia.
Qed.

Lemma length_move_bytes dst src len c :
  (dst + len ≤ length c)%nat → (src + len ≤ length c)%nat →
  length (move_bytes dst src len c) = length c.
Proof. intros. unfold move_bytes. rewrite length_set_bytes; rewrite ?length_get_bytes; lia. Qed.

Lemma get_resize junk off n m c :
  (off + n ≤ m)%nat → (off + n ≤ length c)%nat →
  get_bytes off n (resize_bytes junk m c) = get_bytes off n c.
Proof.
  intros Hm Hc. apply list_eq. intros j. destruct (decide (j < n)%nat).
  - rewrite !lookup_get_bytes by done. unfold resize_bytes.
    rewrite lookup_app_l by (rewrite length_take; lia). by rewrite lookup_take_lt by lia.
  - rewrite !lookup_ge_None_2; [done|..]; rewrite length_get_bytes;
      rewrite ?length_resize_bytes; lia.
Qed.
