(* ===== verification/Intset.v ===== *)
(** * Integer sets

    src/redis/src/intset.c: a sorted array of 16, 32 or 64-bit integers in one
    block of memory, searched by bisection and widened when a value needs it.
    The neighbour sets of a graph with numeric node ids are intsets.  The
    theorems show that the operations implement finite sets of 64-bit
    integers, whatever bytes [realloc] adds. *)

From S2P Require Import Prelude Bytes.

(** ** Data *)

Record intset : Set := mkIntset {
  encoding : Z;
  is_len : Z;
  contents : list Z;
}.

Definition INTSET_ENC_INT16 : Z := 2.
Definition INTSET_ENC_INT32 : Z := 4.
Definition INTSET_ENC_INT64 : Z := 8.

Definition _intsetValueEncoding (v : Z) : Z :=
  if (v <? INT32_MIN) || (v >? INT32_MAX) then INTSET_ENC_INT64
  else if (v <? INT16_MIN) || (v >? INT16_MAX) then INTSET_ENC_INT32
  else INTSET_ENC_INT16.

(** The width in bytes an encoding is read and written with. *)
Definition width (enc : Z) : nat :=
  if enc =? INTSET_ENC_INT64 then 8%nat else if enc =? INTSET_ENC_INT32 then 4%nat else 2%nat.

Definition offset (enc pos : Z) : nat := (Z.to_nat pos * width enc)%nat.

Definition _intsetGetEncoded (s : intset) (pos enc : Z) : Z :=
  wrap_s (8 * Z.of_nat (width enc))
    (le_value (get_bytes (offset enc pos) (width enc) (contents s))).

Definition _intsetGet (s : intset) (pos : Z) : Z := _intsetGetEncoded s pos (encoding s).

Definition with_contents (s : intset) (c : list Z) : intset :=
  mkIntset (encoding s) (is_len s) c.

Definition _intsetSet (s : intset) (pos value : Z) : intset :=
  with_contents s
    (set_bytes (offset (encoding s) pos) (le_bytes (width (encoding s)) value) (contents s)).

Definition intsetNew : intset := mkIntset INTSET_ENC_INT16 0 [].

Section junk.
(** What [zrealloc] leaves in the bytes it adds. *)
Variable junk : nat → Z.

Definition intsetResize (s : intset) (len : Z) : intset :=
  with_contents s (resize_bytes junk (Z.to_nat (len * encoding s)) (contents s)).

(** ** Search *)

(** The bisection loop, from [min], [max] and the last [mid] and [cur]; the
    interval shrinks at every turn. *)
Fixpoint search_loop (fuel : nat) (s : intset) (value min max mid cur : Z) : Z * Z * Z :=
  match fuel with
  | O => (min, mid, cur)
  | S fuel =>
      if min <=? max then
        let mid := Z.shiftr (wrap_u 32 (wrap_u 32 min + wrap_u 32 max)) 1 in
        let cur := _intsetGet s mid in
        if value >? cur then search_loop fuel s value (mid + 1) max mid cur
        else if value <? cur then search_loop fuel s value min (mid - 1) mid cur
        else (min, mid, cur)
      else (min, mid, cur)
  end.

Definition intsetSearch (s : intset) (value : Z) : bool * Z :=
  let max := is_len s - 1 in
  if is_len s =? 0 then (false, 0)
  else if value >? _intsetGet s max then (false, is_len s)
  else if value <? _intsetGet s 0 then (false, 0)
  else
    let '(min, mid, cur) :=
      search_loop (S (Z.to_nat (is_len s))) s value 0 max (-1) (-1) in
    if value =? cur then (true, mid) else (false, min).

(** ** Updates *)

(** [while (length--) _intsetSet (is, length + prepend, ...)] *)
Fixpoint upgrade_loop (len : nat) (s : intset) (prepend curenc : Z) : intset :=
  match len with
  | O => s
  | S len =>
      let pos := Z.of_nat len in
      upgrade_loop len
        (_intsetSet s (pos + prepend) (_intsetGetEncoded s pos curenc)) prepend curenc
  end.

Definition with_length (s : intset) (len : Z) : intset :=
  mkIntset (encoding s) len (contents s).

Definition intsetUpgradeAndAdd (s : intset) (value : Z) : intset :=
  let curenc := encoding s in
  let newenc := _intsetValueEncoding value in
  let prepend := if value <? 0 then 1 else 0 in
  let s := mkIntset newenc (is_len s) (contents s) in
  let s := intsetResize s (is_len s + 1) in
  let s := upgrade_loop (Z.to_nat (is_len s)) s prepend curenc in
  let s := if prepend =? 1 then _intsetSet s 0 value else _intsetSet s (is_len s) value in
  with_length s (is_len s + 1).

(** The bytes are counted in a [uint32_t]. *)
Definition intsetMoveTail (s : intset) (from to : Z) : intset :=
  let bytes := wrap_u 32 (wrap_u 32 (is_len s - from) * Z.of_nat (width (encoding s))) in
  with_contents s
    (move_bytes (offset (encoding s) to) (offset (encoding s) from) (Z.to_nat bytes) (contents s)).

(** The set and [*success]. *)
Definition intsetAdd (s : intset) (value : Z) : intset * bool :=
  let valenc := _intsetValueEncoding value in
  if valenc >? encoding s then (intsetUpgradeAndAdd s value, true)
  else
    let '(found, pos) := intsetSearch s value in
    if found : bool then (s, false)
    else
      let s := intsetResize s (is_len s + 1) in
      let s := if pos <? is_len s then intsetMoveTail s pos (pos + 1) else s in
      let s := _intsetSet s pos value in
      (with_length s (is_len s + 1), true).

Definition intsetRemove (s : intset) (value : Z) : intset * bool :=
  let valenc := _intsetValueEncoding value in
  if valenc <=? encoding s then
    let '(found, pos) := intsetSearch s value in
    if found : bool then
      let len := is_len s in
      let s := if pos <? len - 1 then intsetMoveTail s (pos + 1) pos else s in
      let s := intsetResize s (len - 1) in
      (with_length s (len - 1), true)
    else (s, false)
  else (s, false).
End junk.

(** ** Queries *)

Definition intsetFind (s : intset) (value : Z) : bool :=
  (_intsetValueEncoding value <=? encoding s) && (intsetSearch s value).1.

(** [rand] is the value [rand ()] returns; the assertion fails on an empty
    set. *)
Definition intsetRandom (s : intset) (rand : Z) : option Z :=
  if is_len s =? 0 then None else Some (_intsetGet s (rand mod is_len s)).

Definition intsetMax (s : intset) : Z := _intsetGet s (is_len s - 1).
Definition intsetMin (s : intset) : Z := _intsetGet s 0.

Definition intsetGet (s : intset) (pos : Z) : option Z :=
  if pos <? is_len s then Some (_intsetGet s pos) else None.

Definition intsetLen (s : intset) : Z := is_len s.

Definition sizeof_intset : Z := 8.
Definition intsetBlobLen (s : intset) : Z := sizeof_intset + is_len s * encoding s.

(** The check of a serialised set: the header of two 32-bit integers, then
    the contents. *)
Definition intset_of_bytes (p : list Z) : intset :=
  mkIntset (le_value (get_bytes 0 4 p)) (le_value (get_bytes 4 4 p)) (drop 8 p).

Fixpoint in_order (n : nat) (s : intset) (i prev : Z) : bool :=
  match n with
  | O => true
  | S n =>
      let cur := _intsetGet s i in
      if cur <=? prev then false else in_order n s (i + 1) cur
  end.

Definition intsetValidateIntegrity (p : list Z) (size : Z) (deep : bool) : bool :=
  if size <? sizeof_intset then false
  else
    let s := intset_of_bytes p in
    if negb ((encoding s =? INTSET_ENC_INT64) || (encoding s =? INTSET_ENC_INT32) ||
             (encoding s =? INTSET_ENC_INT16)) then false
    else
      let count := is_len s in
      if negb (sizeof_intset + count * encoding s =? size) then false
      else if count =? 0 then false
      else if negb deep then true
      else in_order (Z.to_nat count - 1) s 1 (_intsetGet s 0).

(** ** Invariant *)

Definition enc_ok (enc : Z) : Prop := enc = 2 ∨ enc = 4 ∨ enc = 8.

(** The values an encoding can hold. *)
Definition fits (enc v : Z) : Prop := - 2 ^ (8 * enc - 1) ≤ v < 2 ^ (8 * enc - 1).

(** The sequence a set holds. *)
Definition values (s : intset) : list Z := _intsetGet s <$> seqZ 0 (is_len s).

(** The block is as large as it has to be, its length fits the [int] of the
    search, and its values increase. *)
Record wf (s : intset) : Prop := {
  wf_enc : enc_ok (encoding s);
  wf_len : 0 ≤ is_len s < INT_MAX;
  wf_size : Z.of_nat (length (contents s)) = is_len s * encoding s;
  wf_sorted : StronglySorted Z.lt (values s);
}.

(** The bytes of the values can be counted in 32 bits, as [intsetMoveTail]
    counts those that it moves. *)
Definition bytes_counted (s : intset) : Prop := is_len s * encoding s < 2 ^ 32.

(** The finite set a block stands for. *)
Definition set_of (s : intset) : gset Z := list_to_set (values s).

Lemma width_enc enc : enc_ok enc → Z.of_nat (width enc) = enc.
Proof. by intros [->|[->| ->]]. Qed.

Lemma valenc_ok v : enc_ok (_intsetValueEncoding v).
Proof. unfold _intsetValueEncoding, enc_ok. repeat case_goal; auto. Qed.

(** A value fits an encoding exactly when its own encoding is no larger. *)
Lemma valenc_fits enc v :
  enc_ok enc → in_llong v → (_intsetValueEncoding v ≤ enc ↔ fits enc v).
Proof.
  intros Henc Hv. unfold _intsetValueEncoding, fits, INTSET_ENC_INT16, INTSET_ENC_INT32,
    INTSET_ENC_INT64.
  destruct Henc as [->|[->| ->]]; simpl; repeat case_goal; unfold_ints; lia.
Qed.

Lemma get_fits s i : enc_ok (encoding s) → fits (encoding s) (_intsetGet s i).
Proof.
  intros He. unfold _intsetGet, _intsetGetEncoded, fits. rewrite width_enc by done.
  apply wrap_s_range. destruct He as [->|[->| ->]]; lia.
Qed.

Lemma lookup_values s (i : nat) :
  Z.of_nat i < is_len s → values s !! i = Some (_intsetGet s (Z.of_nat i)).
Proof.
  intros Hi. unfold values. rewrite list_lookup_fmap, lookup_seqZ_lt by done.
  simpl. f_equal.
Qed.

Lemma length_values s : length (values s) = Z.to_nat (is_len s).
Proof. unfold values. by rewrite length_fmap, length_seqZ. Qed.

Lemma elem_values s v : v ∈ values s ↔ ∃ i, 0 ≤ i < is_len s ∧ _intsetGet s i = v.
Proof.
  unfold values. rewrite list_elem_of_fmap. setoid_rewrite elem_of_seqZ.
  split; intros (i & H1 & H2); exists i; split; auto; lia.
Qed.

Lemma sorted_lookup (l : list Z) i j x y :
  StronglySorted Z.lt l → l !! i = Some x → l !! j = Some y → (i < j)%nat → x < y.
Proof.
  intros Hs. revert i j. induction Hs as [|z l Hs IH Hz]; intros i j Hi Hj Hij; [done|].
  destruct i as [|i], j as [|j]; try lia; simpl in *.
  - simplify_eq. rewrite Forall_forall in Hz. apply Hz. by eapply list_elem_of_lookup_2.
  - apply (IH i j); auto. lia.
Qed.

Lemma get_lt s i j : wf s → 0 ≤ i < j → j < is_len s → _intsetGet s i < _intsetGet s j.
Proof.
  intros Hs Hi Hj.
  apply (sorted_lookup (values s) (Z.to_nat i) (Z.to_nat j)); [apply Hs|..|lia].
  - rewrite lookup_values by lia. do 2 f_equal. lia.
  - rewrite lookup_values by lia. do 2 f_equal. lia.
Qed.

(** ** Search *)

(** [pos] splits the values at [v]. *)
Definition splits (s : intset) (v pos : Z) : Prop :=
  0 ≤ pos ≤ is_len s ∧
  (∀ i, 0 ≤ i < pos → _intsetGet s i < v) ∧
  (∀ i, pos ≤ i < is_len s → v < _intsetGet s i).

Definition located (s : intset) (v pos : Z) : Prop :=
  0 ≤ pos < is_len s ∧ _intsetGet s pos = v.

Lemma search_loop_spec fuel s v min max mid cur min' mid' cur' :
  wf s → 0 ≤ min ≤ max + 1 → max < is_len s → (Z.to_nat (max - min + 1) < fuel)%nat →
  (∀ i, 0 ≤ i < min → _intsetGet s i < v) →
  (∀ i, max < i < is_len s → v < _intsetGet s i) →
  (min ≤ max ∨ cur ≠ v) →
  search_loop fuel s v min max mid cur = (min', mid', cur') →
  (cur' = v ∧ located s v mid') ∨ (cur' ≠ v ∧ splits s v min').
Proof.
  intros Hs. revert min max mid cur. induction fuel as [|fuel IH];
    intros min max mid cur Hmin Hmax Hfuel Hlo Hhi Hcur H; [lia|].
  cbn [search_loop] in H. destruct (Z.leb_spec min max) as [Hle|Hgt].
  - pose proof (wf_len s Hs).
    assert (Z.shiftr (wrap_u 32 (wrap_u 32 min + wrap_u 32 max)) 1 = (min + max) / 2) as Hmid.
    { unfold wrap_u. rewrite !Z.mod_small by (unfold_ints; rewrite ?Z.mod_small; lia).
      by rewrite Z.shiftr_div_pow2 by lia. }
    rewrite Hmid in H. set (m := (min + max) / 2) in *.
    assert (min ≤ m ≤ max) as Hm by (unfold m; split;
      [apply Z.div_le_lower_bound|apply Z.div_le_upper_bound]; lia).
    destruct (Z.lt_trichotomy v (_intsetGet s m)) as [Hv|[Hv|Hv]].
    + rewrite Z.gtb_ltb, (proj2 (Z.ltb_ge _ _)), (proj2 (Z.ltb_lt _ _)) in H by lia.
      eapply IH in H; [done|lia..|done| |lia].
      intros i Hi. destruct (decide (i = m)) as [->|]; [done|].
      destruct (decide (max < i)); [auto with lia|].
      pose proof (get_lt s m i Hs). lia.
    + rewrite Z.gtb_ltb, !(proj2 (Z.ltb_ge _ _)) in H by lia. simplify_eq.
      left. split; [done|]. split; [lia|done].
    + rewrite Z.gtb_ltb, (proj2 (Z.ltb_lt _ _)) in H by lia.
      eapply IH in H; [done|lia..| |done|lia].
      intros i Hi. destruct (decide (i = m)) as [->|]; [done|].
      destruct (decide (i < min)); [auto with lia|].
      pose proof (get_lt s i m Hs). lia.
  - simplify_eq. right. split; [lia|]. repeat split; try lia; intros; [auto with lia|].
    apply Hhi. lia.
Qed.

Lemma search_spec s v found pos :
  wf s → intsetSearch s v = (found, pos) →
  if found then located s v pos else splits s v pos.
Proof.
  intros Hs H. unfold intsetSearch in H. pose proof (wf_len s Hs) as Hlen.
  destruct (Z.eqb_spec (is_len s) 0) as [H0|H0].
  { simplify_eq. repeat split; lia. }
  destruct (v >? _intsetGet s (is_len s - 1)) eqn:Hgt; reflect_bools.
  { simplify_eq. repeat split; try lia. intros i Hi.
    destruct (decide (i = is_len s - 1)) as [->|]; [done|].
    pose proof (get_lt s i (is_len s - 1) Hs). lia. }
  destruct (Z.ltb_spec v (_intsetGet s 0)) as [Hlt|Hge].
  { simplify_eq. repeat split; try lia. intros i Hi.
    destruct (decide (i = 0)) as [->|]; [done|]. pose proof (get_lt s 0 i Hs). lia. }
  destruct (search_loop _ s v 0 (is_len s - 1) (-1) (-1)) as [[min mid] cur] eqn:Hloop.
  apply search_loop_spec in Hloop; [|done|lia..].
  destruct Hloop as [[-> Hl]|[Hne Hl]].
  - rewrite Z.eqb_refl in H. by simplify_eq.
  - rewrite (proj2 (Z.eqb_neq v cur)) in H by done. by simplify_eq.
Qed.

(** The result of a search is whether the value is there. *)
Lemma search_found s v :
  wf s → (intsetSearch s v).1 = bool_decide (v ∈ values s).
Proof.
  intros Hs. destruct (intsetSearch s v) as [found pos] eqn:H.
  apply search_spec in H; [|done]. symmetry. destruct found; simpl.
  - apply bool_decide_eq_true_2, elem_values. destruct H. eauto.
  - apply bool_decide_eq_false_2. rewrite elem_values. intros (i & Hi & <-).
    destruct H as (Hpos & Hlo & Hhi). destruct (decide (i < pos)).
    + specialize (Hlo i). lia.
    + specialize (Hhi i). lia.
Qed.

(** ** Reads after writes *)

(** The block has room for [n] values. *)
Definition room (s : intset) (n : Z) : Prop :=
  n * encoding s ≤ Z.of_nat (length (contents s)).

Lemma offset_Z enc pos : enc_ok enc → 0 ≤ pos → Z.of_nat (offset enc pos) = pos * enc.
Proof. intros He Hp. unfold offset. rewrite Nat2Z.inj_mul, Z2Nat.id, width_enc; done. Qed.

Lemma enc_pos enc : enc_ok enc → 0 < enc.
Proof. unfold enc_ok. lia. Qed.

Ltac block_arith :=
  repeat match goal with
  | H : enc_ok ?e |- context [offset ?e ?p] =>
      lazymatch goal with
      | _ : Z.of_nat (offset e p) = _ |- _ => fail
      | _ => pose proof (offset_Z e p H ltac:(lia))
      end
  | H : enc_ok ?e |- _ =>
      lazymatch goal with
      | _ : Z.of_nat (width e) = e |- _ => fail
      | _ => pose proof (width_enc e H); pose proof (enc_pos e H)
      end
  end; rewrite ?length_le_bytes; unfold room in *; simpl in *; nia.

Section block.
Context (s : intset) (He : enc_ok (encoding s)).

Lemma get_set_eq pos v :
  0 ≤ pos → room s (pos + 1) → fits (encoding s) v → _intsetGet (_intsetSet s pos v) pos = v.
Proof using He.
  intros Hp Hr Hv. unfold _intsetGet, _intsetGetEncoded, _intsetSet. simpl.
  rewrite <- (length_le_bytes (width (encoding s)) v) at 2.
  rewrite get_set_same by block_arith.
  apply le_value_signed; [block_arith|]. by rewrite width_enc.
Qed.

Lemma getenc_set_ne pos v p enc :
  enc_ok enc → 0 ≤ pos → 0 ≤ p → room s (pos + 1) →
  (p + 1) * enc ≤ Z.of_nat (length (contents s)) →
  ((p + 1) * enc ≤ pos * encoding s ∨ (pos + 1) * encoding s ≤ p * enc) →
  _intsetGetEncoded (_intsetSet s pos v) p enc = _intsetGetEncoded s p enc.
Proof using He.
  intros He' Hpos Hp Hr Hp' Hd. unfold _intsetGetEncoded, _intsetSet. simpl.
  rewrite get_set_other; [done|block_arith..].
Qed.

Lemma get_set_ne pos v p :
  0 ≤ pos → 0 ≤ p → room s (pos + 1) → room s (p + 1) → p ≠ pos →
  _intsetGet (_intsetSet s pos v) p = _intsetGet s p.
Proof using He.
  intros. unfold _intsetGet at 1. simpl. pose proof (enc_pos _ He).
  apply getenc_set_ne; auto. nia.
Qed.

Lemma room_set pos v n : 0 ≤ pos → room s (pos + 1) → room s n → room (_intsetSet s pos v) n.
Proof using He.
  intros Hp Hr Hn. unfold room in *. simpl. rewrite length_set_bytes; [done|block_arith].
Qed.

Lemma size_set pos v :
  0 ≤ pos → room s (pos + 1) →
  length (contents (_intsetSet s pos v)) = length (contents s).
Proof using He. intros Hp Hr. simpl. apply length_set_bytes. block_arith. Qed.

Lemma get_resize_lt junk n i :
  0 ≤ i < n → room s (i + 1) → _intsetGet (intsetResize junk s n) i = _intsetGet s i.
Proof using He.
  intros Hi Hr. unfold _intsetGet, _intsetGetEncoded, intsetResize. simpl.
  rewrite get_resize; [done|block_arith..].
Qed.

Lemma size_resize junk n :
  0 ≤ n → Z.of_nat (length (contents (intsetResize junk s n))) = n * encoding s.
Proof using He.
  intros Hn. simpl. rewrite length_resize_bytes. pose proof (enc_pos _ He). nia.
Qed.

(** The number of bytes that are moved. *)
Lemma bytes_moved from :
  0 ≤ from ≤ is_len s → bytes_counted s →
  wrap_u 32 (wrap_u 32 (is_len s - from) * Z.of_nat (width (encoding s))) = (is_len s - from) * encoding s.
Proof using He.
  intros Hf Hc. pose proof (enc_pos _ He). unfold bytes_counted, wrap_u in *. rewrite width_enc by done.
  rewrite (Z.mod_small (is_len s - from)) by nia. rewrite Z.mod_small by nia. done.
Qed.

(** [intsetMoveTail] shifts the values from [from] on to [to]. *)
Lemma get_move_tail from to i :
  bytes_counted s → 0 ≤ from ≤ is_len s → 0 ≤ to → 0 ≤ i →
  room s (is_len s) → room s (to + is_len s - from) → room s (i + 1) →
  (i < to ∨ to ≤ i < to + (is_len s - from)) →
  _intsetGet (intsetMoveTail s from to) i =
    _intsetGet s (if i <? to then i else i - to + from).
Proof using He.
  intros Hcount Hf Ht Hi Hl Hr Hri Hc. unfold _intsetGet, _intsetGetEncoded, intsetMoveTail.
  rewrite bytes_moved by done. simpl. pose proof (enc_pos _ He).
  assert (Z.of_nat (Z.to_nat ((is_len s - from) * encoding s)) = (is_len s - from) * encoding s) as Hbytes by (apply Z2Nat.id; nia).
  set (bytes := Z.to_nat ((is_len s - from) * encoding s)) in *.
  do 2 f_equal. destruct (Z.ltb_spec i to).
  - rewrite get_move_out; [done|block_arith..].
  - rewrite get_move_in; [|block_arith..]. f_equal. block_arith.
Qed.

Lemma size_move_tail from to :
  bytes_counted s → 0 ≤ from ≤ is_len s → 0 ≤ to → room s (is_len s) → room s (to + is_len s - from) →
  length (contents (intsetMoveTail s from to)) = length (contents s).
Proof using He.
  intros Hcount Hf Ht Hl Hr. unfold intsetMoveTail. rewrite bytes_moved by done. simpl. pose proof (enc_pos _ He).
  assert (Z.of_nat (Z.to_nat ((is_len s - from) * encoding s)) = (is_len s - from) * encoding s) as Hbytes by (apply Z2Nat.id; nia).
  apply length_move_bytes; block_arith.
Qed.
End block.

(** ** Insertion and removal as changes of the sequence *)

Lemma sorted_of_lookup (l : list Z) :
  (∀ i j x y, l !! i = Some x → l !! j = Some y → (i < j)%nat → x < y) → StronglySorted Z.lt l.
Proof.
  induction l as [|z l IH]; intros H; constructor.
  - apply IH. intros i j x y Hi Hj Hij. apply (H (S i) (S j)); auto. lia.
  - apply Forall_lookup. intros i x Hi. apply (H 0%nat (S i)); auto. lia.
Qed.

Lemma sorted_of_get s :
  (∀ i j, 0 ≤ i < j → j < is_len s → _intsetGet s i < _intsetGet s j) →
  StronglySorted Z.lt (values s).
Proof.
  intros H. apply sorted_of_lookup. intros i j x y Hi Hj Hij. unfold values in Hi, Hj.
  apply list_lookup_fmap_Some in Hi as (a & -> & [-> Ha]%lookup_seqZ).
  apply list_lookup_fmap_Some in Hj as (b & -> & [-> Hb]%lookup_seqZ).
  apply H; lia.
Qed.

(** [s'] is [s] with [v] at [pos]. *)
Record inserted (s s' : intset) (pos v : Z) : Prop := {
  ins_enc : enc_ok (encoding s');
  ins_len : is_len s' = is_len s + 1;
  ins_size : Z.of_nat (length (contents s')) = is_len s' * encoding s';
  ins_get i : 0 ≤ i < is_len s' →
    _intsetGet s' i =
      (if i <? pos then _intsetGet s i else if i =? pos then v else _intsetGet s (i - 1));
}.

Lemma inserted_wf s s' pos v :
  wf s → splits s v pos → inserted s s' pos v → is_len s + 1 < INT_MAX →
  wf s' ∧ set_of s' = {[v]} ∪ set_of s.
Proof.
  intros Hs (Hpos & Hlo & Hhi) [He Hl Hsize Hget] Hmax. pose proof (wf_len s Hs) as Hlen.
  split.
  - split; [done|lia|done|]. apply sorted_of_get. intros i j Hi Hj.
    rewrite !Hget by lia.
    repeat case_goal; try lia; subst; try (apply Hlo; lia); try (apply Hhi; lia);
      apply (get_lt s); auto; lia.
  - apply leibniz_equiv. intros x. unfold set_of.
    rewrite elem_of_union, elem_of_singleton, !elem_of_list_to_set, !elem_values. split.
    + intros (i & Hi & <-). rewrite Hget by done.
      repeat case_goal; [right|by left|right]; eexists; (split; [|done]); lia.
    + intros [->|(i & Hi & <-)].
      * exists pos. rewrite Hget by lia.
        rewrite (proj2 (Z.ltb_ge _ _)), Z.eqb_refl by lia. split; [lia|done].
      * destruct (decide (i < pos)).
        -- exists i. rewrite Hget by lia. rewrite (proj2 (Z.ltb_lt _ _)) by lia. split; [lia|done].
        -- exists (i + 1). rewrite Hget by lia.
           rewrite (proj2 (Z.ltb_ge _ _)), (proj2 (Z.eqb_neq _ _)) by lia.
           split; [lia|]. f_equal. lia.
Qed.

Lemma wf_room s : wf s → room s (is_len s).
Proof. intros Hs. unfold room. rewrite (wf_size s Hs). lia. Qed.

Lemma room_le s n m : enc_ok (encoding s) → room s m → n ≤ m → room s n.
Proof. intros He Hr Hn. pose proof (enc_pos _ He). unfold room in *. nia. Qed.

(** The path of [intsetAdd] that keeps the encoding. *)
Lemma add_inserted junk s v pos :
  wf s → bytes_counted s → fits (encoding s) v → 0 ≤ pos ≤ is_len s →
  let s1 := intsetResize junk s (is_len s + 1) in
  let s2 := if pos <? is_len s1 then intsetMoveTail s1 pos (pos + 1) else s1 in
  let s3 := _intsetSet s2 pos v in
  inserted s (with_length s3 (is_len s3 + 1)) pos v.
Proof.
  intros Hs Hcount Hv Hpos s1 s2 s3. pose proof (wf_enc s Hs) as He. pose proof (wf_len s Hs) as Hlen.
  assert (Z.of_nat (length (contents s1)) = (is_len s + 1) * encoding s) as Hsize1
    by (apply size_resize; [done|lia]).
  assert (encoding s1 = encoding s ∧ is_len s1 = is_len s) as [He1 Hl1] by done.
  assert (room s1 (is_len s + 1)) as Hroom1 by (unfold room; rewrite He1; lia).
  assert (enc_ok (encoding s1)) as Hok1 by (by rewrite He1).
  assert (encoding s2 = encoding s ∧ is_len s2 = is_len s) as [He2 Hl2]
    by (unfold s2; case_goal; done).
  assert (length (contents s2) = length (contents s1)) as Hsize2.
  { unfold s2. case_goal; [|done].
    apply size_move_tail; auto; try lia; (eapply room_le; [done|exact Hroom1|]); lia. }
  assert (enc_ok (encoding s2)) as Hok2 by (by rewrite He2).
  assert (room s2 (is_len s + 1)) as Hroom2 by (unfold room; rewrite Hsize2, He2; lia).
  assert (room s2 (pos + 1)) as Hroomp by (eapply room_le; [done|exact Hroom2|lia]).
  split.
  - simpl. by rewrite He2.
  - simpl. by rewrite Hl2.
  - change (contents (with_length s3 (is_len s3 + 1))) with (contents s3).
    unfold s3. rewrite size_set by (done || lia). simpl. rewrite He2, Hl2. lia.
  - simpl. rewrite Hl2. intros i Hi.
    change (_intsetGet (with_length s3 _) i) with (_intsetGet s3 i). unfold s3.
    destruct (decide (i = pos)) as [->|Hne].
    + rewrite get_set_eq by (try rewrite He2; done || lia).
      by rewrite (proj2 (Z.ltb_ge _ _)), Z.eqb_refl by lia.
    + rewrite get_set_ne; [|done|lia|lia|done|eapply room_le; [done|exact Hroom2|lia]|done].
      rewrite (proj2 (Z.eqb_neq i pos)) by done. unfold s2.
      destruct (Z.ltb_spec pos (is_len s1)) as [Hmv|Hend].
      * rewrite get_move_tail; [|done|done|lia|lia|lia
          |eapply room_le; [done|exact Hroom1|lia]..|lia].
        destruct (Z.ltb_spec i pos).
        -- rewrite (proj2 (Z.ltb_lt i (pos + 1))) by lia.
           apply get_resize_lt; [done|lia|]. eapply room_le; [done|by apply wf_room|lia].
        -- rewrite (proj2 (Z.ltb_ge i (pos + 1))) by lia.
           replace (i - (pos + 1) + pos) with (i - 1) by lia.
           apply get_resize_lt; [done|lia|]. eapply room_le; [done|by apply wf_room|lia].
      * rewrite (proj2 (Z.ltb_lt i pos)) by lia.
        apply get_resize_lt; [done|lia|]. eapply room_le; [done|by apply wf_room|lia].
Qed.

(** ** Widening *)

(** The loop copies from the back, so that what it has not read is intact. *)
Lemma upgrade_loop_spec (n : nat) t cur prepend L (f : Z → Z) :
  enc_ok cur → enc_ok (encoding t) → cur ≤ encoding t → 0 ≤ prepend ≤ 1 →
  Z.of_nat n ≤ L → room t (L + 1) →
  (∀ i, 0 ≤ i < L → fits (encoding t) (f i)) →
  (∀ i, 0 ≤ i < Z.of_nat n → _intsetGetEncoded t i cur = f i) →
  (∀ i, Z.of_nat n ≤ i < L → _intsetGet t (i + prepend) = f i) →
  let t' := upgrade_loop n t prepend cur in
  encoding t' = encoding t ∧ is_len t' = is_len t ∧
  length (contents t') = length (contents t) ∧
  ∀ i, 0 ≤ i < L → _intsetGet t' (i + prepend) = f i.
Proof.
  intros Hcur. revert t. induction n as [|n IH];
    intros t Het Hle Hpre Hn Hroom Hfits Hold Hnew; simpl.
  { by repeat split. }
  pose proof (enc_pos _ Hcur). pose proof (enc_pos _ Het).
  assert (room t (Z.of_nat n + prepend + 1)) as Hr by (eapply room_le; [done|exact Hroom|lia]).
  rewrite Hold by lia.
  destruct (IH (_intsetSet t (Z.of_nat n + prepend) (f (Z.of_nat n)))) as (H1 & H2 & H3 & H4);
    auto; try lia.
  - apply room_set; auto; lia.
  - intros i Hi. rewrite getenc_set_ne;
      [apply Hold; lia|done|done|lia|lia|done|unfold room in Hroom; nia|left; nia].
  - intros i Hi. destruct (decide (i = Z.of_nat n)) as [->|Hne].
    + apply get_set_eq; auto; [lia|]. apply Hfits. lia.
    + rewrite get_set_ne; [apply Hnew; lia|done|lia|lia|done| |lia].
      eapply room_le; [done|exact Hroom|lia].
  - rewrite H1, H2, H3, size_set by (done || lia). done.
Qed.

Lemma getenc_resize junk s n i enc :
  enc_ok enc → 0 ≤ i → 0 ≤ n → enc_ok (encoding s) →
  (i + 1) * enc ≤ Z.of_nat (length (contents s)) → (i + 1) * enc ≤ n * encoding s →
  _intsetGetEncoded (intsetResize junk s n) i enc = _intsetGetEncoded s i enc.
Proof.
  intros He Hi Hn Hes Hr Hn'. unfold _intsetGetEncoded, intsetResize. simpl.
  pose proof (offset_Z enc i He Hi). pose proof (width_enc enc He). pose proof (enc_pos _ Hes).
  rewrite get_resize; [done|nia..].
Qed.

Lemma fits_mono e e' v : enc_ok e → enc_ok e' → e ≤ e' → fits e v → fits e' v.
Proof.
  unfold fits. intros [->|[->| ->]] [->|[->| ->]] Hle Hv; simpl in *; lia.
Qed.

Lemma upgrade_inserted junk s v :
  wf s → in_llong v → encoding s < _intsetValueEncoding v →
  inserted s (intsetUpgradeAndAdd junk s v) (if v <? 0 then 0 else is_len s) v.
Proof.
  intros Hs Hv Henc. pose proof (wf_enc s Hs) as He. pose proof (wf_len s Hs) as Hlen.
  pose proof (valenc_ok v) as Hne. unfold intsetUpgradeAndAdd.
  set (new := _intsetValueEncoding v) in *.
  set (prepend := if v <? 0 then 1 else 0).
  assert (0 ≤ prepend ≤ 1) as Hpre by (unfold prepend; case_goal; lia).
  set (t0 := mkIntset new (is_len s) (contents s)).
  set (t1 := intsetResize junk t0 (is_len t0 + 1)).
  assert (Z.of_nat (length (contents t1)) = (is_len s + 1) * new) as Hsize1
    by (apply (size_resize t0); [done|simpl; lia]).
  assert (room t1 (is_len s + 1)) as Hroom1 by (unfold room; rewrite Hsize1; simpl; lia).
  pose proof (enc_pos _ He). pose proof (enc_pos _ Hne).
  destruct (upgrade_loop_spec (Z.to_nat (is_len s)) t1 (encoding s) prepend (is_len s)
    (_intsetGet s)) as (H1 & H2 & H3 & H4); auto; try lia.
  - simpl. lia.
  - intros i Hi. simpl. eapply fits_mono; [exact He|done|lia|]. by apply get_fits.
  - intros i Hi. unfold t1. rewrite getenc_resize; auto; try lia; simpl;
      rewrite ?(wf_size s Hs); nia.
  - change (is_len t1) with (is_len s) in *.
    set (t2 := upgrade_loop (Z.to_nat (is_len s)) t1 prepend (encoding s)) in *.
    assert (enc_ok (encoding t2)) as He2 by (by rewrite H1).
    assert (fits (encoding t2) v) as Hfit
      by (rewrite H1; apply valenc_fits; [done|done|simpl; lia]).
    assert (room t2 (is_len s + 1)) as Hroom2 
      by (unfold room; rewrite H1, H3, Hsize1; apply Z.le_refl).
    set (p := if v <? 0 then 0 else is_len s).
    assert ((if prepend =? 1 then _intsetSet t2 0 v else _intsetSet t2 (is_len t2) v) =
      _intsetSet t2 p v) as ->.
    { unfold prepend, p. rewrite H2. by destruct (v <? 0). }
    assert (0 ≤ p ≤ is_len s) as Hp by (unfold p; case_goal; lia).
    assert (room t2 (p + 1)) as Hroomp by (eapply room_le; [done|exact Hroom2|lia]).
    split.
    + done.
    + simpl. lia.
    + change (contents (with_length ?t _)) with (contents t).
      rewrite size_set by (done || lia). rewrite H3, Hsize1. simpl. rewrite H1, H2. done.
    + simpl. rewrite H2. intros i Hi.
      change (_intsetGet (with_length ?t _) i) with (_intsetGet t i).
      destruct (decide (i = p)) as [->|Hip].
      * rewrite get_set_eq by (done || lia). by rewrite Z.ltb_irrefl, Z.eqb_refl.
      * rewrite get_set_ne; [|done|lia|lia|done|eapply room_le; [done|exact Hroom2|lia]|done].
        rewrite (proj2 (Z.eqb_neq i p)) by done.
        unfold p, prepend in *. destruct (v <? 0).
        -- rewrite (proj2 (Z.ltb_ge i 0)) by lia. rewrite <- (H4 (i - 1)) by lia. f_equal. lia.
        -- rewrite (proj2 (Z.ltb_lt i (is_len s))) by lia. rewrite <- (H4 i) by lia. f_equal. lia.
Qed.

Lemma upgrade_splits s v :
  wf s → in_llong v → encoding s < _intsetValueEncoding v →
  splits s v (if v <? 0 then 0 else is_len s).
Proof.
  intros Hs Hv Henc. pose proof (wf_len s Hs). pose proof (wf_enc s Hs) as He.
  assert (¬ fits (encoding s) v) as Hnf by (rewrite <- valenc_fits by done; lia).
  assert (∀ i, fits (encoding s) (_intsetGet s i)) as Hf by (intros; by apply get_fits).
  assert (0 < 2 ^ (8 * encoding s - 1)) by (apply Z.pow_pos_nonneg; pose proof (enc_pos _ He); lia).
  unfold fits in *.
  destruct (Z.ltb_spec v 0); repeat split; try lia; intros i Hi; specialize (Hf i); lia.
Qed.

(** ** Removal *)

Record removed (s s' : intset) (pos : Z) : Prop := {
  rem_enc : encoding s' = encoding s;
  rem_len : is_len s' = is_len s - 1;
  rem_size : Z.of_nat (length (contents s')) = is_len s' * encoding s';
  rem_get i : 0 ≤ i < is_len s' →
    _intsetGet s' i = _intsetGet s (if i <? pos then i else i + 1);
}.

Lemma removed_wf s s' pos v :
  wf s → located s v pos → removed s s' pos →
  wf s' ∧ set_of s' = set_of s ∖ {[v]}.
Proof.
  intros Hs [Hpos Hv] [He Hl Hsize Hget]. pose proof (wf_len s Hs) as Hlen. split.
  - split; [rewrite He; apply Hs|lia|done|]. apply sorted_of_get. intros i j Hi Hj.
    rewrite !Hget by lia. apply get_lt; [done|..]; repeat case_goal; lia.
  - apply leibniz_equiv. intros x. unfold set_of.
    rewrite elem_of_difference, elem_of_singleton, !elem_of_list_to_set, !elem_values. split.
    + intros (i & Hi & <-). rewrite Hget by done. split.
      * eexists. split; [|done]. case_goal; lia.
      * rewrite <- Hv. destruct (Z.ltb_spec i pos).
        -- pose proof (get_lt s i pos Hs). lia.
        -- pose proof (get_lt s pos (i + 1) Hs). lia.
    + intros [(i & Hi & <-) Hx]. assert (i ≠ pos) by congruence.
      destruct (decide (i < pos)).
      * exists i. rewrite Hget by lia. rewrite (proj2 (Z.ltb_lt _ _)) by lia. split; [lia|done].
      * exists (i - 1). rewrite Hget by lia. rewrite (proj2 (Z.ltb_ge _ _)) by lia.
        split; [lia|]. f_equal. lia.
Qed.

Lemma remove_removed junk s pos :
  wf s → bytes_counted s → 0 ≤ pos < is_len s →
  let s1 := if pos <? is_len s - 1 then intsetMoveTail s (pos + 1) pos else s in
  let s2 := intsetResize junk s1 (is_len s - 1) in
  removed s (with_length s2 (is_len s - 1)) pos.
Proof.
  intros Hs Hcount Hpos s1 s2. pose proof (wf_enc s Hs) as He. pose proof (wf_len s Hs) as Hlen.
  pose proof (wf_room s Hs) as Hroom.
  assert (encoding s1 = encoding s) as He1 by (unfold s1; case_goal; done).
  assert (length (contents s1) = length (contents s)) as Hsize1.
  { unfold s1. case_goal; [|done]. apply size_move_tail; auto; try lia.
    eapply room_le; [done|exact Hroom|lia]. }
  assert (enc_ok (encoding s1)) as Hok1 by (by rewrite He1).
  assert (room s1 (is_len s)) as Hroom1 by (unfold room; by rewrite Hsize1, He1).
  split; [done|done|..].
  - change (contents (with_length s2 (is_len s - 1))) with (contents s2). unfold s2.
    rewrite size_resize by (done || lia). simpl. by rewrite He1.
  - simpl. intros i Hi. change (_intsetGet (with_length s2 _) i) with (_intsetGet s2 i).
    unfold s2. rewrite get_resize_lt; [|done|lia|eapply room_le; [done|exact Hroom1|lia]].
    unfold s1. destruct (Z.ltb_spec pos (is_len s - 1)).
    + rewrite get_move_tail; [|done|done|lia|lia|lia|eapply room_le; [done|exact Hroom|lia]..|lia].
      f_equal. case_goal; lia.
    + f_equal. case_goal; lia.
Qed.

(** ** Properties *)

Lemma splits_not_in s v pos : splits s v pos → v ∉ set_of s.
Proof.
  intros (Hpos & Hlo & Hhi). unfold set_of.
  rewrite elem_of_list_to_set, elem_values. intros (i & Hi & Hv).
  destruct (decide (i < pos)); [specialize (Hlo i)|specialize (Hhi i)]; lia.
Qed.

Lemma intsetAdd_spec junk s v (Hs : wf s) (Hv : in_llong v)
    (Hcount : bytes_counted s) (Hlen : is_len s + 1 < INT_MAX) :
  let '(s', success) := intsetAdd junk s v in
  wf s' ∧ set_of s' = {[v]} ∪ set_of s ∧ success = bool_decide (v ∉ set_of s).
Proof.
  unfold intsetAdd. destruct (_intsetValueEncoding v >? encoding s) eqn:Henc; reflect_bools.
  - pose proof (upgrade_splits s v Hs Hv Henc) as Hsp.
    destruct (inserted_wf s _ _ v Hs Hsp (upgrade_inserted junk s v Hs Hv Henc) Hlen).
    rewrite bool_decide_eq_true_2; [done|by eapply splits_not_in].
  - destruct (intsetSearch s v) as [[] pos] eqn:Hsearch; apply search_spec in Hsearch; try done.
    + assert (v ∈ set_of s) as Hin.
      { unfold set_of. rewrite elem_of_list_to_set, elem_values. destruct Hsearch. eauto. }
      rewrite bool_decide_eq_false_2 by (by intros []). split; [done|]. split; [set_solver|done].
    + assert (fits (encoding s) v) as Hfit by (apply valenc_fits; [apply Hs|done|lia]).
      destruct (inserted_wf s _ pos v Hs Hsearch
        (add_inserted junk s v pos Hs Hcount Hfit ltac:(apply Hsearch)) Hlen).
      rewrite bool_decide_eq_true_2; [done|by eapply splits_not_in].
Qed.

(** C14: [intsetAdd] implements insertion into a finite set of 64-bit integers:
    whatever bytes the allocator returns, the result is a well-formed block
    for the set with the value, in a wider encoding if the value needs one,
    and the flag tells whether the value is new.  The bytes of the block are
    less than 2^32, since [intsetMoveTail] counts them in 32 bits. *)
Theorem intsetAdd_refines junk s v (Hs : wf s) (Hv : in_llong v)
    (Hcount : bytes_counted s) (Hlen : is_len s + 1 < INT_MAX) :
  let '(s', success) := intsetAdd junk s v in
  wf s' ∧ set_of s' = {[v]} ∪ set_of s ∧ success = bool_decide (v ∉ set_of s).
Proof. by apply intsetAdd_spec. Qed.

(** From 2^29 values of 64 bits on the count wraps around: the tail of 2^29
    values is not moved at all, although [intsetMaxEntries] allows for
    2^30. *)
Lemma intsetMoveTail_wraps s from to :
  encoding s = 8 → 0 ≤ from → is_len s - from = 2 ^ 29 → intsetMoveTail s from to = s.
Proof.
  intros He Hf Hl. unfold intsetMoveTail. rewrite He, Hl.
  change (wrap_u 32 _) with 0. destruct s as [enc n l]. unfold with_contents, move_bytes, set_bytes, get_bytes. cbn.
  change (Z.to_nat 0) with 0%nat. by rewrite take_0, app_nil_l, Nat.add_0_r, take_drop.
Qed.

Lemma intsetNew_wf : wf intsetNew ∧ set_of intsetNew = ∅.
Proof. split; [|done]. split; [by left|done|done|constructor]. Qed.

(** Two values in the 32-bit encoding, in memory that [zrealloc] filled with
    sevens. *)
Definition sample : intset :=
  (intsetAdd (λ _, 7) (intsetAdd (λ _, 7) intsetNew 70000).1 (-3)).1.

Lemma sample_wf : wf sample.
Proof.
  split; [right; left; reflexivity|vm_compute; split; congruence|reflexivity|].
  vm_compute values. repeat constructor.
Qed.

Lemma intsetAdd_refines_witness :
  let '(s', success) := intsetAdd (λ _, 7) sample 9000000000 in
  wf s' ∧ set_of s' = {[9000000000]} ∪ set_of sample ∧
  success = bool_decide (9000000000 ∉ set_of sample).
Proof. apply (intsetAdd_refines (λ _, 7) sample 9000000000 sample_wf); done. Defined.

Lemma intsetRemove_spec junk s v (Hs : wf s) (Hv : in_llong v) (Hcount : bytes_counted s) :
  let '(s', success) := intsetRemove junk s v in
  wf s' ∧ set_of s' = set_of s ∖ {[v]} ∧ success = bool_decide (v ∈ set_of s).
Proof.
  unfold intsetRemove.
  assert (v ∉ set_of s →
    wf s ∧ set_of s = set_of s ∖ {[v]} ∧ false = bool_decide (v ∈ set_of s)) as Hno.
  { intros Hn. rewrite bool_decide_eq_false_2 by done. split; [done|]. split; [set_solver|done]. }
  destruct (Z.leb_spec (_intsetValueEncoding v) (encoding s)) as [Hle|Hgt].
  - destruct (intsetSearch s v) as [[] pos] eqn:Hsearch; apply search_spec in Hsearch; try done.
    + destruct (removed_wf s _ pos v Hs Hsearch (remove_removed junk s pos Hs Hcount (proj1 Hsearch))).
      rewrite bool_decide_eq_true_2; [done|].
      unfold set_of. rewrite elem_of_list_to_set, elem_values. destruct Hsearch. eauto.
    + by eapply Hno, splits_not_in.
  - eapply Hno, splits_not_in, upgrade_splits; eauto.
Qed.

(** [intsetRemove] implements deletion from the set, and the flag tells
    whether the value was there. *)
Theorem intsetRemove_refines junk s v (Hs : wf s) (Hv : in_llong v) (Hcount : bytes_counted s) :
  let '(s', success) := intsetRemove junk s v in
  wf s' ∧ set_of s' = set_of s ∖ {[v]} ∧ success = bool_decide (v ∈ set_of s).
Proof. by apply intsetRemove_spec. Qed.

Lemma intsetRemove_refines_witness :
  let '(s', success) := intsetRemove (λ _, 7) sample (-3) in
  wf s' ∧ set_of s' = set_of sample ∖ {[-3]} ∧ success = bool_decide (-3 ∈ set_of sample).
Proof. apply (intsetRemove_refines (λ _, 7) sample (-3) sample_wf); done. Defined.

Lemma intsetFind_spec s v (Hs : wf s) (Hv : in_llong v) :
  intsetFind s v = bool_decide (v ∈ set_of s).
Proof.
  unfold intsetFind. rewrite search_found by done.
  destruct (Z.leb_spec (_intsetValueEncoding v) (encoding s)) as [Hle|Hgt]; simpl.
  - apply bool_decide_ext. unfold set_of. by rewrite elem_of_list_to_set.
  - symmetry. apply bool_decide_eq_false_2. eapply splits_not_in, upgrade_splits; eauto.
Qed.

(** [intsetFind] decides membership. *)
Theorem intsetFind_refines s v (Hs : wf s) (Hv : in_llong v) :
  intsetFind s v = bool_decide (v ∈ set_of s).
Proof. by apply intsetFind_spec. Qed.

Lemma intsetFind_refines_witness : intsetFind sample (-3) = bool_decide (-3 ∈ set_of sample).
Proof. apply (intsetFind_refines sample (-3) sample_wf); done. Defined.

(** ** Serialised sets *)

Lemma in_order_spec n s i prev :
  in_order n s i prev = true ↔
  ∀ k, 0 ≤ k < Z.of_nat n →
    (if k =? 0 then prev else _intsetGet s (i + k - 1)) < _intsetGet s (i + k).
Proof.
  revert i prev. induction n as [|n IH]; intros i prev; cbn [in_order].
  { split; [|done]. intros _ k Hk. lia. }
  destruct (Z.leb_spec (_intsetGet s i) prev) as [Hle|Hgt].
  - split; [done|]. intros H. specialize (H 0 ltac:(lia)). rewrite Z.add_0_r in H. simpl in H. lia.
  - rewrite IH. split.
    + intros H k Hk. destruct (Z.eqb_spec k 0) as [->|Hk0]; [by rewrite Z.add_0_r|].
      specialize (H (k - 1) ltac:(lia)).
      replace (i + 1 + (k - 1)) with (i + k) in H by lia.
      destruct (Z.eqb_spec (k - 1) 0); [by replace (i + k - 1) with i by lia|].
      by replace (i + 1 + (k - 1) - 1) with (i + k - 1) in H by lia.
    + intros H k Hk. specialize (H (k + 1) ltac:(lia)).
      rewrite (proj2 (Z.eqb_neq (k + 1) 0)) in H by lia.
      replace (i + (k + 1)) with (i + 1 + k) in H by lia.
      destruct (Z.eqb_spec k 0) as [->|]; [|done].
      by replace (i + 1 + 0 - 1) with i in H by lia.
Qed.

Lemma in_order_sorted s :
  0 < is_len s →
  (in_order (Z.to_nat (is_len s) - 1) s 1 (_intsetGet s 0) = true ↔
   StronglySorted Z.lt (values s)).
Proof.
  intros Hl. rewrite in_order_spec. split.
  - intros H. apply sorted_of_get.
    assert (∀ i, 0 ≤ i < is_len s - 1 → _intsetGet s i < _intsetGet s (i + 1)) as Hstep.
    { intros i Hi. specialize (H i ltac:(lia)). rewrite (Z.add_comm i).
      destruct (Z.eqb_spec i 0); [by subst i|].
      by replace (1 + i - 1) with i in H by lia. }
    intros i j Hi. remember (Z.to_nat (j - i)) as d eqn:Hd. revert j Hi Hd.
    induction d as [|d IH]; intros j Hi Hd Hj; [lia|].
    destruct (decide (j = i + 1)) as [->|]; [apply Hstep; lia|].
    etrans; [apply (IH (j - 1)); lia|].
    replace j with (j - 1 + 1) at 2 by lia. apply Hstep. lia.
  - intros Hs k Hk.
    assert (∀ i, 0 ≤ i < is_len s - 1 → _intsetGet s i < _intsetGet s (i + 1)) as Hstep.
    { intros i Hi. apply (sorted_lookup (values s) (Z.to_nat i) (Z.to_nat (i + 1))); [done|..|lia];
        rewrite lookup_values by lia; do 2 f_equal; lia. }
    specialize (Hstep k ltac:(lia)). rewrite (Z.add_comm k) in Hstep.
    destruct (Z.eqb_spec k 0) as [->|]; [done|].
    by replace (1 + k - 1) with k by lia.
Qed.

(** The deep integrity check of a serialised block accepts exactly the
    blocks that represent a non-empty set. *)
Theorem intsetValidateIntegrity_spec p (Hp : Forall byte_ok p)
    (Hsize : Z.of_nat (length p) < INT_MAX) :
  intsetValidateIntegrity p (Z.of_nat (length p)) true = true ↔
  sizeof_intset ≤ Z.of_nat (length p) ∧
  wf (intset_of_bytes p) ∧ set_of (intset_of_bytes p) ≠ ∅.
Proof.
  unfold intsetValidateIntegrity.
  destruct (Z.ltb_spec (Z.of_nat (length p)) sizeof_intset) as [Hs|Hs]; [lia|].
  unfold sizeof_intset in *.
  set (s := intset_of_bytes p).
  assert (0 ≤ is_len s) as Hlen.
  { apply le_value_range. apply Forall_take, Forall_drop, Hp. }
  assert (Z.of_nat (length (contents s)) = Z.of_nat (length p) - 8) as Hc.
  { simpl. rewrite length_drop. lia. }
  assert ((encoding s =? INTSET_ENC_INT64) || (encoding s =? INTSET_ENC_INT32) ||
    (encoding s =? INTSET_ENC_INT16) = bool_decide (enc_ok (encoding s))) as ->.
  { unfold enc_ok, INTSET_ENC_INT16, INTSET_ENC_INT32, INTSET_ENC_INT64.
    case_bool_decide; repeat case_match; reflect_bools; lia. }
  case_bool_decide as He; cbn [negb]; [|split; [done|]; by intros (_ & [] & _)].
  pose proof (enc_pos _ He).
  destruct (Z.eqb_spec (8 + is_len s * encoding s) (Z.of_nat (length p))) as [Hsz|Hsz];
    cbn [negb]; [|split; [done|]; intros (_ & Hwf & _); pose proof (wf_size s Hwf); lia].
  destruct (Z.eqb_spec (is_len s) 0) as [H0|H0].
  { split; [done|]. intros (_ & _ & []). unfold set_of, values. by rewrite H0. }
  rewrite in_order_sorted by lia. split.
  - intros Hsorted. split; [done|]. split; [split; try done; nia|].
    intros Hempty. assert (_intsetGet s 0 ∈ set_of s) as Hin.
    { unfold set_of. rewrite elem_of_list_to_set, elem_values. exists 0. split; [lia|done]. }
    rewrite Hempty in Hin. set_solver.
  - by intros (_ & [] & _).
Qed.

(** The blob of the set {1, 300}. *)
Lemma intsetValidateIntegrity_spec_witness :
  let p := [2; 0; 0; 0; 2; 0; 0; 0; 1; 0; 44; 1] in
  intsetValidateIntegrity p 12 true = true ∧
  (intsetValidateIntegrity p 12 true = true ↔
   sizeof_intset ≤ 12 ∧ wf (intset_of_bytes p) ∧ set_of (intset_of_bytes p) ≠ ∅).
Proof.
  split; [reflexivity|].
  apply (intsetValidateIntegrity_spec [2; 0; 0; 0; 2; 0; 0; 0; 1; 0; 44; 1]); [|done].
  repeat (constructor; [unfold byte_ok; lia|]). constructor.
Defined.
