(* ===== verification/Glob.v ===== *)
(** * Glob patterns

    [stringmatchlen] of src/redis/src/util.c, which selects the keys of
    [KEYS].  A pattern and a string are NUL-terminated, so that a read one
    past the end is NUL; the lengths are those of the strings.  The matcher
    with its early exit is shown equivalent to the declarative meaning of
    patterns. *)

From S2P Require Import Prelude CLib Hiredis Program ServerSpec.
From Stdlib Require Import Ascii.

Open Scope char_scope.

(** ** Characters *)

(** A [char] as the [int] the comparisons promote it to. *)
Definition char_int (c : ascii) : Z := wrap_s 8 (Z.of_N (N_of_ascii c)).

Definition fold_case (nocase : bool) (c : ascii) : ascii := if nocase then tolower c else c.

Definition same_char (nocase : bool) (a b : ascii) : bool :=
  bool_decide (fold_case nocase a = fold_case nocase b).

(** [pattern[0]], [pattern[1]] and so on. *)
Definition head (p : string) : ascii := match p with String c _ => c | EmptyString => NUL end.
Definition tail (p : string) : string := match p with String _ p => p | EmptyString => EmptyString end.

(** ** The matcher *)

(** The body of a character class, from the current position of the pattern:
    whether [c] matched and the pattern after the class.  Every turn consumes
    the pattern, so its length is enough fuel. *)
Fixpoint class_loop (fuel : nat) (nocase : bool) (p : string) (c : ascii) (matched : bool) :
    bool * string :=
  match fuel with
  | O => (matched, EmptyString)
  | S fuel =>
      if bool_decide (head p = "\") && (2 <=? String.length p)%nat then
        let p := tail p in
        class_loop fuel nocase (tail p) c (matched || bool_decide (head p = c))
      else if bool_decide (head p = "]") then (matched, tail p)
      else
        match p with
        | EmptyString => (matched, EmptyString)
        | String a (String "-" (String b p')) =>
            let start := if (char_int b <? char_int a)%Z then b else a in
            let stop := if (char_int b <? char_int a)%Z then a else b in
            let start := char_int (fold_case nocase start) in
            let stop := char_int (fold_case nocase stop) in
            let x := char_int (fold_case nocase c) in
            class_loop fuel nocase p' c (matched || ((start <=? x) && (x <=? stop))%Z)
        | String a p' => class_loop fuel nocase p' c (matched || same_char nocase a c)
        end
  end.

(** After the opening bracket. *)
Definition class_match (nocase : bool) (p : string) (c : ascii) : bool * string :=
  let negated := bool_decide (head p = "^") in
  let p := if negated then tail p else p in
  let '(matched, p) := class_loop (S (String.length p)) nocase p c false in
  (if negated then negb matched else matched, p).

(** [while (pattern[0] == '*') pattern++] *)
Fixpoint skip_stars (p : string) : string :=
  match p with
  | String c p' => if bool_decide (c = "*") then skip_stars p' else p
  | EmptyString => EmptyString
  end.

(** The cases of the [switch] that consume one character [c] of the string,
    with the pattern after them, or the mismatch that ends the search. *)
Definition consume (nocase : bool) (a : ascii) (p : string) (c : ascii) : option string :=
  if bool_decide (a = "?") then Some p
  else if bool_decide (a = "[") then
    let '(matched, p) := class_match nocase p c in
    if matched : bool then Some p else None
  else
    let '(a, p) :=
      if bool_decide (a = "\") && (1 <=? String.length p)%nat
      then (head p, tail p) else (a, p) in
    if same_char nocase a c then Some p else None.

(** The loop of the ['*'] case, over the call that matches the rest of the
    pattern; the second component is [*skipLongerMatches]. *)
Fixpoint star_loop (rest : string → bool → bool * bool) (str : string) (skip : bool) :
    bool * bool :=
  match str with
  | EmptyString => (false, true)
  | String _ str' =>
      let '(matched, skip) := rest str skip in
      if matched : bool then (true, skip)
      else if skip : bool then (false, skip)
      else star_loop rest str' skip
  end.

(** The result and [*skipLongerMatches].  Every turn of the loop and every
    call consumes the pattern, so its length is enough fuel. *)
Fixpoint stringmatchlen_impl (fuel : nat) (pattern str : string) (nocase skip : bool)
    (nesting : nat) : bool * bool :=
  match fuel with
  | O => (false, skip)
  | S fuel =>
      if (1000 <? nesting)%nat then (false, skip)
      else
        match pattern, str with
        | String a p, String c s =>
            if bool_decide (a = "*") then
              let p := skip_stars p in
              if bool_decide (p = EmptyString) then (true, skip)
              else
                star_loop (λ str skip,
                  stringmatchlen_impl fuel p str nocase skip (S nesting)) str skip
            else
              match consume nocase a p c with
              | None => (false, skip)
              | Some p =>
                  if bool_decide (s = EmptyString)
                  then (bool_decide (skip_stars p = EmptyString), skip)
                  else stringmatchlen_impl fuel p s nocase skip nesting
              end
        | EmptyString, EmptyString => (true, skip)
        | _, _ => (false, skip)
        end
  end.

Definition stringmatchlen (pattern str : string) (nocase : bool) : bool :=
  (stringmatchlen_impl (S (String.length pattern)) pattern str nocase false 0).1.

(** ** The meaning of patterns *)

Inductive glob (nocase : bool) : string → string → Prop :=
| g_end : glob nocase EmptyString EmptyString
| g_star_skip p s : glob nocase p s → glob nocase (String "*" p) s
| g_star_more p c s : glob nocase (String "*" p) s → glob nocase (String "*" p) (String c s)
| g_any p c s : glob nocase p s → glob nocase (String "?" p) (String c s)
| g_class p p' c s :
    class_match nocase p c = (true, p') → glob nocase p' s →
    glob nocase (String "[" p) (String c s)
| g_escape a p c s :
    same_char nocase a c = true → glob nocase p s →
    glob nocase (String "\" (String a p)) (String c s)
| g_literal a p c s :
    a ∉ ["*"; "?"; "["] → (a = "\" → p = EmptyString) →
    same_char nocase a c = true → glob nocase p s → glob nocase (String a p) (String c s).

(** ** Suffixes *)

Inductive suffix_of : string → string → Prop :=
| suffix_refl s : suffix_of s s
| suffix_cons c s t : suffix_of t s → suffix_of t (String c s).

Fixpoint stars (p : string) : nat :=
  match p with
  | EmptyString => 0
  | String c p => if bool_decide (c = "*") then S (stars p) else stars p
  end%nat.

Create HintDb glob.
#[local] Hint Constructors suffix_of glob : glob.

Lemma suffix_trans r s t : suffix_of r s → suffix_of s t → suffix_of r t.
Proof. induction 2; eauto with glob. Qed.

Lemma suffix_tail p : suffix_of (tail p) p.
Proof. destruct p; eauto with glob. Qed.

Lemma suffix_uncons c s t : suffix_of (String c t) s → suffix_of t s.
Proof.
  intros H. remember (String c t) as u eqn:E. induction H; subst; eauto with glob.
Qed.

Lemma suffix_empty s : suffix_of EmptyString s.
Proof. induction s; eauto with glob. Qed.

Lemma suffix_length t s : suffix_of t s → (String.length t <= String.length s)%nat.
Proof. induction 1; simpl; lia. Qed.

Lemma suffix_stars t s : suffix_of t s → (stars t <= stars s)%nat.
Proof.
  induction 1 as [|c s t H IH]; simpl; [done|]. case_bool_decide; lia.
Qed.

Lemma skip_stars_suffix p : suffix_of (skip_stars p) p.
Proof. induction p as [|c p IH]; simpl; [|case_bool_decide]; eauto with glob. Qed.

Lemma skip_stars_head p : skip_stars p = EmptyString ∨ head (skip_stars p) ≠ "*".
Proof. induction p as [|c p IH]; simpl; [auto|]. case_bool_decide; simpl; auto. Qed.

(** ** The class and the single steps *)

Section class.
Context (nocase : bool).

(** Where the class ends does not depend on the character. *)
Lemma class_loop_rest fuel p c c' m m' :
  (class_loop fuel nocase p c m).2 = (class_loop fuel nocase p c' m').2.
Proof.
  revert p m m'. induction fuel as [|fuel IH]; intros p m m'; cbn [class_loop]; [done|].
  destruct (_ && _); [apply IH|]. destruct (bool_decide _); [done|].
  repeat (case_match; try done; try apply IH).
Qed.

Lemma class_loop_suffix fuel p c m : suffix_of (class_loop fuel nocase p c m).2 p.
Proof.
  revert p m. induction fuel as [|fuel IH]; intros p m; cbn [class_loop];
    [apply suffix_empty|].
  destruct (_ && _).
  { eapply suffix_trans; [apply IH|]. eapply suffix_trans; apply suffix_tail. }
  destruct (bool_decide _); [apply suffix_tail|].
  repeat (case_match; try apply suffix_empty;
          try (eapply suffix_trans; [apply IH|]; eauto 7 with glob)).
Qed.

Lemma class_match_rest p c c' : (class_match nocase p c).2 = (class_match nocase p c').2.
Proof.
  unfold class_match. set (q := if bool_decide _ then _ else _).
  pose proof (class_loop_rest (S (String.length q)) q c c' false false) as H.
  destruct (class_loop _ _ _ c _), (class_loop _ _ _ c' _). exact H.
Qed.

Lemma class_match_suffix p c : suffix_of (class_match nocase p c).2 p.
Proof.
  unfold class_match. set (q := if bool_decide _ then _ else _).
  assert (suffix_of q p) as Hq by (unfold q; case_bool_decide; eauto using suffix_tail with glob).
  pose proof (class_loop_suffix (S (String.length q)) q c false) as H.
  destruct (class_loop _ _ _ c _). exact (suffix_trans _ _ _ H Hq).
Qed.

Lemma consume_suffix a p c p' : consume nocase a p c = Some p' → suffix_of p' p.
Proof.
  unfold consume. pose proof (class_match_suffix p c) as Hc.
  repeat case_bool_decide; simpl; repeat case_match; intros; simplify_eq/=;
    eauto using suffix_tail with glob.
Qed.

(** The pattern after a step does not depend on the character either. *)
Lemma consume_rest a p c c' p1 p2 :
  consume nocase a p c = Some p1 → consume nocase a p c' = Some p2 → p1 = p2.
Proof.
  unfold consume. pose proof (class_match_rest p c c') as Hc.
  destruct (class_match _ _ c) as [[] q], (class_match _ _ c') as [[] q']; simpl in Hc;
    repeat case_bool_decide; simpl; repeat case_match; intros; simplify_eq/=; done.
Qed.

(** One character is consumed exactly as the meaning of patterns says. *)
Lemma glob_consume a p c s :
  a ≠ "*" →
  glob nocase (String a p) (String c s) ↔
  ∃ p', consume nocase a p c = Some p' ∧ glob nocase p' s.
Proof.
  intros Ha. unfold consume. split.
  - inversion 1; simplify_eq/=; eauto; simpl.
    + match goal with E : class_match _ _ _ = _ |- _ => rewrite E end. eauto.
    + match goal with E : same_char _ _ _ = _ |- _ => rewrite E end. eauto.
    + match goal with E : a ∉ _ |- _ => rewrite !not_elem_of_cons in E; destruct E as (?&?&?&?) end.
      rewrite !(bool_decide_eq_false_2 (a = "?")), !(bool_decide_eq_false_2 (a = "[")) by done.
      match goal with E : same_char _ _ _ = _ |- _ => rename E into Hsame end.
      destruct (decide (a = "\")) as [->|].
      * match goal with E : _ = _ → p = _ |- _ => rewrite (E eq_refl) in * end.
        simpl. rewrite Hsame. eauto.
      * rewrite bool_decide_eq_false_2 by done. simpl. rewrite Hsame. eauto.
  - intros (p' & Hp & Hg). case_bool_decide; [simplify_eq; eauto with glob|].
    case_bool_decide; [subst; repeat case_match; simplify_eq; eauto with glob|].
    destruct (decide (a = "\")) as [->|Hb]; [destruct p as [|b p]|]; simpl in Hp;
      try rewrite (bool_decide_eq_false_2 (a = _)) in Hp by done; simpl in Hp;
      case_match; simplify_eq; eauto with glob.
    + apply g_literal; auto. set_solver.
    + apply g_literal; auto; [set_solver|done].
Qed.

Lemma glob_nil p : glob nocase p EmptyString ↔ skip_stars p = EmptyString.
Proof.
  split.
  - remember EmptyString as s eqn:E. intros H. revert E. induction H; simpl; intros; simplify_eq; auto.
  - induction p as [|c p IH]; simpl; [eauto with glob|].
    case_bool_decide; subst; [eauto with glob|done].
Qed.

Lemma glob_star p s :
  glob nocase (String "*" p) s ↔ ∃ t, suffix_of t s ∧ glob nocase p t.
Proof.
  split.
  - remember (String "*" p) as q eqn:E. intros H. revert E.
    induction H; intros; simplify_eq; eauto with glob.
    destruct IHglob as (t&?&?); eauto with glob.
  - intros (t & Ht & Hg). induction Ht; eauto with glob.
Qed.

Lemma glob_skip_stars p s :
  glob nocase (String "*" p) s ↔ glob nocase (String "*" (skip_stars p)) s.
Proof.
  revert s. induction p as [|c p IH]; intros s; simpl; [done|].
  case_bool_decide as Hc; [subst|done]. rewrite <- IH, (glob_star (String _ _)).
  split; [|intros H; exists s; eauto with glob].
  intros (t & Ht & Hg). apply glob_star. apply glob_star in Hg as (t' & Ht' & Hg).
  eauto using suffix_trans.
Qed.

End class.

(** ** The matcher and the meaning *)

(** What a call on [p] and [s] reports: the match, and with
    [*skipLongerMatches] that no suffix of [s] matches either. *)
Definition reports (nocase : bool) (p s : string) (r : bool * bool) : Prop :=
  (r.1 = true ↔ glob nocase p s) ∧
  (r.1 = false → r.2 = true → ∀ t, suffix_of t s → ¬ glob nocase p t).

Section matcher.
Context (nocase : bool).

(** The loop tries the rest [p] of the pattern at every suffix. *)
Lemma star_loop_reports rest p s :
  skip_stars p ≠ EmptyString →
  (∀ t, t ≠ EmptyString → reports nocase p t (rest t false)) →
  reports nocase (String "*" p) s (star_loop rest s false).
Proof.
  intros Hp Hrest. assert (∀ t, glob nocase (String "*" p) t ↔ _) as Hstar
    by (intros; apply glob_star).
  unfold reports. setoid_rewrite Hstar. clear Hstar.
  induction s as [|c s IH]; simpl.
  - split; [split; [done|]|intros _ _].
    + intros (t & Ht & Hg). inversion Ht; subst. by apply glob_nil in Hg.
    + intros t Ht (t' & Ht' & Hg). inversion Ht; subst. inversion Ht'; subst.
      by apply glob_nil in Hg.
  - destruct (Hrest (String c s) ltac:(done)) as [Hr Hk].
    destruct (rest (String c s) false) as [[] k]; simpl in *.
    { split; [|done]. split; [|done]. intros _. eexists; split; [constructor|]. by apply Hr. }
    destruct k.
    + split; [split; [done|]|intros _ _].
      * intros (t & Ht & Hg). by destruct (Hk eq_refl eq_refl t Ht).
      * intros t Ht (t' & Ht' & Hg).
        by destruct (Hk eq_refl eq_refl t' (suffix_trans _ _ _ Ht' Ht)).
    + destruct IH as [IH1 IH2]. assert (¬ glob nocase p (String c s)) as Hno
        by (intros Hg; apply Hr in Hg; done).
      split.
      * rewrite IH1. split; intros (t & Ht & Hg); [eauto with glob|].
        inversion Ht; subst; [done|eauto].
      * intros Hf Ht t Hsuf (t' & Ht' & Hg). apply (IH2 Hf Ht s (suffix_refl s)).
        exists t'. split; [|done]. inversion Hsuf; subst; [|eauto using suffix_trans].
        inversion Ht'; subst; [done|auto].
Qed.

(** A character is consumed and the rest of the pattern reports. *)
Lemma consume_reports a p c s p' r :
  a ≠ "*" → consume nocase a p c = Some p' → reports nocase p' s r →
  reports nocase (String a p) (String c s) r.
Proof.
  intros Ha Hc [H1 H2]. split.
  - rewrite H1, glob_consume by done. split; [eauto|].
    intros (p'' & Hp'' & Hg). by rewrite (consume_rest _ _ _ _ _ _ _ Hc Hp'').
  - intros Hf Ht [|c' t] Hsuf.
    { rewrite glob_nil. simpl. by rewrite bool_decide_eq_false_2. }
    rewrite glob_consume by done. intros (p'' & Hp'' & Hg).
    rewrite <- (consume_rest _ _ _ _ _ _ _ Hc Hp'') in Hg.
    apply (H2 Hf Ht t); [|done]. inversion Hsuf; subst; eauto using suffix_uncons with glob.
Qed.

Lemma stringmatchlen_impl_reports fuel p s nesting :
  (String.length p < fuel)%nat → (nesting + stars p <= 1000)%nat → s ≠ EmptyString →
  reports nocase p s (stringmatchlen_impl fuel p s nocase false nesting).
Proof.
  revert p s nesting. induction fuel as [|fuel IH]; intros p s nesting Hf Hn Hs; [lia|].
  cbn [stringmatchlen_impl]. destruct (Nat.ltb_spec 1000 nesting); [lia|].
  destruct s as [|c s]; [done|]. destruct p as [|a p].
  { split; simpl; [|done]. split; [done|]. inversion 1. }
  simpl in Hf, Hn. destruct (decide (a = "*")) as [->|Ha].
  - rewrite (bool_decide_eq_true_2 ("*" = "*")) in Hn by done.
    pose proof (suffix_length _ _ (skip_stars_suffix p)).
    pose proof (suffix_stars _ _ (skip_stars_suffix p)).
    cut (reports nocase (String "*" (skip_stars p)) (String c s)
      (if bool_decide (skip_stars p = EmptyString) then (true, false)
       else star_loop (λ str skip,
              stringmatchlen_impl fuel (skip_stars p) str nocase skip (S nesting))
              (String c s) false)).
    { unfold reports. setoid_rewrite <- (glob_skip_stars nocase p). done. }
    case_bool_decide as Hp.
    + rewrite Hp. split; simpl; [|done]. split; [|done]. intros _. apply glob_star.
      exists EmptyString. split; [apply suffix_empty|constructor].
    + apply star_loop_reports.
      * destruct (skip_stars_head p) as [|Hh]; [done|].
        destruct (skip_stars p); simpl in *; [done|]. by rewrite bool_decide_eq_false_2.
      * intros t Ht. apply IH; [lia|lia|done].
  - rewrite (bool_decide_eq_false_2 (a = "*")) in Hn |- * by done.
    destruct (consume nocase a p c) as [p'|] eqn:Hc.
    + pose proof (consume_suffix _ _ _ _ _ Hc) as Hsuf.
      apply suffix_length in Hsuf as ?. apply suffix_stars in Hsuf as ?.
      apply (consume_reports _ _ _ _ p'); [done..|]. case_bool_decide; subst.
      * split; simpl; [|done]. by rewrite bool_decide_eq_true, glob_nil.
      * apply IH; [lia|lia|done].
    + split; simpl; [|done]. split; [done|]. rewrite glob_consume by done.
      intros (?&?&?). congruence.
Qed.

End matcher.

Lemma stringmatchlen_meaning nocase p s :
  (stars p <= 1000)%nat → s ≠ EmptyString →
  stringmatchlen p s nocase = true ↔ glob nocase p s.
Proof.
  intros Hp Hs. apply (stringmatchlen_impl_reports nocase _ p s 0); [lia|lia|done].
Qed.

(** The empty string is matched by the empty pattern only: the loop is not
    entered and no star of the pattern is skipped. *)
Lemma stringmatchlen_nil nocase p : stringmatchlen p EmptyString nocase = bool_decide (p = EmptyString).
Proof. by destruct p. Qed.

(** A pattern without special characters matches itself. *)
Definition plain (a : ascii) : Prop := a ∉ ["*"; "?"; "["; "\"].

Lemma glob_plain a p s :
  plain a → glob false (String a p) s ↔ ∃ s', s = String a s' ∧ glob false p s'.
Proof.
  intros Ha. unfold plain in Ha. rewrite !not_elem_of_cons in Ha. destruct Ha as (?&?&?&?&_).
  destruct s as [|c s].
  { rewrite glob_nil. simpl. rewrite bool_decide_eq_false_2 by done. naive_solver. }
  rewrite glob_consume by done. unfold consume.
  rewrite !(bool_decide_eq_false_2 (a = _)) by done. simpl.
  unfold same_char, fold_case. split.
  - intros (p' & Hp & Hg). case_bool_decide; simplify_eq. eauto.
  - intros (s' & E & Hg). simplify_eq. rewrite bool_decide_eq_true_2 by done. eauto.
Qed.

Fixpoint plain_string (p : string) : Prop :=
  match p with EmptyString => True | String a p => plain a ∧ plain_string p end.

Lemma glob_plain_prefix u p s :
  plain_string u → glob false (u +:+ p) s ↔ ∃ s', s = u +:+ s' ∧ glob false p s'.
Proof.
  revert s. induction u as [|a u IH]; intros s; simpl.
  { intros _. split; [eauto|]. intros (s' & -> & Hg). done. }
  intros [Ha Hu]. rewrite glob_plain by done. setoid_rewrite (IH _ Hu). split.
  - intros (s' & -> & s'' & -> & Hg). eauto.
  - intros (s' & -> & Hg). eauto.
Qed.

Lemma suffix_app u s : suffix_of s (u +:+ s).
Proof. induction u; simpl; eauto with glob. Qed.

Lemma suffix_split t s : suffix_of t s → ∃ u, s = u +:+ t.
Proof. induction 1 as [s|c s t _ [u ->]]; [by exists EmptyString|by exists (String c u)]. Qed.

(** A plain prefix, a star, a plain suffix. *)
Lemma glob_prefix_star_suffix u v s :
  plain_string u → plain_string v →
  glob false (u +:+ String "*" v) s ↔ ∃ x, s = u +:+ x +:+ v.
Proof.
  intros Hu Hv. rewrite glob_plain_prefix by done. setoid_rewrite glob_star.
  assert (∀ t, glob false v t ↔ t = v) as Hgv.
  { intros t. rewrite <- (string_app_nil_r v) at 1. rewrite glob_plain_prefix by done. split.
    - intros (s' & -> & Hg). inversion Hg. by rewrite string_app_nil_r.
    - intros ->. exists EmptyString. rewrite string_app_nil_r. split; [done|constructor]. }
  setoid_rewrite Hgv. split.
  - intros (s' & -> & t & [x ->]%suffix_split & ->). eauto.
  - intros (x & ->). exists (x +:+ v). split; [done|]. exists v. split; [apply suffix_app|done].
Qed.

Lemma nodes_pattern_keys k : stringmatchlen nodes_pattern k false = true ↔ is_nodes_key k.
Proof.
  destruct (decide (k = EmptyString)) as [->|Hk].
  { rewrite stringmatchlen_nil. split; [done|]. intros [x Hx]. done. }
  rewrite stringmatchlen_meaning by (done || (vm_compute; lia)).
  apply (glob_prefix_star_suffix "node_" "_neighbours"); simpl; unfold plain; set_solver.
Qed.

(** ** Claims *)

(** C13: the matcher of [KEYS], with the early exit of [skipLongerMatches],
    decides the declarative meaning of glob patterns: on a non-empty string
    and a pattern of at most 1000 stars (the nesting limit) it answers 1
    exactly when the pattern matches, and the empty string is matched by the
    empty pattern alone. *)
Theorem stringmatchlen_glob nocase p s :
  (stars p <= 1000)%nat →
  stringmatchlen p s nocase = true ↔
  (if decide (s = EmptyString) then p = EmptyString else glob nocase p s).
Proof.
  intros Hp. destruct (decide _) as [->|Hs].
  - by rewrite stringmatchlen_nil, bool_decide_eq_true.
  - by apply stringmatchlen_meaning.
Qed.

Lemma stringmatchlen_glob_witness :
  (stars "n*_[a-c]?*s" <= 1000)%nat ∧ glob false "n*_[a-c]?*s" "node_7_bars".
Proof.
  split; [vm_compute; lia|].
  apply (stringmatchlen_glob false "n*_[a-c]?*s" "node_7_bars"); [vm_compute; lia|reflexivity].
Defined.

(** The pattern [node_*_neighbours] that both clients send to [KEYS]
    selects exactly the keys [node_<x>_neighbours]. *)
Theorem nodes_pattern_match k :
  stringmatchlen nodes_pattern k false = true ↔ ∃ x, k = ("node_" +:+ x +:+ "_neighbours")%string.
Proof. apply nodes_pattern_keys. Qed.
