(* ===== verification/Listpack.v ===== *)
(** * Listpacks

    src/redis/src/listpack.c: the sequence of strings and integers in which
    Redis keeps small sets, down to the bytes.  A listpack is one memory
    block, a pointer into it an offset.  [lp_malloc_size] is the length of
    the block.  What the functions do to the sequence of elements is in
    [ListpackRep]. *)

From S2P Require Import Prelude CLib Buffers Util Bytes.
From Stdlib Require Import Ascii.

Definition LP_HDR_SIZE : nat := 6.
Definition LP_HDR_NUMELE_UNKNOWN : Z := 65535.
Definition LP_EOF : Z := 255.
Definition UINT32_MAX : Z := 4294967295.

(** The bytes of a string and back. *)
Definition byte_of (c : ascii) : Z := Z.of_N (N_of_ascii c).
Definition ascii_of (b : Z) : ascii := ascii_of_N (Z.to_N b).

Fixpoint bytes_of (s : string) : list Z :=
  match s with
  | EmptyString => []
  | String c s => byte_of c :: bytes_of s
  end.

Fixpoint string_of (bs : list Z) : string :=
  match bs with
  | [] => EmptyString
  | b :: bs => String (ascii_of b) (string_of bs)
  end.

(** [p[0]] *)
Definition byte_at (lp : list Z) (p : nat) : Z := default 0 (lp !! p).

(** ** The encoding byte *)

Definition LP_ENCODING_IS_7BIT_UINT (b : Z) : bool := Z.land b 0x80 =? 0.
Definition LP_ENCODING_IS_6BIT_STR (b : Z) : bool := Z.land b 0xC0 =? 0x80.
Definition LP_ENCODING_IS_13BIT_INT (b : Z) : bool := Z.land b 0xE0 =? 0xC0.
Definition LP_ENCODING_IS_12BIT_STR (b : Z) : bool := Z.land b 0xF0 =? 0xE0.
Definition LP_ENCODING_IS_16BIT_INT (b : Z) : bool := Z.land b 0xFF =? 0xF1.
Definition LP_ENCODING_IS_24BIT_INT (b : Z) : bool := Z.land b 0xFF =? 0xF2.
Definition LP_ENCODING_IS_32BIT_INT (b : Z) : bool := Z.land b 0xFF =? 0xF3.
Definition LP_ENCODING_IS_64BIT_INT (b : Z) : bool := Z.land b 0xFF =? 0xF4.
Definition LP_ENCODING_IS_32BIT_STR (b : Z) : bool := Z.land b 0xFF =? 0xF0.

Definition LP_ENCODING_6BIT_STR_LEN (lp : list Z) (p : nat) : Z := Z.land (byte_at lp p) 0x3F.
Definition LP_ENCODING_12BIT_STR_LEN (lp : list Z) (p : nat) : Z :=
  Z.lor (Z.shiftl (Z.land (byte_at lp p) 0xF) 8) (byte_at lp (p + 1)).
Definition LP_ENCODING_32BIT_STR_LEN (lp : list Z) (p : nat) : Z :=
  le_value (get_bytes (p + 1) 4 lp).

(** ** The header *)

Definition lpGetTotalBytes (lp : list Z) : Z := le_value (get_bytes 0 4 lp).
Definition lpGetNumElements (lp : list Z) : Z := le_value (get_bytes 4 2 lp).
Definition lpSetTotalBytes (lp : list Z) (v : Z) : list Z := set_bytes 0 (le_bytes 4 v) lp.
Definition lpSetNumElements (lp : list Z) (v : Z) : list Z := set_bytes 4 (le_bytes 2 v) lp.

Definition lpBytes (lp : list Z) : Z := lpGetTotalBytes lp.

(** [ASSERT_INTEGRITY] and [ASSERT_INTEGRITY_LEN] *)
Definition assert_integrity (lp : list Z) (p : nat) : bool :=
  (LP_HDR_SIZE <=? p)%nat && (Z.of_nat p <? lpGetTotalBytes lp).
Definition assert_integrity_len (lp : list Z) (p : nat) (len : Z) : bool :=
  (LP_HDR_SIZE <=? p)%nat && (Z.of_nat p + len <? lpGetTotalBytes lp).

Definition LISTPACK_MAX_SAFETY_SIZE : Z := 2 ^ 30.
Definition lpSafeToAdd (lp : option (list Z)) (add : Z) : bool :=
  let len := match lp with Some lp => lpGetTotalBytes lp | None => 0 end in
  negb (LISTPACK_MAX_SAFETY_SIZE <? wrap_u 64 (len + add)).

(** ** Encoding *)

(** The same code as [string2ll] of util.c. *)
Definition lpStringToInt64 (s : string) : option Z := string2ll s.

Definition lpEncodeIntegerGetType (v : Z) : list Z :=
  if (0 <=? v) && (v <=? 127) then [v]
  else if (-4096 <=? v) && (v <=? 4095) then
    let v := if v <? 0 then Z.shiftl 1 13 + v else v in
    [Z.lor (Z.shiftr v 8) 0xC0; Z.land v 0xff]
  else if (-32768 <=? v) && (v <=? 32767) then
    let v := if v <? 0 then Z.shiftl 1 16 + v else v in 0xF1 :: le_bytes 2 v
  else if (-8388608 <=? v) && (v <=? 8388607) then
    let v := if v <? 0 then Z.shiftl 1 24 + v else v in 0xF2 :: le_bytes 3 v
  else if (-2147483648 <=? v) && (v <=? 2147483647) then
    let v := if v <? 0 then Z.shiftl 1 32 + v else v in 0xF3 :: le_bytes 4 v
  else 0xF4 :: le_bytes 8 (wrap_u 64 v).

(** The integer encoding of the element, if it has one, and [enclen]. *)
Definition lpEncodeGetType (ele : string) : option (list Z) * Z :=
  match lpStringToInt64 ele with
  | Some v =>
      let intenc := lpEncodeIntegerGetType v in (Some intenc, Z.of_nat (length intenc))
  | None =>
      let size := Z.of_nat (String.length ele) in
      (None, if size <? 64 then 1 + size else if size <? 4096 then 2 + size else 5 + size)
  end.

Definition lpEncodeBacklen (l : Z) : list Z :=
  let cont (n : Z) := Z.lor (Z.land (Z.shiftr l n) 127) 128 in
  if l <=? 127 then [l]
  else if l <? 16383 then [Z.shiftr l 7; cont 0]
  else if l <? 2097151 then [Z.shiftr l 14; cont 7; cont 0]
  else if l <? 268435455 then [Z.shiftr l 21; cont 14; cont 7; cont 0]
  else [Z.shiftr l 28; cont 21; cont 14; cont 7; cont 0].

Definition backlen_size (l : Z) : Z := Z.of_nat (length (lpEncodeBacklen l)).

(** From the last byte of the field down; [shift] exceeds 28 after five bytes. *)
Fixpoint decode_backlen_loop (fuel : nat) (lp : list Z) (p : nat) (val shift : Z) : Z :=
  match fuel with
  | O => ULLONG_MAX
  | S fuel =>
      let val := Z.lor val (Z.shiftl (Z.land (byte_at lp p) 127) shift) in
      if Z.land (byte_at lp p) 128 =? 0 then val
      else
        let shift := shift + 7 in
        if 28 <? shift then ULLONG_MAX else decode_backlen_loop fuel lp (p - 1) val shift
  end.

Definition lpDecodeBacklen (lp : list Z) (p : nat) : Z := decode_backlen_loop 5 lp p 0 0.

Definition lpEncodeString (s : string) : list Z :=
  let len := Z.of_nat (String.length s) in
  (if len <? 64 then [Z.lor len 0x80]
   else if len <? 4096 then [Z.lor (Z.shiftr len 8) 0xE0; Z.land len 0xff]
   else 0xF0 :: le_bytes 4 len) ++ bytes_of s.

(** ** Sizes and traversal *)

Definition lpCurrentEncodedSizeUnsafe (lp : list Z) (p : nat) : Z :=
  let b := byte_at lp p in
  if LP_ENCODING_IS_7BIT_UINT b then 1
  else if LP_ENCODING_IS_6BIT_STR b then 1 + LP_ENCODING_6BIT_STR_LEN lp p
  else if LP_ENCODING_IS_13BIT_INT b then 2
  else if LP_ENCODING_IS_16BIT_INT b then 3
  else if LP_ENCODING_IS_24BIT_INT b then 4
  else if LP_ENCODING_IS_32BIT_INT b then 5
  else if LP_ENCODING_IS_64BIT_INT b then 9
  else if LP_ENCODING_IS_12BIT_STR b then 2 + LP_ENCODING_12BIT_STR_LEN lp p
  else if LP_ENCODING_IS_32BIT_STR b then wrap_u 32 (5 + LP_ENCODING_32BIT_STR_LEN lp p)
  else if b =? LP_EOF then 1
  else 0.

Definition lpCurrentEncodedSizeBytes (lp : list Z) (p : nat) : Z :=
  let b := byte_at lp p in
  if LP_ENCODING_IS_7BIT_UINT b || LP_ENCODING_IS_6BIT_STR b || LP_ENCODING_IS_13BIT_INT b
     || LP_ENCODING_IS_16BIT_INT b || LP_ENCODING_IS_24BIT_INT b
     || LP_ENCODING_IS_32BIT_INT b || LP_ENCODING_IS_64BIT_INT b then 1
  else if LP_ENCODING_IS_12BIT_STR b then 2
  else if LP_ENCODING_IS_32BIT_STR b then 5
  else if b =? LP_EOF then 1
  else 0.

Definition lpSkip (lp : list Z) (p : nat) : nat :=
  let entrylen := lpCurrentEncodedSizeUnsafe lp p in
  (p + Z.to_nat (entrylen + backlen_size entrylen))%nat.

(** A failed assertion, NULL, or a result. *)
Inductive lp_res (A : Type) : Type := Abort | Null | Ok (a : A).
Arguments Abort {A}.
Arguments Null {A}.
Arguments Ok {A} a.

(** [lpValidateNext] with the new value of [*pp]: 0 is [Abort]. *)
Definition out_of_range (lpbytes : Z) (p : nat) : bool :=
  (p <? LP_HDR_SIZE)%nat || (lpbytes - 1 <? Z.of_nat p).

Definition lpValidateNext (lp : list Z) (pp : option nat) (lpbytes : Z) : lp_res nat :=
  match pp with
  | None => Abort
  | Some p =>
      if out_of_range lpbytes p then Abort
      else if byte_at lp p =? LP_EOF then Null
      else
        let lenbytes := lpCurrentEncodedSizeBytes lp p in
        if lenbytes =? 0 then Abort
        else if out_of_range lpbytes (p + Z.to_nat lenbytes) then Abort
        else
          let entrylen := lpCurrentEncodedSizeUnsafe lp p in
          let encodedBacklen := backlen_size entrylen in
          let entrylen := entrylen + encodedBacklen in
          if out_of_range lpbytes (p + Z.to_nat entrylen) then Abort
          else
            let p := (p + Z.to_nat entrylen)%nat in
            let prevlen := lpDecodeBacklen lp (p - 1) in
            if wrap_u 64 (prevlen + encodedBacklen) =? entrylen then Ok p else Abort
  end.

(** [assert (lpValidateNext (lp, &p, lpbytes))] *)
Definition lpAssertValidEntry (lp : list Z) (lpbytes : Z) (p : nat) : bool :=
  match lpValidateNext lp (Some p) lpbytes with Abort => false | _ => true end.

Definition valid_entry (lp : list Z) (p : nat) : lp_res nat :=
  if lpAssertValidEntry lp (lpBytes lp) p then Ok p else Abort.

Definition lpNext (lp : list Z) (p : nat) : lp_res nat :=
  let p := lpSkip lp p in
  if byte_at lp p =? LP_EOF then Null else valid_entry lp p.

Definition lpPrev (lp : list Z) (p : nat) : lp_res nat :=
  if (p =? LP_HDR_SIZE)%nat then Null
  else
    let p := (p - 1)%nat in
    let prevlen := lpDecodeBacklen lp p in
    let prevlen := wrap_u 64 (prevlen + backlen_size prevlen) in
    valid_entry lp (Z.to_nat (Z.of_nat p - (prevlen - 1))).

Definition lpFirst (lp : list Z) : lp_res nat :=
  let p := LP_HDR_SIZE in
  if byte_at lp p =? LP_EOF then Null else valid_entry lp p.

Definition lpLast (lp : list Z) : lp_res nat :=
  lpPrev lp (Z.to_nat (lpGetTotalBytes lp - 1)).

(** The scan of [lpLength]: every turn moves at least two bytes on. *)
Fixpoint count_loop (fuel : nat) (lp : list Z) (p : lp_res nat) (count : Z) : lp_res Z :=
  match p with
  | Abort => Abort
  | Null => Ok count
  | Ok p =>
      match fuel with
      | O => Abort
      | S fuel => count_loop fuel lp (lpNext lp p) (wrap_u 32 (count + 1))
      end
  end.

(** The number of elements and the listpack with the cached count. *)
Definition lpLength (lp : list Z) : lp_res (Z * list Z) :=
  let numele := lpGetNumElements lp in
  if numele =? LP_HDR_NUMELE_UNKNOWN then
    match count_loop (length lp) lp (lpFirst lp) 0 with
    | Ok count =>
        Ok (count, if count <? LP_HDR_NUMELE_UNKNOWN then lpSetNumElements lp count else lp)
    | Abort => Abort
    | Null => Null
    end
  else Ok (numele, lp).

(** ** Reading an element *)

Inductive lpval : Type :=
| LStr (s : string)
| LInt (z : Z).

#[export] Instance lpval_eq_dec : EqDecision lpval.
Proof. solve_decision. Defined.

(** Two's complement by hand, as the code does it. *)
Definition from_unsigned (uval negstart negmax : Z) : Z :=
  if negstart <=? uval
  then wrap_s 64 (- wrap_s 64 (wrap_u 64 (negmax - uval)) - 1)
  else wrap_s 64 uval.

(** The element and [*entry_size], which an invalid encoding leaves unset. *)
Definition lpGetWithSize (lp : list Z) (p : nat) : lpval * option Z :=
  let b := byte_at lp p in
  let str (hdr count : Z) :=
    (LStr (string_of (get_bytes (p + Z.to_nat hdr) (Z.to_nat count) lp)),
     Some (hdr + count + backlen_size (count + hdr))) in
  let int (n : nat) (neg max size : Z) :=
    (LInt (from_unsigned (le_value (get_bytes (p + 1) n lp)) neg max), Some size) in
  if LP_ENCODING_IS_7BIT_UINT b then
    (LInt (from_unsigned (Z.land b 0x7f) ULLONG_MAX 0), Some 2)
  else if LP_ENCODING_IS_6BIT_STR b then str 1 (LP_ENCODING_6BIT_STR_LEN lp p)
  else if LP_ENCODING_IS_13BIT_INT b then
    (LInt (from_unsigned (Z.lor (Z.shiftl (Z.land b 0x1f) 8) (byte_at lp (p + 1)))
             (Z.shiftl 1 12) 8191), Some 3)
  else if LP_ENCODING_IS_16BIT_INT b then int 2%nat (Z.shiftl 1 15) 65535 4
  else if LP_ENCODING_IS_24BIT_INT b then int 3%nat (Z.shiftl 1 23) (Z.shiftr UINT32_MAX 8) 5
  else if LP_ENCODING_IS_32BIT_INT b then int 4%nat (Z.shiftl 1 31) UINT32_MAX 6
  else if LP_ENCODING_IS_64BIT_INT b then int 8%nat (Z.shiftl 1 63) ULLONG_MAX 10
  else if LP_ENCODING_IS_12BIT_STR b then str 2 (LP_ENCODING_12BIT_STR_LEN lp p)
  else if LP_ENCODING_IS_32BIT_STR b then str 5 (LP_ENCODING_32BIT_STR_LEN lp p)
  else (LInt (from_unsigned (12345678900000000 + b) ULLONG_MAX 0), None).

Definition lpGet (lp : list Z) (p : nat) : lpval := (lpGetWithSize lp p).1.
Definition lpGetValue (lp : list Z) (p : nat) : lpval := lpGet lp p.

Definition lpGetIntegerValue (lp : list Z) (p : nat) : option Z :=
  match lpGet lp p with LInt z => Some z | LStr _ => None end.

(** [lpGet] with a buffer for the digits of an integer. *)
Definition LP_INTBUF_SIZE : Z := 21.
Definition lpGetString (lp : list Z) (p : nat) : string :=
  match lpGet lp p with
  | LStr s => s
  | LInt z => default EmptyString (ll2string LP_INTBUF_SIZE z)
  end.

Definition lpCompare (lp : list Z) (p : nat) (s : string) : bool :=
  if byte_at lp p =? LP_EOF then false
  else
    match lpGet lp p with
    | LStr v => bool_decide (v = s)
    | LInt sz => match lpStringToInt64 s with Some sval => sz =? sval | None => false end
    end.

(** ** Searching *)

(** The comparator of [lpFind]; the code caches the conversion of [s]. *)
Definition lpFindCmp (s : string) (v : lpval) : bool :=
  match v with
  | LStr t => bool_decide (t = s)
  | LInt ll =>
      if (32 <=? String.length s)%nat || (String.length s =? 0)%nat then false
      else match lpStringToInt64 s with Some vll => ll =? vll | None => false end
  end.

(** The loop of [lpFindCbInternal]; [entry_size] keeps its value over an
    invalid element.  Every turn moves on, unless the assertion fails. *)
Fixpoint find_loop (fuel : nat) (lp : list Z) (cmp : lpval → bool) (skip skipcnt : nat)
    (entry_size : Z) (p : nat) : lp_res nat :=
  match fuel with
  | O => Abort
  | S fuel =>
      let lp_bytes := lpBytes lp in
      let go (skipcnt : nat) (entry_size : Z) (p : nat) :=
        if (if lp_bytes <=? Z.of_nat p + 8 then lpAssertValidEntry lp lp_bytes p
            else (LP_HDR_SIZE <=? p)%nat && (Z.of_nat p <? lp_bytes))
        then
          if byte_at lp p =? LP_EOF then Null
          else find_loop fuel lp cmp skip skipcnt entry_size p
        else Abort in
      match skipcnt with
      | O =>
          let '(value, size) := lpGetWithSize lp p in
          let entry_size := default entry_size size in
          let inside := (LP_HDR_SIZE <=? p)%nat && (Z.of_nat p + entry_size <? lp_bytes) in
          if match value with LStr _ => inside | LInt _ => true end then
            if cmp value then Ok p else go skip entry_size (p + Z.to_nat entry_size)%nat
          else Abort
      | S skipcnt => go skipcnt entry_size (lpSkip lp p)
      end
  end.

Definition lpFindCb (lp : list Z) (p : option nat) (cmp : lpval → bool) (skip : nat) :
    lp_res nat :=
  let p := match p with Some p => Ok p | None => lpFirst lp end in
  match p with
  | Ok p => find_loop (length lp) lp cmp skip 0 123456789 p
  | r => r
  end.

(** [slen] is a [uint32_t]: of a longer string only a part is looked for. *)
Definition lpFind (lp : list Z) (p : option nat) (s : string) (skip : nat) : lp_res nat :=
  let slen := wrap_u 32 (Z.of_nat (String.length s)) in
  lpFindCb lp p (lpFindCmp (stake (Z.to_nat slen) s)) skip.

(** ** Updates *)

Inductive lp_where : Set := LP_BEFORE | LP_AFTER | LP_REPLACE.

(** [elestr], [eleint] or neither. *)
Inductive lp_ele : Type :=
| EleStr (s : string)
| EleInt (intenc : list Z)
| EleNone.

Section updates.
(** What [realloc] leaves in new memory. *)
Context (junk : nat → Z).

Definition lpNew (capacity : nat) : list Z :=
  let lp := resize_bytes junk (capacity `max` (LP_HDR_SIZE + 1)) [] in
  let lp := lpSetTotalBytes lp (Z.of_nat LP_HDR_SIZE + 1) in
  let lp := lpSetNumElements lp 0 in
  set_bytes LP_HDR_SIZE [LP_EOF] lp.

Definition lpShrinkToFit (lp : list Z) : list Z :=
  let size := Z.to_nat (lpGetTotalBytes lp) in
  if (size <? length lp)%nat then resize_bytes junk size lp else lp.

(** The encoded element and [enclen]. *)
Definition encode_ele (e : lp_ele) : list Z * Z :=
  match e with
  | EleStr s =>
      match lpEncodeGetType s with
      | (Some intenc, enclen) => (intenc, enclen)
      | (None, enclen) => (lpEncodeString s, enclen)
      end
  | EleInt intenc => (intenc, Z.of_nat (length intenc))
  | EleNone => ([], 0)
  end.

(** The assertions and the computation of the sizes: the block after the
    moves, before the element is stored. *)
Definition make_room (lp : list Z) (poff : nat) (added replaced_len : Z) : list Z :=
  let old := lpGetTotalBytes lp in
  let new := old + added - replaced_len in
  let lp := if (old <? new) && (Z.of_nat (length lp) <? new)
            then resize_bytes junk (Z.to_nat new) lp else lp in
  let src := (poff + Z.to_nat replaced_len)%nat in
  let lp := move_bytes (poff + Z.to_nat added) src (Z.to_nat old - src) lp in
  if new <? old then resize_bytes junk (Z.to_nat new) lp else lp.

Definition store_entry (lp : list Z) (poff : nat) (enc backlen : list Z) (enclen : Z) : list Z :=
  set_bytes (poff + Z.to_nat enclen) backlen (set_bytes poff enc lp).

Definition is_delete (e : lp_ele) : bool := match e with EleNone => true | _ => false end.

(** The listpack and [*newp]. *)
Definition lpInsert (lp : list Z) (e : lp_ele) (p : nat) (wh : lp_where) :
    lp_res (list Z * option nat) :=
  let delete := is_delete e in
  let wh := if delete then LP_REPLACE else wh in
  let replace := match wh with LP_REPLACE => true | _ => false end in
  let poff := match wh with LP_AFTER => lpSkip lp p | _ => p end in
  if match wh with LP_AFTER => negb (assert_integrity lp poff) | _ => false end then Abort
  else
    let '(enc, enclen) := encode_ele e in
    let backlen := if delete then [] else lpEncodeBacklen enclen in
    let backlen_len := Z.of_nat (length backlen) in
    let replaced_len :=
      if replace then
        let l := lpCurrentEncodedSizeUnsafe lp poff in wrap_u 32 (l + backlen_size l)
      else 0 in
    if replace && negb (assert_integrity_len lp poff replaced_len) then Abort
    else
      let new := lpGetTotalBytes lp + enclen + backlen_len - replaced_len in
      if UINT32_MAX <? new then Null
      else
        let lp := make_room lp poff (enclen + backlen_len) replaced_len in
        let newp := if delete && (byte_at lp poff =? LP_EOF) then None else Some poff in
        let lp := if delete then lp else store_entry lp poff enc backlen enclen in
        let num_elements := lpGetNumElements lp in
        let lp :=
          if (negb replace || delete) && negb (num_elements =? LP_HDR_NUMELE_UNKNOWN)
          then lpSetNumElements lp (if delete then num_elements - 1 else num_elements + 1)
          else lp in
        Ok (lpSetTotalBytes lp new, newp).

Definition lp_of (r : lp_res (list Z * option nat)) : lp_res (list Z) :=
  match r with Ok (lp, _) => Ok lp | Abort => Abort | Null => Null end.

Definition lpInsertString (lp : list Z) (s : string) (p : nat) (wh : lp_where) :=
  lpInsert lp (EleStr s) p wh.

Definition lpInsertInteger (lp : list Z) (lval : Z) (p : nat) (wh : lp_where) :=
  lpInsert lp (EleInt (lpEncodeIntegerGetType lval)) p wh.

Definition eofptr (lp : list Z) : nat := Z.to_nat (lpGetTotalBytes lp - 1).

Definition lpAppend (lp : list Z) (ele : string) : lp_res (list Z) :=
  lp_of (lpInsert lp (EleStr ele) (eofptr lp) LP_BEFORE).

Definition lpAppendInteger (lp : list Z) (lval : Z) : lp_res (list Z) :=
  lp_of (lpInsertInteger lp lval (eofptr lp) LP_BEFORE).

Definition lpPrepend (lp : list Z) (s : string) : lp_res (list Z) :=
  match lpFirst lp with
  | Abort => Abort
  | Null => lpAppend lp s
  | Ok p => lp_of (lpInsert lp (EleStr s) p LP_BEFORE)
  end.

Definition lpPrependInteger (lp : list Z) (lval : Z) : lp_res (list Z) :=
  match lpFirst lp with
  | Abort => Abort
  | Null => lpAppendInteger lp lval
  | Ok p => lp_of (lpInsertInteger lp lval p LP_BEFORE)
  end.

Definition lpReplace (lp : list Z) (p : nat) (s : string) := lpInsert lp (EleStr s) p LP_REPLACE.
Definition lpReplaceInteger (lp : list Z) (p : nat) (lval : Z) :=
  lpInsertInteger lp lval p LP_REPLACE.
Definition lpDelete (lp : list Z) (p : nat) := lpInsert lp EleNone p LP_REPLACE.

(** ** Seeking and ranges *)

Fixpoint seek_next (n : nat) (lp : list Z) (ele : lp_res nat) : lp_res nat :=
  match n, ele with
  | S n, Ok p => seek_next n lp (lpNext lp p)
  | _, _ => ele
  end.

Fixpoint seek_prev (n : nat) (lp : list Z) (ele : lp_res nat) : lp_res nat :=
  match n, ele with
  | S n, Ok p => seek_prev n lp (lpPrev lp p)
  | _, _ => ele
  end.

Definition lpSeek (lp : list Z) (index : Z) : lp_res nat :=
  let numele := lpGetNumElements lp in
  let forward index := seek_next (Z.to_nat index) lp (lpFirst lp) in
  let backward index := seek_prev (Z.to_nat (- 1 - index)) lp (lpLast lp) in
  if numele =? LP_HDR_NUMELE_UNKNOWN then
    if index <? 0 then backward index else forward index
  else
    let index := if index <? 0 then numele + index else index in
    if index <? 0 then Null
    else if numele <=? index then Null
    else if numele / 2 <? index then backward (index - numele)
    else forward index.

(** The entry after the last one to delete, and the number of deletions. *)
Fixpoint range_end (num : nat) (lp : list Z) (bytes : Z) (tail : nat) (deleted : Z) :
    lp_res (nat * Z) :=
  match num with
  | O => Ok (tail, deleted)
  | S num =>
      let deleted := deleted + 1 in
      let tail := lpSkip lp tail in
      if byte_at lp tail =? LP_EOF then Ok (tail, deleted)
      else if lpAssertValidEntry lp bytes tail then range_end num lp bytes tail deleted
      else Abort
  end.

Definition lpDeleteRangeWithEntry (lp : list Z) (p num : nat) : lp_res (list Z * option nat) :=
  let bytes := lpBytes lp in
  if (num =? 0)%nat then Ok (lp, Some p)
  else
    match range_end num lp bytes p 0 with
    | Ok (tail, deleted) =>
        let lp := move_bytes p tail (Z.to_nat bytes - tail) lp in
        let lp := lpSetTotalBytes lp (bytes - (Z.of_nat tail - Z.of_nat p)) in
        let numele := lpGetNumElements lp in
        let lp := if numele =? LP_HDR_NUMELE_UNKNOWN then lp
                  else lpSetNumElements lp (numele - deleted) in
        let lp := lpShrinkToFit lp in
        Ok (lp, if byte_at lp p =? LP_EOF then None else Some p)
    | Abort => Abort
    | Null => Null
    end.

Definition lpDeleteRange (lp : list Z) (index : Z) (num : nat) : lp_res (list Z) :=
  let numele := lpGetNumElements lp in
  if (num =? 0)%nat then Ok lp
  else
    match lpSeek lp index with
    | Abort => Abort
    | Null => Ok lp
    | Ok p =>
        let known := negb (numele =? LP_HDR_NUMELE_UNKNOWN) in
        let index := if known && (index <? 0) then numele + index else index in
        if known && (wrap_u 64 (numele - index) <=? Z.of_nat num) then
          let lp := set_bytes p [LP_EOF] lp in
          let lp := lpSetTotalBytes lp (Z.of_nat p + 1) in
          let lp := lpSetNumElements lp index in
          Ok (lpShrinkToFit lp)
        else lp_of (lpDeleteRangeWithEntry lp p num)
    end.

(** [lpMerge] of two different listpacks: the larger block is extended. *)
Definition lpMerge (first second : list Z) : lp_res (list Z) :=
  match lpLength first, lpLength second with
  | Ok (first_len, first), Ok (second_len, second) =>
      let first_bytes := lpBytes first in
      let second_bytes := lpBytes second in
      let lpbytes := first_bytes + second_bytes - Z.of_nat LP_HDR_SIZE - 1 in
      if UINT32_MAX <=? lpbytes then Abort
      else
        let lplength := Z.min (first_len + second_len) 65535 in
        let target :=
          if second_bytes <=? first_bytes then
            let target := resize_bytes junk (Z.to_nat lpbytes) first in
            set_bytes (Z.to_nat first_bytes - 1)
              (get_bytes LP_HDR_SIZE (Z.to_nat second_bytes - LP_HDR_SIZE) second) target
          else
            let target := resize_bytes junk (Z.to_nat lpbytes) second in
            let target := move_bytes (Z.to_nat first_bytes - 1) LP_HDR_SIZE
                            (Z.to_nat second_bytes - LP_HDR_SIZE) target in
            set_bytes 0 (get_bytes 0 (Z.to_nat first_bytes - 1) first) target in
        Ok (lpSetTotalBytes (lpSetNumElements target lplength) lpbytes)
  | Null, _ | _, Null => Null
  | _, _ => Abort
  end.
End updates.

Definition lpDup (lp : list Z) : list Z := get_bytes 0 (Z.to_nat (lpBytes lp)) lp.

Definition lpEntrySizeInteger (lval : Z) : Z :=
  let enclen := Z.of_nat (length (lpEncodeIntegerGetType lval)) in
  enclen + backlen_size enclen.

Definition lpEstimateBytesRepeatedInteger (lval rep : Z) : Z :=
  wrap_u 64 (Z.of_nat LP_HDR_SIZE + lpEntrySizeInteger lval * rep + 1).

(** ** Validation *)

(** Without the callback: the end of the entries and their number. *)
Fixpoint validate_loop (fuel : nat) (lp : list Z) (bytes : Z) (p : nat) (count : Z) :
    option (nat * Z) :=
  if byte_at lp p =? LP_EOF then Some (p, count)
  else
    match fuel with
    | O => None
    | S fuel =>
        match lpValidateNext lp (Some p) bytes with
        | Ok p => validate_loop fuel lp bytes p (wrap_u 32 (count + 1))
        | _ => None
        end
    end.

Definition lpValidateIntegrity (lp : list Z) (size : Z) (deep : bool) : bool :=
  if size <? Z.of_nat LP_HDR_SIZE + 1 then false
  else
    let bytes := lpGetTotalBytes lp in
    if negb (bytes =? size) then false
    else if negb (byte_at lp (Z.to_nat (size - 1)) =? LP_EOF) then false
    else if negb deep then true
    else
      match validate_loop (length lp) lp bytes LP_HDR_SIZE 0 with
      | None => false
      | Some (p, count) =>
          let numele := lpGetNumElements lp in
          (Z.of_nat p =? size - 1) &&
          ((numele =? LP_HDR_NUMELE_UNKNOWN) || (numele =? count))
      end.
