(* ===== verification/ListpackRep.v ===== *)
(** * What listpacks represent

    A well-formed listpack is the header, the encoded elements each followed
    by its length, and the end marker; [rep lp vs] relates the block to the
    sequence of its elements.  Every function of [Listpack] is shown to do to
    the sequence what its name says, without a failed assertion. *)

From S2P Require Import Prelude CLib Buffers Util Bytes Listpack.
From Stdlib Require Import Ascii.

(** ** The layout *)

Definition encode (v : lpval) : list Z :=
  match v with
  | LStr s => lpEncodeString s
  | LInt z => lpEncodeIntegerGetType z
  end.

(** What an element may be: a string is only kept as such when it is not the
    numeral of an integer. *)
Definition val_ok (v : lpval) : Prop :=
  match v with
  | LStr s => lpStringToInt64 s = None ∧ Z.of_nat (String.length s) < 2 ^ 32 - 16
  | LInt z => LLONG_MIN ≤ z ≤ LLONG_MAX
  end.

Definition entry (v : lpval) : list Z :=
  encode v ++ lpEncodeBacklen (Z.of_nat (length (encode v))).

Definition body (vs : list lpval) : list Z := concat (entry <$> vs).

Definition total (vs : list lpval) : Z := Z.of_nat (length (body vs)) + 7.

(** The cached count is right or unknown. *)
Definition count_ok (n : Z) (vs : list lpval) : Prop :=
  0 ≤ n ≤ 65535 ∧ (n = LP_HDR_NUMELE_UNKNOWN ∨ n = Z.of_nat (length vs)).

Definition header (t n : Z) : list Z := le_bytes 4 t ++ le_bytes 2 n.

Record rep (lp : list Z) (vs : list lpval) : Prop := {
  rep_layout : ∃ n spare,
    lp = header (total vs) n ++ body vs ++ LP_EOF :: spare ∧ count_ok n vs;
  rep_total : total vs ≤ UINT32_MAX;
  rep_vals : Forall val_ok vs;
}.

(** The offset of element [i]. *)
Definition offset_of (vs : list lpval) (i : nat) : nat := (6 + length (body (take i vs)))%nat.

(** ** Bytes and strings *)

Lemma byte_of_ok c : byte_ok (byte_of c).
Proof. unfold byte_ok, byte_of. pose proof (N_ascii_bounded c). lia. Qed.

Lemma ascii_of_byte c : ascii_of (byte_of c) = c.
Proof. unfold ascii_of, byte_of. by rewrite N2Z.id, ascii_N_embedding. Qed.

Lemma string_of_bytes s : string_of (bytes_of s) = s.
Proof. induction s as [|c s IH]; simpl; [done|]. by rewrite ascii_of_byte, IH. Qed.

Lemma length_bytes_of s : length (bytes_of s) = String.length s.
Proof. induction s; simpl; auto. Qed.

Lemma byte_at_app pre l k : byte_at (pre ++ l) (length pre + k) = byte_at l k.
Proof. unfold byte_at. by rewrite lookup_app_r, Nat.add_comm, Nat.add_sub by lia. Qed.

Lemma byte_at_app0 pre l : byte_at (pre ++ l) (length pre) = byte_at l 0.
Proof. rewrite <- (byte_at_app pre l 0). f_equal. lia. Qed.

Lemma get_bytes_app pre l k n : get_bytes (length pre + k) n (pre ++ l) = get_bytes k n l.
Proof. unfold get_bytes. by rewrite drop_app_add. Qed.

Lemma get_bytes_app0 pre l n : get_bytes (length pre) n (pre ++ l) = get_bytes 0 n l.
Proof. rewrite <- (get_bytes_app pre l 0). f_equal. lia. Qed.

Lemma get_bytes_exact pre l post : get_bytes (length pre) (length l) (pre ++ l ++ post) = l.
Proof. unfold get_bytes. by rewrite drop_app_length, take_app_length. Qed.

(** A property of all small numbers, by evaluation. *)
Lemma forall_below (P : Z → bool) (n : nat) :
  forallb P (seqZ 0 (Z.of_nat n)) = true → ∀ b, 0 ≤ b < Z.of_nat n → P b = true.
Proof.
  intros H b Hb. rewrite forallb_forall in H. apply H, list_elem_of_In, elem_of_seqZ. lia.
Qed.

Lemma lor_shiftl_add a b n : 0 ≤ n → 0 ≤ a < 2 ^ n → Z.lor (Z.shiftl b n) a = b * 2 ^ n + a.
Proof.
  intros Hn Ha. rewrite <- Z.shiftl_mul_pow2 by done.
  assert (Z.land (Z.shiftl b n) a = 0) as Hl.
  { apply Z.bits_inj'. intros m Hm. rewrite Z.land_spec, Z.bits_0.
    destruct (Z.lt_ge_cases m n).
    - by rewrite Z.shiftl_spec_low.
    - destruct (Z.eq_dec a 0) as [->|]; [by rewrite Z.bits_0, andb_false_r|].
      rewrite (Z.bits_above_log2 a m); [apply andb_false_r|lia|].
      apply Z.log2_lt_pow2; [lia|]. eapply Z.lt_le_trans; [apply Ha|].
      by apply Z.pow_le_mono_r. }
  rewrite <- Z.lxor_lor, <- Z.add_nocarry_lxor by done. done.
Qed.

(** ** The encoding byte *)

Inductive lp_class : Set :=
| K7 | K6str | K13 | K16 | K24 | K32 | K64 | K12str | K32str | Keof | Kbad.

#[export] Instance lp_class_eq_dec : EqDecision lp_class.
Proof. solve_decision. Defined.

Definition class (b : Z) : lp_class :=
  if LP_ENCODING_IS_7BIT_UINT b then K7
  else if LP_ENCODING_IS_6BIT_STR b then K6str
  else if LP_ENCODING_IS_13BIT_INT b then K13
  else if LP_ENCODING_IS_16BIT_INT b then K16
  else if LP_ENCODING_IS_24BIT_INT b then K24
  else if LP_ENCODING_IS_32BIT_INT b then K32
  else if LP_ENCODING_IS_64BIT_INT b then K64
  else if LP_ENCODING_IS_12BIT_STR b then K12str
  else if LP_ENCODING_IS_32BIT_STR b then K32str
  else if b =? LP_EOF then Keof
  else Kbad.

#[global] Arguments class : simpl never.

Ltac by_class :=
  unfold class; repeat match goal with
  | |- context [if ?b then _ else _] => destruct b; [reflexivity|]
  end; reflexivity.

Lemma size_by_class lp p :
  lpCurrentEncodedSizeUnsafe lp p =
  match class (byte_at lp p) with
  | K7 | Keof => 1 | K13 => 2 | K16 => 3 | K24 => 4 | K32 => 5 | K64 => 9
  | K6str => 1 + LP_ENCODING_6BIT_STR_LEN lp p
  | K12str => 2 + LP_ENCODING_12BIT_STR_LEN lp p
  | K32str => wrap_u 32 (5 + LP_ENCODING_32BIT_STR_LEN lp p)
  | Kbad => 0
  end.
Proof. unfold lpCurrentEncodedSizeUnsafe. by_class. Qed.

Lemma size_bytes_by_class lp p :
  lpCurrentEncodedSizeBytes lp p =
  match class (byte_at lp p) with K12str => 2 | K32str => 5 | Kbad => 0 | _ => 1 end.
Proof.
  unfold lpCurrentEncodedSizeBytes, class.
  repeat match goal with |- context [?f (byte_at lp p)] => destruct (f (byte_at lp p)) end; try reflexivity;
  simpl; by destruct (byte_at lp p =? LP_EOF).
Qed.

(** The first byte of every encoding. *)
Lemma class_7bit v : 0 ≤ v ≤ 127 → class v = K7 ∧ Z.land v 0x7f = v.
Proof.
  intros Hv.
  generalize (forall_below (λ b, bool_decide (class b = K7) && (Z.land b 0x7f =? b)) 128
    eq_refl v ltac:(lia)). intros. reflect_bools. auto.
Qed.

Lemma class_6str n : 0 ≤ n < 64 → class (Z.lor n 0x80) = K6str ∧ Z.land (Z.lor n 0x80) 0x3F = n.
Proof.
  intros Hv.
  generalize (forall_below (λ b, bool_decide (class (Z.lor b 0x80) = K6str) &&
    (Z.land (Z.lor b 0x80) 0x3F =? b)) 64 eq_refl n ltac:(lia)).
  intros. reflect_bools. auto.
Qed.

Lemma class_13 h : 0 ≤ h < 32 → class (Z.lor h 0xC0) = K13 ∧ Z.land (Z.lor h 0xC0) 0x1f = h.
Proof.
  intros Hv.
  generalize (forall_below (λ b, bool_decide (class (Z.lor b 0xC0) = K13) &&
    (Z.land (Z.lor b 0xC0) 0x1f =? b)) 32 eq_refl h ltac:(lia)).
  intros. reflect_bools. auto.
Qed.

Lemma class_12str h : 0 ≤ h < 16 → class (Z.lor h 0xE0) = K12str ∧ Z.land (Z.lor h 0xE0) 0xF = h.
Proof.
  intros Hv.
  generalize (forall_below (λ b, bool_decide (class (Z.lor b 0xE0) = K12str) &&
    (Z.land (Z.lor b 0xE0) 0xF =? b)) 16 eq_refl h ltac:(lia)).
  intros. reflect_bools. auto.
Qed.

Definition get_str (lp : list Z) (p : nat) (hdr count : Z) : lpval * option Z :=
  (LStr (string_of (get_bytes (p + Z.to_nat hdr) (Z.to_nat count) lp)),
   Some (hdr + count + backlen_size (count + hdr))).

Definition get_int (lp : list Z) (p n : nat) (neg max size : Z) : lpval * option Z :=
  (LInt (from_unsigned (le_value (get_bytes (p + 1) n lp)) neg max), Some size).

Lemma get_by_class lp p :
  lpGetWithSize lp p =
  let b := byte_at lp p in
  match class b with
  | K7 => (LInt (from_unsigned (Z.land b 0x7f) ULLONG_MAX 0), Some 2)
  | K6str => get_str lp p 1 (LP_ENCODING_6BIT_STR_LEN lp p)
  | K13 => (LInt (from_unsigned (Z.lor (Z.shiftl (Z.land b 0x1f) 8) (byte_at lp (p + 1)))
                    (Z.shiftl 1 12) 8191), Some 3)
  | K16 => get_int lp p 2 (Z.shiftl 1 15) 65535 4
  | K24 => get_int lp p 3 (Z.shiftl 1 23) (Z.shiftr UINT32_MAX 8) 5
  | K32 => get_int lp p 4 (Z.shiftl 1 31) UINT32_MAX 6
  | K64 => get_int lp p 8 (Z.shiftl 1 63) ULLONG_MAX 10
  | K12str => get_str lp p 2 (LP_ENCODING_12BIT_STR_LEN lp p)
  | K32str => get_str lp p 5 (LP_ENCODING_32BIT_STR_LEN lp p)
  | _ => (LInt (from_unsigned (12345678900000000 + b) ULLONG_MAX 0), None)
  end.
Proof.
  unfold lpGetWithSize, get_str, get_int. cbv zeta. unfold class.
  repeat match goal with
  | |- context [if ?b then _ else _] =>
      lazymatch b with
      | context [if _ then _ else _] => fail
      | _ => destruct b; [reflexivity|]
      end
  end; reflexivity.
Qed.

(** The functions that read an element read only what follows its start. *)
Lemma get_app pre l : lpGetWithSize (pre ++ l) (length pre) = lpGetWithSize l 0.
Proof.
  rewrite !get_by_class. cbv zeta. unfold get_str, get_int, LP_ENCODING_6BIT_STR_LEN,
    LP_ENCODING_12BIT_STR_LEN, LP_ENCODING_32BIT_STR_LEN.
  rewrite !byte_at_app0, !byte_at_app, !get_bytes_app. done.
Qed.

Lemma size_app pre l :
  lpCurrentEncodedSizeUnsafe (pre ++ l) (length pre) = lpCurrentEncodedSizeUnsafe l 0.
Proof.
  rewrite !size_by_class. unfold LP_ENCODING_6BIT_STR_LEN,
    LP_ENCODING_12BIT_STR_LEN, LP_ENCODING_32BIT_STR_LEN.
  rewrite !byte_at_app0, !byte_at_app, !get_bytes_app. done.
Qed.

Lemma size_bytes_app pre l :
  lpCurrentEncodedSizeBytes (pre ++ l) (length pre) = lpCurrentEncodedSizeBytes l 0.
Proof. by rewrite !size_bytes_by_class, !byte_at_app0. Qed.

Lemma from_unsigned_spec n v :
  0 < n ≤ 64 → - 2 ^ (n - 1) ≤ v < 2 ^ (n - 1) →
  from_unsigned (v mod 2 ^ n) (2 ^ (n - 1)) (2 ^ n - 1) = v.
Proof.
  intros Hn Hv. unfold from_unsigned.
  assert (2 ^ n = 2 * 2 ^ (n - 1)) as Hp by (rewrite <- Z.pow_succ_r by lia; f_equal; lia).
  assert (2 ^ (n - 1) ≤ 2 ^ 63) as H63 by (apply Z.pow_le_mono_r; lia).
  destruct (Z.lt_ge_cases v 0).
  - replace (v mod 2 ^ n) with (2 ^ n + v)
      by (rewrite <- (Z.mod_add v 1) by lia; rewrite Z.mod_small; lia).
    destruct (Z.leb_spec (2 ^ (n - 1)) (2 ^ n + v)); [|lia].
    replace (wrap_u 64 _) with (- 1 - v)
      by (unfold wrap_u; rewrite Z.mod_small; change (2 ^ 64) with (2 * 2 ^ 63); lia).
    rewrite (wrap_s_small 64 (-1 - v)) by (change (64 - 1) with 63; lia).
    rewrite wrap_s_small by (change (64 - 1) with 63; lia). lia.
  - rewrite (Z.mod_small v) by lia. destruct (Z.leb_spec (2 ^ (n - 1)) v); [lia|].
    rewrite wrap_s_small by (change (64 - 1) with 63; lia). done.
Qed.

(** ** Reading what was encoded *)

Lemma le_value_of_bytes n u : 0 ≤ u < 2 ^ (8 * Z.of_nat n) → le_value (le_bytes n u) = u.
Proof. intros. rewrite le_value_bytes. by apply Z.mod_small. Qed.

(** The value as the encoding holds it. *)
Lemma unsigned_mod n v :
  0 < n → - 2 ^ (n - 1) ≤ v < 2 ^ (n - 1) →
  (if v <? 0 then Z.shiftl 1 n + v else v) = v mod 2 ^ n.
Proof.
  intros Hn Hv. rewrite Z.shiftl_mul_pow2, Z.mul_1_l by lia.
  assert (2 ^ n = 2 * 2 ^ (n - 1)) by (rewrite <- Z.pow_succ_r by lia; f_equal; lia).
  destruct (Z.ltb_spec v 0); [|rewrite Z.mod_small; lia].
  rewrite <- (Z.mod_add v 1) by lia. rewrite Z.mod_small; lia.
Qed.

Lemma get_bytes_1 b l post : get_bytes 1 (length l) (b :: l ++ post) = l.
Proof. apply (get_bytes_exact [b]). Qed.

(** An integer behind a fixed encoding byte. *)
Lemma get_int_encoded b n v post size :
  (0 < n ≤ 8)%nat →
  - 2 ^ (8 * Z.of_nat n - 1) ≤ v < 2 ^ (8 * Z.of_nat n - 1) →
  get_int (b :: le_bytes n (v mod 2 ^ (8 * Z.of_nat n)) ++ post) 0 n
    (2 ^ (8 * Z.of_nat n - 1)) (2 ^ (8 * Z.of_nat n) - 1) size = (LInt v, Some size).
Proof.
  intros Hn Hv. unfold get_int. do 2 f_equal.
  pose proof (get_bytes_1 b (le_bytes n (v mod 2 ^ (8 * Z.of_nat n))) post) as E.
  rewrite length_le_bytes in E. simpl Nat.add. rewrite E.
  rewrite le_value_of_bytes by (apply Z.mod_pos_bound; lia).
  apply from_unsigned_spec; lia.
Qed.

Lemma byte_at_0 b l : byte_at (b :: l) 0 = b.
Proof. done. Qed.

Lemma byte_at_1 a b l : byte_at (a :: b :: l) 1 = b.
Proof. done. Qed.

Lemma land_ff u : Z.land u 0xff = u mod 256.
Proof. apply (Z.land_ones u 8). lia. Qed.

Lemma get_encoded_int z post :
  LLONG_MIN ≤ z ≤ LLONG_MAX →
  lpGetWithSize (lpEncodeIntegerGetType z ++ post) 0 =
    (LInt z, Some (Z.of_nat (length (entry (LInt z))))).
Proof.
  intros Hz. unfold LLONG_MIN, LLONG_MAX in Hz. rewrite get_by_class. unfold entry, encode.
  unfold lpEncodeIntegerGetType.
  destruct (_ && _) eqn:E1; reflect_bools; cbv zeta.
  { cbn [app]. rewrite byte_at_0. destruct (class_7bit z) as [-> ->]; [lia|]. do 2 f_equal.
    unfold from_unsigned, ULLONG_MAX. destruct (Z.leb_spec 18446744073709551615 z); [lia|].
    apply wrap_s_small; simpl; lia. }
  destruct ((-4096 <=? z) && _) eqn:E2; reflect_bools.
  { cbn [app]. rewrite byte_at_0. rewrite (unsigned_mod 13) by (simpl; lia). set (u := z mod 2 ^ 13).
    assert (0 ≤ u < 2 ^ 13) as Hu by (apply Z.mod_pos_bound; lia).
    rewrite Z.shiftr_div_pow2 by lia. rewrite byte_at_1, land_ff.
    destruct (class_13 (u / 2 ^ 8)) as [-> ->].
    { split; [apply Z.div_pos; lia|apply Z.div_lt_upper_bound; simpl in *; lia]. }
    do 2 f_equal. rewrite lor_shiftl_add by (try apply Z.mod_pos_bound; lia).
    change 256 with (2 ^ 8). rewrite (Z.mul_comm (u / _)), <- Z.div_mod by lia.
    apply (from_unsigned_spec 13); simpl; lia. }
  destruct ((-32768 <=? z) && _) eqn:E3; reflect_bools.
  { cbn [app]. rewrite byte_at_0. rewrite (unsigned_mod 16) by (simpl; lia). apply (get_int_encoded 0xF1 2); simpl; lia. }
  destruct ((-8388608 <=? z) && _) eqn:E4; reflect_bools.
  { cbn [app]. rewrite byte_at_0. rewrite (unsigned_mod 24) by (simpl; lia). apply (get_int_encoded 0xF2 3); simpl; lia. }
  destruct ((-2147483648 <=? z) && _) eqn:E5; reflect_bools.
  { cbn [app]. rewrite byte_at_0. rewrite (unsigned_mod 32) by (simpl; lia). apply (get_int_encoded 0xF3 4); simpl; lia. }
  cbn [app]. rewrite byte_at_0. apply (get_int_encoded 0xF4 8); simpl; lia.
Qed.

(** A string behind its length field [hdr]. *)
Lemma get_str_encoded hdr s post :
  get_str (hdr ++ bytes_of s ++ post) 0 (Z.of_nat (length hdr)) (Z.of_nat (String.length s)) =
    (LStr s, Some (Z.of_nat (length hdr + String.length s +
       length (lpEncodeBacklen (Z.of_nat (length hdr + String.length s)))))).
Proof.
  unfold get_str. rewrite !Nat2Z.id. simpl Nat.add.
  rewrite <- (length_bytes_of s) at 1. rewrite get_bytes_exact, string_of_bytes.
  do 2 f_equal. unfold backlen_size. rewrite !Nat2Z.inj_add. do 4 f_equal. lia.
Qed.

(** The length field of a string and what is read from it. *)
Definition str_header (len : Z) : list Z :=
  if len <? 64 then [Z.lor len 0x80]
  else if len <? 4096 then [Z.lor (Z.shiftr len 8) 0xE0; Z.land len 0xff]
  else 0xF0 :: le_bytes 4 len.

Lemma read_str_header len l :
  0 ≤ len < 2 ^ 32 - 16 →
  let lp := str_header len ++ l in
  match class (byte_at lp 0) with
  | K6str => LP_ENCODING_6BIT_STR_LEN lp 0 = len ∧ length (str_header len) = 1%nat
  | K12str => LP_ENCODING_12BIT_STR_LEN lp 0 = len ∧ length (str_header len) = 2%nat
  | K32str => LP_ENCODING_32BIT_STR_LEN lp 0 = len ∧ length (str_header len) = 5%nat
  | _ => False
  end.
Proof.
  intros Hl. unfold str_header, LP_ENCODING_6BIT_STR_LEN, LP_ENCODING_12BIT_STR_LEN,
    LP_ENCODING_32BIT_STR_LEN.
  destruct (Z.ltb_spec len 64); cbv zeta.
  { cbn [app]. rewrite byte_at_0. destruct (class_6str len) as [-> ->]; [lia|done]. }
  destruct (Z.ltb_spec len 4096).
  { cbn [app]. rewrite byte_at_0, Z.shiftr_div_pow2 by lia.
    destruct (class_12str (len / 2 ^ 8)) as [-> ->].
    { split; [apply Z.div_pos; lia|apply Z.div_lt_upper_bound; simpl in *; lia]. }
    split; [|done]. change (0 + 1)%nat with 1%nat. rewrite byte_at_1, land_ff.
    rewrite lor_shiftl_add by (try apply Z.mod_pos_bound; lia).
    change 256 with (2 ^ 8). by rewrite (Z.mul_comm (len / _)), <- Z.div_mod by lia. }
  cbn [app]. rewrite byte_at_0. change (class 240) with K32str. cbv iota.
  split; [|by cbn [length]; rewrite length_le_bytes].
  pose proof (get_bytes_1 0xF0 (le_bytes 4 len) l) as E. rewrite length_le_bytes in E.
  simpl Nat.add. rewrite E. apply le_value_of_bytes. simpl. lia.
Qed.

Lemma encode_str s : encode (LStr s) = str_header (Z.of_nat (String.length s)) ++ bytes_of s.
Proof. done. Qed.

(** ** Elements *)

Lemma get_encoded v post :
  val_ok v →
  lpGetWithSize (encode v ++ post) 0 = (v, Some (Z.of_nat (length (entry v)))).
Proof.
  destruct v as [s|z]; [|by apply get_encoded_int]. intros [_ Hs].
  unfold entry. rewrite encode_str, <- app_assoc.
  set (len := Z.of_nat (String.length s)) in *.
  generalize (read_str_header len (bytes_of s ++ post) ltac:(unfold len; lia)).
  rewrite get_by_class. cbv zeta. rewrite !length_app, length_bytes_of.
  generalize (get_str_encoded (str_header len) s post). fold len.
  destruct (class _); intros E; try done; intros [-> Hh]; rewrite Hh in E |- *; apply E.
Qed.

Lemma size_encoded v post :
  val_ok v → lpCurrentEncodedSizeUnsafe (encode v ++ post) 0 = Z.of_nat (length (encode v)).
Proof.
  destruct v as [s|z].
  - intros [_ Hs]. rewrite encode_str, <- app_assoc.
    set (len := Z.of_nat (String.length s)) in *.
    generalize (read_str_header len (bytes_of s ++ post) ltac:(unfold len; lia)).
    rewrite size_by_class. cbv zeta. rewrite length_app, length_bytes_of, Nat2Z.inj_add.
    fold len. destruct (class _); try done; intros [-> ->]; try lia.
    unfold wrap_u. rewrite Z.mod_small; lia.
  - intros Hz. cbn [encode val_ok] in *. rewrite size_by_class. unfold lpEncodeIntegerGetType.
    destruct (_ && _) eqn:E1; reflect_bools; cbv zeta.
    { cbn [app]. rewrite byte_at_0. destruct (class_7bit z) as [-> _]; [lia|done]. }
    destruct ((-4096 <=? z) && _) eqn:E2; reflect_bools.
    { cbn [app]. rewrite byte_at_0. rewrite (unsigned_mod 13) by (simpl; lia).
      assert (0 ≤ z mod 2 ^ 13 < 2 ^ 13) as Hu by (apply Z.mod_pos_bound; lia).
      rewrite Z.shiftr_div_pow2 by lia. destruct (class_13 (z mod 2 ^ 13 / 2 ^ 8)) as [-> _]; [|done].
      split; [apply Z.div_pos; lia|apply Z.div_lt_upper_bound; simpl in *; lia]. }
    repeat case_match; done.
Qed.

Lemma first_byte v post : val_ok v → byte_at (encode v ++ post) 0 ≠ LP_EOF.
Proof.
  intros Hv E. generalize (get_encoded v post Hv). rewrite get_by_class, E. by intros ?.
Qed.

Lemma size_bytes_encoded v post :
  val_ok v → 1 ≤ lpCurrentEncodedSizeBytes (encode v ++ post) 0 ≤ Z.of_nat (length (encode v)).
Proof.
  intros Hv. generalize (get_encoded v post Hv), (size_encoded v post Hv).
  rewrite get_by_class, size_by_class, size_bytes_by_class. cbv zeta. destruct v as [s|z].
  - destruct Hv as [_ Hs]. rewrite encode_str, <- app_assoc.
    generalize (read_str_header (Z.of_nat (String.length s)) (bytes_of s ++ post) ltac:(lia)).
    cbv zeta. rewrite length_app, Nat2Z.inj_add.
    destruct (class _); intros Hh; try done; destruct Hh as [_ ->]; lia.
  - destruct (class _); unfold get_str, get_int; intros H1 H2; simplify_eq; lia.
Qed.

Lemma encode_nonempty v : val_ok v → (0 < length (encode v))%nat.
Proof. intros Hv. pose proof (size_bytes_encoded v [] Hv). lia. Qed.

(** ** The backward length *)

Lemma cont_byte x :
  Z.land (Z.lor (Z.land x 127) 128) 127 = x mod 128 ∧ Z.land (Z.lor (Z.land x 127) 128) 128 = 128.
Proof.
  change 127 with (Z.ones 7) at 1 3. rewrite Z.land_ones by lia. change (2 ^ 7) with 128.
  pose proof (Z.mod_pos_bound x 128 ltac:(lia)) as H.
  generalize (forall_below (λ b, (Z.land (Z.lor b 128) 127 =? b) &&
    (Z.land (Z.lor b 128) 128 =? 128)) 128 eq_refl _ H). intros. reflect_bools. auto.
Qed.

Lemma last_byte x : 0 ≤ x < 128 → Z.land x 127 = x ∧ Z.land x 128 = 0.
Proof.
  intros H. generalize (forall_below (λ b, (Z.land b 127 =? b) && (Z.land b 128 =? 0)) 128
    eq_refl _ H). intros. reflect_bools. auto.
Qed.

Lemma decode_cont fuel pre bs k l s :
  0 ≤ s → s + 7 ≤ 28 → byte_at bs (S k) = Z.lor (Z.land (Z.shiftr l s) 127) 128 →
  decode_backlen_loop (S fuel) (pre ++ bs) (length pre + S k) (l mod 2 ^ s) s =
  decode_backlen_loop fuel (pre ++ bs) (length pre + k) (l mod 2 ^ (s + 7)) (s + 7).
Proof.
  intros Hs Hs' E. cbn [decode_backlen_loop]. rewrite byte_at_app, E.
  destruct (cont_byte (Z.shiftr l s)) as [-> ->]. change (128 =? 0) with false. cbv iota zeta.
  destruct (Z.ltb_spec 28 (s + 7)); [lia|]. f_equal; [lia|].
  rewrite Z.shiftr_div_pow2, Z.lor_comm by lia.
  rewrite lor_shiftl_add by (try apply Z.mod_pos_bound; lia).
  rewrite Z.pow_add_r, Z.rem_mul_r by lia. change (2 ^ 7) with 128. lia.
Qed.

Lemma decode_last fuel lp p l s :
  0 ≤ s → 0 ≤ l < 2 ^ (s + 7) → byte_at lp p = Z.shiftr l s →
  decode_backlen_loop (S fuel) lp p (l mod 2 ^ s) s = l.
Proof.
  intros Hs Hl E. cbn [decode_backlen_loop]. rewrite E, Z.shiftr_div_pow2 by lia.
  rewrite Z.pow_add_r in Hl by lia. change (2 ^ 7) with 128 in Hl.
  destruct (last_byte (l / 2 ^ s)) as [-> ->].
  { split; [apply Z.div_pos; lia|apply Z.div_lt_upper_bound; lia]. }
  change (0 =? 0) with true. cbv iota zeta.
  rewrite Z.lor_comm, lor_shiftl_add by (try apply Z.mod_pos_bound; lia).
  rewrite Z.mul_comm. symmetry. apply Z.div_mod. lia.
Qed.

Lemma lpDecodeBacklen_encoded pre l post :
  0 ≤ l < 2 ^ 35 →
  lpDecodeBacklen (pre ++ lpEncodeBacklen l ++ post)
    (length pre + length (lpEncodeBacklen l) - 1) = l.
Proof.
  intros Hl. unfold lpDecodeBacklen.
  replace 0 with (l mod 2 ^ 0) at 1 by apply Z.mod_1_r. unfold lpEncodeBacklen.
  destruct (Z.leb_spec l 127); [|destruct (Z.ltb_spec l 16383);
    [|destruct (Z.ltb_spec l 2097151); [|destruct (Z.ltb_spec l 268435455)]]];
    cbn [length app]; rewrite <- Nat.add_sub_assoc by lia; cbn [Nat.sub];
    repeat (rewrite decode_cont by (first [lia|done]); cbn [Z.add Pos.add Pos.succ]);
    apply decode_last; rewrite ?byte_at_app; simpl in *; try done; lia.
Qed.

(** ** One entry in a block *)

Lemma encode_length v : val_ok v → Z.of_nat (length (encode v)) < 2 ^ 32.
Proof.
  destruct v as [s|z].
  - intros [_ Hs]. rewrite encode_str, length_app, length_bytes_of. unfold str_header.
    repeat case_match; cbn [length]; rewrite ?length_le_bytes; lia.
  - intros _. cbn [encode]. unfold lpEncodeIntegerGetType.
    repeat case_match; cbn [length]; rewrite ?length_le_bytes; simpl; lia.
Qed.

Lemma entry_nonempty v : val_ok v → (1 < length (entry v))%nat.
Proof.
  intros Hv. pose proof (encode_nonempty v Hv). unfold entry. rewrite length_app.
  unfold lpEncodeBacklen. repeat case_match; simpl; lia.
Qed.

Lemma entry_app pre v post : pre ++ entry v ++ post = pre ++ encode v ++
  (lpEncodeBacklen (Z.of_nat (length (encode v))) ++ post).
Proof. unfold entry. by rewrite <- app_assoc. Qed.

Section one_entry.
Context (pre post : list Z) (v : lpval) (Hv : val_ok v).

Lemma get_entry :
  lpGetWithSize (pre ++ entry v ++ post) (length pre) = (v, Some (Z.of_nat (length (entry v)))).
Proof. rewrite entry_app, get_app. by apply get_encoded. Qed.

Lemma size_entry :
  lpCurrentEncodedSizeUnsafe (pre ++ entry v ++ post) (length pre) =
  Z.of_nat (length (encode v)).
Proof. rewrite entry_app, size_app. by apply size_encoded. Qed.

Lemma full_size_entry :
  let l := Z.of_nat (length (encode v)) in l + backlen_size l = Z.of_nat (length (entry v)).
Proof. cbv zeta. unfold backlen_size, entry. rewrite length_app. lia. Qed.

Lemma skip_entry :
  lpSkip (pre ++ entry v ++ post) (length pre) = (length pre + length (entry v))%nat.
Proof. unfold lpSkip. rewrite size_entry, full_size_entry. lia. Qed.

Lemma byte_entry : byte_at (pre ++ entry v ++ post) (length pre) ≠ LP_EOF.
Proof. rewrite entry_app, byte_at_app0. by apply first_byte. Qed.

Lemma backlen_entry :
  lpDecodeBacklen (pre ++ entry v ++ post) (length pre + length (entry v) - 1) =
  Z.of_nat (length (encode v)).
Proof.
  unfold entry. rewrite <- app_assoc, app_assoc, length_app, Nat.add_assoc, <- length_app.
  apply lpDecodeBacklen_encoded. pose proof (encode_length v Hv). lia.
Qed.

Lemma validate_entry lpbytes :
  (6 <= length pre)%nat → Z.of_nat (length pre + length (entry v)) < lpbytes →
  lpValidateNext (pre ++ entry v ++ post) (Some (length pre)) lpbytes =
  Ok (length pre + length (entry v))%nat.
Proof.
  intros Hpre Hb. unfold lpValidateNext, out_of_range, LP_HDR_SIZE.
  assert (length (entry v) = (length (encode v) +
    length (lpEncodeBacklen (Z.of_nat (length (encode v)))))%nat) as El
    by (unfold entry; by rewrite length_app).
  rewrite size_entry, full_size_entry. rewrite (proj2 (Z.eqb_neq _ _) byte_entry).
  pose proof (size_bytes_encoded v (lpEncodeBacklen (Z.of_nat (length (encode v))) ++ post) Hv) as Hs.
  rewrite entry_app, size_bytes_app, <- entry_app.
  set (sz := lpCurrentEncodedSizeBytes _ _) in *.
  replace (Z.of_nat (length (entry v))) with (Z.of_nat (length (encode v)) +
    backlen_size (Z.of_nat (length (encode v)))) by apply full_size_entry.
  rewrite full_size_entry, Nat2Z.id, backlen_entry.
  pose proof (encode_length v Hv).
  repeat (rewrite (proj2 (Nat.ltb_ge _ _)) by lia; rewrite (proj2 (Z.ltb_ge _ _)) by lia;
          cbn [orb]).
  rewrite (proj2 (Z.eqb_neq sz 0)) by lia. rewrite full_size_entry.
  unfold wrap_u. rewrite Z.mod_small, Z.eqb_refl; [done|].
  enough (Z.of_nat (length (entry v)) < 2 ^ 64) by lia.
  assert (length (lpEncodeBacklen (Z.of_nat (length (encode v)))) <= 5)%nat
    by (unfold lpEncodeBacklen; repeat case_match; simpl; lia). lia.
Qed.

End one_entry.

(** ** The elements of a listpack *)

Lemma body_app vs ws : body (vs ++ ws) = body vs ++ body ws.
Proof. unfold body. by rewrite fmap_app, concat_app. Qed.

Lemma body_cons v vs : body (v :: vs) = entry v ++ body vs.
Proof. done. Qed.

Lemma length_header t n : length (header t n) = 6%nat.
Proof. unfold header. by rewrite length_app, !length_le_bytes. Qed.

Lemma total_header t n l : 0 ≤ t ≤ UINT32_MAX → lpGetTotalBytes (header t n ++ l) = t.
Proof.
  intros Ht. unfold lpGetTotalBytes, header. rewrite <- app_assoc.
  pose proof (get_bytes_exact [] (le_bytes 4 t) (le_bytes 2 n ++ l)) as E.
  rewrite length_le_bytes in E. cbn [app length] in E. rewrite E.
  apply le_value_of_bytes. unfold UINT32_MAX in Ht. simpl. lia.
Qed.

Lemma num_header t n l : 0 ≤ n ≤ 65535 → lpGetNumElements (header t n ++ l) = n.
Proof.
  intros Ht. unfold lpGetNumElements, header. rewrite <- app_assoc.
  pose proof (get_bytes_exact (le_bytes 4 t) (le_bytes 2 n) l) as E.
  rewrite !length_le_bytes in E. rewrite E.
  apply le_value_of_bytes. simpl. lia.
Qed.

Lemma total_pos vs : 7 ≤ total vs.
Proof. unfold total. lia. Qed.

Section traversal.
Context (lp : list Z) (vs : list lpval) (Hrep : rep lp vs).

Lemma rep_total_bytes : lpGetTotalBytes lp = total vs.
Proof.
  destruct Hrep as [(n & spare & -> & Hn) Ht _]. apply total_header.
  pose proof (total_pos vs). lia.
Qed.

Lemma rep_num : count_ok (lpGetNumElements lp) vs.
Proof.
  destruct Hrep as [(n & spare & -> & Hn) Ht _]. rewrite num_header; [done|]. apply Hn.
Qed.

Lemma rep_length : total vs ≤ Z.of_nat (length lp).
Proof.
  destruct Hrep as [(n & spare & -> & Hn) _ _]. unfold total.
  rewrite !length_app, length_header. simpl. lia.
Qed.

(** The block around element [i]. *)
Lemma rep_entry i v :
  vs !! i = Some v →
  val_ok v ∧ ∃ pre post,
    lp = pre ++ entry v ++ post ∧ length pre = offset_of vs i ∧
    (offset_of vs i + length (entry v) = offset_of vs (S i))%nat ∧
    Z.of_nat (offset_of vs (S i)) < total vs.
Proof.
  intros Hi. destruct Hrep as [(n & spare & -> & Hn) _ Hvs]. split.
  { eapply Forall_lookup_1; eauto. }
  exists (header (total vs) n ++ body (take i vs)), (body (drop (S i) vs) ++ LP_EOF :: spare).
  assert (body vs = body (take i vs) ++ entry v ++ body (drop (S i) vs)) as Hb
    by (rewrite <- body_cons, <- body_app; by rewrite take_drop_middle).
  unfold offset_of, total. rewrite (take_S_r _ _ _ Hi), body_app, body_cons, Hb.
  rewrite !length_app, length_header. cbn [body fmap list_fmap concat length app].
  repeat split; [by rewrite <- !app_assoc|lia..].
Qed.

(** The end marker. *)
Lemma rep_eof :
  ∃ pre post, lp = pre ++ LP_EOF :: post ∧ length pre = offset_of vs (length vs) ∧
    Z.of_nat (length pre) = total vs - 1.
Proof.
  destruct Hrep as [(n & spare & -> & Hn) _ _].
  exists (header (total vs) n ++ body vs), spare. unfold offset_of, total.
  rewrite firstn_all, !length_app, length_header, <- app_assoc. repeat split. lia.
Qed.

Lemma offset_bounds i : (6 <= offset_of vs i)%nat.
Proof. unfold offset_of. lia. Qed.

Lemma offset_ge i : (length vs <= i)%nat → offset_of vs i = offset_of vs (length vs).
Proof. intros Hi. unfold offset_of. by rewrite firstn_all, take_ge. Qed.

(** A cursor: the pointer to element [i], or NULL past the last. *)
Definition cursor (i : nat) : lp_res nat :=
  if decide (i < length vs)%nat then Ok (offset_of vs i) else Null.

Lemma byte_cursor i :
  (i ≤ length vs)%nat →
  (byte_at lp (offset_of vs i) =? LP_EOF) = bool_decide (i = length vs).
Proof.
  intros Hi. destruct (decide (i = length vs)) as [->|Hne].
  - destruct rep_eof as (pre & post & Heq & <- & _).
    rewrite bool_decide_eq_true_2 by done. by rewrite Heq, byte_at_app0.
  - destruct (lookup_lt_is_Some_2 vs i) as [v Hv]; [lia|].
    destruct (rep_entry i v Hv) as (Hok & pre & post & Heq & <- & _).
    rewrite bool_decide_eq_false_2 by done. apply Z.eqb_neq.
    rewrite Heq. by apply byte_entry.
Qed.

Lemma valid_entry_cursor i :
  (i < length vs)%nat → valid_entry lp (offset_of vs i) = Ok (offset_of vs i).
Proof.
  intros Hi. unfold valid_entry, lpAssertValidEntry, lpBytes. rewrite rep_total_bytes.
  destruct (lookup_lt_is_Some_2 vs i Hi) as [v Hv].
  destruct (rep_entry i v Hv) as (Hok & pre & post & Heq & Hpre & Hnext & Ht).
  pose proof (offset_bounds i). rewrite Heq, <- Hpre, validate_entry by (done || lia). done.
Qed.

Lemma valid_cursor i :
  (i ≤ length vs)%nat →
  (if byte_at lp (offset_of vs i) =? LP_EOF then Null else valid_entry lp (offset_of vs i)) =
  cursor i.
Proof.
  intros Hi. rewrite byte_cursor by done. unfold cursor. case_bool_decide as H.
  - by rewrite decide_False by lia.
  - rewrite decide_True by lia. apply valid_entry_cursor. lia.
Qed.

Lemma skip_cursor i : (i < length vs)%nat → lpSkip lp (offset_of vs i) = offset_of vs (S i).
Proof.
  intros Hi. destruct (lookup_lt_is_Some_2 vs i Hi) as [v Hv].
  destruct (rep_entry i v Hv) as (Hok & pre & post & Heq & Hpre & Hnext & Ht).
  rewrite Heq, <- Hpre, skip_entry by done. lia.
Qed.

Lemma lpFirst_cursor : lpFirst lp = cursor 0.
Proof. rewrite <- valid_cursor by lia. done. Qed.

Lemma lpNext_cursor i : (i < length vs)%nat → lpNext lp (offset_of vs i) = cursor (S i).
Proof. intros Hi. unfold lpNext. rewrite skip_cursor by done. apply valid_cursor. lia. Qed.

Lemma lpPrev_cursor i :
  (i ≤ length vs)%nat →
  lpPrev lp (offset_of vs i) = match i with O => Null | S i => Ok (offset_of vs i) end.
Proof.
  intros Hi. unfold lpPrev. destruct i as [|i]; [done|].
  destruct (lookup_lt_is_Some_2 vs i ltac:(lia)) as [v Hv].
  destruct (rep_entry i v Hv) as (Hok & pre & post & Heq & Hpre & Hnext & Ht).
  pose proof (entry_nonempty v Hok). pose proof (offset_bounds i). pose proof (offset_bounds (S i)).
  destruct (Nat.eqb_spec (offset_of vs (S i)) LP_HDR_SIZE) as [E|_];
    [unfold LP_HDR_SIZE in E; lia|].
  replace (lpDecodeBacklen lp _) with (Z.of_nat (length (encode v)))
    by (rewrite <- Hnext, <- Hpre, Heq; symmetry; by apply backlen_entry).
  rewrite full_size_entry. unfold wrap_u. pose proof (encode_length v Hok).
  destruct Hrep as [_ Hmax _]. unfold UINT32_MAX in Hmax.
  rewrite Z.mod_small by lia. rewrite <- (valid_entry_cursor i) by lia. f_equal. lia.
Qed.

Lemma lpLast_cursor :
  lpLast lp = match length vs with O => Null | S i => Ok (offset_of vs i) end.
Proof.
  unfold lpLast. rewrite rep_total_bytes. destruct rep_eof as (pre & post & _ & Hpre & Ht).
  replace (Z.to_nat (total vs - 1)) with (offset_of vs (length vs)) by lia.
  by apply lpPrev_cursor.
Qed.

Lemma get_cursor i v :
  vs !! i = Some v → lpGetWithSize lp (offset_of vs i) = (v, Some (Z.of_nat (length (entry v)))).
Proof.
  intros Hv. destruct (rep_entry i v Hv) as (Hok & pre & post & Heq & <- & _).
  rewrite Heq. by apply get_entry.
Qed.

End traversal.

(** ** Seeking and counting *)

Lemma set_bytes_app pre bs bs' l :
  length bs' = length bs → set_bytes (length pre) bs' (pre ++ bs ++ l) = pre ++ bs' ++ l.
Proof.
  intros H. unfold set_bytes. rewrite take_app_length, H, (app_assoc pre bs l).
  by rewrite drop_app_length' by (rewrite length_app; lia).
Qed.

Lemma set_num_header t n m l : lpSetNumElements (header t n ++ l) m = header t m ++ l.
Proof.
  unfold lpSetNumElements, header. rewrite <- !app_assoc.
  generalize (set_bytes_app (le_bytes 4 t) (le_bytes 2 n) (le_bytes 2 m) l).
  rewrite !length_le_bytes. auto.
Qed.

Lemma set_total_header t n u l : lpSetTotalBytes (header t n ++ l) u = header u n ++ l.
Proof.
  unfold lpSetTotalBytes, header. rewrite <- !app_assoc.
  generalize (set_bytes_app [] (le_bytes 4 t) (le_bytes 4 u) (le_bytes 2 n ++ l)).
  rewrite !length_le_bytes. auto.
Qed.

(** The element an index names, from either end. *)
Definition seek_spec (vs : list lpval) (index : Z) : lp_res nat :=
  let j := if index <? 0 then Z.of_nat (length vs) + index else index in
  if (0 <=? j) && (j <? Z.of_nat (length vs)) then Ok (offset_of vs (Z.to_nat j)) else Null.

Section scans.
Context (lp : list Z) (vs : list lpval) (Hrep : rep lp vs).

Definition prev_cursor (i : nat) : lp_res nat :=
  match i with O => Null | S i => Ok (offset_of vs i) end.

Lemma seek_next_cursor n i : seek_next n lp (cursor vs i) = cursor vs (i + n).
Proof using Hrep.
  revert i. induction n as [|n IH]; intros i; simpl; [by rewrite Nat.add_0_r|].
  unfold cursor at 1. destruct (decide _) as [Hi|Hi].
  - rewrite (lpNext_cursor lp vs Hrep) by done. rewrite IH. f_equal. lia.
  - unfold cursor. by rewrite !decide_False by lia.
Qed.

Lemma seek_prev_cursor n i :
  (i ≤ length vs)%nat → seek_prev n lp (prev_cursor i) = prev_cursor (i - n).
Proof using Hrep.
  revert i. induction n as [|n IH]; intros i Hi; simpl; [by rewrite Nat.sub_0_r|].
  destruct i as [|i]; simpl; [done|].
  rewrite (lpPrev_cursor lp vs Hrep) by lia. apply IH. lia.
Qed.

Lemma seek_forward j : 0 ≤ j →
  seek_next (Z.to_nat j) lp (lpFirst lp) =
  if j <? Z.of_nat (length vs) then Ok (offset_of vs (Z.to_nat j)) else Null.
Proof using Hrep.
  intros Hj. rewrite (lpFirst_cursor lp vs Hrep), seek_next_cursor. unfold cursor. simpl.
  destruct (Z.ltb_spec j (Z.of_nat (length vs)));
    [rewrite decide_True by lia|rewrite decide_False by lia]; done.
Qed.

Lemma seek_backward j : j < 0 →
  seek_prev (Z.to_nat (- 1 - j)) lp (lpLast lp) =
  if 0 <=? Z.of_nat (length vs) + j
  then Ok (offset_of vs (Z.to_nat (Z.of_nat (length vs) + j))) else Null.
Proof using Hrep.
  intros Hj. rewrite (lpLast_cursor lp vs Hrep). fold (prev_cursor (length vs)).
  rewrite seek_prev_cursor by lia. unfold prev_cursor.
  destruct (length vs - _)%nat as [|k] eqn:E; destruct (Z.leb_spec 0 (Z.of_nat (length vs) + j));
    try done; try lia.
  do 2 f_equal. lia.
Qed.

Lemma lpSeek_index index : lpSeek lp index = seek_spec vs index.
Proof using Hrep.
  unfold lpSeek, seek_spec. destruct (rep_num lp vs Hrep) as [Hb Hn].
  pose proof (seek_forward (if index <? 0 then Z.of_nat (length vs) + index else index)) as Hf.
  pose proof (seek_backward) as Hback.
  destruct (Z.eqb_spec (lpGetNumElements lp) LP_HDR_NUMELE_UNKNOWN) as [_|Hne].
  - destruct (Z.ltb_spec index 0).
    + rewrite Hback by done. destruct (Z.ltb_spec (Z.of_nat (length vs) + index) (Z.of_nat (length vs)));
        [by rewrite andb_true_r|lia].
    + rewrite Hf by done. by destruct (Z.leb_spec 0 index); [|lia].
  - destruct Hn as [|Hn]; [done|]. rewrite Hn. set (j := if index <? 0 then _ else _) in *.
    destruct (Z.ltb_spec j 0); [by rewrite (proj2 (Z.leb_gt 0 j)) by done|].
    rewrite (proj2 (Z.leb_le 0 j)) by done. cbn [andb].
    destruct (Z.leb_spec (Z.of_nat (length vs)) j).
    { by rewrite (proj2 (Z.ltb_ge j _)) by done. }
    rewrite (proj2 (Z.ltb_lt j _)) by done.
    destruct (Z.ltb_spec (Z.of_nat (length vs) / 2) j).
    + rewrite Hback by lia. replace (Z.of_nat (length vs) + (j - Z.of_nat (length vs))) with j by lia.
      by rewrite (proj2 (Z.leb_le 0 j)) by done.
    + rewrite Hf by done. by rewrite (proj2 (Z.ltb_lt j _)) by done.
Qed.

Lemma body_length ws : Forall val_ok ws → (2 * length ws <= length (body ws))%nat.
Proof.
  induction 1 as [|w ws Hw _ IH]; [simpl; lia|]. rewrite body_cons, length_app.
  pose proof (entry_nonempty w Hw). simpl. lia.
Qed.

Lemma rep_few : 2 * Z.of_nat (length vs) + 7 ≤ UINT32_MAX.
Proof using Hrep.
  destruct Hrep as [_ Ht Hvs]. pose proof (body_length vs Hvs). unfold total in Ht. lia.
Qed.

Lemma count_loop_cursor fuel i :
  (i ≤ length vs)%nat → (length vs - i < fuel)%nat →
  count_loop fuel lp (cursor vs i) (Z.of_nat i) = Ok (Z.of_nat (length vs)).
Proof using Hrep.
  pose proof rep_few. unfold UINT32_MAX in *.
  revert i. induction fuel as [|fuel IH]; intros i Hi Hf; [lia|].
  cbn [count_loop]. unfold cursor at 1. destruct (decide _).
  - rewrite (lpNext_cursor lp vs Hrep) by done. unfold wrap_u. rewrite Z.mod_small by lia.
    replace (Z.of_nat i + 1) with (Z.of_nat (S i)) by lia. apply IH; lia.
  - do 2 f_equal. lia.
Qed.

Lemma lpLength_count :
  ∃ lp', lpLength lp = Ok (Z.of_nat (length vs), lp') ∧ rep lp' vs.
Proof using Hrep.
  unfold lpLength. destruct (rep_num lp vs Hrep) as [Hb Hn].
  destruct (Z.eqb_spec (lpGetNumElements lp) LP_HDR_NUMELE_UNKNOWN) as [_|Hne].
  - rewrite (lpFirst_cursor lp vs Hrep). rewrite (count_loop_cursor _ 0); [|lia|].
    + destruct (Z.ltb_spec (Z.of_nat (length vs)) LP_HDR_NUMELE_UNKNOWN); [|eauto].
      eexists; split; [done|]. destruct Hrep as [(n & spare & -> & Hn') Ht Hvs].
      split; [|done..]. exists (Z.of_nat (length vs)), spare. rewrite set_num_header.
      split; [done|]. unfold count_ok, LP_HDR_NUMELE_UNKNOWN in *. lia.
    + pose proof (rep_length lp vs Hrep) as Hl. destruct Hrep as [_ _ Hvs].
      pose proof (body_length vs Hvs). unfold total in Hl. lia.
  - destruct Hn as [|Hn]; [done|]. rewrite Hn. eauto.
Qed.

End scans.

(** ** Searching *)

(** The text of an element. *)
Definition text (v : lpval) : string :=
  match v with LStr s => s | LInt z => pretty z end.

(** The element a string is stored as. *)
Definition of_text (s : string) : lpval :=
  match lpStringToInt64 s with Some z => LInt z | None => LStr s end.

Lemma text_of_text s : text (of_text s) = s.
Proof.
  unfold of_text, lpStringToInt64. destruct (string2ll s) as [z|] eqn:E; [|done].
  by apply string2ll_spec in E as [_ ->].
Qed.

Lemma of_text_text v : val_ok v → of_text (text v) = v.
Proof.
  unfold of_text. destruct v as [s|z]; simpl; [by intros [-> _]|]. intros Hz.
  unfold lpStringToInt64. by rewrite (proj2 (string2ll_spec (pretty z) z)).
Qed.

Lemma of_text_ok s : Z.of_nat (String.length s) < 2 ^ 32 - 16 → val_ok (of_text s).
Proof.
  intros Hs. unfold of_text. destruct (lpStringToInt64 s) as [z|] eqn:E; simpl; [|done].
  unfold lpStringToInt64 in E. apply string2ll_spec in E as [Hz _]. done.
Qed.

Lemma text_inj v w : val_ok v → val_ok w → text v = text w → v = w.
Proof. intros Hv Hw E. by rewrite <- (of_text_text v), <- (of_text_text w), E. Qed.

Lemma lpFindCmp_text s v : val_ok v → lpFindCmp s v = bool_decide (text v = s).
Proof.
  destruct v as [t|z]; intros Hv; cbn [lpFindCmp text]; [done|].
  pose proof (pretty_llong_length z Hv) as Hl. unfold lpStringToInt64.
  assert (string2ll (pretty z) = Some z) as Hz by (by apply string2ll_spec).
  destruct (decide (pretty z = s)) as [<-|Hne].
  - rewrite bool_decide_eq_true_2, Hz by done.
    destruct (Nat.leb_spec 32 (String.length (pretty z))); [lia|].
    destruct (Nat.eqb_spec (String.length (pretty z)) 0) as [E|_]; [|apply Z.eqb_refl].
    destruct (pretty z); [by vm_compute in Hz|done].
  - rewrite bool_decide_eq_false_2 by done. destruct (_ || _); [done|].
    destruct (string2ll s) as [y|] eqn:E; [|done]. apply Z.eqb_neq. intros ->.
    apply string2ll_spec in E as [_ ->]. done.
Qed.

(** The first match from element [i] on, looking at one element in [skip + 1]. *)
Fixpoint find_from (cmp : lpval → bool) (skip skipcnt : nat) (ws : list lpval) (i : nat) :
    option nat :=
  match ws with
  | [] => None
  | w :: ws =>
      match skipcnt with
      | O => if cmp w then Some i else find_from cmp skip skip ws (S i)
      | S k => find_from cmp skip k ws (S i)
      end
  end.

Definition ptr_of (vs : list lpval) (o : option nat) : lp_res nat :=
  match o with Some j => Ok (offset_of vs j) | None => Null end.

Section find.
Context (lp : list Z) (vs : list lpval) (Hrep : rep lp vs).

(** The check the loop makes on a pointer before it goes on. *)
Lemma find_guard i :
  (i ≤ length vs)%nat →
  (if lpBytes lp <=? Z.of_nat (offset_of vs i) + 8
   then lpAssertValidEntry lp (lpBytes lp) (offset_of vs i)
   else (LP_HDR_SIZE <=? offset_of vs i)%nat && (Z.of_nat (offset_of vs i) <? lpBytes lp)) = true.
Proof using Hrep.
  intros Hi. pose proof (offset_bounds vs i) as H6. unfold lpBytes.
  rewrite (rep_total_bytes lp vs Hrep).
  destruct (decide (i = length vs)) as [->|Hne].
  - destruct (rep_eof lp vs Hrep) as (pre & post & Heq & Hpre & Ht).
    destruct (Z.leb_spec (total vs) (Z.of_nat (offset_of vs (length vs)) + 8)); [|lia].
    unfold lpAssertValidEntry, lpValidateNext, out_of_range, LP_HDR_SIZE.
    rewrite (proj2 (Nat.ltb_ge _ _)) by lia. rewrite (proj2 (Z.ltb_ge _ _)) by lia. cbn [orb].
    rewrite (byte_cursor lp vs Hrep) by lia. by rewrite bool_decide_eq_true_2.
  - destruct (lookup_lt_is_Some_2 vs i ltac:(lia)) as [v Hv].
    destruct (rep_entry lp vs Hrep i v Hv) as (Hok & pre & post & Heq & Hpre & Hnext & Ht).
    destruct (Z.leb_spec (total vs) (Z.of_nat (offset_of vs i) + 8)).
    + generalize (valid_entry_cursor lp vs Hrep i ltac:(lia)). unfold valid_entry, lpBytes.
      rewrite (rep_total_bytes lp vs Hrep). by destruct (lpAssertValidEntry _ _ _).
    + apply andb_true_iff. split; [apply Nat.leb_le; unfold LP_HDR_SIZE; lia|apply Z.ltb_lt; lia].
Qed.

Lemma find_loop_cursor cmp skip fuel cnt size i :
  (i < length vs)%nat → (length vs - i < fuel)%nat →
  find_loop fuel lp cmp skip cnt size (offset_of vs i) =
  ptr_of vs (find_from cmp skip cnt (drop i vs) i).
Proof using Hrep.
  revert cnt size i. induction fuel as [|fuel IH]; intros cnt size i Hi Hf; [lia|].
  destruct (lookup_lt_is_Some_2 vs i Hi) as [v Hv].
  destruct (rep_entry lp vs Hrep i v Hv) as (Hok & pre & post & Heq & Hpre & Hnext & Ht).
  pose proof (offset_bounds vs i) as H6.
  rewrite (drop_S _ _ _ Hv). cbn [find_loop find_from].
  assert (∀ cnt size,
    (if if lpBytes lp <=? Z.of_nat (offset_of vs (S i)) + 8
        then lpAssertValidEntry lp (lpBytes lp) (offset_of vs (S i))
        else (LP_HDR_SIZE <=? offset_of vs (S i))%nat &&
             (Z.of_nat (offset_of vs (S i)) <? lpBytes lp)
     then if byte_at lp (offset_of vs (S i)) =? LP_EOF then Null
          else find_loop fuel lp cmp skip cnt size (offset_of vs (S i))
     else Abort) = ptr_of vs (find_from cmp skip cnt (drop (S i) vs) (S i))) as Hgo.
  { intros cnt' size'. rewrite find_guard by lia. rewrite (byte_cursor lp vs Hrep) by lia.
    case_bool_decide as Hend; [by rewrite drop_ge by lia|]. apply IH; lia. }
  destruct cnt as [|cnt]; [|by rewrite (skip_cursor lp vs Hrep) by done].
  rewrite (get_cursor lp vs Hrep i v Hv). cbn [from_option id].
  rewrite Nat2Z.id, Hnext, (proj2 (Nat.leb_le _ _)) by (unfold LP_HDR_SIZE; lia).
  rewrite (proj2 (Z.ltb_lt (_ + _) _)) by (unfold lpBytes; rewrite (rep_total_bytes lp vs Hrep); lia).
  cbn [andb]. destruct (cmp v); [by destruct v|]. rewrite Hgo. by destruct v.
Qed.

Lemma lpFind_from i s skip :
  Z.of_nat (String.length s) < 2 ^ 32 → (i < length vs)%nat →
  lpFind lp (Some (offset_of vs i)) s skip =
  ptr_of vs (find_from (λ v, bool_decide (text v = s)) skip 0 (drop i vs) i).
Proof using Hrep.
  intros Hs Hi. unfold lpFind, lpFindCb, wrap_u. rewrite Z.mod_small, Nat2Z.id, stake_all by lia. rewrite find_loop_cursor; [|done|].
  - f_equal. assert (Forall val_ok (drop i vs)) as Hd
      by (apply Forall_drop, (rep_vals _ _ Hrep)).
    clear Hi. revert i Hd. generalize 0%nat as cnt. intros cnt i. generalize (drop i vs) as ws.
    intros ws Hd. revert cnt i.
    induction Hd as [|w ws Hw _ IH]; intros cnt i; [done|]. destruct cnt; cbn [find_from]; [|done].
    rewrite lpFindCmp_text by done. by rewrite IH.
  - pose proof (rep_length lp vs Hrep) as Hl.
    pose proof (body_length vs (rep_vals _ _ Hrep)). unfold total in Hl. lia.
Qed.

End find.

(** ** Updates *)

Section room.
Context (junk : nat → Z) (A R B spare : list Z).

Lemma get_bytes_mid (X Y W : list Z) n m :
  n = length X → m = length Y → get_bytes n m (X ++ Y ++ W) = Y.
Proof. intros -> ->. apply get_bytes_exact. Qed.

(** The bytes before the element stay, those after it move. *)
Lemma move_room (spare1 : list Z) (k : nat) :
  (k <= length R + length spare1)%nat →
  ∃ J rest, move_bytes (length A + k) (length A + length R) (length B) (A ++ R ++ B ++ spare1) =
    A ++ J ++ B ++ rest ∧ length J = k ∧ (length B + length rest + k = length R + length B + length spare1)%nat.
Proof.
  intros Hk. exists (take k (R ++ B ++ spare1)), (drop (length B) (drop k (R ++ B ++ spare1))).
  unfold move_bytes, set_bytes.
  rewrite (app_assoc A R), (get_bytes_mid (A ++ R) B spare1) by (rewrite ?length_app; done).
  rewrite <- app_assoc, take_app_add, <- app_assoc.
  rewrite <- Nat.add_assoc, drop_app_add, drop_drop, length_take, length_drop, !length_app.
  repeat split; lia.
Qed.

Lemma make_room_spec (k : nat) :
  lpGetTotalBytes (A ++ R ++ B ++ spare) = Z.of_nat (length A + length R + length B) →
  ∃ J rest, make_room junk (A ++ R ++ B ++ spare) (length A) (Z.of_nat k) (Z.of_nat (length R)) =
    A ++ J ++ B ++ rest ∧ length J = k.
Proof.
  intros Ht. unfold make_room. rewrite Ht. cbv zeta. rewrite !Nat2Z.id.
  set (old := (length A + length R + length B)%nat).
  set (new := Z.of_nat old + Z.of_nat k - Z.of_nat (length R)).
  assert (∃ spare1, (if (Z.of_nat old <? new) && (Z.of_nat (length (A ++ R ++ B ++ spare)) <? new)
     then resize_bytes junk (Z.to_nat new) (A ++ R ++ B ++ spare) else A ++ R ++ B ++ spare) =
     A ++ R ++ B ++ spare1 ∧ (k <= length R + length spare1)%nat) as (spare1 & -> & Hk).
  { destruct (_ && _) eqn:E; reflect_bools.
    - exists (spare ++ (junk <$> seq (length (A ++ R ++ B ++ spare))
        (Z.to_nat new - length (A ++ R ++ B ++ spare)))).
      unfold resize_bytes. rewrite take_ge by lia. rewrite <- !app_assoc. split; [done|].
      rewrite length_app, length_fmap, length_seq. rewrite !length_app in *. lia.
    - exists spare. split; [done|]. apply andb_false_iff in E as [E|E]; reflect_bools;
        rewrite ?length_app in *; lia. }
  replace (old - (length A + length R))%nat with (length B) by lia.
  destruct (move_room spare1 k Hk) as (J & rest & -> & HJ & Hlen).
  destruct (Z.ltb_spec new (Z.of_nat old)); [|eauto].
  exists J, []. split; [|done]. unfold resize_bytes.
  rewrite !app_assoc, take_app_le by (rewrite !length_app; lia).
  rewrite take_ge by (rewrite !length_app; lia).
  replace (Z.to_nat new - _)%nat with 0%nat by (rewrite !length_app; lia). done.
Qed.

Lemma store_entry_spec (J E1 E2 rest : list Z) :
  length J = (length E1 + length E2)%nat →
  store_entry (A ++ J ++ rest) (length A) E1 E2 (Z.of_nat (length E1)) = A ++ (E1 ++ E2) ++ rest.
Proof.
  intros HJ. unfold store_entry. rewrite Nat2Z.id.
  rewrite <- (take_drop (length E1) J), <- app_assoc.
  rewrite set_bytes_app by (rewrite length_take; lia).
  rewrite app_assoc, <- length_app.
  rewrite set_bytes_app by (rewrite length_drop; lia). by rewrite <- !app_assoc.
Qed.

End room.

(** What is inserted. *)
Inductive ele_of : lp_ele → list lpval → Prop :=
| eo_str s : ele_of (EleStr s) [of_text s]
| eo_int z : ele_of (EleInt (lpEncodeIntegerGetType z)) [LInt z]
| eo_none : ele_of EleNone [].

Lemma encode_ele_of e new :
  ele_of e new →
  ∃ enc, encode_ele e = (enc, Z.of_nat (length enc)) ∧
    body new = enc ++ (if is_delete e then [] else lpEncodeBacklen (Z.of_nat (length enc))).
Proof.
  destruct 1 as [s|z|]; cbn [encode_ele is_delete]; [| |by exists []].
  - exists (encode (of_text s)). split.
    + unfold lpEncodeGetType, of_text. destruct (lpStringToInt64 s) as [z|]; [done|].
      f_equal. cbn [encode]. unfold lpEncodeString.
      rewrite length_app, length_bytes_of. repeat case_match; cbn [length]; rewrite ?length_le_bytes; lia.
    + unfold body, entry. cbn [fmap list_fmap concat]. by rewrite app_nil_r.
  - eexists. split; [done|]. unfold body, entry. cbn [fmap list_fmap concat encode].
    by rewrite app_nil_r.
Qed.

Definition replaces (e : lp_ele) (wh : lp_where) : bool :=
  is_delete e || match wh with LP_REPLACE => true | _ => false end.

Definition is_nil {A} (l : list A) : bool := match l with [] => true | _ => false end.

Lemma body_nil_byte vs rest :
  Forall val_ok vs → (byte_at (body vs ++ LP_EOF :: rest) 0 =? LP_EOF) = is_nil vs.
Proof.
  destruct 1 as [|v vs Hv _]; [done|]. simpl is_nil. apply Z.eqb_neq.
  rewrite body_cons. unfold entry. rewrite <- !app_assoc. by apply first_byte.
Qed.

(** The count after the change. *)
Lemma count_ok_app n vs1 old new vs2 :
  count_ok n (vs1 ++ old ++ vs2) → n ≠ LP_HDR_NUMELE_UNKNOWN →
  0 ≤ n + Z.of_nat (length new) - Z.of_nat (length old) ≤ 65535 →
  count_ok (n + Z.of_nat (length new) - Z.of_nat (length old)) (vs1 ++ new ++ vs2).
Proof.
  intros [Hb [|Hn]] Hne Hr; [done|]. split; [done|]. right.
  rewrite Hn, !length_app. lia.
Qed.

Lemma count_ok_unknown vs : count_ok LP_HDR_NUMELE_UNKNOWN vs.
Proof. unfold count_ok, LP_HDR_NUMELE_UNKNOWN. lia. Qed.

Section update.
Context (junk : nat → Z) (lp : list Z) (vs1 old vs2 : list lpval).
Context (Hrep : rep lp (vs1 ++ old ++ vs2)).

Abbreviation poff := (offset_of (vs1 ++ old ++ vs2) (length vs1)).

Lemma offset_here (vs : list lpval) : offset_of (vs1 ++ vs) (length vs1) = (6 + length (body vs1))%nat.
Proof using Type. unfold offset_of. by rewrite take_app_length. Qed.

(** The length of the entry that is replaced. *)
Lemma replaced_len_spec w :
  old = [w] →
  (let l := lpCurrentEncodedSizeUnsafe lp poff in wrap_u 32 (l + backlen_size l)) =
  Z.of_nat (length (body old)) ∧
  assert_integrity_len lp poff (Z.of_nat (length (body old))) = true.
Proof using Hrep.
  intros Hw. assert ((vs1 ++ old ++ vs2) !! length vs1 = Some w) as Hl
    by (rewrite Hw; by apply list_lookup_middle).
  destruct (rep_entry lp _ Hrep _ _ Hl) as (Hok & pre & post & Heq & Hpre & Hnext & Ht).
  assert (body old = entry w) as -> by (rewrite Hw; unfold body; simpl; by rewrite app_nil_r).
  destruct Hrep as [_ Hmax _]. unfold UINT32_MAX in Hmax. split.
  - rewrite Heq, <- Hpre, size_entry by done. cbv zeta. rewrite full_size_entry.
    unfold wrap_u. rewrite Z.mod_small; [done|]. change (2 ^ 32) with 4294967296. lia.
  - unfold assert_integrity_len. rewrite (rep_total_bytes lp _ Hrep). apply andb_true_iff.
    pose proof (offset_bounds (vs1 ++ old ++ vs2) (length vs1)).
    split; [apply Nat.leb_le; unfold LP_HDR_SIZE; lia|apply Z.ltb_lt; lia].
Qed.

(** The block once the header is updated. *)
Lemma finish_rep n new rest :
  count_ok n (vs1 ++ new ++ vs2) → total (vs1 ++ new ++ vs2) ≤ UINT32_MAX →
  Forall val_ok new →
  rep (lpSetTotalBytes (header (total (vs1 ++ old ++ vs2)) n ++
         body vs1 ++ body new ++ body vs2 ++ LP_EOF :: rest) (total (vs1 ++ new ++ vs2)))
      (vs1 ++ new ++ vs2).
Proof using Hrep.
  intros Hn Ht Hnew. rewrite set_total_header. split; [|done|].
  - exists n, rest. split; [|done]. by rewrite !body_app, <- !app_assoc.
  - destruct Hrep as [_ _ Hvs]. rewrite !Forall_app in *. tauto.
Qed.

(** The block once the element is stored, before the header is updated. *)
Lemma stored_block e new enc bl :
  ele_of e new → body new = enc ++ bl → (is_delete e = true → bl = []) →
  let room := make_room junk lp poff (Z.of_nat (length enc) + Z.of_nat (length bl))
    (Z.of_nat (length (body old))) in
  ∃ n rest, (if is_delete e then room else store_entry room poff enc bl (Z.of_nat (length enc))) =
      header (total (vs1 ++ old ++ vs2)) n ++ body vs1 ++ body new ++ body vs2 ++ LP_EOF :: rest ∧
    count_ok n (vs1 ++ old ++ vs2) ∧
    (is_delete e = true → (byte_at room poff =? LP_EOF) = is_nil vs2).
Proof using Hrep.
  intros He Hbody Hbl. pose proof (rep_total_bytes lp _ Hrep) as Hbytes.
  destruct Hrep as [(n & spare & Hlp & Hn) Hmax Hvs].
  set (A := header (total (vs1 ++ old ++ vs2)) n ++ body vs1).
  assert (lp = A ++ body old ++ (body vs2 ++ [LP_EOF]) ++ spare) as E.
  { unfold A. rewrite Hlp, !body_app, <- !app_assoc. done. }
  assert (length A = poff) as HA
    by (unfold A; rewrite length_app, length_header, offset_here; done).
  destruct (make_room_spec junk A (body old) (body vs2 ++ [LP_EOF]) spare (length (body new)))
    as (J & rest & Hroom & HJ).
  { rewrite <- E, Hbytes. unfold total, A. rewrite !body_app, !length_app, length_header. simpl. lia. }
  rewrite <- E, HA in Hroom.
  replace (Z.of_nat (length enc) + Z.of_nat (length bl)) with (Z.of_nat (length (body new)))
    by (rewrite Hbody, length_app; lia).
  cbv zeta. rewrite Hroom. exists n, rest. repeat split; [|apply Hn..|].
  - destruct (is_delete e) eqn:Hd.
    + destruct He; try done. simpl in HJ. apply nil_length_inv in HJ as ->.
      unfold A. rewrite <- !app_assoc. done.
    + rewrite <- HA, store_entry_spec by (rewrite HJ, Hbody, length_app; done).
      unfold A. rewrite Hbody, <- !app_assoc. done.
  - intros Hd. destruct He; try done. simpl in HJ. apply nil_length_inv in HJ as ->.
    rewrite <- HA, byte_at_app0. cbn [app]. rewrite <- app_assoc. apply body_nil_byte.
    rewrite !Forall_app in Hvs. tauto.
Qed.

Lemma lpInsert_core e new wh :
  ele_of e new → Forall val_ok new →
  wh ≠ LP_AFTER → (if replaces e wh then ∃ w, old = [w] else old = []) →
  if UINT32_MAX <? total (vs1 ++ new ++ vs2) then lpInsert junk lp e poff wh = Null
  else ∃ lp', lpInsert junk lp e poff wh =
      Ok (lp', if is_delete e && is_nil vs2 then None else Some poff) ∧
    rep lp' (vs1 ++ new ++ vs2).
Proof using Hrep.
  intros He Hnew Hwh Hold. unfold lpInsert.
  destruct (encode_ele_of e new He) as (enc & -> & Hbody).
  set (bl := if is_delete e then [] else lpEncodeBacklen (Z.of_nat (length enc))) in *.
  assert (match (if is_delete e then LP_REPLACE else wh) with LP_REPLACE => true | _ => false end
    = replaces e wh) as Hrepl by (unfold replaces; by destruct (is_delete e), wh).
  assert (match (if is_delete e then LP_REPLACE else wh) with LP_AFTER => lpSkip lp poff
    | _ => poff end = poff) as -> by (by destruct (is_delete e), wh).
  assert (match (if is_delete e then LP_REPLACE else wh) with
    LP_AFTER => negb (assert_integrity lp poff) | _ => false end = false) as ->
    by (by destruct (is_delete e), wh).
  cbv zeta. rewrite Hrepl.
  assert ((if replaces e wh then wrap_u 32 (lpCurrentEncodedSizeUnsafe lp poff +
      backlen_size (lpCurrentEncodedSizeUnsafe lp poff)) else 0) = Z.of_nat (length (body old)) ∧
    replaces e wh && negb (assert_integrity_len lp poff (Z.of_nat (length (body old)))) = false)
    as [-> ->].
  { destruct (replaces e wh); [|by subst]. destruct Hold as [w Hw].
    destruct (replaced_len_spec w Hw) as [E ->]. done. }
  destruct (stored_block e new enc bl He Hbody) as (n & rest & -> & Hn & Hbyte).
  { unfold bl. by intros ->. }
  replace (lpGetTotalBytes lp + _ + _ - _) with (total (vs1 ++ new ++ vs2))
    by (rewrite (rep_total_bytes lp _ Hrep); unfold total;
        rewrite !body_app, !length_app, Hbody, length_app; lia).
  destruct (Z.ltb_spec UINT32_MAX (total (vs1 ++ new ++ vs2))); [done|].
  eexists. split.
  { do 2 f_equal. destruct (is_delete e); [by rewrite Hbyte|done]. }
  rewrite num_header by apply Hn.
  destruct (Z.eqb_spec n LP_HDR_NUMELE_UNKNOWN) as [->|Hne].
  { rewrite andb_false_r.
    by apply finish_rep; [apply count_ok_unknown|..]. }
  rewrite andb_true_r.
  assert (n = Z.of_nat (length (vs1 ++ old ++ vs2))) as Hlen by (destruct Hn as [_ []]; done).
  destruct Hn as [Hb Hn]. unfold LP_HDR_NUMELE_UNKNOWN in Hne.
  assert (count_ok (n + Z.of_nat (length new) - Z.of_nat (length old)) (vs1 ++ new ++ vs2)) as Hc.
  { apply count_ok_app; [done|done|]. rewrite Hlen, !length_app in *.
    assert (length new <= 1)%nat by (destruct He; simpl; lia). lia. }
  replace (length old) with (if replaces e wh then 1 else 0)%nat in Hc
    by (destruct (replaces e wh); [by destruct Hold as [w ->]|by subst]).
  replace (length new) with (if is_delete e then 0 else 1)%nat in Hc by (by destruct He).
  unfold replaces in *. destruct (is_delete e); cbn [negb orb] in *.
  - replace (n - 1) with (n + Z.of_nat 0 - Z.of_nat 1) by lia. rewrite set_num_header. by apply finish_rep.
  - destruct wh; cbn [negb]; [|done|].
    + replace (n + 1) with (n + Z.of_nat 1 - Z.of_nat 0) by lia. rewrite set_num_header. by apply finish_rep.
    + apply finish_rep; [|done..].
      by replace n with (n + Z.of_nat 1 - Z.of_nat 1) by lia.
Qed.

End update.

(** ** Ranges *)

Lemma lpShrinkToFit_keeps junk lp vs : rep lp vs → rep (lpShrinkToFit junk lp) vs.
Proof.
  intros Hrep. unfold lpShrinkToFit. rewrite (rep_total_bytes lp vs Hrep).
  destruct (Nat.ltb_spec (Z.to_nat (total vs)) (length lp)) as [Hlt|]; [|done].
  destruct Hrep as [(n & spare & -> & Hn) Ht Hvs]. split; [|done..].
  exists n, []. split; [|done]. unfold resize_bytes.
  replace (Z.to_nat (total vs) - _)%nat with 0%nat by lia. cbn [seq fmap list_fmap].
  rewrite app_nil_r. change (LP_EOF :: spare) with ([LP_EOF] ++ spare).
  rewrite !app_assoc, take_app_length'; [done|].
  unfold total. rewrite !length_app, length_header. simpl. lia.
Qed.

Section range.
Context (junk : nat → Z) (lp : list Z) (vs : list lpval) (Hrep : rep lp vs).

Lemma offset_end i : (offset_of vs i <= offset_of vs (length vs))%nat.
Proof using Type.
  unfold offset_of. rewrite firstn_all. rewrite <- (take_drop i vs) at 2.
  rewrite body_app, length_app. lia.
Qed.

Lemma range_end_spec num i deleted :
  (i < length vs)%nat → (0 < num)%nat →
  range_end num lp (lpBytes lp) (offset_of vs i) deleted =
  Ok (offset_of vs (i + num), deleted + Z.of_nat (num `min` (length vs - i))).
Proof using Hrep.
  revert i deleted. induction num as [|num IH]; intros i deleted Hi Hn; [lia|].
  cbn [range_end]. rewrite (skip_cursor lp vs Hrep) by done.
  rewrite (byte_cursor lp vs Hrep) by lia. case_bool_decide as Hend.
  - rewrite (offset_ge vs (i + S num)) by lia. rewrite Hend. do 2 f_equal. lia.
  - generalize (valid_entry_cursor lp vs Hrep (S i) ltac:(lia)). unfold valid_entry.
    destruct (lpAssertValidEntry _ _ _); [|done]. intros _.
    destruct num as [|num].
    + cbn [range_end]. rewrite Nat.add_1_r. do 2 f_equal. lia.
    + rewrite IH by lia. rewrite Nat.add_succ_comm. do 2 f_equal. lia.
Qed.

(** The block split around the elements from [i] to [j]. *)
Lemma rep_split i j :
  (i ≤ j)%nat →
  ∃ n spare,
    let A := header (total vs) n ++ body (take i vs) in
    let R := body (take (j - i) (drop i vs)) in
    let B := body (drop j vs) ++ [LP_EOF] in
    lp = A ++ R ++ B ++ spare ∧ count_ok n vs ∧
    length A = offset_of vs i ∧ (length A + length R)%nat = offset_of vs j ∧
    total vs = Z.of_nat (length A + length R + length B).
Proof using Hrep.
  intros Hij. destruct Hrep as [(n & spare & Hlp & Hn) _ _]. exists n, spare. cbv zeta.
  assert (body vs = body (take i vs) ++ body (take (j - i) (drop i vs)) ++ body (drop j vs)) as Hb.
  { rewrite <- !body_app. f_equal.
    replace (drop j vs) with (drop (j - i) (drop i vs)) by (rewrite drop_drop; f_equal; lia).
    by rewrite !take_drop. }
  assert (body (take j vs) = body (take i vs) ++ body (take (j - i) (drop i vs))) as Hj.
  { rewrite <- body_app. f_equal. rewrite <- (take_drop i (take j vs)), take_take, Nat.min_l by lia.
    by rewrite skipn_firstn_comm. }
  split; [by rewrite Hlp, Hb, <- !app_assoc|]. split; [done|].
  unfold offset_of, total. rewrite Hj, Hb, !length_app, length_header. simpl. lia.
Qed.

Lemma drop_take_ok i j : Forall val_ok (take i vs ++ drop j vs).
Proof using Hrep.
  destruct Hrep as [_ _ Hvs]. apply Forall_app. split; [by apply Forall_take|by apply Forall_drop].
Qed.

Lemma range_total i j :
  (i ≤ j)%nat →
  total (take i vs ++ drop j vs) = total vs - (Z.of_nat (offset_of vs j) - Z.of_nat (offset_of vs i))
  ∧ total (take i vs ++ drop j vs) ≤ UINT32_MAX.
Proof using Hrep.
  intros Hij. destruct (rep_split i j Hij) as (n & spare & Hlp & Hn & HA & HR & Ht).
  destruct Hrep as [_ Hmax _].
  assert (total (take i vs ++ drop j vs) =
    total vs - (Z.of_nat (offset_of vs j) - Z.of_nat (offset_of vs i))) as E; [|lia].
  rewrite Ht, <- HR, <- HA. unfold total. rewrite body_app, !length_app, length_header. simpl. lia.
Qed.

Lemma lpDeleteRangeWithEntry_spec i num :
  (i < length vs)%nat →
  ∃ lp' p', lpDeleteRangeWithEntry junk lp (offset_of vs i) num = Ok (lp', p') ∧
    rep lp' (take i vs ++ drop (i + num) vs).
Proof using Hrep.
  intros Hi. unfold lpDeleteRangeWithEntry. destruct (Nat.eqb_spec num 0) as [->|Hn].
  { rewrite Nat.add_0_r, take_drop. eauto. }
  rewrite range_end_spec by lia. eexists _, _. split; [done|].
  apply lpShrinkToFit_keeps. destruct (rep_split i (i + num) ltac:(lia))
    as (n & spare & Hlp & Hc & HA & HR & Ht). cbv zeta in *.
  destruct (range_total i (i + num) ltac:(lia)) as [Htot Hmax].
  set (A := header (total vs) n ++ body (take i vs)) in *.
  set (R := body (take (i + num - i) (drop i vs))) in *.
  set (B := body (drop (i + num) vs) ++ [LP_EOF]) in *.
  destruct (move_room A R B spare 0 ltac:(lia)) as (J & rest & E & HJ & _).
  apply nil_length_inv in HJ as ->. rewrite <- Hlp, HR, Nat.add_0_r, HA in E.
  unfold lpBytes. rewrite (rep_total_bytes lp vs Hrep).
  replace (Z.to_nat (total vs) - offset_of vs (i + num))%nat with (length B) by lia.
  rewrite E. unfold A. cbn [app]. rewrite <- app_assoc, set_total_header, num_header by apply Hc.
  rewrite <- Htot.
  destruct (Z.eqb_spec n LP_HDR_NUMELE_UNKNOWN) as [->|Hne]; rewrite ?set_num_header;
    (split; [|done|apply drop_take_ok]).
  - exists LP_HDR_NUMELE_UNKNOWN, rest. split; [|apply count_ok_unknown].
    unfold B. by rewrite body_app, <- !app_assoc.
  - eexists _, rest. split; [unfold B; by rewrite body_app, <- !app_assoc|].
    destruct Hc as [Hb [|Hc]]; [done|]. unfold count_ok. rewrite length_app, length_take, length_drop. lia.
Qed.

(** Everything from element [i] on is cut off by moving the end marker. *)
Lemma cut_rep i :
  (i < length vs)%nat → Z.of_nat i ≤ 65535 →
  rep (lpSetNumElements (lpSetTotalBytes (set_bytes (offset_of vs i) [LP_EOF] lp)
         (Z.of_nat (offset_of vs i) + 1)) (Z.of_nat i)) (take i vs).
Proof using Hrep.
  intros Hi H16. destruct (rep_split i (length vs) ltac:(lia))
    as (n & spare & Hlp & Hc & HA & HR & Ht). cbv zeta in *.
  set (A := header (total vs) n ++ body (take i vs)) in *.
  set (tl := body (take (length vs - i) (drop i vs)) ++
    (body (drop (length vs) vs) ++ [LP_EOF]) ++ spare) in *.
  assert (∃ b tl', tl = [b] ++ tl') as (b & tl' & Htl).
  { unfold tl. rewrite drop_all. destruct (body (take (length vs - i) _)) as [|b r];
      [by exists LP_EOF, spare|by exists b, (r ++ (body [] ++ [LP_EOF]) ++ spare)]. }
  rewrite Hlp, Htl, <- HA, set_bytes_app by done. unfold A at 1.
  rewrite <- app_assoc, set_total_header, set_num_header.
  assert (total (take i vs) = Z.of_nat (length A) + 1) as Htot
    by (rewrite HA; unfold total, offset_of; lia).
  destruct Hrep as [_ Hmax Hvs]. split.
  - exists (Z.of_nat i), tl'. rewrite Htot. split; [done|].
    unfold count_ok. rewrite length_take. lia.
  - pose proof (offset_end i). destruct (rep_eof lp vs Hrep) as (? & ? & _ & ? & ?). lia.
  - by apply Forall_take.
Qed.

End range.

(** The elements left by [lpDeleteRange]. *)
Definition range_removed (vs : list lpval) (index : Z) (num : nat) : list lpval :=
  let j := if index <? 0 then Z.of_nat (length vs) + index else index in
  if (0 <=? j) && (j <? Z.of_nat (length vs))
  then take (Z.to_nat j) vs ++ drop (Z.to_nat j + num) vs else vs.

Lemma lpDeleteRange_spec junk lp vs index num :
  rep lp vs →
  ∃ lp', lpDeleteRange junk lp index num = Ok lp' ∧ rep lp' (range_removed vs index num).
Proof.
  intros Hrep. unfold lpDeleteRange, range_removed.
  set (j := if index <? 0 then _ else _).
  destruct (Nat.eqb_spec num 0) as [->|Hnum].
  { rewrite Nat.add_0_r, take_drop. by destruct (_ && _); eauto. }
  rewrite (lpSeek_index lp vs Hrep). unfold seek_spec. fold j.
  destruct (_ && _) eqn:Hj; reflect_bools; [|eauto].
  destruct (rep_num lp vs Hrep) as [Hb Hn]. pose proof (rep_few lp vs Hrep) as Hfew.
  unfold UINT32_MAX in Hfew.
  destruct (Z.eqb_spec (lpGetNumElements lp) LP_HDR_NUMELE_UNKNOWN) as [E|Hne]; cbn [negb andb].
  - destruct (lpDeleteRangeWithEntry_spec junk lp vs Hrep (Z.to_nat j) num ltac:(lia))
      as (lp' & p' & -> & Hlp'). eauto.
  - destruct Hn as [|Hn]; [done|]. rewrite Hn in Hb |- *. fold j.
    unfold wrap_u. rewrite Z.mod_small by lia.
    destruct (Z.leb_spec (Z.of_nat (length vs) - j) (Z.of_nat num)).
    + eexists. split; [done|]. apply lpShrinkToFit_keeps. rewrite drop_ge, app_nil_r by lia.
      pose proof (cut_rep lp vs Hrep (Z.to_nat j) ltac:(lia) ltac:(lia)) as Hcut.
      by rewrite (Z2Nat.id j) in Hcut.
    + destruct (lpDeleteRangeWithEntry_spec junk lp vs Hrep (Z.to_nat j) num ltac:(lia))
        as (lp' & p' & -> & Hlp'). eauto.
Qed.

(** ** Merging *)

Lemma rep_exact lp vs :
  rep lp vs → ∃ n spare, lp = header (total vs) n ++ body vs ++ [LP_EOF] ++ spare ∧ count_ok n vs.
Proof. by intros [(n & spare & H & Hn) _ _]; exists n, spare. Qed.

Lemma merge_total vs ws : total (vs ++ ws) = total vs + total ws - 7.
Proof. unfold total. rewrite body_app, length_app. lia. Qed.

Lemma set_bytes_at (A X B Y : list Z) off :
  off = length A → length Y = length X → set_bytes off Y (A ++ X ++ B) = A ++ Y ++ B.
Proof. intros ->. apply set_bytes_app. Qed.

Lemma resize_prefix junk (A B : list Z) T :
  (length A ≤ T)%nat → ∃ X, resize_bytes junk T (A ++ B) = A ++ X ∧ length X = (T - length A)%nat.
Proof.
  intros HT. pose proof (length_resize_bytes junk T (A ++ B)) as Hl. unfold resize_bytes in *.
  rewrite take_app_ge, <- app_assoc in * by done. eexists. split; [done|].
  rewrite length_app in Hl. lia.
Qed.

Lemma get_bytes_prefix (Y W : list Z) m : m = length Y → get_bytes 0 m (Y ++ W) = Y.
Proof. intros ->. apply (get_bytes_exact []). Qed.

Lemma set_bytes_prefix (X Y B : list Z) :
  length Y = length X → set_bytes 0 Y (X ++ B) = Y ++ B.
Proof. apply (set_bytes_app []). Qed.

(** The two ways the elements are brought together. *)
Lemma merge_append junk n1 n2 vs ws spare1 spare2 :
  let lp1 := header (total vs) n1 ++ body vs ++ [LP_EOF] ++ spare1 in
  let lp2 := header (total ws) n2 ++ body ws ++ [LP_EOF] ++ spare2 in
  set_bytes (Z.to_nat (total vs) - 1) (get_bytes 6 (Z.to_nat (total ws) - 6) lp2)
    (resize_bytes junk (Z.to_nat (total (vs ++ ws))) lp1) =
  header (total vs) n1 ++ body (vs ++ ws) ++ [LP_EOF].
Proof.
  cbv zeta. rewrite (app_assoc (header (total vs) n1)).
  set (A := header (total vs) n1 ++ body vs).
  assert (length A = Z.to_nat (total vs) - 1)%nat as HA
    by (unfold A, total; rewrite length_app, length_header; lia).
  destruct (resize_prefix junk A ([LP_EOF] ++ spare1) (Z.to_nat (total (vs ++ ws))))
    as (X & -> & HX); [rewrite merge_total; pose proof (total_pos ws); lia|].
  rewrite (app_assoc (body ws)), (get_bytes_mid (header (total ws) n2))
    by (rewrite ?length_header, ?length_app; unfold total; simpl; lia).
  rewrite <- (app_nil_r X), (set_bytes_at A X []) by
    (rewrite ?HX, ?merge_total, ?HA; unfold total; rewrite ?length_app; simpl; lia).
  unfold A. by rewrite app_nil_r, body_app, <- !app_assoc.
Qed.

Lemma merge_prepend junk n1 n2 vs ws spare1 spare2 :
  let lp1 := header (total vs) n1 ++ body vs ++ [LP_EOF] ++ spare1 in
  let lp2 := header (total ws) n2 ++ body ws ++ [LP_EOF] ++ spare2 in
  set_bytes 0 (get_bytes 0 (Z.to_nat (total vs) - 1) lp1)
    (move_bytes (Z.to_nat (total vs) - 1) 6 (Z.to_nat (total ws) - 6)
       (resize_bytes junk (Z.to_nat (total (vs ++ ws))) lp2)) =
  header (total vs) n1 ++ body (vs ++ ws) ++ [LP_EOF].
Proof.
  cbv zeta. rewrite (app_assoc (body ws)), (app_assoc (header (total ws) n2)).
  destruct (resize_prefix junk (header (total ws) n2 ++ body ws ++ [LP_EOF]) spare2
    (Z.to_nat (total (vs ++ ws)))) as (X & -> & HX).
  { rewrite merge_total, !length_app, length_header. pose proof (total_pos vs).
    unfold total at 2. simpl. lia. }
  rewrite !length_app, length_header in HX. simpl in HX.
  rewrite <- app_assoc.
  unfold move_bytes. rewrite (get_bytes_mid (header (total ws) n2))
    by (rewrite ?length_header, ?length_app; unfold total; simpl; lia).
  rewrite (app_assoc (header (total vs) n1)).
  rewrite (get_bytes_prefix (header (total vs) n1 ++ body vs))
    by (rewrite ?length_app, ?length_header; unfold total; simpl; lia).
  set (T := header (total ws) n2 ++ (body ws ++ [LP_EOF]) ++ X).
  assert (length T = Z.to_nat (total (vs ++ ws))) as HT.
  { unfold T. rewrite !length_app, length_header, HX. simpl. unfold total.
    rewrite body_app, length_app. lia. }
  rewrite merge_total in HT. unfold set_bytes at 2.
  rewrite (drop_ge T) by (rewrite HT, length_app; unfold total; simpl; lia).
  rewrite app_nil_r. set (P := take _ T). rewrite (set_bytes_prefix P) by
    (unfold P; rewrite ?length_take, ?HT, ?length_app, ?length_header; unfold total; simpl; lia).
  by rewrite body_app, <- !app_assoc.
Qed.

Lemma lpMerge_spec junk lp1 lp2 vs ws :
  rep lp1 vs → rep lp2 ws → total (vs ++ ws) < UINT32_MAX →
  ∃ lp', lpMerge junk lp1 lp2 = Ok lp' ∧ rep lp' (vs ++ ws).
Proof.
  intros Hr1 Hr2 Hmax. unfold lpMerge.
  destruct (lpLength_count lp1 vs Hr1) as (lp1' & -> & Hr1').
  destruct (lpLength_count lp2 ws Hr2) as (lp2' & -> & Hr2').
  clear lp1 lp2 Hr1 Hr2. unfold lpBytes.
  rewrite (rep_total_bytes _ _ Hr1'), (rep_total_bytes _ _ Hr2').
  change (Z.of_nat LP_HDR_SIZE) with 6.
  replace (total vs + total ws - 6 - 1) with (total (vs ++ ws)) by (rewrite merge_total; lia).
  destruct (Z.leb_spec UINT32_MAX (total (vs ++ ws))); [lia|].
  destruct (rep_exact _ _ Hr1') as (n1 & spare1 & E1 & Hn1).
  destruct (rep_exact _ _ Hr2') as (n2 & spare2 & E2 & Hn2).
  pose proof (merge_append junk n1 n2 vs ws spare1 spare2) as Happ.
  pose proof (merge_prepend junk n1 n2 vs ws spare1 spare2) as Hpre.
  cbv zeta in Happ, Hpre. rewrite <- E1, <- E2 in Happ, Hpre.
  eexists. split; [done|]. change LP_HDR_SIZE with 6%nat. rewrite Happ, Hpre.
  replace (if total ws <=? total vs then _ else _) with
    (header (total vs) n1 ++ body (vs ++ ws) ++ [LP_EOF]) by (by destruct (total ws <=? total vs)).
  rewrite set_num_header, set_total_header. split; [|lia|].
  - eexists _, []. split; [done|]. unfold count_ok, LP_HDR_NUMELE_UNKNOWN. rewrite length_app. lia.
  - apply Forall_app. split; [apply (rep_vals _ _ Hr1')|apply (rep_vals _ _ Hr2')].
Qed.

(** ** Creation and validation *)

Lemma lpNew_rep junk capacity : rep (lpNew junk capacity) [].
Proof.
  unfold lpNew. pose proof (length_resize_bytes junk (capacity `max` (LP_HDR_SIZE + 1)) []) as Hl.
  destruct (resize_bytes _ _ _) as [|b0 [|b1 [|b2 [|b3 [|b4 [|b5 [|b6 spare]]]]]]];
    try (exfalso; simpl in Hl; lia).
  split; [|done|constructor]. exists 0, spare. split; [done|]. unfold count_ok. simpl. lia.
Qed.

Section validate.
Context (lp : list Z) (vs : list lpval) (Hrep : rep lp vs).

Lemma validate_loop_cursor fuel i :
  (i ≤ length vs)%nat → (length vs - i < fuel)%nat →
  validate_loop fuel lp (total vs) (offset_of vs i) (Z.of_nat i) =
  Some (offset_of vs (length vs), Z.of_nat (length vs)).
Proof using Hrep.
  pose proof (rep_few lp vs Hrep) as Hfew. unfold UINT32_MAX in Hfew.
  revert i. induction fuel as [|fuel IH]; intros i Hi Hf; [lia|].
  cbn [validate_loop]. rewrite (byte_cursor lp vs Hrep) by done.
  case_bool_decide as Hend; [by subst|].
  destruct (lookup_lt_is_Some_2 vs i ltac:(lia)) as [v Hv].
  destruct (rep_entry lp vs Hrep i v Hv) as (Hok & pre & post & Heq & Hpre & Hnext & Ht).
  pose proof (offset_bounds vs i).
  assert (lpValidateNext lp (Some (offset_of vs i)) (total vs) = Ok (offset_of vs (S i))) as ->
    by (rewrite Heq, <- Hpre, validate_entry by (done || lia); f_equal; lia).
  unfold wrap_u. rewrite Z.mod_small by (simpl; lia).
  replace (Z.of_nat i + 1) with (Z.of_nat (S i)) by lia. apply IH; lia.
Qed.

Lemma lpValidateIntegrity_rep deep : lpValidateIntegrity lp (total vs) deep = true.
Proof using Hrep.
  unfold lpValidateIntegrity, LP_HDR_SIZE. rewrite (rep_total_bytes lp vs Hrep), Z.eqb_refl.
  pose proof (total_pos vs). destruct (Z.ltb_spec (total vs) (Z.of_nat 6 + 1)); [lia|].
  destruct (rep_eof lp vs Hrep) as (pre & post & Heq & Hpre & Ht).
  replace (Z.to_nat (total vs - 1)) with (offset_of vs (length vs)) by lia.
  rewrite (byte_cursor lp vs Hrep) by lia. rewrite bool_decide_eq_true_2 by done.
  cbn [negb]. destruct deep; [|done]. cbn [negb].
  change (validate_loop (length lp) lp (total vs) 6 0) with
    (validate_loop (length lp) lp (total vs) (offset_of vs 0) (Z.of_nat 0)).
  rewrite validate_loop_cursor; [|lia|].
  - apply andb_true_iff. split; [apply Z.eqb_eq; lia|].
    destruct (rep_num lp vs Hrep) as [_ [->| ->]]; [done|]. rewrite Z.eqb_refl. apply orb_true_r.
  - pose proof (rep_length lp vs Hrep) as Hl. pose proof (body_length vs (rep_vals _ _ Hrep)).
    unfold total in Hl. lia.
Qed.

End validate.

(** ** What the update functions do to the sequence *)

Definition edited (e : lp_ele) (wh : lp_where) (vs : list lpval) (i : nat) (new : list lpval) :
    list lpval :=
  if replaces e wh then take i vs ++ new ++ drop (S i) vs
  else match wh with
       | LP_AFTER => take (S i) vs ++ new ++ drop (S i) vs
       | _ => take i vs ++ new ++ drop i vs
       end.

(** Where [*newp] points: the new element, or the one after a deleted one. *)
Definition new_index (e : lp_ele) (wh : lp_where) (i : nat) : nat :=
  if negb (replaces e wh) then match wh with LP_AFTER => S i | _ => i end else i.

Lemma insert_after junk lp vs e i :
  rep lp vs → is_delete e = false → (i < length vs)%nat →
  lpInsert junk lp e (offset_of vs i) LP_AFTER = lpInsert junk lp e (offset_of vs (S i)) LP_BEFORE.
Proof.
  intros Hrep He Hi. unfold lpInsert. rewrite He. rewrite (skip_cursor lp vs Hrep) by done.
  assert (assert_integrity lp (offset_of vs (S i)) = true) as ->; [|done].
  unfold assert_integrity. rewrite (rep_total_bytes lp vs Hrep).
  pose proof (offset_bounds vs (S i)). destruct (lookup_lt_is_Some_2 vs i Hi) as [v Hv].
  destruct (rep_entry lp vs Hrep i v Hv) as (_ & ? & ? & _ & _ & _ & Ht).
  apply andb_true_iff. split; [apply Nat.leb_le; unfold LP_HDR_SIZE; lia|apply Z.ltb_lt; lia].
Qed.

Lemma insert_before junk lp vs e new i :
  rep lp vs → ele_of e new → is_delete e = false → Forall val_ok new → (i ≤ length vs)%nat →
  let vs' := take i vs ++ new ++ drop i vs in
  if UINT32_MAX <? total vs' then lpInsert junk lp e (offset_of vs i) LP_BEFORE = Null
  else ∃ lp', lpInsert junk lp e (offset_of vs i) LP_BEFORE = Ok (lp', Some (offset_of vs' i)) ∧
    rep lp' vs'.
Proof.
  intros Hrep He Hd Hnew Hi. cbv zeta.
  pose proof (lpInsert_core junk lp (take i vs) [] (drop i vs)) as Hcore.
  cbn [app] in Hcore. rewrite take_drop, length_take, Nat.min_l in Hcore by lia.
  specialize (Hcore Hrep e new LP_BEFORE He Hnew ltac:(done)).
  unfold replaces in Hcore. rewrite Hd in Hcore. specialize (Hcore eq_refl).
  assert (offset_of (take i vs ++ new ++ drop i vs) i = offset_of vs i) as ->; [|done].
  unfold offset_of. do 2 f_equal. rewrite take_app_length' by (rewrite length_take; lia). done.
Qed.

Lemma insert_replace junk lp vs e new wh i :
  rep lp vs → ele_of e new → replaces e wh = true → Forall val_ok new → (i < length vs)%nat →
  let vs' := take i vs ++ new ++ drop (S i) vs in
  if UINT32_MAX <? total vs' then lpInsert junk lp e (offset_of vs i) wh = Null
  else ∃ lp', lpInsert junk lp e (offset_of vs i) wh =
      Ok (lp', if decide (i < length vs')%nat then Some (offset_of vs' i) else None) ∧ rep lp' vs'.
Proof.
  intros Hrep He Hr Hnew Hi. cbv zeta. destruct (lookup_lt_is_Some_2 vs i Hi) as [w Hw].
  assert (lpInsert junk lp e (offset_of vs i) wh = lpInsert junk lp e (offset_of vs i) LP_REPLACE) as ->.
  { unfold replaces in Hr. unfold lpInsert. by destruct (is_delete e), wh. }
  pose proof (lpInsert_core junk lp (take i vs) [w] (drop (S i) vs)) as Hcore.
  cbn [app] in Hcore. rewrite (take_drop_middle _ _ _ Hw), length_take, Nat.min_l in Hcore by lia.
  specialize (Hcore Hrep e new LP_REPLACE He Hnew ltac:(done)).
  unfold replaces in Hcore. rewrite orb_true_r in Hcore. specialize (Hcore ltac:(eauto)).
  assert (offset_of (take i vs ++ new ++ drop (S i) vs) i = offset_of vs i) as ->.
  { unfold offset_of. do 2 f_equal. rewrite take_app_length' by (rewrite length_take; lia). done. }
  destruct (UINT32_MAX <? _); [done|]. destruct Hcore as (lp' & -> & Hlp').
  exists lp'. split; [|done]. do 2 f_equal. rewrite !length_app, length_take.
  pose proof (length_drop vs (S i)) as Hdl.
  destruct He; cbn [is_delete andb length]; try (by rewrite decide_True by lia).
  destruct (drop (S i) vs) as [|x l]; cbn [is_nil];
    [rewrite decide_False by (simpl; lia)|rewrite decide_True by (simpl; lia)]; done.
Qed.

(** ** The operations sets use *)

Lemma eofptr_offset lp vs : rep lp vs → eofptr lp = offset_of vs (length vs).
Proof.
  intros Hrep. unfold eofptr. rewrite (rep_total_bytes lp vs Hrep).
  destruct (rep_eof lp vs Hrep) as (pre & post & _ & Hpre & Ht). lia.
Qed.

Lemma append_ele junk lp vs e v :
  rep lp vs → ele_of e [v] → val_ok v → total (vs ++ [v]) ≤ UINT32_MAX →
  ∃ lp', lp_of (lpInsert junk lp e (eofptr lp) LP_BEFORE) = Ok lp' ∧ rep lp' (vs ++ [v]).
Proof.
  intros Hrep He Hv Ht. rewrite (eofptr_offset lp vs Hrep).
  assert (is_delete e = false) as Hd by (by inversion He).
  generalize (insert_before junk lp vs e [v] (length vs) Hrep He Hd ltac:(by constructor) ltac:(lia)).
  cbv zeta. rewrite firstn_all, drop_all, app_nil_r.
  destruct (Z.ltb_spec UINT32_MAX (total (vs ++ [v]))); [lia|].
  intros (lp' & -> & Hlp'). eexists. split; [reflexivity|done].
Qed.

Lemma lpAppend_spec junk lp vs s :
  rep lp vs → val_ok (of_text s) → total (vs ++ [of_text s]) ≤ UINT32_MAX →
  ∃ lp', lpAppend junk lp s = Ok lp' ∧ rep lp' (vs ++ [of_text s]).
Proof. intros Hrep Hv Ht. apply append_ele; auto. constructor. Qed.

Lemma lpAppendInteger_spec junk lp vs z :
  rep lp vs → val_ok (LInt z) → total (vs ++ [LInt z]) ≤ UINT32_MAX →
  ∃ lp', lpAppendInteger junk lp z = Ok lp' ∧ rep lp' (vs ++ [LInt z]).
Proof. intros Hrep Hv Ht. apply append_ele; auto. constructor. Qed.

Lemma total_app vs ws : total (vs ++ ws) = total vs + Z.of_nat (length (body ws)).
Proof. unfold total. rewrite body_app, length_app. lia. Qed.

Lemma lpDelete_spec junk lp vs i :
  rep lp vs → (i < length vs)%nat →
  ∃ lp', lp_of (lpDelete junk lp (offset_of vs i)) = Ok lp' ∧ rep lp' (take i vs ++ drop (S i) vs).
Proof.
  intros Hrep Hi.
  generalize (insert_replace junk lp vs EleNone [] LP_REPLACE i Hrep eo_none eq_refl
    ltac:(by constructor) Hi). cbv zeta. cbn [app].
  destruct (range_total lp vs Hrep i (S i) ltac:(lia)) as [_ Hmax].
  destruct (Z.ltb_spec UINT32_MAX (total (take i vs ++ drop (S i) vs))); [lia|].
  intros (lp' & E & Hlp'). exists lp'. split; [|done]. unfold lpDelete. by rewrite E.
Qed.

(** [lpFind] from the first element decides whether a text occurs. *)
Lemma find_from_spec s ws i :
  match find_from (λ v, bool_decide (text v = s)) 0 0 ws i with
  | Some j => ∃ k v, j = (i + k)%nat ∧ ws !! k = Some v ∧ text v = s
  | None => s ∉ text <$> ws
  end.
Proof.
  revert i. induction ws as [|w ws IH]; intros i; cbn [find_from].
  - apply not_elem_of_nil.
  - case_bool_decide as Hw; [by exists 0%nat, w; rewrite Nat.add_0_r|].
    specialize (IH (S i)). destruct (find_from _ _ _ _ _) as [j|].
    + destruct IH as (k & v & -> & ? & ?). exists (S k), v. split; [lia|done].
    + rewrite fmap_cons, not_elem_of_cons. split; [congruence|done].
Qed.

Lemma lpFind_first lp vs s :
  Z.of_nat (String.length s) < 2 ^ 32 → rep lp vs →
  match match lpFirst lp with Ok p => lpFind lp (Some p) s 0 | r => r end with
  | Ok p => ∃ i v, p = offset_of vs i ∧ vs !! i = Some v ∧ text v = s
  | Null => s ∉ text <$> vs
  | Abort => False
  end.
Proof.
  intros Hs Hrep. rewrite (lpFirst_cursor lp vs Hrep). unfold cursor.
  destruct (decide _) as [Hl|Hl].
  - rewrite (lpFind_from lp vs Hrep) by done. rewrite drop_0.
    generalize (find_from_spec s vs 0). unfold ptr_of. destruct (find_from _ _ _ _ _) as [j|]; [|done].
    intros (k & v & -> & ? & ?). eauto.
  - destruct vs; [apply not_elem_of_nil|simpl in Hl; lia].
Qed.

(** The size of an entry. *)
Lemma int_length z : (length (lpEncodeIntegerGetType z) ≤ 9)%nat.
Proof.
  unfold lpEncodeIntegerGetType. repeat case_match; cbn [length]; rewrite ?length_le_bytes; lia.
Qed.

Lemma entry_int_length z : length (entry (LInt z)) = S (length (lpEncodeIntegerGetType z)).
Proof.
  unfold entry. rewrite length_app. cbn [encode]. pose proof (int_length z).
  unfold lpEncodeBacklen. destruct (Z.leb_spec (Z.of_nat (length (lpEncodeIntegerGetType z))) 127);
    [simpl; lia|lia].
Qed.

Lemma entry_text_length s : (length (entry (of_text s)) ≤ String.length s + 10)%nat.
Proof.
  unfold of_text. destruct (lpStringToInt64 s) as [z|] eqn:E.
  - rewrite entry_int_length. pose proof (int_length z). lia.
  - unfold entry. rewrite length_app, encode_str, length_app, length_bytes_of.
    assert (length (str_header (Z.of_nat (String.length s))) ≤ 5)%nat
      by (unfold str_header; repeat case_match; cbn [length]; rewrite ?length_le_bytes; lia).
    assert (∀ l, length (lpEncodeBacklen l) ≤ 5)%nat as Hb
      by (intros l; unfold lpEncodeBacklen; repeat case_match; simpl; lia).
    specialize (Hb (Z.of_nat (length (str_header (Z.of_nat (String.length s))) +
      String.length s))). rewrite Nat2Z.inj_add in *. lia.
Qed.

(** The encoding of an integer between two others is no longer than both. *)
Lemma int_length_between lo z hi :
  lo ≤ z ≤ hi →
  (length (lpEncodeIntegerGetType z) ≤
   length (lpEncodeIntegerGetType lo) `max` length (lpEncodeIntegerGetType hi))%nat.
Proof.
  assert (∀ v, Z.of_nat (length (lpEncodeIntegerGetType v)) =
    if (0 <=? v) && (v <=? 127) then 1 else if (-4096 <=? v) && (v <=? 4095) then 2
    else if (-32768 <=? v) && (v <=? 32767) then 3
    else if (-8388608 <=? v) && (v <=? 8388607) then 4
    else if (-2147483648 <=? v) && (v <=? 2147483647) then 5 else 9) as Hlen.
  { intros v. unfold lpEncodeIntegerGetType.
    repeat match goal with |- context [if ?b then _ else _] =>
      lazymatch b with context [if _ then _ else _] => fail | (_ && _) => destruct b end end;
      cbn [length]; rewrite ?length_le_bytes; done. }
  intros Hz. generalize (Hlen z), (Hlen lo), (Hlen hi).
  destruct (Z.le_gt_cases 0 z).
  - enough ((length (lpEncodeIntegerGetType z) ≤ length (lpEncodeIntegerGetType hi))%nat) by lia.
    apply Nat2Z.inj_le. rewrite !Hlen. repeat case_match; reflect_bools; try lia;
      repeat match goal with H : _ && _ = false |- _ => apply andb_false_iff in H as [H|H]; reflect_bools end; lia.
  - intros. enough ((length (lpEncodeIntegerGetType z) ≤ length (lpEncodeIntegerGetType lo))%nat) by lia.
    apply Nat2Z.inj_le. rewrite !Hlen. repeat case_match; reflect_bools; try lia;
      repeat match goal with H : _ && _ = false |- _ => apply andb_false_iff in H as [H|H]; reflect_bools end; lia.
Qed.

(** ** Properties *)

(** C16: [lpInsert] inserts before or after an element, replaces it or deletes
    it, leaves the other elements in order and the listpack well formed, and
    sets [*newp] to the new element or to the one after the deleted one; it
    returns NULL exactly when the result would not fit 32 bits. *)
Theorem lpInsert_refines junk lp vs e new wh i
    (Hrep : rep lp vs) (He : ele_of e new) (Hnew : Forall val_ok new)
    (Hi : (i < length vs)%nat ∨ (replaces e wh = false ∧ wh = LP_BEFORE ∧ i = length vs)) :
  let vs' := edited e wh vs i new in
  if UINT32_MAX <? total vs' then lpInsert junk lp e (offset_of vs i) wh = Null
  else ∃ lp', rep lp' vs' ∧
    let k := new_index e wh i in
    lpInsert junk lp e (offset_of vs i) wh =
      Ok (lp', if decide (k < length vs')%nat then Some (offset_of vs' k) else None).
Proof.
  unfold edited, new_index. destruct (replaces e wh) eqn:Hr; cbn [negb].
  - destruct Hi as [Hi|[? _]]; [|done].
    generalize (insert_replace junk lp vs e new wh i Hrep He Hr Hnew Hi). cbv zeta.
    destruct (UINT32_MAX <? _); [done|]. intros (lp' & ? & ?). eauto.
  - assert (is_delete e = false ∧ length new = 1%nat) as [Hd Hl]
      by (destruct He; by destruct wh).
    assert (∀ j, (j ≤ length vs)%nat → (j < length (take j vs ++ new ++ drop j vs))%nat) as Hk.
    { intros j Hj. rewrite !length_app, length_take. lia. }
    destruct wh; [|destruct Hi as [Hi|(_ & ? & _)]; [|done]|by destruct e].
    + generalize (insert_before junk lp vs e new i Hrep He Hd Hnew ltac:(lia)). cbv zeta.
      destruct (UINT32_MAX <? _); [done|]. intros (lp' & ? & ?).
      exists lp'. rewrite decide_True by (apply Hk; lia). auto.
    + rewrite (insert_after junk lp vs) by done.
      generalize (insert_before junk lp vs e new (S i) Hrep He Hd Hnew ltac:(lia)). cbv zeta.
      destruct (UINT32_MAX <? _); [done|]. intros (lp' & ? & ?).
      exists lp'. rewrite decide_True by (apply Hk; lia). auto.
Qed.

Lemma lpInsert_refines_witness :
  ∃ lp', rep lp' [LStr "abc"] ∧
    lpInsert (λ _, 0) (lpNew (λ _, 0) 0) (EleStr "abc") 6 LP_BEFORE = Ok (lp', Some 6%nat).
Proof.
  apply (lpInsert_refines (λ _, 0) (lpNew (λ _, 0) 0) [] (EleStr "abc") [LStr "abc"] LP_BEFORE 0).
  - apply lpNew_rep.
  - apply (eo_str "abc").
  - repeat constructor.
  - right. done.
Defined.

(** [lpFind] from an element on returns the first element, among every
    [skip + 1]th, whose text is the string searched for, whether it is stored
    as a string or as an integer, and NULL if there is none. *)
Theorem lpFind_refines lp vs i s skip (Hrep : rep lp vs) (Hs : Z.of_nat (String.length s) < 2 ^ 32)
    (Hi : (i < length vs)%nat) :
  lpFind lp (Some (offset_of vs i)) s skip =
  ptr_of vs (find_from (λ v, bool_decide (text v = s)) skip 0 (drop i vs) i).
Proof. by apply lpFind_from. Qed.

(** The listpack of ["a"], ["10"], ["b"]. *)
Definition sample_lp : list Z :=
  [15; 0; 0; 0; 3; 0; 0x81; 97; 2; 10; 1; 0x81; 98; 2; LP_EOF].
Definition sample_vs : list lpval := [LStr "a"; LInt 10; LStr "b"].

Lemma sample_rep : rep sample_lp sample_vs.
Proof.
  split.
  - exists 3, []. split; [reflexivity|]. unfold count_ok. simpl. lia.
  - vm_compute. discriminate.
  - repeat constructor; vm_compute; discriminate.
Qed.

Lemma lpFind_refines_witness : lpFind sample_lp (Some 6%nat) "10" 0 = Ok 9%nat.
Proof.
  exact (lpFind_refines sample_lp sample_vs 0 "10" 0 sample_rep ltac:(simpl; lia) ltac:(simpl; lia)).
Defined.

(** [lpSeek] and [lpGet] read the element at an index counted from the head
    or, when negative, from the tail, and give NULL out of range. *)
Theorem lpSeek_refines lp vs index (Hrep : rep lp vs) :
  let j := if index <? 0 then Z.of_nat (length vs) + index else index in
  match (if 0 <=? j then vs !! Z.to_nat j else None) with
  | Some v => ∃ p, lpSeek lp index = Ok p ∧ lpGet lp p = v
  | None => lpSeek lp index = Null
  end.
Proof.
  cbv zeta. rewrite (lpSeek_index lp vs Hrep). unfold seek_spec.
  set (j := if index <? 0 then _ else _). destruct (Z.leb_spec 0 j) as [Hj|Hj]; [|done].
  cbn [andb]. destruct (vs !! Z.to_nat j) as [v|] eqn:Hv.
  - pose proof (lookup_lt_Some _ _ _ Hv). rewrite (proj2 (Z.ltb_lt j _)) by lia.
    eexists. split; [done|]. unfold lpGet. by rewrite (get_cursor lp vs Hrep _ v).
  - apply lookup_ge_None in Hv. by rewrite (proj2 (Z.ltb_ge j _)) by lia.
Qed.

Lemma lpSeek_refines_witness : ∃ p, lpSeek sample_lp (-2) = Ok p ∧ lpGet sample_lp p = LInt 10.
Proof. exact (lpSeek_refines sample_lp sample_vs (-2) sample_rep). Defined.

(** [lpDeleteRange] removes [num] elements from the index on, or all that
    there are, and nothing when the index is out of range. *)
Theorem lpDeleteRange_refines junk lp vs index num (Hrep : rep lp vs) :
  ∃ lp', lpDeleteRange junk lp index num = Ok lp' ∧ rep lp' (range_removed vs index num).
Proof. by apply lpDeleteRange_spec. Qed.

Lemma lpDeleteRange_refines_witness :
  ∃ lp', lpDeleteRange (λ _, 0) sample_lp (-2) 1 = Ok lp' ∧ rep lp' [LStr "a"; LStr "b"].
Proof. exact (lpDeleteRange_refines (λ _, 0) sample_lp sample_vs (-2) 1 sample_rep). Defined.

(** [lpMerge] concatenates two listpacks, whichever of the two blocks is
    extended. *)
Theorem lpMerge_refines junk lp1 lp2 vs ws
    (Hrep1 : rep lp1 vs) (Hrep2 : rep lp2 ws) (Hmax : total (vs ++ ws) < UINT32_MAX) :
  ∃ lp', lpMerge junk lp1 lp2 = Ok lp' ∧ rep lp' (vs ++ ws).
Proof. by apply lpMerge_spec. Qed.

Lemma lpMerge_refines_witness :
  ∃ lp', lpMerge (λ _, 0) (lpNew (λ _, 0) 0) sample_lp = Ok lp' ∧ rep lp' sample_vs.
Proof.
  apply (lpMerge_refines (λ _, 0) (lpNew (λ _, 0) 0) sample_lp [] sample_vs).
  - apply lpNew_rep.
  - apply sample_rep.
  - vm_compute. reflexivity.
Defined.

(** The integrity check accepts every well-formed listpack, with the
    shallow and with the deep test. *)
Theorem lpValidateIntegrity_accepts lp vs deep (Hrep : rep lp vs) :
  lpValidateIntegrity lp (total vs) deep = true.
Proof. by apply lpValidateIntegrity_rep. Qed.

Lemma lpValidateIntegrity_accepts_witness : lpValidateIntegrity sample_lp 15 true = true.
Proof. exact (lpValidateIntegrity_accepts sample_lp sample_vs true sample_rep). Defined.
