(* ===== verification/SetType.v ===== *)
(** * The set type

    src/redis/src/t_set.c: a set is kept as an integer set, as a listpack or
    as a hash table, and moves from one to the next as its elements and the
    configured limits ask for.  The hash table is a finite set whose order of
    iteration is unspecified.  [setTypeAdd], [setTypeRemove], [setTypeIsMember]
    and the conversions are shown to implement a set of strings, whichever
    encoding they meet, and never to fail an assertion. *)

From S2P Require Import Prelude CLib Util Bytes Intset Listpack ListpackRep.

(** ** Objects *)

(** [OBJ_ENCODING_INTSET], [OBJ_ENCODING_LISTPACK], [OBJ_ENCODING_HT]. *)
Inductive set_obj : Type :=
| SIntset (s : intset)
| SListpack (lp : list Z)
| SHt (ht : gset string).

Inductive set_encoding : Set := ENC_INTSET | ENC_LISTPACK | ENC_HT.

(** The limits of redis.conf. *)
Record set_config : Set := mkSetConfig {
  set_max_intset_entries : Z;
  set_max_listpack_entries : Z;
  set_max_listpack_value : Z;
}.

(** [dictAdd]: [None] when the key is there already. *)
Definition dictAdd (d : gset string) (key : string) : option (gset string) :=
  if decide (key ∈ d) then None else Some ({[key]} ∪ d).

Definition sdsfromlonglong (value : Z) : string := default "" (ll2string LONG_STR_SIZE value).

Section settype.
(** What [realloc] leaves in new memory, the limits, and the order in which a
    hash table is iterated. *)
Context (junk : nat → Z) (server : set_config) (dict_order : gset string → list string).

(** ** Iteration *)

Inductive setTypeIterator : Type :=
| ItHt (di : list string)
| ItInt (ii : Z)
| ItLp (lpi : option nat).

Definition setTypeInitIterator (subject : set_obj) : setTypeIterator :=
  match subject with
  | SHt d => ItHt (dict_order d)
  | SIntset _ => ItInt 0
  | SListpack _ => ItLp None
  end.

(** [None] is a failed assertion or a panic, [Some None] the return value -1;
    an element is a string or an integer. *)
Definition setTypeNext (subject : set_obj) (si : setTypeIterator) :
    option (option (lpval * setTypeIterator)) :=
  match si, subject with
  | ItHt [], SHt _ => Some None
  | ItHt (key :: di), SHt _ => Some (Some (LStr key, ItHt di))
  | ItInt ii, SIntset s =>
      match intsetGet s ii with
      | None => Some None
      | Some llele => Some (Some (LInt llele, ItInt (ii + 1)))
      end
  | ItLp lpi, SListpack lp =>
      match match lpi with None => lpFirst lp | Some p => lpNext lp p end with
      | Abort => None
      | Null => Some None
      | Ok p => Some (Some (lpGetValue lp p, ItLp (Some p)))
      end
  | _, _ => None
  end.

(** The element as a new string. *)
Definition element_sds (e : lpval) : string :=
  match e with LStr s => s | LInt z => sdsfromlonglong z end.

Definition setTypeNextObject (subject : set_obj) (si : setTypeIterator) :
    option (option (string * setTypeIterator)) :=
  match setTypeNext subject si with
  | None => None
  | Some None => Some None
  | Some (Some (e, si)) => Some (Some (element_sds e, si))
  end.

(** A loop over the elements: [body] fails with [None]. *)
Fixpoint iterate {A} (fuel : nat) (subject : set_obj) (si : setTypeIterator)
    (body : A → lpval → option A) (acc : A) : option A :=
  match setTypeNext subject si with
  | None => None
  | Some None => Some acc
  | Some (Some (e, si)) =>
      match fuel with
      | O => None
      | S fuel =>
          match body acc e with
          | None => None
          | Some acc => iterate fuel subject si body acc
          end
      end
  end.

(** A bound on the number of elements, enough fuel for the loops. *)
Definition set_fuel (subject : set_obj) : nat :=
  match subject with
  | SIntset s => Z.to_nat (is_len s)
  | SListpack lp => length lp
  | SHt d => length (dict_order d)
  end.

Definition for_each_element {A} (subject : set_obj) (body : A → lpval → option A) (acc : A) :
    option A :=
  iterate (set_fuel subject) subject (setTypeInitIterator subject) body acc.

(** ** Conversion *)

(** The number of elements; a listpack may cache it. *)
Definition setTypeSize (subject : set_obj) : option (Z * set_obj) :=
  match subject with
  | SHt d => Some (Z.of_nat (size d), subject)
  | SIntset s => Some (intsetLen s, subject)
  | SListpack lp =>
      match lpLength lp with
      | Ok (n, lp) => Some (n, SListpack lp)
      | _ => None
      end
  end.

Definition lp_ok (r : lp_res (list Z)) : option (list Z) :=
  match r with Ok lp => Some lp | _ => None end.

Definition set_enc (subject : set_obj) : set_encoding :=
  match subject with
  | SIntset _ => ENC_INTSET | SListpack _ => ENC_LISTPACK | SHt _ => ENC_HT
  end.

#[export] Instance set_encoding_eq_dec : EqDecision set_encoding.
Proof. solve_decision. Defined.

Definition setTypeConvertAndExpand (setobj : set_obj) (enc : set_encoding) (cap : Z) :
    option set_obj :=
  if decide (set_enc setobj = enc) then None
  else
    match enc with
    | ENC_HT =>
        SHt <$> for_each_element setobj (λ d e, dictAdd d (element_sds e)) ∅
    | ENC_LISTPACK =>
        let estcap :=
          match setobj with
          | SIntset s =>
              if 0 <? intsetLen s
              then Z.max (lpEstimateBytesRepeatedInteger (intsetMin s) cap)
                         (lpEstimateBytesRepeatedInteger (intsetMax s) cap)
              else cap * 2
          | _ => cap * 2
          end in
        SListpack <$> for_each_element setobj (λ lp e,
          lp_ok match e with
                | LStr s => lpAppend junk lp s
                | LInt z => lpAppendInteger junk lp z
                end) (lpNew junk (Z.to_nat estcap))
    | ENC_INTSET => None
    end.

Definition setTypeConvert (setobj : set_obj) (enc : set_encoding) : option set_obj :=
  match setTypeSize setobj with
  | Some (n, setobj) => setTypeConvertAndExpand setobj enc n
  | None => None
  end.

(** Enough entries for an intset. *)
Definition intsetMaxEntries : Z := Z.min (set_max_intset_entries server) (2 ^ 30).

Definition maybeConvertIntset (subject : set_obj) : option set_obj :=
  match subject with
  | SIntset s =>
      if intsetMaxEntries <? intsetLen s then setTypeConvert subject ENC_HT else Some subject
  | _ => None
  end.

Definition setTypeMaybeConvert (set : set_obj) (size_hint : Z) : option set_obj :=
  if match set with
     | SListpack _ => set_max_listpack_entries server <? size_hint
     | SIntset _ => set_max_intset_entries server <? size_hint
     | SHt _ => false
     end
  then setTypeConvertAndExpand set ENC_HT size_hint
  else Some set.

Definition maybeConvertToIntset (set : set_obj) : option set_obj :=
  match set with
  | SIntset _ => Some set
  | _ =>
      match setTypeSize set with
      | None => None
      | Some (n, set) =>
          if intsetMaxEntries <? n then Some set
          else
            SIntset <$> for_each_element set (λ s e,
              match (match e with LStr str => string2ll str | LInt z => Some z end) with
              | None => None
              | Some llval =>
                  let '(s, success) := intsetAdd junk s llval in
                  if success : bool then Some s else None
              end) intsetNew
      end
  end.

(** ** Operations *)

Definition setTypeCreate (value : string) (size_hint : Z) : set_obj :=
  if match string2ll value with Some _ => size_hint <=? set_max_intset_entries server
     | None => false end
  then SIntset intsetNew
  else if size_hint <=? set_max_listpack_entries server then SListpack (lpNew junk 0)
  else SHt ∅.

(** [lpFind] from the first element. *)
Definition find_in (lp : list Z) (str : string) : lp_res nat :=
  match lpFirst lp with
  | Ok p => lpFind lp (Some p) str 0
  | r => r
  end.

(** Is listpack encoding safe for the elements of an intset and [len] more bytes? *)
Definition listpack_safe (s : intset) (len : Z) : bool :=
  let n := intsetLen s in
  let '(maxelelen, totsize) :=
    if n =? 0 then (0, 0)
    else (Z.max (sdigits10 (intsetMax s)) (sdigits10 (intsetMin s)),
          Z.max (lpEstimateBytesRepeatedInteger (intsetMax s) n)
                (lpEstimateBytesRepeatedInteger (intsetMin s) n)) in
  (n <? set_max_listpack_entries server) && (len <=? set_max_listpack_value server) &&
  (maxelelen <=? set_max_listpack_value server) && lpSafeToAdd None (wrap_u 64 (totsize + len)).

(** The part of [setTypeAddAux] after the conversion of an integer to a
    string; [tmpbuf] says that the string is the image of that integer. *)
Definition add_string (set : set_obj) (str : string) (tmpbuf : option Z) :
    option (set_obj * bool) :=
  let len := Z.of_nat (String.length str) in
  match set with
  | SHt ht =>
      Some (if decide (str ∈ ht) then (set, false) else (SHt ({[str]} ∪ ht), true))
  | SListpack lp =>
      match find_in lp str with
      | Abort => None
      | Ok _ => Some (set, false)
      | Null =>
          match lpLength lp with
          | Ok (n, lp) =>
              if (n <? set_max_listpack_entries server) &&
                 (len <=? set_max_listpack_value server) && lpSafeToAdd (Some lp) len
              then
                lp ← lp_ok match tmpbuf with
                           | Some llval => lpAppendInteger junk lp llval
                           | None => lpAppend junk lp str
                           end;
                Some (SListpack lp, true)
              else
                set ← setTypeConvertAndExpand (SListpack lp) ENC_HT (n + 1);
                match set with
                | SHt d => d ← dictAdd d str; Some (SHt d, true)
                | _ => None
                end
          | _ => None
          end
      end
  | SIntset s =>
      match string2ll str with
      | Some value =>
          let '(s, success) := intsetAdd junk s value in
          if success : bool then
            set ← maybeConvertIntset (SIntset s); Some (set, true)
          else Some (SIntset s, false)
      | None =>
          if listpack_safe s len then
            set ← setTypeConvertAndExpand set ENC_LISTPACK (intsetLen s + 1);
            match set with
            | SListpack lp =>
                lp ← lp_ok (lpAppend junk lp str);
                Some (SListpack (lpShrinkToFit junk lp), true)
            | _ => None
            end
          else
            set ← setTypeConvertAndExpand set ENC_HT (intsetLen s + 1);
            match set with
            | SHt d => d ← dictAdd d str; Some (SHt d, true)
            | _ => None
            end
      end
  end.

(** The set and whether the element was new; [None] is a failed assertion. *)
Definition setTypeAddAux (set : set_obj) (ele : lpval) : option (set_obj * bool) :=
  match ele with
  | LStr str => add_string set str None
  | LInt llval =>
      match set with
      | SIntset s =>
          let '(s, success) := intsetAdd junk s llval in
          if success : bool then
            set ← maybeConvertIntset (SIntset s); Some (set, true)
          else Some (SIntset s, false)
      | _ =>
          match ll2string LONG_STR_SIZE llval with
          | Some str => add_string set str (Some llval)
          | None => None
          end
      end
  end.

Definition setTypeAdd (subject : set_obj) (value : string) : option (set_obj * bool) :=
  setTypeAddAux subject (LStr value).

Definition remove_string (setobj : set_obj) (str : string) : option (set_obj * bool) :=
  match setobj with
  | SHt ht => Some (SHt (ht ∖ {[str]}), bool_decide (str ∈ ht))
  | SListpack lp =>
      match find_in lp str with
      | Abort => None
      | Null => Some (setobj, false)
      | Ok p => lp ← lp_ok (lp_of (lpDelete junk lp p)); Some (SListpack lp, true)
      end
  | SIntset s =>
      match string2ll str with
      | Some llval =>
          let '(s, success) := intsetRemove junk s llval in Some (SIntset s, success)
      | None => Some (setobj, false)
      end
  end.

Definition setTypeRemoveAux (setobj : set_obj) (ele : lpval) : option (set_obj * bool) :=
  match ele with
  | LStr str => remove_string setobj str
  | LInt llval =>
      match setobj with
      | SIntset s =>
          let '(s, success) := intsetRemove junk s llval in Some (SIntset s, success)
      | _ =>
          match ll2string LONG_STR_SIZE llval with
          | Some str => remove_string setobj str
          | None => None
          end
      end
  end.

Definition setTypeRemove (setobj : set_obj) (value : string) : option (set_obj * bool) :=
  setTypeRemoveAux setobj (LStr value).

Definition is_member_string (set : set_obj) (str : string) : option bool :=
  match set with
  | SListpack lp =>
      match find_in lp str with Abort => None | Null => Some false | Ok _ => Some true end
  | SIntset s =>
      Some (match string2ll str with Some llval => intsetFind s llval | None => false end)
  | SHt ht => Some (bool_decide (str ∈ ht))
  end.

Definition setTypeIsMemberAux (set : set_obj) (ele : lpval) : option bool :=
  match ele with
  | LStr str => is_member_string set str
  | LInt llval =>
      match set with
      | SIntset s => Some (intsetFind s llval)
      | _ =>
          match ll2string LONG_STR_SIZE llval with
          | Some str => is_member_string set str
          | None => None
          end
      end
  end.

Definition setTypeIsMember (subject : set_obj) (value : string) : option bool :=
  setTypeIsMemberAux subject (LStr value).

(** A copy in the same encoding. *)
Definition setTypeDup (o : set_obj) : option set_obj :=
  match o with
  | SIntset s => Some (SIntset s)
  | SListpack lp => Some (SListpack (lpDup lp))
  | SHt _ =>
      for_each_element o (λ set e,
        match e with
        | LStr str => fst <$> setTypeAdd set str
        | LInt _ => None
        end) (SHt ∅)
  end.
End settype.

(** ** The set an object stands for *)

Inductive set_rel : set_obj → gset string → Prop :=
| rel_intset s : wf s → is_len s < 2 ^ 29 → set_rel (SIntset s) (set_map pretty (set_of s))
| rel_listpack lp vs :
    rep lp vs → NoDup (text <$> vs) → set_rel (SListpack lp) (list_to_set (text <$> vs))
| rel_ht d : set_rel (SHt d) d.

#[export] Hint Constructors set_rel : colour.

(** A string whose length [lpFind] can take, which has 32 bits for it; the
    default of [proto-max-bulk-len] is 2^29. *)
Definition str_ok (s : string) : Prop := Z.of_nat (String.length s) < 2 ^ 32.

(** The limit of integer sets, 512 by default, is small enough for the count of
    bytes in [intsetMoveTail]. *)
Definition limits_ok (server : set_config) : Prop := set_max_intset_entries server < 2 ^ 29.

Lemma short_counted s : wf s → is_len s < 2 ^ 29 → bytes_counted s.
Proof. intros Hs Hl. pose proof (wf_len s Hs). unfold bytes_counted. destruct (wf_enc s Hs) as [->|[->| ->]]; lia. Qed.

Fixpoint mfold {A B} (body : A → B → option A) (acc : A) (es : list B) : option A :=
  match es with
  | [] => Some acc
  | e :: es => match body acc e with Some acc => mfold body acc es | None => None end
  end.

Lemma sdsfromlonglong_pretty z : in_llong z → sdsfromlonglong z = pretty z.
Proof. intros Hz. unfold sdsfromlonglong. by rewrite ll2string_pretty. Qed.

Section iteration.
Context (dict_order : gset string → list string).
Context (Hdict : ∀ d, dict_order d ≡ₚ elements d).

(** The elements in the order of the iterator. *)
Definition elems (o : set_obj) (es : list lpval) : Prop :=
  match o with
  | SIntset s => wf s ∧ es = LInt <$> values s
  | SListpack lp => rep lp es
  | SHt d => es = LStr <$> dict_order d
  end.

Lemma iterate_ht {A} d di fuel (body : A → lpval → option A) acc :
  (length di ≤ fuel)%nat →
  iterate fuel (SHt d) (ItHt di) body acc = mfold body acc (LStr <$> di).
Proof.
  revert fuel acc. induction di as [|x di IH]; intros fuel acc Hf; [by destruct fuel|].
  destruct fuel as [|fuel]; [simpl in Hf; lia|]. cbn [iterate setTypeNext fmap list_fmap mfold].
  destruct (body acc (LStr x)); [|done]. apply IH. simpl in Hf. lia.
Qed.

Lemma intsetGet_lookup s i : wf s → 0 ≤ i → intsetGet s i = values s !! Z.to_nat i.
Proof.
  intros Hs Hi. unfold intsetGet. destruct (Z.ltb_spec i (is_len s)).
  - rewrite lookup_values by lia. by rewrite Z2Nat.id.
  - symmetry. apply lookup_ge_None. rewrite length_values. lia.
Qed.

Lemma iterate_int {A} s k fuel (body : A → lpval → option A) acc :
  wf s → (length (values s) - k ≤ fuel)%nat →
  iterate fuel (SIntset s) (ItInt (Z.of_nat k)) body acc = mfold body acc (LInt <$> drop k (values s)).
Proof.
  intros Hs. revert k acc. induction fuel as [|fuel IH]; intros k acc Hf.
  - cbn [iterate setTypeNext]. rewrite intsetGet_lookup, Nat2Z.id by (done || lia).
    rewrite lookup_ge_None_2, drop_ge by lia. done.
  - cbn [iterate setTypeNext]. rewrite intsetGet_lookup, Nat2Z.id by (done || lia).
    destruct (values s !! k) as [v|] eqn:Hv.
    + rewrite (drop_S _ _ _ Hv). cbn [fmap list_fmap mfold]. destruct (body acc (LInt v)); [|done].
      replace (Z.of_nat k + 1) with (Z.of_nat (S k)) by lia. apply IH. lia.
    + apply lookup_ge_None in Hv. by rewrite drop_ge by lia.
Qed.

(** The position of the iterator before element [k]. *)
Definition lp_iter (vs : list lpval) (k : nat) : setTypeIterator :=
  ItLp (match k with O => None | S k => Some (offset_of vs k) end).

Lemma iterate_lp {A} lp vs k fuel (body : A → lpval → option A) acc :
  rep lp vs → (k ≤ length vs)%nat → (length vs - k ≤ fuel)%nat →
  iterate fuel (SListpack lp) (lp_iter vs k) body acc = mfold body acc (drop k vs).
Proof.
  intros Hrep. assert (∀ k, (k ≤ length vs)%nat → setTypeNext (SListpack lp) (lp_iter vs k) =
    match vs !! k with None => Some None | Some v => Some (Some (v, lp_iter vs (S k))) end) as Hn.
  { intros j Hj. unfold setTypeNext, lp_iter.
    assert (match (match j with O => None | S k => Some (offset_of vs k) end) with
      None => lpFirst lp | Some p => lpNext lp p end = cursor vs j) as ->.
    { destruct j; [by apply lpFirst_cursor|apply (lpNext_cursor lp vs Hrep); lia]. }
    unfold cursor. destruct (vs !! j) as [v|] eqn:Hv.
    - rewrite decide_True by (by eapply lookup_lt_Some). unfold lpGetValue, lpGet.
      by rewrite (get_cursor lp vs Hrep j v).
    - rewrite decide_False; [done|]. by apply Nat.nlt_ge, lookup_ge_None. }
  revert k acc. induction fuel as [|fuel IH]; intros k acc Hk Hf; cbn [iterate]; rewrite Hn by done.
  - rewrite lookup_ge_None_2, drop_ge by lia. done.
  - destruct (vs !! k) as [v|] eqn:Hv.
    + rewrite (drop_S _ _ _ Hv). cbn [mfold]. destruct (body acc v); [|done].
      apply lookup_lt_Some in Hv. apply IH; lia.
    + apply lookup_ge_None in Hv. by rewrite drop_ge by lia.
Qed.

Lemma for_each_elems {A} o es (body : A → lpval → option A) acc :
  elems o es → for_each_element dict_order o body acc = mfold body acc es.
Proof.
  destruct o as [s|lp|d]; simpl.
  - intros [Hs ->]. unfold for_each_element. cbn [setTypeInitIterator set_fuel].
    rewrite (iterate_int s 0), drop_0; [done|done|]. rewrite length_values. lia.
  - intros Hrep. unfold for_each_element. cbn [setTypeInitIterator set_fuel].
    change (ItLp None) with (lp_iter es 0). rewrite iterate_lp, drop_0; [done|done|lia|].
    pose proof (rep_length lp es Hrep) as Hl. pose proof (body_length es (rep_vals _ _ Hrep)).
    unfold total in Hl. lia.
  - intros ->. by apply iterate_ht.
Qed.

End iteration.

Lemma values_llong s z : wf s → z ∈ values s → in_llong z.
Proof.
  intros Hs Hz. apply elem_values in Hz as (i & Hi & <-).
  pose proof (get_fits s i (wf_enc s Hs)) as Hf. unfold fits in Hf.
  destruct (wf_enc s Hs) as [E|[E|E]]; rewrite E in Hf; simpl in Hf; unfold_ints; lia.
Qed.

Lemma values_nodup s : wf s → NoDup (values s).
Proof.
  intros [_ _ _ Hsort]. induction Hsort as [|x l _ IH Hx]; constructor; [|done].
  intros Hin. rewrite Forall_forall in Hx. specialize (Hx x Hin). lia.
Qed.

Lemma is_len_size s : wf s → is_len s = Z.of_nat (size (set_of s)).
Proof.
  intros Hs. unfold set_of. rewrite size_list_to_set by (by apply values_nodup).
  rewrite length_values. destruct (wf_len s Hs). lia.
Qed.

Lemma text_ints (l : list Z) : text <$> (LInt <$> l) = pretty <$> l.
Proof. by rewrite <- list_fmap_compose. Qed.

Lemma text_strs (l : list string) : text <$> (LStr <$> l) = l.
Proof. rewrite <- list_fmap_compose. apply list_fmap_id. Qed.

Lemma pretty_members (s : intset) :
  list_to_set (pretty <$> values s) =@{gset string} set_map pretty (set_of s).
Proof. apply set_eq. intros x. unfold set_of. set_unfold. naive_solver. Qed.

Section members.
Context (dict_order : gset string → list string).
Context (Hdict : ∀ d, dict_order d ≡ₚ elements d).

Record listed (X : gset string) (es : list lpval) : Prop := {
  listed_nodup : NoDup (text <$> es);
  listed_set : list_to_set (text <$> es) = X;
  listed_text : Forall (λ e, element_sds e = text e) es;
}.

Lemma listed_int s : wf s → listed (set_map pretty (set_of s)) (LInt <$> values s).
Proof.
  intros Hs. split.
  - rewrite text_ints. apply NoDup_fmap_2; [apply _|by apply values_nodup].
  - by rewrite text_ints, pretty_members.
  - apply Forall_fmap, Forall_forall. intros z Hz. cbn [compose element_sds text].
    apply sdsfromlonglong_pretty. by eapply values_llong.
Qed.

Lemma listed_vals vs :
  Forall val_ok vs → NoDup (text <$> vs) → listed (list_to_set (text <$> vs)) vs.
Proof.
  intros Hvs Hnd. split; [done|done|]. eapply Forall_impl; [done|].
  intros [s|z] Hv; [done|]. by apply sdsfromlonglong_pretty.
Qed.

Lemma listed_ht d : listed d (LStr <$> dict_order d).
Proof using Hdict.
  split; rewrite ?text_strs.
  - rewrite Hdict. apply NoDup_elements.
  - rewrite Hdict. apply leibniz_equiv, list_to_set_elements.
  - by apply Forall_fmap, Forall_true.
Qed.

(** Every object lists its members, each once. *)
Lemma rel_listed o X : set_rel o X → ∃ es, elems dict_order o es ∧ listed X es.
Proof using Hdict.
  destruct 1 as [s Hs Hl|lp vs Hrep Hnd|d].
  - eexists. split; [by split|by apply listed_int].
  - exists vs. split; [done|]. apply listed_vals; [apply (rep_vals _ _ Hrep)|done].
  - eexists. split; [done|apply listed_ht].
Qed.

(** ** Conversions *)

Lemma mfold_dictAdd es d :
  NoDup (text <$> es) → Forall (λ e, element_sds e = text e) es →
  (∀ x, x ∈ d → x ∉ text <$> es) →
  mfold (λ d e, dictAdd d (element_sds e)) d es = Some (list_to_set (text <$> es) ∪ d).
Proof using Type.
  clear. intros Hnd Ht. revert d Hnd. induction Ht as [|e es He _ IH]; intros d Hnd Hd; cbn [mfold].
  - f_equal. set_solver.
  - rewrite fmap_cons in *. apply NoDup_cons in Hnd as [Hnin Hnd].
    unfold dictAdd at 1. rewrite He. rewrite decide_False.
    + rewrite IH; [|done|].
      * f_equal. cbn [list_to_set]. apply leibniz_equiv. set_solver.
      * intros x [->%elem_of_singleton|Hx]%elem_of_union; [done|].
        intros Hx'. apply (Hd x Hx). by apply elem_of_cons; right.
    + intros Hin. apply (Hd _ Hin). by apply elem_of_cons; left.
Qed.

Lemma convert_ht junk o X es cap :
  set_enc o ≠ ENC_HT → elems dict_order o es → listed X es →
  setTypeConvertAndExpand junk dict_order o ENC_HT cap = Some (SHt X).
Proof using Type.
  clear Hdict. intros He Hes [Hnd <- Ht]. unfold setTypeConvertAndExpand. rewrite decide_False by done.
  rewrite (for_each_elems _ o es) by done. rewrite mfold_dictAdd by set_solver.
  simpl. do 2 f_equal. apply leibniz_equiv. set_solver.
Qed.

Lemma setTypeSize_spec o X :
  set_rel o X → ∃ o', setTypeSize o = Some (Z.of_nat (size X), o') ∧ set_rel o' X ∧ set_enc o' = set_enc o.
Proof using Type.
  clear. destruct 1 as [s Hs Hl|lp vs Hrep Hnd|d]; cbn [setTypeSize].
  - exists (SIntset s). split; [|auto with colour]. do 2 f_equal. unfold intsetLen.
    rewrite <- pretty_members, size_list_to_set by (apply NoDup_fmap_2, values_nodup; [apply _|done]).
    rewrite length_fmap, length_values. destruct Hs. lia.
  - destruct (lpLength_count lp vs Hrep) as (lp' & -> & Hlp'). exists (SListpack lp').
    rewrite size_list_to_set, length_fmap by done. auto with colour.
  - eauto with colour.
Qed.

(** ** An intset as a listpack *)

Lemma body_ints_bound s n :
  (∀ z, z ∈ s → (length (lpEncodeIntegerGetType z) ≤ n)%nat) →
  (length (body (LInt <$> s)) ≤ S n * length s)%nat.
Proof.
  induction s as [|z s IH]; intros Hs; [simpl; lia|]. rewrite fmap_cons, body_cons, length_app.
  rewrite entry_int_length. pose proof (Hs z ltac:(set_solver)).
  specialize (IH ltac:(set_solver)). simpl length. lia.
Qed.

Lemma values_between s z : wf s → z ∈ values s → intsetMin s ≤ z ≤ intsetMax s.
Proof.
  intros Hs (i & Hi & <-)%elem_values. unfold intsetMin, intsetMax.
  assert (0 < i → _intsetGet s 0 < _intsetGet s i) as H0 by (intros; apply get_lt; [done|lia..]).
  assert (i < is_len s - 1 → _intsetGet s i < _intsetGet s (is_len s - 1)) as H1
    by (intros; apply get_lt; [done|lia..]).
  destruct (decide (0 < i)), (decide (i < is_len s - 1)); try lia.
  - replace (is_len s - 1) with i by lia. lia.
  - replace i with 0 in * by lia. lia.
  - replace i with 0 in * by lia. replace (is_len s - 1) with 0 by lia. lia.
Qed.

Lemma estimate_eq v n :
  0 ≤ n ≤ 2 ^ 30 →
  lpEstimateBytesRepeatedInteger v n = 7 + Z.of_nat (S (length (lpEncodeIntegerGetType v))) * n.
Proof.
  intros Hn. pose proof (int_length v).
  unfold lpEstimateBytesRepeatedInteger, lpEntrySizeInteger, LP_HDR_SIZE, wrap_u.
  unfold backlen_size, lpEncodeBacklen.
  destruct (Z.leb_spec (Z.of_nat (length (lpEncodeIntegerGetType v))) 127); [|lia].
  cbn [length]. rewrite Z.mod_small; [lia|]. change (2 ^ 64) with (2 ^ 34 * 2 ^ 30). nia.
Qed.

Lemma estimate_small v n : 0 ≤ n ≤ 2 ^ 30 → 0 ≤ lpEstimateBytesRepeatedInteger v n ≤ 2 ^ 40.
Proof.
  intros Hn. rewrite estimate_eq by done. pose proof (int_length v).
  change (2 ^ 40) with (2 ^ 10 * 2 ^ 30). nia.
Qed.

Lemma safe_to_add a len :
  0 ≤ a → 0 ≤ len → a + len < 2 ^ 63 → lpSafeToAdd None (wrap_u 64 (a + len)) = true →
  a + len ≤ 2 ^ 30.
Proof.
  intros Ha Hl Hs. unfold lpSafeToAdd, LISTPACK_MAX_SAFETY_SIZE, wrap_u.
  rewrite (Z.mod_small (a + len)) by lia. rewrite Z.mod_small by lia. intros. reflect_bools. lia.
Qed.

(** The estimate bounds the listpack of the elements. *)
Lemma estimate_bound s :
  wf s → is_len s ≤ 2 ^ 30 → is_len s ≠ 0 →
  total (LInt <$> values s) ≤ Z.max (lpEstimateBytesRepeatedInteger (intsetMax s) (is_len s))
                                    (lpEstimateBytesRepeatedInteger (intsetMin s) (is_len s)).
Proof.
  intros Hs Hlen Hne. destruct (wf_len s Hs) as [Hl _].
  set (lo := length (lpEncodeIntegerGetType (intsetMin s))).
  set (hi := length (lpEncodeIntegerGetType (intsetMax s))).
  assert (∀ z, z ∈ values s → (length (lpEncodeIntegerGetType z) ≤ lo `max` hi)%nat) as Hb.
  { intros z Hz. apply int_length_between. by apply values_between. }
  apply body_ints_bound in Hb. rewrite length_values in Hb.
  pose proof (int_length (intsetMin s)). pose proof (int_length (intsetMax s)).
  rewrite !estimate_eq by lia. fold lo hi. unfold total. destruct (Nat.max_spec lo hi) as [[? E]|[? E]];
    rewrite E in Hb; nia.
Qed.

Lemma mfold_append junk zs lp vs :
  rep lp vs → Forall in_llong zs → total (vs ++ (LInt <$> zs)) ≤ UINT32_MAX →
  ∃ lp', mfold (λ lp e, lp_ok match e with
                              | LStr s => lpAppend junk lp s
                              | LInt z => lpAppendInteger junk lp z
                              end) lp (LInt <$> zs) = Some lp' ∧ rep lp' (vs ++ (LInt <$> zs)).
Proof.
  intros Hrep Hz. revert lp vs Hrep. induction Hz as [|z zs Hz _ IH]; intros lp vs Hrep Ht.
  - rewrite fmap_nil, app_nil_r in *. simpl. eauto.
  - rewrite fmap_cons in *. rewrite (cons_middle (LInt z)) in *. cbn [fmap list_fmap mfold].
    destruct (lpAppendInteger_spec junk lp vs z Hrep Hz) as (lp' & -> & Hlp').
    { rewrite app_assoc, total_app in Ht. lia. }
    cbn [lp_ok]. rewrite app_assoc in *. by apply IH.
Qed.

Lemma convert_listpack junk s cap :
  wf s → total (LInt <$> values s) ≤ UINT32_MAX →
  ∃ lp, setTypeConvertAndExpand junk dict_order (SIntset s) ENC_LISTPACK cap = Some (SListpack lp) ∧
    rep lp (LInt <$> values s).
Proof.
  intros Hs Ht. unfold setTypeConvertAndExpand. rewrite decide_False by done.
  rewrite (for_each_elems _ (SIntset s) (LInt <$> values s)) by done.
  destruct (mfold_append junk (values s) (lpNew junk (Z.to_nat
    (if 0 <? intsetLen s then Z.max (lpEstimateBytesRepeatedInteger (intsetMin s) cap)
       (lpEstimateBytesRepeatedInteger (intsetMax s) cap) else cap * 2))) []) as (lp & -> & Hlp).
  - apply lpNew_rep.
  - apply Forall_forall. intros z Hz. by eapply values_llong.
  - done.
  - eauto.
Qed.

(** ** Adding *)

Context (junk : nat → Z) (server : set_config) (Hlimits : limits_ok server).

Lemma pretty_in_set (s : intset) v :
  pretty v ∈@{gset string} set_map pretty (set_of s) ↔ v ∈ set_of s.
Proof.
  clear. rewrite elem_of_map. split; [|eauto]. intros (x & E & Hx). by apply (inj pretty) in E as ->.
Qed.

Lemma map_insert_pretty v (Y : gset Z) :
  set_map pretty ({[v]} ∪ Y) =@{gset string} {[pretty v]} ∪ set_map pretty Y.
Proof using Type. clear. apply leibniz_equiv. set_solver. Qed.

Lemma maybeConvertIntset_spec s :
  wf s →
  ∃ o, maybeConvertIntset junk server dict_order (SIntset s) = Some o ∧
    set_rel o (set_map pretty (set_of s)).
Proof using Hdict Hlimits.
  intros Hs. unfold maybeConvertIntset. unfold intsetLen.
  destruct (Z.ltb_spec (intsetMaxEntries server) (is_len s)) as [Hgt|Hle].
  - unfold setTypeConvert. cbn [setTypeSize].
    rewrite (convert_ht junk _ (set_map pretty (set_of s)) (LInt <$> values s));
      [eauto with colour|done|done|by apply listed_int].
  - eexists. split; [done|]. constructor; [done|]. unfold intsetMaxEntries, limits_ok in *. lia.
Qed.

(** Adding an integer to an intset. *)
Lemma add_int_intset s z :
  wf s → is_len s < 2 ^ 29 → in_llong z →
  ∃ o, (let '(s', success) := intsetAdd junk s z in
        if success : bool then
          o ← maybeConvertIntset junk server dict_order (SIntset s'); Some (o, true)
        else Some (SIntset s', false)) =
       Some (o, bool_decide (pretty z ∉@{gset string} set_map pretty (set_of s))) ∧
    set_rel o ({[pretty z]} ∪ set_map pretty (set_of s)).
Proof using Hdict Hlimits.
  intros Hs Hl Hz. pose proof (intsetAdd_spec junk s z Hs Hz (short_counted s Hs Hl) ltac:(unfold INT_MAX; simpl in Hl; lia)) as Hadd.
  assert (bool_decide (pretty z ∉@{gset string} set_map pretty (set_of s)) =
    bool_decide (z ∉ set_of s)) as -> by (apply bool_decide_ext; by rewrite pretty_in_set).
  destruct (intsetAdd junk s z) as [s' success] eqn:E. destruct Hadd as (Hs' & Hset & ->).
  rewrite <- map_insert_pretty, <- Hset. case_bool_decide as Hin.
  - destruct (maybeConvertIntset_spec s' Hs') as (o & -> & Ho). simpl. eauto.
  - eexists. split; [done|]. constructor; [done|].
    enough (is_len s' = is_len s) by lia.
    assert (set_of s' = set_of s) as Heq by (rewrite Hset; set_solver).
    by rewrite (is_len_size s' Hs'), (is_len_size s Hs), Heq.
Qed.

(** A string joins the members of a listpack. *)
Lemma add_listpack lp vs s tmpbuf :
  rep lp vs → NoDup (text <$> vs) → str_ok s →
  match tmpbuf with Some z => in_llong z ∧ s = pretty z | None => True end →
  ∃ o, add_string junk server dict_order (SListpack lp) s tmpbuf =
      Some (o, bool_decide (s ∉@{gset string} list_to_set (text <$> vs))) ∧
    set_rel o ({[s]} ∪ list_to_set (text <$> vs)).
Proof using Hdict.
  clear Hlimits. intros Hrep Hnd Hs Htmp. unfold add_string, find_in.
  generalize (lpFind_first lp vs s Hs Hrep).
  destruct (match lpFirst lp with Ok p => lpFind lp (Some p) s 0 | r => r end) as [| |p]; [done|..].
  2: { intros (i & v & -> & Hv & <-). assert (text v ∈ text <$> vs) as Hin
         by (apply list_elem_of_fmap_2; by eapply list_elem_of_lookup_2).
       rewrite bool_decide_eq_false_2 by set_solver. eexists. split; [done|].
       replace ({[text v]} ∪ _) with (list_to_set (text <$> vs) : gset string) by set_solver.
       by constructor. }
  intros Hnin. rewrite bool_decide_eq_true_2 by set_solver.
  destruct (lpLength_count lp vs Hrep) as (lp' & -> & Hlp').
  destruct (_ && _) eqn:Hsafe.
  - apply andb_true_iff in Hsafe as [_ Hsafe]. unfold lpSafeToAdd, LISTPACK_MAX_SAFETY_SIZE in Hsafe.
    rewrite (rep_total_bytes lp' vs Hlp') in Hsafe. destruct Hlp' as [Hlay Hmax Hvals] eqn:El; clear El.
    unfold str_ok in Hs. unfold UINT32_MAX in Hmax. pose proof (total_pos vs).
    unfold wrap_u in Hsafe. rewrite Z.mod_small in Hsafe by lia. reflect_bools.
    assert (val_ok (of_text s)) as Hok by (apply of_text_ok; lia).
    assert (total (vs ++ [of_text s]) ≤ UINT32_MAX) as Ht.
    { rewrite total_app. unfold body. simpl. rewrite app_nil_r. pose proof (entry_text_length s).
      unfold UINT32_MAX. lia. }
    assert (∃ lp2, match tmpbuf with Some z => lpAppendInteger junk lp' z | None => lpAppend junk lp' s end
      = Ok lp2 ∧ rep lp2 (vs ++ [of_text s])) as (lp2 & -> & Hlp2).
    { destruct tmpbuf as [z|]; [|by apply lpAppend_spec]. destruct Htmp as [Hz ->].
      assert (of_text (pretty z) = LInt z) as E by (apply (of_text_text (LInt z)); done).
      rewrite E in *. by apply lpAppendInteger_spec. }
    cbn [lp_ok mbind option_bind]. eexists. split; [done|].
    replace ({[s]} ∪ _) with (list_to_set (text <$> (vs ++ [of_text s])) : gset string).
    2: { rewrite fmap_app. simpl. rewrite text_of_text. apply leibniz_equiv. set_solver. }
    constructor; [done|]. rewrite fmap_app. simpl. rewrite text_of_text.
    apply NoDup_app. split; [done|]. split; [|apply NoDup_singleton]. set_solver.
  - rewrite (convert_ht junk _ (list_to_set (text <$> vs)) vs);
      [|done|done|apply listed_vals; [apply (rep_vals _ _ Hrep)|done]].
    cbn [mbind option_bind]. unfold dictAdd. rewrite decide_False by set_solver.
    eexists. split; [done|constructor].
Qed.

(** A string that is no integer moves an intset to another encoding. *)
Lemma add_string_intset s str :
  wf s → is_len s < 2 ^ 29 → str_ok str → string2ll str = None →
  ∃ o, add_string junk server dict_order (SIntset s) str None = Some (o, true) ∧
    set_rel o ({[str]} ∪ set_map pretty (set_of s)).
Proof using Hdict.
  clear Hlimits. intros Hs Hl Hstr Hnum. unfold add_string. rewrite Hnum.
  assert (str ∉@{gset string} set_map pretty (set_of s)) as Hnin.
  { rewrite elem_of_map. intros (z & -> & Hz). unfold set_of in Hz.
    apply elem_of_list_to_set in Hz. apply values_llong in Hz; [|done].
    by rewrite (proj2 (string2ll_spec (pretty z) z)) in Hnum. }
  destruct (listpack_safe server s _) eqn:Hsafe.
  - unfold listpack_safe in Hsafe. unfold intsetLen in *.
    assert (total (LInt <$> values s) + Z.of_nat (String.length str) ≤ 2 ^ 30 + 7) as Ht.
    { unfold str_ok in Hstr. pose proof (wf_len s Hs).
      destruct (Z.eqb_spec (is_len s) 0) as [E|Hne]; apply andb_true_iff in Hsafe as [_ Hsafe].
      - assert (values s = []) as -> by (unfold values; by rewrite E).
        apply safe_to_add in Hsafe; [|lia..]. unfold total. simpl. lia.
      - pose proof (estimate_bound s Hs ltac:(lia) Hne) as He.
        pose proof (estimate_small (intsetMax s) (is_len s) ltac:(lia)).
        pose proof (estimate_small (intsetMin s) (is_len s) ltac:(lia)).
        apply safe_to_add in Hsafe; lia. }
    destruct (convert_listpack junk s (is_len s + 1) Hs) as (lp & -> & Hlp);
      [unfold UINT32_MAX; lia|].
    cbn [mbind option_bind].
    destruct (lpAppend_spec junk lp _ str Hlp) as (lp' & -> & Hlp').
    { apply of_text_ok. pose proof (total_pos (LInt <$> values s)). lia. }
    { rewrite total_app. unfold body. simpl. rewrite app_nil_r.
      pose proof (entry_text_length str). unfold UINT32_MAX. lia. }
    cbn [lp_ok mbind option_bind]. eexists. split; [done|].
    replace ({[str]} ∪ _) with
      (list_to_set (text <$> ((LInt <$> values s) ++ [of_text str])) : gset string).
    2: { rewrite fmap_app, text_ints, list_to_set_app_L, pretty_members. simpl.
         rewrite text_of_text. apply leibniz_equiv. set_solver. }
    constructor; [by apply lpShrinkToFit_keeps|]. rewrite fmap_app, text_ints. simpl.
    rewrite text_of_text. apply NoDup_app. split; [|split; [|apply NoDup_singleton]].
    + apply NoDup_fmap_2; [apply _|by apply values_nodup].
    + intros x Hx ->%list_elem_of_singleton. apply Hnin. rewrite <- pretty_members.
      by apply elem_of_list_to_set.
  - rewrite (convert_ht junk _ (set_map pretty (set_of s)) (LInt <$> values s));
      [|done|done|by apply listed_int].
    cbn [mbind option_bind]. unfold dictAdd. rewrite decide_False by done.
    eexists. split; [done|constructor].
Qed.

(** What an element must be to be added. *)
Definition ele_ok (e : lpval) : Prop :=
  match e with LStr s => str_ok s | LInt z => in_llong z end.

Lemma pretty_str_ok z : in_llong z → str_ok (pretty z).
Proof. intros Hz. pose proof (pretty_llong_length z Hz). unfold str_ok. lia. Qed.

Lemma setTypeAddAux_spec o X e :
  set_rel o X → ele_ok e →
  ∃ o', setTypeAddAux junk server dict_order o e = Some (o', bool_decide (text e ∉ X)) ∧
    set_rel o' ({[text e]} ∪ X).
Proof using Hdict Hlimits.
  intros Ho He. assert (∀ s tmpbuf, str_ok s →
    match tmpbuf with Some z => in_llong z ∧ s = pretty z ∧ set_enc o ≠ ENC_INTSET | None => True end →
    ∃ o', add_string junk server dict_order o s tmpbuf = Some (o', bool_decide (s ∉ X)) ∧
      set_rel o' ({[s]} ∪ X)) as Hadd.
  { intros s tmpbuf Hs Htmp. destruct Ho as [t Ht Hl|lp vs Hrep Hnd|d].
    - assert (tmpbuf = None) as -> by (destruct tmpbuf; [naive_solver|done]).
      destruct (string2ll s) as [z|] eqn:Hz.
      + unfold add_string. rewrite Hz. apply string2ll_spec in Hz as [Hz ->].
        by apply add_int_intset.
      + destruct (add_string_intset t s Ht Hl Hs Hz) as (o' & -> & Ho').
        exists o'. split; [|done]. do 2 f_equal. symmetry. apply bool_decide_eq_true_2.
        rewrite elem_of_map. intros (z & -> & Hin). unfold set_of in Hin.
        apply elem_of_list_to_set, values_llong in Hin; [|done].
        by rewrite (proj2 (string2ll_spec (pretty z) z)) in Hz.
    - apply add_listpack; [done..|]. destruct tmpbuf; naive_solver.
    - cbn [add_string]. destruct (decide (s ∈ d)).
      + rewrite bool_decide_eq_false_2 by naive_solver.
        replace ({[s]} ∪ d) with d by set_solver. eauto with colour.
      + rewrite bool_decide_eq_true_2 by done. eauto with colour. }
  destruct e as [s|z]; [by apply Hadd|]. cbn [setTypeAddAux ele_ok text] in *.
  rewrite ll2string_pretty by done.
  destruct o as [t|lp|d]; [by inversion Ho; subst; apply add_int_intset|..];
    (apply Hadd; [by apply pretty_str_ok|done]).
Qed.

End members.

(** ** Removing and looking up *)

Section removal.
Context (junk : nat → Z).

Lemma find_in_spec lp vs s :
  str_ok s → rep lp vs →
  match find_in lp s with
  | Ok p => ∃ i v, p = offset_of vs i ∧ vs !! i = Some v ∧ text v = s
  | Null => s ∉ text <$> vs
  | Abort => False
  end.
Proof. apply lpFind_first. Qed.

Lemma remove_nodup vs i v :
  NoDup (text <$> vs) → vs !! i = Some v →
  NoDup (text <$> (take i vs ++ drop (S i) vs)) ∧
  list_to_set (text <$> (take i vs ++ drop (S i) vs)) =@{gset string}
    list_to_set (text <$> vs) ∖ {[text v]}.
Proof.
  intros Hnd Hv. pose proof (take_drop_middle _ _ _ Hv) as E.
  assert (list_to_set (text <$> vs) =@{gset string}
    list_to_set (text <$> take i vs ++ v :: drop (S i) vs)) as -> by (by rewrite E).
  rewrite <- E in Hnd. clear E. revert Hnd. generalize (take i vs) as A, (drop (S i) vs) as B.
  intros A B Hnd. rewrite !fmap_app, fmap_cons in *. apply NoDup_app in Hnd as (H1 & H12 & H2).
  apply NoDup_cons in H2 as [Hn H2]. setoid_rewrite not_elem_of_cons in H12. split.
  - apply NoDup_app. split; [done|]. split; [|done]. intros x Hx. by apply H12.
  - apply set_eq. intros x.
    rewrite elem_of_difference, elem_of_singleton, !elem_of_list_to_set, !elem_of_app, elem_of_cons.
    split; [|naive_solver]. intros [Hx|Hx].
    + split; [by left|]. by apply H12.
    + split; [by right; right|]. by intros ->.
Qed.

Lemma map_remove_pretty v (Y : gset Z) :
  set_map pretty (Y ∖ {[v]}) =@{gset string} set_map pretty Y ∖ {[pretty v]}.
Proof using Type.
  clear. apply set_eq. intros x. rewrite elem_of_difference, !elem_of_map, elem_of_singleton. split.
  - intros (y & -> & [Hy Hne]%elem_of_difference). split; [eauto|].
    intros E. apply (inj pretty) in E. set_solver.
  - intros [(y & -> & Hy) Hne]. exists y. split; [done|]. set_solver.
Qed.

Lemma remove_int_intset s z :
  wf s → is_len s < 2 ^ 29 → in_llong z →
  ∃ o, (let '(s', success) := intsetRemove junk s z in Some (SIntset s', success)) =
       Some (o, bool_decide (pretty z ∈@{gset string} set_map pretty (set_of s))) ∧
    set_rel o (set_map pretty (set_of s) ∖ {[pretty z]}).
Proof.
  intros Hs Hl Hz. pose proof (intsetRemove_spec junk s z Hs Hz (short_counted s Hs Hl)) as Hrem.
  assert (bool_decide (pretty z ∈@{gset string} set_map pretty (set_of s)) =
    bool_decide (z ∈ set_of s)) as -> by (apply bool_decide_ext; by rewrite pretty_in_set).
  destruct (intsetRemove junk s z) as [s' success]. destruct Hrem as (Hs' & Hset & ->).
  eexists. split; [done|]. rewrite <- map_remove_pretty, <- Hset. constructor; [done|].
  rewrite (is_len_size s' Hs'), Hset. rewrite (is_len_size s Hs) in Hl.
  assert (size (set_of s ∖ {[z]}) ≤ size (set_of s))%nat by (apply subseteq_size; set_solver). lia.
Qed.

Lemma setTypeRemoveAux_spec o X e :
  set_rel o X → ele_ok e →
  ∃ o', setTypeRemoveAux junk o e = Some (o', bool_decide (text e ∈ X)) ∧
    set_rel o' (X ∖ {[text e]}).
Proof.
  intros Ho He. assert (∀ s, str_ok s → ∃ o', remove_string junk o s = Some (o', bool_decide (s ∈ X)) ∧
    set_rel o' (X ∖ {[s]})) as Hrem.
  { intros s Hs. destruct Ho as [t Ht Hl|lp vs Hrep Hnd|d]; cbn [remove_string].
    - destruct (string2ll s) as [z|] eqn:Hz.
      + apply string2ll_spec in Hz as [Hz ->]. by apply remove_int_intset.
      + assert (s ∉@{gset string} set_map pretty (set_of t)) as Hn.
        { rewrite elem_of_map. intros (z & -> & Hin). unfold set_of in Hin.
          apply elem_of_list_to_set, values_llong in Hin; [|done].
          by rewrite (proj2 (string2ll_spec (pretty z) z)) in Hz. }
        rewrite bool_decide_eq_false_2 by done.
        replace (_ ∖ {[s]}) with (set_map pretty (set_of t) : gset string) by set_solver.
        eauto with colour.
    - generalize (find_in_spec lp vs s Hs Hrep). destruct (find_in lp s) as [| |p]; [done|..].
      + intros Hn. rewrite bool_decide_eq_false_2 by set_solver.
        replace (_ ∖ {[s]}) with (list_to_set (text <$> vs) : gset string) by set_solver.
        eauto with colour.
      + intros (i & v & -> & Hv & <-).
        destruct (lpDelete_spec junk lp vs i Hrep) as (lp' & -> & Hlp');
          [by eapply lookup_lt_Some|]. cbn [lp_ok mbind option_bind].
        destruct (remove_nodup vs i v Hnd Hv) as [Hnd' <-].
        rewrite bool_decide_eq_true_2; [eauto with colour|].
        apply elem_of_list_to_set, list_elem_of_fmap_2. by eapply list_elem_of_lookup_2.
    - eauto with colour. }
  destruct e as [s|z]; [by apply Hrem|]. cbn [setTypeRemoveAux ele_ok text] in *.
  rewrite ll2string_pretty by done.
  destruct o as [t|lp|d]; [by inversion Ho; subst; apply remove_int_intset|..]; by apply Hrem, pretty_str_ok.
Qed.

Lemma setTypeIsMemberAux_spec o X e :
  set_rel o X → ele_ok e → setTypeIsMemberAux o e = Some (bool_decide (text e ∈ X)).
Proof.
  intros Ho He. assert (∀ s, str_ok s → is_member_string o s = Some (bool_decide (s ∈ X))) as Hmem.
  { intros s Hs. destruct Ho as [t Ht Hl|lp vs Hrep Hnd|d]; cbn [is_member_string]; [|..|done].
    - f_equal. destruct (string2ll s) as [z|] eqn:Hz.
      + apply string2ll_spec in Hz as [Hz ->]. rewrite intsetFind_spec by done.
        apply bool_decide_ext. by rewrite pretty_in_set.
      + symmetry. apply bool_decide_eq_false_2. rewrite elem_of_map. intros (z & -> & Hin).
        unfold set_of in Hin. apply elem_of_list_to_set, values_llong in Hin; [|done].
        by rewrite (proj2 (string2ll_spec (pretty z) z)) in Hz.
    - generalize (find_in_spec lp vs s Hs Hrep). destruct (find_in lp s) as [| |p]; [done|..].
      + intros Hn. by rewrite bool_decide_eq_false_2 by set_solver.
      + intros (i & v & -> & Hv & <-). rewrite bool_decide_eq_true_2; [done|].
        apply elem_of_list_to_set, list_elem_of_fmap_2. by eapply list_elem_of_lookup_2. }
  destruct e as [s|z]; [by apply Hmem|]. cbn [setTypeIsMemberAux ele_ok text] in *.
  rewrite ll2string_pretty by done. destruct o as [t|lp|d]; [|by apply Hmem, pretty_str_ok..].
  inversion Ho; subst. f_equal. rewrite intsetFind_spec by done. apply bool_decide_ext.
  by rewrite pretty_in_set.
Qed.

End removal.

(** ** Creation, copies and the other conversions *)

Section creation.
Context (dict_order : gset string → list string).
Context (Hdict : ∀ d, dict_order d ≡ₚ elements d).
Context (junk : nat → Z) (server : set_config) (Hlimits : limits_ok server).

Lemma setTypeCreate_spec value hint : set_rel (setTypeCreate junk server value hint) ∅.
Proof.
  unfold setTypeCreate. destruct (match string2ll value with Some _ => _ | None => _ end).
  - destruct intsetNew_wf as [Hwf He].
    replace (∅ : gset string) with (set_map pretty (set_of intsetNew) : gset string)
      by (rewrite He; set_solver). constructor; [done|simpl; lia].
  - destruct (_ <=? _); [|constructor].
    apply (rel_listpack _ []); [apply lpNew_rep|constructor].
Qed.

Lemma setTypeMaybeConvert_spec o X hint :
  set_rel o X →
  ∃ o', setTypeMaybeConvert junk server dict_order o hint = Some o' ∧ set_rel o' X.
Proof using Hdict.
  intros Ho. unfold setTypeMaybeConvert.
  destruct (match o with SIntset _ => _ | SListpack _ => _ | SHt _ => _ end) eqn:E; [|eauto].
  destruct (rel_listed dict_order Hdict o X Ho) as (es & Hes & Hl).
  rewrite (convert_ht dict_order junk o X es) by (done || by destruct o). eauto with colour.
Qed.

(** Members that are all integers fit an intset. *)
Lemma mfold_intset es s :
  wf s → NoDup (text <$> es) → is_len s + Z.of_nat (length es) < 2 ^ 29 →
  Forall (λ e, ∃ z, in_llong z ∧ text e = pretty z ∧ z ∉ set_of s) es →
  ∃ s', mfold (λ s e,
      match (match e with LStr str => string2ll str | LInt z => Some z end) with
      | None => None
      | Some llval =>
          let '(s, success) := intsetAdd junk s llval in
          if success : bool then Some s else None
      end) s es = Some s' ∧ wf s' ∧ is_len s' < 2 ^ 29 ∧
    set_map pretty (set_of s') =@{gset string} list_to_set (text <$> es) ∪ set_map pretty (set_of s).
Proof using Type.
  clear Hdict dict_order Hlimits server.
  revert s. induction es as [|e es IH]; intros s Hs Hnd Hlen Hes.
  { exists s. cbn [mfold fmap list_fmap list_to_set length] in *.
    split; [done|]. split; [done|]. split; [lia|].
    apply leibniz_equiv. set_solver. }
  rewrite fmap_cons in *. apply NoDup_cons in Hnd as [Hnin Hnd].
  apply Forall_cons in Hes as [(z & Hz & Htext & Hzs) Hes]. cbn [mfold].
  assert ((match e with LStr str => string2ll str | LInt y => Some y end) = Some z) as ->.
  { destruct e as [str|y]; simpl in Htext; subst; [by apply string2ll_spec|].
    by apply (inj pretty) in Htext as ->. }
  cbn [length] in Hlen.
  pose proof (intsetAdd_spec junk s z Hs Hz (short_counted s Hs ltac:(lia)) ltac:(unfold INT_MAX; lia)) as Hadd.
  destruct (intsetAdd junk s z) as [s1 success]. destruct Hadd as (Hs1 & Hset & ->).
  rewrite bool_decide_eq_true_2 by done.
  assert (is_len s1 = is_len s + 1) as Hl1.
  { rewrite (is_len_size s1 Hs1), (is_len_size s Hs), Hset, size_union, size_singleton by set_solver. lia. }
  destruct (IH s1 Hs1 Hnd ltac:(lia)) as (s' & -> & Hs' & Hl' & Hset').
  { rewrite Forall_forall in Hes. apply Forall_forall. intros y Hy.
    destruct (Hes y Hy) as (x & Hx & Hty & Hxs). exists x. split; [done|]. split; [done|].
    rewrite Hset, elem_of_union, elem_of_singleton. intros [->|]; [|done].
    apply Hnin. rewrite Htext, <- Hty. by apply list_elem_of_fmap_2. }
  exists s'. split; [done|]. split; [done|]. split; [done|].
  rewrite Hset', Hset, map_insert_pretty, Htext. cbn [list_to_set]. apply leibniz_equiv. set_solver.
Qed.

Lemma all_integers o X :
  set_rel o X → (∀ x, x ∈ X → ∃ z, in_llong z ∧ x = pretty z) → Z.of_nat (size X) < 2 ^ 29 →
  ∃ s', for_each_element dict_order o (λ s e,
      match (match e with LStr str => string2ll str | LInt z => Some z end) with
      | None => None
      | Some llval =>
          let '(s, success) := intsetAdd junk s llval in
          if success : bool then Some s else None
      end) intsetNew = Some s' ∧ set_rel (SIntset s') X.
Proof using Hdict.
  clear Hlimits server. intros Ho Hints Hsize. destruct (rel_listed dict_order Hdict o X Ho) as (es & Hes & [Hnd HX Ht]).
  rewrite (for_each_elems _ o es) by done. destruct intsetNew_wf as [Hwf Hempty].
  destruct (mfold_intset es intsetNew Hwf Hnd) as (s' & -> & Hs' & Hl' & Hset).
  - rewrite <- HX, size_list_to_set, length_fmap in Hsize by done. simpl is_len. lia.
  - apply Forall_forall. intros e He. destruct (Hints (text e)) as (z & Hz & Hte).
    + rewrite <- HX. apply elem_of_list_to_set. by apply list_elem_of_fmap_2.
    + exists z. rewrite Hempty. set_solver.
  - eexists. split; [done|]. replace X with (set_map pretty (set_of s') : gset string).
    + by constructor.
    + rewrite Hset, HX, Hempty. apply leibniz_equiv. set_solver.
Qed.

Lemma maybeConvertToIntset_spec o X :
  set_rel o X → (∀ x, x ∈ X → ∃ z, in_llong z ∧ x = pretty z) →
  ∃ o', maybeConvertToIntset junk server dict_order o = Some o' ∧ set_rel o' X.
Proof using Hdict Hlimits.
  intros Ho Hints.
  assert (∃ o', match setTypeSize o with
    | None => None
    | Some (n, set) => if intsetMaxEntries server <? n then Some set else
        SIntset <$> for_each_element dict_order set (λ s e,
          match (match e with LStr str => string2ll str | LInt z => Some z end) with
          | None => None
          | Some llval =>
              let '(s, success) := intsetAdd junk s llval in
              if success : bool then Some s else None
          end) intsetNew end = Some o' ∧ set_rel o' X) as Hgo.
  { destruct (setTypeSize_spec o X Ho) as (o1 & -> & Ho1 & Henc).
    destruct (Z.ltb_spec (intsetMaxEntries server) (Z.of_nat (size X))) as [|Hle]; [by eauto|].
    unfold intsetMaxEntries, limits_ok in *.
    destruct (all_integers o1 X Ho1 Hints ltac:(lia)) as (s' & -> & Hs'). simpl. eauto. }
  destruct o as [s|lp|d]; [by exists (SIntset s)|apply Hgo..].
Qed.

Lemma setTypeDup_spec o X :
  set_rel o X → ∃ o', setTypeDup junk server dict_order o = Some o' ∧ set_rel o' X ∧ set_enc o' = set_enc o.
Proof using Hdict.
  clear Hlimits. destruct 1 as [s Hs Hl|lp vs Hrep Hnd|d]; cbn [setTypeDup].
  - eauto with colour.
  - eexists. split; [done|]. split; [|done]. constructor; [|done].
    unfold lpDup, lpBytes. rewrite (rep_total_bytes lp vs Hrep).
    destruct Hrep as [(n & spare & -> & Hn) Ht Hvs]. split; [|done..]. exists n, []. split; [|done].
    change (LP_EOF :: spare) with ([LP_EOF] ++ spare). rewrite !app_assoc.
    apply get_bytes_prefix. unfold total. rewrite !length_app, length_header. simpl. lia.
  - rewrite (for_each_elems _ (SHt d) (LStr <$> dict_order d)) by done.
    exists (SHt d). split; [|auto with colour].
    assert (∀ l (Y : gset string), mfold (λ set e, match e with
        | LStr str => fst <$> setTypeAdd junk server dict_order set str | LInt _ => None end)
        (SHt Y) (LStr <$> l) = Some (SHt (list_to_set l ∪ Y))) as Hgo.
    { induction l as [|x l IH]; intros Y; cbn [fmap list_fmap mfold].
      - do 2 f_equal. apply leibniz_equiv. set_solver.
      - unfold setTypeAdd. cbn [setTypeAddAux add_string]. destruct (decide (x ∈ Y)); simpl; rewrite IH;
          do 2 f_equal; apply leibniz_equiv; set_solver. }
    rewrite Hgo, Hdict, list_to_set_elements_L. do 2 f_equal. apply leibniz_equiv. set_solver.
Qed.

End creation.

(** ** Properties *)

(** C17: whatever the encoding of a set, [setTypeAdd] adds the string, converts
    the set when a limit is crossed or when an integer set meets another
    string, tells whether the string was new, and fails no assertion.  The
    string is shorter than 2^32 bytes and the limit of integer sets below
    2^29. *)
Theorem setTypeAdd_refines junk server dict_order o X s
    (Hdict : ∀ d, dict_order d ≡ₚ elements d) (Hlimits : limits_ok server) (Ho : set_rel o X) (Hs : str_ok s) :
  ∃ o', setTypeAdd junk server dict_order o s = Some (o', bool_decide (s ∉ X)) ∧
    set_rel o' ({[s]} ∪ X).
Proof. by apply (setTypeAddAux_spec dict_order Hdict junk server Hlimits o X (LStr s)). Qed.

(** Limits of two integers and two strings. *)
Definition small_limits : set_config := mkSetConfig 2 2 64.

Lemma sample_listpack_rel : set_rel (SListpack sample_lp) (list_to_set (text <$> sample_vs)).
Proof.
  constructor; [apply sample_rep|].
  change (text <$> sample_vs) with ["a"; pretty 10; "b"].
  apply (bool_decide_unpack _). vm_compute. exact I.
Qed.

(** The limit is crossed, so that the set becomes a hash table. *)
Lemma setTypeAdd_refines_witness :
  ∃ o', setTypeAdd (λ _, 0) small_limits elements (SListpack sample_lp) "abc" = Some (o', true) ∧
    set_rel o' ({["abc"]} ∪ list_to_set (text <$> sample_vs)).
Proof.
  destruct (setTypeAdd_refines (λ _, 0) small_limits elements (SListpack sample_lp)
    (list_to_set (text <$> sample_vs)) "abc") as (o' & E & Ho').
  - done.
  - done.
  - apply sample_listpack_rel.
  - unfold str_ok. simpl. lia.
  - exists o'. split; [|exact Ho']. rewrite E. f_equal.
Defined.

(** [setTypeRemove] removes exactly the string and tells whether it was
    a member, in every encoding. *)
Theorem setTypeRemove_refines junk o X s (Ho : set_rel o X) (Hs : str_ok s) :
  ∃ o', setTypeRemove junk o s = Some (o', bool_decide (s ∈ X)) ∧ set_rel o' (X ∖ {[s]}).
Proof. by apply (setTypeRemoveAux_spec junk o X (LStr s)). Qed.

Lemma setTypeRemove_refines_witness :
  ∃ o', setTypeRemove (λ _, 0) (SListpack sample_lp) "10" = Some (o', true) ∧
    set_rel o' (list_to_set (text <$> sample_vs) ∖ {["10"]}).
Proof.
  apply (setTypeRemove_refines (λ _, 0) (SListpack sample_lp) _ "10" sample_listpack_rel).
  unfold str_ok. simpl. lia.
Defined.

(** [setTypeIsMember] decides membership, in every encoding. *)
Theorem setTypeIsMember_refines o X s (Ho : set_rel o X) (Hs : str_ok s) :
  setTypeIsMember o s = Some (bool_decide (s ∈ X)).
Proof. by apply (setTypeIsMemberAux_spec o X (LStr s)). Qed.

Lemma setTypeIsMember_refines_witness : setTypeIsMember (SListpack sample_lp) "10" = Some true.
Proof.
  rewrite (setTypeIsMember_refines (SListpack sample_lp) _ "10" sample_listpack_rel).
  - reflexivity.
  - unfold str_ok. simpl. lia.
Defined.
