(* ===== verification/Db.v ===== *)
(** * The key space

    src/redis/src/db.c and the parts of src/redis/src/object.c it uses: one
    database of a Redis server as its table of values, its table of expiry
    times and the histogram of key sizes, with the counters of the server
    that commands update and the replies sent to the client.  A handler is a
    [cmd]: a state transformer that fails where the source fails an assertion.
    Objects live in the table of values, so that a handler which keeps a
    pointer to a set and changes it in place is written as a change of the
    table at its key. *)

From S2P Require Import Prelude CLib Hiredis ServerSpec Util Glob SetType.
From Stdlib Require Import Ascii.

#[local] Open Scope string_scope.
#[local] Open Scope Z_scope.

(** ** Objects *)

(** [OBJ_ENCODING_RAW], [OBJ_ENCODING_EMBSTR], [OBJ_ENCODING_INT]; an entry of
    [shared.integers] is the only object that more than one key refers to. *)
Inductive str_obj : Type :=
| EncRaw (ptr : string)
| EncEmbstr (ptr : string)
| EncInt (shared : bool) (ptr : Z).

Inductive robj : Type :=
| OString (o : str_obj)
| OSet (o : set_obj).

Inductive obj_type : Set := OBJ_STRING | OBJ_SET.

#[export] Instance obj_type_eq_dec : EqDecision obj_type.
Proof. solve_decision. Defined.

Definition type_of (o : robj) : obj_type :=
  match o with OString _ => OBJ_STRING | OSet _ => OBJ_SET end.

Definition OBJ_ENCODING_EMBSTR_SIZE_LIMIT : Z := 44.

Definition slen (s : string) : Z := Z.of_nat (String.length s).

Definition createStringObject (ptr : string) : str_obj :=
  if slen ptr <=? OBJ_ENCODING_EMBSTR_SIZE_LIMIT then EncEmbstr ptr else EncRaw ptr.

Definition stringObjectLen (o : str_obj) : Z :=
  match o with EncRaw s | EncEmbstr s => slen s | EncInt _ v => sdigits10 v end.

(** The length of a set may be cached in the object. *)
Definition getObjectLength (o : robj) : option (Z * robj) :=
  match o with
  | OString s => Some (stringObjectLen s, o)
  | OSet s => '(n, s') ← setTypeSize s; Some (n, OSet s')
  end.

(** What [addReply] prints of a string object. *)
Definition object_text (o : str_obj) : string :=
  match o with EncRaw s | EncEmbstr s => s | EncInt _ v => default "" (ll2string 32 v) end.

(** ** The server *)

Record redisDb : Type := mkDb {
  keys : gmap string robj;
  expires : gmap string Z;
  keysizes_hist : obj_type * Z → Z;
}.

(** The database, the replies to the current command, and counters. *)
Record redisServer : Type := mkServer {
  db : redisDb;
  reply : list redisReply;
  dirty : Z;
  stat_keyspace_hits : Z;
  stat_keyspace_misses : Z;
  stat_expiredkeys : Z;
}.

(** Configuration and surroundings of a command: limits, whether values may be
    shared integers ([maxmemory] and its policy), the contents of new
    memory, the order in which a hash table is iterated, the role of the
    server, whether expiry is paused, and the time, which does not change
    during a command. *)
Record environ : Type := mkEnv {
  set_limits : set_config;
  proto_max_bulk_len : Z;
  shared_integers : bool;
  new_memory : nat → Z;
  dict_order : gset string → list string;
  allow_access_expired : bool;
  loading : bool;
  masterhost : bool;
  repl_slave_ro : bool;
  expire_paused : bool;
  commandTimeSnapshot : Z;
}.

(** ** Encoding a value *)

Definition OBJ_SHARED_INTEGERS : Z := 10000.

Definition createStringObjectFromLongLongForValue (server : environ) (value : Z) : str_obj :=
  EncInt (shared_integers server && (0 <=? value) && (value <? OBJ_SHARED_INTEGERS)) value.

(** On an object that only the caller refers to. *)
Definition tryObjectEncoding (server : environ) (o : str_obj) : str_obj :=
  match o with
  | EncInt _ _ => o
  | EncRaw s | EncEmbstr s =>
      match (if slen s <=? 20 then string2l s else None) with
      | Some value => createStringObjectFromLongLongForValue server value
      | None =>
          if slen s <=? OBJ_ENCODING_EMBSTR_SIZE_LIMIT then EncEmbstr s else o
      end
  end.

(** ** Handlers *)

Definition cmd (A : Type) : Type := redisServer → option (A * redisServer).

#[export] Instance cmd_ret : MRet cmd := λ _ a σ, Some (a, σ).
#[export] Instance cmd_bind : MBind cmd := λ _ _ f m σ,
  match m σ with Some (a, σ') => f a σ' | None => None end.

(** A failed assertion or a panic. *)
Definition serverPanic {A} : cmd A := λ _, None.
Definition serverAssert (b : bool) : cmd unit := if b then mret tt else serverPanic.

(** The result of a function that may fail an assertion. *)
Definition lift {A} (o : option A) : cmd A := λ σ, (λ a, (a, σ)) <$> o.

Definition get_db : cmd redisDb := λ σ, Some (db σ, σ).
Definition put_db (d : redisDb) : cmd unit := λ σ,
  Some (tt, mkServer d (reply σ) (dirty σ) (stat_keyspace_hits σ) (stat_keyspace_misses σ)
    (stat_expiredkeys σ)).
Definition addReply (r : redisReply) : cmd unit := λ σ,
  Some (tt, mkServer (db σ) (reply σ ++ [r]) (dirty σ) (stat_keyspace_hits σ)
    (stat_keyspace_misses σ) (stat_expiredkeys σ)).
Definition add_dirty (n : Z) : cmd unit := λ σ,
  Some (tt, mkServer (db σ) (reply σ) (dirty σ + n) (stat_keyspace_hits σ)
    (stat_keyspace_misses σ) (stat_expiredkeys σ)).
Definition count_hit : cmd unit := λ σ,
  Some (tt, mkServer (db σ) (reply σ) (dirty σ) (stat_keyspace_hits σ + 1)
    (stat_keyspace_misses σ) (stat_expiredkeys σ)).
Definition count_miss : cmd unit := λ σ,
  Some (tt, mkServer (db σ) (reply σ) (dirty σ) (stat_keyspace_hits σ)
    (stat_keyspace_misses σ + 1) (stat_expiredkeys σ)).
Definition count_expired : cmd unit := λ σ,
  Some (tt, mkServer (db σ) (reply σ) (dirty σ) (stat_keyspace_hits σ)
    (stat_keyspace_misses σ) (stat_expiredkeys σ + 1)).

Definition when (b : bool) (c : cmd unit) : cmd unit := if b then c else mret tt.

(** [addReplyError]: the code [ERR] unless the text starts with one. *)
Definition addReplyError (err : string) : cmd unit :=
  addReply (RError (match err with
                    | String "-"%char rest => rest
                    | _ => "ERR " +:+ err
                    end)).

(** [1] when the object has another type; a missing object has every type. *)
Definition checkType (o : option robj) (type : obj_type) : cmd bool :=
  match o with
  | Some o => if decide (type_of o = type) then mret false
              else addReply (RError wrongtypeerr);; mret true
  | None => mret false
  end.

(** [flags & F]. *)
Definition has (flags F : Z) : bool := negb (Z.land flags F =? 0).

(** ** The histogram of key sizes *)

(** [63 - __builtin_clzll (x)]. *)
Definition log2ceil (x : Z) : Z := Z.log2 x.

Definition updateKeysizesHist (d : redisDb) (type : obj_type) (oldLen newLen : Z) : redisDb :=
  let bump (len by_ : Z) (h : obj_type * Z → Z) :=
    if len =? 0 then h
    else <[(type, log2ceil len) := h (type, log2ceil len) + by_]> h in
  mkDb (keys d) (expires d) (bump newLen 1 (bump oldLen (-1) (keysizes_hist d))).

Definition hist_update (type : obj_type) (oldLen newLen : Z) : cmd unit :=
  d ← get_db; put_db (updateKeysizesHist d type oldLen newLen).

(** ** Access to the tables *)

Definition dbFind (key : string) : cmd (option robj) :=
  d ← get_db; mret (keys d !! key).

(** Store the object of a key, and remove an entry. *)
Definition dict_set (key : string) (val : robj) : cmd unit :=
  d ← get_db; put_db (mkDb (<[key := val]> (keys d)) (expires d) (keysizes_hist d)).

Definition kvstoreDictDelete_keys (key : string) : cmd unit :=
  d ← get_db; put_db (mkDb (delete key (keys d)) (expires d) (keysizes_hist d)).

(** Whether an expiry time was there. *)
Definition removeExpire (key : string) : cmd bool :=
  d ← get_db;
  put_db (mkDb (keys d) (delete key (expires d)) (keysizes_hist d));;
  mret (bool_decide (is_Some (expires d !! key))).

Definition getExpire (d : redisDb) (key : string) : Z := default (-1) (expires d !! key).

Definition setExpire (key : string) (milliseconds : Z) : cmd unit :=
  d ← get_db;
  serverAssert (bool_decide (is_Some (keys d !! key)));;
  put_db (mkDb (keys d) (<[key := milliseconds]> (expires d)) (keysizes_hist d)).

(** The object stored at a key, which a pointer to it refers to. *)
Definition object_at (key : string) : cmd robj :=
  o ← dbFind key; lift o.

Definition set_at (key : string) : cmd set_obj :=
  o ← object_at key; match o with OSet s => mret s | OString _ => serverPanic end.

Definition length_at (key : string) : cmd Z :=
  o ← object_at key; '(n, o') ← lift (getObjectLength o); dict_set key o';; mret n.

(** [dbGenericDelete]; freeing the value now or in the background is the same. *)
Definition dbGenericDelete (key : string) : cmd bool :=
  o ← dbFind key;
  match o with
  | Some val =>
      n ← length_at key;
      hist_update (type_of val) n 0;;
      removeExpire key;;
      kvstoreDictDelete_keys key;;
      mret true
  | None => mret false
  end.

(** ** Expiry *)

Section keyspace.
Context (server : environ).

Definition keyIsExpired (d : redisDb) (key : string) : bool :=
  if loading server then false else
  let when := getExpire d key in
  if when <? 0 then false else when <? commandTimeSnapshot server.

Inductive keyStatus : Set := KEY_VALID | KEY_EXPIRED | KEY_DELETED.

Definition deleteExpiredKeyAndPropagate (key : string) : cmd unit :=
  dbGenericDelete key;; count_expired.

Definition EXPIRE_FORCE_DELETE_EXPIRED : Z := 1.
Definition EXPIRE_AVOID_DELETE_EXPIRED : Z := 2.
Definition EXPIRE_ALLOW_ACCESS_EXPIRED : Z := 4.

(** The client is not the link to a master. *)
Definition expireIfNeeded (key : string) (flags : Z) : cmd keyStatus :=
  d ← get_db;
  if allow_access_expired server || has flags EXPIRE_ALLOW_ACCESS_EXPIRED ||
     negb (keyIsExpired d key)
  then mret KEY_VALID
  else if masterhost server && negb (has flags EXPIRE_FORCE_DELETE_EXPIRED)
  then mret KEY_EXPIRED
  else if has flags EXPIRE_AVOID_DELETE_EXPIRED then mret KEY_EXPIRED
  else if expire_paused server then mret KEY_EXPIRED
  else deleteExpiredKeyAndPropagate key;; mret KEY_DELETED.

(** ** Looking up a key *)

Definition LOOKUP_NONE : Z := 0.
Definition LOOKUP_NOTOUCH : Z := 1.
Definition LOOKUP_NONOTIFY : Z := 2.
Definition LOOKUP_NOSTATS : Z := 4.
Definition LOOKUP_WRITE : Z := 8.
Definition LOOKUP_NOEXPIRE : Z := 16.
Definition LOOKUP_ACCESS_EXPIRED : Z := 32.

Definition expire_flags_of (flags : Z) : Z :=
  let is_ro_replica := masterhost server && repl_slave_ro server in
  Z.lor (if has flags LOOKUP_WRITE && negb is_ro_replica then EXPIRE_FORCE_DELETE_EXPIRED else 0)
    (Z.lor (if has flags LOOKUP_NOEXPIRE then EXPIRE_AVOID_DELETE_EXPIRED else 0)
       (if has flags LOOKUP_ACCESS_EXPIRED then EXPIRE_ALLOW_ACCESS_EXPIRED else 0)).

(** Access times are not modelled. *)
Definition lookupKey (key : string) (flags : Z) : cmd (option robj) :=
  de ← dbFind key;
  val ← match de with
        | Some val =>
            status ← expireIfNeeded key (expire_flags_of flags);
            mret (match status with KEY_VALID => Some val | _ => None end)
        | None => mret None
        end;
  let stats := negb (has flags (Z.lor LOOKUP_NOSTATS LOOKUP_WRITE)) in
  when stats (match val with Some _ => count_hit | None => count_miss end);;
  mret val.

Definition lookupKeyReadWithFlags (key : string) (flags : Z) : cmd (option robj) :=
  serverAssert (negb (has flags LOOKUP_WRITE));;
  lookupKey key flags.

Definition lookupKeyRead (key : string) : cmd (option robj) :=
  lookupKeyReadWithFlags key LOOKUP_NONE.

Definition lookupKeyWriteWithFlags (key : string) (flags : Z) : cmd (option robj) :=
  lookupKey key (Z.lor flags LOOKUP_WRITE).

Definition lookupKeyWrite (key : string) : cmd (option robj) :=
  lookupKeyWriteWithFlags key LOOKUP_NONE.

Definition lookupKeyReadOrReply (key : string) (r : redisReply) : cmd (option robj) :=
  o ← lookupKeyRead key;
  match o with Some _ => mret o | None => addReply r;; mret None end.

Definition lookupKeyWriteOrReply (key : string) (r : redisReply) : cmd (option robj) :=
  o ← lookupKeyWrite key;
  match o with Some _ => mret o | None => addReply r;; mret None end.

(** ** Writing a key *)

(** The value, and the size of the old and of the new one in the histogram. *)
Definition dbSetValue (key : string) (val : robj) : cmd unit :=
  old ← object_at key;
  n ← length_at key;
  hist_update (type_of old) n 0;;
  dict_set key val;;
  n ← length_at key;
  hist_update (type_of val) 0 n.

Definition dbAddInternal (key : string) (val : robj) (update_if_existing : bool) : cmd unit :=
  existing ← dbFind key;
  match existing with
  | Some _ => if update_if_existing then dbSetValue key val else serverPanic
  | None =>
      dict_set key val;;
      n ← length_at key;
      hist_update (type_of val) 0 n
  end.

Definition dbAdd (key : string) (val : robj) : cmd unit := dbAddInternal key val false.

Definition SETKEY_KEEPTTL : Z := 1.
Definition SETKEY_NO_SIGNAL : Z := 2.
Definition SETKEY_ALREADY_EXIST : Z := 4.
Definition SETKEY_DOESNT_EXIST : Z := 8.
Definition SETKEY_ADD_OR_UPDATE : Z := 16.

Definition setKey (key : string) (val : robj) (flags : Z) : cmd unit :=
  keyfound ←
    (if has flags SETKEY_ALREADY_EXIST then mret 1
     else if has flags SETKEY_ADD_OR_UPDATE then mret (-1)
     else if negb (has flags SETKEY_DOESNT_EXIST) then
       o ← lookupKeyWrite key; mret (match o with Some _ => 1 | None => 0 end)
     else mret 0);
  (if keyfound =? 0 then dbAdd key val
   else if keyfound <? 0 then dbAddInternal key val true
   else dbSetValue key val);;
  when (negb (has flags SETKEY_KEEPTTL)) (removeExpire key;; mret tt).

(** ** Commands on keys *)

(** Expired keys are dropped on the way; only the others count. *)
Definition delete_one (numdel : Z) (key : string) : cmd Z :=
  status ← expireIfNeeded key 0;
  match status with
  | KEY_DELETED => mret numdel
  | _ =>
      deleted ← dbGenericDelete key;
      if deleted : bool then add_dirty 1;; mret (numdel + 1) else mret numdel
  end.

Fixpoint fold_cmd {A B} (body : A → B → cmd A) (acc : A) (l : list B) : cmd A :=
  match l with
  | [] => mret acc
  | x :: l => acc ← body acc x; fold_cmd body acc l
  end.

Definition delGenericCommand (argv : list string) : cmd unit :=
  numdel ← fold_cmd delete_one 0 (drop 1 argv);
  addReply (RInteger numdel).

Definition delCommand := delGenericCommand.
Definition unlinkCommand := delGenericCommand.

Definition existsCommand (argv : list string) : cmd unit :=
  count ← fold_cmd (λ count key,
    o ← lookupKeyReadWithFlags key LOOKUP_NOTOUCH;
    mret (match o with Some _ => count + 1 | None => count end)) 0 (drop 1 argv);
  addReply (RInteger count).

(** Without the cluster mode, whose slots are not modelled. *)
Definition keysCommand (argv : list string) : cmd unit :=
  pattern ← lift (argv !! 1%nat);
  d ← get_db;
  let allkeys := bool_decide (pattern = "*") in
  let selected (key : string) : bool :=
    (allkeys || stringmatchlen pattern key false) && negb (keyIsExpired d key) in
  addReply (RArray (filter (λ key, selected key = true) (dict_order server (dom (keys d))))).
End keyspace.
