(* ===== verification/DbRel.v ===== *)
(** * What a database stands for

    The abstract store: a map from keys to strings and sets, and a map from
    keys to expiry times.  [db_rel] relates a database to a store, up to a
    drift of the histogram of key sizes: the histogram is correct when the
    drift is zero everywhere.  Every operation of [Db] is a change of the
    store and of the drift, and fails no assertion where [runs] holds. *)

From S2P Require Import Prelude CLib Hiredis ServerSpec Util Glob SetType Db.

(** ** Stores *)

Record store : Type := mkStore {
  vals : gmap string aval;
  ttls : gmap string Z;
}.

Definition put (k : string) (v : aval) (S : store) : store := mkStore (<[k := v]> (vals S)) (ttls S).
Definition persist (k : string) (S : store) : store := mkStore (vals S) (delete k (ttls S)).
Definition set_ttl (k : string) (t : Z) (S : store) : store :=
  mkStore (vals S) (<[k := t]> (ttls S)).
Definition remove (k : string) (S : store) : store :=
  mkStore (delete k (vals S)) (delete k (ttls S)).

(** ** The histogram of a store *)

Definition val_type (v : aval) : obj_type :=
  match v with AStr _ => OBJ_STRING | ASet _ => OBJ_SET end.

Definition val_len (v : aval) : Z :=
  match v with AStr s => slen s | ASet X => Z.of_nat (size X) end.

(** What a value of a type and a length adds to a bin. *)
Definition bin (t : obj_type) (len : Z) (p : obj_type * Z) : Z :=
  if len =? 0 then 0 else if decide (p = (t, log2ceil len)) then 1 else 0.

Definition val_bin (v : aval) : obj_type * Z → Z := bin (val_type v) (val_len v).
Definition opt_bin (o : option aval) (p : obj_type * Z) : Z :=
  match o with Some v => val_bin v p | None => 0 end.

(** The number of keys in a bin. *)
Definition hist_of (m : gmap string aval) (p : obj_type * Z) : Z :=
  map_fold (λ _ v n, val_bin v p + n) 0 m.

Lemma hist_of_insert m k v p :
  m !! k = None → hist_of (<[k := v]> m) p = val_bin v p + hist_of m p.
Proof. intros Hk. unfold hist_of. rewrite map_fold_insert_L; [done|intros; lia|done]. Qed.

Lemma hist_of_delete m k p : hist_of (delete k m) p = hist_of m p - opt_bin (m !! k) p.
Proof.
  destruct (m !! k) as [v|] eqn:Hk; simpl.
  - rewrite <- (insert_delete_id m k v Hk) at 2. rewrite hist_of_insert by apply lookup_delete_eq. lia.
  - rewrite delete_id by done. lia.
Qed.

Lemma hist_of_put m k v p :
  hist_of (<[k := v]> m) p = hist_of m p + val_bin v p - opt_bin (m !! k) p.
Proof.
  rewrite <- insert_delete_eq, hist_of_insert, hist_of_delete by apply lookup_delete_eq. lia.
Qed.

(** ** The relation *)

Definition str_rel (o : str_obj) (s : string) : Prop :=
  match o with EncRaw p | EncEmbstr p => p = s | EncInt _ v => in_llong v ∧ s = pretty v end.

Definition obj_rel (o : robj) (v : aval) : Prop :=
  match o, v with
  | OString o, AStr s => str_rel o s
  | OSet o, ASet X => set_rel o X
  | _, _ => False
  end.

Definition drift : Type := obj_type * Z → Z.

Record db_rel (δ : drift) (d : redisDb) (S : store) : Prop := {
  rel_vals k : option_Forall2 obj_rel (keys d !! k) (vals S !! k);
  rel_ttls : expires d = ttls S;
  rel_volatile : dom (ttls S) ⊆ dom (vals S);
  rel_hist p : keysizes_hist d p = hist_of (vals S) p + δ p;
}.

(** ** Running a handler *)

Definition runs {A} (c : cmd A) (σ : redisServer) (Q : A → redisServer → Prop) : Prop :=
  match c σ with Some (a, σ') => Q a σ' | None => False end.

(** The state as the specifications see it: what the database stands for and
    the replies sent so far. *)
Definition holds (δ : drift) (S : store) (rs : list redisReply) (σ : redisServer) : Prop :=
  db_rel δ (db σ) S ∧ reply σ = rs.

Lemma runs_ret {A} (a : A) σ Q : Q a σ → runs (mret a) σ Q.
Proof. done. Qed.

Lemma runs_bind {A B} (c : cmd A) (f : A → cmd B) σ Q :
  runs c σ (λ a σ', runs (f a) σ' Q) → runs (c ≫= f) σ Q.
Proof. unfold runs, mbind, cmd_bind. by destruct (c σ) as [[??]|]. Qed.

Lemma runs_mono {A} (c : cmd A) σ (Q Q' : A → redisServer → Prop) :
  runs c σ Q → (∀ a σ', Q a σ' → Q' a σ') → runs c σ Q'.
Proof. unfold runs. destruct (c σ) as [[??]|]; auto. Qed.

(** Use the specification of the first step of a handler. *)
Lemma runs_step {A B} (c : cmd A) (f : A → cmd B) σ (P : A → redisServer → Prop) Q :
  runs c σ P → (∀ a σ', P a σ' → runs (f a) σ' Q) → runs (c ≫= f) σ Q.
Proof. intros Hc Hf. apply runs_bind. eapply runs_mono; eauto. Qed.

(** One step of a handler, by its specification. *)
Tactic Notation "step" "by" tactic3(t) := eapply runs_step; [t|cbn beta].
Tactic Notation "finish" "by" tactic3(t) := eapply runs_mono; [t|cbn beta].

Lemma runs_lift {A} (o : option A) σ Q a : o = Some a → Q a σ → runs (lift o) σ Q.
Proof. by intros ->. Qed.

Lemma runs_assert b σ Q : b = true → Q tt σ → runs (serverAssert b) σ Q.
Proof. by intros ->. Qed.

Lemma runs_when b c σ (Q : unit → redisServer → Prop) :
  (b = true → runs c σ Q) → (b = false → Q tt σ) → runs (when b c) σ Q.
Proof. destruct b; cbn; auto. Qed.

(** ** The operations of a database *)

Lemma db_rel_ext δ δ' d S : (∀ p, δ p = δ' p) → db_rel δ d S → db_rel δ' d S.
Proof. intros Hδ []. split; auto. intros p. rewrite <- Hδ. auto. Qed.

Lemma holds_ext δ δ' S rs σ : (∀ p, δ p = δ' p) → holds δ S rs σ → holds δ' S rs σ.
Proof. intros Hδ [? ?]. split; eauto using db_rel_ext. Qed.

(** The same state up to the arithmetic of the drift. *)
Ltac drift :=
  match goal with
  | H : holds _ ?S _ ?σ |- holds _ ?S _ ?σ => eapply holds_ext; [|exact H]; intros ?; cbn; lia
  end.

Section operations.
Context (δ : drift) (S : store) (rs : list redisReply) (σ : redisServer).
Hypothesis Hσ : holds δ S rs σ.

Lemma runs_addReply r : runs (addReply r) σ (λ _, holds δ S (rs ++ [r])).
Proof using Hσ. destruct Hσ as [? <-]. by split. Qed.

Lemma runs_add_dirty n : runs (add_dirty n) σ (λ _, holds δ S rs).
Proof using Hσ. done. Qed.
Lemma runs_count_hit : runs count_hit σ (λ _, holds δ S rs).
Proof using Hσ. done. Qed.
Lemma runs_count_miss : runs count_miss σ (λ _, holds δ S rs).
Proof using Hσ. done. Qed.
Lemma runs_count_expired : runs count_expired σ (λ _, holds δ S rs).
Proof using Hσ. done. Qed.

Lemma runs_dbFind k :
  runs (dbFind k) σ (λ o σ', σ' = σ ∧ option_Forall2 obj_rel o (vals S !! k)).
Proof using Hσ. split; [done|]. apply Hσ. Qed.

Lemma runs_dict_set k o v :
  obj_rel o v →
  runs (dict_set k o) σ
    (λ _, holds (λ p, δ p + opt_bin (vals S !! k) p - val_bin v p) (put k v S) rs).
Proof using Hσ.
  intros Ho. destruct Hσ as [[Hv Ht Hd Hh] Hr]. split; [|done]. split; simpl.
  - intros k'. destruct (decide (k = k')) as [<-|Hne].
    + rewrite !lookup_insert_eq. by constructor.
    + by rewrite !lookup_insert_ne.
  - done.
  - set_solver.
  - intros p. rewrite Hh, hist_of_put. lia.
Qed.

Lemma runs_object_at k v :
  vals S !! k = Some v →
  runs (object_at k) σ (λ o σ', σ' = σ ∧ obj_rel o v).
Proof using Hσ.
  intros Hk. step by (apply runs_dbFind). intros o ? [-> Ho]. rewrite Hk in Ho.
  inversion Ho; subst. by eapply runs_lift.
Qed.

Lemma runs_hist_update t old new :
  runs (hist_update t old new) σ
    (λ _, holds (λ p, δ p - bin t old p + bin t new p) S rs).
Proof using Hσ.
  destruct Hσ as [[Hv Ht Hd Hh] Hr]. split; [|done]. split; try done. simpl. intros p.
  unfold bin. assert (∀ (h : obj_type * Z → Z) n by_,
    (if n =? 0 then h else <[(t, log2ceil n) := h (t, log2ceil n) + by_]> h) p =
    h p + by_ * (if n =? 0 then 0 else if decide (p = (t, log2ceil n)) then 1 else 0)) as Hb.
  { intros h n by_. destruct (n =? 0); [lia|]. destruct (decide (p = (t, log2ceil n))) as [->|Hne].
    - rewrite fn_lookup_insert. lia.
    - rewrite fn_lookup_insert_ne by done. lia. }
  rewrite !Hb, Hh. lia.
Qed.

Lemma runs_removeExpire k :
  runs (removeExpire k) σ
    (λ b σ', b = bool_decide (is_Some (ttls S !! k)) ∧ holds δ (persist k S) rs σ').
Proof using Hσ.
  destruct Hσ as [[Hv Ht Hd Hh] Hr]. split; [by rewrite Ht|]. split; [|done].
  split; simpl; auto; [by rewrite Ht|set_solver].
Qed.

Lemma runs_setExpire k t :
  is_Some (vals S !! k) → runs (setExpire k t) σ (λ _, holds δ (set_ttl k t S) rs).
Proof using Hσ.
  destruct Hσ as [[Hv Ht Hd Hh] Hr]. intros Hk. apply runs_bind. cbn. apply runs_bind.
  apply runs_assert.
  - apply bool_decide_eq_true_2. specialize (Hv k). destruct Hk as [v Hk]. rewrite Hk in Hv.
    by inversion Hv.
  - split; [|done]. split; simpl; auto; [by rewrite Ht|].
    apply elem_of_dom in Hk. set_solver.
Qed.

Lemma runs_delete k :
  ttls S !! k = None →
  runs (kvstoreDictDelete_keys k) σ
    (λ _, holds (λ p, δ p + opt_bin (vals S !! k) p) (remove k S) rs).
Proof using Hσ.
  destruct Hσ as [[Hv Ht Hd Hh] Hr]. intros Hk. split; [|done]. split; simpl.
  - intros k'. destruct (decide (k = k')) as [<-|Hne].
    + rewrite !lookup_delete_eq. constructor.
    + by rewrite !lookup_delete_ne.
  - by rewrite delete_id.
  - rewrite !dom_delete. set_solver.
  - intros p. rewrite Hh, hist_of_delete. lia.
Qed.

Lemma absent_ttl k : vals S !! k = None → ttls S !! k = None.
Proof using Hσ.
  destruct Hσ as [[_ _ Hd _] _]. intros Hk. apply not_elem_of_dom. apply not_elem_of_dom in Hk.
  set_solver.
Qed.

Lemma remove_absent k : vals S !! k = None → remove k S = S.
Proof using Hσ.
  intros Hk. unfold remove. rewrite !delete_id by (done || by apply absent_ttl). by destruct S.
Qed.
End operations.

(** ** Objects *)

Lemma sdigits10_length v : in_llong v → sdigits10 v = slen (pretty v).
Proof.
  intros Hv. unfold sdigits10, slen. destruct (Z.ltb_spec v 0).
  - assert ((if v =? LLONG_MIN then LLONG_MAX + 1 else - v) = - v) as ->.
    { destruct (Z.eqb_spec v LLONG_MIN) as [->|]; done. }
    rewrite digits10_length, (pretty_Z_neg v), (pretty_Z_nonneg (- v)) by ints. simpl. lia.
  - apply digits10_length. ints.
Qed.

Lemma str_rel_length o s : str_rel o s → stringObjectLen o = slen s.
Proof. destruct o; simpl; [by intros ->..|]. intros [? ->]. by apply sdigits10_length. Qed.

Lemma str_rel_text o s : str_rel o s → object_text o = s.
Proof. destruct o; simpl; [done..|]. intros [? ->]. by rewrite ll2string_pretty. Qed.

Lemma createStringObject_rel s : str_rel (createStringObject s) s.
Proof. unfold createStringObject. by case_match. Qed.

(** The integer encoding loses nothing: only canonical numerals have it. *)
Lemma tryObjectEncoding_rel E o s : str_rel o s → str_rel (tryObjectEncoding E o) s.
Proof.
  assert (∀ s v, (if slen s <=? 20 then string2l s else None) = Some v → in_llong v ∧ s = pretty v)
    as Hint.
  { intros s' v. case_match; [|done]. unfold string2l. case_match eqn:Hs; [|done].
    case_match; [done|]. intros [= <-]. by apply string2ll_spec. }
  destruct o as [p|p|b z]; cbn [str_rel tryObjectEncoding]; [intros ->..|done];
    (destruct (if slen s <=? 20 then string2l s else None) eqn:Hp;
      [by apply Hint|by destruct (slen s <=? OBJ_ENCODING_EMBSTR_SIZE_LIMIT)]).
Qed.

Lemma obj_rel_type o v : obj_rel o v → type_of o = val_type v.
Proof. by destruct o, v. Qed.

Lemma getObjectLength_rel o v :
  obj_rel o v → ∃ o', getObjectLength o = Some (val_len v, o') ∧ obj_rel o' v.
Proof.
  destruct o as [o|o], v as [s|X]; simpl; try done.
  - intros Ho. rewrite (str_rel_length o s Ho). eauto.
  - intros (o' & -> & Ho' & _)%setTypeSize_spec. eauto.
Qed.

(** ** Keys *)

(** Whether a key of the store is past its time. *)
Definition past_time (E : environ) (S : store) (k : string) : bool :=
  negb (loading E) &&
  match ttls S !! k with
  | Some t => (0 <=? t) && (t <? commandTimeSnapshot E)
  | None => false
  end.

Definition expired (E : environ) (S : store) (k : string) : bool :=
  negb (allow_access_expired E) && past_time E S k.

(** The store after a key has been looked up: an expired key is dropped. *)
Definition touch (E : environ) (S : store) (k : string) : store :=
  if expired E S k then remove k S else S.

Definition live (E : environ) (S : store) (k : string) : option aval := vals (touch E S k) !! k.

(** A master, whose expiry is not paused. *)
Definition active (E : environ) : Prop :=
  masterhost E = false ∧ expire_paused E = false ∧ proto_max_bulk_len E ≤ LLONG_MAX.

Lemma touch_touch E S k : touch E (touch E S k) k = touch E S k.
Proof.
  unfold touch at 1. destruct (expired E (touch E S k) k) eqn:H; [|done]. exfalso. revert H.
  unfold touch. destruct (expired E S k) eqn:H; [|congruence].
  unfold expired, past_time, remove. simpl. by rewrite lookup_delete_eq, !andb_false_r.
Qed.

Lemma live_touch E S k : live E (touch E S k) k = live E S k.
Proof. unfold live. by rewrite touch_touch. Qed.

Section keys.
Context (E : environ) (HE : active E).
Context (δ : drift) (S : store) (rs : list redisReply) (σ : redisServer).
Hypothesis Hσ : holds δ S rs σ.

Lemma put_same k v : vals S !! k = Some v → put k v S = S.
Proof using Type. clear. intros Hk. unfold put. rewrite insert_id by done. by destruct S. Qed.

Lemma runs_length_at k v :
  vals S !! k = Some v → runs (length_at k) σ (λ n σ', n = val_len v ∧ holds δ S rs σ').
Proof using Hσ.
  clear HE E. intros Hk. step by (by eapply runs_object_at). intros o ? [-> Ho].
  destruct (getObjectLength_rel o v Ho) as (o' & Hl & Ho').
  eapply runs_bind, runs_lift; [exact Hl|]. cbn beta iota.
  step by (by apply (runs_dict_set δ S rs)). intros _ σ' H.
  rewrite Hk, put_same in H by done. apply runs_ret. split; [done|]. drift.
Qed.

Lemma runs_set_at k X :
  vals S !! k = Some (ASet X) → runs (set_at k) σ (λ o σ', σ' = σ ∧ set_rel o X).
Proof using Hσ.
  clear HE E. intros Hk. step by (by eapply runs_object_at). intros [|o] ? [-> Ho]; done.
Qed.

Lemma keyIsExpired_past k : keyIsExpired E (db σ) k = past_time E S k.
Proof using Hσ.
  clear HE. destruct Hσ as [[_ Ht _ _] _]. unfold keyIsExpired, past_time, getExpire. rewrite Ht.
  destruct (loading E); [done|]. simpl. destruct (ttls S !! k) as [t|]; simpl; [|done].
  destruct (Z.ltb_spec t 0), (Z.leb_spec 0 t); try lia; done.
Qed.

Lemma bin_zero t p : bin t 0 p = 0.
Proof. done. Qed.

Lemma remove_persist k : remove k (persist k S) = remove k S.
Proof. unfold remove, persist. simpl. by rewrite delete_delete_eq. Qed.

Lemma runs_dbGenericDelete k :
  runs (dbGenericDelete k) σ
    (λ b σ', b = bool_decide (is_Some (vals S !! k)) ∧ holds δ (remove k S) rs σ').
Proof using Hσ.
  clear HE E. step by (by apply (runs_dbFind δ S rs)). intros o ? [-> Ho].
  destruct (vals S !! k) as [v|] eqn:Hk; inversion Ho as [? ? Hov|]; subst.
  - step by (by apply runs_length_at). intros n σ1 [-> H1].
    step by (by apply (runs_hist_update _ _ _ _ H1)). intros _ σ2 H2.
    step by (by apply (runs_removeExpire _ _ _ _ H2)). intros _ σ3 [_ H3].
    step by (apply (runs_delete _ _ _ _ H3); simpl; apply lookup_delete_eq). intros _ σ4 H4.
    apply runs_ret. split; [by rewrite bool_decide_eq_true_2|].
    rewrite remove_persist in H4. simpl in H4. rewrite Hk, (obj_rel_type _ _ Hov) in H4.
    eapply holds_ext; [|exact H4]. intros p. simpl. rewrite bin_zero. unfold val_bin. lia.
  - apply runs_ret. split; [done|]. by rewrite (remove_absent δ S rs σ).
Qed.

(** With flags that neither allow access nor avoid the deletion. *)
Lemma runs_expireIfNeeded k flags :
  has flags EXPIRE_ALLOW_ACCESS_EXPIRED = false → has flags EXPIRE_AVOID_DELETE_EXPIRED = false →
  runs (expireIfNeeded E k flags) σ
    (λ st σ', st = (if expired E S k then KEY_DELETED else KEY_VALID) ∧
      holds δ (touch E S k) rs σ').
Proof using HE Hσ.
  intros Ha Hd. destruct HE as (Hm & Hp & _). apply runs_bind. cbn. rewrite Ha, Hd, Hm, Hp.
  rewrite keyIsExpired_past by done. unfold touch, expired.
  destruct (allow_access_expired E); [by apply runs_ret|].
  destruct (past_time E S k); [|by apply runs_ret]. simpl.
  apply runs_bind. step by (apply runs_dbGenericDelete). intros _ σ1 [_ H1].
  finish by (by apply (runs_count_expired _ _ _ _ H1)). intros _ σ2 H2. by apply runs_ret.
Qed.

(** Looking up a key for the two uses the commands make of it. *)
Lemma runs_lookupKey k flags :
  has flags LOOKUP_ACCESS_EXPIRED = false → has flags LOOKUP_NOEXPIRE = false →
  runs (lookupKey E k flags) σ
    (λ o σ', option_Forall2 obj_rel o (live E S k) ∧ holds δ (touch E S k) rs σ').
Proof using HE Hσ.
  intros Ha Hd. step by (by apply (runs_dbFind δ S rs)). intros o ? [-> Ho].
  apply (runs_step _ _ _ (λ o σ', option_Forall2 obj_rel o (live E S k) ∧
    holds δ (touch E S k) rs σ')).
  - destruct o as [o|].
    + step by (apply runs_expireIfNeeded; unfold expire_flags_of; rewrite Ha, Hd; by case_match).
      intros st σ1 [-> H1]. apply runs_ret. split; [|done]. unfold live, touch.
      destruct (expired E S k); simpl; [rewrite lookup_delete_eq; constructor|done].
    + apply runs_ret. destruct (vals S !! k) as [v|] eqn:Hk; [by inversion Ho|].
      unfold live, touch, expired, past_time.
      rewrite (absent_ttl δ S rs σ), !andb_false_r, Hk by done. by split.
  - intros v σ1 [Hv H1]. apply (runs_step _ _ _ (λ _, holds δ (touch E S k) rs)).
    + apply runs_when; [|done]. intros _. by destruct v.
    + intros _ σ2 H2. by apply runs_ret.
Qed.

Lemma runs_lookupKeyWrite k :
  runs (lookupKeyWrite E k) σ
    (λ o σ', option_Forall2 obj_rel o (live E S k) ∧ holds δ (touch E S k) rs σ').
Proof using HE Hσ. by apply runs_lookupKey. Qed.

Lemma runs_lookupKeyReadWithFlags k flags :
  has flags LOOKUP_WRITE = false →
  has flags LOOKUP_ACCESS_EXPIRED = false → has flags LOOKUP_NOEXPIRE = false →
  runs (lookupKeyReadWithFlags E k flags) σ
    (λ o σ', option_Forall2 obj_rel o (live E S k) ∧ holds δ (touch E S k) rs σ').
Proof using HE Hσ.
  intros Hw Ha Hn. apply runs_bind, runs_assert; [by rewrite Hw|]. by apply runs_lookupKey.
Qed.

Lemma runs_lookupKeyRead k :
  runs (lookupKeyRead E k) σ
    (λ o σ', option_Forall2 obj_rel o (live E S k) ∧ holds δ (touch E S k) rs σ').
Proof using HE Hσ. by apply runs_lookupKeyReadWithFlags. Qed.

Lemma runs_lookupKeyReadOrReply k r :
  runs (lookupKeyReadOrReply E k r) σ (λ o σ', option_Forall2 obj_rel o (live E S k) ∧
    holds δ (touch E S k) (match live E S k with Some _ => rs | None => rs ++ [r] end) σ').
Proof using HE Hσ.
  step by (apply runs_lookupKeyRead). intros o σ1 [Ho H1].
  destruct (live E S k) as [v|]; inversion Ho; subst; [by apply runs_ret|].
  step by (by apply (runs_addReply _ _ _ _ H1)). intros _ σ2 H2. by apply runs_ret.
Qed.

Lemma runs_lookupKeyWriteOrReply k r :
  runs (lookupKeyWriteOrReply E k r) σ (λ o σ', option_Forall2 obj_rel o (live E S k) ∧
    holds δ (touch E S k) (match live E S k with Some _ => rs | None => rs ++ [r] end) σ').
Proof using HE Hσ.
  step by (apply runs_lookupKeyWrite). intros o σ1 [Ho H1].
  destruct (live E S k) as [v|]; inversion Ho; subst; [by apply runs_ret|].
  step by (by apply (runs_addReply _ _ _ _ H1)). intros _ σ2 H2. by apply runs_ret.
Qed.
End keys.

(** *** Types *)

Section types.
Context (δ : drift) (S : store) (rs : list redisReply) (σ : redisServer).
Hypothesis Hσ : holds δ S rs σ.

Lemma runs_checkType o v t :
  obj_rel o v →
  runs (checkType (Some o) t) σ (λ b σ', b = bool_decide (val_type v ≠ t) ∧
    holds δ S (if decide (val_type v = t) then rs else rs ++ [RError wrongtypeerr]) σ').
Proof using Hσ.
  intros Ho. unfold checkType. rewrite (obj_rel_type o v Ho). case_decide.
  - apply runs_ret. split; [|done]. symmetry. by apply bool_decide_eq_false_2; intros [].
  - step by (by apply (runs_addReply δ S rs)). intros _ σ1 H1. apply runs_ret.
    split; [|done]. symmetry. by apply bool_decide_eq_true_2.
Qed.

End types.

(** *** Writing *)

Section writing.
Context (δ : drift) (S : store) (rs : list redisReply) (σ : redisServer).
Hypothesis Hσ : holds δ S rs σ.

Lemma runs_dbAdd k o v :
  obj_rel o v → vals S !! k = None → runs (dbAdd k o) σ (λ _, holds δ (put k v S) rs).
Proof using Hσ.
  intros Ho Hk. step by (by apply (runs_dbFind δ S rs)). intros o' ? [-> Ho'].
  rewrite Hk in Ho'. inversion Ho'; subst.
  step by (by apply (runs_dict_set δ S rs)). intros _ σ1 H1.
  step by (apply (runs_length_at _ _ _ _ H1); simpl; apply lookup_insert_eq). intros n σ2 [-> H2].
  finish by (by apply (runs_hist_update _ _ _ _ H2)). intros _ σ3 H3.
  eapply holds_ext; [|exact H3]. intros p. simpl.
  rewrite Hk, bin_zero, (obj_rel_type _ _ Ho). unfold val_bin. simpl. lia.
Qed.

Lemma runs_dbSetValue k o v :
  obj_rel o v → is_Some (vals S !! k) → runs (dbSetValue k o) σ (λ _, holds δ (put k v S) rs).
Proof using Hσ.
  intros Ho [w Hk]. step by (by apply (runs_object_at δ S rs)). intros old ? [-> Hold].
  step by (by apply (runs_length_at δ S rs)). intros n σ1 [-> H1].
  step by (by apply (runs_hist_update _ _ _ _ H1)). intros _ σ2 H2.
  step by (by apply (runs_dict_set _ _ _ _ H2)). intros _ σ3 H3.
  step by (apply (runs_length_at _ _ _ _ H3); simpl; apply lookup_insert_eq). intros n σ4 [-> H4].
  finish by (by apply (runs_hist_update _ _ _ _ H4)). intros _ σ5 H5.
  eapply holds_ext; [|exact H5]. intros p. simpl.
  rewrite Hk, !bin_zero, (obj_rel_type _ _ Ho), (obj_rel_type _ _ Hold).
  cbn [opt_bin]. unfold val_bin. lia.
Qed.

Lemma runs_dbAddInternal k o v :
  obj_rel o v → runs (dbAddInternal k o true) σ (λ _, holds δ (put k v S) rs).
Proof using Hσ.
  intros Ho. destruct (vals S !! k) as [w|] eqn:Hk.
  - step by (by apply (runs_dbFind δ S rs)). intros o' ? [-> Ho']. rewrite Hk in Ho'.
    inversion Ho'; subst. apply runs_dbSetValue; eauto.
  - assert (∀ Q, runs (dbAdd k o) σ Q → runs (dbAddInternal k o true) σ Q) as Hadd.
    { intros Q. unfold dbAdd, dbAddInternal, runs, mbind, cmd_bind. simpl.
      by destruct (keys (db σ) !! k). }
    by apply Hadd, runs_dbAdd.
Qed.
End writing.

(** *** Setting a key *)

(** The store after [setKey]. *)
Definition overwrite (flags : Z) (k : string) (v : aval) (S : store) : store :=
  if has flags SETKEY_KEEPTTL then put k v S else persist k (put k v S).

Lemma runs_finish_setKey δ S rs flags k v σ' :
  holds δ (put k v S) rs σ' →
  runs (when (negb (has flags SETKEY_KEEPTTL)) (removeExpire k;; mret tt)) σ'
    (λ _, holds δ (overwrite flags k v S) rs).
Proof.
  intros H. unfold overwrite. apply runs_when; intros Hf.
  - step by (by apply (runs_removeExpire _ _ _ _ H)). intros b σ1 [_ H1]. apply runs_ret.
    by destruct (has flags SETKEY_KEEPTTL).
  - by destruct (has flags SETKEY_KEEPTTL).
Qed.

Section set_key.
Context (E : environ) (HE : active E).
Context (δ : drift) (S : store) (rs : list redisReply) (σ : redisServer).
Hypothesis Hσ : holds δ S rs σ.

Lemma put_touch k v : put k v (persist k (touch E S k)) = put k v (persist k S).
Proof.
  unfold touch. destruct (expired E S k); [|done]. unfold put, persist, remove. simpl.
  by rewrite insert_delete_eq, delete_delete_eq.
Qed.

(** After a lookup the presence of the key is known. *)
Lemma runs_setKey_known k o v flags :
  obj_rel o v →
  (if has flags SETKEY_ALREADY_EXIST then is_Some (vals S !! k)
   else has flags SETKEY_ADD_OR_UPDATE = false ∧
        has flags SETKEY_DOESNT_EXIST = true ∧ vals S !! k = None) →
  runs (setKey E k o flags) σ (λ _, holds δ (overwrite flags k v S) rs).
Proof using Hσ.
  clear HE. intros Ho Hf. unfold setKey. destruct (has flags SETKEY_ALREADY_EXIST).
  - apply runs_bind, runs_ret. cbn [Z.eqb Z.ltb Z.compare].
    step by (by apply (runs_dbSetValue δ S rs)). intros _ σ1 H1. by apply runs_finish_setKey.
  - destruct Hf as (-> & -> & Hk). apply runs_bind, runs_ret. cbn [Z.eqb].
    step by (by apply (runs_dbAdd δ S rs)). intros _ σ1 H1. by apply runs_finish_setKey.
Qed.

Lemma runs_setKey k o v :
  obj_rel o v → runs (setKey E k o 0) σ (λ _, holds δ (put k v (persist k S)) rs).
Proof using HE Hσ.
  intros Ho. rewrite <- put_touch. unfold setKey.
  apply runs_bind. step by (by apply (runs_lookupKeyWrite E HE δ S rs)).
  intros o' σ1 [Ho' H1]. apply runs_ret. unfold live in Ho'.
  apply (runs_step _ _ _ (λ _, holds δ (put k v (touch E S k)) rs)).
  - destruct o' as [o'|]; inversion Ho'; subst.
    + by apply (runs_dbSetValue _ _ _ _ H1).
    + by apply (runs_dbAdd _ _ _ _ H1).
  - intros _ σ2 H2. by apply (runs_finish_setKey δ (touch E S k) rs 0 k v).
Qed.

Lemma runs_setKey_update k o v :
  obj_rel o v →
  runs (setKey E k o SETKEY_ADD_OR_UPDATE) σ (λ _, holds δ (put k v (persist k S)) rs).
Proof using Hσ.
  clear HE. intros Ho. unfold setKey. apply runs_bind, runs_ret. cbn [Z.eqb Z.ltb Z.compare].
  step by (by apply (runs_dbAddInternal δ S rs)). intros _ σ1 H1.
  by apply (runs_finish_setKey δ S rs SETKEY_ADD_OR_UPDATE k v).
Qed.
End set_key.

(** ** A server that has just started *)

Definition no_data : store := mkStore ∅ ∅.
Definition no_drift : drift := λ _, 0.

Definition plain_server : redisServer := mkServer (mkDb ∅ ∅ (λ _, 0)) [] 0 0 0 0.

(** Surroundings to evaluate the model in. *)
Definition plain_env : environ :=
  mkEnv small_limits 536870912 true (λ _, 0) elements false false false true false 1700000000000.

Lemma plain_active : active plain_env.
Proof. done. Qed.

Lemma plain_server_rel : holds no_drift no_data [] plain_server.
Proof.
  split; [|done]. split; cbn.
  - intros k. rewrite !lookup_empty. constructor.
  - done.
  - set_solver.
  - intros p. unfold hist_of. by rewrite map_fold_empty.
Qed.
