(* ===== verification/Strings.v ===== *)
(** * String commands

    src/redis/src/t_string.c: [SET] with all its options, [SETNX], [SETEX],
    [PSETEX], [GET], [GETEX], [GETDEL], [GETSET], [MSET], [MSETNX], [INCR] and its
    variants, [APPEND], [STRLEN], [SETRANGE] and [GETRANGE].  The rewriting of the
    arguments for replication leaves no trace in the model. *)

From S2P Require Import Prelude CLib Hiredis ServerSpec Util Glob SetType Db.

(** ** Flags *)

Definition OBJ_NO_FLAGS : Z := 0.
Definition OBJ_SET_NX : Z := 1.
Definition OBJ_SET_XX : Z := 2.
Definition OBJ_EX : Z := 4.
Definition OBJ_PX : Z := 8.
Definition OBJ_KEEPTTL : Z := 16.
Definition OBJ_SET_GET : Z := 32.
Definition OBJ_EXAT : Z := 64.
Definition OBJ_PXAT : Z := 128.
Definition OBJ_PERSIST : Z := 256.

Inductive time_unit : Set := UNIT_SECONDS | UNIT_MILLISECONDS.
Inductive command_type : Set := COMMAND_GET | COMMAND_SET.

#[export] Instance time_unit_eq_dec : EqDecision time_unit.
Proof. solve_decision. Defined.
#[export] Instance command_type_eq_dec : EqDecision command_type.
Proof. solve_decision. Defined.

(** None of the flags is set. *)
Definition lacks (flags : Z) (Fs : list Z) : bool := forallb (λ F, negb (has flags F)) Fs.

(** The options after the key and the value: the flags, the unit, the expiry
    argument, or a syntax error. *)
Fixpoint parse_options (command : command_type) (flags : Z) (unit : time_unit)
    (expire : option string) (args : list string) : option (Z * time_unit * option string) :=
  match args with
  | [] => Some (flags, unit, expire)
  | opt :: args' =>
      let is_set := bool_decide (command = COMMAND_SET) in
      let is_get := bool_decide (command = COMMAND_GET) in
      if strcaseeq opt "nx" && lacks flags [OBJ_SET_XX] && is_set
      then parse_options command (Z.lor flags OBJ_SET_NX) unit expire args'
      else if strcaseeq opt "xx" && lacks flags [OBJ_SET_NX] && is_set
      then parse_options command (Z.lor flags OBJ_SET_XX) unit expire args'
      else if strcaseeq opt "get" && is_set
      then parse_options command (Z.lor flags OBJ_SET_GET) unit expire args'
      else if strcaseeq opt "keepttl" &&
              lacks flags [OBJ_PERSIST; OBJ_EX; OBJ_EXAT; OBJ_PX; OBJ_PXAT] && is_set
      then parse_options command (Z.lor flags OBJ_KEEPTTL) unit expire args'
      else if strcaseeq opt "persist" && is_get &&
              lacks flags [OBJ_EX; OBJ_EXAT; OBJ_PX; OBJ_PXAT; OBJ_KEEPTTL]
      then parse_options command (Z.lor flags OBJ_PERSIST) unit expire args'
      else
        match args' with
        | next :: args'' =>
            if strcaseeq opt "ex" &&
               lacks flags [OBJ_KEEPTTL; OBJ_PERSIST; OBJ_EXAT; OBJ_PX; OBJ_PXAT]
            then parse_options command (Z.lor flags OBJ_EX) unit (Some next) args''
            else if strcaseeq opt "px" &&
                    lacks flags [OBJ_KEEPTTL; OBJ_PERSIST; OBJ_EX; OBJ_EXAT; OBJ_PXAT]
            then parse_options command (Z.lor flags OBJ_PX) UNIT_MILLISECONDS (Some next) args''
            else if strcaseeq opt "exat" &&
                    lacks flags [OBJ_KEEPTTL; OBJ_PERSIST; OBJ_EX; OBJ_PX; OBJ_PXAT]
            then parse_options command (Z.lor flags OBJ_EXAT) unit (Some next) args''
            else if strcaseeq opt "pxat" &&
                    lacks flags [OBJ_KEEPTTL; OBJ_PERSIST; OBJ_EX; OBJ_EXAT; OBJ_PX]
            then parse_options command (Z.lor flags OBJ_PXAT) UNIT_MILLISECONDS (Some next) args''
            else None
        | [] => None
        end
  end.

Definition syntaxerr : string := "ERR syntax error".

(** [None] after the error has been sent. *)
Definition parseExtendedStringArgumentsOrReply (argv : list string) (command : command_type) :
    cmd (option (Z * time_unit * option string)) :=
  let j := match command with COMMAND_GET => 2%nat | COMMAND_SET => 3%nat end in
  match parse_options command OBJ_NO_FLAGS UNIT_SECONDS None (drop j argv) with
  | Some r => mret (Some r)
  | None => addReply (RError syntaxerr);; mret None
  end.

(** ** Arguments that are numbers *)

(** [getLongLongFromObjectOrReply] on an argument. *)
Definition getLongLongFromObjectOrReply (o : string) (msg : option string) : cmd (option Z) :=
  match string2ll o with
  | Some value => mret (Some value)
  | None =>
      addReplyError (default "value is not an integer or out of range" msg);; mret None
  end.

(** A [long] and a [long long] have the same range. *)
Definition getLongFromObjectOrReply (o : string) (msg : option string) : cmd (option Z) :=
  v ← getLongLongFromObjectOrReply o msg;
  match v with
  | None => mret None
  | Some value =>
      if (value <? LLONG_MIN) || (LLONG_MAX <? value) then
        addReplyError (default "value is out of range" msg);; mret None
      else mret (Some value)
  end.

Definition getRangeLongFromObjectOrReply (o : string) (min max : Z) (msg : string) :
    cmd (option Z) :=
  v ← getLongFromObjectOrReply o (Some msg);
  match v with
  | None => mret None
  | Some value =>
      if (value <? min) || (max <? value) then addReplyError msg;; mret None
      else mret (Some value)
  end.

Definition addReplyErrorExpireTime (fullname : string) : cmd unit :=
  addReplyError ("invalid expire time in '" +:+ fullname +:+ "' command").

(** The addition of the time wraps around. *)
Definition expire_milliseconds (now flags : Z) (unit : time_unit) (v : Z) : option Z :=
  if (v <=? 0) || (bool_decide (unit = UNIT_SECONDS) && (LLONG_MAX / 1000 <? v)) then None
  else
    let v := if bool_decide (unit = UNIT_SECONDS) then v * 1000 else v in
    let v := if has flags OBJ_PX || has flags OBJ_EX then wrap_s 64 (v + now) else v in
    if v <=? 0 then None else Some v.

Section strings.
Context (server : environ) (fullname : string).

Definition getExpireMillisecondsOrReply (expire : string) (flags : Z) (unit : time_unit) :
    cmd (option Z) :=
  v ← getLongLongFromObjectOrReply expire None;
  match v with
  | None => mret None
  | Some v =>
      match expire_milliseconds (commandTimeSnapshot server) flags unit v with
      | Some ms => mret (Some ms)
      | None => addReplyErrorExpireTime fullname;; mret None
      end
  end.

(** ** GET *)

(** [false] is [C_ERR]. *)
Definition getGenericCommand (argv : list string) : cmd bool :=
  key ← lift (argv !! 1%nat);
  o ← lookupKeyReadOrReply server key RNil;
  match o with
  | None => mret true
  | Some o =>
      wrong ← checkType (Some o) OBJ_STRING;
      match wrong, o with
      | false, OString s => addReply (RString (object_text s));; mret true
      | _, _ => mret false
      end
  end.

Definition getCommand (argv : list string) : cmd unit := getGenericCommand argv;; mret tt.

(** ** SET *)

Definition setGenericCommand (argv : list string) (flags : Z) (key : string) (val : str_obj)
    (expire : option string) (unit : time_unit) (ok_reply abort_reply : redisReply) : cmd () :=
  milliseconds ←
    (match expire with
     | Some e => getExpireMillisecondsOrReply e flags unit
     | None => mret (Some 0)
     end);
  match milliseconds with
  | None => mret tt
  | Some milliseconds =>
      continue ← (if has flags OBJ_SET_GET then getGenericCommand argv else mret true);
      if negb continue then mret tt else
      de ← lookupKeyWrite server key;
      let found := bool_decide (is_Some de) in
      if (has flags OBJ_SET_NX && found) || (has flags OBJ_SET_XX && negb found) then
        when (negb (has flags OBJ_SET_GET)) (addReply abort_reply)
      else
        let expiring := bool_decide (is_Some expire) in
        let setkey_flags :=
          Z.lor (if has flags OBJ_KEEPTTL || expiring then SETKEY_KEEPTTL else 0)
                (if found then SETKEY_ALREADY_EXIST else SETKEY_DOESNT_EXIST) in
        setKey server key (OString val) setkey_flags;;
        add_dirty 1;;
        when expiring (setExpire key milliseconds);;
        when (negb (has flags OBJ_SET_GET)) (addReply ok_reply)
  end.

Definition ok : redisReply := RStatus "OK".

Definition setCommand (argv : list string) : cmd () :=
  opts ← parseExtendedStringArgumentsOrReply argv COMMAND_SET;
  match opts with
  | None => mret tt
  | Some (flags, unit, expire) =>
      key ← lift (argv !! 1%nat);
      val ← lift (argv !! 2%nat);
      setGenericCommand argv flags key (tryObjectEncoding server (createStringObject val)) expire unit
        ok RNil
  end.

Definition setnxCommand (argv : list string) : cmd () :=
  key ← lift (argv !! 1%nat);
  val ← lift (argv !! 2%nat);
  setGenericCommand argv OBJ_SET_NX key (tryObjectEncoding server (createStringObject val)) None
    UNIT_SECONDS (RInteger 1) (RInteger 0).

Definition setexCommand (argv : list string) : cmd () :=
  key ← lift (argv !! 1%nat);
  expire ← lift (argv !! 2%nat);
  val ← lift (argv !! 3%nat);
  setGenericCommand argv OBJ_EX key (tryObjectEncoding server (createStringObject val)) (Some expire)
    UNIT_SECONDS ok RNil.

Definition psetexCommand (argv : list string) : cmd () :=
  key ← lift (argv !! 1%nat);
  expire ← lift (argv !! 2%nat);
  val ← lift (argv !! 3%nat);
  setGenericCommand argv OBJ_PX key (tryObjectEncoding server (createStringObject val)) (Some expire)
    UNIT_MILLISECONDS ok RNil.

(** ** GETEX, GETDEL, GETSET *)

Definition checkAlreadyExpired (when : Z) : bool :=
  (when <=? commandTimeSnapshot server) && negb (loading server) && negb (masterhost server).

(** The expiry of a key that has just been read. *)
Definition getex_expire (key : string) (flags : Z) (expire : option string) (milliseconds : Z) :
    cmd () :=
  if (has flags OBJ_PXAT || has flags OBJ_EXAT) && checkAlreadyExpired milliseconds then
    deleted ← dbGenericDelete key;
    serverAssert deleted;;
    add_dirty 1
  else match expire with
  | Some _ => setExpire key milliseconds;; add_dirty 1
  | None =>
      when (has flags OBJ_PERSIST)
        (removed ← removeExpire key; when removed (add_dirty 1))
  end.

Definition getexCommand (argv : list string) : cmd () :=
  opts ← parseExtendedStringArgumentsOrReply argv COMMAND_GET;
  match opts with
  | None => mret tt
  | Some (flags, unit, expire) =>
      key ← lift (argv !! 1%nat);
      o ← lookupKeyReadOrReply server key RNil;
      match o with
      | None => mret tt
      | Some o =>
          wrong ← checkType (Some o) OBJ_STRING;
          match wrong, o with
          | false, OString s =>
              milliseconds ←
                (match expire with
                 | Some e => getExpireMillisecondsOrReply e flags unit
                 | None => mret (Some 0)
                 end);
              match milliseconds with
              | None => mret tt
              | Some milliseconds =>
                  addReply (RString (object_text s));;
                  getex_expire key flags expire milliseconds
              end
          | _, _ => mret tt
          end
      end
  end.

Definition getdelCommand (argv : list string) : cmd () :=
  continue ← getGenericCommand argv;
  if negb continue then mret tt else
  key ← lift (argv !! 1%nat);
  deleted ← dbGenericDelete key;
  when deleted (add_dirty 1).

Definition getsetCommand (argv : list string) : cmd () :=
  continue ← getGenericCommand argv;
  if negb continue then mret tt else
  key ← lift (argv !! 1%nat);
  val ← lift (argv !! 2%nat);
  setKey server key (OString (tryObjectEncoding server (createStringObject val))) 0;;
  add_dirty 1.
(** ** Several keys at once *)

(** The arguments two by two; [None] when one is left over. *)
Fixpoint pairs (args : list string) : option (list (string * string)) :=
  match args with
  | [] => Some []
  | [_] => None
  | k :: v :: args => cons (k, v) <$> pairs args
  end.

(** Whether one of the keys exists; the keys after it are not looked at. *)
Fixpoint any_exists (ks : list string) : cmd bool :=
  match ks with
  | [] => mret false
  | k :: ks =>
      o ← lookupKeyWrite server k;
      match o with Some _ => mret true | None => any_exists ks end
  end.

(** The loop with the flags, which change after the first key of [MSETNX]. *)
Fixpoint set_pairs (nx : bool) (setkey_flags : Z) (kvs : list (string * string)) : cmd () :=
  match kvs with
  | [] => mret tt
  | (k, v) :: kvs =>
      setKey server k (OString (tryObjectEncoding server (createStringObject v))) setkey_flags;;
      set_pairs nx (if nx then SETKEY_ADD_OR_UPDATE else setkey_flags) kvs
  end.

Definition msetGenericCommand (argv : list string) (nx : bool) : cmd () :=
  match pairs (drop 1 argv) with
  | None => addReplyError ("wrong number of arguments for '" +:+ fullname +:+ "' command")
  | Some kvs =>
      exists_ ← (if nx then any_exists (kvs.*1) else mret false);
      if exists_ : bool then addReply (RInteger 0) else
      set_pairs nx (if nx then SETKEY_DOESNT_EXIST else 0) kvs;;
      add_dirty (Z.of_nat (length kvs));;
      addReply (if nx then RInteger 1 else ok)
  end.

Definition msetCommand (argv : list string) : cmd () := msetGenericCommand argv false.
Definition msetnxCommand (argv : list string) : cmd () := msetGenericCommand argv true.

(** ** Numbers *)

(** [getLongLongFromObjectOrReply] on a stored object, or on NULL. *)
Definition number_of (o : option str_obj) : cmd (option Z) :=
  match o with
  | None => mret (Some 0)
  | Some (EncInt _ value) => mret (Some value)
  | Some (EncRaw s) | Some (EncEmbstr s) => getLongLongFromObjectOrReply s None
  end.

(** The string object a lookup found, when it is one. *)
Definition as_string (o : option robj) : option str_obj :=
  match o with Some (OString s) => Some s | _ => None end.

Definition would_overflow (oldvalue incr : Z) : bool :=
  ((incr <? 0) && (oldvalue <? 0) && (incr <? LLONG_MIN - oldvalue)) ||
  ((0 <? incr) && (0 <? oldvalue) && (LLONG_MAX - oldvalue <? incr)).

(** The object can be changed in place. *)
Definition in_place (o : option str_obj) (value : Z) : bool :=
  match o with
  | Some (EncInt false _) =>
      ((value <? 0) || (OBJ_SHARED_INTEGERS <=? value)) &&
      (LLONG_MIN <=? value) && (value <=? LLONG_MAX)
  | _ => false
  end.

Definition incrDecrCommand (argv : list string) (incr : Z) : cmd () :=
  key ← lift (argv !! 1%nat);
  o ← lookupKeyWrite server key;
  wrong ← checkType o OBJ_STRING;
  if wrong : bool then mret tt else
  let s := as_string o in
  v ← number_of s;
  match v with
  | None => mret tt
  | Some oldvalue =>
      if would_overflow oldvalue incr then
        addReplyError "increment or decrement would overflow"
      else
        let value := oldvalue + incr in
        (if in_place s value then dict_set key (OString (EncInt false value))
         else
           let new := OString (createStringObjectFromLongLongForValue server value) in
           match o with Some _ => dbSetValue key new | None => dbAdd key new end);;
        add_dirty 1;;
        addReply (RInteger value)
  end.

Definition incrCommand (argv : list string) : cmd () := incrDecrCommand argv 1.
Definition decrCommand (argv : list string) : cmd () := incrDecrCommand argv (-1).

Definition incrbyCommand (argv : list string) : cmd () :=
  arg ← lift (argv !! 2%nat);
  v ← getLongLongFromObjectOrReply arg None;
  match v with None => mret tt | Some incr => incrDecrCommand argv incr end.

Definition decrbyCommand (argv : list string) : cmd () :=
  arg ← lift (argv !! 2%nat);
  v ← getLongLongFromObjectOrReply arg None;
  match v with
  | None => mret tt
  | Some incr =>
      if incr =? LLONG_MIN then addReplyError "decrement would overflow"
      else incrDecrCommand argv (- incr)
  end.

(** ** Parts of a string *)

(** [false] is [C_ERR]. *)
Definition checkStringLength (size append : Z) : cmd bool :=
  let total := wrap_s 64 (size + append) in
  if (proto_max_bulk_len server <? total) || (total <? size) || (total <? append) then
    addReplyError "string exceeds maximum allowed size (proto-max-bulk-len)";; mret false
  else mret true.

(** A private copy that can be changed, and its contents. *)
Definition dbUnshareStringValue (key : string) (o : str_obj) : cmd string :=
  match o with
  | EncRaw s => mret s
  | _ => dbSetValue key (OString (EncRaw (object_text o)));; mret (object_text o)
  end.

Definition appendCommand (argv : list string) : cmd () :=
  key ← lift (argv !! 1%nat);
  value ← lift (argv !! 2%nat);
  o ← lookupKeyWrite server key;
  r ← (match o with
       | None =>
           let val := tryObjectEncoding server (createStringObject value) in
           dbAdd key (OString val);;
           mret (Some (stringObjectLen val, stringObjectLen val))
       | Some o =>
           wrong ← checkType (Some o) OBJ_STRING;
           match wrong, o with
           | false, OString s =>
               fits ← checkStringLength (stringObjectLen s) (slen value);
               if negb fits then mret None else
               old ← dbUnshareStringValue key s;
               dict_set key (OString (EncRaw (old +:+ value)));;
               mret (Some (slen (old +:+ value), slen value))
           | _, _ => mret None
           end
       end);
  match r with
  | None => mret tt
  | Some (totlen, append_len) =>
      add_dirty 1;;
      hist_update OBJ_STRING (totlen - append_len) totlen;;
      addReply (RInteger totlen)
  end.

Definition strlenCommand (argv : list string) : cmd () :=
  key ← lift (argv !! 1%nat);
  o ← lookupKeyReadOrReply server key (RInteger 0);
  match o with
  | None => mret tt
  | Some o =>
      wrong ← checkType (Some o) OBJ_STRING;
      match wrong, o with
      | false, OString s => addReply (RInteger (stringObjectLen s))
      | _, _ => mret tt
      end
  end.

(** [n] zero bytes. *)
Definition zeros (n : nat) : string := Nat.iter n (String NUL) "".

(** [sdsgrowzero], and the copy of [value] to [offset]. *)
Definition sdsgrowzero (s : string) (len : nat) : string := s +:+ zeros (len - String.length s).

Definition write_range (s : string) (offset : nat) (value : string) : string :=
  let s := sdsgrowzero s (offset + String.length value) in
  String.substring 0 offset s +:+ value +:+
  String.substring (offset + String.length value)
    (String.length s - (offset + String.length value)) s.

Definition setrangeCommand (argv : list string) : cmd () :=
  key ← lift (argv !! 1%nat);
  arg ← lift (argv !! 2%nat);
  value ← lift (argv !! 3%nat);
  off ← getLongFromObjectOrReply arg None;
  match off with
  | None => mret tt
  | Some offset =>
      if offset <? 0 then addReplyError "offset is out of range" else
      o ← lookupKeyWrite server key;
      r ← (match o with
           | None =>
               if slen value =? 0 then addReply (RInteger 0);; mret None else
               fits ← checkStringLength offset (slen value);
               if negb fits then mret None else
               let s := zeros (Z.to_nat (offset + slen value)) in
               dbAdd key (OString (EncRaw s));;
               mret (Some (0, s))
           | Some o =>
               wrong ← checkType (Some o) OBJ_STRING;
               match wrong, o with
               | false, OString s =>
                   let oldLen := stringObjectLen s in
                   if slen value =? 0 then addReply (RInteger oldLen);; mret None else
                   fits ← checkStringLength offset (slen value);
                   if negb fits then mret None else
                   old ← dbUnshareStringValue key s;
                   mret (Some (oldLen, old))
               | _, _ => mret None
               end
           end);
      match r with
      | None => mret tt
      | Some (oldLen, s) =>
          let s' := write_range s (Z.to_nat offset) value in
          dict_set key (OString (EncRaw s'));;
          add_dirty 1;;
          hist_update OBJ_STRING oldLen (slen s');;
          addReply (RInteger (slen s'))
      end
  end.

(** The bytes from [start] to [end], both counted from the end when negative. *)
Definition getrange_bytes (str : string) (start end_ : Z) : string :=
  let strlen := slen str in
  let start := if start <? 0 then start + strlen else start in
  let end_ := if end_ <? 0 then end_ + strlen else end_ in
  if (strlen =? 0) || (strlen <=? start) || (end_ <? 0) || (end_ <? start) then ""
  else
    let start := if start <? 0 then 0 else start in
    let end_ := if strlen <=? end_ then strlen - 1 else end_ in
    String.substring (Z.to_nat start) (Z.to_nat (end_ - start + 1)) str.

Definition getrangeCommand (argv : list string) : cmd () :=
  key ← lift (argv !! 1%nat);
  start ← lift (argv !! 2%nat);
  end_ ← lift (argv !! 3%nat);
  s ← getLongLongFromObjectOrReply start None;
  match s with
  | None => mret tt
  | Some start =>
      e ← getLongLongFromObjectOrReply end_ None;
      match e with
      | None => mret tt
      | Some end_ =>
          o ← lookupKeyReadOrReply server key (RString "");
          match o with
          | None => mret tt
          | Some o =>
              wrong ← checkType (Some o) OBJ_STRING;
              match wrong, o with
              | false, OString s => addReply (RString (getrange_bytes (object_text s) start end_))
              | _, _ => mret tt
              end
          end
      end
  end.
End strings.
