(* ===== verification/StringsSpec.v ===== *)
(** * The string commands implement a store

    Each string command of a master is a function on the store of [DbRel] and
    a reply: the reference definitions below.  The commands are shown to run
    without a failed assertion and to agree with them, the histogram of key
    sizes included: it stays correct but for [APPEND], [SETRANGE] and [INCR],
    whose drift is stated exactly. *)

From S2P Require Import Prelude CLib Hiredis ServerSpec Util Glob SetType Db DbRel Strings.

(** ** What the commands do to a store *)

(** The expiry a command asks for: an error, or a time if there is one. *)
Definition asked_expire (E : environ) (fullname : string) (flags : Z) (unit : time_unit)
    (expire : option string) : string + option Z :=
  match expire with
  | None => inr None
  | Some e =>
      match string2ll e with
      | None => inl "ERR value is not an integer or out of range"
      | Some v =>
          match expire_milliseconds (commandTimeSnapshot E) flags unit v with
          | None => inl ("ERR invalid expire time in '" +:+ fullname +:+ "' command")
          | Some ms => inr (Some ms)
          end
      end
  end.

(** [SET] is refused by [NX] and [XX]. *)
Definition refused (flags : Z) (old : option aval) : bool :=
  (has flags OBJ_SET_NX && bool_decide (is_Some old)) ||
  (has flags OBJ_SET_XX && negb (bool_decide (is_Some old))).

Definition set_store (E : environ) (flags : Z) (k v : string) (ms : option Z) (S : store) : store :=
  if refused flags (live E S k) then touch E S k
  else
    let S' := put k (AStr v) (touch E S k) in
    match ms with
    | Some t => set_ttl k t S'
    | None => if has flags OBJ_KEEPTTL then S' else persist k S'
    end.

Definition set_reply (E : environ) (flags : Z) (k : string) (S : store)
    (ok_reply abort_reply : redisReply) : redisReply :=
  if has flags OBJ_SET_GET then get_reply (live E S k)
  else if refused flags (live E S k) then abort_reply else ok_reply.

(** With [GET], a value that is not a string stops the command. *)
Definition set_stopped (E : environ) (flags : Z) (k : string) (S : store) : bool :=
  has flags OBJ_SET_GET && match live E S k with Some (ASet _) => true | _ => false end.

Definition set_result (E : environ) (fullname : string) (flags : Z) (k v : string)
    (expire : option string) (unit : time_unit) (ok_reply abort_reply : redisReply) (S : store) :
    store * redisReply :=
  match asked_expire E fullname flags unit expire with
  | inl err => (S, RError err)
  | inr ms =>
      if set_stopped E flags k S then (touch E S k, RError wrongtypeerr)
      else (set_store E flags k v ms S, set_reply E flags k S ok_reply abort_reply)
  end.

Section spec.
Context (E : environ) (HE : active E) (fullname : string).
Context (δ : drift) (S : store) (rs : list redisReply) (σ : redisServer).
Hypothesis Hσ : holds δ S rs σ.

Lemma runs_getGenericCommand argv k :
  argv !! 1%nat = Some k →
  runs (getGenericCommand E argv) σ (λ b σ',
    b = (match live E S k with Some (ASet _) => false | _ => true end) ∧
    holds δ (touch E S k) (rs ++ [get_reply (live E S k)]) σ').
Proof using HE Hσ.
  intros Hk. eapply runs_bind, runs_lift; [done|].
  step by (by apply (runs_lookupKeyReadOrReply E HE δ S rs)). intros o σ1 [Ho H1].
  destruct (live E S k) as [v|]; inversion Ho as [? ? Hv|]; subst; [|by apply runs_ret].
  step by (by apply (runs_checkType _ _ _ _ H1)). intros b σ2 [-> H2].
  destruct v as [s|X], x as [o|o]; try done; simpl in *.
  step by (by apply (runs_addReply _ _ _ _ H2)). intros _ σ3 H3. apply runs_ret.
  split; [done|]. by rewrite (str_rel_text o s Hv) in H3.
Qed.

Lemma runs_expire expire flags unit :
  runs (match expire with
        | Some e => getExpireMillisecondsOrReply E fullname e flags unit
        | None => mret (Some 0)
        end) σ
    (λ r σ', match asked_expire E fullname flags unit expire with
             | inl err => r = None ∧ holds δ S (rs ++ [RError err]) σ'
             | inr ms => r = Some (default 0 ms) ∧
                 bool_decide (is_Some expire) = bool_decide (is_Some ms) ∧ holds δ S rs σ'
             end).
Proof using Hσ.
  unfold asked_expire. destruct expire as [e|]; [|by apply runs_ret].
  unfold getExpireMillisecondsOrReply, getLongLongFromObjectOrReply.
  destruct (string2ll e) as [v|].
  - apply runs_bind, runs_ret. destruct (expire_milliseconds _ _ _ _); [by apply runs_ret|].
    step by (by apply (runs_addReply δ S rs)). intros _ σ1 H1. by apply runs_ret.
  - apply runs_bind. step by (by apply (runs_addReply δ S rs)). intros _ σ1 H1. by apply runs_ret.
Qed.

(** The optional [GET] of a [SET]. *)
Lemma runs_set_get argv flags k :
  argv !! 1%nat = Some k →
  runs (if has flags OBJ_SET_GET then getGenericCommand E argv else mret true) σ
    (λ b σ', b = negb (set_stopped E flags k S) ∧
      if has flags OBJ_SET_GET then holds δ (touch E S k) (rs ++ [get_reply (live E S k)]) σ'
      else holds δ S rs σ').
Proof using HE Hσ.
  intros Hk. unfold set_stopped. destruct (has flags OBJ_SET_GET); [|by apply runs_ret].
  finish by (by apply runs_getGenericCommand). intros b σ1 [-> H1]. split; [|done].
  by destruct (live E S k) as [[]|].
Qed.
End spec.

(** The last steps of a [SET], once the presence of the key is known. *)
Lemma runs_set_last E (HE : active E) δ S0 S rs σ flags k val v expire ms ok_reply abort_reply :
  holds δ S0 rs σ → touch E S0 k = touch E S k → str_rel val v →
  bool_decide (is_Some expire) = bool_decide (is_Some ms) →
  runs
    (de ← lookupKeyWrite E k;
     let found := bool_decide (is_Some de) in
     if (has flags OBJ_SET_NX && found) || (has flags OBJ_SET_XX && negb found) then
       when (negb (has flags OBJ_SET_GET)) (addReply abort_reply)
     else
       let expiring := bool_decide (is_Some (expire : option string)) in
       let setkey_flags :=
         Z.lor (if has flags OBJ_KEEPTTL || expiring then SETKEY_KEEPTTL else 0)
               (if found then SETKEY_ALREADY_EXIST else SETKEY_DOESNT_EXIST) in
       setKey E k (OString val) setkey_flags;;
       add_dirty 1;;
       when expiring (setExpire k (default 0 ms));;
       when (negb (has flags OBJ_SET_GET)) (addReply ok_reply)) σ
    (λ _, holds δ (set_store E flags k v ms S)
      (rs ++ if has flags OBJ_SET_GET then []
             else [if refused flags (live E S k) then abort_reply else ok_reply])).
Proof.
  intros Hσ Ht Hv Hms. step by (by apply (runs_lookupKeyWrite E HE _ _ _ _ Hσ)).
  assert (live E S0 k = live E S k) as -> by (unfold live; by rewrite Ht). rewrite Ht. intros de σ1 [Hde H1]. cbn zeta.
  assert (bool_decide (is_Some de) = bool_decide (is_Some (live E S k))) as ->.
  { apply bool_decide_ext. by destruct Hde. }
  unfold set_store. fold (refused flags (live E S k)).
  assert (∀ S' r σ', holds δ S' rs σ' →
    runs (when (negb (has flags OBJ_SET_GET)) (addReply r)) σ'
      (λ _, holds δ S' (rs ++ if has flags OBJ_SET_GET then [] else [r]))) as Hlast.
  { intros S' r σ' H'. destruct (has flags OBJ_SET_GET); simpl.
    - apply runs_ret. by rewrite app_nil_r.
    - by apply (runs_addReply _ _ _ _ H'). }
  destruct (refused flags (live E S k)); [by apply Hlast|]. rewrite Hms.
  apply (runs_step _ _ _ (λ _, holds δ (if has flags OBJ_KEEPTTL || bool_decide (is_Some ms)
    then put k (AStr v) (touch E S k) else persist k (put k (AStr v) (touch E S k))) rs)).
  { finish by (apply (runs_setKey_known E _ _ _ _ H1 k _ (AStr v)); [done|]).
    - unfold live. destruct (bool_decide_reflect (is_Some (vals (touch E S k) !! k))) as [Hl|Hl];
        destruct (has flags OBJ_KEEPTTL || bool_decide (is_Some ms)); simpl; try done;
        (split_and!; [done..|by apply eq_None_not_Some]).
    - intros _ σ2. unfold overwrite. destruct (bool_decide (is_Some (live E S k)));
        by destruct (has flags OBJ_KEEPTTL || bool_decide (is_Some ms)). }
  intros _ σ2 H2. step by (by apply (runs_add_dirty _ _ _ _ H2)). intros _ σ3 H3.
  destruct ms as [t|]; simpl.
  - rewrite orb_true_r in H3.
    step by (apply (runs_setExpire _ _ _ _ H3); simpl; rewrite lookup_insert_eq; eauto).
    intros _ σ4 H4. by apply Hlast.
  - rewrite orb_false_r in H3. apply runs_bind, runs_ret. by apply Hlast.
Qed.

Lemma runs_setGenericCommand E (HE : active E) fullname δ S rs σ argv flags k val v expire unit
    ok_reply abort_reply :
  holds δ S rs σ → argv !! 1%nat = Some k → str_rel val v →
  runs (setGenericCommand E fullname argv flags k val expire unit ok_reply abort_reply) σ
    (λ _ σ', let '(S', r) := set_result E fullname flags k v expire unit ok_reply abort_reply S in
      holds δ S' (rs ++ [r]) σ').
Proof.
  intros Hσ Hk Hv. unfold setGenericCommand, set_result.
  step by (by apply (runs_expire E fullname δ S rs)). intros r σ1 H1.
  destruct (asked_expire E fullname flags unit expire) as [err|ms].
  { destruct H1 as [-> H1]. by apply runs_ret. }
  destruct H1 as (-> & Hms & H1).
  step by (by apply (runs_set_get E HE δ S rs _ H1)). intros b σ2 [-> H2]. rewrite negb_involutive.
  destruct (set_stopped E flags k S) eqn:Hst.
  { apply runs_ret. unfold set_stopped in Hst. destruct (has flags OBJ_SET_GET); [|done].
    by destruct (live E S k) as [[]|]. }
  finish by (apply (runs_set_last E HE δ (if has flags OBJ_SET_GET then touch E S k else S) S
    (if has flags OBJ_SET_GET then rs ++ [get_reply (live E S k)] else rs)); [..|done|done]).
  - by destruct (has flags OBJ_SET_GET).
  - destruct (has flags OBJ_SET_GET); [apply touch_touch|done].
  - intros _ σ3 H3. unfold set_reply.
    destruct (has flags OBJ_SET_GET); [by rewrite app_nil_r in H3|done].
Qed.

(** ** Reference definitions *)

Definition setCommand_result (E : environ) (fullname k v : string) (opts : list string)
    (S : store) : store * redisReply :=
  match parse_options COMMAND_SET OBJ_NO_FLAGS UNIT_SECONDS None opts with
  | None => (S, RError syntaxerr)
  | Some (flags, unit, expire) => set_result E fullname flags k v expire unit ok RNil S
  end.

Definition get_result (E : environ) (k : string) (S : store) : store * redisReply :=
  (touch E S k, get_reply (live E S k)).

(** A command that goes on unless the key holds a set. *)
Definition unless_set (E : environ) (k : string) (S : store) (r : store * redisReply) :
    store * redisReply :=
  match live E S k with Some (ASet _) => (touch E S k, RError wrongtypeerr) | _ => r end.

Definition getdel_result (E : environ) (k : string) (S : store) : store * redisReply :=
  unless_set E k S (remove k S, get_reply (live E S k)).

Definition getset_result (E : environ) (k v : string) (S : store) : store * redisReply :=
  unless_set E k S (put k (AStr v) (persist k S), get_reply (live E S k)).

(** The expiry of a key after [GETEX]. *)
Definition getex_store (E : environ) (flags : Z) (k : string) (ms : option Z) (S : store) : store :=
  match ms with
  | Some t =>
      if (has flags OBJ_PXAT || has flags OBJ_EXAT) && checkAlreadyExpired E t then remove k S
      else set_ttl k t S
  | None => if has flags OBJ_PERSIST then persist k S else S
  end.

Definition getex_result (E : environ) (fullname k : string) (opts : list string) (S : store) :
    store * redisReply :=
  match parse_options COMMAND_GET OBJ_NO_FLAGS UNIT_SECONDS None opts with
  | None => (S, RError syntaxerr)
  | Some (flags, unit, expire) =>
      match live E S k with
      | Some (AStr s) =>
          match asked_expire E fullname flags unit expire with
          | inl err => (touch E S k, RError err)
          | inr ms => (getex_store E flags k ms (touch E S k), RString s)
          end
      | o => (touch E S k, get_reply o)
      end
  end.

Definition strlen_result (E : environ) (k : string) (S : store) : store * redisReply :=
  unless_set E k S (touch E S k,
    RInteger (match live E S k with Some v => val_len v | None => 0 end)).

Definition not_integer : redisReply := RError "ERR value is not an integer or out of range".

Definition getrange_result (E : environ) (k start end_ : string) (S : store) :
    store * redisReply :=
  match string2ll start, string2ll end_ with
  | Some start, Some end_ =>
      unless_set E k S (touch E S k, RString (match live E S k with
        | Some (AStr s) => getrange_bytes s start end_
        | _ => ""
        end))
  | _, _ => (S, not_integer)
  end.

(** [MSETNX] looks at the keys up to the first that exists. *)
Fixpoint check_absent (E : environ) (ks : list string) (S : store) : store * bool :=
  match ks with
  | [] => (S, false)
  | k :: ks =>
      match live E S k with
      | Some _ => (touch E S k, true)
      | None => check_absent E ks (touch E S k)
      end
  end.

Definition put_pairs (kvs : list (string * string)) (S : store) : store :=
  foldl (λ S kv, put kv.1 (AStr kv.2) (persist kv.1 S)) S kvs.

Definition mset_result (E : environ) (fullname : string) (nx : bool) (args : list string)
    (S : store) : store * redisReply :=
  match pairs args with
  | None => (S, RError ("ERR wrong number of arguments for '" +:+ fullname +:+ "' command"))
  | Some kvs =>
      let '(S', found) := if nx then check_absent E (kvs.*1) S else (S, false) in
      if found then (S', RInteger 0)
      else (put_pairs kvs S', if nx then RInteger 1 else ok)
  end.

(** The outcome of a handler against its reference. *)
Definition gives (δ : drift) (rs : list redisReply) (out : store * redisReply)
    (σ : redisServer) : Prop := holds δ out.1 (rs ++ [out.2]) σ.

Section commands.
Context (E : environ) (HE : active E) (fullname : string).
Context (δ : drift) (S : store) (rs : list redisReply) (σ : redisServer).
Hypothesis Hσ : holds δ S rs σ.

(** A value as [SET] stores it. *)
Lemma encoded_rel v : obj_rel (OString (tryObjectEncoding E (createStringObject v))) (AStr v).
Proof. apply tryObjectEncoding_rel, createStringObject_rel. Qed.

Lemma runs_parse argv command j :
  j = (match command with COMMAND_GET => 2 | COMMAND_SET => 3 end)%nat →
  runs (parseExtendedStringArgumentsOrReply argv command) σ (λ r σ',
    r = parse_options command OBJ_NO_FLAGS UNIT_SECONDS None (drop j argv) ∧
    match r with
    | Some _ => holds δ S rs σ'
    | None => holds δ S (rs ++ [RError syntaxerr]) σ'
    end).
Proof using Hσ.
  intros ->. unfold parseExtendedStringArgumentsOrReply.
  destruct (parse_options _ _ _ _ _) as [p|]; [by apply runs_ret|].
  step by (by apply (runs_addReply δ S rs)). intros _ σ1 H1. by apply runs_ret.
Qed.

Lemma runs_setCommand name k v opts :
  runs (setCommand E fullname (name :: k :: v :: opts)) σ
    (λ _, gives δ rs (setCommand_result E fullname k v opts S)).
Proof using HE Hσ.
  unfold setCommand, setCommand_result. step by (by apply (runs_parse _ COMMAND_SET 3)).
  intros r σ1 [-> H1]. cbn [drop] in *.
  destruct (parse_options _ _ _ _ _) as [[[flags unit] expire]|]; [|by apply runs_ret].
  do 2 (eapply runs_bind, runs_lift; [done|]).
  finish by (eapply (runs_setGenericCommand E HE fullname δ S rs σ1 _ flags k _ v); [done..|];
    apply tryObjectEncoding_rel, createStringObject_rel).
  intros _ σ2. unfold gives. by destruct (set_result _ _ _ _ _ _ _ _ _ _).
Qed.

Lemma runs_getCommand name k :
  runs (getCommand E [name; k]) σ (λ _, gives δ rs (get_result E k S)).
Proof using HE Hσ.
  step by (by apply (runs_getGenericCommand E HE δ S rs)). intros b σ1 [_ H1]. by apply runs_ret.
Qed.

Lemma remove_touch k : remove k (touch E S k) = remove k S.
Proof.
  unfold touch. destruct (expired E S k); [|done]. unfold remove. simpl.
  by rewrite !delete_delete_eq.
Qed.

Lemma runs_getdelCommand name k :
  runs (getdelCommand E [name; k]) σ (λ _, gives δ rs (getdel_result E k S)).
Proof using HE Hσ.
  step by (by apply (runs_getGenericCommand E HE δ S rs σ Hσ _ k)). intros b σ1 [-> H1].
  unfold getdel_result, unless_set.
  assert (runs (key ← lift ([name; k] !! 1%nat); deleted ← dbGenericDelete key;
    when deleted (add_dirty 1)) σ1 (λ _, holds δ (remove k S) (rs ++ [get_reply (live E S k)])))
    as Hgo.
  { eapply runs_bind, runs_lift; [done|]. step by (by apply (runs_dbGenericDelete _ _ _ _ H1)).
    rewrite remove_touch. intros b σ2 [_ H2]. by apply runs_when. }
  destruct (live E S k) as [[s|X]|]; [done|by apply runs_ret|done].
Qed.

Lemma runs_getsetCommand name k v :
  runs (getsetCommand E [name; k; v]) σ (λ _, gives δ rs (getset_result E k v S)).
Proof using HE Hσ.
  step by (by apply (runs_getGenericCommand E HE δ S rs σ Hσ _ k)). intros b σ1 [-> H1].
  unfold getset_result, unless_set.
  assert (runs (key ← lift ([name; k; v] !! 1%nat); val ← lift ([name; k; v] !! 2%nat);
    setKey E key (OString (tryObjectEncoding E (createStringObject val))) 0;; add_dirty 1) σ1
    (λ _, holds δ (put k (AStr v) (persist k S)) (rs ++ [get_reply (live E S k)]))) as Hgo.
  { do 2 (eapply runs_bind, runs_lift; [done|]).
    step by (apply (runs_setKey E HE _ _ _ _ H1 k _ (AStr v)); apply encoded_rel).
    rewrite put_touch. intros _ σ2 H2. by apply (runs_add_dirty _ _ _ _ H2). }
  destruct (live E S k) as [[s|X]|]; [done|by apply runs_ret|done].
Qed.

Lemma runs_strlenCommand name k :
  runs (strlenCommand E [name; k]) σ (λ _, gives δ rs (strlen_result E k S)).
Proof using HE Hσ.
  eapply runs_bind, runs_lift; [done|].
  step by (by apply (runs_lookupKeyReadOrReply E HE δ S rs)). intros o σ1 [Ho H1].
  unfold strlen_result, unless_set.
  destruct (live E S k) as [v|]; inversion Ho as [? ? Hv|]; subst; [|by apply runs_ret].
  step by (by apply (runs_checkType _ _ _ _ H1)). intros b σ2 [-> H2].
  destruct v as [s|X], x as [o|o]; try done; simpl in *.
  rewrite <- (str_rel_length o s Hv). by apply (runs_addReply _ _ _ _ H2).
Qed.

Lemma runs_number_arg a :
  runs (getLongLongFromObjectOrReply a None) σ (λ r σ', r = string2ll a ∧
    match r with Some _ => holds δ S rs σ' | None => holds δ S (rs ++ [not_integer]) σ' end).
Proof using Hσ.
  unfold getLongLongFromObjectOrReply. destruct (string2ll a) as [v|]; [by apply runs_ret|].
  step by (by apply (runs_addReply δ S rs)). intros _ σ1 H1. by apply runs_ret.
Qed.
End commands.

(** *** The variants of SET *)

Section variants.
Context (E : environ) (HE : active E) (fullname : string).
Context (δ : drift) (S : store) (rs : list redisReply) (σ : redisServer).
Hypothesis Hσ : holds δ S rs σ.

Lemma runs_set_generic argv flags k v expire unit ok_reply abort_reply :
  argv !! 1%nat = Some k →
  runs (setGenericCommand E fullname argv flags k (tryObjectEncoding E (createStringObject v))
      expire unit ok_reply abort_reply) σ
    (λ _, gives δ rs (set_result E fullname flags k v expire unit ok_reply abort_reply S)).
Proof using HE Hσ.
  intros Hk. finish by (eapply (runs_setGenericCommand E HE fullname δ S rs σ _ flags k _ v);
    [done..|apply tryObjectEncoding_rel, createStringObject_rel]).
  intros _ σ1. unfold gives. by destruct (set_result _ _ _ _ _ _ _ _ _ _).
Qed.

Lemma runs_setnxCommand name k v :
  runs (setnxCommand E fullname [name; k; v]) σ (λ _, gives δ rs
    (set_result E fullname OBJ_SET_NX k v None UNIT_SECONDS (RInteger 1) (RInteger 0) S)).
Proof using HE Hσ.
  do 2 (eapply runs_bind, runs_lift; [done|]). by apply runs_set_generic.
Qed.

Lemma runs_setexCommand name k t v :
  runs (setexCommand E fullname [name; k; t; v]) σ (λ _, gives δ rs
    (set_result E fullname OBJ_EX k v (Some t) UNIT_SECONDS ok RNil S)).
Proof using HE Hσ.
  do 3 (eapply runs_bind, runs_lift; [done|]). by apply runs_set_generic.
Qed.

Lemma runs_psetexCommand name k t v :
  runs (psetexCommand E fullname [name; k; t; v]) σ (λ _, gives δ rs
    (set_result E fullname OBJ_PX k v (Some t) UNIT_MILLISECONDS ok RNil S)).
Proof using HE Hσ.
  do 3 (eapply runs_bind, runs_lift; [done|]). by apply runs_set_generic.
Qed.

Lemma runs_getrangeCommand name k start end_ :
  runs (getrangeCommand E [name; k; start; end_]) σ
    (λ _, gives δ rs (getrange_result E k start end_ S)).
Proof using HE Hσ.
  do 3 (eapply runs_bind, runs_lift; [done|]). unfold getrange_result.
  step by (by apply (runs_number_arg δ S rs)). intros r σ1 [-> H1].
  destruct (string2ll start) as [a|]; [|by apply runs_ret].
  step by (by apply (runs_number_arg _ _ _ _ H1)). intros r σ2 [-> H2].
  destruct (string2ll end_) as [b|]; [|by apply runs_ret].
  step by (by apply (runs_lookupKeyReadOrReply E HE _ _ _ _ H2)). intros o σ3 [Ho H3].
  unfold unless_set.
  destruct (live E S k) as [v|]; inversion Ho as [? ? Hv|]; subst; [|by apply runs_ret].
  step by (by apply (runs_checkType _ _ _ _ H3)). intros w σ4 [-> H4].
  destruct v as [s|X], x as [o|o]; try done; simpl in *.
  rewrite (str_rel_text o s Hv). by apply (runs_addReply _ _ _ _ H4).
Qed.

(** *** GETEX *)

Lemma runs_getex_expire σ' S' rs' flags k expire ms :
  holds δ S' rs' σ' → is_Some (vals S' !! k) →
  bool_decide (is_Some expire) = bool_decide (is_Some ms) →
  (expire = None → has flags OBJ_PXAT || has flags OBJ_EXAT = false) →
  runs (getex_expire E k flags expire (default 0 ms)) σ'
    (λ _, holds δ (getex_store E flags k ms S') rs').
Proof using Type.
  clear. intros H Hk Hms Habs. unfold getex_expire, getex_store.
  destruct ms as [t|], expire as [e|]; try done; simpl.
  - destruct ((has flags OBJ_PXAT || has flags OBJ_EXAT) && checkAlreadyExpired E t).
    + step by (by apply (runs_dbGenericDelete _ _ _ _ H)). intros b σ1 [-> H1].
      apply runs_bind, runs_assert; [by apply bool_decide_eq_true_2|].
      by apply (runs_add_dirty _ _ _ _ H1).
    + step by (by apply (runs_setExpire _ _ _ _ H)). intros _ σ1 H1.
      by apply (runs_add_dirty _ _ _ _ H1).
  - rewrite Habs by done. simpl. apply runs_when; intros Hp; rewrite Hp; [|done].
    step by (by apply (runs_removeExpire _ _ _ _ H)). intros b σ1 [_ H1]. by apply runs_when.
Qed.

Lemma has_lor flags F G : has (Z.lor flags F) G = has flags G || has F G.
Proof using Type.
  unfold has. rewrite <- Bool.negb_andb. f_equal. rewrite Z.land_lor_distr_l.
  destruct (Z.eqb_spec (Z.lor (Z.land flags G) (Z.land F G)) 0) as [H|H].
  - apply Z.lor_eq_0_iff in H as [-> ->]. done.
  - symmetry. apply andb_false_iff. destruct (Z.eqb_spec (Z.land flags G) 0) as [H1|]; [|by left].
    right. apply Z.eqb_neq. intros H2. rewrite H1, H2 in H. done.
Qed.

(** An absolute expiry comes with its argument. *)
Lemma parse_options_absolute command args flags unit expire flags' unit' expire' :
  parse_options command flags unit expire args = Some (flags', unit', expire') →
  (expire = None → has flags OBJ_PXAT || has flags OBJ_EXAT = false) →
  expire' = None → has flags' OBJ_PXAT || has flags' OBJ_EXAT = false.
Proof using Type.
  revert flags unit expire. induction args as [args IH] using (well_founded_induction
    (well_founded_ltof _ (@length string))). unfold ltof in IH.
  intros flags unit expire. destruct args as [|opt args]; cbn [parse_options].
  { intros [= <- <- <-]. auto. }
  cbn zeta. repeat case_match; try done; intros H' Habs;
    (eapply IH; [|exact H'|]; [simpl; lia|]); try done;
    intros He; rewrite !has_lor; specialize (Habs He); apply orb_false_iff in Habs as [-> ->]; done.
Qed.

Lemma runs_getexCommand name k opts :
  runs (getexCommand E fullname (name :: k :: opts)) σ
    (λ _, gives δ rs (getex_result E fullname k opts S)).
Proof using HE Hσ.
  unfold getexCommand, getex_result. step by (by apply (runs_parse δ S rs σ Hσ _ COMMAND_GET 2)).
  intros r σ1 [-> H1]. cbn [drop] in *.
  destruct (parse_options _ _ _ _ _) as [[[flags unit] expire]|] eqn:Hp; [|by apply runs_ret].
  eapply runs_bind, runs_lift; [done|].
  step by (by apply (runs_lookupKeyReadOrReply E HE _ _ _ _ H1)). intros o σ2 [Ho H2].
  destruct (live E S k) as [v|] eqn:Hl; inversion Ho as [? ? Hv|]; subst; [|by apply runs_ret].
  step by (by apply (runs_checkType _ _ _ _ H2)). intros w σ3 [-> H3].
  destruct v as [s|X], x as [o|o]; try done; simpl in *.
  step by (by apply (runs_expire E fullname _ _ _ _ H3)). intros r σ4 H4.
  destruct (asked_expire E fullname flags unit expire) as [err|ms].
  { destruct H4 as [-> H4]. by apply runs_ret. }
  destruct H4 as (-> & Hms & H4).
  step by (by apply (runs_addReply _ _ _ _ H4)). rewrite (str_rel_text o s Hv). intros _ σ5 H5.
  unfold gives. simpl. apply runs_getex_expire; [done| |done|].
  - unfold live in Hl. by rewrite Hl.
  - eapply parse_options_absolute; [exact Hp|done].
Qed.
End variants.

(** *** MSET and MSETNX *)

Section mset.
Context (E : environ) (HE : active E) (fullname : string).

Lemma runs_any_exists ks δ S rs σ :
  holds δ S rs σ →
  runs (any_exists E ks) σ (λ b σ', b = (check_absent E ks S).2 ∧
    holds δ (check_absent E ks S).1 rs σ').
Proof using HE.
  revert S σ. induction ks as [|k ks IH]; intros S σ H; [by apply runs_ret|]. cbn.
  step by (by apply (runs_lookupKeyWrite E HE _ _ _ _ H)). intros o σ1 [Ho H1].
  destruct (live E S k); inversion Ho; subst; [by apply runs_ret|by apply IH].
Qed.

Lemma touch_absent S k k' : vals S !! k = None → vals (touch E S k') !! k = None.
Proof using Type.
  intros Hk. unfold touch. destruct (expired E S k'); [|done]. simpl.
  apply lookup_delete_None. auto.
Qed.

Lemma check_absent_keeps ks S k : vals S !! k = None → vals (check_absent E ks S).1 !! k = None.
Proof using Type.
  clear. revert S. induction ks as [|k' ks IH]; intros S Hk; [done|]. simpl.
  destruct (live E S k'); simpl; [|apply IH]; by apply touch_absent.
Qed.

Lemma check_absent_all ks S k :
  (check_absent E ks S).2 = false → k ∈ ks → vals (check_absent E ks S).1 !! k = None.
Proof using Type.
  clear. revert S. induction ks as [|k' ks IH]; intros S; [by intros _ ?%elem_of_nil|]. simpl.
  destruct (live E S k') eqn:Hl; simpl; [done|]. intros Hf [->|Hk]%elem_of_cons; [|by apply IH].
  by apply check_absent_keeps.
Qed.

(** Setting keys by a flag that is right in every store. *)
Lemma runs_set_pairs δ rs (nx : bool) flags kvs S σ :
  holds δ S rs σ →
  (if nx then flags = SETKEY_ADD_OR_UPDATE ∨ flags = SETKEY_DOESNT_EXIST ∧
     match kvs with kv :: _ => vals S !! kv.1 = None | [] => True end
   else flags = 0) →
  runs (set_pairs E nx flags kvs) σ (λ _, holds δ (put_pairs kvs S) rs).
Proof using HE.
  revert flags S σ. induction kvs as [|[k v] kvs IH]; intros flags S σ H Hf; [by apply runs_ret|].
  cbn [set_pairs]. apply (runs_step _ _ _ (λ _, holds δ (put k (AStr v) (persist k S)) rs)).
  - pose proof (encoded_rel E v) as Hv. destruct nx; [destruct Hf as [->|[-> Hk]]|subst flags].
    + by apply (runs_setKey_update E _ _ _ _ H).
    + by apply (runs_setKey_known E _ _ _ _ H k _ (AStr v)).
    + by apply (runs_setKey E HE _ _ _ _ H).
  - intros _ σ1 H1. apply IH; [done|]. by destruct nx; [left|].
Qed.

Lemma runs_msetGenericCommand δ S rs σ (nx : bool) name args :
  holds δ S rs σ →
  runs (msetGenericCommand E fullname (name :: args) nx) σ
    (λ _, gives δ rs (mset_result E fullname nx args S)).
Proof using HE.
  intros H. unfold msetGenericCommand, mset_result.
  change (drop 1 (name :: args)) with args.
  destruct (pairs args) as [kvs|]; [|by apply (runs_addReply _ _ _ _ H)].
  apply (runs_step _ _ _ (λ b σ', b = (if nx then (check_absent E kvs.*1 S).2 else false) ∧
    holds δ (if nx then (check_absent E kvs.*1 S).1 else S) rs σ')).
  { destruct nx; [by apply runs_any_exists|by apply runs_ret]. }
  intros b σ1 [-> H1]. unfold gives.
  set (S1 := if nx return store then (check_absent E kvs.*1 S).1 else S) in H1 |- *.
  replace (if nx then check_absent E kvs.*1 S else (S, false))
    with (S1, if nx then (check_absent E kvs.*1 S).2 else false)
    by (subst S1; destruct nx; [by destruct (check_absent E kvs.*1 S)|done]).
  destruct (if nx then (check_absent E kvs.*1 S).2 else false) eqn:Hb.
  { by apply (runs_addReply _ _ _ _ H1). }
  step by (apply (runs_set_pairs _ _ nx _ _ _ _ H1)).
  - destruct nx; [|done]. right. split; [done|]. destruct kvs as [|kv kvs]; [done|].
    apply check_absent_all; [done|]. left.
  - intros _ σ2 H2. step by (by apply (runs_add_dirty _ _ _ _ H2)). intros _ σ3 H3.
    by apply (runs_addReply _ _ _ _ H3).
Qed.
End mset.

(** ** INCR and its variants *)

Definition in_llong_b (z : Z) : bool := (LLONG_MIN <=? z) && (z <=? LLONG_MAX).

Definition overflow_error : redisReply := RError "ERR increment or decrement would overflow".

Definition incr_result (E : environ) (k : string) (incr : Z) (S : store) : store * redisReply :=
  unless_set E k S
    match (match live E S k with Some (AStr s) => string2ll s | _ => Some 0 end) with
    | None => (touch E S k, not_integer)
    | Some v =>
        if in_llong_b (v + incr)
        then (put k (AStr (pretty (v + incr))) (touch E S k), RInteger (v + incr))
        else (touch E S k, overflow_error)
    end.

(** The key moves from one bin to another. *)
Definition moved (δ : drift) (old new : string) : drift :=
  λ p, δ p + val_bin (AStr old) p - val_bin (AStr new) p.

(** The test before the addition is exact. *)
Lemma would_overflow_spec v incr :
  in_llong v → in_llong incr → would_overflow v incr = negb (in_llong_b (v + incr)).
Proof.
  intros Hv Hi. unfold would_overflow, in_llong_b. unfold in_llong in *.
  destruct (Z.leb_spec LLONG_MIN (v + incr)), (Z.leb_spec (v + incr) LLONG_MAX); simpl;
    repeat case_match; reflect_bools; simpl; try done; ints.
Qed.

Section incr.
Context (E : environ) (HE : active E).
Context (δ : drift) (S : store) (rs : list redisReply) (σ : redisServer).
Hypothesis Hσ : holds δ S rs σ.

Lemma in_place_inv o value :
  in_place o value = true → ∃ v, o = Some (EncInt false v) ∧ in_llong value.
Proof using Type.
  destruct o as [[| |[] v]|]; try done. simpl. intros H. reflect_bools. exists v. split; [done|].
  split; done.
Qed.

(** What follows the read of the old value. *)
Lemma runs_incr_write o k incr oldvalue σ' (old : option aval) :
  holds δ S rs σ' → option_Forall2 obj_rel o old → vals S !! k = old →
  match old with Some (ASet _) => False | _ => True end →
  (match old with Some (AStr s) => string2ll s | _ => Some 0 end) = Some oldvalue →
  in_llong incr →
  runs
    (if would_overflow oldvalue incr then addReplyError "increment or decrement would overflow"
     else
       let value := oldvalue + incr in
       (if in_place (as_string o) value then dict_set k (OString (EncInt false value))
        else
          let new := OString (createStringObjectFromLongLongForValue E value) in
          match o with Some _ => dbSetValue k new | None => dbAdd k new end);;
       add_dirty 1;;
       addReply (RInteger value)) σ'
    (λ _ σ'', ∃ δ', gives δ' rs
        (if in_llong_b (oldvalue + incr)
         then (put k (AStr (pretty (oldvalue + incr))) S, RInteger (oldvalue + incr))
         else (S, overflow_error)) σ'' ∧
      (δ' = δ ∨ ∃ s, old = Some (AStr s) ∧ δ' = moved δ s (pretty (oldvalue + incr)))).
Proof using Type.
  clear. intros H Ho Hk Hstr Hnum Hi.
  assert (in_llong oldvalue) as Hold.
  { destruct old as [[s|X]|]; try done; [by apply string2ll_spec in Hnum as [? _]|].
    injection Hnum as <-. split; done. }
  rewrite would_overflow_spec by done. destruct (in_llong_b (oldvalue + incr)) eqn:Hr; cbn [negb].
  2: { finish by (by apply (runs_addReply _ _ _ _ H)). eauto. }
  assert (in_llong (oldvalue + incr)) as Hin by (unfold in_llong_b in Hr; reflect_bools; by split).
  cbn zeta. set (value := oldvalue + incr) in *.
  apply (runs_step _ _ _ (λ _ σ'', ∃ δ', holds δ' (put k (AStr (pretty value)) S) rs σ'' ∧
    (δ' = δ ∨ ∃ s, old = Some (AStr s) ∧ δ' = moved δ s (pretty value)))).
  - destruct (in_place (as_string o) value) eqn:Hp.
    + apply in_place_inv in Hp as (v & Hp & _).
      destruct o as [[o|]|]; try done. destruct old as [[s|]|]; inversion Ho; subst; try done.
      finish by (by apply (runs_dict_set _ _ _ _ H k _ (AStr (pretty value)))).
      intros _ σ1 H1. rewrite Hk in H1. exists (moved δ s (pretty value)). split; [done|]. eauto.
    + assert (obj_rel (OString (createStringObjectFromLongLongForValue E value))
        (AStr (pretty value))) as Hnew by done.
      destruct o as [o|], old as [old|]; inversion Ho; subst.
      * finish by (by apply (runs_dbSetValue _ _ _ _ H k _ _ Hnew)). eauto.
      * finish by (by apply (runs_dbAdd _ _ _ _ H k _ _ Hnew)). eauto.
  - intros _ σ1 (δ' & H1 & Hδ). step by (by apply (runs_add_dirty _ _ _ _ H1)). intros _ σ2 H2.
    finish by (by apply (runs_addReply _ _ _ _ H2)). eauto.
Qed.

Lemma runs_number_of o s :
  str_rel o s →
  runs (number_of (Some o)) σ (λ r σ', r = string2ll s ∧
    match r with Some _ => holds δ S rs σ' | None => holds δ S (rs ++ [not_integer]) σ' end).
Proof using Hσ.
  destruct o as [p|p|b v]; simpl; [intros ->; by apply runs_number_arg..|].
  intros [Hv ->]. apply runs_ret. split; [|done]. symmetry. by apply string2ll_spec.
Qed.
End incr.

Lemma runs_incrDecrCommand E (HE : active E) δ S rs σ name k rest incr :
  holds δ S rs σ → in_llong incr →
  runs (incrDecrCommand E (name :: k :: rest) incr) σ (λ _ σ', ∃ δ',
    gives δ' rs (incr_result E k incr S) σ' ∧
    (δ' = δ ∨ ∃ s, live E S k = Some (AStr s) ∧
       ∃ v, string2ll s = Some v ∧ δ' = moved δ s (pretty (v + incr)))).
Proof.
  intros Hσ Hi. eapply runs_bind, runs_lift; [done|].
  step by (by apply (runs_lookupKeyWrite E HE _ _ _ _ Hσ)). intros o σ1 [Ho H1].
  unfold incr_result, unless_set.
  assert (vals (touch E S k) !! k = live E S k) as Hk by done.
  destruct (live E S k) as [[s|X]|] eqn:Hl; inversion Ho as [x ? Hv|]; subst.
  - destruct x as [x|]; [|done].
    step by (by apply (runs_checkType _ _ _ _ H1 _ (AStr s))). intros b σ2 [-> H2]. cbn -[pretty].
    step by (by apply (runs_number_of _ _ _ _ H2 x s)). intros r σ3 [-> H3].
    destruct (string2ll s) as [v|] eqn:Hs; [|apply runs_ret; eauto].
    finish by (by apply (runs_incr_write E _ _ _ (Some (OString x)) k incr v _ _ H3 Ho Hk)).
    intros _ σ4 (δ' & H4 & [->|(s' & [= <-] & ->)]); eauto 10.
  - destruct x as [|x]; [done|].
    step by (by apply (runs_checkType _ _ _ _ H1 _ (ASet X))). intros b σ2 [-> H2].
    apply runs_ret. eauto.
  - apply runs_bind, runs_ret. apply runs_bind, runs_ret.
    finish by (by apply (runs_incr_write E _ _ _ None k incr 0 _ _ H1 Ho Hk)).
    intros _ σ4 (δ' & H4 & [->|(s' & ? & ->)]); eauto. done.
Qed.

(** ** APPEND *)

Definition too_long : redisReply :=
  RError "ERR string exceeds maximum allowed size (proto-max-bulk-len)".

Definition append_result (E : environ) (k v : string) (S : store) : store * redisReply :=
  unless_set E k S
    match live E S k with
    | Some (AStr s) =>
        if proto_max_bulk_len E <? slen s + slen v then (touch E S k, too_long)
        else (put k (AStr (s +:+ v)) (touch E S k), RInteger (slen (s +:+ v)))
    | _ => (put k (AStr v) (touch E S k), RInteger (slen v))
    end.

(** A key counted once more than it should. *)
Definition counted_twice (δ : drift) (len : Z) : drift := λ p, δ p + bin OBJ_STRING len p.

Lemma slen_nonneg s : 0 ≤ slen s.
Proof. unfold slen. lia. Qed.

Lemma slen_app a b : slen (a +:+ b) = slen a + slen b.
Proof. unfold slen. rewrite string_length_app. lia. Qed.

Section append.
Context (E : environ) (HE : active E).

(** The test is exact, also where the sum of the lengths overflows. *)
Lemma runs_checkStringLength δ S rs σ a b :
  holds δ S rs σ → 0 ≤ a ≤ LLONG_MAX → 0 ≤ b ≤ LLONG_MAX →
  runs (checkStringLength E a b) σ (λ r σ', r = negb (proto_max_bulk_len E <? a + b) ∧
    holds δ S (if r then rs else rs ++ [too_long]) σ').
Proof using HE.
  destruct HE as (_ & _ & Hmax). clear HE. intros H Ha Hb. unfold checkStringLength.
  assert ((proto_max_bulk_len E <? wrap_s 64 (a + b)) || (wrap_s 64 (a + b) <? a) ||
    (wrap_s 64 (a + b) <? b) = (proto_max_bulk_len E <? a + b)) as ->.
  { destruct (Z.leb_spec (a + b) LLONG_MAX) as [Hs|Hs].
    - rewrite wrap_s_small by (simpl; unfold_ints; lia).
      rewrite (proj2 (Z.ltb_ge (a + b) a)), (proj2 (Z.ltb_ge (a + b) b)), !orb_false_r by lia. done.
    - rewrite (proj2 (Z.ltb_lt (proto_max_bulk_len E) (a + b))) by lia.
      assert (wrap_s 64 (a + b) < a) as Hw.
      { unfold wrap_s. change (64 - 1) with 63. unfold_ints.
        rewrite <- (Z.mod_unique (a + b + 2 ^ 63) (2 ^ 64) 1 (a + b + 2 ^ 63 - 2 ^ 64));
          [lia|left; lia|lia]. }
      by rewrite (proj2 (Z.ltb_lt _ _) Hw), orb_true_r. }
  destruct (proto_max_bulk_len E <? a + b); [|by apply runs_ret].
  step by (by apply (runs_addReply _ _ _ _ H)). intros _ σ1 H1. by apply runs_ret.
Qed.

Lemma runs_dbUnshareStringValue δ S rs σ k o s :
  holds δ S rs σ → vals S !! k = Some (AStr s) → str_rel o s →
  runs (dbUnshareStringValue k o) σ (λ r σ', r = s ∧ holds δ S rs σ').
Proof using Type.
  intros H Hk Ho. unfold dbUnshareStringValue.
  assert (runs (dbSetValue k (OString (EncRaw (object_text o)));; mret (object_text o)) σ
    (λ r σ', r = s ∧ holds δ S rs σ')) as Hcopy.
  { step by (apply (runs_dbSetValue _ _ _ _ H k _ (AStr s)); [by apply str_rel_text|eauto]).
    intros _ σ1 H1. rewrite put_same in H1 by done. apply runs_ret. split; [by apply str_rel_text|done]. }
  destruct o; [by apply runs_ret|done..].
Qed.

Lemma runs_appendCommand δ S rs σ name k v :
  holds δ S rs σ →
  (∀ s, live E S k = Some (AStr s) → slen s ≤ LLONG_MAX) → slen v ≤ LLONG_MAX →
  runs (appendCommand E [name; k; v]) σ (λ _, gives
    (match live E S k with None => counted_twice δ (slen v) | Some _ => δ end) rs
    (append_result E k v S)).
Proof using HE.
  intros Hσ Hlen Hlv. do 2 (eapply runs_bind, runs_lift; [done|]).
  step by (by apply (runs_lookupKeyWrite E HE _ _ _ _ Hσ)). intros o σ1 [Ho H1].
  unfold append_result, unless_set.
  assert (vals (touch E S k) !! k = live E S k) as Hk by done.
  destruct (live E S k) as [w|] eqn:Hl; inversion Ho as [x ? Hv|]; subst.
  - apply runs_bind. step by (by apply (runs_checkType _ _ _ _ H1 x w)). intros b σ2 [-> H2].
    destruct w as [s|X], x as [x|x]; try done.
    cbn in H2. rewrite (str_rel_length x s Hv).
    step by (apply (runs_checkStringLength _ _ _ _ _ _ H2); split; auto using slen_nonneg).
    intros r σ3 [-> H3]. rewrite negb_involutive.
    destruct (proto_max_bulk_len E <? slen s + slen v); [by apply runs_ret, runs_ret|].
    step by (by apply (runs_dbUnshareStringValue _ _ _ _ _ _ _ H3 Hk)). intros r σ4 [-> H4].
    step by (by apply (runs_dict_set _ _ _ _ H4 k _ (AStr (s +:+ v)))). intros _ σ5 H5.
    apply runs_ret. step by (by apply (runs_add_dirty _ _ _ _ H5)). intros _ σ6 H6.
    step by (by apply (runs_hist_update _ _ _ _ H6)). intros _ σ7 H7.
    finish by (by apply (runs_addReply _ _ _ _ H7)). intros _ σ8 H8.
    eapply holds_ext; [|exact H8]. intros p. rewrite Hk. cbn [opt_bin].
    replace (slen (s +:+ v) - slen v) with (slen s) by (rewrite slen_app; lia).
    unfold val_bin. cbn [val_type val_len]. lia.
  - apply runs_bind. pose proof (encoded_rel E v) as Hv.
    step by (by apply (runs_dbAdd _ _ _ _ H1 k _ (AStr v))). intros _ σ2 H2. apply runs_ret.
    rewrite (str_rel_length _ v Hv), Z.sub_diag.
    step by (by apply (runs_add_dirty _ _ _ _ H2)). intros _ σ3 H3.
    step by (by apply (runs_hist_update _ _ _ _ H3)). intros _ σ4 H4.
    finish by (by apply (runs_addReply _ _ _ _ H4)). intros _ σ5 H5.
    eapply holds_ext; [|exact H5]. intros p. unfold counted_twice. rewrite bin_zero. lia.
Qed.

(** ** SETRANGE *)

Definition setrange_result (k arg v : string) (S : store) : store * redisReply :=
  match string2ll arg with
  | None => (S, not_integer)
  | Some off =>
      if off <? 0 then (S, RError "ERR offset is out of range")
      else unless_set E k S
        (let old := match live E S k with Some (AStr s) => s | _ => "" end in
         if slen v =? 0 then (touch E S k, RInteger (slen old))
         else if proto_max_bulk_len E <? off + slen v then (touch E S k, too_long)
         else let new := write_range old (Z.to_nat off) v in
              (put k (AStr new) (touch E S k), RInteger (slen new)))
  end.

(** A key that [SETRANGE] creates is counted twice. *)
Definition setrange_drift (δ : drift) (k arg v : string) (S : store) : drift :=
  match string2ll arg, live E S k with
  | Some off, None =>
      if (off <? 0) || (slen v =? 0) || (proto_max_bulk_len E <? off + slen v) then δ
      else counted_twice δ (off + slen v)
  | _, _ => δ
  end.

Lemma runs_long_arg δ S rs σ a :
  holds δ S rs σ →
  runs (getLongFromObjectOrReply a None) σ (λ r σ', r = string2ll a ∧
    match r with Some _ => holds δ S rs σ' | None => holds δ S (rs ++ [not_integer]) σ' end).
Proof using Type.
  intros H. step by (by apply (runs_number_arg _ _ _ _ H)). intros r σ1 [-> H1].
  destruct (string2ll a) as [v|] eqn:Ha; [|by apply runs_ret].
  apply string2ll_spec in Ha as [[Hl Hr] _].
  rewrite (proj2 (Z.ltb_ge v LLONG_MIN)), (proj2 (Z.ltb_ge LLONG_MAX v)) by done. by apply runs_ret.
Qed.

Lemma zeros_length n : String.length (zeros n) = n.
Proof using Type. induction n; simpl; congruence. Qed.

Lemma write_range_fresh off v :
  write_range (zeros (off + String.length v)) off v = write_range "" off v.
Proof using Type.
  unfold write_range, sdsgrowzero. rewrite zeros_length, Nat.sub_diag, Nat.sub_0_r. simpl.
  by rewrite string_app_nil_r.
Qed.

(** The last steps, once the string to change is there. *)
Lemma runs_setrange_write δ S rs σ k old oldLen off v :
  holds δ S rs σ → vals S !! k = Some (AStr old) →
  runs (dict_set k (OString (EncRaw (write_range old off v)));;
        add_dirty 1;;
        hist_update OBJ_STRING oldLen (slen (write_range old off v));;
        addReply (RInteger (slen (write_range old off v)))) σ
    (λ _, gives (λ p, δ p + bin OBJ_STRING (slen old) p - bin OBJ_STRING oldLen p) rs
      (put k (AStr (write_range old off v)) S, RInteger (slen (write_range old off v)))).
Proof using Type.
  intros H Hk.
  step by (by apply (runs_dict_set _ _ _ _ H k _ (AStr (write_range old off v)))). intros _ σ1 H1.
  step by (by apply (runs_add_dirty _ _ _ _ H1)). intros _ σ2 H2.
  step by (by apply (runs_hist_update _ _ _ _ H2)). intros _ σ3 H3.
  finish by (by apply (runs_addReply _ _ _ _ H3)). intros _ σ4 H4.
  eapply holds_ext; [|exact H4]. intros p. rewrite Hk. cbn [opt_bin].
  unfold val_bin. cbn [val_type val_len]. lia.
Qed.

Lemma runs_setrangeCommand δ S rs σ name k arg v :
  holds δ S rs σ → slen v ≤ LLONG_MAX →
  runs (setrangeCommand E [name; k; arg; v]) σ
    (λ _, gives (setrange_drift δ k arg v S) rs (setrange_result k arg v S)).
Proof using HE.
  intros Hσ Hlv. do 3 (eapply runs_bind, runs_lift; [done|]).
  unfold setrange_result, setrange_drift.
  step by (by apply (runs_long_arg _ _ _ _ _ Hσ)). intros r σ1 [-> H1].
  destruct (string2ll arg) as [off|] eqn:Harg; [|by apply runs_ret].
  apply string2ll_spec in Harg as [Hoff _].
  destruct (Z.ltb_spec off 0) as [Hneg|Hpos].
  { destruct (live E S k); by apply (runs_addReply _ _ _ _ H1). }
  step by (by apply (runs_lookupKeyWrite E HE _ _ _ _ H1)). intros o σ2 [Ho H2].
  assert (vals (touch E S k) !! k = live E S k) as Hk by done. unfold unless_set.
  assert (∀ σ' rs', holds δ (touch E S k) rs' σ' → runs (checkStringLength E off (slen v)) σ'
    (λ r σ'', r = negb (proto_max_bulk_len E <? off + slen v) ∧
      holds δ (touch E S k) (if r then rs' else rs' ++ [too_long]) σ'')) as Hcheck.
  { intros σ' rs' H'. apply (runs_checkStringLength _ _ _ _ _ _ H'); [split; [done|apply Hoff]|].
    split; [apply slen_nonneg|done]. }
  destruct (live E S k) as [w|] eqn:Hl; inversion Ho as [x ? Hv|]; subst; apply runs_bind.
  - step by (by apply (runs_checkType _ _ _ _ H2 x w)). intros b σ3 [-> H3].
    destruct w as [s|X], x as [x|x]; try done. cbn in H3. rewrite (str_rel_length x s Hv).
    cbn [negb val_type].
    destruct (slen v =? 0). { step by (by apply (runs_addReply _ _ _ _ H3)). auto. }
    step by (by apply Hcheck). intros r σ4 [-> H4]. rewrite negb_involutive.
    destruct (proto_max_bulk_len E <? off + slen v); [by apply runs_ret, runs_ret|].
    step by (by apply (runs_dbUnshareStringValue _ _ _ _ _ _ _ H4 Hk)). intros r σ5 [-> H5].
    apply runs_ret. finish by (by apply (runs_setrange_write _ _ _ _ _ _ _ _ _ H5)).
    intros _ σ6 H6. eapply holds_ext; [|exact H6]. intros p. simpl. lia.
  - destruct (slen v =? 0) eqn:Hz. { step by (by apply (runs_addReply _ _ _ _ H2)). auto. }
    step by (by apply Hcheck). intros r σ4 [-> H4]. rewrite negb_involutive.
    destruct (proto_max_bulk_len E <? off + slen v); [by apply runs_ret, runs_ret|].
    set (s0 := zeros (Z.to_nat (off + slen v))).
    step by (by apply (runs_dbAdd _ _ _ _ H4 k _ (AStr s0))). intros _ σ5 H5. apply runs_ret.
    finish by (apply (runs_setrange_write _ _ _ _ _ _ _ _ _ H5); apply lookup_insert_eq).
    intros _ σ6 H6. simpl.
    assert (Z.to_nat (off + slen v) = (Z.to_nat off + String.length v)%nat) as Hn
      by (unfold slen; lia).
    subst s0. rewrite Hn, write_range_fresh in H6. unfold gives, put in H6. simpl in H6.
    rewrite insert_insert_eq in H6. eapply holds_ext; [|exact H6]. intros p. simpl.
    unfold counted_twice, slen at 1. rewrite zeros_length, bin_zero.
    replace (Z.of_nat (Z.to_nat off + String.length v)) with (off + slen v) by (unfold slen; lia). lia.
Qed.
End append.

(** ** Properties *)

Lemma not_expired_written E k v S : expired E (put k v (persist k S)) k = false.
Proof.
  unfold expired, past_time. cbn [ttls put persist]. by rewrite lookup_delete_eq, !andb_false_r.
Qed.

Lemma touch_written E k v S : touch E (put k v (persist k S)) k = put k v (persist k S).
Proof. unfold touch. by rewrite not_expired_written. Qed.

Lemma live_written E k v S : live E (put k v (persist k S)) k = Some v.
Proof. unfold live. rewrite touch_written. apply lookup_insert_eq. Qed.

(** C37: what [SET] stores, [GET] returns, whatever the key held before, whether
    the value is stored as an integer or as a string, and whether or not the
    old value had expired; the rest of the database is as it was and the key no
    longer expires. *)
Theorem set_get_roundtrip E fullname k v δ S rs σ (HE : active E) (Hσ : holds δ S rs σ) :
  runs (setCommand E fullname ["SET"; k; v];; getCommand E ["GET"; k]) σ
    (λ _, gives δ (rs ++ [ok]) (put k (AStr v) (persist k (touch E S k)), RString v)).
Proof.
  step by (by apply (runs_setCommand E HE fullname δ S rs σ Hσ "SET" k v [])). intros _ σ1 H1.
  finish by (by apply (runs_getCommand E HE _ _ _ _ H1 "GET" k)). intros _ σ2 H2.
  change (setCommand_result E fullname k v [] S)
    with (put k (AStr v) (persist k (touch E S k)), ok) in H2.
  unfold get_result in H2. cbn [fst snd] in H2. by rewrite live_written, touch_written in H2.
Qed.

Lemma set_get_roundtrip_witness :
  runs (setCommand plain_env "set" ["SET"; "k"; "0042"];; getCommand plain_env ["GET"; "k"])
    plain_server (λ _ σ', reply σ' = [ok; RString "0042"]) ∧
  runs (setCommand plain_env "set" ["SET"; "k"; "42"];; getCommand plain_env ["GET"; "k"])
    plain_server (λ _ σ', reply σ' = [ok; RString "42"]).
Proof.
  split; (eapply runs_mono; [eapply (set_get_roundtrip plain_env "set" "k" _ no_drift no_data []);
    [apply plain_active|apply plain_server_rel]|by intros ? ? [_ ->]]).
Defined.

(** C39: [INCR] and its variants compute exactly.  The stored numeral, 0 for a
    missing key, is replaced by its sum with the increment and the sum is
    returned when it fits 64 bits; otherwise the command replies with an error
    and the value stays, so no addition overflows.  A value that is not a
    64-bit numeral, or not a string, is refused as well. *)
Theorem incr_exact E name k rest incr δ S rs σ (HE : active E) (Hσ : holds δ S rs σ)
    (Hincr : in_llong incr) :
  runs (incrDecrCommand E (name :: k :: rest) incr) σ
    (λ _ σ', ∃ δ', gives δ' rs (incr_result E k incr S) σ').
Proof.
  finish by (by apply (runs_incrDecrCommand E HE δ S rs σ name k rest incr)).
  intros _ σ' (δ' & H & _). by exists δ'.
Qed.

Lemma incr_exact_witness :
  runs (incrDecrCommand plain_env ["INCR"; "k"] 1) plain_server
    (λ _ σ', ∃ δ', gives δ' [] (put "k" (AStr "1") no_data, RInteger 1) σ').
Proof.
  apply (incr_exact plain_env "INCR" "k" [] 1 no_drift no_data []);
    [apply plain_active|apply plain_server_rel|done].
Defined.

(** [APPEND] to a key that does not exist counts the key twice in the
    histogram of key sizes: [dbAdd] has counted it when the command counts it
    again. *)
Lemma append_counts_twice :
  match appendCommand plain_env ["APPEND"; "k"; "abcd"] plain_server with
  | Some (_, σ) => keysizes_hist (db σ) (OBJ_STRING, log2ceil 4) = 2
  | None => False
  end.
Proof. vm_compute. reflexivity. Qed.

