(* ===== verification/SetCommands.v ===== *)
(** * Set commands

    src/redis/src/t_set.c: [SADD], [SREM], [SMOVE], [SISMEMBER], [SCARD],
    [SMEMBERS].  A handler keeps a pointer to the set it has looked up; here the set is
    reached through its key, so that two pointers to the same set see the same
    changes. *)

From S2P Require Import Prelude CLib Hiredis ServerSpec Util Listpack ListpackRep SetType.
From S2P Require Import Db DbRel Strings StringsSpec.

Section sets.
Context (server : environ).

Local Abbreviation junk := (new_memory server).
Local Abbreviation limits := (set_limits server).
Local Abbreviation order := (dict_order server).

(** Replace the set of a key by what a function makes of it. *)
Definition update_set (key : string) (s : set_obj) : cmd () := dict_set key (OSet s).

Definition size_at (key : string) : cmd Z :=
  s ← set_at key; '(n, s') ← lift (setTypeSize s); update_set key s';; mret n.

Definition add_at (key value : string) : cmd bool :=
  s ← set_at key; '(s', b) ← lift (setTypeAdd junk limits order s value); update_set key s';; mret b.

Definition remove_at (key value : string) : cmd bool :=
  s ← set_at key; '(s', b) ← lift (setTypeRemove junk s value); update_set key s';; mret b.

Definition is_member_at (key value : string) : cmd bool :=
  s ← set_at key; lift (setTypeIsMember s value).

(** ** SADD *)

Definition saddCommand (argv : list string) : cmd () :=
  key ← lift (argv !! 1%nat);
  first ← lift (argv !! 2%nat);
  let members := drop 2 argv in
  let hint := Z.of_nat (length members) in
  set ← lookupKeyWrite server key;
  wrong ← checkType set OBJ_SET;
  if wrong : bool then mret tt else
  (match set with
   | None => dbAdd key (OSet (setTypeCreate junk limits first hint))
   | Some _ =>
       s ← set_at key;
       s' ← lift (setTypeMaybeConvert junk limits order s hint);
       update_set key s'
   end);;
  added ← fold_cmd (λ (added : Z) value,
    b ← add_at key value; mret (if b : bool then added + 1 else added)) 0 members;
  when (negb (added =? 0))
    (size ← size_at key; hist_update OBJ_SET (size - added) size);;
  add_dirty added;;
  addReply (RInteger added).

(** ** SREM *)

(** The loop, which stops when the set has become empty and is deleted. *)
Fixpoint remove_members (key : string) (members : list string) (deleted : Z) : cmd Z :=
  match members with
  | [] => mret deleted
  | value :: members =>
      b ← remove_at key value;
      if b : bool then
        size ← size_at key;
        if size =? 0 then dbGenericDelete key;; mret (deleted + 1)
        else remove_members key members (deleted + 1)
      else remove_members key members deleted
  end.

Definition sremCommand (argv : list string) : cmd () :=
  key ← lift (argv !! 1%nat);
  set ← lookupKeyWriteOrReply server key (RInteger 0);
  match set with
  | None => mret tt
  | Some set =>
      wrong ← checkType (Some set) OBJ_SET;
      if wrong : bool then mret tt else
      oldSize ← size_at key;
      deleted ← remove_members key (drop 2 argv) 0;
      when (negb (deleted =? 0))
        (hist_update OBJ_SET oldSize (oldSize - deleted);; add_dirty deleted);;
      addReply (RInteger deleted)
  end.

(** ** SMOVE *)

(** Two keys hold the same set object only when they are the same key. *)
Definition smoveCommand (argv : list string) : cmd () :=
  src ← lift (argv !! 1%nat);
  dst ← lift (argv !! 2%nat);
  ele ← lift (argv !! 3%nat);
  srcset ← lookupKeyWrite server src;
  dstset ← lookupKeyWrite server dst;
  match srcset with
  | None => addReply (RInteger 0)
  | Some srcset =>
      wrong ← checkType (Some srcset) OBJ_SET;
      wrong ← (if wrong : bool then mret true else checkType dstset OBJ_SET);
      if wrong : bool then mret tt else
      if decide (src = dst) then
        b ← is_member_at src ele; addReply (RInteger (if b : bool then 1 else 0))
      else
      removed ← remove_at src ele;
      if negb removed then addReply (RInteger 0) else
      srcLen ← size_at src;
      hist_update OBJ_SET (srcLen + 1) srcLen;;
      when (srcLen =? 0) (dbGenericDelete src;; mret tt);;
      when (bool_decide (dstset = None)) (dbAdd dst (OSet (setTypeCreate junk limits ele 1)));;
      add_dirty 1;;
      added ← add_at dst ele;
      when added
        (dstLen ← size_at dst;
         hist_update OBJ_SET (dstLen - 1) dstLen;;
         add_dirty 1);;
      addReply (RInteger 1)
  end.

(** ** Reading a set *)

Definition sismemberCommand (argv : list string) : cmd () :=
  key ← lift (argv !! 1%nat);
  ele ← lift (argv !! 2%nat);
  set ← lookupKeyReadOrReply server key (RInteger 0);
  match set with
  | None => mret tt
  | Some set =>
      wrong ← checkType (Some set) OBJ_SET;
      if wrong : bool then mret tt else
      b ← is_member_at key ele;
      addReply (RInteger (if b : bool then 1 else 0))
  end.

Definition scardCommand (argv : list string) : cmd () :=
  key ← lift (argv !! 1%nat);
  set ← lookupKeyReadOrReply server key (RInteger 0);
  match set with
  | None => mret tt
  | Some set =>
      wrong ← checkType (Some set) OBJ_SET;
      if wrong : bool then mret tt else
      n ← size_at key; addReply (RInteger n)
  end.

(** An element as [addReplyBulkCBuffer] or [addReplyBulkLongLong] prints it. *)
Definition element_text (e : lpval) : string :=
  match e with LStr s => s | LInt z => default "" (ll2string 64 z) end.

Definition smembersCommand (argv : list string) : cmd () :=
  key ← lift (argv !! 1%nat);
  setobj ← lookupKeyRead server key;
  wrong ← checkType setobj OBJ_SET;
  if wrong : bool then mret tt else
  match setobj with
  | None => addReply (RArray [])
  | Some _ =>
      length ← size_at key;
      s ← set_at key;
      members ← lift (for_each_element order s (λ acc e, Some (acc ++ [element_text e])) []);
      serverAssert (length =? Z.of_nat (List.length members));;
      addReply (RArray members)
  end.
End sets.

(** ** Operations on the set of a key *)

(** The order of a hash table lists its elements. *)
Definition iterates (E : environ) : Prop := ∀ d, dict_order E d ≡ₚ elements d.

Lemma plain_iterates : iterates plain_env.
Proof. by intros d. Qed.

(** A set changed in place, before the histogram is brought up to date. *)
Definition resized (δ : drift) (X Y : gset string) : drift :=
  λ p, δ p + val_bin (ASet X) p - val_bin (ASet Y) p.

Lemma resized_self δ X p : resized δ X X p = δ p.
Proof. unfold resized. lia. Qed.

Lemma resized_trans δ X Y Z p : resized (resized δ X Y) Y Z p = resized δ X Z p.
Proof. unfold resized. lia. Qed.

Section at_key.
Context (E : environ) (HE : active E) (Horder : iterates E) (Hlim : limits_ok (set_limits E)).
Context (δ : drift) (S : store) (rs : list redisReply) (σ : redisServer).
Hypothesis Hσ : holds δ S rs σ.
Context (k : string) (X : gset string) (Hk : vals S !! k = Some (ASet X)).

Lemma runs_update_set s Y :
  set_rel s Y → runs (update_set k s) σ (λ _, holds (resized δ X Y) (put k (ASet Y) S) rs).
Proof using Hσ Hk.
  clear Hlim Horder HE E. intros Hs.
  finish by (by apply (runs_dict_set δ S rs σ Hσ k _ (ASet Y))). intros _ σ1 H1. by rewrite Hk in H1.
Qed.

Lemma runs_size_at : runs (size_at k) σ (λ n σ', n = Z.of_nat (size X) ∧ holds δ S rs σ').
Proof using Hσ Hk.
  clear Hlim Horder HE E. step by (by apply (runs_set_at δ S rs σ Hσ k X)). intros s ? [-> Hs].
  destruct (setTypeSize_spec s X Hs) as (s' & Hn & Hs' & _).
  eapply runs_bind, runs_lift; [exact Hn|]. cbn beta iota.
  step by (by apply (runs_update_set s' X)). intros _ σ1 H1. apply runs_ret. split; [done|].
  rewrite put_same in H1 by done. eapply holds_ext; [|exact H1]. intros p. apply resized_self.
Qed.

Lemma runs_add_at v :
  str_ok v →
  runs (add_at E k v) σ (λ b σ', b = bool_decide (v ∉ X) ∧
    holds (resized δ X ({[v]} ∪ X)) (put k (ASet ({[v]} ∪ X)) S) rs σ').
Proof using Horder Hlim Hσ Hk.
  clear HE. intros Hv. step by (by apply (runs_set_at δ S rs σ Hσ k X)). intros s ? [-> Hs].
  destruct (setTypeAddAux_spec (dict_order E) Horder (new_memory E) (set_limits E) Hlim s X (LStr v) Hs Hv)
    as (s' & Ha & Hs').
  eapply runs_bind, runs_lift; [exact Ha|]. cbn beta iota.
  step by (by apply (runs_update_set s')). intros _ σ1 H1. by apply runs_ret.
Qed.

Lemma runs_remove_at v :
  str_ok v →
  runs (remove_at E k v) σ (λ b σ', b = bool_decide (v ∈ X) ∧
    holds (resized δ X (X ∖ {[v]})) (put k (ASet (X ∖ {[v]})) S) rs σ').
Proof using Hσ Hk.
  clear Hlim HE Horder. intros Hv. step by (by apply (runs_set_at δ S rs σ Hσ k X)). intros s ? [-> Hs].
  destruct (setTypeRemoveAux_spec (new_memory E) s X (LStr v) Hs Hv) as (s' & Ha & Hs').
  eapply runs_bind, runs_lift; [exact Ha|]. cbn beta iota.
  step by (by apply (runs_update_set s')). intros _ σ1 H1. by apply runs_ret.
Qed.

Lemma runs_is_member_at v :
  str_ok v → runs (is_member_at k v) σ (λ b σ', b = bool_decide (v ∈ X) ∧ σ' = σ).
Proof using Hσ Hk.
  clear Hlim HE Horder E. intros Hv. step by (by apply (runs_set_at δ S rs σ Hσ k X)).
  intros s ? [-> Hs]. eapply runs_lift; [|done].
  by apply (setTypeIsMemberAux_spec s X (LStr v)).
Qed.
End at_key.

(** ** Reference definitions *)

(** A command that goes on unless the key holds a string; a missing key is
    the empty set. *)
Definition with_set (E : environ) (k : string) (S : store)
    (f : gset string → store * redisReply) : store * redisReply :=
  match live E S k with
  | Some (AStr _) => (touch E S k, RError wrongtypeerr)
  | Some (ASet X) => f X
  | None => f ∅
  end.

Definition sadd_result (E : environ) (k : string) (ms : list string) (S : store) :
    store * redisReply :=
  with_set E k S (λ X,
    let Y := list_to_set ms ∪ X in
    (put k (ASet Y) (touch E S k), RInteger (Z.of_nat (size Y) - Z.of_nat (size X)))).

(** A set that loses its last member is deleted. *)
Definition srem_result (E : environ) (k : string) (ms : list string) (S : store) :
    store * redisReply :=
  with_set E k S (λ X,
    let Y := X ∖ list_to_set ms in
    (if decide (Y = X) then touch E S k
     else if decide (Y = ∅) then remove k S else put k (ASet Y) (touch E S k),
     RInteger (Z.of_nat (size X) - Z.of_nat (size Y)))).

Definition sismember_result (E : environ) (k v : string) (S : store) : store * redisReply :=
  with_set E k S (λ X, (touch E S k, RInteger (if decide (v ∈ X) then 1 else 0))).

Definition scard_result (E : environ) (k : string) (S : store) : store * redisReply :=
  with_set E k S (λ X, (touch E S k, RInteger (Z.of_nat (size X)))).

(** ** The commands *)

Lemma put_put k v w S : put k w (put k v S) = put k w S.
Proof. unfold put. simpl. by rewrite insert_insert_eq. Qed.

Lemma put_lookup k v S : vals (put k v S) !! k = Some v.
Proof. apply lookup_insert_eq. Qed.

#[export] Hint Resolve put_lookup : colour.

Section commands.
Context (E : environ) (HE : active E) (Horder : iterates E) (Hlim : limits_ok (set_limits E)).

(** *** SADD *)

Lemma size_insert (X : gset string) v :
  Z.of_nat (size ({[v]} ∪ X)) = Z.of_nat (size X) + (if bool_decide (v ∉ X) then 1 else 0).
Proof using Type.
  clear. case_bool_decide as Hv.
  - rewrite size_union by set_solver. rewrite size_singleton. lia.
  - replace ({[v]} ∪ X) with X by set_solver. lia.
Qed.

Lemma runs_add_members k ms δ S rs σ X added :
  holds δ S rs σ → vals S !! k = Some (ASet X) → Forall str_ok ms →
  runs (fold_cmd (λ (added : Z) value,
      b ← add_at E k value; mret (if b : bool then added + 1 else added)) added ms) σ
    (λ n σ', n = added + Z.of_nat (size (list_to_set ms ∪ X)) - Z.of_nat (size X) ∧
      holds (resized δ X (list_to_set ms ∪ X)) (put k (ASet (list_to_set ms ∪ X)) S) rs σ').
Proof using Horder Hlim.
  clear HE. revert δ S σ X added. induction ms as [|v ms IH]; intros δ S σ X added H Hk Hms; simpl.
  - apply runs_ret. rewrite union_empty_l_L. split; [lia|]. rewrite put_same by done.
    eapply holds_ext; [|exact H]. intros p. by rewrite resized_self.
  - inversion_clear Hms as [|? ? Hv Hms']. apply runs_bind.
    step by (by apply (runs_add_at E Horder Hlim _ _ _ _ H k X Hk v)). intros b σ1 [-> H1].
    apply runs_ret. finish by (eapply IH; [exact H1|auto with colour|done]).
    intros n σ2 [-> H2]. replace ({[v]} ∪ list_to_set ms ∪ X) with (list_to_set ms ∪ ({[v]} ∪ X))
      by set_solver.
    rewrite put_put in H2. split.
    + rewrite (size_insert X v). case_bool_decide; lia.
    + eapply holds_ext; [|exact H2]. intros p. apply resized_trans.
Qed.

(** The empty set is in no bin. *)
Lemma bin_empty p : val_bin (ASet ∅) p = 0.
Proof using Type. done. Qed.

(** The command after the set [X] is there. *)
Lemma runs_sadd_members δ S rs σ k X ms :
  holds δ S rs σ → vals S !! k = Some (ASet X) → Forall str_ok ms →
  runs (added ← fold_cmd (λ (added : Z) value,
          b ← add_at E k value; mret (if b : bool then added + 1 else added)) 0 ms;
        when (negb (added =? 0))
          (size ← size_at k; hist_update OBJ_SET (size - added) size);;
        add_dirty added;;
        addReply (RInteger added)) σ
    (λ _, gives δ rs (put k (ASet (list_to_set ms ∪ X)) S,
       RInteger (Z.of_nat (size (list_to_set ms ∪ X)) - Z.of_nat (size X)))).
Proof using Horder Hlim.
  clear HE. intros H Hk Hms.
  step by (by apply (runs_add_members k ms _ _ _ _ X 0 H Hk)). intros n σ1 [-> H1].
  rewrite Z.add_0_l. set (Y := list_to_set ms ∪ X) in *.
  apply (runs_step _ _ _ (λ _, holds δ (put k (ASet Y) S) rs)).
  - apply runs_when; intros Hn.
    + step by (by apply (runs_size_at _ _ _ _ H1 k Y (put_lookup _ _ _))). intros n σ2 [-> H2].
      finish by (by apply (runs_hist_update _ _ _ _ H2)). intros _ σ3 H3.
      eapply holds_ext; [|exact H3]. intros p. unfold resized, val_bin. cbn [val_type val_len].
      replace (Z.of_nat (size Y) - (Z.of_nat (size Y) - Z.of_nat (size X)))
        with (Z.of_nat (size X)) by lia. lia.
    + apply negb_false_iff, Z.eqb_eq in Hn. eapply holds_ext; [|exact H1]. intros p.
      unfold resized, val_bin. cbn [val_type val_len].
      replace (Z.of_nat (size Y)) with (Z.of_nat (size X)) by lia. lia.
  - intros _ σ2 H2. step by (by apply (runs_add_dirty _ _ _ _ H2)). intros _ σ3 H3.
    by apply (runs_addReply _ _ _ _ H3).
Qed.

(** A key that holds a string is refused before anything is added. *)
Lemma runs_sadd_refused δ S rs σ name k ms s :
  holds δ S rs σ → ms ≠ [] → live E S k = Some (AStr s) →
  runs (saddCommand E (name :: k :: ms)) σ (λ _, gives δ rs (touch E S k, RError wrongtypeerr)).
Proof using HE.
  clear Horder Hlim. intros H Hne Hk. destruct ms as [|first ms]; [done|].
  do 2 (eapply runs_bind, runs_lift; [done|]). cbn zeta.
  step by (by apply (runs_lookupKeyWrite E HE _ _ _ _ H)). intros o σ1 [Ho H1].
  rewrite Hk in Ho. inversion Ho as [x ? Hx|]; subst. destruct x as [x|]; [|done].
  step by (by apply (runs_checkType _ _ _ _ H1 _ (AStr s))). intros b σ2 [-> H2].
  by apply runs_ret.
Qed.

Lemma runs_saddCommand δ S rs σ name k ms :
  holds δ S rs σ → ms ≠ [] → Forall str_ok ms →
  runs (saddCommand E (name :: k :: ms)) σ (λ _, gives δ rs (sadd_result E k ms S)).
Proof using HE Horder Hlim.
  intros H Hne Hms. destruct ms as [|first ms0]; [done|]. clear Hne.
  do 2 (eapply runs_bind, runs_lift; [done|]).
  change (drop 2 (name :: k :: first :: ms0)) with (first :: ms0).
  set (ms := first :: ms0) in *. cbn zeta.
  step by (by apply (runs_lookupKeyWrite E HE _ _ _ _ H)). intros o σ1 [Ho H1].
  assert (vals (touch E S k) !! k = live E S k) as Hk by done.
  unfold sadd_result, with_set.
  destruct (live E S k) as [[s|X]|]; inversion Ho as [x ? Hx|]; subst.
  - destruct x as [x|]; [|done].
    step by (by apply (runs_checkType _ _ _ _ H1 _ (AStr s))). intros b σ2 [-> H2].
    by apply runs_ret.
  - destruct x as [|x]; [done|].
    step by (by apply (runs_checkType _ _ _ _ H1 _ (ASet X))). intros b σ2 [-> H2]. cbn in H2.
    cbn [bool_decide decide_rel val_type].
    apply (runs_step _ _ _ (λ _, holds δ (touch E S k) rs)).
    + step by (by apply (runs_set_at _ _ _ _ H2 k X)). intros s ? [-> Hs].
      destruct (setTypeMaybeConvert_spec (dict_order E) Horder (new_memory E) (set_limits E) s X
        (Z.of_nat (length ms)) Hs) as (s' & Hc & Hs').
      eapply runs_bind, runs_lift; [exact Hc|].
      finish by (by apply (runs_update_set _ _ _ _ H2 k X Hk s' X)). intros _ σ3 H3.
      rewrite put_same in H3 by done. eapply holds_ext; [|exact H3]. intros p. apply resized_self.
    + intros _ σ3 H3. by apply runs_sadd_members.
  - apply runs_bind, runs_ret.
    step by (apply (runs_dbAdd _ _ _ _ H1 k _ (ASet ∅)); [apply setTypeCreate_spec|done]).
    intros _ σ2 H2. finish by (apply (runs_sadd_members _ _ _ _ k ∅ ms H2); auto with colour).
    intros _ σ3 H3. unfold gives in *. simpl in *. by rewrite put_put in H3.
Qed.

(** *** SREM *)

(** The store after members have been removed from the set [X] of a key. *)
Definition removed_store (k : string) (X Y : gset string) (S : store) : store :=
  if decide (Y = X) then S else if decide (Y = ∅) then remove k S else put k (ASet Y) S.

Lemma remove_put k v S : remove k (put k v S) = remove k S.
Proof using Type. unfold remove, put. simpl. by rewrite delete_insert_eq. Qed.

Lemma size_delete (X : gset string) v :
  v ∈ X → Z.of_nat (size X) = 1 + Z.of_nat (size (X ∖ {[v]})).
Proof using Type.
  clear. intros Hv. rewrite (union_difference_singleton_L v X Hv) at 1.
  rewrite size_union by set_solver. rewrite size_singleton. lia.
Qed.

(** One more member before the rest, when the set does not become empty. *)
Lemma removed_store_step k v X Y S :
  v ∈ X → X ∖ {[v]} ≠ ∅ → Y ⊆ X ∖ {[v]} →
  removed_store k (X ∖ {[v]}) Y (put k (ASet (X ∖ {[v]})) S) = removed_store k X Y S.
Proof using Type.
  clear. intros Hv Hne HY. unfold removed_store.
  rewrite (decide_False (P := Y = X)) by set_solver. rewrite remove_put, put_put.
  destruct (decide (Y = X ∖ {[v]})) as [->|]; [|done]. by rewrite decide_False.
Qed.

Lemma runs_remove_members k ms δ S rs σ X deleted :
  holds δ S rs σ → vals S !! k = Some (ASet X) → Forall str_ok ms →
  let Y := X ∖ list_to_set ms in
  runs (remove_members E k ms deleted) σ
    (λ n σ', n = deleted + Z.of_nat (size X) - Z.of_nat (size Y) ∧
      holds (resized δ X Y) (removed_store k X Y S) rs σ').
Proof using Type.
  clear Hlim HE Horder. revert δ S σ X deleted.
  induction ms as [|v ms IH]; intros δ S σ X deleted H Hk Hms Y; subst Y; simpl.
  - apply runs_ret. rewrite difference_empty_L. split; [lia|].
    unfold removed_store. rewrite decide_True by done.
    eapply holds_ext; [|exact H]. intros p. by rewrite resized_self.
  - inversion_clear Hms as [|? ? Hv Hms'].
    step by (by apply (runs_remove_at E _ _ _ _ H k X Hk v)). intros b σ1 [-> H1].
    replace (X ∖ ({[v]} ∪ list_to_set ms)) with (X ∖ {[v]} ∖ list_to_set ms) by set_solver.
    case_bool_decide as Hin.
    + pose proof (size_delete X v Hin) as Hsz.
      step by (by apply (runs_size_at _ _ _ _ H1 k _ (put_lookup _ _ _))). intros n σ2 [-> H2].
      destruct (Z.eqb_spec (Z.of_nat (size (X ∖ {[v]}))) 0) as [H0|H0].
      * step by (by apply (runs_dbGenericDelete _ _ _ _ H2)). intros b σ3 [_ H3].
        rewrite remove_put in H3. apply runs_ret.
        assert (X ∖ {[v]} = ∅) as He by (apply leibniz_equiv, size_empty_inv; lia).
        rewrite He in *. 
        replace (∅ ∖ list_to_set ms) with (∅ : gset string) by set_solver.
        split; [lia|]. unfold removed_store. rewrite decide_False by set_solver.
        by rewrite decide_True.
      * finish by (eapply IH; [exact H2|auto with colour|done]). intros n σ3 [-> H3].
        assert (X ∖ {[v]} ≠ ∅) as Hne by (intros He; by rewrite He, size_empty in H0).
        split; [lia|]. rewrite removed_store_step in H3 by (done || set_solver).
        eapply holds_ext; [|exact H3]. intros p. apply resized_trans.
    + replace (X ∖ {[v]}) with X in * by set_solver. rewrite put_same in H1 by done.
      finish by (eapply IH; [exact H1|done|done]). intros n σ3 [-> H3]. split; [done|].
      eapply holds_ext; [|exact H3]. intros p. apply resized_trans.
Qed.

Lemma runs_sremCommand δ S rs σ name k ms :
  holds δ S rs σ → Forall str_ok ms →
  runs (sremCommand E (name :: k :: ms)) σ (λ _, gives δ rs (srem_result E k ms S)).
Proof using HE.
  clear Hlim Horder. intros H Hms. eapply runs_bind, runs_lift; [done|].
  change (drop 2 (name :: k :: ms)) with ms.
  step by (by apply (runs_lookupKeyWriteOrReply E HE _ _ _ _ H)). intros o σ1 [Ho H1].
  assert (vals (touch E S k) !! k = live E S k) as Hk by done.
  unfold srem_result, with_set.
  destruct (live E S k) as [[s|X]|]; inversion Ho as [x ? Hx|]; subst.
  - destruct x as [x|]; [|done].
    step by (by apply (runs_checkType _ _ _ _ H1 _ (AStr s))). intros b σ2 [-> H2].
    by apply runs_ret.
  - destruct x as [|x]; [done|].
    step by (by apply (runs_checkType _ _ _ _ H1 _ (ASet X))). intros b σ2 [-> H2]. cbn in H2.
    cbn [bool_decide decide_rel val_type].
    step by (by apply (runs_size_at _ _ _ _ H2 k X Hk)). intros n σ3 [-> H3].
    step by (by apply (runs_remove_members k ms _ _ _ _ X 0 H3 Hk)). intros n σ4 [-> H4].
    rewrite Z.add_0_l. set (Y := X ∖ list_to_set ms) in *.
    apply (runs_step _ _ _ (λ _, holds δ (removed_store k X Y (touch E S k)) rs)).
    + apply runs_when; intros Hn.
      * step by (by apply (runs_hist_update _ _ _ _ H4)). intros _ σ5 H5.
        finish by (by apply (runs_add_dirty _ _ _ _ H5)). intros _ σ6 H6.
        eapply holds_ext; [|exact H6]. intros p. unfold resized, val_bin. cbn [val_type val_len].
        replace (Z.of_nat (size X) - (Z.of_nat (size X) - Z.of_nat (size Y)))
          with (Z.of_nat (size Y)) by lia. lia.
      * apply negb_false_iff, Z.eqb_eq in Hn. eapply holds_ext; [|exact H4]. intros p.
        unfold resized, val_bin. cbn [val_type val_len].
        replace (Z.of_nat (size Y)) with (Z.of_nat (size X)) by lia. lia.
    + intros _ σ5 H5. finish by (by apply (runs_addReply _ _ _ _ H5)). intros _ σ6 H6.
      unfold removed_store in H6. by rewrite remove_touch in H6.
  - apply runs_ret. unfold gives. simpl. rewrite decide_True by set_solver.
    by replace (∅ ∖ list_to_set ms) with (∅ : gset string) by set_solver.
Qed.

(** *** SMOVE *)

Lemma touch_other S k k' : k ≠ k' → vals (touch E S k') !! k = vals S !! k.
Proof using Type.
  intros Hne. unfold touch. destruct (expired E S k'); [|done]. simpl. by rewrite lookup_delete_ne.
Qed.

Lemma live_other S k k' : live E (touch E S k') k = live E S k.
Proof using Type.
  destruct (decide (k = k')) as [->|Hne]; [apply live_touch|].
  assert (expired E (touch E S k') k = expired E S k) as He.
  { unfold expired, past_time. f_equal. f_equal. unfold touch.
    destruct (expired E S k'); [|done]. simpl. by rewrite lookup_delete_ne. }
  unfold live. unfold touch at 1 3. rewrite He. destruct (expired E S k).
  - simpl. by rewrite !lookup_delete_eq.
  - by apply touch_other.
Qed.

(** Both keys after both lookups. *)
Lemma looked_up S src dst :
  vals (touch E (touch E S src) dst) !! src = live E S src ∧
  vals (touch E (touch E S src) dst) !! dst = live E S dst.
Proof using Type.
  split.
  - destruct (decide (src = dst)) as [->|Hne]; [by rewrite touch_touch|by rewrite touch_other].
  - apply live_other.
Qed.

Definition smove_result (src dst v : string) (S : store) : store * redisReply :=
  let S1 := touch E (touch E S src) dst in
  match live E S src, live E S dst with
  | None, _ => (S1, RInteger 0)
  | Some (AStr _), _ | _, Some (AStr _) => (S1, RError wrongtypeerr)
  | Some (ASet X), o =>
      if decide (src = dst) then (S1, RInteger (if decide (v ∈ X) then 1 else 0))
      else if decide (v ∈ X) then
        let Y := match o with Some (ASet Y) => Y | _ => ∅ end in
        (put dst (ASet ({[v]} ∪ Y)) (removed_store src X (X ∖ {[v]}) S1), RInteger 1)
      else (S1, RInteger 0)
  end.

(** Taking the member out of the source, before the rest [K] of the command. *)
Lemma runs_smove_source δ S rs σ src v X (K : cmd ()) Q :
  holds (resized δ X (X ∖ {[v]})) (put src (ASet (X ∖ {[v]})) S) rs σ → v ∈ X →
  (∀ σ', holds δ (removed_store src X (X ∖ {[v]}) S) rs σ' → runs K σ' Q) →
  runs (srcLen ← size_at src;
        hist_update OBJ_SET (srcLen + 1) srcLen;;
        when (srcLen =? 0) (dbGenericDelete src;; mret tt);;
        K) σ Q.
Proof using Type.
  clear. intros H Hv HK. pose proof (size_delete X v Hv) as Hsz.
  step by (by apply (runs_size_at _ _ _ _ H src _ (put_lookup _ _ _))). intros n σ1 [-> H1].
  step by (by apply (runs_hist_update _ _ _ _ H1)). intros _ σ2 H2.
  assert (holds δ (put src (ASet (X ∖ {[v]})) S) rs σ2) as H3.
  { eapply holds_ext; [|exact H2]. intros p. unfold resized, val_bin. cbn [val_type val_len].
    rewrite Hsz. rewrite (Z.add_comm 1). lia. }
  unfold removed_store in HK. rewrite decide_False in HK by set_solver.
  apply (runs_step _ _ _ (λ _, holds δ (if decide (X ∖ {[v]} = ∅) then remove src S
    else put src (ASet (X ∖ {[v]})) S) rs)); [|auto].
  apply runs_when; intros Hz.
  - apply Z.eqb_eq in Hz. assert (X ∖ {[v]} = ∅) as He by (apply leibniz_equiv, size_empty_inv; lia).
    rewrite decide_True by done. rewrite He in H3.
    step by (by apply (runs_dbGenericDelete _ _ _ _ H3)). intros b σ3 [_ H4]. apply runs_ret.
    by rewrite remove_put in H4.
  - rewrite decide_False; [done|]. intros He. rewrite He, size_empty in Hz. done.
Qed.

(** Adding it to the destination, which exists. *)
Lemma runs_smove_dest δ S rs σ dst v Y :
  holds δ S rs σ → vals S !! dst = Some (ASet Y) → str_ok v →
  runs (added ← add_at E dst v;
        when added
          (dstLen ← size_at dst;
           hist_update OBJ_SET (dstLen - 1) dstLen;;
           add_dirty 1);;
        addReply (RInteger 1)) σ
    (λ _, gives δ rs (put dst (ASet ({[v]} ∪ Y)) S, RInteger 1)).
Proof using Horder Hlim.
  clear HE. intros H Hk Hv. pose proof (size_insert Y v) as Hsz.
  step by (by apply (runs_add_at E Horder Hlim _ _ _ _ H dst Y Hk v)). intros b σ1 [-> H1].
  apply (runs_step _ _ _ (λ _, holds δ (put dst (ASet ({[v]} ∪ Y)) S) rs)).
  - apply runs_when; intros Hb; rewrite Hb in Hsz.
    + step by (by apply (runs_size_at _ _ _ _ H1 dst _ (put_lookup _ _ _))). intros n σ2 [-> H2].
      step by (by apply (runs_hist_update _ _ _ _ H2)). intros _ σ3 H3.
      finish by (by apply (runs_add_dirty _ _ _ _ H3)). intros _ σ4 H4.
      eapply holds_ext; [|exact H4]. intros p. unfold resized, val_bin. cbn [val_type val_len].
      replace (Z.of_nat (size ({[v]} ∪ Y)) - 1) with (Z.of_nat (size Y)) by lia. lia.
    + eapply holds_ext; [|exact H1]. intros p. unfold resized, val_bin. cbn [val_type val_len].
      rewrite Hsz, Z.add_0_r. lia.
  - intros _ σ2 H2. by apply (runs_addReply _ _ _ _ H2).
Qed.

Lemma removed_store_other k k' X Y S :
  k ≠ k' → vals (removed_store k X Y S) !! k' = vals S !! k'.
Proof using Type.
  intros Hne. unfold removed_store. repeat case_decide; simpl; try done.
  - by rewrite lookup_delete_ne.
  - by rewrite lookup_insert_ne.
Qed.

(** The command once both keys are known to hold sets or nothing. *)
Lemma runs_smove_sets δ S1 rs σ src dst v X (o : option robj) oY :
  holds δ S1 rs σ → vals S1 !! src = Some (ASet X) → vals S1 !! dst = ASet <$> oY →
  is_Some o ↔ is_Some oY → str_ok v →
  runs
    (if decide (src = dst) then
       b ← is_member_at src v; addReply (RInteger (if b : bool then 1 else 0))
     else
     removed ← remove_at E src v;
     if negb removed then addReply (RInteger 0) else
     srcLen ← size_at src;
     hist_update OBJ_SET (srcLen + 1) srcLen;;
     when (srcLen =? 0) (dbGenericDelete src;; mret tt);;
     when (bool_decide (o = None))
       (dbAdd dst (OSet (setTypeCreate (new_memory E) (set_limits E) v 1)));;
     add_dirty 1;;
     added ← add_at E dst v;
     when added
       (dstLen ← size_at dst;
        hist_update OBJ_SET (dstLen - 1) dstLen;;
        add_dirty 1);;
     addReply (RInteger 1)) σ
    (λ _, gives δ rs
      (if decide (src = dst) then (S1, RInteger (if decide (v ∈ X) then 1 else 0))
       else if decide (v ∈ X) then
         (put dst (ASet ({[v]} ∪ default ∅ oY)) (removed_store src X (X ∖ {[v]}) S1), RInteger 1)
       else (S1, RInteger 0))).
Proof using Horder Hlim.
  clear HE. intros H Hsrc Hdst Ho Hv. destruct (decide (src = dst)) as [_|Hne].
  { step by (by apply (runs_is_member_at _ _ _ _ H src X Hsrc v)). intros b ? [-> ->].
    case_bool_decide; [rewrite decide_True by done|rewrite decide_False by done];
      by apply (runs_addReply _ _ _ _ H). }
  step by (by apply (runs_remove_at E _ _ _ _ H src X Hsrc v)). intros b σ1 [-> H1].
  case_bool_decide as Hin; cbn [negb]; [rewrite decide_True by done|rewrite decide_False by done].
  2: { replace (X ∖ {[v]}) with X in H1 by set_solver. rewrite put_same in H1 by done.
       finish by (by apply (runs_addReply _ _ _ _ H1)). intros _ σ2 H2.
       eapply holds_ext; [|exact H2]. intros p. apply resized_self. }
  apply (runs_smove_source δ S1 rs σ1 src v X); [done..|]. intros σ2 H2.
  set (S2 := removed_store src X (X ∖ {[v]}) S1) in *.
  assert (vals S2 !! dst = ASet <$> oY) as Hd2 by (subst S2; by rewrite removed_store_other).
  apply (runs_step _ _ _ (λ _, holds δ (put dst (ASet (default ∅ oY)) S2) rs)).
  - destruct o as [o|], oY as [Y|]; simpl.
    + apply runs_ret. by rewrite put_same.
    + by destruct (proj1 Ho ltac:(eauto)) as [? [=]].
    + by destruct (proj2 Ho ltac:(eauto)) as [? [=]].
    + apply (runs_dbAdd _ _ _ _ H2 dst _ (ASet ∅)); [apply setTypeCreate_spec|done].
  - intros _ σ3 H3. step by (by apply (runs_add_dirty _ _ _ _ H3)). intros _ σ4 H4.
    finish by (apply (runs_smove_dest _ _ _ _ dst v _ H4 (put_lookup _ _ _) Hv)).
    intros _ σ5 H5. unfold gives in *. simpl in *. by rewrite put_put in H5.
Qed.

Lemma runs_smoveCommand δ S rs σ name src dst v :
  holds δ S rs σ → str_ok v →
  runs (smoveCommand E [name; src; dst; v]) σ (λ _, gives δ rs (smove_result src dst v S)).
Proof using HE Horder Hlim.
  intros H Hv. do 3 (eapply runs_bind, runs_lift; [done|]).
  step by (by apply (runs_lookupKeyWrite E HE _ _ _ _ H)). intros o1 σ1 [Ho1 H1].
  step by (by apply (runs_lookupKeyWrite E HE _ _ _ _ H1)). rewrite live_other.
  intros o2 σ2 [Ho2 H2]. destruct (looked_up S src dst) as [Hsrc Hdst].
  unfold smove_result. set (S1 := touch E (touch E S src) dst) in *.
  destruct (live E S src) as [[s|X]|]; inversion Ho1 as [x ? Hx|]; subst.
  3: { by apply (runs_addReply _ _ _ _ H2). }
  { destruct x as [x|]; [|done].
    step by (by apply (runs_checkType _ _ _ _ H2 _ (AStr s))). intros b σ3 [-> H3].
    apply runs_bind, runs_ret. by apply runs_ret. }
  destruct x as [|x]; [done|].
  step by (by apply (runs_checkType _ _ _ _ H2 _ (ASet X))). intros b σ3 [-> H3]. cbn in H3.
  cbn [bool_decide decide_rel val_type].
  destruct (live E S dst) as [[s|Y]|]; inversion Ho2 as [y ? Hy|]; subst.
  - destruct y as [y|]; [|done].
    step by (by apply (runs_checkType _ _ _ _ H3 _ (AStr s))). intros b σ4 [-> H4]. by apply runs_ret.
  - destruct y as [|y]; [done|].
    step by (by apply (runs_checkType _ _ _ _ H3 _ (ASet Y))). intros b σ4 [-> H4]. cbn in H4.
    cbn [bool_decide decide_rel val_type]. by apply (runs_smove_sets _ _ _ _ _ _ _ X _ (Some Y)).
  - apply runs_bind, runs_ret. by apply (runs_smove_sets _ _ _ _ _ _ _ X None None).
Qed.

(** *** Reading *)

Lemma runs_sismemberCommand δ S rs σ name k v :
  holds δ S rs σ → str_ok v →
  runs (sismemberCommand E [name; k; v]) σ (λ _, gives δ rs (sismember_result E k v S)).
Proof using HE.
  clear Hlim Horder. intros H Hv. do 2 (eapply runs_bind, runs_lift; [done|]).
  step by (by apply (runs_lookupKeyReadOrReply E HE _ _ _ _ H)). intros o σ1 [Ho H1].
  assert (vals (touch E S k) !! k = live E S k) as Hk by done.
  unfold sismember_result, with_set.
  destruct (live E S k) as [w|]; inversion Ho as [x ? Hx|]; subst.
  - step by (by apply (runs_checkType _ _ _ _ H1 _ w)). intros b σ2 [-> H2].
    destruct w as [s|X], x as [x|x]; try done. cbn in H2.
    cbn [bool_decide decide_rel val_type].
    step by (by apply (runs_is_member_at _ _ _ _ H2 k X Hk v)). intros b ? [-> ->].
    case_bool_decide; [rewrite decide_True by done|rewrite decide_False by done];
      by apply (runs_addReply _ _ _ _ H2).
  - apply runs_ret. unfold gives. by rewrite decide_False by set_solver.
Qed.

Lemma runs_scardCommand δ S rs σ name k :
  holds δ S rs σ →
  runs (scardCommand E [name; k]) σ (λ _, gives δ rs (scard_result E k S)).
Proof using HE.
  clear Hlim Horder. intros H. eapply runs_bind, runs_lift; [done|].
  step by (by apply (runs_lookupKeyReadOrReply E HE _ _ _ _ H)). intros o σ1 [Ho H1].
  assert (vals (touch E S k) !! k = live E S k) as Hk by done.
  unfold scard_result, with_set.
  destruct (live E S k) as [w|]; inversion Ho as [x ? Hx|]; subst; [|by apply runs_ret].
  step by (by apply (runs_checkType _ _ _ _ H1 _ w)). intros b σ2 [-> H2].
  destruct w as [s|X], x as [x|x]; try done. cbn in H2. cbn [bool_decide decide_rel val_type].
  step by (by apply (runs_size_at _ _ _ _ H2 k X Hk)). intros n σ3 [-> H3].
  by apply (runs_addReply _ _ _ _ H3).
Qed.

(** The members of a set, as they are sent. *)
Definition int_ok (e : lpval) : Prop := match e with LStr _ => True | LInt z => in_llong z end.

Lemma element_text_of e : int_ok e → element_text e = text e.
Proof using Type. destruct e as [s|z]; simpl; [done|]. intros Hz. by rewrite ll2string_pretty. Qed.

Lemma elems_int_ok s X es : set_rel s X → elems (dict_order E) s es → Forall int_ok es.
Proof using Type.
  intros Hs. destruct Hs as [t Ht Hl|lp vs Hrep Hnd|d]; simpl.
  - intros [_ ->]. apply Forall_fmap, Forall_forall. intros z Hz. by eapply values_llong.
  - intros Hes. eapply Forall_impl; [apply (rep_vals _ _ Hes)|]. by intros [].
  - intros ->. apply Forall_fmap, Forall_true. done.
Qed.

Lemma mfold_collect {A B} (f : A → B) es acc :
  mfold (λ acc e, Some (acc ++ [f e])) acc es = Some (acc ++ (f <$> es)).
Proof using Type.
  revert acc. induction es as [|e es IH]; intros acc; simpl; [by rewrite app_nil_r|].
  by rewrite IH, <- (assoc_L (++)).
Qed.

Lemma runs_members k δ S rs σ X :
  holds δ S rs σ → vals S !! k = Some (ASet X) →
  runs (s ← set_at k;
        lift (for_each_element (dict_order E) s (λ acc e, Some (acc ++ [element_text e])) [])) σ
    (λ l σ', σ' = σ ∧ l ≡ₚ elements X).
Proof using Horder.
  clear HE. intros H Hk. step by (by apply (runs_set_at _ _ _ _ H k X)). intros s ? [-> Hs].
  destruct (rel_listed (dict_order E) Horder s X Hs) as (es & Hes & Hl).
  rewrite (for_each_elems (dict_order E) s es), mfold_collect by done.
  eapply runs_lift; [done|]. split; [done|]. simpl.
  pose proof (elems_int_ok s X es Hs Hes) as Hok. destruct Hl as [Hnd <- _].
  replace (element_text <$> es) with (text <$> es); [by rewrite elements_list_to_set|].
  apply list_fmap_ext. intros i e He. symmetry. apply element_text_of. by eapply Forall_lookup_1.
Qed.

Lemma runs_smembersCommand δ S rs σ name k :
  holds δ S rs σ →
  runs (smembersCommand E [name; k]) σ (λ _ σ',
    ∃ r, members_reply (live E S k) r ∧ gives δ rs (touch E S k, r) σ').
Proof using HE Horder.
  intros H. eapply runs_bind, runs_lift; [done|].
  step by (by apply (runs_lookupKeyRead E HE _ _ _ _ H)). intros o σ1 [Ho H1].
  assert (vals (touch E S k) !! k = live E S k) as Hk by done.
  destruct (live E S k) as [w|]; inversion Ho as [x ? Hx|]; subst.
  - step by (by apply (runs_checkType _ _ _ _ H1 _ w)). intros b σ2 [-> H2].
    destruct w as [s|X], x as [x|x]; try done; cbn in H2; cbn [bool_decide decide_rel val_type].
    { apply runs_ret. by exists (RError wrongtypeerr). }
    step by (by apply (runs_size_at _ _ _ _ H2 k X Hk)). intros n σ3 [-> H3].
    pose proof (runs_members k _ _ _ _ X H3 Hk) as Hm. revert Hm.
    unfold runs at 1 2, mbind, cmd_bind. destruct (set_at k σ3) as [[s σ4]|]; [|done].
    destruct (lift _ σ4) as [[l σ5]|]; [|done]. intros [-> Hl].
    apply runs_bind, runs_assert.
    + apply Z.eqb_eq. rewrite Hl. done.
    + finish by (by apply (runs_addReply _ _ _ _ H3)). intros _ σ6 H6.
      exists (RArray l). split; [by exists l|done].
  - apply runs_bind, runs_ret. finish by (by apply (runs_addReply _ _ _ _ H1)). intros _ σ6 H6.
    by exists (RArray []).
Qed.
End commands.
