(* ===== verification/KeyCommands.v ===== *)
(** * DEL, EXISTS and KEYS

    The commands of src/redis/src/db.c on keys, whose handlers are in [Db],
    against their meaning on a store. *)

From S2P Require Import Prelude CLib Hiredis ServerSpec Util Glob SetType Db DbRel.
From S2P Require Import Strings StringsSpec SetCommands.

(** ** Reference definitions *)

Definition count_live (E : environ) (S : store) (k : string) (n : Z) : Z :=
  match live E S k with Some _ => n + 1 | None => n end.

(** The store without the keys, and how many of them were there. *)
Definition del_keys (E : environ) (ks : list string) (S : store) (n : Z) : store * Z :=
  foldl (λ Sn k, (remove k Sn.1, count_live E Sn.1 k Sn.2)) (S, n) ks.

Definition exists_keys (E : environ) (ks : list string) (S : store) (n : Z) : store * Z :=
  foldl (λ Sn k, (touch E Sn.1 k, count_live E Sn.1 k Sn.2)) (S, n) ks.

Definition del_result (E : environ) (ks : list string) (S : store) : store * redisReply :=
  ((del_keys E ks S 0).1, RInteger (del_keys E ks S 0).2).

Definition exists_result (E : environ) (ks : list string) (S : store) : store * redisReply :=
  ((exists_keys E ks S 0).1, RInteger (exists_keys E ks S 0).2).

(** The keys a pattern selects: those of the store that are not past their
    time, each once. *)
Definition keys_match (pattern k : string) : bool :=
  bool_decide (pattern = "*") || stringmatchlen pattern k false.

Definition keys_listed (E : environ) (pattern : string) (S : store) (l : list string) : Prop :=
  NoDup l ∧ ∀ k, k ∈ l ↔
    is_Some (vals S !! k) ∧ past_time E S k = false ∧ keys_match pattern k = true.

(** ** The handlers *)

Section keys.
Context (E : environ) (HE : active E) (Horder : iterates E).

Lemma runs_del_keys ks δ S rs σ n :
  holds δ S rs σ →
  runs (fold_cmd (delete_one E) n ks) σ
    (λ m σ', m = (del_keys E ks S n).2 ∧ holds δ (del_keys E ks S n).1 rs σ').
Proof using HE.
  clear Horder. revert S σ n. induction ks as [|k ks IH]; intros S σ n H; [by apply runs_ret|].
  apply (runs_step _ _ _ (λ m σ', m = count_live E S k n ∧ holds δ (remove k S) rs σ')).
  - step by (by apply (runs_expireIfNeeded E HE _ _ _ _ H)). intros st σ1 [-> H1].
    unfold count_live, live, touch in *. destruct (expired E S k).
    + apply runs_ret. simpl. by rewrite lookup_delete_eq.
    + step by (by apply (runs_dbGenericDelete _ _ _ _ H1)). intros b σ2 [-> H2].
      destruct (vals S !! k); simpl; [|by apply runs_ret].
      step by (by apply (runs_add_dirty _ _ _ _ H2)). intros _ σ3 H3. by apply runs_ret.
  - intros m σ1 [-> H1]. by apply IH.
Qed.

Lemma runs_delGenericCommand δ S rs σ name ks :
  holds δ S rs σ →
  runs (delGenericCommand E (name :: ks)) σ (λ _, gives δ rs (del_result E ks S)).
Proof using HE.
  clear Horder. intros H. step by (by apply (runs_del_keys ks _ _ _ _ 0 H)). intros m σ1 [-> H1].
  by apply (runs_addReply _ _ _ _ H1).
Qed.

Lemma runs_exists_keys ks δ S rs σ n :
  holds δ S rs σ →
  runs (fold_cmd (λ count key,
      o ← lookupKeyReadWithFlags E key LOOKUP_NOTOUCH;
      mret (match o with Some _ => count + 1 | None => count end)) n ks) σ
    (λ m σ', m = (exists_keys E ks S n).2 ∧ holds δ (exists_keys E ks S n).1 rs σ').
Proof using HE.
  clear Horder. revert S σ n. induction ks as [|k ks IH]; intros S σ n H; [by apply runs_ret|].
  cbn [fold_cmd]. apply runs_bind.
  step by (by apply (runs_lookupKeyReadWithFlags E HE _ _ _ _ H)). intros o σ1 [Ho H1].
  apply runs_ret. finish by (by apply (IH _ _ _ H1)). intros m σ2 [-> H2].
  unfold exists_keys, count_live in *. simpl.
  by destruct (live E S k); inversion Ho; subst.
Qed.

Lemma runs_existsCommand δ S rs σ name ks :
  holds δ S rs σ →
  runs (existsCommand E (name :: ks)) σ (λ _, gives δ rs (exists_result E ks S)).
Proof using HE.
  clear Horder. intros H. step by (by apply (runs_exists_keys ks _ _ _ _ 0 H)). intros m σ1 [-> H1].
  by apply (runs_addReply _ _ _ _ H1).
Qed.

Lemma rel_dom δ d S k : db_rel δ d S → is_Some (keys d !! k) ↔ is_Some (vals S !! k).
Proof using Type. intros H. pose proof (rel_vals _ _ _ H k) as Hk. by destruct Hk. Qed.

Lemma runs_keysCommand δ S rs σ name pattern :
  holds δ S rs σ →
  runs (keysCommand E [name; pattern]) σ (λ _ σ',
    ∃ l, keys_listed E pattern S l ∧ gives δ rs (S, RArray l) σ').
Proof using Horder.
  clear HE. intros H. eapply runs_bind, runs_lift; [done|]. apply runs_bind. cbn.
  eexists. split; [|exact (runs_addReply _ _ _ _ H (RArray _))].
  split.
  - apply NoDup_filter. rewrite (Horder (dom (keys (db σ)))). apply NoDup_elements.
  - intros k. rewrite list_elem_of_filter, (Horder (dom (keys (db σ)))), elem_of_elements, elem_of_dom.
    rewrite (rel_dom δ _ S k) by apply H. rewrite (keyIsExpired_past E δ S rs σ H).
    unfold keys_match. destruct (past_time E S k); simpl; rewrite ?andb_false_r, ?andb_true_r; naive_solver.
Qed.
End keys.
