(* ===== verification/SetAlgebra.v ===== *)
(** * Intersections, unions and differences of sets

    src/redis/src/t_set.c: [SINTER], [SUNION] and [SDIFF], with the variants
    that store the result or count it.  The intersection iterates the smallest
    set; the difference chooses between two algorithms by the work they need.
    Whatever the encodings, the order and the algorithm, the result is the
    intersection, the union or the difference of the sets of the store. *)

From S2P Require Import Prelude CLib Hiredis ServerSpec Util Intset Listpack ListpackRep SetType.
From S2P Require Import Db DbRel Strings StringsSpec SetCommands KeyCommands.

(** A reply announced with [n] elements and filled with [l].  A negative length
    fails the assertion of [addReplyAggregateLen]; another length is a reply
    that the client could not read, and the model stops there too. *)
Definition reply_array (n : Z) (l : list string) : cmd () :=
  if n =? Z.of_nat (length l) then addReply (RArray l) else serverPanic.

(** [sets[j]]: NULL, or the object of a key. *)
Definition set_ptr : Type := option string.

Definition collect {A B} (f : A → cmd B) (l : list A) : cmd (list B) :=
  fold_cmd (λ acc x, y ← f x; mret (acc ++ [y])) [] l.

Section algebra.
Context (server : environ).

Local Abbreviation junk := (new_memory server).
Local Abbreviation limits := (set_limits server).
Local Abbreviation order := (dict_order server).

(** The sets of the keys; [None] after a key of another type. *)
Fixpoint lookup_sets (setkeys : list string) (sets : list set_ptr) : cmd (option (list set_ptr)) :=
  match setkeys with
  | [] => mret (Some sets)
  | key :: setkeys =>
      setobj ← lookupKeyRead server key;
      match setobj with
      | None => lookup_sets setkeys (sets ++ [None])
      | Some o =>
          wrong ← checkType (Some o) OBJ_SET;
          if wrong : bool then mret None else lookup_sets setkeys (sets ++ [Some key])
      end
  end.

(** A set pointer with the cardinality that the comparisons use. *)
Definition sized (p : set_ptr) : cmd (Z * set_ptr) :=
  match p with
  | Some key => n ← size_at key; mret (n, p)
  | None => mret (0, p)
  end.

Definition qsortCompareSetsByCardinality (a b : Z * set_ptr) : Z :=
  if b.1 <? a.1 then 1 else if a.1 <? b.1 then -1 else 0.

Definition qsortCompareSetsByRevCardinality (a b : Z * set_ptr) : Z :=
  if a.1 <? b.1 then 1 else if b.1 <? a.1 then -1 else 0.

Definition sort_sets (cmp : Z * set_ptr → Z * set_ptr → Z) (sets : list set_ptr) :
    cmd (list set_ptr) :=
  l ← collect sized sets; mret (qsort cmp l).*2.

(** The objects of the pointers that are not NULL. *)
Definition objects (sets : list set_ptr) : cmd (list set_obj) := collect set_at (omap id sets).

(** ** SINTER *)

(** The loop over the other sets, which stops at the first that lacks [e]. *)
Fixpoint in_all (e : lpval) (others : list set_obj) : option bool :=
  match others with
  | [] => Some true
  | s :: others =>
      match setTypeIsMemberAux s e with
      | None => None
      | Some true => in_all e others
      | Some false => Some false
      end
  end.

(** The elements of the first set that are in all the others. *)
Definition common_elements {A} (first : set_obj) (others : list set_obj)
    (body : A → lpval → option A) (acc : A) : option A :=
  for_each_element order first (λ acc e,
    b ← in_all e others; if b : bool then body acc e else Some acc) acc.

(** Counting stops at the limit, after which the loop of the code ends; [0] is
    no limit. *)
Definition count_element (limit cardinality : Z) : Z :=
  if negb (limit =? 0) && (limit <=? cardinality) then cardinality else cardinality + 1.

Definition is_ht (s : set_obj) : bool := match s with SHt _ => true | _ => false end.

(** Add an element to the destination; [from_ht] tells whether it was read from
    a hash table, where an integer looks like any other string. *)
Definition store_element (from_ht : bool) (dst : set_obj * bool) (e : lpval) :
    option (set_obj * bool) :=
  let '(dstset, only_integers) := dst in
  let '(e, only_integers) :=
    match e with
    | LStr str =>
        if only_integers then
          match (if from_ht then string2ll str else None) with
          | Some z => (if is_ht dstset then e else LInt z, true)
          | None => (e, false)
          end
        else (e, false)
    | LInt _ => (e, only_integers)
    end in
  '(dstset, _) ← setTypeAddAux junk limits order dstset e; Some (dstset, only_integers).

(** The empty set of the encoding that the result is likely to have. *)
Definition result_set (first : set_obj) : set_obj :=
  match first with
  | SIntset _ => SIntset intsetNew
  | SListpack lp => SListpack (lpNew junk (Z.to_nat (lpBytes lp)))
  | SHt _ => SListpack (lpNew junk 0)
  end.

Definition shrink (s : set_obj) : set_obj :=
  match s with SListpack lp => SListpack (lpShrinkToFit junk lp) | _ => s end.

(** The destination is replaced, or deleted when there is nothing to store. *)
Definition store_set (dstkey : string) (dstset : set_obj) : cmd () :=
  setKey server dstkey (OSet dstset) 0;;
  n ← size_at dstkey;
  addReply (RInteger n);;
  add_dirty 1.

Definition store_empty (dstkey : string) : cmd () :=
  addReply (RInteger 0);;
  deleted ← dbGenericDelete dstkey;
  when deleted (add_dirty 1).

(** The reply when one of the sets is empty. *)
Definition empty_result (dstkey : option string) (cardinality_only : bool) : cmd () :=
  match dstkey with
  | Some dstkey =>
      deleted ← dbGenericDelete dstkey;
      when deleted (add_dirty 1);;
      addReply (RInteger 0)
  | None => addReply (if cardinality_only then RInteger 0 else RArray [])
  end.

Definition sinterGenericCommand (setkeys : list string) (dstkey : option string)
    (cardinality_only : bool) (limit : Z) : cmd () :=
  found ← lookup_sets setkeys [];
  match found with
  | None => mret tt
  | Some sets =>
      if bool_decide (None ∈ sets) then empty_result dstkey cardinality_only else
      sets ← sort_sets qsortCompareSetsByCardinality sets;
      first ← lift (sets !! 0%nat);
      others ← objects (filter (λ p, p ≠ first) (drop 1 sets));
      key ← lift first;
      s ← set_at key;
      if cardinality_only then
        n ← lift (common_elements s others (λ n _, Some (count_element limit n)) 0);
        addReply (RInteger n)
      else match dstkey with
      | None =>
          '(n, l) ← lift (common_elements s others
            (λ nl e, Some (nl.1 + 1, nl.2 ++ [element_text e])) (0, []));
          reply_array n l
      | Some dstkey =>
          '(dstset, only_integers) ← lift (common_elements s others
            (store_element (is_ht s)) (result_set s, true));
          '(n, dstset) ← lift (setTypeSize dstset);
          if 0 <? n then
            dstset ← lift (if only_integers : bool
              then maybeConvertToIntset junk limits order dstset else Some dstset);
            store_set dstkey (shrink dstset)
          else store_empty dstkey
      end
  end.

Definition sinterCommand (argv : list string) : cmd () :=
  sinterGenericCommand (drop 1 argv) None false 0.

Definition sinterstoreCommand (argv : list string) : cmd () :=
  dstkey ← lift (argv !! 1%nat);
  sinterGenericCommand (drop 2 argv) (Some dstkey) false 0.

(** [SINTERCARD]: the options after the keys. *)
Fixpoint limit_option (limit : Z) (args : list string) : cmd (option Z) :=
  match args with
  | [] => mret (Some limit)
  | opt :: arg :: args =>
      if strcaseeq opt "limit" then
        v ← getRangeLongFromObjectOrReply arg 0 LLONG_MAX "LIMIT can't be negative";
        match v with None => mret None | Some limit => limit_option limit args end
      else addReply (RError syntaxerr);; mret None
  | [_] => addReply (RError syntaxerr);; mret None
  end.

Definition sinterCardCommand (argv : list string) : cmd () :=
  arg ← lift (argv !! 1%nat);
  v ← getRangeLongFromObjectOrReply arg 1 LLONG_MAX "numkeys should be greater than 0";
  match v with
  | None => mret tt
  | Some numkeys =>
      if Z.of_nat (length argv) - 2 <? numkeys then
        addReplyError "Number of keys can't be greater than number of args"
      else
        limit ← limit_option 0 (drop (2 + Z.to_nat numkeys) argv);
        match limit with
        | None => mret tt
        | Some limit =>
            sinterGenericCommand (take (Z.to_nat numkeys) (drop 2 argv)) None true limit
        end
  end.

(** ** SUNION and SDIFF *)

Inductive set_op : Set := SET_OP_UNION | SET_OP_DIFF.

(** Add or remove the elements of a set, and keep count: the cardinality is an
    [int], which wraps around. *)
Definition card_add (cardinality : Z) (added : bool) : Z :=
  wrap_s 32 (cardinality + if added then 1 else 0).

Definition card_sub (cardinality : Z) (removed : bool) : Z :=
  wrap_s 32 (cardinality - if removed then 1 else 0).

Definition add_elements (dst : set_obj * Z) (s : set_obj) : option (set_obj * Z) :=
  for_each_element order s (λ dst e,
    '(dstset, b) ← setTypeAddAux junk limits order dst.1 e;
    Some (dstset, card_add dst.2 b)) dst.

Definition remove_elements (dst : set_obj * Z) (s : set_obj) : option (set_obj * Z) :=
  for_each_element order s (λ dst e,
    '(dstset, b) ← setTypeRemoveAux junk dst.1 e;
    Some (dstset, card_sub dst.2 b)) dst.

(** The loop over the other sets, which stops at the first that has [e]. *)
Fixpoint in_some (e : lpval) (others : list set_obj) : option bool :=
  match others with
  | [] => Some false
  | s :: others =>
      match setTypeIsMemberAux s e with
      | None => None
      | Some true => Some true
      | Some false => in_some e others
      end
  end.

(** Algorithm 1: the elements of the first set that no other set has. *)
Definition diff_algo_1 (dst : set_obj * Z) (first : set_obj) (others : list set_obj) :
    option (set_obj * Z) :=
  for_each_element order first (λ dst e,
    b ← in_some e others;
    if b : bool then Some dst
    else '(dstset, b) ← setTypeAddAux junk limits order dst.1 e;
         Some (dstset, card_add dst.2 b)) dst.

(** Algorithm 2: all the elements of the first set, less those of the others,
    until none is left. *)
Fixpoint remove_all (dst : set_obj * Z) (others : list set_obj) : option (set_obj * Z) :=
  if dst.2 =? 0 then Some dst else
  match others with
  | [] => Some dst
  | s :: others => dst ← remove_elements dst s; remove_all dst others
  end.

Definition diff_algo_2 (dst : set_obj * Z) (first : set_obj) (others : list set_obj) :
    option (set_obj * Z) :=
  dst ← add_elements dst first; remove_all dst others.

(** The work of the two algorithms, counted as a [long long] over the sets that
    exist; the first is favoured. *)
Definition choose_algo (sizes : list (Z * set_ptr)) : Z :=
  let present := filter (λ x, x.2 ≠ None) sizes in
  let first := default 0 (fst <$> sizes !! 0%nat) in
  let '(algo_one_work, algo_two_work) :=
    foldl (λ w x, (wrap_s 64 (w.1 + first), wrap_s 64 (w.2 + x.1))) (0, 0) present in
  if Z.quot algo_one_work 2 <=? algo_two_work then 1 else 2.

Definition is_intset (s : set_obj) : bool := match s with SIntset _ => true | _ => false end.

(** The difference, when the first set exists and is not subtracted. *)
Definition sdiff_sets (dst : set_obj * Z) (first : string) (rest : list set_ptr) :
    cmd (set_obj * Z) :=
  sizes ← collect sized (Some first :: rest);
  if choose_algo sizes =? 1 then
    rest ← sort_sets qsortCompareSetsByRevCardinality rest;
    others ← objects rest;
    s ← set_at first;
    lift (diff_algo_1 dst s others)
  else
    others ← objects rest;
    s ← set_at first;
    lift (diff_algo_2 dst s others).

Definition sunionDiffGenericCommand (setkeys : list string) (dstkey : option string) (op : set_op) :
    cmd () :=
  found ← lookup_sets setkeys [];
  match found with
  | None => mret tt
  | Some sets =>
      first ← lift (sets !! 0%nat);
      objs ← objects sets;
      let dstset :=
        if bool_decide (dstkey = None) && negb (forallb is_intset objs) then SHt ∅
        else SIntset intsetNew in
      let sameset := bool_decide (is_Some first ∧ first ∈ drop 1 sets) in
      '(dstset, cardinality) ←
        (match op with
         | SET_OP_UNION =>
             lift (foldl (λ dst s, dst ← dst; add_elements dst s) (Some (dstset, 0)) objs)
         | SET_OP_DIFF =>
             if sameset then mret (dstset, 0) else
             match first with
             | None => mret (dstset, 0)
             | Some first => sdiff_sets (dstset, 0) first (drop 1 sets)
             end
         end);
      match dstkey with
      | None =>
          l ← lift (for_each_element order dstset (λ l e, Some (l ++ [element_text e])) []);
          reply_array cardinality l
      | Some dstkey =>
          '(n, dstset) ← lift (setTypeSize dstset);
          if 0 <? n then store_set dstkey dstset else store_empty dstkey
      end
  end.

Definition sunionCommand (argv : list string) : cmd () :=
  sunionDiffGenericCommand (drop 1 argv) None SET_OP_UNION.
Definition sdiffCommand (argv : list string) : cmd () :=
  sunionDiffGenericCommand (drop 1 argv) None SET_OP_DIFF.
Definition sunionstoreCommand (argv : list string) : cmd () :=
  dstkey ← lift (argv !! 1%nat);
  sunionDiffGenericCommand (drop 2 argv) (Some dstkey) SET_OP_UNION.
Definition sdiffstoreCommand (argv : list string) : cmd () :=
  dstkey ← lift (argv !! 1%nat);
  sunionDiffGenericCommand (drop 2 argv) (Some dstkey) SET_OP_DIFF.
End algebra.
