(* ===== verification/SetAlgebraSpec.v ===== *)
(** * The set operations compute intersections, unions and differences

    The algorithms of [SetAlgebra] on the sets that objects stand for, then
    the commands on a store. *)

From S2P Require Import Prelude CLib Hiredis ServerSpec Util Intset Listpack ListpackRep SetType.
From S2P Require Import Db DbRel Strings StringsSpec SetCommands KeyCommands SetAlgebra.

(** The members of a set are Redis strings. *)
Definition strings_ok (X : gset string) : Prop := set_Forall str_ok X.

#[export] Instance str_ok_dec s : Decision (str_ok s).
Proof. unfold str_ok. apply _. Defined.
#[export] Instance strings_ok_dec X : Decision (strings_ok X).
Proof. unfold strings_ok. apply _. Defined.

(** A set whose cardinality is an [int]. *)
Definition few (X : gset string) : Prop := Z.of_nat (size X) ≤ INT_MAX.

#[export] Instance few_dec X : Decision (few X).
Proof. unfold few. apply _. Defined.

Lemma few_subseteq X Y : X ⊆ Y → few Y → few X.
Proof. intros ?%subseteq_size. unfold few. lia. Qed.

Lemma card_add_few n b : 0 ≤ n → n + (if b : bool then 1 else 0) ≤ INT_MAX →
  card_add n b = n + if b : bool then 1 else 0.
Proof. intros. apply wrap_s_32. unfold_ints. unfold INT_MAX in *. destruct b; lia. Qed.

Lemma card_sub_few n b : (if b : bool then 1 else 0) ≤ n ≤ INT_MAX →
  card_sub n b = n - if b : bool then 1 else 0.
Proof. intros. apply wrap_s_32. unfold_ints. unfold INT_MAX in *. destruct b; lia. Qed.

(** With one member more than an [int] counts, the announced length is negative
    and the server stops. *)
Lemma card_overflows l σ : reply_array (card_add INT_MAX true) l σ = None.
Proof.
  unfold reply_array. destruct (Z.eqb_spec (card_add INT_MAX true) (Z.of_nat (length l))) as [H|H];
    [|done]. vm_compute (card_add _ _) in H. lia.
Qed.

(** ** Loops over elements *)

Lemma mfold_app {A B} (body : A → B → option A) acc es es' :
  mfold body acc (es ++ es') = mfold body acc es ≫= λ acc, mfold body acc es'.
Proof.
  revert acc. induction es as [|e es IH]; intros acc; simpl; [done|].
  by destruct (body acc e) as [acc'|]; simpl; [apply IH|].
Qed.

(** An invariant of a loop that never fails, with the elements seen so far. *)
Lemma mfold_inv {A B} (body : A → B → option A) (I : list B → A → Prop) (P : B → Prop) es acc :
  Forall P es → I [] acc →
  (∀ seen acc e, P e → I seen acc → ∃ acc', body acc e = Some acc' ∧ I (seen ++ [e]) acc') →
  ∃ acc', mfold body acc es = Some acc' ∧ I es acc'.
Proof.
  intros HP H0 Hstep. enough (∀ es seen acc, Forall P es → I seen acc →
    ∃ acc', mfold body acc es = Some acc' ∧ I (seen ++ es) acc') as H by (by apply (H es [] acc)).
  clear es acc HP H0. induction es as [|e es IH]; intros seen acc HP HI.
  - exists acc. by rewrite app_nil_r.
  - inversion_clear HP as [|? ? He Hes]. destruct (Hstep seen acc e He HI) as (acc' & Hb & HI').
    simpl. rewrite Hb. destruct (IH (seen ++ [e]) acc' Hes HI') as (acc'' & ? & ?).
    exists acc''. by rewrite <- (assoc_L (++)) in *.
Qed.

(** A loop that skips elements. *)
Lemma mfold_filter {A B} (loop body : A → B → option A) (p : B → Prop)
    `{!∀ x, Decision (p x)} es acc :
  Forall (λ e, ∀ acc, loop acc e = if decide (p e) then body acc e else Some acc) es →
  mfold loop acc es = mfold body acc (filter p es).
Proof.
  intros Hloop. revert acc. induction Hloop as [|e es He _ IH]; intros acc; [done|].
  cbn [mfold]. rewrite He, filter_cons. destruct (decide (p e)); [|apply IH].
  cbn [mfold]. destruct (body acc e); [apply IH|done].
Qed.

(** ** Membership in several sets *)

Section sets.
Context (E : environ) (Horder : iterates E) (Hlim : limits_ok (set_limits E)).

Lemma in_all_spec e others Xs :
  ele_ok e → Forall2 set_rel others Xs →
  in_all e others = Some (bool_decide (Forall (λ X, text e ∈ X) Xs)).
Proof using Type.
  intros He. induction 1 as [|s X others Xs Hs _ IH]; [done|]. cbn [in_all].
  rewrite (setTypeIsMemberAux_spec s X e) by done. cbn.
  destruct (bool_decide_reflect (text e ∈ X)) as [Hin|Hin].
  - rewrite IH. f_equal. apply bool_decide_ext. rewrite Forall_cons. tauto.
  - f_equal. symmetry. apply bool_decide_eq_false_2. rewrite Forall_cons. tauto.
Qed.

Lemma in_some_spec e others Xs :
  ele_ok e → Forall2 set_rel others Xs →
  in_some e others = Some (bool_decide (Exists (λ X, text e ∈ X) Xs)).
Proof using Type.
  intros He. induction 1 as [|s X others Xs Hs _ IH]; cbn [in_some].
  { done. }
  rewrite (setTypeIsMemberAux_spec s X e) by done. cbn.
  destruct (bool_decide_reflect (text e ∈ X)) as [Hin|Hin].
  - f_equal. symmetry. apply bool_decide_eq_true_2. by left.
  - rewrite IH. f_equal. apply bool_decide_ext. rewrite Exists_cons. tauto.
Qed.

(** The elements of an object, in the order of the iterator. *)
Lemma set_elements s X :
  set_rel s X → strings_ok X →
  ∃ es, elems (dict_order E) s es ∧ NoDup (text <$> es) ∧ list_to_set (text <$> es) = X ∧
    Forall ele_ok es.
Proof using Horder.
  intros Hs HX. destruct (rel_listed (dict_order E) Horder s X Hs) as (es & Hes & [Hnd Hl _]).
  exists es. split_and!; try done.
  pose proof (elems_int_ok E s X es Hs Hes) as Hi. apply Forall_forall. intros e He.
  rewrite Forall_forall in Hi. specialize (Hi e He). destruct e as [str|z]; [|done].
  apply HX. subst X. apply elem_of_list_to_set, list_elem_of_fmap. by exists (LStr str).
Qed.

(** The elements of the first set that satisfy a test make up a subset. *)
Lemma filtered_elements (es : list lpval) (p : string → Prop) `{!∀ x, Decision (p x)} :
  NoDup (text <$> es) →
  NoDup (text <$> filter (λ e, p (text e)) es) ∧
  list_to_set (text <$> filter (λ e, p (text e)) es) =@{gset string}
    filter p (list_to_set (text <$> es)).
Proof using Type.
  clear. intros Hnd. split.
  - eapply sublist_NoDup; [done|]. apply fmap_sublist, sublist_filter.
  - apply set_eq. intros x. rewrite elem_of_filter, !elem_of_list_to_set, !list_elem_of_fmap.
    setoid_rewrite list_elem_of_filter. naive_solver.
Qed.

Lemma size_texts (es : list lpval) :
  NoDup (text <$> es) → size (list_to_set (text <$> es) : gset string) = length es.
Proof using Type. intros Hnd. by rewrite size_list_to_set, length_fmap. Qed.

(** ** The intersection *)

(** The members that all the sets have. *)
Definition inter_all (X : gset string) (Xs : list (gset string)) : gset string :=
  filter (λ x, Forall (λ Y, x ∈ Y) Xs) X.

Lemma common_elements_spec {A} s X others Xs (body : A → lpval → option A) acc :
  set_rel s X → strings_ok X → Forall2 set_rel others Xs →
  ∃ es, common_elements E s others body acc = mfold body acc es ∧ Forall ele_ok es ∧
    NoDup (text <$> es) ∧ list_to_set (text <$> es) = inter_all X Xs.
Proof using Horder.
  intros Hs HX Hothers. destruct (set_elements s X Hs HX) as (es & Hes & Hnd & Hl & Hok).
  destruct (filtered_elements es (λ x, Forall (λ Y, x ∈ Y) Xs) Hnd) as [Hnd' Hl'].
  exists (filter (λ e, Forall (λ Y, text e ∈ Y) Xs) es). split_and!; [| |done|by rewrite Hl', Hl].
  - unfold common_elements. rewrite (for_each_elems _ _ es) by done. apply mfold_filter.
    eapply Forall_impl; [done|]. intros e He acc'. rewrite (in_all_spec e others Xs) by done. cbn.
    destruct (bool_decide_reflect (Forall (λ Y, text e ∈ Y) Xs)); by destruct (decide _).
  - apply Forall_forall. intros e [_ He]%list_elem_of_filter. rewrite Forall_forall in Hok. by apply Hok.
Qed.

(** Counting up to a limit. *)
Definition limited (limit n : Z) : Z := if limit =? 0 then n else Z.min limit n.

Lemma count_elements limit (es : list lpval) n :
  0 ≤ limit → 0 ≤ n →
  mfold (λ n _, Some (count_element limit n)) (limited limit n) es =
  Some (limited limit (n + Z.of_nat (length es))).
Proof using Type.
  intros Hlimit. revert n. induction es as [|e es IH]; intros n Hn; cbn [mfold length].
  { by rewrite Z.add_0_r. }
  replace (count_element limit (limited limit n)) with (limited limit (n + 1)).
  - rewrite IH by lia. do 2 f_equal. lia.
  - unfold count_element, limited. destruct (Z.eqb_spec limit 0); [done|]. simpl.
    destruct (Z.leb_spec limit (Z.min limit n)); lia.
Qed.

(** The elements gathered for a reply. *)
Lemma reply_elements (es : list lpval) n l :
  mfold (λ nl e, Some (nl.1 + 1, nl.2 ++ [element_text e])) (n, l) es =
  Some (n + Z.of_nat (length es), l ++ (element_text <$> es)).
Proof using Type.
  revert n l. induction es as [|e es IH]; intros n l; cbn [mfold length].
  { by rewrite Z.add_0_r, app_nil_r. }
  rewrite IH. cbn [fst snd]. rewrite <- (assoc_L (++)). do 2 f_equal. lia.
Qed.

Lemma element_texts es : Forall ele_ok es → element_text <$> es = text <$> es.
Proof using Type.
  intros Hok. apply list_fmap_ext. intros i e He. apply element_text_of.
  eapply Forall_lookup_1 in Hok; [|done]. by destruct e.
Qed.

(** A destination being filled, of integers only as far as is known. *)
Definition integer_text (x : string) : Prop := ∃ z, in_llong z ∧ x = pretty z.

Definition filled (seen : list lpval) (dst : set_obj * bool) : Prop :=
  set_rel dst.1 (list_to_set (text <$> seen)) ∧
  (dst.2 = true → Forall (λ e, integer_text (text e)) seen).

Lemma store_element_spec from_ht seen dst e :
  ele_ok e → filled seen dst →
  ∃ dst', store_element E from_ht dst e = Some dst' ∧ filled (seen ++ [e]) dst'.
Proof using Horder Hlim.
  destruct dst as [dst only]. intros He [Hdst Honly]. cbn [fst snd] in *.
  enough (∃ e' only', text e' = text e ∧ ele_ok e' ∧
    (only' = true → only = true ∧ integer_text (text e)) ∧
    store_element E from_ht (dst, only) e =
      ('(dst', _) ← setTypeAddAux (new_memory E) (set_limits E) (dict_order E) dst e';
       Some (dst', only'))) as (e' & only' & Ht & Hok & Hint & ->).
  { destruct (setTypeAddAux_spec (dict_order E) Horder (new_memory E) (set_limits E) Hlim dst _ e' Hdst Hok)
      as (dst' & -> & Hdst'). exists (dst', only'). split; [done|]. split; cbn [fst snd].
    - rewrite fmap_app, list_to_set_app_L, Ht in *. simpl.
      by rewrite union_empty_r_L, (comm_L (∪)).
    - intros Ho. destruct (Hint Ho) as [Hh ?]. apply Forall_app. split; [by apply Honly|].
      by apply Forall_singleton. }
  unfold store_element. destruct e as [str|z].
  - destruct only; [|by exists (LStr str), false].
    destruct (if from_ht then string2ll str else None) as [z|] eqn:Hz; [|by exists (LStr str), false].
    destruct from_ht; [|done]. apply string2ll_spec in Hz as [Hz ->].
    assert (integer_text (pretty z)) by (by exists z).
    destruct (is_ht dst); [by exists (LStr (pretty z)), true|by exists (LInt z), true].
  - exists (LInt z), only. split_and!; try done. intros ->. split; [done|]. by exists z.
Qed.

Lemma intset_empty_rel : set_rel (SIntset intsetNew) ∅.
Proof using Type.
  clear. destruct intsetNew_wf as [Hwf He].
  replace (∅ : gset string) with (set_map pretty (set_of intsetNew) : gset string)
    by (rewrite He; set_solver). constructor; [done|simpl; lia].
Qed.

Lemma result_set_rel s : set_rel (result_set E s) ∅.
Proof using Type.
  destruct s as [i|lp|d]; cbn [result_set].
  - apply intset_empty_rel.
  - apply (rel_listpack _ []); [apply lpNew_rep|apply NoDup_nil_2].
  - apply (rel_listpack _ []); [apply lpNew_rep|apply NoDup_nil_2].
Qed.

Lemma shrink_rel s X : set_rel s X → set_rel (shrink E s) X.
Proof using Type. destruct 1; cbn [shrink]; auto using lpShrinkToFit_keeps with colour. Qed.

(** ** Unions and differences *)

(** Adding and removing elements keep the count of the destination. *)
Definition counted (X : gset string) (dst : set_obj * Z) : Prop :=
  set_rel dst.1 X ∧ dst.2 = Z.of_nat (size X).

Definition add_one (dst : set_obj * Z) (e : lpval) : option (set_obj * Z) :=
  '(dstset, b) ← setTypeAddAux (new_memory E) (set_limits E) (dict_order E) dst.1 e;
  Some (dstset, card_add dst.2 b).

Lemma add_all es dst X :
  Forall ele_ok es → counted X dst → few (X ∪ list_to_set (text <$> es)) →
  ∃ dst', mfold add_one dst es = Some dst' ∧ counted (X ∪ list_to_set (text <$> es)) dst'.
Proof using Horder Hlim.
  intros Hes H Hfew. set (Y := list_to_set (text <$> es)) in Hfew.
  enough (∃ dst', mfold add_one dst es = Some dst' ∧
    counted (X ∪ list_to_set (text <$> es)) dst' ∧ list_to_set (text <$> es) ⊆ Y)
    as (d & ? & ? & _) by (by exists d).
  apply (mfold_inv _ (λ seen d, counted (X ∪ list_to_set (text <$> seen)) d ∧
    list_to_set (text <$> seen) ⊆ Y) (λ e, ele_ok e ∧ text e ∈ Y)).
  { apply Forall_forall. intros e He. split; [by rewrite Forall_forall in Hes; apply Hes|].
    by apply elem_of_list_to_set, list_elem_of_fmap_2. }
  { simpl. rewrite union_empty_r_L. split; [done|apply empty_subseteq]. }
  clearbody Y. clear Hes. intros seen [d n] e [He HY] [[Hd Hn] Hseen]. cbn [fst snd] in *.
  unfold add_one. cbn [fst snd].
  destruct (setTypeAddAux_spec (dict_order E) Horder (new_memory E) (set_limits E) Hlim d _ e Hd He)
    as (d' & -> & Hd'). eexists. split; [done|].
  rewrite fmap_app, list_to_set_app_L. simpl. rewrite union_empty_r_L.
  split; [|clear - HY Hseen; set_solver].
  replace (X ∪ _) with ({[text e]} ∪ (X ∪ list_to_set (text <$> seen))) by (clear; set_solver).
  assert (few ({[text e]} ∪ (X ∪ list_to_set (text <$> seen)))) as Hf.
  { eapply few_subseteq; [|exact Hfew]. clear - HY Hseen. set_solver. }
  unfold few in Hf. split; cbn [fst snd]; [done|]. rewrite size_insert in *. rewrite Hn.
  rewrite card_add_few; case_bool_decide; simpl; lia.
Qed.

Lemma add_elements_spec dst X s Y :
  counted X dst → set_rel s Y → strings_ok Y → few (X ∪ Y) →
  ∃ dst', add_elements E dst s = Some dst' ∧ counted (X ∪ Y) dst'.
Proof using Horder Hlim.
  intros H Hs HY Hf. destruct (set_elements s Y Hs HY) as (es & Hes & _ & <- & Hok).
  unfold add_elements. rewrite (for_each_elems _ _ es) by done. by apply (add_all es).
Qed.

Definition union_all (Xs : list (gset string)) : gset string := ⋃ Xs.

Lemma union_sets_spec objs Xs dst X :
  Forall2 set_rel objs Xs → Forall strings_ok Xs → counted X dst → few (X ∪ union_all Xs) →
  ∃ dst', foldl (λ dst s, dst ← dst; add_elements E dst s) (Some dst) objs = Some dst' ∧
    counted (X ∪ union_all Xs) dst'.
Proof using Horder Hlim.
  intros Hobjs. revert dst X. induction Hobjs as [|s Y objs Xs Hs _ IH]; intros dst X HXs H Hf.
  { exists dst. unfold union_all. simpl. by rewrite union_empty_r_L. }
  unfold union_all in *. cbn [union_list foldr] in *. rewrite (assoc_L (∪)) in *.
  inversion_clear HXs. destruct (add_elements_spec dst X s Y) as (d & Hd & H'); [done..| |].
  { eapply few_subseteq; [|exact Hf]. clear. set_solver. }
  cbn [foldl]. cbn. rewrite Hd. by apply IH.
Qed.

(** The members of the first set that none of the others has. *)
Definition diff_all (X : gset string) (Xs : list (gset string)) : gset string := X ∖ ⋃ Xs.

Lemma diff_filter X Xs : filter (λ x, ¬ Exists (λ Y, x ∈ Y) Xs) X = diff_all X Xs.
Proof using Type.
  clear. apply set_eq. intros x. unfold diff_all.
  rewrite elem_of_filter, elem_of_difference, elem_of_union_list, Exists_exists. naive_solver.
Qed.

Lemma diff_algo_1_spec s X others Xs dst :
  set_rel s X → strings_ok X → few X → Forall2 set_rel others Xs → counted ∅ dst →
  ∃ dst', diff_algo_1 E dst s others = Some dst' ∧ counted (diff_all X Xs) dst'.
Proof using Horder Hlim.
  intros Hs HX Hf Hothers H. destruct (set_elements s X Hs HX) as (es & Hes & Hnd & Hl & Hok).
  destruct (filtered_elements es (λ x, ¬ Exists (λ Y, x ∈ Y) Xs) Hnd) as [_ Hl'].
  destruct (add_all (filter (λ e, ¬ Exists (λ Y, text e ∈ Y) Xs) es) dst ∅) as (d & Hd & Hc); [|done|..].
  { apply Forall_forall. intros e [_ He]%list_elem_of_filter. rewrite Forall_forall in Hok. by apply Hok. }
  { rewrite Hl', Hl, union_empty_l_L. eapply few_subseteq; [|exact Hf]. clear. set_solver. }
  exists d. rewrite Hl', Hl, diff_filter, union_empty_l_L in Hc. split; [|done]. rewrite <- Hd.
  unfold diff_algo_1. rewrite (for_each_elems _ _ es) by done.
  apply mfold_filter. eapply Forall_impl; [done|]. intros e He acc.
  rewrite (in_some_spec e others Xs) by done. cbn.
  destruct (bool_decide_reflect (Exists (λ Y, text e ∈ Y) Xs)); by destruct (decide _).
Qed.

Lemma remove_elements_spec dst X s Y :
  counted X dst → few X → set_rel s Y → strings_ok Y →
  ∃ dst', remove_elements E dst s = Some dst' ∧ counted (X ∖ Y) dst'.
Proof using Horder.
  clear Hlim. intros H Hf Hs HY. destruct (set_elements s Y Hs HY) as (es & Hes & _ & <- & Hok).
  unfold remove_elements. rewrite (for_each_elems _ _ es) by done.
  apply (mfold_inv _ (λ seen, counted (X ∖ list_to_set (text <$> seen))) ele_ok); [done|..].
  { simpl. by rewrite difference_empty_L. }
  clear es Hes Hok Hs HY. intros seen [d n] e He [Hd Hn]. cbn [fst snd] in *.
  destruct (setTypeRemoveAux_spec (new_memory E) d _ e Hd He) as (d' & -> & Hd').
  eexists. split; [done|]. rewrite fmap_app, list_to_set_app_L. simpl.
  replace (X ∖ (_ ∪ _)) with (X ∖ list_to_set (text <$> seen) ∖ {[text e]}) by set_solver.
  assert (few (X ∖ list_to_set (text <$> seen))) as Hf' by
    (eapply few_subseteq; [|exact Hf]; clear; set_solver). unfold few in Hf'.
  split; cbn [fst snd]; [done|]. rewrite Hn. case_bool_decide as Hin.
  - rewrite (size_delete _ _ Hin), card_sub_few; [lia|].
    pose proof (size_delete _ _ Hin). lia.
  - replace (_ ∖ {[text e]}) with (X ∖ list_to_set (text <$> seen)) by set_solver.
    rewrite card_sub_few; lia.
Qed.

Lemma remove_all_spec others Xs dst X :
  Forall2 set_rel others Xs → Forall strings_ok Xs → counted X dst → few X →
  ∃ dst', remove_all E dst others = Some dst' ∧ counted (diff_all X Xs) dst'.
Proof using Horder.
  intros Hothers. revert dst X. induction Hothers as [|s Y others Xs Hs _ IH]; intros dst X HXs H Hf.
  { exists dst. cbn [remove_all]. unfold diff_all. simpl. rewrite difference_empty_L.
    by destruct (dst.2 =? 0). }
  inversion_clear HXs. cbn [remove_all]. destruct (Z.eqb_spec dst.2 0) as [Hz|Hz].
  - exists dst. split; [done|]. destruct H as [Hd Hn].
    assert (X = ∅) as -> by (apply leibniz_equiv, size_empty_inv; lia).
    replace (diff_all ∅ (Y :: Xs)) with (∅ : gset string) by (unfold diff_all; clear; set_solver).
    by split.
  - destruct (remove_elements_spec dst X s Y) as (d & -> & H'); [done..|]. cbn.
    destruct (IH d _ ltac:(done) H') as (d' & -> & Hc).
    { eapply few_subseteq; [|exact Hf]. clear. set_solver. }
    exists d'. split; [done|].
    unfold diff_all in *. simpl. by rewrite <- difference_difference_l_L.
Qed.

Lemma diff_algo_2_spec s X others Xs dst :
  set_rel s X → strings_ok X → few X → Forall2 set_rel others Xs → Forall strings_ok Xs →
  counted ∅ dst →
  ∃ dst', diff_algo_2 E dst s others = Some dst' ∧ counted (diff_all X Xs) dst'.
Proof using Horder Hlim.
  intros Hs HX Hf Hothers HXs H. unfold diff_algo_2.
  destruct (add_elements_spec dst ∅ s X) as (d & -> & Hd); [done..|by rewrite union_empty_l_L|]. cbn.
  rewrite union_empty_l_L in Hd. by apply remove_all_spec.
Qed.
End sets.

(** ** Reference definitions on a store *)

Section reference.
Context (E : environ).

(** The keys are looked up in order, up to the first that holds a string. *)
Fixpoint gather (ks : list string) (S : store) : store * bool :=
  match ks with
  | [] => (S, true)
  | k :: ks =>
      match live E S k with
      | Some (AStr _) => (touch E S k, false)
      | _ => gather ks (touch E S k)
      end
  end.

(** The set of a key; a missing key is the empty set. *)
Definition mem (S : store) (k : string) : gset string :=
  match live E S k with Some (ASet X) => X | _ => ∅ end.

Definition common (Xs : list (gset string)) : gset string :=
  match Xs with [] => ∅ | X :: Xs => foldr (∩) X Xs end.

Definition difference_of (Xs : list (gset string)) : gset string :=
  match Xs with [] => ∅ | X :: Xs => X ∖ ⋃ Xs end.

Definition operation (op : set_op) : list (gset string) → gset string :=
  match op with SET_OP_UNION => union_all | SET_OP_DIFF => difference_of end.

(** What becomes of a result: it replaces the destination, or the destination
    is deleted when the result is empty; or its members are listed. *)
Definition stored (dst : string) (Z : gset string) (S : store) : store * redisReply :=
  if decide (Z = ∅) then (remove dst S, RInteger 0)
  else (put dst (ASet Z) (persist dst S), RInteger (Z.of_nat (size Z))).

Definition lists (Z : gset string) (r : redisReply) : Prop :=
  ∃ l, r = RArray l ∧ l ≡ₚ elements Z.

(** The reply and the store after an operation with result [Z]. *)
Definition delivers (dst : option string) (Z : gset string) (S : store)
    (out : store * redisReply) : Prop :=
  match dst with
  | Some dst => out = stored dst Z S
  | None => out.1 = S ∧ lists Z out.2
  end.

Definition set_outcome (ks : list string) (S : store) (P : store → store * redisReply → Prop)
    (out : store * redisReply) : Prop :=
  match gather ks S with
  | (S', true) => P S' out
  | (S', false) => out = (S', RError wrongtypeerr)
  end.
End reference.

Lemma elem_of_common Xs x : Xs ≠ [] → x ∈ common Xs ↔ Forall (λ X, x ∈ X) Xs.
Proof.
  destruct Xs as [|X Xs]; [done|]. intros _. cbn [common]. rewrite Forall_cons.
  induction Xs as [|Y Xs IH]; cbn [foldr]; [rewrite Forall_nil; tauto|].
  rewrite elem_of_intersection, IH, Forall_cons. tauto.
Qed.

(** ** Lookups *)

Section lookups.
Context (E : environ).

Definition ptr (S : store) (k : string) : set_ptr := (λ _, k) <$> live E S k.

Lemma gather_settled ks S k :
  vals S !! k = live E S k → vals (gather E ks S).1 !! k = live E S k.
Proof using Type.
  revert S. induction ks as [|k' ks IH]; intros S Hk; [done|]. cbn [gather].
  assert (vals (touch E S k') !! k = live E S k) as Ht.
  { destruct (decide (k = k')) as [->|]; [done|by rewrite touch_other]. }
  rewrite <- (live_other E S k k') in *. destruct (live E S k') as [[]|]; [done|by apply IH..].
Qed.

Lemma gather_vals ks S S' :
  gather E ks S = (S', true) →
  ∀ k, k ∈ ks → vals S' !! k = live E S k ∧ live E S k = (λ _, ASet (mem E S k)) <$> live E S k.
Proof using Type.
  revert S. induction ks as [|k' ks IH]; intros S Hg k Hk; [by apply not_elem_of_nil in Hk|].
  cbn [gather] in Hg. apply elem_of_cons in Hk as [->|Hk].
  - assert (vals (touch E S k') !! k' = live E (touch E S k') k') as Ht by (by rewrite live_touch).
    apply (gather_settled ks) in Ht. rewrite live_touch in Ht. unfold mem.
    destruct (live E S k') as [[]|]; simplify_eq; rewrite Hg in Ht; done.
  - rewrite <- (live_other E S k k'). unfold mem. rewrite <- (live_other E S k k').
    apply IH; [|done]. by destruct (live E S k') as [[]|].
Qed.
End lookups.

(** ** The pointers to sets *)

Definition valid (T : store) (p : set_ptr) : Prop :=
  match p with Some k => ∃ X, vals T !! k = Some (ASet X) | None => True end.

Definition mem_at (T : store) (p : set_ptr) : gset string :=
  match p with
  | Some k => match vals T !! k with Some (ASet X) => X | _ => ∅ end
  | None => ∅
  end.

Lemma runs_fold_inv {A B} (body : A → B → cmd A) (I : list B → A → redisServer → Prop) acc l σ :
  I [] acc σ →
  (∀ seen acc x σ, x ∈ l → I seen acc σ → runs (body acc x) σ (I (seen ++ [x]))) →
  runs (fold_cmd body acc l) σ (I l).
Proof.
  intros H0 Hstep. enough (∀ todo seen acc σ, seen ++ todo = l → I seen acc σ →
    runs (fold_cmd body acc todo) σ (I l)) as H by (by apply (H l [])).
  clear acc σ H0. induction todo as [|x todo IH]; intros seen acc σ Hl HI.
  - apply runs_ret. by rewrite app_nil_r in Hl; subst.
  - step by (apply (Hstep seen acc x σ); [subst l; set_solver|done]).
    intros acc' σ'. apply IH. by rewrite <- (assoc_L (++)).
Qed.

Section pointers.
Context (δ : drift) (T : store) (rs : list redisReply).

Lemma runs_collect {A B} (f : A → cmd B) (P : A → B → Prop) l σ :
  holds δ T rs σ →
  (∀ x σ, x ∈ l → holds δ T rs σ → runs (f x) σ (λ y σ', P x y ∧ holds δ T rs σ')) →
  runs (collect f l) σ (λ ys σ', Forall2 P l ys ∧ holds δ T rs σ').
Proof using Type.
  intros H Hf. apply (runs_fold_inv _ (λ seen ys σ', Forall2 P seen ys ∧ holds δ T rs σ')); [done|].
  intros seen ys x σ' Hx [Hys H']. step by (by apply (Hf x σ' Hx)). intros y σ2 [Hy H2].
  apply runs_ret. split; [|done]. apply Forall2_app; [done|by apply Forall2_cons].
Qed.

Lemma runs_sized p σ :
  valid T p → holds δ T rs σ →
  runs (sized p) σ (λ x σ', x = (Z.of_nat (size (mem_at T p)), p) ∧ holds δ T rs σ').
Proof using Type.
  intros Hv H. destruct p as [k|]; [|by apply runs_ret]. destruct Hv as [X Hk]. cbn [mem_at].
  step by (by apply (runs_size_at _ _ _ _ H k X)). intros n σ1 [-> H1]. apply runs_ret.
  by rewrite Hk.
Qed.

Lemma Forall2_fun {A B} (f : A → B) (l : list A) (ys : list B) :
  Forall2 (λ x y, y = f x) l ys → ys = f <$> l.
Proof using Type. induction 1 as [|???? -> _ ->]; done. Qed.

Lemma runs_sizes sets σ :
  Forall (valid T) sets → holds δ T rs σ →
  runs (collect sized sets) σ (λ xs σ',
    xs = (λ p, (Z.of_nat (size (mem_at T p)), p)) <$> sets ∧ holds δ T rs σ').
Proof using Type.
  intros Hv H. finish by (apply (runs_collect sized
    (λ p x, x = (Z.of_nat (size (mem_at T p)), p)) sets σ H)).
  - intros p σ' Hp H'. rewrite Forall_forall in Hv. by apply runs_sized; [apply Hv|].
  - intros xs σ' [Hxs H']. split; [by apply Forall2_fun in Hxs|done].
Qed.

Lemma runs_sort_sets cmp sets σ :
  Forall (valid T) sets → holds δ T rs σ →
  runs (sort_sets cmp sets) σ (λ l σ', l ≡ₚ sets ∧ holds δ T rs σ').
Proof using Type.
  intros Hv H. step by (by apply runs_sizes). intros xs σ1 [-> H1]. apply runs_ret.
  split; [|done]. rewrite qsort_perm, <- list_fmap_compose. by rewrite list_fmap_id.
Qed.

(** The objects of the pointers stand for the sets that are there. *)
Lemma runs_objects sets σ :
  Forall (valid T) sets → holds δ T rs σ →
  runs (objects sets) σ (λ objs σ',
    Forall2 set_rel objs (mem_at T ∘ Some <$> omap id sets) ∧ holds δ T rs σ').
Proof using Type.
  intros Hv H. finish by (apply (runs_collect set_at
    (λ k s, set_rel s (mem_at T (Some k))) (omap id sets) σ H)).
  - intros k σ' Hk H'. apply list_elem_of_omap in Hk as (p & Hp & Hpk). cbn in Hpk. subst p.
    rewrite Forall_forall in Hv. destruct (Hv _ Hp) as [X HX].
    finish by (by apply (runs_set_at _ _ _ _ H' k X)). intros s ? [-> Hs]. cbn [mem_at]. by rewrite HX.
  - intros objs σ' [Hobjs H']. split; [|done]. rewrite Forall2_fmap_r. by apply Forall2_flip.
Qed.

Lemma union_present sets : ⋃ (mem_at T ∘ Some <$> omap id sets) = ⋃ (mem_at T <$> sets).
Proof using Type.
  induction sets as [|[k|] sets IH]; cbn; [done|by rewrite <- IH|]. by rewrite IH, union_empty_l_L.
Qed.
End pointers.

(** ** The commands *)

Section commands.
Context (E : environ) (HE : active E) (Horder : iterates E) (Hlim : limits_ok (set_limits E)).

Lemma runs_lookup_sets ks δ S rs σ sets :
  holds δ S rs σ →
  runs (lookup_sets E ks sets) σ (λ r σ',
    match gather E ks S with
    | (S', true) => r = Some (sets ++ (ptr E S <$> ks)) ∧ holds δ S' rs σ'
    | (S', false) => r = None ∧ holds δ S' (rs ++ [RError wrongtypeerr]) σ'
    end).
Proof using HE.
  clear Horder Hlim. revert S σ sets. induction ks as [|k ks IH]; intros S σ sets H.
  { apply runs_ret. cbn. by rewrite app_nil_r. }
  assert (ptr E (touch E S k) <$> ks = ptr E S <$> ks) as Hptr.
  { apply list_fmap_ext. intros i k' _. unfold ptr. by rewrite live_other. }
  cbn [lookup_sets gather]. rewrite fmap_cons.
  step by (by apply (runs_lookupKeyRead E HE _ _ _ _ H)). intros o σ1 [Ho H1].
  unfold ptr at 1. destruct (live E S k) as [w|]; inversion Ho as [x ? Hx|]; subst; cbn [fmap option_fmap option_map].
  - step by (by apply (runs_checkType _ _ _ _ H1 _ w)). intros b σ2 [-> H2].
    destruct w as [s|X], x as [x|x]; try done; cbn in H2; cbn [bool_decide decide_rel val_type].
    finish by (by apply (IH _ _ (sets ++ [Some k]) H2)). intros r σ3.
    by rewrite Hptr, <- (assoc_L (++)).
  - finish by (by apply (IH _ _ (sets ++ [None]) H1)). intros r σ3.
    by rewrite Hptr, <- (assoc_L (++)).
Qed.

(** The pointers found are those of the keys. *)
Section found.
Context (ks : list string) (S S' : store) (Hg : gather E ks S = (S', true)).

Lemma found_valid : Forall (valid S') (ptr E S <$> ks).
Proof using Hg.
  clear HE Horder Hlim. apply Forall_fmap, Forall_forall. intros k Hk.
  destruct (gather_vals E ks S S' Hg k Hk) as [Hv Hl]. unfold compose, ptr, valid.
  destruct (live E S k); [|done]. simpl in *. rewrite Hv, Hl. eauto.
Qed.

Lemma found_mem : mem_at S' <$> (ptr E S <$> ks) = mem E S <$> ks.
Proof using Hg.
  clear HE Horder Hlim. rewrite <- list_fmap_compose. apply list_fmap_ext. intros i k Hk.
  apply list_elem_of_lookup_2 in Hk.
  destruct (gather_vals E ks S S' Hg k Hk) as [Hv Hl]. unfold compose, ptr, mem_at.
  destruct (live E S k) eqn:Hlk; simpl in *; [rewrite Hv; by injection Hl as ->|]. unfold mem. by rewrite Hlk.
Qed.
End found.

Lemma runs_store_set δ S rs σ dst s Z :
  holds δ S rs σ → set_rel s Z → Z ≠ ∅ →
  runs (store_set E dst s) σ (λ _, gives δ rs (stored dst Z S)).
Proof using HE.
  clear Horder Hlim. intros H Hs HZ. step by (by apply (runs_setKey E HE _ _ _ _ H dst _ (ASet Z))).
  intros _ σ1 H1. step by (apply (runs_size_at _ _ _ _ H1 dst Z), put_lookup). intros n σ2 [-> H2].
  step by (by apply (runs_addReply _ _ _ _ H2)). intros _ σ3 H3.
  finish by (by apply (runs_add_dirty _ _ _ _ H3)). intros _ σ4 H4.
  unfold stored. by rewrite decide_False.
Qed.

Lemma runs_store_empty δ S rs σ dst :
  holds δ S rs σ → runs (store_empty dst) σ (λ _, gives δ rs (stored dst ∅ S)).
Proof using Type.
  clear HE Horder Hlim. intros H. step by (by apply (runs_addReply _ _ _ _ H)). intros _ σ1 H1.
  step by (by apply (runs_dbGenericDelete _ _ _ _ H1)). intros b σ2 [-> H2].
  unfold stored. rewrite decide_True by done. apply runs_when; [|done].
  intros _. by apply (runs_add_dirty _ _ _ _ H2).
Qed.

(** Store a destination that stands for the result. *)
Lemma runs_store δ S rs σ dst s Z (K : set_obj → cmd ()) :
  holds δ S rs σ → set_rel s Z →
  (∀ s', set_rel s' Z → Z ≠ ∅ → runs (K s') σ (λ _, gives δ rs (stored dst Z S))) →
  runs ('(n, s') ← lift (setTypeSize s); if 0 <? n then K s' else store_empty dst) σ
    (λ _, gives δ rs (stored dst Z S)).
Proof using Type.
  clear HE Horder Hlim. intros H Hs HK. destruct (setTypeSize_spec s Z Hs) as (s' & Hn & Hs' & _).
  eapply runs_bind, runs_lift; [exact Hn|]. cbn beta iota.
  destruct (decide (Z = ∅)) as [->|HZ].
  - by apply runs_store_empty.
  - destruct (Z.ltb_spec 0 (Z.of_nat (size Z))); [by apply HK|].
    exfalso. apply HZ, leibniz_equiv, size_empty_inv. lia.
Qed.

(** *** SINTER *)

(** The first set against the others, in any order and without its copies. *)
Lemma inter_found T k l sets :
  None ∉ sets → Some k :: l ≡ₚ sets →
  inter_all (mem_at T (Some k)) (mem_at T ∘ Some <$> omap id (filter (λ p, p ≠ Some k) l)) =
  common (mem_at T <$> sets).
Proof using Type.
  clear HE Horder Hlim. intros Hnone Hperm. apply set_eq. intros x. unfold inter_all.
  rewrite elem_of_filter, elem_of_common, <- Hperm by
    (intros Hn%fmap_nil_inv; subst; by apply Permutation_nil_r in Hperm).
  rewrite fmap_cons, Forall_cons, !Forall_fmap, !Forall_forall.
  split; [intros [Hl Hk]; split; [done|]|intros [Hk Hl]; split; [|done]].
  - intros q Hq. destruct (decide (q = Some k)) as [->|Hne]; [done|].
    destruct q as [q|]; [|exfalso; apply Hnone; rewrite <- Hperm; by right].
    apply (Hl q), list_elem_of_omap. exists (Some q). by rewrite list_elem_of_filter.
  - intros q (p & [_ Hp]%list_elem_of_filter & Hpq)%list_elem_of_omap. cbn in Hpq. subst p.
    by apply (Hl (Some q)).
Qed.

Lemma common_empty Xs : ∅ ∈ Xs → common Xs = ∅.
Proof using Type.
  clear. intros H. apply set_eq. intros x. rewrite elem_of_common by (by intros ->; apply not_elem_of_nil in H).
  rewrite Forall_forall. split; [intros Hx; by apply Hx in H|set_solver].
Qed.

Definition inter_outcome (dst : option string) (card : bool) (limit : Z) (Z : gset string)
    (S : store) (out : store * redisReply) : Prop :=
  if card then out = (S, RInteger (limited limit (Z.of_nat (size Z)))) else delivers dst Z S out.

Lemma runs_empty_result δ S rs σ dst card limit :
  (card = true → dst = None) → 0 ≤ limit → holds δ S rs σ →
  runs (empty_result dst card) σ (λ _ σ', ∃ out,
    inter_outcome dst card limit ∅ S out ∧ gives δ rs out σ').
Proof using Type.
  clear HE Horder Hlim. intros Hc Hl H. unfold inter_outcome, delivers. destruct dst as [dst|]; cbn [empty_result].
  - destruct card; [by specialize (Hc eq_refl)|].
    step by (by apply (runs_dbGenericDelete _ _ _ _ H)). intros b σ1 [-> H1].
    apply (runs_step _ _ _ (λ _, holds δ (remove dst S) rs)).
    { apply runs_when; [|done]. intros _. by apply (runs_add_dirty _ _ _ _ H1). }
    intros _ σ2 H2. finish by (by apply (runs_addReply _ _ _ _ H2)). intros _ σ3 H3.
    eexists. split; [done|]. unfold stored. by rewrite decide_True.
  - finish by (by apply (runs_addReply _ _ _ _ H)). intros _ σ1 H1. destruct card.
    + exists (S, RInteger 0). split; [|done]. unfold limited. rewrite size_empty. simpl.
      destruct (limit =? 0); do 2 f_equal; lia.
    + exists (S, RArray []). split; [|done]. split; [done|]. by exists [].
Qed.

(** The three uses of the common elements. *)
Section intersection.
Context (δ : drift) (S : store) (rs : list redisReply) (σ : redisServer).
Context (s : set_obj) (X : gset string) (others : list set_obj) (Xs : list (gset string)).
Hypotheses (H : holds δ S rs σ) (Hs : set_rel s X) (HX : strings_ok X).
Hypothesis (Hothers : Forall2 set_rel others Xs).

Lemma runs_inter_count limit :
  0 ≤ limit →
  runs (n ← lift (common_elements E s others (λ n _, Some (count_element limit n)) 0);
        addReply (RInteger n)) σ
    (λ _, gives δ rs (S, RInteger (limited limit (Z.of_nat (size (inter_all X Xs)))))).
Proof using Horder H Hs HX Hothers.
  clear HE Hlim. intros Hlimit. destruct (common_elements_spec E Horder s X others Xs
    (λ n _, Some (count_element limit n)) 0 Hs HX Hothers) as (es & Hc & _ & Hnd & <-).
  assert (0 = limited limit 0) as H0 by (unfold limited; destruct (limit =? 0); lia).
  rewrite H0 in Hc at 2. rewrite count_elements in Hc by lia.
  eapply runs_bind, runs_lift; [exact Hc|]. finish by (by apply (runs_addReply _ _ _ _ H)).
  intros _ σ1 H1. by rewrite size_texts.
Qed.

Lemma runs_inter_list :
  runs ('(n, l) ← lift (common_elements E s others
          (λ nl e, Some (nl.1 + 1, nl.2 ++ [element_text e])) (0, []));
        reply_array n l) σ
    (λ _ σ', ∃ r, lists (inter_all X Xs) r ∧ gives δ rs (S, r) σ').
Proof using Horder H Hs HX Hothers.
  clear HE Hlim. destruct (common_elements_spec E Horder s X others Xs
    (λ nl e, Some (nl.1 + 1, nl.2 ++ [element_text e])) (0, []) Hs HX Hothers)
    as (es & Hc & Hok & Hnd & <-).
  rewrite reply_elements, element_texts in Hc by done.
  eapply runs_bind, runs_lift; [exact Hc|]. cbn beta iota.
  unfold reply_array. simpl. rewrite length_fmap, Z.eqb_refl.
  finish by (by apply (runs_addReply _ _ _ _ H)). intros _ σ1 H1. eexists. split; [|exact H1].
  eexists. split; [done|]. by rewrite elements_list_to_set.
Qed.

Lemma runs_inter_store dst :
  runs ('(dstset, only_integers) ← lift (common_elements E s others
          (store_element E (is_ht s)) (result_set E s, true));
        '(n, dstset) ← lift (setTypeSize dstset);
        if 0 <? n then
          dstset ← lift (if only_integers : bool
            then maybeConvertToIntset (new_memory E) (set_limits E) (dict_order E) dstset
            else Some dstset);
          store_set E dst (shrink E dstset)
        else store_empty dst) σ
    (λ _, gives δ rs (stored dst (inter_all X Xs) S)).
Proof using HE Horder Hlim H Hs HX Hothers.
  destruct (common_elements_spec E Horder s X others Xs
    (store_element E (is_ht s)) (result_set E s, true) Hs HX Hothers) as (es & Hc & Hok & _ & <-).
  destruct (mfold_inv (store_element E (is_ht s)) filled ele_ok es (result_set E s, true) Hok)
    as ([d only] & Hm & [Hd Honly]).
  { split; [apply result_set_rel|done]. }
  { intros. by apply (store_element_spec E Horder Hlim). }
  rewrite Hm in Hc. eapply runs_bind, runs_lift; [exact Hc|]. cbn beta iota. cbn [fst snd] in *.
  apply (runs_store δ S rs σ dst d _ _ H Hd). intros d' Hd' HZ. destruct only.
  - destruct (maybeConvertToIntset_spec (dict_order E) Horder (new_memory E) (set_limits E) Hlim d' _ Hd')
      as (d'' & Hconv & Hd'').
    { intros x (e & -> & He)%elem_of_list_to_set%list_elem_of_fmap.
      rewrite Forall_forall in Honly. by apply Honly. }
    eapply runs_bind, runs_lift; [exact Hconv|]. by apply runs_store_set; [|apply shrink_rel|].
  - apply runs_bind. eapply runs_lift; [done|]. by apply runs_store_set; [|apply shrink_rel|].
Qed.
End intersection.

Lemma runs_sinterGenericCommand δ S rs σ ks dst card limit :
  ks ≠ [] → (card = true → dst = None) → 0 ≤ limit →
  Forall strings_ok (mem E S <$> ks) → holds δ S rs σ →
  runs (sinterGenericCommand E ks dst card limit) σ (λ _ σ', ∃ out,
    set_outcome E ks S (inter_outcome dst card limit (common (mem E S <$> ks))) out ∧
    gives δ rs out σ').
Proof using HE Horder Hlim.
  intros Hks Hcd Hlimit Hok H. step by (by apply (runs_lookup_sets ks _ _ _ _ [] H)).
  intros r σ1. unfold set_outcome. destruct (gather E ks S) as [T [|]] eqn:Hg.
  2:{ intros [-> H1]. apply runs_ret. by exists (T, RError wrongtypeerr). }
  intros [-> H1]. cbn [app]. rewrite <- (found_mem ks S T Hg) in *.
  pose proof (found_valid ks S T Hg) as Hv.
  destruct (bool_decide_reflect (None ∈ ptr E S <$> ks)) as [Hnone|Hnone].
  { rewrite common_empty by (apply list_elem_of_fmap; by exists None).
    by apply runs_empty_result. }
  step by (by apply runs_sort_sets). intros l σ2 [Hl H2].
  destruct l as [|p l]; [by apply Permutation_nil_l, eq_sym, fmap_nil_inv in Hl|].
  eapply runs_bind, runs_lift; [done|].
  rewrite <- Hl in Hnone, Hv. destruct p as [k|]; [|exfalso; apply Hnone; by left].
  apply Forall_cons in Hv as [[X HX] Hv].
  step by (apply (runs_objects δ T rs); [|exact H2]).
  { cbn. apply Forall_forall. intros q [_ Hq]%list_elem_of_filter. rewrite Forall_forall in Hv. by apply Hv. }
  intros others σ3 [Hothers H3]. eapply runs_bind, runs_lift; [done|].
  step by (by apply (runs_set_at _ _ _ _ H3 k X)). intros s ? [-> Hs].
  cbn [drop] in Hothers. rewrite Hl in Hnone. rewrite <- (inter_found T k l _ Hnone Hl). cbn [mem_at]. rewrite HX.
  assert (strings_ok X) as HXok.
  { rewrite Forall_forall in Hok. apply Hok, list_elem_of_fmap. exists (Some k).
    split; [cbn; by rewrite HX|]. rewrite <- Hl. by left. }
  unfold inter_outcome. destruct card; [|destruct dst as [dst|]].
  - finish by (by apply (runs_inter_count δ T rs σ3 s X others _ H3 Hs HXok Hothers)).
    intros _ σ4 H4. eexists. split; [reflexivity|exact H4].
  - finish by (by apply (runs_inter_store δ T rs σ3 s X others _ H3 Hs HXok Hothers)).
    intros _ σ4 H4. eexists. split; [reflexivity|exact H4].
  - finish by (by apply (runs_inter_list δ T rs σ3 s X others _ H3 Hs HXok Hothers)).
    intros _ σ4 (r & Hr & H4). by exists (T, r).
Qed.

(** *** SUNION and SDIFF *)

Lemma counted_empty (b : bool) : counted ∅ (if b then SHt ∅ else SIntset intsetNew, 0).
Proof using Type.
  clear HE Horder Hlim. split; [|done]. destruct b; [apply rel_ht|apply intset_empty_rel].
Qed.

Lemma strings_present T sets :
  Forall strings_ok (mem_at T <$> sets) →
  Forall strings_ok (mem_at T ∘ Some <$> omap id sets).
Proof using Type.
  clear HE Horder Hlim. rewrite !Forall_fmap, !Forall_forall.
  intros Hok k (p & Hp & Hpk)%list_elem_of_omap. cbn in Hpk. subst p. by apply (Hok (Some k)).
Qed.

(** Whichever algorithm is chosen. *)
Lemma runs_sdiff_sets δ T rs σ dst k rest :
  holds δ T rs σ → counted ∅ dst → valid T (Some k) → Forall (valid T) rest →
  Forall strings_ok (mem_at T <$> Some k :: rest) → few (mem_at T (Some k)) →
  runs (sdiff_sets E dst k rest) σ (λ d σ',
    counted (difference_of (mem_at T <$> Some k :: rest)) d ∧ holds δ T rs σ').
Proof using Horder Hlim.
  clear HE. intros H Hdst [X HX] Hv Hok Hf. pose proof Hok as Hok'. rewrite fmap_cons in Hok'.
  apply Forall_cons in Hok' as [HXok Hrest].
  rewrite fmap_cons. cbn [difference_of]. rewrite <- union_present.
  assert (mem_at T (Some k) = X) as Hmem by (cbn [mem_at]; by rewrite HX). rewrite Hmem in *.
  step by (apply runs_sizes; [|exact H]; apply Forall_cons; split; [by exists X|done]).
  intros sizes σ1 [_ H1]. destruct (choose_algo sizes =? 1).
  - step by (by apply (runs_sort_sets δ T rs)). intros l σ2 [Hl H2].
    step by (apply (runs_objects δ T rs); [by rewrite Hl|exact H2]). intros others σ3 [Hothers H3].
    step by (by apply (runs_set_at _ _ _ _ H3 k X)). intros s ? [-> Hs].
    destruct (diff_algo_1_spec E Horder Hlim s X others _ dst Hs HXok Hf Hothers Hdst) as (d & Hd & Hc).
    eapply runs_lift; [exact Hd|]. split; [|done]. unfold diff_all in Hc.
    rewrite union_present in *. by rewrite Hl in Hc.
  - step by (by apply (runs_objects δ T rs)). intros others σ3 [Hothers H3].
    step by (by apply (runs_set_at _ _ _ _ H3 k X)). intros s ? [-> Hs].
    destruct (diff_algo_2_spec E Horder Hlim s X others _ dst Hs HXok Hf Hothers) as (d & Hd & Hc);
      [by apply strings_present|done|].
    eapply runs_lift; [exact Hd|]. by split.
Qed.

Lemma runs_operation δ T rs σ op dst sets objs :
  holds δ T rs σ → counted ∅ dst → Forall (valid T) sets → sets ≠ [] →
  Forall strings_ok (mem_at T <$> sets) → few (⋃ (mem_at T <$> sets)) →
  Forall2 set_rel objs (mem_at T ∘ Some <$> omap id sets) →
  runs (match op with
        | SET_OP_UNION => lift (foldl (λ dst s, dst ← dst; add_elements E dst s) (Some dst) objs)
        | SET_OP_DIFF =>
            if bool_decide (is_Some (default None (head sets)) ∧ default None (head sets) ∈ drop 1 sets)
            then mret dst else
            match default None (head sets) with
            | None => mret dst
            | Some first => sdiff_sets E dst first (drop 1 sets)
            end
        end) σ (λ d σ', counted (operation op (mem_at T <$> sets)) d ∧ holds δ T rs σ').
Proof using Horder Hlim.
  clear HE. intros H Hdst Hv Hne Hok Hf Hobjs. destruct op; cbn [operation].
  - destruct (union_sets_spec E Horder Hlim objs _ dst ∅ Hobjs) as (d & Hd & Hc);
      [by apply strings_present|done|unfold union_all; by rewrite union_present, union_empty_l_L|].
    eapply runs_lift; [exact Hd|]. split; [|done].
    unfold union_all in *. by rewrite union_present, union_empty_l_L in Hc.
  - destruct sets as [|p sets]; [done|]. cbn [head default drop].
    case_bool_decide as Hsame.
    { apply runs_ret. split; [|done]. rewrite fmap_cons. cbn [difference_of].
      replace (_ ∖ _) with (∅ : gset string); [done|]. symmetry. apply leibniz_equiv.
      apply subseteq_empty_difference. intros x Hx. apply elem_of_union_list.
      exists (mem_at T p). split; [|done]. by apply list_elem_of_fmap_2, Hsame. }
    apply Forall_cons in Hv as [Hp Hv]. destruct p as [k|].
    + apply runs_sdiff_sets; try done. eapply few_subseteq; [|exact Hf].
      rewrite fmap_cons. cbn [union_list foldr]. apply union_subseteq_l.
    + apply runs_ret. split; [|done]. rewrite fmap_cons. cbn [difference_of mem_at].
      replace (_ ∖ _) with (∅ : gset string); [done|]. set_solver.
Qed.

Lemma runs_list_members δ S rs σ s Z :
  holds δ S rs σ → set_rel s Z →
  runs (l ← lift (for_each_element (dict_order E) s (λ l e, Some (l ++ [element_text e])) []);
        reply_array (Z.of_nat (size Z)) l) σ
    (λ _ σ', ∃ r, lists Z r ∧ gives δ rs (S, r) σ').
Proof using Horder.
  clear HE Hlim. intros H Hs.
  destruct (rel_listed (dict_order E) Horder s Z Hs) as (es & Hes & [Hnd Hl _]).
  rewrite (for_each_elems (dict_order E) s es), mfold_collect by done.
  eapply runs_bind, runs_lift; [done|]. cbn [app].
  replace (element_text <$> es) with (text <$> es).
  2:{ apply list_fmap_ext. intros i e He. symmetry. apply element_text_of.
      eapply Forall_lookup_1; [by apply (elems_int_ok E s Z)|done]. }
  assert ((text <$> es) ≡ₚ elements Z) as Hp by (by rewrite <- Hl, elements_list_to_set).
  unfold reply_array. rewrite Hp. change (length (elements Z)) with (size Z). rewrite Z.eqb_refl.
  finish by (by apply (runs_addReply _ _ _ _ H)). intros _ σ1 H1.
  eexists. split; [|exact H1]. by eexists.
Qed.

Lemma runs_sunionDiffGenericCommand δ S rs σ ks dst op :
  ks ≠ [] → Forall strings_ok (mem E S <$> ks) → few (⋃ (mem E S <$> ks)) → holds δ S rs σ →
  runs (sunionDiffGenericCommand E ks dst op) σ (λ _ σ', ∃ out,
    set_outcome E ks S (delivers dst (operation op (mem E S <$> ks))) out ∧ gives δ rs out σ').
Proof using HE Horder Hlim.
  intros Hks Hok Hf H. step by (by apply (runs_lookup_sets ks _ _ _ _ [] H)).
  intros r σ1. unfold set_outcome. destruct (gather E ks S) as [T [|]] eqn:Hg.
  2:{ intros [-> H1]. apply runs_ret. by exists (T, RError wrongtypeerr). }
  intros [-> H1]. cbn [app]. rewrite <- (found_mem ks S T Hg) in *.
  pose proof (found_valid ks S T Hg) as Hv.
  assert (ptr E S <$> ks ≠ []) as Hne by (by intros ?%fmap_nil_inv).
  destruct (ptr E S <$> ks) as [|p l]; [done|].
  eapply runs_bind, runs_lift; [done|].
  step by (by apply (runs_objects δ T rs)). intros objs σ2 [Hobjs H2]. cbv zeta.
  pose proof (counted_empty (bool_decide (dst = None) && negb (forallb is_intset objs))) as Hc.
  step by (by apply (runs_operation δ T rs σ2 op _ (p :: l) objs)). intros [d n] σ3 [[Hd Hn] H3].
  cbn [fst snd] in *. destruct dst as [dst|].
  - finish by (by apply (runs_store δ T rs σ3 dst d _ _ H3 Hd); intros; apply runs_store_set).
    intros _ σ4 H4. eexists. split; [reflexivity|exact H4].
  - subst n. finish by (by apply runs_list_members). intros _ σ4 (r & Hr & H4). by exists (T, r).
Qed.
End commands.

(** ** Properties *)


