(* ===== verification/AddGraph.v ===== *)
(** * The commands of this repository: add_graph and hello_world

    src/redis/src/custom.c; src/KeyDB_1/src/custom.cpp is the same code on
    KeyDB's functions.  [add_graph] reads a file of edges, one [a,b] per line,
    and stores for each end the set of its neighbours and the colour 0.  Files
    are a parameter: [fopen] gives the content of a file that can be read. *)

From S2P Require Import Prelude CLib Hiredis ServerSpec Keys Util Intset Listpack ListpackRep SetType.
From S2P Require Import Db DbRel Strings StringsSpec SetCommands.
From Stdlib Require Import Ascii.
Local Open Scope string_scope.
Local Open Scope Z_scope.

Definition helloWorldCommand (argv : list string) : cmd () := addReply (RString "hello").

(** [sscanf (line, "%d,%d", &node1, &node2) == 2] *)
Definition scan_edge (line : string) : option (Z * Z) :=
  match scan_d line with
  | Some (node1, String "," r) =>
      match scan_d r with
      | Some (node2, _) => Some (node1, node2)
      | None => None
      end
  | _ => None
  end.

Definition wrongtype_text : string :=
  "WRONGTYPE Operation against a key holding the wrong kind of value".

Section add_graph.
Context (server : environ).

(** The set of a node: created when there is none; [false] when the key holds
    something else, which goes on with the next line. *)
Definition node_set (nodeKey : string) (set : option robj) (node : Z) : cmd bool :=
  match set with
  | None =>
      dbAdd nodeKey (OSet (setTypeCreate (new_memory server) (set_limits server)
        (sdsfromlonglong node) 1));;
      mret true
  | Some (OSet _) => mret true
  | Some _ => addReplyError wrongtype_text;; mret false
  end.

(** One more neighbour. *)
Definition add_neighbour (nodeKey : string) (node : Z) : cmd () :=
  added ← add_at server nodeKey (sdsfromlonglong node);
  when added (add_dirty 1).

Definition add_edge (edge : Z * Z) : cmd () :=
  let '(node1, node2) := edge in
  let nodeKey1 := snprintf 32 ("node_" +:+ pretty node1 +:+ "_neighbours") in
  let nodeKey2 := snprintf 32 ("node_" +:+ pretty node2 +:+ "_neighbours") in
  set1 ← lookupKeyWrite server nodeKey1;
  set2 ← lookupKeyWrite server nodeKey2;
  ok1 ← node_set nodeKey1 set1 node2;
  if negb ok1 then mret tt else
  ok2 ← node_set nodeKey2 set2 node1;
  if negb ok2 then mret tt else
  add_neighbour nodeKey1 node2;;
  add_neighbour nodeKey2 node1;;
  let colorKey1 := snprintf 32 ("node_" +:+ pretty node1 +:+ "_color") in
  let colorKey2 := snprintf 32 ("node_" +:+ pretty node2 +:+ "_color") in
  setKey server colorKey1 (OString (createStringObject "0")) 0;;
  setKey server colorKey2 (OString (createStringObject "0")) 0.

Definition add_line (line : string) : cmd () :=
  match scan_edge line with
  | Some edge => add_edge edge
  | None => mret tt
  end.

Definition addGraphCommand (fopen : string → option string) (argv : list string) : cmd () :=
  if (length argv <? 2)%nat then addReplyError "Not enough arguments for add_graph command" else
  filename ← lift (argv !! 1%nat);
  match fopen (c_str filename) with
  | None => addReplyError "Could not open file"
  | Some file =>
      fold_cmd (λ _ line, add_line line) tt (read_lines 256 file);;
      addReply ok
  end.
End add_graph.

(** ** Reference definitions *)

Definition zero : aval := AStr "0".

Definition with_colour (u : Z) (S : store) : store :=
  put (color_key u) zero (persist (color_key u) S).

Definition nbrs (o : option aval) : gset string :=
  match o with Some (ASet X) => X | _ => ∅ end.

Definition is_string (o : option aval) : bool :=
  match o with Some (AStr _) => true | _ => false end.

(** The store with a neighbour more. *)
Definition with_neighbour (u v : Z) (S : store) : store :=
  put (neighbours_key u) (ASet ({[pretty v]} ∪ nbrs (vals S !! neighbours_key u))) S.

(** The edge of two nodes whose keys hold sets or nothing. *)
Definition linked (u v : Z) (S : store) : store :=
  with_colour v (with_colour u (with_neighbour v u (with_neighbour u v S))).

(** The set of a node as it is created, without members. *)
Definition with_node (u : Z) (S : store) : store :=
  match vals S !! neighbours_key u with
  | None => put (neighbours_key u) (ASet ∅) S
  | Some _ => S
  end.

(** One edge: the store and the replies sent; [None] when the server aborts. *)
Definition edge_result (E : environ) (e : Z * Z) (S : store) : option (store * list redisReply) :=
  let '(u, v) := e in
  let T := touch E (touch E S (neighbours_key u)) (neighbours_key v) in
  let o1 := live E S (neighbours_key u) in
  let o2 := live E S (neighbours_key v) in
  if is_string o1 then Some (T, [RError ("ERR " +:+ wrongtype_text)])
  else if is_string o2 then Some (with_node u T, [RError ("ERR " +:+ wrongtype_text)])
  else if bool_decide (u = v ∧ o1 = None) then None
  else Some (linked u v T, []).

Fixpoint graph_result (E : environ) (es : list (Z * Z)) (S : store) :
    option (store * list redisReply) :=
  match es with
  | [] => Some (S, [])
  | e :: es =>
      '(S, rs) ← edge_result E e S; '(S', rs') ← graph_result E es S; Some (S', (rs ++ rs')%list)
  end.

(** The edges of a file. *)
Definition edges_of (file : string) : list (Z * Z) := omap scan_edge (read_lines 256 file).

(** ** The handler *)

(** A failed assertion stops the process. *)
Definition aborts {A} (c : cmd A) (σ : redisServer) : Prop := c σ = None.

Lemma aborts_step {A B} (c : cmd A) (f : A → cmd B) σ P :
  runs c σ P → (∀ a σ', P a σ' → aborts (f a) σ') → aborts (c ≫= f) σ.
Proof.
  unfold aborts, runs, mbind, cmd_bind. intros Hc Hf. destruct (c σ) as [[a σ']|]; [|done].
  by apply Hf.
Qed.

Lemma aborts_bind {A B} (c : cmd A) (f : A → cmd B) σ : aborts c σ → aborts (c ≫= f) σ.
Proof. unfold aborts, mbind, cmd_bind. by intros ->. Qed.

Tactic Notation "stepping" "by" tactic3(t) := eapply aborts_step; [t|cbn beta].

Lemma aborts_dbAdd δ S rs σ k o :
  holds δ S rs σ → is_Some (vals S !! k) → aborts (dbAdd k o) σ.
Proof.
  intros H [v Hk]. stepping by (by apply (runs_dbFind _ _ _ _ H)). intros o' ? [-> Ho].
  rewrite Hk in Ho. by inversion Ho.
Qed.

Section spec.
Context (E : environ) (HE : active E) (Horder : iterates E) (Hlim : limits_ok (set_limits E)).

Lemma neighbours_buffer_32 u :
  in_int u → snprintf 32 ("node_" +:+ pretty u +:+ "_neighbours") = neighbours_key u.
Proof using Type. clear. intros Hu. by fits. Qed.

Lemma color_buffer_32 u :
  in_int u → snprintf 32 ("node_" +:+ pretty u +:+ "_color") = color_key u.
Proof using Type. clear. intros Hu. by fits. Qed.

Lemma runs_add_neighbour δ S rs σ u v X :
  holds δ S rs σ → vals S !! neighbours_key u = Some (ASet X) → in_int v →
  runs (add_neighbour E (neighbours_key u) v) σ
    (λ _ σ', ∃ δ', holds δ' (with_neighbour u v S) rs σ').
Proof using Horder Hlim.
  clear HE. intros H Hk Hv%in_int_llong. unfold add_neighbour.
  rewrite sdsfromlonglong_pretty by done.
  step by (by apply (runs_add_at E Horder Hlim _ _ _ _ H _ X); [|apply pretty_str_ok]).
  intros b σ1 [-> H1]. unfold with_neighbour. rewrite Hk. cbn [nbrs].
  apply runs_when; [intros _|eauto].
  finish by (by apply (runs_add_dirty _ _ _ _ H1)). eauto.
Qed.

Lemma runs_node_set δ S rs σ k u v o (old : option aval) :
  holds δ S rs σ → k = neighbours_key u → option_Forall2 obj_rel o old → vals S !! k = old →
  runs (node_set E k o v) σ (λ b σ', b = negb (is_string old) ∧
    if is_string old then holds δ S (rs ++ [RError ("ERR " +:+ wrongtype_text)])%list σ'
    else holds δ (with_node u S) rs σ').
Proof using Type.
  clear HE Horder Hlim. intros H -> Ho Hk. unfold with_node. rewrite Hk.
  destruct old as [w|]; inversion Ho as [x ? Hx|]; subst; cbn [node_set].
  - destruct w as [s|X], x as [x|x]; try done; cbn [is_string negb].
    step by (by apply (runs_addReply _ _ _ _ H)). intros _ σ1 H1. by apply runs_ret.
  - step by (by apply (runs_dbAdd _ _ _ _ H (neighbours_key u) _ (ASet ∅));
      [apply setTypeCreate_spec|]). intros _ σ1 H1. by apply runs_ret.
Qed.

Lemma runs_with_colour δ S rs σ u :
  holds δ S rs σ → in_int u →
  runs (setKey E (snprintf 32 ("node_" +:+ pretty u +:+ "_color"))
    (OString (createStringObject "0")) 0) σ (λ _, holds δ (with_colour u S) rs).
Proof using HE.
  clear Horder Hlim. intros H Hu. rewrite color_buffer_32 by done.
  apply (runs_setKey E HE _ _ _ _ H). apply createStringObject_rel.
Qed.

(** Creating the sets first makes no difference to what is linked. *)
Lemma with_node_other u v S :
  u ≠ v → vals (with_node u S) !! neighbours_key v = vals S !! neighbours_key v.
Proof using Type.
  clear. intros Hne. unfold with_node. case_match; [done|]. simpl.
  rewrite lookup_insert_ne; [done|]. by intros ?%(inj neighbours_key).
Qed.

Lemma with_neighbour_node u v S : with_neighbour u v (with_node u S) = with_neighbour u v S.
Proof using Type.
  clear. unfold with_node, with_neighbour. destruct (vals S !! neighbours_key u) eqn:Hk.
  - by rewrite Hk.
  - by rewrite put_lookup, put_put.
Qed.

Lemma with_node_comm u v w S :
  u ≠ v → with_neighbour u w (with_node v S) = with_node v (with_neighbour u w S).
Proof using Type.
  clear. intros Hne. unfold with_neighbour. rewrite with_node_other by done.
  unfold with_node, put. cbn [vals ttls]. rewrite lookup_insert_ne by (by intros ?%(inj neighbours_key)).
  destruct (vals S !! neighbours_key v); [done|]. cbn [vals ttls].
  f_equal. apply insert_insert_ne. by intros ?%(inj neighbours_key).
Qed.

Lemma with_nodes_linked u v S :
  with_neighbour v u (with_neighbour u v (with_node v (with_node u S))) =
  with_neighbour v u (with_neighbour u v S).
Proof using Type.
  clear. destruct (decide (u = v)) as [<-|Hne].
  - replace (with_node u (with_node u S)) with (with_node u S); [by rewrite with_neighbour_node|].
    unfold with_node. destruct (vals S !! neighbours_key u) eqn:Hk; [by rewrite Hk|by rewrite put_lookup].
  - by rewrite with_node_comm, with_neighbour_node, with_neighbour_node by done.
Qed.

Lemma with_node_set u S :
  is_string (vals S !! neighbours_key u) = false →
  ∃ X, vals (with_node u S) !! neighbours_key u = Some (ASet X).
Proof using Type.
  clear. intros Hs. unfold with_node. destruct (vals S !! neighbours_key u) as [[s|X]|] eqn:Hk; try done.
  - eauto.
  - rewrite put_lookup. eauto.
Qed.

Lemma runs_link δ T rs σ u v :
  in_int u → in_int v → holds δ (with_node v (with_node u T)) rs σ →
  is_string (vals T !! neighbours_key u) = false → is_string (vals T !! neighbours_key v) = false →
  runs (add_neighbour E (neighbours_key u) v;;
        add_neighbour E (neighbours_key v) u;;
        setKey E (snprintf 32 ("node_" +:+ pretty u +:+ "_color")) (OString (createStringObject "0")) 0;;
        setKey E (snprintf 32 ("node_" +:+ pretty v +:+ "_color")) (OString (createStringObject "0")) 0) σ
    (λ _ σ', ∃ δ', holds δ' (linked u v T) rs σ').
Proof using HE Horder Hlim.
  intros Hu Hv H Hsu Hsv.
  assert (∃ X, vals (with_node v (with_node u T)) !! neighbours_key u = Some (ASet X)) as [X HX].
  { destruct (with_node_set u T Hsu) as [X HX]. destruct (decide (u = v)) as [<-|Hne].
    - exists X. unfold with_node at 1. by rewrite HX.
    - exists X. by rewrite with_node_other. }
  assert (∃ Y, vals (with_node v (with_node u T)) !! neighbours_key v = Some (ASet Y)) as [Y HY].
  { apply with_node_set. destruct (decide (u = v)) as [<-|Hne]; [|by rewrite with_node_other].
    by destruct (with_node_set u T Hsu) as [Z ->]. }
  step by (by apply (runs_add_neighbour _ _ _ _ u v X H HX)). intros _ σ1 [δ1 H1].
  assert (∃ Y', vals (with_neighbour u v (with_node v (with_node u T))) !! neighbours_key v =
    Some (ASet Y')) as [Y' HY'].
  { unfold with_neighbour. destruct (decide (u = v)) as [<-|Hne]; [rewrite put_lookup; eauto|].
    simpl. rewrite lookup_insert_ne by (by intros ?%(inj neighbours_key)). eauto. }
  step by (by apply (runs_add_neighbour _ _ _ _ v u Y' H1 HY')). intros _ σ2 [δ2 H2].
  rewrite with_nodes_linked in H2.
  step by (by apply (runs_with_colour _ _ _ _ u H2)). intros _ σ3 H3.
  finish by (by apply (runs_with_colour _ _ _ _ v H3)). eauto.
Qed.

(** Both lookups, before whatever follows. *)
Lemma edge_lookups δ S rs σ k1 k2 (K : option robj → option robj → cmd ()) :
  holds δ S rs σ →
  ∃ a b σ', (a ← lookupKeyWrite E k1; b ← lookupKeyWrite E k2; K a b) σ = K a b σ' ∧
    option_Forall2 obj_rel a (live E S k1) ∧ option_Forall2 obj_rel b (live E S k2) ∧
    holds δ (touch E (touch E S k1) k2) rs σ'.
Proof using HE.
  clear Horder Hlim. intros H. pose proof (runs_lookupKeyWrite E HE _ _ _ _ H k1) as Ha.
  unfold runs in Ha. destruct (lookupKeyWrite E k1 σ) as [[a σ1]|] eqn:Ha'; [|done].
  destruct Ha as [Ha H1]. pose proof (runs_lookupKeyWrite E HE _ _ _ _ H1 k2) as Hb.
  unfold runs in Hb. destruct (lookupKeyWrite E k2 σ1) as [[b σ2]|] eqn:Hb'; [|done].
  destruct Hb as [Hb H2]. rewrite live_other in Hb.
  exists a, b, σ2. split; [|done]. unfold mbind, cmd_bind. by rewrite Ha', Hb'.
Qed.

(** The rest of an edge, the failed assertion included. *)
Lemma edge_sets δ T rs σ u v a b :
  in_int u → in_int v → holds δ T rs σ →
  option_Forall2 obj_rel a (vals T !! neighbours_key u) →
  option_Forall2 obj_rel b (vals T !! neighbours_key v) →
  let rest :=
    ok1 ← node_set E (neighbours_key u) a v;
    if negb ok1 then mret tt else
    ok2 ← node_set E (neighbours_key v) b u;
    if negb ok2 then mret tt else
    add_neighbour E (neighbours_key u) v;;
    add_neighbour E (neighbours_key v) u;;
    setKey E (snprintf 32 ("node_" +:+ pretty u +:+ "_color")) (OString (createStringObject "0")) 0;;
    setKey E (snprintf 32 ("node_" +:+ pretty v +:+ "_color")) (OString (createStringObject "0")) 0 in
  if is_string (vals T !! neighbours_key u)
  then runs rest σ (λ _ σ', holds δ T (rs ++ [RError ("ERR " +:+ wrongtype_text)])%list σ')
  else if is_string (vals T !! neighbours_key v)
  then runs rest σ (λ _ σ',
    holds δ (with_node u T) (rs ++ [RError ("ERR " +:+ wrongtype_text)])%list σ')
  else if bool_decide (u = v ∧ vals T !! neighbours_key u = None) then aborts rest σ
  else runs rest σ (λ _ σ', ∃ δ', holds δ' (linked u v T) rs σ').
Proof using HE Horder Hlim.
  intros Hu Hv H Ha Hb rest. subst rest.
  pose proof (runs_node_set δ T rs σ _ u v a _ H eq_refl Ha eq_refl) as H1.
  destruct (is_string (vals T !! neighbours_key u)) eqn:Hs1.
  { step by (exact H1). intros ? σ2 [-> H2]. by apply runs_ret. }
  destruct (is_string (vals T !! neighbours_key v)) eqn:Hs2.
  { assert (u ≠ v) by (intros <-; congruence).
    step by (exact H1). intros ? σ2 [-> H2].
    step by (by apply (runs_node_set _ _ _ _ _ v u _ _ H2 eq_refl Hb); rewrite with_node_other).
    rewrite Hs2. intros ? σ3 [-> H3]. by apply runs_ret. }
  case_bool_decide as Hself.
  - destruct Hself as [<- Hnone]. stepping by (exact H1). intros ? σ2 [-> H2]. cbn [negb].
    rewrite Hnone in Hb. inversion Hb; subst. apply aborts_bind, aborts_bind.
    eapply aborts_dbAdd; [exact H2|]. by destruct (with_node_set u T Hs1) as [X ->].
  - step by (exact H1). intros ? σ2 [-> H2]. cbn [negb].
    assert (vals (with_node u T) !! neighbours_key v = vals T !! neighbours_key v) as Hother.
    { destruct (decide (u = v)) as [<-|]; [|by apply with_node_other]. unfold with_node.
      by destruct (vals T !! neighbours_key u) eqn:Hk; [rewrite Hk|naive_solver]. }
    step by (by apply (runs_node_set _ _ _ _ _ v u _ _ H2 eq_refl Hb)).
    rewrite Hs2. intros ? σ3 [-> H3]. cbn [negb]. by apply (runs_link δ).
Qed.

Lemma runs_add_edge δ S rs σ e :
  holds δ S rs σ → in_int e.1 → in_int e.2 →
  match edge_result E e S with
  | Some (S', rs') => runs (add_edge E e) σ (λ _ σ', ∃ δ', holds δ' S' (rs ++ rs')%list σ')
  | None => aborts (add_edge E e) σ
  end.
Proof using HE Horder Hlim.
  destruct e as [u v]. cbn [fst snd edge_result]. intros H Hu Hv.
  unfold add_edge. rewrite !neighbours_buffer_32 by done.
  edestruct (edge_lookups δ S rs σ (neighbours_key u) (neighbours_key v))
    as (a & b & σ1 & Heq & Ha & Hb & H1); [done|].
  unfold runs, aborts. rewrite Heq.
  destruct (looked_up E S (neighbours_key u) (neighbours_key v)) as [Ho1 Ho2].
  rewrite <- Ho1 in *. rewrite <- Ho2 in *.
  pose proof (edge_sets δ _ rs σ1 u v a b Hu Hv H1 Ha Hb) as Hrest. cbv zeta in Hrest.
  do 2 (destruct (is_string _); [refine (runs_mono _ _ _ _ Hrest _); eauto|]).
  case_bool_decide; [done|]. rewrite app_nil_r. exact Hrest.
Qed.

Lemma scan_edge_int line e : scan_edge line = Some e → in_int e.1 ∧ in_int e.2.
Proof using Type.
  clear. unfold scan_edge, scan_d. repeat case_match; intros; simplify_eq/=.
  pose proof (wrap_s_range 32 (clamp_long z)). pose proof (wrap_s_range 32 (clamp_long z1)). ints.
Qed.

Lemma runs_add_lines lines δ S rs σ :
  holds δ S rs σ →
  match graph_result E (omap scan_edge lines) S with
  | Some (S', rs') =>
      runs (fold_cmd (λ _ line, add_line E line) tt lines) σ
        (λ _ σ', ∃ δ', holds δ' S' (rs ++ rs')%list σ')
  | None => aborts (fold_cmd (λ _ line, add_line E line) tt lines) σ
  end.
Proof using HE Horder Hlim.
  revert δ S rs σ. induction lines as [|line lines IH]; intros δ S rs σ H.
  { cbn. rewrite app_nil_r. by exists δ. }
  cbn [omap list_omap fold_cmd]. unfold add_line at 2 4.
  destruct (scan_edge line) as [e|] eqn:He.
  2:{ specialize (IH δ S rs σ H). destruct (graph_result _ _ _) as [[S' rs']|]; exact IH. }
  destruct (scan_edge_int line e He) as [Hu Hv].
  pose proof (runs_add_edge δ S rs σ e H Hu Hv) as Hedge. cbn [graph_result].
  destruct (edge_result E e S) as [[S1 rs1]|]; cbn; [|by apply aborts_bind].
  unfold runs in Hedge. destruct (add_edge E e σ) as [[[] σ1]|] eqn:Hadd; [|done].
  destruct Hedge as [δ1 H1]. specialize (IH _ _ _ _ H1).
  destruct (graph_result E (omap scan_edge lines) S1) as [[S' rs']|]; cbn;
    unfold runs, aborts, mbind, cmd_bind; rewrite Hadd.
  - rewrite (assoc_L (++)). exact IH.
  - exact IH.
Qed.

(** The whole command. *)
Lemma runs_addGraphCommand fopen δ S rs σ name filename rest :
  holds δ S rs σ →
  match fopen (c_str filename) with
  | None => runs (addGraphCommand E fopen (name :: filename :: rest)) σ
      (λ _, holds δ S (rs ++ [RError "ERR Could not open file"])%list)
  | Some file =>
      match graph_result E (edges_of file) S with
      | Some (S', errs) => runs (addGraphCommand E fopen (name :: filename :: rest)) σ
          (λ _ σ', ∃ δ', holds δ' S' (rs ++ errs ++ [ok])%list σ')
      | None => aborts (addGraphCommand E fopen (name :: filename :: rest)) σ
      end
  end.
Proof using HE Horder Hlim.
  intros H. unfold addGraphCommand. cbn [length Nat.ltb Nat.leb lookup list_lookup].
  unfold runs, aborts, mbind, cmd_bind, lift. cbn [fmap option_fmap option_map].
  destruct (fopen (c_str filename)) as [file|].
  2:{ exact (runs_addReply _ _ _ _ H (RError "ERR Could not open file")). }
  pose proof (runs_add_lines (read_lines 256 file) δ S rs σ H) as Hlines. unfold edges_of.
  destruct (graph_result _ _ _) as [[S' errs]|]; unfold runs, aborts in Hlines;
    destruct (fold_cmd _ _ _ σ) as [[[] σ1]|]; try done.
  destruct Hlines as [δ1 H1]. rewrite (assoc_L (++)). exists δ1.
  exact (runs_addReply _ _ _ _ H1 ok).
Qed.
End spec.

(** ** Loading a graph *)

Definition mentioned (es : list (Z * Z)) (u : Z) : Prop := u ∈ es.*1 ∨ u ∈ es.*2.

#[export] Instance mentioned_dec es u : Decision (mentioned es u).
Proof. unfold mentioned. apply _. Defined.

Definition no_loops (es : list (Z * Z)) : Prop := Forall (λ e, e.1 ≠ e.2) es.

(** The members of the set of [u]. *)
Definition other_end (u : Z) (e : Z * Z) : option string :=
  if decide (e.1 = u) then Some (pretty e.2)
  else if decide (e.2 = u) then Some (pretty e.1) else None.

Definition nbr_set (es : list (Z * Z)) (u : Z) : gset string := list_to_set (omap (other_end u) es).

(** A store that holds the graph of the edges and nothing else. *)
Record graph_store (es : list (Z * Z)) (S : store) : Prop := {
  gs_ttls : ttls S = ∅;
  gs_nbrs u : vals S !! neighbours_key u =
    if decide (mentioned es u) then Some (ASet (nbr_set es u)) else None;
  gs_color u : vals S !! color_key u = if decide (mentioned es u) then Some zero else None;
  gs_keys k : is_Some (vals S !! k) → ∃ u, k = neighbours_key u ∨ k = color_key u;
}.

Lemma no_ttl E S k : ttls S = ∅ → touch E S k = S.
Proof.
  intros Ht. unfold touch, expired, past_time. rewrite Ht, lookup_empty. by rewrite !andb_false_r.
Qed.

Lemma mentioned_snoc es e u : mentioned (es ++ [e]) u ↔ mentioned es u ∨ u = e.1 ∨ u = e.2.
Proof. unfold mentioned. rewrite !fmap_app. cbn. set_solver. Qed.

Lemma nbr_set_snoc es e u :
  nbr_set (es ++ [e]) u =
  match other_end u e with Some x => {[x]} ∪ nbr_set es u | None => nbr_set es u end.
Proof.
  unfold nbr_set. rewrite omap_app, list_to_set_app_L. cbn. destruct (other_end u e); cbn;
    [by rewrite union_empty_r_L, (comm_L (∪))|by rewrite union_empty_r_L].
Qed.

Lemma nbr_set_unmentioned es u : ¬ mentioned es u → nbr_set es u = ∅.
Proof.
  intros Hu. unfold nbr_set. replace (omap (other_end u) es) with (@nil string); [done|].
  induction es as [|e es IH]; [done|]. cbn. unfold other_end at 1. unfold mentioned in Hu. cbn in Hu.
  rewrite !decide_False by set_solver. apply IH. unfold mentioned. set_solver.
Qed.

(** Looking up the keys of a linked store. *)
Lemma linked_nbrs u v S w :
  u ≠ v →
  vals (linked u v S) !! neighbours_key w =
  if decide (w = u) then Some (ASet ({[pretty v]} ∪ nbrs (vals S !! neighbours_key u)))
  else if decide (w = v) then Some (ASet ({[pretty u]} ∪ nbrs (vals S !! neighbours_key v)))
  else vals S !! neighbours_key w.
Proof.
  intros Huv. unfold linked, with_colour, with_neighbour. cbn [vals put persist].
  rewrite !(lookup_insert_ne _ (color_key _)) by distinct_keys.
  assert (∀ x y : Z, x ≠ y → neighbours_key x ≠ neighbours_key y) as Hinj
    by (by intros x y ? ?%(inj neighbours_key)).
  rewrite (lookup_insert_ne _ _ (neighbours_key v)) by auto.
  destruct (decide (w = u)) as [->|].
  - rewrite lookup_insert_ne by auto. by rewrite lookup_insert_eq.
  - destruct (decide (w = v)) as [->|]; [by rewrite lookup_insert_eq|].
    by rewrite !lookup_insert_ne by auto.
Qed.

Lemma linked_color u v S w :
  vals (linked u v S) !! color_key w =
  if decide (w = u ∨ w = v) then Some zero else vals S !! color_key w.
Proof.
  unfold linked, with_colour, with_neighbour. cbn [vals put persist].
  destruct (decide (w = v)) as [->|Hv].
  { rewrite lookup_insert_eq. by rewrite decide_True by auto. }
  rewrite lookup_insert_ne by (by intros ?%(inj color_key)).
  destruct (decide (w = u)) as [->|Hu].
  { rewrite lookup_insert_eq. by rewrite decide_True by auto. }
  rewrite decide_False by tauto. rewrite lookup_insert_ne by (by intros ?%(inj color_key)).
  by rewrite !lookup_insert_ne by distinct_keys.
Qed.

Lemma linked_keys u v S k :
  is_Some (vals (linked u v S) !! k) →
  is_Some (vals S !! k) ∨ k ∈ [color_key u; color_key v; neighbours_key u; neighbours_key v].
Proof.
  unfold linked, with_colour, with_neighbour. cbn [vals put persist].
  rewrite !lookup_insert_is_Some'. set_solver.
Qed.

Lemma graph_store_link es S u v :
  u ≠ v → graph_store es S → graph_store (es ++ [(u, v)]) (linked u v S).
Proof.
  intros Huv [Ht Hn Hc Hk]. split.
  - unfold linked, with_colour, with_neighbour. cbn [ttls put persist]. by rewrite Ht, !delete_empty.
  - intros w. rewrite linked_nbrs, nbr_set_snoc by done.
    rewrite (decide_ext _ _ _ _ (mentioned_snoc es (u, v) w)). cbn [fst snd].
    unfold other_end. cbn [fst snd]. rewrite !Hn.
    assert (∀ w, nbrs (if decide (mentioned es w) then Some (ASet (nbr_set es w)) else None) =
      nbr_set es w) as Hnbrs.
    { intros x. destruct (decide (mentioned es x)); [done|]. by rewrite nbr_set_unmentioned. }
    rewrite !Hnbrs. destruct (decide (w = u)) as [->|Hu].
    { rewrite (decide_True (P := u = u)) by done. by rewrite decide_True by auto. }
    rewrite (decide_False (P := u = w)) by done. destruct (decide (w = v)) as [->|Hv].
    { rewrite (decide_True (P := v = v)) by done. by rewrite decide_True by auto. }
    rewrite (decide_False (P := v = w)) by done.
    destruct (decide (mentioned es w)); [by rewrite decide_True by auto|].
    by rewrite decide_False by tauto.
  - intros w. rewrite linked_color, Hc, (decide_ext _ _ _ _ (mentioned_snoc es (u, v) w)).
    cbn [fst snd]. destruct (decide (w = u ∨ w = v)); [by rewrite decide_True by tauto|].
    destruct (decide (mentioned es w)); [by rewrite decide_True by auto|].
    by rewrite decide_False by tauto.
  - intros k [?|Hin]%linked_keys; [auto|]. set_solver.
Qed.

(** Edges without loops, on a store that holds a graph. *)
Lemma graph_result_load E es done S :
  no_loops es → graph_store done S →
  ∃ S', graph_result E es S = Some (S', []) ∧ graph_store (done ++ es) S'.
Proof.
  revert done S. induction es as [|[u v] es IH]; intros before S Hl H.
  { exists S. by rewrite app_nil_r. }
  apply Forall_cons in Hl as [Huv Hl]. cbn [fst snd] in Huv. cbn [graph_result].
  assert (edge_result E (u, v) S = Some (linked u v S, [])) as ->.
  { unfold edge_result, live. rewrite !no_ttl by apply H. rewrite !(gs_nbrs _ _ H).
    rewrite (bool_decide_eq_false_2 (u = v ∧ _)) by tauto. by repeat case_decide. }
  cbn. destruct (IH (before ++ [(u, v)])%list (linked u v S)) as (S' & -> & HS'); [done|by apply graph_store_link|].
  exists S'. split; [done|]. by rewrite <- (assoc_L (++)) in HS'.
Qed.

Lemma graph_result_app E es es' S :
  graph_result E (es ++ es') S =
  '(S1, rs) ← graph_result E es S; '(S2, rs') ← graph_result E es' S1; Some (S2, (rs ++ rs')%list).
Proof.
  revert S. induction es as [|e es IH]; intros S; cbn.
  { by destruct (graph_result E es' S) as [[]|]. }
  destruct (edge_result E e S) as [[S1 rs]|]; cbn; [|done]. rewrite IH.
  destruct (graph_result E es S1) as [[S2 rs2]|]; cbn; [|done].
  destruct (graph_result E es' S2) as [[S3 rs3]|]; cbn; [|done]. by rewrite (assoc_L (++)).
Qed.

(** A self-loop of a node not yet there. *)
Lemma graph_result_loop E es u rest S :
  no_loops es → ¬ mentioned es u → graph_store [] S → graph_result E (es ++ (u, u) :: rest) S = None.
Proof.
  intros Hl Hu H. rewrite graph_result_app.
  destruct (graph_result_load E es [] S Hl H) as (S' & -> & HS'). rewrite app_nil_l in HS'.
  assert (edge_result E (u, u) S' = None) as Hedge.
  { unfold edge_result, live. rewrite !no_ttl by apply HS'. rewrite (gs_nbrs _ _ HS'), decide_False by done.
    by rewrite bool_decide_eq_true_2. }
  cbn [graph_result mbind option_bind]. by rewrite Hedge.
Qed.

Lemma no_data_graph : graph_store [] no_data.
Proof.
  split; [done|intros u; by rewrite decide_False by (unfold mentioned; set_solver)..|].
  intros k. cbn. rewrite lookup_empty. by intros [? ?].
Qed.

(** ** Properties *)

(** C34: [add_graph] loads a graph.  On an empty server, whose integer sets are
    limited to fewer than 2^29 entries, a file whose edges have no self-loop is
    loaded completely and answered with OK alone: every node that the file
    mentions gets exactly the set of its neighbours, each edge in both
    directions however often and in whatever order it is listed, and the
    colour 0, and no other key exists. *)
Theorem add_graph_loads E fopen name filename content σ
    (HE : active E) (Ho : iterates E) (Hlim : limits_ok (set_limits E))
    (Hσ : holds no_drift no_data [] σ)
    (Hfile : fopen (c_str filename) = Some content) (Hl : no_loops (edges_of content)) :
  runs (addGraphCommand E fopen [name; filename]) σ (λ _ σ',
    reply σ' = [ok] ∧ ∃ δ' S', db_rel δ' (db σ') S' ∧ graph_store (edges_of content) S').
Proof.
  pose proof (runs_addGraphCommand E HE Ho Hlim fopen no_drift no_data [] σ name filename [] Hσ) as H.
  destruct (graph_result_load E _ [] no_data Hl no_data_graph) as (S' & HS & Hg).
  rewrite Hfile, HS in H. finish by (exact H). intros _ σ' (δ' & Hdb & Hr). split; [done|].
  by exists δ', S'.
Qed.

Definition path_files (name : string) : option string :=
  if decide (name = "path.csv") then Some "1,2
2,3
2,1
" else None.

Lemma add_graph_loads_witness :
  runs (addGraphCommand plain_env path_files ["add_graph"; "path.csv"]) plain_server (λ _ σ',
    reply σ' = [ok] ∧ ∃ δ' S', db_rel δ' (db σ') S' ∧ graph_store [(1, 2); (2, 3); (2, 1)] S').
Proof.
  apply (add_graph_loads plain_env path_files "add_graph" "path.csv" "1,2
2,3
2,1
" plain_server plain_active plain_iterates eq_refl plain_server_rel); [reflexivity|].
  vm_compute edges_of. repeat constructor; done.
Defined.

(** C35: on an empty server with such limits, a self-loop of a node that is not
    there yet stops the server.  The lookups of the two ends both find
    nothing, so [dbAdd] is called twice on the same key and its assertion
    fails: a file of edges makes the whole process abort. *)
Theorem add_graph_self_loop_aborts E fopen name filename content es u rest σ
    (HE : active E) (Ho : iterates E) (Hlim : limits_ok (set_limits E))
    (Hσ : holds no_drift no_data [] σ)
    (Hfile : fopen (c_str filename) = Some content)
    (Hes : edges_of content = (es ++ (u, u) :: rest)%list)
    (Hl : no_loops es) (Hu : ¬ mentioned es u) :
  aborts (addGraphCommand E fopen [name; filename]) σ.
Proof.
  pose proof (runs_addGraphCommand E HE Ho Hlim fopen no_drift no_data [] σ name filename [] Hσ) as H.
  by rewrite Hfile, Hes, (graph_result_loop E es u rest no_data Hl Hu no_data_graph) in H.
Qed.

Definition loop_files (name : string) : option string := Some "1,2
3,3
".

Lemma add_graph_self_loop_aborts_witness :
  aborts (addGraphCommand plain_env loop_files ["add_graph"; "loop.csv"]) plain_server.
Proof.
  apply (add_graph_self_loop_aborts plain_env loop_files "add_graph" "loop.csv" "1,2
3,3
" [(1, 2)] 3 [] plain_server plain_active plain_iterates eq_refl plain_server_rel);
    [reflexivity|vm_compute; reflexivity|repeat constructor; done|].
  unfold mentioned. cbn. rewrite !elem_of_cons, elem_of_nil. lia.
Defined.

(** After [add_graph] the histogram of key sizes lacks the sets it has filled:
    two sets of one member each are not counted. *)
Lemma add_graph_not_counted :
  match addGraphCommand plain_env (λ _, Some "1,2") ["add_graph"; "edge"] plain_server with
  | Some (_, σ) => keysizes_hist (db σ) (OBJ_SET, log2ceil 1) = 0
  | None => False
  end.
Proof. vm_compute. reflexivity. Qed.
