(* ===== verification/Server.v ===== *)
(** * The server: looking up, admitting and calling a command

    [processCommand] of src/redis/src/server.c on the commands modelled here:
    the command table with its arities, the checks that refuse a command
    before it runs, and the call.  [WAIT] is here as well.  Commands outside
    the table are not modelled. *)

From S2P Require Import Prelude CLib Hiredis Program ServerSpec Util Glob Intset Listpack ListpackRep SetType.
From S2P Require Import Db DbRel Strings StringsSpec SetCommands KeyCommands SetAlgebra SetAlgebraSpec.
From S2P Require Import Keys AddGraph.

(** ** WAIT *)

(** [getTimeoutFromObjectOrReply] in milliseconds. *)
Definition getTimeoutFromObjectOrReply (server : environ) (object : string) : cmd (option Z) :=
  v ← getLongLongFromObjectOrReply object (Some "timeout is not an integer or out of range");
  match v with
  | None => mret None
  | Some tval =>
      let now := commandTimeSnapshot server in
      if tval <? 0 then addReplyError "timeout is negative";; mret None
      else if 0 <? tval then
        if LLONG_MAX - now <? tval then addReplyError "timeout is out of range";; mret None
        else mret (Some (tval + now))
      else mret (Some tval)
  end.

Definition wait_on_replica : string :=
  "WAIT cannot be used with replica instances. Please also note that since Redis 4.0 if a replica is configured to be writable (which is not the default) writes to replicas are just local and are not propagated.".

(** At once, or when the client is unblocked, the reply is the number of
    replicas that have acknowledged the writes of the client: [ackreplicas] is
    that number at the moment of the reply. *)
Definition waitCommand (server : environ) (ackreplicas : Z) (argv : list string) : cmd () :=
  if masterhost server then addReplyError wait_on_replica else
  n ← lift (argv !! 1%nat);
  numreplicas ← getLongFromObjectOrReply n None;
  match numreplicas with
  | None => mret tt
  | Some _ =>
      t ← lift (argv !! 2%nat);
      timeout ← getTimeoutFromObjectOrReply server t;
      match timeout with
      | None => mret tt
      | Some _ => addReply (RInteger ackreplicas)
      end
  end.

(** ** The command table *)

(** The handlers of the table take the surroundings, the replicas that have
    the writes of the client, and the arguments. *)
Definition handler : Type := environ → Z → list string → cmd ().

Record redisCommand : Type := mkCommand {
  fullname : string;
  proc : handler;
  arity : Z;
  is_write : bool;
}.

(** A handler that does not use the replicas. *)
Definition local (h : environ → list string → cmd ()) : handler := λ server _ argv, h server argv.

(** Commands on keys, and [WAIT]. *)
Definition genericCommands : list redisCommand := [
  mkCommand "del" (local delCommand) (-2) true;
  mkCommand "exists" (local existsCommand) (-2) false;
  mkCommand "keys" (local keysCommand) 2 false;
  mkCommand "unlink" (local unlinkCommand) (-2) true;
  mkCommand "wait" waitCommand 3 false
].

Definition stringCommands : list redisCommand := [
  mkCommand "get" (local getCommand) 2 false;
  mkCommand "getdel" (local getdelCommand) 2 true;
  mkCommand "getex" (local (λ server, getexCommand server "getex")) (-2) true;
  mkCommand "getrange" (local getrangeCommand) 4 false;
  mkCommand "getset" (local getsetCommand) 3 true;
  mkCommand "mset" (local (λ server, msetCommand server "mset")) (-3) true;
  mkCommand "msetnx" (local (λ server, msetnxCommand server "msetnx")) (-3) true;
  mkCommand "psetex" (local (λ server, psetexCommand server "psetex")) 4 true;
  mkCommand "set" (local (λ server, setCommand server "set")) (-3) true;
  mkCommand "setex" (local (λ server, setexCommand server "setex")) 4 true;
  mkCommand "setnx" (local (λ server, setnxCommand server "setnx")) 3 true;
  mkCommand "strlen" (local strlenCommand) 2 false;
  mkCommand "substr" (local getrangeCommand) 4 false
].

(** Commands that change a string in place. *)
Definition inplaceCommands : list redisCommand := [
  mkCommand "append" (local appendCommand) 3 true;
  mkCommand "decr" (local decrCommand) 2 true;
  mkCommand "decrby" (local decrbyCommand) 3 true;
  mkCommand "incr" (local incrCommand) 2 true;
  mkCommand "incrby" (local incrbyCommand) 3 true;
  mkCommand "setrange" (local setrangeCommand) 4 true
].

Definition setCommands : list redisCommand := [
  mkCommand "sadd" (local saddCommand) (-3) true;
  mkCommand "scard" (local scardCommand) 2 false;
  mkCommand "sdiff" (local sdiffCommand) (-2) false;
  mkCommand "sdiffstore" (local sdiffstoreCommand) (-3) true;
  mkCommand "sinter" (local sinterCommand) (-2) false;
  mkCommand "sintercard" (local sinterCardCommand) (-3) false;
  mkCommand "sinterstore" (local sinterstoreCommand) (-3) true;
  mkCommand "sismember" (local sismemberCommand) 3 false;
  mkCommand "smembers" (local smembersCommand) 2 false;
  mkCommand "smove" (local smoveCommand) 4 true;
  mkCommand "srem" (local sremCommand) (-3) true;
  mkCommand "sunion" (local sunionCommand) (-2) false;
  mkCommand "sunionstore" (local sunionstoreCommand) (-3) true
].

(** The commands of this repository. *)
Definition customCommands (fopen : string → option string) : list redisCommand := [
  mkCommand "add_graph" (local (λ server, addGraphCommand server fopen)) 2 true;
  mkCommand "hello_world" (local (λ _, helloWorldCommand)) 0 false
].

(** The commands whose handlers keep the sizes of the keys exact. *)
Definition coreCommands : list redisCommand := genericCommands ++ stringCommands ++ setCommands.

Definition redisCommandTable (fopen : string → option string) : list redisCommand :=
  coreCommands ++ inplaceCommands ++ customCommands fopen.

(** Names are compared without regard to case. *)
Definition lookupCommand (table : list redisCommand) (name : string) : option redisCommand :=
  list_find (λ c, strcaseeq name (fullname c) = true) table ≫= λ ic, Some ic.2.

Definition commandCheckArity (c : redisCommand) (argc : Z) : bool :=
  negb ((0 <? arity c) && negb (arity c =? argc) || (argc <? - arity c)).

(** ** Admission *)

(** What can refuse a command: the user is not authenticated; the disk does
    not take writes; too few replicas; the link to the master is down; the
    data set is being loaded. *)
Record standing : Type := mkStanding {
  default_user_nopass : bool;
  default_user_disabled : bool;
  authenticated : bool;
  disk_error : option string;
  repl_min_slaves_max_lag : Z;
  repl_min_slaves_to_write : Z;
  repl_good_slaves_count : Z;
  repl_connected : bool;
  repl_serve_stale_data : bool;
  async_loading : bool;
}.

Definition authRequired (s : standing) : bool :=
  (negb (default_user_nopass s) || default_user_disabled s) && negb (authenticated s).

Definition checkGoodReplicasStatus (server : environ) (s : standing) : bool :=
  masterhost server || (repl_min_slaves_max_lag s =? 0) || (repl_min_slaves_to_write s =? 0) ||
  (repl_min_slaves_to_write s <=? repl_good_slaves_count s).

Definition noautherr : string := "NOAUTH Authentication required.".
Definition noreplicaserr : string := "NOREPLICAS Not enough good replicas to write.".
Definition roslaveerr : string := "READONLY You can't write against a read only replica.".
Definition masterdownerr : string :=
  "MASTERDOWN Link with MASTER is down and replica-serve-stale-data is set to 'no'.".
Definition loadingerr : string := "LOADING Redis is loading the dataset in memory".

(** The error that refuses the command, in the order of the checks. *)
Definition refusal (server : environ) (s : standing) (c : redisCommand) (argc : Z) : option string :=
  if negb (commandCheckArity c argc) then
    Some ("ERR wrong number of arguments for '" +:+ fullname c +:+ "' command")
  else if authRequired s then Some noautherr
  else if bool_decide (is_Some (disk_error s)) && is_write c then disk_error s
  else if is_write c && negb (checkGoodReplicasStatus server s) then Some noreplicaserr
  else if masterhost server && repl_slave_ro server && is_write c then Some roslaveerr
  else if masterhost server && negb (repl_connected s) && negb (repl_serve_stale_data s)
  then Some masterdownerr
  else if loading server && negb (async_loading s) then Some loadingerr
  else None.

(** [processCommand] on a command of the table. *)
Definition processCommand (server : environ) (s : standing) (ackreplicas : Z) (c : redisCommand)
    (argv : list string) : cmd () :=
  match refusal server s c (Z.of_nat (length argv)) with
  | Some err => addReply (RError err)
  | None => proc c server ackreplicas argv
  end.
