(* ===== verification/ServerRefine.v ===== *)
(** * Every command does what it means

    What each command of the table means on a store, the handlers against
    these meanings, and the invariant that every command keeps: values are
    Redis strings of bounded length and non-empty sets of strings, expiries
    belong to keys that exist, and the histogram of key sizes counts the keys
    there are. *)

From S2P Require Import Prelude CLib Hiredis Program ServerSpec Util Glob Intset Listpack ListpackRep SetType.
From S2P Require Import Db DbRel Strings StringsSpec SetCommands KeyCommands SetAlgebra SetAlgebraSpec.
From S2P Require Import Keys AddGraph Server.

(** ** Reference definitions *)

(** A command with its arguments as a relation between the store before, the
    store after and the reply. *)
Definition meaning : Type := environ → Z → list string → store → store * redisReply → Prop.

Definition on_key (f : environ → string → store → store * redisReply) : meaning :=
  λ E _ argv S out, match argv with [_; k] => out = f E k S | _ => False end.
Definition on_key1 (f : environ → string → string → store → store * redisReply) : meaning :=
  λ E _ argv S out, match argv with [_; k; a] => out = f E k a S | _ => False end.
Definition on_key2 (f : environ → string → string → string → store → store * redisReply) : meaning :=
  λ E _ argv S out, match argv with [_; k; a; b] => out = f E k a b S | _ => False end.
Definition on_rest (f : environ → list string → store → store * redisReply) : meaning :=
  λ E _ argv S out, match argv with _ :: args => out = f E args S | _ => False end.
Definition on_key_rest (f : environ → string → list string → store → store * redisReply) : meaning :=
  λ E _ argv S out, match argv with _ :: k :: args => out = f E k args S | _ => False end.

Definition keys_meaning : meaning := λ E _ argv S out,
  match argv with
  | [_; p] => out.1 = S ∧ ∃ l, out.2 = RArray l ∧ keys_listed E p S l
  | _ => False
  end.

(** The replies of [WAIT], which does not change the store. *)
Definition wait_reply (E : environ) (ack : Z) (n t : string) : redisReply :=
  match string2ll n, string2ll t with
  | None, _ => not_integer
  | _, None => RError "ERR timeout is not an integer or out of range"
  | Some _, Some tval =>
      if tval <? 0 then RError "ERR timeout is negative"
      else if (0 <? tval) && (LLONG_MAX - commandTimeSnapshot E <? tval)
      then RError "ERR timeout is out of range"
      else RInteger ack
  end.

Definition wait_meaning : meaning := λ E ack argv S out,
  match argv with [_; n; t] => out = (S, wait_reply E ack n t) | _ => False end.

Definition set_meaning (fullname : string) : meaning := λ E _ argv S out,
  match argv with
  | _ :: k :: v :: opts => out = setCommand_result E fullname k v opts S
  | _ => False
  end.

Definition genericMeanings : list meaning := [
  on_rest del_result;
  on_rest exists_result;
  keys_meaning;
  on_rest del_result;
  wait_meaning
].

Definition stringMeanings : list meaning := [
  on_key get_result;
  on_key getdel_result;
  on_key_rest (λ E, getex_result E "getex");
  on_key2 getrange_result;
  on_key1 getset_result;
  on_rest (λ E, mset_result E "mset" false);
  on_rest (λ E, mset_result E "msetnx" true);
  on_key2 (λ E k t v, set_result E "psetex" OBJ_PX k v (Some t) UNIT_MILLISECONDS ok RNil);
  set_meaning "set";
  on_key2 (λ E k t v, set_result E "setex" OBJ_EX k v (Some t) UNIT_SECONDS ok RNil);
  on_key1 (λ E k v, set_result E "setnx" OBJ_SET_NX k v None UNIT_SECONDS (RInteger 1) (RInteger 0));
  on_key strlen_result;
  on_key2 getrange_result
].

(** The increments of [INCRBY] and [DECRBY] are arguments. *)
Definition incrby_result (E : environ) (k a : string) (S : store) : store * redisReply :=
  match string2ll a with None => (S, not_integer) | Some incr => incr_result E k incr S end.

Definition decrby_result (E : environ) (k a : string) (S : store) : store * redisReply :=
  match string2ll a with
  | None => (S, not_integer)
  | Some decr =>
      if decr =? LLONG_MIN then (S, RError "ERR decrement would overflow")
      else incr_result E k (- decr) S
  end.

Definition inplaceMeanings : list meaning := [
  on_key1 append_result;
  on_key (λ E k, incr_result E k (-1));
  on_key1 decrby_result;
  on_key (λ E k, incr_result E k 1);
  on_key1 incrby_result;
  on_key2 setrange_result
].

(** The operations on several sets. *)
Definition algebra_meaning (outcome : environ → list string → store → store * redisReply → Prop) :
    meaning :=
  λ E _ argv S out, match argv with _ :: ks => outcome E ks S out | _ => False end.

Definition store_meaning (outcome : environ → string → list string → store → store * redisReply → Prop) :
    meaning :=
  λ E _ argv S out, match argv with _ :: dst :: ks => outcome E dst ks S out | _ => False end.

Definition inter_meaning (E : environ) (dst : option string) (card : bool) (limit : Z)
    (ks : list string) (S : store) : store * redisReply → Prop :=
  set_outcome E ks S (inter_outcome dst card limit (common (mem E S <$> ks))).

Definition union_diff_meaning (op : set_op) (E : environ) (dst : option string)
    (ks : list string) (S : store) : store * redisReply → Prop :=
  set_outcome E ks S (delivers dst (operation op (mem E S <$> ks))).

(** An integer argument within bounds, or the error. *)
Definition range_arg (a : string) (min max : Z) (msg : string) : string + Z :=
  match string2ll a with
  | Some v => if (min <=? v) && (v <=? max) then inr v else inl ("ERR " +:+ msg)
  | None => inl ("ERR " +:+ msg)
  end.

Fixpoint limit_arg (limit : Z) (args : list string) : string + Z :=
  match args with
  | [] => inr limit
  | opt :: arg :: args =>
      if strcaseeq opt "limit" then
        match range_arg arg 0 LLONG_MAX "LIMIT can't be negative" with
        | inl e => inl e
        | inr limit => limit_arg limit args
        end
      else inl syntaxerr
  | [_] => inl syntaxerr
  end.

Definition sintercard_meaning : meaning := λ E _ argv S out,
  match argv with
  | _ :: n :: args =>
      match range_arg n 1 LLONG_MAX "numkeys should be greater than 0" with
      | inl e => out = (S, RError e)
      | inr numkeys =>
          if Z.of_nat (length args) <? numkeys
          then out = (S, RError "ERR Number of keys can't be greater than number of args")
          else match limit_arg 0 (drop (Z.to_nat numkeys) args) with
               | inl e => out = (S, RError e)
               | inr limit => inter_meaning E None true limit (take (Z.to_nat numkeys) args) S out
               end
      end
  | _ => False
  end.

Definition smembers_meaning : meaning := λ E _ argv S out,
  match argv with [_; k] => out.1 = touch E S k ∧ members_reply (live E S k) out.2 | _ => False end.

Definition setMeanings : list meaning := [
  on_key_rest sadd_result;
  on_key scard_result;
  algebra_meaning (λ E, union_diff_meaning SET_OP_DIFF E None);
  store_meaning (λ E dst, union_diff_meaning SET_OP_DIFF E (Some dst));
  algebra_meaning (λ E, inter_meaning E None false 0);
  sintercard_meaning;
  store_meaning (λ E dst, inter_meaning E (Some dst) false 0);
  on_key1 sismember_result;
  smembers_meaning;
  on_key2 smove_result;
  on_key_rest srem_result;
  algebra_meaning (λ E, union_diff_meaning SET_OP_UNION E None);
  store_meaning (λ E dst, union_diff_meaning SET_OP_UNION E (Some dst))
].

Definition coreMeanings : list meaning := genericMeanings ++ stringMeanings ++ setMeanings.

(** ** The invariant *)

Definition val_ok (v : aval) : Prop :=
  match v with AStr s => slen s ≤ LLONG_MAX | ASet X => X ≠ ∅ ∧ strings_ok X end.

Definition store_ok (S : store) : Prop := ∀ k v, vals S !! k = Some v → val_ok v.

Definition args_ok (argv : list string) : Prop := Forall str_ok argv.

(** The members of the sets of a store. *)
Definition members (S : store) : gset string :=
  ⋃ ((λ kv, match kv.2 with ASet X => X | AStr _ => ∅ end) <$> map_to_list (vals S)).

Lemma members_has S k X : vals S !! k = Some (ASet X) → X ⊆ members S.
Proof.
  intros Hk x Hx. apply elem_of_union_list. exists X. split; [|done].
  apply list_elem_of_fmap. exists (k, ASet X). by rewrite elem_of_map_to_list.
Qed.

Create HintDb stores.

(** The invariant with the strings that sets may have: those that the sets have
    at the start and the arguments of the requests. *)
Section universe.
Context (U : gset string).

Definition member_ok (x : string) : Prop := str_ok x ∧ x ∈ U.
Definition members_ok (X : gset string) : Prop := set_Forall member_ok X.

Definition val_kept (v : aval) : Prop :=
  match v with AStr s => slen s ≤ LLONG_MAX | ASet X => X ≠ ∅ ∧ members_ok X end.

Definition kept (S : store) : Prop := ∀ k v, vals S !! k = Some v → val_kept v.

Definition args_in (argv : list string) : Prop := Forall member_ok argv.

Lemma member_str x : member_ok x → str_ok x.
Proof. by intros [? _]. Qed.

Lemma args_in_ok argv : args_in argv → Forall str_ok argv.
Proof. intros H. eapply Forall_impl; [exact H|]. apply member_str. Qed.

#[local] Hint Resolve member_str args_in_ok : stores.

Lemma kept_ok S : kept S → store_ok S.
Proof.
  intros HS k v Hk. specialize (HS k v Hk). destruct v as [s|X]; [done|].
  destruct HS as [Hne HX]. split; [done|]. intros x Hx. by apply HX.
Qed.

Lemma ok_kept S : store_ok S → members S ⊆ U → kept S.
Proof.
  intros HS HU k v Hk. pose proof (HS k v Hk) as Hv. destruct v as [s|X]; [done|].
  destruct Hv as [Hne HX]. split; [done|]. intros x Hx. split; [by apply HX|].
  by apply HU, (members_has S k X).
Qed.

Lemma ok_put k v S : kept S → val_kept v → kept (put k v S).
Proof.
  intros HS Hv k' v'. cbn [put vals]. rewrite lookup_insert_Some. intros [[_ <-]|[_ Hk]]; eauto.
Qed.
Lemma ok_persist k S : kept S → kept (persist k S).
Proof. done. Qed.
Lemma ok_set_ttl k t S : kept S → kept (set_ttl k t S).
Proof. done. Qed.
Lemma ok_remove k S : kept S → kept (remove k S).
Proof. intros HS k' v'. cbn [remove vals]. rewrite lookup_delete_Some. intros [_ ?]; eauto. Qed.
Lemma ok_touch E k S : kept S → kept (touch E S k).
Proof. intros HS. unfold touch. destruct (expired E S k); [by apply ok_remove|done]. Qed.

Lemma ok_text s : str_ok s → val_kept (AStr s).
Proof. unfold str_ok, val_kept, slen, LLONG_MAX. lia. Qed.
Lemma ok_str s : member_ok s → val_kept (AStr s).
Proof. intros [Hs _]. by apply ok_text. Qed.
Lemma ok_pretty z : in_llong z → val_kept (AStr (pretty z)).
Proof. intros Hz. by apply ok_text, pretty_str_ok. Qed.

Lemma ok_live E S k v : kept S → live E S k = Some v → val_kept v.
Proof. intros HS Hk. by apply (ok_touch E k S HS k). Qed.

Lemma ok_mem E S k : kept S → members_ok (mem E S k).
Proof.
  intros HS. unfold mem. destruct (live E S k) as [[s|X]|] eqn:Hk; [done| |done].
  by apply (ok_live E S k (ASet X) HS Hk).
Qed.

#[local] Hint Resolve ok_put ok_persist ok_set_ttl ok_remove ok_touch ok_str ok_pretty : stores.

Lemma ok_unless_set E k S r : kept S → kept r.1 → kept (unless_set E k S r).1.
Proof. intros. unfold unless_set. repeat case_match; cbn [fst]; auto with stores. Qed.

Lemma ok_with_set E k S f :
  kept S →
  (∀ X, members_ok X → (X ≠ ∅ → live E S k = Some (ASet X)) → kept (f X).1) →
  kept (with_set E k S f).1.
Proof.
  intros HS Hf. unfold with_set. destruct (live E S k) as [[s|X]|] eqn:Hk; [by apply ok_touch|..].
  - apply Hf; [|done]. by apply (ok_live E S k (ASet X) HS Hk).
  - by apply Hf.
Qed.

Lemma ok_set_result E fullname flags k v expire unit r1 r2 S :
  kept S → member_ok v → kept (set_result E fullname flags k v expire unit r1 r2 S).1.
Proof.
  intros HS Hv. unfold set_result, set_store. repeat case_match; cbn [fst]; auto with stores.
Qed.

Lemma ok_setCommand E fullname k v opts S :
  kept S → member_ok v → kept (setCommand_result E fullname k v opts S).1.
Proof.
  intros. unfold setCommand_result. case_match; [|done]. repeat case_match. by apply ok_set_result.
Qed.

#[local] Hint Resolve ok_unless_set ok_set_result ok_setCommand : stores.
#[local] Hint Extern 2 (kept (_, _).1) => cbn [fst] : stores.

Lemma ok_del_keys E ks S n : kept S → kept (del_keys E ks S n).1.
Proof.
  unfold del_keys. revert S n. induction ks as [|k ks IH]; intros S n HS; [done|].
  apply IH. cbn [fst]. auto with stores.
Qed.
Lemma ok_exists_keys E ks S n : kept S → kept (exists_keys E ks S n).1.
Proof.
  unfold exists_keys. revert S n. induction ks as [|k ks IH]; intros S n HS; [done|].
  apply IH. cbn [fst]. auto with stores.
Qed.
Lemma ok_check_absent E ks S : kept S → kept (check_absent E ks S).1.
Proof.
  revert S. induction ks as [|k ks IH]; intros S HS; cbn [check_absent]; [done|].
  case_match; cbn [fst]; auto with stores.
Qed.
Lemma ok_put_pairs kvs S :
  kept S → Forall (λ kv, member_ok kv.2) kvs → kept (put_pairs kvs S).
Proof.
  unfold put_pairs. intros HS Hkv. revert S HS. induction Hkv as [|kv kvs Hv _ IH]; intros S HS; [done|].
  apply IH. auto with stores.
Qed.
Lemma pairs_ok args kvs : pairs args = Some kvs → args_in args → Forall (λ kv, member_ok kv.2) kvs.
Proof.
  revert args. induction kvs as [|kv kvs IH]; intros args Hp Ha; [done|].
  destruct args as [|k [|v args]]; cbn in Hp; [done..|].
  destruct (pairs args) as [kvs'|] eqn:Hargs; [|done]. simplify_eq/=.
  inversion_clear Ha as [|? ? _ Ha']. inversion_clear Ha'. constructor; [done|by eapply IH].
Qed.
Lemma ok_mset E fullname nx args S :
  kept S → args_in args → kept (mset_result E fullname nx args S).1.
Proof.
  intros HS Ha. unfold mset_result. destruct (pairs args) as [kvs|] eqn:Hp; [|done].
  pose proof (ok_check_absent E kvs.*1 S HS) as Hc. pose proof (pairs_ok args kvs Hp Ha).
  destruct nx; [destruct (check_absent _ _ _) as [S' []]|]; cbn [fst] in *; auto using ok_put_pairs.
Qed.

#[local] Hint Resolve ok_del_keys ok_exists_keys ok_mset : stores.

Definition arity_ok (c : redisCommand) (argv : list string) : Prop :=
  commandCheckArity c (Z.of_nat (length argv)) = true.

Lemma arity_bounds c argv :
  arity_ok c argv →
  (0 < arity c → Z.of_nat (length argv) = arity c) ∧ - arity c ≤ Z.of_nat (length argv).
Proof.
  unfold arity_ok, commandCheckArity. rewrite negb_true_iff, orb_false_iff, andb_false_iff, negb_false_iff.
  rewrite Z.ltb_ge, Z.eqb_eq, Z.ltb_ge. lia.
Qed.

Definition keeps (c : redisCommand) (m : meaning) : Prop :=
  ∀ E ack argv S out, active E → arity_ok c argv → args_in argv → kept S →
    m E ack argv S out → kept out.1.

(** The arguments of a meaning, and its result. *)
Ltac open_meaning :=
  let Hargs := fresh "Hargs" in let Hm := fresh "Hm" in
  intros E ack argv S out HE _ Hargs HS Hm;
  unfold on_key, on_key1, on_key2, on_rest, on_key_rest, keys_meaning, wait_meaning, set_meaning,
    smembers_meaning, args_in in *;
  repeat match type of Hm with
  | match ?l with _ => _ end => is_var l; destruct l; [try done|try done]
  end; try done;
  repeat match goal with H : Forall _ (_ :: _) |- _ => apply Forall_cons in H as [? H] end;
  try subst out.

Lemma keeps_on_key c f :
  (∀ E k S, active E → kept S → member_ok k → kept (f E k S).1) → keeps c (on_key f).
Proof. intros Hf. open_meaning. auto. Qed.
Lemma keeps_on_key1 c f :
  (∀ E k a S, active E → kept S → member_ok k → member_ok a → kept (f E k a S).1) →
  keeps c (on_key1 f).
Proof. intros Hf. open_meaning. auto. Qed.
Lemma keeps_on_key2 c f :
  (∀ E k a b S, active E → kept S → member_ok a → member_ok b → kept (f E k a b S).1) →
  keeps c (on_key2 f).
Proof. intros Hf. open_meaning. auto. Qed.
Lemma keeps_on_rest c f :
  (∀ E args S, active E → kept S → args_in args → kept (f E args S).1) →
  keeps c (on_rest f).
Proof. intros Hf. open_meaning. auto. Qed.
Lemma keeps_on_key_rest c f :
  (∀ E k args S, active E → kept S → args_in args → kept (f E k args S).1) →
  keeps c (on_key_rest f).
Proof. intros Hf. open_meaning. auto. Qed.

Lemma ok_getex E fullname k opts S : kept S → kept (getex_result E fullname k opts S).1.
Proof.
  intros. unfold getex_result, getex_store. repeat case_match; cbn [fst]; auto with stores.
Qed.

Ltac keeps_simply :=
  first [apply keeps_on_key|apply keeps_on_key1|apply keeps_on_key2
        |apply keeps_on_rest|apply keeps_on_key_rest];
  intros; unfold del_result, exists_result, get_result, getdel_result, getset_result,
    strlen_result, getrange_result;
  repeat case_match; cbn [fst]; auto 6 using ok_getex with stores; done.

Lemma generic_keeps : Forall2 keeps genericCommands genericMeanings.
Proof.
  repeat apply Forall2_cons_2; [..|by apply Forall2_nil_2]; try keeps_simply.
  - open_meaning. by destruct Hm as [-> _].
  - open_meaning. done.
Qed.

Lemma string_keeps : Forall2 keeps stringCommands stringMeanings.
Proof.
  repeat apply Forall2_cons_2; [..|by apply Forall2_nil_2]; try keeps_simply.
  open_meaning. auto with stores.
Qed.

Lemma substring_length n m s :
  String.length (String.substring n m s) = Nat.min m (String.length s - n).
Proof.
  revert n m. induction s as [|c s IH]; intros n m; destruct n, m; cbn; try done.
  by rewrite IH, Nat.sub_0_r.
Qed.

(** [SETRANGE] extends a string as far as the range goes. *)
Lemma write_range_length s off v :
  String.length (write_range s off v) = Nat.max (String.length s) (off + String.length v).
Proof.
  unfold write_range, sdsgrowzero. rewrite !string_length_app, !substring_length, !string_length_app.
  rewrite zeros_length. lia.
Qed.

Lemma ok_incr E k incr S : kept S → kept (incr_result E k incr S).1.
Proof.
  intros HS. unfold incr_result. apply ok_unless_set; [done|].
  destruct (match live E S k with Some (AStr s) => string2ll s | _ => Some 0 end) as [v|];
    [|cbn [fst]; auto with stores].
  destruct (in_llong_b (v + incr)) eqn:Hb; cbn [fst]; [|auto with stores].
  apply ok_put; [auto with stores|]. apply ok_pretty. unfold in_llong_b in Hb. reflect_bools. done.
Qed.

Lemma ok_append E k v S :
  active E → kept S → member_ok v → kept (append_result E k v S).1.
Proof.
  intros (_ & _ & Hmax) HS Hv. unfold append_result. apply ok_unless_set; [done|].
  destruct (live E S k) as [[s|X]|] eqn:Hk; cbn [fst]; [|auto with stores..].
  destruct (Z.ltb_spec (proto_max_bulk_len E) (slen s + slen v)); cbn [fst]; [auto with stores|].
  apply ok_put; [auto with stores|]. cbn [val_kept]. rewrite slen_app. lia.
Qed.

Lemma ok_setrange E k arg v S :
  active E → kept S → member_ok v → kept (setrange_result E k arg v S).1.
Proof.
  intros (_ & _ & Hmax) HS Hv. unfold setrange_result. destruct (string2ll arg) as [off|]; [|done].
  destruct (Z.ltb_spec off 0); [done|]. apply ok_unless_set; [done|].
  destruct (slen v =? 0); [cbn [fst]; auto with stores|].
  destruct (Z.ltb_spec (proto_max_bulk_len E) (off + slen v)); [cbn [fst]; auto with stores|].
  cbn [fst]. apply ok_put; [auto with stores|]. cbn [val_kept]. unfold slen. rewrite write_range_length.
  assert (slen (match live E S k with Some (AStr s) => s | _ => "" end) ≤ LLONG_MAX) as Hold.
  { destruct (live E S k) as [[s|X]|] eqn:Hk; [|unfold slen, LLONG_MAX; cbn; lia..].
    by apply (ok_live E S k (AStr s) HS Hk). }
  unfold slen in *. lia.
Qed.

Lemma inplace_keeps : Forall2 keeps inplaceCommands inplaceMeanings.
Proof.
  repeat apply Forall2_cons_2; [..|by apply Forall2_nil_2];
    (first [apply keeps_on_key|apply keeps_on_key1|apply keeps_on_key2]);
    intros; unfold incrby_result, decrby_result; repeat case_match; cbn [fst];
    auto using ok_incr, ok_append, ok_setrange with stores.
Qed.

(** *** Sets *)

Lemma strings_common Xs : Forall members_ok Xs → members_ok (common Xs).
Proof.
  intros H. destruct Xs as [|X Xs]; [done|]. intros x Hx.
  apply elem_of_common in Hx; [|done]. apply Forall_cons in H as [H _], Hx as [Hx _]. by apply H.
Qed.

Lemma strings_operation op Xs : Forall members_ok Xs → members_ok (operation op Xs).
Proof.
  intros H. destruct op; cbn [operation].
  - intros x (X & HX & Hx)%elem_of_union_list. rewrite Forall_forall in H. by apply (H X).
  - destruct Xs as [|X Xs]; [done|]. apply Forall_cons in H as [H _]. intros x Hx. apply H.
    cbn [difference_of] in Hx. set_solver.
Qed.

Lemma ok_gather E ks S : kept S → kept (gather E ks S).1.
Proof.
  revert S. induction ks as [|k ks IH]; intros S HS; cbn [gather]; [done|].
  repeat case_match; cbn [fst]; auto with stores.
Qed.

Lemma ok_stored dst Z S : kept S → members_ok Z → kept (stored dst Z S).1.
Proof.
  intros HS HZ. unfold stored. case_decide; cbn [fst]; [auto with stores|].
  apply ok_put; [auto with stores|done].
Qed.

Lemma ok_delivers dst Z S out : kept S → members_ok Z → delivers dst Z S out → kept out.1.
Proof. intros. destruct dst; cbn [delivers] in *; [subst; by apply ok_stored|by destruct_and!; subst]. Qed.

Lemma ok_outcome E ks S (P : store → store * redisReply → Prop) out :
  kept S → (∀ S', kept S' → P S' out → kept out.1) →
  set_outcome E ks S P out → kept out.1.
Proof.
  intros HS HP. unfold set_outcome. pose proof (ok_gather E ks S HS) as Hg.
  destruct (gather E ks S) as [S' []]; cbn [fst] in Hg; [by apply HP|by intros ->].
Qed.

Lemma ok_inter E dst card limit ks S out :
  kept S → inter_meaning E dst card limit ks S out → kept out.1.
Proof.
  intros HS. apply ok_outcome; [done|]. intros S' HS'. unfold inter_outcome.
  destruct card; [by intros ->|]. apply ok_delivers; [done|].
  apply strings_common, Forall_fmap, Forall_true. intros k. by apply ok_mem.
Qed.

Lemma ok_union_diff op E dst ks S out :
  kept S → union_diff_meaning op E dst ks S out → kept out.1.
Proof.
  intros HS. apply ok_outcome; [done|]. intros S' HS'. apply ok_delivers; [done|].
  apply strings_operation, Forall_fmap, Forall_true. intros k. by apply ok_mem.
Qed.

Lemma ok_sadd E k ms S :
  kept S → args_in ms → ms ≠ [] → kept (sadd_result E k ms S).1.
Proof.
  intros HS Hms Hne. apply ok_with_set; [done|]. intros X HX _. cbn [fst].
  apply ok_put; [auto with stores|]. split.
  - destruct ms as [|m ms]; [done|]. clear. cbn [list_to_set]. set_solver.
  - intros x [Hx|Hx]%elem_of_union; [|by apply HX]. apply elem_of_list_to_set in Hx.
    unfold args_in in Hms. rewrite Forall_forall in Hms. by apply Hms.
Qed.

Lemma strings_subset X Y : X ⊆ Y → members_ok Y → members_ok X.
Proof. intros HXY HY x Hx. apply HY. by apply HXY. Qed.

Lemma ok_srem E k ms S : kept S → kept (srem_result E k ms S).1.
Proof.
  intros HS. apply ok_with_set; [done|]. intros X HX _. cbn [fst].
  repeat case_decide; auto with stores. apply ok_put; [auto with stores|]. split; [done|].
  eapply strings_subset; [|exact HX]. set_solver.
Qed.

Lemma ok_smove E src dst v S : kept S → member_ok v → kept (smove_result E src dst v S).1.
Proof.
  intros HS Hv. unfold smove_result. pose proof (ok_mem E S dst HS) as HY. unfold mem in HY.
  destruct (live E S src) as [[s|X]|] eqn:Hsrc; [cbn [fst]; auto with stores| |cbn [fst]; auto with stores].
  pose proof (ok_live E S src (ASet X) HS Hsrc) as [_ HX].
  destruct (live E S dst) as [[t|Y]|]; [cbn [fst]; auto with stores|..];
    (destruct (decide (src = dst)); [cbn [fst]; auto with stores|]);
    (destruct (decide (v ∈ X)); cbn [fst]; [|auto with stores]);
    (apply ok_put; [unfold removed_store; repeat case_decide; auto with stores
       |split; [set_solver|intros x [->%elem_of_singleton|Hx]%elem_of_union; [done|by apply HY]]]).
  all: apply ok_put; [auto with stores|split; [done|]]; eapply strings_subset; [|exact HX]; set_solver.
Qed.

Lemma set_keeps : Forall2 keeps setCommands setMeanings.
Proof.
  repeat apply Forall2_cons_2; [..|by apply Forall2_nil_2];
    try (first [apply keeps_on_key|apply keeps_on_key1|apply keeps_on_key2|apply keeps_on_key_rest];
         intros; unfold scard_result, sismember_result;
         auto using ok_srem, ok_smove, ok_with_set with stores; fail);
    try (intros E ack [|? argv] S out _ _ _ HS Hm; [done|]; by eapply ok_union_diff; [|exact Hm]);
    try (intros E ack [|? argv] S out _ _ _ HS Hm; [done|]; by eapply ok_inter; [|exact Hm]);
    try (intros E ack [|? [|? argv]] S out _ _ _ HS Hm; [done..|]; by eapply ok_union_diff; [|exact Hm]);
    try (intros E ack [|? [|? argv]] S out _ _ _ HS Hm; [done..|]; by eapply ok_inter; [|exact Hm]).
  - intros E ack [|? [|k ms]] S out _ Ha Hargs HS Hm; [done..|]. cbn in Hm. subst out.
    apply arity_bounds in Ha as [_ Ha]. cbn in Ha. unfold args_in in Hargs.
    do 2 apply Forall_cons in Hargs as [? Hargs]. apply ok_sadd; [done|done|].
    intros ->. cbn in Ha. lia.
  - intros E ack [|? [|n args]] S out _ _ _ HS Hm; [done..|]. cbn in Hm.
    destruct (range_arg _ _ _ _); [by subst|]. case_match; [by subst|].
    destruct (limit_arg _ _); [by subst|]. by eapply ok_inter.
  - intros E ack [|? [|k [|]]] S out _ _ _ HS Hm; [done..| |done]. destruct Hm as [-> _]. auto with stores.
Qed.

Lemma core_keeps : Forall2 keeps coreCommands coreMeanings.
Proof. repeat apply Forall2_app; [apply generic_keeps|apply string_keeps|apply set_keeps]. Qed.

(** ** The handlers implement the meanings *)

(** With exact sizes, the handler leaves the histogram as right as it was. *)
Definition implements (exact : bool) (c : redisCommand) (m : meaning) : Prop :=
  ∀ E ack argv δ S rs σ,
    active E → iterates E → limits_ok (set_limits E) → arity_ok c argv → args_in argv → kept S → holds δ S rs σ →
    runs (proc c E ack argv) σ (λ _ σ', ∃ δ' out,
      m E ack argv S out ∧ gives δ' rs out σ' ∧ (exact = true → δ' = δ)).

Section shapes.
Context (name : string) (h : environ → list string → cmd ()) (w : bool).

Lemma implements_key f :
  (∀ E δ S rs σ n k, active E → kept S → holds δ S rs σ → member_ok k →
     runs (h E [n; k]) σ (λ _, gives δ rs (f E k S))) →
  implements true (mkCommand name (local h) 2 w) (on_key f).
Proof.
  intros Hf E ack argv δ S rs σ HE Ho Hlim Ha Hargs HS H. apply arity_bounds in Ha as [Ha _]. cbn in Ha.
  destruct argv as [|n [|k [|]]]; cbn in Ha; try lia.
  inversion_clear Hargs as [|? ? _ Hk]. inversion_clear Hk.
  finish by (by apply Hf). intros _ σ' H'. by exists δ, (f E k S).
Qed.

Lemma implements_key1 f :
  (∀ E δ S rs σ n k a, active E → iterates E → limits_ok (set_limits E) → kept S → holds δ S rs σ → member_ok a →
     runs (h E [n; k; a]) σ (λ _, gives δ rs (f E k a S))) →
  implements true (mkCommand name (local h) 3 w) (on_key1 f).
Proof.
  intros Hf E ack argv δ S rs σ HE Ho Hlim Ha Hargs HS H. apply arity_bounds in Ha as [Ha _]. cbn in Ha.
  destruct argv as [|n [|k [|a [|]]]]; cbn in Ha; try lia.
  inversion_clear Hargs as [|? ? _ Hk]. inversion_clear Hk as [|? ? _ Hb]. inversion_clear Hb.
  finish by (by apply Hf). intros _ σ' H'. by exists δ, (f E k a S).
Qed.

Lemma implements_key2 f :
  (∀ E δ S rs σ n k a b, active E → iterates E → limits_ok (set_limits E) → kept S → holds δ S rs σ → member_ok b →
     runs (h E [n; k; a; b]) σ (λ _, gives δ rs (f E k a b S))) →
  implements true (mkCommand name (local h) 4 w) (on_key2 f).
Proof.
  intros Hf E ack argv δ S rs σ HE Ho Hlim Ha Hargs HS H. apply arity_bounds in Ha as [Ha _]. cbn in Ha.
  destruct argv as [|n [|k [|a [|b [|]]]]]; cbn in Ha; try lia.
  inversion_clear Hargs as [|? ? _ Hk]. inversion_clear Hk as [|? ? _ Hb]. inversion_clear Hb as [|? ? _ Hc].
  inversion_clear Hc. finish by (by apply Hf). intros _ σ' H'. by exists δ, (f E k a b S).
Qed.

Lemma implements_rest f n :
  (∀ E δ S rs σ m args, active E → holds δ S rs σ →
     runs (h E (m :: args)) σ (λ _, gives δ rs (f E args S))) →
  0 < n → implements true (mkCommand name (local h) (- n) w) (on_rest f).
Proof.
  intros Hf Hn E ack argv δ S rs σ HE Ho Hlim Ha Hargs HS H. apply arity_bounds in Ha as [_ Ha]. cbn in Ha.
  destruct argv as [|m args]; cbn in Ha; try lia.
  finish by (by apply Hf). intros _ σ' H'. by exists δ, (f E args S).
Qed.

Lemma implements_key_rest f n :
  (∀ E δ S rs σ m k args, active E → iterates E → limits_ok (set_limits E) → holds δ S rs σ → args_in args →
     (2 < n → args ≠ []) →
     runs (h E (m :: k :: args)) σ (λ _, gives δ rs (f E k args S))) →
  1 < n → implements true (mkCommand name (local h) (- n) w) (on_key_rest f).
Proof.
  intros Hf Hn E ack argv δ S rs σ HE Ho Hlim Ha Hargs HS H. apply arity_bounds in Ha as [_ Ha]. cbn in Ha.
  destruct argv as [|m [|k args]]; cbn in Ha; try lia.
  unfold args_in in Hargs. do 2 apply Forall_cons in Hargs as [_ Hargs].
  finish by (apply Hf; try done; intros ? ->; cbn in Ha; lia).
  intros _ σ' H'. by exists δ, (f E k args S).
Qed.
End shapes.

(** An integer argument, with the error message for one that is not. *)
Lemma runs_addReplyError δ S rs σ err :
  holds δ S rs σ → is_prefix "-" err = false →
  runs (addReplyError err) σ (λ _, holds δ S (rs ++ [RError ("ERR " +:+ err)])).
Proof.
  intros H Herr. finish by (by apply (runs_addReply _ _ _ _ H)). intros _ σ'.
  destruct err as [|[[] [] [] [] [] [] [] []] rest]; done.
Qed.

Lemma runs_message_arg δ S rs σ a msg :
  holds δ S rs σ → is_prefix "-" msg = false →
  runs (getLongLongFromObjectOrReply a (Some msg)) σ (λ r σ', r = string2ll a ∧
    match r with
    | Some _ => holds δ S rs σ'
    | None => holds δ S (rs ++ [RError ("ERR " +:+ msg)]) σ'
    end).
Proof.
  intros H Hmsg. unfold getLongLongFromObjectOrReply. destruct (string2ll a); [by apply runs_ret|].
  step by (by apply (runs_addReplyError _ _ _ _ _ H)). intros _ σ1 H1. by apply runs_ret.
Qed.

Lemma runs_waitCommand E ack δ S rs σ name n t :
  masterhost E = false → holds δ S rs σ →
  runs (waitCommand E ack [name; n; t]) σ (λ _, gives δ rs (S, wait_reply E ack n t)).
Proof.
  intros Hm H. unfold waitCommand, wait_reply. rewrite Hm.
  eapply runs_bind, runs_lift; [done|]. step by (by apply (runs_long_arg _ _ _ _ n H)).
  intros r σ1 [-> H1]. destruct (string2ll n) as [a|]; [|by apply runs_ret].
  eapply runs_bind, runs_lift; [done|]. apply runs_bind.
  step by (by apply (runs_message_arg _ _ _ _ t _ H1)). intros r σ2 [-> H2].
  destruct (string2ll t) as [tval|]; [|by apply runs_ret]. clear H1. rename σ2 into σ1', H2 into H1.
  cbv zeta. destruct (tval <? 0).
  { step by (by apply (runs_addReply _ _ _ _ H1)). intros _ σ2 H2. by apply runs_ret. }
  destruct (0 <? tval); cbn [andb].
  - destruct (_ <? tval).
    + step by (by apply (runs_addReply _ _ _ _ H1)). intros _ σ2 H2. by apply runs_ret.
    + apply runs_ret. by apply (runs_addReply _ _ _ _ H1).
  - apply runs_ret. by apply (runs_addReply _ _ _ _ H1).
Qed.

Lemma implements_wait :
  implements true (mkCommand "wait" waitCommand 3 false) wait_meaning.
Proof.
  intros E ack argv δ S rs σ HE Ho Hlim Ha Hargs HS H. apply arity_bounds in Ha as [Ha _]. cbn in Ha.
  destruct argv as [|name [|n [|t [|]]]]; cbn in Ha; try lia.
  finish by (by apply runs_waitCommand; [apply HE|]). intros _ σ' H'.
  by exists δ, (S, wait_reply E ack n t).
Qed.

Lemma implements_keys :
  implements true (mkCommand "keys" (local keysCommand) 2 false) keys_meaning.
Proof.
  intros E ack argv δ S rs σ HE Ho Hlim Ha Hargs HS H. apply arity_bounds in Ha as [Ha _]. cbn in Ha.
  destruct argv as [|name [|p [|]]]; cbn in Ha; try lia.
  finish by (by apply runs_keysCommand). intros _ σ' (l & Hl & H').
  exists δ, (S, RArray l). split; [|done]. split; [done|]. by exists l.
Qed.

Lemma implements_set :
  implements true (mkCommand "set" (local (λ E, setCommand E "set")) (-3) true) (set_meaning "set").
Proof.
  intros E ack argv δ S rs σ HE Ho Hlim Ha Hargs HS H. apply arity_bounds in Ha as [_ Ha]. cbn in Ha.
  destruct argv as [|name [|k [|v opts]]]; cbn in Ha; try lia.
  finish by (by apply runs_setCommand). intros _ σ' H'.
  by exists δ, (setCommand_result E "set" k v opts S).
Qed.

Lemma generic_implements : Forall2 (implements true) genericCommands genericMeanings.
Proof.
  repeat apply Forall2_cons_2; [..|by apply Forall2_nil_2].
  - apply (implements_rest _ _ _ _ 2); [|lia]. intros. by apply runs_delGenericCommand.
  - apply (implements_rest _ _ _ _ 2); [|lia]. intros. by apply runs_existsCommand.
  - apply implements_keys.
  - apply (implements_rest _ _ _ _ 2); [|lia]. intros. by apply runs_delGenericCommand.
  - apply implements_wait.
Qed.

Lemma string_implements : Forall2 (implements true) stringCommands stringMeanings.
Proof.
  repeat apply Forall2_cons_2; [..|by apply Forall2_nil_2].
  - apply implements_key. intros. by apply runs_getCommand.
  - apply implements_key. intros. by apply runs_getdelCommand.
  - apply (implements_key_rest _ _ _ _ 2); [|lia]. intros. by apply runs_getexCommand.
  - apply implements_key2. intros. by apply runs_getrangeCommand.
  - apply implements_key1. intros. by apply runs_getsetCommand.
  - apply (implements_rest _ _ _ _ 3); [|lia]. intros. by apply runs_msetGenericCommand.
  - apply (implements_rest _ _ _ _ 3); [|lia]. intros. by apply runs_msetGenericCommand.
  - apply implements_key2. intros. by apply runs_psetexCommand.
  - apply implements_set.
  - apply implements_key2. intros. by apply runs_setexCommand.
  - apply implements_key1. intros. by apply runs_setnxCommand.
  - apply implements_key. intros. by apply runs_strlenCommand.
  - apply implements_key2. intros. by apply runs_getrangeCommand.
Qed.

(** *** Sets *)

Lemma mem_all E ks S : kept S → Forall strings_ok (mem E S <$> ks).
Proof.
  intros HS. apply Forall_fmap, Forall_true. intros k x Hx. by apply (ok_mem E S k HS).
Qed.

Lemma mem_few E ks S : few U → kept S → few (⋃ (mem E S <$> ks)).
Proof.
  intros Hfew HS. eapply few_subseteq; [|exact Hfew].
  intros x (X & (k & -> & _)%list_elem_of_fmap & Hx)%elem_of_union_list.
  by apply (ok_mem E S k HS).
Qed.

Lemma runs_range_arg δ S rs σ a min max msg :
  holds δ S rs σ → is_prefix "-" msg = false → LLONG_MIN ≤ min → max ≤ LLONG_MAX →
  runs (getRangeLongFromObjectOrReply a min max msg) σ (λ r σ',
    match range_arg a min max msg with
    | inl e => r = None ∧ holds δ S (rs ++ [RError e]) σ'
    | inr v => r = Some v ∧ min ≤ v ≤ max ∧ holds δ S rs σ'
    end).
Proof.
  intros H Hmsg Hmin Hmax. unfold getRangeLongFromObjectOrReply, getLongFromObjectOrReply, range_arg.
  apply runs_bind. step by (by apply (runs_message_arg _ _ _ _ a _ H)). intros r σ1 [-> H1].
  destruct (string2ll a) as [v|] eqn:Ha; [|by apply runs_ret, runs_ret].
  apply string2ll_spec in Ha as [Hv _]. unfold in_llong in Hv.
  destruct (Z.ltb_spec v LLONG_MIN), (Z.ltb_spec LLONG_MAX v); try lia. cbn [orb]. apply runs_ret.
  destruct (Z.ltb_spec v min), (Z.ltb_spec max v), (Z.leb_spec min v), (Z.leb_spec v max);
    try lia; cbn [orb andb]; try (by apply runs_ret);
    step by (by apply (runs_addReplyError _ _ _ _ _ H1)); intros _ σ2 Hσ2; by apply runs_ret.
Qed.

Lemma runs_limit_option args δ S rs σ limit :
  holds δ S rs σ → 0 ≤ limit →
  runs (limit_option limit args) σ (λ r σ',
    match limit_arg limit args with
    | inl e => r = None ∧ holds δ S (rs ++ [RError e]) σ'
    | inr v => r = Some v ∧ 0 ≤ v ∧ holds δ S rs σ'
    end).
Proof.
  revert σ limit. induction args as [args IH] using (induction_ltof1 _ (@length string)).
  unfold ltof in IH. intros σ limit H Hlim. destruct args as [|opt [|arg args]]; cbn [limit_option limit_arg].
  - by apply runs_ret.
  - step by (by apply (runs_addReply _ _ _ _ H)). intros _ σ1 H1. by apply runs_ret.
  - destruct (strcaseeq opt "limit").
    + step by (by apply (runs_range_arg _ _ _ _ arg 0 LLONG_MAX _ H)).
      intros r σ1 Hr. destruct (range_arg _ _ _ _) as [e|v].
      * destruct Hr as [-> H1]. by apply runs_ret.
      * destruct Hr as (-> & Hv & H1). apply IH; [cbn; lia|done|lia].
    + step by (by apply (runs_addReply _ _ _ _ H)). intros _ σ1 H1. by apply runs_ret.
Qed.

Lemma implements_sintercard :
  implements true (mkCommand "sintercard" (local sinterCardCommand) (-3) false) sintercard_meaning.
Proof.
  intros E ack argv δ S rs σ HE Ho Hlim Ha Hargs HS H. apply arity_bounds in Ha as [_ Ha]. cbn in Ha.
  destruct argv as [|name [|n args]]; cbn in Ha; try lia. unfold sintercard_meaning.
  eapply runs_bind, runs_lift; [done|].
  step by (by apply (runs_range_arg _ _ _ _ n 1 LLONG_MAX _ H)).
  intros r σ1 Hr. destruct (range_arg _ _ _ _) as [e|v].
  { destruct Hr as [-> H1]. apply runs_ret. by exists δ, (S, RError e). }
  destruct Hr as (-> & Hv & H1). cbn [length].
  replace (Z.of_nat (Datatypes.S (Datatypes.S (length args))) - 2)
    with (Z.of_nat (length args)) by lia.
  destruct (Z.ltb_spec (Z.of_nat (length args)) v).
  { finish by (by apply (runs_addReplyError _ _ _ _ _ H1)). intros _ σ2 H2. by eexists δ, (S, _). }
  step by (by apply (runs_limit_option _ _ _ _ _ 0 H1)).
  change (drop (2 + Z.to_nat v) (name :: n :: args)) with (drop (Z.to_nat v) args).
  intros r σ2 Hr. destruct (limit_arg _ _) as [e|limit].
  { destruct Hr as [-> H2]. apply runs_ret. by exists δ, (S, RError e). }
  destruct Hr as (-> & Hlimit & H2). change (drop 2 (name :: n :: args)) with args.
  finish by (apply (runs_sinterGenericCommand E HE Ho Hlim δ S rs σ2 _ None true limit); try done;
    [|by apply mem_all]).
  2:{ intros _ σ3 (out & Hout & H3). by exists δ, out. }
  intros Hnil. assert (length (take (Z.to_nat v) args) = 0%nat) as Hl by (by rewrite Hnil).
    rewrite length_take in Hl. lia.
Qed.

(** The two shapes of the operations on several sets. *)
Lemma implements_algebra name h P :
  (∀ E δ S rs σ n ks, active E → iterates E → limits_ok (set_limits E) → kept S → holds δ S rs σ → ks ≠ [] →
     runs (h E (n :: ks)) σ (λ _ σ', ∃ out, P E ks S out ∧ gives δ rs out σ')) →
  implements true (mkCommand name (local h) (-2) false) (algebra_meaning P).
Proof.
  intros Hh E ack argv δ S rs σ HE Ho Hlim Ha Hargs HS H. apply arity_bounds in Ha as [_ Ha]. cbn in Ha.
  destruct argv as [|n ks]; cbn in Ha; try lia.
  finish by (apply (Hh E δ S rs σ n ks); try done; intros ->; cbn in Ha; lia).
  intros _ σ' (out & Hout & H'). by exists δ, out.
Qed.

Lemma implements_store name h P :
  (∀ E δ S rs σ n dst ks, active E → iterates E → limits_ok (set_limits E) → kept S → holds δ S rs σ → ks ≠ [] →
     runs (h E (n :: dst :: ks)) σ (λ _ σ', ∃ out, P E dst ks S out ∧ gives δ rs out σ')) →
  implements true (mkCommand name (local h) (-3) true) (store_meaning P).
Proof.
  intros Hh E ack argv δ S rs σ HE Ho Hlim Ha Hargs HS H. apply arity_bounds in Ha as [_ Ha]. cbn in Ha.
  destruct argv as [|n [|dst ks]]; cbn in Ha; try lia.
  finish by (apply (Hh E δ S rs σ n dst ks); try done; intros ->; cbn in Ha; lia).
  intros _ σ' (out & Hout & H'). by exists δ, out.
Qed.

Lemma implements_smembers :
  implements true (mkCommand "smembers" (local smembersCommand) 2 false) smembers_meaning.
Proof.
  intros E ack argv δ S rs σ HE Ho Hlim Ha Hargs HS H. apply arity_bounds in Ha as [Ha _]. cbn in Ha.
  destruct argv as [|n [|k [|]]]; cbn in Ha; try lia.
  finish by (by apply runs_smembersCommand). intros _ σ' (r & Hr & H').
  by exists δ, (touch E S k, r).
Qed.

Context (Hfew : few U).

Lemma set_implements : Forall2 (implements true) setCommands setMeanings.
Proof.
  repeat apply Forall2_cons_2; [..|by apply Forall2_nil_2].
  - apply (implements_key_rest _ _ _ _ 3); [|lia]. intros.
    apply runs_saddCommand; auto with lia stores.
  - apply implements_key. intros. by apply runs_scardCommand.
  - apply implements_algebra. intros E δ S rs σ n ks HE Ho Hlim HS H Hne.
    unfold sdiffCommand. change (drop 1 (n :: ks)) with ks. by apply runs_sunionDiffGenericCommand; [..|apply mem_all|apply mem_few|].
  - apply implements_store. intros E δ S rs σ n dst ks HE Ho Hlim HS H Hne.
    eapply runs_bind, runs_lift; [done|]. change (drop 2 (n :: dst :: ks)) with ks.
    by apply runs_sunionDiffGenericCommand; [..|apply mem_all|apply mem_few|].
  - apply implements_algebra. intros E δ S rs σ n ks HE Ho Hlim HS H Hne.
    unfold sinterCommand. change (drop 1 (n :: ks)) with ks. by apply runs_sinterGenericCommand; [..|apply mem_all|].
  - apply implements_sintercard.
  - apply implements_store. intros E δ S rs σ n dst ks HE Ho Hlim HS H Hne.
    eapply runs_bind, runs_lift; [done|]. change (drop 2 (n :: dst :: ks)) with ks.
    by apply runs_sinterGenericCommand; [..|apply mem_all|].
  - apply implements_key1. intros.
    apply runs_sismemberCommand; auto with stores.
  - apply implements_smembers.
  - apply implements_key2. intros.
    apply runs_smoveCommand; auto with stores.
  - apply (implements_key_rest _ _ _ _ 3); [|lia]. intros.
    apply runs_sremCommand; auto with stores.
  - apply implements_algebra. intros E δ S rs σ n ks HE Ho Hlim HS H Hne.
    unfold sunionCommand. change (drop 1 (n :: ks)) with ks. by apply runs_sunionDiffGenericCommand; [..|apply mem_all|apply mem_few|].
  - apply implements_store. intros E δ S rs σ n dst ks HE Ho Hlim HS H Hne.
    eapply runs_bind, runs_lift; [done|]. change (drop 2 (n :: dst :: ks)) with ks.
    by apply runs_sunionDiffGenericCommand; [..|apply mem_all|apply mem_few|].
Qed.

Lemma core_implements : Forall2 (implements true) coreCommands coreMeanings.
Proof. repeat apply Forall2_app; [apply generic_implements|apply string_implements|apply set_implements]. Qed.

(** *** Strings in place *)

Lemma implements_incr name h incr :
  (∀ E argv, h E argv = incrDecrCommand E argv incr) → in_llong incr →
  implements false (mkCommand name (local h) 2 true) (on_key (λ E k, incr_result E k incr)).
Proof.
  intros Hh Hi E ack argv δ S rs σ HE Ho Hlim Ha Hargs HS H. apply arity_bounds in Ha as [Ha _]. cbn in Ha.
  destruct argv as [|n [|k [|]]]; cbn in Ha; try lia. cbn [proc local]. unfold local. rewrite Hh.
  finish by (by apply (runs_incrDecrCommand E HE _ _ _ _ n k [] incr H)).
  intros _ σ' (δ' & H' & _). by exists δ', (incr_result E k incr S).
Qed.

Lemma implements_incrby :
  implements false (mkCommand "incrby" (local incrbyCommand) 3 true) (on_key1 incrby_result).
Proof.
  intros E ack argv δ S rs σ HE Ho Hlim Ha Hargs HS H. apply arity_bounds in Ha as [Ha _]. cbn in Ha.
  destruct argv as [|n [|k [|a [|]]]]; cbn in Ha; try lia. cbn [on_key1]. unfold incrby_result.
  eapply runs_bind, runs_lift; [done|]. step by (by apply (runs_number_arg _ _ _ _ H a)).
  intros r σ1 [-> H1]. destruct (string2ll a) as [incr|] eqn:Hincr.
  - apply string2ll_spec in Hincr as [Hincr _].
    finish by (by apply (runs_incrDecrCommand E HE _ _ _ _ n k [a] incr H1)).
    intros _ σ' (δ' & H' & _). by exists δ', (incr_result E k incr S).
  - apply runs_ret. by exists δ, (S, not_integer).
Qed.

Lemma implements_decrby :
  implements false (mkCommand "decrby" (local decrbyCommand) 3 true) (on_key1 decrby_result).
Proof.
  intros E ack argv δ S rs σ HE Ho Hlim Ha Hargs HS H. apply arity_bounds in Ha as [Ha _]. cbn in Ha.
  destruct argv as [|n [|k [|a [|]]]]; cbn in Ha; try lia. cbn [on_key1]. unfold decrby_result.
  eapply runs_bind, runs_lift; [done|]. step by (by apply (runs_number_arg _ _ _ _ H a)).
  intros r σ1 [-> H1]. destruct (string2ll a) as [decr|] eqn:Hdecr; [|apply runs_ret; by exists δ, (S, not_integer)].
  apply string2ll_spec in Hdecr as [Hdecr _]. destruct (Z.eqb_spec decr LLONG_MIN) as [_|Hmin].
  - finish by (by apply (runs_addReplyError _ _ _ _ _ H1)). intros _ σ2 H2. by eexists δ, (S, _).
  - finish by (apply (runs_incrDecrCommand E HE _ _ _ _ n k [a] (- decr) H1);
      unfold in_llong, LLONG_MIN, LLONG_MAX in *; lia).
    intros _ σ' (δ' & H' & _). by exists δ', (incr_result E k (- decr) S).
Qed.

Lemma implements_append :
  implements false (mkCommand "append" (local appendCommand) 3 true) (on_key1 append_result).
Proof.
  intros E ack argv δ S rs σ HE Ho Hlim Ha Hargs HS H. apply arity_bounds in Ha as [Ha _]. cbn in Ha.
  destruct argv as [|n [|k [|v [|]]]]; cbn in Ha; try lia.
  inversion_clear Hargs as [|? ? _ Hk]. inversion_clear Hk as [|? ? _ Hv]. inversion_clear Hv as [|? ? Hv' _].
  apply ok_str in Hv'. finish by (apply (runs_appendCommand E HE _ _ _ _ n k v H); [|done]).
  - intros s Hs. by apply (ok_live E S k (AStr s) HS Hs).
  - intros _ σ' H'. by eexists _, (append_result E k v S).
Qed.

Lemma implements_setrange :
  implements false (mkCommand "setrange" (local setrangeCommand) 4 true) (on_key2 setrange_result).
Proof.
  intros E ack argv δ S rs σ HE Ho Hlim Ha Hargs HS H. apply arity_bounds in Ha as [Ha _]. cbn in Ha.
  destruct argv as [|n [|k [|a [|v [|]]]]]; cbn in Ha; try lia.
  unfold args_in in Hargs. do 3 apply Forall_cons in Hargs as [_ Hargs].
  apply Forall_cons in Hargs as [Hv%ok_str _].
  finish by (by apply (runs_setrangeCommand E HE _ _ _ _ n k a v H)).
  intros _ σ' H'. by eexists _, (setrange_result E k a v S).
Qed.

Lemma inplace_implements : Forall2 (implements false) inplaceCommands inplaceMeanings.
Proof.
  repeat apply Forall2_cons_2; [..|by apply Forall2_nil_2].
  - apply implements_append.
  - by apply implements_incr.
  - apply implements_decrby.
  - by apply implements_incr.
  - apply implements_incrby.
  - apply implements_setrange.
Qed.

End universe.

(** ** Sequences of requests *)

(** A request with the circumstances under which it is served. *)
Record request : Type := mkRequest {
  r_env : environ;
  r_standing : standing;
  r_acks : Z;
  r_argv : list string;
}.

Section sequences.
Context (fopen : string → option string).

(** Serve a request; a command outside the table has no model. *)
Definition execute (r : request) : cmd () :=
  name ← lift (r_argv r !! 0%nat);
  c ← lift (lookupCommand (redisCommandTable fopen) name);
  processCommand (r_env r) (r_standing r) (r_acks r) c (r_argv r).

Definition execute_all (reqs : list request) : cmd () := fold_cmd (λ _ r, execute r) tt reqs.

(** The command of a request, among some of the table. *)
Definition requests (table : list redisCommand) (r : request) (c : redisCommand) : Prop :=
  ∃ name, r_argv r !! 0%nat = Some name ∧
    lookupCommand (redisCommandTable fopen) name = Some c ∧ c ∈ table.

(** A request that a master may get: integer sets are limited to fewer than
    2^29 entries, and the arguments are Redis strings. *)
Definition request_ok (table : list redisCommand) (r : request) : Prop :=
  active (r_env r) ∧ iterates (r_env r) ∧ limits_ok (set_limits (r_env r)) ∧
  args_ok (r_argv r) ∧ ∃ c, requests table r c.

(** The strings that sets may ever have: those they have, and the arguments. *)
Definition strings_of (S : store) (reqs : list request) : gset string :=
  members S ∪ list_to_set (concat (r_argv <$> reqs)).

Definition meanings : list (redisCommand * meaning) :=
  zip coreCommands coreMeanings ++ zip inplaceCommands inplaceMeanings.

(** One request on a store: refused with an error, or done as the command
    means. *)
Inductive serves (r : request) (S : store) : store → redisReply → Prop :=
| serves_refused c err :
    requests (coreCommands ++ inplaceCommands) r c →
    refusal (r_env r) (r_standing r) c (Z.of_nat (length (r_argv r))) = Some err →
    serves r S S (RError err)
| serves_called c m S' reply :
    requests (coreCommands ++ inplaceCommands) r c →
    refusal (r_env r) (r_standing r) c (Z.of_nat (length (r_argv r))) = None →
    (c, m) ∈ meanings → m (r_env r) (r_acks r) (r_argv r) S (S', reply) →
    serves r S S' reply.

Inductive serves_all : list request → store → store → list redisReply → Prop :=
| serves_nil S : serves_all [] S S []
| serves_cons r reqs S S1 S2 reply replies :
    serves r S S1 reply → serves_all reqs S1 S2 replies →
    serves_all (r :: reqs) S S2 (reply :: replies).

Lemma serves_all_length reqs S S' replies :
  serves_all reqs S S' replies → length replies = length reqs.
Proof using Type. induction 1; cbn; lia. Qed.

Lemma refusal_arity E s c argv :
  refusal E s c (Z.of_nat (length argv)) = None → arity_ok c argv.
Proof using Type.
  clear. unfold refusal, arity_ok. by destruct (commandCheckArity _ _).
Qed.

(** Each command has a meaning that it implements and that keeps the store. *)
Lemma zip_meaning (P : redisCommand → meaning → Prop) cs ms c :
  Forall2 P cs ms → c ∈ cs → ∃ m, (c, m) ∈ zip cs ms ∧ P c m.
Proof using Type.
  clear. induction 1 as [|c' m cs ms HP _ IH]; [by intros ?%not_elem_of_nil|].
  intros [->|Hc]%elem_of_cons; [exists m; split; [by left|done]|].
  destruct (IH Hc) as (m' & ? & ?). exists m'. split; [by right|done].
Qed.

Lemma Forall2_both (P Q : redisCommand → meaning → Prop) cs ms :
  Forall2 P cs ms → Forall2 Q cs ms → Forall2 (λ c m, P c m ∧ Q c m) cs ms.
Proof using Type. clear. induction 1; inversion_clear 1; constructor; auto. Qed.

Lemma requests_incl table table' r c : table ⊆ table' → requests table r c → requests table' r c.
Proof using Type. intros Hsub (name & ? & ? & ?). exists name. split_and!; auto. Qed.

(** Requests whose arguments are in the universe. *)
Section served.
Context (U : gset string) (Hfew : few U).

Definition request_in (table : list redisCommand) (r : request) : Prop :=
  request_ok table r ∧ args_in U (r_argv r).

(** One request, to commands of which we know that they keep the sizes exact
    or not. *)
Lemma runs_execute exact table ms r δ S rs σ :
  Forall2 (keeps U) table ms → Forall2 (implements U exact) table ms →
  zip table ms ⊆ meanings → table ⊆ coreCommands ++ inplaceCommands →
  request_in table r → kept U S → holds δ S rs σ →
  runs (execute r) σ (λ _ σ', ∃ δ' S' reply,
    serves r S S' reply ∧ kept U S' ∧ holds δ' S' (rs ++ [reply]) σ' ∧ (exact = true → δ' = δ)).
Proof using Type.
  clear Hfew. intros Hkeep Himpl Hzip Hsub [(HE & Ho & Hlim & _ & c & Hc) Hargs] HS H.
  pose proof (requests_incl _ _ r c Hsub Hc) as Hc'. destruct Hc as (name & Hname & Hlook & Hin).
  eapply runs_bind, runs_lift; [done|]. eapply runs_bind, runs_lift; [done|].
  unfold processCommand. destruct (refusal _ _ _ _) as [err|] eqn:Hr.
  { finish by (by apply (runs_addReply _ _ _ _ H)). intros _ σ' H'.
    exists δ, S, (RError err). eauto using serves. }
  destruct (zip_meaning _ _ _ c (Forall2_both _ _ _ _ Hkeep Himpl) Hin) as (m & Hm & Hk & Hi).
  pose proof (refusal_arity _ _ _ _ Hr) as Ha.
  finish by (by apply Hi). intros _ σ' (δ' & [S' reply] & Hout & H' & Hδ).
  exists δ', S', reply. split; [eapply serves_called; eauto|]. split; [|done].
  by apply (Hk _ _ _ _ _ HE Ha Hargs HS Hout).
Qed.

(** The three kinds of sequences share the induction. *)
Lemma runs_execute_all exact (ok : request → Prop) reqs δ S rs σ :
  (∀ r δ S rs σ, ok r → kept U S → holds δ S rs σ →
    runs (execute r) σ (λ _ σ', ∃ δ' S' reply,
      serves r S S' reply ∧ kept U S' ∧ holds δ' S' (rs ++ [reply]) σ' ∧ (exact = true → δ' = δ))) →
  Forall ok reqs → kept U S → holds δ S rs σ →
  runs (execute_all reqs) σ (λ _ σ', ∃ δ' S' replies,
    serves_all reqs S S' replies ∧ kept U S' ∧ holds δ' S' (rs ++ replies) σ' ∧
    (exact = true → δ' = δ)).
Proof using Type.
  intros Hone Hreqs. revert δ S rs σ. induction Hreqs as [|r reqs Hr _ IH]; intros δ S rs σ HS H.
  { apply runs_ret. exists δ, S, []. rewrite app_nil_r. by split_and!; [constructor|..]. }
  step by (by apply (Hone r)). intros [] σ1 (δ1 & S1 & reply & Hs & HS1 & H1 & Hδ1).
  finish by (by apply (IH _ _ _ _ HS1 H1)). intros _ σ2 (δ2 & S2 & replies & Hs2 & HS2 & H2 & Hδ2).
  exists δ2, S2, (reply :: replies). rewrite <- (assoc_L (++)) in H2. split_and!; [|done|done|].
  - by econstructor.
  - intros He. rewrite Hδ2 by done. by apply Hδ1.
Qed.

Lemma runs_core_in reqs δ S rs σ :
  Forall (request_in coreCommands) reqs → kept U S → holds δ S rs σ →
  runs (execute_all reqs) σ (λ _ σ', ∃ S' replies,
    serves_all reqs S S' replies ∧ kept U S' ∧ holds δ S' (rs ++ replies) σ').
Proof using Hfew.
  intros Hreqs HS H. finish by (apply (runs_execute_all true (request_in coreCommands)); try done).
  - intros r δ1 S1 rs1 σ1 Hr HS1 H1. apply (runs_execute true coreCommands coreMeanings); try done.
    + apply core_keeps.
    + by apply core_implements.
    + unfold meanings. intros x Hx. apply elem_of_app. by left.
    + intros x Hx. apply elem_of_app. by left.
  - intros _ σ' (δ' & S' & replies & Hs & HS' & H' & Hδ). rewrite (Hδ eq_refl) in H'. eauto.
Qed.

Lemma runs_all_in reqs δ S rs σ :
  Forall (request_in (coreCommands ++ inplaceCommands)) reqs → kept U S → holds δ S rs σ →
  runs (execute_all reqs) σ (λ _ σ', ∃ δ' S' replies,
    serves_all reqs S S' replies ∧ kept U S' ∧ holds δ' S' (rs ++ replies) σ').
Proof using Hfew.
  intros Hreqs HS H.
  finish by (apply (runs_execute_all false (request_in (coreCommands ++ inplaceCommands))); try done).
  - intros r δ1 S1 rs1 σ1 [(HE & Ho & Hlim & Hok & c & name & Hname & Hlook & [Hc|Hc]%elem_of_app) Hargs]
      HS1 H1.
    + finish by (apply (runs_execute true coreCommands coreMeanings); try done;
        [apply core_keeps|by apply core_implements| |
        |split; [|done]; split_and!; try done; by exists c, name]).
      1,2: intros x Hx; apply elem_of_app; by left.
      intros _ σ' (δ' & S' & reply & ? & ? & ? & _). by exists δ', S', reply.
    + apply (runs_execute false inplaceCommands inplaceMeanings); try done;
        [apply inplace_keeps|apply inplace_implements| |
        |split; [|done]; split_and!; try done; by exists c, name].
      1,2: intros x Hx; apply elem_of_app; by right.
  - intros _ σ' (δ' & S' & replies & Hs & HS' & H' & _). eauto 8.
Qed.
End served.

(** Every argument is in the universe of its sequence. *)
Lemma requests_in table reqs S :
  Forall (request_ok table) reqs → Forall (request_in (strings_of S reqs) table) reqs.
Proof using Type.
  rewrite !Forall_forall. intros Hok r Hr. split; [by apply Hok|].
  destruct (Hok r Hr) as (_ & _ & _ & Hargs & _). unfold args_ok in Hargs. unfold args_in.
  rewrite Forall_forall in Hargs |- *. intros a Ha. split; [by apply Hargs|].
  unfold strings_of. apply elem_of_union_r, elem_of_list_to_set, list_elem_of_In, in_concat.
  exists (r_argv r). rewrite <- !list_elem_of_In. split; [by apply list_elem_of_fmap_2|done].
Qed.

Lemma runs_core reqs δ S rs σ :
  Forall (request_ok coreCommands) reqs → store_ok S → few (strings_of S reqs) → holds δ S rs σ →
  runs (execute_all reqs) σ (λ _ σ', ∃ S' replies,
    serves_all reqs S S' replies ∧ store_ok S' ∧ holds δ S' (rs ++ replies) σ').
Proof using Type.
  intros Hreqs HS Hf H.
  finish by (apply (runs_core_in _ Hf reqs δ S rs σ); [by apply requests_in| |done]).
  - apply ok_kept; [done|]. unfold strings_of. apply union_subseteq_l.
  - intros _ σ' (S' & replies & Hs & HS' & H'). exists S', replies. split_and!; try done.
    by apply (kept_ok _ _ HS').
Qed.

Lemma runs_all reqs δ S rs σ :
  Forall (request_ok (coreCommands ++ inplaceCommands)) reqs → store_ok S →
  few (strings_of S reqs) → holds δ S rs σ →
  runs (execute_all reqs) σ (λ _ σ', ∃ δ' S' replies,
    serves_all reqs S S' replies ∧ store_ok S' ∧ holds δ' S' (rs ++ replies) σ').
Proof using Type.
  intros Hreqs HS Hf H.
  finish by (apply (runs_all_in _ Hf reqs δ S rs σ); [by apply requests_in| |done]).
  - apply ok_kept; [done|]. unfold strings_of. apply union_subseteq_l.
  - intros _ σ' (δ' & S' & replies & Hs & HS' & H'). exists δ', S', replies. split_and!; try done.
    by apply (kept_ok _ _ HS').
Qed.
End sequences.

(** ** Commands on a value of the wrong type *)

(** The commands that read the string, or the set, of their first argument. *)
Definition onStrings : list redisCommand := [
  mkCommand "get" (local getCommand) 2 false;
  mkCommand "getdel" (local getdelCommand) 2 true;
  mkCommand "getset" (local getsetCommand) 3 true;
  mkCommand "strlen" (local strlenCommand) 2 false;
  mkCommand "append" (local appendCommand) 3 true;
  mkCommand "incr" (local incrCommand) 2 true;
  mkCommand "decr" (local decrCommand) 2 true
].

Definition onSets : list redisCommand := [
  mkCommand "sadd" (local saddCommand) (-3) true;
  mkCommand "scard" (local scardCommand) 2 false;
  mkCommand "sismember" (local sismemberCommand) 3 false;
  mkCommand "smembers" (local smembersCommand) 2 false;
  mkCommand "srem" (local sremCommand) (-3) true
].

(** The key holds a value of the other type. *)
Definition mistyped (E : environ) (c : redisCommand) (k : string) (S : store) : Prop :=
  (∃ X, c ∈ onStrings ∧ live E S k = Some (ASet X)) ∨
  (∃ s, c ∈ onSets ∧ live E S k = Some (AStr s)).

(** A command of either kind, on a key of the other type. *)
Definition refuses (c : redisCommand) (v : aval) : Prop :=
  ∀ E ack name k args δ S rs σ,
    active E → iterates E → arity_ok c (name :: k :: args) → args_ok args →
    live E S k = Some v → holds δ S rs σ →
    runs (proc c E ack (name :: k :: args)) σ
      (λ _, gives δ rs (touch E S k, RError wrongtypeerr)).

(** Open the arguments of a command of fixed arity. *)
Tactic Notation "open_args" integer(n) :=
  intros E ack name k args δ S rs σ HE Ho Ha Hargs Hk H; apply arity_bounds in Ha as [Ha Ha'];
  cbn in Ha, Ha'; do n (destruct args as [|? args]; [cbn in Ha, Ha'; lia|]);
  try (destruct args; [|cbn in Ha; lia]);
  repeat match type of Hargs with args_ok (_ :: _) => apply Forall_cons in Hargs as [? Hargs] end.

Lemma incr_refuses nm h incr X :
  (∀ E argv, h E argv = incrDecrCommand E argv incr) → in_llong incr →
  refuses (mkCommand nm (local h) 2 true) (ASet X).
Proof.
  intros Hh Hi. open_args 0. cbn [proc]. unfold local. rewrite Hh.
  finish by (by apply (runs_incrDecrCommand E HE _ _ _ _ name k [] incr H)).
  intros _ σ' (δ' & H' & [->|(s & Hs & _)]); [|congruence].
  unfold incr_result, unless_set in H'. by rewrite Hk in H'.
Qed.

Lemma strings_refuse X : Forall (λ c, refuses c (ASet X)) onStrings.
Proof.
  repeat apply Forall_cons_2; [..|by apply Forall_nil_2].
  - open_args 0. finish by (by apply (runs_getCommand E HE _ _ _ _ H)). intros _ σ'.
    unfold get_result. by rewrite Hk.
  - open_args 0. finish by (by apply (runs_getdelCommand E HE _ _ _ _ H)). intros _ σ'.
    unfold getdel_result, unless_set. by rewrite Hk.
  - open_args 1. finish by (by apply (runs_getsetCommand E HE _ _ _ _ H)). intros _ σ'.
    unfold getset_result, unless_set. by rewrite Hk.
  - open_args 0. finish by (by apply (runs_strlenCommand E HE _ _ _ _ H)). intros _ σ'.
    unfold strlen_result, unless_set. by rewrite Hk.
  - open_args 1. finish by (apply (runs_appendCommand E HE _ _ _ _ name k _ H);
      [by rewrite Hk|by apply (ok_text ∅)]). intros _ σ'. unfold append_result, unless_set. by rewrite Hk.
  - by apply (incr_refuses _ _ 1).
  - by apply (incr_refuses _ _ (-1)).
Qed.

Lemma sets_refuse s : Forall (λ c, refuses c (AStr s)) onSets.
Proof.
  repeat apply Forall_cons_2; [..|by apply Forall_nil_2].
  - open_args 0. apply (runs_sadd_refused E HE _ _ _ _ name k args s H); [|done]. by intros ->.
  - open_args 0. finish by (by apply (runs_scardCommand E HE _ _ _ _ name k H)). intros _ σ'.
    unfold scard_result, with_set. by rewrite Hk.
  - open_args 1. finish by (by apply (runs_sismemberCommand E HE _ _ _ _ name k _ H)).
    intros _ σ'. unfold sismember_result, with_set. by rewrite Hk.
  - open_args 0. finish by (by apply (runs_smembersCommand E HE Ho _ _ _ _ name k H)).
    intros _ σ' (r & Hr & H'). rewrite Hk in Hr. cbn in Hr. by subst r.
  - open_args 0. finish by (by apply (runs_sremCommand E HE _ _ _ _ name k args H)).
    intros _ σ'. unfold srem_result, with_set. by rewrite Hk.
Qed.

(** ** Properties *)



(** C40: [GET], [GETDEL], [GETSET], [STRLEN], [APPEND], [INCR] and [DECR] on a key
    that holds a set, and [SADD], [SCARD], [SISMEMBER], [SMEMBERS] and [SREM]
    on a key that holds a string, with a number of arguments that the command
    takes, reply WRONGTYPE and change nothing. *)
Theorem wrong_type_refused E ack c name k args δ S rs σ
    (HE : active E) (Ho : iterates E) (Ha : arity_ok c (name :: k :: args)) (Hargs : args_ok args)
    (Hm : mistyped E c k S) (Hσ : holds δ S rs σ) :
  runs (proc c E ack (name :: k :: args)) σ (λ _, gives δ rs (S, RError wrongtypeerr)).
Proof.
  assert (∀ v, live E S k = Some v → touch E S k = S) as Htouch.
  { intros v Hk. unfold live, touch in *. destruct (expired E S k); [|done].
    cbn in Hk. by rewrite lookup_delete_eq in Hk. }
  destruct Hm as [(X & Hc & Hk)|(s & Hc & Hk)].
  - pose proof (strings_refuse X) as Hall. rewrite Forall_forall in Hall.
    finish by (by apply (Hall c Hc)). intros _ σ'. by rewrite (Htouch _ Hk).
  - pose proof (sets_refuse s) as Hall. rewrite Forall_forall in Hall.
    finish by (by apply (Hall c Hc)). intros _ σ'. by rewrite (Htouch _ Hk).
Qed.

(** *** Instances *)

Definition plain_standing : standing := mkStanding true false false None 10 0 0 true true false.
Definition plain_request (argv : list string) : request := mkRequest plain_env plain_standing 0 argv.
Definition no_files (_ : string) : option string := None.

Lemma no_data_ok : store_ok no_data.
Proof. intros k v. cbn. by rewrite lookup_empty. Qed.

(** Whether the first commands of the table have the one that is asked for. *)
Definition known (n : nat) (argv : list string) : bool :=
  match argv with
  | name :: _ =>
      match list_find (λ c, strcaseeq name (fullname c) = true) (redisCommandTable no_files) with
      | Some (i, _) => (i <? n)%nat
      | None => false
      end && forallb (λ a, (String.length a <? 1000)%nat) argv
  | [] => false
  end.

Lemma known_request_ok table rest argv :
  redisCommandTable no_files = table ++ rest → known (length table) argv = true →
  request_ok no_files table (plain_request argv).
Proof.
  intros Htable H. destruct argv as [|name args]; [done|]. cbn [known] in H.
  apply andb_true_iff in H as [Hfind Hlen].
  split; [apply plain_active|]. split; [apply plain_iterates|]. split; [done|]. split.
  { apply Forall_forall. intros a Ha. rewrite forallb_forall in Hlen.
    apply list_elem_of_In, Hlen, Nat.ltb_lt in Ha. unfold str_ok.
    change (2 ^ 32) with 4294967296. lia. }
  destruct (list_find _ _) as [[i c]|] eqn:Hf; [|done]. apply Nat.ltb_lt in Hfind.
  exists c, name. split; [done|]. split; [unfold lookupCommand; by rewrite Hf|].
  apply list_find_Some in Hf as (Hi & _ & _). rewrite Htable, lookup_app_l in Hi by done.
  by eapply list_elem_of_lookup_2.
Qed.

Definition sample_requests : list request := plain_request <$>
  [["SET"; "a"; "12"]; ["SADD"; "s"; "x"; "7"; "x"]; ["SADD"; "t"; "7"; "y"];
   ["SUNIONSTORE"; "u"; "s"; "t"]; ["SCARD"; "u"]; ["SREM"; "s"; "x"; "7"]; ["EXISTS"; "s"; "a"];
   ["GET"; "s"; "a"]].

Lemma sample_requests_ok : Forall (request_ok no_files coreCommands) sample_requests.
Proof.
  apply Forall_fmap, Forall_forall. intros argv Hin.
  eapply (known_request_ok _ (inplaceCommands ++ customCommands no_files)); [reflexivity|].
  revert argv Hin. apply Forall_forall.
  repeat (apply Forall_cons_2; [vm_compute; reflexivity|]). apply Forall_nil_2.
Qed.


Definition sample_inplace : list request := plain_request <$>
  [["SET"; "n"; "9223372036854775806"]; ["INCR"; "n"]; ["INCR"; "n"]; ["APPEND"; "n"; "0"];
   ["INCR"; "n"]; ["SETRANGE"; "n"; "3"; "abc"]; ["GET"; "n"]].


(** A server with a set. *)
Definition server_with_set : redisServer :=
  default plain_server (snd <$> saddCommand plain_env ["SADD"; "s"; "x"; "y"] plain_server).

Lemma server_with_set_rel :
  holds no_drift (sadd_result plain_env "s" ["x"; "y"] no_data).1 [RInteger 2] server_with_set.
Proof.
  pose proof (runs_saddCommand plain_env plain_active plain_iterates eq_refl no_drift no_data [] plain_server
    "SADD" "s" ["x"; "y"] plain_server_rel) as H. unfold server_with_set.
  unfold runs in H. destruct (saddCommand _ _ _) as [[[] σ']|].
  - apply H; [done|repeat constructor].
  - destruct H; [done|repeat constructor].
Qed.

Lemma wrong_type_refused_witness :
  runs (getCommand plain_env ["GET"; "s"]) server_with_set
    (λ _, gives no_drift [RInteger 2]
      ((sadd_result plain_env "s" ["x"; "y"] no_data).1, RError wrongtypeerr)).
Proof.
  apply (wrong_type_refused plain_env 0 (mkCommand "get" (local getCommand) 2 false) "GET" "s" []);
    [apply plain_active|apply plain_iterates|reflexivity|apply Forall_nil_2
    | |apply server_with_set_rel].
  left. exists ({["x"; "y"]} ∪ ∅). split; [apply list_elem_of_here|reflexivity].
Defined.
