(* ===== verification/Sds.v ===== *)
(** * Strings of the server: quoting and splitting

    [sdscatrepr] and [sdssplitargs] of src/redis/src/sds.c, which print a
    string of any bytes with quotes and escapes and split a line into
    arguments; the second parses what inline requests and the configuration
    hold. *)

From S2P Require Import Prelude CLib.
From Stdlib Require Import Ascii.

Definition DQUOTE : ascii := "034"%char.
Definition SQUOTE : ascii := "039"%char.
Definition BACKSLASH : ascii := "092"%char.

Definition code (c : ascii) : Z := Z.of_N (N_of_ascii c).
Definition chr (z : Z) : ascii := ascii_of_N (Z.to_N z).

Definition snoc (s : string) (c : ascii) : string := s +:+ String c EmptyString.

(** ** Hexadecimal digits *)

Definition is_hex_digit (c : ascii) : bool :=
  (48 <=? code c) && (code c <=? 57) || (97 <=? code c) && (code c <=? 102) ||
  (65 <=? code c) && (code c <=? 70).

Definition hex_digit_to_int (c : ascii) : Z :=
  if (48 <=? code c) && (code c <=? 57) then code c - 48
  else if (97 <=? code c) && (code c <=? 102) then code c - 97 + 10
  else if (65 <=? code c) && (code c <=? 70) then code c - 65 + 10
  else 0.

(** The digit that [%x] prints. *)
Definition hex_char (z : Z) : ascii := if z <? 10 then chr (48 + z) else chr (97 + (z - 10)).

(** ** Printing with escapes *)

Definition isprint (c : ascii) : bool := (32 <=? code c) && (code c <=? 126).

(** One byte of [sdscatrepr]. *)
Definition repr_char (c : ascii) : string :=
  let esc (d : ascii) : string := String BACKSLASH (String d EmptyString) in
  if decide (c = BACKSLASH ∨ c = DQUOTE) then esc c
  else if decide (c = "010"%char) then esc "n"%char
  else if decide (c = "013"%char) then esc "r"%char
  else if decide (c = "009"%char) then esc "t"%char
  else if decide (c = "007"%char) then esc "a"%char
  else if decide (c = "008"%char) then esc "b"%char
  else if isprint c then String c EmptyString
  else String BACKSLASH (String "x" (String (hex_char (code c / 16))
         (String (hex_char (code c mod 16)) EmptyString))).

Fixpoint repr_chars (p : string) : string :=
  match p with
  | EmptyString => EmptyString
  | String c p => repr_char c +:+ repr_chars p
  end.

Definition sdscatrepr (s p : string) : string :=
  snoc (snoc s DQUOTE +:+ repr_chars p) DQUOTE.

(** ** Splitting a line into arguments *)

Inductive quotes : Set := Plain | Inq | Insq.

Definition unescape (c : ascii) : ascii :=
  if decide (c = "n"%char) then "010"%char
  else if decide (c = "r"%char) then "013"%char
  else if decide (c = "t"%char) then "009"%char
  else if decide (c = "b"%char) then "008"%char
  else if decide (c = "a"%char) then "007"%char
  else c.

(** A closing quote must be followed by a space or nothing at all. *)
Definition closes (p : string) : bool :=
  match p with EmptyString => true | String c _ => isspace c end.

(** The loop over a token, from [p] with [current] read: the token and the rest
    of the line; [None] is [goto err]. *)
Fixpoint get_token (q : quotes) (current p : string) : option (string * string) :=
  match q, p with
  | Inq, EmptyString | Insq, EmptyString => None
  | Plain, EmptyString => Some (current, EmptyString)
  | Inq, String c p =>
      if decide (c = BACKSLASH) then
        match p with
        | EmptyString => get_token Inq (snoc current c) p
        | String d p' =>
            match p' with
            | String h1 (String h2 p'') =>
                if bool_decide (d = "x"%char) && is_hex_digit h1 && is_hex_digit h2
                then get_token Inq (snoc current (chr (hex_digit_to_int h1 * 16 + hex_digit_to_int h2)))
                       p''
                else get_token Inq (snoc current (unescape d)) p'
            | _ => get_token Inq (snoc current (unescape d)) p'
            end
        end
      else if decide (c = DQUOTE) then if closes p then Some (current, p) else None
      else get_token Inq (snoc current c) p
  | Insq, String c p =>
      match p with
      | String d p' =>
          if bool_decide (c = BACKSLASH) && bool_decide (d = SQUOTE)
          then get_token Insq (snoc current SQUOTE) p'
          else if decide (c = SQUOTE) then if closes p then Some (current, p) else None
          else get_token Insq (snoc current c) p
      | EmptyString =>
          if decide (c = SQUOTE) then if closes p then Some (current, p) else None
          else get_token Insq (snoc current c) p
      end
  | Plain, String c p =>
      if decide (c = " "%char ∨ c = "010"%char ∨ c = "013"%char ∨ c = "009"%char)
      then Some (current, p)
      else if decide (c = DQUOTE) then get_token Inq current p
      else if decide (c = SQUOTE) then get_token Insq current p
      else get_token Plain (snoc current c) p
  end.

(** The outer loop; [fuel] bounds the number of tokens. *)
Fixpoint split_loop (fuel : nat) (vector : list string) (p : string) : option (list string) :=
  match fuel with
  | O => None
  | S fuel =>
      match skip_space p with
      | EmptyString => Some vector
      | p => '(current, p) ← get_token Plain EmptyString p; split_loop fuel (vector ++ [current]) p
      end
  end.

Definition sdssplitargs (line : string) : option (list string) :=
  split_loop (S (String.length line)) [] (c_str line).

(** ** Splitting undoes printing *)

Lemma snoc_app s c r : snoc s c +:+ r = s +:+ String c r.
Proof. unfold snoc. by rewrite <- string_app_assoc. Qed.

Lemma get_token_escape current d r : d ≠ "x"%char →
  get_token Inq current (String BACKSLASH (String d r)) = get_token Inq (snoc current (unescape d)) r.
Proof.
  intros Hd. cbn -[unescape is_hex_digit]. rewrite bool_decide_false by done.
  by destruct r as [|? [|??]].
Qed.

Lemma get_token_hex current h1 h2 r : is_hex_digit h1 = true → is_hex_digit h2 = true →
  get_token Inq current (String BACKSLASH (String "x" (String h1 (String h2 r)))) =
  get_token Inq (snoc current (chr (hex_digit_to_int h1 * 16 + hex_digit_to_int h2))) r.
Proof. intros H1 H2. cbn -[is_hex_digit hex_digit_to_int]. by rewrite H1, H2. Qed.

Lemma get_token_char current c r : c ≠ BACKSLASH → c ≠ DQUOTE →
  get_token Inq current (String c r) = get_token Inq (snoc current c) r.
Proof. intros H1 H2. simpl. by rewrite !decide_False. Qed.

(** What [\x%02x] prints is read back. *)
Lemma hex_roundtrip c :
  is_hex_digit (hex_char (code c / 16)) = true ∧ is_hex_digit (hex_char (code c mod 16)) = true ∧
  chr (hex_digit_to_int (hex_char (code c / 16)) * 16 + hex_digit_to_int (hex_char (code c mod 16))) = c.
Proof. destruct c as [[] [] [] [] [] [] [] []]; by vm_compute. Qed.

Lemma get_token_repr_char current c r :
  get_token Inq current (repr_char c +:+ r) = get_token Inq (snoc current c) r.
Proof.
  unfold repr_char. repeat case_decide; simplify_eq;
    try (change ((String BACKSLASH (String ?d EmptyString)) +:+ r)
      with (String BACKSLASH (String d r)); rewrite get_token_escape by done; done).
  - destruct H as [->| ->]; by apply get_token_escape.
  - destruct (isprint c).
    + apply get_token_char; naive_solver.
    + destruct (hex_roundtrip c) as (Hh1 & Hh2 & Hc). cbn [String.app].
      rewrite get_token_hex by done. by rewrite Hc.
Qed.

Lemma get_token_quoted current s r : closes r = true →
  get_token Inq current (repr_chars s +:+ String DQUOTE r) = Some (current +:+ s, r).
Proof.
  intros Hr. revert current. induction s as [|c s IH]; intros current.
  - simpl. rewrite Hr. by rewrite string_app_nil_r.
  - cbn [repr_chars]. rewrite <- string_app_assoc, get_token_repr_char, IH. by rewrite snoc_app.
Qed.

(** The line that lists strings with quotes and a space between two of them. *)
Definition quoted_line (args : list string) : string :=
  String.concat " " (sdscatrepr EmptyString <$> args).

Lemma repr_char_free c : char_free NUL (repr_char c).
Proof. destruct c as [[] [] [] [] [] [] [] []]; vm_compute; intuition discriminate. Qed.

Lemma repr_free s : char_free NUL (sdscatrepr EmptyString s).
Proof.
  unfold sdscatrepr, snoc. cbn. rewrite char_free_app. split; [done|]. split; [|done].
  induction s as [|c s IH]; [done|]. cbn. rewrite char_free_app. split; [apply repr_char_free|done].
Qed.

Lemma quoted_line_cons a args : quoted_line (a :: args) =
  sdscatrepr EmptyString a +:+ match args with [] => EmptyString | _ => " " +:+ quoted_line args end.
Proof. destruct args; [symmetry; apply string_app_nil_r|done]. Qed.

Lemma quoted_line_free args : char_free NUL (quoted_line args).
Proof.
  induction args as [|a args IH]; [done|]. rewrite quoted_line_cons, char_free_app.
  split; [apply repr_free|]. by destruct args.
Qed.

Lemma quoted_line_length args : (length args ≤ String.length (quoted_line args))%nat.
Proof.
  induction args as [|a args IH]; [cbn; lia|]. rewrite quoted_line_cons, string_length_app.
  unfold sdscatrepr at 1, snoc. rewrite !string_length_app. cbn [length].
  destruct args; [cbn; lia|]. rewrite string_length_app. cbn [String.length]. lia.
Qed.

Lemma split_quoted args vector fuel : (length args < fuel)%nat →
  split_loop fuel vector (quoted_line args) = Some (vector ++ args).
Proof.
  revert vector fuel. induction args as [|a args IH]; intros vector [|fuel] Hf; cbn in Hf; [lia| |lia|].
  - by rewrite app_nil_r.
  - rewrite quoted_line_cons. unfold sdscatrepr, snoc. rewrite <- !string_app_assoc.
    set (rest := match args with [] => _ | _ => _ end).
    cbn -[get_token]. change (isspace DQUOTE) with false. cbn iota.
    change (get_token Plain "" (String DQUOTE ?p)) with (get_token Inq "" p).
    rewrite get_token_quoted by (unfold rest; by destruct args). cbn.
    replace (split_loop fuel (vector ++ [a]) rest)
      with (split_loop fuel (vector ++ [a]) (quoted_line args)).
    + rewrite IH by lia. by rewrite <- (assoc_L (++)).
    + unfold rest. destruct args; [done|]. by destruct fuel.
Qed.

(** [sdssplitargs] reads back any strings that [sdscatrepr] printed, whatever
    bytes they hold. *)
Theorem sdssplitargs_sdscatrepr args : sdssplitargs (quoted_line args) = Some args.
Proof.
  unfold sdssplitargs. rewrite c_str_free by apply quoted_line_free.
  apply (split_quoted args []). pose proof (quoted_line_length args). lia.
Qed.
