(* ===== verification/Networking.v ===== *)
(** * Requests on the wire

    The server's side of a connection, from src/redis/src/networking.c: the
    query buffer of a client, the parsers of the RESP and of the inline
    protocol, and the loop that executes each request once it is complete.
    Reads deliver any pieces of the stream, and an argument of 32 KB or more
    is moved to the start of the buffer and then taken over without a copy.

    The client is an ordinary one, or the link of a replica to its master, whose
    buffer is kept until it is applied and passed on to further replicas; inside
    a transaction of the master nothing counts as applied.  Commands run in the
    main thread.  What a complete request does to the data is a parameter, which
    [execute] of [ServerRefine] instantiates with the command table; none of
    its commands leaves its client blocked. *)

From S2P Require Import Prelude CLib Buffers Hiredis Util Sds SetType Db DbRel Strings StringsSpec Server.
From S2P Require Import ServerRefine.
From Stdlib Require Import Ascii.

Definition PROTO_INLINE_MAX_SIZE : Z := 1024 * 64.
Definition PROTO_MBULK_BIG_ARG : Z := 1024 * 32.

Inductive reqtype_t : Set := PROTO_REQ_NONE | PROTO_REQ_INLINE | PROTO_REQ_MULTIBULK.

#[export] Instance reqtype_t_eq_dec : EqDecision reqtype_t.
Proof. solve_decision. Defined.

(** The fields of [client] that a replica uses for its connection to its
    master: the offset up to which the stream is read, the offset up to which
    it is applied, and the length of the prefix of the query buffer that is
    applied.  [proxied] is what [replicationFeedStreamFromMasterStream] has been
    given, call by call, the stream for the replicas of this replica.
    [in_multi] is the flag [CLIENT_MULTI]. *)
Record master_link : Type := mkLink {
  read_reploff : Z;
  reploff : Z;
  repl_applied : nat;
  proxied : list string;
  in_multi : bool;
}.

(** The flags that end a connection: none, [CLIENT_CLOSE_ASAP] alone, and
    [CLIENT_PROTOCOL_ERROR], with which [CLIENT_CLOSE_AFTER_REPLY] is set. *)
Inductive closing_t : Set := NotClosing | CloseAsap | ProtocolError.

(** The fields of [client] that the parser uses; [blocked] is the flag
    [CLIENT_BLOCKED], and [link] is there for a client with [CLIENT_MASTER]
    only. *)
Record client : Type := mkClient {
  querybuf : string;
  qb_pos : nat;
  reqtype : reqtype_t;
  argv : list string;
  multibulklen : Z;
  bulklen : Z;
  closing : closing_t;
  blocked : bool;
  link : option master_link;
}.

(** [c->flags & (CLIENT_CLOSE_AFTER_REPLY|CLIENT_CLOSE_ASAP)] *)
Definition close (c : client) : bool := if closing c is NotClosing then false else true.

(** [c->flags & CLIENT_MASTER] *)
Definition is_master (c : client) : bool := if link c is Some _ then true else false.

(** A client as [createClient] makes it. *)
Definition createClient : client := mkClient EmptyString 0 PROTO_REQ_NONE [] 0 (-1) NotClosing false None.

Definition set_buf (c : client) (buf : string) (pos : nat) : client :=
  mkClient buf pos (reqtype c) (argv c) (multibulklen c) (bulklen c) (closing c) (blocked c) (link c).
Definition set_reqtype (c : client) (t : reqtype_t) : client :=
  mkClient (querybuf c) (qb_pos c) t (argv c) (multibulklen c) (bulklen c) (closing c) (blocked c) (link c).
Definition set_argv (c : client) (l : list string) : client :=
  mkClient (querybuf c) (qb_pos c) (reqtype c) l (multibulklen c) (bulklen c) (closing c) (blocked c) (link c).
Definition set_multibulklen (c : client) (n : Z) : client :=
  mkClient (querybuf c) (qb_pos c) (reqtype c) (argv c) n (bulklen c) (closing c) (blocked c) (link c).
Definition set_bulklen (c : client) (n : Z) : client :=
  mkClient (querybuf c) (qb_pos c) (reqtype c) (argv c) (multibulklen c) n (closing c) (blocked c) (link c).
Definition set_closing (c : client) (f : closing_t) : client :=
  mkClient (querybuf c) (qb_pos c) (reqtype c) (argv c) (multibulklen c) (bulklen c) f (blocked c) (link c).

Definition set_link (c : client) (l : option master_link) : client :=
  mkClient (querybuf c) (qb_pos c) (reqtype c) (argv c) (multibulklen c) (bulklen c) (closing c) (blocked c) l.

Definition setProtocolError (c : client) : client := set_closing c ProtocolError.

Definition resetClient (c : client) : client :=
  mkClient (querybuf c) (qb_pos c) PROTO_REQ_NONE [] 0 (-1) (closing c) (blocked c) (link c).

(** ** Pieces of a buffer *)

(** What is not parsed yet: the bytes from [querybuf + qb_pos] on. *)
Definition unread (c : client) : string := sdrop (qb_pos c) (querybuf c).

(** [strchr (querybuf + qb_pos, ch)] relative to that position; the search
    ends at a NUL byte. *)
Definition find_char (s : string) (ch : ascii) : option nat :=
  (λ r, String.length (c_str s) - String.length r)%nat <$> strchr (c_str s) ch.

Definition len (s : string) : Z := Z.of_nat (String.length s).

Section parser.
Context (server : environ) (s : standing).

(** Reply with an error and close the connection after it; nothing is ever
    written to a master ([prepareClientToWrite]). *)
Definition protocol_error (c : client) (err : string) : cmd (client * bool) :=
  (if is_master c then mret tt else addReplyError ("Protocol error: " +:+ err));;
  mret (setProtocolError c, false).

(** ** The inline protocol *)

Definition processInlineBuffer (c : client) : cmd (client * bool) :=
  match find_char (unread c) LF with
  | None =>
      if PROTO_INLINE_MAX_SIZE <? len (unread c)
      then protocol_error c "too big inline request"
      else mret (c, false)
  | Some newline =>
      let '(querylen, linefeed_chars) :=
        if bool_decide (newline ≠ 0%nat) &&
           bool_decide (String.get (newline - 1) (unread c) = Some CR)
        then ((newline - 1)%nat, 2%nat) else (newline, 1%nat) in
      match sdssplitargs (stake querylen (unread c)) with
      | None => protocol_error c "unbalanced quotes in request"
      | Some argv =>
          if bool_decide (querylen ≠ 0%nat) && is_master c
          then mret (setProtocolError c, false)
          else
            let c := set_buf c (querybuf c) (qb_pos c + (querylen + linefeed_chars)) in
            mret (set_argv c argv, true)
      end
  end.

(** ** The RESP protocol *)

(** A line from the current position up to [\r\n]: its length, once it is
    complete. *)
Definition complete_line (c : client) : option nat :=
  newline ← find_char (unread c) CR;
  if len (unread c) - 2 <? Z.of_nat newline then None else Some newline.

(** The number that follows the first byte of a line. *)
Definition line_number (c : client) (newline : nat) : option Z :=
  string2ll (stake (newline - 1) (sdrop 1 (unread c))).

Definition past_line (c : client) (newline : nat) : client :=
  set_buf c (querybuf c) (qb_pos c + newline + 2).

(** A line too long to be a number. *)
Definition endless_line (c : client) : bool :=
  bool_decide (find_char (unread c) CR = None) && (PROTO_INLINE_MAX_SIZE <? len (unread c)).

(** The number of arguments; [Some ok] when the function returns here. *)
Definition read_multibulklen (c : client) : cmd (client * option bool) :=
  serverAssert (bool_decide (argv c = []));;
  match complete_line c with
  | None =>
      if endless_line c
      then '(c, ok) ← protocol_error c "too big mbulk count string"; mret (c, Some ok)
      else mret (c, Some false)
  | Some newline =>
      serverAssert (bool_decide (String.get 0 (unread c) = Some "*"%char));;
      match line_number c newline with
      | None => '(c, ok) ← protocol_error c "invalid multibulk length"; mret (c, Some ok)
      | Some ll =>
          if INT_MAX <? ll
          then '(c, ok) ← protocol_error c "invalid multibulk length"; mret (c, Some ok)
          else if (10 <? ll) && authRequired s
          then '(c, ok) ← protocol_error c "unauthenticated multibulk length"; mret (c, Some ok)
          else
            let c := past_line c newline in
            if ll <=? 0 then mret (c, Some true)
            else mret (set_argv (set_multibulklen c ll) [], None)
      end
  end.

(** A byte as [%c] in an error reply, which holds no line breaks. *)
Definition reply_char (c : ascii) : string :=
  String (if decide (c = CR ∨ c = LF) then " "%char else c) EmptyString.

(** A large argument will start at the start of the buffer, unless the buffer
    is a master's, which keeps what is not applied yet. *)
Definition align_big_arg (c : client) (ll : Z) : client :=
  if negb (is_master c) && (PROTO_MBULK_BIG_ARG <=? ll) && (len (unread c) <=? ll + 2)
  then set_buf c (unread c) 0 else c.

(** The length of an argument; [false] when the loop ends here. *)
Definition read_bulklen (c : client) : cmd (client * bool) :=
  match complete_line c with
  | None => if endless_line c then protocol_error c "too big bulk count string" else mret (c, false)
  | Some newline =>
      match String.get 0 (unread c) with
      | None => serverPanic
      | Some ch =>
          if decide (ch ≠ "$"%char)
          then protocol_error c ("expected '$', got '" +:+ reply_char ch +:+ "'")
          else match line_number c newline with
          | None => protocol_error c "invalid bulk length"
          | Some ll =>
              if (ll <? 0) || negb (is_master c) && (proto_max_bulk_len server <? ll)
              then protocol_error c "invalid bulk length"
              else if (16384 <? ll) && authRequired s
              then protocol_error c "unauthenticated bulk length"
              else mret (set_bulklen (align_big_arg (past_line c newline) ll) ll, true)
          end
      end
  end.

(** The bytes of an argument; [false] when they are not all there. *)
Definition read_bulk (c : client) : client * bool :=
  if len (unread c) <? bulklen c + 2 then (c, false)
  else
    let c :=
      if negb (is_master c) && bool_decide (qb_pos c = 0%nat) &&
         (PROTO_MBULK_BIG_ARG <=? bulklen c) && (len (querybuf c) =? bulklen c + 2)
      then set_buf (set_argv c (argv c ++ [stake (String.length (querybuf c) - 2) (querybuf c)]))
             EmptyString (qb_pos c)
      else set_buf (set_argv c (argv c ++ [stake (Z.to_nat (bulklen c)) (unread c)]))
             (querybuf c) (qb_pos c + Z.to_nat (bulklen c + 2)) in
    (set_multibulklen (set_bulklen c (-1)) (multibulklen c - 1), true).

(** The loop over the arguments that are still to come. *)
Fixpoint read_arguments (n : nat) (c : client) : cmd (client * bool) :=
  match n with
  | O => mret (c, true)
  | S n =>
      '(c, known) ← (if bulklen c =? -1 then read_bulklen c else mret (c, true));
      if negb known then mret (c, false)
      else let '(c, complete) := read_bulk c in
           if negb complete then mret (c, false) else read_arguments n c
  end.

Definition processMultibulkBuffer (c : client) : cmd (client * bool) :=
  '(c, returned) ← (if multibulklen c =? 0 then read_multibulklen c else mret (c, None));
  match returned with
  | Some ok => mret (c, ok)
  | None =>
      serverAssert (0 <? multibulklen c);;
      read_arguments (Z.to_nat (multibulklen c)) c
  end.

(** ** The input loop *)

(** What the server does with a complete request. *)
Variable processCommand : list string → cmd ().

(** [CLIENT_MULTI] after a command: [MULTI] sets it, [EXEC] and [DISCARD] clear
    it, whether the transaction is executed or given up. *)
Definition multi_after (multi : bool) (argv : list string) : bool :=
  match argv with
  | [name] =>
      if strcaseeq name "multi" then true
      else if strcaseeq name "exec" || strcaseeq name "discard" then false
      else multi
  | _ => multi
  end.

Definition note_multi (c : client) : client :=
  match link c with
  | Some l => set_link c (Some (mkLink (read_reploff l) (reploff l) (repl_applied l) (proxied l)
                (multi_after (in_multi l) (argv c))))
  | None => c
  end.

(** After a command: the client is ready for the next one, unless it is
    blocked, and the part of a master's stream that this applies goes to the
    replicas down the line.  The bytes are read from the query buffer, where
    they have to be. *)
Definition commandProcessed (c : client) : cmd client :=
  if blocked c then mret c else
  let c := resetClient c in
  match link c with
  | None => mret c
  | Some l =>
      let reploff' := if in_multi l then reploff l
                      else read_reploff l - len (querybuf c) + Z.of_nat (qb_pos c) in
      let applied := reploff' - reploff l in
      if applied =? 0
      then mret (set_link c (Some (mkLink (read_reploff l) reploff' (repl_applied l) (proxied l) (in_multi l))))
      else if (applied <? 0) || (len (querybuf c) <? Z.of_nat (repl_applied l) + applied) then serverPanic
      else
        let fed := stake (Z.to_nat applied) (sdrop (repl_applied l) (querybuf c)) in
        mret (set_link c (Some (mkLink (read_reploff l) reploff'
          (repl_applied l + Z.to_nat applied) (proxied l ++ [fed]) (in_multi l))))
  end.

Definition processCommandAndResetClient (c : client) : cmd client :=
  processCommand (argv c);; commandProcessed (note_multi c).

(** The type of the next request, from its first byte. *)
Definition request_type (c : client) : client :=
  if decide (reqtype c = PROTO_REQ_NONE) then
    set_reqtype c (if bool_decide (String.get 0 (unread c) = Some "*"%char)
                   then PROTO_REQ_MULTIBULK else PROTO_REQ_INLINE)
  else c.

Definition read_request (c : client) : cmd (client * bool) :=
  match reqtype c with
  | PROTO_REQ_INLINE => processInlineBuffer c
  | PROTO_REQ_MULTIBULK => processMultibulkBuffer c
  | PROTO_REQ_NONE => serverPanic
  end.

(** The loop of [processInputBuffer]; every round but the last consumes a byte. *)
Fixpoint input_loop (fuel : nat) (c : client) : cmd client :=
  match fuel with
  | O => serverPanic
  | S fuel =>
      if (String.length (querybuf c) <=? qb_pos c)%nat then mret c
      else if blocked c then mret c
      else if close c then mret c
      else
        '(c, ready) ← read_request (request_type c);
        if negb ready then mret c
        else
          c ← (if decide (argv c = []) then mret (resetClient c) else processCommandAndResetClient c);
          input_loop fuel c
  end.

(** The buffer is trimmed to what is parsed, a master's to what is applied. *)
Definition trim_querybuf (c : client) : client :=
  match link c with
  | Some l =>
      if decide (repl_applied l = 0%nat) then c
      else set_link (set_buf c (sdrop (repl_applied l) (querybuf c)) (qb_pos c - repl_applied l))
             (Some (mkLink (read_reploff l) (reploff l) 0 (proxied l) (in_multi l)))
  | None => if decide (qb_pos c = 0%nat) then c else set_buf c (unread c) 0
  end.

Definition processInputBuffer (c : client) : cmd client :=
  c ← input_loop (S (String.length (unread c))) c;
  mret (trim_querybuf c).

(** What [connRead] delivers: bytes, none when the peer has closed the
    connection; nothing for now; an error. *)
Inductive read_result : Type := ReadData (data : string) | ReadAgain | ReadError.

Variable client_max_querybuf_len : Z.

Definition freeClientAsync (c : client) : client :=
  set_closing c (if closing c is ProtocolError then ProtocolError else CloseAsap).

(** The bytes a read has appended are counted for a master. *)
Definition count_read (c : client) (n : Z) : client :=
  match link c with
  | Some l => set_link c (Some (mkLink (read_reploff l + n) (reploff l) (repl_applied l) (proxied l)
                (in_multi l)))
  | None => c
  end.

Definition readQueryFromClient (c : client) (nread : read_result) : cmd client :=
  match nread with
  | ReadAgain => mret c
  | ReadError | ReadData EmptyString => mret (freeClientAsync c)
  | ReadData data =>
      let c := count_read (set_buf c (querybuf c +:+ data) (qb_pos c)) (len data) in
      if negb (is_master c) &&
         ((client_max_querybuf_len <? len (querybuf c)) ||
          (1024 * 1024 <? len (querybuf c)) && authRequired s)
      then mret (freeClientAsync c)
      else processInputBuffer c
  end.

(** The events of a connection, in order. *)
Fixpoint serve_reads (c : client) (reads : list read_result) : cmd client :=
  match reads with
  | [] => mret c
  | r :: reads => c ← readQueryFromClient c r; serve_reads c reads
  end.

(** Requests one after the other. *)
Fixpoint process_all (reqs : list (list string)) : cmd () :=
  match reqs with
  | [] => mret tt
  | argv :: reqs => processCommand argv;; process_all reqs
  end.
End parser.

(** ** Lines *)

Lemma c_str_app a b : char_free NUL a → c_str (a +:+ b) = a +:+ c_str b.
Proof. induction a as [|c a IH]; simpl; [done|]. intros [Hc Ha]. by rewrite decide_False, IH. Qed.

Lemma find_char_app ch a b : ch ≠ NUL → char_free NUL a → char_free ch a →
  find_char (a +:+ String ch b) ch = Some (String.length a).
Proof.
  intros Hch Hn Ha. unfold find_char. rewrite c_str_app by done. cbn [c_str].
  rewrite decide_False, strchr_app by done. cbn. f_equal. rewrite string_length_app. cbn. lia.
Qed.

Lemma find_char_free ch a : char_free NUL a → char_free ch a → find_char a ch = None.
Proof.
  intros Hn Ha. unfold find_char. rewrite c_str_free by done.
  replace (strchr a ch) with (@None string); [done|]. clear Hn.
  induction a as [|c a IH]; [done|]. destruct Ha as [Hc Ha]. simpl. by rewrite decide_False, <- IH.
Qed.

Section lines.
Context (c : client) (ch : ascii) (n : nat).
Hypothesis Hch : is_digit ch = false ∧ ch ≠ CR ∧ ch ≠ NUL.
Hypothesis Hn : Z.of_nat n ≤ LLONG_MAX.

Let text : string := String ch (pretty n).

Lemma line_free d : is_digit d = false → ch ≠ d → char_free d text.
Proof. intros Hd Hne. split; [done|]. by apply all_digits_char_free, pretty_N_digits. Qed.

Lemma text_length : (String.length text ≤ 21)%nat.
Proof using Hn.
  unfold text. cbn [String.length].
  assert (pretty n = pretty (Z.of_nat n)) as ->.
  { rewrite pretty_Z_nonneg by lia. by rewrite <- nat_N_Z, N2Z.id. }
  pose proof (pretty_llong_length (Z.of_nat n)). unfold in_llong, LLONG_MIN in *. lia.
Qed.

(** A whole line in the buffer. *)
Lemma line_read r : unread c = text +:+ CRLF +:+ r →
  complete_line c = Some (String.length text) ∧
  line_number c (String.length text) = Some (Z.of_nat n) ∧
  String.get 0 (unread c) = Some ch ∧
  unread (past_line c (String.length text)) = r.
Proof using Hch Hn.
  destruct Hch as (Hd & Hcr & Hnul). intros Hu. split_and!.
  - unfold complete_line. rewrite Hu. unfold CRLF. cbn [String.append].
    rewrite find_char_app by (by try apply line_free). cbn [mbind option_bind].
    unfold len. rewrite string_length_app. cbn [String.length].
    destruct (Z.ltb_spec (Z.of_nat (String.length text + S (S (String.length r))) - 2)
      (Z.of_nat (String.length text))); [lia|done].
  - unfold line_number. rewrite Hu. unfold text. cbn [String.append sdrop String.length].
    rewrite Nat.sub_succ, Nat.sub_0_r, stake_app. apply string2ll_spec.
    split; [unfold in_llong, LLONG_MIN; lia|].
    rewrite pretty_Z_nonneg by lia. by rewrite <- nat_N_Z, N2Z.id.
  - by rewrite Hu.
  - unfold unread, past_line in *. cbn [querybuf qb_pos set_buf].
    rewrite <- Nat.add_assoc, <- sdrop_sdrop, Hu, string_app_assoc.
    replace (String.length text + 2)%nat with (String.length (text +:+ CRLF))
      by (rewrite string_length_app; done).
    apply sdrop_app.
Qed.

(** The line is not all there yet. *)
Lemma line_partial z : unread c +:+ z = text +:+ CRLF → z ≠ EmptyString →
  complete_line c = None ∧ endless_line c = false.
Proof using Hch Hn.
  destruct Hch as (Hd & Hcr & Hnul). intros Hu Hz. pose proof text_length as Hl.
  destruct (string_split _ _ _ _ Hu) as [(x & Hx & _)|(x & Hx & Hx1 & Hx2)].
  - assert (∀ d, is_digit d = false → ch ≠ d → char_free d (unread c)) as Hf.
    { intros d H1 H2. pose proof (line_free d H1 H2) as H. rewrite Hx in H.
      by apply char_free_app in H as [H _]. }
    unfold complete_line, endless_line. rewrite find_char_free by (by apply Hf). split; [done|].
    rewrite Hx, string_length_app in Hl. unfold PROTO_INLINE_MAX_SIZE, len. apply andb_false_iff. right.
    apply Z.ltb_ge. lia.
  - destruct x as [|d [|e x]]; [done| |]; injection Hx2 as <-.
    + unfold complete_line, endless_line. rewrite Hx1, find_char_app by (by try apply line_free).
      cbn [mbind option_bind].
      unfold len. rewrite string_length_app. cbn [String.length].
      destruct (Z.ltb_spec (Z.of_nat (String.length text + 1) - 2) (Z.of_nat (String.length text)));
        [done|lia].
    + by destruct x, z.
Qed.

(** Whatever the buffer holds of a line and what follows it. *)
Lemma line_cases future tail : unread c +:+ future = text +:+ CRLF +:+ tail →
  (complete_line c = None ∧ endless_line c = false ∧
   (String.length tail < String.length future)%nat ∧
   (String.length (unread c) ≤ String.length (text +:+ CRLF))%nat) ∨
  (complete_line c = Some (String.length text) ∧
   line_number c (String.length text) = Some (Z.of_nat n) ∧
   String.get 0 (unread c) = Some ch ∧
   unread (past_line c (String.length text)) +:+ future = tail).
Proof using Hch Hn.
  rewrite string_app_assoc. intros Hu.
  destruct (string_split _ _ _ _ Hu) as [(z & Hz & ->)|(z & _ & Hz & ->)].
  - destruct z as [|d z].
    + right. rewrite string_app_nil_r in Hz.
      destruct (line_read EmptyString) as (H1 & H2 & H3 & H4); [|by rewrite H4].
      by rewrite <- Hz, string_app_assoc, string_app_nil_r.
    + left. symmetry in Hz. destruct (line_partial _ Hz) as [H1 H2]; [done|].
      split_and!; [done|done|cbn; rewrite string_length_app; lia|].
      rewrite <- Hz, string_length_app. lia.
  - right. destruct (line_read z) as (H1 & H2 & H3 & H4); [by rewrite string_app_assoc|].
    by rewrite H4.
Qed.
End lines.

(** ** Reading requests

    What the client has sent is one stream; [future] is the part that is not
    in the buffer yet. *)

(** The requests as hiredis formats them, one after the other. *)
Definition wire (reqs : list (list string)) : string :=
  foldr (λ argv r, resp_request argv +:+ r) EmptyString reqs.
Definition arguments (args : list string) : string :=
  foldr (λ a r, bulk a +:+ r) EmptyString args.

Section reading.
Context (server : environ) (s : standing).

(** What the limits of the server let pass; a master's arguments may be longer
    than the configured maximum. *)
Definition arg_ok (master : bool) (a : string) : Prop :=
  (master = false → len a ≤ proto_max_bulk_len server) ∧ len a ≤ LLONG_MAX ∧
  (authRequired s = true → len a ≤ 16384).

Definition acceptable (master : bool) (argv : list string) : Prop :=
  argv ≠ [] ∧ Z.of_nat (length argv) ≤ INT_MAX ∧
  (authRequired s = true → Z.of_nat (length argv) ≤ 10) ∧ Forall (arg_ok master) argv.
Definition sendable : list string → Prop := acceptable false.

(** The buffer holds less than the whole of [text]. *)
Definition partial (c : client) (text : string) : Prop :=
  (String.length (unread c) ≤ String.length text)%nat.

Lemma bulk_in_request a req : a ∈ req →
  (String.length (bulk a) ≤ String.length (resp_request req))%nat.
Proof.
  intros Ha. unfold resp_request. fold (arguments req). rewrite !string_length_app.
  assert (String.length (bulk a) ≤ String.length (arguments req))%nat; [|lia].
  induction Ha as [a l|a b l _ IH]; cbn [arguments foldr]; fold (arguments l);
    rewrite string_length_app; lia.
Qed.

Lemma unread_align c ll : unread (align_big_arg c ll) = unread c.
Proof. unfold align_big_arg. by case_match. Qed.

(** The length of an argument: read, or not complete. *)
Lemma read_bulklen_spec c a future tail : arg_ok (is_master c) a →
  unread c +:+ future = bulk a +:+ tail →
  (read_bulklen server s c = mret (c, false) ∧ (String.length tail < String.length future)%nat ∧
   partial c (bulk a)) ∨
  (∃ buf pos,
     read_bulklen server s c =
       mret (mkClient buf pos (reqtype c) (argv c) (multibulklen c) (len a) (closing c) (blocked c) (link c), true) ∧
     sdrop pos buf +:+ future = a +:+ CRLF +:+ tail).
Proof.
  intros (Hmax & Hll & Hauth). unfold bulk. rewrite <- !string_app_assoc. intros Hu.
  destruct (line_cases c "$" (String.length a)) with (future := future) (tail := a +:+ CRLF +:+ tail)
    as [(H1 & H2 & H3 & H4)|(H1 & H2 & H3 & H4)]; [done|done|by rewrite Hu| |].
  - left. split_and!; [unfold read_bulklen; by rewrite H1, H2|rewrite !string_length_app in H3; lia|].
    unfold partial, bulk. rewrite !string_length_app in *. cbn [String.length] in *. lia.
  - right. unfold read_bulklen. rewrite H1, H3, decide_False by (intros Hne; by apply Hne).
    rewrite H2. fold (len a).
    destruct (Z.ltb_spec (len a) 0); [unfold len in *; lia|].
    cbn [orb]. replace (negb (is_master c) && (proto_max_bulk_len server <? len a)) with false.
    2:{ symmetry. destruct (is_master c); [done|]. apply Z.ltb_ge. by apply Hmax. }
    replace ((16384 <? len a) && authRequired s) with false.
    2:{ symmetry. destruct (authRequired s); [|by rewrite andb_false_r].
        rewrite andb_true_r. apply Z.ltb_ge. by apply Hauth. }
    set (c1 := align_big_arg _ _).
    exists (querybuf c1), (qb_pos c1). split.
    + unfold c1, align_big_arg. by case_match.
    + change (sdrop (qb_pos c1) (querybuf c1)) with (unread c1). unfold c1. by rewrite unread_align.
Qed.

Lemma read_bulk_complete c a z : bulklen c = len a → unread c = a +:+ CRLF +:+ z →
  ∃ buf pos, read_bulk c =
    (mkClient buf pos (reqtype c) (argv c ++ [a]) (multibulklen c - 1) (-1) (closing c) (blocked c) (link c), true) ∧
    sdrop pos buf = z.
Proof.
  intros Hb Hu. unfold read_bulk. rewrite Hb, Hu.
  destruct (Z.ltb_spec (len (a +:+ CRLF +:+ z)) (len a + 2)) as [Hl|_].
  { unfold len in Hl. rewrite !string_length_app in Hl. cbn [CRLF String.length] in Hl. lia. }
  destruct (_ && _) eqn:Hbig.
  - apply andb_true_iff in Hbig as [[[_ Hp]%andb_true_iff _]%andb_true_iff Hl%Z.eqb_eq]. apply bool_decide_eq_true in Hp.
    exists EmptyString, 0%nat. cbn. unfold unread in Hu. rewrite Hp in *. cbn [sdrop] in Hu.
    rewrite Hu in *. unfold len in Hl. rewrite !string_length_app in *. cbn [CRLF String.length] in *.
    replace (String.length a + (2 + String.length z) - 2)%nat with (String.length a) by lia.
    rewrite stake_app. split; [done|]. symmetry. apply string_length_zero. lia.
  - exists (querybuf c), (qb_pos c + (String.length a + 2))%nat. split.
    + unfold len. rewrite Nat2Z.id, stake_app.
      by replace (Z.to_nat (Z.of_nat (String.length a) + 2)) with (String.length a + 2)%nat by lia.
    + rewrite <- sdrop_sdrop. fold (unread c). rewrite Hu, string_app_assoc.
      replace (String.length a + 2)%nat with (String.length (a +:+ CRLF))
        by (rewrite string_length_app; done).
      apply sdrop_app.
Qed.

(** The bytes of an argument: taken, copied or not, or not all there. *)
Lemma read_bulk_spec c a future tail : bulklen c = len a →
  unread c +:+ future = a +:+ CRLF +:+ tail →
  (read_bulk c = (c, false) ∧ (String.length tail < String.length future)%nat ∧ partial c (bulk a)) ∨
  (∃ buf pos, read_bulk c =
     (mkClient buf pos (reqtype c) (argv c ++ [a]) (multibulklen c - 1) (-1) (closing c) (blocked c) (link c), true) ∧
     sdrop pos buf +:+ future = tail).
Proof.
  intros Hb. rewrite string_app_assoc. intros Hu.
  destruct (string_split _ _ _ _ Hu) as [([|d z] & Hz & ->)|(z & _ & Hz & ->)].
  - right. rewrite string_app_nil_r in Hz.
    destruct (read_bulk_complete c a EmptyString Hb) as (buf & pos & Hr & Hp);
      [by rewrite string_app_nil_r, <- Hz|]. exists buf, pos. by rewrite Hr, Hp.
  - left. apply (f_equal String.length) in Hz. rewrite !string_length_app in Hz.
    cbn [CRLF String.length] in Hz. split_and!; [|rewrite string_length_app; cbn; lia|].
    + unfold read_bulk. rewrite Hb.
      destruct (Z.ltb_spec (len (unread c)) (len a + 2)); [done|unfold len in *; lia].
    + unfold partial, bulk. rewrite !string_length_app. cbn [CRLF String.length]. lia.
  - right. destruct (read_bulk_complete c a z Hb) as (buf & pos & Hr & Hp);
      [by rewrite Hz, string_app_assoc|]. exists buf, pos. by rewrite Hr, Hp.
Qed.

(** In the middle of the request [req], which [tail] follows. *)
Inductive waiting (c : client) (req : list string) (future tail : string) : Prop :=
| waiting_length args : req = argv c ++ args → Forall (arg_ok (is_master c)) args →
    multibulklen c = Z.of_nat (length args) → bulklen c = -1 →
    unread c +:+ future = arguments args +:+ tail → waiting c req future tail
| waiting_bytes a args : req = argv c ++ a :: args → Forall (arg_ok (is_master c)) args →
    multibulklen c = Z.of_nat (S (length args)) → bulklen c = len a →
    unread c +:+ future = a +:+ CRLF +:+ arguments args +:+ tail → waiting c req future tail.

Definition finished (c : client) (req : list string) (future tail : string)
    (res : cmd (client * bool)) : Prop :=
  ∃ buf pos, res = mret (mkClient buf pos (reqtype c) req 0 (-1) (closing c) (blocked c) (link c), true) ∧
    sdrop pos buf +:+ future = tail.

Definition unfinished (c : client) (req : list string) (future tail : string)
    (res : cmd (client * bool)) : Prop :=
  ∃ c', res = mret (c', false) ∧ waiting c' req future tail ∧
    (String.length tail < String.length future)%nat ∧
    0 < multibulklen c' ∧ reqtype c' = reqtype c ∧ closing c' = closing c ∧ blocked c' = blocked c ∧
    partial c' (resp_request req).

Lemma read_arguments_spec n c req future tail : waiting c req future tail →
  multibulklen c = Z.of_nat n →
  finished c req future tail (read_arguments server s n c) ∨
  unfinished c req future tail (read_arguments server s n c).
Proof.
  revert c. induction n as [|n IH]; intros c Hw Hn.
  { left. destruct Hw as [args -> _ Hm Hb Hu|a args _ _ Hm _ _]; [|lia].
    assert (args = []) as -> by (destruct args; [done|cbn in *; lia]).
    exists (querybuf c), (qb_pos c). rewrite app_nil_r. split; [|done].
    destruct c; cbn in *. by subst. }
  assert (∀ c a args, req = argv c ++ a :: args → Forall (arg_ok (is_master c)) args → length args = n →
    multibulklen c = Z.of_nat (S n) → bulklen c = len a →
    unread c +:+ future = a +:+ CRLF +:+ arguments args +:+ tail →
    let res := let '(c, complete) := read_bulk c in
      if negb complete then mret (c, false) else read_arguments server s n c in
    finished c req future tail res ∨ unfinished c req future tail res) as Hbytes.
  { clear c Hw Hn. intros c a args -> Ha Hl Hm Hb Hu.
    destruct (read_bulk_spec c a future _ Hb Hu) as [(-> & Hf & Hl')|(buf & pos & -> & Hp)]; cbn [negb].
    - rewrite string_length_app in Hf. right. exists c. split_and!; [done| |lia|lia|done|done|done|].
      2:{ eapply Nat.le_trans; [exact Hl'|]. apply bulk_in_request. set_solver. }
      apply (waiting_bytes _ _ _ _ a args); [done..|by rewrite Hl|done|done].
    - edestruct (IH (mkClient buf pos (reqtype c) (argv c ++ [a]) (multibulklen c - 1) (-1) (closing c) (blocked c) (link c)))
        as [H|H]; [|cbn; lia|by left|by right].
      apply (waiting_length _ _ _ _ args); [|done|cbn; lia|done|done].
      cbn. by rewrite <- (assoc_L (++)). }
  destruct Hw as [args -> Hok Hm Hb Hu|a args -> Hok Hm Hb Hu]; cbn [read_arguments].
  - destruct args as [|a args]; [cbn in *; lia|]. apply Forall_cons in Hok as [Ha Hok].
    rewrite Hb. cbn [Z.eqb Pos.eqb]. cbn [arguments foldr] in Hu. fold (arguments args) in Hu.
    rewrite <- string_app_assoc in Hu.
    destruct (read_bulklen_spec c a future _ Ha Hu) as [(-> & Hf & Hl')|(buf & pos & -> & Hp)].
    + rewrite string_length_app in Hf. right. exists c. split_and!; [done| |lia|lia|done|done|done|].
      2:{ eapply Nat.le_trans; [exact Hl'|]. apply bulk_in_request. set_solver. }
      apply (waiting_length _ _ _ _ (a :: args)); [done|by constructor|done|done|].
      cbn [arguments foldr]. fold (arguments args). by rewrite <- string_app_assoc.
    + edestruct (Hbytes (mkClient buf pos (reqtype c) (argv c) (multibulklen c) (len a) (closing c) (blocked c) (link c)))
        as [H|H]; [done|done|cbn in *; lia|cbn in *; lia|done|exact Hp|by left|by right].
  - assert ((bulklen c =? -1) = false) as ->.
    { apply Z.eqb_neq. rewrite Hb. unfold len. lia. }
    apply (Hbytes c a args); [done|done|lia|lia|done|done].
Qed.

(** Before the request [req]. *)
Lemma read_multibulklen_spec c req future tail : acceptable (is_master c) req → argv c = [] →
  unread c +:+ future = resp_request req +:+ tail →
  (read_multibulklen s c = mret (c, Some false) ∧ (String.length tail < String.length future)%nat ∧
   partial c (resp_request req)) ∨
  (∃ buf pos, read_multibulklen s c =
     mret (mkClient buf pos (reqtype c) [] (Z.of_nat (length req)) (bulklen c) (closing c) (blocked c) (link c), None) ∧
     sdrop pos buf +:+ future = arguments req +:+ tail).
Proof.
  intros (Hne & Hmax & Hauth & _) Hargv. unfold resp_request. fold (arguments req).
  rewrite <- !string_app_assoc. intros Hu. unfold read_multibulklen.
  rewrite (bool_decide_true (argv c = [])) by done. cbn [serverAssert].
  change (mret () ≫= ?f) with (f ()).
  destruct (line_cases c "*" (length req)) with (future := future) (tail := arguments req +:+ tail)
    as [(H1 & H2 & H3 & H4)|(H1 & H2 & H3 & H4)];
    [done|unfold INT_MAX, LLONG_MAX in *; lia|by rewrite Hu| |].
  - left. split_and!; [by rewrite H1, H2|rewrite string_length_app in H3; lia|].
    unfold partial, resp_request. rewrite !string_length_app in *. cbn [String.length] in *. lia.
  - right. rewrite H1, H3. rewrite bool_decide_true by done. cbn [serverAssert].
    change (mret () ≫= ?f) with (f ()). cbn beta. rewrite H2.
    destruct (Z.ltb_spec INT_MAX (Z.of_nat (length req))); [lia|].
    replace ((10 <? Z.of_nat (length req)) && authRequired s) with false.
    2:{ symmetry. destruct (authRequired s); [|by rewrite andb_false_r].
        rewrite andb_true_r. apply Z.ltb_ge. by apply Hauth. }
    destruct (Z.leb_spec (Z.of_nat (length req)) 0) as [Hle|_]; [by destruct req; cbn in Hle; try lia|].
    eexists (querybuf c), _. split; [reflexivity|done].
Qed.

(** The parser between two rounds of the input loop: between requests, or in
    the middle of one; [reqs] are the requests still to be executed. *)
Inductive pending (c : client) (future : string) : list (list string) → Prop :=
| pending_idle reqs : reqtype c = PROTO_REQ_NONE ∨ reqtype c = PROTO_REQ_MULTIBULK ∧ reqs ≠ [] →
    argv c = [] → multibulklen c = 0 → bulklen c = -1 → closing c = NotClosing → blocked c = false →
    unread c +:+ future = wire reqs → pending c future reqs
| pending_request req reqs : reqtype c = PROTO_REQ_MULTIBULK → 0 < multibulklen c → closing c = NotClosing →
    blocked c = false → req ≠ [] → waiting c req future (wire reqs) → pending c future (req :: reqs).

Definition next_request (l : option master_link) (req : list string) (reqs : list (list string))
    (future : string) (res : cmd (client * bool)) : Prop :=
  (∃ buf pos, res = mret (mkClient buf pos PROTO_REQ_MULTIBULK req 0 (-1) NotClosing false l, true) ∧
     sdrop pos buf +:+ future = wire reqs) ∨
  (∃ c', res = mret (c', false) ∧ pending c' future (req :: reqs) ∧
     (String.length (wire reqs) < String.length future)%nat ∧ partial c' (resp_request req)).

Lemma rest_of_request c req reqs future : reqtype c = PROTO_REQ_MULTIBULK → closing c = NotClosing →
  blocked c = false → 0 < multibulklen c → req ≠ [] → waiting c req future (wire reqs) →
  next_request (link c) req reqs future
    (serverAssert (0 <? multibulklen c);; read_arguments server s (Z.to_nat (multibulklen c)) c).
Proof.
  intros Ht Hc Hbl Hm Hne Hw. rewrite (proj2 (Z.ltb_lt _ _) Hm). cbn [serverAssert].
  change (mret () ≫= ?f) with (f ()). cbn beta.
  destruct (read_arguments_spec (Z.to_nat (multibulklen c)) c req future (wire reqs) Hw)
    as [(buf & pos & -> & Hp)|(c' & -> & Hw' & Hf & Hm' & Ht' & Hc' & Hbl' & Hl)]; [lia| |].
  - left. exists buf, pos. by rewrite Ht, Hc, Hbl.
  - right. exists c'. split_and!; [done| |done|done]. apply pending_request; congruence.
Qed.

Lemma read_request_spec c req reqs future : acceptable (is_master c) req → pending c future (req :: reqs) →
  unread c ≠ EmptyString →
  next_request (link c) req reqs future (read_request server s (request_type c)).
Proof.
  intros Hok Hp Hne. inversion Hp as [reqs' Ht Ha Hm Hb Hc Hbl Hu|req' reqs' Ht Hm Hc Hbl Hreq Hw]; subst.
  - assert (read_request server s (request_type c) =
      processMultibulkBuffer server s (set_reqtype c PROTO_REQ_MULTIBULK)) as ->.
    { unfold request_type, read_request. destruct Ht as [Ht|[Ht _]]; rewrite Ht.
      - rewrite decide_True by done. rewrite bool_decide_true; [done|].
        cbn [wire foldr] in Hu. unfold resp_request in Hu. destruct (unread c) as [|d u]; [done|].
        by injection Hu as -> _.
      - rewrite decide_False, Ht by done. destruct c; cbn in *. by subst. }
    set (c1 := set_reqtype c PROTO_REQ_MULTIBULK).
    unfold processMultibulkBuffer. change (multibulklen c1) with (multibulklen c). rewrite Hm.
    cbn [Z.eqb].
    destruct (read_multibulklen_spec c1 req future (wire reqs) Hok Ha Hu)
      as [(-> & Hf & Hl)|(buf & pos & -> & Hpos)].
    + right. exists c1. split_and!; [done| |done|done]. apply pending_idle; try done. by right.
    + change (mret ?x ≫= ?f) with (f x). cbn beta iota.
      refine (rest_of_request (mkClient buf pos _ _ _ _ _ _ (link c)) _ _ _ _ _ _ _ _ _); try done.
      * cbn. destruct Hok as [Hreq _]. destruct req; [done|cbn; lia].
      * apply Hok.
      * apply (waiting_length _ _ _ _ req); try done. apply Hok.
  - assert (request_type c = c) as ->.
    { unfold request_type. by rewrite decide_False by congruence. }
    unfold read_request, processMultibulkBuffer. rewrite Ht.
    destruct (Z.eqb_spec (multibulklen c) 0); [lia|].
    by apply rest_of_request.
Qed.

(** A request is not empty on the wire, nor is the rest of one. *)
Lemma pending_length c future req reqs : pending c future (req :: reqs) →
  (String.length (wire reqs) < String.length (unread c +:+ future))%nat.
Proof.
  inversion 1 as [reqs' _ _ _ _ _ _ Hu|req' reqs' _ Hm _ _ _ Hw]; subst.
  - rewrite Hu. cbn [wire foldr]. fold (wire reqs). rewrite string_length_app. cbn. lia.
  - destruct Hw as [args _ _ Hl _ ->|a args _ _ _ _ ->].
    + destruct args as [|a args]; [cbn in Hl; lia|]. cbn [arguments foldr].
      rewrite !string_length_app. cbn. lia.
    + rewrite !string_length_app. cbn [CRLF String.length]. lia.
Qed.

Lemma pending_none c future : pending c future [] → unread c = EmptyString ∧ future = EmptyString.
Proof.
  intros Hp. inversion Hp as [reqs' ? ? ? ? ? ? Hu|]; subst. by destruct (unread c), future.
Qed.
End reading.

(** ** Progress

    On any bytes, well formed or not, a round that does not end the loop
    consumes some of them, so that the fuel of [processInputBuffer] is
    enough. *)

Section progress.
Context (server : environ) (s : standing).

Definition left_over (c : client) : nat := String.length (unread c).

Lemma left_over_buf c buf pos : left_over (set_buf c buf pos) = (String.length buf - pos)%nat.
Proof. unfold left_over, unread. apply sdrop_length. Qed.

Lemma left_over_eq c : left_over c = (String.length (querybuf c) - qb_pos c)%nat.
Proof. apply sdrop_length. Qed.

Lemma strchr_length t ch r : strchr t ch = Some r → (0 < String.length r ≤ String.length t)%nat.
Proof.
  induction t as [|d t IH]; cbn; [done|]. case_decide; [intros [= <-]; cbn; lia|].
  intros ?%IH. lia.
Qed.

Lemma c_str_length t : (String.length (c_str t) ≤ String.length t)%nat.
Proof. induction t as [|d t IH]; cbn; [lia|]. case_decide; cbn; lia. Qed.

Lemma find_char_lt t ch n : find_char t ch = Some n → (n < String.length t)%nat.
Proof.
  unfold find_char. destruct (strchr _ _) as [r|] eqn:Hr; [|done]. intros [= <-].
  apply strchr_length in Hr. pose proof (c_str_length t). lia.
Qed.

(** A protocol error only marks the client. *)
Lemma protocol_error_result c err σ c' b σ' :
  protocol_error c err σ = Some ((c', b), σ') → c' = setProtocolError c ∧ b = false.
Proof. unfold protocol_error. destruct (is_master c); by intros [= <- <- _]. Qed.

Lemma protocol_error_returns c err σ c' r σ' :
  ('(c, ok) ← protocol_error c err; mret (c, Some ok)) σ = Some ((c', r), σ') →
  c' = setProtocolError c ∧ r = Some false.
Proof. unfold protocol_error. destruct (is_master c); by intros [= <- <- _]. Qed.

Ltac no_protocol_error :=
  match goal with
  | |- protocol_error ?c ?e ?σ = Some ((?c', true), ?σ') → _ =>
      intros []%protocol_error_result; discriminate
  | |- mret (_, false) _ = Some ((_, true), _) → _ => discriminate
  end.

Lemma inline_progress c c' σ σ' : processInlineBuffer c σ = Some ((c', true), σ') →
  (left_over c' < left_over c)%nat ∧ bulklen c' = bulklen c.
Proof.
  unfold processInlineBuffer. destruct (find_char _ _) as [n|] eqn:Hn; [|destruct (_ <? _); no_protocol_error].
  apply find_char_lt in Hn. fold (left_over c) in Hn.
  destruct (if _ && _ then _ else _) as [q l] eqn:Hql.
  assert (0 < l)%nat by (destruct (_ && _); injection Hql; lia).
  destruct (sdssplitargs _); [|no_protocol_error]. destruct (_ && is_master c); [done|].
  intros [= <- <-]. split; [|done].
  rewrite !left_over_eq in *. cbn. lia.
Qed.

Lemma complete_line_left c n : complete_line c = Some n → (n + 2 ≤ left_over c)%nat.
Proof.
  unfold complete_line. destruct (find_char _ _) as [m|]; cbn; [|done].
  destruct (Z.ltb_spec (len (unread c) - 2) (Z.of_nat m)); [done|]. intros [= ->].
  unfold left_over, len in *. lia.
Qed.

Lemma past_line_left c n : left_over (past_line c n) = (left_over c - (n + 2))%nat.
Proof. unfold past_line. rewrite left_over_buf, left_over_eq. lia. Qed.

Lemma read_bulklen_progress c c' σ σ' : read_bulklen server s c σ = Some ((c', true), σ') →
  (left_over c' ≤ left_over c)%nat ∧ 0 ≤ bulklen c'.
Proof.
  unfold read_bulklen. destruct (complete_line c) as [n|]; [|destruct (endless_line c); no_protocol_error].
  destruct (String.get 0 _) as [ch|]; [|done]. case_decide; [no_protocol_error|].
  destruct (line_number c n) as [ll|]; [|no_protocol_error].
  destruct (Z.ltb_spec ll 0); cbn [orb]; [no_protocol_error|]. case_match; [no_protocol_error|].
  case_match; [no_protocol_error|]. intros [= <- <-]. split; [|done].
  change (left_over (set_bulklen ?c _)) with (left_over c).
  unfold left_over. rewrite unread_align. fold (left_over (past_line c n)) (left_over c).
  rewrite past_line_left. lia.
Qed.

Lemma read_bulk_progress c c' : -1 ≤ bulklen c → read_bulk c = (c', true) →
  (left_over c' < left_over c)%nat ∧ bulklen c' = -1.
Proof.
  intros Hb. unfold read_bulk. destruct (Z.ltb_spec (len (unread c)) (bulklen c + 2)) as [|Hl]; [done|].
  unfold len in Hl. fold (left_over c) in Hl. destruct (_ && _); intros [= <-]; split; try done.
  - rewrite left_over_eq. cbn. lia.
  - rewrite !left_over_eq in *. cbn. lia.
Qed.

Lemma read_arguments_progress n c c' σ σ' : -1 ≤ bulklen c →
  read_arguments server s n c σ = Some ((c', true), σ') →
  (left_over c' + Nat.min 1 n ≤ left_over c)%nat ∧ -1 ≤ bulklen c'.
Proof.
  revert c σ. induction n as [|n IH]; intros c σ Hb; cbn [read_arguments].
  { intros [= <- <-]. split; [lia|done]. }
  set (first := if bulklen c =? -1 then read_bulklen server s c else mret (c, true)).
  unfold mbind, cmd_bind. destruct (first σ) as [[[c1 []] σ1]|] eqn:H1; [|by intros [= ]|done].
  unfold first in H1.
  assert ((left_over c1 ≤ left_over c)%nat ∧ -1 ≤ bulklen c1) as [Hl1 Hb1].
  { destruct (bulklen c =? -1); [|injection H1 as <- <-; split; [lia|done]].
    apply read_bulklen_progress in H1. lia. }
  cbn [negb]. destruct (read_bulk c1) as [c2 []] eqn:H2; cbn [negb]; [|by intros [= ]].
  apply read_bulk_progress in H2 as [Hl2 Hb2]; [|done].
  intros H3. apply IH in H3 as [Hl3 Hb3]; [|lia]. split; [lia|done].
Qed.

Lemma read_multibulklen_progress c c' r σ σ' : read_multibulklen s c σ = Some ((c', r), σ') →
  r = Some false ∨ (left_over c' < left_over c)%nat ∧ bulklen c' = bulklen c.
Proof.
  unfold read_multibulklen, mbind, cmd_bind. destruct (serverAssert _ σ) as [[_ σ1]|]; [|done].
  destruct (complete_line c) as [n|] eqn:Hn.
  - apply complete_line_left in Hn. destruct (serverAssert _ σ1) as [[_ σ2]|]; [|done].
    destruct (line_number c n) as [ll|]; [|intros [_ ->]%protocol_error_returns; by left].
    destruct (_ <? _); [intros [_ ->]%protocol_error_returns; by left|].
    destruct (_ && _); [intros [_ ->]%protocol_error_returns; by left|].
    assert (left_over (past_line c n) < left_over c)%nat as Hl by (rewrite past_line_left; lia).
    destruct (ll <=? 0); intros [= <- <- <-]; right; by split.
  - destruct (endless_line c); [intros [_ ->]%protocol_error_returns|intros [= <- <- <-]]; by left.
Qed.

Lemma multibulk_progress c c' σ σ' : -1 ≤ bulklen c →
  processMultibulkBuffer server s c σ = Some ((c', true), σ') →
  (left_over c' < left_over c)%nat ∧ -1 ≤ bulklen c'.
Proof.
  intros Hb. unfold processMultibulkBuffer.
  set (first := if multibulklen c =? 0 then read_multibulklen s c else mret (c, None)).
  unfold mbind, cmd_bind. destruct (first σ) as [[[c1 r] σ1]|] eqn:H1; [|done]. unfold first in H1.
  assert (r = Some false ∨ (r = Some true → left_over c1 < left_over c)%nat ∧
    (left_over c1 ≤ left_over c)%nat ∧ bulklen c1 = bulklen c) as [->|(Hr & Hl & Hb1)];
    [|by intros [= ]|].
  { destruct (multibulklen c =? 0); [|injection H1 as <- <- <-; right; split_and!; [done|lia|done]].
    apply read_multibulklen_progress in H1 as [->|[]]; [by left|right; split_and!; [done|lia|done]]. }
  destruct r as [[]|]; [|by intros [= ]|].
  - intros [= <- <-]. split; [by apply Hr|lia].
  - unfold serverAssert. destruct (Z.ltb_spec 0 (multibulklen c1)); [|done].
    unfold mret, cmd_ret. intros H2. apply read_arguments_progress in H2 as [H2 Hb2]; [|lia].
    destruct (Z.to_nat (multibulklen c1)) eqn:?; [lia|]. lia.
Qed.

Lemma read_request_progress c c' σ σ' : -1 ≤ bulklen c →
  read_request server s (request_type c) σ = Some ((c', true), σ') →
  (left_over c' < left_over c)%nat ∧ -1 ≤ bulklen c'.
Proof.
  intros Hb. assert (left_over (request_type c) = left_over c ∧ bulklen (request_type c) = bulklen c)
    as [Hl Hb'] by (unfold request_type; by case_decide).
  unfold read_request. rewrite <- Hl. destruct (reqtype _); [done| |].
  - intros [? ?]%inline_progress. lia.
  - apply multibulk_progress. lia.
Qed.

Lemma commandProcessed_buffer c σ c' σ' : -1 ≤ bulklen c → commandProcessed c σ = Some (c', σ') →
  left_over c' = left_over c ∧ -1 ≤ bulklen c'.
Proof.
  intros Hb. unfold commandProcessed. destruct (blocked c); [by intros [= <- _]|].
  destruct (link _) as [l|]; [|by intros [= <- _]]. cbv zeta.
  destruct (_ =? 0); [by intros [= <- _]|]. destruct (_ || _); [done|]. by intros [= <- _].
Qed.

Lemma note_multi_buffer c : left_over (note_multi c) = left_over c ∧ bulklen (note_multi c) = bulklen c.
Proof. unfold note_multi. by destruct (link c). Qed.

Lemma input_loop_fuel processCommand n m c σ : -1 ≤ bulklen c →
  (left_over c < n)%nat → (left_over c < m)%nat →
  input_loop server s processCommand n c σ = input_loop server s processCommand m c σ.
Proof.
  revert m c σ. induction n as [|n IH]; intros [|m] c σ Hb Hn Hm; try lia. cbn [input_loop].
  destruct (_ <=? _)%nat; [done|]. destruct (blocked c); [done|]. destruct (close c); [done|].
  unfold mbind, cmd_bind. destruct (read_request _ _ _ σ) as [[[c1 []] σ1]|] eqn:H1; [|done|done].
  apply read_request_progress in H1 as [Hl Hb1]; [|done]. cbn [negb].
  set (exec := if decide (argv c1 = []) then _ else _).
  destruct (exec σ1) as [[c2 σ2]|] eqn:H2; [|done]. unfold exec in H2.
  assert (left_over c2 = left_over c1 ∧ -1 ≤ bulklen c2) as [Hl2 Hb2].
  { revert H2. case_decide; [by intros [= <- _]|]. unfold processCommandAndResetClient, mbind, cmd_bind.
    destruct (processCommand _ σ1) as [[[] ?]|]; [|done]. destruct (note_multi_buffer c1) as [<- Hbn].
    apply commandProcessed_buffer. lia. }
  apply IH; lia.
Qed.
End progress.
