(* ===== verification/NetworkingSpec.v ===== *)
(** * Requests that arrive

    What the parser and the input loop of [Networking] do with a stream of
    bytes.  On any bytes, the assertions of the parser hold, it keeps inside the
    buffer, and the offsets of the link to a master stay those of the buffer.
    On a stream of requests, the requests that are complete are executed, in
    order and once each, and for a master the offset says which they are. *)

From S2P Require Import Prelude CLib Buffers Hiredis Util Sds SetType Db DbRel Strings StringsSpec Server.
From S2P Require Import ServerRefine Networking.
From Stdlib Require Import Ascii.

(** ** Any bytes

    Whatever a client sends, the parser keeps inside the buffer, its assertions
    hold, and the offsets of a master stay what the buffer says. *)

(** What a connection makes the server do besides parsing: execute a command, or
    reply that the protocol is broken. *)
Inductive action : Type := Execute (argv : list string) | ErrorReply (err : string).

Fixpoint replay (processCommand : list string → cmd ()) (evs : list action) : cmd () :=
  match evs with
  | [] => mret tt
  | Execute argv :: evs => processCommand argv;; replay processCommand evs
  | ErrorReply err :: evs =>
      addReplyError ("Protocol error: " +:+ err);; replay processCommand evs
  end.

Lemma replay_app processCommand e e' σ :
  replay processCommand (e ++ e') σ = (replay processCommand e;; replay processCommand e') σ.
Proof.
  revert σ. induction e as [|[argv|err] e IH]; intros σ; [done|..]; cbn [app replay];
    unfold mbind, cmd_bind in *.
  - destruct (processCommand argv σ) as [[[] σ1]|]; [apply IH|done].
  - destruct (addReplyError _ σ) as [[[] σ1]|]; [apply IH|done].
Qed.

(** A command has a name, and nothing is written to a master. *)
Definition action_ok (master : bool) (ev : action) : Prop :=
  match ev with Execute argv => argv ≠ [] | ErrorReply _ => master = false end.

(** Whatever the commands do, [m] comes down to some events, which do not depend
    on what the commands do, and to a result of which [Q] holds. *)
Definition plays {A} (master : bool) (m : (list string → cmd ()) → cmd A) (Q : A → Prop) : Prop :=
  ∃ evs a, Forall (action_ok master) evs ∧ Q a ∧
    ∀ processCommand σ, m processCommand σ = (replay processCommand evs;; mret a) σ.

Lemma plays_ret {A} b (a : A) (Q : A → Prop) : Q a → plays b (λ _, mret a) Q.
Proof. intros H. by exists [], a. Qed.

Lemma plays_bind {A B} b (m : (list string → cmd ()) → cmd A) (f : (list string → cmd ()) → A → cmd B) P Q :
  plays b m P → (∀ a, P a → plays b (λ h, f h a) Q) → plays b (λ h, m h ≫= f h) Q.
Proof.
  intros (evs & a & Hok & Ha & Hm) Hf. destruct (Hf a Ha) as (evs' & a' & Hok' & Ha' & Hm').
  exists (evs ++ evs'), a'. split_and!; [by apply Forall_app|done|]. intros h σ.
  unfold mbind at 1, cmd_bind at 1. rewrite Hm. unfold mbind, cmd_bind. rewrite replay_app.
  unfold mbind, cmd_bind. destruct (replay h evs σ) as [[[] σ1]|]; [apply Hm'|done].
Qed.

Lemma plays_weaken {A} b (m : (list string → cmd ()) → cmd A) (P Q : A → Prop) :
  plays b m P → (∀ a, P a → Q a) → plays b m Q.
Proof. intros (evs & a & ? & ? & ?) HPQ. exists evs, a. auto. Qed.

Lemma plays_result {A} b (m : (list string → cmd ()) → cmd A) Q h σ a σ' :
  plays b m Q → m h σ = Some (a, σ') → Q a.
Proof.
  intros (evs & a' & _ & Ha & Hm) E. rewrite Hm in E. unfold mbind, cmd_bind in E.
  destruct (replay h evs σ) as [[[] σ1]|]; [|done]. by injection E as <- _.
Qed.

(** With commands that do nothing, it does end. *)
Lemma plays_ends {A} b (m : (list string → cmd ()) → cmd A) Q σ : plays b m Q →
  plays b m (λ a, Q a ∧ ∃ σ', m (λ _, mret tt) σ = Some (a, σ')).
Proof.
  intros (evs & a & Hok & Ha & Hm). exists evs, a. split_and!; [done|done| |done].
  enough (∃ σ', (replay (λ _, mret tt) evs;; mret a) σ = Some (a, σ')) as [σ' E] by
    (exists σ'; by rewrite Hm).
  clear. revert σ. induction evs as [|[argv|err] evs IH]; intros σ; [by exists σ|exact (IH _)..].
Qed.

(** What parsing does to the buffer: it goes forward, and what a master has
    sent stays. *)
Record moved_on (c c' : client) : Prop := {
  moved_link : link c' = link c;
  moved_blocked : blocked c' = blocked c;
  moved_inside : (qb_pos c ≤ String.length (querybuf c) → qb_pos c' ≤ String.length (querybuf c'))%nat;
  moved_master : is_master c = true → querybuf c' = querybuf c ∧ (qb_pos c ≤ qb_pos c')%nat;
}.

Lemma moved_on_same c c' : link c' = link c → blocked c' = blocked c → querybuf c' = querybuf c →
  qb_pos c' = qb_pos c → moved_on c c'.
Proof. intros Hl Hbl Hb Hq. split; [done|done|by rewrite Hb, Hq|intros _; rewrite Hb, Hq; by split]. Qed.

Lemma moved_on_master c c' : moved_on c c' → is_master c' = is_master c.
Proof. intros [Hl _ _ _]. unfold is_master. by rewrite Hl. Qed.

Lemma moved_on_trans c1 c2 c3 : moved_on c1 c2 → moved_on c2 c3 → moved_on c1 c3.
Proof.
  intros [H1 Hb1 H2 H3] [H4 Hb2 H5 H6]. split; [congruence|congruence|auto|].
  intros Hm. destruct H3 as [Hb Hq]; [done|].
  destruct H6 as [Hb' Hq']; [unfold is_master in *; by rewrite H1|]. split; [congruence|lia].
Qed.

Lemma moved_on_forward c n : (n ≤ left_over c)%nat → moved_on c (set_buf c (querybuf c) (qb_pos c + n)).
Proof. rewrite left_over_eq. intros H. split; cbn; [done|done|lia|intros _; split; [done|lia]]. Qed.

(** The state of the parser between two reads. *)
Record parse_ok (c : client) : Prop := {
  parse_bulklen : -1 ≤ bulklen c;
  parse_count : 0 ≤ multibulklen c;
  parse_start : multibulklen c = 0 → argv c = [];
  parse_star : multibulklen c = 0 → reqtype c = PROTO_REQ_MULTIBULK →
    String.get 0 (unread c) = Some "*"%char;
  parse_type : reqtype c ≠ PROTO_REQ_MULTIBULK → multibulklen c = 0;
}.

(** A round that does not complete a request closes the client or leaves the
    parser ready for more of it. *)
Definition parsed (c : client) (r : client * bool) : Prop :=
  moved_on c r.1 ∧ (r.2 = false → close r.1 = true ∨ parse_ok r.1).

Section any_bytes.
Context (server : environ) (s : standing).

Lemma protocol_error_plays c err : plays (is_master c) (λ _, protocol_error c err) (λ r, r = (setProtocolError c, false)).
Proof.
  unfold protocol_error. destruct (is_master c); [by eexists [], _|]. exists [ErrorReply err]. eexists.
  split_and!; [by repeat constructor|reflexivity|done].
Qed.

Lemma protocol_error_parsed c err : plays (is_master c) (λ _, protocol_error c err) (parsed c).
Proof.
  apply (plays_weaken _ _ _ _ (protocol_error_plays c err)). intros r ->.
  split; [by apply moved_on_same|by left].
Qed.

Lemma inline_parsed c : parse_ok c → plays (is_master c) (λ _, processInlineBuffer c) (parsed c).
Proof.
  intros Hc. unfold processInlineBuffer. destruct (find_char _ _) as [n|] eqn:Hn.
  - apply find_char_lt in Hn. fold (left_over c) in Hn.
    destruct (if _ && _ then _ else _) as [q l] eqn:Hql.
    assert (q + l ≤ left_over c)%nat.
    { destruct (bool_decide (n ≠ 0%nat)) eqn:H0; [|injection Hql; lia].
      apply bool_decide_eq_true in H0. destruct (bool_decide _); injection Hql; lia. }
    destruct (sdssplitargs _); [|apply protocol_error_parsed].
    destruct (_ && is_master c); apply plays_ret; (split; [|by left]).
    + by apply moved_on_same.
    + apply (moved_on_trans _ (set_buf c (querybuf c) (qb_pos c + (q + l))));
        [by apply moved_on_forward|by apply moved_on_same].
  - destruct (_ <? _); [apply protocol_error_parsed|]. apply plays_ret.
    split; [by apply moved_on_same|by right].
Qed.

Lemma moved_on_past_line c n : complete_line c = Some n → moved_on c (past_line c n).
Proof.
  intros H%complete_line_left. unfold past_line. rewrite <- Nat.add_assoc. by apply moved_on_forward.
Qed.

Lemma moved_on_align c ll : moved_on c (align_big_arg c ll).
Proof.
  unfold align_big_arg. destruct (is_master c) eqn:Hm; [by apply moved_on_same|]. cbn [negb andb].
  case_match; [|by apply moved_on_same]. split; cbn; [done|done|lia|congruence].
Qed.

(** In the middle of a request. *)
Record halfway (c c' : client) : Prop := {
  halfway_moved : moved_on c c';
  halfway_bulklen : -1 ≤ bulklen c';
  halfway_type : reqtype c' = reqtype c;
}.

Lemma read_bulklen_halfway c : -1 ≤ bulklen c → plays (is_master c) (λ _, read_bulklen server s c) (λ r,
  (r.2 = false ∧ moved_on c r.1 ∧ close r.1 = true) ∨
  halfway c r.1 ∧ multibulklen r.1 = multibulklen c).
Proof.
  intros Hb. unfold read_bulklen.
  assert (∀ err, plays (is_master c) (λ _, protocol_error c err) (λ r,
    (r.2 = false ∧ moved_on c r.1 ∧ close r.1 = true) ∨
    halfway c r.1 ∧ multibulklen r.1 = multibulklen c)) as Herr.
  { intros err. apply (plays_weaken _ _ _ _ (protocol_error_plays c err)). intros r ->.
    left. split_and!; [done|by apply moved_on_same|done]. }
  destruct (complete_line c) as [n|] eqn:Hn.
  2:{ destruct (endless_line c); [apply Herr|]. apply plays_ret. right.
      split; [|done]. split; [by apply moved_on_same|done|done]. }
  destruct (String.get 0 (unread c)) as [ch|] eqn:Hget.
  2:{ apply complete_line_left in Hn. unfold left_over in Hn. destruct (unread c); cbn in *; [lia|done]. }
  case_decide; [apply Herr|]. destruct (line_number c n) as [ll|]; [|apply Herr].
  destruct (Z.ltb_spec ll 0); cbn [orb]; [apply Herr|]. case_match; [apply Herr|].
  case_match; [apply Herr|]. apply plays_ret. right. set (c1 := align_big_arg _ _).
  assert (moved_on c c1 ∧ reqtype c1 = reqtype c ∧ multibulklen c1 = multibulklen c) as (Hm & Ht & Hl).
  { split; [apply (moved_on_trans _ _ _ (moved_on_past_line c n Hn)), moved_on_align|].
    unfold c1, align_big_arg. by case_match. }
  split; [|done]. split; [|cbn; lia|done]. apply (moved_on_trans _ _ _ Hm). by apply moved_on_same.
Qed.

Lemma read_bulk_halfway c : -1 ≤ bulklen c → read_bulk c = (c, false) ∨
  ∃ c', read_bulk c = (c', true) ∧ halfway c c' ∧ multibulklen c' = multibulklen c - 1.
Proof.
  intros Hb. unfold read_bulk. destruct (Z.ltb_spec (len (unread c)) (bulklen c + 2)) as [|Hl]; [by left|].
  right. eexists. split; [reflexivity|].
  destruct (is_master c) eqn:Hm; cbn [negb andb].
  2: destruct (_ && _ && _) eqn:Hbig.
  2:{ apply andb_true_iff in Hbig as [[Hq%bool_decide_eq_true _]%andb_true_iff _].
      split; [|done]. split; [|done|done]. split; cbn; [done|done|lia|congruence]. }
  all: split; [split; [|cbn; lia|done]|done].
  all: apply (moved_on_trans _ (set_buf c (querybuf c) (qb_pos c + Z.to_nat (bulklen c + 2))));
    [|by apply moved_on_same].
  all: apply moved_on_forward; unfold left_over, len in *; lia.
Qed.

Lemma read_arguments_parsed n c : -1 ≤ bulklen c → multibulklen c = Z.of_nat n →
  plays (is_master c) (λ _, read_arguments server s n c) (λ r, moved_on c r.1 ∧ (r.2 = false →
    close r.1 = true ∨ 0 < multibulklen r.1 ∧ -1 ≤ bulklen r.1 ∧ reqtype r.1 = reqtype c)).
Proof.
  revert c. induction n as [|n IH]; intros c Hb Hn; cbn [read_arguments].
  { apply plays_ret. split; [by apply moved_on_same|done]. }
  eapply plays_bind.
  { destruct (bulklen c =? -1); [by apply read_bulklen_halfway|].
    apply plays_ret. right. split; [|done]. split; [by apply moved_on_same|done|done]. }
  intros [c1 known] [(Hk & Hm & Hc)|[[Hm Hb1 Ht] Hl]]; cbn in *.
  { subst known. apply plays_ret. split; [done|by left]. }
  destruct known; cbn [negb].
  2:{ apply plays_ret. split; [done|]. intros _. right. split_and!; [cbn; lia|done|done]. }
  destruct (read_bulk_halfway c1 Hb1) as [->|(c2 & -> & [Hm2 Hb2 Ht2] & Hl2)]; cbn [negb].
  { apply plays_ret. split; [done|]. intros _. right. split_and!; [cbn; lia|done|done]. }
  rewrite <- (moved_on_master _ _ Hm), <- (moved_on_master _ _ Hm2).
  eapply plays_weaken; [apply (IH c2 Hb2); lia|]. intros [c3 b] [Hm3 H3]; cbn in *.
  split; [by eauto using moved_on_trans|]. intros Hf. destruct (H3 Hf) as [?|(?&?&?)]; [by left|].
  right. split_and!; [done|done|congruence].
Qed.

Lemma read_multibulklen_parsed c : parse_ok c → multibulklen c = 0 → reqtype c = PROTO_REQ_MULTIBULK →
  plays (is_master c) (λ _, read_multibulklen s c) (λ r,
    (r.2 = Some false ∧ parsed c (r.1, false)) ∨ (r.2 = Some true ∧ moved_on c r.1) ∨
    (r.2 = None ∧ moved_on c r.1 ∧ 0 < multibulklen r.1 ∧ bulklen r.1 = bulklen c ∧
     reqtype r.1 = reqtype c)).
Proof.
  intros Hc H0 Ht. unfold read_multibulklen. rewrite (parse_start _ Hc H0), (parse_star _ Hc H0 Ht).
  rewrite bool_decide_true by done. cbn [serverAssert]. change (mret () ≫= ?f) with (f ()).
  assert (∀ err, plays (is_master c) (λ _, '(c', ok) ← protocol_error c err; mret (c', Some ok)) (λ r,
    (r.2 = Some false ∧ parsed c (r.1, false)) ∨ (r.2 = Some true ∧ moved_on c r.1) ∨
    (r.2 = None ∧ moved_on c r.1 ∧ 0 < multibulklen r.1 ∧ bulklen r.1 = bulklen c ∧
     reqtype r.1 = reqtype c))) as Herr.
  { intros err. eapply plays_bind; [apply protocol_error_plays|]. intros r ->.
    apply plays_ret. left. split; [done|]. split; [by apply moved_on_same|by left]. }
  destruct (complete_line c) as [n|] eqn:Hn.
  - rewrite bool_decide_true by done. cbn [serverAssert]. change (mret () ≫= ?f) with (f ()). cbn beta.
    destruct (line_number c n) as [ll|]; [|apply Herr]. destruct (_ <? _); [apply Herr|].
    destruct (_ && _); [apply Herr|]. pose proof (moved_on_past_line c n Hn) as Hm.
    destruct (Z.leb_spec ll 0); apply plays_ret; right; [by left|]. right.
    split_and!; [done| |done|done|done]. apply (moved_on_trans _ _ _ Hm). by apply moved_on_same.
  - destruct (endless_line c); [apply Herr|]. apply plays_ret. left. split; [done|].
    split; [by apply moved_on_same|by right].
Qed.

Lemma multibulk_parsed c : parse_ok c → reqtype c = PROTO_REQ_MULTIBULK →
  plays (is_master c) (λ _, processMultibulkBuffer server s c) (parsed c).
Proof.
  intros Hc Ht. unfold processMultibulkBuffer.
  assert (∀ c', moved_on c c' → 0 < multibulklen c' → -1 ≤ bulklen c' → reqtype c' = reqtype c →
    plays (is_master c) (λ _, serverAssert (0 <? multibulklen c');; read_arguments server s (Z.to_nat (multibulklen c')) c')
      (parsed c)) as Hargs.
  { intros c' Hm Hl Hb Ht'. rewrite (proj2 (Z.ltb_lt _ _) Hl). cbn [serverAssert].
    change (mret () ≫= ?f) with (f ()). cbn beta.
    rewrite <- (moved_on_master _ _ Hm).
    eapply plays_weaken; [by apply read_arguments_parsed; [|lia]|]. intros [c2 b] [Hm2 H2].
    split; [by eapply moved_on_trans|]. intros Hf. destruct (H2 Hf) as [?|(?&?&?)]; [by left|].
    right. cbn in *. split; [done|lia|lia|lia|congruence]. }
  destruct (Z.eqb_spec (multibulklen c) 0) as [H0|H0].
  - eapply plays_bind; [by apply read_multibulklen_parsed|].
    intros [c1 r] [[Hr Hp]|[[Hr Hm]|(Hr & Hm & Hl & Hb & Ht')]]; cbn in *; subst r.
    + by apply plays_ret.
    + apply plays_ret. by split.
    + pose proof (parse_bulklen _ Hc). apply Hargs; [done|done|lia|done].
  - change (mret ?x ≫= ?f) with (f x). cbn beta iota.
    pose proof (parse_count _ Hc). apply Hargs; [by apply moved_on_same|lia|by apply Hc|done].
Qed.

Lemma request_type_ok c : parse_ok c → (qb_pos c < String.length (querybuf c))%nat →
  parse_ok (request_type c) ∧ reqtype (request_type c) ≠ PROTO_REQ_NONE.
Proof.
  intros [H1 H2 H3 H4 H5] Hq. unfold request_type. case_decide as Ht; [|by split].
  rewrite Ht in H5. specialize (H5 ltac:(done)). case_bool_decide; split; try done; by constructor.
Qed.

Lemma read_request_parsed c : parse_ok c → (qb_pos c < String.length (querybuf c))%nat →
  plays (is_master c) (λ _, read_request server s (request_type c)) (parsed c).
Proof.
  intros Hc Hq. destruct (request_type_ok c Hc Hq) as [Hok Ht].
  assert (is_master (request_type c) = is_master c) as <- by (unfold request_type; by case_decide).
  eapply plays_weaken with (P := parsed (request_type c)).
  - unfold read_request. destruct (reqtype _) eqn:E; [done|by apply inline_parsed|by apply multibulk_parsed].
  - intros r [Hm Hr]. split; [|done]. eapply moved_on_trans; [|exact Hm].
    apply moved_on_same; unfold request_type; by case_decide.
Qed.
End any_bytes.

(** ** The link to a master

    The offsets are those of the buffer: what precedes it has been applied and
    passed on, and so has its prefix of length [repl_applied]. *)
Record link_ok (c : client) : Prop := {
  link_inside : (qb_pos c ≤ String.length (querybuf c))%nat;
  link_applied l : link c = Some l → (repl_applied l ≤ qb_pos c)%nat;
  link_offset l : link c = Some l →
    reploff l = read_reploff l - len (querybuf c) + Z.of_nat (repl_applied l);
}.

(** What the master has sent: what is applied, and what is in the buffer. *)
Definition history (c : client) (l : master_link) : string :=
  stream (proxied l) +:+ sdrop (repl_applied l) (querybuf c).

(** From [c] to [c'] the master has sent [data]. *)
Definition link_grown (c c' : client) (data : string) : Prop :=
  match link c, link c' with
  | Some l, Some l' =>
      history c' l' = history c l +:+ data ∧ read_reploff l' = read_reploff l + len data ∧
      proxied l `prefix_of` proxied l'
  | None, None => True
  | _, _ => False
  end.

Lemma link_grown_same c c' : link c' = link c → (is_master c = true → querybuf c' = querybuf c) →
  link_grown c c' EmptyString.
Proof.
  unfold link_grown, is_master, history. intros -> Hb. destruct (link c); [|done].
  rewrite Hb, string_app_nil_r by done. split_and!; [done|unfold len; cbn; lia|done].
Qed.

Lemma link_grown_trans c1 c2 c3 d e : link_grown c1 c2 d → link_grown c2 c3 e → link_grown c1 c3 (d +:+ e).
Proof.
  unfold link_grown. destruct (link c1), (link c2), (link c3); try done.
  intros (-> & -> & ?) (-> & -> & ?). rewrite string_app_assoc. split_and!; [done| |by etrans].
  unfold len. rewrite string_length_app. lia.
Qed.

Lemma link_grown_master c c' d : link_grown c c' d → is_master c' = is_master c.
Proof. unfold link_grown, is_master. by destruct (link c), (link c'). Qed.

Lemma moved_on_link_ok c c' : link_ok c → moved_on c c' → link_ok c'.
Proof.
  intros [H1 H2 H3] [Hl _ Hi Hm]. split; [by apply Hi|intros l; rewrite Hl; intros E..].
  - specialize (H2 l E). destruct Hm as [_ Hq]; [unfold is_master; by rewrite E|]. lia.
  - destruct Hm as [-> _]; [unfold is_master; by rewrite E|]. by apply H3.
Qed.

Lemma moved_on_link_grown c c' : moved_on c c' → link_grown c c' EmptyString.
Proof. intros [Hl _ _ Hm]. apply link_grown_same; [done|]. intros H. by apply Hm. Qed.

(** What a command adds to what is passed on. *)
Definition fed_piece (c : client) (l : master_link) : list string :=
  if decide (repl_applied l = qb_pos c) then []
  else [stake (qb_pos c - repl_applied l) (sdrop (repl_applied l) (querybuf c))].

Lemma stream_fed_piece c l : (repl_applied l ≤ qb_pos c)%nat →
  stream (fed_piece c l) +:+ sdrop (qb_pos c) (querybuf c) = sdrop (repl_applied l) (querybuf c).
Proof.
  intros Hl. unfold fed_piece. case_decide as H; [by rewrite H|]. cbn. rewrite string_app_nil_r.
  rewrite <- (stake_sdrop (qb_pos c - repl_applied l) (sdrop (repl_applied l) (querybuf c))) at 2.
  rewrite sdrop_sdrop. by replace (repl_applied l + (qb_pos c - repl_applied l))%nat with (qb_pos c) by lia.
Qed.

(** The client after a command: inside a transaction nothing is applied. *)
Definition processed (c : client) : client :=
  set_link (resetClient c) ((λ l,
    if in_multi l then l
    else mkLink (read_reploff l) (read_reploff l - len (querybuf c) + Z.of_nat (qb_pos c)) (qb_pos c)
      (proxied l ++ fed_piece c l) false) <$> link c).

Lemma commandProcessed_eq c σ : link_ok c → blocked c = false →
  commandProcessed c σ = Some (processed c, σ).
Proof.
  intros [H1 H2 H3] Hb. unfold commandProcessed, processed. rewrite Hb. cbn [link resetClient querybuf qb_pos].
  destruct (link c) as [l|] eqn:E; [|unfold mret, cmd_ret; cbn; by rewrite <- E].
  specialize (H2 l eq_refl). specialize (H3 l eq_refl). cbn [fmap option_fmap option_map].
  destruct (in_multi l) eqn:Hmulti; [rewrite Z.sub_diag; by destruct l; cbn in *; subst|].
  set (off := read_reploff l - len (querybuf c) + Z.of_nat (qb_pos c)).
  assert (off - reploff l = Z.of_nat (qb_pos c - repl_applied l)) as Happ by (unfold off; lia).
  rewrite Happ, Nat2Z.id. destruct (Z.eqb_spec (Z.of_nat (qb_pos c - repl_applied l)) 0).
  - unfold fed_piece. rewrite decide_True by lia. rewrite app_nil_r.
    by replace (repl_applied l) with (qb_pos c) by lia.
  - destruct (Z.ltb_spec (Z.of_nat (qb_pos c - repl_applied l)) 0); [lia|]. cbn [orb].
    destruct (Z.ltb_spec (len (querybuf c)) (Z.of_nat (repl_applied l) + Z.of_nat (qb_pos c - repl_applied l)));
      [unfold len in *; lia|].
    unfold fed_piece. rewrite decide_False by lia.
    by replace (repl_applied l + (qb_pos c - repl_applied l))%nat with (qb_pos c) by lia.
Qed.

Lemma processed_ok c : link_ok c →
  link_ok (processed c) ∧ link_grown c (processed c) EmptyString ∧ parse_ok (processed c).
Proof.
  intros [H1 H2 H3]. split_and!; [split; cbn; [done|..]| |by split].
  - intros l'. destruct (link c) as [l|]; [|done]. intros [= <-].
    destruct (in_multi l); [by apply H2|done].
  - intros l'. destruct (link c) as [l|]; [|done]. intros [= <-].
    destruct (in_multi l); [by apply H3|done].
  - unfold link_grown, history. cbn. destruct (link c) as [l|]; [|done]. cbn. specialize (H2 l eq_refl).
    rewrite string_app_nil_r. destruct (in_multi l); cbn [proxied repl_applied read_reploff].
    { split_and!; [done|unfold len; cbn; lia|done]. }
    rewrite stream_app, <- string_app_assoc, stream_fed_piece by done.
    split_and!; [done|unfold len; cbn; lia|by apply prefix_app_r].
Qed.

(** The flag [CLIENT_MULTI] changes nothing else. *)
Lemma note_multi_ok c : link_ok c →
  link_ok (note_multi c) ∧ link_grown c (note_multi c) EmptyString ∧ blocked (note_multi c) = blocked c.
Proof.
  intros [H1 H2 H3]. unfold note_multi. destruct (link c) as [l|] eqn:E.
  - split_and!; [split; cbn; [done|intros l' [= <-]; cbn; by eauto..]| |done].
    unfold link_grown, history. rewrite E. cbn. rewrite string_app_nil_r.
    split_and!; [done|unfold len; cbn; lia|done].
  - split_and!; [split; [done|by rewrite E..]|by apply link_grown_same|done].
Qed.

Lemma note_multi_same c :
  (∀ l, link c = Some l → multi_after (in_multi l) (argv c) = in_multi l) → note_multi c = c.
Proof.
  intros H. unfold note_multi. destruct c as [? ? ? ? ? ? ? ? [[]|]]; [|done]. cbn in *.
  specialize (H _ eq_refl). cbn in H. by rewrite H.
Qed.

Lemma resetClient_ok c : link_ok c →
  link_ok (resetClient c) ∧ link_grown c (resetClient c) EmptyString ∧ parse_ok (resetClient c).
Proof. intros [H1 H2 H3]. split_and!; [by split|by apply link_grown_same|by split]. Qed.

(** Two clients that differ in their buffers only. *)
Record same_parse (c c' : client) : Prop := {
  same_reqtype : reqtype c' = reqtype c;
  same_argv : argv c' = argv c;
  same_multibulklen : multibulklen c' = multibulklen c;
  same_bulklen : bulklen c' = bulklen c;
  same_closing : closing c' = closing c;
  same_blocked : blocked c' = blocked c;
}.

Lemma same_parse_ok c c' z : same_parse c c' → unread c' = unread c +:+ z → parse_ok c → parse_ok c'.
Proof.
  intros [Ht Ha Hm Hb Hc _] Hu [H1 H2 H3 H4 H5]. split; rewrite ?Ht, ?Hm, ?Ha, ?Hb; try done.
  intros H0 H. rewrite Hu. specialize (H4 H0 H). by destruct (unread c).
Qed.

Lemma trim_ok c : link_ok c →
  link_ok (trim_querybuf c) ∧ link_grown c (trim_querybuf c) EmptyString ∧
  unread (trim_querybuf c) = unread c ∧ same_parse c (trim_querybuf c) ∧
  (is_master c = false → qb_pos (trim_querybuf c) = 0%nat).
Proof.
  intros [H1 H2 H3]. unfold trim_querybuf, is_master. destruct (link c) as [l|] eqn:E.
  - specialize (H2 l eq_refl). specialize (H3 l eq_refl).
    case_decide as H0; [split_and!; [split; [done|..]|by apply link_grown_same|done|done|done]|].
    { intros ?. rewrite E. by intros [= <-]. }
    { intros ?. rewrite E. by intros [= <-]. }
    split_and!; [split; cbn| | |done|done].
    + rewrite sdrop_length. lia.
    + intros l' [= <-]. cbn. lia.
    + intros l' [= <-]. cbn. unfold len in *. rewrite sdrop_length. lia.
    + unfold link_grown, history. rewrite E. cbn. rewrite string_app_nil_r. split_and!; [done|unfold len; cbn; lia|done].
    + unfold unread. cbn. rewrite sdrop_sdrop. f_equal. lia.
  - case_decide.
    { split_and!; [split; [done|by rewrite E..]|by apply link_grown_same|done|done|done]. }
    split_and!; [split; cbn; [lia|by rewrite E..]| |done|done|done].
    apply link_grown_same; [done|unfold is_master; by rewrite E].
Qed.

(** The client after a read of [data], before it is parsed. *)
Definition filled (c : client) (data : string) : client :=
  count_read (set_buf c (querybuf c +:+ data) (qb_pos c)) (len data).

Lemma filled_ok c data : link_ok c →
  link_ok (filled c data) ∧ link_grown c (filled c data) data ∧
  unread (filled c data) = unread c +:+ data ∧ same_parse c (filled c data).
Proof.
  intros [H1 H2 H3]. unfold filled, count_read. cbn [link set_buf].
  assert (∀ l, unread (set_link (set_buf c (querybuf c +:+ data) (qb_pos c)) l) = unread c +:+ data) as Hu.
  { intros l. by apply sdrop_app_le. }
  destruct (link c) as [l|] eqn:E.
  - specialize (H2 l eq_refl). specialize (H3 l eq_refl).
    split_and!; [split; cbn; [rewrite string_length_app; lia|intros l' [= <-]; cbn..]| |apply Hu|done].
    + done.
    + unfold len in *. rewrite string_length_app. lia.
    + unfold link_grown, history. rewrite E. cbn. rewrite sdrop_app_le by lia. by rewrite string_app_assoc.
  - split_and!; [split; cbn; [rewrite string_length_app; lia|by rewrite E..]| |apply (Hu None)|done].
    unfold link_grown. cbn. by rewrite E.
Qed.

(** All the bytes a connection has delivered. *)
Definition bytes_read (reads : list read_result) : string :=
  foldr (λ r t, (if r is ReadData data then data else EmptyString) +:+ t) EmptyString reads.

(** *** Any bytes *)

(** What holds of a client between two reads. *)
Definition settled (c : client) : Prop :=
  link_ok c ∧ (close c = true ∨ blocked c = true ∨ parse_ok c).

Lemma settled_same c c' z : link_ok c' → same_parse c c' → unread c' = unread c +:+ z →
  close c = true ∨ blocked c = true ∨ parse_ok c → settled c'.
Proof.
  intros Hl Hs Hu Hp. split; [done|]. unfold close. rewrite (same_closing _ _ Hs), (same_blocked _ _ Hs).
  destruct Hp as [?|[?|?]]; [by left|by right; left|right; right; by eapply same_parse_ok].
Qed.

Section total.
Context (server : environ) (s : standing) (client_max_querybuf_len : Z).

Lemma plays_execute b (args : list string) : args ≠ [] → plays b (λ h, h args) (λ _, True).
Proof.
  intros Hne. exists [Execute args], tt. split_and!; [by repeat constructor|done|]. intros h σ. cbn.
  unfold mbind, cmd_bind, mret, cmd_ret. by destruct (h args σ) as [[[] ?]|].
Qed.

Lemma executed_ok c : link_ok c → blocked c = false →
  plays (is_master c)
    (λ h, if decide (argv c = []) then mret (resetClient c) else processCommandAndResetClient h c)
    (λ c', (link_ok c' ∧ link_grown c c' EmptyString ∧ parse_ok c') ∧ left_over c' = left_over c).
Proof.
  intros Hc Hb. case_decide; [by apply plays_ret; split; [apply resetClient_ok|]|].
  eapply plays_bind; [by apply plays_execute|]. intros [] _.
  destruct (note_multi_ok c Hc) as (Hl & Hg & Hbl). destruct (processed_ok _ Hl) as (Hl' & Hg' & Hp').
  exists [], (processed (note_multi c)). split_and!; [done|done| |done|..].
  - exact (link_grown_trans _ _ _ EmptyString EmptyString Hg Hg').
  - unfold note_multi, left_over, unread. by destruct (link c).
  - intros h σ. rewrite commandProcessed_eq; [done|done|congruence].
Qed.

Lemma input_loop_settled fuel c : settled c → (left_over c < fuel)%nat →
  plays (is_master c) (λ h, input_loop server s h fuel c) (λ c', settled c' ∧ link_grown c c' EmptyString).
Proof.
  revert c. induction fuel as [|fuel IH]; intros c [Hl Hp] Hf; [lia|]. cbn [input_loop].
  destruct (Nat.leb_spec (String.length (querybuf c)) (qb_pos c)) as [|Hq];
    [apply plays_ret; split; [done|by apply link_grown_same]|].
  destruct (blocked c) eqn:Hb;
    [apply plays_ret; split; [split; [done|by right; left]|by apply link_grown_same]|].
  destruct (close c) eqn:Hc; [apply plays_ret; split; [split; [done|by left]|by apply link_grown_same]|].
  destruct Hp as [?|[?|Hp]]; [done|congruence|].
  eapply plays_bind; [exact (plays_ends _ _ _ plain_server (read_request_parsed server s c Hp Hq))|].
  intros [c1 ready] [[Hm Hparse] [σ' E]]. cbn in Hm, Hparse.
  pose proof (moved_on_link_ok _ _ Hl Hm) as Hl1. rewrite <- (moved_on_master _ _ Hm).
  pose proof (moved_blocked _ _ Hm) as Hb1. rewrite Hb in Hb1. apply moved_on_link_grown in Hm.
  destruct ready; cbn [negb].
  2:{ apply plays_ret. split; [split; [done|]|done]. destruct Hparse as [?|?]; [done|by left|by right; right]. }
  apply read_request_progress in E as [Hlt _]; [|by apply Hp].
  eapply plays_bind; [by apply executed_ok|]. intros c2 [(Hl2 & Hg2 & Hp2) Hleft].
  rewrite <- (link_grown_master _ _ _ Hg2).
  eapply plays_weaken; [apply (IH c2); [split; [done|by right; right]|lia]|].
  intros c3 [H3 Hg3]. split; [done|]. apply (link_grown_trans _ _ _ EmptyString EmptyString Hm).
  exact (link_grown_trans _ _ _ EmptyString EmptyString Hg2 Hg3).
Qed.

Lemma readQuery_settled c r : settled c →
  plays (is_master c) (λ h, readQueryFromClient server s h client_max_querybuf_len c r)
    (λ c', settled c' ∧ link_grown c c' (if r is ReadData data then data else EmptyString)).
Proof.
  intros Hc. pose proof Hc as [Hl Hp].
  assert (∀ c', link_ok c' → settled (freeClientAsync c')) as Hfree.
  { intros c' [H1 H2 H3]. split; [by split|left]. unfold close. cbn. by destruct (closing c'). }
  destruct r as [[|ch data]| |]; cbn [readQueryFromClient];
    [apply plays_ret; split; [by apply Hfree|by apply link_grown_same]| | |].
  2: by apply plays_ret; split; [|apply link_grown_same].
  2: apply plays_ret; split; [by apply Hfree|by apply link_grown_same].
  fold (filled c (String ch data)). destruct (filled_ok c (String ch data) Hl) as (Hl1 & Hg & Hu & Hs).
  rewrite <- (link_grown_master _ _ _ Hg). set (c1 := filled _ _) in *. destruct (negb (is_master c1) && _).
  { apply plays_ret. split; [by apply Hfree|].
    by apply (link_grown_trans _ _ (freeClientAsync c1) (String ch data) EmptyString) in Hg;
      [rewrite string_app_nil_r in Hg|apply link_grown_same]. }
  unfold processInputBuffer. eapply plays_bind.
  { apply input_loop_settled; [|unfold left_over; lia]. by eapply settled_same. }
  intros c2 [[Hl2 Hp2] Hg2]. destruct (trim_ok c2 Hl2) as (Hl3 & Hg3 & Hu3 & Hs3 & _).
  apply plays_ret. split.
  - apply (settled_same c2 _ EmptyString); [done|done|by rewrite string_app_nil_r|done].
  - rewrite <- (string_app_nil_r (String ch data)). apply (link_grown_trans _ _ _ _ _ Hg).
    exact (link_grown_trans _ _ _ EmptyString EmptyString Hg2 Hg3).
Qed.

Lemma serve_settled reads c : settled c →
  plays (is_master c) (λ h, serve_reads server s h client_max_querybuf_len c reads)
    (λ c', settled c' ∧ link_grown c c' (bytes_read reads)).
Proof.
  revert c. induction reads as [|r reads IH]; intros c Hc; cbn [serve_reads bytes_read foldr].
  { apply plays_ret. split; [done|by apply link_grown_same]. }
  eapply plays_bind; [by apply readQuery_settled|]. intros c1 [Hc1 Hg1].
  rewrite <- (link_grown_master _ _ _ Hg1).
  eapply plays_weaken; [by apply IH|]. intros c2 [Hc2 Hg2]. split; [done|].
  by eapply link_grown_trans.
Qed.
End total.

Section serving.
Context (server : environ) (s : standing) (processCommand : list string → cmd ()).
Context (client_max_querybuf_len : Z).

(** What a master has sent and is not applied yet, with what is still to come:
    the requests that are left. *)
Definition unapplied (c : client) (future : string) (reqs : list (list string)) : Prop :=
  ∀ l, link c = Some l → sdrop (repl_applied l) (querybuf c) +:+ future = wire reqs.

(** The first request that is left is not complete yet. *)
Definition short (future : string) (reqs : list (list string)) : Prop :=
  match reqs with
  | [] => True
  | _ :: reqs => (String.length (wire reqs) < String.length future)%nat
  end.

(** A master is not in a transaction, and the requests open none. *)
Definition untransacted (c : client) (reqs : list (list string)) : Prop :=
  ∀ l, link c = Some l → in_multi l = false ∧ Forall (λ req, multi_after false req = false) reqs.

Record expecting (c : client) (future : string) (reqs : list (list string)) : Prop := {
  expecting_ok : Forall (acceptable server s (is_master c)) reqs;
  expecting_pending : pending server s c future reqs;
  expecting_link : link_ok c;
  expecting_unapplied : unapplied c future reqs;
  expecting_untransacted : untransacted c reqs;
}.

Lemma pending_parse_ok c future reqs : pending server s c future reqs → unread c ≠ EmptyString → parse_ok c.
Proof.
  intros [reqs' Ht Ha Hm Hb Hc _ Hu|req reqs' Ht Hm Hc _ Hreq Hw] Hne.
  - split; rewrite ?Hm, ?Hb; try done. intros _ Ht'. destruct Ht as [Ht|[_ Ht]]; [congruence|].
    destruct reqs' as [|req reqs']; [done|]. cbn in Hu.
    destruct (unread c) as [|d u]; [done|]. by injection Hu as -> _.
  - split; [|lia|lia|lia|done]. destruct Hw as [args _ _ _ -> _|a args _ _ _ -> _]; [done|].
    unfold len. lia.
Qed.

Lemma moved_on_unapplied c c' future reqs : moved_on c c' → unapplied c future reqs →
  unapplied c' future reqs.
Proof.
  intros [Hl _ _ Hm] Hu l. rewrite Hl. intros E. destruct Hm as [-> _]; [unfold is_master; by rewrite E|].
  by apply Hu.
Qed.

(** Each of the requests was passed on, in one piece. *)
Definition passed_on (c c' : client) (reqs : list (list string)) : Prop :=
  ∀ l l', link c = Some l → link c' = Some l' → proxied l' = proxied l ++ (resp_request <$> reqs).

Lemma passed_on_none c c' : link c' = link c → passed_on c c' [].
Proof. intros H l l'. rewrite H, app_nil_r. congruence. Qed.

Lemma passed_on_trans c1 c2 c3 r r' d : link_grown c1 c2 d → passed_on c1 c2 r → passed_on c2 c3 r' →
  passed_on c1 c3 (r ++ r').
Proof.
  intros Hg H1 H2 l1 l3 E1 E3. unfold link_grown in Hg. rewrite E1 in Hg.
  destruct (link c2) as [l2|] eqn:E2; [|done]. rewrite (H2 l2 l3), (H1 l1 l2) by done.
  by rewrite fmap_app, (assoc_L (++)).
Qed.

(** A whole request has been parsed: it is the piece that is passed on. *)
Lemma processed_passed_on c c1 req reqs future : unapplied c future (req :: reqs) →
  untransacted c (req :: reqs) → link_ok c → moved_on c c1 →
  unread c1 +:+ future = wire reqs → passed_on c (processed c1) [req].
Proof.
  intros Ha Hun Hl Hm Hu l l' E. cbn. rewrite (moved_link _ _ Hm), E. intros [= <-].
  rewrite (proj1 (Hun l E)). cbn. f_equal.
  destruct (moved_master _ _ Hm) as [Hb Hq]; [unfold is_master; by rewrite E|].
  assert (stream (fed_piece c1 l) = resp_request req) as Hs.
  { assert (stream (fed_piece c1 l) +:+ wire reqs = resp_request req +:+ wire reqs) as H;
      [|by apply string_app_inj_l in H as [-> _]]. rewrite <- Hu at 1. unfold unread.
    rewrite string_app_assoc, stream_fed_piece by (etrans; [by apply (link_applied _ Hl)|done]).
    rewrite Hb. by apply (Ha l E). }
  unfold fed_piece in *. case_decide; [done|]. cbn in Hs. rewrite string_app_nil_r in Hs. by rewrite Hs.
Qed.

(** One request is complete: the client is ready for the next one. *)
Lemma expecting_processed c c1 req reqs future : expecting c future (req :: reqs) → moved_on c c1 →
  closing c1 = NotClosing → blocked c1 = false → unread c1 +:+ future = wire reqs →
  link_ok c1 ∧ expecting (processed c1) future reqs ∧ link_grown c (processed c1) EmptyString ∧
  passed_on c (processed c1) [req].
Proof.
  intros [Hok Hp Hl Ha Hun] Hm Hc Hb Hu. apply Forall_cons in Hok as [_ Hok].
  pose proof (moved_on_link_ok _ _ Hl Hm) as Hl1. destruct (processed_ok c1 Hl1) as (Hl2 & Hg & _).
  pose proof (link_grown_trans _ _ _ EmptyString EmptyString (moved_on_link_grown _ _ Hm) Hg) as Hg'.
  split_and!; [done| |done|by eapply processed_passed_on]. split; [by rewrite (link_grown_master _ _ _ Hg')| |done|..].
  - apply pending_idle; try done. by left.
  - intros l. cbn. rewrite (moved_link _ _ Hm). destruct (link c) as [l1|] eqn:E; [|done].
    intros [= <-]. by rewrite (proj1 (Hun l1 E)).
  - intros l. cbn. rewrite (moved_link _ _ Hm). destruct (link c) as [l1|] eqn:E; [|done].
    destruct (Hun l1 E) as [Hin Hplain]. intros [= <-]. rewrite Hin.
    split; [done|]. by apply Forall_cons in Hplain as [_ ?].
Qed.

(** The loop executes the requests that are complete, in order, and keeps the
    rest for later. *)
Lemma input_loop_spec fuel c future reqs : expecting c future reqs →
  (String.length (unread c) < fuel)%nat →
  ∃ ready rest c', reqs = ready ++ rest ∧
    (∀ σ, input_loop server s processCommand fuel c σ = (process_all processCommand ready;; mret c') σ) ∧
    expecting c' future rest ∧ link_grown c c' EmptyString ∧ passed_on c c' ready ∧ short future rest ∧
    (unread c' = EmptyString ∨ ∃ req, req ∈ rest ∧ partial c' (resp_request req)).
Proof.
  revert c reqs. induction fuel as [|fuel IH]; intros c reqs He Hf; [lia|]. pose proof He as [Hok Hp Hl Ha Hun].
  cbn [input_loop]. destruct (Nat.leb_spec (String.length (querybuf c)) (qb_pos c)) as [Hq|Hq].
  { assert (unread c = EmptyString) as Hu.
    { apply string_length_zero. unfold unread. rewrite sdrop_length. lia. }
    exists [], reqs, c. split_and!; [done|done|done|by apply link_grown_same|by apply passed_on_none| |by left].
    destruct reqs as [|req reqs]; [done|]. apply pending_length in Hp. by rewrite Hu in Hp. }
  assert (blocked c = false ∧ close c = false) as [-> ->].
  { unfold close. by inversion Hp as [????? -> ->|???? -> ->]. }
  assert (unread c ≠ EmptyString) as Hne.
  { intros Hu%(f_equal String.length). unfold unread in Hu. rewrite sdrop_length in Hu. cbn in Hu. lia. }
  destruct reqs as [|req reqs]; [by apply pending_none in Hp as [? _]|].
  pose proof (proj1 (proj1 (Forall_cons _ _ _) Hok)) as Hreq. pose proof (pending_length _ _ _ _ _ _ Hp) as Hlen.
  pose proof (read_request_parsed server s c (pending_parse_ok _ _ _ Hp Hne) Hq) as Hr.
  destruct (read_request_spec _ _ c req reqs future Hreq Hp Hne)
    as [(buf & pos & E & Hpos)|(c' & E & Hp' & Hf' & Hpart)]; rewrite E in Hr |- *;
    pose proof (plays_result _ _ _ (λ _, mret tt) plain_server _ _ Hr eq_refl) as [Hm _]; cbn in Hm;
    change (mret ?x ≫= ?f) with (f x); cbn beta iota; cbn [negb argv].
  - destruct (expecting_processed c _ req reqs future He Hm) as (Hl1 & He2 & Hg2 & Hpo); [done..|].
    set (c1 := mkClient _ _ _ _ _ _ _ _ _) in *. rewrite decide_False by apply Hreq.
    destruct (IH _ _ He2) as (ready & rest & c' & -> & Hloop & He' & Hg' & Hpo' & Hs & Hpart).
    { rewrite <- Hpos, !string_length_app in Hlen. change (unread (processed c1)) with (sdrop pos buf). lia. }
    exists (req :: ready), rest, c'. split_and!; [done| |done| |exact (passed_on_trans _ _ _ [req] _ _ Hg2 Hpo Hpo')|done|done].
    + intros σ. cbn [process_all]. unfold processCommandAndResetClient, mbind, cmd_bind.
      change (argv c1) with req. destruct (processCommand req σ) as [[[] σ1]|]; [|done].
      rewrite note_multi_same, commandProcessed_eq; [apply Hloop|done|done|]. intros l E1.
      destruct (Hun l E1) as [-> Hplain]. by apply Forall_cons in Hplain as [? _].
    + exact (link_grown_trans _ _ _ EmptyString EmptyString Hg2 Hg').
  - exists [], (req :: reqs), c'. split_and!; [done|done| |by apply moved_on_link_grown|by apply passed_on_none, Hm|done|].
    2:{ right. exists req. set_solver. }
    split; [|done|by eapply moved_on_link_ok|by eapply moved_on_unapplied|].
    2:{ intros l. rewrite (moved_link _ _ Hm). apply Hun. }
    by rewrite (link_grown_master _ _ _ (moved_on_link_grown _ _ Hm)).
Qed.

Lemma pending_buf c c' future future' reqs : same_parse c c' → is_master c' = is_master c →
  unread c' +:+ future' = unread c +:+ future →
  pending server s c future reqs → pending server s c' future' reqs.
Proof.
  intros [Ht Ha Hm Hb Hc Hbl] Hma Hu Hp. destruct Hp as [reqs Ht' ? ? ? ? ? ?|req reqs ? ? ? ? ? Hw].
  - apply pending_idle; congruence.
  - apply pending_request; try congruence.
    destruct Hw as [args Hr Hok ???|a args Hr Hok ???].
    + apply (waiting_length _ _ _ _ _ _ args); congruence.
    + apply (waiting_bytes _ _ _ _ _ _ a args); congruence.
Qed.

Lemma processInputBuffer_spec c future reqs : expecting c future reqs →
  ∃ ready rest c', reqs = ready ++ rest ∧
    (∀ σ, processInputBuffer server s processCommand c σ =
      (process_all processCommand ready;; mret c') σ) ∧
    expecting c' future rest ∧ link_grown c c' EmptyString ∧ passed_on c c' ready ∧ short future rest ∧
    (is_master c = false → qb_pos c' = 0%nat) ∧
    (unread c' = EmptyString ∨ ∃ req, req ∈ rest ∧ partial c' (resp_request req)).
Proof.
  intros He. destruct (input_loop_spec (S (String.length (unread c))) c future reqs He) as
    (ready & rest & c1 & -> & Hloop & [Hok Hp Hl Ha Hun] & Hg & Hpo & Hs & Hpart); [lia|].
  destruct (trim_ok c1 Hl) as (Hl2 & Hg2 & Hu2 & Hs2 & Hq2).
  exists ready, rest, (trim_querybuf c1). split_and!; [done| | | | |done| |].
  - intros σ. unfold processInputBuffer, mbind, cmd_bind. rewrite Hloop. unfold mbind, cmd_bind.
    by destruct (process_all processCommand ready σ) as [[[] σ1]|].
  - split; [by rewrite (link_grown_master _ _ _ Hg2)| |done|..].
    + revert Hp. apply pending_buf; [done|by rewrite (link_grown_master _ _ _ Hg2)|by rewrite Hu2].
    + intros l. unfold trim_querybuf. destruct (link c1) as [l1|] eqn:E; [|by case_decide; cbn; rewrite E].
      specialize (Ha l1 E). case_decide; cbn; rewrite ?E; by intros [= <-].
    + intros l. unfold trim_querybuf. destruct (link c1) as [l1|] eqn:E; [|by case_decide; cbn; rewrite E].
      specialize (Hun l1 E). case_decide; cbn; rewrite ?E; by intros [= <-].
  - exact (link_grown_trans _ _ _ EmptyString EmptyString Hg Hg2).
  - rewrite <- (app_nil_r ready). apply (passed_on_trans _ _ _ _ _ _ Hg Hpo). intros l l' E. rewrite app_nil_r.
    unfold trim_querybuf. rewrite E. case_decide; cbn; rewrite ?E; by intros [= <-].
  - rewrite <- (link_grown_master _ _ _ Hg). apply Hq2.
  - unfold partial. by rewrite Hu2.
Qed.

(** ** Reading in pieces *)

Lemma process_all_app l l' σ : process_all processCommand (l ++ l') σ =
  (process_all processCommand l;; process_all processCommand l') σ.
Proof.
  revert σ. induction l as [|r l IH]; intros σ; [done|]. cbn [app process_all].
  unfold mbind, cmd_bind in *. destruct (processCommand r σ) as [[[] σ1]|]; [apply IH|done].
Qed.

Lemma expecting_filled c data future reqs : expecting c (data +:+ future) reqs →
  expecting (filled c data) future reqs.
Proof.
  intros [Hok Hp Hl Ha Hun]. destruct (filled_ok c data Hl) as (Hl1 & Hg & Hu & Hs).
  split; [by rewrite (link_grown_master _ _ _ Hg)| |done|..].
  - revert Hp. apply pending_buf; [done|by apply (link_grown_master _ _ _ Hg)|].
    by rewrite Hu, <- string_app_assoc.
  - intros l. unfold filled, count_read. cbn. destruct (link c) as [l1|] eqn:E; [|cbn; by rewrite E].
    intros [= <-]. cbn. rewrite sdrop_app_le, <- string_app_assoc; [by apply Ha|].
    pose proof (link_applied _ Hl l1 E). pose proof (link_inside _ Hl). lia.
  - intros l. unfold filled, count_read. cbn. destruct (link c) as [l1|] eqn:E; [|cbn; by rewrite E].
    intros [= <-]. exact (Hun l1 E).
Qed.

(** The buffer of a client that is not a master may grow by [data]. *)
Definition room (c : client) (data : string) : Prop :=
  is_master c = false → qb_pos c = 0%nat ∧ len (unread c) + len data ≤ client_max_querybuf_len ∧
    (authRequired s = true → len (unread c) + len data ≤ 1024 * 1024).

Lemma room_filled c data : room c data →
  negb (is_master (filled c data)) && ((client_max_querybuf_len <? len (querybuf (filled c data))) ||
    (1024 * 1024 <? len (querybuf (filled c data))) && authRequired s) = false.
Proof.
  intros Hr. unfold room, filled, count_read in *. cbn [link set_buf]. unfold is_master in *.
  destruct (link c) eqn:E; cbn [link set_link set_buf negb andb]; [done|]. rewrite E. cbn [negb andb].
  destruct Hr as (Hq & Hmax & Hauth); [done|]. unfold unread in *. rewrite Hq in *. cbn [sdrop] in *.
  cbn [querybuf set_buf]. unfold len in *. rewrite string_length_app, Nat2Z.inj_add.
  apply orb_false_iff. split; [by apply Z.ltb_ge|].
  destruct (authRequired s); [|by rewrite andb_false_r].
  rewrite andb_true_r. apply Z.ltb_ge. by apply Hauth.
Qed.

Lemma read_piece c data future reqs : expecting c (data +:+ future) reqs → data ≠ EmptyString →
  room c data →
  ∃ ready rest c', reqs = ready ++ rest ∧
    (∀ σ, readQueryFromClient server s processCommand client_max_querybuf_len c (ReadData data) σ =
      (process_all processCommand ready;; mret c') σ) ∧
    expecting c' future rest ∧ link_grown c c' data ∧ passed_on c c' ready ∧ short future rest ∧
    (is_master c = false → qb_pos c' = 0%nat) ∧
    (unread c' = EmptyString ∨ ∃ req, req ∈ rest ∧ partial c' (resp_request req)).
Proof.
  intros He Hne Hr. pose proof (filled_ok c data (expecting_link _ _ _ He)) as (_ & Hg & _).
  destruct (processInputBuffer_spec (filled c data) future reqs (expecting_filled _ _ _ _ He)) as
    (ready & rest & c' & -> & Hrun & He' & Hg' & Hpo & Hs & Hq & Hpart).
  exists ready, rest, c'. split_and!; [done| |done| | |done| |done].
  - intros σ. destruct data as [|ch data]; [done|]. cbn [readQueryFromClient].
    fold (filled c (String ch data)). rewrite room_filled by done. apply Hrun.
  - rewrite <- (string_app_nil_r data). by eapply link_grown_trans.
  - apply (passed_on_trans _ (filled c data) _ [] _ data); [done| |done]. intros l l' E. rewrite app_nil_r.
    unfold filled, count_read. cbn. rewrite E. cbn. by intros [= <-].
  - by rewrite <- (link_grown_master _ _ _ Hg).
Qed.

(** The limits that keep a client that is not a master connected. *)
Definition within (bound : Z) (c : client) (reqs : list (list string)) (pieces : list string) : Prop :=
  is_master c = false →
    qb_pos c = 0%nat ∧ len (unread c) ≤ bound ∧ Forall (λ req, len (resp_request req) ≤ bound) reqs ∧
    Forall (λ p, bound + len p ≤ client_max_querybuf_len ∧
      (authRequired s = true → bound + len p ≤ 1024 * 1024)) pieces.

Lemma serve_pieces bound pieces c future reqs : expecting c (stream pieces +:+ future) reqs →
  Forall (λ p, p ≠ EmptyString) pieces → within bound c reqs pieces →
  (pieces = [] → short future reqs) →
  ∃ ready rest c', reqs = ready ++ rest ∧
    (∀ σ, serve_reads server s processCommand client_max_querybuf_len c (ReadData <$> pieces) σ =
      (process_all processCommand ready;; mret c') σ) ∧
    expecting c' future rest ∧ link_grown c c' (stream pieces) ∧ passed_on c c' ready ∧ short future rest ∧
    (is_master c = false → qb_pos c' = 0%nat).
Proof.
  revert c reqs. induction pieces as [|p pieces IH]; intros c reqs He Hne Hw Hend.
  { exists [], reqs, c. split_and!; [done|done|done|by apply link_grown_same|by apply passed_on_none|by apply Hend|].
    intros ?. by apply Hw. }
  apply Forall_cons in Hne as [Hp0 Hne]. cbn [stream foldr] in He. rewrite <- string_app_assoc in He.
  destruct (read_piece c p _ _ He Hp0) as (ready & rest & c1 & -> & Hrun & He1 & Hg1 & Hpo1 & Hs1 & Hq1 & Hpart).
  { intros Hm. destruct (Hw Hm) as (Hq & Hb & _ & [[H1 H2] _]%Forall_cons). split_and!; [done|lia|].
    intros Ha. specialize (H2 Ha). lia. }
  pose proof (link_grown_master _ _ _ Hg1) as Hm1.
  destruct (IH c1 rest He1 Hne) as (ready' & rest' & c2 & -> & Hrun' & He2 & Hg2 & Hpo2 & Hs2 & Hq2).
  - rewrite <- Hm1 in Hq1. intros Hm. rewrite Hm1 in Hm. destruct (Hw Hm) as (_ & Hb & Hreqs & [_ Hlim]%Forall_cons).
    apply Forall_app in Hreqs as [_ Hreqs]. split_and!; [by apply Hq1; rewrite Hm1| |done|done].
    destruct Hpart as [->|(req & Hin & Hpart)]; [unfold len in *; cbn; lia|].
    rewrite Forall_forall in Hreqs. specialize (Hreqs req Hin). unfold partial, len in *. lia.
  - by intros ->.
  - exists (ready ++ ready'), rest', c2.
    split_and!; [by rewrite (assoc_L (++))| |done| |by eapply passed_on_trans|done|].
    + intros σ. cbn [fmap list_fmap serve_reads]. unfold mbind, cmd_bind. rewrite Hrun, process_all_app.
      unfold mbind, cmd_bind. destruct (process_all processCommand ready σ) as [[[] σ1]|]; [|done].
      apply Hrun'.
    + by eapply link_grown_trans.
    + by rewrite <- Hm1.
Qed.

(** A client that is ready for the next request. *)
Lemma expecting_start l future reqs : Forall (acceptable server s (if l is Some _ then true else false)) reqs →
  (∀ m, l = Some m → repl_applied m = 0%nat ∧ reploff m = read_reploff m ∧ in_multi m = false ∧
    Forall (λ req, multi_after false req = false) reqs) →
  future = wire reqs → expecting (set_link createClient l) future reqs.
Proof.
  intros Hok Hl ->. split; [done| | | |].
  - apply pending_idle; try done. by left.
  - split; cbn; [lia|intros m Hm; destruct (Hl m Hm) as (-> & E & _); unfold len; cbn; lia..].
  - intros m Hm. cbn in *. by destruct (Hl m Hm) as [-> _].
  - intros m Hm. cbn in *. by destruct (Hl m Hm) as (_ & _ & ?).
Qed.
End serving.

Lemma requests_served server s processCommand client_max_querybuf_len bound reqs pieces
    (Hok : Forall (sendable server s) reqs)
    (Hlen : Forall (λ req, len (resp_request req) ≤ bound) reqs)
    (Hmax : Forall (λ p, bound + len p ≤ client_max_querybuf_len ∧
       (authRequired s = true → bound + len p ≤ 1024 * 1024)) pieces)
    (Hpieces : Forall (λ p, p ≠ EmptyString) pieces)
    (Hstream : stream pieces = wire reqs) σ :
  serve_reads server s processCommand client_max_querybuf_len createClient (ReadData <$> pieces) σ =
  (process_all processCommand reqs;; mret createClient) σ.
Proof.
  destruct reqs as [|req reqs].
  { destruct pieces as [|[|??] ?]; [done| |discriminate]. by apply Forall_cons in Hpieces as [[] _]. }
  destruct (serve_pieces server s processCommand client_max_querybuf_len bound pieces createClient
    EmptyString (req :: reqs)) as (ready & rest & c & E & Hrun & [_ Hp Hl _ _] & Hg & _ & Hs & Hq).
  - rewrite string_app_nil_r. by apply (expecting_start _ _ None).
  - done.
  - intros _. split_and!; [done| |done|done]. apply Forall_cons in Hlen as [Hlen _].
    etrans; [|exact Hlen]. unfold len. cbn. lia.
  - intros ->. discriminate.
  - assert (rest = []) as -> by (destruct rest; [done|cbn in Hs; lia]). rewrite app_nil_r in E. subst ready.
    rewrite Hrun. enough (c = createClient) as -> by done. specialize (Hq eq_refl). unfold link_grown in Hg. cbn in Hg.
    pose proof Hp as [Hu _]%pending_none. unfold unread in Hu. rewrite Hq in Hu.
    inversion Hp as [reqs' Ht ? ? ? ? ? _|]; subst. destruct Ht as [Ht|[_ []]]; [|done].
    unfold createClient. destruct c as [? ? ? ? ? ? ? ? []]; cbn in *; [done|congruence].
Qed.


(** The requests of a client, cut after every fifth byte. *)
Fixpoint cut (fuel : nat) (t : string) : list string :=
  match fuel, t with
  | S fuel, String _ _ => stake 5 t :: cut fuel (sdrop 5 t)
  | _, _ => []
  end.

Definition sample_wire : list (list string) :=
  [["SADD"; "node_0_neighbours"; "1"; "2"]; ["SET"; "node_0_color"; "7"]; ["GET"; "node_0_color"]].
Definition sample_pieces : list string := cut 100 (wire sample_wire).
Definition table_command (argv : list string) : cmd () := execute no_files (plain_request argv).



(** A broken stream: a request with a wrong bulk length after a good one. *)
Definition broken_reads : list read_result :=
  [ReadData "*3"; ReadAgain; ReadData (CRLF +:+ "$4" +:+ CRLF +:+ "SADD" +:+ CRLF +:+ bulk "node_0_neighbours");
   ReadData (bulk "7" +:+ "*2" +:+ CRLF +:+ "$-7" +:+ CRLF)].

