(* ===== verification/Replica.v ===== *)
(** * A replica and its master

    The other end of [Replication], from src/redis/src/replication.c: the
    handshake of a replica with its master, the request for a partial
    resynchronisation and its answers, the client that stands for the master,
    which is kept when the connection is lost, and the change of a server from
    master to replica and back.  A server is a [node]; its own replicas and its
    own stream are those of [Replication].

    What a connection does is in a record: whether it is up, the line that
    [receiveSynchronousResponse] reads, and which writes succeed.  A planned
    failover is not in progress, and the transfer of the snapshot is an event
    that succeeds or fails. *)

From S2P Require Import Prelude CLib Buffers Hiredis Util Db Networking Replication.
From Stdlib Require Import Ascii.

Definition CONFIG_RUN_ID_SIZE : nat := 40.

Inductive repl_state_t : Set :=
| REPL_STATE_NONE
| REPL_STATE_CONNECT
| REPL_STATE_CONNECTING
| REPL_STATE_RECEIVE_PING_REPLY
| REPL_STATE_SEND_HANDSHAKE
| REPL_STATE_RECEIVE_AUTH_REPLY
| REPL_STATE_RECEIVE_PORT_REPLY
| REPL_STATE_RECEIVE_IP_REPLY
| REPL_STATE_RECEIVE_CAPA_REPLY
| REPL_STATE_SEND_PSYNC
| REPL_STATE_RECEIVE_PSYNC_REPLY
| REPL_STATE_TRANSFER
| REPL_STATE_CONNECTED.

#[export] Instance repl_state_t_eq_dec : EqDecision repl_state_t.
Proof. solve_decision. Defined.

(** The variables of [server] that are used here: its own replication, where
    its master is, the state of the handshake, the client of the master and the
    one that was kept, each with its [replid], and what +FULLRESYNC told. *)
Record node : Type := mkNode {
  own : master;
  masterhost : option (string * Z);
  repl_state : repl_state_t;
  the_master : option (client * string);
  cached_master : option (client * string);
  master_replid : string;
  master_initial_offset : Z;
}.

Definition set_own (m : master) (n : node) : node :=
  mkNode m (masterhost n) (repl_state n) (the_master n) (cached_master n) (master_replid n) (master_initial_offset n).
Definition set_host (h : option (string * Z)) (n : node) : node :=
  mkNode (own n) h (repl_state n) (the_master n) (cached_master n) (master_replid n) (master_initial_offset n).
Definition set_state (s : repl_state_t) (n : node) : node :=
  mkNode (own n) (masterhost n) s (the_master n) (cached_master n) (master_replid n) (master_initial_offset n).
Definition set_master (c : option (client * string)) (n : node) : node :=
  mkNode (own n) (masterhost n) (repl_state n) c (cached_master n) (master_replid n) (master_initial_offset n).
Definition set_cached (c : option (client * string)) (n : node) : node :=
  mkNode (own n) (masterhost n) (repl_state n) (the_master n) c (master_replid n) (master_initial_offset n).
Definition set_told (id : string) (offset : Z) (n : node) : node :=
  mkNode (own n) (masterhost n) (repl_state n) (the_master n) (cached_master n) id offset.

(** The configuration of a replica. *)
Record repl_conf : Type := mkConf {
  masterauth : option string;
  masteruser : option string;
  slave_announce_port : Z;
  tls_replication : bool;
  tls_port : Z;
  port : Z;
  slave_announce_ip : option string;
}.

(** What the connection does in an event; [sent s] is whether [connSyncWrite]
    writes [s], and [prepared] whether a transfer can be set up. *)
Record conn_io : Type := mkIo {
  connected : bool;
  response : option string;
  sent : string → bool;
  prepared : bool;
}.

(** ** Replication identifiers *)

Definition set_ids (id id2 : string) (second : Z) (m : master) : master :=
  mkMaster (repl_buffer_blocks m) (repl_block_id m) (repl_backlog m) (master_repl_offset m) (slaves m)
    (repl_backlog_size m) (slaveseldb m) id id2 second.

Definition clearReplicationId2 (m : master) : master :=
  set_ids (replid m) "0000000000000000000000000000000000000000" (-1) m.

(** [new] is the identifier that [changeReplicationId] draws. *)
Definition shiftReplicationId (new : string) (m : master) : master :=
  set_ids new (replid m) (master_repl_offset m + 1) m.

(** ** The client of the master *)

(** The connection is there or not; the client is the same. *)
Definition replicationCreateMasterClient (n : node) : node :=
  let c := set_link createClient (Some (mkLink (master_initial_offset n) (master_initial_offset n) 0 [] false)) in
  set_master (Some (c, master_replid n)) n.

Definition replicationDiscardCachedMaster (n : node) : node := set_cached None n.

(** [connects] is whether [connConnect] could start to connect. *)
Definition connectWithMaster (connects : bool) (n : node) : node :=
  if connects then set_state REPL_STATE_CONNECTING n else n.

Definition replicationHandleMasterDisconnection (connects : bool) (n : node) : node :=
  let n := set_state REPL_STATE_CONNECT (set_master None n) in
  if masterhost n is Some _ then connectWithMaster connects n else n.

(** What was read and is not applied is forgotten, an open transaction with it. *)
Definition forget_unapplied (c : client) : client :=
  resetClient (set_link (set_buf c EmptyString 0)
    ((λ l, mkLink (reploff l) (reploff l) 0 (proxied l) false) <$> link c)).

Definition replicationCacheMaster (connects : bool) (n : node) : option node :=
  match the_master n, cached_master n with
  | Some (c, id), None =>
      Some (replicationHandleMasterDisconnection connects (set_cached (Some (forget_unapplied c, id)) n))
  | _, _ => None
  end.

(** What [freeClient] does with the client of the master: after a protocol
    error, or blocked, it is not kept. *)
Definition freeMaster (connects : bool) (n : node) : option node :=
  match the_master n with
  | None => Some n
  | Some (c, id) =>
      match closing c, blocked c with
      | ProtocolError, _ | _, true => Some (replicationHandleMasterDisconnection connects n)
      | _, false => replicationCacheMaster connects (set_master (Some (set_closing c NotClosing, id)) n)
      end
  end.

Definition replicationResurrectCachedMaster (n : node) : option node :=
  match cached_master n with
  | Some (c, id) =>
      Some (set_state REPL_STATE_CONNECTED
        (set_cached None (set_master (Some (set_closing c NotClosing, id)) n)))
  | None => None
  end.

Definition replicationCacheMasterUsingMyself (n : node) : node :=
  let n := replicationCreateMasterClient (set_told (master_replid n) (master_repl_offset (own n)) n) in
  match the_master n with
  | Some (c, _) => set_master None (set_cached (Some (c, replid (own n))) n)
  | None => n
  end.

(** The acknowledgement: the offset that is applied, and the one on disk. *)
Definition replicationSendAck (fsynced_reploff : Z) (n : node) : option string :=
  match the_master n with
  | Some (c, _) =>
      l ← link c;
      Some (resp_request (["REPLCONF"; "ACK"; pretty (reploff l)] ++
        (if fsynced_reploff =? -1 then [] else ["FACK"; pretty fsynced_reploff])))
  | None => None
  end.

(** ** Sub-replicas *)

Fixpoint free_all (rs : list replica) (m : master) : option master :=
  match rs with
  | [] => Some m
  | r :: rs => m ← freeClient (replica_id r) m; free_all rs m
  end.

Definition disconnectSlaves (m : master) : option master := free_all (slaves m) m.

(** ** Commands of the handshake *)

Definition sendCommand (args : list string) : string := resp_request (c_str <$> args).
Definition sendCommandArgv (args : list string) : string := resp_request args.

(** Writes until the first that fails: what was written, and whether all was. *)
Fixpoint send_all (sent : string → bool) (l : list string) : list string * bool :=
  match l with
  | [] => ([], true)
  | s :: l => if sent s then let '(out, ok) := send_all sent l in (s :: out, ok) else ([], false)
  end.

Definition announced_port (cfg : repl_conf) : Z :=
  if negb (slave_announce_port cfg =? 0) then slave_announce_port cfg
  else if tls_replication cfg && negb (tls_port cfg =? 0) then tls_port cfg
  else port cfg.

Definition handshake_commands (cfg : repl_conf) : list string :=
  match masterauth cfg with
  | Some auth =>
      [sendCommandArgv ("AUTH" :: match masteruser cfg with Some u => [c_str u; auth] | None => [auth] end)]
  | None => []
  end ++
  [sendCommand ["REPLCONF"; "listening-port"; pretty (announced_port cfg)]] ++
  match slave_announce_ip cfg with Some ip => [sendCommand ["REPLCONF"; "ip-address"; ip]] | None => [] end ++
  [sendCommand ["REPLCONF"; "capa"; "eof"; "capa"; "psync2"]].

(** [!strncmp (s, t, strlen (t))] *)
Definition starts_with (t s : string) : bool := bool_decide (stake (String.length t) s = t).

(** ** The request for a partial resynchronisation *)

Inductive psync_result : Set :=
| PSYNC_WAIT_REPLY
| PSYNC_CONTINUE
| PSYNC_FULLRESYNC
| PSYNC_NOT_SUPPORTED
| PSYNC_TRY_LATER.

Definition psync_args (n : node) : string * string :=
  match cached_master n with
  | Some (c, id) => (id, pretty (default 0 (reploff <$> link c) + 1))
  | None => ("?", "-1")
  end.

(** The writing half. *)
Definition psync_request (n : node) : node * string :=
  let n := set_told (master_replid n) (-1) n in
  (n, sendCommand ["PSYNC"; (psync_args n).1; (psync_args n).2]).

(** The identifier and the offset in the line +FULLRESYNC. *)
Definition parse_fullresync (reply : string) : option (string * Z) :=
  sp ← strchr reply " ";
  let id := sdrop 1 sp in
  sp' ← strchr id " ";
  let offset := sdrop 1 sp' in
  if (String.length id - String.length offset - 1 =? CONFIG_RUN_ID_SIZE)%nat
  then Some (stake CONFIG_RUN_ID_SIZE id, strtol offset) else None.

(** The bytes up to the end of the line. *)
Fixpoint line_end (s : string) : nat :=
  match s with
  | EmptyString => 0
  | String c s => if decide (c = CR ∨ c = LF) then 0 else S (line_end s)
  end.

(** The identifier in the line +CONTINUE, when there is one. *)
Definition parse_continue (reply : string) : option string :=
  if (line_end (sdrop 9 reply) =? S CONFIG_RUN_ID_SIZE)%nat
  then Some (stake CONFIG_RUN_ID_SIZE (sdrop 10 reply)) else None.

(** The master has a new identifier: the old one counts up to here. *)
Definition adopt_id (new : string) (n : node) : option node :=
  match cached_master n with
  | None => None
  | Some (c, id) =>
      if decide (new = id) then Some n
      else
        m ← disconnectSlaves (set_ids new id (master_repl_offset (own n) + 1) (own n));
        Some (set_cached (Some (c, new)) (set_own m n))
  end.

(** The reading half, for the line [reply]. *)
Definition psync_reply (reply : option string) (n : node) : option (node * psync_result) :=
  match reply with
  | None => Some (n, PSYNC_TRY_LATER)
  | Some EmptyString => Some (n, PSYNC_WAIT_REPLY)
  | Some reply =>
      if starts_with "+FULLRESYNC" reply then
        Some (match parse_fullresync reply with
              | Some (id, offset) => set_told id offset n
              | None => set_told EmptyString (master_initial_offset n) n
              end, PSYNC_FULLRESYNC)
      else if starts_with "+CONTINUE" reply then
        n ← match parse_continue reply with Some new => adopt_id new n | None => Some n end;
        n ← replicationResurrectCachedMaster n;
        m ← match repl_backlog (own n) with
            | None => createReplicationBacklog (own n)
            | Some _ => Some (own n)
            end;
        Some (set_own m n, PSYNC_CONTINUE)
      else if starts_with "-NOMASTERLINK" reply || starts_with "-LOADING" reply then Some (n, PSYNC_TRY_LATER)
      else Some (n, PSYNC_NOT_SUPPORTED)
  end.

(** ** The handshake *)

Definition sync_error (n : node) : node := set_state REPL_STATE_CONNECT n.

(** Write [cmds] and go on to [next]. *)
Definition send_then (io : conn_io) (cmds : list string) (next : repl_state_t) (n : node) : node * list string :=
  let '(out, ok) := send_all (sent io) cmds in
  (if ok then set_state next n else sync_error n, out).

Definition ping_accepted (err : string) : bool :=
  starts_with "+" err || starts_with "-NOAUTH" err || starts_with "-NOPERM" err ||
  starts_with "-ERR operation not permitted" err.

(** Replies that are not asked for are not waited for. *)
Definition skip_replies (cfg : repl_conf) (s : repl_state_t) : repl_state_t :=
  match s with
  | REPL_STATE_RECEIVE_AUTH_REPLY =>
      if masterauth cfg is None then REPL_STATE_RECEIVE_PORT_REPLY else s
  | REPL_STATE_RECEIVE_IP_REPLY =>
      if slave_announce_ip cfg is None then REPL_STATE_RECEIVE_CAPA_REPLY else s
  | _ => s
  end.

(** A reply to a command of the handshake that may be an error. *)
Definition any_reply (io : conn_io) (next : repl_state_t) (n : node) : node :=
  if response io is Some _ then set_state next n else sync_error n.

Definition send_psync (io : conn_io) (n : node) : node * list string :=
  let '(n, request) := psync_request n in
  send_then io [request] REPL_STATE_RECEIVE_PSYNC_REPLY n.

(** The transfer of a snapshot: a master that does not know PSYNC is sent SYNC. *)
Definition start_transfer (io : conn_io) (sync : bool) (n : node) : node * list string :=
  let '(out, ok) := send_all (sent io) (if sync then ["SYNC" +:+ CRLF] else []) in
  (if ok && prepared io then set_state REPL_STATE_TRANSFER n else sync_error n, out).

Definition syncWithMaster (cfg : repl_conf) (io : conn_io) (n : node) : option (node * list string) :=
  if decide (repl_state n = REPL_STATE_NONE) then Some (n, [])
  else if negb (connected io) then Some (sync_error n, [])
  else
    let n := set_state (skip_replies cfg (repl_state n)) n in
    match repl_state n with
    | REPL_STATE_CONNECTING => Some (send_then io [sendCommand ["PING"]] REPL_STATE_RECEIVE_PING_REPLY n)
    | REPL_STATE_RECEIVE_PING_REPLY =>
        match response io with
        | Some err =>
            if ping_accepted err
            then Some (send_then io (handshake_commands cfg) REPL_STATE_RECEIVE_AUTH_REPLY n)
            else Some (sync_error n, [])
        | None => Some (sync_error n, [])
        end
    | REPL_STATE_SEND_HANDSHAKE =>
        Some (send_then io (handshake_commands cfg) REPL_STATE_RECEIVE_AUTH_REPLY n)
    | REPL_STATE_RECEIVE_AUTH_REPLY =>
        match response io with
        | Some err =>
            Some (if starts_with "-" err then sync_error n else set_state REPL_STATE_RECEIVE_PORT_REPLY n, [])
        | None => Some (sync_error n, [])
        end
    | REPL_STATE_RECEIVE_PORT_REPLY => Some (any_reply io REPL_STATE_RECEIVE_IP_REPLY n, [])
    | REPL_STATE_RECEIVE_IP_REPLY => Some (any_reply io REPL_STATE_RECEIVE_CAPA_REPLY n, [])
    | REPL_STATE_RECEIVE_CAPA_REPLY =>
        if response io is Some _ then Some (send_psync io n) else Some (sync_error n, [])
    | REPL_STATE_SEND_PSYNC => Some (send_psync io n)
    | REPL_STATE_RECEIVE_PSYNC_REPLY =>
        '(n, result) ← psync_reply (response io) n;
        Some (match result with
              | PSYNC_WAIT_REPLY | PSYNC_CONTINUE => (n, [])
              | PSYNC_TRY_LATER => (sync_error n, [])
              | PSYNC_NOT_SUPPORTED => start_transfer io true n
              | PSYNC_FULLRESYNC => start_transfer io false n
              end)
    | _ => Some (sync_error n, [])
    end.

(** ** The snapshot *)

Definition slaveIsInHandshakeState (s : repl_state_t) : bool :=
  match s with
  | REPL_STATE_RECEIVE_PING_REPLY | REPL_STATE_SEND_HANDSHAKE | REPL_STATE_RECEIVE_AUTH_REPLY
  | REPL_STATE_RECEIVE_PORT_REPLY | REPL_STATE_RECEIVE_IP_REPLY | REPL_STATE_RECEIVE_CAPA_REPLY
  | REPL_STATE_SEND_PSYNC | REPL_STATE_RECEIVE_PSYNC_REPLY => true
  | _ => false
  end.

Definition cancelReplicationHandshake (reconnect connects : bool) (n : node) : node :=
  if bool_decide (repl_state n = REPL_STATE_TRANSFER) || bool_decide (repl_state n = REPL_STATE_CONNECTING) ||
     slaveIsInHandshakeState (repl_state n)
  then
    let n := set_state REPL_STATE_CONNECT n in
    if reconnect then connectWithMaster connects n else n
  else n.

Definition replicationAttachToNewMaster (n : node) : option node :=
  if the_master n is Some _ then None
  else
    m ← disconnectSlaves (own n);
    m ← freeReplicationBacklog m;
    Some (set_own m (replicationDiscardCachedMaster n)).

(** The end of [readSyncBulkPayload]: the snapshot is loaded, and the history
    of the master is that of the replica. *)
Definition finish_sync (n : node) : option node :=
  n ← replicationAttachToNewMaster n;
  let n := set_state REPL_STATE_CONNECTED (replicationCreateMasterClient n) in
  let m := clearReplicationId2 (set_offset (master_initial_offset n)
             (set_ids (master_replid n) (replid2 (own n)) (second_replid_offset (own n)) (own n))) in
  m ← (if repl_backlog m is Some _ then Some m else createReplicationBacklog m);
  Some (set_own m n).

(** A transfer that fails; [attached] is whether the old data was given up
    before. *)
Definition fail_sync (attached connects : bool) (n : node) : option node :=
  n ← (if attached then replicationAttachToNewMaster n else Some n);
  Some (cancelReplicationHandshake true connects n).

(** ** Master and replica *)

Definition replicationSetMaster (ip : string) (port : Z) (connects : bool) (n : node) : option node :=
  let was_master := bool_decide (masterhost n = None) in
  n ← freeMaster connects (set_host None n);
  let n := cancelReplicationHandshake false connects (set_host (Some (ip, port)) n) in
  let n := if was_master then replicationCacheMasterUsingMyself (replicationDiscardCachedMaster n) else n in
  Some (connectWithMaster connects (set_state REPL_STATE_CONNECT n)).

Definition replicationUnsetMaster (new : string) (connects : bool) (n : node) : option node :=
  match masterhost n with
  | None => Some n
  | Some _ =>
      n ← freeMaster connects (set_host None n);
      let n := cancelReplicationHandshake false connects (replicationDiscardCachedMaster n) in
      m ← disconnectSlaves (shiftReplicationId new (own n));
      Some (set_own (set_slaveseldb (-1) m) (set_state REPL_STATE_NONE n))
  end.

(** The cron connects when it is due. *)
Definition connect_cron (connects : bool) (n : node) : node :=
  if decide (repl_state n = REPL_STATE_CONNECT) then connectWithMaster connects n else n.
