(* ===== verification/ReplicaSpec.v ===== *)
(** * A replica and its master: the handshake and the link

    The handshake asks and waits for as many answers, and ends in a request for
    the rest of the stream; the answers of a master are read as it meant
    them.  Over any number of connections, each cut anywhere, the commands of
    the master are applied once each and in order. *)

From S2P Require Import Prelude CLib Buffers Hiredis Util Sds SetType Db DbRel Strings StringsSpec Server ServerRefine.
From S2P Require Import Networking NetworkingSpec.
From S2P Require Import Replication ReplicationSpec Replica.
From Stdlib Require Import Ascii.

(** ** The handshake *)

(** A connection on which every write succeeds, and its next line. *)
Definition line_io (reply : string) : conn_io := mkIo true (Some reply) (λ _, true) true.

(** One event for each line, after the one that ends the connecting. *)
Fixpoint handshake (cfg : repl_conf) (replies : list string) (n : node) : option (node * list string) :=
  match replies with
  | [] => Some (n, [])
  | r :: replies =>
      '(n, out) ← syncWithMaster cfg (line_io r) n;
      '(n, out') ← handshake cfg replies n;
      Some (n, out ++ out')
  end.

Lemma send_all_ok l : send_all (λ _, true) l = (l, true).
Proof. induction l as [|s l IH]; cbn; [done|]. by rewrite IH. Qed.

(** The lines that a master may answer with: to PING, and to AUTH when there is
    one. *)
Definition handshake_replies (cfg : repl_conf) (replies : list string) : Prop :=
  match replies with
  | pong :: rest =>
      ping_accepted pong = true ∧ length rest = length (handshake_commands cfg) ∧
      (masterauth cfg ≠ None → match rest with auth :: _ => starts_with "-" auth = false | [] => False end)
  | [] => False
  end.

(** The events of the handshake, one by one. *)
Section steps.
Context (cfg : repl_conf) (n : node) (r : string).

Lemma connecting_step : syncWithMaster cfg (line_io r) (set_state REPL_STATE_CONNECTING n) =
  Some (set_state REPL_STATE_RECEIVE_PING_REPLY n, [sendCommand ["PING"]]).
Proof. done. Qed.

Lemma ping_step : ping_accepted r = true →
  syncWithMaster cfg (line_io r) (set_state REPL_STATE_RECEIVE_PING_REPLY n) =
  Some (set_state REPL_STATE_RECEIVE_AUTH_REPLY n, handshake_commands cfg).
Proof.
  intros Hp. unfold syncWithMaster. cbn -[handshake_commands ping_accepted]. rewrite Hp.
  unfold send_then. cbn -[handshake_commands]. by rewrite send_all_ok.
Qed.

Lemma auth_step : masterauth cfg ≠ None → starts_with "-" r = false →
  syncWithMaster cfg (line_io r) (set_state REPL_STATE_RECEIVE_AUTH_REPLY n) =
  Some (set_state REPL_STATE_RECEIVE_PORT_REPLY n, []).
Proof.
  intros Ha Hr. unfold syncWithMaster. cbn -[starts_with]. destruct (masterauth cfg); [|done].
  cbn -[starts_with]. by rewrite Hr.
Qed.

Lemma no_auth_step : masterauth cfg = None →
  syncWithMaster cfg (line_io r) (set_state REPL_STATE_RECEIVE_AUTH_REPLY n) =
  Some (set_state REPL_STATE_RECEIVE_IP_REPLY n, []).
Proof. intros Ha. unfold syncWithMaster. cbn. by rewrite Ha. Qed.

Lemma port_step : syncWithMaster cfg (line_io r) (set_state REPL_STATE_RECEIVE_PORT_REPLY n) =
  Some (set_state REPL_STATE_RECEIVE_IP_REPLY n, []).
Proof. done. Qed.

Lemma ip_step : slave_announce_ip cfg ≠ None →
  syncWithMaster cfg (line_io r) (set_state REPL_STATE_RECEIVE_IP_REPLY n) =
  Some (set_state REPL_STATE_RECEIVE_CAPA_REPLY n, []).
Proof. intros Hi. unfold syncWithMaster. cbn. by destruct (slave_announce_ip cfg). Qed.

Lemma capa_step st : st = REPL_STATE_RECEIVE_CAPA_REPLY ∨ st = REPL_STATE_RECEIVE_IP_REPLY ∧ slave_announce_ip cfg = None →
  syncWithMaster cfg (line_io r) (set_state st n) =
  Some (set_state REPL_STATE_RECEIVE_PSYNC_REPLY (set_told (master_replid n) (-1) n),
    [sendCommand ["PSYNC"; (psync_args n).1; (psync_args n).2]]).
Proof. intros [-> |[-> Hi]]; unfold syncWithMaster; cbn -[sendCommand]; by rewrite ?Hi. Qed.
End steps.

Lemma handshake_step cfg r replies n n' out : syncWithMaster cfg (line_io r) n = Some (n', out) →
  handshake cfg (r :: replies) n = '(n'', out') ← handshake cfg replies n'; Some (n'', out ++ out').
Proof. intros H. cbn [handshake]. by rewrite H, option_bind_some. Qed.

(** C24: the handshake of a replica is in step with its master.  For every
    configuration, the replica sends PING, what it has to tell about itself,
    and the request for the rest of the stream, and between them it waits for
    exactly one line for each command that it has sent, no more and no less; it
    asks for the byte after the last one that it has applied, of the history
    that it has followed, or for a snapshot when it has followed none. *)
Theorem handshake_in_step cfg n first replies (Hn : repl_state n = REPL_STATE_CONNECTING)
    (Hr : handshake_replies cfg replies) :
  handshake cfg (first :: replies) n =
    Some (set_state REPL_STATE_RECEIVE_PSYNC_REPLY (set_told (master_replid n) (-1) n),
      [sendCommand ["PING"]] ++ handshake_commands cfg ++
      [sendCommand ["PSYNC"; (psync_args n).1; (psync_args n).2]]) ∧
  length replies = S (length (handshake_commands cfg)).
Proof.
  destruct replies as [|pong rest]; [done|]. destruct Hr as (Hp & Hl & Ha).
  split; [|cbn; by rewrite Hl]. replace n with (set_state REPL_STATE_CONNECTING n) by (destruct n; cbn in *; by subst).
  rewrite (handshake_step _ _ _ _ _ _ (connecting_step _ _ _)), (handshake_step _ _ _ _ _ _ (ping_step _ _ _ Hp)).
  unfold handshake_commands in Hl |- *. revert Hl.
  destruct (masterauth cfg) eqn:Ea, (slave_announce_ip cfg) eqn:Ei; cbn [length app]; intros Hl;
    repeat ((destruct rest as [|? rest]; [discriminate|injection Hl as Hl]) || (destruct rest; [|discriminate])).
  - rewrite (handshake_step _ _ _ _ _ _ (auth_step _ _ _ ltac:(by rewrite Ea) (Ha ltac:(done)))),
      (handshake_step _ _ _ _ _ _ (port_step _ _ _)),
      (handshake_step _ _ _ _ _ _ (ip_step _ _ _ ltac:(by rewrite Ei))),
      (handshake_step _ _ _ _ _ _ (capa_step _ _ _ _ (or_introl eq_refl))). done.
  - rewrite (handshake_step _ _ _ _ _ _ (auth_step _ _ _ ltac:(by rewrite Ea) (Ha ltac:(done)))),
      (handshake_step _ _ _ _ _ _ (port_step _ _ _)),
      (handshake_step _ _ _ _ _ _ (capa_step _ _ _ _ (or_intror (conj eq_refl Ei)))). done.
  - rewrite (handshake_step _ _ _ _ _ _ (no_auth_step _ _ _ Ea)),
      (handshake_step _ _ _ _ _ _ (ip_step _ _ _ ltac:(by rewrite Ei))),
      (handshake_step _ _ _ _ _ _ (capa_step _ _ _ _ (or_introl eq_refl))). done.
  - rewrite (handshake_step _ _ _ _ _ _ (no_auth_step _ _ _ Ea)),
      (handshake_step _ _ _ _ _ _ (capa_step _ _ _ _ (or_intror (conj eq_refl Ei)))). done.
Qed.

Definition sample_conf : repl_conf := mkConf (Some "secret") None 0 false 0 6380 None.
Definition sample_replica : node :=
  mkNode (mkMaster [] 0 None 120 [] 1048576 (-1) "b" "0" (-1)) (Some ("10.0.0.1", 6379)) REPL_STATE_CONNECTING None
    (Some (set_link createClient (Some (mkLink 120 120 0 [] false)), "8a4c8e5e2fd2d9de4d1c7a0fbb5a1b3c6d7e8f90"))
    EmptyString 0.

Lemma handshake_in_step_witness : ∃ n,
  handshake sample_conf [EmptyString; "+PONG"; "+OK"; "+OK"; "-ERR unknown option"] sample_replica =
    Some (n, [sendCommand ["PING"]; sendCommand ["AUTH"; "secret"];
      sendCommand ["REPLCONF"; "listening-port"; "6380"]; sendCommand ["REPLCONF"; "capa"; "eof"; "capa"; "psync2"];
      sendCommand ["PSYNC"; "8a4c8e5e2fd2d9de4d1c7a0fbb5a1b3c6d7e8f90"; "121"]]).
Proof.
  eexists. rewrite (proj1 (handshake_in_step sample_conf sample_replica EmptyString
    ["+PONG"; "+OK"; "+OK"; "-ERR unknown option"] eq_refl ltac:(by split_and!))).
  vm_compute. reflexivity.
Defined.

(** ** The answers to PSYNC *)

(** The lines of the master, without the end of line that
    [receiveSynchronousResponse] takes off: +CONTINUE has the identifier for a
    replica with the capability [psync2]. *)
Definition continue_line (psync2 : bool) (id : string) : string :=
  if psync2 then "+CONTINUE " +:+ id else "+CONTINUE".
Definition fullresync_line (id : string) (offset : Z) : string :=
  "+FULLRESYNC " +:+ id +:+ " " +:+ pretty offset.

(** An identifier as [getRandomHexChars] makes it. *)
Record is_replid (id : string) : Prop := {
  replid_size : String.length id = CONFIG_RUN_ID_SIZE;
  replid_space : char_free " " id;
  replid_cr : char_free CR id;
  replid_lf : char_free LF id;
}.

Lemma line_end_free s : char_free CR s → char_free LF s → line_end s = String.length s.
Proof.
  induction s as [|c s IH]; [done|]. intros [H1 H2] [H3 H4]. cbn. rewrite decide_False by naive_solver.
  by rewrite IH.
Qed.

Lemma parse_continue_line id : is_replid id → parse_continue (continue_line true id) = Some id.
Proof.
  intros [Hs _ Hc Hl]. unfold parse_continue, continue_line. cbn [String.append sdrop].
  assert (line_end (String " " id) = S (String.length id)) as ->.
  { rewrite line_end_free; by try split. }
  rewrite Hs, Nat.eqb_refl. f_equal. rewrite <- Hs. apply stake_all. lia.
Qed.

Lemma strtol_pretty z : in_llong z → strtol (pretty z) = z.
Proof.
  intros Hz. unfold strtol. rewrite <- (string_app_nil_r (pretty z)), subject_sequence_pretty by done.
  by apply clamp_long_id.
Qed.

Lemma parse_fullresync_line id offset : is_replid id → in_llong offset →
  parse_fullresync (fullresync_line id offset) = Some (id, offset).
Proof.
  intros [Hs Hsp _ _] Ho. unfold parse_fullresync, fullresync_line.
  pose proof (strchr_app " " "+FULLRESYNC" (id +:+ " " +:+ pretty offset) ltac:(by repeat split)) as H1.
  pose proof (strchr_app " " id (pretty offset) Hsp) as H2. cbn [String.append] in H1, H2 |- *.
  rewrite H1, option_bind_some. cbn [sdrop]. rewrite H2.
  rewrite option_bind_some. cbn [sdrop]. rewrite strtol_pretty by done.
  rewrite string_length_app. cbn [String.append String.length].
  replace (String.length id + S (String.length (pretty offset)) - String.length (pretty offset) - 1)%nat
    with (String.length id) by lia.
  rewrite Hs, Nat.eqb_refl. do 2 f_equal. rewrite <- Hs. apply stake_app.
Qed.

(** An answer +CONTINUE to a replica that asked for a snapshot dereferences
    [server.cached_master], which is not there. *)
Lemma unasked_continue_crashes n reply : cached_master n = None → starts_with "+CONTINUE" reply = true →
  psync_reply (Some reply) n = None.
Proof.
  intros Hc Hr. unfold starts_with in Hr. apply bool_decide_eq_true in Hr.
  rewrite <- (stake_sdrop (String.length "+CONTINUE") reply), Hr. unfold psync_reply. cbn -[parse_continue].
  destruct (parse_continue _); [unfold adopt_id; by rewrite Hc|].
  rewrite option_bind_some. unfold replicationResurrectCachedMaster. by rewrite Hc.
Qed.

(** ** The commands of the master, over many connections *)

(** The requests that are wholly in the first [n] bytes of [reqs], and the
    others. *)
Fixpoint whole (n : nat) (reqs : list (list string)) : list (list string) * list (list string) :=
  match reqs with
  | [] => ([], [])
  | r :: reqs' =>
      if (String.length (resp_request r) <=? n)%nat
      then let '(done, rest) := whole (n - String.length (resp_request r)) reqs' in (r :: done, rest)
      else ([], reqs)
  end.

Lemma whole_app n reqs : (whole n reqs).1 ++ (whole n reqs).2 = reqs.
Proof.
  revert n. induction reqs as [|r reqs IH]; intros n; [done|]. cbn. case_match; [|done].
  specialize (IH (n - String.length (resp_request r))%nat). destruct (whole _ reqs). cbn in *. by rewrite IH.
Qed.

Lemma wire_app a b : wire (a ++ b) = wire a +:+ wire b.
Proof.
  induction a as [|r a IH]; [done|]. cbn [app wire foldr]. fold (wire (a ++ b)) (wire a).
  by rewrite IH, string_app_assoc.
Qed.

Lemma whole_unique ready rest n k : (n + k = String.length (wire (ready ++ rest)))%nat →
  (k ≤ String.length (wire rest))%nat →
  match rest with [] => True | _ :: rest' => (String.length (wire rest') < k)%nat end →
  whole n (ready ++ rest) = (ready, rest).
Proof.
  revert n. induction ready as [|r ready IH]; intros n; cbn [app].
  - intros Hn Hk Hs. destruct rest as [|r rest]; [done|]. cbn [whole wire foldr] in *. fold (wire rest) in *.
    rewrite string_length_app in *. destruct (Nat.leb_spec (String.length (resp_request r)) n); [lia|done].
  - cbn [whole wire foldr]. fold (wire (ready ++ rest)). rewrite string_length_app. intros Hn Hk Hs.
    pose proof (wire_app ready rest) as Hw. apply (f_equal String.length) in Hw. rewrite string_length_app in Hw.
    destruct (Nat.leb_spec (String.length (resp_request r)) n); [|lia]. by rewrite IH by (done || lia).
Qed.

(** The client of the master after the connection was lost and taken up again. *)
Definition resumed (c : client) : client := set_closing (forget_unapplied (set_closing c NotClosing)) NotClosing.

(** Without a protocol error, that is what a lost connection and the answer
    +CONTINUE make of it. *)
Lemma lost_and_resumed connects n c id : the_master n = Some (c, id) → cached_master n = None →
  closing c ≠ ProtocolError → blocked c = false →
  ∃ n' n'', freeMaster connects n = Some n' ∧ cached_master n' = Some (forget_unapplied (set_closing c NotClosing), id) ∧
    replicationResurrectCachedMaster n' = Some n'' ∧ the_master n'' = Some (resumed c, id).
Proof.
  intros Hm Hc Hcl Hb. unfold freeMaster. rewrite Hm, Hb. unfold replicationCacheMaster.
  destruct (closing c); try done; cbn; rewrite Hc; eexists _, _; (split; [done|]);
    unfold replicationHandleMasterDisconnection, connectWithMaster; cbn;
    destruct (masterhost n), connects; by split.
Qed.

Section connections.
Context (server : environ) (s : standing) (processCommand : list string → cmd ()).
Context (client_max_querybuf_len : Z).

(** The reads of one connection after the other. *)
Fixpoint serve_connections (c : client) (conns : list (list string)) : cmd client :=
  match conns with
  | [] => mret c
  | pieces :: conns =>
      c ← serve_reads server s processCommand client_max_querybuf_len c (ReadData <$> pieces);
      serve_connections (resumed c) conns
  end.
End connections.

(** Each connection brings the start of what is left, cut into reads. *)
Fixpoint brings (reqs : list (list string)) (conns : list (list string)) : Prop :=
  match conns with
  | [] => True
  | pieces :: conns =>
      let n := String.length (stream pieces) in
      stream pieces = stake n (wire reqs) ∧ Forall (λ p, p ≠ EmptyString) pieces ∧ brings (whole n reqs).2 conns
  end.

(** What arrives as a whole, over all of them, and what is left. *)
Fixpoint arrived (reqs : list (list string)) (conns : list (list string)) : list (list string) * list (list string) :=
  match conns with
  | [] => ([], reqs)
  | pieces :: conns =>
      let '(a, rest) := whole (String.length (stream pieces)) reqs in
      let '(b, rest) := arrived rest conns in (a ++ b, rest)
  end.

Lemma stream_requests reqs : stream (resp_request <$> reqs) = wire reqs.
Proof. induction reqs as [|r reqs IH]; [done|]. change (wire (r :: reqs)) with (resp_request r +:+ wire reqs). by rewrite <- IH. Qed.

Lemma request_nonempty r : (0 < String.length (resp_request r))%nat.
Proof. unfold resp_request. cbn. lia. Qed.

(** A link with nothing in its buffer. *)
Definition idle_link (offset : Z) (fed : list string) : client :=
  set_link createClient (Some (mkLink offset offset 0 fed false)).

Lemma resumed_idle c l : link c = Some l → blocked c = false →
  resumed c = idle_link (reploff l) (proxied l).
Proof. intros E Hb. unfold resumed, forget_unapplied, idle_link, createClient, set_link. cbn. by rewrite E, Hb. Qed.

(** A request that does not open a transaction. *)
Definition no_multi (req : list string) : Prop := multi_after false req = false.

Section exactly_once.
Context (server : environ) (s : standing) (processCommand : list string → cmd ()).
Context (client_max_querybuf_len : Z).

(** One connection: the requests that arrive as a whole are executed, counted
    and passed on. *)
Lemma connection_applies offset fed pieces reqs :
  let n := String.length (stream pieces) in
  Forall (acceptable server s true) reqs → Forall no_multi reqs → stream pieces = stake n (wire reqs) →
  Forall (λ p, p ≠ EmptyString) pieces →
  ∃ c' l', (∀ σ, serve_reads server s processCommand client_max_querybuf_len (idle_link offset fed) (ReadData <$> pieces) σ =
      (process_all processCommand (whole n reqs).1;; mret c') σ) ∧
    link c' = Some l' ∧ blocked c' = false ∧ reploff l' = offset + len (wire (whole n reqs).1) ∧
    proxied l' = fed ++ (resp_request <$> (whole n reqs).1).
Proof.
  intros n Hok Hplain Hst Hne. set (future := sdrop n (wire reqs)).
  assert (stream pieces +:+ future = wire reqs) as Hf.
  { transitivity (stake n (wire reqs) +:+ future); [by f_equal|apply stake_sdrop]. }
  clearbody future.
  destruct (serve_pieces server s processCommand client_max_querybuf_len 0 pieces (idle_link offset fed) future reqs)
    as (ready & rest & c' & Hreqs & Hrun & [_ Hp Hl Ha _] & Hg & Hpo & Hs & _).
  { rewrite Hf. apply expecting_start; [done| |done]. by intros m [= <-]. }
  { done. }
  { done. }
  { intros ->. cbn [stream foldr String.append] in Hf. rewrite Hf. destruct reqs as [|r reqs]; [done|].
    change (wire (r :: reqs)) with (resp_request r +:+ wire reqs). cbn [short].
    pose proof (request_nonempty r). rewrite string_length_app. lia. }
  unfold link_grown in Hg. change (link (idle_link offset fed)) with (Some (mkLink offset offset 0 fed false)) in Hg.
  destruct (link c') as [l'|] eqn:El; [|done]. destruct Hg as (Hh & Hr & _).
  specialize (Hpo (mkLink offset offset 0 fed false) l' eq_refl El). cbn in Hpo.
  assert (whole n reqs = (ready, rest)) as ->.
  { subst reqs. apply (f_equal String.length) in Hf. rewrite string_length_app in Hf.
    apply (whole_unique _ _ _ (String.length future)); [done| |by destruct rest].
    specialize (Ha l' El). apply (f_equal String.length) in Ha. rewrite string_length_app in Ha. lia. }
  exists c', l'. split_and!; [done|done|by inversion Hp| |done].
  rewrite (link_offset _ Hl l' El). pose proof (link_applied _ Hl l' El). pose proof (link_inside _ Hl).
  unfold history in Hh. cbn [proxied repl_applied querybuf set_link createClient sdrop] in Hh. rewrite Hpo, stream_app, stream_requests in Hh.
  apply (f_equal String.length) in Hh. rewrite !string_length_app, sdrop_length in Hh. cbn in Hh, Hr.
  cbn [fst]. unfold len in *. lia.
Qed.

Lemma arrived_app reqs conns : (arrived reqs conns).1 ++ (arrived reqs conns).2 = reqs.
Proof.
  revert reqs. induction conns as [|p conns IH]; intros reqs; [done|]. cbn.
  pose proof (whole_app (String.length (stream p)) reqs) as Hw. destruct (whole _ reqs) as [a rest]. cbn in Hw.
  specialize (IH rest). destruct (arrived rest conns) as [b rest']. cbn in *. by rewrite <- Hw, <- IH, (assoc_L (++)).
Qed.

Lemma connections_apply conns : ∀ offset fed reqs, Forall (acceptable server s true) reqs →
  Forall no_multi reqs → brings reqs conns →
  ∃ c' l', (∀ σ, serve_connections server s processCommand client_max_querybuf_len (idle_link offset fed) conns σ =
      (process_all processCommand (arrived reqs conns).1;; mret c') σ) ∧
    link c' = Some l' ∧ reploff l' = offset + len (wire (arrived reqs conns).1) ∧
    proxied l' = fed ++ (resp_request <$> (arrived reqs conns).1).
Proof.
  induction conns as [|p conns IH]; intros offset fed reqs Hok Hplain Hb; cbn [serve_connections arrived].
  { eexists _, _. split_and!; [done|done|cbn; unfold len; cbn; lia|cbn; by rewrite app_nil_r]. }
  destruct Hb as (Hst & Hne & Hb).
  destruct (connection_applies offset fed p reqs Hok Hplain Hst Hne) as (c1 & l1 & Hrun & E1 & Hb1 & Ho1 & Hp1).
  pose proof (whole_app (String.length (stream p)) reqs) as Hw.
  destruct (whole (String.length (stream p)) reqs) as [a rest]. cbn [fst snd] in *. rewrite <- Hw in Hok, Hplain.
  apply Forall_app in Hok as [_ Hok], Hplain as [_ Hplain].
  destruct (IH (reploff l1) (proxied l1) rest Hok Hplain Hb) as (c' & l' & Hrun' & E' & Ho' & Hp').
  destruct (arrived rest conns) as [b rest']. cbn [fst snd] in *. exists c', l'. split_and!; [|done| |].
  - intros σ. unfold mbind, cmd_bind. rewrite Hrun, process_all_app. unfold mbind, cmd_bind.
    destruct (process_all processCommand a σ) as [[[] σ1]|]; [|done]. unfold mret, cmd_ret.
    rewrite (resumed_idle c1 l1 E1 Hb1). apply Hrun'.
  - rewrite Ho', Ho1, wire_app. unfold len. rewrite string_length_app. lia.
  - by rewrite Hp', Hp1, fmap_app, (assoc_L (++)).
Qed.
End exactly_once.

(** C23: a replica applies the commands of its master once each and in order.
    The master's stream is a sequence of commands outside transactions; it comes over any number of
    connections, each of which starts where the replica asks for it, is cut into
    reads in any way and is lost at any byte.  The replica executes exactly the
    commands that have come as a whole, which are the first ones of the
    sequence, none twice and none left out; its offset is the end of the
    last of them; and each is passed on as it came to the replicas behind it. *)
Theorem applied_exactly_once server s processCommand client_max_querybuf_len offset reqs conns
    (Hok : Forall (acceptable server s true) reqs)
    (Hplain : Forall (λ req, multi_after false req = false) reqs) (Hb : brings reqs conns) :
  ∃ c' l', (∀ σ, serve_connections server s processCommand client_max_querybuf_len (idle_link offset []) conns σ =
      (process_all processCommand (arrived reqs conns).1;; mret c') σ) ∧
    (arrived reqs conns).1 ++ (arrived reqs conns).2 = reqs ∧
    link c' = Some l' ∧ reploff l' = offset + len (wire (arrived reqs conns).1) ∧
    proxied l' = resp_request <$> (arrived reqs conns).1.
Proof.
  destruct (connections_apply server s processCommand client_max_querybuf_len conns offset [] reqs Hok Hplain Hb)
    as (c' & l' & Hrun & E & Ho & Hp).
  exists c', l'. split_and!; [done|apply arrived_app|done|done|done].
Qed.

(** The first connection is lost inside the second command. *)
Definition sample_conns : list (list string) :=
  [[stake 60 (wire sample_wire); stake 23 (sdrop 60 (wire sample_wire))];
   cut 100 (wire (drop 1 sample_wire))].

Lemma applied_exactly_once_witness : ∃ c' l' σ,
  serve_connections plain_env plain_standing table_command 1073741824 (idle_link 1000 []) sample_conns plain_server =
    Some (c', σ) ∧ reply σ = [RInteger 2; ok; RString "7"] ∧ link c' = Some l' ∧ reploff l' = 1000 + len (wire sample_wire).
Proof.
  destruct (applied_exactly_once plain_env plain_standing table_command 1073741824 1000 sample_wire sample_conns)
    as (c' & l' & Hrun & _ & E & Ho & _).
  - repeat constructor; vm_compute; (discriminate || intros; discriminate).
  - repeat constructor.
  - split_and!; try (vm_compute; reflexivity); try done; repeat constructor; discriminate.
  - exists c', l'. rewrite (Hrun plain_server). eexists.
    split; [vm_compute; reflexivity|]. split; [vm_compute; reflexivity|]. split; [exact E|]. rewrite Ho.
    vm_compute. reflexivity.
Defined.
