(* ===== verification/ReplicaRun.v ===== *)
(** * Histories that go on

    A server over time: it synchronises with a master, applies and passes on
    its stream, loses the connection and takes it up again, is made a master
    and a replica of another one, and all the while has replicas of its own.
    Every replication identifier names a history, a sequence of bytes.  If the
    masters that a server follows send what the history has, then so does the
    server: whoever it accepts for a partial resynchronisation, after any
    changes of roles, has the same bytes up to there, and gets the right ones
    from there on. *)

From S2P Require Import Prelude CLib Buffers Hiredis Util Db DbRel Server ServerRefine Networking NetworkingSpec.
From S2P Require Import Replication ReplicationSpec ReplicationStream ReplicationRun Replica ReplicaSpec.
From Stdlib Require Import Ascii.

#[local] Abbreviation slen s := (Z.of_nat (String.length s)).

(** ** The identifiers *)

(** The identifiers of a server, and how far the second one counts. *)
Definition ids (m : master) : string * string * Z := (replid m, replid2 m, second_replid_offset m).

(** They are the same, and so is whether there is a backlog. *)
Definition same_ids (m m' : master) : Prop := ids m' = ids m ∧ (repl_backlog m ≠ None → repl_backlog m' ≠ None).

Lemma trim_ids n m m' : incrementalTrimReplicationBacklog n m = Some m' → same_ids m m'.
Proof. by intros (bl & _ & ([l bl'] & _ & [= <-])%bind_Some)%bind_Some. Qed.

Lemma free_buffer_ids r m m' : freeReplicaReferencedReplBuffer r m = Some m' → same_ids m m'.
Proof.
  unfold freeReplicaReferencedReplBuffer. destruct (ref_repl_buf_node r); [|by intros [= <-]].
  intros (o & _ & H)%bind_Some. case_match; [done|]. by apply trim_ids in H.
Qed.

Lemma freeClient_ids i m m' : freeClient i m = Some m' → same_ids m m'.
Proof. intros (r & _ & (m1 & H & [= <-])%bind_Some)%bind_Some. by apply free_buffer_ids in H. Qed.

Section ids.
Variable usable : nat → nat.
Variable over_limits : master → replica → bool.
Variable dbnum : Z.

Lemma copy_bytes_ids m bl s m' s' start b : copy_bytes usable m bl s = Some (m', s', start, b) → ids m' = ids m.
Proof.
  unfold copy_bytes. intros H.
  assert (∀ m1 s1 start1, append_tail m bl s = (m1, s1, start1) → ids m1 = ids m) as Ht.
  { clear H. unfold append_tail. intros m1 s1 start1. destruct (last _) as [tail|]; [|by intros [= <- _ _]].
    destruct (block_used tail <? block_size tail)%nat; by intros [= <- _ _]. }
  destruct (append_tail m bl s) as [[m1 s1] start1]. specialize (Ht _ _ _ eq_refl).
  destruct s1 as [|ch s1]; [by injection H as <- _ _ _|].
  apply bind_Some in H as (bl1 & _ & H). destruct (add_block usable m1 bl1 _) as [m2 s2] eqn:E.
  injection H as <- _ _ _. unfold add_block in E. by injection E as <- _.
Qed.

Lemma feed_backlog_ids start b m m' : feed_backlog start b m = Some m' → ids m' = ids m.
Proof.
  intros (bl & _ & H)%bind_Some. destruct (backlog_ref bl); [by injection H as <-|].
  destruct (negb _); [done|]. by injection H as <-.
Qed.

Lemma feed_round_ids m bl s m' s' : feed_round usable over_limits m bl s = Some (m', s') → ids m' = ids m.
Proof.
  unfold feed_round. intros ([[[m1 s1] start] b] & H1 & H)%bind_Some. apply copy_bytes_ids in H1. rewrite <- H1.
  apply bind_Some in H as (st & _ & H). destruct (feed_slaves _ _ _ _ _ _) as [rs l].
  apply bind_Some in H as (m2 & H2 & H). apply feed_backlog_ids in H2. transitivity (ids m2); [|exact H2].
  destruct b; [|by injection H as <- _]. apply bind_Some in H as (bl2 & _ & H).
  apply bind_Some in H as (tail & _ & H). apply bind_Some in H as (m3 & H3 & H). injection H as <- _.
  by apply trim_ids in H3 as [-> _].
Qed.

Lemma feedReplicationBuffer_ids s m m' : feedReplicationBuffer usable over_limits s m = Some m' → ids m' = ids m.
Proof.
  unfold feedReplicationBuffer. destruct (repl_backlog m); [|by intros [= <-]].
  generalize (String.length s) as fuel. intros fuel. revert m s.
  induction fuel as [|fuel IH]; intros m [|ch s]; cbn [feed_loop]; try done; try (by intros [= <-]).
  intros (bl & _ & ([m1 s1] & H1 & H)%bind_Some)%bind_Some. apply feed_round_ids in H1. apply IH in H. congruence.
Qed.

Lemma feed_all_ids l m m' : feed_all usable over_limits l m = Some m' → ids m' = ids m.
Proof.
  revert m. induction l as [|s l IH]; intros m; cbn; [by intros [= <-]|].
  intros (m1 & H1 & H)%bind_Some. apply feedReplicationBuffer_ids in H1. apply IH in H. congruence.
Qed.

Lemma feedSlaves_ids dictid argv m m' :
  replicationFeedSlaves usable over_limits dbnum dictid argv m = Some m' → ids m' = ids m.
Proof.
  unfold replicationFeedSlaves. case_match; [done|]. destruct (repl_backlog m), (slaves m); try done.
  3: by intros [= <-].
  all: intros (m1 & H1 & Hf)%bind_Some; apply feed_all_ids in Hf; rewrite Hf; case_match; [|by injection H1 as <-];
    apply bind_Some in H1 as (m2 & H2 & H1); apply feedReplicationBuffer_ids in H2; by injection H1 as <-.
Qed.

Lemma feedStream_ids buf m m' :
  replicationFeedStreamFromMasterStream usable over_limits buf m = Some m' → ids m' = ids m.
Proof.
  unfold replicationFeedStreamFromMasterStream. destruct (slaves m), (repl_backlog m); try done.
  2: by intros [= <-].
  all: apply feedReplicationBuffer_ids.
Qed.
End ids.

Lemma writeToReplica_ids i conn m m' out : writeToReplica i conn m = Some (m', out) → same_ids m m'.
Proof.
  intros (r & _ & (id & _ & (o & _ & H)%bind_Some)%bind_Some)%bind_Some. case_match; [done|].
  cbv zeta in H. match type of H with match ?x with Some _ => _ | None => _ end = _ => destruct x as [n|] end;
    [|by injection H as <- _].
  destruct (next_block _ _); [|by injection H as <- _]. case_match; [|by injection H as <- _].
  apply bind_Some in H as (m1 & Ht & H). apply trim_ids in Ht. by injection H as <- _.
Qed.

Lemma setup_waiting_ids e req rs m : let m' := setup_waiting e req rs m in
  ids m' = ids m ∧ repl_backlog m' = repl_backlog m ∧ master_repl_offset m' = master_repl_offset m.
Proof.
  revert m. induction rs as [|r rs IH]; intros m; [done|]. cbn [setup_waiting].
  match goal with |- context [setup_waiting e req rs ?m1] => destruct (IH m1) as (-> & -> & ->) end. by case_match.
Qed.

Lemma startBgsave_ids e mincapa req m m' b : startBgsaveForReplication e mincapa req m = Some (m', b) →
  ids m' = ids m ∧ repl_backlog m' = repl_backlog m ∧ master_repl_offset m' = master_repl_offset m.
Proof.
  unfold startBgsaveForReplication. cbv zeta. case_match; [done|]. case_match; [by intros [= <- _]|].
  intros [= <- _]. apply setup_waiting_ids.
Qed.

Lemma attach_ids e c m m' : attach_to_snapshot e c m = Some m' → same_ids m m'.
Proof.
  unfold attach_to_snapshot. destruct (attach_candidate c m) as [s|]; [|by intros [= <-]].
  case_match; [|by intros [= <-]]. intros (m1 & Hc & [= <-])%bind_Some. cbn.
  destruct (c_rdb_only c); [by injection Hc as <-|]. apply bind_Some in Hc as (r & _ & Hc).
  destruct (ref_repl_buf_node r); by injection Hc as <-.
Qed.

(** The identifiers change when a backlog is created for the first replica. *)
Definition fresh_ids (m : master) : Prop := replid2 m = "0000000000000000000000000000000000000000" ∧ second_replid_offset m = -1.

Lemma add_waiting_ids e c pre m m' : add_waiting e c pre m = Some m' →
  same_ids m m' ∨ repl_backlog m = None ∧ fresh_ids m'.
Proof.
  unfold add_waiting. cbv zeta. cbn [repl_backlog set_slaves]. destruct (repl_backlog m) eqn:E; [intros [= <-]; by left|].
  case_match; [|intros [= <-]; by left]. unfold createReplicationBacklog. cbn. rewrite E. intros [= <-]. by right.
Qed.

Lemma full_sync_ids e c pre m m' : full_sync e c pre m = Some m' → same_ids m m' ∨ repl_backlog m = None ∧ fresh_ids m'.
Proof.
  intros (m1 & H1 & H)%bind_Some. apply add_waiting_ids in H1.
  assert (same_ids m1 m') as [Hi Hb].
  { destruct (active_child e) as [[]|]; [by apply attach_ids in H|by injection H as <-|by case_match; injection H as <-|].
    case_match; [by injection H as <-|]. apply fmap_Some in H as ([m2 b] & H & ->). apply startBgsave_ids in H as (Hi & Hb & _).
    split; [done|cbn; by rewrite Hb]. }
  destruct H1 as [[Hi1 Hb1]|[E1 F1]]; [left; split; [congruence|auto]|right]. unfold fresh_ids in *.
  by injection Hi as _ -> ->.
Qed.

Lemma partial_ids c id offset sent m m' b : masterTryPartialResynchronization c id offset sent m = Some (m', b) →
  same_ids m m' ∧ (b = false → m' = m).
Proof.
  unfold masterTryPartialResynchronization. case_match; [by intros [= <- _]|].
  destruct (repl_backlog m); [|by intros [= <- _]]. case_match; [by intros [= <- _]|]. cbv zeta.
  case_match; [by intros [= <- <-]|]. intros ([m2 z] & Hr & [= <- <-])%bind_Some. split; [|done].
  revert Hr. unfold addReplyReplicationBacklog. intros (bl & _ & Hr)%bind_Some. case_match; [by injection Hr as <- _|].
  apply bind_Some in Hr as (nd & _ & (o & _ & Hr)%bind_Some). by injection Hr as <- _.
Qed.

Lemma syncCommand_ids e c psync m m' : syncCommand e c psync m = Some m' →
  same_ids m m' ∨ repl_backlog m = None ∧ fresh_ids m'.
Proof.
  unfold syncCommand. destruct (find_replica _ m); [intros [= <-]; by left|]. case_match; [intros [= <-]; by left|].
  case_match; [intros [= <-]; by left|]. destruct psync as [[id offset]|]; [|apply full_sync_ids].
  intros ([m1 b] & [Hi Hf]%partial_ids & Hs)%bind_Some.
  destruct b; [injection Hs as <-; by left|]. rewrite Hf in Hs by done. by apply full_sync_ids in Hs.
Qed.

Lemma cron_ids e m m' : replicationCron e m = Some m' →
  (same_ids m m' ∨ repl_backlog m' = None ∧ fresh_ids m' ∧ backlog_expired e = true) ∧
  master_repl_offset m' = master_repl_offset m.
Proof.
  intros (m1 & H1 & (m2 & H2 & H)%bind_Some)%bind_Some.
  assert (m' = m2) as -> by (destruct (repl_buffer_blocks m2); [by injection H|]; case_match; [by injection H|done]).
  assert (ids m2 = ids m1 ∧ repl_backlog m2 = repl_backlog m1 ∧ master_repl_offset m2 = master_repl_offset m1)
    as (Hi & Hb & Ho).
  { revert H2. unfold replicationStartPendingFork. destruct (shouldStartChildReplication e m1) as [[mc req]|];
      [|by intros [= <-]]. intros ([m3 b] & H2 & ->)%fmap_Some. by apply startBgsave_ids in H2. }
  unfold fresh_ids, same_ids. rewrite Hb, Ho. unfold ids in *. injection Hi as -> -> ->.
  assert (m1 = m ∨ freeReplicationBacklog (change_ids (random_id e) m) = Some m1 ∧ backlog_expired e = true) as [->|[Hf He]].
  { destruct (slaves m); [|injection H1 as <-; by left]. destruct (repl_backlog m); [|injection H1 as <-; by left].
    destruct (backlog_expired e); [by right|injection H1 as <-; by left]. }
  { split; [by left|done]. }
  revert Hf. unfold freeReplicationBacklog. cbn. destruct (slaves m); [|done]. destruct (repl_backlog m) eqn:Eb.
  - intros (? & _ & [= <-])%bind_Some. split; [by right|done].
  - intros [= <-]. split; [by right|done].
Qed.

(** ** What a change of roles does to the replicas *)

Lemma world_rest honest m m' base stream told : same_rest m m' → slaves m' = slaves m →
  world_ok honest (mkWorld m base stream told) → world_ok honest (mkWorld m' base stream told).
Proof.
  intros Hr Hs. pose proof Hr as (E1 & _ & E3 & E4). unfold world_ok. cbn. rewrite E3, Hs, E1, E4.
  destruct (repl_backlog m) as [bl0|]; [|done]. intros [H1 H0 H2 H3]. split; [|done| |].
  - apply (same_rest_ok _ _ m); [done|]. destruct H1 as (bl & [R1 R2 R3 R4] & Hb). rewrite Hs. exists bl.
    split; [by split|done].
  - rewrite Hs. eapply Forall_impl; [exact H2|]. intros q Hf Hst. destruct (Hf Hst) as (start & s & F1 & F2 & F3 & F4 & F5 & F6).
    exists start, s. split_and!; [done|done|done| |done|done]. intros Ha. rewrite (same_rest_position m m' q Hr). by apply F4.
  - by rewrite Hs.
Qed.

Lemma freeClient_slaves i m m' : freeClient i m = Some m' → slaves m' = filter (λ r, replica_id r ≠ i) (slaves m).
Proof.
  intros (r & _ & (m1 & H & [= <-])%bind_Some)%bind_Some. cbn. f_equal. revert H.
  unfold freeReplicaReferencedReplBuffer. destruct (ref_repl_buf_node r); [|by intros [= <-]].
  intros (o & _ & H)%bind_Some. case_match; [done|]. by apply trim_same_slaves in H.
Qed.

Lemma free_all_ok rs m base stream told : slaves m = rs → stream_ok false base stream told m →
  ∃ m', free_all rs m = Some m' ∧ slaves m' = [] ∧ ids m' = ids m ∧ stream_ok false base stream told m'.
Proof.
  revert m. induction rs as [|r rs IH]; intros m Hs Hok; cbn [free_all]; [by exists m|].
  pose proof (repl_ok_ids _ _ _ (so_repl _ _ _ _ _ Hok)) as Hn. rewrite Hs, fmap_cons in Hn.
  apply NoDup_cons in Hn as [Hn _].
  assert (find_replica (replica_id r) m = Some r) as Hf.
  { unfold find_replica. rewrite Hs, filter_cons, decide_True by done. done. }
  destruct (free_ok _ _ _ _ _ _ _ Hok Hf) as (m1 & E & Hok1). rewrite E, option_bind_some.
  destruct (IH m1) as (m' & E' & Hs' & Hi' & Hok'); [|done|].
  - rewrite (freeClient_slaves _ _ _ E), Hs. apply (filter_one _ [] r rs); [done|apply not_elem_of_nil|done].
  - exists m'. split_and!; [done|done| |done]. rewrite Hi'. by apply freeClient_ids in E as [? _].
Qed.

Lemma disconnect_ok m base stream told : world_ok false (mkWorld m base stream told) →
  ∃ m', disconnectSlaves m = Some m' ∧ slaves m' = [] ∧ ids m' = ids m ∧
    world_ok false (mkWorld m' base stream told) ∧ (repl_backlog m' = None ↔ repl_backlog m = None).
Proof.
  unfold disconnectSlaves. intros Hok. pose proof Hok as Hw. unfold world_ok in Hw. cbn in Hw.
  destruct (repl_backlog m) as [bl|] eqn:Eb.
  - destruct (free_all_ok (slaves m) m base stream told eq_refl Hw) as (m' & E & Hs & Hi & Hok').
    exists m'. split_and!; [done|done|done|by apply stream_world|].
    destruct (so_repl _ _ _ _ _ Hok') as (bl' & Hn & _). by rewrite (ro_backlog _ _ _ _ Hn).
  - destruct Hw as (Hs & _). rewrite Hs. exists m. by rewrite Eb.
Qed.

Lemma create_ok m base stream told : world_ok false (mkWorld m base stream told) → repl_backlog m = None →
  ∃ m', createReplicationBacklog m = Some m' ∧ ids m' = ids m ∧ repl_backlog m' ≠ None ∧ slaves m' = [] ∧
    world_ok false (mkWorld m' base stream told).
Proof.
  intros Hok Eb. unfold createReplicationBacklog. rewrite Eb. eexists. split; [done|]. split_and!; [done|done|..].
  - unfold world_ok in Hok. cbn in Hok. rewrite Eb in Hok. apply Hok.
  - unfold world_ok in Hok. cbn in Hok. rewrite Eb in Hok. destruct Hok as (Hs & Hb & -> & Hm & _).
    apply stream_world. split; cbn; [|done|by rewrite Hs|by rewrite Hs].
    eexists. split; [split; cbn; [lia|rewrite Hs; apply NoDup_nil_2|done|]|cbn; lia].
    rewrite Hb, Hs. split; cbn; try done;
      [split; cbn; try done; constructor|by exists EmptyString|constructor|by intros k id ?%elem_of_nil].
Qed.

Lemma free_backlog_world m base stream told : world_ok false (mkWorld m base stream told) → slaves m = [] →
  ∃ m', freeReplicationBacklog m = Some m' ∧ no_replicas m' ∧ ids m' = ids m ∧
    master_repl_offset m' = master_repl_offset m.
Proof.
  intros Hok Hs. unfold world_ok in Hok. cbn in Hok. destruct (repl_backlog m) as [bl|] eqn:Eb.
  - destruct (free_backlog_ok _ _ _ _ EmptyString (so_repl _ _ _ _ _ Hok) Eb Hs) as (m' & E & _).
    unfold freeReplicationBacklog in *. cbn in E. rewrite Hs, Eb in *.
    apply bind_Some in E as (u & -> & _). rewrite option_bind_some. by eexists.
  - unfold freeReplicationBacklog. rewrite Hs, Eb. exists m. split_and!; [done| |done|done]. split_and!; [done| |done]. apply Hok.
Qed.

(** ** Histories *)

Section histories.
(** The byte at each offset of the history that an identifier names. *)
Variable H : string → Z → ascii.

(** Two histories are the same up to an offset. *)
Definition agree (id id' : string) (k : Z) : Prop := ∀ o, 0 ≤ o ≤ k → H id o = H id' o.

(** [s] is what the history has from offset [o] on. *)
Definition bytes_are (id : string) (o : Z) (s : string) : Prop :=
  ∀ i c, String.get i s = Some c → H id (o + Z.of_nat i) = c.

Lemma bytes_are_nil id o : bytes_are id o EmptyString.
Proof. by intros [|i] c. Qed.

Lemma string_get_app a b i : String.get i (a +:+ b) =
  if (i <? String.length a)%nat then String.get i a else String.get (i - String.length a) b.
Proof. revert i. induction a as [|c a IH]; intros [|i]; cbn; try done. Qed.

Lemma get_inside s i c : String.get i s = Some c → (i < String.length s)%nat.
Proof. revert i. induction s as [|d s IH]; intros [|i]; cbn; try done; [lia|]. intros ?%IH. lia. Qed.

Lemma bytes_are_app id o a b :
  bytes_are id o (a +:+ b) ↔ bytes_are id o a ∧ bytes_are id (o + slen a) b.
Proof.
  unfold bytes_are. split.
  - intros Hab. split; intros i c Hi.
    + apply Hab. rewrite string_get_app. apply get_inside in Hi as Hl. by rewrite (proj2 (Nat.ltb_lt _ _) Hl).
    + rewrite <- Z.add_assoc, <- Nat2Z.inj_add. apply Hab. rewrite string_get_app.
      rewrite (proj2 (Nat.ltb_ge _ _)) by lia. by rewrite Nat.add_comm, Nat.add_sub.
  - intros [Ha Hb] i c. rewrite string_get_app. destruct (Nat.ltb_spec i (String.length a)); [apply Ha|].
    intros Hi. specialize (Hb _ _ Hi). by replace (o + slen a + Z.of_nat (i - String.length a)) with (o + Z.of_nat i) in Hb by lia.
Qed.

Lemma bytes_are_take id o n s : bytes_are id o s → bytes_are id o (stake n s).
Proof. rewrite <- (stake_sdrop n s) at 1. by intros [? _]%bytes_are_app. Qed.

Lemma bytes_are_drop id o n s : (n ≤ String.length s)%nat → bytes_are id o s → bytes_are id (o + Z.of_nat n) (sdrop n s).
Proof.
  intros Hn. rewrite <- (stake_sdrop n s) at 1. intros [_ Hs]%bytes_are_app.
  by rewrite stake_length, Nat.min_l in Hs.
Qed.

Lemma bytes_are_from id base stream start : base < start → bytes_are id (base + 1) stream →
  bytes_are id start (from_offset base stream start).
Proof.
  intros Hb Hs. unfold from_offset.
  destruct (decide (Z.to_nat (start - base - 1) ≤ String.length stream)%nat) as [Hl|Hl].
  - apply (bytes_are_drop _ _ _ _ Hl) in Hs. by replace (base + 1 + _) with start in Hs by lia.
  - rewrite (string_length_zero (sdrop _ _)); [apply bytes_are_nil|]. rewrite sdrop_length. lia.
Qed.

Lemma bytes_are_agree id id' k o s : agree id id' k → 0 ≤ o → o + slen s - 1 ≤ k →
  bytes_are id o s → bytes_are id' o s.
Proof.
  intros Ha Ho Hk Hs i c Hi. rewrite <- (Hs i c Hi). symmetry. apply Ha. apply get_inside in Hi. lia.
Qed.

Lemma agree_trans a b c k k' : agree a b k → agree b c k' → k' ≤ k → agree a c k'.
Proof. intros H1 H2 Hk o Ho. rewrite H1 by lia. by apply H2. Qed.

Lemma agree_sym a b k : agree a b k → agree b a k.
Proof. intros Hab o Ho. by rewrite Hab. Qed.

Lemma agree_le a b k k' : agree a b k → k' ≤ k → agree a b k'.
Proof. intros Hab Hk o Ho. apply Hab. lia. Qed.

(** What a server holds is the history that it names, and the history of its
    second identifier is the same as far as that counts. *)
Record tells_history (w : world) : Prop := {
  th_base : -1 ≤ w_base w;
  th_stream : bytes_are (replid (w_master w)) (w_base w + 1) (w_stream w);
  th_second : agree (replid2 (w_master w)) (replid (w_master w)) (second_replid_offset (w_master w) - 1);
}.

Lemma tells_same w w' : ids (w_master w') = ids (w_master w) → w_base w' = w_base w → w_stream w' = w_stream w →
  tells_history w → tells_history w'.
Proof. unfold ids. intros [= E1 E2 E3] E4 E5 [H1 H2 H3]. split; by rewrite ?E1, ?E2, ?E3, ?E4, ?E5. Qed.

Lemma tells_fresh w : fresh_ids (w_master w) → -1 ≤ w_base w → w_stream w = EmptyString → tells_history w.
Proof. intros [_ E] Hb Hs. split; [done|rewrite Hs; apply bytes_are_nil|]. rewrite E. intros o Ho. lia. Qed.

Lemma tells_more w m' x : tells_history w → ids m' = ids (w_master w) →
  bytes_are (replid (w_master w)) (w_base w + slen (w_stream w) + 1) x →
  tells_history (mkWorld m' (w_base w) (w_stream w +:+ x) (w_told w)).
Proof.
  unfold ids. intros [H1 H2 H3] [= E1 E2 E3] Hx. split; cbn; rewrite ?E1, ?E2, ?E3; [done| |done].
  apply bytes_are_app. split; [done|]. by replace (w_base w + 1 + _) with (w_base w + slen (w_stream w) + 1) by lia.
Qed.

Lemma world_offset honest w : world_ok honest w → master_repl_offset (w_master w) = w_base w + slen (w_stream w).
Proof.
  unfold world_ok. destruct (repl_backlog (w_master w)).
  - intros [(bl & Hn & _) _ _ _]. apply Hn.
  - intros (_ & _ & -> & -> & _). cbn. lia.
Qed.

(** What is asked of the events of the server itself. *)
Definition event_tells (ev : event) (w : world) : Prop :=
  let m := w_master w in
  match ev with
  | Propagate dictid argv => repl_backlog m ≠ None → bytes_are (replid m) (master_repl_offset m + 1) (fed_bytes m dictid argv)
  | Relay buf => repl_backlog m ≠ None → bytes_are (replid m) (master_repl_offset m + 1) buf
  | _ => True
  end.

Section own.
Variable usable : nat → nat.
Hypothesis usable_enough : ∀ n, (n ≤ usable n)%nat.
Variable over_limits : master → replica → bool.
Variable dbnum : Z.
#[local] Set Default Proof Using "Type".

(** What the events do to the identifiers and to the stream. *)
Lemma step_frame ev w w' : world_ok false w → step usable over_limits dbnum ev w = Some w' →
  match ev with
  | Propagate _ _ | Relay _ => True
  | Sync _ _ _ => w_base w' = w_base w ∧ w_stream w' = w_stream w ∧
      (same_ids (w_master w) (w_master w') ∨ repl_backlog (w_master w) = None ∧ fresh_ids (w_master w'))
  | Cron e => -1 ≤ w_base w → (same_ids (w_master w) (w_master w') ∧ w_base w' = w_base w ∧ w_stream w' = w_stream w) ∨
      backlog_expired e = true ∧ fresh_ids (w_master w') ∧ -1 ≤ w_base w' ∧ w_stream w' = EmptyString
  | _ => same_ids (w_master w) (w_master w') ∧ w_base w' = w_base w ∧ w_stream w' = w_stream w
  end.
Proof.
  intros Hok Hst. destruct ev; cbn [step] in Hst; try done.
  - unfold write_step in Hst. destruct (find_replica i (w_master w)); [|by injection Hst as <-].
    apply bind_Some in Hst as (p & _ & Hst). destruct (negb _); [by injection Hst as <-|].
    apply bind_Some in Hst as ([m' out] & Hw & Hst). apply writeToReplica_ids in Hw. by injection Hst as <-.
  - apply bind_Some in Hst as (m' & Hs & Hst). injection Hst as <-. by apply syncCommand_ids in Hs.
  - by injection Hst as <-.
  - destruct (find_replica i (w_master w)) as [r|] eqn:Ef; [|by injection Hst as <-].
    case_decide; [|by injection Hst as <-]. apply bind_Some in Hst as (m' & Hs & Hst). injection Hst as <-.
    split; [|done]. revert Hs. unfold sendBulkToSlave. rewrite Ef, option_bind_some.
    destruct (replicaPutOnline r) as [r' []]; [case_match; [done|]; by intros [= <-]|]. intros Hf. by apply freeClient_ids in Hf.
  - by injection Hst as <-.
  - destruct (find_replica i (w_master w)); [|by injection Hst as <-].
    apply bind_Some in Hst as (m' & Hs & Hst). injection Hst as <-. by apply freeClient_ids in Hs.
  - destruct (repl_backlog (w_master w)); [|by injection Hst as <-].
    apply bind_Some in Hst as (m' & Hs & Hst). injection Hst as <-. by apply trim_ids in Hs.
  - apply bind_Some in Hst as (m' & Hs & Hst). apply cron_ids in Hs as [Hs Ho]. pose proof (world_offset _ _ Hok) as Hw.
    intros Hb. destruct Hs as [Hs|(Eb & Hs & He)].
    + left. destruct (repl_backlog m') eqn:Eb; injection Hst as <-; [done|]. destruct Hs as [Hi Hn].
      unfold world_ok in Hok. destruct (repl_backlog (w_master w)) eqn:Ew; [by destruct Hn|].
      destruct Hok as (_ & _ & -> & Hm & _). split; [|cbn; split; [congruence|done]]. split; [done|by rewrite Ew].
    + right. rewrite Eb in Hst. injection Hst as <-. cbn. split_and!; [done|done|lia|done].
Qed.

(** A server keeps the history that it tells. *)
Lemma step_tells ev w w' : world_ok false w → step usable over_limits dbnum ev w = Some w' → tells_history w →
  event_tells ev w → tells_history w'.
Proof.
  intros Hok Hst Ht Hev. pose proof (step_frame ev w w' Hok Hst) as Hfr.
  assert (same_ids (w_master w) (w_master w') ∧ w_base w' = w_base w ∧ w_stream w' = w_stream w → tells_history w') as Hsame.
  { intros ([Hi _] & E1 & E2). by apply (tells_same w). }
  destruct ev; cbn [step event_tells] in Hst, Hev; try (by apply Hsame).
  - apply bind_Some in Hst as (m' & Hf & Hst). apply feedSlaves_ids in Hf. destruct (repl_backlog (w_master w)) eqn:Eb.
    + injection Hst as <-. apply (tells_more _ _ _ Ht Hf). rewrite <- (world_offset _ _ Hok). by apply Hev.
    + injection Hst as <-. unfold world_ok in Hok. rewrite Eb in Hok. destruct Hok as (_ & _ & Hs & _).
      destruct Ht as [H1 H2 H3]. injection Hf as E1 E2 E3.
      split; cbn; rewrite ?Hs, ?E1, ?E2, ?E3; [lia|apply bytes_are_nil|done].
  - apply bind_Some in Hst as (m' & Hf & Hst). apply feedStream_ids in Hf. destruct (repl_backlog (w_master w)) eqn:Eb;
      injection Hst as <-; [|done]. apply (tells_more _ _ _ Ht Hf). rewrite <- (world_offset _ _ Hok). by apply Hev.
  - destruct Hfr as (E1 & E2 & [Hs|[Eb Hs]]); [by apply Hsame|].
    apply tells_fresh; [done|rewrite E1; apply Ht|rewrite E2]. unfold world_ok in Hok. rewrite Eb in Hok. apply Hok.
  - destruct (Hfr (th_base _ Ht)) as [Hs|(_ & Hs & Hb & E)]; [by apply Hsame|by apply tells_fresh].
Qed.
End own.
(** ** A server over time *)

(** A server with what has been sent to its own replicas, and its data. *)
Record nstate : Type := mkNState {
  ns_node : node;
  ns_base : Z;
  ns_stream : string;
  ns_told : gmap nat (Z * string);
  ns_db : redisServer;
}.

Definition ns_world (s : nstate) : world := mkWorld (own (ns_node s)) (ns_base s) (ns_stream s) (ns_told s).
Definition set_node (n : node) (s : nstate) : nstate := mkNState n (ns_base s) (ns_stream s) (ns_told s) (ns_db s).

(** The events: those of the link to a master, a snapshot that is loaded or
    not, REPLICAOF, the cron, and those of its own replicas and commands. *)
Inductive node_event : Type :=
| Handshake (io : conn_io)
| LinkRead (r : read_result)
| LinkLost (connects : bool)
| Loaded (db : redisServer)
| LoadFailed (attached connects : bool) (db : redisServer)
| ReplicaOf (ip : string) (port : Z) (connects : bool)
| ReplicaOfNoOne (new : string) (connects : bool)
| ConnectCron (connects : bool)
| Own (ev : event).

Definition no_expiry (e : sync_env) : sync_env :=
  mkSyncEnv (active_child e) (repl_diskless_sync e) (repl_diskless_sync_delay e) (repl_diskless_sync_max_replicas e)
    (save_ok e) (line_sent e) (random_id e) (idle_time e) false.

(** What happens of the events of a master on a replica: its own commands do
    not go to its replicas, it refuses to synchronise others unless it is
    connected, and it keeps its backlog. *)
Definition own_event (n : node) (ev : event) : option event :=
  match masterhost n, ev with
  | _, Relay _ => None
  | None, _ => Some ev
  | Some _, Propagate _ _ => None
  | Some _, Sync _ _ _ => if decide (repl_state n = REPL_STATE_CONNECTED) then Some ev else None
  | Some _, Cron e => Some (Cron (no_expiry e))
  | Some _, _ => Some ev
  end.

Section node.
Variable usable : nat → nat.
Variable over_limits : master → replica → bool.
Variable dbnum : Z.
Variable cfg : repl_conf.
Context (server : environ) (s : standing) (processCommand : list string → cmd ()).
Context (client_max_querybuf_len : Z).

(** What a read has passed on goes to the replicas, command by command. *)
Fixpoint feed_pieces (l : list string) (m : master) : option master :=
  match l with
  | [] => Some m
  | buf :: l => m ← replicationFeedStreamFromMasterStream usable over_limits buf m; feed_pieces l m
  end.

Definition link_read (r : read_result) (st : nstate) : option nstate :=
  let n := ns_node st in
  match the_master n with
  | None => Some st
  | Some (c, id) =>
      '(c', db) ← readQueryFromClient server s processCommand client_max_querybuf_len c r (ns_db st);
      l ← link c;
      l' ← link c';
      let new := drop (length (proxied l)) (proxied l') in
      m ← feed_pieces new (own n);
      Some (mkNState (set_own m (set_master (Some (c', id)) n)) (ns_base st)
              (if repl_backlog (own n) is Some _ then ns_stream st +:+ stream new else ns_stream st) (ns_told st) db)
  end.

Definition in_handshake (n : node) : bool :=
  bool_decide (repl_state n = REPL_STATE_CONNECTING) || slaveIsInHandshakeState (repl_state n).

Definition node_step (ev : node_event) (st : nstate) : option nstate :=
  let n := ns_node st in
  match ev with
  | Handshake io =>
      if in_handshake n then '(n', _) ← syncWithMaster cfg io n; Some (set_node n' st) else Some st
  | LinkRead r => link_read r st
  | LinkLost connects => n' ← freeMaster connects n; Some (set_node n' st)
  | Loaded db =>
      if decide (repl_state n = REPL_STATE_TRANSFER)
      then n' ← finish_sync n; Some (mkNState n' (master_initial_offset n) EmptyString (ns_told st) db)
      else Some st
  | LoadFailed attached connects db =>
      if decide (repl_state n = REPL_STATE_TRANSFER)
      then
        n' ← fail_sync attached connects n;
        Some (if attached then mkNState n' (master_repl_offset (own n)) EmptyString (ns_told st) db else set_node n' st)
      else Some st
  | ReplicaOf ip port connects => n' ← replicationSetMaster ip port connects n; Some (set_node n' st)
  | ReplicaOfNoOne new connects => n' ← replicationUnsetMaster new connects n; Some (set_node n' st)
  | ConnectCron connects => Some (set_node (connect_cron connects n) st)
  | Own ev =>
      match own_event n ev with
      | Some ev =>
          w ← step usable over_limits dbnum ev (ns_world st);
          Some (mkNState (set_own (w_master w) n) (w_base w) (w_stream w) (w_told w) (ns_db st))
      | None => Some st
      end
  end.

Fixpoint node_run (evs : list node_event) (st : nstate) : option nstate :=
  match evs with [] => Some st | ev :: evs => st ← node_step ev st; node_run evs st end.

(** What is asked of the other servers, and of the events.  A master that
    says +CONTINUE was asked to, and if it names another history, that is the
    same up to where the replica is; what it sends is its history.  A new
    identifier names a history that goes on from here. *)
Definition node_allowed (ev : node_event) (st : nstate) : Prop :=
  let n := ns_node st in
  match ev with
  | Handshake io =>
      repl_state n = REPL_STATE_RECEIVE_PSYNC_REPLY → ∀ line, response io = Some line →
        (∀ id offset, parse_fullresync line = Some (id, offset) → -1 ≤ offset) ∧
        (starts_with "+CONTINUE" line = true → ∃ c id, cached_master n = Some (c, id) ∧
           ∀ new, parse_continue line = Some new → agree id new (master_repl_offset (own n)))
  | LinkRead (ReadData data) => ∀ c id l, the_master n = Some (c, id) → link c = Some l → bytes_are id (read_reploff l + 1) data
  | ReplicaOfNoOne new _ => agree (replid (own n)) new (master_repl_offset (own n))
  | Own ev => ∀ ev', own_event n ev = Some ev' → allowed dbnum false ev' (ns_world st) ∧ event_tells ev' (ns_world st)
  | _ => True
  end.

(** The commands that a read brings from the master: what it comes down to,
    whatever commands do. *)
Definition brings_commands (c : client) (r : read_result) (acts : list action) : Prop :=
  ∃ c', ∀ h σ, readQueryFromClient server s h client_max_querybuf_len c r σ = (replay h acts;; mret c') σ.

(** They run to their ends on the data of the replica, as they have done on
    the master. *)
Definition commands_run (ev : node_event) (st : nstate) : Prop :=
  match ev with
  | LinkRead r => ∀ c id acts, the_master (ns_node st) = Some (c, id) → brings_commands c r acts →
      is_Some (replay processCommand acts (ns_db st))
  | _ => True
  end.

Fixpoint node_all_allowed (evs : list node_event) (st : nstate) : Prop :=
  match evs with
  | [] => True
  | ev :: evs => node_allowed ev st ∧ commands_run ev st ∧ ∀ st', node_step ev st = Some st' → node_all_allowed evs st'
  end.
End node.

(** *** The invariant *)

(** A client of the master in a server that has applied the history [id] up to
    [offset]: what it has read beyond that is the history. *)
Definition link_follows (c : client) (id : string) (offset : Z) : Prop :=
  settled c ∧ ∃ l, link c = Some l ∧ reploff l = offset ∧
    bytes_are id (offset + 1) (sdrop (repl_applied l) (querybuf c)).

(** A client that is kept: nothing is half read. *)
Definition link_kept (c : client) (offset : Z) : Prop :=
  parse_ok c ∧ link_ok c ∧ querybuf c = EmptyString ∧ ∃ l, link c = Some l ∧ reploff l = offset.

Record node_ok (st : nstate) : Prop := {
  no_world : world_ok false (ns_world st);
  no_tells : tells_history (ns_world st);
  no_alone : masterhost (ns_node st) = None →
    the_master (ns_node st) = None ∧ cached_master (ns_node st) = None ∧ repl_state (ns_node st) = REPL_STATE_NONE;
  no_master c id : the_master (ns_node st) = Some (c, id) →
    cached_master (ns_node st) = None ∧ repl_state (ns_node st) = REPL_STATE_CONNECTED ∧
    repl_backlog (own (ns_node st)) ≠ None ∧ id = replid (own (ns_node st)) ∧
    link_follows c id (master_repl_offset (own (ns_node st)));
  no_cached c id : cached_master (ns_node st) = Some (c, id) →
    id = replid (own (ns_node st)) ∧ link_kept c (master_repl_offset (own (ns_node st)));
  no_connected : repl_state (ns_node st) = REPL_STATE_CONNECTED → the_master (ns_node st) ≠ None;
  no_offset : -1 ≤ master_initial_offset (ns_node st);
}.
(** A server that has no connection to a master. *)
Lemma node_ok_detached st n' : node_ok st → own n' = own (ns_node st) → the_master n' = None →
  (∀ c id, cached_master n' = Some (c, id) →
    id = replid (own n') ∧ link_kept c (master_repl_offset (own n'))) →
  repl_state n' ≠ REPL_STATE_CONNECTED → -1 ≤ master_initial_offset n' →
  (masterhost n' = None → cached_master n' = None ∧ repl_state n' = REPL_STATE_NONE) → node_ok (set_node n' st).
Proof.
  intros [H1 H2 H3 H4 H5 H6 H7] Ho Hm Hc Hs Hi Hh. unfold ns_world in *.
  split; unfold ns_world, set_node; cbn [ns_node ns_base ns_stream ns_told]; [by rewrite Ho|by rewrite Ho|..]; try done.
  - intros E. by destruct (Hh E).
  - intros c id. by rewrite Hm.
Qed.

Lemma forget_follows c id offset : link_follows c id offset →
  link_kept (forget_unapplied (set_closing c NotClosing)) offset.
Proof.
  intros [_ (l & E & Ho & _)]. split_and!; [by split| |done|].
  - split; cbn; rewrite ?E; cbn; [lia|intros l' [= <-]..]; cbn; [lia|unfold len; cbn; lia].
  - eexists. cbn. by rewrite E.
Qed.

(** What the loss of the connection changes. *)
Lemma disconnection_fields connects n : let n' := replicationHandleMasterDisconnection connects n in
  own n' = own n ∧ masterhost n' = masterhost n ∧ the_master n' = None ∧ cached_master n' = cached_master n ∧
  master_initial_offset n' = master_initial_offset n ∧
  (repl_state n' = REPL_STATE_CONNECT ∨ repl_state n' = REPL_STATE_CONNECTING).
Proof.
  unfold replicationHandleMasterDisconnection, connectWithMaster. cbn. destruct (masterhost n) eqn:E, connects; cbn;
    rewrite ?E; split_and!; by auto.
Qed.

(** The history that a kept client of the master stands for. *)
Definition cached_ok (n : node) : Prop :=
  ∀ c id, cached_master n = Some (c, id) → id = replid (own n) ∧ link_kept c (master_repl_offset (own n)).

Record detached_from (n n' : node) : Prop := {
  df_own : own n' = own n;
  df_host : masterhost n' = masterhost n;
  df_master : the_master n' = None;
  df_cached : cached_ok n';
  df_offset : master_initial_offset n' = master_initial_offset n;
  df_state : repl_state n' ≠ REPL_STATE_CONNECTED ∧ (the_master n = None → repl_state n' = repl_state n);
}.

Lemma freeMaster_ok connects n : cached_ok n → (repl_state n = REPL_STATE_CONNECTED → the_master n ≠ None) →
  (∀ c id, the_master n = Some (c, id) → cached_master n = None ∧ id = replid (own n) ∧
     link_follows c id (master_repl_offset (own n))) →
  ∃ n', freeMaster connects n = Some n' ∧ detached_from n n'.
Proof.
  intros Hca Hst Hm. unfold freeMaster. destruct (the_master n) as [[c id]|] eqn:Em.
  - destruct (Hm c id eq_refl) as (Hc & Hid & Hf).
    destruct (closing c), (blocked c);
      unfold replicationCacheMaster; cbn; rewrite ?Hc; eexists; (split; [done|]).
    2,4: set (n1 := set_cached _ _); destruct (disconnection_fields connects n1) as (D1 & D2 & D3 & D4 & D5 & D6);
      split; [done|done|done| |done|split; [by destruct D6 as [-> | ->]|congruence]];
      intros c' id'; rewrite D4, D1; cbn; intros [= <- <-]; split; [done|by eapply forget_follows].
    all: destruct (disconnection_fields connects n) as (D1 & D2 & D3 & D4 & D5 & D6);
      split; [done|done|done| |done|split; [by destruct D6 as [-> | ->]|congruence]]; intros c' id'; by rewrite D4, Hc.
  - exists n. split; [done|]. split; try done. split; [|done]. intros E. by destruct (Hst E).
Qed.

Lemma node_cached_ok st : node_ok st → cached_ok (ns_node st).
Proof. intros Hok c id. apply (no_cached _ Hok). Qed.

Lemma node_freeMaster st connects h : node_ok st → ∃ n',
  freeMaster connects (set_host h (ns_node st)) = Some n' ∧ detached_from (set_host h (ns_node st)) n'.
Proof.
  intros Hok. apply freeMaster_ok; [exact (node_cached_ok st Hok)|exact (no_connected _ Hok)|].
  intros c id Em. destruct (no_master _ Hok c id Em) as (? & _ & _ & ? & ?). done.
Qed.

Lemma link_lost_ok st connects : node_ok st → ∃ n', freeMaster connects (ns_node st) = Some n' ∧ node_ok (set_node n' st).
Proof.
  intros Hok. destruct (node_freeMaster st connects (masterhost (ns_node st)) Hok) as (n' & E & [D1 D2 D3 D4 D5 [D6 D7]]).
  replace (set_host (masterhost (ns_node st)) (ns_node st)) with (ns_node st) in * by (by destruct (ns_node st)).
  exists n'. split; [done|]. apply node_ok_detached; try done.
  - rewrite D5. apply Hok.
  - rewrite D2. intros Eh. destruct (no_alone _ Hok Eh) as (Em & Ec & Es). rewrite D7 by done. split; [|done].
    unfold freeMaster in E. rewrite Em in E. by injection E as <-.
Qed.

(** *** The handshake *)

Lemma cancel_fields reconnect connects n : let n' := cancelReplicationHandshake reconnect connects n in
  own n' = own n ∧ masterhost n' = masterhost n ∧ the_master n' = the_master n ∧ cached_master n' = cached_master n ∧
  master_initial_offset n' = master_initial_offset n ∧
  (repl_state n' = repl_state n ∨ repl_state n' = REPL_STATE_CONNECT ∨ repl_state n' = REPL_STATE_CONNECTING).
Proof.
  unfold cancelReplicationHandshake, connectWithMaster. case_match; [|split_and!; by auto].
  destruct reconnect, connects; cbn; split_and!; by auto.
Qed.

(** An event of the handshake that is not answered with +CONTINUE only moves
    the state, and notes what it is told. *)
Definition only_state (n n' : node) : Prop :=
  own n' = own n ∧ masterhost n' = masterhost n ∧ the_master n' = the_master n ∧ cached_master n' = cached_master n ∧
  repl_state n' ≠ REPL_STATE_CONNECTED ∧ repl_state n' ≠ REPL_STATE_NONE ∧
  (master_initial_offset n' = master_initial_offset n ∨ master_initial_offset n' = -1).

Lemma send_then_only io cmds next n : next ≠ REPL_STATE_CONNECTED → next ≠ REPL_STATE_NONE →
  only_state n (send_then io cmds next n).1.
Proof.
  intros H1 H2. unfold send_then. destruct (send_all _ _) as [out []]; split_and!; by auto.
Qed.

Lemma send_psync_only io n : only_state n (send_psync io n).1.
Proof.
  unfold send_psync, psync_request. cbv zeta.
  destruct (send_then_only io [sendCommand ["PSYNC"; (psync_args (set_told (master_replid n) (-1) n)).1;
    (psync_args (set_told (master_replid n) (-1) n)).2]] REPL_STATE_RECEIVE_PSYNC_REPLY (set_told (master_replid n) (-1) n))
    as (H1 & H2 & H3 & H4 & H5 & H6 & H7); [done|done|].
  split_and!; try done. right. by destruct H7 as [-> | ->].
Qed.

Lemma sync_cases cfg io n : in_handshake n = true →
  (∃ n' out, syncWithMaster cfg io n = Some (n', out) ∧ only_state n n') ∨
  (repl_state n = REPL_STATE_RECEIVE_PSYNC_REPLY ∧ syncWithMaster cfg io n =
     '(n', result) ← psync_reply (response io) n;
     Some (match result with
           | PSYNC_WAIT_REPLY | PSYNC_CONTINUE => (n', [])
           | PSYNC_TRY_LATER => (sync_error n', [])
           | PSYNC_NOT_SUPPORTED => start_transfer io true n'
           | PSYNC_FULLRESYNC => start_transfer io false n'
           end)).
Proof.
  intros Hh. unfold syncWithMaster. rewrite decide_False by (intros E; unfold in_handshake in Hh; by rewrite E in Hh).
  destruct (connected io); cbn [negb].
  2:{ left. eexists _, _. split; [done|]. split_and!; by auto. }
  assert (∀ st, st ≠ REPL_STATE_CONNECTED → st ≠ REPL_STATE_NONE → only_state n (set_state st n)) as Hset
    by (intros; split_and!; by auto).
  assert (∀ io cmds next st, next ≠ REPL_STATE_CONNECTED → next ≠ REPL_STATE_NONE →
    only_state n (send_then io cmds next (set_state st n)).1) as Hsend.
  { intros io' cmds next st N1 N2. exact (send_then_only io' cmds next (set_state st n) N1 N2). }
  assert (∀ io st, only_state n (send_psync io (set_state st n)).1) as Hpsync
    by (intros io' st; exact (send_psync_only io' (set_state st n))).
  assert (∀ r : node * list string, only_state n r.1 → ∃ n' out, Some r = Some (n', out) ∧ only_state n n') as Hret.
  { intros [n' out] Hr. by exists n', out. }
  unfold in_handshake in Hh. destruct (repl_state n) eqn:Es; try discriminate Hh;
    cbn [skip_replies slaveIsInHandshakeState]; try (destruct (masterauth cfg)); try (destruct (slave_announce_ip cfg));
    cbn [repl_state set_state]; try (left; repeat case_match; apply Hret; try (by apply Hsend); try (by apply Hpsync);
      cbn; unfold any_reply, sync_error; try (repeat case_match; by apply Hset)).
  all: right; split; [done|].
  all: by replace (set_state REPL_STATE_RECEIVE_PSYNC_REPLY n) with n by (destruct n; cbn in *; by subst).
Qed.

Lemma handshake_state n : in_handshake n = true → repl_state n ≠ REPL_STATE_CONNECTED ∧ repl_state n ≠ REPL_STATE_NONE.
Proof. unfold in_handshake. by destruct (repl_state n). Qed.

(** Outside of a connection, the state of the handshake is all that moves. *)
Lemma node_ok_state st n' : node_ok st → repl_state (ns_node st) ≠ REPL_STATE_CONNECTED →
  repl_state (ns_node st) ≠ REPL_STATE_NONE → own n' = own (ns_node st) → masterhost n' = masterhost (ns_node st) →
  the_master n' = the_master (ns_node st) → cached_master n' = cached_master (ns_node st) →
  repl_state n' ≠ REPL_STATE_CONNECTED → -1 ≤ master_initial_offset n' → node_ok (set_node n' st).
Proof.
  intros Hok S1 S2 E1 E2 E3 E4 E5 E6. pose proof (no_alone _ Hok) as Ha.
  assert (the_master (ns_node st) = None) as Em.
  { destruct (the_master (ns_node st)) as [[c id]|] eqn:Em; [|done]. by destruct (no_master _ Hok c id Em) as (_ & ? & _). }
  apply node_ok_detached; try done; [congruence| |].
  - intros c id. rewrite E4, E1. apply (no_cached _ Hok).
  - rewrite E2. intros Eh. by destruct (Ha Eh) as (_ & _ & ?).
Qed.

(** *** +CONTINUE *)

(** A server as it is between the steps of a change. *)
Definition tells (st : nstate) (m : master) : Prop :=
  let w := mkWorld m (ns_base st) (ns_stream st) (ns_told st) in world_ok false w ∧ tells_history w.

Lemma tells_offset st m m' : tells st m → tells st m' → master_repl_offset m' = master_repl_offset m.
Proof. intros [H1%world_offset _] [H2%world_offset _]. cbn in *. congruence. Qed.

(** A new identifier for the same history, and no replicas that know the old
    one. *)
Lemma rename_ok st m new : tells st m → agree (replid m) new (master_repl_offset m) →
  ∃ m', disconnectSlaves (set_ids new (replid m) (master_repl_offset m + 1) m) = Some m' ∧ tells st m' ∧
    replid m' = new ∧ slaves m' = [] ∧ (repl_backlog m' = None ↔ repl_backlog m = None).
Proof.
  intros [Hw [T1 T2 T3]] Ha. pose proof (world_offset _ _ Hw) as Ho. cbn in Ho, T1, T2, T3.
  set (m1 := set_ids new (replid m) (master_repl_offset m + 1) m).
  destruct (disconnect_ok m1 (ns_base st) (ns_stream st) (ns_told st)) as (m' & E & Hs & Hi & Hw' & Hb).
  { by apply (world_rest _ m). }
  injection Hi as I1 I2 I3. exists m'. split_and!; [done| |done|done|done]. split; [done|].
  split; cbn; rewrite ?I1, ?I2, ?I3; [done| |].
  - apply (bytes_are_agree (replid m) _ (master_repl_offset m)); [done|lia|lia|done].
  - by rewrite Z.add_simpl_r.
Qed.

(** The kept client of the master is that of a new connection. *)
Lemma resurrect_ok st n c id : cached_master n = Some (c, id) → the_master n = None → masterhost n ≠ None →
  tells st (own n) → id = replid (own n) → link_kept c (master_repl_offset (own n)) → -1 ≤ master_initial_offset n →
  ∃ n', (n ← replicationResurrectCachedMaster n;
         m ← match repl_backlog (own n) with None => createReplicationBacklog (own n) | Some _ => Some (own n) end;
         Some (set_own m n)) = Some n' ∧ node_ok (set_node n' st).
Proof.
  intros Ec Em Eh [Hw Ht] Hid (Hp & [L1 L2 L3] & Hq & l & El & Hl) Hi. unfold replicationResurrectCachedMaster. rewrite Ec, option_bind_some. cbn [own set_state set_cached set_master].
  assert (∃ m, match repl_backlog (own n) with None => createReplicationBacklog (own n) | Some _ => Some (own n) end = Some m ∧
    tells st m ∧ replid m = replid (own n) ∧ repl_backlog m ≠ None) as (m & -> & Ht' & Hr & Hb).
  { destruct (repl_backlog (own n)) eqn:Eb; [exists (own n); by rewrite Eb|].
    destruct (create_ok _ _ _ _ Hw Eb) as (m & -> & I & Hb & _ & Hw'). exists m. split_and!; [done| |by injection I|done].
    split; [done|]. by apply (tells_same (mkWorld (own n) (ns_base st) (ns_stream st) (ns_told st))). }
  rewrite option_bind_some. eexists. split; [done|]. pose proof (tells_offset st _ _ (conj Hw Ht) Ht') as Ho.
  destruct Ht' as [Hw' Ht']. split; unfold ns_world; cbn; try done.
  intros c' id' [= <- <-]. split_and!; [done|done|done|congruence|]. rewrite Ho.
  split; [split; [by split|right; right; by destruct Hp]|]. exists l. cbn. rewrite Hq.
  split_and!; [done|done|]. rewrite (string_length_zero (sdrop _ _)); [apply bytes_are_nil|by rewrite sdrop_length].
Qed.

Lemma set_node_same st : set_node (ns_node st) st = st.
Proof. by destruct st. Qed.

(** The partial resynchronisation that a master has granted. *)
Lemma continue_ok st line : node_ok st → repl_state (ns_node st) ≠ REPL_STATE_CONNECTED →
  (∃ c id, cached_master (ns_node st) = Some (c, id) ∧
     ∀ new, parse_continue line = Some new → agree id new (master_repl_offset (own (ns_node st)))) →
  ∃ n', (n ← match parse_continue line with Some new => adopt_id new (ns_node st) | None => Some (ns_node st) end;
         n ← replicationResurrectCachedMaster n;
         m ← match repl_backlog (own n) with None => createReplicationBacklog (own n) | Some _ => Some (own n) end;
         Some (set_own m n, PSYNC_CONTINUE)) = Some (n', PSYNC_CONTINUE) ∧ node_ok (set_node n' st).
Proof.
  intros Hok Hst (c & id & Ec & Hag). destruct (no_cached _ Hok c id Ec) as [Hid Hk]. set (n := ns_node st) in *.
  assert (the_master n = None) as Em.
  { destruct (the_master n) as [[c' id']|] eqn:Em; [|done]. destruct (no_master _ Hok c' id' Em) as (_ & ? & _). done. }
  assert (masterhost n ≠ None) as Eh by (intros Eh; destruct (no_alone _ Hok Eh) as (_ & E & _); unfold n in Ec; congruence).
  assert (tells st (own n)) as Ht by (split; apply Hok). pose proof (no_offset _ Hok) as Hi.
  assert (∃ n1 id1, match parse_continue line with Some new => adopt_id new n | None => Some n end = Some n1 ∧
    cached_master n1 = Some (c, id1) ∧ the_master n1 = None ∧ masterhost n1 ≠ None ∧ tells st (own n1) ∧
    id1 = replid (own n1) ∧ link_kept c (master_repl_offset (own n1)) ∧ -1 ≤ master_initial_offset n1)
    as (n1 & id1 & -> & Ec1 & Em1 & Eh1 & Ht1 & Hid1 & Hk1 & Hi1).
  { destruct (parse_continue line) as [new|]; [|by exists n, id]. unfold adopt_id. rewrite Ec.
    case_decide as Hnew; [exists n, id; by subst|]. specialize (Hag new eq_refl). subst id.
    destruct (rename_ok st (own n) new Ht Hag) as (m' & -> & Ht' & Hr & _). rewrite option_bind_some.
    eexists _, new. split_and!; try done. cbn. by rewrite (tells_offset st _ _ Ht Ht'). }
  rewrite option_bind_some.
  destruct (resurrect_ok st n1 c id1 Ec1 Em1 Eh1 Ht1 Hid1 Hk1 Hi1) as (n' & E & Hok').
  apply bind_Some in E as (n2 & -> & (m & E & [= <-])%bind_Some). rewrite option_bind_some, E, option_bind_some. by eexists.
Qed.

(** An answer to PSYNC. *)
Lemma psync_reply_ok dbnum io st : node_ok st → repl_state (ns_node st) = REPL_STATE_RECEIVE_PSYNC_REPLY →
  node_allowed dbnum (Handshake io) st →
  ∃ n' out, ('(n', result) ← psync_reply (response io) (ns_node st);
     Some (match result with
           | PSYNC_WAIT_REPLY | PSYNC_CONTINUE => (n', [])
           | PSYNC_TRY_LATER => (sync_error n', [])
           | PSYNC_NOT_SUPPORTED => start_transfer io true n'
           | PSYNC_FULLRESYNC => start_transfer io false n'
           end)) = Some (n', out) ∧ node_ok (set_node n' st).
Proof.
  intros Hok Hst Hal. specialize (Hal Hst). pose proof (no_offset _ Hok) as Hoff.
  assert (∀ n', own n' = own (ns_node st) → masterhost n' = masterhost (ns_node st) → the_master n' = the_master (ns_node st) →
    cached_master n' = cached_master (ns_node st) → repl_state n' ≠ REPL_STATE_CONNECTED → -1 ≤ master_initial_offset n' →
    node_ok (set_node n' st)) as Hstay.
  { intros n'. apply node_ok_state; [done|by rewrite Hst..]. }
  assert (∀ sync id off, -1 ≤ off →
    ∃ n' out, Some (start_transfer io sync (set_told id off (ns_node st))) = Some (n', out) ∧ node_ok (set_node n' st)) as Htr.
  { intros sync id off Ho. unfold start_transfer. destruct (send_all _ _) as [out ok].
    eexists _, _. split; [done|]. by destruct (ok && prepared io); apply Hstay. }
  assert (set_told (master_replid (ns_node st)) (master_initial_offset (ns_node st)) (ns_node st) = ns_node st) as Hsame
    by (by destruct (ns_node st)).
  unfold psync_reply. destruct (response io) as [[|ch line]|] eqn:Er.
  - exists (ns_node st), []. by rewrite set_node_same.
  - destruct (Hal _ eq_refl) as [Hfull Hcont]. set (reply := String ch line) in *.
    destruct (starts_with "+FULLRESYNC" reply); rewrite ?option_bind_some.
    { destruct (parse_fullresync reply) as [[id off]|]; apply Htr; [by apply (Hfull id off)|done]. }
    destruct (starts_with "+CONTINUE" reply).
    { destruct (continue_ok st reply Hok) as (n' & -> & Hok'); [by rewrite Hst|by apply Hcont|].
      rewrite option_bind_some. by exists n', []. }
    destruct (_ || _); rewrite option_bind_some; [eexists _, _; split; [done|]; by apply Hstay|].
    rewrite <- Hsame. by apply Htr.
  - eexists _, _. split; [done|]. by apply Hstay.
Qed.

Lemma handshake_ok dbnum cfg io st : node_ok st → in_handshake (ns_node st) = true → node_allowed dbnum (Handshake io) st →
  ∃ n' out, syncWithMaster cfg io (ns_node st) = Some (n', out) ∧ node_ok (set_node n' st).
Proof.
  intros Hok Hh Hal. destruct (handshake_state _ Hh) as [S1 S2].
  destruct (sync_cases cfg io _ Hh) as [(n' & out & E & E1 & E2 & E3 & E4 & E5 & E6 & E7)|[Hst ->]].
  - exists n', out. split; [done|]. apply node_ok_state; try done. pose proof (no_offset _ Hok). destruct E7 as [-> | ->]; lia.
  - by eapply psync_reply_ok.
Qed.
(** *** The link *)

Section node_steps.
Variable usable : nat → nat.
Hypothesis usable_enough : ∀ n, (n ≤ usable n)%nat.
Variable over_limits : master → replica → bool.
Variable dbnum : Z.
Variable cfg : repl_conf.
Context (server : environ) (s : standing) (processCommand : list string → cmd ()).
Context (client_max_querybuf_len : Z).
#[local] Set Default Proof Using "Type".

(** The pieces that are passed on are told, one after the other. *)
Lemma feed_pieces_ok l m base told : ∀ hist, repl_backlog m ≠ None → world_ok false (mkWorld m base hist told) →
  ∃ m', feed_pieces usable over_limits l m = Some m' ∧ repl_backlog m' ≠ None ∧ ids m' = ids m ∧
    world_ok false (mkWorld m' base (hist +:+ stream l) told).
Proof using usable_enough.
  revert m. induction l as [|buf l IH]; intros m hist Hb Hw; cbn [feed_pieces].
  { exists m. cbn. by rewrite string_app_nil_r. }
  destruct (step_ok false usable usable_enough over_limits 0 (Relay buf) _ Hw I) as (w' & E & Hw').
  cbn [step w_master] in E. apply bind_Some in E as (m1 & E & E').
  destruct (repl_backlog m) eqn:Eb; [|done]. injection E' as <-. cbn in Hw'.
  rewrite E, option_bind_some. pose proof (feedStream_ids _ _ _ _ _ E) as Hi.
  assert (repl_backlog m1 ≠ None) as Hb1.
  { unfold replicationFeedStreamFromMasterStream in E. rewrite Eb in E.
    assert (feedReplicationBuffer usable over_limits buf m = Some m1) as E1 by (by destruct (slaves m)).
    unfold world_ok in Hw. cbn in Hw. rewrite Eb in Hw.
    destruct (feedReplicationBuffer_spec usable usable_enough over_limits base hist m buf (so_repl _ _ _ _ _ Hw)) as (m2 & E2 & [K1 _ _]).
    rewrite E1 in E2. injection E2 as <-. destruct K1 as (bl & Hn & _). by rewrite (ro_backlog _ _ _ _ Hn). }
  destruct (IH m1 (hist +:+ buf) Hb1 Hw') as (m' & E2 & Hb2 & Hi2 & Hw2).
  exists m'. split_and!; [done|done|congruence|]. cbn [stream foldr]. by rewrite string_app_assoc.
Qed.

(** What a read leaves of what was there and what has come: first what was
    passed on, then what is in the buffer. *)
Lemma link_grown_pieces c c' l l' data : link c = Some l → link c' = Some l' → link_grown c c' data →
  proxied l' = proxied l ++ drop (length (proxied l)) (proxied l') ∧
  stream (drop (length (proxied l)) (proxied l')) +:+ sdrop (repl_applied l') (querybuf c') =
    sdrop (repl_applied l) (querybuf c) +:+ data ∧
  read_reploff l' = read_reploff l + len data.
Proof.
  intros E E'. unfold link_grown. rewrite E, E'. intros (Hh & Hr & [new Hp]). unfold history in Hh.
  rewrite Hp, drop_app_length in *. split_and!; [done| |done]. rewrite stream_app, <- !string_app_assoc in Hh.
  by apply string_app_inj_r in Hh.
Qed.

(** What has been read and not applied ends where the reading is. *)
Lemma unapplied_length c l : settled c → link c = Some l →
  slen (sdrop (repl_applied l) (querybuf c)) = read_reploff l - reploff l.
Proof.
  intros [Hl _] E. rewrite (link_offset _ Hl l E), sdrop_length. pose proof (link_applied _ Hl l E).
  pose proof (link_inside _ Hl). unfold len. lia.
Qed.

Lemma link_read_ok r st : node_ok st → node_allowed dbnum (LinkRead r) st →
  commands_run server s processCommand client_max_querybuf_len (LinkRead r) st →
  ∃ st', link_read usable over_limits server s processCommand client_max_querybuf_len r st = Some st' ∧ node_ok st'.
Proof using usable_enough.
  intros Hok Hal Hcmd. unfold link_read. destruct (the_master (ns_node st)) as [[c id]|] eqn:Em; [|by exists st].
  destruct (no_master _ Hok c id Em) as (Hc & Hst & Hb & Hid & [Hse (l & El & Hoff & Hby)]).
  set (data := if r is ReadData data then data else EmptyString).
  assert (bytes_are id (read_reploff l + 1) data) as Hdata.
  { unfold data. destruct r; [by apply (Hal c id l Em El)|apply bytes_are_nil..]. }
  destruct (readQuery_settled server s client_max_querybuf_len c r Hse) as (acts & c' & _ & [Hse' Hg] & Hrun).
  destruct (Hcmd c id acts Em) as [[[] db] Hdb]; [by exists c'|].
  assert (readQueryFromClient server s processCommand client_max_querybuf_len c r (ns_db st) = Some (c', db)) as ->.
  { rewrite Hrun. unfold mbind, cmd_bind. by rewrite Hdb. }
  rewrite option_bind_some, El, option_bind_some. fold data in Hg.
  destruct (link c') as [l'|] eqn:El'; [|unfold link_grown in Hg; by rewrite El, El' in Hg]. rewrite option_bind_some.
  destruct (link_grown_pieces c c' l l' data El El' Hg) as (_ & Hpieces & Hrr).
  set (new := drop _ (proxied l')) in *.
  destruct (feed_pieces_ok new (own (ns_node st)) (ns_base st) (ns_told st) (ns_stream st) Hb (no_world _ Hok)) as (m & -> & Hb' & Hi & Hw').
  rewrite option_bind_some. destruct (repl_backlog (own (ns_node st))) eqn:Eb; [|done]. eexists. split; [done|].
  pose proof (unapplied_length c l Hse El) as Hlen. pose proof (unapplied_length c' l' Hse' El') as Hlen'.
  assert (bytes_are id (reploff l + 1) (stream new +:+ sdrop (repl_applied l') (querybuf c'))) as [Hn1 Hn2]%bytes_are_app.
  { rewrite Hpieces. apply bytes_are_app. split; [by rewrite Hoff|]. by replace (reploff l + 1 + _) with (read_reploff l + 1) by lia. }
  assert (reploff l' = reploff l + slen (stream new)) as Hro.
  { apply (f_equal String.length) in Hpieces. rewrite !string_length_app in Hpieces. unfold len in *. lia. }
  pose proof (world_offset _ _ (no_world _ Hok)) as Ho. pose proof (world_offset _ _ Hw') as Ho'. cbn in Ho, Ho'.
  rewrite string_length_app in Ho'. pose proof Hi as [= I1 I2 I3].
  split; cbn; try done.
  - apply (tells_more (ns_world st) m (stream new) (no_tells _ Hok)); [exact Hi|]. cbn. subst id.
    by replace (ns_base st + _ + 1) with (reploff l + 1) by lia.
  - intros Eh. destruct (no_alone _ Hok Eh) as (E & _). congruence.
  - intros c1 id1 [= <- <-]. split_and!; [done|done|done|congruence|]. split; [done|]. exists l'.
    split_and!; [done|lia|]. by replace (master_repl_offset m + 1) with (reploff l + 1 + slen (stream new)) by lia.
  - intros c1 id1. by rewrite Hc.
  - apply Hok.
Qed.
(** *** Snapshots *)

Lemma transfer_state st : node_ok st → repl_state (ns_node st) = REPL_STATE_TRANSFER →
  the_master (ns_node st) = None ∧ masterhost (ns_node st) ≠ None.
Proof.
  intros Hok Hst. split.
  - destruct (the_master (ns_node st)) as [[c id]|] eqn:Em; [|done]. destruct (no_master _ Hok c id Em) as (_ & E & _). congruence.
  - intros Eh. destruct (no_alone _ Hok Eh) as (_ & _ & E). congruence.
Qed.

Lemma attach_new_ok st : node_ok st → the_master (ns_node st) = None → ∃ m,
  replicationAttachToNewMaster (ns_node st) = Some (set_own m (set_cached None (ns_node st))) ∧ no_replicas m ∧
  ids m = ids (own (ns_node st)) ∧ master_repl_offset m = master_repl_offset (own (ns_node st)).
Proof.
  intros Hok Em. unfold replicationAttachToNewMaster. rewrite Em. pose proof (no_world _ Hok) as Hw.
  destruct (disconnect_ok _ _ _ _ Hw) as (m1 & -> & Hs & Hi & Hw1 & _). rewrite option_bind_some.
  destruct (free_backlog_world _ _ _ _ Hw1 Hs) as (m & -> & Hn & Hi' & Ho). rewrite option_bind_some.
  exists m. split_and!; [done|done|congruence|]. rewrite Ho.
  apply world_offset in Hw, Hw1. cbn in Hw, Hw1. congruence.
Qed.

Lemma empty_world_ok m told : no_replicas m → world_ok false (mkWorld m (master_repl_offset m) EmptyString told).
Proof. intros (H1 & H2 & H3). unfold world_ok. cbn. by rewrite H3. Qed.

Lemma idle_ok offset : link_ok (idle_link offset []) ∧ parse_ok (idle_link offset []).
Proof. split; [split; cbn; [lia|intros l [= <-]..]; cbn; [lia|unfold len; cbn; lia]|by split]. Qed.

Lemma idle_follows id offset : link_follows (idle_link offset []) id offset.
Proof.
  destruct (idle_ok offset) as [Hl Hp]. split; [split; by auto|].
  eexists. split_and!; [done|done|apply bytes_are_nil].
Qed.

Lemma idle_kept offset : link_kept (idle_link offset []) offset.
Proof. destruct (idle_ok offset) as [Hl Hp]. split_and!; [done|done|done|by eexists]. Qed.

Lemma loaded_ok st db : node_ok st → repl_state (ns_node st) = REPL_STATE_TRANSFER → ∃ n',
  finish_sync (ns_node st) = Some n' ∧
  node_ok (mkNState n' (master_initial_offset (ns_node st)) EmptyString (ns_told st) db).
Proof.
  intros Hok Hst. destruct (transfer_state st Hok Hst) as [Em Eh].
  destruct (attach_new_ok st Hok Em) as (m & Ha & (N1 & N2 & N3) & Hi & Ho). unfold finish_sync.
  rewrite Ha, option_bind_some. cbn [own set_own set_state replicationCreateMasterClient set_master set_cached
    master_initial_offset master_replid].
  set (id := master_replid (ns_node st)). set (off := master_initial_offset (ns_node st)).
  set (m1 := clearReplicationId2 _). assert (repl_backlog m1 = None) as Eb by exact N3. rewrite Eb.
  assert (world_ok false (mkWorld m1 off EmptyString (ns_told st))) as Hw1.
  { unfold world_ok. cbn. by rewrite N3. }
  destruct (create_ok m1 off EmptyString (ns_told st) Hw1 Eb) as (m2 & -> & I2 & Hb2 & _ & Hw2). rewrite option_bind_some.
  eexists. split; [done|]. pose proof (world_offset _ _ Hw2) as Ho2. cbn in Ho2. rewrite Z.add_0_r in Ho2.
  injection I2 as J1 J2 J3. split; unfold ns_world; cbn; try done.
  - apply tells_fresh; [by split|apply Hok|done].
  - intros c' id' [= <- <-]. split_and!; [done|done|done|done|]. rewrite Ho2. apply idle_follows.
  - apply Hok.
Qed.

Lemma load_failed_ok st attached connects db : node_ok st → repl_state (ns_node st) = REPL_STATE_TRANSFER → ∃ n',
  fail_sync attached connects (ns_node st) = Some n' ∧
  node_ok (if attached then mkNState n' (master_repl_offset (own (ns_node st))) EmptyString (ns_told st) db else set_node n' st).
Proof.
  intros Hok Hst. destruct (transfer_state st Hok Hst) as [Em Eh]. unfold fail_sync. destruct attached.
  - destruct (attach_new_ok st Hok Em) as (m & -> & Hn & Hi & Ho). rewrite option_bind_some. eexists. split; [done|].
    set (n1 := set_own m _). destruct (cancel_fields true connects n1) as (C1 & C2 & C3 & C4 & C5 & C6).
    assert (world_ok false (mkWorld m (master_repl_offset (own (ns_node st))) EmptyString (ns_told st))) as Hw.
    { rewrite <- Ho. by apply empty_world_ok. }
    split; unfold ns_world; cbn [ns_node ns_base ns_stream ns_told].
    + by rewrite C1.
    + rewrite C1. pose proof (world_offset _ _ (no_world _ Hok)) as Hoff. destruct (no_tells _ Hok) as [T1 T2 T3].
      cbn in T1, T2, T3, Hoff. injection Hi as I1 I2 I3. split; cbn; rewrite ?I1, ?I2, ?I3; [lia|apply bytes_are_nil|done].
    + by rewrite C2.
    + intros c id. rewrite C3. cbn. by rewrite Em.
    + intros c id. by rewrite C4.
    + intros E. rewrite E in C6. cbn in C6. rewrite Hst in C6. by destruct C6 as [|[]].
    + rewrite C5. apply Hok.
  - rewrite option_bind_some. eexists. split; [done|].
    destruct (cancel_fields true connects (ns_node st)) as (C1 & C2 & C3 & C4 & C5 & C6).
    apply node_ok_state; try done; [by rewrite Hst..| |rewrite C5; apply Hok].
    intros E. rewrite E, Hst in C6. by destruct C6 as [|[]].
Qed.

(** *** Roles *)

Lemma connect_fields connects n : let n' := connectWithMaster connects n in
  own n' = own n ∧ masterhost n' = masterhost n ∧ the_master n' = the_master n ∧ cached_master n' = cached_master n ∧
  master_initial_offset n' = master_initial_offset n ∧ (repl_state n' = repl_state n ∨ repl_state n' = REPL_STATE_CONNECTING).
Proof. unfold connectWithMaster. destruct connects; split_and!; by auto. Qed.

Lemma replica_of_ok st ip port connects : node_ok st → ∃ n',
  replicationSetMaster ip port connects (ns_node st) = Some n' ∧ node_ok (set_node n' st).
Proof.
  intros Hok. unfold replicationSetMaster.
  destruct (node_freeMaster st connects None Hok) as (n1 & -> & [D1 D2 D3 D4 D5 _]). rewrite option_bind_some.
  cbn in D1, D5. eexists. split; [done|].
  destruct (cancel_fields false connects (set_host (Some (ip, port)) n1)) as (C1 & C2 & C3 & C4 & C5 & _).
  set (n2 := cancelReplicationHandshake _ _ _) in *. cbn in C1, C2, C3, C4, C5.
  set (n3 := if bool_decide _ then _ else n2).
  assert (own n3 = own (ns_node st) ∧ masterhost n3 ≠ None ∧ the_master n3 = None ∧ cached_ok n3 ∧ -1 ≤ master_initial_offset n3)
    as (E1 & E2 & E3 & E4 & E5).
  { unfold n3. case_bool_decide; cbn.
    - rewrite C1, C2, D1. split_and!; try done.
      + intros c id. cbn. rewrite C1, D1. intros [= <- <-]. split; [done|apply idle_kept].
      + pose proof (world_offset _ _ (no_world _ Hok)) as Ho. pose proof (th_base _ (no_tells _ Hok)) as Hb. cbn in Ho, Hb. lia.
    - rewrite C1, C2, C3, C5. split_and!; [done|done|done| |rewrite D5; apply Hok].
      intros c id. rewrite C4, C1. apply D4. }
  destruct (connect_fields connects (set_state REPL_STATE_CONNECT n3)) as (F1 & F2 & F3 & F4 & F5 & F6).
  set (n4 := connectWithMaster _ _) in *. cbn in F1, F2, F3, F4, F5, F6.
  apply node_ok_detached; [done|congruence|congruence| | |by rewrite F5|by rewrite F2].
  - intros c id. rewrite F4, F1. apply E4.
  - by destruct F6 as [-> | ->].
Qed.

Lemma no_one_ok st new connects : node_ok st → agree (replid (own (ns_node st))) new (master_repl_offset (own (ns_node st))) →
  ∃ n', replicationUnsetMaster new connects (ns_node st) = Some n' ∧ node_ok (set_node n' st).
Proof.
  intros Hok Hag. unfold replicationUnsetMaster. destruct (masterhost (ns_node st)) eqn:Eh.
  2:{ exists (ns_node st). by rewrite set_node_same. }
  destruct (node_freeMaster st connects None Hok) as (n1 & -> & [D1 D2 D3 D4 D5 _]). rewrite option_bind_some.
  cbn in D1, D2, D5. destruct (cancel_fields false connects (replicationDiscardCachedMaster n1)) as (C1 & C2 & C3 & C4 & C5 & _).
  set (n2 := cancelReplicationHandshake _ _ _) in *. cbn in C1, C2, C3, C4, C5. rewrite C1, D1.
  assert (tells st (own (ns_node st))) as Ht by (split; apply Hok).
  destruct (rename_ok st _ new Ht Hag) as (m & E & [Hw Htl] & Hr & Hs & _). unfold shiftReplicationId. rewrite E, option_bind_some.
  eexists. split; [done|]. split; unfold ns_world; cbn; try done.
  - by apply (world_rest _ m).
  - by apply (tells_same (mkWorld m (ns_base st) (ns_stream st) (ns_told st))).
  - intros _. split_and!; congruence.
  - intros c id. rewrite C3, D3. done.
  - intros c id. by rewrite C4.
  - rewrite C5, D5. apply Hok.
Qed.

Lemma connect_cron_ok st connects : node_ok st → node_ok (set_node (connect_cron connects (ns_node st)) st).
Proof.
  intros Hok. unfold connect_cron. case_decide as E; [|by rewrite set_node_same].
  destruct (connect_fields connects (ns_node st)) as (F1 & F2 & F3 & F4 & F5 & F6).
  apply node_ok_state; try done; [by rewrite E..| |rewrite F5; apply Hok]. rewrite E in F6. by destruct F6 as [-> | ->].
Qed.

(** *** Its own replicas and commands *)

Lemma own_ok st ev ev' : node_ok st → own_event (ns_node st) ev = Some ev' →
  allowed dbnum false ev' (ns_world st) → event_tells ev' (ns_world st) →
  ∃ w, step usable over_limits dbnum ev' (ns_world st) = Some w ∧
    node_ok (mkNState (set_own (w_master w) (ns_node st)) (w_base w) (w_stream w) (w_told w) (ns_db st)).
Proof using usable_enough.
  intros Hok Hev Hal Htl. destruct (step_ok false usable usable_enough over_limits dbnum ev' _ (no_world _ Hok) Hal) as (w & E & Hw).
  exists w. split; [done|]. pose proof (step_tells usable over_limits dbnum ev' _ w (no_world _ Hok) E (no_tells _ Hok) Htl) as Ht.
  pose proof (step_frame usable over_limits dbnum ev' _ w (no_world _ Hok) E) as Hfr.
  assert (masterhost (ns_node st) ≠ None → same_ids (own (ns_node st)) (w_master w) ∧
    master_repl_offset (w_master w) = master_repl_offset (own (ns_node st))) as Hsame.
  { intros Eh. assert (same_ids (own (ns_node st)) (w_master w) ∧ w_base w = ns_base st ∧ w_stream w = ns_stream st) as (Hs & E1 & E2).
    { unfold own_event in Hev. destruct (masterhost (ns_node st)) as [h|]; [|done].
      destruct ev; try done; try (injection Hev as <-; exact Hfr).
      - case_decide as Hc; [|done]. injection Hev as <-. destruct Hfr as (F1 & F2 & [F3|[F3 _]]); [done|].
        destruct (the_master (ns_node st)) as [[c0 id0]|] eqn:Em; [|by destruct (no_connected _ Hok Hc)].
        by destruct (no_master _ Hok c0 id0 Em) as (_ & _ & Hb & _).
      - injection Hev as <-. by destruct (Hfr (th_base _ (no_tells _ Hok))) as [F|[F _]]. }
    split; [done|]. rewrite (world_offset _ _ Hw). pose proof (world_offset _ _ (no_world _ Hok)) as Ho. cbn in Ho. by rewrite E1, E2, <- Ho. }
  assert (∀ x y, ids (w_master w) = ids (own (ns_node st)) → x = replid (own (ns_node st)) → y = x → y = replid (w_master w)) as Hid.
  { intros x y [= I1 _ _]. congruence. }
  destruct w as [m' base' stream' told']. split; unfold ns_world; cbn in *; try done.
  - apply Hok.
  - intros c id Em. destruct (no_master _ Hok c id Em) as (M1 & M2 & M3 & M4 & M5).
    destruct Hsame as [[I B] O]; [intros Eh; destruct (no_alone _ Hok Eh) as (E1 & _); congruence|].
    rewrite O. split_and!; [done|done|auto|by eapply Hid|done].
  - intros c id Ec. destruct (no_cached _ Hok c id Ec) as (M1 & M2).
    destruct Hsame as [[I B] O]; [intros Eh; destruct (no_alone _ Hok Eh) as (_ & E1 & _); congruence|].
    rewrite O. split; [by eapply Hid|done].
  - apply Hok.
  - apply Hok.
Qed.

Lemma node_step_ok ev st : node_ok st → node_allowed dbnum ev st →
  commands_run server s processCommand client_max_querybuf_len ev st → ∃ st',
  node_step usable over_limits dbnum cfg server s processCommand client_max_querybuf_len ev st = Some st' ∧ node_ok st'.
Proof using usable_enough.
  intros Hok Hal Hcmd. destruct ev; cbn [node_step].
  - destruct (in_handshake (ns_node st)) eqn:Eh; [|by exists st].
    destruct (handshake_ok dbnum cfg io st Hok Eh Hal) as (n' & out & -> & Hok'). rewrite option_bind_some. by eexists.
  - by apply link_read_ok.
  - destruct (link_lost_ok st connects Hok) as (n' & -> & Hok'). rewrite option_bind_some. by eexists.
  - case_decide as Hst; [|by exists st]. destruct (loaded_ok st db Hok Hst) as (n' & -> & Hok'). rewrite option_bind_some. by eexists.
  - case_decide as Hst; [|by exists st].
    destruct (load_failed_ok st attached connects db Hok Hst) as (n' & -> & Hok'). rewrite option_bind_some. by eexists.
  - destruct (replica_of_ok st ip port connects Hok) as (n' & -> & Hok'). rewrite option_bind_some. by eexists.
  - destruct (no_one_ok st new connects Hok Hal) as (n' & -> & Hok'). rewrite option_bind_some. by eexists.
  - eexists. split; [done|]. by apply connect_cron_ok.
  - destruct (own_event (ns_node st) ev) as [ev'|] eqn:Ev; [|by exists st]. destruct (Hal ev' Ev) as [Ha Ht].
    destruct (own_ok st ev ev' Hok Ev Ha Ht) as (w & -> & Hok'). rewrite option_bind_some. by eexists.
Qed.

Lemma node_run_ok evs : ∀ st, node_ok st →
  node_all_allowed usable over_limits dbnum cfg server s processCommand client_max_querybuf_len evs st →
  ∃ st', node_run usable over_limits dbnum cfg server s processCommand client_max_querybuf_len evs st = Some st' ∧ node_ok st'.
Proof using usable_enough.
  induction evs as [|ev evs IH]; intros st Hok Hal; cbn [node_run]; [by exists st|]. destruct Hal as (Hev & Hcmd & Hal).
  destruct (node_step_ok ev st Hok Hev Hcmd) as (st1 & E & Hok1). rewrite E, option_bind_some. by apply IH, Hal.
Qed.
End node_steps.

(** ** What the invariant gives *)

Definition start_node (n : node) (db : redisServer) : nstate := mkNState n (master_repl_offset (own n)) EmptyString ∅ db.

(** A server that starts as a master. *)
Definition fresh_node (n : node) : Prop :=
  no_replicas (own n) ∧ -1 ≤ master_repl_offset (own n) ∧ masterhost n = None ∧ the_master n = None ∧
  cached_master n = None ∧ repl_state n = REPL_STATE_NONE ∧ -1 ≤ master_initial_offset n.

Lemma start_node_ok n db : fresh_node n → agree (replid2 (own n)) (replid (own n)) (second_replid_offset (own n) - 1) →
  node_ok (start_node n db).
Proof.
  intros (N1 & N2 & N3 & N4 & N5 & N6 & N7) Hag. split; unfold ns_world; cbn; try congruence; [by apply empty_world_ok| |done].
  split; cbn; [done|apply bytes_are_nil|done].
Qed.

Lemma told_history st r : node_ok st → r ∈ slaves (own (ns_node st)) → replstate r ≠ SLAVE_STATE_WAIT_BGSAVE_START →
  ∃ start sent, ns_told st !! replica_id r = Some (start, sent) ∧ bytes_are (replid (own (ns_node st))) start sent ∧
    (active r → hasPendingReplies r (own (ns_node st)) = Some false →
      start + slen sent = master_repl_offset (own (ns_node st)) + 1).
Proof.
  intros Hok Hr Ha. pose proof (no_world _ Hok) as Hw. pose proof (world_offset _ _ Hw) as Ho. unfold world_ok in Hw. cbn in Hw, Ho.
  destruct (repl_backlog (own (ns_node st))).
  - destruct Hw as [H1 _ H2 _]. rewrite Forall_forall in H2.
    destruct (H2 r Hr Ha) as (start & x & F1 & F2 & F3 & F4 & _). exists start, x. split_and!; [done| |].
    + rewrite F3. apply bytes_are_take, bytes_are_from; [done|]. apply (th_stream _ (no_tells _ Hok)).
    + intros Hact Hp. specialize (F4 Hact). pose proof (pending_end _ _ _ _ H1 Hr Hp) as E. lia.
  - destruct Hw as (E & _). rewrite E in Hr. by apply elem_of_nil in Hr.
Qed.

Lemma accepted_agree st c id offset ok m : node_ok st →
  masterTryPartialResynchronization c id offset ok (own (ns_node st)) = Some (m, true) →
  (∃ known, same_replid id known = true ∧ agree known (replid (own (ns_node st))) (offset - 1)) ∧
  offset ≤ master_repl_offset (own (ns_node st)) + 1.
Proof.
  intros Hok. pose proof (no_world _ Hok) as Hw. pose proof (th_second _ (no_tells _ Hok)) as Hs. cbn in Hs.
  unfold masterTryPartialResynchronization, world_ok in *. cbn in Hw.
  destruct (negb (same_replid id (replid _)) && _) eqn:Eid; [by intros [=]|]. destruct (repl_backlog (own (ns_node st))) as [bl|] eqn:Eb; [|by intros [=]].
  destruct ((offset <? _) || _) eqn:Eo; [by intros [=]|]. intros _. apply orb_false_iff in Eo as [_ Eo%Z.ltb_ge]. split.
  - destruct (same_replid id (replid _)) eqn:E1; [by eexists|]. cbn in Eid.
    apply orb_false_iff in Eid as [E2%negb_false_iff E3%Z.ltb_ge].
    eexists. split; [exact E2|]. apply (agree_le _ _ _ _ Hs). lia.
  - destruct Hw as [(bl' & Hn & Hb) _ _ _]. pose proof (ro_backlog _ _ _ _ Hn) as E. cbn in E, Hb. assert (bl' = bl) as -> by congruence. lia.
Qed.
End histories.

(** ** Every server of a chain tells one history *)


(** ** A sample *)

Lemma bytes_are_check H id o s :
  forallb (λ i, bool_decide (Some (H id (o + Z.of_nat i)) = String.get i s)) (seq 0 (String.length s)) = true → bytes_are H id o s.
Proof.
  rewrite forallb_forall. intros Hs i c Hi. apply get_inside in Hi as Hl.
  specialize (Hs i ltac:(apply in_seq; lia)). apply bool_decide_eq_true in Hs. congruence.
Qed.

Lemma agree_check (H : string → Z → ascii) id id' k :
  forallb (λ o, bool_decide (H id (Z.of_nat o) = H id' (Z.of_nat o))) (seq 0 (S (Z.to_nat k))) = true → agree H id id' k.
Proof.
  rewrite forallb_forall. intros Hs o Ho. specialize (Hs (Z.to_nat o) ltac:(apply in_seq; lia)).
  rewrite Z2Nat.id in Hs by lia. by apply bool_decide_eq_true in Hs.
Qed.

(** Events with what they lead to, each of which is evaluated once. *)
Lemma allowed_step H usable over_limits dbnum cfg server s processCommand max ev evs st st' :
  node_step usable over_limits dbnum cfg server s processCommand max ev st = Some st' →
  node_allowed H dbnum ev st → commands_run server s processCommand max ev st →
  node_all_allowed H usable over_limits dbnum cfg server s processCommand max evs st' →
  node_all_allowed H usable over_limits dbnum cfg server s processCommand max (ev :: evs) st.
Proof. intros E Hev Hcmd Hevs. split_and!; [done..|]. intros st1 E1. rewrite E in E1. by injection E1 as <-. Qed.

(** It is enough to run the read. *)
Lemma read_runs server s processCommand max r st c id :
  the_master (ns_node st) = Some (c, id) →
  is_Some (readQueryFromClient server s processCommand max c r (ns_db st)) →
  commands_run server s processCommand max (LinkRead r) st.
Proof.
  intros Em Hrun c1 id1 acts E [c' Hacts]. rewrite Em in E. injection E as <- <-. rewrite Hacts in Hrun.
  unfold mbind, cmd_bind in Hrun. destruct (replay _ _ _) as [[]|]; [by eexists|by destruct Hrun].
Qed.

Definition first_id : string := "1111111111111111111111111111111111111111".
Definition chain_id : string := "8a4c8e5e2fd2d9de4d1c7a0fbb5a1b3c6d7e8f90".
Definition new_id : string := "9b5d9f6f3ae3eaef5e2d8b1acc6b2c4d7e8f9a01".

(** The history of the master from offset 201 on, and of the promoted replica. *)
Definition old_text : string := wire sample_wire +:+ resp_request ["DEL"; "c1"].
Definition new_text : string :=
  wire sample_wire +:+ resp_request ["SELECT"; "0"] +:+ resp_request ["SET"; "c2"; "9"].
Definition sample_history (id : string) (o : Z) : ascii :=
  default "000"%char (String.get (Z.to_nat (o - 201)) (if decide (id = new_id) then new_text else old_text)).

Definition plain_conf : repl_conf := mkConf None None 0 false 0 6380 None.
Definition answers (line : string) : node_event := Handshake (mkIo true (Some line) (λ _, true) true).
Definition lone_node : node :=
  mkNode (mkMaster [] 0 None 100 [] 1048576 (-1) first_id "0000000000000000000000000000000000000000" (-1)) None REPL_STATE_NONE None None EmptyString 0.

(** A server becomes a replica, gets one of its own, loses the connection
    inside a command, goes on, and is made a master; its replica comes back with
    the identifier and the offset that it had. *)
Definition chain_events : list node_event :=
  ReplicaOf "10.0.0.1" 6379 true ::
  (answers <$> [EmptyString; "+PONG"; "+OK"; "+OK"; fullresync_line chain_id 200]) ++
  [Loaded plain_server; Own (Sync (sample_env None (λ _, true)) (sample_client 0) (Some (chain_id, 201)));
   LinkRead (ReadData (stake 60 (wire sample_wire))); Own (WriteTo 0 (Some 1000%nat)); LinkLost true] ++
  (answers <$> [EmptyString; "+PONG"; "+OK"; "+OK"; "+CONTINUE"]) ++
  [LinkRead (ReadData (sdrop 52 (wire sample_wire))); ReplicaOfNoOne new_id true; Own (Propagate 0 ["SET"; "c2"; "9"]);
   Own (Sync (sample_env None (λ _, true)) (sample_client 0) (Some (chain_id, 253))); Own (WriteTo 0 (Some 1000%nat))].

Ltac sample_allowed :=
  lazymatch goal with
  | |- node_allowed _ _ (LinkRead _) _ =>
      let E := fresh in let E' := fresh in
      intros ? ? ? E E'; vm_compute in E; injection E as <- <-; injection E' as <-; apply bytes_are_check; vm_compute; reflexivity
  | |- node_allowed _ _ (ReplicaOfNoOne _ _) _ => apply agree_check; vm_compute; reflexivity
  | |- node_allowed _ _ (Own ?ev) _ =>
      let E := fresh in intros ? E; injection E as <-; split;
        [cbn; first [done|lia]|first [exact I|intros _; apply bytes_are_check; vm_compute; reflexivity]]
  | |- node_allowed _ _ (answers _) _ =>
      let E := fresh in intros E; try discriminate E;
      let line := fresh in let E' := fresh in intros line E'; injection E' as <-; split;
        [intros ? ? E'; vm_compute in E'; first [discriminate E'|injection E' as <- <-; lia]|
         intros E'; first [discriminate E'|eexists _, _; split; [reflexivity|intros ? E''; vm_compute in E''; discriminate E'']]]
  | |- _ => exact I
  end.

Ltac sample_commands :=
  lazymatch goal with
  | |- commands_run _ _ _ _ (LinkRead _) _ =>
      eapply read_runs; [reflexivity|]; eexists; vm_compute; reflexivity
  | |- _ => exact I
  end.

#[local] Abbreviation sample_run :=
  (node_run id (λ _ _, false) 16 plain_conf plain_env plain_standing table_command 1073741824 chain_events
     (start_node lone_node plain_server)).

Lemma sample_result : ∃ r m,
  (λ st, (slaves (own (ns_node st)), ns_told st !! 0%nat, replid (own (ns_node st)),
     masterTryPartialResynchronization (sample_client 1) chain_id 324 true (own (ns_node st)))) <$> sample_run =
    Some ([r], Some (253, sdrop 52 new_text), new_id, Some (m, true)) ∧ replica_id r = 0%nat ∧ replstate r = SLAVE_STATE_ONLINE.
Proof. eexists _, _. split; [vm_compute; reflexivity|done]. Qed.

