(* ===== verification/RedisServer.v ===== *)
(** * The Redis server keeps the contract of the clients

    The model of the server, one command at a time, is an instance of
    [KVServer]: the clients' theorems hold on it. *)

From S2P Require Import Prelude CLib Hiredis Program ServerSpec Util Glob Intset Listpack ListpackRep SetType.
From S2P Require Import Db DbRel Strings StringsSpec SetCommands KeyCommands SetAlgebra SetAlgebraSpec.
From S2P Require Import Keys AddGraph Server ServerRefine.

(** The server process, [None] once it has aborted, and the number of commands
    served, which stands for the passing of time. *)
Record redis_state : Type := mkRedis {
  process : option redisServer;
  served : nat;
}.

(** The circumstances of each command. *)
Record circumstances : Type := mkCircumstances {
  env_at : nat → environ;
  standing_at : nat → standing;
  files_at : nat → string → option string;
}.

Definition clear_reply (σ : redisServer) : redisServer :=
  mkServer (db σ) [] (dirty σ) (stat_keyspace_hits σ) (stat_keyspace_misses σ) (stat_expiredkeys σ).

Definition connection_lost : redisReply := RError "Server closed the connection".

(** Serve one request; the client reads the first reply. *)
Definition redis_serve (C : circumstances) (ack : Z) (st : redis_state) (argv : list string) :
    redis_state * redisReply :=
  let t := served st in
  match process st with
  | None => (st, connection_lost)
  | Some σ =>
      match execute (files_at C t) (mkRequest (env_at C t) (standing_at C t) ack argv) (clear_reply σ) with
      | None => (mkRedis None (S t), connection_lost)
      | Some (_, σ') => (mkRedis (Some σ') (S t), default connection_lost (reply σ' !! 0%nat))
      end
  end.

Definition redis_server (C : circumstances) : Server redis_state := redis_serve C.

(** ** What the clients see *)

Definition members_of (s : set_obj) : gset string :=
  list_to_set (default [] (for_each_element elements s (λ l e, Some (l ++ [element_text e])) [])).

Definition value_of (o : robj) : aval :=
  match o with OString s => AStr (object_text s) | OSet s => ASet (members_of s) end.

Definition redis_kv (st : redis_state) : gmap string aval :=
  match process st with Some σ => value_of <$> keys (db σ) | None => ∅ end.

(** A master that accepts commands at all times, whose clock is not at the end
    of its range. *)
Definition admitting (E : environ) (s : standing) : Prop :=
  authRequired s = false ∧ disk_error s = None ∧ checkGoodReplicasStatus E s = true ∧
  loading E && negb (async_loading s) = false.

Definition steady (C : circumstances) : Prop :=
  ∀ t, active (env_at C t) ∧ iterates (env_at C t) ∧ admitting (env_at C t) (standing_at C t) ∧
    0 ≤ commandTimeSnapshot (env_at C t) < 2 ^ 62.

(** A server that runs and whose keys do not expire. *)
Definition redis_good (st : redis_state) : Prop :=
  ∃ σ δ S, process st = Some σ ∧ db_rel δ (db σ) S ∧ ttls S = ∅.

Lemma members_of_rel s X : set_rel s X → members_of s = X.
Proof.
  intros Hs. unfold members_of.
  assert (iterates (mkEnv (mkSetConfig 0 0 0) 0 false (λ _, 0) elements false false false false false 0))
    as Ho by (by intros d).
  destruct (rel_listed elements Ho s X Hs) as (es & Hes & Hl).
  rewrite (for_each_elems elements s es), mfold_collect by done. cbn [default app].
  destruct Hl as [_ Hl _]. rewrite <- Hl. f_equal.
  apply list_fmap_ext. intros i e He. apply element_text_of.
  eapply Forall_lookup_1; [|done]. by apply (elems_int_ok _ s X es Hs Hes).
Qed.

Lemma value_of_rel o v : obj_rel o v → value_of o = v.
Proof.
  destruct o as [o|o], v as [s|X]; cbn; try done.
  - intros Hs. f_equal. by apply str_rel_text.
  - intros Hs. f_equal. by apply members_of_rel.
Qed.

Lemma redis_kv_vals δ S σ n : db_rel δ (db σ) S → redis_kv (mkRedis (Some σ) n) = vals S.
Proof.
  intros H. cbn. apply map_eq. intros k. rewrite lookup_fmap. pose proof (rel_vals _ _ _ H k) as Hk.
  destruct Hk as [o v Ho|]; cbn; [|done]. by rewrite (value_of_rel o v Ho).
Qed.

(** ** The contract *)

Section contract.
Context (C : circumstances) (HC : steady C).

(** From a run of the handler to the answer. *)
Lemma redis_serve_runs (P : store → redisReply → Prop) ack σ n argv st' r :
  runs (execute (files_at C n) (mkRequest (env_at C n) (standing_at C n) ack argv)) (clear_reply σ)
    (λ _ σ', ∃ δ' S' r, P S' r ∧ ttls S' = ∅ ∧ holds δ' S' [r] σ') →
  redis_serve C ack (mkRedis (Some σ) n) argv = (st', r) →
  redis_good st' ∧ ∃ S', P S' r ∧ redis_kv st' = vals S'.
Proof using Type.
  clear HC. unfold redis_serve, runs. cbn [process served].
  destruct (execute _ _ _) as [[[] σ']|]; [|done].
  intros (δ' & S' & r' & HP & Ht & Hdb & Hr). rewrite Hr. cbn. intros [= <- <-]. split.
  - by exists σ', δ', S'.
  - exists S'. split; [done|]. by apply redis_kv_vals with δ'.
Qed.

(** A command of the table that is called. *)
Lemma runs_called n ack name args c δ S σ Q :
  lookupCommand (redisCommandTable (files_at C n)) name = Some c →
  arity_ok c (name :: args) → db_rel δ (db σ) S →
  (∀ σ, holds δ S [] σ → runs (proc c (env_at C n) ack (name :: args)) σ Q) →
  runs (execute (files_at C n) (mkRequest (env_at C n) (standing_at C n) ack (name :: args)))
    (clear_reply σ) Q.
Proof using HC.
  intros Hc Ha Hdb Hrun. destruct (HC n) as ((Hm & _ & _) & _ & (Hauth & Hdisk & Hrep & Hload) & _).
  eapply runs_bind, runs_lift; [done|]. eapply runs_bind, runs_lift; [exact Hc|].
  unfold processCommand, refusal. cbn [r_env r_standing r_acks r_argv].
  unfold arity_ok in Ha. rewrite Ha, Hauth, Hdisk, Hrep, Hm, Hload. cbn [negb andb].
  rewrite andb_false_r. by apply Hrun.
Qed.

Lemma wait_reply_answer E ack n t m :
  0 ≤ commandTimeSnapshot E < 2 ^ 62 → answers ack m ["WAIT"; n; t] m (wait_reply E ack n t).
Proof using Type.
  clear. intros Hnow. unfold wait_reply.
  assert (¬ wait_ok n t ∨ ∃ a b, string2ll n = Some a ∧ string2ll t = Some b ∧ 0 ≤ b ≤ 2 ^ 62) as Hcase.
  { destruct (string2ll n) as [a|] eqn:Hn, (string2ll t) as [b|] eqn:Ht.
    2-4: left; intros [(a' & -> & Ha) (b' & -> & Hb)];
         rewrite (proj2 (string2ll_spec (pretty a') a')) in Hn by (unfold in_llong, LLONG_MIN, LLONG_MAX; split; [lia|done]);
         rewrite (proj2 (string2ll_spec (pretty b') b')) in Ht by (unfold in_llong, LLONG_MIN, LLONG_MAX; split; [lia|done]);
         done.
    destruct (decide (0 ≤ b ≤ 2 ^ 62)); [right; by exists a, b|left].
    intros [_ (b' & -> & Hb)].
    rewrite (proj2 (string2ll_spec (pretty b') b')) in Ht by (unfold in_llong, LLONG_MIN, LLONG_MAX; split; [lia|done]).
    simplify_eq. done. }
  destruct Hcase as [Hno|(a & b & -> & -> & Hb)].
  - repeat case_match; try (by apply ans_wait_refused); apply ans_wait.
  - destruct (Z.ltb_spec b 0), (Z.ltb_spec (LLONG_MAX - commandTimeSnapshot E) b);
      unfold LLONG_MAX in *; try lia; rewrite ?andb_false_r; apply ans_wait.
Qed.

Section at_time.
Context (ack : Z) (n : nat) (δ : drift) (S : store) (σ : redisServer).
Context (Hdb : db_rel δ (db σ) S) (Ht : ttls S = ∅).
Local Abbreviation E := (env_at C n).
Local Abbreviation ask argv :=
  (execute (files_at C n) (mkRequest E (standing_at C n) ack argv)).
Local Abbreviation answered argv :=
  (λ _ σ', ∃ δ' S' r, answers ack (vals S) argv (vals S') r ∧ ttls S' = ∅ ∧ holds δ' S' [r] σ').

Lemma no_ttl_live k : live E S k = vals S !! k.
Proof using Ht. clear HC Hdb. unfold live. by rewrite no_ttl. Qed.

Lemma answered_set k v : runs (ask ["SET"; k; v]) (clear_reply σ) (answered ["SET"; k; v]).
Proof using HC Hdb Ht.
  destruct (HC n) as (HE & _ & _ & _). eapply runs_called; [reflexivity|reflexivity|exact Hdb|].
  intros σ1 H1. finish by (by apply (runs_setCommand E HE "set" _ _ _ _ H1 "SET" k v [])).
  intros _ σ2 H2. eexists δ, (put k (AStr v) (persist k S)), ok. split_and!.
  - apply ans_set.
  - cbn. by rewrite Ht, delete_empty.
  - unfold gives, setCommand_result, set_result, set_store, set_reply, set_stopped in H2. cbn in H2.
    by rewrite no_ttl in H2.
Qed.

Lemma answered_get k : runs (ask ["GET"; k]) (clear_reply σ) (answered ["GET"; k]).
Proof using HC Hdb Ht.
  destruct (HC n) as (HE & _ & _ & _). eapply runs_called; [reflexivity|reflexivity|exact Hdb|].
  intros σ1 H1. finish by (by apply (runs_getCommand E HE _ _ _ _ H1 "GET" k)).
  intros _ σ2 H2. unfold gives, get_result in H2. cbn [fst snd] in H2.
  rewrite no_ttl, no_ttl_live in H2 by done. exists δ, S, (get_reply (vals S !! k)).
  split_and!; [apply ans_get|done|done].
Qed.

Lemma answered_smembers k : runs (ask ["SMEMBERS"; k]) (clear_reply σ) (answered ["SMEMBERS"; k]).
Proof using HC Hdb Ht.
  destruct (HC n) as (HE & Ho & _ & _). eapply runs_called; [reflexivity|reflexivity|exact Hdb|].
  intros σ1 H1. finish by (by apply (runs_smembersCommand E HE Ho _ _ _ _ "SMEMBERS" k H1)).
  intros _ σ2 (r & Hr & H2). unfold gives in H2. cbn [fst snd] in H2.
  rewrite no_ttl in H2 by done. rewrite no_ttl_live in Hr. exists δ, S, r.
  split_and!; [by apply ans_smembers|done|done].
Qed.

Lemma answered_keys :
  runs (ask ["KEYS"; nodes_pattern]) (clear_reply σ) (answered ["KEYS"; nodes_pattern]).
Proof using HC Hdb Ht.
  destruct (HC n) as (HE & Ho & _ & _). eapply runs_called; [reflexivity|reflexivity|exact Hdb|].
  intros σ1 H1. finish by (by apply (runs_keysCommand E Ho _ _ _ _ "KEYS" nodes_pattern H1)).
  intros _ σ2 (l & [Hnd Hl] & H2). exists δ, S, (RArray l). split_and!; [|done|exact H2].
  apply ans_keys. exists l. split_and!; [done|done|]. intros k. rewrite Hl, elem_of_dom.
  unfold keys_match, past_time. rewrite Ht, lookup_empty, bool_decide_eq_false_2 by done.
  rewrite andb_false_r. cbn [orb]. rewrite nodes_pattern_keys. tauto.
Qed.

Lemma answered_wait a t : runs (ask ["WAIT"; a; t]) (clear_reply σ) (answered ["WAIT"; a; t]).
Proof using HC Hdb Ht.
  destruct (HC n) as ((Hm & _ & _) & _ & _ & Hnow).
  eapply runs_called; [reflexivity|reflexivity|exact Hdb|].
  intros σ1 H1. finish by (by apply (runs_waitCommand E ack _ _ _ _ "WAIT" a t Hm H1)).
  intros _ σ2 H2. exists δ, S, (wait_reply E ack a t).
  split_and!; [by apply wait_reply_answer|done|exact H2].
Qed.

Lemma answered_supported argv : supported argv → runs (ask argv) (clear_reply σ) (answered argv).
Proof using HC Hdb Ht.
  intros Hsup. destruct Hsup; [by eapply answered_set|by eapply answered_get|by eapply answered_smembers
    |by eapply answered_keys|by eapply answered_wait].
Qed.
End at_time.

Lemma redis_serve_answers ack st argv st' r :
  redis_good st → supported argv → redis_serve C ack st argv = (st', r) →
  redis_good st' ∧ answers ack (redis_kv st) argv (redis_kv st') r.
Proof using HC.
  destruct st as [p n]. intros (σ & δ & S & Hp & Hdb & Ht) Hsup Hserve. cbn in Hp. subst p.
  rewrite (redis_kv_vals δ S σ n Hdb).
  enough (redis_good st' ∧ ∃ S', answers ack (vals S) argv (vals S') r ∧ redis_kv st' = vals S')
    as (? & S' & ? & ->) by done.
  eapply (redis_serve_runs (λ S' r, answers ack (vals S) argv (vals S') r)); [|exact Hserve].
  by eapply answered_supported.
Qed.

(** A command of the clients is executed to its end, with one reply. *)
Lemma redis_serve_one ack st argv st' r :
  redis_good st → supported argv → redis_serve C ack st argv = (st', r) →
  ∃ σ σ', process st = Some σ ∧ process st' = Some σ' ∧ reply σ' = [r] ∧
    execute (files_at C (served st)) (mkRequest (env_at C (served st)) (standing_at C (served st)) ack argv)
      (clear_reply σ) = Some ((), σ').
Proof using HC.
  destruct st as [p n]. intros (σ & δ & S & Hp & Hdb & Ht) Hsup. cbn in Hp. subst p.
  pose proof (answered_supported ack n δ S σ Hdb Ht argv Hsup) as Hrun. unfold redis_serve, runs in *. cbn [process served] in *.
  destruct (execute _ _ _) as [[[] σ']|] eqn:E; [|done]. destruct Hrun as (δ' & S' & r' & _ & _ & _ & Hr).
  rewrite Hr. cbn. intros [= <- <-]. by exists σ, σ'.
Qed.
End contract.

(** The instance, for circumstances under which the server accepts commands. *)
Definition redis_kv_server (C : circumstances) (HC : steady C) :
    @KVServer redis_state (redis_server C) :=
  @Build_KVServer redis_state (redis_server C) redis_kv redis_good (redis_serve_answers C HC).

(** ** A server that has just started *)

Definition started : redis_state := mkRedis (Some plain_server) 0.

(** ** Properties *)

(** The model of the Redis server keeps the contract that the clients'
    theorems rely on: a server that runs and whose keys do not expire answers
    [SET], [GET], [SMEMBERS], [KEYS] with the clients' pattern and [WAIT] as a
    map from keys to strings and sets would, whatever encodings the values
    have, and stays such a server. *)
Theorem redis_keeps_contract C ack st argv st' r
    (HC : steady C) (Hgood : redis_good st) (Hsup : supported argv)
    (Hserve : redis_serve C ack st argv = (st', r)) :
  redis_good st' ∧ answers ack (redis_kv st) argv (redis_kv st') r.
Proof. by apply (redis_serve_answers C HC). Qed.

Lemma started_good : redis_good started.
Proof. eexists _, _, no_data. split; [reflexivity|]. split; [apply plain_server_rel|done]. Qed.

Lemma redis_keeps_contract_witness :
  let C := mkCircumstances (λ _, plain_env) (λ _, plain_standing) (λ _ _, None) in
  let st' := (redis_serve C 0 started ["SET"; "node_1_color"; "7"]).1 in
  redis_good st' ∧
  answers 0 (redis_kv started) ["SET"; "node_1_color"; "7"] (redis_kv st') (RStatus "OK").
Proof.
  apply (redis_keeps_contract (mkCircumstances (λ _, plain_env) (λ _, plain_standing) (λ _ _, None)) 0
    started); [|apply started_good|constructor|].
  - intros t. split; [done|]. split; [by intros d|]. split; [done|]. cbn. lia.
  - vm_compute. reflexivity.
Defined.
