(* ===== verification/Wire.v ===== *)
(** * A command over the wire

    The parts of a connection together: hiredis formats a request and sends it
    ([Connection]), the server parses it ([Networking]) and executes it
    ([RedisServer]), builds the reply and writes it ([Output]), and hiredis
    parses the reply ([Reader]).  The bytes travel in pieces of any size. *)

From S2P Require Import Prelude CLib Buffers Hiredis Program ServerSpec Util Reader ReaderSpec ReaderTree Connection.
From S2P Require Import SetType Db DbRel Strings StringsSpec KeyCommands Server ServerRefine Networking NetworkingSpec RedisServer.
From S2P Require Import Output OutputSpec.

(** A reply of the server as the tree that the client reads. *)
Definition to_resp (r : redisReply) : resp :=
  match r with
  | RString s => PString s
  | RArray l => PAggregate REDIS_REPLY_ARRAY (PString <$> l)
  | RInteger z => PInteger z
  | RNil => PNil NilLine
  | RStatus s => PLine REDIS_REPLY_STATUS s
  | RError s => PLine REDIS_REPLY_ERROR s
  end.

(** The calls [e] build the reply [r]. *)
Definition builds (e : emission) (r : redisReply) : Prop := plain (resp_of e) = to_resp r.

(** The bytes [t] arrive in the pieces [l]. *)
Definition cut_of (l : list string) (t : string) : Prop := Forall (λ p, p ≠ EmptyString) l ∧ stream l = t.

(** An output between two replies. *)
Definition idle (o : output) : Prop :=
  out_ok o ∧ open o ∧ clientHasPendingReplies o = false.

Lemma idle_empty o : idle o → holes o = [] ∧ ∀ f, pending f o = EmptyString.
Proof.
  intros (Ho & _ & Hp). split; [|intros f; by apply idle_pending].
  unfold clientHasPendingReplies in Hp. apply orb_false_iff in Hp as [_ Hp%Nat.ltb_ge].
  unfold holes. by destruct (o_reply o); [|cbn in Hp; lia].
Qed.

(** When nothing is pending, a reply has left as it is. *)
Lemma reply_written usable iovmax e o rounds o' bytes :
  (∀ n, (n ≤ usable n)%nat) → (0 < iovmax)%nat → idle o → buildable e →
  run_events usable iovmax (Replies e :: (Writable <$> rounds)) o = Some (o', bytes) → idle o' →
  bytes = encode (resp_of e).
Proof.
  intros Hu Hi Hidle Hb Hrun Hidle'. destruct (idle_empty o Hidle) as [Hh Hp], (idle_empty o' Hidle') as [Hh' Hp'].
  destruct Hidle as (Ho & [Ha _] & _), Hidle' as (_ & [_ Hz] & _).
  destruct (events_in_order usable iovmax (Replies e :: (Writable <$> rounds)) o Hu Hi Ho Hh Ha)
    as (o2 & sent & lost & E & _ & _ & Heq & Hl).
  { constructor; [done|]. by apply Forall_fmap, Forall_forall. }
  rewrite E in Hrun. injection Hrun as -> ->. rewrite Hp, Hp', (Hl Hz) in Heq. cbn [replied String.append] in Heq.
  rewrite string_app_nil_r in Heq. rewrite <- Heq.
  assert (replied (Writable <$> rounds) = EmptyString) as -> by (clear; by induction rounds). by rewrite string_app_nil_r.
Qed.

Lemma builds_no_push e r : builds e r → ¬ is_push (resp_of e).
Proof. unfold builds. intros H [l Hl]. rewrite Hl in H. by destruct r. Qed.

Section wire.
Context (C : circumstances) (ack client_max_querybuf_len : Z).

(** What the server makes of the pieces of a request. *)
Definition server_reads (t : nat) (reads : list string) : cmd client :=
  serve_reads (env_at C t) (standing_at C t)
    (λ argv, execute (files_at C t) (mkRequest (env_at C t) (standing_at C t) ack argv))
    client_max_querybuf_len createClient (ReadData <$> reads).

(** The bounds within which a request is accepted. *)
Definition acceptable (t : nat) (argv : list string) (reads : list string) : Prop :=
  Networking.sendable (env_at C t) (standing_at C t) argv ∧
  Forall (λ p, len (resp_request argv) + len p ≤ client_max_querybuf_len ∧
    (authRequired (standing_at C t) = true → len (resp_request argv) + len p ≤ 1024 * 1024)) reads.

Lemma request_executed t argv reads σ : cut_of reads (resp_request argv) → acceptable t argv reads →
  server_reads t reads σ =
    '(_, σ') ← execute (files_at C t) (mkRequest (env_at C t) (standing_at C t) ack argv) σ; Some (createClient, σ').
Proof.
  intros [Hne Hcut] [Hs Hr]. unfold server_reads.
  rewrite (requests_served _ _ _ _ (len (resp_request argv)) [argv]); try done.
  - cbn. unfold mbind, cmd_bind. destruct (execute _ _ σ) as [[[] σ']|]; done.
  - by constructor.
  - by constructor.
  - rewrite Hcut. unfold wire. cbn. by rewrite string_app_nil_r.
Qed.

End wire.

(** ** A command on a fresh connection *)

Definition plain_conditions : circumstances := mkCircumstances (λ _, plain_env) (λ _, plain_standing) (λ _ _, None).

Definition keys_request : list string := ["KEYS"; nodes_pattern].

Definition sample_client : redisContext :=
  redisContextInit (Received <$> bytewise ("*0" +:+ CRLF)) [Sent 5; Sent (String.length (resp_request keys_request) - 5)].

Definition fresh_output : output := createOutput (λ n, n).

(** The empty array, its length filled in after its elements. *)
Definition sample_writes : list event := Replies (EDeferred []) :: (Writable <$> [[Wrote 1; WouldBlock]; [Wrote 9]]).

Definition output_after : output :=
  match run_events (λ n, n) 16 sample_writes fresh_output with Some (o, _) => o | None => fresh_output end.

Lemma output_after_idle : idle output_after.
Proof.
  split; [|by split].
  destruct (events_in_order (λ n, n) 16 sample_writes fresh_output) as (o & sent & lost & E & Ho & _); try done.
  - lia.
  - apply createOutput_ok.
  - repeat constructor; done.
  - unfold output_after. by rewrite E.
Qed.

