(* ===== verification/EndToEnd.v ===== *)
(** * From the graph file to the colouring

    The parts together: [add_graph] loads a file of edges into an empty
    Redis server, then the clients colour the graph on that server.  The
    clients' theorems, proved against the interface [KVServer], apply to the
    server model through [redis_kv_server]. *)

From S2P Require Import Prelude CLib Hiredis Program MinColor Client1 Protocol Keys.
From S2P Require Import ServerSpec Simulation ClientWp Refine1 RefineSync Colouring Termination CheckColor.
From S2P Require Import Util Glob Intset Listpack ListpackRep SetType Db DbRel Strings StringsSpec.
From S2P Require Import SetCommands KeyCommands SetAlgebra SetAlgebraSpec AddGraph Server ServerRefine.
From S2P Require Import RedisServer.

(** ** The graph of a file *)

Definition adj_of (N : Z) (es : list (Z * Z)) (u : Z) : list Z :=
  filter (λ v, (u, v) ∈ es ∨ (v, u) ∈ es) (seqZ 0 N).

(** The file lists edges between the nodes [0 .. N-1], without loops, and names
    every node. *)
Record graph_file (N : Z) (es : list (Z * Z)) : Prop := {
  gf_small : 0 ≤ N < 10 ^ 9;
  gf_loops : no_loops es;
  gf_nodes u : mentioned es u ↔ 0 ≤ u < N;
}.

Section file.
Context (N : Z) (es : list (Z * Z)) (G : graph_file N es).

Lemma edge_nodes u v : (u, v) ∈ es → 0 ≤ u < N ∧ 0 ≤ v < N ∧ u ≠ v.
Proof using G.
  intros H. split; [|split].
  - apply (gf_nodes N es G u). left. by apply (list_elem_of_fmap_2 fst) in H.
  - apply (gf_nodes N es G v). right. by apply (list_elem_of_fmap_2 snd) in H.
  - pose proof (gf_loops N es G) as Hl. unfold no_loops in Hl. rewrite Forall_forall in Hl.
    by apply (Hl (u, v)).
Qed.

Lemma elem_of_adj u v : v ∈ adj_of N es u ↔ (u, v) ∈ es ∨ (v, u) ∈ es.
Proof using G.
  unfold adj_of. rewrite list_elem_of_filter, elem_of_seqZ. split; [tauto|].
  intros H. split; [done|]. destruct H as [H%edge_nodes|H%edge_nodes]; lia.
Qed.

Lemma filter_sorted (P : Z → Prop) `{!∀ x, Decision (P x)} l :
  StronglySorted Z.lt l → StronglySorted Z.lt (filter P l).
Proof using Type.
  clear. induction 1 as [|x l _ IH Hx]; [constructor|]. rewrite filter_cons.
  destruct (decide (P x)); [|done]. constructor; [done|].
  apply Forall_forall. intros y [_ Hy]%list_elem_of_filter. rewrite Forall_forall in Hx. by apply Hx.
Qed.

Lemma adj_ok : graph_ok N (adj_of N es).
Proof using G.
  split; [split|apply G|].
  - intros u v. rewrite !elem_of_adj. tauto.
  - intros u. rewrite elem_of_adj. intros [H%edge_nodes|H%edge_nodes]; lia.
  - intros u. apply filter_sorted, seqZ_sorted.
  - intros u v. rewrite elem_of_adj. intros [H%edge_nodes|H%edge_nodes]; lia.
Qed.

Lemma adj_nbr_set u : list_to_set (pretty <$> adj_of N es u) = nbr_set es u.
Proof using G.
  apply set_eq. intros x. unfold nbr_set. rewrite !elem_of_list_to_set, list_elem_of_fmap, list_elem_of_omap.
  split.
  - intros (v & -> & Hv%elem_of_adj). destruct Hv as [Hv|Hv].
    + exists (u, v). split; [done|]. unfold other_end. cbn. by rewrite decide_True.
    + exists (v, u). split; [done|]. unfold other_end. cbn. apply edge_nodes in Hv.
      rewrite decide_False by lia. by rewrite decide_True.
  - intros ([a b] & He & Hx). unfold other_end in Hx. cbn in Hx.
    repeat case_decide; simplify_eq; [exists b|exists a]; (split; [done|]); apply elem_of_adj; auto.
Qed.

(** The loaded store is one the clients may start on. *)
Lemma graph_store_fresh S : graph_store es S → fresh_store N (adj_of N es) (vals S).
Proof using G.
  intros [Ht Hn Hc Hk].
  assert (∀ k, (∀ u, k ≠ neighbours_key u) → (∀ u, k ≠ color_key u) → vals S !! k = None) as Hnone.
  { intros k Hk1 Hk2. destruct (vals S !! k) eqn:Hv; [|done].
    destruct (Hk k) as (u & [->| ->]); [by rewrite Hv|by destruct (Hk1 u)|by destruct (Hk2 u)]. }
  split.
  - intros u v. apply Hnone; intros; distinct_keys.
  - intros u v. apply Hnone; intros; distinct_keys.
  - intros u. rewrite Hc. case_decide; auto.
  - intros u. apply Hnone; intros; distinct_keys.
  - intros u Hu. rewrite Hn, decide_True by (by apply (gf_nodes N es G)). by rewrite adj_nbr_set.
  - intros k Hnk Hs. pose proof Hs as [u [->| ->]]%Hk; [|by apply color_not_nodes in Hnk].
    exists u. split; [|done]. rewrite Hn in Hs. case_decide; [by apply (gf_nodes N es G)|by destruct Hs].
Qed.
End file.

(** ** Loading the graph *)

Section load.
Context (C : circumstances) (HC : steady C) (Hlim : limits_ok (set_limits (env_at C 0))).
Context (file content : string) (Hfile : files_at C 0 (c_str file) = Some content).
Context (Hloops : no_loops (edges_of content)).

(** [add_graph] on an empty server replies OK and leaves the graph. *)
Lemma load_graph ack :
  ∃ st S, redis_serve C ack started ["add_graph"; file] = (st, RStatus "OK") ∧
    redis_good st ∧ redis_kv st = vals S ∧ graph_store (edges_of content) S.
Proof using HC Hlim Hfile Hloops.
  destruct (redis_serve C ack started ["add_graph"; file]) as [st r] eqn:Hserve.
  destruct (HC 0%nat) as (HE & Ho & _ & _).
  destruct (graph_result_load (env_at C 0) _ [] no_data Hloops no_data_graph) as (S & HS & Hg).
  enough (redis_good st ∧ ∃ S', (r = RStatus "OK" ∧ S' = S) ∧ redis_kv st = vals S')
    as (? & S' & [-> ->] & ?) by (exists st, S; done).
  eapply (redis_serve_runs C (λ S' r, r = RStatus "OK" ∧ S' = S)); [|exact Hserve].
  eapply (runs_called C HC); [reflexivity|reflexivity|apply plain_server_rel|].
  intros σ H. pose proof (runs_addGraphCommand (env_at C 0) HE Ho Hlim (files_at C 0) _ _ _ _
    "add_graph" file [] H) as Hrun.
  rewrite Hfile, HS in Hrun. finish by (exact Hrun). intros _ σ' [δ' H'].
  exists δ', S, ok. split_and!; [done|done|apply Hg|exact H'].
Qed.
End load.

Definition loaded (C : circumstances) (ack : Z) (file : string) : redis_state :=
  (redis_serve C ack started ["add_graph"; file]).1.

Lemma loaded_fresh C ack file content N :
  steady C → limits_ok (set_limits (env_at C 0)) → files_at C 0 (c_str file) = Some content → graph_file N (edges_of content) →
  redis_good (loaded C ack file) ∧
  fresh_store N (adj_of N (edges_of content)) (redis_kv (loaded C ack file)).
Proof.
  intros HC Hlim Hfile G. unfold loaded.
  destruct (load_graph C HC Hlim file content Hfile (gf_loops _ _ G) ack) as (st & S & -> & Hg & Hkv & HS).
  split; [done|]. cbn [fst]. rewrite Hkv. by apply graph_store_fresh.
Qed.

(** ** An instance: the triangle *)

Definition triangle_file : string := "0,1
0,2
1,2
".

Definition triangle_files (name : string) : option string :=
  if decide (name = "triangle.csv") then Some triangle_file else None.

Definition plain_circumstances : circumstances :=
  mkCircumstances (λ _, plain_env) (λ _, plain_standing) (λ _, triangle_files).

Lemma plain_steady : steady plain_circumstances.
Proof. intros t. split; [done|]. split; [by intros d|]. split; [done|]. cbn. lia. Qed.

Lemma triangle_edges : edges_of triangle_file = [(0, 1); (0, 2); (1, 2)].
Proof. vm_compute. reflexivity. Qed.

Lemma triangle_graph : graph_file 3 (edges_of triangle_file).
Proof.
  rewrite triangle_edges. split; [lia|repeat constructor; done|].
  intros u. unfold mentioned. cbn. rewrite !elem_of_cons, elem_of_nil. lia.
Qed.

Definition triangle_system (ps : list (prog Z)) : @system redis_state :=
  (loaded plain_circumstances 0 "triangle.csv", (λ p, (p, true)) <$> ps).

Definition triangle_run (ps : list (prog Z)) : @system redis_state :=
  default (triangle_system ps)
    (@exec _ (redis_server plain_circumstances) 1 None (alternate 200) (triangle_system ps)).

(** ** Properties *)

(** C5: for every file that lists the edges of a graph on the nodes 0..N-1
    without self-loops: after [add_graph] has loaded it into an empty Redis
    server, whose integer sets are limited to fewer than 2^29 entries, in every
    state that any interleaving of 1-server clients with disjoint ranges, whose
    uninitialised lock buffers are harmless, reaches on that server, adjacent
    coloured nodes have different colours, no colour exceeds the degree of its
    node, and every client that has returned 0 on a working connection has
    coloured its range. *)
Theorem redis_colouring C N file content ranges argvs calloc_ok uninit ack c
    (HC : steady C) (Hlim : limits_ok (set_limits (env_at C 0)))
    (Hfile : files_at C 0 (c_str file) = Some content)
    (G : graph_file N (edges_of content))
    (Hdisj : disjoint_ranges ranges) (Hargs : ranges_of argvs ranges)
    (Huninit : uninit_harmless ranges uninit)
    (Hc : @reachable _ (redis_server C) (loaded C ack file) (clients1 calloc_ok uninit argvs) c) :
  proper_store (adj_of N (edges_of content)) (redis_kv (loaded C ack file)) (redis_kv c.1) ∧
  ∀ i r, ranges !! i = Some r → c.2 !! i = Some (Ret 0, true) → all_coloured r (redis_kv c.1).
Proof.
  destruct (loaded_fresh C ack file content N HC Hlim Hfile G) as [Hgood Hfresh].
  exact (proj1 (@system1_sound _ _ (redis_kv_server C HC) N _ ranges argvs (adj_ok N _ G) Hdisj Hargs
    calloc_ok (loaded C ack file) Hgood Hfresh uninit c Huninit Hc)).
Qed.

Lemma redis_colouring_witness :
  let c := triangle_run (clients1 (λ _ _, true) blank_lock triangle_args) in
  (proper_store (adj_of 3 (edges_of triangle_file))
    (redis_kv (loaded plain_circumstances 0 "triangle.csv")) (redis_kv c.1) ∧
  ∀ i r, triangle_ranges !! i = Some r → c.2 !! i = Some (Ret 0, true) →
    all_coloured r (redis_kv c.1)) ∧
  redis_kv c.1 !! color_key 0 = Some (AStr "2") ∧ redis_kv c.1 !! color_key 1 = Some (AStr "0") ∧
  redis_kv c.1 !! color_key 2 = Some (AStr "1").
Proof.
  split; [|vm_compute; repeat split].
  apply (redis_colouring plain_circumstances 3 "triangle.csv" triangle_file triangle_ranges
    triangle_args (λ _ _, true) blank_lock 0); [apply plain_steady|done|reflexivity|apply triangle_graph
    |apply triangle_disjoint|apply triangle_args_ok|apply blank_harmless|].
  apply (@exec_default _ (redis_server plain_circumstances)).
Defined.

(** C6: clients with disjoint ranges that wait for replicas, run one after the
    other on a Redis server into which [add_graph] has loaded the graph, all
    return 0 and leave a proper colouring of all their ranges, when the
    replicas they ask for are there.  The file and the limit of integer sets
    are as for the concurrent clients. *)
Theorem redis_sync_colouring_ends C N file content ranges argvs calloc_ok ack clk
    (HC : steady C) (Hlim : limits_ok (set_limits (env_at C 0)))
    (Hfile : files_at C 0 (c_str file) = Some content)
    (G : graph_file N (edges_of content))
    (Hdisj : disjoint_ranges ranges) (Hargs : ranges_of argvs ranges)
    (Hrun : all_runnable N argvs ranges)
    (Hreplicas : Forall (λ argv, ∃ n,
      argv !! 6%nat = Some n ∧ wait_ok n "10000" ∧ atoi n ≤ wrap_s 32 ack) argvs)
    (Hcalloc : ∀ i z, 0 < z ≤ INT_MAX → calloc_ok i z = true) :
  ∃ fuel st',
    @run_all _ (redis_server C) fuel ack clk (loaded C ack file) (clients_sync calloc_ok argvs) =
      Some (st', replicate (length argvs) (Returned 0)) ∧
    proper_store (adj_of N (edges_of content)) (redis_kv (loaded C ack file)) (redis_kv st') ∧
    Forall (λ r, all_coloured r (redis_kv st')) ranges.
Proof.
  destruct (loaded_fresh C ack file content N HC Hlim Hfile G) as [Hgood Hfresh].
  exact (@system_sync_ends _ _ (redis_kv_server C HC) N _ ranges argvs (adj_ok N _ G) Hdisj Hargs Hrun
    calloc_ok Hcalloc (loaded C ack file) Hgood Hfresh ack clk Hreplicas).
Qed.

Lemma redis_sync_colouring_ends_witness :
  ∃ fuel st',
    @run_all _ (redis_server plain_circumstances) fuel 1 None
        (loaded plain_circumstances 1 "triangle.csv") (clients_sync (λ _ _, true) triangle_args) =
      Some (st', [Returned 0; Returned 0]) ∧
    proper_store (adj_of 3 (edges_of triangle_file))
      (redis_kv (loaded plain_circumstances 1 "triangle.csv")) (redis_kv st') ∧
    Forall (λ r, all_coloured r (redis_kv st')) triangle_ranges.
Proof.
  apply (redis_sync_colouring_ends plain_circumstances 3 "triangle.csv" triangle_file
    triangle_ranges triangle_args (λ _ _, true) 1 None); [apply plain_steady|done|reflexivity
    |apply triangle_graph|apply triangle_disjoint|apply triangle_args_ok| | |done].
  - repeat constructor; simpl; lia.
  - repeat constructor; (exists "1"; split; [reflexivity|]; split;
      [split; [exists 1|exists 10000]; split; [reflexivity|lia|reflexivity|lia]
      |vm_compute; discriminate]).
Defined.

(** C7: the whole way.  A file that lists the edges of a graph on the nodes
    0..N-1, without self-loops, is loaded by [add_graph] into an empty server
    whose integer sets are limited to fewer than 2^29 entries.  1-server
    clients, whose ranges are disjoint and together have every node, colour the
    graph on that server, interleaved in any way, and all return 0; their
    uninitialised lock buffers are harmless.  Then the checking script, with any
    client library that does what its documentation says, finds no error, prints
    that the colouring is valid and leaves the server as it is. *)
Theorem redis_checked C N file content ranges argvs calloc_ok uninit ack c py
    (HC : steady C) (Hlim : limits_ok (set_limits (env_at C 0)))
    (Hfile : files_at C 0 (c_str file) = Some content)
    (G : graph_file N (edges_of content))
    (Hdisj : disjoint_ranges ranges) (Hargs : ranges_of argvs ranges)
    (Hcover : ∀ u, 0 ≤ u < N → ∃ r, r ∈ ranges ∧ r.1 ≤ u ≤ r.2)
    (Huninit : uninit_harmless ranges uninit)
    (Hc : @reachable _ (redis_server C) (loaded C ack file) (clients1 calloc_ok uninit argvs) c)
    (Hdone : Forall (λ q, q = (Ret 0, true)) c.2)
    (Hpy : @py_ok _ (redis_server C) (redis_kv_server C HC) py) :
  ∃ st', is_coloring_valid py c.1 =
      Some (st', 0, ["Total nodes processed: " +:+ pretty N; "Graph coloring is valid."]) ∧
    redis_kv st' = redis_kv c.1.
Proof.
  destruct (loaded_fresh C ack file content N HC Hlim Hfile G) as [Hgood Hfresh].
  destruct (@system1_sound _ _ (redis_kv_server C HC) N _ ranges argvs (adj_ok N _ G) Hdisj Hargs
    calloc_ok (loaded C ack file) Hgood Hfresh uninit c Huninit Hc) as [[Hproper Hall] Hgood'].
  assert (conflicts N (adj_of N (edges_of content)) (redis_kv c.1) = []) as Hno.
  { eapply coloured_no_conflicts; [by apply adj_ok|exact Hproper|exact Hcover|]. apply Forall_lookup. intros i r Hi.
    apply (Hall i r Hi).
    apply reachable_length in Hc. unfold clients1 in Hc. rewrite length_imap, (Forall2_length _ _ _ Hargs) in Hc.
    apply lookup_lt_Some in Hi. destruct (lookup_lt_is_Some_2 c.2 i) as [q Hq]; [lia|].
    pose proof (Forall_lookup_1 _ _ _ _ Hdone Hq) as ->. exact Hq. }
  destruct (@checker_run _ _ (redis_kv_server C HC) py Hpy N _ (redis_kv c.1) (adj_ok N _ G)
    (proper_held _ _ _ _ Hfresh Hproper) c.1) as (st' & lines & E & [_ Hk] & Hl); [done|].
  rewrite Hno in E, Hl. apply Permutation_nil_r in Hl as ->. by exists st'.
Qed.

Lemma redis_checked_witness :
  let c := triangle_run (clients1 (λ _ _, true) blank_lock triangle_args) in
  ∃ st', is_coloring_valid (@direct _ (redis_server plain_circumstances) 0) c.1 =
      Some (st', 0, ["Total nodes processed: 3"; "Graph coloring is valid."]) ∧
    redis_kv st' = redis_kv c.1.
Proof.
  apply (redis_checked plain_circumstances 3 "triangle.csv" triangle_file triangle_ranges triangle_args
    (λ _ _, true) blank_lock 0 _ _ plain_steady); [done|reflexivity|apply triangle_graph|apply triangle_disjoint
    |apply triangle_args_ok| |apply blank_harmless| | |apply direct_ok].
  - intros u Hu. destruct (decide (u = 2)); [exists (2, 2)|exists (0, 1)]; cbn; (split; [set_solver|lia]).
  - apply (@exec_default _ (redis_server plain_circumstances)).
  - vm_compute. repeat constructor.
Defined.
